(* ===== verification/_CoqProject ===== *)
-Q . S2P
Prelude.v
Ctaes.v
Fips197.v
CtaesProofs.v
CtaesTheorems.v
SphBlake.v
BlakeSpec.v
SphBlakeProofs.v
SphBlakeTheorems.v
Blake2b.v
Rfc7693.v
Blake2bProofs.v
Blake2bTheorems.v
Argon2.v
Argon2Threads.v
Argon2Spec.v
Argon2Block.v
Argon2Fill.v
Argon2Init.v
Argon2Pass0.v
Argon2ThreadProofs.v
Argon2Claims.v
Sponge.v
Lyra2.v
Lyra2Spec.v
Lyra2Proofs.v
SpongePerm.v
Lyra2Theorems.v
Lyra2Claims.v
MerkleTree.v
MerkleProofs.v
MerkleClaims.v
Arith256.v
Arith256Proofs.v
Arith256Compact.v
Arith256Claims.v
Uint256.v
Uint256Claims.v
Serialize.v
SerializeProofs.v
SerializeClaims.v
Mtp.v
MtpProofs.v
MtpSearch.v
MtpClaims.v
Block.v
BlockProofs.v
BlockClaims.v
MtpShape.v
MdHash.v
MdProofs.v
Fips180.v
Sha2.v
Sha2Proofs.v
Sha1.v
Ripemd160.v
LegacyHash.v
Hash.v
SipHash.v
HashClaims.v
Scrypt.v
ScryptClaims.v
Pow.v
PowClaims.v
PowMining.v
AesCbc.v
AesCbcClaims.v
Crypter.v
CrypterClaims.v
KeyStore.v
KeyStoreClaims.v
BlockMerkle.v
BlockMerkleSpec.v
BlockMerkleClaims.v
PartialMerkle.v
PartialMerkleClaims.v
Bloom.v
BloomClaims.v
Chain.v
ChainClaims.v
