(* ===== verification/Prelude.v ===== *)
(** * Verification of the core of the zcoin node

    The node's own algorithms: its proof of work, the tree of block headers, the hash
    functions and ciphers, the formats of headers, the Merkle trees and filters of light
    clients, and the encryption of the wallet's keys.  Every definition that translates
    code keeps the name it has there; paths are relative to src/src.

    ** The program and how its parts interact

    A header (primitives/block.h) is serialized (serialize.h, streams.h), hashed and
    compared with a target (pow.cpp, arith_uint256.cpp).  Until the switch to the Merkle
    tree proof the hash is scrypt (height 0), a table, or Lyra2Z over BLAKE-256
    (crypto/Lyra2Z); from then on crypto/MerkleTreeProof/mtp.cpp fills 4 GiB by Argon2
    (core.c, ref.c, with threads), builds a Merkle tree over the blocks with BLAKE2b,
    searches a nonce and puts openings of the tree into the header, which another node
    verifies.  Transactions of a block are bound to the header by consensus/merkle.cpp;
    merkleblock.cpp sends the part of that tree that bloom.cpp matches.  hash.h provides
    double SHA-256, HMAC, SipHash and MurmurHash3; wallet/crypter.cpp encrypts keys with
    AES-256-CBC (crypto/aes.cpp over ctaes.c) under a key from an iterated SHA-512.

    ** Files

    Prelude: machine words, bytes, arrays, loops with and without checks, tactics and
    hints.  For each component a file with its state and operations, a file with the
    reference definitions where a standard exists, files with lemmas, and a file with the
    theorems (Theorems or Claims):

    - crypto/ctaes/ctaes.c: Ctaes; reference Fips197; CtaesProofs, CtaesTheorems.
      The S-box circuit is polymorphic in a class of bits, so that one run on truth tables
      proves it for all sixteen positions of a slice.
    - crypto/Lyra2Z/blake.c: SphBlake; reference BlakeSpec; SphBlakeProofs, SphBlakeTheorems.
    - crypto/MerkleTreeProof/blake2/blake2b.c: Blake2b; reference Rfc7693; Blake2bProofs,
      Blake2bTheorems.
    - crypto/MerkleTreeProof/core.c, ref.c, thread.c: Argon2 and Argon2Threads (a transition
      system for pthreads); reference Argon2Spec; Argon2Block, Argon2Fill, Argon2Init,
      Argon2Pass0, Argon2ThreadProofs, Argon2Claims.
    - crypto/Lyra2Z/Sponge.c, Lyra2.c, Lyra2Z.c: Sponge, Lyra2; reference Lyra2Spec;
      Lyra2Proofs, SpongePerm, Lyra2Theorems, Lyra2Claims.
    - crypto/MerkleTreeProof/merkle-tree.cpp: MerkleTree, MerkleProofs, MerkleClaims.
    - arith_uint256.cpp, uint256.cpp: Arith256, Arith256Proofs, Arith256Compact,
      Arith256Claims; Uint256, Uint256Claims.
    - serialize.h, streams.h: Serialize (a reader is a function from a stream to a value or
      an exception), SerializeProofs, SerializeClaims.
    - crypto/MerkleTreeProof/mtp.cpp: Mtp, MtpProofs, MtpSearch, MtpClaims, MtpShape.
    - primitives/block.h, block.cpp: Block, BlockProofs, BlockClaims.
    - crypto/sha256.cpp, sha512.cpp, sha1.cpp, ripemd160.cpp, hmac_*.cpp: MdHash (the shared
      object), Sha2, Sha1, Ripemd160; reference Fips180; MdProofs, Sha2Proofs, LegacyHash.
    - hash.h, hash.cpp: Hash, HashClaims, SipHash.
    - crypto/scrypt.cpp: Scrypt; reference in ScryptClaims.
    - pow.cpp and the solving loop of rpc/mining.cpp: Pow, PowClaims, PowMining.
    - crypto/aes.cpp: AesCbc, AesCbcClaims.
    - wallet/crypter.cpp, keystore.cpp: Crypter, CrypterClaims; KeyStore, KeyStoreClaims.
    - consensus/merkle.cpp: BlockMerkle; reference BlockMerkleSpec; BlockMerkleClaims.
    - merkleblock.cpp: PartialMerkle, PartialMerkleClaims; CMerkleBlock is in Bloom.
    - bloom.cpp, with GetOp2 of script/script.h: Bloom, BloomClaims.
    - chain.h, chain.cpp, AddToBlockIndex and FindForkInGlobalIndex of validation.cpp,
      LastCommonAncestor of net_processing.cpp: Chain, ChainClaims.  The objects of the index
      are a list that grows, and pointers are places in it.

    Integers are [Z] with their wrap-around written out, memory is a list of bytes or words,
    pointers that may be null are options.  [None] stands for undefined behaviour (an access
    out of range, an overflow of a signed integer, a division by zero, a null pointer) or a
    failed assertion, so a theorem that a function returns [Some] shows that this does not
    occur.  Arrays that the code reads or overwrites before it has set them are arguments,
    and the theorems hold for all their contents.

    ** Interfaces

    [BitAlg] and [BitHom] (AES circuit), [BlakeVersion] and [BlakeLaws] (the 32-bit and the
    64-bit BLAKE), [CompressSpec] (BLAKE2b with 12 and with 4 rounds), [MdFun] and [MdLaws]
    (the four Merkle-Damgard hashers), [Sha2Code] and [Sha2Laws], [Format] (a reader and the
    encoding it accepts), [KeyLaws] (what the key store needs of secp256k1), [OpensslSha256]
    and [OpensslLaws] (SHA-256 of OpenSSL, used by scrypt).  Clients are proved against the
    class, the instances discharge it.

    ** What the theorems show

    - The hash functions, AES, AES-CBC, Lyra2Z and scrypt compute their reference
      definitions for all inputs, any splitting into updates and any earlier contents of
      their buffers; AES-CBC, the encryption of secrets and the key store give back what was
      encrypted.  LYRA2 is the Lyra2 of the specification when its number of rows divides
      2^64, as the 8 rows of Lyra2Z do; for other numbers its even passes visit other rows,
      which is stated too, and so is what failed allocations lead to.
    - The filling of the memory is that of Argon2d in RFC 9106, with the block function of
      the Merkle tree proof, whatever the type of the instance says.
    - Multi-threaded filling, with at most as many threads as lanes, ends and gives the
      memory of the single-threaded one in every interleaving, or fails after a failed call
      of pthreads or calloc.
    - Proof of work: the search finds the least solution of a problem that is stated without
      the functions of the code, or there is none, and then mtp_hash never returns; what it writes
      has the types of the header and is accepted by the verification; mined headers pass
      both checks of another node that reads them.  Openings of the tree are complete and
      binding up to collisions of the hash.
    - Numbers: every operator of base_uint (x *= x gives 0), the compact form of targets,
      retargeting.
    - Headers, sizes, filters and partial trees are read as what was written, and for headers
      nothing else is accepted.
    - Merkle trees of blocks: the constant-space computation is the tree by levels, branches
      lead to the root, the root without the mutation flag binds the transactions of trees of
      one height; partial trees give exactly the chosen transactions, and none that is not in the block.
    - Filters have no false negatives, relevance is membership of one of the things a
      transaction is found by, and a light client gets every such transaction; the rolling
      filter keeps the last entries it was made for.
    - Block index: what every sequence of headers leaves in it (parents, heights, skip
      pointers, work, times and maps); ancestors by skip pointers are those by [pprev]; the
      active chain is the path to its tip; forks, common ancestors, locators, the earliest
      block after a time and median times.
    - Key store: the invariant of all operations, of which the absence of plain keys beside
      encrypted ones is lost by a failed EncryptKeys and by nothing else; encryption as a
      change of representation, and soundness of unlocking.

    ** Bounds and fuel

    Loops that count are ranges. Where recursion is not structural the fuel is proved to be
    enough: 2^32 turns for the nonces of mtp_hash1 (a hypothesis gives at least that many),
    one turn per layer for getLayers, 65 halvings in adjust_index, the length of the data
    for the hasher objects and scripts, 64 shifts in GetNfactor, size/16 blocks in CBC, 32
    levels of a block's Merkle tree (at most 2^31 leaves) and 31 of a partial tree (at most
    33333 transactions, the limit of ExtractMatches). Walks in the block index take as many
    turns as heights, which are below 2^31 (2^30 for locators, whose step then stays an
    int). Interleavings of threads are lists of choices. Messages have fewer than 2^64 bits.
    scrypt is defined up to a memory factor of 22, and a 32-bit time stamp never asks for
    more than 20.

    ** Arguments and laws

    Code outside of this tree is an argument: boost's conversion of 32 bytes to a number,
    malloc and pthreads by what they return, SHA-256 of OpenSSL, secp256k1 by [KeyLaws], random
    numbers, and the results of floating-point formulas for the sizes of filters.  Of code in
    this tree the table of precomputed hashes, the payload of special transactions and
    whether Solver finds a script that pays to keys are arguments.

    ** Not modelled

    GetNextWorkRequired with its floating-point tables (pow.cpp); the precomputed hashes
    themselves; scrypt-sse2.cpp and the SSE round function of BLAKE2 (intrinsics); chacha20;
    getdouble; tracing output; Windows threads; scripts and watch-only addresses of the key
    store. The fields of the block index for files, coins and sporks and its form on disk.
    Validation and chain state (databases, files, locks), the execution of scripts,
    networking, the rest of the wallet, the privacy protocols over libsecp256k1,
    masternodes, RPC and the graphical interface are state and I/O around the modelled
    parts; vendored libraries and tests are not the node's code. *)

From Stdlib Require Export ZArith Lia Bool Ring Btauto.
From stdpp Require Export base option list numbers tactics.

#[global] Open Scope Z_scope.

(** ** Machine words

    A w-bit unsigned integer of the C code is a [Z] in [0 .. 2^w); the C
    conversions to a w-bit type are [wrap w]. *)

Definition wrap (w x : Z) : Z := x mod 2 ^ w.
Definition u8 (x : Z) : Z := wrap 8 x.
Definition u16 (x : Z) : Z := wrap 16 x.
Definition u32 (x : Z) : Z := wrap 32 x.
Definition u64 (x : Z) : Z := wrap 64 x.

(** The greatest [int] *)
Definition int_max : Z := 2 ^ 31 - 1.

Definition word (w x : Z) : Prop := 0 <= x < 2 ^ w.
Definition words (w : Z) (l : list Z) : Prop := Forall (word w) l.

(** Executable versions of the range predicates. *)
Definition wordb (w x : Z) : bool := (0 <=? x) && (x <? 2 ^ w).
Definition wordsb (w : Z) (l : list Z) : bool := forallb (wordb w) l.

(** ** Byte order

    [le_bytes n x] are the [n] bytes of [x], least significant first;
    [le_word] reads them back; the big-endian versions reverse the order. *)

Fixpoint le_bytes (n : nat) (x : Z) : list Z :=
  match n with
  | O => []
  | S n' => Z.land x 255 :: le_bytes n' (Z.shiftr x 8)
  end.

Fixpoint le_word (l : list Z) : Z :=
  match l with
  | [] => 0
  | b :: l' => Z.lor b (Z.shiftl (le_word l') 8)
  end.

Definition be_bytes (n : nat) (x : Z) : list Z := reverse (le_bytes n x).
Definition be_word (l : list Z) : Z := le_word (reverse l).

(** ** Byte arrays *)

(** [memcpy(dst + off, src, length src)] *)
Definition write_at (off : nat) (src dst : list Z) : list Z :=
  take off dst ++ src ++ drop (off + length src) dst.

(** [len] bytes read from [src + off] *)
Definition read_at (off len : nat) (src : list Z) : list Z :=
  take len (drop off src).

(** ** Loops

    [for_range lo hi f s] is [for (i = lo; i < hi; i++) s = f(i, s);], and
    [for_rangeM] is the same loop with a body that may fail. *)

Definition for_range {S} (lo hi : nat) (f : nat -> S -> S) (s : S) : S :=
  fold_left (fun s i => f i s) (seq lo (hi - lo)) s.

Definition fold_leftM {A S} (f : S -> A -> option S) (l : list A) (s : S) : option S :=
  fold_left (fun o a => s ← o; f s a) l (Some s).

Definition for_rangeM {S} (lo hi : nat) (f : nat -> S -> option S) (s : S) : option S :=
  fold_leftM (fun s i => f i s) (seq lo (hi - lo)) s.

(** The 256 bytes. *)
Definition all_bytes : list Z := map Z.of_nat (seq 0 256).

(** ** Hint databases and tactics *)

Create HintDb word_db.
Create HintDb bits_db.

(** ** Lemmas on words *)

Lemma pow2_pos w : 0 <= w -> 0 < 2 ^ w.
Proof. intros; apply Z.pow_pos_nonneg; lia. Qed.

Lemma pow2_nat_pos k : (0 < 2 ^ k)%nat.
Proof. apply Nat.neq_0_lt_0, Nat.pow_nonzero; lia. Qed.

Lemma wrap_word w x : 0 <= w -> word w (wrap w x).
Proof. intros; apply Z.mod_pos_bound, pow2_pos; lia. Qed.

Lemma wrap_id w x : word w x -> wrap w x = x.
Proof. apply Z.mod_small. Qed.

Lemma u32_id x : word 32 x -> u32 x = x.
Proof. apply wrap_id. Qed.

Lemma wordb_spec w x : wordb w x = true <-> word w x.
Proof. unfold wordb, word; lia. Qed.

Lemma wordsb_spec w l : wordsb w l = true <-> words w l.
Proof.
  unfold wordsb, words; induction l as [|x l IH]; simpl; [by split|].
  rewrite andb_true_iff, wordb_spec, IH; split; [intros []; by constructor|].
  intros H; by inversion H.
Qed.

Lemma testbit_word w x i : word w x -> w <= i -> 0 <= w -> Z.testbit x i = false.
Proof.
  intros [Hx1 Hx2] Hi Hw.
  rewrite <- (Z.mod_small x (2 ^ w)) by done.
  apply Z.mod_pow2_bits_high; lia.
Qed.

Lemma testbit_wrap w x i : 0 <= i < w -> Z.testbit (wrap w x) i = Z.testbit x i.
Proof. intros; apply Z.mod_pow2_bits_low; lia. Qed.

Lemma testbit_wrap_high w x i : 0 <= w <= i -> Z.testbit (wrap w x) i = false.
Proof. intros; apply Z.mod_pow2_bits_high; lia. Qed.

(** The bit stored by [(y & 1) << b]. *)
Lemma testbit_put y b i : 0 <= b -> Z.testbit (Z.shiftl (Z.land y 1) b) i = (i =? b) && Z.testbit y 0.
Proof.
  intros Hb; destruct (Z.lt_ge_cases i 0) as [Hneg|Hi].
  { rewrite Z.testbit_neg_r by done; by destruct (Z.eqb_spec i b); [lia|]. }
  rewrite Z.shiftl_spec, Z.land_spec by done.
  destruct (Z.eqb_spec i b) as [->|Hne]; [by rewrite Z.sub_diag, andb_true_r|].
  destruct (Z.lt_ge_cases i b); [by rewrite Z.testbit_neg_r by lia|].
  change 1 with (Z.ones 1); by rewrite Z.ones_spec_high, andb_false_r by lia.
Qed.

Lemma bits_word w x :
  0 <= w -> (forall i, w <= i -> Z.testbit x i = false) -> 0 <= x -> word w x.
Proof.
  intros Hw Hb Hx; split; [done|].
  destruct (Z.eq_dec x 0) as [->|Hnz]; [by apply pow2_pos|].
  apply Z.log2_lt_pow2; [lia|].
  destruct (Z.lt_ge_cases (Z.log2 x) w) as [|Hge]; [done|].
  pose proof (Z.bit_log2 x ltac:(lia)) as Hlog; rewrite (Hb _ Hge) in Hlog; done.
Qed.

Lemma word_eq_bits w x y :
  word w x -> word w y -> 0 <= w ->
  (forall i, 0 <= i < w -> Z.testbit x i = Z.testbit y i) -> x = y.
Proof.
  intros Hx Hy Hw Hbits; apply Z.bits_inj'; intros i Hi.
  destruct (Z.lt_ge_cases i w); [apply Hbits; lia|].
  by rewrite !(testbit_word w) by (done || lia).
Qed.

Lemma word_nonneg w x : word w x -> 0 <= x.
Proof. unfold word; lia. Qed.

Lemma lxor_word w x y : 0 <= w -> word w x -> word w y -> word w (Z.lxor x y).
Proof.
  intros Hw Hx Hy; apply bits_word; [done| |].
  - intros i Hi; rewrite Z.lxor_spec, !(testbit_word w) by done; done.
  - apply Z.lxor_nonneg; unfold word in *; lia.
Qed.

Lemma lor_word w x y : 0 <= w -> word w x -> word w y -> word w (Z.lor x y).
Proof.
  intros Hw Hx Hy; apply bits_word; [done| |].
  - intros i Hi; rewrite Z.lor_spec, !(testbit_word w) by done; done.
  - apply Z.lor_nonneg; unfold word in *; lia.
Qed.

Lemma land_word_l w x y : 0 <= w -> word w x -> word w (Z.land x y).
Proof.
  intros Hw Hx; apply bits_word; [done| |].
  - intros i Hi; rewrite Z.land_spec, (testbit_word w x) by done; done.
  - apply Z.land_nonneg; unfold word in *; lia.
Qed.

Lemma land_word_r w x y : 0 <= w -> word w y -> word w (Z.land x y).
Proof. rewrite Z.land_comm; apply land_word_l. Qed.

Lemma shiftr_word w x n : 0 <= w -> 0 <= n -> word w x -> word w (Z.shiftr x n).
Proof.
  intros Hw Hn Hx; apply bits_word; [done| |].
  - intros i Hi; rewrite Z.shiftr_spec, (testbit_word w) by (done || lia); done.
  - apply Z.shiftr_nonneg; unfold word in *; lia.
Qed.

Lemma word_mono w w' x : w <= w' -> word w x -> word w' x.
Proof.
  intros Hw Hx; destruct (Z.lt_ge_cases w 0) as [Hneg|].
  - unfold word in *; rewrite Z.pow_neg_r in Hx by done; lia.
  - pose proof (Z.pow_le_mono_r 2 w w'); unfold word in *; lia.
Qed.

#[export] Hint Resolve wrap_word lxor_word lor_word land_word_l land_word_r
  shiftr_word word_nonneg : word_db.
#[export] Hint Extern 1 (0 <= _) => lia : word_db.
#[export] Hint Extern 1 (_ <= _) => lia : word_db.

Lemma u16_word x : word 16 (u16 x).
Proof. by apply wrap_word. Qed.
Lemma u32_word x : word 32 (u32 x).
Proof. by apply wrap_word. Qed.
Lemma u64_word x : word 64 (u64 x).
Proof. by apply wrap_word. Qed.
Lemma u8_word x : word 8 (u8 x).
Proof. by apply wrap_word. Qed.
#[export] Hint Resolve u8_word u16_word u32_word u64_word : word_db.

Lemma wrap_add_l w a b : wrap w (wrap w a + b) = wrap w (a + b).
Proof. apply Zplus_mod_idemp_l. Qed.
Lemma wrap_add_r w a b : wrap w (a + wrap w b) = wrap w (a + b).
Proof. apply Zplus_mod_idemp_r. Qed.
Lemma wrap_sub_l w a b : wrap w (wrap w a - b) = wrap w (a - b).
Proof. apply Zminus_mod_idemp_l. Qed.
Lemma wrap_wrap w x : wrap w (wrap w x) = wrap w x.
Proof. apply Zmod_mod. Qed.

Lemma wrap_ones w x : 0 <= w -> Z.land x (Z.ones w) = wrap w x.
Proof. intros; by apply Z.land_ones. Qed.

Lemma wrap_lor w x y : 0 <= w -> wrap w (Z.lor x y) = Z.lor (wrap w x) (wrap w y).
Proof.
  intros; apply Z.bits_inj'; intros i Hi; rewrite Z.lor_spec.
  destruct (Z.lt_ge_cases i w); [by rewrite !testbit_wrap, Z.lor_spec by lia|].
  by rewrite !testbit_wrap_high by lia.
Qed.

Lemma land_255_u8 x : Z.land x 255 = u8 x.
Proof. change 255 with (Z.ones 8); by rewrite wrap_ones. Qed.

Lemma words_lookup w l i : words w l -> (i < length l)%nat -> word w (l !!! i).
Proof. intros Hl Hi; exact (Forall_lookup_total_1 _ _ _ Hl Hi). Qed.

Lemma words_default w l i : words w l -> 0 < w -> word w (l !!! i).
Proof.
  intros Hl Hw; destruct (Nat.lt_ge_cases i (length l)); [by apply words_lookup|].
  rewrite list_lookup_total_alt, lookup_ge_None_2 by done; simpl.
  split; [done|]; apply (Z.pow_gt_1 2 w); lia.
Qed.

Lemma lookup_map {A B} (a : Inhabited A) (b : Inhabited B) (f : A -> B) l i :
  (i < length l)%nat -> map f l !!! i = f (l !!! i).
Proof. intros; by apply list_lookup_total_fmap. Qed.

Lemma lookup_zip {A B C} (a : Inhabited A) (b : Inhabited B) (c : Inhabited C) (f : A -> B -> C) l k i :
  (i < length l)%nat -> (i < length k)%nat -> zip_with f l k !!! i = f (l !!! i) (k !!! i).
Proof.
  revert k i; induction l as [|x l IH]; intros [|y k] [|i]; simpl; try lia; [done|].
  intros; apply IH; lia.
Qed.

Lemma byte_in_all x : word 8 x -> In x all_bytes.
Proof.
  intros [Hlo Hhi]; apply in_map_iff; exists (Z.to_nat x); split; [lia|].
  apply in_seq; change (2 ^ 8) with 256 in Hhi; lia.
Qed.

(** A decidable property of bytes holds if it holds on each of the 256. *)
Lemma byte_forall (P : Z -> bool) : forallb P all_bytes = true -> forall x, word 8 x -> P x = true.
Proof. intros HP x Hx; rewrite forallb_forall in HP; by apply HP, byte_in_all. Qed.

Lemma lor_disjoint s x q : 0 <= s -> 0 <= x < 2 ^ s -> Z.lor x (2 ^ s * q) = x + 2 ^ s * q.
Proof.
  intros Hs Hx; symmetry; apply Z.add_nocarry_lor; apply Z.bits_inj'; intros i Hi; rewrite Z.land_spec, Z.bits_0.
  rewrite Z.mul_comm, Z.mul_pow2_bits by lia; destruct (Z.lt_ge_cases i s) as [Hlt|Hge].
  - rewrite (Z.testbit_neg_r q) by lia; apply andb_false_r.
  - rewrite (testbit_word s x i) by (unfold word; lia); done.
Qed.

(** ** Lemmas on byte order *)

Lemma length_le_bytes n x : length (le_bytes n x) = n.
Proof. revert x; induction n; intros; simpl; auto. Qed.

Lemma length_be_bytes n x : length (be_bytes n x) = n.
Proof. unfold be_bytes; rewrite length_reverse; apply length_le_bytes. Qed.

Lemma le_bytes_words n x : words 8 (le_bytes n x).
Proof.
  revert x; induction n; intros; constructor; [|apply IHn].
  apply land_word_r; [lia|]; by unfold word.
Qed.

Lemma be_bytes_words n x : words 8 (be_bytes n x).
Proof. apply Forall_reverse, le_bytes_words. Qed.

Lemma le_word_word l :
  words 8 l -> word (8 * Z.of_nat (length l)) (le_word l).
Proof.
  induction 1 as [|b l Hb Hl IH]; simpl; [by unfold word|].
  apply lor_word; [lia| |].
  - apply (word_mono 8); [lia|done].
  - rewrite Z.shiftl_mul_pow2 by lia; unfold word in *.
    replace (8 * Z.of_nat (S (length l))) with (8 * Z.of_nat (length l) + 8) by lia.
    rewrite Z.pow_add_r by lia; nia.
Qed.

Lemma le_word_cons b l : word 8 b -> le_word (b :: l) = b + 2 ^ 8 * le_word l.
Proof. intros Hb; cbn [le_word]; rewrite Z.shiftl_mul_pow2, Z.mul_comm by lia; apply lor_disjoint; [lia|exact Hb]. Qed.

Lemma le_word_le_bytes n x : word (8 * Z.of_nat n) x -> le_word (le_bytes n x) = x.
Proof.
  revert x; induction n as [|n IH]; intros x Hx; simpl.
  - unfold word in Hx; simpl in Hx; lia.
  - rewrite IH.
    + apply Z.bits_inj'; intros i Hi; rewrite Z.lor_spec.
      change 255 with (Z.ones 8); rewrite Z.land_spec.
      destruct (Z.lt_ge_cases i 8).
      * rewrite Z.ones_spec_low, Z.shiftl_spec_low by lia.
        by rewrite andb_true_r, orb_false_r.
      * rewrite Z.ones_spec_high, Z.shiftl_spec, Z.shiftr_spec by lia.
        rewrite andb_false_r; simpl; f_equal; lia.
    + unfold word in *; rewrite Z.shiftr_div_pow2 by lia; split.
      * apply Z.div_pos; lia.
      * apply Z.div_lt_upper_bound; [lia|]; rewrite <- Z.pow_add_r by lia.
        replace (8 + 8 * Z.of_nat n) with (8 * Z.of_nat (S n)) by lia; lia.
Qed.

Lemma le_bytes_le_word l : words 8 l -> le_bytes (length l) (le_word l) = l.
Proof.
  induction 1 as [|b l Hb Hl IH]; simpl; [done|].
  assert (0 <= le_word l) by (eapply word_nonneg, le_word_word, Hl).
  f_equal.
  - apply Z.bits_inj'; intros i Hi; change 255 with (Z.ones 8).
    rewrite Z.land_spec, Z.lor_spec.
    destruct (Z.lt_ge_cases i 8).
    + rewrite Z.ones_spec_low, Z.shiftl_spec_low by lia.
      by rewrite andb_true_r, orb_false_r.
    + rewrite Z.ones_spec_high, (testbit_word 8 b) by (done || lia).
      by rewrite andb_false_r.
  - etrans; [|exact IH]; f_equal.
    apply Z.bits_inj'; intros i Hi.
    rewrite Z.shiftr_spec, Z.lor_spec, Z.shiftl_spec by lia.
    rewrite (testbit_word 8 b) by (done || lia); simpl; f_equal; lia.
Qed.

Lemma be_word_be_bytes n x : word (8 * Z.of_nat n) x -> be_word (be_bytes n x) = x.
Proof. intros; unfold be_word, be_bytes; rewrite reverse_involutive; by apply le_word_le_bytes. Qed.

Lemma be_word_word l : words 8 l -> word (8 * Z.of_nat (length l)) (be_word l).
Proof. intros; unfold be_word; rewrite <- length_reverse; by apply le_word_word, Forall_reverse. Qed.

Lemma le_bytes_app n m x : le_bytes (n + m) x = le_bytes n x ++ le_bytes m (Z.shiftr x (8 * Z.of_nat n)).
Proof.
  revert x; induction n as [|n IH]; intros x; cbn [le_bytes Nat.add app].
  - by rewrite Z.mul_0_r, Z.shiftr_0_r.
  - rewrite IH, Z.shiftr_shiftr by lia; do 4 f_equal; lia.
Qed.

Lemma le_bytes_wrap n x : le_bytes n (wrap (8 * Z.of_nat n) x) = le_bytes n x.
Proof.
  revert x; induction n as [|n IH]; intros x; cbn [le_bytes]; [done|].
  f_equal.
  - apply Z.bits_inj'; intros i Hi; change 255 with (Z.ones 8); rewrite !Z.land_spec.
    destruct (Z.lt_ge_cases i 8); [by rewrite testbit_wrap by lia|].
    by rewrite Z.ones_spec_high, !andb_false_r by lia.
  - rewrite <- (IH (Z.shiftr x 8)); f_equal; apply Z.bits_inj'; intros i Hi.
    rewrite Z.shiftr_spec by lia; destruct (Z.lt_ge_cases i (8 * Z.of_nat n)).
    + by rewrite !testbit_wrap, Z.shiftr_spec by lia.
    + by rewrite !testbit_wrap_high by lia.
Qed.

Lemma be_bytes_wrap n x : be_bytes n (wrap (8 * Z.of_nat n) x) = be_bytes n x.
Proof. unfold be_bytes; by rewrite le_bytes_wrap. Qed.

Lemma be_bytes_app n m x : be_bytes (n + m) x = be_bytes m (Z.shiftr x (8 * Z.of_nat n)) ++ be_bytes n x.
Proof. unfold be_bytes; by rewrite le_bytes_app, reverse_app. Qed.

(** ** Lemmas on byte arrays and loops *)

Lemma write_at_app off src l k : length l = off -> write_at off src (l ++ k) = l ++ src ++ drop (length src) k.
Proof.
  intros <-; unfold write_at; rewrite take_app_le, take_ge, drop_app_ge by lia.
  do 3 f_equal; lia.
Qed.

Lemma length_write_at off src dst :
  (off + length src <= length dst)%nat -> length (write_at off src dst) = length dst.
Proof. intros; unfold write_at; rewrite !length_app, length_take, length_drop; lia. Qed.

Lemma write_at_end ptr d l : (ptr + length d = length l)%nat -> write_at ptr d l = take ptr l ++ d.
Proof. intros Hl; unfold write_at; by rewrite drop_ge, app_nil_r by lia. Qed.

Lemma take_write_at ptr d l : (ptr + length d <= length l)%nat ->
  take (ptr + length d) (write_at ptr d l) = take ptr l ++ d.
Proof.
  intros Hl; unfold write_at; rewrite app_assoc, take_app_le, take_ge;
    rewrite ?length_app, ?length_take; (done || lia).
Qed.

Lemma length_read_at off len src :
  (off + len <= length src)%nat -> length (read_at off len src) = len.
Proof. intros; unfold read_at; rewrite length_take, length_drop; lia. Qed.

(** ** Lists cut in pieces of the same length *)

Definition chunks (w n : nat) (mem : list Z) : list (list Z) := map (fun i => read_at (i * w) w mem) (seq 0 n).

Lemma length_concat_uniform {A} w (ls : list (list A)) : Forall (fun x => length x = w) ls -> length (concat ls) = (length ls * w)%nat.
Proof. induction 1 as [|x ls Hx _ IH]; [done|]; cbn [concat length]; rewrite length_app, IH, Hx; lia. Qed.

Lemma chunks_concat w ls : Forall (fun x => length x = w) ls -> chunks w (length ls) (concat ls) = ls.
Proof.
  unfold chunks; induction 1 as [|x ls Hx _ IH]; [done|]; cbn [length seq map concat]; f_equal.
  - unfold read_at; rewrite Nat.mul_0_l, drop_0, take_app_le, take_ge by lia; done.
  - rewrite <- seq_shift, map_map; etransitivity; [|exact IH]; apply map_ext; intros i; unfold read_at; f_equal.
    rewrite drop_app_ge by lia; f_equal; lia.
Qed.

Lemma concat_chunks w n mem : length mem = (n * w)%nat -> concat (chunks w n mem) = mem.
Proof.
  unfold chunks; revert mem; induction n as [|n IH]; intros mem Hl; [by destruct mem|]; cbn [seq map concat]; unfold read_at at 1; rewrite Nat.mul_0_l, drop_0.
  rewrite <- seq_shift, map_map; etransitivity; [|apply (take_drop w mem)]; f_equal; etransitivity; [|apply (IH (drop w mem)); rewrite length_drop; lia].
  f_equal; apply map_ext; intros i; unfold read_at; rewrite drop_drop; do 2 f_equal; lia.
Qed.

Lemma chunks_length w n mem : length mem = (n * w)%nat -> length (chunks w n mem) = n /\ Forall (fun x => length x = w) (chunks w n mem).
Proof.
  intros Hl; unfold chunks; split; [by rewrite length_map, length_seq|]; apply List.Forall_forall; intros x Hx; apply in_map_iff in Hx as (i & <- & Hi).
  apply in_seq in Hi; apply length_read_at; nia.
Qed.

Lemma chunks_bytes w n mem : words 8 mem -> Forall (words 8) (chunks w n mem).
Proof. intros Hm; unfold chunks; apply List.Forall_forall; intros x Hx; apply in_map_iff in Hx as (i & <- & _); by apply Forall_take, Forall_drop. Qed.

Lemma for_range_ind {S} (P : nat -> S -> Prop) lo hi f s :
  (lo <= hi)%nat -> P lo s ->
  (forall i s, (lo <= i < hi)%nat -> P i s -> P (i + 1)%nat (f i s)) ->
  P hi (for_range lo hi f s).
Proof.
  unfold for_range; intros Hle; remember (hi - lo)%nat as n eqn:Hn.
  revert lo s Hle Hn; induction n as [|n IH]; intros lo s Hle Hn Hs Hstep; simpl.
  - by replace hi with lo by lia.
  - apply IH; [lia|lia| |].
    + replace (Datatypes.S lo) with (lo + 1)%nat by lia; apply Hstep; [lia|done].
    + intros i s' Hi; apply Hstep; lia.
Qed.

(** Two loops whose bodies preserve a relation end in related states. *)
Lemma for_range_sim {S T} (R : nat -> S -> T -> Prop) lo hi f g s t :
  (lo <= hi)%nat -> R lo s t ->
  (forall i s t, (lo <= i < hi)%nat -> R i s t -> R (i + 1)%nat (f i s) (g i t)) ->
  R hi (for_range lo hi f s) (for_range lo hi g t).
Proof.
  unfold for_range; intros Hle; remember (hi - lo)%nat as n eqn:Hn.
  revert lo s t Hle Hn; induction n as [|n IH]; intros lo s t Hle Hn Hs Hstep; simpl.
  - by replace hi with lo by lia.
  - apply IH; [lia|lia| |].
    + replace (Datatypes.S lo) with (lo + 1)%nat by lia; apply Hstep; [lia|done].
    + intros i s' t' Hi; apply Hstep; lia.
Qed.

Lemma for_range_ext {S} lo hi f g (s : S) :
  (lo <= hi)%nat -> (forall i s, (lo <= i < hi)%nat -> f i s = g i s) ->
  for_range lo hi f s = for_range lo hi g s.
Proof.
  intros Hle Hfg; apply (for_range_sim (fun _ => eq)); [done|done|].
  intros i s' t Hi ->; by apply Hfg.
Qed.

Lemma for_range_empty {S} lo f (s : S) : for_range lo lo f s = s.
Proof. unfold for_range; by rewrite Nat.sub_diag. Qed.

Lemma for_range_S {S} lo hi f (s : S) :
  (lo <= hi)%nat -> for_range lo (hi + 1) f s = f hi (for_range lo hi f s).
Proof.
  intros; unfold for_range; replace (hi + 1 - lo)%nat with (hi - lo + 1)%nat by lia.
  rewrite seq_app, fold_left_app; simpl; f_equal; lia.
Qed.

(** Splitting off the first iteration. *)
Lemma for_range_first {S} lo hi f (s : S) :
  (lo < hi)%nat -> for_range lo hi f s = for_range (lo + 1) hi f (f lo s).
Proof.
  intros; unfold for_range; replace (hi - lo)%nat with (Datatypes.S (hi - (lo + 1))) by lia.
  simpl; by replace (lo + 1)%nat with (Datatypes.S lo) by lia.
Qed.

(** A loop whose body ignores its counter only depends on the number of turns. *)
Lemma for_range_shift {S} lo hi k f (s : S) :
  for_range (lo + k) (hi + k) (fun _ => f) s = for_range lo hi (fun _ => f) s.
Proof.
  unfold for_range; replace (hi + k - (lo + k))%nat with (hi - lo)%nat by lia.
  generalize (hi - lo)%nat; intros m; revert lo k s.
  induction m as [|m IH]; intros lo k s; simpl; [done|]; rewrite <- (IH (Datatypes.S lo) k); done.
Qed.

Lemma fold_left_map_ext {A B S} (f : S -> B -> S) (h : S -> A -> S) (g : A -> B) l s :
  (forall x s, In x l -> f s (g x) = h s x) -> fold_left f (map g l) s = fold_left h l s.
Proof.
  revert s; induction l as [|x l IH]; intros s Hf; simpl; [done|].
  rewrite Hf by (by left); apply IH; intros; apply Hf; by right.
Qed.

(** One step of a sequence of calls, without unfolding the call. *)
Lemma bind_some_eq {A B} (o : option A) (f : A -> option B) x r : o = Some x -> f x = r -> (o ≫= f) = r.
Proof. intros -> H; exact H. Qed.

(** [if (!call()) return x; y] when the call returns true. *)
Lemma bind_true_eq {B} (o : option bool) (x y r : option B) : o = Some true -> y = r -> (o ≫= fun ok => if negb ok then x else y) = r.
Proof. intros -> H; exact H. Qed.

Ltac bind_step H := first [apply (bind_true_eq _ _ _ _ H) | apply (bind_some_eq _ _ _ _ H); cbv beta].

Lemma fold_leftM_None {A S} (f : S -> A -> option S) l :
  fold_left (fun o a => s ← o; f s a) l None = None.
Proof. induction l; simpl; auto. Qed.

Lemma fold_leftM_cons {A S} (f : S -> A -> option S) a l s :
  fold_leftM f (a :: l) s = (s' ← f s a; fold_leftM f l s').
Proof. unfold fold_leftM; simpl; destruct (f s a); simpl; [done|apply fold_leftM_None]. Qed.

Lemma fold_leftM_app {A S} (f : S -> A -> option S) l1 l2 s :
  fold_leftM f (l1 ++ l2) s = (s' ← fold_leftM f l1 s; fold_leftM f l2 s').
Proof.
  revert s; induction l1 as [|a l1 IH]; intros s; simpl; [done|].
  rewrite !fold_leftM_cons; destruct (f s a); simpl; auto.
Qed.

(** A loop whose body never fails under an invariant does not fail. *)
Lemma for_rangeM_total {S} (P : nat -> S -> Prop) lo hi f s :
  (lo <= hi)%nat -> P lo s ->
  (forall i s, (lo <= i < hi)%nat -> P i s -> exists s', f i s = Some s' /\ P (i + 1)%nat s') ->
  exists s', for_rangeM lo hi f s = Some s' /\ P hi s'.
Proof.
  unfold for_rangeM; intros Hle; remember (hi - lo)%nat as n eqn:Hn.
  revert lo s Hle Hn; induction n as [|n IH]; intros lo s Hle Hn Hs Hstep; simpl.
  - exists s; split; [done|]; by replace hi with lo by lia.
  - destruct (Hstep lo s) as (s' & Hf & Hs'); [lia|done|].
    rewrite fold_leftM_cons, Hf; simpl; apply IH; [lia|lia| |].
    + by replace (Datatypes.S lo) with (lo + 1)%nat by lia.
    + intros i s'' Hi; apply Hstep; lia.
Qed.

(** A loop with checks follows a loop without them when each body does. *)
Lemma for_rangeM_sim {S T} (R : nat -> S -> T -> Prop) lo hi f g s t :
  (lo <= hi)%nat -> R lo s t ->
  (forall i s t, (lo <= i < hi)%nat -> R i s t -> exists s', f i s = Some s' /\ R (i + 1)%nat s' (g i t)) ->
  exists s', for_rangeM lo hi f s = Some s' /\ R hi s' (for_range lo hi g t).
Proof.
  unfold for_rangeM, for_range; intros Hle; remember (hi - lo)%nat as n eqn:Hn.
  revert lo s t Hle Hn; induction n as [|n IH]; intros lo s t Hle Hn Hs Hstep; simpl.
  - exists s; split; [done|]; by replace hi with lo by lia.
  - destruct (Hstep lo s t) as (s' & Hf & Hs'); [lia|done|].
    rewrite fold_leftM_cons, Hf; simpl; apply IH; [lia|lia| |].
    + by replace (Datatypes.S lo) with (lo + 1)%nat by lia.
    + intros i s'' t' Hi; apply Hstep; lia.
Qed.

(** ** Permutations of an initial segment *)

Lemma NoDup_seq_perm n (l : list nat) : NoDup l -> Forall (fun x => (x < n)%nat) l -> length l = n -> l ≡ₚ seq 0 n.
Proof.
  intros Hnd Hb Hl; apply submseteq_length_Permutation; [|rewrite length_seq; lia].
  apply NoDup_submseteq; [done|]; intros x Hx; apply elem_of_seq; apply (list.Forall_forall (fun x => (x < n)%nat)) in Hx; [lia|done].
Qed.

Lemma NoDup_map_seq (f : nat -> nat) a n :
  (forall i j, (a <= i < j)%nat -> (j < a + n)%nat -> f i <> f j) -> NoDup (map f (seq a n)).
Proof.
  revert a; induction n as [|n IH]; intros a Hf; cbn [seq map]; [apply NoDup_nil_2|].
  apply NoDup_cons_2; [|apply IH; intros; apply Hf; lia].
  intros Hin; apply list_elem_of_fmap in Hin as (j & Hj & Hs); apply elem_of_seq in Hs; apply (Hf a j); [lia|lia|done].
Qed.
