(* ===== verification/Ctaes.v ===== *)
(** Model of src/src/crypto/ctaes/ctaes.c, the constant-time AES of the wallet.

    An [AES_state] (eight 16-bit slices) is the list of its slices; bit
    [r * 4 + c] of slice [b] is bit [b] of the byte in row [r], column [c].
    Byte arrays are lists of bytes.  Every C function is one definition of the
    same name; the functions that fill a buffer return it. *)

From S2P Require Import Prelude.

Abbreviation AES_state := (list Z) (only parsing).

(** ** Loading and saving the state *)

(** The loop of [LoadByte] over the slices: [byte] is shifted right once per
    slice and its lowest bit is stored at bit [r * 4 + c]. *)
Fixpoint LoadByte_loop (s : AES_state) (byte : Z) (pos : Z) : AES_state :=
  match s with
  | [] => []
  | x :: s' => u16 (Z.lor x (Z.shiftl (Z.land byte 1) pos)) :: LoadByte_loop s' (Z.shiftr byte 1) pos
  end.

Definition LoadByte (s : AES_state) (byte : Z) (r c : nat) : AES_state :=
  LoadByte_loop s byte (Z.of_nat (r * 4 + c)).

Definition LoadBytes (s : AES_state) (data16 : list Z) : AES_state :=
  for_range 0 4 (fun c s =>
    for_range 0 4 (fun r s => LoadByte s (data16 !!! (c * 4 + r)%nat) r c) s) s.

Definition SaveByte (s : AES_state) (r c : nat) : Z :=
  for_range 0 8 (fun b v =>
    u8 (Z.lor v (Z.shiftl (Z.land (Z.shiftr (s !!! b) (Z.of_nat (r * 4 + c))) 1) (Z.of_nat b)))) 0.

Definition SaveBytes (s : AES_state) : list Z :=
  for_range 0 4 (fun c out =>
    for_range 0 4 (fun r out => out ++ [SaveByte s r c]) out) [].

(** ** The S-box *)

(** The S-box circuit of Boyar and Peralta, over any type with the four gates:
    the C code runs it on 16-bit slices, the proofs run it on single bits. *)
Class BitAlg (A : Type) := {
  bxor : A -> A -> A;
  band : A -> A -> A;
  bor : A -> A -> A;
  bnot : A -> A
}.

Declare Scope bit_scope.
Notation "x ⊕ y" := (bxor x y) (at level 50, left associativity) : bit_scope.
Notation "x ⊙ y" := (band x y) (at level 40, left associativity) : bit_scope.
Notation "x ⊚ y" := (bor x y) (at level 52, left associativity) : bit_scope.
Local Open Scope bit_scope.

#[export] Instance BitAlg_u16 : BitAlg Z := {
  bxor := Z.lxor; band := Z.land; bor := Z.lor; bnot x := u16 (Z.lnot x)
}.

#[export] Instance BitAlg_bool : BitAlg bool := {
  bxor := xorb; band := andb; bor := orb; bnot := negb
}.

(** Linear layer in front of the shared non-linear part: forward direction
    ("Linear preprocessing") and backward ("Undo linear postprocessing"). *)
Definition SubBytes_pre {A} `{BitAlg A} (inv : bool) (U0 U1 U2 U3 U4 U5 U6 U7 : A)
    : A * A * A * A * A * A * A * A * A * A * A * A * A * A * A * A * A * A * A * A * A * A :=
  if inv then
    let T23 := U0 ⊕ U3 in let T22 := bnot (U1 ⊕ U3) in
    let T2 := bnot (U0 ⊕ U1) in let T1 := U3 ⊕ U4 in
    let T24 := bnot (U4 ⊕ U7) in let R5 := U6 ⊕ U7 in
    let T8 := bnot (U1 ⊕ T23) in let T19 := T22 ⊕ R5 in
    let T9 := bnot (U7 ⊕ T1) in let T10 := T2 ⊕ T24 in
    let T13 := T2 ⊕ R5 in let T3 := T1 ⊕ R5 in
    let T25 := bnot (U2 ⊕ T1) in let R13 := U1 ⊕ U6 in
    let T17 := bnot (U2 ⊕ T19) in let T20 := T24 ⊕ R13 in
    let T4 := U4 ⊕ T8 in let R17 := bnot (U2 ⊕ U5) in
    let R18 := bnot (U5 ⊕ U6) in let R19 := bnot (U2 ⊕ U4) in
    let D := U0 ⊕ R17 in let T6 := T22 ⊕ R17 in
    let T16 := R13 ⊕ R19 in let T27 := T1 ⊕ R18 in
    let T15 := T10 ⊕ T27 in let T14 := T10 ⊕ R18 in
    let T26 := T3 ⊕ T16 in
    (T1, T2, T3, T4, T6, T8, T9, T10, T13, T14, T15,
     T16, T17, T19, T20, T22, T23, T24, T25, T26, T27, D)
  else
    let T1 := U0 ⊕ U3 in let T2 := U0 ⊕ U5 in
    let T3 := U0 ⊕ U6 in let T4 := U3 ⊕ U5 in
    let T5 := U4 ⊕ U6 in let T6 := T1 ⊕ T5 in
    let T7 := U1 ⊕ U2 in let T8 := U7 ⊕ T6 in
    let T9 := U7 ⊕ T7 in let T10 := T6 ⊕ T7 in
    let T11 := U1 ⊕ U5 in let T12 := U2 ⊕ U5 in
    let T13 := T3 ⊕ T4 in let T14 := T6 ⊕ T11 in
    let T15 := T5 ⊕ T11 in let T16 := T5 ⊕ T12 in
    let T17 := T9 ⊕ T16 in let T18 := U3 ⊕ U7 in
    let T19 := T7 ⊕ T18 in let T20 := T1 ⊕ T19 in
    let T21 := U6 ⊕ U7 in let T22 := T7 ⊕ T21 in
    let T23 := T2 ⊕ T22 in let T24 := T2 ⊕ T10 in
    let T25 := T20 ⊕ T17 in let T26 := T3 ⊕ T16 in
    let T27 := T1 ⊕ T12 in let D := U7 in
    (T1, T2, T3, T4, T6, T8, T9, T10, T13, T14, T15,
     T16, T17, T19, T20, T22, T23, T24, T25, T26, T27, D).

(** Non-linear transformation, shared between the forward and backward case. *)
Definition SubBytes_nonlinear {A} `{BitAlg A}
    (T1 T2 T3 T4 T6 T8 T9 T10 T13 T14 T15
     T16 T17 T19 T20 T22 T23 T24 T25 T26 T27 D : A)
    : A * A * A * A * A * A * A * A * A * A * A * A * A * A * A * A * A * A :=
  let M1 := T13 ⊙ T6 in let M6 := T3 ⊙ T16 in
  let M11 := T1 ⊙ T15 in let M13 := (T4 ⊙ T27) ⊕ M11 in
  let M15 := (T2 ⊙ T10) ⊕ M11 in let M20 := T14 ⊕ M1 ⊕ (T23 ⊙ T8) ⊕ M13 in
  let M21 := (T19 ⊙ D) ⊕ M1 ⊕ T24 ⊕ M15 in let M22 := T26 ⊕ M6 ⊕ (T22 ⊙ T9) ⊕ M13 in
  let M23 := (T20 ⊙ T17) ⊕ M6 ⊕ M15 ⊕ T25 in let M25 := M22 ⊙ M20 in
  let M37 := M21 ⊕ ((M20 ⊕ M21) ⊙ (M23 ⊕ M25)) in let M38 := M20 ⊕ M25 ⊕ (M21 ⊚ (M20 ⊙ M23)) in
  let M39 := M23 ⊕ ((M22 ⊕ M23) ⊙ (M21 ⊕ M25)) in let M40 := M22 ⊕ M25 ⊕ (M23 ⊚ (M21 ⊙ M22)) in
  let M41 := M38 ⊕ M40 in let M42 := M37 ⊕ M39 in
  let M43 := M37 ⊕ M38 in let M44 := M39 ⊕ M40 in
  let M45 := M42 ⊕ M41 in let M46 := M44 ⊙ T6 in
  let M47 := M40 ⊙ T8 in let M48 := M39 ⊙ D in
  let M49 := M43 ⊙ T16 in let M50 := M38 ⊙ T9 in
  let M51 := M37 ⊙ T17 in let M52 := M42 ⊙ T15 in
  let M53 := M45 ⊙ T27 in let M54 := M41 ⊙ T10 in
  let M55 := M44 ⊙ T13 in let M56 := M40 ⊙ T23 in
  let M57 := M39 ⊙ T19 in let M58 := M43 ⊙ T3 in
  let M59 := M38 ⊙ T22 in let M60 := M37 ⊙ T20 in
  let M61 := M42 ⊙ T1 in let M62 := M45 ⊙ T4 in
  let M63 := M41 ⊙ T2 in
  (M46, M47, M48, M49, M50, M51, M52, M53, M54,
   M55, M56, M57, M58, M59, M60, M61, M62, M63).

(** "Linear postprocessing", or "Undo linear preprocessing" when [inv]; the
    result lists slice[0] .. slice[7]. *)
Definition SubBytes_post {A} `{BitAlg A} (inv : bool)
    (M46 M47 M48 M49 M50 M51 M52 M53 M54
     M55 M56 M57 M58 M59 M60 M61 M62 M63 : A) : list A :=
  if inv then
    let P0 := M52 ⊕ M61 in let P1 := M58 ⊕ M59 in
    let P2 := M54 ⊕ M62 in let P3 := M47 ⊕ M50 in
    let P4 := M48 ⊕ M56 in let P5 := M46 ⊕ M51 in
    let P6 := M49 ⊕ M60 in let P7 := P0 ⊕ P1 in
    let P8 := M50 ⊕ M53 in let P9 := M55 ⊕ M63 in
    let P10 := M57 ⊕ P4 in let P11 := P0 ⊕ P3 in
    let P12 := M46 ⊕ M48 in let P13 := M49 ⊕ M51 in
    let P14 := M49 ⊕ M62 in let P15 := M54 ⊕ M59 in
    let P16 := M57 ⊕ M61 in let P17 := M58 ⊕ P2 in
    let P18 := M63 ⊕ P5 in let P19 := P2 ⊕ P3 in
    let P20 := P4 ⊕ P6 in let P22 := P2 ⊕ P7 in
    let P23 := P7 ⊕ P8 in let P24 := P5 ⊕ P7 in
    let P25 := P6 ⊕ P10 in let P26 := P9 ⊕ P11 in
    let P27 := P10 ⊕ P18 in let P28 := P11 ⊕ P25 in
    let P29 := P15 ⊕ P20 in
    [P9 ⊕ P16; P14 ⊕ P23; P19 ⊕ P24; P23 ⊕ P27; P12 ⊕ P22; P17 ⊕ P28; P26 ⊕ P29; P13 ⊕ P22]
  else
    let L0 := M61 ⊕ M62 in let L1 := M50 ⊕ M56 in
    let L2 := M46 ⊕ M48 in let L3 := M47 ⊕ M55 in
    let L4 := M54 ⊕ M58 in let L5 := M49 ⊕ M61 in
    let L6 := M62 ⊕ L5 in let L7 := M46 ⊕ L3 in
    let L8 := M51 ⊕ M59 in let L9 := M52 ⊕ M53 in
    let L10 := M53 ⊕ L4 in let L11 := M60 ⊕ L2 in
    let L12 := M48 ⊕ M51 in let L13 := M50 ⊕ L0 in
    let L14 := M52 ⊕ M61 in let L15 := M55 ⊕ L1 in
    let L16 := M56 ⊕ L0 in let L17 := M57 ⊕ L1 in
    let L18 := M58 ⊕ L8 in let L19 := M63 ⊕ L4 in
    let L20 := L0 ⊕ L1 in let L21 := L1 ⊕ L7 in
    let L22 := L3 ⊕ L12 in let L23 := L18 ⊕ L2 in
    let L24 := L15 ⊕ L9 in let L25 := L6 ⊕ L10 in
    let L26 := L7 ⊕ L9 in let L27 := L8 ⊕ L10 in
    let L28 := L11 ⊕ L14 in let L29 := L11 ⊕ L17 in
    [bnot (L6 ⊕ L23); bnot (L13 ⊕ L27); L25 ⊕ L29; L20 ⊕ L22; L6 ⊕ L21; bnot (L19 ⊕ L28); bnot (L16 ⊕ L26); L6 ⊕ L24].

Definition SubBytes_gates {A} `{BitAlg A} (inv : bool) (U0 U1 U2 U3 U4 U5 U6 U7 : A) : list A :=
  let '(T1, T2, T3, T4, T6, T8, T9, T10, T13, T14, T15,
        T16, T17, T19, T20, T22, T23, T24, T25, T26, T27, D) :=
    SubBytes_pre inv U0 U1 U2 U3 U4 U5 U6 U7 in
  let '(M46, M47, M48, M49, M50, M51, M52, M53, M54,
        M55, M56, M57, M58, M59, M60, M61, M62, M63) :=
    SubBytes_nonlinear T1 T2 T3 T4 T6 T8 T9 T10 T13 T14 T15
      T16 T17 T19 T20 T22 T23 T24 T25 T26 T27 D in
  SubBytes_post inv M46 M47 M48 M49 M50 M51 M52 M53 M54
    M55 M56 M57 M58 M59 M60 M61 M62 M63.

Definition SubBytes (s : AES_state) (inv : bool) : AES_state :=
  SubBytes_gates inv (s !!! 7%nat) (s !!! 6%nat) (s !!! 5%nat) (s !!! 4%nat)
    (s !!! 3%nat) (s !!! 2%nat) (s !!! 1%nat) (s !!! 0%nat).

(** ** Row shifts *)

Definition BIT_RANGE (from to : Z) : Z := Z.shiftl (Z.shiftl 1 (to - from) - 1) from.
Definition BIT_RANGE_LEFT (x from to shift : Z) : Z :=
  Z.shiftl (Z.land x (BIT_RANGE from to)) shift.
Definition BIT_RANGE_RIGHT (x from to shift : Z) : Z :=
  Z.shiftr (Z.land x (BIT_RANGE from to)) shift.

Notation "x ||| y" := (Z.lor x y) (at level 50, left associativity).

Definition ShiftRows_slice (v : Z) : Z :=
  u16 (Z.land v (BIT_RANGE 0 4) |||
       BIT_RANGE_LEFT v 4 5 3 ||| BIT_RANGE_RIGHT v 5 8 1 |||
       BIT_RANGE_LEFT v 8 10 2 ||| BIT_RANGE_RIGHT v 10 12 2 |||
       BIT_RANGE_LEFT v 12 15 1 ||| BIT_RANGE_RIGHT v 15 16 3).

Definition ShiftRows (s : AES_state) : AES_state := map ShiftRows_slice s.

Definition InvShiftRows_slice (v : Z) : Z :=
  u16 (Z.land v (BIT_RANGE 0 4) |||
       BIT_RANGE_LEFT v 4 7 1 ||| BIT_RANGE_RIGHT v 7 8 3 |||
       BIT_RANGE_LEFT v 8 10 2 ||| BIT_RANGE_RIGHT v 10 12 2 |||
       BIT_RANGE_LEFT v 12 13 3 ||| BIT_RANGE_RIGHT v 13 16 1).

Definition InvShiftRows (s : AES_state) : AES_state := map InvShiftRows_slice s.

(** ** Column mixing *)

(** The macro computes in [int]; its users store the result in a [uint16_t]. *)
Definition ROT (x b : Z) : Z := Z.lor (Z.shiftr x (b * 4)) (Z.shiftl x ((4 - b) * 4)).

Notation "x ^^ y" := (Z.lxor x y) (at level 50, left associativity).

(** Multiplication of every column by a(x), shared by both directions. *)
Definition MixColumns_fwd (s : AES_state) : AES_state :=
  let s0 := s !!! 0%nat in let s1 := s !!! 1%nat in let s2 := s !!! 2%nat in let s3 := s !!! 3%nat in
  let s4 := s !!! 4%nat in let s5 := s !!! 5%nat in let s6 := s !!! 6%nat in let s7 := s !!! 7%nat in
  let s0_01 := u16 (s0 ^^ ROT s0 1) in let s0_123 := u16 (ROT s0_01 1 ^^ ROT s0 3) in
  let s1_01 := u16 (s1 ^^ ROT s1 1) in let s1_123 := u16 (ROT s1_01 1 ^^ ROT s1 3) in
  let s2_01 := u16 (s2 ^^ ROT s2 1) in let s2_123 := u16 (ROT s2_01 1 ^^ ROT s2 3) in
  let s3_01 := u16 (s3 ^^ ROT s3 1) in let s3_123 := u16 (ROT s3_01 1 ^^ ROT s3 3) in
  let s4_01 := u16 (s4 ^^ ROT s4 1) in let s4_123 := u16 (ROT s4_01 1 ^^ ROT s4 3) in
  let s5_01 := u16 (s5 ^^ ROT s5 1) in let s5_123 := u16 (ROT s5_01 1 ^^ ROT s5 3) in
  let s6_01 := u16 (s6 ^^ ROT s6 1) in let s6_123 := u16 (ROT s6_01 1 ^^ ROT s6 3) in
  let s7_01 := u16 (s7 ^^ ROT s7 1) in let s7_123 := u16 (ROT s7_01 1 ^^ ROT s7 3) in
  [s7_01 ^^ s0_123;
   s7_01 ^^ s0_01 ^^ s1_123;
   s1_01 ^^ s2_123;
   s7_01 ^^ s2_01 ^^ s3_123;
   s7_01 ^^ s3_01 ^^ s4_123;
   s4_01 ^^ s5_123;
   s5_01 ^^ s6_123;
   s6_01 ^^ s7_123].

(** The further multiplication by {04}x^2 + {05} of the inverse direction. *)
Definition MixColumns_inv_step (s : AES_state) : AES_state :=
  let t0_02 := u16 ((s !!! 0%nat) ^^ ROT (s !!! 0%nat) 2) in
  let t1_02 := u16 ((s !!! 1%nat) ^^ ROT (s !!! 1%nat) 2) in
  let t2_02 := u16 ((s !!! 2%nat) ^^ ROT (s !!! 2%nat) 2) in
  let t3_02 := u16 ((s !!! 3%nat) ^^ ROT (s !!! 3%nat) 2) in
  let t4_02 := u16 ((s !!! 4%nat) ^^ ROT (s !!! 4%nat) 2) in
  let t5_02 := u16 ((s !!! 5%nat) ^^ ROT (s !!! 5%nat) 2) in
  let t6_02 := u16 ((s !!! 6%nat) ^^ ROT (s !!! 6%nat) 2) in
  let t7_02 := u16 ((s !!! 7%nat) ^^ ROT (s !!! 7%nat) 2) in
  [(s !!! 0%nat) ^^ t6_02;
   (s !!! 1%nat) ^^ (t6_02 ^^ t7_02);
   (s !!! 2%nat) ^^ (t0_02 ^^ t7_02);
   (s !!! 3%nat) ^^ (t1_02 ^^ t6_02);
   (s !!! 4%nat) ^^ (t2_02 ^^ t6_02 ^^ t7_02);
   (s !!! 5%nat) ^^ (t3_02 ^^ t7_02);
   (s !!! 6%nat) ^^ t4_02;
   (s !!! 7%nat) ^^ t5_02].

Definition MixColumns (s : AES_state) (inv : bool) : AES_state :=
  let s := MixColumns_fwd s in
  if inv then MixColumns_inv_step s else s.

Definition AddRoundKey (s round : AES_state) : AES_state := zip_with Z.lxor s round.

(** ** Key schedule *)

(** column_0(s) = column_c(a) *)
Definition GetOneColumn (a : AES_state) (c : nat) : AES_state :=
  map (fun x => Z.land (Z.shiftr x (Z.of_nat c)) 0x1111) a.

(** column_c1(r) |= (column_0(s) ^= column_c2(a)); returns the new [s] and [r]. *)
Definition KeySetupColumnMix (s r a : AES_state) (c1 c2 : nat) : AES_state * AES_state :=
  let s' := zip_with (fun sb ab => sb ^^ Z.land (Z.shiftr ab (Z.of_nat c2)) 0x1111) s a in
  let r' := zip_with (fun rb sb => u16 (Z.lor rb (Z.shiftl (Z.land sb 0x1111) (Z.of_nat c1)))) r s' in
  (s', r').

(** Rotate the rows in s one position upwards, and xor in r *)
Definition KeySetupTransform (s r : AES_state) : AES_state :=
  zip_with (fun sb rb => u16 (Z.lor (Z.shiftr sb 4) (Z.shiftl sb 12) ^^ rb)) s r.

(** Multiply the cells in s by x modulo x^8 + x^4 + x^3 + x + 1. *)
Definition MultX (s : AES_state) : AES_state :=
  let top := s !!! 7%nat in
  [top; (s !!! 0%nat) ^^ top; s !!! 1%nat; (s !!! 2%nat) ^^ top;
   (s !!! 3%nat) ^^ top; s !!! 4%nat; s !!! 5%nat; s !!! 6%nat].

Record setup_state := SetupState {
  rounds : list AES_state;    (* the round keys generated so far *)
  column : AES_state;         (* the word currently being processed, in column 0 *)
  rcon : AES_state;           (* the one-byte round constant *)
  pos : nat                   (* number of the word being generated, modulo nkeywords *)
}.

(** The first nkeywords round columns are taken from the key directly. *)
Definition AES_setup_load (key : list Z) (nkeywords nrounds : nat) : list AES_state :=
  for_range 0 nkeywords (fun i rounds =>
    for_range 0 4 (fun r rounds =>
      alter (fun s => LoadByte s (key !!! (i * 4 + r)%nat) r (i mod 4)) (i / 4)%nat rounds) rounds)
    (replicate (nrounds + 1) (replicate 8 0)).

(** One iteration of the main loop of [AES_setup]. *)
Definition AES_setup_step (nkeywords : nat) (i : nat) (st : setup_state) : setup_state :=
  let '(column, rcon) :=
    if (st.(pos) =? 0)%nat then
      (KeySetupTransform (SubBytes st.(column) false) st.(rcon), MultX st.(rcon))
    else if (6 <? nkeywords)%nat && (st.(pos) =? 4)%nat then
      (SubBytes st.(column) false, st.(rcon))
    else (st.(column), st.(rcon)) in
  let pos := if (st.(pos) + 1 =? nkeywords)%nat then 0%nat else (st.(pos) + 1)%nat in
  let '(column, r) :=
    KeySetupColumnMix column (st.(rounds) !!! (i / 4)%nat)
      (st.(rounds) !!! ((i - nkeywords) / 4)%nat) (i mod 4) ((i - nkeywords) mod 4) in
  SetupState (<[(i / 4)%nat := r]> st.(rounds)) column rcon pos.

Definition AES_setup (key : list Z) (nkeywords nrounds : nat) : list AES_state :=
  let rounds := AES_setup_load key nkeywords nrounds in
  let column := GetOneColumn (rounds !!! ((nkeywords - 1) / 4)%nat) ((nkeywords - 1) mod 4) in
  let st := SetupState rounds column [1; 0; 0; 0; 0; 0; 0; 0] 0 in
  Ctaes.rounds (for_range nkeywords (4 * (nrounds + 1)) (AES_setup_step nkeywords) st).

(** ** The cipher *)

Definition AES_encrypt (rounds : list AES_state) (nrounds : nat) (plain16 : list Z) : list Z :=
  let s := LoadBytes (replicate 8 0) plain16 in
  let s := AddRoundKey s (rounds !!! 0%nat) in
  let s := for_range 1 nrounds (fun round s =>
    AddRoundKey (MixColumns (ShiftRows (SubBytes s false)) false) (rounds !!! round)) s in
  SaveBytes (AddRoundKey (ShiftRows (SubBytes s false)) (rounds !!! nrounds)).

Definition AES_decrypt (rounds : list AES_state) (nrounds : nat) (cipher16 : list Z) : list Z :=
  let s := LoadBytes (replicate 8 0) cipher16 in
  let s := AddRoundKey s (rounds !!! nrounds) in
  let s := for_range 1 nrounds (fun round s =>
    MixColumns (AddRoundKey (SubBytes (InvShiftRows s) true) (rounds !!! (nrounds - round)%nat)) true) s in
  SaveBytes (AddRoundKey (SubBytes (InvShiftRows s) true) (rounds !!! 0%nat)).

(** The loop [while (blocks--)] of the six interface functions. *)
Fixpoint AES_blocks (f : list Z -> list Z) (blocks : nat) (data : list Z) : list Z :=
  match blocks with
  | O => []
  | S blocks => f (take 16 data) ++ AES_blocks f blocks (drop 16 data)
  end.

Definition AES128_init (key16 : list Z) : list AES_state := AES_setup key16 4 10.
Definition AES128_encrypt (ctx : list AES_state) (blocks : nat) (plain16 : list Z) : list Z :=
  AES_blocks (AES_encrypt ctx 10) blocks plain16.
Definition AES128_decrypt (ctx : list AES_state) (blocks : nat) (cipher16 : list Z) : list Z :=
  AES_blocks (AES_decrypt ctx 10) blocks cipher16.

Definition AES192_init (key24 : list Z) : list AES_state := AES_setup key24 6 12.
Definition AES192_encrypt (ctx : list AES_state) (blocks : nat) (plain16 : list Z) : list Z :=
  AES_blocks (AES_encrypt ctx 12) blocks plain16.
Definition AES192_decrypt (ctx : list AES_state) (blocks : nat) (cipher16 : list Z) : list Z :=
  AES_blocks (AES_decrypt ctx 12) blocks cipher16.

Definition AES256_init (key32 : list Z) : list AES_state := AES_setup key32 8 14.
Definition AES256_encrypt (ctx : list AES_state) (blocks : nat) (plain16 : list Z) : list Z :=
  AES_blocks (AES_encrypt ctx 14) blocks plain16.
Definition AES256_decrypt (ctx : list AES_state) (blocks : nat) (cipher16 : list Z) : list Z :=
  AES_blocks (AES_decrypt ctx 14) blocks cipher16.
