(* ===== verification/Fips197.v ===== *)
(** The Advanced Encryption Standard as FIPS 197 states it, on bytes: the
    reference the bit-sliced code of Ctaes.v is proved to implement.

    A state is the list of its 16 bytes in the order in which they are read
    from the input, so byte [r + 4 * c] is in row [r] and column [c]. *)

From S2P Require Import Prelude.

Module Fips197.

(** ** Arithmetic in GF(2^8) (section 4.2) *)

(** Multiplication by x modulo x^8 + x^4 + x^3 + x + 1. *)
Definition xtime (b : Z) : Z :=
  let d := Z.land (Z.shiftl b 1) 0xff in
  if Z.testbit b 7 then Z.lxor d 0x1b else d.

(** Multiplication by the constants of the column transformations. *)
Fixpoint gmul_pos (a : positive) (b : Z) : Z :=
  match a with
  | xH => b
  | xO a' => xtime (gmul_pos a' b)
  | xI a' => Z.lxor (xtime (gmul_pos a' b)) b
  end.

Definition gmul (a b : Z) : Z :=
  match a with
  | Zpos a' => gmul_pos a' b
  | _ => 0
  end.

Fixpoint gpow (b : Z) (n : nat) : Z :=
  match n with
  | O => 1
  | S n' => gmul b (gpow b n')
  end.

(** The multiplicative inverse, with 0 mapped to itself: b^254. *)
Definition ginv (b : Z) : Z := gpow b 254.

(** ** The S-box (section 5.1.1) and its inverse (section 5.3.2) *)

Definition rotl8 (b n : Z) : Z := Z.lor (Z.land (Z.shiftl b n) 0xff) (Z.shiftr b (8 - n)).

Definition sbox (b : Z) : Z :=
  let i := ginv b in
  Z.lxor (Z.lxor (Z.lxor (Z.lxor (Z.lxor i (rotl8 i 1)) (rotl8 i 2)) (rotl8 i 3)) (rotl8 i 4)) 0x63.

Definition inv_sbox (b : Z) : Z :=
  ginv (Z.lxor (Z.lxor (Z.lxor (rotl8 b 1) (rotl8 b 3)) (rotl8 b 6)) 0x05).

(** ** The transformations of the state *)

Definition at_rc (s : list Z) (r c : nat) : Z := s !!! (r + 4 * c)%nat.

(** The state whose byte in row [r], column [c] is [f r c]. *)
Definition tabulate (f : nat -> nat -> Z) : list Z :=
  map (fun k => f (k mod 4)%nat (k / 4)%nat) (seq 0 16).

Definition SubBytes (s : list Z) : list Z := map sbox s.
Definition InvSubBytes (s : list Z) : list Z := map inv_sbox s.

Definition ShiftRows (s : list Z) : list Z :=
  tabulate (fun r c => at_rc s r ((c + r) mod 4)).
Definition InvShiftRows (s : list Z) : list Z :=
  tabulate (fun r c => at_rc s r ((c + (4 - r)) mod 4)).

(** Column [c] multiplied by the polynomial with coefficients [k0 .. k3]. *)
Definition mix (k0 k1 k2 k3 : Z) (s : list Z) : list Z :=
  tabulate (fun r c =>
    Z.lxor (Z.lxor (gmul k0 (at_rc s r c)) (gmul k1 (at_rc s ((r + 1) mod 4) c)))
           (Z.lxor (gmul k2 (at_rc s ((r + 2) mod 4) c)) (gmul k3 (at_rc s ((r + 3) mod 4) c)))).

Definition MixColumns (s : list Z) : list Z := mix 2 3 1 1 s.
Definition InvMixColumns (s : list Z) : list Z := mix 0xe 0xb 0xd 0x9 s.

Definition AddRoundKey (s k : list Z) : list Z := zip_with Z.lxor s k.

(** ** Key expansion (section 5.2) *)

Definition RotWord (w : list Z) : list Z := drop 1 w ++ take 1 w.
Definition SubWord (w : list Z) : list Z := map sbox w.
Definition Rcon (i : nat) : list Z := [Nat.iter (i - 1) xtime 1; 0; 0; 0].

Definition expand_word (Nk i : nat) (w : list (list Z)) : list Z :=
  let temp := w !!! (i - 1)%nat in
  let temp :=
    if (i mod Nk =? 0)%nat then zip_with Z.lxor (SubWord (RotWord temp)) (Rcon (i / Nk))
    else if (6 <? Nk)%nat && (i mod Nk =? 4)%nat then SubWord temp
    else temp in
  zip_with Z.lxor (w !!! (i - Nk)%nat) temp.

Definition KeyExpansion (key : list Z) (Nk Nr : nat) : list (list Z) :=
  let w := map (fun i => read_at (4 * i) 4 key) (seq 0 Nk) in
  for_range Nk (4 * (Nr + 1)) (fun i w => w ++ [expand_word Nk i w]) w.

(** The four words of round key [round], as a state. *)
Definition round_key (w : list (list Z)) (round : nat) : list Z :=
  (w !!! (4 * round)%nat) ++ (w !!! (4 * round + 1)%nat) ++
  (w !!! (4 * round + 2)%nat) ++ (w !!! (4 * round + 3)%nat).

(** ** Cipher and inverse cipher (sections 5.1 and 5.3) *)

Definition Cipher (rk : nat -> list Z) (Nr : nat) (plain : list Z) : list Z :=
  let s := AddRoundKey plain (rk 0%nat) in
  let s := for_range 1 Nr (fun round s =>
    AddRoundKey (MixColumns (ShiftRows (SubBytes s))) (rk round)) s in
  AddRoundKey (ShiftRows (SubBytes s)) (rk Nr).

Definition InvCipher (rk : nat -> list Z) (Nr : nat) (cipher : list Z) : list Z :=
  let s := AddRoundKey cipher (rk Nr) in
  let s := for_range 1 Nr (fun round s =>
    InvMixColumns (AddRoundKey (InvSubBytes (InvShiftRows s)) (rk (Nr - round)%nat))) s in
  AddRoundKey (InvSubBytes (InvShiftRows s)) (rk 0%nat).

(** Encryption of one block under a key of [4 * Nk] bytes. *)
Definition encrypt (Nk Nr : nat) (key plain : list Z) : list Z :=
  Cipher (round_key (KeyExpansion key Nk Nr)) Nr plain.

Definition decrypt (Nk Nr : nat) (key cipher : list Z) : list Z :=
  InvCipher (round_key (KeyExpansion key Nk Nr)) Nr cipher.

(** The bits of [xtime b], from those of [b]. *)
Definition xtime_bit (b : Z) (i : Z) : bool :=
  xorb (if i =? 0 then false else Z.testbit b (i - 1))
       (Z.testbit b 7 && Z.testbit 0x1b i).

(** The contribution of a byte to the product of the two column polynomials. *)
Definition mix_product (x k0 k1 k2 k3 : Z) : Z :=
  Z.lxor (Z.lxor (gmul 0xe (gmul k0 x)) (gmul 0xb (gmul k1 x)))
         (Z.lxor (gmul 0xd (gmul k2 x)) (gmul 0x9 (gmul k3 x))).

(** A well-formed state. *)
Definition state_ok (s : list Z) : Prop := length s = 16%nat /\ words 8 s.

(** ** Facts on bytes, checked on all of them *)

Lemma sbox_word x : word 8 x -> word 8 (sbox x).
Proof.
  intros Hx; apply wordb_spec; revert x Hx.
  apply (byte_forall (fun x => wordb 8 (sbox x))); vm_compute; reflexivity.
Qed.

Lemma inv_sbox_word x : word 8 x -> word 8 (inv_sbox x).
Proof.
  intros Hx; apply wordb_spec; revert x Hx.
  apply (byte_forall (fun x => wordb 8 (inv_sbox x))); vm_compute; reflexivity.
Qed.

Lemma inv_sbox_sbox x : word 8 x -> inv_sbox (sbox x) = x.
Proof.
  intros Hx; apply Z.eqb_eq; revert x Hx.
  apply (byte_forall (fun x => inv_sbox (sbox x) =? x)); vm_compute; reflexivity.
Qed.

Lemma xtime_word x : word 8 x -> word 8 (xtime x).
Proof.
  intros Hx; apply wordb_spec; revert x Hx.
  apply (byte_forall (fun x => wordb 8 (xtime x))); vm_compute; reflexivity.
Qed.

Lemma xtime_bits x i : word 8 x -> 0 <= i < 8 -> Z.testbit (xtime x) i = xtime_bit x i.
Proof.
  intros Hx Hi.
  assert (Hall : forallb (fun i => eqb (Z.testbit (xtime x) i) (xtime_bit x i))
                   (map Z.of_nat (seq 0 8)) = true).
  { revert x Hx; apply (byte_forall (fun x => forallb (fun i =>
      eqb (Z.testbit (xtime x) i) (xtime_bit x i)) (map Z.of_nat (seq 0 8)))).
    vm_compute; reflexivity. }
  rewrite forallb_forall in Hall; apply eqb_prop, Hall, in_map_iff.
  exists (Z.to_nat i); split; [lia|]; apply in_seq; lia.
Qed.

Lemma gmul_pos_word a x : word 8 x -> word 8 (gmul_pos a x).
Proof.
  intros Hx; induction a; simpl; [|by apply xtime_word|done].
  apply lxor_word; [lia| |done]; by apply xtime_word.
Qed.

Lemma gmul_word a x : word 8 x -> word 8 (gmul a x).
Proof. destruct a; simpl; auto using gmul_pos_word; by unfold word. Qed.

(** Two bytes with the same eight bits are equal. *)
Lemma byte_eq_bits x y :
  word 8 x -> word 8 y ->
  (forall i, In i [0; 1; 2; 3; 4; 5; 6; 7] -> Z.testbit x i = Z.testbit y i) -> x = y.
Proof.
  intros Hx Hy Hb; apply (word_eq_bits 8); [done|done|lia|].
  intros i Hi; apply Hb; simpl; lia.
Qed.

(** ** The inverse cipher undoes the cipher *)

Lemma tabulate_ok f : (forall r c, (r < 4)%nat -> (c < 4)%nat -> word 8 (f r c)) -> state_ok (tabulate f).
Proof.
  intros Hf; split; [by unfold tabulate; rewrite length_map, length_seq|].
  apply List.Forall_forall; intros x Hx.
  apply in_map_iff in Hx as (k & <- & Hk%in_seq).
  apply Hf; [by apply Nat.mod_upper_bound|apply Nat.Div0.div_lt_upper_bound; lia].
Qed.

Lemma at_tabulate f r c : (r < 4)%nat -> (c < 4)%nat -> at_rc (tabulate f) r c = f r c.
Proof.
  intros Hr Hc.
  do 4 (destruct r as [|r]; [do 4 (destruct c as [|c]; [reflexivity|]); lia|]); lia.
Qed.

Lemma state_tabulate s : state_ok s -> s = tabulate (at_rc s).
Proof.
  intros [Hlen _].
  do 16 (destruct s as [|? s]; [discriminate|]); destruct s; [|discriminate].
  reflexivity.
Qed.

Lemma tabulate_ext f g :
  (forall r c, (r < 4)%nat -> (c < 4)%nat -> f r c = g r c) -> tabulate f = tabulate g.
Proof.
  intros Hfg; apply map_ext_in; intros k Hk%in_seq.
  apply Hfg; [by apply Nat.mod_upper_bound|apply Nat.Div0.div_lt_upper_bound; lia].
Qed.

Lemma at_rc_word s r c : state_ok s -> (r < 4)%nat -> (c < 4)%nat -> word 8 (at_rc s r c).
Proof.
  intros [Hlen Hw] Hr Hc; unfold at_rc.
  apply (Forall_lookup_total_1 _ _ _ Hw); lia.
Qed.

Lemma SubBytes_ok s : state_ok s -> state_ok (SubBytes s).
Proof.
  intros [Hlen Hw]; split; [by unfold SubBytes; rewrite length_map|].
  apply Forall_fmap; eapply Forall_impl; [exact sbox_word|exact Hw].
Qed.

Lemma InvSubBytes_ok s : state_ok s -> state_ok (InvSubBytes s).
Proof.
  intros [Hlen Hw]; split; [by unfold InvSubBytes; rewrite length_map|].
  apply Forall_fmap; eapply Forall_impl; [exact inv_sbox_word|exact Hw].
Qed.

Lemma ShiftRows_ok s : state_ok s -> state_ok (ShiftRows s).
Proof. intros; apply tabulate_ok; intros; apply at_rc_word; auto; by apply Nat.mod_upper_bound. Qed.

Lemma InvShiftRows_ok s : state_ok s -> state_ok (InvShiftRows s).
Proof. intros; apply tabulate_ok; intros; apply at_rc_word; auto; by apply Nat.mod_upper_bound. Qed.

Lemma mix_ok k0 k1 k2 k3 s : state_ok s -> state_ok (mix k0 k1 k2 k3 s).
Proof.
  intros Hs; apply tabulate_ok; intros r c Hr Hc.
  repeat apply lxor_word; try lia; apply gmul_word, at_rc_word; auto;
    by apply Nat.mod_upper_bound.
Qed.

Lemma AddRoundKey_ok s k : state_ok s -> state_ok k -> state_ok (AddRoundKey s k).
Proof.
  intros [Hs1 Hs2] [Hk1 Hk2]; split; [unfold AddRoundKey; rewrite length_zip_with; lia|].
  unfold AddRoundKey; clear Hs1 Hk1; revert k Hk2.
  induction Hs2 as [|x s Hx Hs IH]; intros [|y k] Hk; simpl; try constructor.
  - inv Hk; apply lxor_word; auto; lia.
  - inv Hk; by apply IH.
Qed.

Lemma AddRoundKey_twice s k : state_ok s -> state_ok k -> AddRoundKey (AddRoundKey s k) k = s.
Proof.
  intros [Hs _] [Hk _]; unfold AddRoundKey; revert k Hk; rewrite <- Hs; clear Hs.
  induction s as [|x s IH]; intros [|y k] Hk; try discriminate; simpl; [done|].
  f_equal; [|by apply IH; inv Hk].
  by rewrite Z.lxor_assoc, Z.lxor_nilpotent, Z.lxor_0_r.
Qed.

Lemma InvSubBytes_SubBytes s : state_ok s -> InvSubBytes (SubBytes s) = s.
Proof.
  intros [_ Hw]; unfold InvSubBytes, SubBytes; rewrite map_map.
  induction Hw as [|x s Hx Hs IH]; simpl; [done|]; by rewrite inv_sbox_sbox, IH.
Qed.

Lemma InvShiftRows_ShiftRows s : state_ok s -> InvShiftRows (ShiftRows s) = s.
Proof.
  intros Hs; rewrite (state_tabulate s Hs) at 2; apply tabulate_ext; intros r c Hr Hc.
  unfold ShiftRows; rewrite at_tabulate by (done || by apply Nat.mod_upper_bound).
  f_equal; rewrite Nat.Div0.add_mod_idemp_l.
  replace (c + (4 - r) + r)%nat with (c + 1 * 4)%nat by lia.
  rewrite Nat.Div0.mod_add; by apply Nat.mod_small.
Qed.

(** Multiplication by a constant is linear. *)
Lemma xtime_lxor x y : word 8 x -> word 8 y -> xtime (Z.lxor x y) = Z.lxor (xtime x) (xtime y).
Proof.
  intros Hx Hy; apply (word_eq_bits 8); [| |lia|].
  - apply xtime_word, lxor_word; auto; lia.
  - apply lxor_word; auto using xtime_word; lia.
  - intros i Hi; rewrite Z.lxor_spec, !xtime_bits by (try apply lxor_word; done || lia).
    unfold xtime_bit; rewrite !Z.lxor_spec; destruct (i =? 0);
      generalize (Z.testbit 27 i); intros; ring.
Qed.

Ltac byte_tac :=
  repeat match goal with
    | |- word _ (Z.lxor _ _) => apply lxor_word; [lia| |]
    | |- word 8 (gmul _ _) => apply gmul_word
    | |- word 8 (xtime _) => apply xtime_word
    | |- word 8 (at_rc _ _ _) => apply at_rc_word; [done|..]
    end; try assumption.

Lemma gmul_lxor k x y : word 8 x -> word 8 y -> gmul k (Z.lxor x y) = Z.lxor (gmul k x) (gmul k y).
Proof.
  intros Hx Hy; destruct k as [|p|]; simpl; [done| |done].
  induction p as [p IH|p IH|]; simpl; [| |done]; rewrite IH, xtime_lxor by by apply gmul_pos_word.
  - apply Z.bits_inj'; intros; rewrite !Z.lxor_spec; ring.
  - done.
Qed.

(** The coefficient with which a byte enters the product of the two column
    polynomials: 1 for the byte itself, 0 for the three others. *)
Lemma mix_coefficients x :
  word 8 x ->
  mix_product x 2 1 1 3 = x /\ mix_product x 3 2 1 1 = 0 /\
  mix_product x 1 3 2 1 = 0 /\ mix_product x 1 1 3 2 = 0.
Proof.
  intros Hx; rewrite <- !Z.eqb_eq, <- !andb_true_iff; revert x Hx.
  apply (byte_forall (fun x =>
    (mix_product x 2 1 1 3 =? x) && ((mix_product x 3 2 1 1 =? 0) &&
     ((mix_product x 1 3 2 1 =? 0) && (mix_product x 1 1 3 2 =? 0))))).
  vm_compute; reflexivity.
Qed.

Lemma inv_mix_mix_byte a b c d :
  word 8 a -> word 8 b -> word 8 c -> word 8 d ->
  let m x y z t := Z.lxor (Z.lxor (gmul 2 x) (gmul 3 y)) (Z.lxor (gmul 1 z) (gmul 1 t)) in
  Z.lxor (Z.lxor (gmul 0xe (m a b c d)) (gmul 0xb (m b c d a)))
         (Z.lxor (gmul 0xd (m c d a b)) (gmul 0x9 (m d a b c))) = a.
Proof.
  intros Ha Hb Hc Hd m; unfold m.
  rewrite !gmul_lxor by byte_tac.
  transitivity (Z.lxor (Z.lxor (mix_product a 2 1 1 3) (mix_product b 3 2 1 1))
                       (Z.lxor (mix_product c 1 3 2 1) (mix_product d 1 1 3 2))).
  - unfold mix_product; apply Z.bits_inj'; intros; rewrite !Z.lxor_spec; ring.
  - destruct (mix_coefficients a Ha) as (-> & _), (mix_coefficients b Hb) as (_ & -> & _).
    destruct (mix_coefficients c Hc) as (_ & _ & -> & _), (mix_coefficients d Hd) as (_ & _ & _ & ->).
    by rewrite !Z.lxor_0_r.
Qed.

Lemma InvMixColumns_MixColumns s : state_ok s -> InvMixColumns (MixColumns s) = s.
Proof.
  intros Hs; rewrite (state_tabulate s Hs) at 2; apply tabulate_ext; intros r c Hr Hc.
  unfold MixColumns, mix; rewrite !at_tabulate by (done || by apply Nat.mod_upper_bound).
  pose proof (fun r => at_rc_word s r c Hs) as Hw.
  do 4 (destruct r as [|r]; [cbn -[gmul at_rc]; apply inv_mix_mix_byte; apply Hw; lia|]); lia.
Qed.

(** Multiplying by {04}x^2 + {05} after a(x) is multiplying by the inverse of a(x). *)
Lemma mix_5_4_coefficients x :
  word 8 x ->
  Z.lxor (gmul 5 (gmul 2 x)) (gmul 4 (gmul 1 x)) = gmul 0xe x /\
  Z.lxor (gmul 5 (gmul 3 x)) (gmul 4 (gmul 1 x)) = gmul 0xb x /\
  Z.lxor (gmul 5 (gmul 1 x)) (gmul 4 (gmul 2 x)) = gmul 0xd x /\
  Z.lxor (gmul 5 (gmul 1 x)) (gmul 4 (gmul 3 x)) = gmul 0x9 x.
Proof.
  intros Hx; rewrite <- !Z.eqb_eq, <- !andb_true_iff; revert x Hx.
  apply (byte_forall (fun x =>
    (Z.lxor (gmul 5 (gmul 2 x)) (gmul 4 (gmul 1 x)) =? gmul 0xe x) &&
    ((Z.lxor (gmul 5 (gmul 3 x)) (gmul 4 (gmul 1 x)) =? gmul 0xb x) &&
     ((Z.lxor (gmul 5 (gmul 1 x)) (gmul 4 (gmul 2 x)) =? gmul 0xd x) &&
      (Z.lxor (gmul 5 (gmul 1 x)) (gmul 4 (gmul 3 x)) =? gmul 0x9 x))))).
  vm_compute; reflexivity.
Qed.

Lemma mix_5_4_byte a b c d :
  word 8 a -> word 8 b -> word 8 c -> word 8 d ->
  let m x y z t := Z.lxor (Z.lxor (gmul 2 x) (gmul 3 y)) (Z.lxor (gmul 1 z) (gmul 1 t)) in
  Z.lxor (gmul 5 (m a b c d)) (gmul 4 (m c d a b)) =
  Z.lxor (Z.lxor (gmul 0xe a) (gmul 0xb b)) (Z.lxor (gmul 0xd c) (gmul 0x9 d)).
Proof.
  intros Ha Hb Hc Hd m; unfold m; rewrite !gmul_lxor by byte_tac.
  destruct (mix_5_4_coefficients a Ha) as (<- & _), (mix_5_4_coefficients b Hb) as (_ & <- & _).
  destruct (mix_5_4_coefficients c Hc) as (_ & _ & <- & _), (mix_5_4_coefficients d Hd) as (_ & _ & _ & <-).
  apply Z.bits_inj'; intros; rewrite !Z.lxor_spec; ring.
Qed.

Lemma InvMixColumns_factor s : state_ok s -> mix 5 0 4 0 (MixColumns s) = InvMixColumns s.
Proof.
  intros Hs; apply tabulate_ext; intros r c Hr Hc.
  unfold MixColumns, mix; rewrite !at_tabulate by (done || by apply Nat.mod_upper_bound).
  pose proof (fun r => at_rc_word s r c Hs) as Hw.
  unfold gmul at 5 14; rewrite !Z.lxor_0_r.
  do 4 (destruct r as [|r]; [cbn -[gmul at_rc]; apply mix_5_4_byte; apply Hw; lia|]); lia.
Qed.

Lemma InvCipher_Cipher rk Nr s :
  (1 <= Nr)%nat -> (forall i, (i <= Nr)%nat -> state_ok (rk i)) -> state_ok s ->
  InvCipher rk Nr (Cipher rk Nr s) = s.
Proof.
  intros HNr Hrk Hs; unfold InvCipher, Cipher.
  set (body := fun round s => AddRoundKey (MixColumns (ShiftRows (SubBytes s))) (rk round)).
  set (ibody := fun round s => InvMixColumns (AddRoundKey (InvSubBytes (InvShiftRows s)) (rk (Nr - round)%nat))).
  set (s0 := AddRoundKey s (rk 0%nat)).
  assert (Hok : forall n, (1 <= n <= Nr)%nat -> state_ok (for_range 1 n body s0)).
  { intros n Hn; apply (for_range_ind (fun _ => state_ok)); [lia| |].
    - apply AddRoundKey_ok; [done|]; apply Hrk; lia.
    - intros i s' Hi Hs'; apply AddRoundKey_ok; [|apply Hrk; lia].
      apply mix_ok, ShiftRows_ok, SubBytes_ok, Hs'. }
  rewrite AddRoundKey_twice by auto using ShiftRows_ok, SubBytes_ok.
  assert (Hloop : for_range 1 Nr ibody (ShiftRows (SubBytes (for_range 1 Nr body s0))) =
                  ShiftRows (SubBytes s0)).
  { rewrite <- (for_range_empty 1 body s0) at 2.
    replace 1%nat with (Nr - Nr + 1)%nat at 4 by lia.
    apply (for_range_ind (fun j t => t = ShiftRows (SubBytes (for_range 1 (Nr - j + 1) body s0)))); [lia| |].
    - by replace (Nr - 1 + 1)%nat with Nr by lia.
    - intros j t Hj ->; unfold ibody; replace (Nr - (j + 1) + 1)%nat with (Nr - j)%nat by lia.
      rewrite InvShiftRows_ShiftRows, InvSubBytes_SubBytes by (try apply SubBytes_ok; apply Hok; lia).
      rewrite for_range_S by lia; unfold body at 1.
      rewrite AddRoundKey_twice, InvMixColumns_MixColumns; auto.
      1-3: repeat first [apply mix_ok|apply ShiftRows_ok|apply SubBytes_ok|apply Hok; lia].
      apply Hrk; lia. }
  rewrite Hloop, InvShiftRows_ShiftRows, InvSubBytes_SubBytes.
  - apply AddRoundKey_twice; [done|apply Hrk; lia].
  - apply AddRoundKey_ok; [done|apply Hrk; lia].
  - apply SubBytes_ok, AddRoundKey_ok; [done|apply Hrk; lia].
Qed.

End Fips197.
