(* ===== verification/CtaesProofs.v ===== *)
(** The S-box circuit of Ctaes.v computes the S-box of FIPS 197 in every one of
    the sixteen bit positions of its slices.

    Ctaes.v implements FIPS 197: each bit-sliced transformation acts on the
    sixteen bytes of the state as the standard says. *)

From S2P Require Import Prelude Ctaes Fips197.

(** A well-formed sliced state. *)
Definition sliced (s : list Z) : Prop := length s = 8%nat /\ words 16 s.

(** Maps that commute with the four gates commute with the circuit. *)
Class BitHom {A B} `{BitAlg A, BitAlg B} (h : A -> B) : Prop := {
  hom_xor x y : h (bxor x y) = bxor (h x) (h y);
  hom_and x y : h (band x y) = band (h x) (h y);
  hom_or x y : h (bor x y) = bor (h x) (h y);
  hom_not x : h (bnot x) = bnot (h x)
}.

(** The bit of byte [x] for slice [b]. *)
Definition byte_gates (inv : bool) (x : Z) : list bool :=
  SubBytes_gates inv (Z.testbit x 7) (Z.testbit x 6) (Z.testbit x 5) (Z.testbit x 4)
    (Z.testbit x 3) (Z.testbit x 2) (Z.testbit x 1) (Z.testbit x 0).

Definition byte_bits (x : Z) : list bool := map (fun b => Z.testbit x (Z.of_nat b)) (seq 0 8).

(** ** The S-box circuit *)

Section Circuit.
Context {A B} `{HA : BitAlg A} `{HB : BitAlg B} (h : A -> B) `{Hh : !BitHom h}.

Ltac push_hom := repeat rewrite ?(hom_not (h:=h)), ?(hom_xor (h:=h)), ?(hom_and (h:=h)), ?(hom_or (h:=h)).

Lemma SubBytes_pre_hom inv U0 U1 U2 U3 U4 U5 U6 U7 :
  SubBytes_pre inv (h U0) (h U1) (h U2) (h U3) (h U4) (h U5) (h U6) (h U7) =
  let '(T1, T2, T3, T4, T6, T8, T9, T10, T13, T14, T15,
        T16, T17, T19, T20, T22, T23, T24, T25, T26, T27, D) :=
    SubBytes_pre inv U0 U1 U2 U3 U4 U5 U6 U7 in
  (h T1, h T2, h T3, h T4, h T6, h T8, h T9, h T10, h T13, h T14, h T15,
   h T16, h T17, h T19, h T20, h T22, h T23, h T24, h T25, h T26, h T27, h D).
Proof. destruct inv; cbv zeta beta iota delta [SubBytes_pre]; push_hom; reflexivity. Qed.

Lemma SubBytes_nonlinear_hom T1 T2 T3 T4 T6 T8 T9 T10 T13 T14 T15 T16 T17 T19 T20 T22 T23 T24 T25 T26 T27 D :
  SubBytes_nonlinear (h T1) (h T2) (h T3) (h T4) (h T6) (h T8) (h T9) (h T10) (h T13) (h T14) (h T15) (h T16) (h T17) (h T19) (h T20) (h T22) (h T23) (h T24) (h T25) (h T26) (h T27) (h D) =
  let '(M46, M47, M48, M49, M50, M51, M52, M53, M54, M55, M56, M57, M58, M59, M60, M61, M62, M63) := SubBytes_nonlinear T1 T2 T3 T4 T6 T8 T9 T10 T13 T14 T15 T16 T17 T19 T20 T22 T23 T24 T25 T26 T27 D in
  (h M46, h M47, h M48, h M49, h M50, h M51, h M52, h M53, h M54, h M55, h M56, h M57, h M58, h M59, h M60, h M61, h M62, h M63).
Proof. cbv zeta beta iota delta [SubBytes_nonlinear]; push_hom; reflexivity. Qed.

Lemma SubBytes_post_hom inv M46 M47 M48 M49 M50 M51 M52 M53 M54 M55 M56 M57 M58 M59 M60 M61 M62 M63 :
  SubBytes_post inv (h M46) (h M47) (h M48) (h M49) (h M50) (h M51) (h M52) (h M53) (h M54) (h M55) (h M56) (h M57) (h M58) (h M59) (h M60) (h M61) (h M62) (h M63) =
  map h (SubBytes_post inv M46 M47 M48 M49 M50 M51 M52 M53 M54 M55 M56 M57 M58 M59 M60 M61 M62 M63).
Proof. destruct inv; cbv zeta beta iota delta [SubBytes_post map]; push_hom; reflexivity. Qed.

Lemma SubBytes_gates_hom inv U0 U1 U2 U3 U4 U5 U6 U7 :
  SubBytes_gates inv (h U0) (h U1) (h U2) (h U3) (h U4) (h U5) (h U6) (h U7) =
  map h (SubBytes_gates inv U0 U1 U2 U3 U4 U5 U6 U7).
Proof.
  unfold SubBytes_gates; rewrite SubBytes_pre_hom.
  destruct (SubBytes_pre inv U0 U1 U2 U3 U4 U5 U6 U7)
    as [[[[[[[[[[[[[[[[[[[[[? ?] ?] ?] ?] ?] ?] ?] ?] ?] ?] ?] ?] ?] ?] ?] ?] ?] ?] ?] ?] ?].
  rewrite SubBytes_nonlinear_hom.
  destruct (SubBytes_nonlinear _ _ _ _ _ _ _ _ _ _ _ _ _ _ _ _ _ _ _ _ _ _)
    as [[[[[[[[[[[[[[[[[? ?] ?] ?] ?] ?] ?] ?] ?] ?] ?] ?] ?] ?] ?] ?] ?] ?].
  apply SubBytes_post_hom.
Qed.
End Circuit.

#[export] Instance BitHom_testbit p : 0 <= p < 16 -> BitHom (A:=Z) (B:=bool) (fun x => Z.testbit x p).
Proof.
  intros Hp; constructor; intros; simpl.
  - apply Z.lxor_spec.
  - apply Z.land_spec.
  - apply Z.lor_spec.
  - unfold u16; rewrite testbit_wrap, Z.lnot_spec by lia; done.
Qed.

Lemma length_SubBytes_gates {A} `{BitAlg A} inv U0 U1 U2 U3 U4 U5 U6 U7 :
  length (SubBytes_gates inv U0 U1 U2 U3 U4 U5 U6 U7) = 8%nat.
Proof.
  unfold SubBytes_gates.
  destruct (SubBytes_pre inv U0 U1 U2 U3 U4 U5 U6 U7)
    as [[[[[[[[[[[[[[[[[[[[[? ?] ?] ?] ?] ?] ?] ?] ?] ?] ?] ?] ?] ?] ?] ?] ?] ?] ?] ?] ?] ?].
  destruct (SubBytes_nonlinear _ _ _ _ _ _ _ _ _ _ _ _ _ _ _ _ _ _ _ _ _ _)
    as [[[[[[[[[[[[[[[[[? ?] ?] ?] ?] ?] ?] ?] ?] ?] ?] ?] ?] ?] ?] ?] ?] ?].
  by destruct inv.
Qed.

(** The gates preserve 16-bit words: they are defined on the subtype. *)
#[local] Program Instance BitAlg_word16 : BitAlg {x | word 16 x} := {
  bxor x y := exist _ (Z.lxor (`x) (`y)) _;
  band x y := exist _ (Z.land (`x) (`y)) _;
  bor x y := exist _ (Z.lor (`x) (`y)) _;
  bnot x := exist _ (u16 (Z.lnot (`x))) _
}.
Next Obligation. intros [] []; simpl; auto with word_db. Qed.
Next Obligation. intros [] []; simpl; auto with word_db. Qed.
Next Obligation. intros [] []; simpl; auto with word_db. Qed.
Next Obligation. intros []; simpl; auto with word_db. Qed.

#[local] Instance BitHom_word16 : BitHom (A:={x | word 16 x}) (B:=Z) (@proj1_sig _ _).
Proof. by constructor. Qed.

Lemma SubBytes_sliced s inv : sliced s -> sliced (SubBytes s inv).
Proof.
  intros [Hlen Hw]; split; [apply length_SubBytes_gates|].
  assert (Hs : forall i, exists u : {x | word 16 x}, s !!! i = `u).
  { intros i; exists (exist _ (s !!! i) (words_default 16 s i Hw ltac:(lia))); done. }
  unfold SubBytes.
  destruct (Hs 0%nat) as [u0 ->], (Hs 1%nat) as [u1 ->], (Hs 2%nat) as [u2 ->], (Hs 3%nat) as [u3 ->].
  destruct (Hs 4%nat) as [u4 ->], (Hs 5%nat) as [u5 ->], (Hs 6%nat) as [u6 ->], (Hs 7%nat) as [u7 ->].
  rewrite (SubBytes_gates_hom (@proj1_sig _ _) (Hh := BitHom_word16)); apply Forall_fmap, List.Forall_forall; intros x _; exact (proj2_sig x).
Qed.

Lemma gates_sbox x : word 8 x ->
  byte_gates false x = byte_bits (Fips197.sbox x) /\
  byte_gates true x = byte_bits (Fips197.inv_sbox x).
Proof.
  intros Hx; split; apply (bool_decide_eq_true_1 _); revert x Hx.
  - apply (byte_forall (fun x => bool_decide (byte_gates false x = _))); vm_compute; reflexivity.
  - apply (byte_forall (fun x => bool_decide (byte_gates true x = _))); vm_compute; reflexivity.
Qed.

(** ** Bytes of a sliced state *)

Lemma SaveByte_spec s r c :
  word 8 (SaveByte s r c) /\
  forall i, 0 <= i < 8 -> Z.testbit (SaveByte s r c) i = Z.testbit (s !!! Z.to_nat i) (Z.of_nat (r * 4 + c)).
Proof.
  unfold SaveByte.
  pose proof (for_range_ind (fun b v => word 8 v /\ forall i, 0 <= i < 8 ->
    Z.testbit v i = (i <? Z.of_nat b) && Z.testbit (s !!! Z.to_nat i) (Z.of_nat (r * 4 + c))) 0 8
    (fun b v => u8 (Z.lor v (Z.shiftl (Z.land (Z.shiftr (s !!! b) (Z.of_nat (r * 4 + c))) 1) (Z.of_nat b)))) 0)
    as Hind.
  destruct Hind as [Hw Hb].
  - lia.
  - split; [by unfold word|]; intros i Hi; rewrite Z.testbit_0_l.
    by destruct (Z.ltb_spec i (Z.of_nat 0)); [lia|].
  - intros b v Hb [Hv Hbits]; split; [auto with word_db|]; intros i Hi.
    unfold u8; rewrite testbit_wrap, Z.lor_spec, Hbits, testbit_put, Z.shiftr_spec by lia.
    rewrite Z.add_0_l.
    destruct (Z.eqb_spec i (Z.of_nat b)) as [->|Hne].
    + rewrite Nat2Z.id; destruct (Z.ltb_spec (Z.of_nat b) (Z.of_nat b)); [lia|].
      by destruct (Z.ltb_spec (Z.of_nat b) (Z.of_nat (b + 1))); [|lia].
    + rewrite orb_false_r.
      by destruct (Z.ltb_spec i (Z.of_nat b)), (Z.ltb_spec i (Z.of_nat (b + 1))); try lia.
  - split; [done|]; intros i Hi; rewrite Hb by done.
    by destruct (Z.ltb_spec i (Z.of_nat 8)); [|lia].
Qed.

Lemma SaveBytes_tabulate s : SaveBytes s = Fips197.tabulate (SaveByte s).
Proof. reflexivity. Qed.

Lemma SaveBytes_ok s : Fips197.state_ok (SaveBytes s).
Proof. rewrite SaveBytes_tabulate; apply Fips197.tabulate_ok; intros; apply SaveByte_spec. Qed.

Lemma at_SaveBytes s r c : (r < 4)%nat -> (c < 4)%nat -> Fips197.at_rc (SaveBytes s) r c = SaveByte s r c.
Proof. intros; rewrite SaveBytes_tabulate; by apply Fips197.at_tabulate. Qed.

(** How a transformation of the slices is shown to compute a state. *)
Lemma SaveBytes_eq s f :
  (forall r c, (r < 4)%nat -> (c < 4)%nat -> word 8 (f r c)) ->
  (forall r c b, (r < 4)%nat -> (c < 4)%nat -> (b < 8)%nat ->
     Z.testbit (s !!! b) (Z.of_nat (r * 4 + c)) = Z.testbit (f r c) (Z.of_nat b)) ->
  SaveBytes s = Fips197.tabulate f.
Proof.
  intros Hf Hbits; rewrite SaveBytes_tabulate; apply Fips197.tabulate_ext; intros r c Hr Hc.
  destruct (SaveByte_spec s r c) as [Hw Hb].
  apply (word_eq_bits 8); [done|auto|lia|]; intros i Hi; rewrite Hb by done.
  rewrite Hbits by (done || lia); by rewrite Z2Nat.id by lia.
Qed.

Lemma SubBytes_correct s (inv : bool) : sliced s ->
  SaveBytes (SubBytes s inv) =
  if inv then Fips197.InvSubBytes (SaveBytes s) else Fips197.SubBytes (SaveBytes s).
Proof.
  intros Hs.
  assert (Hbit : forall r c b, (r < 4)%nat -> (c < 4)%nat -> (b < 8)%nat ->
    Z.testbit (SubBytes s inv !!! b) (Z.of_nat (r * 4 + c)) = byte_gates inv (SaveByte s r c) !!! b).
  { intros r c b Hr Hc Hb; destruct (SaveByte_spec s r c) as [_ Hbits].
    unfold byte_gates; rewrite !Hbits by done.
    rewrite (SubBytes_gates_hom (fun x => Z.testbit x (Z.of_nat (r * 4 + c)))
               (Hh := BitHom_testbit (Z.of_nat (r * 4 + c)) ltac:(lia))).
    rewrite (lookup_map _ _); [done|]; by rewrite length_SubBytes_gates. }
  transitivity (Fips197.tabulate (fun r c =>
    (if inv then Fips197.inv_sbox else Fips197.sbox) (SaveByte s r c))); [|by destruct inv].
  apply SaveBytes_eq.
  - intros r c _ _; destruct (SaveByte_spec s r c) as [Hw _].
    destruct inv; [by apply Fips197.inv_sbox_word|by apply Fips197.sbox_word].
  - intros r c b Hr Hc Hb; rewrite Hbit by done.
    destruct (SaveByte_spec s r c) as [Hw _], (gates_sbox _ Hw) as [Hf Hi].
    destruct inv; [rewrite Hi|rewrite Hf]; unfold byte_bits;
      by rewrite (lookup_map _ _), lookup_total_seq_lt by (rewrite ?length_seq; lia).
Qed.

(** ** Loading *)

Lemma LoadByte_loop_sliced s byte p : words 16 s -> words 16 (LoadByte_loop s byte p).
Proof.
  intros Hs; revert byte; induction Hs as [|x s Hx Hs IH]; intros byte; constructor; [|apply IH].
  auto with word_db.
Qed.

Lemma length_LoadByte_loop s byte p : length (LoadByte_loop s byte p) = length s.
Proof. revert byte; induction s; intros; simpl; auto. Qed.

Lemma LoadByte_sliced s byte r c : sliced s -> sliced (LoadByte s byte r c).
Proof.
  intros [Hlen Hw]; split; [by unfold LoadByte; rewrite length_LoadByte_loop|].
  by apply LoadByte_loop_sliced.
Qed.

Lemma LoadByte_loop_bit s byte p b q :
  (b < length s)%nat -> 0 <= p -> 0 <= q < 16 ->
  Z.testbit (LoadByte_loop s byte p !!! b) q =
  Z.testbit (s !!! b) q || ((q =? p) && Z.testbit byte (Z.of_nat b)).
Proof.
  revert byte b; induction s as [|x s IH]; intros byte b Hb Hp Hq; simpl in Hb; [lia|].
  destruct b as [|b]; simpl.
  - unfold u16; by rewrite testbit_wrap, Z.lor_spec, testbit_put by done.
  - rewrite (IH (Z.shiftr byte 1) b) by lia; rewrite Z.shiftr_spec by lia.
    by replace (Z.of_nat b + 1) with (Z.of_nat (S b)) by lia.
Qed.

Lemma LoadByte_bit s byte r c b q :
  sliced s -> (b < 8)%nat -> 0 <= q < 16 ->
  Z.testbit (LoadByte s byte r c !!! b) q =
  Z.testbit (s !!! b) q || ((q =? Z.of_nat (r * 4 + c)) && Z.testbit byte (Z.of_nat b)).
Proof. intros [Hlen _] Hb Hq; apply LoadByte_loop_bit; lia. Qed.

Lemma sliced_zero : sliced (replicate 8 0).
Proof. split; [done|]; apply Forall_replicate; by unfold word. Qed.

Lemma LoadBytes_sliced s data : sliced s -> sliced (LoadBytes s data).
Proof.
  intros Hs; unfold LoadBytes.
  apply (for_range_ind (fun _ => sliced)); [lia|done|]; intros c s' _ Hs'.
  apply (for_range_ind (fun _ => sliced)); [lia|done|]; intros r s'' _ Hs''.
  by apply LoadByte_sliced.
Qed.

Lemma SaveBytes_LoadBytes data :
  Fips197.state_ok data -> SaveBytes (LoadBytes (replicate 8 0) data) = data.
Proof.
  intros Hd; rewrite (Fips197.state_tabulate data Hd) at 2; apply SaveBytes_eq.
  { intros; by apply Fips197.at_rc_word. }
  intros r c b Hr Hc Hb; unfold LoadBytes, for_range; cbn [Nat.sub seq fold_left].
  repeat (rewrite LoadByte_bit by first [lia | repeat apply LoadByte_sliced; apply sliced_zero]).
  rewrite lookup_total_replicate_2 by lia; rewrite Z.testbit_0_l; unfold Fips197.at_rc.
  do 4 (destruct r as [|r]; [do 4 (destruct c as [|c]; [
    cbn -[Z.testbit lookup_total]; rewrite ?orb_false_r; reflexivity|]); lia|]); lia.
Qed.

(** ** Row shifts *)

(** Splits on the row and the column of a cell. *)
Ltac cell_cases r c tac :=
  do 4 (destruct r as [|r]; [do 4 (destruct c as [|c]; [tac|]); lia|]); lia.

Ltac shift_bits :=
  unfold BIT_RANGE_LEFT, BIT_RANGE_RIGHT, u16; rewrite testbit_wrap by lia;
  rewrite !Z.lor_spec, ?Z.shiftl_spec, ?Z.shiftr_spec, !Z.land_spec by lia.

Lemma ShiftRows_slice_bit v r c : (r < 4)%nat -> (c < 4)%nat ->
  Z.testbit (ShiftRows_slice v) (Z.of_nat (r * 4 + c)) =
  Z.testbit v (Z.of_nat (r * 4 + (c + r) mod 4)).
Proof.
  intros Hr Hc; unfold ShiftRows_slice; shift_bits; generalize (Z.testbit v); intros f.
  cell_cases r c ltac:(cbn; rewrite ?andb_false_r, ?orb_false_r, ?andb_true_r; reflexivity).
Qed.

Lemma InvShiftRows_slice_bit v r c : (r < 4)%nat -> (c < 4)%nat ->
  Z.testbit (InvShiftRows_slice v) (Z.of_nat (r * 4 + c)) =
  Z.testbit v (Z.of_nat (r * 4 + (c + (4 - r)) mod 4)).
Proof.
  intros Hr Hc; unfold InvShiftRows_slice; shift_bits; generalize (Z.testbit v); intros f.
  cell_cases r c ltac:(cbn; rewrite ?andb_false_r, ?orb_false_r, ?andb_true_r; reflexivity).
Qed.

Lemma SaveByte_bit s r c b : (b < 8)%nat ->
  Z.testbit (SaveByte s r c) (Z.of_nat b) = Z.testbit (s !!! b) (Z.of_nat (r * 4 + c)).
Proof. intros; destruct (SaveByte_spec s r c) as [_ ->]; [by rewrite Nat2Z.id|lia]. Qed.

Lemma SaveByte_word s r c : word 8 (SaveByte s r c).
Proof. apply SaveByte_spec. Qed.

Lemma map_sliced f s : (forall v, word 16 (f v)) -> sliced s -> sliced (map f s).
Proof.
  intros Hf [Hlen _]; split; [by rewrite length_map|].
  apply Forall_fmap, List.Forall_forall; intros; apply Hf.
Qed.

Lemma ShiftRows_sliced s : sliced s -> sliced (ShiftRows s).
Proof. apply map_sliced; intros; apply u16_word. Qed.

Lemma InvShiftRows_sliced s : sliced s -> sliced (InvShiftRows s).
Proof. apply map_sliced; intros; apply u16_word. Qed.

Lemma ShiftRows_correct s : sliced s -> SaveBytes (ShiftRows s) = Fips197.ShiftRows (SaveBytes s).
Proof.
  intros [Hlen _]; apply SaveBytes_eq.
  - intros; apply Fips197.at_rc_word; [apply SaveBytes_ok|done|by apply Nat.mod_upper_bound].
  - intros r c b Hr Hc Hb; rewrite at_SaveBytes by (done || by apply Nat.mod_upper_bound).
    unfold ShiftRows; rewrite (lookup_map _ _), SaveByte_bit by lia.
    by apply ShiftRows_slice_bit.
Qed.

Lemma InvShiftRows_correct s : sliced s -> SaveBytes (InvShiftRows s) = Fips197.InvShiftRows (SaveBytes s).
Proof.
  intros [Hlen _]; apply SaveBytes_eq.
  - intros; apply Fips197.at_rc_word; [apply SaveBytes_ok|done|by apply Nat.mod_upper_bound].
  - intros r c b Hr Hc Hb; rewrite at_SaveBytes by (done || by apply Nat.mod_upper_bound).
    unfold InvShiftRows; rewrite (lookup_map _ _), SaveByte_bit by lia.
    by apply InvShiftRows_slice_bit.
Qed.

(** ** Column mixing *)

Lemma ROT_bit x n r c : word 16 x -> (1 <= n <= 3)%nat -> (r < 4)%nat -> (c < 4)%nat ->
  Z.testbit (ROT x (Z.of_nat n)) (Z.of_nat (r * 4 + c)) =
  Z.testbit x (Z.of_nat ((r + n) mod 4 * 4 + c)).
Proof.
  intros Hx Hn Hr Hc; unfold ROT; rewrite Z.lor_spec, Z.shiftr_spec, Z.shiftl_spec by lia.
  destruct (Nat.lt_ge_cases (r + n) 4) as [Hlt|Hge].
  - rewrite Nat.mod_small, (Z.testbit_neg_r _ (_ - _)), orb_false_r by lia; f_equal; lia.
  - replace (r + n)%nat with (r + n - 4 + 1 * 4)%nat by lia.
    rewrite Nat.Div0.mod_add, Nat.mod_small by lia.
    rewrite (testbit_word 16) by (done || lia); simpl orb; f_equal; lia.
Qed.

Lemma xor_rot_bit x n r c : word 16 x -> (1 <= n <= 3)%nat -> (r < 4)%nat -> (c < 4)%nat ->
  Z.testbit (u16 (x ^^ ROT x (Z.of_nat n))) (Z.of_nat (r * 4 + c)) =
  xorb (Z.testbit x (Z.of_nat (r * 4 + c))) (Z.testbit x (Z.of_nat ((r + n) mod 4 * 4 + c))).
Proof.
  intros; unfold u16; rewrite testbit_wrap, Z.lxor_spec, ROT_bit by (done || lia); done.
Qed.

Ltac word16_tac :=
  repeat apply Forall_cons_2; [..|apply Forall_nil_2];
  repeat match goal with
    | |- word _ (Z.lxor _ _) => apply lxor_word; [lia| |]
    | |- word _ (u16 _) => apply u16_word
    | |- word _ (_ !!! _) => apply words_default; [done|lia]
    end.

Lemma MixColumns_fwd_sliced s : sliced s -> sliced (MixColumns_fwd s).
Proof. intros [_ Hw]; split; [done|]; unfold MixColumns_fwd; word16_tac. Qed.

Lemma MixColumns_inv_step_sliced s : sliced s -> sliced (MixColumns_inv_step s).
Proof. intros [_ Hw]; split; [done|]; unfold MixColumns_inv_step; word16_tac. Qed.

Lemma MixColumns_sliced s inv : sliced s -> sliced (MixColumns s inv).
Proof.
  intros Hs; unfold MixColumns; destruct inv;
    auto using MixColumns_fwd_sliced, MixColumns_inv_step_sliced.
Qed.

Lemma xtime_SaveByte s r c b : (b < 8)%nat ->
  Z.testbit (Fips197.xtime (SaveByte s r c)) (Z.of_nat b) =
  xorb (if (b =? 0)%nat then false else Z.testbit (s !!! (b - 1)%nat) (Z.of_nat (r * 4 + c)))
       (Z.testbit (s !!! 7%nat) (Z.of_nat (r * 4 + c)) && Z.testbit 0x1b (Z.of_nat b)).
Proof.
  intros Hb; rewrite Fips197.xtime_bits by (apply SaveByte_word || lia); unfold Fips197.xtime_bit.
  f_equal; [|by rewrite <- (SaveByte_bit s r c 7) by lia].
  destruct b as [|b]; [done|]; rewrite <- SaveByte_bit by lia.
  destruct (Z.eqb_spec (Z.of_nat (S b)) 0); [lia|]; simpl; f_equal; lia.
Qed.

Lemma MixColumns_fwd_bit s r c b : sliced s -> (r < 4)%nat -> (c < 4)%nat -> (b < 8)%nat ->
  Z.testbit (MixColumns_fwd s !!! b) (Z.of_nat (r * 4 + c)) =
  Z.testbit (Z.lxor (Z.lxor (Fips197.xtime (SaveByte s r c))
                            (Z.lxor (Fips197.xtime (SaveByte s ((r + 1) mod 4) c)) (SaveByte s ((r + 1) mod 4) c)))
                    (Z.lxor (SaveByte s ((r + 2) mod 4) c) (SaveByte s ((r + 3) mod 4) c))) (Z.of_nat b).
Proof.
  intros [Hlen Hw] Hr Hc Hb; rewrite !Z.lxor_spec, !xtime_SaveByte, !SaveByte_bit by lia.
  unfold MixColumns_fwd; cbv zeta.
  assert (Hx : forall i, word 16 (s !!! i)) by (intros; by apply words_default).
  assert (H01 : forall i, Z.testbit (u16 ((s !!! i) ^^ ROT (s !!! i) 1)) (Z.of_nat (r * 4 + c)) =
    xorb (Z.testbit (s !!! i) (Z.of_nat (r * 4 + c))) (Z.testbit (s !!! i) (Z.of_nat ((r + 1) mod 4 * 4 + c)))).
  { intros i; by apply (xor_rot_bit _ 1); try lia. }
  assert (H123 : forall i, Z.testbit (u16 (ROT (u16 ((s !!! i) ^^ ROT (s !!! i) 1)) 1 ^^ ROT (s !!! i) 3)) (Z.of_nat (r * 4 + c)) =
    xorb (xorb (Z.testbit (s !!! i) (Z.of_nat ((r + 1) mod 4 * 4 + c))) (Z.testbit (s !!! i) (Z.of_nat ((r + 2) mod 4 * 4 + c))))
         (Z.testbit (s !!! i) (Z.of_nat ((r + 3) mod 4 * 4 + c)))).
  { intros i; unfold u16 at 1; rewrite testbit_wrap, Z.lxor_spec by lia.
    rewrite (ROT_bit _ 1), (ROT_bit _ 3) by (auto using u16_word; lia).
    rewrite (xor_rot_bit _ 1) by (auto; try lia; by apply Nat.mod_upper_bound).
    rewrite Nat.Div0.add_mod_idemp_l; by replace (r + 1 + 1)%nat with (r + 2)%nat by lia. }
  do 8 (destruct b as [|b]; [simpl lookup_total; rewrite ?Z.lxor_spec, ?H01, ?H123; simpl; ring|]); lia.
Qed.

Lemma MixColumns_fwd_correct s : sliced s -> SaveBytes (MixColumns_fwd s) = Fips197.MixColumns (SaveBytes s).
Proof.
  intros Hs; apply SaveBytes_eq.
  - intros r c Hr Hc; pose proof (SaveBytes_ok s); Fips197.byte_tac; by apply Nat.mod_upper_bound.
  - intros r c b Hr Hc Hb; rewrite !at_SaveBytes by (done || by apply Nat.mod_upper_bound).
    by apply MixColumns_fwd_bit.
Qed.

Lemma MixColumns_inv_step_bit s r c b : sliced s -> (r < 4)%nat -> (c < 4)%nat -> (b < 8)%nat ->
  Z.testbit (MixColumns_inv_step s !!! b) (Z.of_nat (r * 4 + c)) =
  Z.testbit (Z.lxor (Z.lxor (Fips197.gmul 5 (SaveByte s r c)) 0)
                    (Z.lxor (Fips197.gmul 4 (SaveByte s ((r + 2) mod 4) c)) 0)) (Z.of_nat b).
Proof.
  intros [Hlen Hw] Hr Hc Hb; unfold Fips197.gmul, Fips197.gmul_pos.
  assert (Hx : forall i, word 16 (s !!! i)) by (intros; by apply words_default).
  assert (Hxt : forall r c i, (i < 8)%nat -> Z.testbit (Fips197.xtime (Fips197.xtime (SaveByte s r c))) (Z.of_nat i) =
    xorb (if (i =? 0)%nat then false else Z.testbit (Fips197.xtime (SaveByte s r c)) (Z.of_nat (i - 1)))
      (Z.testbit (Fips197.xtime (SaveByte s r c)) (Z.of_nat 7) && Z.testbit 0x1b (Z.of_nat i))).
  { intros r' c' i Hi; rewrite Fips197.xtime_bits; [|apply Fips197.xtime_word, SaveByte_word|lia].
    unfold Fips197.xtime_bit; f_equal; destruct i as [|i]; [done|].
    destruct (Z.eqb_spec (Z.of_nat (S i)) 0); [lia|]; simpl; f_equal; lia. }
  rewrite !Z.lxor_spec, !Hxt by lia.
  assert (H02 : forall i, Z.testbit (u16 ((s !!! i) ^^ ROT (s !!! i) 2)) (Z.of_nat (r * 4 + c)) =
    xorb (Z.testbit (s !!! i) (Z.of_nat (r * 4 + c))) (Z.testbit (s !!! i) (Z.of_nat ((r + 2) mod 4 * 4 + c)))).
  { intros i; by apply (xor_rot_bit _ 2); try lia. }
  unfold MixColumns_inv_step; cbv zeta.
  do 8 (destruct b as [|b]; [simpl lookup_total; rewrite ?Z.lxor_spec, ?H02; cbn [Nat.eqb Nat.sub];
    rewrite ?xtime_SaveByte, ?SaveByte_bit by lia; simpl; ring|]); lia.
Qed.

Lemma MixColumns_inv_step_correct s : sliced s ->
  SaveBytes (MixColumns_inv_step s) = Fips197.mix 5 0 4 0 (SaveBytes s).
Proof.
  intros Hs; apply SaveBytes_eq.
  - intros r c Hr Hc; pose proof (SaveBytes_ok s); Fips197.byte_tac; by apply Nat.mod_upper_bound.
  - intros r c b Hr Hc Hb; rewrite !at_SaveBytes by (done || by apply Nat.mod_upper_bound).
    by apply MixColumns_inv_step_bit.
Qed.

Lemma MixColumns_correct s (inv : bool) : sliced s ->
  SaveBytes (MixColumns s inv) =
  if inv then Fips197.InvMixColumns (SaveBytes s) else Fips197.MixColumns (SaveBytes s).
Proof.
  intros Hs; unfold MixColumns; destruct inv; [|by apply MixColumns_fwd_correct].
  rewrite MixColumns_inv_step_correct by by apply MixColumns_fwd_sliced.
  rewrite MixColumns_fwd_correct by done; apply Fips197.InvMixColumns_factor, SaveBytes_ok.
Qed.

(** ** Round keys *)

Lemma zip_sliced f s k : (forall x y, word 16 x -> word 16 y -> word 16 (f x y)) ->
  sliced s -> sliced k -> sliced (zip_with f s k).
Proof.
  intros Hf [Hs1 Hs2] [Hk1 Hk2]; split; [rewrite length_zip_with; lia|].
  clear Hs1 Hk1; revert k Hk2.
  induction Hs2 as [|x s Hx Hs IH]; intros [|y k] Hk; simpl; [constructor..|].
  inv Hk; constructor; [by apply Hf|by apply IH].
Qed.

Lemma AddRoundKey_sliced s k : sliced s -> sliced k -> sliced (AddRoundKey s k).
Proof. apply zip_sliced; auto with word_db. Qed.

Lemma AddRoundKey_correct s k : sliced s -> sliced k ->
  SaveBytes (AddRoundKey s k) = Fips197.AddRoundKey (SaveBytes s) (SaveBytes k).
Proof.
  intros [Hs _] [Hk _].
  transitivity (Fips197.tabulate (fun r c => Z.lxor (SaveByte s r c) (SaveByte k r c))); [|done].
  apply SaveBytes_eq.
  - intros; apply lxor_word; auto using SaveByte_word; lia.
  - intros r c b Hr Hc Hb; rewrite Z.lxor_spec, !SaveByte_bit by done.
    unfold AddRoundKey; rewrite (lookup_zip _ _ _) by lia; apply Z.lxor_spec.
Qed.
