(* ===== verification/CtaesTheorems.v ===== *)
(** The key schedule of Ctaes.v is the key expansion of FIPS 197, and its cipher
    and inverse cipher are those of the standard.

    The properties of the AES component: the public functions of ctaes.c
    compute the cipher of FIPS 197, and decryption undoes encryption. *)

From S2P Require Import Prelude Ctaes Fips197 CtaesProofs.

(** Byte [r] of word [j] of the round keys. *)
Definition key_cell (rounds : list (list Z)) (j r : nat) : Z :=
  SaveByte (rounds !!! (j / 4)%nat) r (j mod 4).

(** What the main loop of [AES_setup] maintains: before word [i] is generated,
    the words below [i] are those of the expansion [w], the others are still
    zero, [column] holds word [i - 1], [rcon] the next round constant. *)
Record setup_inv (Nk Nr i : nat) (st : setup_state) (w : list (list Z)) : Prop := {
  inv_len : length st.(rounds) = (Nr + 1)%nat;
  inv_sliced : Forall sliced st.(rounds);
  inv_w : length w = i /\ Forall (fun x => length x = 4%nat /\ words 8 x) w;
  inv_done : forall j r, (j < i)%nat -> (r < 4)%nat -> key_cell st.(rounds) j r = (w !!! j) !!! r;
  inv_todo : forall j r, (i <= j < 4 * (Nr + 1))%nat -> (r < 4)%nat -> key_cell st.(rounds) j r = 0;
  inv_column : sliced st.(column) /\
    forall r, (r < 4)%nat -> SaveByte st.(column) r 0 = (w !!! (i - 1)%nat) !!! r;
  inv_rcon : sliced st.(rcon) /\
    forall r, (r < 4)%nat -> SaveByte st.(rcon) r 0 = Fips197.Rcon ((i + Nk - 1) / Nk) !!! r;
  inv_pos : st.(pos) = (i mod Nk)%nat
}.

(** The state of the loading loops before byte [r0] of word [i]. *)
Definition load_inv (key : list Z) (Nr i r0 : nat) (rounds : list (list Z)) : Prop :=
  length rounds = (Nr + 1)%nat /\ Forall sliced rounds /\
  forall j r, (j < 4 * (Nr + 1))%nat -> (r < 4)%nat ->
    key_cell rounds j r =
    if (j <? i)%nat || ((j =? i)%nat && (r <? r0)%nat) then key !!! (j * 4 + r)%nat else 0.

(** The column before it is mixed with word [i - Nk]. *)
Definition transformed (Nk i : nat) (w : list (list Z)) : list Z :=
  let temp := w !!! (i - 1)%nat in
  if (i mod Nk =? 0)%nat then zip_with Z.lxor (Fips197.SubWord (Fips197.RotWord temp)) (Fips197.Rcon (i / Nk))
  else if (6 <? Nk)%nat && (i mod Nk =? 4)%nat then Fips197.SubWord temp
  else temp.

(** ** The cipher on given round keys *)

Lemma AES_encrypt_Cipher rounds nrounds plain :
  (1 <= nrounds)%nat -> (forall i, (i <= nrounds)%nat -> sliced (rounds !!! i)) ->
  Fips197.state_ok plain ->
  AES_encrypt rounds nrounds plain = Fips197.Cipher (fun i => SaveBytes (rounds !!! i)) nrounds plain.
Proof.
  intros HN Hk Hp; unfold AES_encrypt, Fips197.Cipher.
  set (s0 := AddRoundKey (LoadBytes _ plain) _); set (t0 := Fips197.AddRoundKey plain _).
  assert (H0 : sliced s0 /\ SaveBytes s0 = t0).
  { pose proof (LoadBytes_sliced _ plain sliced_zero); split; [apply AddRoundKey_sliced; auto with lia|].
    unfold s0, t0; rewrite AddRoundKey_correct, SaveBytes_LoadBytes; auto with lia. }
  match goal with |- SaveBytes (AddRoundKey (ShiftRows (SubBytes (for_range _ _ ?f _) _)) _) =
    Fips197.AddRoundKey (Fips197.ShiftRows (Fips197.SubBytes (for_range _ _ ?g _))) _ =>
    destruct (for_range_sim (fun _ s t => sliced s /\ SaveBytes s = t) 1 nrounds f g s0 t0) as [Hs Ht]
  end; [done|done| |].
  - intros i s t Hi [Hs <-]; specialize (Hk i ltac:(lia)).
    pose proof (SubBytes_sliced s false Hs); pose proof (ShiftRows_sliced _ H).
    pose proof (MixColumns_sliced _ false H1).
    split; [by apply AddRoundKey_sliced|].
    by rewrite AddRoundKey_correct, MixColumns_correct, ShiftRows_correct, SubBytes_correct.
  - specialize (Hk nrounds ltac:(lia)); pose proof (SubBytes_sliced _ false Hs) as Hs1.
    pose proof (ShiftRows_sliced _ Hs1).
    rewrite AddRoundKey_correct, ShiftRows_correct, SubBytes_correct, Ht by done; done.
Qed.

Lemma AES_decrypt_InvCipher rounds nrounds cipher :
  (1 <= nrounds)%nat -> (forall i, (i <= nrounds)%nat -> sliced (rounds !!! i)) ->
  Fips197.state_ok cipher ->
  AES_decrypt rounds nrounds cipher = Fips197.InvCipher (fun i => SaveBytes (rounds !!! i)) nrounds cipher.
Proof.
  intros HN Hk Hp; unfold AES_decrypt, Fips197.InvCipher.
  set (s0 := AddRoundKey (LoadBytes _ cipher) _); set (t0 := Fips197.AddRoundKey cipher _).
  assert (H0 : sliced s0 /\ SaveBytes s0 = t0).
  { pose proof (LoadBytes_sliced _ cipher sliced_zero); split; [apply AddRoundKey_sliced; auto with lia|].
    unfold s0, t0; rewrite AddRoundKey_correct, SaveBytes_LoadBytes; auto with lia. }
  match goal with |- SaveBytes (AddRoundKey (SubBytes (InvShiftRows (for_range _ _ ?f _)) _) _) =
    Fips197.AddRoundKey (Fips197.InvSubBytes (Fips197.InvShiftRows (for_range _ _ ?g _))) _ =>
    destruct (for_range_sim (fun _ s t => sliced s /\ SaveBytes s = t) 1 nrounds f g s0 t0) as [Hs Ht]
  end; [done|done| |].
  - intros i s t Hi [Hs <-]; specialize (Hk (nrounds - i)%nat ltac:(lia)).
    pose proof (InvShiftRows_sliced _ Hs) as H1; pose proof (SubBytes_sliced _ true H1) as H2.
    pose proof (AddRoundKey_sliced _ _ H2 Hk); split; [by apply MixColumns_sliced|].
    by rewrite MixColumns_correct, AddRoundKey_correct, SubBytes_correct, InvShiftRows_correct.
  - specialize (Hk 0%nat ltac:(lia)); pose proof (InvShiftRows_sliced _ Hs) as H1.
    pose proof (SubBytes_sliced _ true H1).
    rewrite AddRoundKey_correct, SubBytes_correct, InvShiftRows_correct, Ht by done; done.
Qed.

(** ** Cells of the states the key schedule works on *)

(** To compare a cell with a byte it is enough to compare their bits. *)
Lemma SaveByte_eq s r c y : word 8 y ->
  (forall b, (b < 8)%nat -> Z.testbit (s !!! b) (Z.of_nat (r * 4 + c)) = Z.testbit y (Z.of_nat b)) ->
  SaveByte s r c = y.
Proof.
  intros Hy Hb; apply (word_eq_bits 8); [apply SaveByte_word|done|lia|].
  intros i Hi; rewrite <- (Z2Nat.id i) by lia; rewrite SaveByte_bit, Hb by lia; done.
Qed.

Lemma SaveByte_zero r c : SaveByte (replicate 8 0) r c = 0.
Proof.
  apply SaveByte_eq; [by unfold word|]; intros b Hb.
  by rewrite lookup_total_replicate_2, !Z.testbit_0_l by done.
Qed.

Lemma SaveByte_LoadByte s byte r c r' c' :
  sliced s -> word 8 byte -> (r < 4)%nat -> (c < 4)%nat -> (r' < 4)%nat -> (c' < 4)%nat ->
  SaveByte (LoadByte s byte r c) r' c' =
  if (r' =? r)%nat && (c' =? c)%nat then Z.lor (SaveByte s r c) byte else SaveByte s r' c'.
Proof.
  intros Hs Hb Hr Hc Hr' Hc'.
  assert (Hbit : forall b, (b < 8)%nat -> Z.testbit (LoadByte s byte r c !!! b) (Z.of_nat (r' * 4 + c')) =
    Z.testbit (SaveByte s r' c') (Z.of_nat b) ||
    ((r' =? r)%nat && (c' =? c)%nat && Z.testbit byte (Z.of_nat b))).
  { intros b Hb'; rewrite LoadByte_bit, SaveByte_bit by (done || lia); do 2 f_equal.
    destruct (Nat.eqb_spec r' r), (Nat.eqb_spec c' c), (Z.eqb_spec (Z.of_nat (r' * 4 + c')) (Z.of_nat (r * 4 + c))); lia. }
  destruct (Nat.eqb_spec r' r) as [->|], (Nat.eqb_spec c' c) as [->|]; simpl in *;
    apply SaveByte_eq; auto using SaveByte_word, lor_word with word_db.
  all: intros b Hb'; rewrite Hbit by done; rewrite ?Z.lor_spec, ?orb_false_r; done.
Qed.

Lemma SubBytes_cell s r c : sliced s -> (r < 4)%nat -> (c < 4)%nat ->
  SaveByte (SubBytes s false) r c = Fips197.sbox (SaveByte s r c).
Proof.
  intros Hs Hr Hc; rewrite <- !at_SaveBytes, SubBytes_correct by done.
  unfold Fips197.at_rc, Fips197.SubBytes; apply (lookup_map _ _).
  destruct (SaveBytes_ok s) as [-> _]; lia.
Qed.

Lemma mask_1111 i : 0 <= i < 16 -> Z.testbit 0x1111 i = (i mod 4 =? 0).
Proof.
  intros Hi; assert (i = 0 \/ i = 1 \/ i = 2 \/ i = 3 \/ i = 4 \/ i = 5 \/ i = 6 \/ i = 7 \/
    i = 8 \/ i = 9 \/ i = 10 \/ i = 11 \/ i = 12 \/ i = 13 \/ i = 14 \/ i = 15) by lia.
  destruct_or!; subst; reflexivity.
Qed.

Lemma column_bit x c r : (r < 4)%nat -> (c < 4)%nat ->
  Z.testbit (Z.land (Z.shiftr x (Z.of_nat c)) 0x1111) (Z.of_nat (r * 4 + 0)) = Z.testbit x (Z.of_nat (r * 4 + c)).
Proof.
  intros Hr Hc; rewrite Z.land_spec, Z.shiftr_spec, mask_1111 by lia.
  replace (Z.of_nat (r * 4 + 0)) with (Z.of_nat r * 4) by lia; rewrite Z.mod_mul by lia.
  rewrite andb_true_r; f_equal; lia.
Qed.

Lemma column_put_bit x c1 r c : (r < 4)%nat -> (c1 < 4)%nat -> (c < 4)%nat ->
  Z.testbit (Z.shiftl (Z.land x 0x1111) (Z.of_nat c1)) (Z.of_nat (r * 4 + c)) =
  (c =? c1)%nat && Z.testbit x (Z.of_nat (r * 4 + 0)).
Proof.
  intros Hr Hc1 Hc; rewrite Z.shiftl_spec, Z.land_spec by lia.
  destruct (Nat.eqb_spec c c1) as [->|Hne].
  - rewrite mask_1111 by lia; replace (Z.of_nat (r * 4 + c1) - Z.of_nat c1) with (Z.of_nat r * 4) by lia.
    rewrite Z.mod_mul, andb_true_r by lia; simpl; f_equal; lia.
  - simpl; destruct (Z.lt_ge_cases (Z.of_nat (r * 4 + c) - Z.of_nat c1) 0).
    { by rewrite Z.testbit_neg_r by done. }
    rewrite mask_1111 by lia; destruct (Z.eqb_spec ((Z.of_nat (r * 4 + c) - Z.of_nat c1) mod 4) 0) as [Hm|];
      [|by rewrite andb_false_r].
    exfalso; apply Z.mod_divide in Hm as [k Hk]; lia.
Qed.

Lemma GetOneColumn_cell a c r : sliced a -> (r < 4)%nat -> (c < 4)%nat ->
  SaveByte (GetOneColumn a c) r 0 = SaveByte a r c.
Proof.
  intros [Hlen _] Hr Hc; apply SaveByte_eq; [apply SaveByte_word|]; intros b Hb.
  unfold GetOneColumn; rewrite (lookup_map _ _), SaveByte_bit by lia; by apply column_bit.
Qed.

Lemma GetOneColumn_sliced a c : sliced a -> sliced (GetOneColumn a c).
Proof. apply map_sliced; intros; apply land_word_r; [lia|]; by unfold word. Qed.

Lemma KeySetupTransform_sliced s k : sliced s -> sliced k -> sliced (KeySetupTransform s k).
Proof. apply zip_sliced; intros; apply u16_word. Qed.

Lemma KeySetupTransform_cell s k r : sliced s -> sliced k -> (r < 4)%nat ->
  SaveByte (KeySetupTransform s k) r 0 = Z.lxor (SaveByte s ((r + 1) mod 4) 0) (SaveByte k r 0).
Proof.
  intros [Hs Hw] [Hk _] Hr; apply SaveByte_eq; [apply lxor_word; auto using SaveByte_word; lia|]; intros b Hb.
  unfold KeySetupTransform; rewrite (lookup_zip _ _ _), Z.lxor_spec, !SaveByte_bit by lia.
  unfold u16; rewrite testbit_wrap, Z.lxor_spec by lia; f_equal.
  apply (ROT_bit _ 1); try lia; by apply words_default.
Qed.

Lemma MultX_sliced s : sliced s -> sliced (MultX s).
Proof. intros [Hs Hw]; split; [done|]; unfold MultX; word16_tac. Qed.

Lemma MultX_cell s r c : sliced s -> SaveByte (MultX s) r c = Fips197.xtime (SaveByte s r c).
Proof.
  intros _; apply SaveByte_eq; [apply Fips197.xtime_word, SaveByte_word|]; intros b Hb.
  rewrite xtime_SaveByte by done; unfold MultX.
  do 8 (destruct b as [|b]; [simpl lookup_total; rewrite ?Z.lxor_spec; simpl; ring|]); lia.
Qed.

Lemma KeySetupColumnMix_sliced s r a c1 c2 : sliced s -> sliced r -> sliced a ->
  sliced (KeySetupColumnMix s r a c1 c2).1 /\ sliced (KeySetupColumnMix s r a c1 c2).2.
Proof.
  intros Hs Hr Ha; unfold KeySetupColumnMix; simpl.
  assert (Hs' : sliced (zip_with (fun sb ab => sb ^^ Z.land (Z.shiftr ab (Z.of_nat c2)) 0x1111) s a)).
  { apply zip_sliced; [|done|done]; intros; apply lxor_word; [lia|done|].
    apply land_word_r; [lia|]; by unfold word. }
  split; [done|]; apply zip_sliced; [|done|done]; intros; apply u16_word.
Qed.

Lemma KeySetupColumnMix_column s r a c1 c2 row : sliced s -> sliced a -> (row < 4)%nat -> (c2 < 4)%nat ->
  SaveByte (KeySetupColumnMix s r a c1 c2).1 row 0 = Z.lxor (SaveByte s row 0) (SaveByte a row c2).
Proof.
  intros [Hs _] [Ha _] Hr Hc; apply SaveByte_eq; [apply lxor_word; auto using SaveByte_word; lia|]; intros b Hb.
  unfold KeySetupColumnMix; simpl fst; rewrite (lookup_zip _ _ _), !Z.lxor_spec, !SaveByte_bit by lia.
  f_equal; by apply column_bit.
Qed.

Lemma KeySetupColumnMix_cell s r a c1 c2 row c : sliced s -> sliced r -> sliced a ->
  (row < 4)%nat -> (c < 4)%nat -> (c1 < 4)%nat ->
  SaveByte (KeySetupColumnMix s r a c1 c2).2 row c =
  if (c =? c1)%nat then Z.lor (SaveByte r row c) (SaveByte (KeySetupColumnMix s r a c1 c2).1 row 0)
  else SaveByte r row c.
Proof.
  intros Hs Hr Ha Hrow Hc Hc1; destruct (KeySetupColumnMix_sliced s r a c1 c2) as [[Hs' _] _]; auto.
  unfold KeySetupColumnMix in *; simpl in *.
  set (s' := zip_with _ s a) in *; destruct Hr as [Hr _].
  apply SaveByte_eq.
  { destruct (c =? c1)%nat; [apply lor_word; [lia|..]|]; apply SaveByte_word. }
  intros b Hb; rewrite (lookup_zip _ _ _) by lia; unfold u16; rewrite testbit_wrap, Z.lor_spec, column_put_bit by lia.
  destruct (c =? c1)%nat; [rewrite Z.lor_spec|]; rewrite !SaveByte_bit by done; [done|apply orb_false_r].
Qed.

(** ** Loading the key *)

#[local] Opaque SaveByte LoadByte.

Lemma key_cell_alter rounds k f j r : (k < length rounds)%nat ->
  key_cell (alter f k rounds) j r =
  if (j / 4 =? k)%nat then SaveByte (f (rounds !!! k)) r (j mod 4) else key_cell rounds j r.
Proof.
  intros Hk; unfold key_cell; destruct (Nat.eqb_spec (j / 4) k) as [->|Hne].
  - by rewrite list_lookup_total_alter_eq.
  - by rewrite list_lookup_total_alter_ne by congruence.
Qed.

Lemma word_index i j : (i / 4 = j / 4)%nat -> (i mod 4 = j mod 4)%nat -> i = j.
Proof. intros H1 H2; rewrite (Nat.div_mod_eq i 4), (Nat.div_mod_eq j 4); lia. Qed.

Lemma load_step key Nr i r0 rounds :
  words 8 key -> (i < 4 * (Nr + 1))%nat -> (r0 < 4)%nat -> load_inv key Nr i r0 rounds ->
  load_inv key Nr i (r0 + 1)
    (alter (fun s => LoadByte s (key !!! (i * 4 + r0)%nat) r0 (i mod 4)) (i / 4)%nat rounds).
Proof.
  intros Hkey Hi Hr0 (Hlen & Hsl & Hcell).
  assert (Hdiv : (i / 4 < Nr + 1)%nat) by (apply Nat.Div0.div_lt_upper_bound; lia).
  assert (Hm : forall n, (n mod 4 < 4)%nat) by (intros; by apply Nat.mod_upper_bound).
  assert (Hs : sliced (rounds !!! (i / 4)%nat)) by (apply (Forall_lookup_total_1 _ _ _ Hsl); lia).
  split_and!; [by rewrite length_alter| |].
  - apply Forall_alter; [done|]; intros; by apply LoadByte_sliced.
  - intros j r Hj Hr; rewrite key_cell_alter by lia.
    specialize (Hcell j r Hj Hr); unfold key_cell in Hcell.
    destruct (Nat.eqb_spec (j / 4) (i / 4)) as [E|E].
    + rewrite E in Hcell; rewrite SaveByte_LoadByte by (auto; by apply words_default).
      destruct (Nat.eqb_spec (j mod 4) (i mod 4)) as [E'|E'].
      * apply (word_index _ _ E) in E' as ->; rewrite Nat.ltb_irrefl, Nat.eqb_refl in *; simpl in *.
        rewrite andb_true_r; destruct (Nat.eqb_spec r r0) as [->|Hne].
        -- rewrite Hcell, Nat.ltb_irrefl, Z.lor_0_l by done.
           by destruct (Nat.ltb_spec r0 (r0 + 1)); [|lia].
        -- rewrite Hcell; by destruct (Nat.ltb_spec r r0), (Nat.ltb_spec r (r0 + 1)); try lia.
      * rewrite andb_false_r, Hcell.
        destruct (Nat.eqb_spec j i) as [->|]; [done|]; done.
    + unfold key_cell; rewrite Hcell; destruct (Nat.eqb_spec j i) as [->|]; [done|]; done.
Qed.

Lemma AES_setup_load_cells key Nk Nr :
  words 8 key -> (Nk <= 4 * (Nr + 1))%nat -> load_inv key Nr Nk 0 (AES_setup_load key Nk Nr).
Proof.
  intros Hkey HN; unfold AES_setup_load.
  apply (for_range_ind (fun i => load_inv key Nr i 0)); [lia| |].
  - split_and!; [by rewrite length_replicate|apply Forall_replicate, sliced_zero|].
    intros j r Hj Hr; unfold key_cell.
    rewrite lookup_total_replicate_2 by (apply Nat.Div0.div_lt_upper_bound; lia).
    rewrite SaveByte_zero; destruct (Nat.ltb_spec j 0); [lia|].
    by destruct (Nat.ltb_spec r 0); [lia|]; rewrite andb_false_r.
  - intros i rounds Hi Hinv.
    assert (H4 : load_inv key Nr i 4 (for_range 0 4 (fun r rounds =>
      alter (fun s => LoadByte s (key !!! (i * 4 + r)%nat) r (i mod 4)) (i / 4)%nat rounds) rounds)).
    { apply (for_range_ind (fun r => load_inv key Nr i r)); [lia|done|]; intros; apply load_step; auto; lia. }
    destruct H4 as (Hlen & Hsl & Hcell); split_and!; [done|done|]; intros j r Hj Hr; rewrite Hcell by done.
    destruct (Nat.ltb_spec r 4), (Nat.ltb_spec r 0); try lia; rewrite andb_true_r, andb_false_r, orb_false_r.
    by destruct (Nat.ltb_spec j i), (Nat.eqb_spec j i), (Nat.ltb_spec j (i + 1)); try lia.
Qed.

(** ** The main loop *)

#[local] Opaque SubBytes KeySetupTransform KeySetupColumnMix MultX Fips197.sbox Fips197.xtime.

Lemma RotWord_lookup w r : length w = 4%nat -> (r < 4)%nat ->
  Fips197.RotWord w !!! r = w !!! ((r + 1) mod 4)%nat /\ length (Fips197.RotWord w) = 4%nat.
Proof.
  intros Hw Hr; do 4 (destruct w as [|? w]; [discriminate|]); destruct w; [|discriminate].
  split; [|done]; do 4 (destruct r as [|r]; [done|]); lia.
Qed.

Lemma Rcon_step Nk i : (1 <= Nk)%nat -> (1 <= i)%nat ->
  (i mod Nk = 0)%nat ->
  ((i + Nk - 1) / Nk = i / Nk)%nat /\ ((i + 1 + Nk - 1) / Nk = i / Nk + 1)%nat /\ (1 <= i / Nk)%nat.
Proof.
  intros HN Hi Hm; pose proof (Nat.div_mod_eq i Nk) as E; rewrite Hm in E.
  split_and!.
  - symmetry; apply (Nat.div_unique _ _ _ (Nk - 1)); lia.
  - symmetry; apply (Nat.div_unique _ _ _ 0); lia.
  - destruct (i / Nk)%nat; lia.
Qed.

Lemma Rcon_keep Nk i : (1 <= Nk)%nat -> (i mod Nk <> 0)%nat ->
  ((i + 1 + Nk - 1) / Nk = (i + Nk - 1) / Nk)%nat.
Proof.
  intros HN Hm; pose proof (Nat.div_mod_eq i Nk) as E; pose proof (Nat.mod_upper_bound i Nk ltac:(lia)).
  transitivity (i / Nk + 1)%nat; [symmetry; apply (Nat.div_unique _ _ _ (i mod Nk)); lia|].
  apply (Nat.div_unique _ _ _ (i mod Nk - 1)); lia.
Qed.

Lemma pos_step Nk i : (2 <= Nk)%nat ->
  (if (i mod Nk + 1 =? Nk)%nat then 0%nat else (i mod Nk + 1)%nat) = ((i + 1) mod Nk)%nat.
Proof.
  intros HN; pose proof (Nat.div_mod_eq i Nk) as E; pose proof (Nat.mod_upper_bound i Nk ltac:(lia)).
  destruct (Nat.eqb_spec (i mod Nk + 1) Nk).
  - apply (Nat.mod_unique _ _ (i / Nk + 1)); lia.
  - apply (Nat.mod_unique _ _ (i / Nk)); lia.
Qed.

Lemma Rcon_next k r : (1 <= k)%nat -> (r < 4)%nat ->
  Fips197.xtime (Fips197.Rcon k !!! r) = Fips197.Rcon (k + 1) !!! r.
Proof.
  intros Hk Hr; unfold Fips197.Rcon.
  replace (k + 1 - 1)%nat with (S (k - 1)) by lia.
  do 4 (destruct r as [|r]; [reflexivity|]); lia.
Qed.

(** What one iteration does to [column] and [rcon] before the mixing. *)
Lemma setup_transform Nk Nr i st w :
  (4 <= Nk)%nat -> (Nk <= i)%nat -> setup_inv Nk Nr i st w ->
  let '(column, rcon) :=
    if (st.(pos) =? 0)%nat then
      (KeySetupTransform (SubBytes st.(column) false) st.(rcon), MultX st.(rcon))
    else if (6 <? Nk)%nat && (st.(pos) =? 4)%nat then
      (SubBytes st.(column) false, st.(rcon))
    else (st.(column), st.(rcon)) in
  sliced column /\ sliced rcon /\ length (transformed Nk i w) = 4%nat /\
  (forall r, (r < 4)%nat -> SaveByte column r 0 = transformed Nk i w !!! r) /\
  (forall r, (r < 4)%nat -> SaveByte rcon r 0 = Fips197.Rcon ((i + 1 + Nk - 1) / Nk) !!! r).
Proof.
  intros HN Hi [_ _ [Hlw Hw] _ _ [Hcs Hc] [Hrs Hr] ->]; unfold transformed.
  destruct (Forall_lookup_total_1 _ _ (i - 1)%nat Hw ltac:(lia)) as [Hlen _].
  destruct (Nat.eqb_spec (i mod Nk) 0) as [Hm|Hm].
  - destruct (Rcon_step Nk i) as (E1 & E2 & E3); [lia|lia|done|].
    destruct (RotWord_lookup (w !!! (i - 1)%nat) 0 Hlen ltac:(lia)) as [_ Hrl].
    split_and!; auto using KeySetupTransform_sliced, SubBytes_sliced, MultX_sliced.
    + rewrite length_zip_with; unfold Fips197.SubWord; rewrite length_map, Hrl; done.
    + intros r Hr4; rewrite KeySetupTransform_cell, SubBytes_cell, Hr, Hc, E1
        by (auto using SubBytes_sliced; by apply Nat.mod_upper_bound).
      unfold Fips197.SubWord; rewrite (lookup_zip _ _ _) by (rewrite ?length_map, ?Hrl; done).
      rewrite (lookup_map _ _) by (rewrite Hrl; done).
      by destruct (RotWord_lookup (w !!! (i - 1)%nat) r) as [-> _].
    + intros r Hr4; rewrite MultX_cell, Hr, E1, E2 by done; by apply Rcon_next.
  - rewrite Rcon_keep by lia; destruct ((6 <? Nk)%nat && (i mod Nk =? 4)%nat).
    + split_and!; auto using SubBytes_sliced.
      * unfold Fips197.SubWord; by rewrite length_map.
      * intros r Hr4; rewrite SubBytes_cell, Hc by (done || lia).
        unfold Fips197.SubWord; by rewrite (lookup_map _ _) by lia.
    + split_and!; auto.
Qed.

Lemma key_cell_insert rounds k s j r : (k < length rounds)%nat ->
  key_cell (<[k := s]> rounds) j r =
  if (j / 4 =? k)%nat then SaveByte s r (j mod 4) else key_cell rounds j r.
Proof.
  intros Hk; unfold key_cell; destruct (Nat.eqb_spec (j / 4) k) as [->|Hne].
  - by rewrite list_lookup_total_insert_eq.
  - by rewrite list_lookup_total_insert_ne by congruence.
Qed.

(** The cells of the round keys after the new column has been stored. *)
Lemma setup_cells Nr i rounds column a c2 j r :
  length rounds = (Nr + 1)%nat -> Forall sliced rounds -> sliced column -> sliced a ->
  (i < 4 * (Nr + 1))%nat -> (r < 4)%nat -> key_cell rounds i r = 0 ->
  let m := KeySetupColumnMix column (rounds !!! (i / 4)%nat) a (i mod 4) c2 in
  key_cell (<[(i / 4)%nat := m.2]> rounds) j r =
  if (j =? i)%nat then SaveByte m.1 r 0 else key_cell rounds j r.
Proof.
  intros Hlen Hsl Hcol Ha Hi Hr H0 m.
  assert (Hdiv : (i / 4 < Nr + 1)%nat) by (apply Nat.Div0.div_lt_upper_bound; lia).
  assert (Hm : forall n, (n mod 4 < 4)%nat) by (intros; by apply Nat.mod_upper_bound).
  assert (Hs : sliced (rounds !!! (i / 4)%nat)) by (apply (Forall_lookup_total_1 _ _ _ Hsl); lia).
  rewrite key_cell_insert by lia; unfold m.
  destruct (Nat.eqb_spec j i) as [->|Hne].
  - rewrite Nat.eqb_refl, KeySetupColumnMix_cell, Nat.eqb_refl by done.
    unfold key_cell in H0; by rewrite H0, Z.lor_0_l.
  - destruct (Nat.eqb_spec (j / 4) (i / 4)) as [E|]; [|done].
    rewrite KeySetupColumnMix_cell by done.
    destruct (Nat.eqb_spec (j mod 4) (i mod 4)) as [E'|]; [by destruct Hne; apply word_index|].
    unfold key_cell; by rewrite E.
Qed.

Lemma lookup_total_snoc {A} `{Inhabited A} (l : list A) x j :
  (l ++ [x]) !!! j = if (j <? length l)%nat then l !!! j else if (j =? length l)%nat then x else inhabitant.
Proof.
  destruct (Nat.ltb_spec j (length l)); [by rewrite lookup_total_app_l|].
  rewrite lookup_total_app_r by done; destruct (Nat.eqb_spec j (length l)) as [->|].
  - by rewrite Nat.sub_diag.
  - destruct (j - length l)%nat as [|[|]] eqn:E; [lia|done|done].
Qed.

Lemma setup_step Nk Nr i st w :
  (4 <= Nk)%nat -> (Nk <= i < 4 * (Nr + 1))%nat -> setup_inv Nk Nr i st w ->
  setup_inv Nk Nr (i + 1) (AES_setup_step Nk i st) (w ++ [Fips197.expand_word Nk i w]).
Proof.
  intros HN Hi Hinv; pose proof (setup_transform Nk Nr i st w HN ltac:(lia) Hinv) as Ht.
  destruct Hinv as [Hlen Hsl [Hlw Hw] Hdone Htodo _ _ Hpos]; unfold AES_setup_step.
  destruct (if (pos st =? 0)%nat then _ else _) as [column rcon]; destruct Ht as (Hcs & Hrs & Htl & Hc & Hr).
  set (temp := transformed Nk i w) in *.
  assert (Hm : forall n, (n mod 4 < 4)%nat) by (intros; by apply Nat.mod_upper_bound).
  assert (Hdiv : (i / 4 < Nr + 1)%nat) by (apply Nat.Div0.div_lt_upper_bound; lia).
  assert (Hdiv' : ((i - Nk) / 4 < Nr + 1)%nat) by (apply Nat.Div0.div_lt_upper_bound; lia).
  pose proof (Forall_lookup_total_1 _ _ (i / 4)%nat Hsl ltac:(lia)) as Hr4.
  pose proof (Forall_lookup_total_1 _ _ ((i - Nk) / 4)%nat Hsl ltac:(lia)) as Ha4.
  destruct (Forall_lookup_total_1 _ _ (i - Nk)%nat Hw ltac:(lia)) as [Hwl Hww].
  destruct (KeySetupColumnMix_sliced column (rounds st !!! (i / 4)%nat) (rounds st !!! ((i - Nk) / 4)%nat)
              (i mod 4) ((i - Nk) mod 4) Hcs Hr4 Ha4) as [Hm1 Hm2].
  set (m := KeySetupColumnMix column (rounds st !!! (i / 4)%nat) (rounds st !!! ((i - Nk) / 4)%nat)
              (i mod 4) ((i - Nk) mod 4)) in *.
  assert (Hcells : forall j r, (r < 4)%nat -> key_cell (<[(i / 4)%nat := m.2]> (rounds st)) j r =
    if (j =? i)%nat then SaveByte m.1 r 0 else key_cell (rounds st) j r).
  { intros j r Hr'; apply (setup_cells Nr); auto; [lia|apply Htodo; [lia|done]]. }
  assert (Hcol : forall r, (r < 4)%nat -> SaveByte m.1 r 0 = Fips197.expand_word Nk i w !!! r).
  { intros r Hr'; unfold m; rewrite KeySetupColumnMix_column, Hc by done.
    change (SaveByte (rounds st !!! ((i - Nk) / 4)%nat) r ((i - Nk) mod 4)) with (key_cell (rounds st) (i - Nk) r).
    rewrite Hdone by lia; change (Fips197.expand_word Nk i w) with (zip_with Z.lxor (w !!! (i - Nk)%nat) temp).
    rewrite (lookup_zip _ _ _) by lia; apply Z.lxor_comm. }
  fold m; clearbody m; destruct m as [col' r']; cbn [fst snd] in *.
  assert (Hxl : length (Fips197.expand_word Nk i w) = 4%nat).
  { change (Fips197.expand_word Nk i w) with (zip_with Z.lxor (w !!! (i - Nk)%nat) temp).
    rewrite length_zip_with; lia. }
  split; cbn [rounds Ctaes.column Ctaes.rcon pos].
  - by rewrite length_insert.
  - by apply Forall_insert.
  - rewrite length_app; simpl; split; [lia|]; apply Forall_app; split; [done|].
    apply Forall_cons_2; [|apply Forall_nil_2]; split; [done|].
    apply (proj2 (Forall_lookup_total (word 8) _)); intros r Hr'; rewrite <- Hcol by lia; apply SaveByte_word.
  - intros j r Hj Hr'; rewrite Hcells, lookup_total_snoc, Hlw by done.
    destruct (Nat.eqb_spec j i) as [->|]; [rewrite Nat.ltb_irrefl; by apply Hcol|].
    destruct (Nat.ltb_spec j i); [apply Hdone; lia|lia].
  - intros j r Hj Hr'; rewrite Hcells by done.
    destruct (Nat.eqb_spec j i) as [->|]; [lia|apply Htodo; lia].
  - split; [done|]; intros r Hr'; rewrite lookup_total_snoc, Hlw, Hcol by done.
    replace (i + 1 - 1)%nat with i by lia; by rewrite Nat.ltb_irrefl, Nat.eqb_refl.
  - by split.
  - rewrite Hpos; apply pos_step; lia.
Qed.

(** ** The key schedule *)

Lemma lookup_read_at off len (l : list Z) r : (r < len)%nat -> read_at off len l !!! r = l !!! (off + r)%nat.
Proof. intros; unfold read_at; by rewrite !list_lookup_total_alt, lookup_take_lt, lookup_drop. Qed.

Lemma setup_init key Nk Nr :
  words 8 key -> length key = (4 * Nk)%nat -> (4 <= Nk)%nat -> (Nk <= 4 * (Nr + 1))%nat ->
  let rounds := AES_setup_load key Nk Nr in
  setup_inv Nk Nr Nk
    (SetupState rounds (GetOneColumn (rounds !!! ((Nk - 1) / 4)%nat) ((Nk - 1) mod 4)) [1; 0; 0; 0; 0; 0; 0; 0] 0)
    (map (fun i => read_at (4 * i) 4 key) (seq 0 Nk)).
Proof.
  intros Hkey Hlk HN HNr; cbv zeta.
  destruct (AES_setup_load_cells key Nk Nr Hkey HNr) as (Hlen & Hsl & Hcell).
  assert (Hword : forall j r, (j < Nk)%nat -> (r < 4)%nat ->
    (map (fun i => read_at (4 * i) 4 key) (seq 0 Nk) !!! j) !!! r = key !!! (j * 4 + r)%nat).
  { intros j r Hj Hr; rewrite (lookup_map _ _), lookup_total_seq_lt by (rewrite ?length_seq; lia).
    rewrite lookup_read_at by done; f_equal; lia. }
  assert (Hdiv : ((Nk - 1) / 4 < Nr + 1)%nat) by (apply Nat.Div0.div_lt_upper_bound; lia).
  pose proof (Forall_lookup_total_1 _ _ ((Nk - 1) / 4)%nat Hsl ltac:(lia)) as Ha4.
  split; cbn [Ctaes.rounds column rcon pos]; [done|done| | | | | |].
  - split; [by rewrite length_map, length_seq|].
    apply List.Forall_forall; intros x Hx; apply in_map_iff in Hx as (k & <- & Hk%in_seq).
    split; [by rewrite length_read_at by lia|].
    apply Forall_take, Forall_drop, Hkey.
  - intros j r Hj Hr; rewrite Hword, Hcell by lia; destruct (Nat.ltb_spec j Nk); [done|lia].
  - intros j r Hj Hr; rewrite Hcell by lia; destruct (Nat.ltb_spec j Nk); [lia|].
    destruct (Nat.ltb_spec r 0); [lia|]; by rewrite andb_false_r.
  - split; [by apply GetOneColumn_sliced|]; intros r Hr.
    rewrite GetOneColumn_cell by (done || by apply Nat.mod_upper_bound).
    change (SaveByte (AES_setup_load key Nk Nr !!! ((Nk - 1) / 4)%nat) r ((Nk - 1) mod 4))
      with (key_cell (AES_setup_load key Nk Nr) (Nk - 1) r).
    rewrite Hword, Hcell by lia; destruct (Nat.ltb_spec (Nk - 1) Nk); [done|lia].
  - split; [by split; [|apply wordsb_spec; reflexivity]|]; intros r Hr.
    replace ((Nk + Nk - 1) / Nk)%nat with 1%nat by (apply (Nat.div_unique _ _ _ (Nk - 1)); lia).
    do 4 (destruct r as [|r]; [reflexivity|]); lia.
  - symmetry; apply Nat.Div0.mod_same.
Qed.

Lemma AES_setup_inv key Nk Nr :
  words 8 key -> length key = (4 * Nk)%nat -> (4 <= Nk)%nat -> (Nk <= 4 * (Nr + 1))%nat ->
  exists st, AES_setup key Nk Nr = st.(rounds) /\ setup_inv Nk Nr (4 * (Nr + 1)) st (Fips197.KeyExpansion key Nk Nr).
Proof.
  intros Hkey Hlk HN HNr; unfold AES_setup, Fips197.KeyExpansion; eexists; split; [reflexivity|].
  apply (for_range_sim (setup_inv Nk Nr)); [done|by apply setup_init|].
  intros i st w Hi Hinv; by apply setup_step.
Qed.

Lemma AES_setup_correct key Nk Nr round :
  words 8 key -> length key = (4 * Nk)%nat -> (4 <= Nk)%nat -> (Nk <= 4 * (Nr + 1))%nat ->
  (round <= Nr)%nat ->
  sliced (AES_setup key Nk Nr !!! round) /\
  SaveBytes (AES_setup key Nk Nr !!! round) = Fips197.round_key (Fips197.KeyExpansion key Nk Nr) round.
Proof.
  intros Hkey Hlk HN HNr Hround.
  destruct (AES_setup_inv key Nk Nr) as (st & -> & [Hlen Hsl [Hlw Hw] Hdone _ _ _ _]); auto.
  split; [apply (Forall_lookup_total_1 _ _ _ Hsl); lia|].
  assert (Hcell : forall r c, (r < 4)%nat -> (c < 4)%nat -> SaveByte (rounds st !!! round) r c =
    (Fips197.KeyExpansion key Nk Nr !!! (4 * round + c)%nat) !!! r).
  { intros r c Hr Hc; rewrite <- Hdone by lia; unfold key_cell; f_equal.
    - f_equal; apply (Nat.div_unique _ _ _ c); lia.
    - apply (Nat.mod_unique _ _ round); lia. }
  unfold Fips197.round_key.
  pose proof (fun c Hc => proj1 (Forall_lookup_total_1 _ _ (4 * round + c)%nat Hw Hc)) as Hl.
  rewrite <- (Nat.add_0_r (4 * round)) at 1.
  pose proof (Hl 0%nat ltac:(lia)) as L0; pose proof (Hl 1%nat ltac:(lia)) as L1.
  pose proof (Hl 2%nat ltac:(lia)) as L2; pose proof (Hl 3%nat ltac:(lia)) as L3.
  rewrite SaveBytes_tabulate.
  transitivity (Fips197.tabulate (fun r c => (Fips197.KeyExpansion key Nk Nr !!! (4 * round + c)%nat) !!! r)).
  { by apply Fips197.tabulate_ext. }
  unfold Fips197.tabulate; cbn [seq map Nat.modulo Nat.div Nat.divmod fst snd Nat.sub].
  clear -L0 L1 L2 L3.
  destruct (Fips197.KeyExpansion key Nk Nr !!! (4 * round + 0)%nat) as [|? [|? [|? [|? [|]]]]]; try discriminate.
  destruct (Fips197.KeyExpansion key Nk Nr !!! (4 * round + 1)%nat) as [|? [|? [|? [|? [|]]]]]; try discriminate.
  destruct (Fips197.KeyExpansion key Nk Nr !!! (4 * round + 2)%nat) as [|? [|? [|? [|? [|]]]]]; try discriminate.
  destruct (Fips197.KeyExpansion key Nk Nr !!! (4 * round + 3)%nat) as [|? [|? [|? [|? [|]]]]]; try discriminate.
  reflexivity.
Qed.

(** The three variants of the interface, with the functions that serve them. *)
Inductive aes_variant := AES128 | AES192 | AES256.

Definition nkeywords (v : aes_variant) : nat :=
  match v with AES128 => 4 | AES192 => 6 | AES256 => 8 end.
Definition nrounds (v : aes_variant) : nat :=
  match v with AES128 => 10 | AES192 => 12 | AES256 => 14 end.
Definition aes_init (v : aes_variant) : list Z -> list (list Z) :=
  match v with AES128 => AES128_init | AES192 => AES192_init | AES256 => AES256_init end.
Definition aes_encrypt (v : aes_variant) : list (list Z) -> nat -> list Z -> list Z :=
  match v with AES128 => AES128_encrypt | AES192 => AES192_encrypt | AES256 => AES256_encrypt end.
Definition aes_decrypt (v : aes_variant) : list (list Z) -> nat -> list Z -> list Z :=
  match v with AES128 => AES128_decrypt | AES192 => AES192_decrypt | AES256 => AES256_decrypt end.

Definition hex_key : list Z := map Z.of_nat (seq 0 32).
Definition hex_plain : list Z := map (fun i => Z.of_nat i * 17) (seq 0 16).

#[local] Opaque AES_setup AES_encrypt AES_decrypt SaveBytes Fips197.KeyExpansion.

(** ** Lemmas *)

Lemma variant_bounds v : (4 <= nkeywords v <= 8)%nat /\ (10 <= nrounds v <= 14)%nat.
Proof. destruct v; simpl; lia. Qed.

(** The interface functions are the generic routines at the variant's sizes. *)
Lemma aes_init_eq v key : aes_init v key = AES_setup key (nkeywords v) (nrounds v).
Proof. destruct v; reflexivity. Qed.

Lemma aes_encrypt_eq v ctx blocks data :
  aes_encrypt v ctx blocks data = AES_blocks (AES_encrypt ctx (nrounds v)) blocks data.
Proof. destruct v; reflexivity. Qed.

Lemma aes_decrypt_eq v ctx blocks data :
  aes_decrypt v ctx blocks data = AES_blocks (AES_decrypt ctx (nrounds v)) blocks data.
Proof. destruct v; reflexivity. Qed.

Lemma aes_init_sliced v key i :
  words 8 key -> length key = (4 * nkeywords v)%nat -> (i <= nrounds v)%nat ->
  sliced (aes_init v key !!! i) /\
  SaveBytes (aes_init v key !!! i) =
  Fips197.round_key (Fips197.KeyExpansion key (nkeywords v) (nrounds v)) i.
Proof.
  intros Hk Hl Hi; rewrite aes_init_eq; destruct (variant_bounds v).
  apply AES_setup_correct; auto; lia.
Qed.

Lemma Cipher_ext rk rk' Nr s : (forall i, (i <= Nr)%nat -> rk i = rk' i) -> (1 <= Nr)%nat ->
  Fips197.Cipher rk Nr s = Fips197.Cipher rk' Nr s.
Proof.
  intros H HN; unfold Fips197.Cipher; rewrite !H by lia.
  erewrite for_range_ext; [reflexivity|lia|]; intros i t Hi; simpl; rewrite H by lia; reflexivity.
Qed.

Lemma InvCipher_ext rk rk' Nr s : (forall i, (i <= Nr)%nat -> rk i = rk' i) -> (1 <= Nr)%nat ->
  Fips197.InvCipher rk Nr s = Fips197.InvCipher rk' Nr s.
Proof.
  intros H HN; unfold Fips197.InvCipher; rewrite !H by lia.
  erewrite for_range_ext; [reflexivity|lia|]; intros i t Hi; simpl; rewrite H by lia; reflexivity.
Qed.

(** The loop over the blocks, as the results for the blocks one after the other. *)
Lemma AES_blocks_map f blocks data : AES_blocks f blocks data = concat (map (fun i => f (read_at (16 * i) 16 data)) (seq 0 blocks)).
Proof.
  revert data; induction blocks as [|n IH]; intros data; [done|]; cbn [AES_blocks seq map concat]; f_equal.
  rewrite IH, <- seq_shift, map_map; f_equal; apply map_ext; intros i; f_equal; unfold read_at; rewrite drop_drop; do 2 f_equal; lia.
Qed.

Lemma AES_blocks_ext f g blocks data :
  words 8 data -> length data = (16 * blocks)%nat ->
  (forall s, Fips197.state_ok s -> f s = g s) -> AES_blocks f blocks data = AES_blocks g blocks data.
Proof.
  intros Hw Hl Hfg; revert data Hw Hl; induction blocks as [|n IH]; intros data Hw Hl; simpl; [done|].
  rewrite Hfg, IH; [done|by apply Forall_drop|rewrite length_drop; lia|].
  split; [rewrite length_take; lia|by apply Forall_take].
Qed.

(** The block loop of a function with an inverse is inverted by the block loop. *)
Lemma AES_blocks_inverse f g blocks data :
  words 8 data -> length data = (16 * blocks)%nat ->
  (forall s, Fips197.state_ok s -> length (f s) = 16%nat /\ g (f s) = s) ->
  AES_blocks g blocks (AES_blocks f blocks data) = data.
Proof.
  intros Hw Hl Hfg; revert data Hw Hl; induction blocks as [|n IH]; intros data Hw Hl; simpl.
  - symmetry; apply nil_length_inv; lia.
  - destruct (Hfg (take 16 data)) as [H16 Hinv].
    { split; [rewrite length_take; lia|by apply Forall_take]. }
    rewrite take_app_le, take_ge, drop_app_ge by lia; rewrite H16, Nat.sub_diag, drop_0, Hinv.
    rewrite IH; [apply take_drop|by apply Forall_drop|rewrite length_drop; lia].
Qed.

Lemma encrypt_block v key s :
  words 8 key -> length key = (4 * nkeywords v)%nat -> Fips197.state_ok s ->
  AES_encrypt (aes_init v key) (nrounds v) s = Fips197.encrypt (nkeywords v) (nrounds v) key s.
Proof.
  intros Hk Hl Hs; destruct (variant_bounds v) as [_ Hn].
  rewrite AES_encrypt_Cipher; [|lia|intros; by apply aes_init_sliced|done].
  apply Cipher_ext; [intros; by apply aes_init_sliced|lia].
Qed.

Lemma decrypt_block v key s :
  words 8 key -> length key = (4 * nkeywords v)%nat -> Fips197.state_ok s ->
  AES_decrypt (aes_init v key) (nrounds v) s = Fips197.decrypt (nkeywords v) (nrounds v) key s.
Proof.
  intros Hk Hl Hs; destruct (variant_bounds v) as [_ Hn].
  rewrite AES_decrypt_InvCipher; [|lia|intros; by apply aes_init_sliced|done].
  apply InvCipher_ext; [intros; by apply aes_init_sliced|lia].
Qed.

Lemma decrypt_encrypt_block v key s :
  words 8 key -> length key = (4 * nkeywords v)%nat -> Fips197.state_ok s ->
  Fips197.state_ok (AES_encrypt (aes_init v key) (nrounds v) s) /\
  AES_decrypt (aes_init v key) (nrounds v) (AES_encrypt (aes_init v key) (nrounds v) s) = s.
Proof.
  intros Hk Hl Hs; destruct (variant_bounds v) as [_ Hn].
  assert (Hok : Fips197.state_ok (AES_encrypt (aes_init v key) (nrounds v) s)) by apply SaveBytes_ok.
  split; [apply Hok|]; rewrite AES_decrypt_InvCipher; [|lia|intros; by apply aes_init_sliced|done].
  rewrite AES_encrypt_Cipher; [|lia|intros; by apply aes_init_sliced|done].
  apply Fips197.InvCipher_Cipher; [lia|intros; apply SaveBytes_ok|done].
Qed.

(** ** Theorems *)

(** C4 (refinement): for every key size, the context built by [AESn_init] and the
    bit-sliced [AESn_encrypt] compute for each block of 16 bytes the FIPS 197 cipher under
    the FIPS 197 key expansion of the same key. *)
Theorem aes_encrypt_implements_fips197 v key blocks data :
  words 8 key -> length key = (4 * nkeywords v)%nat ->
  words 8 data -> length data = (16 * blocks)%nat ->
  aes_encrypt v (aes_init v key) blocks data =
  concat (map (fun i => Fips197.encrypt (nkeywords v) (nrounds v) key (read_at (16 * i) 16 data)) (seq 0 blocks)).
Proof.
  intros Hk Hl Hd Hld; rewrite aes_encrypt_eq, <- AES_blocks_map; apply AES_blocks_ext; auto; intros; by apply encrypt_block.
Qed.

Lemma aes_encrypt_implements_fips197_witness :
  aes_encrypt AES256 (aes_init AES256 hex_key) 1 hex_plain =
  concat (map (fun i => Fips197.encrypt 8 14 hex_key (read_at (16 * i) 16 hex_plain)) (seq 0 1)).
Proof.
  apply (aes_encrypt_implements_fips197 AES256).
  - apply wordsb_spec; reflexivity.
  - reflexivity.
  - apply wordsb_spec; reflexivity.
  - reflexivity.
Defined.

(** Decrypting an encrypted message with the same key gives the
    message back, for the three key sizes and any number of blocks. *)
Theorem aes_decrypt_encrypt v key blocks data :
  words 8 key -> length key = (4 * nkeywords v)%nat ->
  words 8 data -> length data = (16 * blocks)%nat ->
  aes_decrypt v (aes_init v key) blocks (aes_encrypt v (aes_init v key) blocks data) = data.
Proof.
  intros Hk Hl Hd Hld; rewrite aes_encrypt_eq, aes_decrypt_eq.
  apply AES_blocks_inverse; [done|done|]; intros s Hs.
  destruct (decrypt_encrypt_block v key s Hk Hl Hs) as [[H16 _] Hinv]; done.
Qed.

Lemma aes_decrypt_encrypt_witness :
  aes_decrypt AES256 (aes_init AES256 hex_key) 1
    (aes_encrypt AES256 (aes_init AES256 hex_key) 1 hex_plain) = hex_plain.
Proof.
  apply (aes_decrypt_encrypt AES256).
  - apply wordsb_spec; reflexivity.
  - reflexivity.
  - apply wordsb_spec; reflexivity.
  - reflexivity.
Defined.

(** Each step on the bit-sliced state is the byte-wise step of
    FIPS 197 on the 16 bytes it stores; the boolean circuit of [SubBytes] is
    the S-box (inverse in GF(2^8) and affine map), and the inverse variants
    are the inverse steps. *)
Theorem aes_bitsliced_steps s k : sliced s -> sliced k ->
  SaveBytes (SubBytes s false) = Fips197.SubBytes (SaveBytes s) /\
  SaveBytes (SubBytes s true) = Fips197.InvSubBytes (SaveBytes s) /\
  SaveBytes (ShiftRows s) = Fips197.ShiftRows (SaveBytes s) /\
  SaveBytes (InvShiftRows s) = Fips197.InvShiftRows (SaveBytes s) /\
  SaveBytes (MixColumns s false) = Fips197.MixColumns (SaveBytes s) /\
  SaveBytes (MixColumns s true) = Fips197.InvMixColumns (SaveBytes s) /\
  SaveBytes (AddRoundKey s k) = Fips197.AddRoundKey (SaveBytes s) (SaveBytes k).
Proof.
  intros Hs Hk; split_and!; [apply (SubBytes_correct s false)|apply (SubBytes_correct s true)
    |apply ShiftRows_correct|apply InvShiftRows_correct|apply (MixColumns_correct s false)
    |apply (MixColumns_correct s true)|apply AddRoundKey_correct]; done.
Qed.

Lemma aes_bitsliced_steps_witness :
  SaveBytes (SubBytes (LoadBytes (replicate 8 0) hex_plain) false) =
  Fips197.SubBytes (SaveBytes (LoadBytes (replicate 8 0) hex_plain)).
Proof.
  refine (proj1 (aes_bitsliced_steps _ (replicate 8 0) _ _)).
  - apply LoadBytes_sliced, sliced_zero.
  - apply sliced_zero.
Defined.

(** The in-place key schedule (three key sizes, with its
    position counter, column buffer and bit-sliced round constant) leaves in
    round [i] the [i]-th round key of the FIPS 197 key expansion. *)
Theorem aes_key_schedule v key i :
  words 8 key -> length key = (4 * nkeywords v)%nat -> (i <= nrounds v)%nat ->
  SaveBytes (aes_init v key !!! i) =
  Fips197.round_key (Fips197.KeyExpansion key (nkeywords v) (nrounds v)) i.
Proof. intros; by apply aes_init_sliced. Qed.

Lemma aes_key_schedule_witness :
  SaveBytes (aes_init AES256 hex_key !!! 14%nat) = Fips197.round_key (Fips197.KeyExpansion hex_key 8 14) 14.
Proof.
  apply (aes_key_schedule AES256); [apply wordsb_spec; reflexivity|reflexivity|simpl; lia].
Defined.
