(* ===== verification/SphBlake.v ===== *)
(** The SPHlib BLAKE code of Lyra2Z/blake.c: BLAKE-224/256 on 32-bit words and
    BLAKE-384/512 on 64-bit words.

    The C file writes everything twice, once per word size, with the same text
    up to constants and macro names.  [BlakeVersion] collects what differs (the
    literals are the ones of the source); the generic operations below are the
    common text, and the functions of the file are their two instances. *)

From S2P Require Import Prelude.

(** ** Tables *)

Definition IV224 : list Z :=
  [0xC1059ED8; 0x367CD507; 0x3070DD17; 0xF70E5939;
   0xFFC00B31; 0x68581511; 0x64F98FA7; 0xBEFA4FA4].

Definition IV256 : list Z :=
  [0x6A09E667; 0xBB67AE85; 0x3C6EF372; 0xA54FF53A;
   0x510E527F; 0x9B05688C; 0x1F83D9AB; 0x5BE0CD19].

Definition IV384 : list Z :=
  [0xCBBB9D5DC1059ED8; 0x629A292A367CD507; 0x9159015A3070DD17; 0x152FECD8F70E5939;
   0x67332667FFC00B31; 0x8EB44A8768581511; 0xDB0C2E0D64F98FA7; 0x47B5481DBEFA4FA4].

Definition IV512 : list Z :=
  [0x6A09E667F3BCC908; 0xBB67AE8584CAA73B; 0x3C6EF372FE94F82B; 0xA54FF53A5F1D36F1;
   0x510E527FADE682D1; 0x9B05688C2B3E6C1F; 0x1F83D9ABFB41BD6B; 0x5BE0CD19137E2179].

(** The permutation table of the compact build. *)
Definition sigma : list (list nat) := (
  [[0; 1; 2; 3; 4; 5; 6; 7; 8; 9; 10; 11; 12; 13; 14; 15];
   [14; 10; 4; 8; 9; 15; 13; 6; 1; 12; 0; 2; 11; 7; 5; 3];
   [11; 8; 12; 0; 5; 2; 15; 13; 10; 14; 3; 6; 7; 1; 9; 4];
   [7; 9; 3; 1; 13; 12; 11; 14; 2; 6; 5; 10; 4; 0; 15; 8];
   [9; 0; 5; 7; 2; 4; 10; 15; 14; 1; 11; 12; 6; 8; 3; 13];
   [2; 12; 6; 10; 0; 11; 8; 3; 4; 13; 7; 5; 15; 14; 1; 9];
   [12; 5; 1; 15; 14; 13; 4; 10; 0; 7; 6; 3; 9; 2; 8; 11];
   [13; 11; 7; 14; 12; 1; 3; 9; 5; 0; 15; 4; 8; 6; 2; 10];
   [6; 15; 14; 9; 11; 3; 0; 8; 12; 2; 13; 7; 1; 4; 10; 5];
   [10; 2; 8; 4; 7; 6; 1; 5; 15; 11; 9; 14; 3; 12; 13; 0];
   [0; 1; 2; 3; 4; 5; 6; 7; 8; 9; 10; 11; 12; 13; 14; 15];
   [14; 10; 4; 8; 9; 15; 13; 6; 1; 12; 0; 2; 11; 7; 5; 3];
   [11; 8; 12; 0; 5; 2; 15; 13; 10; 14; 3; 6; 7; 1; 9; 4];
   [7; 9; 3; 1; 13; 12; 11; 14; 2; 6; 5; 10; 4; 0; 15; 8];
   [9; 0; 5; 7; 2; 4; 10; 15; 14; 1; 11; 12; 6; 8; 3; 13];
   [2; 12; 6; 10; 0; 11; 8; 3; 4; 13; 7; 5; 15; 14; 1; 9]])%nat.

(** The macros [Z00] to [Z9F] of the unrolled build, one row per round digit. *)
Definition Ztab : list (list nat) := (
  [[0; 1; 2; 3; 4; 5; 6; 7; 8; 9; 10; 11; 12; 13; 14; 15];
   [14; 10; 4; 8; 9; 15; 13; 6; 1; 12; 0; 2; 11; 7; 5; 3];
   [11; 8; 12; 0; 5; 2; 15; 13; 10; 14; 3; 6; 7; 1; 9; 4];
   [7; 9; 3; 1; 13; 12; 11; 14; 2; 6; 5; 10; 4; 0; 15; 8];
   [9; 0; 5; 7; 2; 4; 10; 15; 14; 1; 11; 12; 6; 8; 3; 13];
   [2; 12; 6; 10; 0; 11; 8; 3; 4; 13; 7; 5; 15; 14; 1; 9];
   [12; 5; 1; 15; 14; 13; 4; 10; 0; 7; 6; 3; 9; 2; 8; 11];
   [13; 11; 7; 14; 12; 1; 3; 9; 5; 0; 15; 4; 8; 6; 2; 10];
   [6; 15; 14; 9; 11; 3; 0; 8; 12; 2; 13; 7; 1; 4; 10; 5];
   [10; 2; 8; 4; 7; 6; 1; 5; 15; 11; 9; 14; 3; 12; 13; 0]])%nat.

(** The macros [CS0] to [CSF] and the array [CS] of the compact build. *)
Definition CSx : list Z :=
  [0x243F6A88; 0x85A308D3; 0x13198A2E; 0x03707344; 0xA4093822; 0x299F31D0; 0x082EFA98; 0xEC4E6C89;
   0x452821E6; 0x38D01377; 0xBE5466CF; 0x34E90C6C; 0xC0AC29B7; 0xC97C50DD; 0x3F84D5B5; 0xB5470917].

Definition CS : list Z :=
  [0x243F6A88; 0x85A308D3; 0x13198A2E; 0x03707344; 0xA4093822; 0x299F31D0; 0x082EFA98; 0xEC4E6C89;
   0x452821E6; 0x38D01377; 0xBE5466CF; 0x34E90C6C; 0xC0AC29B7; 0xC97C50DD; 0x3F84D5B5; 0xB5470917].

(** The macros [CB0] to [CBF] and the array [CB] of the compact build. *)
Definition CBx : list Z :=
  [0x243F6A8885A308D3; 0x13198A2E03707344; 0xA4093822299F31D0; 0x082EFA98EC4E6C89;
   0x452821E638D01377; 0xBE5466CF34E90C6C; 0xC0AC29B7C97C50DD; 0x3F84D5B5B5470917;
   0x9216D5D98979FB1B; 0xD1310BA698DFB5AC; 0x2FFD72DBD01ADFB7; 0xB8E1AFED6A267E96;
   0xBA7C9045F12C7F99; 0x24A19947B3916CF7; 0x0801F2E2858EFC16; 0x636920D871574E69].

Definition CB : list Z :=
  [0x243F6A8885A308D3; 0x13198A2E03707344; 0xA4093822299F31D0; 0x082EFA98EC4E6C89;
   0x452821E638D01377; 0xBE5466CF34E90C6C; 0xC0AC29B7C97C50DD; 0x3F84D5B5B5470917;
   0x9216D5D98979FB1B; 0xD1310BA698DFB5AC; 0x2FFD72DBD01ADFB7; 0xB8E1AFED6A267E96;
   0xBA7C9045F12C7F99; 0x24A19947B3916CF7; 0x0801F2E2858EFC16; 0x636920D871574E69].

(** ** Macros of sph_types.h *)

Definition SPH_T32 (x : Z) : Z := Z.land x 0xFFFFFFFF.
Definition SPH_ROTL32 (x n : Z) : Z :=
  SPH_T32 (Z.lor (SPH_T32 (Z.shiftl x n)) (Z.shiftr x (32 - n))).
Definition SPH_ROTR32 (x n : Z) : Z := SPH_ROTL32 x (32 - n).

Definition SPH_T64 (x : Z) : Z := Z.land x 0xFFFFFFFFFFFFFFFF.
Definition SPH_ROTL64 (x n : Z) : Z :=
  SPH_T64 (Z.lor (SPH_T64 (Z.shiftl x n)) (Z.shiftr x (64 - n))).
Definition SPH_ROTR64 (x n : Z) : Z := SPH_ROTL64 x (64 - n).

(** The byte-wise branches of the encoders and decoders. *)
Definition sph_enc32be (val : Z) : list Z :=
  [u8 (Z.shiftr val 24); u8 (Z.shiftr val 16); u8 (Z.shiftr val 8); u8 val].

Definition sph_dec32be (src : list Z) : Z :=
  Z.lor (Z.shiftl (src !!! 0%nat) 24) (Z.lor (Z.shiftl (src !!! 1%nat) 16)
    (Z.lor (Z.shiftl (src !!! 2%nat) 8) (src !!! 3%nat))).

Definition sph_enc64be (val : Z) : list Z :=
  [u8 (Z.shiftr val 56); u8 (Z.shiftr val 48); u8 (Z.shiftr val 40); u8 (Z.shiftr val 32);
   u8 (Z.shiftr val 24); u8 (Z.shiftr val 16); u8 (Z.shiftr val 8); u8 val].

Definition sph_dec64be (src : list Z) : Z :=
  Z.lor (Z.shiftl (src !!! 0%nat) 56) (Z.lor (Z.shiftl (src !!! 1%nat) 48)
  (Z.lor (Z.shiftl (src !!! 2%nat) 40) (Z.lor (Z.shiftl (src !!! 3%nat) 32)
  (Z.lor (Z.shiftl (src !!! 4%nat) 24) (Z.lor (Z.shiftl (src !!! 5%nat) 16)
    (Z.lor (Z.shiftl (src !!! 6%nat) 8) (src !!! 7%nat))))))).

(** ** The mixing functions *)

Definition GS (m0 m1 c0 c1 a b c d : Z) : Z * Z * Z * Z :=
  let a := SPH_T32 (a + b + Z.lxor m0 c1) in
  let d := SPH_ROTR32 (Z.lxor d a) 16 in
  let c := SPH_T32 (c + d) in
  let b := SPH_ROTR32 (Z.lxor b c) 12 in
  let a := SPH_T32 (a + b + Z.lxor m1 c0) in
  let d := SPH_ROTR32 (Z.lxor d a) 8 in
  let c := SPH_T32 (c + d) in
  let b := SPH_ROTR32 (Z.lxor b c) 7 in
  (a, b, c, d).

Definition GB (m0 m1 c0 c1 a b c d : Z) : Z * Z * Z * Z :=
  let a := SPH_T64 (a + b + Z.lxor m0 c1) in
  let d := SPH_ROTR64 (Z.lxor d a) 32 in
  let c := SPH_T64 (c + d) in
  let b := SPH_ROTR64 (Z.lxor b c) 25 in
  let a := SPH_T64 (a + b + Z.lxor m1 c0) in
  let d := SPH_ROTR64 (Z.lxor d a) 16 in
  let c := SPH_T64 (c + d) in
  let b := SPH_ROTR64 (Z.lxor b c) 11 in
  (a, b, c, d).

(** ** The two versions *)

Class BlakeVersion := {
  wbytes : nat;                                      (** bytes of a word *)
  SPH_T : Z -> Z;                                    (** truncation to a word *)
  enc : Z -> list Z;
  dec : list Z -> Z;
  G : Z -> Z -> Z -> Z -> Z -> Z -> Z -> Z -> Z * Z * Z * Z;
  CArr : list Z;                                     (** [CS]/[CB] *)
  Cx : list Z;                                       (** [CSx]/[CBx] *)
  rounds_compact : nat;
  rounds_unrolled : list nat;                        (** arguments of [ROUND] *)
  buf_size : nat;                                    (** [sizeof sc->buf] *)
  block_bits : Z;
  pad_limit : Z;                                     (** last [bit_len] of the one-block close *)
  len_pos : nat;                                     (** where the length goes *)
  T0_dummy : Z;
  T1_dummy : Z
}.

#[export] Instance BlakeSmall : BlakeVersion := {
  wbytes := 4; SPH_T := SPH_T32; enc := sph_enc32be; dec := sph_dec32be; G := GS;
  CArr := CS; Cx := CSx; rounds_compact := 14;
  rounds_unrolled := [0; 1; 2; 3; 4; 5; 6; 7; 8; 9; 0; 1; 2; 3]%nat;
  buf_size := 64; block_bits := 512; pad_limit := 446; len_pos := 56;
  T0_dummy := 0xFFFFFE00; T1_dummy := 0xFFFFFFFF
}.

#[export] Instance BlakeBig : BlakeVersion := {
  wbytes := 8; SPH_T := SPH_T64; enc := sph_enc64be; dec := sph_dec64be; G := GB;
  CArr := CB; Cx := CBx; rounds_compact := 16;
  rounds_unrolled := [0; 1; 2; 3; 4; 5; 6; 7; 8; 9; 0; 1; 2; 3; 4; 5]%nat;
  buf_size := 128; block_bits := 1024; pad_limit := 894; len_pos := 112;
  T0_dummy := 0xFFFFFFFFFFFFFC00; T1_dummy := 0xFFFFFFFFFFFFFFFF
}.

(** ** Contexts

    [sph_blake_small_context] and [sph_blake_big_context], and the local
    variables [H0..H7], [S0..S3], [T0], [T1] of [DECL_STATE]. *)

Record blake_context := BlakeCtx {
  buf : list Z;
  ptr : nat;
  ctx_H : list Z;
  ctx_S : list Z;
  ctx_T0 : Z;
  ctx_T1 : Z
}.

Record blake_vars := BlakeVars {
  vH : list Z;
  vS : list Z;
  vT0 : Z;
  vT1 : Z
}.

Definition READ_STATE (sc : blake_context) : blake_vars :=
  BlakeVars sc.(ctx_H) sc.(ctx_S) sc.(ctx_T0) sc.(ctx_T1).

(** [WRITE_STATE] and the stores to [sc->buf] and [sc->ptr] around it. *)
Definition WRITE_STATE (buf : list Z) (ptr : nat) (v : blake_vars) : blake_context :=
  BlakeCtx buf ptr v.(vH) v.(vS) v.(vT0) v.(vT1).

Section Generic.
Context {BV : BlakeVersion}.

(** A macro call [G(m0, m1, c0, c1, Va, Vb, Vc, Vd)] on the variables [V0..VF]. *)
Definition G_at (m0 m1 c0 c1 : Z) (a b c d : nat) (V : list Z) : list Z :=
  let '(va, vb, vc, vd) := G m0 m1 c0 c1 (V !!! a) (V !!! b) (V !!! c) (V !!! d) in
  <[d := vd]> (<[c := vc]> (<[b := vb]> (<[a := va]> V))).

(** [ROUND_S]/[ROUND_B] of the compact build. *)
Definition ROUND_compact (M : list Z) (r : nat) (V : list Z) : list Z :=
  let m i := M !!! ((sigma !!! r) !!! i) in
  let c i := CArr !!! ((sigma !!! r) !!! i) in
  let V := G_at (m 0%nat) (m 1%nat) (c 0%nat) (c 1%nat) 0 4 8 12 V in
  let V := G_at (m 2%nat) (m 3%nat) (c 2%nat) (c 3%nat) 1 5 9 13 V in
  let V := G_at (m 4%nat) (m 5%nat) (c 4%nat) (c 5%nat) 2 6 10 14 V in
  let V := G_at (m 6%nat) (m 7%nat) (c 6%nat) (c 7%nat) 3 7 11 15 V in
  let V := G_at (m 8%nat) (m 9%nat) (c 8%nat) (c 9%nat) 0 5 10 15 V in
  let V := G_at (m 10%nat) (m 11%nat) (c 10%nat) (c 11%nat) 1 6 11 12 V in
  let V := G_at (m 12%nat) (m 13%nat) (c 12%nat) (c 13%nat) 2 7 8 13 V in
  G_at (m 14%nat) (m 15%nat) (c 14%nat) (c 15%nat) 3 4 9 14 V.

(** [ROUND_S]/[ROUND_B] of the unrolled build, [Mx(r, i)] and [CSx(r, i)]
    being the variables and constants the [Z] macros select. *)
Definition ROUND_unrolled (M : list Z) (r : nat) (V : list Z) : list Z :=
  let m i := M !!! ((Ztab !!! r) !!! i) in
  let c i := Cx !!! ((Ztab !!! r) !!! i) in
  let V := G_at (m 0%nat) (m 1%nat) (c 0%nat) (c 1%nat) 0 4 8 12 V in
  let V := G_at (m 2%nat) (m 3%nat) (c 2%nat) (c 3%nat) 1 5 9 13 V in
  let V := G_at (m 4%nat) (m 5%nat) (c 4%nat) (c 5%nat) 2 6 10 14 V in
  let V := G_at (m 6%nat) (m 7%nat) (c 6%nat) (c 7%nat) 3 7 11 15 V in
  let V := G_at (m 8%nat) (m 9%nat) (c 8%nat) (c 9%nat) 0 5 10 15 V in
  let V := G_at (m 10%nat) (m 11%nat) (c 10%nat) (c 11%nat) 1 6 11 12 V in
  let V := G_at (m 12%nat) (m 13%nat) (c 12%nat) (c 13%nat) 2 7 8 13 V in
  G_at (m 14%nat) (m 15%nat) (c 14%nat) (c 15%nat) 3 4 9 14 V.

(** The variables [V0..VF] before the rounds, the message words, and the
    update of [H0..H7] after them: the parts the two builds share. *)
Definition COMPRESS_V (v : blake_vars) : list Z :=
  [v.(vH) !!! 0%nat; v.(vH) !!! 1%nat; v.(vH) !!! 2%nat; v.(vH) !!! 3%nat;
   v.(vH) !!! 4%nat; v.(vH) !!! 5%nat; v.(vH) !!! 6%nat; v.(vH) !!! 7%nat;
   Z.lxor (v.(vS) !!! 0%nat) (Cx !!! 0%nat); Z.lxor (v.(vS) !!! 1%nat) (Cx !!! 1%nat);
   Z.lxor (v.(vS) !!! 2%nat) (Cx !!! 2%nat); Z.lxor (v.(vS) !!! 3%nat) (Cx !!! 3%nat);
   Z.lxor v.(vT0) (Cx !!! 4%nat); Z.lxor v.(vT0) (Cx !!! 5%nat);
   Z.lxor v.(vT1) (Cx !!! 6%nat); Z.lxor v.(vT1) (Cx !!! 7%nat)].

Definition COMPRESS_M (buf : list Z) : list Z :=
  map (fun i => dec (read_at (wbytes * i) wbytes buf)) (seq 0 16).

Definition COMPRESS_H (v : blake_vars) (V : list Z) : blake_vars :=
  let h i := Z.lxor (v.(vH) !!! i)
    (Z.lxor (v.(vS) !!! (i mod 4)%nat) (Z.lxor (V !!! i) (V !!! (i + 8)%nat))) in
  BlakeVars [h 0%nat; h 1%nat; h 2%nat; h 3%nat; h 4%nat; h 5%nat; h 6%nat; h 7%nat]
    v.(vS) v.(vT0) v.(vT1).

Definition COMPRESS_compact (buf : list Z) (v : blake_vars) : blake_vars :=
  COMPRESS_H v (for_range 0 rounds_compact (ROUND_compact (COMPRESS_M buf)) (COMPRESS_V v)).

Definition COMPRESS (buf : list Z) (v : blake_vars) : blake_vars :=
  COMPRESS_H v (fold_left (fun V r => ROUND_unrolled (COMPRESS_M buf) r V) rounds_unrolled
    (COMPRESS_V v)).

(** ** Update *)

Definition blake_init (iv salt : list Z) (sc : blake_context) : blake_context :=
  BlakeCtx sc.(buf) 0 (take 8 iv) (take 4 salt) 0 0.

(** [if ((T0 = SPH_T(T0 + bits)) < bits) T1 = SPH_T(T1 + 1);] *)
Definition blake_count (v : blake_vars) : blake_vars :=
  let T0' := SPH_T (v.(vT0) + block_bits) in
  let T1' := if T0' <? block_bits then SPH_T (v.(vT1) + 1) else v.(vT1) in
  BlakeVars v.(vH) v.(vS) T0' T1'.

(** The loop [while (len > 0)]; every iteration consumes a byte, so the length
    of the data is fuel enough. *)
Fixpoint blake_loop (fuel : nat) (buf : list Z) (ptr : nat) (v : blake_vars) (data : list Z)
  : list Z * nat * blake_vars :=
  match fuel with
  | O => (buf, ptr, v)
  | S fuel =>
    if (0 <? length data)%nat then
      let clen := (buf_size - ptr)%nat in
      let clen := if (length data <? clen)%nat then length data else clen in
      let buf := write_at ptr (take clen data) buf in
      let ptr := (ptr + clen)%nat in
      let data := drop clen data in
      if (ptr =? buf_size)%nat
      then blake_loop fuel buf 0 (COMPRESS buf (blake_count v)) data
      else blake_loop fuel buf ptr v data
    else (buf, ptr, v)
  end.

Definition blake_update (sc : blake_context) (data : list Z) : blake_context :=
  if (length data <? buf_size - sc.(ptr))%nat
  then BlakeCtx (write_at sc.(ptr) data sc.(buf)) (sc.(ptr) + length data)
         sc.(ctx_H) sc.(ctx_S) sc.(ctx_T0) sc.(ctx_T1)
  else
    let '(buf, ptr, v) := blake_loop (length data) sc.(buf) sc.(ptr) (READ_STATE sc) data in
    WRITE_STATE buf ptr v.

(** ** Close

    [u_buf] are the indeterminate bytes of the local buffer [u.buf]. *)

Definition set_T (sc : blake_context) (T : Z * Z) : blake_context :=
  BlakeCtx sc.(buf) sc.(ptr) sc.(ctx_H) sc.(ctx_S) (fst T) (snd T).

(** [((ub & -z) | z) & 0xFF] with [z = 0x80 >> n]. *)
Definition pad_byte (ub n : Z) : Z :=
  let z := Z.shiftr 0x80 n in
  Z.land (Z.lor (Z.land ub (u32 (- z))) z) 0xFF.

(** The counter set before the last block. *)
Definition close_T (sc : blake_context) (bit_len n : Z) : Z * Z :=
  if (sc.(ptr) =? 0)%nat && (n =? 0) then (T0_dummy, T1_dummy)
  else if sc.(ctx_T0) =? 0 then (SPH_T (T0_dummy + bit_len), SPH_T (sc.(ctx_T1) - 1))
  else (SPH_T (sc.(ctx_T0) - (block_bits - bit_len)), sc.(ctx_T1)).

Definition blake_close (u_buf : list Z) (sc : blake_context) (ub n : Z) (out_size : nat)
  : blake_context * list Z :=
  let ptr := sc.(ptr) in
  let bit_len := Z.of_nat ptr * 8 + n in
  let u_buf := <[ptr := pad_byte ub n]> u_buf in
  let tl := SPH_T (sc.(ctx_T0) + bit_len) in
  let th := sc.(ctx_T1) in
  let sc := set_T sc (close_T sc bit_len n) in
  let sc :=
    if bit_len <=? pad_limit then
      let u_buf := write_at (ptr + 1) (replicate (len_pos - 1 - ptr) 0) u_buf in
      let u_buf := if (out_size =? 8)%nat
        then <[(len_pos - 1)%nat := Z.lor (u_buf !!! (len_pos - 1)%nat) 1]> u_buf else u_buf in
      let u_buf := write_at len_pos (enc th) u_buf in
      let u_buf := write_at (len_pos + wbytes) (enc tl) u_buf in
      blake_update sc (read_at ptr (buf_size - ptr) u_buf)
    else
      let u_buf := write_at (ptr + 1) (replicate (buf_size - 1 - ptr) 0) u_buf in
      let sc := blake_update sc (read_at ptr (buf_size - ptr) u_buf) in
      let sc := set_T sc (T0_dummy, T1_dummy) in
      let u_buf := write_at 0 (replicate len_pos 0) u_buf in
      let u_buf := if (out_size =? 8)%nat then <[(len_pos - 1)%nat := 1]> u_buf else u_buf in
      let u_buf := write_at len_pos (enc th) u_buf in
      let u_buf := write_at (len_pos + wbytes) (enc tl) u_buf in
      blake_update sc (read_at 0 buf_size u_buf) in
  (sc, concat (map (fun k => enc (sc.(ctx_H) !!! k)) (seq 0 out_size))).

End Generic.

(** ** The functions of the file *)

Definition ROUND_S_compact := ROUND_compact (BV := BlakeSmall).
Definition ROUND_S := ROUND_unrolled (BV := BlakeSmall).
Definition ROUND_B_compact := ROUND_compact (BV := BlakeBig).
Definition ROUND_B := ROUND_unrolled (BV := BlakeBig).
Definition COMPRESS32_compact := COMPRESS_compact (BV := BlakeSmall).
Definition COMPRESS32 := COMPRESS (BV := BlakeSmall).
Definition COMPRESS64_compact := COMPRESS_compact (BV := BlakeBig).
Definition COMPRESS64 := COMPRESS (BV := BlakeBig).

Definition salt_zero_small : list Z := [0; 0; 0; 0].
Definition salt_zero_big : list Z := [0; 0; 0; 0].

Definition blake32_init := blake_init.
Definition blake32 := blake_update (BV := BlakeSmall).
Definition blake32_close := blake_close (BV := BlakeSmall).
Definition blake64_init := blake_init.
Definition blake64 := blake_update (BV := BlakeBig).
Definition blake64_close := blake_close (BV := BlakeBig).

Definition sph_blake224_init (cc : blake_context) : blake_context :=
  blake32_init IV224 salt_zero_small cc.
Definition sph_blake224 (cc : blake_context) (data : list Z) : blake_context := blake32 cc data.
Definition sph_blake224_addbits_and_close (u_buf : list Z) (cc : blake_context) (ub n : Z)
  : blake_context * list Z :=
  let '(cc, dst) := blake32_close u_buf cc ub n 7 in (sph_blake224_init cc, dst).
Definition sph_blake224_close (u_buf : list Z) (cc : blake_context) : blake_context * list Z :=
  sph_blake224_addbits_and_close u_buf cc 0 0.

Definition sph_blake256_init (cc : blake_context) : blake_context :=
  blake32_init IV256 salt_zero_small cc.
Definition sph_blake256 (cc : blake_context) (data : list Z) : blake_context := blake32 cc data.
Definition sph_blake256_addbits_and_close (u_buf : list Z) (cc : blake_context) (ub n : Z)
  : blake_context * list Z :=
  let '(cc, dst) := blake32_close u_buf cc ub n 8 in (sph_blake256_init cc, dst).
Definition sph_blake256_close (u_buf : list Z) (cc : blake_context) : blake_context * list Z :=
  sph_blake256_addbits_and_close u_buf cc 0 0.

Definition sph_blake384_init (cc : blake_context) : blake_context :=
  blake64_init IV384 salt_zero_big cc.
Definition sph_blake384 (cc : blake_context) (data : list Z) : blake_context := blake64 cc data.
Definition sph_blake384_addbits_and_close (u_buf : list Z) (cc : blake_context) (ub n : Z)
  : blake_context * list Z :=
  let '(cc, dst) := blake64_close u_buf cc ub n 6 in (sph_blake384_init cc, dst).
Definition sph_blake384_close (u_buf : list Z) (cc : blake_context) : blake_context * list Z :=
  sph_blake384_addbits_and_close u_buf cc 0 0.

Definition sph_blake512_init (cc : blake_context) : blake_context :=
  blake64_init IV512 salt_zero_big cc.
Definition sph_blake512 (cc : blake_context) (data : list Z) : blake_context := blake64 cc data.
Definition sph_blake512_addbits_and_close (u_buf : list Z) (cc : blake_context) (ub n : Z)
  : blake_context * list Z :=
  let '(cc, dst) := blake64_close u_buf cc ub n 8 in (sph_blake512_init cc, dst).
Definition sph_blake512_close (u_buf : list Z) (cc : blake_context) : blake_context * list Z :=
  sph_blake512_addbits_and_close u_buf cc 0 0.

