(* ===== verification/BlakeSpec.v ===== *)
(** Reference definition of the BLAKE hash functions, after the SHA-3 proposal:
    bit-string messages, padding, counters, compression by rounds of
    column and diagonal steps, and the constants from their definitions as
    square roots of primes and digits of pi. *)

From S2P Require Import Prelude.

(** ** Bit strings, most significant bit first *)

Definition bits_of_byte (b : Z) : list bool :=
  map (fun i => Z.testbit b (7 - Z.of_nat i)) (seq 0 8).
Definition bits_of_bytes (l : list Z) : list bool := concat (map bits_of_byte l).

Definition byte_of_bits (l : list bool) : Z :=
  fold_left (fun acc b => 2 * acc + Z.b2z b) l 0.
Fixpoint bytes_of_bits (l : list bool) : list Z :=
  match l with
  | b0 :: b1 :: b2 :: b3 :: b4 :: b5 :: b6 :: b7 :: l' =>
      byte_of_bits [b0; b1; b2; b3; b4; b5; b6; b7] :: bytes_of_bits l'
  | _ => []
  end.

Module BlakeSpec.

(** ** Constants *)

(** The first 64 bits of the fractional part of the square root of [p]. *)
Definition sqrt_frac (p : Z) : Z := Z.sqrt (p * 2 ^ 128) mod 2 ^ 64.

Definition IV512 : list Z := map sqrt_frac [2; 3; 5; 7; 11; 13; 17; 19].
Definition IV384 : list Z := map sqrt_frac [23; 29; 31; 37; 41; 43; 47; 53].
Definition IV256 : list Z := map (fun x => x / 2 ^ 32) IV512.
Definition IV224 : list Z := map (fun x => x mod 2 ^ 32) IV384.

(** [scale * arctan (1/n)], by [terms] terms of its series. *)
Definition arctan_inv (scale n : Z) (terms : nat) : Z :=
  snd (for_range 0 terms (fun k '(p, acc) =>
    let d := 2 * Z.of_nat k + 1 in
    (p / (n * n), if Nat.even k then acc + p / d else acc - p / d)) (scale / n, 0)).

(** Pi with 1152 fractional bits, by Machin's formula; the first 1024 of them
    are the constants. *)
Definition pi_bits : Z :=
  4 * (4 * arctan_inv (2 ^ 1152) 5 260 - arctan_inv (2 ^ 1152) 239 80).
Definition pi_frac : Z := (pi_bits / 2 ^ 128) mod 2 ^ 1024.

Definition c64 : list Z := map (fun i => (pi_frac / 2 ^ (1024 - 64 * (Z.of_nat i + 1))) mod 2 ^ 64) (seq 0 16).
Definition c32 : list Z := map (fun i => (pi_frac / 2 ^ (1024 - 32 * (Z.of_nat i + 1))) mod 2 ^ 32) (seq 0 16).

(** The ten permutations of the proposal. *)
Definition sigma : list (list nat) := (
  [[0; 1; 2; 3; 4; 5; 6; 7; 8; 9; 10; 11; 12; 13; 14; 15];
   [14; 10; 4; 8; 9; 15; 13; 6; 1; 12; 0; 2; 11; 7; 5; 3];
   [11; 8; 12; 0; 5; 2; 15; 13; 10; 14; 3; 6; 7; 1; 9; 4];
   [7; 9; 3; 1; 13; 12; 11; 14; 2; 6; 5; 10; 4; 0; 15; 8];
   [9; 0; 5; 7; 2; 4; 10; 15; 14; 1; 11; 12; 6; 8; 3; 13];
   [2; 12; 6; 10; 0; 11; 8; 3; 4; 13; 7; 5; 15; 14; 1; 9];
   [12; 5; 1; 15; 14; 13; 4; 10; 0; 7; 6; 3; 9; 2; 8; 11];
   [13; 11; 7; 14; 12; 1; 3; 9; 5; 0; 15; 4; 8; 6; 2; 10];
   [6; 15; 14; 9; 11; 3; 0; 8; 12; 2; 13; 7; 1; 4; 10; 5];
   [10; 2; 8; 4; 7; 6; 1; 5; 15; 11; 9; 14; 3; 12; 13; 0]])%nat.

(** ** Compression *)

(** What distinguishes the 32-bit functions from the 64-bit ones. *)
Record params := {
  word_bytes : nat;
  rot1 : Z; rot2 : Z; rot3 : Z; rot4 : Z;
  consts : list Z;
  rounds : nat
}.

Definition small : params :=
  {| word_bytes := 4; rot1 := 16; rot2 := 12; rot3 := 8; rot4 := 7; consts := c32; rounds := 14 |}.
Definition big : params :=
  {| word_bytes := 8; rot1 := 32; rot2 := 25; rot3 := 16; rot4 := 11; consts := c64; rounds := 16 |}.

Section Params.
Variable P : params.

Definition wbits : Z := 8 * Z.of_nat P.(word_bytes).
Definition block_bytes : nat := (16 * P.(word_bytes))%nat.
Definition block_bits : nat := (8 * block_bytes)%nat.

(** Rotation of a word to the right. *)
Definition rotr (x n : Z) : Z := wrap wbits (Z.lor (Z.shiftr x n) (Z.shiftl x (wbits - n))).

(** One half of G: [a += b + x; d = (d ^ a) >>> r; c += d; b = (b ^ c) >>> r']. *)
Definition half_g (r r' x : Z) '(a, b, c, d) : Z * Z * Z * Z :=
  let a := wrap wbits (a + b + x) in
  let d := rotr (Z.lxor d a) r in
  let c := wrap wbits (c + d) in
  let b := rotr (Z.lxor b c) r' in
  (a, b, c, d).

Definition g (x y : Z) (s : Z * Z * Z * Z) : Z * Z * Z * Z :=
  half_g P.(rot3) P.(rot4) y (half_g P.(rot1) P.(rot2) x s).

(** The cells of the i-th step of a round: columns, then diagonals. *)
Definition cells (i : nat) : nat * nat * nat * nat :=
  if (i <? 4)%nat then (i, 4 + i, 8 + i, 12 + i)%nat
  else (i - 4, 4 + (i - 3) mod 4, 8 + (i - 2) mod 4, 12 + (i - 1) mod 4)%nat.

Definition g_at (x y : Z) (abcd : nat * nat * nat * nat) (v : list Z) : list Z :=
  let '(a, b, c, d) := abcd in
  let '(va, vb, vc, vd) := g x y (v !!! a, v !!! b, v !!! c, v !!! d) in
  <[d := vd]> (<[c := vc]> (<[b := vb]> (<[a := va]> v))).

Definition step (m : list Z) (r i : nat) (v : list Z) : list Z :=
  let j := (sigma !!! (r mod 10)%nat) !!! (2 * i)%nat in
  let k := (sigma !!! (r mod 10)%nat) !!! (2 * i + 1)%nat in
  let x := Z.lxor (m !!! j) (P.(consts) !!! k) in
  let y := Z.lxor (m !!! k) (P.(consts) !!! j) in
  g_at x y (cells i) v.

Definition round (m : list Z) (r : nat) (v : list Z) : list Z :=
  for_range 0 8 (step m r) v.

(** The counter [t] as its low and high words. *)
Definition t_low (t : Z) : Z := t mod 2 ^ wbits.
Definition t_high (t : Z) : Z := (t / 2 ^ wbits) mod 2 ^ wbits.

Definition initial (h s : list Z) (t : Z) : list Z :=
  take 8 h ++ zip_with Z.lxor s (take 4 P.(consts)) ++
  zip_with Z.lxor [t_low t; t_low t; t_high t; t_high t] (take 4 (drop 4 P.(consts))).

Definition compress (h s : list Z) (t : Z) (block : list Z) : list Z :=
  let m := map (fun i => be_word (read_at (P.(word_bytes) * i) P.(word_bytes) block)) (seq 0 16) in
  let v := for_range 0 P.(rounds) (round m) (initial h s t) in
  map (fun i => Z.lxor (h !!! i) (Z.lxor (s !!! (i mod 4)%nat)
    (Z.lxor (v !!! i) (v !!! (i + 8)%nat)))) (seq 0 8).

(** ** Padding and iteration *)

(** A 1, zeros, the bit [last] (1 for the full-length digests), the length on
    two words: a multiple of the block size. *)
Definition pad (last : bool) (m : list bool) : list bool :=
  let l := Z.of_nat (length m) in
  let k := Z.to_nat ((Z.of_nat block_bits - 2 * wbits - 2 - l) mod Z.of_nat block_bits) in
  m ++ [true] ++ replicate k false ++ [last] ++
  bits_of_bytes (be_bytes (2 * P.(word_bytes)) l).

(** The number of message bits hashed up to and including block [i], or 0 when
    block [i] has no bit of the message. *)
Definition counter (l i : nat) : Z :=
  if (i * block_bits <? l)%nat then Z.of_nat (Nat.min l ((i + 1) * block_bits)) else 0.

Definition iterate (iv s : list Z) (l : nat) (bytes : list Z) : list Z :=
  for_range 0 (length bytes / block_bytes) (fun i h =>
    compress h s (counter l i) (read_at (i * block_bytes) block_bytes bytes)) iv.

(** The hash of a bit string, with [out] words of output. *)
Definition hash (iv : list Z) (out : nat) (m : list bool) : list Z :=
  let h := iterate iv [0; 0; 0; 0] (length m) (bytes_of_bits (pad (out =? 8)%nat m)) in
  concat (map (be_bytes P.(word_bytes)) (take out h)).

End Params.

Definition blake224 : list bool -> list Z := hash small IV224 7.
Definition blake256 : list bool -> list Z := hash small IV256 8.
Definition blake384 : list bool -> list Z := hash big IV384 6.
Definition blake512 : list bool -> list Z := hash big IV512 8.

End BlakeSpec.
