(* ===== verification/SphBlakeProofs.v ===== *)
(** The BLAKE code against its reference: the interface [BlakeLaws] between a
    version of the code and the parameters of the specification, the compression
    function, and the state kept by the update function. *)

From S2P Require Import Prelude SphBlake BlakeSpec.

(** ** Interface *)

(** What a version of the code promises: its literals and macros are those of
    the parameters [P]. *)
Class BlakeLaws (BV : BlakeVersion) (P : BlakeSpec.params) : Prop := {
  law_wbytes : wbytes = P.(BlakeSpec.word_bytes);
  law_wbytes_pos : (0 < wbytes)%nat;
  law_buf_size : buf_size = BlakeSpec.block_bytes P;
  law_block_bits : block_bits = Z.of_nat (BlakeSpec.block_bits P);
  law_T x : SPH_T x = wrap (BlakeSpec.wbits P) x;
  law_enc x : enc x = be_bytes wbytes x;
  law_dec l : length l = wbytes -> dec l = be_word l;
  law_G m0 m1 c0 c1 a b c d :
    G m0 m1 c0 c1 a b c d = BlakeSpec.g P (Z.lxor m0 c1) (Z.lxor m1 c0) (a, b, c, d);
  law_CArr : CArr = P.(BlakeSpec.consts);
  law_Cx : Cx = P.(BlakeSpec.consts);
  law_consts : length P.(BlakeSpec.consts) = 16%nat;
  law_rounds : rounds_unrolled = map (fun r => r mod 10)%nat (seq 0 P.(BlakeSpec.rounds));
  law_rounds_compact : rounds_compact = P.(BlakeSpec.rounds);
  law_rounds_16 : (P.(BlakeSpec.rounds) <= 16)%nat;
  law_limit : pad_limit = block_bits - 2 * BlakeSpec.wbits P - 2;
  law_len_pos : len_pos = (buf_size - 2 * wbytes)%nat;
  law_T0_dummy : T0_dummy = 2 ^ BlakeSpec.wbits P - block_bits;
  law_T1_dummy : T1_dummy = 2 ^ BlakeSpec.wbits P - 1;
  law_divide : (block_bits | 2 ^ BlakeSpec.wbits P);
}.

(** The chaining value after the first [k] blocks of [msg], all of them full. *)
Definition after (P : BlakeSpec.params) (iv msg : list Z) (k : nat) : list Z :=
  for_range 0 k (fun i h =>
    BlakeSpec.compress P h [0; 0; 0; 0] (Z.of_nat ((i + 1) * BlakeSpec.block_bits P))
      (read_at (i * BlakeSpec.block_bytes P) (BlakeSpec.block_bytes P) msg)) iv.

(** The state of the update loop after the bytes [msg]: [k] full blocks
    compressed and the rest in the buffer. *)
Definition absorbed (P : BlakeSpec.params) (iv msg : list Z) (buf : list Z) (ptr : nat) (v : blake_vars) : Prop :=
  exists k,
    length msg = (k * BlakeSpec.block_bytes P + ptr)%nat /\ (ptr < BlakeSpec.block_bytes P)%nat /\
    length buf = BlakeSpec.block_bytes P /\
    take ptr buf = drop (k * BlakeSpec.block_bytes P) msg /\
    v.(vH) = after P iv msg k /\ v.(vS) = [0; 0; 0; 0] /\
    v.(vT0) = BlakeSpec.t_low P (Z.of_nat (k * BlakeSpec.block_bits P)) /\
    v.(vT1) = BlakeSpec.t_high P (Z.of_nat (k * BlakeSpec.block_bits P)).

Definition ctx_absorbed (P : BlakeSpec.params) (iv msg : list Z) (sc : blake_context) : Prop :=
  absorbed P iv msg sc.(buf) sc.(ptr) (READ_STATE sc).

(** ** The two instances *)

Lemma rotr_small x n : SPH_ROTR32 x n = BlakeSpec.rotr BlakeSpec.small x n.
Proof.
  unfold SPH_ROTR32, SPH_ROTL32, BlakeSpec.rotr, SPH_T32.
  change (BlakeSpec.wbits BlakeSpec.small) with 32; change 0xFFFFFFFF with (Z.ones 32).
  rewrite !wrap_ones, !wrap_lor, wrap_wrap, Z.lor_comm by lia; do 3 f_equal; lia.
Qed.

Lemma rotr_big x n : SPH_ROTR64 x n = BlakeSpec.rotr BlakeSpec.big x n.
Proof.
  unfold SPH_ROTR64, SPH_ROTL64, BlakeSpec.rotr, SPH_T64.
  change (BlakeSpec.wbits BlakeSpec.big) with 64; change 0xFFFFFFFFFFFFFFFF with (Z.ones 64).
  rewrite !wrap_ones, !wrap_lor, wrap_wrap, Z.lor_comm by lia; do 3 f_equal; lia.
Qed.

(** Byte-wise big-endian decoding and encoding are the generic ones. *)
Ltac solve_dec l Hl :=
  repeat (destruct l as [|? l]; try discriminate Hl);
  unfold be_word; simpl;
  rewrite ?Z.shiftl_lor, ?Z.shiftl_shiftl, ?Z.shiftl_0_l, ?Z.lor_0_r by lia;
  repeat match goal with |- context [?a + ?b] => let c := eval compute in (a + b) in change (a + b) with c end;
  apply Z.bits_inj'; intros; rewrite ?Z.lor_spec; btauto.

Ltac solve_enc :=
  unfold be_bytes; simpl; rewrite !land_255_u8, !Z.shiftr_shiftr by lia; reflexivity.

#[export] Instance BlakeSmall_laws : BlakeLaws BlakeSmall BlakeSpec.small.
Proof.
  split; try match goal with |- _ = _ => vm_compute; reflexivity end.
  - simpl; lia.
  - intros x; apply (wrap_ones 32); lia.
  - intros x; simpl; unfold sph_enc32be; solve_enc.
  - intros l Hl; simpl in *; unfold sph_dec32be; solve_dec l Hl.
  - intros; unfold BlakeSpec.g, BlakeSpec.half_g; simpl; unfold GS.
    rewrite !rotr_small; unfold SPH_T32; change 0xFFFFFFFF with (Z.ones 32); by rewrite !(wrap_ones 32).
  - simpl; lia.
  - exists (2 ^ 23); reflexivity.
Qed.

#[export] Instance BlakeBig_laws : BlakeLaws BlakeBig BlakeSpec.big.
Proof.
  split; try match goal with |- _ = _ => vm_compute; reflexivity end.
  - simpl; lia.
  - intros x; apply (wrap_ones 64); lia.
  - intros x; simpl; unfold sph_enc64be; solve_enc.
  - intros l Hl; simpl in *; unfold sph_dec64be; solve_dec l Hl.
  - intros; unfold BlakeSpec.g, BlakeSpec.half_g; simpl; unfold GB.
    rewrite !rotr_big; unfold SPH_T64; change 0xFFFFFFFFFFFFFFFF with (Z.ones 64); by rewrite !(wrap_ones 64).
  - simpl; lia.
  - exists (2 ^ 54); reflexivity.
Qed.

(** The constants of the code are those of the specification. *)
Lemma IV_spec : IV224 = BlakeSpec.IV224 /\ IV256 = BlakeSpec.IV256 /\
  IV384 = BlakeSpec.IV384 /\ IV512 = BlakeSpec.IV512.
Proof. vm_compute; auto. Qed.

(** The three permutation tables agree, row by row. *)
Lemma Ztab_sigma : Ztab = BlakeSpec.sigma.
Proof. reflexivity. Qed.

Lemma sigma_Ztab r : (r < 16)%nat -> sigma !!! r = Ztab !!! (r mod 10)%nat.
Proof.
  intros Hr; do 16 (destruct r as [|r]; [reflexivity|]); lia.
Qed.

Section Laws.
Context {BV : BlakeVersion} {P : BlakeSpec.params} {L : BlakeLaws BV P}.

Abbreviation B := (BlakeSpec.block_bytes P).
Abbreviation Bb := (BlakeSpec.block_bits P).
Abbreviation W := (2 ^ BlakeSpec.wbits P).

(** ** Sizes *)

Lemma wbits_pos : 0 < BlakeSpec.wbits P.
Proof. pose proof law_wbytes_pos; pose proof law_wbytes; unfold BlakeSpec.wbits; lia. Qed.

Lemma B_pos : (0 < B)%nat.
Proof. pose proof law_wbytes_pos; pose proof law_wbytes; unfold BlakeSpec.block_bytes; lia. Qed.

Lemma Bb_pos : (0 < Bb)%nat.
Proof. pose proof B_pos; unfold BlakeSpec.block_bits; lia. Qed.

Lemma W_multiple : exists c, 0 < c /\ W = c * Z.of_nat Bb.
Proof.
  pose proof Bb_pos; pose proof wbits_pos; destruct law_divide as [c Hc]; rewrite law_block_bits in Hc.
  exists c; split; [|done]; pose proof (pow2_pos (BlakeSpec.wbits P)); nia.
Qed.

(** ** Compression *)

Lemma G_at_spec m0 m1 c0 c1 a b c d V :
  G_at m0 m1 c0 c1 a b c d V = BlakeSpec.g_at P (Z.lxor m0 c1) (Z.lxor m1 c0) (a, b, c, d) V.
Proof. unfold G_at, BlakeSpec.g_at; by rewrite law_G. Qed.

#[local] Opaque BlakeSpec.g_at G_at.

Lemma ROUND_spec M r V : ROUND_unrolled M (r mod 10)%nat V = BlakeSpec.round P M r V.
Proof.
  unfold ROUND_unrolled, BlakeSpec.round, for_range; cbn [seq Nat.sub fold_left].
  rewrite Ztab_sigma, law_Cx; unfold BlakeSpec.step; rewrite !G_at_spec; reflexivity.
Qed.

Lemma ROUND_compact_spec M r V : (r < 16)%nat -> ROUND_compact M r V = BlakeSpec.round P M r V.
Proof.
  intros Hr; rewrite <- ROUND_spec; unfold ROUND_compact, ROUND_unrolled.
  by rewrite sigma_Ztab, law_Cx, law_CArr.
Qed.

#[local] Opaque ROUND_unrolled ROUND_compact BlakeSpec.round.

Lemma COMPRESS_compact_eq buf v : COMPRESS_compact buf v = COMPRESS buf v.
Proof.
  unfold COMPRESS_compact, COMPRESS; f_equal; rewrite law_rounds, law_rounds_compact.
  unfold for_range; rewrite Nat.sub_0_r; symmetry; apply fold_left_map_ext; intros r V Hr.
  rewrite ROUND_spec; symmetry; apply ROUND_compact_spec.
  apply in_seq in Hr; pose proof law_rounds_16; lia.
Qed.

Lemma COMPRESS_V_spec v t :
  length v.(vH) = 8%nat -> length v.(vS) = 4%nat ->
  v.(vT0) = BlakeSpec.t_low P t -> v.(vT1) = BlakeSpec.t_high P t ->
  COMPRESS_V v = BlakeSpec.initial P v.(vH) v.(vS) t.
Proof.
  intros HH HS H0 H1; unfold COMPRESS_V, BlakeSpec.initial; rewrite <- H0, <- H1, law_Cx.
  pose proof law_consts as Hc; destruct v as [h s t0 t1]; simpl in *; clear H0 H1.
  do 9 (destruct h as [|? h]; try discriminate).
  do 5 (destruct s as [|? s]; try discriminate).
  destruct (BlakeSpec.consts P) as [|? l]; try discriminate.
  do 7 (destruct l as [|? l]; try discriminate); reflexivity.
Qed.

Lemma COMPRESS_M_spec buf : length buf = B ->
  COMPRESS_M buf = map (fun i =>
    be_word (read_at (BlakeSpec.word_bytes P * i) (BlakeSpec.word_bytes P) buf)) (seq 0 16).
Proof.
  intros Hl; unfold COMPRESS_M; rewrite law_wbytes; apply map_ext_in; intros i Hi; apply in_seq in Hi.
  apply law_dec; rewrite law_wbytes; apply length_read_at.
  rewrite Hl; unfold BlakeSpec.block_bytes; nia.
Qed.

Lemma fold_rounds f (V : list Z) n :
  fold_left (fun V r => f r V) (seq 0 n) V = for_range 0 n f V.
Proof. unfold for_range; by rewrite Nat.sub_0_r. Qed.

Lemma COMPRESS_H_spec v V :
  COMPRESS_H v V = BlakeVars (map (fun i => Z.lxor (v.(vH) !!! i) (Z.lxor (v.(vS) !!! (i mod 4)%nat)
    (Z.lxor (V !!! i) (V !!! (i + 8)%nat)))) (seq 0 8)) v.(vS) v.(vT0) v.(vT1).
Proof. reflexivity. Qed.

(** Running the listed rounds is running them by number. *)
Lemma rounds_spec M l V :
  fold_left (fun V r => ROUND_unrolled M r V) (map (fun r => r mod 10)%nat l) V =
  fold_left (fun V r => BlakeSpec.round P M r V) l V.
Proof. apply fold_left_map_ext; intros; apply ROUND_spec. Qed.

Lemma COMPRESS_spec v t buf :
  length v.(vH) = 8%nat -> length v.(vS) = 4%nat -> length buf = B ->
  v.(vT0) = BlakeSpec.t_low P t -> v.(vT1) = BlakeSpec.t_high P t ->
  COMPRESS buf v = BlakeVars (BlakeSpec.compress P v.(vH) v.(vS) t buf) v.(vS) v.(vT0) v.(vT1).
Proof.
  intros HH HS Hb H0 H1; unfold COMPRESS, BlakeSpec.compress.
  rewrite (COMPRESS_V_spec v t), COMPRESS_M_spec, law_rounds, <- fold_rounds by done.
  by rewrite rounds_spec, COMPRESS_H_spec.
Qed.

Lemma length_compress h s t b : length (BlakeSpec.compress P h s t b) = 8%nat.
Proof. reflexivity. Qed.

Lemma length_after iv msg k : length iv = 8%nat -> length (after P iv msg k) = 8%nat.
Proof. intros; apply (for_range_ind (fun _ h => length h = 8%nat)); [lia|done|]; intros; apply length_compress. Qed.

(** ** The bit counter *)

(** [n] bits short of a word's range below [t], the two words of [t + n]. *)
Lemma t_add t n : 0 <= t -> 0 <= n -> BlakeSpec.t_low P t + n < W ->
  BlakeSpec.t_low P (t + n) = BlakeSpec.t_low P t + n /\ BlakeSpec.t_high P (t + n) = BlakeSpec.t_high P t.
Proof.
  unfold BlakeSpec.t_low, BlakeSpec.t_high; intros Ht Hn Hlt.
  pose proof (pow2_pos (BlakeSpec.wbits P) ltac:(pose proof wbits_pos; lia)) as HW.
  pose proof (Z.mod_pos_bound t W HW); pose proof (Z.div_mod t W ltac:(lia)).
  assert (Hdiv : (t + n) / W = t / W) by (symmetry; apply (Z.div_unique _ _ _ (t mod W + n)); lia).
  rewrite Hdiv; split; [|done]; symmetry; apply (Z.mod_unique _ _ (t / W)); lia.
Qed.

(** A multiple of the block size leaves room for a block below the word's range. *)
Lemma t_low_multiple k : exists j, 0 <= j /\
  BlakeSpec.t_low P (Z.of_nat (k * Bb)) = j * Z.of_nat Bb /\ j * Z.of_nat Bb + Z.of_nat Bb <= W.
Proof.
  destruct W_multiple as (c & Hc & HW); pose proof Bb_pos; unfold BlakeSpec.t_low.
  exists (Z.of_nat k mod c); pose proof (Z.mod_pos_bound (Z.of_nat k) c Hc).
  split; [lia|]; rewrite HW, Nat2Z.inj_mul, Z.mul_mod_distr_r by lia; nia.
Qed.

(** Any number of bits short of a block is added to the low word only. *)
Lemma t_add_partial k n : 0 <= n < Z.of_nat Bb ->
  BlakeSpec.t_low P (Z.of_nat (k * Bb) + n) = BlakeSpec.t_low P (Z.of_nat (k * Bb)) + n /\
  BlakeSpec.t_high P (Z.of_nat (k * Bb) + n) = BlakeSpec.t_high P (Z.of_nat (k * Bb)).
Proof. intros Hn; destruct (t_low_multiple k) as (j & Hj & He & Hle); apply t_add; lia. Qed.

Lemma t_bound t : 0 <= BlakeSpec.t_low P t < W /\ 0 <= BlakeSpec.t_high P t < W.
Proof.
  pose proof (pow2_pos (BlakeSpec.wbits P) ltac:(pose proof wbits_pos; lia)).
  split; apply Z.mod_pos_bound; lia.
Qed.

Lemma blake_count_full k v :
  v.(vT0) = BlakeSpec.t_low P (Z.of_nat (k * Bb)) -> v.(vT1) = BlakeSpec.t_high P (Z.of_nat (k * Bb)) ->
  blake_count v = BlakeVars v.(vH) v.(vS) (BlakeSpec.t_low P (Z.of_nat ((k + 1) * Bb)))
    (BlakeSpec.t_high P (Z.of_nat ((k + 1) * Bb))).
Proof.
  intros H0 H1; unfold blake_count; rewrite H0, H1, !law_T, law_block_bits.
  pose proof Bb_pos; destruct (t_low_multiple k) as (j & Hj & He & Hle).
  replace (Z.of_nat ((k + 1) * Bb)) with (Z.of_nat (k * Bb) + Z.of_nat Bb) by lia.
  destruct (Z.eq_dec (j * Z.of_nat Bb + Z.of_nat Bb) W) as [Hw|Hw].
  - unfold wrap; rewrite He, Hw, Z_mod_same_full.
    destruct (Z.ltb_spec 0 (Z.of_nat Bb)); [|lia].
    unfold BlakeSpec.t_low, BlakeSpec.t_high in *.
    pose proof (Z.div_mod (Z.of_nat (k * Bb)) W ltac:(lia)).
    replace (Z.of_nat (k * Bb) + Z.of_nat Bb) with ((Z.of_nat (k * Bb) / W + 1) * W) by lia.
    rewrite Z.mod_mul, Z.div_mul, Zplus_mod_idemp_l by lia; done.
  - destruct (t_add (Z.of_nat (k * Bb)) (Z.of_nat Bb)) as [-> ->]; [lia|lia|lia|].
    rewrite wrap_id by (unfold word; lia).
    destruct (Z.ltb_spec (BlakeSpec.t_low P (Z.of_nat (k * Bb)) + Z.of_nat Bb) (Z.of_nat Bb)); [|done].
    exfalso; pose proof (t_bound (Z.of_nat (k * Bb))); lia.
Qed.

(** ** The update function *)

#[local] Opaque BlakeSpec.compress COMPRESS.

(** The chaining value only depends on the blocks it covers. *)
Lemma after_app iv msg d k : (k * B <= length msg)%nat -> after P iv (msg ++ d) k = after P iv msg k.
Proof.
  intros Hk; unfold after; apply for_range_ext; [lia|]; intros i h Hi.
  pose proof (Nat.mul_le_mono_r (i + 1) k B ltac:(lia)).
  unfold read_at; rewrite drop_app_le, take_app_le by (rewrite ?length_drop; lia); done.
Qed.

Lemma after_S iv msg k : after P iv msg (k + 1) =
  BlakeSpec.compress P (after P iv msg k) [0; 0; 0; 0] (Z.of_nat ((k + 1) * Bb)) (read_at (k * B) B msg).
Proof. unfold after; by rewrite for_range_S by lia. Qed.

Lemma absorbed_fill iv msg buf ptr v d :
  absorbed P iv msg buf ptr v -> (ptr + length d < B)%nat ->
  absorbed P iv (msg ++ d) (write_at ptr d buf) (ptr + length d) v.
Proof.
  intros (k & Hm & Hp & Hb & Ht & HH & HS & H0 & H1) Hd; exists k.
  rewrite length_app, length_write_at, take_write_at, Ht, drop_app_le, after_app by lia.
  repeat split; (done || lia).
Qed.

Lemma absorbed_block iv msg buf ptr v d :
  length iv = 8%nat -> absorbed P iv msg buf ptr v -> (ptr + length d = B)%nat ->
  absorbed P iv (msg ++ d) (write_at ptr d buf) 0 (COMPRESS (write_at ptr d buf) (blake_count v)).
Proof.
  intros Hiv (k & Hm & Hp & Hb & Ht & HH & HS & H0 & H1) Hd; exists (k + 1)%nat.
  pose proof (length_after iv msg k Hiv) as Hl.
  rewrite (blake_count_full k) by done.
  rewrite (COMPRESS_spec _ (Z.of_nat ((k + 1) * Bb)));
    [|by rewrite <- HH in Hl|by simpl; rewrite HS|rewrite length_write_at; lia|done|done].
  cbn [vH vS vT0 vT1]; rewrite length_app, length_write_at by lia.
  assert (Hblk : write_at ptr d buf = read_at (k * B) B (msg ++ d)).
  { rewrite write_at_end, Ht by lia; unfold read_at; rewrite drop_app_le by lia.
    symmetry; apply take_ge; rewrite length_app, length_drop; lia. }
  rewrite after_S, after_app, <- Hblk, HH, HS by lia.
  pose proof B_pos; repeat split; try done; try lia.
  by rewrite drop_ge by (rewrite length_app; lia).
Qed.

Lemma blake_loop_absorbed iv fuel : length iv = 8%nat -> forall msg buf ptr v data,
  (length data <= fuel)%nat -> absorbed P iv msg buf ptr v ->
  let '(buf', ptr', v') := blake_loop fuel buf ptr v data in absorbed P iv (msg ++ data) buf' ptr' v'.
Proof.
  intros Hiv; induction fuel as [|fuel IH]; intros msg buf ptr v data Hf Ha; cbn [blake_loop].
  { destruct data; simpl in Hf; [by rewrite app_nil_r|lia]. }
  destruct (Nat.ltb_spec 0 (length data)) as [Hd|Hd];
    [|destruct data; simpl in Hd; [by rewrite app_nil_r|lia]].
  rewrite law_buf_size; set (clen := if (_ <? _)%nat then _ else _).
  assert (Hp : (ptr < B)%nat) by (destruct Ha as (? & ? & ? & _); lia).
  assert (Hc : (1 <= clen <= length data)%nat /\ (ptr + clen <= B)%nat)
    by (unfold clen; destruct (Nat.ltb_spec (length data) (B - ptr)); lia).
  assert (Ht : length (take clen data) = clen) by (rewrite length_take; lia).
  assert (Hs : msg ++ data = (msg ++ take clen data) ++ drop clen data) by (by rewrite <- app_assoc, take_drop).
  rewrite Hs.
  destruct (Nat.eqb_spec (ptr + clen) B) as [He|He].
  - apply IH; [rewrite length_drop; lia|]; apply absorbed_block; auto; lia.
  - apply IH; [rewrite length_drop; lia|].
    pose proof (absorbed_fill iv msg buf ptr v (take clen data) Ha ltac:(lia)) as Hfill; by rewrite Ht in Hfill.
Qed.

Lemma blake_update_absorbed iv msg sc data : length iv = 8%nat ->
  ctx_absorbed P iv msg sc -> ctx_absorbed P iv (msg ++ data) (blake_update sc data).
Proof.
  intros Hiv Ha; unfold blake_update; rewrite law_buf_size.
  destruct (Nat.ltb_spec (length data) (B - sc.(ptr))) as [Hd|Hd].
  - apply absorbed_fill; [done|lia].
  - pose proof (blake_loop_absorbed iv (length data) Hiv msg sc.(buf) sc.(ptr) (READ_STATE sc) data) as Hl.
    destruct (blake_loop _ _ _ _ _) as [[buf' ptr'] v']; by apply Hl.
Qed.

Lemma blake_init_absorbed iv sc : length iv = 8%nat -> length sc.(buf) = B ->
  ctx_absorbed P iv [] (blake_init iv [0; 0; 0; 0] sc).
Proof.
  intros Hiv Hb; pose proof B_pos; unfold ctx_absorbed, blake_init; rewrite (take_ge iv) by lia.
  exists 0%nat; repeat split; (done || simpl; lia).
Qed.

(** Completing a block exactly. *)
Lemma blake_update_block sc data : (sc.(ptr) < B)%nat -> length sc.(buf) = B ->
  (sc.(ptr) + length data = B)%nat ->
  blake_update sc data =
  WRITE_STATE (take sc.(ptr) sc.(buf) ++ data) 0
    (COMPRESS (take sc.(ptr) sc.(buf) ++ data) (blake_count (READ_STATE sc))).
Proof.
  intros Hp Hb Hd; unfold blake_update; rewrite law_buf_size.
  destruct (Nat.ltb_spec (length data) (B - sc.(ptr))); [lia|].
  destruct data as [|b data]; [simpl in Hd; lia|].
  cbn [length blake_loop]; rewrite law_buf_size.
  change (S (length data)) with (length (b :: data)).
  destruct (Nat.ltb_spec 0 (length (b :: data))); [|simpl in *; lia].
  destruct (Nat.ltb_spec (length (b :: data)) (B - sc.(ptr))); [lia|].
  rewrite take_ge, drop_ge by lia.
  destruct (Nat.eqb_spec (sc.(ptr) + (B - sc.(ptr))) B); [|lia].
  rewrite write_at_end by lia; by destruct (length data).
Qed.

End Laws.
