(* ===== verification/SphBlakeTheorems.v ===== *)
(** Closing a BLAKE computation, and the properties of the component: for any
    splitting of the message into updates the four functions return the digest
    of the reference definition, and a closed context is ready for reuse. *)

From S2P Require Import Prelude SphBlake BlakeSpec SphBlakeProofs.

(** The last byte of the padding, with the final 1 of the full-length digests. *)
Definition set_last (flag : bool) (l : list Z) : list Z :=
  if flag then <[(length l - 1)%nat := Z.lor (l !!! (length l - 1)%nat) 1]> l else l.

(** The message of a computation: the bytes given to the update function and
    the first [n] bits of [ub]. *)
Definition message (msg : list Z) (ub n : Z) : list bool :=
  bits_of_bytes msg ++ take (Z.to_nat n) (bits_of_byte ub).

(** The four functions of the interface. *)
Inductive blake_variant := BLAKE224 | BLAKE256 | BLAKE384 | BLAKE512.

Definition context_buf_size (v : blake_variant) : nat :=
  match v with BLAKE224 | BLAKE256 => 64 | BLAKE384 | BLAKE512 => 128 end.
Definition sph_init (v : blake_variant) : blake_context -> blake_context :=
  match v with
  | BLAKE224 => sph_blake224_init | BLAKE256 => sph_blake256_init
  | BLAKE384 => sph_blake384_init | BLAKE512 => sph_blake512_init
  end.
Definition sph_update (v : blake_variant) : blake_context -> list Z -> blake_context :=
  match v with
  | BLAKE224 => sph_blake224 | BLAKE256 => sph_blake256
  | BLAKE384 => sph_blake384 | BLAKE512 => sph_blake512
  end.
Definition sph_addbits_and_close (v : blake_variant)
  : list Z -> blake_context -> Z -> Z -> blake_context * list Z :=
  match v with
  | BLAKE224 => sph_blake224_addbits_and_close | BLAKE256 => sph_blake256_addbits_and_close
  | BLAKE384 => sph_blake384_addbits_and_close | BLAKE512 => sph_blake512_addbits_and_close
  end.
Definition blake_reference (v : blake_variant) : list bool -> list Z :=
  match v with
  | BLAKE224 => BlakeSpec.blake224 | BLAKE256 => BlakeSpec.blake256
  | BLAKE384 => BlakeSpec.blake384 | BLAKE512 => BlakeSpec.blake512
  end.

(** The parameters behind a variant, for the lemmas. *)
Definition version (v : blake_variant) : BlakeVersion :=
  match v with BLAKE224 | BLAKE256 => BlakeSmall | BLAKE384 | BLAKE512 => BlakeBig end.
Definition spec_params (v : blake_variant) : BlakeSpec.params :=
  match v with BLAKE224 | BLAKE256 => BlakeSpec.small | BLAKE384 | BLAKE512 => BlakeSpec.big end.
Definition variant_iv (v : blake_variant) : list Z :=
  match v with BLAKE224 => IV224 | BLAKE256 => IV256 | BLAKE384 => IV384 | BLAKE512 => IV512 end.
Definition variant_out (v : blake_variant) : nat :=
  match v with BLAKE224 => 7 | BLAKE384 => 6 | BLAKE256 | BLAKE512 => 8 end.

(** A context as [malloc] or the stack gives it. *)
Definition fresh_context (v : blake_variant) : blake_context :=
  BlakeCtx (replicate (context_buf_size v) 0xA5) 3 [] [] 7 9.

(** ** Bit strings *)

Lemma bits_of_bytes_cons b l : bits_of_bytes (b :: l) = bits_of_byte b ++ bits_of_bytes l.
Proof. reflexivity. Qed.

Lemma length_bits_of_bytes l : length (bits_of_bytes l) = (8 * length l)%nat.
Proof.
  induction l as [|b l IH]; [done|]; rewrite bits_of_bytes_cons, length_app, IH; simpl; lia.
Qed.

Lemma bits_of_bytes_app l k : bits_of_bytes (l ++ k) = bits_of_bytes l ++ bits_of_bytes k.
Proof. unfold bits_of_bytes; by rewrite map_app, concat_app. Qed.

Lemma byte_of_bits_of_byte b : word 8 b -> byte_of_bits (bits_of_byte b) = b.
Proof.
  intros Hb; apply Z.eqb_eq; revert b Hb.
  apply (byte_forall (fun b => byte_of_bits (bits_of_byte b) =? b)); vm_compute; reflexivity.
Qed.

Lemma bytes_of_bits_of_bytes l : words 8 l -> bytes_of_bits (bits_of_bytes l) = l.
Proof.
  induction 1 as [|b l Hb Hl IH]; [done|]; rewrite bits_of_bytes_cons.
  change (byte_of_bits (bits_of_byte b) :: bytes_of_bits (bits_of_bytes l) = b :: l).
  by rewrite IH, byte_of_bits_of_byte.
Qed.

Lemma bits_of_zeros z : bits_of_bytes (replicate z 0) = replicate (8 * z) false.
Proof.
  induction z as [|z IH]; [done|].
  replace (8 * S z)%nat with (8 + 8 * z)%nat by lia; rewrite replicate_add, <- IH; reflexivity.
Qed.

(** The byte that ends the message: its [n] bits, a 1 and zeros. *)
Lemma pad_byte_bits ub n : 0 <= n < 8 ->
  bits_of_byte (pad_byte ub n) =
  take (Z.to_nat n) (bits_of_byte ub) ++ true :: replicate (7 - Z.to_nat n) false.
Proof.
  intros Hn; unfold bits_of_byte; cbn [map seq].
  assert (Hcases : n = 0 \/ n = 1 \/ n = 2 \/ n = 3 \/ n = 4 \/ n = 5 \/ n = 6 \/ n = 7) by lia.
  assert (Hbit : forall i, Z.testbit (pad_byte ub n) i =
    ((Z.testbit ub i && Z.testbit (u32 (- Z.shiftr 128 n)) i) || Z.testbit (Z.shiftr 128 n) i) && Z.testbit 255 i)
    by (intros; unfold pad_byte; by rewrite Z.land_spec, Z.lor_spec, Z.land_spec).
  rewrite !Hbit; clear Hbit Hn; destruct_or! Hcases; subst n; cbn; rewrite ?andb_true_r, ?andb_false_r, ?orb_false_r, ?orb_true_r; reflexivity.
Qed.

Lemma lor_1_bits x : bits_of_byte (Z.lor x 1) = take 7 (bits_of_byte x) ++ [true].
Proof.
  unfold bits_of_byte; cbn [map seq take app]; rewrite !Z.lor_spec; cbn.
  by rewrite !orb_false_r, orb_true_r.
Qed.

Lemma set_last_app flag l k : k <> [] -> set_last flag (l ++ k) = l ++ set_last flag k.
Proof.
  intros Hk; destruct flag; [|done]; unfold set_last; rewrite length_app.
  assert (0 < length k)%nat by (destruct k; [done|simpl; lia]).
  replace (length l + length k - 1)%nat with (length l + (length k - 1))%nat by lia.
  rewrite insert_app_r, lookup_total_app_r by lia; do 3 f_equal; f_equal; lia.
Qed.

Lemma length_set_last flag l : length (set_last flag l) = length l.
Proof. destruct flag; [|done]; apply length_insert. Qed.

Lemma set_last_words flag l : words 8 l -> words 8 (set_last flag l).
Proof.
  intros Hl; destruct flag; [|done]; apply Forall_insert; [done|].
  apply lor_word; [lia|by apply words_default|by unfold word].
Qed.

Lemma set_last_bits flag l x : bits_of_byte x = take 7 (bits_of_byte x) ++ [false] ->
  bits_of_bytes (set_last flag (l ++ [x])) = bits_of_bytes l ++ take 7 (bits_of_byte x) ++ [flag].
Proof.
  intros Hx; rewrite set_last_app, bits_of_bytes_app by done; f_equal.
  destruct flag; unfold bits_of_bytes; simpl map; cbn [concat]; rewrite app_nil_r; [apply lor_1_bits|done].
Qed.

(** The padding bytes are the padding bits. *)
Lemma padding_bits flag ub n z : 0 <= n < 8 -> n <= 8 * Z.of_nat z + 6 ->
  bits_of_bytes (set_last flag (pad_byte ub n :: replicate z 0)) =
  take (Z.to_nat n) (bits_of_byte ub) ++ [true] ++
  replicate (8 * z + 6 - Z.to_nat n) false ++ [flag].
Proof.
  intros Hn Hz; destruct z as [|z].
  - change (pad_byte ub n :: replicate 0 0) with ([] ++ [pad_byte ub n]).
    set (A := take (Z.to_nat n) (bits_of_byte ub) ++ [true] ++ replicate (6 - Z.to_nat n) false).
    assert (Hb : bits_of_byte (pad_byte ub n) = A ++ [false]).
    { unfold A; rewrite pad_byte_bits, <- !app_assoc by done; do 2 f_equal.
      replace (7 - Z.to_nat n)%nat with (6 - Z.to_nat n + 1)%nat by lia; by rewrite replicate_add. }
    assert (Hl : length A = 7%nat)
      by (unfold A; rewrite !length_app, length_take, length_replicate; simpl; lia).
    rewrite set_last_bits; rewrite Hb, take_app_le, (take_ge A) by lia; [|done].
    unfold A; rewrite <- !app_assoc; reflexivity.
  - replace (S z) with (z + 1)%nat by lia; rewrite replicate_add; change (replicate 1 0) with [0].
    rewrite app_comm_cons, set_last_bits by done; rewrite bits_of_bytes_cons, bits_of_zeros, pad_byte_bits by done.
    change (take 7 (bits_of_byte 0)) with (replicate 7 false).
    rewrite <- !app_assoc; f_equal; cbn [app]; f_equal.
    rewrite app_assoc, <- replicate_add, app_assoc, <- replicate_add; do 2 f_equal; lia.
Qed.

Section Close.
Context {BV : BlakeVersion} {P : BlakeSpec.params} {L : BlakeLaws BV P}.

Abbreviation B := (BlakeSpec.block_bytes P).
Abbreviation Bb := (BlakeSpec.block_bits P).

#[local] Opaque BlakeSpec.compress COMPRESS.

(** ** Counters *)

Lemma blake_count_dummy h s :
  blake_count (BlakeVars h s T0_dummy T1_dummy) =
  BlakeVars h s (BlakeSpec.t_low P 0) (BlakeSpec.t_high P 0).
Proof.
  unfold blake_count; cbn [vT0 vT1 vH vS].
  rewrite !law_T, law_T0_dummy, law_T1_dummy, Z.sub_add, Z.sub_add; unfold wrap.
  pose proof (pow2_pos (BlakeSpec.wbits P) ltac:(pose proof wbits_pos; lia)).
  rewrite Z_mod_same_full, law_block_bits; pose proof Bb_pos.
  destruct (Z.ltb_spec 0 (Z.of_nat Bb)); [|lia].
  unfold BlakeSpec.t_low, BlakeSpec.t_high; by rewrite Z.div_0_l, Z.mod_0_l by lia.
Qed.

(** The counter set by the close function, once the block is counted. *)
Lemma blake_count_close k sc n (bit_len := Z.of_nat sc.(ptr) * 8 + n) :
  0 <= n -> bit_len < Z.of_nat Bb ->
  sc.(ctx_T0) = BlakeSpec.t_low P (Z.of_nat (k * Bb)) -> sc.(ctx_T1) = BlakeSpec.t_high P (Z.of_nat (k * Bb)) ->
  let t := if bit_len =? 0 then 0 else Z.of_nat (k * Bb) + bit_len in
  blake_count (READ_STATE (set_T sc (close_T sc bit_len n))) =
  BlakeVars sc.(ctx_H) sc.(ctx_S) (BlakeSpec.t_low P t) (BlakeSpec.t_high P t).
Proof.
  intros Hn Hb H0 H1; assert (Hb0 : 0 <= bit_len) by (unfold bit_len; lia).
  unfold READ_STATE, set_T, close_T; cbn [ctx_H ctx_S ctx_T0 ctx_T1].
  destruct (Z.eqb_spec bit_len 0) as [Hz|Hz].
  { destruct (Nat.eqb_spec sc.(ptr) 0), (Z.eqb_spec n 0); try lia; apply blake_count_dummy. }
  assert (Hcond : (sc.(ptr) =? 0)%nat && (n =? 0) = false)
    by (destruct (Nat.eqb_spec sc.(ptr) 0), (Z.eqb_spec n 0); simpl; try done; lia).
  rewrite Hcond; destruct (t_add_partial k bit_len) as [-> ->]; [lia|].
  destruct (t_low_multiple k) as (j & Hj & He & Hle).
  pose proof (t_bound (Z.of_nat (k * Bb))) as [Hlo Hhi]; pose proof Bb_pos.
  assert (0 <= j * Z.of_nat Bb) by nia.
  unfold blake_count; rewrite law_block_bits, !law_T, law_T0_dummy, law_block_bits, H0, H1.
  destruct (Z.eqb_spec (BlakeSpec.t_low P (Z.of_nat (k * Bb))) 0) as [Ht|Ht]; cbn [fst snd vT0 vT1 vH vS].
  - rewrite wrap_add_l, wrap_add_l, Ht.
    replace (2 ^ BlakeSpec.wbits P - Z.of_nat Bb + bit_len + Z.of_nat Bb)
      with (bit_len + 1 * 2 ^ BlakeSpec.wbits P) by lia.
    unfold wrap at 1 2; rewrite Z_mod_plus_full; rewrite (Z.mod_small bit_len) by lia.
    destruct (Z.ltb_spec bit_len (Z.of_nat Bb)); [|lia].
    rewrite Z.sub_add, wrap_id by done; done.
  - assert (Hj1 : 1 <= j) by (destruct (Z.eq_dec j 0) as [->|]; lia).
    assert (Z.of_nat Bb <= BlakeSpec.t_low P (Z.of_nat (k * Bb)))
      by (rewrite He; clear - Hj1 H; nia).
    rewrite wrap_add_l.
    replace (BlakeSpec.t_low P (Z.of_nat (k * Bb)) - (Z.of_nat Bb - bit_len) + Z.of_nat Bb)
      with (BlakeSpec.t_low P (Z.of_nat (k * Bb)) + bit_len) by lia.
    rewrite wrap_id by (unfold word; lia).
    destruct (Z.ltb_spec (BlakeSpec.t_low P (Z.of_nat (k * Bb)) + bit_len) (Z.of_nat Bb)); [lia|done].
Qed.

(** ** The contents of the local buffer *)

(** The two length words. *)
Lemma length_words t :
  be_bytes (2 * BlakeSpec.word_bytes P) t =
  enc (BlakeSpec.t_high P t) ++ enc (BlakeSpec.t_low P t).
Proof.
  rewrite !law_enc, law_wbytes; replace (2 * BlakeSpec.word_bytes P)%nat
    with (BlakeSpec.word_bytes P + BlakeSpec.word_bytes P)%nat by lia.
  rewrite be_bytes_app; f_equal; symmetry.
  - rewrite Z.shiftr_div_pow2 by lia; apply (be_bytes_wrap (BlakeSpec.word_bytes P)).
  - apply (be_bytes_wrap (BlakeSpec.word_bytes P)).
Qed.

Lemma length_enc x : length (enc x) = wbytes.
Proof. rewrite law_enc; apply length_be_bytes. Qed.

Lemma write_lengths (p u : list Z) th tl :
  length p = len_pos -> length (p ++ u) = B ->
  write_at (len_pos + wbytes) (enc tl) (write_at len_pos (enc th) (p ++ u)) = p ++ enc th ++ enc tl.
Proof.
  intros Hp Hu; pose proof law_len_pos; pose proof law_wbytes; pose proof law_buf_size.
  rewrite length_app in Hu; rewrite (write_at_app len_pos), app_assoc, write_at_app;
    rewrite ?length_app, ?length_enc; [|lia|done].
  rewrite <- app_assoc, drop_drop, drop_ge, app_nil_r; [done|].
  unfold BlakeSpec.block_bytes in *; lia.
Qed.

Lemma insert_last (flag : bool) (p q r : list Z) x : length (p ++ q) = len_pos -> q <> [] ->
  x = Z.lor (q !!! (length q - 1)%nat) 1 ->
  (if flag then <[(len_pos - 1)%nat := x]> (p ++ q ++ r) else p ++ q ++ r) = p ++ set_last flag q ++ r.
Proof.
  intros Hl Hq ->; destruct flag; [|done]; rewrite length_app in Hl; unfold set_last.
  assert (0 < length q)%nat by (destruct q; [done|simpl; lia]).
  replace (len_pos - 1)%nat with (length p + (length q - 1))%nat by lia.
  by rewrite insert_app_r, insert_app_l by lia.
Qed.

(** ** The padded message *)

Lemma length_message msg ub n k p : 0 <= n < 8 -> length msg = (k * B + p)%nat ->
  Z.of_nat (length (message msg ub n)) = Z.of_nat (k * Bb) + (Z.of_nat p * 8 + n).
Proof.
  intros Hn Hm; unfold message; rewrite length_app, length_bits_of_bytes, length_take, Hm.
  unfold BlakeSpec.block_bits; change (length (bits_of_byte ub)) with 8%nat; lia.
Qed.

Lemma pad_message flag msg ub n z k p : words 8 msg -> 0 <= n < 8 -> length msg = (k * B + p)%nat ->
  0 <= 8 * Z.of_nat z + 6 - n < Z.of_nat Bb ->
  (exists c, Z.of_nat Bb - 2 * BlakeSpec.wbits P - 2 - (Z.of_nat p * 8 + n) =
    c * Z.of_nat Bb + (8 * Z.of_nat z + 6 - n)) ->
  let t := Z.of_nat (length (message msg ub n)) in
  bytes_of_bits (BlakeSpec.pad P flag (message msg ub n)) =
  msg ++ set_last flag (pad_byte ub n :: replicate z 0) ++
    enc (BlakeSpec.t_high P t) ++ enc (BlakeSpec.t_low P t).
Proof.
  intros Hw Hn Hm Hz [c Hc] t; unfold BlakeSpec.pad; fold t; rewrite length_words.
  assert (Ht : t = Z.of_nat (k * Bb) + (Z.of_nat p * 8 + n)) by (by apply length_message).
  assert (Hk : (Z.of_nat Bb - 2 * BlakeSpec.wbits P - 2 - t) mod Z.of_nat Bb = 8 * Z.of_nat z + 6 - n).
  { symmetry; apply (Z.mod_unique _ _ (c - Z.of_nat k)); lia. }
  rewrite Hk; etrans; [|apply bytes_of_bits_of_bytes].
  - f_equal; rewrite !bits_of_bytes_app, padding_bits by lia; unfold message.
    replace (Z.to_nat (8 * Z.of_nat z + 6 - n)) with (8 * z + 6 - Z.to_nat n)%nat by lia.
    by rewrite <- !app_assoc.
  - repeat apply Forall_app_2; [done| |rewrite law_enc; apply be_bytes_words..].
    apply set_last_words, Forall_cons_2; [|by apply Forall_replicate].
    unfold pad_byte; apply land_word_r; [lia|by unfold word].
Qed.

(** ** The last blocks *)

Lemma iterate_prefix iv msg rest k p l : length msg = (k * B + p)%nat -> (k * Bb <= l)%nat ->
  for_range 0 k (fun i h => BlakeSpec.compress P h [0; 0; 0; 0] (BlakeSpec.counter P l i)
    (read_at (i * B) B (msg ++ rest))) iv = after P iv msg k.
Proof.
  intros Hm Hl; rewrite <- (after_app iv msg rest k) by lia; unfold after.
  apply for_range_ext; [lia|]; intros i h Hi.
  pose proof (Nat.mul_le_mono_r (i + 1) k Bb ltac:(lia)); pose proof Bb_pos.
  unfold BlakeSpec.counter; destruct (Nat.ltb_spec (i * Bb) l); [|lia].
  by rewrite Nat.min_r by lia.
Qed.

Lemma iterate_one iv msg rest k p l : length msg = (k * B + p)%nat -> (k * Bb <= l)%nat ->
  length (msg ++ rest) = ((k + 1) * B)%nat ->
  BlakeSpec.iterate P iv [0; 0; 0; 0] l (msg ++ rest) =
  BlakeSpec.compress P (after P iv msg k) [0; 0; 0; 0] (BlakeSpec.counter P l k) (drop (k * B) msg ++ rest).
Proof.
  intros Hm Hl Hlen; unfold BlakeSpec.iterate; pose proof B_pos; rewrite Hlen, Nat.div_mul by lia.
  rewrite for_range_S, (iterate_prefix iv msg rest k p) by lia.
  apply (f_equal (BlakeSpec.compress P _ _ _)); unfold read_at; rewrite drop_app_le by lia; apply take_ge.
  rewrite length_app in *; rewrite length_drop; lia.
Qed.

Lemma iterate_two iv msg r1 r2 k p l : length msg = (k * B + p)%nat -> (k * Bb <= l)%nat ->
  (p + length r1 = B)%nat -> length r2 = B ->
  BlakeSpec.iterate P iv [0; 0; 0; 0] l (msg ++ r1 ++ r2) =
  BlakeSpec.compress P (BlakeSpec.compress P (after P iv msg k) [0; 0; 0; 0] (BlakeSpec.counter P l k) (drop (k * B) msg ++ r1))
    [0; 0; 0; 0] (BlakeSpec.counter P l (k + 1)) r2.
Proof.
  intros Hm Hl H1 H2; unfold BlakeSpec.iterate; pose proof B_pos.
  replace (length (msg ++ r1 ++ r2)) with ((k + 1 + 1) * B)%nat by (rewrite !length_app; lia).
  assert (Hb1 : read_at (k * B) B (msg ++ r1 ++ r2) = drop (k * B) msg ++ r1).
  { unfold read_at; rewrite drop_app_le, app_assoc, take_app_le by (rewrite ?length_app, ?length_drop; lia).
    apply take_ge; rewrite length_app, length_drop; lia. }
  assert (Hb2 : read_at ((k + 1) * B) B (msg ++ r1 ++ r2) = r2).
  { unfold read_at; rewrite app_assoc, drop_app_ge by (rewrite length_app; lia).
    replace ((k + 1) * B - length (msg ++ r1))%nat with 0%nat by (rewrite length_app; lia).
    rewrite drop_0; apply take_ge; lia. }
  by rewrite Nat.div_mul, !for_range_S, (iterate_prefix iv msg (r1 ++ r2) k p), Hb1, Hb2 by lia.
Qed.

Lemma sizes : (buf_size = B /\ len_pos + 2 * wbytes = B /\ 0 < wbytes /\ 0 < len_pos /\ Bb = 8 * B)%nat /\
  BlakeSpec.wbits P = 8 * Z.of_nat wbytes /\ pad_limit = 8 * Z.of_nat len_pos - 2.
Proof.
  pose proof law_len_pos; pose proof law_wbytes; pose proof law_buf_size; pose proof law_wbytes_pos.
  pose proof law_limit; pose proof law_block_bits.
  unfold BlakeSpec.block_bits, BlakeSpec.wbits, BlakeSpec.block_bytes in *; lia.
Qed.

(** The two branches of the close function, on the local buffer. *)
Lemma close_buffer_one (u : list Z) p pb (flag : bool) th tl : length u = B -> (p < len_pos)%nat ->
  let u2 := write_at (p + 1) (replicate (len_pos - 1 - p) 0) (<[p := pb]> u) in
  let u3 := if flag then <[(len_pos - 1)%nat := Z.lor (u2 !!! (len_pos - 1)%nat) 1]> u2 else u2 in
  read_at p (B - p) (write_at (len_pos + wbytes) (enc tl) (write_at len_pos (enc th) u3)) =
  set_last flag (pb :: replicate (len_pos - 1 - p) 0) ++ enc th ++ enc tl.
Proof.
  intros Hu Hp u2; destruct sizes as [(HB & Hlp & Hw & _) _].
  set (A := take p u); set (q := pb :: replicate (len_pos - 1 - p) 0); set (R := drop len_pos u).
  assert (HA : length A = p) by (unfold A; rewrite length_take; lia).
  assert (Hq : length q = (len_pos - p)%nat) by (unfold q; simpl; rewrite length_replicate; lia).
  assert (Hu2 : u2 = A ++ q ++ R).
  { unfold u2; rewrite insert_take_drop by lia; change (pb :: drop (S p) u) with ([pb] ++ drop (S p) u).
    fold A; rewrite app_assoc, write_at_app by (rewrite length_app; simpl; lia).
    rewrite length_replicate, drop_drop, <- app_assoc; unfold q, R; simpl; do 3 f_equal; f_equal; lia. }
  cbv zeta; rewrite Hu2, insert_last; [|rewrite length_app; lia|done|].
  - rewrite (app_assoc A), write_lengths; [|rewrite length_app, length_set_last; lia|].
    + unfold read_at; rewrite <- app_assoc, drop_app_ge by lia; rewrite HA, Nat.sub_diag, drop_0.
      apply take_ge; rewrite !length_app, length_set_last, !length_enc; lia.
    + rewrite !length_app, length_set_last; unfold R; rewrite length_drop; lia.
  - rewrite lookup_total_app_r, lookup_total_app_l by lia; do 2 f_equal; lia.
Qed.

Lemma close_buffer_first (u : list Z) p pb : length u = B -> (p < B)%nat ->
  read_at p (B - p) (write_at (p + 1) (replicate (B - 1 - p) 0) (<[p := pb]> u)) =
  pb :: replicate (B - 1 - p) 0.
Proof.
  intros Hu Hp; rewrite insert_take_drop by lia; change (pb :: drop (S p) u) with ([pb] ++ drop (S p) u).
  rewrite app_assoc, write_at_app by (rewrite length_app, length_take; simpl; lia).
  unfold read_at; rewrite <- app_assoc, drop_app_ge by (rewrite length_take; lia).
  rewrite length_take, Nat.min_l, Nat.sub_diag, drop_0, length_replicate, drop_drop, drop_ge, app_nil_r by lia.
  apply take_ge; simpl; rewrite length_replicate; lia.
Qed.

Lemma close_buffer_second (u : list Z) (flag : bool) th tl : length u = B ->
  let u2 := write_at 0 (replicate len_pos 0) u in
  let u3 := if flag then <[(len_pos - 1)%nat := 1]> u2 else u2 in
  read_at 0 B (write_at (len_pos + wbytes) (enc tl) (write_at len_pos (enc th) u3)) =
  set_last flag (replicate len_pos 0) ++ enc th ++ enc tl.
Proof.
  intros Hu u2; destruct sizes as [(HB & Hlp & Hw & Hpos & _) _].
  assert (Hu2 : u2 = [] ++ replicate len_pos 0 ++ drop len_pos u)
    by (unfold u2, write_at; by rewrite length_replicate).
  cbv zeta; rewrite Hu2, insert_last; [|by rewrite app_nil_l, length_replicate|by destruct len_pos; [lia|]|].
  - rewrite app_nil_l, write_lengths; [|by rewrite length_set_last, length_replicate|].
    + unfold read_at; rewrite drop_0; apply take_ge.
      rewrite !length_app, length_set_last, length_replicate, !length_enc; lia.
    + rewrite length_app, length_set_last, length_replicate, length_drop; lia.
  - by rewrite lookup_total_replicate_2 by (rewrite length_replicate; lia).
Qed.

(** One block completed by [blake_update] with the counter words of [t]. *)
Lemma update_block_H sc data t :
  length sc.(ctx_H) = 8%nat -> length sc.(ctx_S) = 4%nat ->
  (sc.(ptr) < B)%nat -> length sc.(buf) = B -> (sc.(ptr) + length data = B)%nat ->
  blake_count (READ_STATE sc) = BlakeVars sc.(ctx_H) sc.(ctx_S) (BlakeSpec.t_low P t) (BlakeSpec.t_high P t) ->
  blake_update sc data =
  BlakeCtx (take sc.(ptr) sc.(buf) ++ data) 0
    (BlakeSpec.compress P sc.(ctx_H) sc.(ctx_S) t (take sc.(ptr) sc.(buf) ++ data))
    sc.(ctx_S) (BlakeSpec.t_low P t) (BlakeSpec.t_high P t).
Proof.
  intros HH HS Hp Hb Hd Hc; rewrite blake_update_block, Hc by done.
  rewrite (COMPRESS_spec _ t); [done|done|done| |done|done].
  rewrite length_app, length_take; lia.
Qed.

Lemma counter_last l k b : (b < Bb)%nat -> l = (k * Bb + b)%nat ->
  BlakeSpec.counter P l k = (if Z.of_nat b =? 0 then 0 else Z.of_nat (k * Bb) + Z.of_nat b) /\
  BlakeSpec.counter P l (k + 1) = 0.
Proof.
  intros Hb ->; unfold BlakeSpec.counter.
  destruct (Nat.ltb_spec ((k + 1) * Bb) (k * Bb + b)); [lia|].
  destruct (Nat.ltb_spec (k * Bb) (k * Bb + b)), (Z.eqb_spec (Z.of_nat b) 0); try lia; split; lia.
Qed.

(** What the last blocks see: the length words and the counter of the message. *)
Lemma close_lengths k sc msg ub n (t := Z.of_nat (length (message msg ub n))) :
  0 <= n < 8 -> length msg = (k * B + sc.(ptr))%nat -> (sc.(ptr) < B)%nat ->
  sc.(ctx_T0) = BlakeSpec.t_low P (Z.of_nat (k * Bb)) -> sc.(ctx_T1) = BlakeSpec.t_high P (Z.of_nat (k * Bb)) ->
  let bit_len := Z.of_nat sc.(ptr) * 8 + n in
  SPH_T (sc.(ctx_T0) + bit_len) = BlakeSpec.t_low P t /\ sc.(ctx_T1) = BlakeSpec.t_high P t /\
  blake_count (READ_STATE (set_T sc (close_T sc bit_len n))) =
    BlakeVars sc.(ctx_H) sc.(ctx_S) (BlakeSpec.t_low P (BlakeSpec.counter P (Z.to_nat t) k))
      (BlakeSpec.t_high P (BlakeSpec.counter P (Z.to_nat t) k)) /\
  BlakeSpec.counter P (Z.to_nat t) (k + 1) = 0.
Proof.
  intros Hn Hm Hp H0 H1 bit_len; destruct sizes as [(_ & _ & _ & _ & HBb) _].
  assert (Hb : 0 <= bit_len < Z.of_nat Bb) by (unfold bit_len; lia).
  assert (Ht : t = Z.of_nat (k * Bb) + bit_len) by (by apply length_message).
  destruct (counter_last (Z.to_nat t) k (Z.to_nat bit_len)) as [Hc Hc1]; [lia|lia|].
  rewrite Z2Nat.id in Hc by lia; rewrite Hc, Ht.
  destruct (t_add_partial k bit_len Hb) as [-> ->]; rewrite law_T, H0, H1.
  split_and!; [|done|by apply blake_count_close; (done || lia)|by rewrite <- Ht].
  destruct (t_low_multiple k) as (j & Hj & He & Hle); pose proof (t_bound (Z.of_nat (k * Bb))).
  apply wrap_id; unfold word; lia.
Qed.

Lemma blake_close_state u iv msg sc ub n out :
  length iv = 8%nat -> words 8 msg -> ctx_absorbed P iv msg sc -> length u = B -> 0 <= n < 8 ->
  let sc' := fst (blake_close u sc ub n out) in
  sc'.(ctx_H) = BlakeSpec.iterate P iv [0; 0; 0; 0] (length (message msg ub n))
    (bytes_of_bits (BlakeSpec.pad P (out =? 8)%nat (message msg ub n))) /\
  length sc'.(buf) = B.
Proof.
  intros Hiv Hw (k & Hm & Hp & Hb & Ht & HH & HS & H0 & H1) Hu Hn.
  cbn [READ_STATE vH vS vT0 vT1] in *.
  destruct sizes as [(HB & Hlp & Hwb & Hpos & HBb) [Hwbits Hlim]].
  destruct (close_lengths k sc msg ub n) as (Htl & Hth & Hcnt & Hcnt1); [done..|].
  pose proof (length_message msg ub n k sc.(ptr) Hn Hm) as Hlen.
  pose proof (length_after (P := P) iv msg k Hiv) as HlH; rewrite <- HH in HlH.
  rewrite Nat2Z.id in Hcnt, Hcnt1; revert Hcnt Hcnt1 Hlen Hth Htl.
  set (l := length (message msg ub n)); set (bit_len := Z.of_nat sc.(ptr) * 8 + n); intros.
  unfold blake_close; fold bit_len; rewrite Htl, Hth, HB; cbn [fst].
  destruct (Z.leb_spec bit_len pad_limit) as [Hbl|Hbl].
  - rewrite close_buffer_one by (unfold bit_len in *; lia).
    rewrite (update_block_H _ _ (BlakeSpec.counter P l k)); cbn [set_T ctx_H ctx_S buf ptr]; try done; try (by rewrite HS).
    2: { rewrite !length_app, length_set_last, !length_enc; simpl; rewrite length_replicate; unfold bit_len in *; lia. }
    rewrite (pad_message _ msg ub n (len_pos - 1 - sc.(ptr)) k sc.(ptr)); [|done|done|done|unfold bit_len in *; lia|].
    2: { exists 0; unfold bit_len in *; lia. }
    fold l; rewrite (iterate_one iv msg _ k sc.(ptr)), HH, HS, Ht; [|done|unfold bit_len in *; lia|].
    + split; [done|]; rewrite !length_app, length_drop, length_set_last, !length_enc; simpl.
      rewrite length_replicate; unfold bit_len in *; lia.
    + rewrite !length_app, length_set_last, !length_enc; simpl; rewrite length_replicate; unfold bit_len in *; lia.
  - rewrite close_buffer_first by lia.
    rewrite (update_block_H (set_T sc _) _ (BlakeSpec.counter P l k)); cbn [set_T ctx_H ctx_S buf ptr]; try done; try (by rewrite HS).
    2: { cbn [length]; rewrite length_replicate; lia. }
    rewrite close_buffer_second.
    2: { rewrite length_write_at; rewrite length_insert, ?length_replicate; lia. }
    rewrite (update_block_H _ _ 0); cbn [set_T ctx_H ctx_S buf ptr]; try apply length_compress; try (by rewrite HS); try lia.
    all: try (rewrite !length_app; simpl; rewrite ?length_set_last, ?length_replicate, ?length_enc, ?length_take; lia).
    2: { apply blake_count_dummy. }
    rewrite (pad_message _ msg ub n (B - 1 - sc.(ptr) + len_pos) k sc.(ptr)); [|done|done|done|unfold bit_len in *; lia|].
    2: { exists (-1); unfold bit_len in *; lia. }
    fold l; rewrite replicate_add, app_comm_cons, set_last_app by (destruct len_pos; [lia|done]).
    rewrite <- (app_assoc (_ :: _)), (iterate_two iv msg _ _ k sc.(ptr)), Hcnt1, HH, HS, Ht.
    all: try (rewrite ?length_app; simpl; rewrite ?length_set_last, ?length_replicate, ?length_enc; unfold bit_len in *; lia).
    split; [by rewrite take_0|].
    rewrite !length_app, length_take, length_set_last, length_replicate, !length_enc; simpl; lia.
Qed.

Lemma lookups_take (h : list Z) n : (n <= length h)%nat ->
  map (fun k => h !!! k) (seq 0 n) = take n h.
Proof.
  revert h; induction n as [|n IH]; intros h Hn; [done|].
  destruct h as [|x h]; simpl in Hn; [lia|]; cbn [seq map take]; f_equal.
  rewrite <- seq_shift, map_map, <- IH by lia; done.
Qed.

Lemma length_iterate iv l bytes : length iv = 8%nat ->
  length (BlakeSpec.iterate P iv [0; 0; 0; 0] l bytes) = 8%nat.
Proof.
  intros; unfold BlakeSpec.iterate; apply (for_range_ind (fun _ h => length h = 8%nat)); [lia|done|].
  intros; apply length_compress.
Qed.

Lemma blake_close_digest u iv msg sc ub n out :
  length iv = 8%nat -> words 8 msg -> ctx_absorbed P iv msg sc -> length u = B -> 0 <= n < 8 ->
  (out <= 8)%nat ->
  snd (blake_close u sc ub n out) = BlakeSpec.hash P iv out (message msg ub n).
Proof.
  intros Hiv Hw Ha Hu Hn Ho; pose proof (proj1 (blake_close_state u iv msg sc ub n out Hiv Hw Ha Hu Hn)) as HH.
  transitivity (concat (map (fun k => enc ((fst (blake_close u sc ub n out)).(ctx_H) !!! k)) (seq 0 out))); [done|].
  rewrite HH; unfold BlakeSpec.hash; set (h := BlakeSpec.iterate _ _ _ _ _).
  rewrite <- (lookups_take h) by (unfold h; rewrite length_iterate; lia).
  rewrite map_map; f_equal; apply map_ext; intros k; by rewrite law_enc, law_wbytes.
Qed.

Lemma updates_absorbed iv chunks : length iv = 8%nat -> forall msg sc,
  ctx_absorbed P iv msg sc -> ctx_absorbed P iv (msg ++ concat chunks) (fold_left blake_update chunks sc).
Proof.
  intros Hiv; induction chunks as [|c chunks IH]; intros msg sc Ha; simpl; [by rewrite app_nil_r|].
  rewrite app_assoc; by apply IH, blake_update_absorbed.
Qed.

End Close.

(** ** The variants *)

#[export] Instance variant_laws v : BlakeLaws (version v) (spec_params v).
Proof. destruct v; simpl; apply _. Qed.

#[local] Opaque blake_update blake_close.

Lemma variant_init v sc : sph_init v sc = blake_init (variant_iv v) [0; 0; 0; 0] sc.
Proof. destruct v; reflexivity. Qed.

Lemma variant_update v : sph_update v = blake_update (BV := version v).
Proof. destruct v; reflexivity. Qed.

Lemma variant_close v u sc ub n :
  sph_addbits_and_close v u sc ub n =
  let '(sc', dst) := blake_close (BV := version v) u sc ub n (variant_out v) in (sph_init v sc', dst).
Proof. destruct v; reflexivity. Qed.

Lemma variant_reference v m :
  blake_reference v m = BlakeSpec.hash (spec_params v) (variant_iv v) (variant_out v) m.
Proof. destruct IV_spec as (H1 & H2 & H3 & H4); destruct v; simpl; rewrite ?H1, ?H2, ?H3, ?H4; reflexivity. Qed.

Lemma variant_sizes v : length (variant_iv v) = 8%nat /\ (variant_out v <= 8)%nat /\
  BlakeSpec.block_bytes (spec_params v) = context_buf_size v.
Proof. destruct v; repeat split; simpl; lia. Qed.

Lemma variant_init_absorbed v sc : length sc.(buf) = context_buf_size v ->
  ctx_absorbed (spec_params v) (variant_iv v) [] (sph_init v sc).
Proof.
  intros Hb; destruct (variant_sizes v) as (Hiv & _ & Hs); rewrite variant_init.
  apply (blake_init_absorbed (L := variant_laws v)); [done|by rewrite Hs].
Qed.

Lemma variant_digest v sc u chunks ub n :
  ctx_absorbed (spec_params v) (variant_iv v) [] sc ->
  length u = context_buf_size v -> Forall (words 8) chunks -> 0 <= n < 8 ->
  let r := sph_addbits_and_close v u (fold_left (sph_update v) chunks sc) ub n in
  snd r = blake_reference v (message (concat chunks) ub n) /\
  ctx_absorbed (spec_params v) (variant_iv v) [] (fst r).
Proof.
  intros Ha Hu Hc Hn; destruct (variant_sizes v) as (Hiv & Ho & Hs); cbv zeta.
  rewrite variant_update, variant_close, variant_reference, <- Hs in *.
  pose proof (updates_absorbed (L := variant_laws v) (variant_iv v) chunks Hiv [] sc Ha) as Hall; rewrite app_nil_l in Hall.
  assert (Hw : words 8 (concat chunks)) by (by apply Forall_concat).
  pose proof (blake_close_digest (L := variant_laws v) u _ _ _ ub n (variant_out v) Hiv Hw Hall Hu Hn Ho) as Hd.
  pose proof (blake_close_state (L := variant_laws v) u _ _ _ ub n (variant_out v) Hiv Hw Hall Hu Hn) as [_ Hb].
  destruct (blake_close _ _ _ _ _) as [sc' dst]; split; [done|].
  rewrite Hs in Hb; by apply variant_init_absorbed.
Qed.

Lemma chunks_words chunks : forallb (wordsb 8) chunks = true -> Forall (words 8) chunks.
Proof.
  induction chunks as [|c chunks IH]; simpl; intros Hc; [by apply Forall_nil_2|].
  apply andb_true_iff in Hc as [H1 H2]; apply Forall_cons_2; [by apply wordsb_spec|by apply IH].
Qed.

(** ** Theorems *)

(** C8 (refinement): whatever the context holds before the initialisation and
    however the message is split into calls of the update function, closing
    with [n] extra bits returns the digest of the BLAKE proposal for the bit
    string made of all the bytes and the [n] bits; the indeterminate bytes
    [u] of the local buffer do not matter. *)
Theorem sph_blake_digest v sc u chunks ub n :
  length sc.(buf) = context_buf_size v -> length u = context_buf_size v ->
  Forall (words 8) chunks -> 0 <= n < 8 ->
  snd (sph_addbits_and_close v u (fold_left (sph_update v) chunks (sph_init v sc)) ub n) =
  blake_reference v (message (concat chunks) ub n).
Proof. intros; by apply variant_digest; [apply variant_init_absorbed| | |]. Qed.

Lemma sph_blake_digest_witness :
  snd (sph_addbits_and_close BLAKE256 (replicate 64 1)
    (fold_left (sph_update BLAKE256) [[1; 2; 3]; replicate 70 7] (sph_init BLAKE256 (fresh_context BLAKE256))) 0xC0 3) =
  BlakeSpec.blake256 (message (concat [[1; 2; 3]; replicate 70 7]) 0xC0 3).
Proof.
  apply (sph_blake_digest BLAKE256).
  - reflexivity.
  - reflexivity.
  - apply chunks_words; reflexivity.
  - lia.
Defined.

(** Closing leaves the context initialised, so a second message
    hashed with the same context, without another initialisation, gets its
    own digest whatever the first message was. *)
Theorem sph_blake_context_reuse v sc u1 u2 chunks1 chunks2 ub1 ub2 n1 n2 :
  length sc.(buf) = context_buf_size v -> length u1 = context_buf_size v -> length u2 = context_buf_size v ->
  Forall (words 8) chunks1 -> Forall (words 8) chunks2 -> 0 <= n1 < 8 -> 0 <= n2 < 8 ->
  let sc1 := fst (sph_addbits_and_close v u1 (fold_left (sph_update v) chunks1 (sph_init v sc)) ub1 n1) in
  snd (sph_addbits_and_close v u2 (fold_left (sph_update v) chunks2 sc1) ub2 n2) =
  blake_reference v (message (concat chunks2) ub2 n2).
Proof.
  intros; apply variant_digest; try done.
  apply variant_digest; try done; by apply variant_init_absorbed.
Qed.

Lemma sph_blake_context_reuse_witness :
  let sc1 := fst (sph_addbits_and_close BLAKE512 (replicate 128 1)
    (fold_left (sph_update BLAKE512) [[1; 2]] (sph_init BLAKE512 (fresh_context BLAKE512))) 0 0) in
  snd (sph_addbits_and_close BLAKE512 (replicate 128 3) (fold_left (sph_update BLAKE512) [[9]] sc1) 0x80 1) =
  BlakeSpec.blake512 (message [9] 0x80 1).
Proof.
  apply (sph_blake_context_reuse BLAKE512 (fresh_context BLAKE512) (replicate 128 1) (replicate 128 3)
    [[1; 2]] [[9]] 0 0x80 0 1); first [reflexivity | lia | apply chunks_words; reflexivity].
Defined.

(** The compact build (loops over the [sigma] and constant
    arrays) and the unrolled build (macro tables) compute the same compression. *)
Theorem compact_build_equivalent buf v :
  COMPRESS32_compact buf v = COMPRESS32 buf v /\ COMPRESS64_compact buf v = COMPRESS64 buf v.
Proof.
  split; [apply (COMPRESS_compact_eq (L := BlakeSmall_laws))|apply (COMPRESS_compact_eq (L := BlakeBig_laws))].
Qed.

(** The initial values are the leading fractional bits of the
    square roots of the first sixteen primes, the round constants the leading
    fractional digits of pi, and every row of the message schedule a permutation. *)
Theorem blake_constants :
  IV224 = BlakeSpec.IV224 /\ IV256 = BlakeSpec.IV256 /\ IV384 = BlakeSpec.IV384 /\ IV512 = BlakeSpec.IV512 /\
  CS = BlakeSpec.c32 /\ CSx = BlakeSpec.c32 /\ CB = BlakeSpec.c64 /\ CBx = BlakeSpec.c64 /\
  Forall (fun row => row ≡ₚ seq 0 16) sigma /\
  forall r, (r < 16)%nat -> sigma !!! r = Ztab !!! (r mod 10)%nat.
Proof.
  split_and!; try match goal with |- _ = _ => vm_compute; reflexivity end.
  - apply (bool_decide_unpack _); vm_compute; exact I.
  - intros r Hr; by apply sigma_Ztab.
Qed.
