(* ===== verification/Blake2b.v ===== *)
(** BLAKE2b as used by the Merkle tree proof and Argon2:
    MerkleTreeProof/blake2/blake2b.c with the helpers of blake2-impl.h.

    A pointer that may be NULL is an [option]; a function returns its C return
    value with the new contents of what it writes.  An input buffer is a list
    of bytes together with the length the caller gives. *)

From S2P Require Import Prelude.

(** ** blake2-impl.h *)

Definition load32 (src : list Z) : Z :=
  Z.lor (src !!! 0%nat) (Z.lor (Z.shiftl (src !!! 1%nat) 8)
    (Z.lor (Z.shiftl (src !!! 2%nat) 16) (Z.shiftl (src !!! 3%nat) 24))).

Definition load64 (src : list Z) : Z :=
  Z.lor (src !!! 0%nat) (Z.lor (Z.shiftl (src !!! 1%nat) 8)
  (Z.lor (Z.shiftl (src !!! 2%nat) 16) (Z.lor (Z.shiftl (src !!! 3%nat) 24)
  (Z.lor (Z.shiftl (src !!! 4%nat) 32) (Z.lor (Z.shiftl (src !!! 5%nat) 40)
    (Z.lor (Z.shiftl (src !!! 6%nat) 48) (Z.shiftl (src !!! 7%nat) 56))))))).

Definition load64_many (src : list Z) (number_of_elements : nat) : list Z :=
  map (fun i => load64 (read_at (i * 8) 8 src)) (seq 0 number_of_elements).

Definition store32 (w : Z) : list Z :=
  let b0 := u8 w in let w := Z.shiftr w 8 in
  let b1 := u8 w in let w := Z.shiftr w 8 in
  let b2 := u8 w in let w := Z.shiftr w 8 in
  [b0; b1; b2; u8 w].

Definition store64 (w : Z) : list Z :=
  let b0 := u8 w in let w := Z.shiftr w 8 in
  let b1 := u8 w in let w := Z.shiftr w 8 in
  let b2 := u8 w in let w := Z.shiftr w 8 in
  let b3 := u8 w in let w := Z.shiftr w 8 in
  let b4 := u8 w in let w := Z.shiftr w 8 in
  let b5 := u8 w in let w := Z.shiftr w 8 in
  let b6 := u8 w in let w := Z.shiftr w 8 in
  [b0; b1; b2; b3; b4; b5; b6; u8 w].

Definition rotr64 (w c : Z) : Z := u64 (Z.lor (Z.shiftr w c) (Z.shiftl w (64 - c))).

(** [clear_internal_memory] of core.c on a buffer; the flag is set by default. *)
Definition FLAG_clear_internal_memory : bool := true.
Definition clear_internal_memory (v : list Z) : list Z :=
  if FLAG_clear_internal_memory then replicate (length v) 0 else v.

(** ** Tables and types *)

Definition BLAKE2B_BLOCKBYTES : nat := 128.
Definition BLAKE2B_OUTBYTES : nat := 64.
Definition BLAKE2B_KEYBYTES : nat := 64.

Definition blake2b_IV : list Z :=
  [0x6a09e667f3bcc908; 0xbb67ae8584caa73b; 0x3c6ef372fe94f82b; 0xa54ff53a5f1d36f1;
   0x510e527fade682d1; 0x9b05688c2b3e6c1f; 0x1f83d9abfb41bd6b; 0x5be0cd19137e2179].

Definition blake2b_sigma : list (list nat) := (
  [[0; 1; 2; 3; 4; 5; 6; 7; 8; 9; 10; 11; 12; 13; 14; 15];
   [14; 10; 4; 8; 9; 15; 13; 6; 1; 12; 0; 2; 11; 7; 5; 3];
   [11; 8; 12; 0; 5; 2; 15; 13; 10; 14; 3; 6; 7; 1; 9; 4];
   [7; 9; 3; 1; 13; 12; 11; 14; 2; 6; 5; 10; 4; 0; 15; 8];
   [9; 0; 5; 7; 2; 4; 10; 15; 14; 1; 11; 12; 6; 8; 3; 13];
   [2; 12; 6; 10; 0; 11; 8; 3; 4; 13; 7; 5; 15; 14; 1; 9];
   [12; 5; 1; 15; 14; 13; 4; 10; 0; 7; 6; 3; 9; 2; 8; 11];
   [13; 11; 7; 14; 12; 1; 3; 9; 5; 0; 15; 4; 8; 6; 2; 10];
   [6; 15; 14; 9; 11; 3; 0; 8; 12; 2; 13; 7; 1; 4; 10; 5];
   [10; 2; 8; 4; 7; 6; 1; 5; 15; 11; 9; 14; 3; 12; 13; 0];
   [0; 1; 2; 3; 4; 5; 6; 7; 8; 9; 10; 11; 12; 13; 14; 15];
   [14; 10; 4; 8; 9; 15; 13; 6; 1; 12; 0; 2; 11; 7; 5; 3]])%nat.

Record blake2b_param := Blake2bParam {
  digest_length : Z; key_length : Z; fanout : Z; depth : Z;
  leaf_length : Z; node_offset : Z; node_depth : Z; inner_length : Z;
  reserved : list Z; salt : list Z; personal : list Z
}.

Record blake2b_state := Blake2bState {
  h : list Z;
  t0 : Z; t1 : Z;
  f0 : Z; f1 : Z;
  buf : list Z;
  buflen : nat;
  outlen : nat;
  last_node : Z
}.

(** The packed bytes of the parameter block. *)
Definition param_bytes (P : blake2b_param) : list Z :=
  [P.(digest_length); P.(key_length); P.(fanout); P.(depth)] ++
  store32 P.(leaf_length) ++ store64 P.(node_offset) ++
  [P.(node_depth); P.(inner_length)] ++ P.(reserved) ++ P.(salt) ++ P.(personal).

(** ** State helpers *)

Definition UINT64_MAX : Z := 2 ^ 64 - 1.

Definition blake2b_set_lastnode (st : blake2b_state) : blake2b_state :=
  Blake2bState st.(h) st.(t0) st.(t1) st.(f0) UINT64_MAX st.(buf) st.(buflen) st.(outlen) st.(last_node).

Definition blake2b_set_lastblock (st : blake2b_state) : blake2b_state :=
  let st := if negb (st.(last_node) =? 0) then blake2b_set_lastnode st else st in
  Blake2bState st.(h) st.(t0) st.(t1) UINT64_MAX st.(f1) st.(buf) st.(buflen) st.(outlen) st.(last_node).

Definition blake2b_increment_counter (st : blake2b_state) (inc : Z) : blake2b_state :=
  let t0 := u64 (st.(t0) + inc) in
  let t1 := u64 (st.(t1) + (if t0 <? inc then 1 else 0)) in
  Blake2bState st.(h) t0 t1 st.(f0) st.(f1) st.(buf) st.(buflen) st.(outlen) st.(last_node).

(** [memset(S, 0, sizeof *S)] *)
Definition zero_state : blake2b_state :=
  Blake2bState (replicate 8 0) 0 0 0 0 (replicate BLAKE2B_BLOCKBYTES 0) 0 0 0.

Definition blake2b_invalidate_state (st : blake2b_state) : blake2b_state :=
  let st := if FLAG_clear_internal_memory then zero_state else st in
  blake2b_set_lastblock st.

Definition set_h (st : blake2b_state) (h : list Z) : blake2b_state :=
  Blake2bState h st.(t0) st.(t1) st.(f0) st.(f1) st.(buf) st.(buflen) st.(outlen) st.(last_node).

Definition set_buf (st : blake2b_state) (buf : list Z) (buflen : nat) : blake2b_state :=
  Blake2bState st.(h) st.(t0) st.(t1) st.(f0) st.(f1) buf buflen st.(outlen) st.(last_node).

Definition set_outlen (st : blake2b_state) (outlen : nat) : blake2b_state :=
  Blake2bState st.(h) st.(t0) st.(t1) st.(f0) st.(f1) st.(buf) st.(buflen) outlen st.(last_node).

Definition blake2b_init0 (st : blake2b_state) : blake2b_state :=
  set_h zero_state blake2b_IV.

(** ** Compression *)

(** The macro [G(r, i, a, b, c, d)] on the cells [a..d] of [v]. *)
Definition G (m : list Z) (r i a b c d : nat) (v : list Z) : list Z :=
  let va := v !!! a in let vb := v !!! b in let vc := v !!! c in let vd := v !!! d in
  let va := u64 (va + vb + m !!! ((blake2b_sigma !!! r) !!! (2 * i + 0)%nat)) in
  let vd := rotr64 (Z.lxor vd va) 32 in
  let vc := u64 (vc + vd) in
  let vb := rotr64 (Z.lxor vb vc) 24 in
  let va := u64 (va + vb + m !!! ((blake2b_sigma !!! r) !!! (2 * i + 1)%nat)) in
  let vd := rotr64 (Z.lxor vd va) 16 in
  let vc := u64 (vc + vd) in
  let vb := rotr64 (Z.lxor vb vc) 63 in
  <[d := vd]> (<[c := vc]> (<[b := vb]> (<[a := va]> v))).

Definition ROUND (m : list Z) (r : nat) (v : list Z) : list Z :=
  let v := G m r 0 0 4 8 12 v in
  let v := G m r 1 1 5 9 13 v in
  let v := G m r 2 2 6 10 14 v in
  let v := G m r 3 3 7 11 15 v in
  let v := G m r 4 0 5 10 15 v in
  let v := G m r 5 1 6 11 12 v in
  let v := G m r 6 2 7 8 13 v in
  G m r 7 3 4 9 14 v.

(** The vector [v] before the rounds. *)
Definition compress_v (st : blake2b_state) : list Z :=
  take 8 st.(h) ++
  [blake2b_IV !!! 0%nat; blake2b_IV !!! 1%nat; blake2b_IV !!! 2%nat; blake2b_IV !!! 3%nat;
   Z.lxor (blake2b_IV !!! 4%nat) st.(t0); Z.lxor (blake2b_IV !!! 5%nat) st.(t1);
   Z.lxor (blake2b_IV !!! 6%nat) st.(f0); Z.lxor (blake2b_IV !!! 7%nat) st.(f1)].

(** The loop that stores the chaining value. *)
Definition compress_h (h v : list Z) : list Z :=
  map (fun i => Z.lxor (Z.lxor (h !!! i) (v !!! i)) (v !!! (i + 8)%nat)) (seq 0 8).

Definition blake2b_compress (st : blake2b_state) (block : list Z) : blake2b_state :=
  let m := map (fun i => load64 (read_at (i * 8) 8 block)) (seq 0 16) in
  let v := for_range 0 12 (ROUND m) (compress_v st) in
  set_h st (compress_h st.(h) v).

Definition blake2b_4r_compress (st : blake2b_state) (block : list Z) : blake2b_state :=
  let m := load64_many block 16 in
  let v := for_range 0 4 (ROUND m) (compress_v st) in
  set_h st (compress_h st.(h) v).

(** ** Update

    [blake2b_update] and [blake2b_4r_update] are the same text up to the
    compression function they call. *)

Fixpoint update_loop (compress : blake2b_state -> list Z -> blake2b_state) (fuel : nat)
  (st : blake2b_state) (pin : list Z) : blake2b_state * list Z :=
  match fuel with
  | O => (st, pin)
  | S fuel =>
    if (BLAKE2B_BLOCKBYTES <? length pin)%nat then
      let st := blake2b_increment_counter st (Z.of_nat BLAKE2B_BLOCKBYTES) in
      let st := compress st (take BLAKE2B_BLOCKBYTES pin) in
      update_loop compress fuel st (drop BLAKE2B_BLOCKBYTES pin)
    else (st, pin)
  end.

Definition update_bytes (compress : blake2b_state -> list Z -> blake2b_state)
  (st : blake2b_state) (pin : list Z) : blake2b_state :=
  let '(st, pin) :=
    if (BLAKE2B_BLOCKBYTES <? st.(buflen) + length pin)%nat then
      let left := st.(buflen) in
      let fill := (BLAKE2B_BLOCKBYTES - left)%nat in
      let st := set_buf st (write_at left (take fill pin) st.(buf)) st.(buflen) in
      let st := blake2b_increment_counter st (Z.of_nat BLAKE2B_BLOCKBYTES) in
      let st := compress st st.(buf) in
      let st := set_buf st st.(buf) 0 in
      update_loop compress (length pin) st (drop fill pin)
    else (st, pin) in
  set_buf st (write_at st.(buflen) pin st.(buf)) (st.(buflen) + length pin).

Definition update_with (compress : blake2b_state -> list Z -> blake2b_state)
  (st : option blake2b_state) (inp : option (list Z)) (inlen : nat) : Z * option blake2b_state :=
  if (inlen =? 0)%nat then (0, st)
  else match st, inp with
  | Some s, Some pin =>
    if negb (s.(f0) =? 0) then (-1, st)
    else (0, Some (update_bytes compress s (take inlen pin)))
  | _, _ => (-1, st)
  end.

Definition blake2b_update := update_with blake2b_compress.
Definition blake2b_4r_update := update_with blake2b_4r_compress.

(** ** Initialisation *)

Definition blake2b_init_param (st : option blake2b_state) (P : option blake2b_param)
  : Z * option blake2b_state :=
  match P, st with
  | Some P, Some s =>
    let s := blake2b_init0 s in
    let p := param_bytes P in
    let h := for_range 0 8 (fun i h => <[i := Z.lxor (h !!! i) (load64 (read_at (i * 8) 8 p))]> h) s.(h) in
    (0, Some (set_outlen (set_h s h) (Z.to_nat P.(digest_length))))
  | _, _ => (-1, st)
  end.

Definition sequential_param (outlen keylen : nat) : blake2b_param :=
  Blake2bParam (u8 (Z.of_nat outlen)) (u8 (Z.of_nat keylen)) 1 1 0 0 0 0
    (replicate 14 0) (replicate 16 0) (replicate 16 0).

Definition bad_outlen (outlen : nat) : bool :=
  (outlen =? 0)%nat || (BLAKE2B_OUTBYTES <? outlen)%nat.

Definition blake2b_init (st : option blake2b_state) (outlen : nat) : Z * option blake2b_state :=
  match st with
  | None => (-1, None)
  | Some s =>
    if bad_outlen outlen then (-1, Some (blake2b_invalidate_state s))
    else blake2b_init_param st (Some (sequential_param outlen 0))
  end.

Definition blake2b_init_key (st : option blake2b_state) (outlen : nat) (key : option (list Z)) (keylen : nat)
  : Z * option blake2b_state :=
  match st with
  | None => (-1, None)
  | Some s =>
    if bad_outlen outlen then (-1, Some (blake2b_invalidate_state s))
    else match key with
    | None => (-1, Some (blake2b_invalidate_state s))
    | Some key =>
      if (keylen =? 0)%nat || (BLAKE2B_KEYBYTES <? keylen)%nat
      then (-1, Some (blake2b_invalidate_state s))
      else
        let '(ret, st) := blake2b_init_param st (Some (sequential_param outlen keylen)) in
        if ret <? 0 then (-1, blake2b_invalidate_state <$> st)
        else
          let block := write_at 0 (take keylen key) (replicate BLAKE2B_BLOCKBYTES 0) in
          let '(_, st) := blake2b_update st (Some block) BLAKE2B_BLOCKBYTES in
          (0, st)
    end
  end.

(** ** Final *)

Definition final_with (compress : blake2b_state -> list Z -> blake2b_state)
  (st : option blake2b_state) (out : option (list Z)) (outlen : nat)
  : Z * option blake2b_state * option (list Z) :=
  match st, out with
  | Some s, Some o =>
    if (outlen <? s.(Blake2b.outlen))%nat then (-1, st, out)
    else if negb (s.(f0) =? 0) then (-1, st, out)
    else
      let s := blake2b_increment_counter s (Z.of_nat s.(buflen)) in
      let s := blake2b_set_lastblock s in
      let s := set_buf s (write_at s.(buflen) (replicate (BLAKE2B_BLOCKBYTES - s.(buflen)) 0) s.(buf)) s.(buflen) in
      let s := compress s s.(buf) in
      let buffer := for_range 0 8 (fun i buffer => write_at (8 * i) (store64 (s.(h) !!! i)) buffer)
        (replicate BLAKE2B_OUTBYTES 0) in
      let o := write_at 0 (take s.(Blake2b.outlen) buffer) o in
      let s := set_buf s (clear_internal_memory s.(buf)) s.(buflen) in
      let s := set_h s (clear_internal_memory s.(h)) in
      (0, Some s, Some o)
  | _, _ => (-1, st, out)
  end.

Definition blake2b_final := final_with blake2b_compress.
Definition blake2b_4r_final := final_with blake2b_4r_compress.

(** ** One call

    [S0] is the indeterminate local state; it is wiped before returning and not
    part of the result. *)

Definition blake2b (S0 : blake2b_state) (out : option (list Z)) (outlen : nat)
  (inp : option (list Z)) (inlen : nat) (key : option (list Z)) (keylen : nat)
  : Z * option (list Z) :=
  if bool_decide (inp = None) && (0 <? inlen)%nat then (-1, out)
  else if bool_decide (out = None) || (outlen =? 0)%nat || (BLAKE2B_OUTBYTES <? outlen)%nat then (-1, out)
  else if (bool_decide (key = None) && (0 <? keylen)%nat) || (BLAKE2B_KEYBYTES <? keylen)%nat then (-1, out)
  else
    let '(ret, st) :=
      if (0 <? keylen)%nat then blake2b_init_key (Some S0) outlen key keylen
      else blake2b_init (Some S0) outlen in
    if ret <? 0 then (-1, out)
    else
      let '(ret, st) := blake2b_update st inp inlen in
      if ret <? 0 then (-1, out)
      else
        let '(ret, _, out) := blake2b_final st out outlen in
        (ret, out).

(** ** Variable-length output *)

Definition UINT32_MAX : Z := 2 ^ 32 - 1.

(** The four calls under [TRY]; [None] is the jump to [fail]. *)
Definition long_first (S0 : blake2b_state) (hashlen : nat) (outlen_bytes inp : list Z) (out : list Z)
  : option (list Z) :=
  let '(ret, st) := blake2b_init (Some S0) hashlen in
  if ret <? 0 then None
  else
    let '(ret, st) := blake2b_update st (Some outlen_bytes) (length outlen_bytes) in
    if ret <? 0 then None
    else
      let '(ret, st) := blake2b_update st (Some inp) (length inp) in
      if ret <? 0 then None
      else
        let '(ret, _, out) := blake2b_final st (Some out) hashlen in
        if ret <? 0 then None else out.

(** The loop [while (toproduce > BLAKE2B_OUTBYTES)]: the bytes emitted so far,
    the last hash and what is left to produce. *)
Fixpoint long_loop (S0 : blake2b_state) (fuel : nat) (toproduce : nat) (out_buffer emitted : list Z)
  : option (nat * list Z * list Z) :=
  match fuel with
  | O => None
  | S fuel =>
    if (BLAKE2B_OUTBYTES <? toproduce)%nat then
      let in_buffer := out_buffer in
      let '(ret, o) := blake2b S0 (Some out_buffer) BLAKE2B_OUTBYTES (Some in_buffer) BLAKE2B_OUTBYTES None 0 in
      match o with
      | Some out_buffer =>
        if ret <? 0 then None
        else long_loop S0 fuel (toproduce - BLAKE2B_OUTBYTES / 2) out_buffer
               (emitted ++ take (BLAKE2B_OUTBYTES / 2) out_buffer)
      | None => None
      end
    else Some (toproduce, out_buffer, emitted)
  end.

(** The result [Some out] is return value 0 with [outlen] bytes written,
    [None] a negative return value. *)
Definition blake2b_long (S0 : blake2b_state) (junk : list Z) (outlen : nat) (inp : list Z) : option (list Z) :=
  if (UINT32_MAX <? Z.of_nat outlen) then None
  else
    let outlen_bytes := store32 (u32 (Z.of_nat outlen)) in
    if (outlen <=? BLAKE2B_OUTBYTES)%nat then
      long_first S0 outlen outlen_bytes inp (take outlen junk)
    else
      out_buffer ← long_first S0 BLAKE2B_OUTBYTES outlen_bytes inp (take BLAKE2B_OUTBYTES junk);
      let emitted := take (BLAKE2B_OUTBYTES / 2) out_buffer in
      let toproduce := (outlen - BLAKE2B_OUTBYTES / 2)%nat in
      '(toproduce, out_buffer, emitted) ← long_loop S0 (S outlen) toproduce out_buffer emitted;
      let in_buffer := out_buffer in
      let '(ret, o) := blake2b S0 (Some out_buffer) toproduce (Some in_buffer) BLAKE2B_OUTBYTES None 0 in
      out_buffer ← o;
      if ret <? 0 then None else Some (emitted ++ take toproduce out_buffer).
