(* ===== verification/Rfc7693.v ===== *)
(** Reference definition of BLAKE2b after RFC 7693, with the number of rounds as
    a parameter, and of the variable-length hash H' of Argon2. *)

From S2P Require Import Prelude BlakeSpec.

Module Rfc7693.

(** Initial values as the fractional parts of square roots of primes. *)
Definition IV : list Z := map BlakeSpec.sqrt_frac [2; 3; 5; 7; 11; 13; 17; 19].

Definition rotr (x n : Z) : Z := wrap 64 (Z.lor (Z.shiftr x n) (Z.shiftl x (64 - n))).

(** The mixing function on the cells [a..d], with the words [x] and [y]. *)
Definition mix (a b c d : nat) (x y : Z) (v : list Z) : list Z :=
  let va := v !!! a in let vb := v !!! b in let vc := v !!! c in let vd := v !!! d in
  let va := wrap 64 (va + vb + x) in
  let vd := rotr (Z.lxor vd va) 32 in
  let vc := wrap 64 (vc + vd) in
  let vb := rotr (Z.lxor vb vc) 24 in
  let va := wrap 64 (va + vb + y) in
  let vd := rotr (Z.lxor vd va) 16 in
  let vc := wrap 64 (vc + vd) in
  let vb := rotr (Z.lxor vb vc) 63 in
  <[d := vd]> (<[c := vc]> (<[b := vb]> (<[a := va]> v))).

(** One round: eight mixings, columns then diagonals. *)
Definition round (m : list Z) (r : nat) (v : list Z) : list Z :=
  let s i := m !!! ((BlakeSpec.sigma !!! (r mod 10)%nat) !!! i) in
  for_range 0 8 (fun i v =>
    let '(a, b, c, d) := BlakeSpec.cells i in mix a b c d (s (2 * i)%nat) (s (2 * i + 1)%nat) v) v.

(** The compression function F with [rounds] rounds. *)
Definition F (rounds : nat) (h : list Z) (block : list Z) (t : Z) (last : bool) : list Z :=
  let m := map (fun i => le_word (read_at (i * 8) 8 block)) (seq 0 16) in
  let v := take 8 h ++ take 4 IV ++
    [Z.lxor (IV !!! 4%nat) (t mod 2 ^ 64); Z.lxor (IV !!! 5%nat) ((t / 2 ^ 64) mod 2 ^ 64);
     Z.lxor (IV !!! 6%nat) (if last then 2 ^ 64 - 1 else 0); IV !!! 7%nat] in
  let v := for_range 0 rounds (round m) v in
  map (fun i => Z.lxor (Z.lxor (h !!! i) (v !!! i)) (v !!! (i + 8)%nat)) (seq 0 8).

(** [h[0] ^= 0x01010000 ^ (kk << 8) ^ nn] *)
Definition init (kk nn : nat) : list Z :=
  <[0%nat := Z.lxor (IV !!! 0%nat) (0x01010000 + 256 * Z.of_nat kk + Z.of_nat nn)]> IV.

Definition zero_pad (n : nat) (l : list Z) : list Z := l ++ replicate (n - length l) 0.

(** The data: the key padded to a block, if there is one, and the message. *)
Definition data (key msg : list Z) : list Z :=
  if (length key =? 0)%nat then msg else zero_pad 128 key ++ msg.

(** The number of blocks, at least one. *)
Definition blocks (d : list Z) : nat := Nat.max 1 ((length d + 127) / 128).

Definition chain (rounds : nat) (h : list Z) (d : list Z) (k : nat) : list Z :=
  for_range 0 k (fun i h => F rounds h (read_at (i * 128) 128 d) (Z.of_nat ((i + 1) * 128)) false) h.

Definition hash (rounds nn : nat) (key msg : list Z) : list Z :=
  let d := data key msg in
  let k := (blocks d - 1)%nat in
  let h := F rounds (chain rounds (init (length key) nn) d k) (zero_pad 128 (drop (k * 128) d))
    (Z.of_nat (length d)) true in
  take nn (concat (map (le_bytes 8) h)).

(** BLAKE2b has twelve rounds. *)
Definition blake2b (nn : nat) (key msg : list Z) : list Z := hash 12 nn key msg.

(** The chain [V_1 .. V_r] of H' and its last link of the remaining length. *)
Fixpoint long_tail (fuel : nat) (v : list Z) (left : nat) : list Z :=
  match fuel with
  | O => []
  | S fuel =>
    if (left <=? 64)%nat then blake2b left [] v
    else let v := blake2b 64 [] v in take 32 v ++ long_tail fuel v (left - 32)
  end.

Definition hash_long (n : nat) (msg : list Z) : list Z :=
  let msg := le_bytes 4 (Z.of_nat n) ++ msg in
  if (n <=? 64)%nat then blake2b n [] msg
  else let v := blake2b 64 [] msg in take 32 v ++ long_tail n v (n - 32).

End Rfc7693.
