(* ===== verification/Blake2bProofs.v ===== *)
(** The BLAKE2b code against RFC 7693: compression, the streaming state, and the
    final block. *)

From S2P Require Import Prelude BlakeSpec Rfc7693 Blake2b.

(** A compression function of the code and the number of rounds it has. *)
Class CompressSpec (compress : blake2b_state -> list Z -> blake2b_state) (rounds : nat) : Prop :=
  compress_spec : forall st block t,
    length block = 128%nat -> length st.(h) = 8%nat -> st.(f1) = 0 ->
    st.(t0) = t mod 2 ^ 64 -> st.(t1) = (t / 2 ^ 64) mod 2 ^ 64 ->
    (st.(f0) = 0 -> compress st block = set_h st (Rfc7693.F rounds st.(h) block t false)) /\
    (st.(f0) = UINT64_MAX -> compress st block = set_h st (Rfc7693.F rounds st.(h) block t true)).

(** The state when the first [k] blocks of the data [d] have been compressed. *)
Record compressed (rounds kk nn : nat) (d : list Z) (k : nat) (st : blake2b_state) : Prop := {
  cmp_len : (k * 128 <= length d)%nat;
  cmp_h : st.(h) = Rfc7693.chain rounds (Rfc7693.init kk nn) d k;
  cmp_t0 : st.(t0) = Z.of_nat (k * 128) mod 2 ^ 64;
  cmp_t1 : st.(t1) = (Z.of_nat (k * 128) / 2 ^ 64) mod 2 ^ 64;
  cmp_f : st.(f0) = 0 /\ st.(f1) = 0;
  cmp_last_node : st.(last_node) = 0;
  cmp_outlen : st.(outlen) = nn;
  cmp_buf : length st.(buf) = 128%nat
}.

(** The state after the data [d] (padded key included): all but the last block,
    full or not, compressed, and the last block in the buffer. *)
Definition absorbed (rounds kk nn : nat) (d : list Z) (st : blake2b_state) : Prop :=
  exists k, compressed rounds kk nn d k st /\
    length d = (k * 128 + st.(buflen))%nat /\ (st.(buflen) <= 128)%nat /\
    (k = 0%nat \/ (0 < st.(buflen))%nat) /\ take st.(buflen) st.(buf) = drop (k * 128) d.

(** ** Words *)

Lemma load64_le l : length l = 8%nat -> load64 l = le_word l.
Proof.
  intros Hl; repeat (destruct l as [|? l]; try discriminate Hl); unfold load64; simpl.
  rewrite ?Z.shiftl_lor, ?Z.shiftl_shiftl, ?Z.shiftl_0_l, ?Z.lor_0_r by lia; reflexivity.
Qed.

Lemma load32_le l : length l = 4%nat -> load32 l = le_word l.
Proof.
  intros Hl; repeat (destruct l as [|? l]; try discriminate Hl); unfold load32; simpl.
  rewrite ?Z.shiftl_lor, ?Z.shiftl_shiftl, ?Z.shiftl_0_l, ?Z.lor_0_r by lia; reflexivity.
Qed.

Lemma store64_le x : store64 x = le_bytes 8 x.
Proof. unfold store64; simpl; by rewrite !land_255_u8. Qed.

Lemma store32_le x : store32 x = le_bytes 4 x.
Proof. unfold store32; simpl; by rewrite !land_255_u8. Qed.

(** ** Compression *)

Lemma G_mix m r i a b c d v :
  G m r i a b c d v =
  Rfc7693.mix a b c d (m !!! ((blake2b_sigma !!! r) !!! (2 * i + 0)%nat))
    (m !!! ((blake2b_sigma !!! r) !!! (2 * i + 1)%nat)) v.
Proof.
  assert (Hu : u64 = wrap 64) by reflexivity; assert (Hr : rotr64 = Rfc7693.rotr) by reflexivity.
  unfold G, Rfc7693.mix; rewrite Hu, Hr; reflexivity.
Qed.

#[local] Opaque Rfc7693.mix G.

Lemma sigma_mod r : (r < 12)%nat -> blake2b_sigma !!! r = BlakeSpec.sigma !!! (r mod 10)%nat.
Proof. intros Hr; do 12 (destruct r as [|r]; [reflexivity|]); lia. Qed.

Lemma blake2b_ROUND_spec m r v : (r < 12)%nat -> ROUND m r v = Rfc7693.round m r v.
Proof.
  intros Hr; unfold ROUND, Rfc7693.round, for_range; cbn [seq Nat.sub fold_left].
  rewrite !G_mix, sigma_mod by done; reflexivity.
Qed.

#[local] Opaque ROUND Rfc7693.round.

Lemma blake2b_rounds_spec m n v : (n <= 12)%nat -> for_range 0 n (ROUND m) v = for_range 0 n (Rfc7693.round m) v.
Proof. intros Hn; apply for_range_ext; [lia|]; intros; apply blake2b_ROUND_spec; lia. Qed.

Lemma blake2b_IV_spec : blake2b_IV = Rfc7693.IV.
Proof. vm_compute; reflexivity. Qed.

Lemma message_words block : length block = 128%nat ->
  map (fun i => load64 (read_at (i * 8) 8 block)) (seq 0 16) =
  map (fun i => le_word (read_at (i * 8) 8 block)) (seq 0 16).
Proof.
  intros Hl; apply map_ext_in; intros i Hi; apply in_seq in Hi.
  apply load64_le, length_read_at; lia.
Qed.

(** The vector of the code, when only the last-block flag may be set. *)
Lemma compress_v_spec st t last :
  st.(f1) = 0 -> st.(f0) = (if last : bool then UINT64_MAX else 0) ->
  st.(t0) = t mod 2 ^ 64 -> st.(t1) = (t / 2 ^ 64) mod 2 ^ 64 ->
  compress_v st = take 8 st.(h) ++ take 4 Rfc7693.IV ++
    [Z.lxor (Rfc7693.IV !!! 4%nat) (t mod 2 ^ 64); Z.lxor (Rfc7693.IV !!! 5%nat) ((t / 2 ^ 64) mod 2 ^ 64);
     Z.lxor (Rfc7693.IV !!! 6%nat) (if last then 2 ^ 64 - 1 else 0); Rfc7693.IV !!! 7%nat].
Proof.
  intros H1 H0 Ht0 Ht1; unfold compress_v; rewrite H1, H0, Ht0, Ht1, <- blake2b_IV_spec.
  rewrite Z.lxor_0_r; reflexivity.
Qed.

#[export] Instance compress_12 : CompressSpec blake2b_compress 12.
Proof.
  intros st block t Hb Hh H1 Ht0 Ht1; unfold blake2b_compress; rewrite message_words, blake2b_rounds_spec by lia.
  split; intros H0; [rewrite (compress_v_spec st t false)|rewrite (compress_v_spec st t true)]; done.
Qed.

#[export] Instance compress_4 : CompressSpec blake2b_4r_compress 4.
Proof.
  intros st block t Hb Hh H1 Ht0 Ht1; unfold blake2b_4r_compress, load64_many.
  rewrite message_words, blake2b_rounds_spec by lia.
  split; intros H0; [rewrite (compress_v_spec st t false)|rewrite (compress_v_spec st t true)]; done.
Qed.

Lemma length_F rounds hh block t last : length (Rfc7693.F rounds hh block t last) = 8%nat.
Proof. reflexivity. Qed.

Lemma length_chain rounds hh d k : length hh = 8%nat -> length (Rfc7693.chain rounds hh d k) = 8%nat.
Proof. intros; apply (for_range_ind (fun _ h => length h = 8%nat)); [lia|done|]; intros; apply length_F. Qed.

#[local] Opaque Rfc7693.F.

Lemma chain_app rounds hh d e k : (k * 128 <= length d)%nat ->
  Rfc7693.chain rounds hh (d ++ e) k = Rfc7693.chain rounds hh d k.
Proof.
  intros Hk; unfold Rfc7693.chain; apply for_range_ext; [lia|]; intros i h' Hi.
  unfold read_at; rewrite drop_app_le, take_app_le by (rewrite ?length_drop; lia); done.
Qed.

Lemma chain_S rounds hh d k : Rfc7693.chain rounds hh d (k + 1) =
  Rfc7693.F rounds (Rfc7693.chain rounds hh d k) (read_at (k * 128) 128 d) (Z.of_nat ((k + 1) * 128)) false.
Proof. unfold Rfc7693.chain; by rewrite for_range_S by lia. Qed.

#[local] Opaque Rfc7693.chain.

(** ** The byte counter *)

Lemma increment_spec st t inc : 0 <= t -> 0 <= inc < 2 ^ 64 ->
  st.(t0) = t mod 2 ^ 64 -> st.(t1) = (t / 2 ^ 64) mod 2 ^ 64 ->
  blake2b_increment_counter st inc =
  Blake2bState st.(h) ((t + inc) mod 2 ^ 64) (((t + inc) / 2 ^ 64) mod 2 ^ 64) st.(f0) st.(f1)
    st.(buf) st.(buflen) st.(outlen) st.(last_node).
Proof.
  intros Ht Hi H0 H1; unfold blake2b_increment_counter, u64, wrap; rewrite H0, H1.
  rewrite Zplus_mod_idemp_l, Zplus_mod_idemp_l; f_equal; f_equal.
  pose proof (Z.mod_pos_bound t (2 ^ 64) eq_refl); pose proof (Z.div_mod t (2 ^ 64) ltac:(lia)).
  destruct (Z.lt_ge_cases (t mod 2 ^ 64 + inc) (2 ^ 64)).
  - assert (E : (t + inc) mod 2 ^ 64 = t mod 2 ^ 64 + inc)
      by (symmetry; apply (Z.mod_unique _ _ (t / 2 ^ 64)); lia).
    rewrite E; destruct (Z.ltb_spec (t mod 2 ^ 64 + inc) inc); [lia|].
    apply (Z.div_unique _ _ _ (t mod 2 ^ 64 + inc)); lia.
  - assert (E : (t + inc) mod 2 ^ 64 = t mod 2 ^ 64 + inc - 2 ^ 64)
      by (symmetry; apply (Z.mod_unique _ _ (t / 2 ^ 64 + 1)); lia).
    rewrite E; destruct (Z.ltb_spec (t mod 2 ^ 64 + inc - 2 ^ 64) inc); [|lia].
    apply (Z.div_unique _ _ _ (t mod 2 ^ 64 + inc - 2 ^ 64)); lia.
Qed.

Section Stream.
Context {compress : blake2b_state -> list Z -> blake2b_state} {rounds : nat}.
Context {CS : CompressSpec compress rounds}.
Variables (kk nn : nat).

Abbreviation compressed := (compressed rounds kk nn).
Abbreviation absorbed := (absorbed rounds kk nn).

Lemma length_init : length (Rfc7693.init kk nn) = 8%nat.
Proof. reflexivity. Qed.

(** ** Update *)

Lemma compress_block d k st block :
  compressed d k st -> block = read_at (k * 128) 128 d -> length block = 128%nat ->
  let st' := compress (blake2b_increment_counter st 128) block in
  compressed d (k + 1) st' /\ st'.(buf) = st.(buf) /\ st'.(buflen) = st.(buflen).
Proof.
  intros [Hl Hh H0 H1 [Hf0 Hf1] Hn Ho Hb] Hblk Hlen; cbv zeta.
  rewrite (increment_spec _ (Z.of_nat (k * 128))) by (done || lia).
  replace (Z.of_nat (k * 128) + 128) with (Z.of_nat ((k + 1) * 128)) by lia.
  match goal with |- context [compress ?s _] =>
    destruct (compress_spec s block (Z.of_nat ((k + 1) * 128))) as [Hc _] end; cbn [h t0 t1 f0 f1]; try done.
  { rewrite Hh; apply length_chain, length_init. }
  rewrite Hc by done; unfold set_h; cbn [h t0 t1 f0 f1 buf buflen outlen last_node].
  rewrite Hh, Hblk, <- chain_S.
  assert (((k + 1) * 128 <= length d)%nat).
  { rewrite Hblk in Hlen; unfold read_at in Hlen; rewrite length_take, length_drop in Hlen; lia. }
  split_and!; [|reflexivity..]; split; auto.
Qed.

Lemma compressed_set_buf d k st b n : compressed d k st -> length b = 128%nat -> compressed d k (set_buf st b n).
Proof. intros [] Hb; split; done. Qed.

Lemma compressed_app d e k st : compressed d k st -> compressed (d ++ e) k st.
Proof.
  intros [Hl Hh H0 H1 Hf Hn Ho Hb]; split;
    [rewrite length_app; lia|by rewrite chain_app|exact H0|exact H1|exact Hf|exact Hn|exact Ho|exact Hb].
Qed.

Lemma update_loop_spec d fuel : forall k st pin,
  compressed d k st -> pin = drop (k * 128) d -> (0 < length pin <= fuel)%nat ->
  exists k', let '(st', pin') := update_loop compress fuel st pin in
  compressed d k' st' /\ pin' = drop (k' * 128) d /\ (0 < length pin' <= 128)%nat /\
  st'.(buf) = st.(buf) /\ st'.(buflen) = st.(buflen).
Proof.
  induction fuel as [|fuel IH]; intros k st pin Hc Hp Hf; cbn [update_loop]; [lia|].
  unfold BLAKE2B_BLOCKBYTES; destruct (Nat.ltb_spec 128 (length pin)) as [Hlt|Hge].
  - destruct (compress_block d k st (take 128 pin)) as (Hc' & Hb' & Hl');
      [done|by rewrite Hp|rewrite length_take; lia|].
    destruct (IH (k + 1)%nat (compress (blake2b_increment_counter st 128) (take 128 pin)) (drop 128 pin))
      as [k' Hk']; [done|rewrite Hp, drop_drop; f_equal; lia|rewrite length_drop; lia|].
    exists k'; change (Z.of_nat 128) with 128; destruct (update_loop _ _ _ _) as [st' pin'].
    by rewrite Hb', Hl' in Hk'.
  - exists k; split_and!; (done || lia).
Qed.

Lemma update_bytes_spec d st pin : absorbed d st -> (0 < length pin)%nat ->
  absorbed (d ++ pin) (update_bytes compress st pin).
Proof.
  intros (k & Hc & Hl & Hle & Hk & Ht) Hp; unfold update_bytes, BLAKE2B_BLOCKBYTES.
  pose proof (cmp_buf _ _ _ _ _ _ Hc) as Hb.
  destruct (Nat.ltb_spec 128 (st.(buflen) + length pin)) as [Hlt|Hge].
  - set (fill := (128 - st.(buflen))%nat); set (b := write_at st.(buflen) (take fill pin) st.(buf)).
    assert (Hfl : length (take fill pin) = fill) by (rewrite length_take; unfold fill; lia).
    assert (Hbl : length b = 128%nat) by (unfold b; rewrite length_write_at; unfold fill in *; lia).
    assert (Hblk : b = read_at (k * 128) 128 (d ++ pin)).
    { unfold b, read_at; rewrite write_at_end, Ht, drop_app_le, take_app by (unfold fill in *; lia).
      rewrite (take_ge (drop _ _)) by (rewrite length_drop; lia); do 2 f_equal.
      rewrite length_drop; unfold fill; lia. }
    destruct (compress_block (d ++ pin) k (set_buf st b st.(buflen)) b) as (Hc' & Hb' & Hl');
      [by apply compressed_set_buf, Hbl; apply compressed_app|done|done|].
    cbn [set_buf buf buflen] in Hb', Hl'.
    change (buf (set_buf st b (buflen st))) with b; change (Z.of_nat 128) with 128.
    set (st1 := compress (blake2b_increment_counter (set_buf st b (buflen st)) 128) _) in *.
    assert (Hdrop : drop fill pin = drop ((k + 1) * 128) (d ++ pin)).
    { rewrite drop_app_ge by lia; f_equal; unfold fill; lia. }
    destruct (update_loop_spec (d ++ pin) (length pin) (k + 1) (set_buf st1 (buf st1) 0) (drop fill pin))
      as [k' Hk']; [by apply compressed_set_buf; [|rewrite Hb']|done|rewrite length_drop; unfold fill in *; lia|].
    change (buf (blake2b_increment_counter (set_buf st b (buflen st)) 128)) with b; fold st1.
    destruct (update_loop _ _ _ _) as [st2 pin2]; destruct Hk' as (Hc2 & Hp2 & Hl2 & Hb2 & Hbl2).
    cbn [set_buf buf buflen] in Hb2, Hbl2; rewrite Hb' in Hb2.
    assert (Hp2len : length (d ++ pin) = (k' * 128 + length pin2)%nat).
    { pose proof (cmp_len _ _ _ _ _ _ Hc2); rewrite Hp2, length_drop in *; lia. }
    exists k'; rewrite Hbl2; cbn [set_buf buf buflen]; split_and!; try lia.
    + apply compressed_set_buf; [done|]; rewrite length_write_at; rewrite Hb2; lia.
    + rewrite (take_write_at 0 pin2) by (rewrite Hb2; lia); by rewrite take_0.
  - exists k; cbn [set_buf buf buflen]; rewrite length_app; split_and!; try lia.
    + apply compressed_set_buf; [by apply compressed_app|]; rewrite length_write_at; lia.
    + rewrite take_write_at, Ht, drop_app_le by lia; done.
Qed.

End Stream.
