(* ===== verification/Blake2bTheorems.v ===== *)
(** The properties of the BLAKE2b component: initialisation, final block, the
    streaming and one-call interfaces against RFC 7693, misuse of a finished
    state, and the variable-length hash. *)

From S2P Require Import Prelude BlakeSpec Rfc7693 Blake2b Blake2bProofs.

(** The update and final functions of the two variants, and their rounds. *)
Inductive blake2b_variant := Full | FourRounds.

Definition b2_rounds (v : blake2b_variant) : nat := match v with Full => 12 | FourRounds => 4 end.
Definition b2_update (v : blake2b_variant) := match v with Full => blake2b_update | FourRounds => blake2b_4r_update end.
Definition b2_final (v : blake2b_variant) := match v with Full => blake2b_final | FourRounds => blake2b_4r_final end.
Definition b2_compress (v : blake2b_variant) := match v with Full => blake2b_compress | FourRounds => blake2b_4r_compress end.

(** A caller of the streaming interface that stops at the first error. *)
Definition b2_stream (v : blake2b_variant) (S0 : blake2b_state) (nn : nat) (chunks : list (list Z))
  (out : list Z) : option (list Z) :=
  let '(ret, st) := blake2b_init (Some S0) nn in
  if ret <? 0 then None
  else
    st ← fold_leftM (fun st c =>
      let '(ret, st) := b2_update v st (Some c) (length c) in
      if ret <? 0 then None else Some st) chunks st;
    let '(ret, _, out) := b2_final v st (Some out) (length out) in
    if ret <? 0 then None else out.

(** The arguments [blake2b] accepts. *)
Definition blake2b_args_ok (out : option (list Z)) (outlen : nat) (inp : option (list Z)) (inlen : nat)
  (key : option (list Z)) (keylen : nat) : bool :=
  (negb (bool_decide (inp = None)) || (inlen =? 0)%nat) &&
  negb (bool_decide (out = None)) && (1 <=? outlen)%nat && (outlen <=? 64)%nat &&
  (negb (bool_decide (key = None)) || (keylen =? 0)%nat) && (keylen <=? 64)%nat.

(** The digest of the data [d], whose first block is the key if there is one. *)
Definition digest (rounds kk nn : nat) (d : list Z) : list Z :=
  let k := (Rfc7693.blocks d - 1)%nat in
  take nn (concat (map (le_bytes 8) (Rfc7693.F rounds (Rfc7693.chain rounds (Rfc7693.init kk nn) d k)
    (Rfc7693.zero_pad 128 (drop (k * 128) d)) (Z.of_nat (length d)) true))).

(** ** Initialisation *)

Definition init_h (outlen keylen : nat) : list Z :=
  for_range 0 8 (fun i h => <[i := Z.lxor (h !!! i)
    (load64 (read_at (i * 8) 8 (param_bytes (sequential_param outlen keylen))))]> h) blake2b_IV.

Lemma init_h_spec nn kk : (nn <= 64)%nat -> (kk <= 64)%nat -> init_h nn kk = Rfc7693.init kk nn.
Proof.
  intros Hn Hk; unfold Rfc7693.init; rewrite <- blake2b_IV_spec.
  assert (Hall : forallb (fun nn => forallb (fun kk => bool_decide (init_h nn kk =
    <[0%nat := Z.lxor (blake2b_IV !!! 0%nat) (0x01010000 + 256 * Z.of_nat kk + Z.of_nat nn)]> blake2b_IV))
    (seq 0 65)) (seq 0 65) = true) by (vm_compute; reflexivity).
  rewrite forallb_forall in Hall; specialize (Hall nn ltac:(apply in_seq; lia)).
  rewrite forallb_forall in Hall; specialize (Hall kk ltac:(apply in_seq; lia)).
  by apply bool_decide_eq_true in Hall.
Qed.

Lemma init_param_spec st nn kk : (nn <= 64)%nat -> (kk <= 64)%nat ->
  blake2b_init_param (Some st) (Some (sequential_param nn kk)) =
  (0, Some (Blake2bState (Rfc7693.init kk nn) 0 0 0 0 (replicate 128 0) 0 nn 0)).
Proof.
  intros Hn Hk; unfold blake2b_init_param; cbn [blake2b_init0 set_h h zero_state].
  change (for_range 0 8 _ _) with (init_h nn kk); rewrite init_h_spec by done.
  unfold set_outlen; cbn [h t0 t1 f0 f1 buf buflen outlen last_node sequential_param digest_length].
  unfold u8; rewrite wrap_id by (unfold word; lia); by rewrite Nat2Z.id.
Qed.

Lemma bad_outlen_false nn : (1 <= nn <= 64)%nat -> bad_outlen nn = false.
Proof.
  intros; unfold bad_outlen, BLAKE2B_OUTBYTES.
  destruct (Nat.eqb_spec nn 0), (Nat.ltb_spec 64 nn); (lia || done).
Qed.

Lemma init_absorbed rounds nn kk : 
  absorbed rounds kk nn [] (Blake2bState (Rfc7693.init kk nn) 0 0 0 0 (replicate 128 0) 0 nn 0).
Proof. exists 0%nat; split_and!; [split; try done; simpl; lia|simpl; lia..|by left|done]. Qed.

Lemma blake2b_init_spec st nn : (1 <= nn <= 64)%nat ->
  exists st', blake2b_init (Some st) nn = (0, Some st') /\ forall rounds, absorbed rounds 0 nn [] st'.
Proof.
  intros Hn; eexists; split; [|intros; apply init_absorbed].
  unfold blake2b_init; rewrite bad_outlen_false by done; apply init_param_spec; lia.
Qed.

(** ** Update and final *)

#[export] Instance variant_compress v : CompressSpec (b2_compress v) (b2_rounds v).
Proof. destruct v; apply _. Qed.

Lemma update_spec compress rounds `{!CompressSpec compress rounds} kk nn d st c :
  absorbed rounds kk nn d st ->
  exists st', update_with compress (Some st) (Some c) (length c) = (0, Some st') /\
    absorbed rounds kk nn (d ++ c) st'.
Proof.
  intros Ha; unfold update_with; destruct (Nat.eqb_spec (length c) 0) as [Hz|Hz].
  { destruct c; [|discriminate]; exists st; by rewrite app_nil_r. }
  assert (Hf : f0 st = 0) by (destruct Ha as (k & Hc & _); apply (cmp_f _ _ _ _ _ _ Hc)).
  rewrite Hf, take_ge by lia; eexists; split; [done|]; apply update_bytes_spec; [done|lia].
Qed.

(** The loop of [blake2b_final] that stores the chaining value. *)
Lemma store_loop hh : length hh = 8%nat ->
  for_range 0 8 (fun i buffer => write_at (8 * i) (store64 (hh !!! i)) buffer) (replicate 64 0) =
  concat (map (le_bytes 8) hh).
Proof.
  intros Hl.
  cut (for_range 0 8 (fun i buffer => write_at (8 * i) (store64 (hh !!! i)) buffer) (replicate 64 0) =
    concat (map (le_bytes 8) (take 8 hh)) ++ replicate (64 - 8 * 8) 0).
  { rewrite take_ge, app_nil_r by lia; done. }
  apply (for_range_ind (fun i b => b = concat (map (le_bytes 8) (take i hh)) ++ replicate (64 - 8 * i) 0)
    0 8); [lia|done|]; intros i b Hi ->.
  assert (Hlen : forall l, length (concat (map (le_bytes 8) l)) = (8 * length l)%nat)
    by (induction l as [|x l IH]; [done|]; cbn [map concat length]; rewrite length_app, length_le_bytes, IH; lia).
  rewrite write_at_app by (rewrite Hlen, length_take; lia).
  rewrite store64_le, length_le_bytes, drop_replicate, Nat.add_1_r.
  rewrite (take_S_r hh i (hh !!! i)) by (apply list_lookup_lookup_total_lt; lia).
  rewrite map_app, concat_app; cbn [map concat]; rewrite app_nil_r, <- app_assoc; do 3 f_equal; lia.
Qed.

Lemma length_digest hh : length hh = 8%nat -> length (concat (map (le_bytes 8) hh)) = 64%nat.
Proof. intros; do 9 (destruct hh as [|? hh]; try discriminate); reflexivity. Qed.

Lemma blocks_last d k b : length d = (k * 128 + b)%nat -> (b <= 128)%nat -> (k = 0 \/ 0 < b)%nat ->
  (Rfc7693.blocks d - 1)%nat = k.
Proof.
  intros Hl Hb Hk; unfold Rfc7693.blocks; rewrite Hl.
  destruct (Nat.eq_dec b 0%nat) as [->|Hz].
  - assert (k = 0%nat) as -> by lia; done.
  - replace (k * 128 + b + 127)%nat with ((b - 1) + (k + 1) * 128)%nat by lia.
    rewrite Nat.div_add, Nat.div_small by lia; lia.
Qed.

#[local] Opaque Rfc7693.F Rfc7693.chain Rfc7693.init.

Lemma final_spec compress rounds `{!CompressSpec compress rounds} kk nn d st o olen :
  absorbed rounds kk nn d st -> (nn <= 64)%nat -> (nn <= olen <= length o)%nat ->
  exists st', final_with compress (Some st) (Some o) olen =
    (0, Some st', Some (digest rounds kk nn d ++ drop nn o)) /\
    st'.(f0) = UINT64_MAX /\ st'.(h) = replicate 8 0 /\ st'.(buf) = replicate 128 0.
Proof.
  intros (k & [Hl Hh H0 H1 [Hf0 Hf1] Hn Ho Hb] & Hd & Hle & Hk & Ht) Hnn Hlen.
  unfold final_with; rewrite Ho, Hf0; destruct (Nat.ltb_spec olen nn); [lia|]; cbn [negb Z.eqb].
  rewrite (increment_spec _ (Z.of_nat (k * 128))) by (done || lia).
  replace (Z.of_nat (k * 128) + Z.of_nat (buflen st)) with (Z.of_nat (length d)) by lia.
  unfold blake2b_set_lastblock; cbn [last_node]; rewrite Hn; cbn [Z.eqb negb].
  unfold set_buf; cbn [h t0 t1 f0 f1 buf buflen outlen last_node]; unfold BLAKE2B_BLOCKBYTES.
  set (b := write_at (buflen st) (replicate (128 - buflen st) 0) (buf st)).
  assert (Hbl : length b = 128%nat) by (unfold b; rewrite length_write_at; rewrite ?length_replicate; lia).
  assert (Hbz : b = Rfc7693.zero_pad 128 (drop (k * 128) d)).
  { unfold b, Rfc7693.zero_pad; rewrite write_at_end, Ht, length_drop by (rewrite length_replicate; lia).
    do 2 f_equal; lia. }
  match goal with |- context [compress ?s _] =>
    destruct (compress_spec s b (Z.of_nat (length d))) as [_ Hc] end; cbn [h t0 t1 f0 f1]; try done.
  { rewrite Hh; apply length_chain; reflexivity. }
  rewrite Hc by done; unfold set_h; cbn [h t0 t1 f0 f1 buf buflen outlen last_node].
  rewrite store_loop by apply length_F.
  match goal with |- context [write_at 0 ?x o] => assert (Hout : write_at 0 x o = digest rounds kk nn d ++ drop nn o) end.
  { unfold write_at; rewrite take_0, Ho, app_nil_l, Nat.add_0_l, length_take, length_digest, Nat.min_l
      by (done || apply length_F).
    f_equal; unfold digest; rewrite (blocks_last d k (buflen st)), Hbz, Hh by done; done. }
  rewrite Hout; eexists; split; [reflexivity|]; cbn [h f0 buf].
  unfold clear_internal_memory; cbn [FLAG_clear_internal_memory]; by rewrite length_F, Hbl.
Qed.

Lemma digest_hash rounds nn key msg :
  digest rounds (length key) nn (Rfc7693.data key msg) = Rfc7693.hash rounds nn key msg.
Proof. reflexivity. Qed.

Lemma length_hash rounds nn key msg : (nn <= 64)%nat -> length (Rfc7693.hash rounds nn key msg) = nn.
Proof.
  intros; unfold Rfc7693.hash; rewrite length_take, length_digest by apply length_F; lia.
Qed.

Lemma updates_spec v nn d st chunks : absorbed (b2_rounds v) 0 nn d st ->
  exists st', fold_leftM (fun st c =>
      let '(ret, st) := b2_update v st (Some c) (length c) in
      if ret <? 0 then None else Some st) chunks (Some st) = Some (Some st') /\
    absorbed (b2_rounds v) 0 nn (d ++ concat chunks) st'.
Proof.
  revert d st; induction chunks as [|c chunks IH]; intros d st Ha.
  { exists st; split; [done|]; by rewrite app_nil_r. }
  destruct (update_spec (b2_compress v) (b2_rounds v) 0 nn d st c Ha) as (st' & Hu & Ha').
  destruct (IH _ _ Ha') as (st'' & Hf & Ha''); exists st''.
  rewrite fold_leftM_cons; replace (b2_update v) with (update_with (b2_compress v)) by (by destruct v).
  rewrite Hu; split; [by destruct v|]; cbn [concat]; by rewrite app_assoc.
Qed.

Lemma init_key_spec st nn key : (1 <= nn <= 64)%nat -> (1 <= length key <= 64)%nat ->
  exists st', blake2b_init_key (Some st) nn (Some key) (length key) = (0, Some st') /\
    absorbed 12 (length key) nn (Rfc7693.zero_pad 128 key) st'.
Proof.
  intros Hn Hk; unfold blake2b_init_key; rewrite bad_outlen_false, init_param_spec by lia.
  unfold BLAKE2B_KEYBYTES, BLAKE2B_BLOCKBYTES.
  destruct (Nat.eqb_spec (length key) 0), (Nat.ltb_spec 64 (length key)); try lia; cbn [orb Z.ltb Z.compare].
  assert (Hb : write_at 0 (take (length key) key) (replicate 128 0) = Rfc7693.zero_pad 128 key).
  { unfold write_at, Rfc7693.zero_pad; rewrite take_0, take_ge, drop_replicate by lia; done. }
  assert (Hl : length (Rfc7693.zero_pad 128 key) = 128%nat).
  { unfold Rfc7693.zero_pad; rewrite length_app, length_replicate; lia. }
  rewrite Hb; destruct (update_spec blake2b_compress 12 (length key) nn [] _ (Rfc7693.zero_pad 128 key)
    (init_absorbed 12 nn (length key))) as (st' & Hu & Ha); rewrite Hl in Hu.
  exists st'; unfold blake2b_update; rewrite Hu; done.
Qed.


(** The call of [blake2b] when the arguments are accepted. *)
Lemma blake2b_ok S0 o nn inp inlen key keylen msg k :
  (1 <= nn <= 64)%nat -> (nn <= length o)%nat ->
  (inp = Some msg /\ inlen = length msg \/ msg = [] /\ inlen = 0%nat) ->
  (key = Some k /\ keylen = length k /\ (length k <= 64)%nat \/ k = [] /\ keylen = 0%nat) ->
  blake2b S0 (Some o) nn inp inlen key keylen = (0, Some (Rfc7693.blake2b nn k msg ++ drop nn o)).
Proof.
  intros Hn Ho Hi Hk.
  assert (Hinit : exists st', (if (0 <? keylen)%nat then blake2b_init_key (Some S0) nn key keylen
    else blake2b_init (Some S0) nn) = (0, Some st') /\ absorbed 12 (length k) nn (Rfc7693.data k []) st').
  { unfold Rfc7693.data; destruct (Nat.eqb_spec (length k) 0) as [Hz|Hz].
    - assert (keylen = 0%nat) as -> by (destruct Hk as [(? & ? & ?)|[? ?]]; lia).
      destruct (blake2b_init_spec S0 nn Hn) as (st' & Hs & Ha); exists st'; rewrite Hz; by split.
    - destruct Hk as [(-> & -> & Hle)|[-> _]]; [|simpl in Hz; lia].
      destruct (Nat.ltb_spec 0 (length k)); [|lia].
      destruct (init_key_spec S0 nn k) as (st' & Hs & Ha); [lia|lia|]; exists st'; by rewrite app_nil_r. }
  destruct Hinit as (st1 & Hs1 & Ha1).
  assert (Hupd : exists st', blake2b_update (Some st1) inp inlen = (0, Some st') /\
    absorbed 12 (length k) nn (Rfc7693.data k msg) st').
  { assert (Hd : Rfc7693.data k msg = Rfc7693.data k [] ++ msg).
    { unfold Rfc7693.data; destruct (length k =? 0)%nat; [done|]; by rewrite app_nil_r. }
    rewrite Hd; destruct Hi as [[-> ->]|[-> ->]]; [exact (update_spec blake2b_compress 12 _ _ _ _ _ Ha1)|].
    exists st1; rewrite app_nil_r; split; [reflexivity|exact Ha1]. }
  destruct Hupd as (st2 & Hs2 & Ha2).
  destruct (final_spec blake2b_compress 12 (length k) nn _ st2 o nn Ha2) as (st3 & Hs3 & _); [lia|lia|].
  unfold blake2b, BLAKE2B_OUTBYTES, BLAKE2B_KEYBYTES.
  rewrite (bool_decide_eq_false_2 (Some o = None)) by done.
  assert (Hkl : (keylen <= 64)%nat) by (destruct Hk as [(_ & -> & ?)|[_ ->]]; lia).
  destruct (Nat.eqb_spec nn 0), (Nat.ltb_spec 64 nn), (Nat.ltb_spec 64 keylen); try lia.
  - assert (E1 : bool_decide (inp = None) && (0 <? inlen)%nat = false).
    { destruct Hi as [[-> ->]|[_ ->]]; [done|]; apply andb_false_r. }
    assert (E2 : bool_decide (key = None) && (0 <? keylen)%nat = false).
    { destruct Hk as [(-> & _)|[_ ->]]; [done|]; apply andb_false_r. }
    rewrite E1, E2; cbn [orb]; rewrite Hs1; cbn [Z.ltb Z.compare]; rewrite Hs2; cbn [Z.ltb Z.compare].
    unfold blake2b_final; rewrite Hs3, digest_hash; done.
Qed.

(** ** Rejected calls *)

Lemma args_ok_guards out outlen inp inlen key keylen :
  blake2b_args_ok out outlen inp inlen key keylen = negb (
    (bool_decide (inp = None) && (0 <? inlen)%nat) ||
    (bool_decide (out = None) || (outlen =? 0)%nat || (BLAKE2B_OUTBYTES <? outlen)%nat) ||
    ((bool_decide (key = None) && (0 <? keylen)%nat) || (BLAKE2B_KEYBYTES <? keylen)%nat)).
Proof.
  unfold blake2b_args_ok, BLAKE2B_OUTBYTES, BLAKE2B_KEYBYTES.
  assert (H0 : forall n, (n =? 0)%nat = negb (0 <? n)%nat) by (by intros []).
  assert (H1 : (1 <=? outlen)%nat = negb (outlen =? 0)%nat) by (by destruct outlen).
  rewrite H1, !(H0 inlen), !(H0 keylen), (Nat.leb_antisym 64 outlen), (Nat.leb_antisym 64 keylen); btauto.
Qed.

Lemma blake2b_rejects S0 out outlen inp inlen key keylen :
  blake2b_args_ok out outlen inp inlen key keylen = false ->
  blake2b S0 out outlen inp inlen key keylen = (-1, out).
Proof.
  rewrite args_ok_guards; unfold blake2b.
  destruct (bool_decide (inp = None) && _); [done|].
  destruct (bool_decide (out = None) || _ || _); [done|].
  destruct (bool_decide (key = None) && _ || _); done.
Qed.

Lemma update_rejects compress st inp inlen : (st.(f0) =? 0) = false -> inlen <> 0%nat ->
  update_with compress (Some st) inp inlen = (-1, Some st).
Proof.
  intros Hf Hz; unfold update_with; apply Nat.eqb_neq in Hz as ->; rewrite Hf; by destruct inp.
Qed.

Lemma final_rejects compress st out olen : (st.(f0) =? 0) = false ->
  final_with compress (Some st) out olen = (-1, Some st, out).
Proof. intros Hf; unfold final_with; rewrite Hf; destruct out; [|done]; by destruct (olen <? _)%nat. Qed.

Lemma wiped l : Forall (eq 0) (clear_internal_memory l).
Proof. by apply Forall_replicate. Qed.

Lemma compress_f0 v st block : f0 (b2_compress v st block) = f0 st.
Proof. destruct v; reflexivity. Qed.

Lemma final_wipes v st out olen st' out' :
  final_with (b2_compress v) (Some st) out olen = (0, Some st', out') ->
  st'.(f0) <> 0 /\ Forall (eq 0) st'.(h) /\ Forall (eq 0) st'.(buf).
Proof.
  unfold final_with; destruct out as [o|]; [|done]; destruct (olen <? _)%nat; [done|].
  destruct (negb (f0 st =? 0)); [done|]; intros [= <- <-]; cbn [set_h set_buf h buf f0].
  rewrite compress_f0; split_and!; [done|apply wiped..].
Qed.

Lemma bad_outlen_true nn : (nn = 0 \/ 64 < nn)%nat -> bad_outlen nn = true.
Proof.
  intros Hn; unfold bad_outlen, BLAKE2B_OUTBYTES.
  destruct (Nat.eqb_spec nn 0), (Nat.ltb_spec 64 nn); (lia || done).
Qed.

Lemma bad_keylen_true n : (n = 0 \/ 64 < n)%nat -> (n =? 0)%nat || (BLAKE2B_KEYBYTES <? n)%nat = true.
Proof. apply bad_outlen_true. Qed.

(** ** Variable-length output *)

Lemma long_first_spec S0 nn lenb inp o : (1 <= nn <= 64)%nat -> length o = nn ->
  long_first S0 nn lenb inp o = Some (Rfc7693.blake2b nn [] (lenb ++ inp)).
Proof.
  intros Hn Ho; unfold long_first.
  destruct (blake2b_init_spec S0 nn Hn) as (st1 & -> & Ha1); cbn [Z.ltb Z.compare].
  unfold blake2b_update.
  destruct (update_spec blake2b_compress 12 0 nn [] st1 lenb (Ha1 12%nat)) as (st2 & -> & Ha2); cbn [Z.ltb Z.compare].
  destruct (update_spec blake2b_compress 12 0 nn _ st2 inp Ha2) as (st3 & -> & Ha3); cbn [Z.ltb Z.compare].
  unfold blake2b_final.
  destruct (final_spec blake2b_compress 12 0 nn _ st3 o nn Ha3) as (st4 & -> & _); [lia|lia|]; cbn [Z.ltb Z.compare].
  by rewrite drop_ge, app_nil_r by lia.
Qed.

Lemma blake2b_link S0 o v nn : length o = 64%nat -> length v = 64%nat -> (1 <= nn <= 64)%nat ->
  blake2b S0 (Some o) nn (Some v) BLAKE2B_OUTBYTES None 0 = (0, Some (Rfc7693.blake2b nn [] v ++ drop nn o)).
Proof.
  intros Ho Hv Hn; apply blake2b_ok; [done|lia|left; by rewrite Hv|by right].
Qed.

Lemma length_blake2b nn key msg : (nn <= 64)%nat -> length (Rfc7693.blake2b nn key msg) = nn.
Proof. apply length_hash. Qed.

#[local] Opaque Rfc7693.blake2b blake2b.

(** The loop and the last call, against the chain of the reference. *)
Lemma long_loop_spec S0 fuel : forall left v emitted, (32 < left <= fuel)%nat -> length v = 64%nat ->
  exists left' v' emitted', long_loop S0 fuel left v emitted = Some (left', v', emitted') /\
    length v' = 64%nat /\ (32 < left' <= 64)%nat /\
    emitted ++ Rfc7693.long_tail fuel v left = emitted' ++ Rfc7693.blake2b left' [] v'.
Proof.
  induction fuel as [|fuel IH]; intros left v emitted Hl Hv; [lia|].
  cbn [long_loop Rfc7693.long_tail]; unfold BLAKE2B_OUTBYTES at 1.
  destruct (Nat.ltb_spec 64 left) as [Hlt|Hge].
  - rewrite blake2b_link by (done || unfold BLAKE2B_OUTBYTES; lia); cbn [Z.ltb Z.compare].
    unfold BLAKE2B_OUTBYTES; rewrite drop_ge, app_nil_r by lia; change (64 / 2)%nat with 32%nat.
    destruct (Nat.leb_spec left 64); [lia|].
    assert (Hlen : length (Rfc7693.blake2b 64 [] v) = 64%nat) by (by apply length_blake2b).
    destruct (IH (left - 32)%nat (Rfc7693.blake2b 64 [] v) (emitted ++ take 32 (Rfc7693.blake2b 64 [] v)))
      as (left' & v' & e' & Hr & Hv' & Hl' & Heq); [lia|done|].
    exists left', v', e'; split_and!; try done; [lia..|by rewrite <- Heq, <- app_assoc].
  - exists left, v, emitted; destruct (Nat.leb_spec left 64); [|lia]; split_and!; (done || lia).
Qed.

Lemma long_tail_fuel fuel1 fuel2 : forall v left, (32 < left <= fuel1)%nat -> (left <= fuel2)%nat ->
  Rfc7693.long_tail fuel1 v left = Rfc7693.long_tail fuel2 v left.
Proof.
  revert fuel2; induction fuel1 as [|f1 IH]; intros [|f2] v left H1 H2; try lia; cbn [Rfc7693.long_tail].
  destruct (Nat.leb_spec left 64); [done|]; f_equal; apply IH; lia.
Qed.

Lemma blake2b_long_spec S0 junk n inp : (64 <= length junk)%nat -> (1 <= n)%nat -> Z.of_nat n < 2 ^ 32 ->
  blake2b_long S0 junk n inp = Some (Rfc7693.hash_long n inp).
Proof.
  intros Hj Hn H32; unfold blake2b_long, Rfc7693.hash_long, UINT32_MAX.
  destruct (Z.ltb_spec (2 ^ 32 - 1) (Z.of_nat n)); [lia|].
  rewrite store32_le; unfold u32; rewrite wrap_id by (unfold word; lia); unfold BLAKE2B_OUTBYTES.
  destruct (Nat.leb_spec n 64) as [Hle|Hgt].
  { apply long_first_spec; [lia|rewrite length_take; lia]. }
  rewrite long_first_spec by (rewrite ?length_take; lia); cbn [mbind option_bind]; change (64 / 2)%nat with 32%nat.
  set (v := Rfc7693.blake2b 64 [] _); assert (Hv : length v = 64%nat) by (by apply length_blake2b).
  destruct (long_loop_spec S0 (S n) (n - 32) v (take 32 v)) as (left & v' & e' & -> & Hv' & Hl & Heq); [lia|done|].
  pose proof (blake2b_link S0 v' v' left) as Hlink; unfold BLAKE2B_OUTBYTES in Hlink.
  cbn [mbind option_bind]; rewrite Hlink by (done || lia); cbn [mbind option_bind Z.ltb Z.compare].
  rewrite take_app_le, take_ge by (rewrite length_blake2b; lia).
  by rewrite <- Heq, (long_tail_fuel n (S n)) by lia.
Qed.

Lemma length_long_tail fuel : forall v left, (32 < left <= fuel)%nat -> length (Rfc7693.long_tail fuel v left) = left.
Proof.
  induction fuel as [|fuel IH]; intros v left Hl; [lia|]; cbn [Rfc7693.long_tail].
  destruct (Nat.leb_spec left 64); [by apply length_blake2b|].
  rewrite length_app, length_take, length_blake2b, IH by lia; lia.
Qed.

Lemma length_hash_long n msg : (1 <= n)%nat -> length (Rfc7693.hash_long n msg) = n.
Proof.
  intros Hn; unfold Rfc7693.hash_long; destruct (Nat.leb_spec n 64); [by apply length_blake2b|].
  rewrite length_app, length_take, length_blake2b, length_long_tail by lia; lia.
Qed.

(** ** Theorems *)

(** C9 (refinement): initialising for a digest of 1 to 64 bytes, feeding the
    message in any number of pieces of any sizes and finishing never fails
    and writes the BLAKE2b digest of RFC 7693 (12 rounds, or the 4-round
    variant) to the front of the output buffer, leaving the rest of it. *)
Theorem blake2b_streaming v S0 nn chunks out :
  (1 <= nn <= 64)%nat -> (nn <= length out)%nat ->
  b2_stream v S0 nn chunks out =
  Some (Rfc7693.hash (b2_rounds v) nn [] (concat chunks) ++ drop nn out).
Proof.
  intros Hn Ho; unfold b2_stream; destruct (blake2b_init_spec S0 nn Hn) as (st1 & -> & Ha1); cbn [Z.ltb Z.compare].
  destruct (updates_spec v nn [] st1 chunks (Ha1 _)) as (st2 & -> & Ha2); cbn [mbind option_bind].
  replace (b2_final v) with (final_with (b2_compress v)) by (by destruct v).
  destruct (final_spec (b2_compress v) (b2_rounds v) 0 nn _ st2 out (length out) Ha2) as (st3 & -> & _); [lia|lia|done].
Qed.

Lemma blake2b_streaming_witness :
  b2_stream FourRounds zero_state 32 [[1; 2; 3]; replicate 300 5; []] (replicate 40 0xEE) =
  Some (Rfc7693.hash 4 32 [] (concat [[1; 2; 3]; replicate 300 5; []]) ++ drop 32 (replicate 40 0xEE)).
Proof.
  apply (blake2b_streaming FourRounds zero_state 32).
  - lia.
  - simpl; lia.
Defined.

(** The one-call function returns 0 with the RFC 7693 digest, keyed
    or not, exactly when its arguments are acceptable; in every other case
    it returns -1 and leaves the output buffer alone. *)
Theorem blake2b_one_call S0 out outlen inp inlen key keylen :
  (forall o, out = Some o -> length o = outlen) ->
  (forall m, inp = Some m -> length m = inlen) -> (forall k, key = Some k -> length k = keylen) ->
  blake2b S0 out outlen inp inlen key keylen =
  if blake2b_args_ok out outlen inp inlen key keylen
  then (0, Some (Rfc7693.blake2b outlen (default [] key) (default [] inp)))
  else (-1, out).
Proof.
  intros Ho Hi Hk; destruct (blake2b_args_ok out outlen inp inlen key keylen) eqn:E; unfold blake2b_args_ok in E.
  - destruct out as [o|]; [|by rewrite (bool_decide_eq_true_2 (None = None)), andb_false_r in E].
    specialize (Ho o eq_refl); rewrite !andb_true_iff, !orb_true_iff, !negb_true_iff in E.
    destruct E as [[[[[Ei _] E1] E2] Ek] E3]; apply Nat.leb_le in E1, E2, E3.
    rewrite (blake2b_ok S0 o outlen inp inlen key keylen (default [] inp) (default [] key)); [|lia|lia| |].
    + by rewrite drop_ge, app_nil_r by lia.
    + destruct inp as [m|]; [left; split; [done|symmetry; by apply Hi]|right].
      destruct Ei as [Ei|Ei]; [by apply bool_decide_eq_false in Ei|by apply Nat.eqb_eq in Ei].
    + destruct key as [k|]; [left; split_and!; [done|symmetry; by apply Hk|simpl; rewrite (Hk k eq_refl); lia]|right].
      destruct Ek as [Ek|Ek]; [by apply bool_decide_eq_false in Ek|by apply Nat.eqb_eq in Ek].
  - by apply blake2b_rejects.
Qed.

Lemma blake2b_one_call_witness :
  blake2b zero_state (Some (replicate 20 0)) 20 (Some [1; 2; 3]) 3 (Some [7; 8]) 2 =
  (0, Some (Rfc7693.blake2b 20 [7; 8] [1; 2; 3])).
Proof.
  apply (blake2b_one_call zero_state (Some (replicate 20 0)) 20 (Some [1; 2; 3]) 3 (Some [7; 8]) 2);
    intros ? [= <-]; reflexivity.
Defined.

(** A state that is finished or was never set up is rejected: any
    update with data and any final call return -1 and change nothing.  Every
    successful final call leaves such a state, with its chaining value and
    buffer wiped, and so does every initialisation with a bad length. *)
Theorem blake2b_misuse_rejected v st :
  (st.(f0) <> 0 -> forall inp inlen out outlen, inlen <> 0%nat ->
    b2_update v (Some st) inp inlen = (-1, Some st) /\
    b2_final v (Some st) out outlen = (-1, Some st, out)) /\
  (forall out outlen st' out', b2_final v (Some st) out outlen = (0, Some st', out') ->
    st'.(f0) <> 0 /\ Forall (eq 0) st'.(h) /\ Forall (eq 0) st'.(buf)) /\
  (forall nn, (nn = 0 \/ 64 < nn)%nat -> exists st', blake2b_init (Some st) nn = (-1, Some st') /\ st'.(f0) <> 0) /\
  (forall nn key keylen, (keylen = 0 \/ 64 < keylen)%nat -> exists st',
    blake2b_init_key (Some st) nn key keylen = (-1, Some st') /\ st'.(f0) <> 0).
Proof.
  split_and!.
  - intros Hf inp inlen out olen Hz; apply Z.eqb_neq in Hf.
    destruct v; cbn [b2_update b2_final]; unfold blake2b_update, blake2b_4r_update, blake2b_final, blake2b_4r_final;
      by rewrite update_rejects, final_rejects.
  - intros out olen st' out'; replace (b2_final v) with (final_with (b2_compress v)) by (by destruct v).
    apply final_wipes.
  - intros nn Hn; exists (blake2b_invalidate_state st); split; [|done].
    unfold blake2b_init; by rewrite bad_outlen_true.
  - intros nn key keylen Hk; exists (blake2b_invalidate_state st); split; [|done].
    unfold blake2b_init_key; destruct (bad_outlen nn), key; try done.
    by rewrite bad_keylen_true.
Qed.

Lemma blake2b_misuse_rejected_witness :
  b2_update Full (Some (blake2b_invalidate_state zero_state)) (Some [1]) 1 =
  (-1, Some (blake2b_invalidate_state zero_state)).
Proof.
  refine (proj1 (proj1 (blake2b_misuse_rejected Full (blake2b_invalidate_state zero_state)) _ (Some [1]) 1%nat None 0%nat _)).
  - vm_compute; discriminate.
  - discriminate.
Defined.

(** The variable-length hash succeeds for every output length
    from 1 to 2^32 - 1, producing exactly that many bytes, the ones of the
    function H' of Argon2; it fails for length 0 and lengths over 32 bits. *)
Theorem blake2b_long_correct S0 junk n inp : (64 <= length junk)%nat ->
  ((1 <= n)%nat -> Z.of_nat n < 2 ^ 32 ->
    blake2b_long S0 junk n inp = Some (Rfc7693.hash_long n inp) /\ length (Rfc7693.hash_long n inp) = n) /\
  ((n = 0%nat \/ 2 ^ 32 <= Z.of_nat n) -> blake2b_long S0 junk n inp = None).
Proof.
  intros Hj; split; [intros Hn H32; split; [by apply blake2b_long_spec|by apply length_hash_long]|].
  intros [->|H]; [done|]; unfold blake2b_long, UINT32_MAX.
  destruct (Z.ltb_spec (2 ^ 32 - 1) (Z.of_nat n)); [done|lia].
Qed.

Lemma blake2b_long_correct_witness :
  blake2b_long zero_state (replicate 64 7) 100 [1; 2; 3] = Some (Rfc7693.hash_long 100 [1; 2; 3]) /\
  length (Rfc7693.hash_long 100 [1; 2; 3]) = 100%nat.
Proof.
  apply (proj1 (blake2b_long_correct zero_state (replicate 64 7) 100 [1; 2; 3] ltac:(simpl; lia))); lia.
Defined.
