(* ===== verification/Argon2.v ===== *)
(** The Argon2 core behind the Merkle tree proof: MerkleTreeProof/argon2.h,
    core.h, core.c, ref.c, ref.h and blake2/blamka-round-ref.h.  Threads are in
    Argon2Threads.

    A block is the list of its 128 words, the memory the list of its blocks, and
    an index outside of it makes the result [None].  A pointer that may be NULL
    is an [option].  Words are stored in little-endian order.  The calls to
    BLAKE2b ignore return values exactly where the code does. *)

From S2P Require Import Prelude Blake2b.

(** ** argon2.h *)

Definition ARGON2_MIN_LANES : Z := 1.
Definition ARGON2_MAX_LANES : Z := 0xFFFFFF.
Definition ARGON2_MIN_THREADS : Z := 1.
Definition ARGON2_MAX_THREADS : Z := 0xFFFFFF.
Definition ARGON2_SYNC_POINTS : Z := 4.
Definition ARGON2_MIN_OUTLEN : Z := 4.
Definition ARGON2_MAX_OUTLEN : Z := 0xFFFFFFFF.
Definition ARGON2_MIN_MEMORY : Z := 2 * ARGON2_SYNC_POINTS.
Definition ARGON2_MIN (a b : Z) : Z := if a <? b then a else b.
(** Pointers of eight bytes. *)
Definition ARGON2_MAX_MEMORY_BITS : Z := ARGON2_MIN 32 (8 * 8 - 10 - 1).
Definition ARGON2_MAX_MEMORY : Z := ARGON2_MIN 0xFFFFFFFF (Z.shiftl 1 ARGON2_MAX_MEMORY_BITS).
Definition ARGON2_MIN_TIME : Z := 1.
Definition ARGON2_MAX_TIME : Z := 0xFFFFFFFF.
Definition ARGON2_MIN_PWD_LENGTH : Z := 0.
Definition ARGON2_MAX_PWD_LENGTH : Z := 0xFFFFFFFF.
Definition ARGON2_MIN_AD_LENGTH : Z := 0.
Definition ARGON2_MAX_AD_LENGTH : Z := 0xFFFFFFFF.
Definition ARGON2_MIN_SALT_LENGTH : Z := 8.
Definition ARGON2_MAX_SALT_LENGTH : Z := 0xFFFFFFFF.
Definition ARGON2_MIN_SECRET : Z := 0.
Definition ARGON2_MAX_SECRET : Z := 0xFFFFFFFF.
Definition ARGON2_DEFAULT_FLAGS : Z := 0.
Definition ARGON2_FLAG_CLEAR_PASSWORD : Z := Z.shiftl 1 0.
Definition ARGON2_FLAG_CLEAR_SECRET : Z := Z.shiftl 1 1.

Definition ARGON2_OK : Z := 0.
Definition ARGON2_OUTPUT_PTR_NULL : Z := -1.
Definition ARGON2_OUTPUT_TOO_SHORT : Z := -2.
Definition ARGON2_OUTPUT_TOO_LONG : Z := -3.
Definition ARGON2_PWD_TOO_SHORT : Z := -4.
Definition ARGON2_PWD_TOO_LONG : Z := -5.
Definition ARGON2_SALT_TOO_SHORT : Z := -6.
Definition ARGON2_SALT_TOO_LONG : Z := -7.
Definition ARGON2_AD_TOO_SHORT : Z := -8.
Definition ARGON2_AD_TOO_LONG : Z := -9.
Definition ARGON2_SECRET_TOO_SHORT : Z := -10.
Definition ARGON2_SECRET_TOO_LONG : Z := -11.
Definition ARGON2_TIME_TOO_SMALL : Z := -12.
Definition ARGON2_TIME_TOO_LARGE : Z := -13.
Definition ARGON2_MEMORY_TOO_LITTLE : Z := -14.
Definition ARGON2_MEMORY_TOO_MUCH : Z := -15.
Definition ARGON2_LANES_TOO_FEW : Z := -16.
Definition ARGON2_LANES_TOO_MANY : Z := -17.
Definition ARGON2_PWD_PTR_MISMATCH : Z := -18.
Definition ARGON2_SALT_PTR_MISMATCH : Z := -19.
Definition ARGON2_SECRET_PTR_MISMATCH : Z := -20.
Definition ARGON2_AD_PTR_MISMATCH : Z := -21.
Definition ARGON2_MEMORY_ALLOCATION_ERROR : Z := -22.
Definition ARGON2_FREE_MEMORY_CBK_NULL : Z := -23.
Definition ARGON2_ALLOCATE_MEMORY_CBK_NULL : Z := -24.
Definition ARGON2_INCORRECT_PARAMETER : Z := -25.
Definition ARGON2_INCORRECT_TYPE : Z := -26.
Definition ARGON2_THREADS_TOO_FEW : Z := -28.
Definition ARGON2_THREADS_TOO_MANY : Z := -29.
Definition ARGON2_THREAD_FAIL : Z := -33.

Inductive argon2_type := Argon2_d | Argon2_i | Argon2_id.
Definition type_code (t : argon2_type) : Z := match t with Argon2_d => 0 | Argon2_i => 1 | Argon2_id => 2 end.

Definition ARGON2_VERSION_10 : Z := 0x10.
Definition ARGON2_VERSION_13 : Z := 0x13.
Definition ARGON2_VERSION_NUMBER : Z := ARGON2_VERSION_13.

(** ** core.h *)

Definition ARGON2_BLOCK_SIZE : nat := 1024.
Definition ARGON2_QWORDS_IN_BLOCK : nat := 128.
Definition ARGON2_PREHASH_DIGEST_LENGTH : nat := 64.
Definition ARGON2_PREHASH_SEED_LENGTH : nat := 72.

Definition block : Type := list Z.

(** An allocator takes a size in bytes and returns NULL or the blocks it finds
    at the address it returns. *)
Definition allocator : Type := Z -> option (list block).

Record argon2_context := Argon2Context {
  out : option (list Z); outlen : Z;
  pwd : option (list Z); pwdlen : Z;
  salt : option (list Z); saltlen : Z;
  secret : option (list Z); secretlen : Z;
  ad : option (list Z); adlen : Z;
  t_cost : Z; m_cost : Z; lanes : Z; threads : Z;
  version : Z;
  allocate_cbk : option allocator; free_cbk : bool;
  flags : Z
}.

(** [print_internals] and [context_ptr] are never read. *)
Record argon2_instance_t := Argon2Instance {
  memory : option (list block);
  i_version : Z; passes : Z; memory_blocks : Z; segment_length : Z; lane_length : Z;
  i_lanes : Z; i_threads : Z; i_type : argon2_type;
  hash_zero : list Z
}.

Definition set_memory (inst : argon2_instance_t) (m : option (list block)) : argon2_instance_t :=
  Argon2Instance m inst.(i_version) inst.(passes) inst.(memory_blocks) inst.(segment_length) inst.(lane_length)
    inst.(i_lanes) inst.(i_threads) inst.(i_type) inst.(hash_zero).
Definition set_hash_zero (inst : argon2_instance_t) (h : list Z) : argon2_instance_t :=
  Argon2Instance inst.(memory) inst.(i_version) inst.(passes) inst.(memory_blocks) inst.(segment_length) inst.(lane_length)
    inst.(i_lanes) inst.(i_threads) inst.(i_type) h.

Record argon2_position_t := Argon2Position { pass : Z; lane : Z; slice : Z; index : Z }.

(** ** blamka-round-ref.h *)

Module Blamka.

Definition fBlaMka (x y : Z) : Z :=
  let m := 0xFFFFFFFF in
  let xy := u64 (Z.land x m * Z.land y m) in
  u64 (x + y + 2 * xy).

Definition G (s : Z * Z * Z * Z) : Z * Z * Z * Z :=
  let '(a, b, c, d) := s in
  let a := fBlaMka a b in
  let d := rotr64 (Z.lxor d a) 32 in
  let c := fBlaMka c d in
  let b := rotr64 (Z.lxor b c) 24 in
  let a := fBlaMka a b in
  let d := rotr64 (Z.lxor d a) 16 in
  let c := fBlaMka c d in
  let b := rotr64 (Z.lxor b c) 63 in
  (a, b, c, d).

Definition G_at (a b c d : nat) (v : list Z) : list Z :=
  let '(va, vb, vc, vd) := G (v !!! a, v !!! b, v !!! c, v !!! d) in
  <[d := vd]> (<[c := vc]> (<[b := vb]> (<[a := va]> v))).

(** The macro on the words of [v] at the sixteen positions [p 0 .. p 15]. *)
Definition BLAKE2_ROUND_NOMSG (p : nat -> nat) (v : list Z) : list Z :=
  let v := G_at (p 0%nat) (p 4%nat) (p 8%nat) (p 12%nat) v in
  let v := G_at (p 1%nat) (p 5%nat) (p 9%nat) (p 13%nat) v in
  let v := G_at (p 2%nat) (p 6%nat) (p 10%nat) (p 14%nat) v in
  let v := G_at (p 3%nat) (p 7%nat) (p 11%nat) (p 15%nat) v in
  let v := G_at (p 0%nat) (p 5%nat) (p 10%nat) (p 15%nat) v in
  let v := G_at (p 1%nat) (p 6%nat) (p 11%nat) (p 12%nat) v in
  let v := G_at (p 2%nat) (p 7%nat) (p 8%nat) (p 13%nat) v in
  G_at (p 3%nat) (p 4%nat) (p 9%nat) (p 14%nat) v.

End Blamka.

(** ** Blocks (core.c) *)

(** Every byte set to [inp]. *)
Definition init_block_value (inp : Z) : block := replicate ARGON2_QWORDS_IN_BLOCK (le_word (replicate 8 inp)).

Definition copy_block (src : block) : block := take ARGON2_QWORDS_IN_BLOCK src.

Definition xor_block (dst src : block) : block :=
  for_range 0 ARGON2_QWORDS_IN_BLOCK (fun i dst => <[i := Z.lxor (dst !!! i) (src !!! i)]> dst) dst.

Definition load_block (dst : block) (input : list Z) : block :=
  for_range 0 ARGON2_QWORDS_IN_BLOCK (fun i dst => <[i := load64 (read_at (i * 8) 8 input)]> dst) dst.

Definition store_block (output : list Z) (src : block) : list Z :=
  for_range 0 ARGON2_QWORDS_IN_BLOCK (fun i output => write_at (i * 8) (store64 (src !!! i)) output) output.

(** ** Memory (core.c) *)

(** [memory] is the address of a pointer, or NULL; the result is the value
    returned and the new value of the pointer. *)
Definition allocate_memory (malloc : allocator) (context : argon2_context)
  (memory : option (option (list block))) (num size : Z) : Z * option (option (list block)) :=
  let memory_size := u64 (num * size) in
  match memory with
  | None => (ARGON2_MEMORY_ALLOCATION_ERROR, memory)
  | Some _ =>
    if negb (size =? 0) && negb (memory_size / size =? num) then (ARGON2_MEMORY_ALLOCATION_ERROR, memory)
    else
      let p := match context.(allocate_cbk) with Some cbk => cbk memory_size | None => malloc memory_size end in
      match p with
      | None => (ARGON2_MEMORY_ALLOCATION_ERROR, Some None)
      | Some m => (ARGON2_OK, Some (Some m))
      end
  end.

Definition secure_wipe_memory (v : list Z) (n : nat) : list Z := write_at 0 (replicate n 0) v.

(** What the memory holds when it is given back, and whether the callback of
    the context takes it. *)
Definition free_memory (context : argon2_context) (memory : option (list block)) (num size : Z)
  : option (list block) * bool :=
  let memory_size := u64 (num * size) in
  let n := Z.to_nat (memory_size / Z.of_nat ARGON2_BLOCK_SIZE) in
  ((fun m => map clear_internal_memory (take n m) ++ drop n m) <$> memory, context.(free_cbk)).

(** ** One block (ref.c, ref.h) *)

(** [the_index] as eight bytes. *)
Definition the_index (block_index : Z) : Z := le_word (le_bytes 4 0 ++ le_bytes 4 block_index).

Definition column (i j : nat) : nat := (16 * i + j)%nat.
Definition row_position (i j : nat) : nat := (2 * i + 16 * (j / 2) + j mod 2)%nat.

Definition permute_block (blockR : block) : block :=
  let blockR := for_range 0 8 (fun i => Blamka.BLAKE2_ROUND_NOMSG (column i)) blockR in
  for_range 0 8 (fun i => Blamka.BLAKE2_ROUND_NOMSG (row_position i)) blockR.

Definition fill_block (prev_block ref_block next_block : block) (with_xor : bool) : block :=
  let blockR := copy_block ref_block in
  let blockR := xor_block blockR prev_block in
  let block_tmp := copy_block blockR in
  let block_tmp := if with_xor then xor_block block_tmp next_block else block_tmp in
  let blockR := permute_block blockR in
  let next_block := copy_block block_tmp in
  xor_block next_block blockR.

Definition fill_block_mtp (prev_block ref_block next_block : block) (with_xor : bool) (block_index : Z) (hash_zero : list Z)
  : block :=
  let blockR := copy_block ref_block in
  let blockR := xor_block blockR prev_block in
  let block_tmp := copy_block blockR in
  let block_tmp := if with_xor then xor_block block_tmp next_block else block_tmp in
  let blockR := <[14%nat := the_index block_index]> blockR in
  let blockR := <[16%nat := le_word (read_at 0 8 hash_zero)]> blockR in
  let blockR := <[17%nat := le_word (read_at 8 8 hash_zero)]> blockR in
  let blockR := <[18%nat := le_word (read_at 16 8 hash_zero)]> blockR in
  let blockR := <[19%nat := le_word (read_at 24 8 hash_zero)]> blockR in
  let blockR := permute_block blockR in
  let next_block := copy_block block_tmp in
  xor_block next_block blockR.

(** The new address block and the new input block. *)
Definition next_addresses (address_block input_block zero_block : block) : block * block :=
  let input_block := <[6%nat := u64 (input_block !!! 6%nat + 1)]> input_block in
  let address_block := fill_block zero_block input_block address_block false in
  let address_block := fill_block zero_block address_block address_block false in
  (address_block, input_block).

(** ** Positions (core.c) *)

Definition reference_area (segment_length lane_length : Z) (position : argon2_position_t) (same_lane : bool) : Z :=
  let minus1 := if position.(index) =? 0 then -1 else 0 in
  if 0 =? position.(pass) then
    if 0 =? position.(slice) then u32 (position.(index) - 1)
    else if same_lane then u32 (position.(slice) * segment_length + position.(index) - 1)
    else u32 (position.(slice) * segment_length + minus1)
  else if same_lane then u32 (lane_length - segment_length + position.(index) - 1)
  else u32 (lane_length - segment_length + minus1).

Definition index_alpha (instance : argon2_instance_t) (position : argon2_position_t) (pseudo_rand : Z) (same_lane : bool) : Z :=
  let reference_area_size := reference_area instance.(segment_length) instance.(lane_length) position same_lane in
  let relative_position := pseudo_rand in
  let relative_position := Z.shiftr (u64 (relative_position * relative_position)) 32 in
  let relative_position :=
    u64 (u32 (reference_area_size - 1) - Z.shiftr (u64 (reference_area_size * relative_position)) 32) in
  let start_position :=
    if 0 =? position.(pass) then 0
    else if position.(slice) =? ARGON2_SYNC_POINTS - 1 then 0
    else u32 ((position.(slice) + 1) * instance.(segment_length)) in
  u32 (u64 (start_position + relative_position) mod instance.(lane_length)).

(** ** Segments (ref.c) *)

(** The local variables of the loop: offsets of the current and previous block. *)
Definition starting_index (position : argon2_position_t) : Z :=
  if (0 =? position.(pass)) && (0 =? position.(slice)) then 2 else 0.

Definition first_offsets (instance : argon2_instance_t) (position : argon2_position_t) : Z * Z :=
  let curr_offset := u32 (position.(lane) * instance.(lane_length) +
    position.(slice) * instance.(segment_length) + starting_index position) in
  let prev_offset :=
    if 0 =? curr_offset mod instance.(lane_length) then u32 (curr_offset + instance.(lane_length) - 1)
    else u32 (curr_offset - 1) in
  (curr_offset, prev_offset).

Definition with_index (position : argon2_position_t) (i : Z) : argon2_position_t :=
  Argon2Position position.(pass) position.(lane) position.(slice) i.

(** The index of the reference block for the block [i] of the segment. *)
Definition reference_block (instance : argon2_instance_t) (position : argon2_position_t) (i pseudo_rand : Z) : Z :=
  let ref_lane := Z.shiftr pseudo_rand 32 mod instance.(i_lanes) in
  let ref_lane := if (position.(pass) =? 0) && (position.(slice) =? 0) then position.(lane) else ref_lane in
  let ref_index := index_alpha instance (with_index position i) (Z.land pseudo_rand 0xFFFFFFFF)
    (ref_lane =? position.(lane)) in
  u64 (instance.(lane_length) * ref_lane + ref_index).

(** Whether the old block is XORed over the new one. *)
Definition with_xor (instance : argon2_instance_t) (position : argon2_position_t) : bool :=
  if ARGON2_VERSION_10 =? instance.(i_version) then false
  else if 0 =? position.(pass) then false else true.

(** The body of the loop for the index [i]. *)
Definition segment_step (instance : argon2_instance_t) (position : argon2_position_t) (i : Z)
  (st : Z * Z * list block) : option (Z * Z * list block) :=
  let '(curr_offset, prev_offset, mem) := st in
  let prev_offset := if curr_offset mod instance.(lane_length) =? 1 then u32 (curr_offset - 1) else prev_offset in
  prev_block ← mem !! Z.to_nat prev_offset;
  let pseudo_rand := prev_block !!! 0%nat in
  let ref := reference_block instance position i pseudo_rand in
  ref_block ← mem !! Z.to_nat ref;
  curr_block ← mem !! Z.to_nat curr_offset;
  let new := fill_block_mtp prev_block ref_block curr_block (with_xor instance position) (u32 ref) instance.(hash_zero) in
  Some (u32 (curr_offset + 1), u32 (prev_offset + 1), <[Z.to_nat curr_offset := new]> mem).

(** The data-independent addresses the function prepares are not used. *)
Definition fill_segment_mtp (instance : argon2_instance_t) (position : argon2_position_t) (mem : list block)
  : option (list block) :=
  let '(curr_offset, prev_offset) := first_offsets instance position in
  '(_, _, mem) ← for_rangeM (Z.to_nat (starting_index position)) (Z.to_nat instance.(segment_length))
    (fun i st => segment_step instance position (Z.of_nat i) st) (curr_offset, prev_offset, mem);
  Some mem.

(** ** All segments, one thread (core.c) *)

Definition fill_memory_blocks_st_mtp (instance : argon2_instance_t) (mem : list block) : option (Z * list block) :=
  mem ← for_rangeM 0 (Z.to_nat instance.(passes)) (fun r mem =>
    for_rangeM 0 (Z.to_nat ARGON2_SYNC_POINTS) (fun s mem =>
      for_rangeM 0 (Z.to_nat instance.(i_lanes)) (fun l mem =>
        fill_segment_mtp instance (Argon2Position (Z.of_nat r) (Z.of_nat l) (u8 (Z.of_nat s)) 0) mem) mem) mem) mem;
  Some (ARGON2_OK, mem).

(** ** Inputs (core.c) *)

Definition is_null {A} (p : option A) : bool := match p with None => true | Some _ => false end.

Definition validate_inputs (context : option argon2_context) : Z :=
  match context with
  | None => ARGON2_INCORRECT_PARAMETER
  | Some c =>
    if is_null c.(out) then ARGON2_OUTPUT_PTR_NULL
    else if c.(outlen) <? ARGON2_MIN_OUTLEN then ARGON2_OUTPUT_TOO_SHORT
    else if ARGON2_MAX_OUTLEN <? c.(outlen) then ARGON2_OUTPUT_TOO_LONG
    else if is_null c.(pwd) && negb (0 =? c.(pwdlen)) then ARGON2_PWD_PTR_MISMATCH
    else if c.(pwdlen) <? ARGON2_MIN_PWD_LENGTH then ARGON2_PWD_TOO_SHORT
    else if ARGON2_MAX_PWD_LENGTH <? c.(pwdlen) then ARGON2_PWD_TOO_LONG
    else if is_null c.(salt) && negb (0 =? c.(saltlen)) then ARGON2_SALT_PTR_MISMATCH
    else if c.(saltlen) <? ARGON2_MIN_SALT_LENGTH then ARGON2_SALT_TOO_SHORT
    else if ARGON2_MAX_SALT_LENGTH <? c.(saltlen) then ARGON2_SALT_TOO_LONG
    else if is_null c.(secret) && negb (0 =? c.(secretlen)) then ARGON2_SECRET_PTR_MISMATCH
    else if negb (is_null c.(secret)) && (c.(secretlen) <? ARGON2_MIN_SECRET) then ARGON2_SECRET_TOO_SHORT
    else if negb (is_null c.(secret)) && (ARGON2_MAX_SECRET <? c.(secretlen)) then ARGON2_SECRET_TOO_LONG
    else if is_null c.(ad) && negb (0 =? c.(adlen)) then ARGON2_AD_PTR_MISMATCH
    else if negb (is_null c.(ad)) && (c.(adlen) <? ARGON2_MIN_AD_LENGTH) then ARGON2_AD_TOO_SHORT
    else if negb (is_null c.(ad)) && (ARGON2_MAX_AD_LENGTH <? c.(adlen)) then ARGON2_AD_TOO_LONG
    else if c.(m_cost) <? ARGON2_MIN_MEMORY then ARGON2_MEMORY_TOO_LITTLE
    else if ARGON2_MAX_MEMORY <? c.(m_cost) then ARGON2_MEMORY_TOO_MUCH
    else if c.(m_cost) <? u32 (8 * c.(lanes)) then ARGON2_MEMORY_TOO_LITTLE
    else if c.(t_cost) <? ARGON2_MIN_TIME then ARGON2_TIME_TOO_SMALL
    else if ARGON2_MAX_TIME <? c.(t_cost) then ARGON2_TIME_TOO_LARGE
    else if c.(lanes) <? ARGON2_MIN_LANES then ARGON2_LANES_TOO_FEW
    else if ARGON2_MAX_LANES <? c.(lanes) then ARGON2_LANES_TOO_MANY
    else if c.(threads) <? ARGON2_MIN_THREADS then ARGON2_THREADS_TOO_FEW
    else if ARGON2_MAX_THREADS <? c.(threads) then ARGON2_THREADS_TOO_MANY
    else if negb (is_null c.(allocate_cbk)) && negb c.(free_cbk) then ARGON2_FREE_MEMORY_CBK_NULL
    else if is_null c.(allocate_cbk) && c.(free_cbk) then ARGON2_ALLOCATE_MEMORY_CBK_NULL
    else ARGON2_OK
  end.

(** An update whose return value is ignored. *)
Definition feed (bytes : list Z) (len : Z) (st : option blake2b_state) : option blake2b_state :=
  snd (blake2b_update st (Some bytes) (Z.to_nat len)).
Definition feed32 (x : Z) (st : option blake2b_state) : option blake2b_state := feed (store32 x) 4 st.

(** [if (p != NULL) blake2b_update(&BlakeHash, p, len)] *)
Definition feed_ptr (p : option (list Z)) (len : Z) (st : option blake2b_state) : option blake2b_state :=
  match p with Some bytes => feed bytes len st | None => st end.

(** The password and the secret after the hashing: wiped when the flag asks. *)
Definition wipe_if (flag : bool) (p : option (list Z)) (len : Z) : option (list Z) * Z :=
  match p with
  | Some bytes => if flag then (Some (secure_wipe_memory bytes (Z.to_nat len)), 0) else (p, len)
  | None => (p, len)
  end.

Definition has_flag (c : argon2_context) (f : Z) : bool := negb (Z.land c.(flags) f =? 0).

Definition clear_inputs (c : argon2_context) : argon2_context :=
  let '(pwd, pwdlen) := wipe_if (has_flag c ARGON2_FLAG_CLEAR_PASSWORD) c.(pwd) c.(pwdlen) in
  let '(secret, secretlen) := wipe_if (has_flag c ARGON2_FLAG_CLEAR_SECRET) c.(secret) c.(secretlen) in
  Argon2Context c.(out) c.(outlen) pwd pwdlen c.(salt) c.(saltlen) secret secretlen c.(ad) c.(adlen)
    c.(t_cost) c.(m_cost) c.(lanes) c.(threads) c.(version) c.(allocate_cbk) c.(free_cbk) c.(flags).

(** [S0] is the indeterminate local state. *)
Definition initial_hash (S0 : blake2b_state) (blockhash : option (list Z)) (context : option argon2_context)
  (type : argon2_type) : option (list Z) * option argon2_context :=
  match context, blockhash with
  | Some c, Some bh =>
    let '(_, st) := blake2b_init (Some S0) ARGON2_PREHASH_DIGEST_LENGTH in
    let st := feed32 c.(lanes) st in
    let st := feed32 c.(outlen) st in
    let st := feed32 c.(m_cost) st in
    let st := feed32 c.(t_cost) st in
    let st := feed32 c.(version) st in
    let st := feed32 (type_code type) st in
    let st := feed32 c.(pwdlen) st in
    let st := feed_ptr c.(pwd) c.(pwdlen) st in
    let st := feed32 c.(saltlen) st in
    let st := feed_ptr c.(salt) c.(saltlen) st in
    let st := feed32 c.(secretlen) st in
    let st := feed_ptr c.(secret) c.(secretlen) st in
    let st := feed32 c.(adlen) st in
    let st := feed_ptr c.(ad) c.(adlen) st in
    let '(_, _, bh) := blake2b_final st (Some bh) ARGON2_PREHASH_DIGEST_LENGTH in
    (bh, Some (clear_inputs c))
  | _, _ => (blockhash, context)
  end.

(** ** First blocks, initialisation, result (core.c) *)

(** [blake2b_long] into the array [bytes]: unchanged when it fails. *)
Definition long_into (S0 : blake2b_state) (junk bytes : list Z) (inp : list Z) : list Z :=
  default bytes (blake2b_long S0 junk (length bytes) inp).

Definition write_block (mem : list block) (i : Z) (b : list Z) : option (list block) :=
  old ← mem !! Z.to_nat i; Some (<[Z.to_nat i := load_block old b]> mem).

(** The body of the loop for lane [l]. *)
Definition fill_first_lane (S0 : blake2b_state) (junk : list Z) (instance : argon2_instance_t) (l : Z)
  (st : list Z * list Z * list block) : option (list Z * list Z * list block) :=
  let '(blockhash, blockhash_bytes, mem) := st in
  let blockhash := write_at ARGON2_PREHASH_DIGEST_LENGTH (store32 0) blockhash in
  let blockhash := write_at (ARGON2_PREHASH_DIGEST_LENGTH + 4) (store32 l) blockhash in
  let blockhash_bytes := long_into S0 junk blockhash_bytes (take ARGON2_PREHASH_SEED_LENGTH blockhash) in
  mem ← write_block mem (u32 (l * instance.(lane_length) + 0)) blockhash_bytes;
  let blockhash := write_at ARGON2_PREHASH_DIGEST_LENGTH (store32 1) blockhash in
  let blockhash_bytes := long_into S0 junk blockhash_bytes (take ARGON2_PREHASH_SEED_LENGTH blockhash) in
  mem ← write_block mem (u32 (l * instance.(lane_length) + 1)) blockhash_bytes;
  Some (blockhash, blockhash_bytes, mem).

Definition fill_first_blocks (S0 : blake2b_state) (junk blockhash_bytes : list Z) (blockhash : list Z)
  (instance : argon2_instance_t) (mem : list block) : option (list Z * list block) :=
  '(blockhash, _, mem) ← for_rangeM 0 (Z.to_nat instance.(i_lanes))
    (fun l st => fill_first_lane S0 junk instance (Z.of_nat l) st) (blockhash, blockhash_bytes, mem);
  Some (blockhash, mem).

(** Indeterminate contents of the local variables. *)
Record locals := Locals { l_state : blake2b_state; l_junk : list Z; l_bytes : list Z; l_blockhash : list Z }.

Definition initialize (malloc : allocator) (loc : locals) (instance : option argon2_instance_t)
  (context : option argon2_context) : option (Z * option argon2_instance_t * option argon2_context) :=
  match instance, context with
  | Some inst, Some c =>
    let '(result, p) := allocate_memory malloc c (Some inst.(memory)) inst.(memory_blocks) (Z.of_nat ARGON2_BLOCK_SIZE) in
    let mem := default None p in
    if negb (result =? ARGON2_OK) then Some (result, Some (set_memory inst mem), context)
    else
      let '(bh, context) := initial_hash loc.(l_state) (Some loc.(l_blockhash)) context inst.(i_type) in
      bh ← bh;
      let bh := take ARGON2_PREHASH_DIGEST_LENGTH bh ++ clear_internal_memory (drop ARGON2_PREHASH_DIGEST_LENGTH bh) in
      let inst := set_hash_zero inst (take ARGON2_PREHASH_SEED_LENGTH bh) in
      mem ← mem;
      '(_, mem) ← fill_first_blocks loc.(l_state) loc.(l_junk) loc.(l_bytes) bh inst mem;
      Some (ARGON2_OK, Some (set_memory inst (Some mem)), context)
  | _, _ => Some (ARGON2_INCORRECT_PARAMETER, instance, context)
  end.

(** The output buffer, and the memory as it is given back. *)
Definition finalize (loc : locals) (context : option argon2_context) (instance : option argon2_instance_t)
  : option (option (list Z) * option (list block) * bool) :=
  match context, instance with
  | Some c, Some inst =>
    mem ← inst.(memory);
    b ← mem !! Z.to_nat (inst.(lane_length) - 1);
    let blockhash := copy_block b in
    blockhash ← for_rangeM 1 (Z.to_nat inst.(i_lanes)) (fun l blockhash =>
      let last_block_in_lane := u32 (u32 (Z.of_nat l * inst.(lane_length)) + (inst.(lane_length) - 1)) in
      b ← mem !! Z.to_nat last_block_in_lane; Some (xor_block blockhash b)) blockhash;
    let blockhash_bytes := store_block loc.(l_bytes) blockhash in
    let out := match blake2b_long loc.(l_state) loc.(l_junk) (Z.to_nat c.(outlen)) blockhash_bytes with
      | Some tag => write_at 0 tag <$> c.(out)
      | None => c.(out)
      end in
    let '(mem, cbk) := free_memory c inst.(memory) inst.(memory_blocks) (Z.of_nat ARGON2_BLOCK_SIZE) in
    Some (out, mem, cbk)
  | _, _ => Some (c ← context; c.(out), i ← instance; i.(memory), false)
  end.
