(* ===== verification/Argon2Threads.v ===== *)
(** Filling the memory with threads: MerkleTreeProof/thread.c and the
    multi-threaded part of core.c.

    The main thread is a program counter in [fill_memory_blocks_mt_mtp], a worker
    the loop variables of its [fill_segment_mtp].  A step is a choice: the main
    thread makes its next call to pthreads, with the outcome the library gives
    it, or a worker fills its next block.  pthreads is used by what it documents:
    a thread that is created runs its function, [pthread_join] returns only when
    the thread has ended.  Filling one block is one step: no other thread writes
    what it reads, which Argon2ThreadProofs shows. *)

From S2P Require Import Prelude Blake2b Argon2.

(** ** thread.c

    [pthread_create] and [pthread_join] return an error code, 0 for success. *)

Definition argon2_thread_create (pthread_create : Z) (handle func : bool) : Z :=
  if negb handle || negb func then -1 else pthread_create.

Definition argon2_thread_join (pthread_join : Z) : Z := pthread_join.

(** ** Workers *)

(** The variables of [fill_segment_thr]: position, loop index, offsets. *)
Record worker := Worker { w_pos : argon2_position_t; w_i : Z; w_curr : Z; w_prev : Z }.

Definition start_worker (instance : argon2_instance_t) (pos : argon2_position_t) : worker :=
  let '(curr, prev) := first_offsets instance pos in
  Worker pos (starting_index pos) curr prev.

Definition finished (instance : argon2_instance_t) (w : worker) : bool := negb (w.(w_i) <? instance.(segment_length)).

Definition worker_step (instance : argon2_instance_t) (w : worker) (mem : list block) : option (worker * list block) :=
  if finished instance w then None
  else
    '(curr, prev, mem) ← segment_step instance w.(w_pos) w.(w_i) (w.(w_curr), w.(w_prev), mem);
    Some (Worker w.(w_pos) (w.(w_i) + 1) curr prev, mem).

(** ** The main thread

    [Calling l joined]: in the loop over the lanes, before the call for lane [l];
    [joined] once the thread over the limit has been waited for.  [Joining l]: in
    the loop that waits for the remaining threads. *)
Inductive main_pc := Calling (l : Z) (joined : bool) | Joining (l : Z) | Returned (rc : Z).

Record mt_state := MtState {
  pc : main_pc; cur_pass : Z; cur_slice : Z;
  workers : list (option worker);
  mt_mem : list block
}.

(** After a slice: the next one, the next pass, or the end. *)
Definition next_slice (instance : argon2_instance_t) (r s : Z) : main_pc * Z * Z :=
  if s + 1 <? ARGON2_SYNC_POINTS then (Calling 0 false, r, s + 1)
  else if r + 1 <? instance.(passes) then (Calling 0 false, r + 1, 0)
  else (Returned ARGON2_OK, r + 1, 0).

(** Where the joining loop goes from [l]. *)
Definition joining (instance : argon2_instance_t) (l r s : Z) : main_pc * Z * Z :=
  if l <? instance.(i_lanes) then (Joining l, r, s) else next_slice instance r s.

(** Where the calling loop goes from [l]. *)
Definition calling (instance : argon2_instance_t) (l r s : Z) : main_pc * Z * Z :=
  if l <? instance.(i_lanes) then (Calling l false, r, s)
  else joining instance (u32 (instance.(i_lanes) - instance.(i_threads))) r s.

Definition goto (st : mt_state) (p : main_pc * Z * Z) : mt_state :=
  let '(pc, r, s) := p in MtState pc r s st.(workers) st.(mt_mem).

Definition set_worker (st : mt_state) (l : Z) (w : option worker) : mt_state :=
  MtState st.(pc) st.(cur_pass) st.(cur_slice) (<[Z.to_nat l := w]> st.(workers)) st.(mt_mem).

Definition fail (st : mt_state) : mt_state := goto st (Returned ARGON2_THREAD_FAIL, st.(cur_pass), st.(cur_slice)).

(** [argon2_thread_join(thread[l])] with the outcome [ret]; it blocks while the
    thread runs.  After it the handle is used again only by a creation. *)
Definition join_worker (instance : argon2_instance_t) (ret l : Z) (st : mt_state) (next : main_pc * Z * Z) : option mt_state :=
  w ← st.(workers) !! Z.to_nat l;
  w ← w;
  if negb (argon2_thread_join ret =? 0) then Some (fail st)
  else if finished instance w then Some (goto (set_worker st l None) next)
  else None.

(** [argon2_thread_create(&thread[l], &fill_segment_thr, &thr_data[l])]; a
    handle still in use is outside of the model. *)
Definition create_worker (instance : argon2_instance_t) (ret l : Z) (st : mt_state) (next : main_pc * Z * Z) : option mt_state :=
  w ← st.(workers) !! Z.to_nat l;
  match w with
  | Some _ => None
  | None =>
    if negb (argon2_thread_create ret true true =? 0) then Some (fail st)
    else
      let position := Argon2Position st.(cur_pass) l (u8 st.(cur_slice)) 0 in
      Some (goto (set_worker st l (Some (start_worker instance position))) next)
  end.

(** The next call of the main thread. *)
Definition main_step (instance : argon2_instance_t) (ret : Z) (st : mt_state) : option mt_state :=
  let r := st.(cur_pass) in let s := st.(cur_slice) in
  match st.(pc) with
  | Calling l joined =>
    if negb joined && (instance.(i_threads) <=? l)
    then join_worker instance ret (l - instance.(i_threads)) st (Calling l true, r, s)
    else create_worker instance ret l st (calling instance (l + 1) r s)
  | Joining l => join_worker instance ret l st (joining instance (l + 1) r s)
  | Returned _ => None
  end.

(** ** Executions *)

Inductive choice := Main (ret : Z) | Work (l : nat).

Definition mt_step (instance : argon2_instance_t) (c : choice) (st : mt_state) : option mt_state :=
  match c with
  | Main ret => main_step instance ret st
  | Work l =>
    w ← st.(workers) !! l;
    w ← w;
    '(w, mem) ← worker_step instance w st.(mt_mem);
    Some (MtState st.(pc) st.(cur_pass) st.(cur_slice) (<[l := Some w]> st.(workers)) mem)
  end.

Definition mt_run (instance : argon2_instance_t) (choices : list choice) (st : mt_state) : option mt_state :=
  fold_leftM (fun st c => mt_step instance c st) choices st.

(** The state in which the loops start. *)
Definition mt_start (instance : argon2_instance_t) (mem : list block) : mt_state :=
  let '(pc, r, s) := if 0 <? instance.(passes) then calling instance 0 0 0 else (Returned ARGON2_OK, 0, 0) in
  MtState pc r s (replicate (Z.to_nat instance.(i_lanes)) None) mem.

(** The two [calloc] calls and the loops, along the choices given; [None] when
    the choices do not lead to the return. *)
Definition fill_memory_blocks_mt_mtp (calloc_thread calloc_data : bool) (choices : list choice)
  (instance : argon2_instance_t) (mem : list block) : option (Z * list block * list (option worker)) :=
  if negb calloc_thread then Some (ARGON2_MEMORY_ALLOCATION_ERROR, mem, [])
  else if negb calloc_data then Some (ARGON2_MEMORY_ALLOCATION_ERROR, mem, [])
  else
    st ← mt_run instance choices (mt_start instance mem);
    match st.(pc) with
    | Returned rc => Some (rc, st.(mt_mem), st.(workers))
    | _ => None
    end.

(** [with_threads] is the build without [ARGON2_NO_THREADS]. *)
Definition fill_memory_blocks_mtp (with_threads calloc_thread calloc_data : bool) (choices : list choice)
  (instance : option argon2_instance_t) : option (Z * option argon2_instance_t) :=
  match instance with
  | None => Some (ARGON2_INCORRECT_PARAMETER, None)
  | Some inst =>
    if inst.(i_lanes) =? 0 then Some (ARGON2_INCORRECT_PARAMETER, instance)
    else
      mem ← inst.(memory);
      '(rc, mem) ←
        if negb with_threads || (inst.(i_threads) =? 1) then fill_memory_blocks_st_mtp inst mem
        else '(rc, mem, _) ← fill_memory_blocks_mt_mtp calloc_thread calloc_data choices inst mem; Some (rc, mem);
      Some (rc, Some (set_memory inst (Some mem)))
  end.
