(* ===== verification/Argon2Spec.v ===== *)
(** Reference definition of the memory filling of Argon2d (RFC 9106, section 3.4:
    the block that is referenced is chosen by the first word of the previous
    block, in every pass and slice) with the block function of the Merkle tree
    proof, which puts the index of the reference block and the first half of H0
    into the compressed block.  The data-independent choice of Argon2i and
    Argon2id is not part of it. *)

From S2P Require Import Prelude.

Module Argon2Spec.

(** ** The compression of a block *)

(** The multiplication of BlaMka and the permutation P on sixteen words. *)
Definition blamka (x y : Z) : Z := (x + y + 2 * ((x mod 2 ^ 32) * (y mod 2 ^ 32))) mod 2 ^ 64.
Definition rotr (x n : Z) : Z := wrap 64 (Z.lor (Z.shiftr x n) (Z.shiftl x (64 - n))).

Definition GB (s : Z * Z * Z * Z) : Z * Z * Z * Z :=
  let half r1 r2 '(a, b, c, d) :=
    let a := blamka a b in let d := rotr (Z.lxor d a) r1 in
    let c := blamka c d in let b := rotr (Z.lxor b c) r2 in (a, b, c, d) in
  half 16 63 (half 32 24 s).

Definition GB_at (v : list Z) (i : nat * nat * nat * nat) : list Z :=
  let '(a, b, c, d) := i in
  let '(va, vb, vc, vd) := GB (v !!! a, v !!! b, v !!! c, v !!! d) in
  <[d := vd]> (<[c := vc]> (<[b := vb]> (<[a := va]> v))).

Definition P (v : list Z) : list Z :=
  fold_left GB_at [(0, 4, 8, 12); (1, 5, 9, 13); (2, 6, 10, 14); (3, 7, 11, 15);
                   (0, 5, 10, 15); (1, 6, 11, 12); (2, 7, 8, 13); (3, 4, 9, 14)]%nat v.

(** The block as an 8 by 8 matrix of two-word registers: the positions of the
    sixteen words of a row and of a column. *)
Definition row (i : nat) : list nat := seq (16 * i) 16.
Definition col (i : nat) : list nat := concat (map (fun r => [16 * r + 2 * i; 16 * r + 2 * i + 1]%nat) (seq 0 8)).

(** [f] on the words at the positions [ps]. *)
Definition on_positions (f : list Z -> list Z) (ps : list nat) (v : list Z) : list Z :=
  fold_left (fun v '(p, x) => <[p := x]> v) (zip ps (f (map (fun p => v !!! p) ps))) v.

Definition permute (v : list Z) : list Z :=
  let v := fold_left (fun v i => on_positions P (row i) v) (seq 0 8) v in
  fold_left (fun v i => on_positions P (col i) v) (seq 0 8) v.

Definition bxor (x y : list Z) : list Z := zip_with Z.lxor x y.

(** The words the Merkle tree proof overwrites before the permutation. *)
Definition seed (index : Z) (h0 : list Z) (v : list Z) : list Z :=
  take 14 v ++ [index * 2 ^ 32] ++ take 1 (drop 15 v) ++
  map (fun i => le_word (read_at (8 * i) 8 h0)) (seq 0 4) ++ drop 20 v.

Definition compress (prev ref old : list Z) (over : bool) (index : Z) (h0 : list Z) : list Z :=
  let R := bxor ref prev in
  let T := if over then bxor R old else R in
  bxor T (permute (seed index h0 R)).

(** ** Memory *)

Section Memory.
Context (lanes q : nat) (v10 : bool) (h0 : list Z).

(** Blocks in a lane, cells of the memory. *)
Definition lane_len : nat := (4 * q)%nat.
Definition cell (l j : nat) : nat := (l * lane_len + j)%nat.
Definition prev_cell (l j : nat) : nat := cell l (if (j =? 0)%nat then lane_len - 1 else j - 1).

(** The blocks of the segments finished before the one of [j], in the order
    they were computed: all in the first pass, the last three after it. *)
Definition finished_blocks (pass j : nat) : list nat :=
  if (pass =? 0)%nat then seq 0 (j / q * q)
  else map (fun k => (j / q * q + q + k) mod lane_len)%nat (seq 0 (3 * q)).

(** The blocks that may be referenced: in the same lane also those of the
    current segment, without the previous block; in another lane not the last
    one when the segment has just begun. *)
Definition candidates (pass j : nat) (same : bool) : list nat :=
  if same then removelast (finished_blocks pass j ++ seq (j / q * q) (j mod q))
  else if (j mod q =? 0)%nat then removelast (finished_blocks pass j)
  else finished_blocks pass j.

(** The choice of Argon2d, by the first word of the previous block. *)
Definition choose (w : list nat) (j1 : Z) : nat :=
  let n := Z.of_nat (length w) in
  let x := j1 ^ 2 / 2 ^ 32 in
  w !!! Z.to_nat (n - 1 - n * x / 2 ^ 32).

Definition ref_lane (pass l j : nat) (word : Z) : nat :=
  if (pass =? 0)%nat && (j / q =? 0)%nat then l else Z.to_nat (word / 2 ^ 32 mod Z.of_nat lanes).

Definition ref_cell (pass l j : nat) (word : Z) : nat :=
  let rl := ref_lane pass l j word in
  cell rl (choose (candidates pass j (rl =? l)%nat) (word mod 2 ^ 32)).

Section Block.
(** The block function: previous, reference and old block, whether the old one
    is XORed over, and the index of the reference block. *)
Variable block_function : list Z -> list Z -> list Z -> bool -> Z -> list Z -> list Z.

Definition new_block (pass l j : nat) (M : list (list Z)) : list Z :=
  let p := M !!! prev_cell l j in
  let r := ref_cell pass l j (p !!! 0%nat) in
  block_function p (M !!! r) (M !!! cell l j) (negb v10 && negb (pass =? 0)%nat) (Z.of_nat r) h0.

Definition visit (pass l : nat) (j : nat) (M : list (list Z)) : list (list Z) :=
  <[cell l j := new_block pass l j M]> M.

(** The blocks of a segment; the first two of a lane are given. *)
Definition first_index (pass s : nat) : nat := if (pass =? 0)%nat && (s =? 0)%nat then 2 else 0.

Definition segment (pass s l : nat) (M : list (list Z)) : list (list Z) :=
  for_range (first_index pass s) q (fun i => visit pass l (s * q + i)) M.

(** The filling of Argon2d. *)
Definition fill (passes : nat) (M : list (list Z)) : list (list Z) :=
  for_range 0 passes (fun r => for_range 0 4 (fun s => for_range 0 lanes (fun l => segment r s l))) M.
End Block.

End Memory.

End Argon2Spec.
