(* ===== verification/Argon2Block.v ===== *)
(** The functions on blocks: XOR, loading and storing, and the compression
    with its in-place strided rounds against the matrix of RFC 9106. *)

From S2P Require Import Prelude BlakeSpec Rfc7693 Blake2b Blake2bProofs Argon2 Argon2Spec.

Definition block_ok (b : block) : Prop := length b = 128%nat.

(** ** Loops that set every word *)

Lemma set_all_spec n f (d : list Z) : length d = n ->
  for_range 0 n (fun i d => <[i := f i (d !!! i)]> d) d = map (fun i => f i (d !!! i)) (seq 0 n).
Proof.
  intros Hn; apply list_eq; intros k; rewrite list_lookup_fmap.
  assert (H : forall m, (m <= n)%nat -> length (for_range 0 m (fun i d => <[i := f i (d !!! i)]> d) d) = n /\
    forall k, (k < n)%nat -> for_range 0 m (fun i d => <[i := f i (d !!! i)]> d) d !!! k =
      if (k <? m)%nat then f k (d !!! k) else d !!! k).
  { induction m as [|m IH]; intros Hm; [by rewrite for_range_empty|].
    destruct (IH ltac:(lia)) as [Hl Hk]; replace (S m) with (m + 1)%nat by lia; rewrite for_range_S by lia.
    split; [by rewrite length_insert|]; intros j Hj; destruct (Nat.eq_dec j m) as [->|Hne].
    - rewrite list_lookup_total_insert_eq, Hk, Nat.ltb_irrefl by lia; destruct (Nat.ltb_spec m (m + 1)); [done|lia].
    - rewrite list_lookup_total_insert_ne, Hk by lia.
      destruct (Nat.ltb_spec j m), (Nat.ltb_spec j (m + 1)); (done || lia). }
  destruct (H n ltac:(lia)) as [Hl Hk]; destruct (Nat.lt_ge_cases k n) as [Hlt|Hge].
  - rewrite list_lookup_lookup_total_lt, Hk, lookup_seq_lt by lia; destruct (Nat.ltb_spec k n); [done|lia].
  - rewrite lookup_ge_None_2, lookup_seq_ge by lia; done.
Qed.

Lemma xor_block_spec dst src : block_ok dst -> block_ok src -> xor_block dst src = Argon2Spec.bxor dst src.
Proof.
  intros Hd Hs; unfold xor_block; rewrite (set_all_spec _ (fun i x => Z.lxor x (src !!! i))) by done.
  apply list_eq; intros k; rewrite list_lookup_fmap; unfold Argon2Spec.bxor; rewrite lookup_zip_with.
  destruct (Nat.lt_ge_cases k 128) as [Hk|Hk].
  - rewrite lookup_seq_lt by (unfold ARGON2_QWORDS_IN_BLOCK; lia); rewrite !list_lookup_lookup_total_lt by (unfold block_ok in *; lia); done.
  - rewrite lookup_seq_ge by (unfold ARGON2_QWORDS_IN_BLOCK; lia); rewrite (lookup_ge_None_2 dst) by (unfold block_ok in *; lia); done.
Qed.

Lemma copy_block_spec b : block_ok b -> copy_block b = b.
Proof. intros H; apply take_ge; unfold block_ok, ARGON2_QWORDS_IN_BLOCK in *; lia. Qed.

Lemma bxor_ok x y : block_ok x -> block_ok y -> block_ok (Argon2Spec.bxor x y).
Proof. intros; unfold block_ok, Argon2Spec.bxor in *; rewrite length_zip_with; lia. Qed.

(** ** The mixing function *)

Lemma fBlaMka_spec x y : Blamka.fBlaMka x y = Argon2Spec.blamka x y.
Proof.
  unfold Blamka.fBlaMka, Argon2Spec.blamka; change 0xFFFFFFFF with (Z.ones 32); rewrite !wrap_ones by lia.
  pose proof (Z.mod_pos_bound x (2 ^ 32) ltac:(lia)); pose proof (Z.mod_pos_bound y (2 ^ 32) ltac:(lia)).
  unfold u64; rewrite (wrap_id 64 (_ * _)) by (unfold word, wrap; nia); reflexivity.
Qed.

(** Half of the mixing function, for either multiplication and rotation. *)
Definition half_mix (f rot : Z -> Z -> Z) (r1 r2 : Z) (s : Z * Z * Z * Z) : Z * Z * Z * Z :=
  let '(a, b, c, d) := s in
  let a := f a b in let d := rot (Z.lxor d a) r1 in
  let c := f c d in let b := rot (Z.lxor b c) r2 in (a, b, c, d).

Lemma half_mix_ext f g rot rot' r1 r2 s : (forall x y, f x y = g x y) -> (forall x y, rot x y = rot' x y) ->
  half_mix f rot r1 r2 s = half_mix g rot' r1 r2 s.
Proof. intros H H'; destruct s as [[[a b] c] d]; unfold half_mix; by rewrite !H, !H'. Qed.

#[local] Opaque Blamka.fBlaMka Argon2Spec.blamka rotr64 Argon2Spec.rotr Z.lxor.

Lemma Blamka_G_half s : Blamka.G s = half_mix Blamka.fBlaMka rotr64 16 63 (half_mix Blamka.fBlaMka rotr64 32 24 s).
Proof. destruct s as [[[a b] c] d]; reflexivity. Qed.

Lemma GB_half s : Argon2Spec.GB s = half_mix Argon2Spec.blamka Argon2Spec.rotr 16 63 (half_mix Argon2Spec.blamka Argon2Spec.rotr 32 24 s).
Proof. destruct s as [[[a b] c] d]; reflexivity. Qed.

#[local] Transparent Blamka.fBlaMka Argon2Spec.blamka rotr64 Argon2Spec.rotr Z.lxor.

Lemma Blamka_G_spec s : Blamka.G s = Argon2Spec.GB s.
Proof.
  rewrite Blamka_G_half, GB_half.
  rewrite !(half_mix_ext Blamka.fBlaMka Argon2Spec.blamka rotr64 Argon2Spec.rotr); first [apply fBlaMka_spec | reflexivity].
Qed.

(** ** Words at given positions *)

Definition scatter (ps : list nat) (w v : list Z) : list Z := fold_left (fun v '(p, x) => <[p := x]> v) (zip ps w) v.

Lemma length_scatter ps w v : length (scatter ps w v) = length v.
Proof. unfold scatter; revert v; induction (zip ps w) as [|[p x] l IH]; intros v; [done|]; cbn; by rewrite IH, length_insert. Qed.

Lemma scatter_insert_other p x ps : p ∉ ps -> forall w v, scatter ps w (<[p := x]> v) = <[p := x]> (scatter ps w v).
Proof.
  induction ps as [|p' ps IH]; intros Hp w v; [done|]; destruct w as [|y w]; [done|]; apply not_elem_of_cons in Hp as [Hne Hp].
  unfold scatter in *; cbn; rewrite list_insert_insert_ne by done; by apply IH.
Qed.

Lemma scatter_insert ps a x : NoDup ps -> (a < length ps)%nat -> forall w v, length w = length ps ->
  scatter ps (<[a := x]> w) v = <[ps !!! a := x]> (scatter ps w v).
Proof.
  revert a; induction ps as [|p ps IH]; intros a Hnd Ha w v Hw; [simpl in Ha; lia|].
  destruct w as [|y w]; [done|]; apply list.NoDup_cons in Hnd as [Hp Hnd]; destruct a as [|a].
  - change (scatter ps w (<[p := x]> v) = <[p := x]> (scatter ps w (<[p := y]> v))).
    rewrite !scatter_insert_other by done; by rewrite list_insert_insert_eq.
  - simpl in Ha, Hw; apply (IH a Hnd ltac:(lia) w (<[p := y]> v)); lia.
Qed.

Lemma scatter_lookup ps a : NoDup ps -> (a < length ps)%nat -> forall w v, length w = length ps ->
  Forall (fun p => (p < length v)%nat) ps -> scatter ps w v !!! (ps !!! a) = w !!! a.
Proof.
  revert a; induction ps as [|p ps IH]; intros a Hnd Ha w v Hw Hb; [simpl in Ha; lia|].
  destruct w as [|y w]; [done|]; apply list.NoDup_cons in Hnd as [Hp Hnd]; apply list.Forall_cons in Hb as [Hpb Hb].
  change (scatter (p :: ps) (y :: w) v) with (scatter ps w (<[p := y]> v)); destruct a as [|a].
  - cbn [lookup_total list_lookup_total]; rewrite scatter_insert_other by done.
    by rewrite list_lookup_total_insert_eq by (rewrite length_scatter; done).
  - simpl in Ha, Hw; apply (IH a Hnd ltac:(lia)); [lia|]; by rewrite length_insert.
Qed.

Lemma scatter_gather ps v : Forall (fun p => (p < length v)%nat) ps -> scatter ps (map (fun p => v !!! p) ps) v = v.
Proof.
  induction ps as [|p ps IH]; intros Hb; [done|]; apply list.Forall_cons in Hb as [Hp Hb].
  change (scatter ps (map (fun p => v !!! p) ps) (<[p := v !!! p]> v) = v).
  rewrite list_insert_id; [by apply IH|by apply list_lookup_lookup_total_lt].
Qed.

(** ** Rounds in place *)

Lemma length_GB_at w i : length (Argon2Spec.GB_at w i) = length w.
Proof.
  destruct i as [[[a b] c] d]; unfold Argon2Spec.GB_at; destruct (Argon2Spec.GB _) as [[[? ?] ?] ?]; by rewrite !length_insert.
Qed.

Section Round.
Context (p : nat -> nat) (v : list Z) (Hnd : NoDup (map p (seq 0 16)))
  (Hb : Forall (fun x => (x < length v)%nat) (map p (seq 0 16))).
Abbreviation ps := (map p (seq 0 16)).

Lemma position_lookup a : (a < 16)%nat -> p a = ps !!! a.
Proof. intros; rewrite (lookup_map _ _ p (seq 0 16)) by (rewrite length_seq; lia); by rewrite lookup_total_seq_lt. Qed.

#[local] Opaque Blamka.G Argon2Spec.GB.

Lemma G_at_scatter a b c d w : (a < 16)%nat -> (b < 16)%nat -> (c < 16)%nat -> (d < 16)%nat -> length w = 16%nat ->
  Blamka.G_at (p a) (p b) (p c) (p d) (scatter ps w v) = scatter ps (Argon2Spec.GB_at w (a, b, c, d)) v.
Proof.
  intros Ha Hb' Hc Hd Hw; assert (Hl : length ps = 16%nat) by (by rewrite length_map, length_seq).
  unfold Blamka.G_at, Argon2Spec.GB_at; rewrite !position_lookup, !scatter_lookup, Blamka_G_spec by (done || lia).
  destruct (Argon2Spec.GB _) as [[[wa wb] wc] wd].
  rewrite !scatter_insert by (rewrite ?length_insert; (done || lia)); done.
Qed.

#[local] Opaque Blamka.G_at Argon2Spec.GB_at.

Lemma round_positions : Blamka.BLAKE2_ROUND_NOMSG p v = Argon2Spec.on_positions Argon2Spec.P ps v.
Proof.
  unfold Argon2Spec.on_positions; fold (scatter ps (Argon2Spec.P (map (fun p => v !!! p) ps)) v).
  rewrite <- (scatter_gather ps v Hb) at 1; set (w := map (fun p => v !!! p) ps).
  assert (Hw : length w = 16%nat) by (unfold w; by rewrite !length_map, length_seq).
  unfold Blamka.BLAKE2_ROUND_NOMSG, Argon2Spec.P; cbn [fold_left].
  rewrite !G_at_scatter by (rewrite ?length_GB_at; (done || lia)); done.
Qed.

End Round.

Lemma length_on_positions f ps v : length (Argon2Spec.on_positions f ps v) = length v.
Proof. apply length_scatter. Qed.

Lemma rows_positions i : (i < 8)%nat -> Argon2Spec.row i = map (column i) (seq 0 16) /\
  Argon2Spec.col i = map (row_position i) (seq 0 16).
Proof. intros Hi; do 8 (destruct i as [|i]; [split; reflexivity|]); lia. Qed.

Lemma positions_ok i : (i < 8)%nat -> (NoDup (map (column i) (seq 0 16)) /\ Forall (fun x => (x < 128)%nat) (map (column i) (seq 0 16))) /\
  (NoDup (map (row_position i) (seq 0 16)) /\ Forall (fun x => (x < 128)%nat) (map (row_position i) (seq 0 16))).
Proof.
  intros Hi; do 8 (destruct i as [|i]; [split_and!; apply (bool_decide_unpack _); vm_compute; exact I|]); lia.
Qed.

#[local] Opaque Argon2Spec.P Blamka.BLAKE2_ROUND_NOMSG Argon2Spec.row Argon2Spec.col Argon2Spec.on_positions.

Lemma permute_block_spec v : block_ok v -> permute_block v = Argon2Spec.permute v /\ block_ok (Argon2Spec.permute v).
Proof.
  intros Hv; unfold permute_block, Argon2Spec.permute.
  assert (Hloop : forall (f : nat -> list Z -> list Z) (pos : nat -> list nat) v, block_ok v ->
    (forall i v, (i < 8)%nat -> block_ok v -> f i v = Argon2Spec.on_positions Argon2Spec.P (pos i) v) ->
    for_range 0 8 f v = fold_left (fun v i => Argon2Spec.on_positions Argon2Spec.P (pos i) v) (seq 0 8) v /\
    block_ok (fold_left (fun v i => Argon2Spec.on_positions Argon2Spec.P (pos i) v) (seq 0 8) v)).
  { intros f pos u Hu Hf; change (fold_left (fun v i => Argon2Spec.on_positions Argon2Spec.P (pos i) v) (seq 0 8) u)
      with (for_range 0 8 (fun i v => Argon2Spec.on_positions Argon2Spec.P (pos i) v) u).
    apply (for_range_sim (fun _ x y => x = y /\ block_ok y)); [lia|done|]; intros i x y Hi [-> Hy].
    split; [by apply Hf; [lia|]|unfold block_ok; by rewrite length_on_positions]. }
  destruct (Hloop (fun i => Blamka.BLAKE2_ROUND_NOMSG (column i)) Argon2Spec.row v Hv) as [-> H1].
  { intros i u Hi Hu; destruct (positions_ok i Hi) as [[Hn Hb] _]; rewrite (proj1 (rows_positions i Hi)).
    apply round_positions; [done|by rewrite Hu]. }
  apply (Hloop (fun i => Blamka.BLAKE2_ROUND_NOMSG (row_position i)) Argon2Spec.col); [done|].
  intros i u Hi Hu; destruct (positions_ok i Hi) as [_ [Hn Hb]]; rewrite (proj2 (rows_positions i Hi)).
  apply round_positions; [done|by rewrite Hu].
Qed.

(** ** The block function *)

Lemma the_index_spec i : word 32 i -> the_index i = i * 2 ^ 32.
Proof.
  intros Hi; unfold the_index; rewrite <- (Z.shiftl_mul_pow2 i 32) by lia.
  assert (E : le_bytes 4 0 ++ le_bytes 4 i = le_bytes 8 (Z.shiftl i 32)).
  { change 8%nat with (4 + 4)%nat; rewrite le_bytes_app; change (8 * Z.of_nat 4) with 32.
    rewrite Z.shiftr_shiftl_l by lia; change (32 - 32) with 0; rewrite Z.shiftl_0_r; f_equal.
    rewrite <- (le_bytes_wrap 4 (Z.shiftl i 32)); change (8 * Z.of_nat 4) with 32; f_equal; symmetry.
    unfold wrap; rewrite Z.shiftl_mul_pow2 by lia; apply Z.mod_mul; lia. }
  rewrite E; apply le_word_le_bytes; rewrite Z.shiftl_mul_pow2 by lia; unfold word in *; change (8 * Z.of_nat 8) with 64; lia.
Qed.

Lemma seed_spec i h0 v : block_ok v -> word 32 i ->
  <[19%nat := le_word (read_at 24 8 h0)]> (<[18%nat := le_word (read_at 16 8 h0)]>
    (<[17%nat := le_word (read_at 8 8 h0)]> (<[16%nat := le_word (read_at 0 8 h0)]> (<[14%nat := the_index i]> v)))) =
  Argon2Spec.seed i h0 v /\ block_ok (Argon2Spec.seed i h0 v).
Proof.
  intros Hv Hi; rewrite the_index_spec by done.
  match goal with |- ?x = ?y /\ _ => assert (E : x = y) end.
  { unfold block_ok in Hv; do 20 (destruct v as [|? v]; [discriminate Hv|]); reflexivity. }
  split; [exact E|]; rewrite <- E; unfold block_ok, block in *; by rewrite !length_insert.
Qed.

Lemma fill_block_mtp_spec prev ref next over i h0 : block_ok prev -> block_ok ref -> block_ok next -> word 32 i ->
  fill_block_mtp prev ref next over i h0 = Argon2Spec.compress prev ref next over i h0 /\
  block_ok (Argon2Spec.compress prev ref next over i h0).
Proof.
  intros Hp Hr Hn Hi; unfold fill_block_mtp, Argon2Spec.compress.
  rewrite (copy_block_spec ref), (xor_block_spec ref prev) by done; set (R := Argon2Spec.bxor ref prev).
  assert (HR : block_ok R) by (by apply bxor_ok); rewrite (copy_block_spec R) by done.
  destruct (seed_spec i h0 R HR Hi) as [-> Hs]; destruct (permute_block_spec _ Hs) as [-> Hpm].
  set (T := if over then Argon2Spec.bxor R next else R).
  assert (HT : block_ok T) by (unfold T; destruct over; [by apply bxor_ok|done]).
  replace (if over then xor_block R next else R) with T by (unfold T; destruct over; [by rewrite xor_block_spec|done]).
  rewrite copy_block_spec, xor_block_spec by done; split; [done|by apply bxor_ok].
Qed.

(** The function without the words of the Merkle tree proof. *)
Lemma fill_block_spec prev ref next over : block_ok prev -> block_ok ref -> block_ok next ->
  fill_block prev ref next over =
  let R := Argon2Spec.bxor ref prev in
  Argon2Spec.bxor (if over then Argon2Spec.bxor R next else R) (Argon2Spec.permute R).
Proof.
  intros Hp Hr Hn; unfold fill_block.
  rewrite (copy_block_spec ref), (xor_block_spec ref prev) by done; set (R := Argon2Spec.bxor ref prev).
  assert (HR : block_ok R) by (by apply bxor_ok); rewrite (copy_block_spec R) by done.
  destruct (permute_block_spec _ HR) as [-> Hpm].
  assert (Hside : block_ok (Argon2Spec.bxor R next)) by (by apply bxor_ok).
  destruct over; [rewrite (xor_block_spec R) by done|];
    rewrite copy_block_spec, xor_block_spec by first [exact HR | exact Hpm | exact Hside]; reflexivity.
Qed.

(** The old block is not read unless it is XORed over. *)
Lemma fill_block_mtp_overwrites p r o o' i h : fill_block_mtp p r o false i h = fill_block_mtp p r o' false i h.
Proof. cbv beta iota zeta delta [fill_block_mtp]; reflexivity. Qed.
