(* ===== verification/Argon2Fill.v ===== *)
(** [index_alpha] picks a block of the reference set of RFC 9106.

    [fill_segment_mtp] and the single-threaded filling compute the reference:
    every index stays inside the memory, every block is the one of Argon2d in RFC 9106. *)

From S2P Require Import Prelude Blake2b Argon2 Argon2Spec.

(** The rank drawn from a 32-bit value is below the size. *)
Lemma rank_bound n x : 0 < n < 2 ^ 32 -> 0 <= x < 2 ^ 32 -> 0 <= n - 1 - n * x / 2 ^ 32 < n.
Proof.
  intros Hn Hx; assert (0 <= n * x / 2 ^ 32) by (apply Z.div_pos; nia).
  assert (n * x / 2 ^ 32 < n) by (apply Z.div_lt_upper_bound; nia); lia.
Qed.

Lemma square_bound x : 0 <= x < 2 ^ 32 -> 0 <= x ^ 2 / 2 ^ 32 < 2 ^ 32.
Proof. intros; split; [apply Z.div_pos; nia|apply Z.div_lt_upper_bound; nia]. Qed.

(** The reference set as an interval of positions modulo the lane. *)
Section Candidates.
Context (q : nat) (Hq : (2 <= q)%nat).
Abbreviation len := (4 * q)%nat.

Definition area_start (pass j : nat) : nat := if (pass =? 0)%nat then 0 else (j / q * q + q)%nat.

(** How many blocks are finished, and how many may be referenced. *)
Definition finished_size (pass j : nat) : nat := if (pass =? 0)%nat then (j / q * q)%nat else (3 * q)%nat.
Definition area_size (pass j : nat) (same : bool) : nat :=
  if same then (finished_size pass j + j mod q - 1)%nat
  else if (j mod q =? 0)%nat then (finished_size pass j - 1)%nat else finished_size pass j.

Abbreviation window pass j n := (map (fun k => (area_start pass j + k) mod len)%nat (seq 0 n)).

Lemma slice_bounds j : (j < len)%nat -> (j = j / q * q + j mod q /\ j mod q < q /\ j / q <= 3 /\ j / q * q <= 3 * q)%nat.
Proof.
  intros Hj; pose proof (Nat.div_mod j q ltac:(lia)); pose proof (Nat.mod_upper_bound j q ltac:(lia)).
  assert (j / q < 4)%nat by (apply Nat.Div0.div_lt_upper_bound; lia); nia.
Qed.

Lemma finished_window pass j : (j < len)%nat ->
  Argon2Spec.finished_blocks q pass j = window pass j (finished_size pass j).
Proof.
  intros Hj; unfold Argon2Spec.finished_blocks, area_start, finished_size, Argon2Spec.lane_len.
  destruct (pass =? 0)%nat; [|done]; destruct (slice_bounds j Hj) as (? & ? & ? & ?).
  rewrite <- (map_id (seq 0 (j / q * q))) at 1; apply map_ext_in; intros k Hk; apply in_seq in Hk.
  rewrite Nat.mod_small; lia.
Qed.

Lemma all_window pass j : (j < len)%nat ->
  Argon2Spec.finished_blocks q pass j ++ seq (j / q * q) (j mod q) = window pass j (finished_size pass j + j mod q).
Proof.
  intros Hj; rewrite finished_window by done; destruct (slice_bounds j Hj) as (? & ? & ? & ?).
  rewrite seq_app, map_app; f_equal; apply list_eq; intros k; rewrite Nat.add_0_l, list_lookup_fmap.
  destruct (decide (k < j mod q)%nat); [|by rewrite !lookup_seq_ge by lia].
  rewrite !lookup_seq_lt by done; cbn [fmap option_fmap option_map]; f_equal.
  unfold finished_size, area_start; destruct (pass =? 0)%nat; [rewrite Nat.mod_small; lia|].
  apply (Nat.mod_unique _ _ 1); lia.
Qed.

Lemma removelast_map_seq {A} (f : nat -> A) n : removelast (map f (seq 0 n)) = map f (seq 0 (n - 1)).
Proof.
  destruct n as [|n]; [done|]; rewrite seq_S, map_app; cbn [map]; rewrite removelast_last; do 2 f_equal; lia.
Qed.

Lemma candidates_window pass j same : (j < len)%nat ->
  Argon2Spec.candidates q pass j same = window pass j (area_size pass j same).
Proof.
  intros Hj; unfold Argon2Spec.candidates, area_size; destruct same; [by rewrite all_window, removelast_map_seq|].
  rewrite finished_window by done; destruct (j mod q =? 0)%nat; [by rewrite removelast_map_seq|done].
Qed.

(** When block [j] is computed: never the first blocks, and in the first slice
    only the own lane is referenced. *)
Definition reachable (pass j : nat) (same : bool) : Prop :=
  (j < len)%nat /\ (pass = 0%nat -> (2 <= j)%nat) /\ (pass = 0%nat -> (j < q)%nat -> same = true).

Lemma area_positive pass j same : reachable pass j same -> (1 <= area_size pass j same <= len)%nat.
Proof.
  intros (Hj & Hj2 & Hs); destruct (slice_bounds j Hj) as (? & ? & ? & ?); unfold area_size, finished_size.
  destruct (Nat.eqb_spec pass 0) as [->|]; [specialize (Hj2 eq_refl); specialize (Hs eq_refl)|].
  - destruct same; [lia|]; destruct (Nat.lt_ge_cases j q); [by specialize (Hs ltac:(done))|].
    assert (1 <= j / q)%nat by (apply Nat.div_le_lower_bound; lia).
    destruct (Nat.eqb_spec (j mod q) 0); nia.
  - destruct same; [lia|]; destruct (Nat.eqb_spec (j mod q) 0); lia.
Qed.

Lemma choose_window pass j same j1 : reachable pass j same -> Z.of_nat len < 2 ^ 32 -> 0 <= j1 < 2 ^ 32 ->
  let n := Z.of_nat (area_size pass j same) in
  Argon2Spec.choose (Argon2Spec.candidates q pass j same) j1 =
  ((area_start pass j + Z.to_nat (n - 1 - n * (j1 ^ 2 / 2 ^ 32) / 2 ^ 32)) mod len)%nat.
Proof.
  intros Hr Hl Hj1 n; pose proof (area_positive pass j same Hr); pose proof (square_bound j1 Hj1).
  pose proof (rank_bound n (j1 ^ 2 / 2 ^ 32) ltac:(unfold n; lia) ltac:(lia)).
  unfold Argon2Spec.choose; rewrite candidates_window by apply Hr; rewrite length_map, length_seq; fold n.
  rewrite (lookup_map _ _ _ (seq 0 (area_size pass j same))) by (rewrite length_seq; unfold n in *; lia).
  rewrite lookup_total_seq_lt by (unfold n in *; lia); by rewrite Nat.add_0_l.
Qed.

Lemma choose_bound pass j same j1 : reachable pass j same -> Z.of_nat len < 2 ^ 32 -> 0 <= j1 < 2 ^ 32 ->
  (Argon2Spec.choose (Argon2Spec.candidates q pass j same) j1 < len)%nat.
Proof. intros; rewrite choose_window by done; apply Nat.mod_upper_bound; lia. Qed.

Lemma choose_in pass j same j1 : reachable pass j same -> Z.of_nat len < 2 ^ 32 -> 0 <= j1 < 2 ^ 32 ->
  Argon2Spec.choose (Argon2Spec.candidates q pass j same) j1 ∈ Argon2Spec.candidates q pass j same.
Proof.
  intros Hr Hl Hj1; pose proof (area_positive pass j same Hr); pose proof (square_bound j1 Hj1).
  pose proof (rank_bound (Z.of_nat (area_size pass j same)) (j1 ^ 2 / 2 ^ 32) ltac:(lia) ltac:(lia)).
  unfold Argon2Spec.choose; rewrite candidates_window by apply Hr; rewrite length_map, length_seq.
  eapply list_elem_of_lookup_2, list_lookup_lookup_total_lt; rewrite length_map, length_seq; lia.
Qed.

(** No candidate is the block that is computed, nor the previous block of the
    own lane, nor in the segment another lane is filling. *)
Lemma candidates_avoid pass j same k : reachable pass j same -> k ∈ Argon2Spec.candidates q pass j same ->
  (k < len)%nat /\ if same then k <> j /\ k <> (if j =? 0 then len - 1 else j - 1)%nat else (k / q <> j / q)%nat.
Proof.
  intros Hr; pose proof Hr as (Hj & Hj2 & Hs); rewrite candidates_window by done; intros Hk.
  apply list_elem_of_fmap in Hk as (i & -> & Hi); apply elem_of_seq in Hi as [_ Hi]; rewrite Nat.add_0_l in Hi.
  split; [apply Nat.mod_upper_bound; lia|]; destruct (slice_bounds j Hj) as (Hdec & Hm & Hd & Hd').
  unfold area_size, finished_size, area_start in *; set (s := (j / q)%nat) in *.
  destruct (Nat.eqb_spec pass 0) as [->|Hp].
  - rewrite Nat.add_0_l; assert (i < len)%nat by (destruct same, (j mod q =? 0)%nat; lia); rewrite Nat.mod_small by done.
    specialize (Hj2 eq_refl); destruct same; [destruct (Nat.eqb_spec j 0); lia|].
    assert (i / q < s)%nat by (apply Nat.Div0.div_lt_upper_bound; destruct (j mod q =? 0)%nat; lia); lia.
  - assert (Hi3 : (i < 3 * q + if same then j mod q else 0)%nat) by (destruct same, (j mod q =? 0)%nat; lia).
    destruct (Nat.lt_ge_cases (s * q + q + i) len) as [Hlt|Hge].
    + rewrite Nat.mod_small by done; destruct same; [destruct (Nat.eqb_spec j 0); lia|].
      assert (s + 1 <= (s * q + q + i) / q)%nat by (apply Nat.div_le_lower_bound; nia); lia.
    + rewrite <- (Nat.mod_unique (s * q + q + i) len 1 (s * q + q + i - len)) by (destruct same; lia).
      destruct same; [destruct (Nat.eqb_spec j 0); lia|].
      assert ((s * q + q + i - len) / q < s)%nat by (apply Nat.Div0.div_lt_upper_bound; nia); lia.
Qed.

End Candidates.

(** ** The code *)

Section Index.
Context (inst : argon2_instance_t) (q : nat) (Hq : (2 <= q)%nat)
  (Hs : inst.(segment_length) = Z.of_nat q) (Hl : inst.(lane_length) = Z.of_nat (4 * q))
  (Hlen : Z.of_nat (4 * q) < 2 ^ 32).

(** Position of block [j] of lane [l]. *)
Definition position_of (pass l j : nat) : argon2_position_t :=
  Argon2Position (Z.of_nat pass) (Z.of_nat l) (Z.of_nat (j / q)) (Z.of_nat (j mod q)).

Lemma of_nat_eqb0 n : (0 =? Z.of_nat n) = (n =? 0)%nat.
Proof. destruct n; reflexivity. Qed.

Lemma reference_area_spec pass l j same : reachable q pass j same ->
  reference_area inst.(segment_length) inst.(lane_length) (position_of pass l j) same = Z.of_nat (area_size q pass j same).
Proof.
  intros Hr; pose proof (area_positive q Hq pass j same Hr) as Hp; destruct Hr as (Hj & Hj2 & Hsame).
  destruct (slice_bounds q Hq j Hj) as (Hdec & Hm & Hd & Hd').
  unfold reference_area, position_of; cbn [Argon2.pass Argon2.slice Argon2.index]; rewrite Hs, Hl, !of_nat_eqb0.
  rewrite (Z.eqb_sym (Z.of_nat (j mod q)) 0), of_nat_eqb0.
  unfold area_size, finished_size in *; unfold u32.
  destruct (Nat.eqb_spec pass 0) as [->|Hp0].
  - destruct (Nat.eqb_spec (j / q) 0) as [E|E].
    + assert (Hlt : (j < q)%nat) by nia; rewrite (Hsame eq_refl Hlt) in *; specialize (Hj2 eq_refl).
      rewrite wrap_id by (unfold word; nia); nia.
    + destruct same; [rewrite wrap_id by (unfold word; nia); nia|].
      destruct (Nat.eqb_spec (j mod q) 0); rewrite wrap_id by (unfold word; nia); nia.
  - destruct same; [rewrite wrap_id by (unfold word; nia); nia|].
    destruct (Nat.eqb_spec (j mod q) 0); rewrite wrap_id by (unfold word; nia); nia.
Qed.

Lemma index_alpha_spec pass l j same j1 : reachable q pass j same -> 0 <= j1 < 2 ^ 32 ->
  index_alpha inst (position_of pass l j) j1 same =
  Z.of_nat (Argon2Spec.choose (Argon2Spec.candidates q pass j same) j1).
Proof.
  intros Hr Hj1; rewrite choose_window by done; unfold index_alpha; rewrite reference_area_spec by done.
  pose proof (area_positive q Hq pass j same Hr) as Hp; pose proof (square_bound j1 Hj1).
  destruct Hr as (Hj & _); destruct (slice_bounds q Hq j Hj) as (Hdec & Hm & Hd & Hd').
  set (n := Z.of_nat (area_size q pass j same)) in *.
  pose proof (rank_bound n (j1 ^ 2 / 2 ^ 32) ltac:(unfold n; lia) ltac:(lia)).
  assert (E1 : Z.shiftr (u64 (j1 * j1)) 32 = j1 ^ 2 / 2 ^ 32)
    by (unfold u64; rewrite wrap_id by (unfold word; nia); rewrite Z.shiftr_div_pow2 by lia; f_equal; lia).
  assert (E2 : Z.shiftr (u64 (n * (j1 ^ 2 / 2 ^ 32))) 32 = n * (j1 ^ 2 / 2 ^ 32) / 2 ^ 32)
    by (unfold u64; rewrite wrap_id by (unfold word, n in *; nia); by rewrite Z.shiftr_div_pow2 by lia).
  cbv zeta; rewrite E1, E2; set (y := n * (j1 ^ 2 / 2 ^ 32) / 2 ^ 32) in *.
  assert (Hn : 1 <= n <= Z.of_nat (4 * q)) by (unfold n; lia); assert (Hy : 0 <= y <= n - 1) by lia; clearbody n y.
  assert (E3 : u64 (u32 (n - 1) - y) = n - 1 - y)
    by (unfold u64, u32; rewrite (wrap_id 32), wrap_id by (unfold word; lia); lia).
  rewrite E3, Hl, Hs; unfold position_of, area_start; cbn [Argon2.pass Argon2.slice]; rewrite of_nat_eqb0.
  assert (Hwrap : forall st, (st <= 3 * q)%nat ->
    u32 (u64 (Z.of_nat st + (n - 1 - y)) mod Z.of_nat (4 * q)) =
    Z.of_nat ((st + Z.to_nat (n - 1 - y)) mod (4 * q))).
  { intros st Hst; unfold u64; rewrite wrap_id by (unfold word; lia).
    pose proof (Z.mod_pos_bound (Z.of_nat st + (n - 1 - y)) (Z.of_nat (4 * q)) ltac:(lia)).
    unfold u32; rewrite wrap_id by (unfold word; lia); rewrite Nat2Z.inj_mod; f_equal; lia. }
  destruct (Nat.eqb_spec pass 0) as [->|Hp0]; [apply (Hwrap 0%nat); lia|].
  destruct (Z.eqb_spec (Z.of_nat (j / q)) (ARGON2_SYNC_POINTS - 1)) as [E|E].
  - unfold ARGON2_SYNC_POINTS in E; pose proof (Hwrap 0%nat ltac:(lia)) as Hw0; change (Z.of_nat 0) with 0 in Hw0; rewrite Hw0; f_equal; rewrite Nat.add_0_l.
    replace (j / q)%nat with 3%nat by lia; replace (3 * q + q + Z.to_nat (n - 1 - y))%nat
      with (Z.to_nat (n - 1 - y) + 1 * (4 * q))%nat by lia; by rewrite Nat.Div0.mod_add.
  - unfold ARGON2_SYNC_POINTS in E; unfold u32 at 2; rewrite wrap_id by (unfold word; nia).
    replace ((Z.of_nat (j / q) + 1) * Z.of_nat q) with (Z.of_nat (j / q * q + q)) by lia; apply Hwrap; nia.
Qed.

End Index.

(** An instance of [lanes] lanes with segments of [q] blocks. *)
Record inst_ok (inst : argon2_instance_t) (lanes q : nat) : Prop := InstOk {
  io_segment : inst.(segment_length) = Z.of_nat q;
  io_lane : inst.(lane_length) = Z.of_nat (4 * q);
  io_lanes : inst.(i_lanes) = Z.of_nat lanes;
  io_q : (2 <= q)%nat;
  io_pos : (1 <= lanes)%nat;
  io_size : Z.of_nat (lanes * (4 * q)) < 2 ^ 32
}.

Section Fill.
Context (inst : argon2_instance_t) (lanes q : nat) (Hok : inst_ok inst lanes q).

Abbreviation v10 := (ARGON2_VERSION_10 =? inst.(i_version)).
Abbreviation cell := (Argon2Spec.cell q).
Abbreviation prev_cell := (Argon2Spec.prev_cell q).
Abbreviation ref_cell := (Argon2Spec.ref_cell lanes q).
Abbreviation visit := (Argon2Spec.visit lanes q v10 inst.(hash_zero) fill_block_mtp).

(** Lane [l] may compute block [j] in pass [r]. *)
Definition can_fill (r l j : nat) : Prop := (l < lanes)%nat /\ (j < 4 * q)%nat /\ (r = 0%nat -> (2 <= j)%nat).

Definition segment_pos (r l s : nat) : argon2_position_t := Argon2Position (Z.of_nat r) (Z.of_nat l) (Z.of_nat s) 0.

Lemma cell_lt l j : (l < lanes)%nat -> (j < 4 * q)%nat -> (cell l j < lanes * (4 * q))%nat.
Proof. intros; unfold Argon2Spec.cell, Argon2Spec.lane_len; nia. Qed.

Lemma cell_inj l j l' j' : (j < 4 * q)%nat -> (j' < 4 * q)%nat -> cell l j = cell l' j' -> l = l' /\ j = j'.
Proof. unfold Argon2Spec.cell, Argon2Spec.lane_len; intros; assert (l = l') by nia; subst; split; lia. Qed.

Lemma prev_cell_lt l j : (l < lanes)%nat -> (j < 4 * q)%nat -> (prev_cell l j < lanes * (4 * q))%nat.
Proof. destruct Hok; intros; unfold Argon2Spec.prev_cell; apply cell_lt; [done|]; unfold Argon2Spec.lane_len; destruct (j =? 0)%nat; lia. Qed.

Lemma lane_lt : Z.of_nat (4 * q) < 2 ^ 32.
Proof. destruct Hok; nia. Qed.

(** ** The reference block *)

Lemma ref_lane_lt r l j w : (l < lanes)%nat -> (Argon2Spec.ref_lane lanes q r l j w < lanes)%nat.
Proof.
  destruct Hok; intros; unfold Argon2Spec.ref_lane; destruct (_ && _); [done|].
  pose proof (Z.mod_pos_bound (w / 2 ^ 32) (Z.of_nat lanes) ltac:(lia)); lia.
Qed.

Lemma ref_reachable r l j w : can_fill r l j ->
  reachable q r j (Argon2Spec.ref_lane lanes q r l j w =? l)%nat.
Proof.
  destruct Hok; intros (Hl & Hj & Hj2); split_and!; [done..|]; intros -> Hjq; unfold Argon2Spec.ref_lane.
  rewrite Nat.div_small by done; apply Nat.eqb_refl.
Qed.

Lemma ref_cell_lt r l j w : can_fill r l j -> (ref_cell r l j w < lanes * (4 * q))%nat.
Proof.
  intros Hc; pose proof lane_lt; unfold Argon2Spec.ref_cell; apply cell_lt; [apply ref_lane_lt, Hc|].
  apply choose_bound; [apply Hok|by apply ref_reachable|done|apply Z.mod_pos_bound; lia].
Qed.

Lemma reference_block_spec r l j w : can_fill r l j ->
  reference_block inst (segment_pos r l (j / q)) (Z.of_nat (j mod q)) w = Z.of_nat (ref_cell r l j w).
Proof.
  intros Hc; pose proof (ref_cell_lt r l j w Hc) as Hb; pose proof (ref_lane_lt r l j w ltac:(apply Hc)) as Hrl.
  pose proof lane_lt; destruct Hok as [Hs Hla Hln Hq Hp Hsz]; unfold reference_block, segment_pos; cbn [pass lane slice].
  rewrite Hln, Z.shiftr_div_pow2 by lia.
  assert (Hrl' : (if (Z.of_nat r =? 0) && (Z.of_nat (j / q) =? 0) then Z.of_nat l else w / 2 ^ 32 mod Z.of_nat lanes) =
    Z.of_nat (Argon2Spec.ref_lane lanes q r l j w)).
  { unfold Argon2Spec.ref_lane; rewrite !(Z.eqb_sym _ 0), !of_nat_eqb0; destruct (_ && _); [done|].
    pose proof (Z.mod_pos_bound (w / 2 ^ 32) (Z.of_nat lanes) ltac:(lia)); lia. }
  cbv zeta; rewrite Hrl'; clear Hrl'; set (rl := Argon2Spec.ref_lane lanes q r l j w) in *.
  assert (Heq : (Z.of_nat rl =? Z.of_nat l) = (rl =? l)%nat) by (destruct (Nat.eqb_spec rl l), (Z.eqb_spec (Z.of_nat rl) (Z.of_nat l)); lia).
  change 0xFFFFFFFF with (Z.ones 32); rewrite Heq, wrap_ones by lia.
  change (with_index _ _) with (position_of q r l j).
  rewrite (index_alpha_spec inst q Hq Hs Hla) by (done || (by apply ref_reachable) || (apply Z.mod_pos_bound; lia)).
  unfold u64; rewrite Hla; unfold Argon2Spec.ref_cell, Argon2Spec.cell, Argon2Spec.lane_len in *; fold rl in Hb |- *.
  unfold wrap at 2; rewrite wrap_id by (unfold word; lia); lia.
Qed.

(** ** One block *)

(** The loop variables before block [j]; [prev] is corrected in the body when
    [j] is 1. *)
Definition offsets_at (l j : nat) (curr prev : Z) : Prop :=
  curr = Z.of_nat (cell l j) /\ (j <> 1%nat -> prev = Z.of_nat (prev_cell l j)).

Lemma segment_step_spec r l j curr prev mem : can_fill r l j -> length mem = (lanes * (4 * q))%nat ->
  offsets_at l j curr prev ->
  exists curr' prev', segment_step inst (segment_pos r l (j / q)) (Z.of_nat (j mod q)) (curr, prev, mem) =
      Some (curr', prev', visit r l j mem) /\
    ((j + 1 < 4 * q)%nat -> offsets_at l (j + 1) curr' prev').
Proof.
  intros Hc Hm [-> Hprev]; pose proof Hc as (Hl & Hj & Hj2).
  pose proof (cell_lt l j Hl Hj) as Hcl; pose proof (prev_cell_lt l j Hl Hj) as Hpl.
  destruct Hok as [Hs Hla Hln Hq Hp Hsz].
  unfold segment_step; rewrite Hla.
  assert (Hmod : Z.of_nat (cell l j) mod Z.of_nat (4 * q) = Z.of_nat j).
  { rewrite <- Nat2Z.inj_mod; f_equal; unfold Argon2Spec.cell, Argon2Spec.lane_len.
    rewrite Nat.add_comm, Nat.Div0.mod_add, Nat.mod_small; lia. }
  assert (Hp' : (if Z.of_nat (cell l j) mod Z.of_nat (4 * q) =? 1 then u32 (Z.of_nat (cell l j) - 1) else prev) =
    Z.of_nat (prev_cell l j)).
  { rewrite Hmod; destruct (Z.eqb_spec (Z.of_nat j) 1) as [E|E]; [|apply Hprev; lia].
    replace j with 1%nat in * by lia; unfold u32; rewrite wrap_id by (unfold word, Argon2Spec.cell in *; lia).
    unfold Argon2Spec.prev_cell, Argon2Spec.cell; simpl; lia. }
  rewrite Hp', !Nat2Z.id; rewrite (list_lookup_lookup_total_lt mem (prev_cell l j)) by lia; cbn [mbind option_bind].
  set (w := (mem !!! prev_cell l j) !!! 0%nat).
  pose proof (ref_cell_lt r l j w Hc) as Hrl.
  rewrite reference_block_spec, Nat2Z.id by done; rewrite (list_lookup_lookup_total_lt mem (ref_cell r l j w)) by lia.
  cbn [mbind option_bind]; rewrite (list_lookup_lookup_total_lt mem (cell l j)) by lia; cbn [mbind option_bind].
  do 2 eexists; split.
  - do 2 f_equal; unfold Argon2Spec.visit; f_equal; unfold Argon2Spec.new_block; fold w; f_equal.
    + unfold with_xor, segment_pos; cbn [pass]; rewrite of_nat_eqb0; by destruct v10, (r =? 0)%nat.
    + unfold u32; apply wrap_id; unfold word; match goal with |- 0 <= Z.of_nat ?x < _ => change x with (ref_cell r l j w) end; lia.
  - intros Hj1; split.
    + unfold u32; rewrite wrap_id by (unfold word; lia); unfold Argon2Spec.cell; lia.
    + intros Hne; unfold u32; rewrite wrap_id by (unfold word; lia).
      unfold Argon2Spec.prev_cell, Argon2Spec.cell in *; destruct (Nat.eqb_spec j 0), (Nat.eqb_spec (j + 1) 0); lia.
Qed.
(** ** Segments *)

Lemma length_visit r l j M : length (visit r l j M) = length M.
Proof. apply length_insert. Qed.

Lemma index_of_block s i : (i < q)%nat -> ((s * q + i) / q = s /\ (s * q + i) mod q = i)%nat.
Proof.
  destruct Hok; intros; split; [rewrite Nat.add_comm, Nat.div_add, Nat.div_small; lia|].
  rewrite Nat.add_comm, Nat.Div0.mod_add, Nat.mod_small; lia.
Qed.

Lemma segment_can_fill r l s i : (l < lanes)%nat -> (s < 4)%nat -> (Argon2Spec.first_index r s <= i < q)%nat ->
  can_fill r l (s * q + i).
Proof.
  destruct Hok; intros Hl Hs' Hi; split_and!; [done|nia|]; intros ->; unfold Argon2Spec.first_index in Hi.
  destruct s; simpl in Hi; nia.
Qed.

Lemma starting_index_spec r l s : starting_index (segment_pos r l s) = Z.of_nat (Argon2Spec.first_index r s).
Proof. unfold starting_index, segment_pos, Argon2Spec.first_index; cbn [pass slice]; rewrite !of_nat_eqb0; by destruct (_ && _). Qed.

Lemma first_offsets_spec r l s : (l < lanes)%nat -> (s < 4)%nat ->
  let '(curr, prev) := first_offsets inst (segment_pos r l s) in
  offsets_at l (s * q + Argon2Spec.first_index r s) curr prev.
Proof.
  intros Hl Hs'; unfold first_offsets; rewrite starting_index_spec; pose proof Hok as [Hs Hla Hln Hq Hp Hsz].
  set (i := Argon2Spec.first_index r s); assert (Hi : (i = 0 \/ i = 2 /\ s = 0)%nat).
  { unfold i, Argon2Spec.first_index; destruct (Nat.eqb_spec s 0), (r =? 0)%nat; simpl; lia. }
  assert (Hj : (s * q + i < 4 * q \/ (q = 2 /\ i = 2 /\ s = 0))%nat) by nia.
  unfold segment_pos; cbn [lane slice]; rewrite Hs, Hla.
  assert (Hc : u32 (Z.of_nat l * Z.of_nat (4 * q) + Z.of_nat s * Z.of_nat q + Z.of_nat i) = Z.of_nat (cell l (s * q + i))).
  { unfold u32, Argon2Spec.cell, Argon2Spec.lane_len; rewrite wrap_id; [lia|unfold word; nia]. }
  rewrite Hc; unfold offsets_at; split; [done|]; intros Hne.
  assert (Hmod : Z.of_nat (cell l (s * q + i)) mod Z.of_nat (4 * q) = Z.of_nat (s * q + i)).
  { rewrite <- Nat2Z.inj_mod; f_equal; unfold Argon2Spec.cell, Argon2Spec.lane_len.
    rewrite Nat.add_comm, Nat.Div0.mod_add, Nat.mod_small; lia. }
  rewrite Hmod, of_nat_eqb0; pose proof (cell_lt l (s * q + i)) as Hlt; unfold Argon2Spec.prev_cell.
  destruct (Nat.eqb_spec (s * q + i) 0) as [E|E]; unfold u32; rewrite wrap_id;
    unfold word, Argon2Spec.cell, Argon2Spec.lane_len in *; nia.
Qed.

Lemma fill_segment_spec r l s mem : (l < lanes)%nat -> (s < 4)%nat -> length mem = (lanes * (4 * q))%nat ->
  fill_segment_mtp inst (segment_pos r l s) mem =
    Some (Argon2Spec.segment lanes q v10 inst.(hash_zero) fill_block_mtp r s l mem) /\
  length (Argon2Spec.segment lanes q v10 inst.(hash_zero) fill_block_mtp r s l mem) = (lanes * (4 * q))%nat.
Proof.
  intros Hl Hs' Hm; unfold fill_segment_mtp, Argon2Spec.segment.
  pose proof (first_offsets_spec r l s Hl Hs') as Hoff; destruct (first_offsets _ _) as [curr prev].
  rewrite starting_index_spec, (io_segment _ _ _ Hok), !Nat2Z.id; set (i0 := Argon2Spec.first_index r s) in *.
  assert (Hi0 : (i0 <= q)%nat) by (destruct Hok; unfold i0, Argon2Spec.first_index; destruct (_ && _); lia).
  destruct (for_rangeM_sim (fun i '(c, p, m) M => m = M /\ length M = (lanes * (4 * q))%nat /\
      ((i < q)%nat -> offsets_at l (s * q + i) c p)) i0 q
    (fun i st => segment_step inst (segment_pos r l s) (Z.of_nat i) st)
    (fun i => visit r l (s * q + i)) (curr, prev, mem) mem) as ([[c p] m] & -> & Hm' & Hlen & _); [lia|by split_and!| |].
  - intros i [[c p] m] M Hi (-> & HM & Ho).
    destruct (index_of_block s i ltac:(lia)) as [Hd Hmd].
    destruct (segment_step_spec r l (s * q + i) c p M) as (c' & p' & Hstep & Hnext);
      [apply segment_can_fill; unfold i0 in *; lia|done|apply Ho; lia|].
    rewrite Hd, Hmd in Hstep; eexists; split; [exact Hstep|]; split_and!; [done|by rewrite length_visit|].
    intros Hi1; replace (s * q + (i + 1))%nat with (s * q + i + 1)%nat by lia; apply Hnext; nia.
  - cbn [mbind option_bind]; by rewrite Hm'.
Qed.

(** ** The whole memory *)

Lemma fill_memory_spec mem : length mem = (lanes * (4 * q))%nat ->
  fill_memory_blocks_st_mtp inst mem =
  Some (ARGON2_OK, Argon2Spec.fill lanes q v10 inst.(hash_zero) fill_block_mtp (Z.to_nat inst.(passes)) mem).
Proof.
  intros Hm; unfold fill_memory_blocks_st_mtp, Argon2Spec.fill; rewrite (io_lanes _ _ _ Hok), Nat2Z.id.
  set (F r s l := Argon2Spec.segment lanes q v10 inst.(hash_zero) fill_block_mtp r s l).
  assert (Hseg : forall r s M, (s < 4)%nat -> length M = (lanes * (4 * q))%nat -> exists M',
    for_rangeM 0 lanes (fun l mem =>
      fill_segment_mtp inst (Argon2Position (Z.of_nat r) (Z.of_nat l) (u8 (Z.of_nat s)) 0) mem) M = Some M' /\
    M' = for_range 0 lanes (F r s) M /\ length M' = (lanes * (4 * q))%nat).
  { intros r s M Hs HM; destruct (for_rangeM_sim (fun _ m M => m = M /\ length M = (lanes * (4 * q))%nat) 0 lanes
      (fun l mem => fill_segment_mtp inst (Argon2Position (Z.of_nat r) (Z.of_nat l) (u8 (Z.of_nat s)) 0) mem)
      (F r s) M M) as (M' & HM' & -> & Hl'); [lia|done| |by eexists].
    intros l m M1 Hl [-> HM1]; unfold u8; rewrite wrap_id by (unfold word; lia).
    destruct (fill_segment_spec r l s M1) as [Hf Hlf]; [lia|done..|]; eexists; split; [exact Hf|]; by split. }
  destruct (for_rangeM_sim (fun _ m M => m = M /\ length M = (lanes * (4 * q))%nat) 0 (Z.to_nat inst.(passes))
    (fun r mem => for_rangeM 0 (Z.to_nat ARGON2_SYNC_POINTS) (fun s mem => for_rangeM 0 lanes (fun l mem =>
      fill_segment_mtp inst (Argon2Position (Z.of_nat r) (Z.of_nat l) (u8 (Z.of_nat s)) 0) mem) mem) mem)
    (fun r => for_range 0 4 (fun s => for_range 0 lanes (fun l => F r s l))) mem mem) as (M' & -> & -> & _);
    [lia|done| |done].
  intros r m M Hr [-> HM]; change (Z.to_nat ARGON2_SYNC_POINTS) with 4%nat.
  destruct (for_rangeM_sim (fun _ m M => m = M /\ length M = (lanes * (4 * q))%nat) 0 4
    (fun s mem => for_rangeM 0 lanes (fun l mem =>
      fill_segment_mtp inst (Argon2Position (Z.of_nat r) (Z.of_nat l) (u8 (Z.of_nat s)) 0) mem) mem)
    (fun s => for_range 0 lanes (F r s)) M M) as (M' & HM' & -> & Hl'); [lia|done| |by eexists].
  intros s m M1 Hs [-> HM1]; destruct (Hseg r s M1) as (M2 & H2 & -> & Hl2); [lia|done|]; eexists; by split.
Qed.

End Fill.
