(* ===== verification/Argon2Init.v ===== *)
(** Hashing of the inputs, first blocks, initialisation and the final tag of
    the Argon2 core against RFC 9106. *)

From S2P Require Import Prelude BlakeSpec Rfc7693 Blake2b Blake2bProofs Blake2bTheorems Argon2 Argon2Spec Argon2Block Argon2Fill.

#[local] Opaque Rfc7693.hash Rfc7693.hash_long blake2b_long.

(** ** Updates whose return value is ignored *)

Lemma feed_spec nn d st bytes len : absorbed 12 0 nn d st -> (Z.to_nat len <= length bytes)%nat ->
  exists st', feed bytes len (Some st) = Some st' /\ absorbed 12 0 nn (d ++ take (Z.to_nat len) bytes) st'.
Proof.
  intros Ha Hl; destruct (update_spec blake2b_compress 12 0 nn d st (take (Z.to_nat len) bytes) Ha) as (st' & Hu & Ha').
  exists st'; split; [|done]; unfold feed, blake2b_update.
  rewrite length_take, Nat.min_l in Hu by done; unfold update_with in *.
  destruct (Z.to_nat len =? 0)%nat; [by simplify_eq|]; rewrite firstn_firstn, Nat.min_id in Hu.
  destruct (negb _); simplify_eq; reflexivity.
Qed.

Lemma feed32_spec nn d st x : absorbed 12 0 nn d st ->
  exists st', feed32 x (Some st) = Some st' /\ absorbed 12 0 nn (d ++ le_bytes 4 x) st'.
Proof.
  intros Ha; unfold feed32; destruct (feed_spec nn d st (store32 x) 4 Ha) as (st' & -> & Ha'); [simpl; lia|].
  exists st'; split; [done|]; by rewrite store32_le, take_ge in Ha' by (rewrite length_le_bytes; simpl; lia).
Qed.

(** The bytes behind a pointer that may be NULL. *)
Definition ptr_bytes (p : option (list Z)) (len : Z) : list Z := match p with Some b => take (Z.to_nat len) b | None => [] end.
Definition buffer_ok (p : option (list Z)) (len : Z) : Prop := match p with Some b => (Z.to_nat len <= length b)%nat | None => True end.

Lemma feed_ptr_spec nn d st p len : absorbed 12 0 nn d st -> buffer_ok p len ->
  exists st', feed_ptr p len (Some st) = Some st' /\ absorbed 12 0 nn (d ++ ptr_bytes p len) st'.
Proof. intros Ha Hb; destruct p as [b|]; [by apply feed_spec|]; exists st; by rewrite app_nil_r. Qed.

(** ** H0 *)

Definition H0_input (c : argon2_context) (type : argon2_type) : list Z :=
  le_bytes 4 c.(lanes) ++ le_bytes 4 c.(outlen) ++ le_bytes 4 c.(m_cost) ++ le_bytes 4 c.(t_cost) ++
  le_bytes 4 c.(version) ++ le_bytes 4 (type_code type) ++
  le_bytes 4 c.(pwdlen) ++ ptr_bytes c.(pwd) c.(pwdlen) ++ le_bytes 4 c.(saltlen) ++ ptr_bytes c.(salt) c.(saltlen) ++
  le_bytes 4 c.(secretlen) ++ ptr_bytes c.(secret) c.(secretlen) ++ le_bytes 4 c.(adlen) ++ ptr_bytes c.(ad) c.(adlen).

Definition H0 (c : argon2_context) (type : argon2_type) : list Z := Rfc7693.blake2b 64 [] (H0_input c type).

Lemma length_H0 c type : length (H0 c type) = 64%nat.
Proof. by apply length_blake2b. Qed.

Definition buffers_ok (c : argon2_context) : Prop :=
  buffer_ok c.(pwd) c.(pwdlen) /\ buffer_ok c.(salt) c.(saltlen) /\ buffer_ok c.(secret) c.(secretlen) /\ buffer_ok c.(ad) c.(adlen).

(** The next call in a sequence of updates. *)
Ltac feed_one :=
  match goal with
  | Ha : absorbed 12 0 64 ?d ?st |- context [feed32 ?x (Some ?st)] =>
    let st' := fresh "st" in let Ha' := fresh "Ha" in
    destruct (feed32_spec 64 d st x Ha) as (st' & -> & Ha'); clear Ha
  | Ha : absorbed 12 0 64 ?d ?st, Hb : buffer_ok ?p ?l |- context [feed_ptr ?p ?l (Some ?st)] =>
    let st' := fresh "st" in let Ha' := fresh "Ha" in
    destruct (feed_ptr_spec 64 d st p l Ha Hb) as (st' & -> & Ha'); clear Ha
  end.

Lemma initial_hash_spec S0 bh c type : buffers_ok c -> (64 <= length bh)%nat ->
  initial_hash S0 (Some bh) (Some c) type = (Some (H0 c type ++ drop 64 bh), Some (clear_inputs c)).
Proof.
  intros (Hp & Hs & Hse & Had) Hbh; unfold initial_hash, ARGON2_PREHASH_DIGEST_LENGTH.
  destruct (blake2b_init_spec S0 64 ltac:(lia)) as (st & -> & Hab); specialize (Hab 12%nat).
  do 14 feed_one.
  match goal with Ha : absorbed 12 0 64 ?d ?st |- _ =>
    destruct (final_spec blake2b_compress 12 0 64 d st bh 64 Ha ltac:(lia) ltac:(lia)) as (st' & Hfin & _); clear Ha end.
  unfold blake2b_final; rewrite Hfin; unfold H0, Rfc7693.blake2b.
  rewrite <- (digest_hash 12 64 [] (H0_input c type)); unfold Rfc7693.data; cbn [length Nat.eqb].
  unfold H0_input; rewrite app_nil_l, <- !app_assoc; reflexivity.
Qed.

(** ** Blocks as bytes *)

Definition block_of_bytes (b : list Z) : block := map (fun i => le_word (read_at (i * 8) 8 b)) (seq 0 128).
Definition bytes_of_block (b : block) : list Z := concat (map (le_bytes 8) b).

Lemma block_of_bytes_ok b : block_ok (block_of_bytes b).
Proof. unfold block_ok, block_of_bytes; by rewrite length_map, length_seq. Qed.

Lemma load_block_spec dst b : block_ok dst -> length b = 1024%nat -> load_block dst b = block_of_bytes b.
Proof.
  intros Hd Hb; unfold load_block; rewrite (set_all_spec _ (fun i _ => load64 (read_at (i * 8) 8 b))) by exact Hd.
  apply map_ext_in; intros i Hi; apply in_seq in Hi; unfold ARGON2_QWORDS_IN_BLOCK in Hi.
  apply load64_le; rewrite length_read_at by lia; done.
Qed.

Lemma length_bytes_of_block b : length (bytes_of_block b) = (8 * length b)%nat.
Proof. unfold bytes_of_block; induction b as [|x b IH]; [done|]; cbn [map concat length]; rewrite length_app, length_le_bytes, IH; lia. Qed.

Lemma store_block_spec o b : block_ok b -> length o = 1024%nat -> store_block o b = bytes_of_block b.
Proof.
  intros Hb Ho; unfold store_block, ARGON2_QWORDS_IN_BLOCK, bytes_of_block.
  cut (for_range 0 128 (fun i output => write_at (i * 8) (store64 (b !!! i)) output) o =
    concat (map (le_bytes 8) (take 128 b)) ++ drop (128 * 8) o).
  { intros ->; rewrite (drop_ge o), app_nil_r, take_ge by (unfold block_ok in *; lia); done. }
  apply (for_range_ind (fun i x => x = concat (map (le_bytes 8) (take i b)) ++ drop (i * 8) o) 0 128);
    [lia|by rewrite drop_0|]; intros i x Hi ->.
  assert (Hlen : length (concat (map (le_bytes 8) (take i b))) = (i * 8)%nat)
    by (fold (bytes_of_block (take i b)); rewrite length_bytes_of_block, length_take; unfold block_ok in *; lia).
  rewrite write_at_app, store64_le, length_le_bytes, drop_drop, Nat.add_1_r by done.
  rewrite (take_S_r b i (b !!! i)) by (apply list_lookup_lookup_total_lt; unfold block_ok in *; lia).
  rewrite map_app, concat_app; cbn [map concat]; rewrite app_nil_r, <- app_assoc; do 3 f_equal; lia.
Qed.

Lemma read_bytes_of_block b i : (i < length b)%nat -> read_at (i * 8) 8 (bytes_of_block b) = le_bytes 8 (b !!! i).
Proof.
  revert i; induction b as [|x b IH]; intros i Hi; [simpl in Hi; lia|]; unfold bytes_of_block, read_at; cbn [map concat].
  destruct i as [|i].
  - rewrite drop_0, take_app_le, take_ge by (rewrite length_le_bytes; lia); done.
  - rewrite drop_app_ge, length_le_bytes by (rewrite length_le_bytes; lia); replace (S i * 8 - 8)%nat with (i * 8)%nat by lia.
    apply IH; simpl in Hi; lia.
Qed.

Lemma block_of_bytes_of_block b : block_ok b -> words 64 b -> block_of_bytes (bytes_of_block b) = b.
Proof.
  intros Hb Hw; apply list_eq; intros k; unfold block_of_bytes; rewrite list_lookup_fmap.
  destruct (Nat.lt_ge_cases k 128) as [Hk|Hk]; [|rewrite lookup_seq_ge, lookup_ge_None_2 by (unfold block_ok in *; lia); done].
  rewrite lookup_seq_lt, (list_lookup_lookup_total_lt b) by (unfold block_ok in *; lia); cbn [fmap option_fmap option_map]; f_equal.
  rewrite Nat.add_0_l, read_bytes_of_block by (unfold block_ok in *; lia); apply le_word_le_bytes.
  change (8 * Z.of_nat 8) with 64; apply words_lookup; [done|unfold block_ok in *; lia].
Qed.

(** ** The first two blocks of each lane *)

Definition first_block (h : list Z) (k l : nat) : block :=
  block_of_bytes (Rfc7693.hash_long 1024 (h ++ le_bytes 4 (Z.of_nat k) ++ le_bytes 4 (Z.of_nat l))).

Definition first_blocks (lanes q : nat) (h : list Z) (M : list block) : list block :=
  for_range 0 lanes (fun l M =>
    <[Argon2Spec.cell q l 1 := first_block h 1 l]> (<[Argon2Spec.cell q l 0 := first_block h 0 l]> M)) M.

Definition mem_ok (n : nat) (M : list block) : Prop := length M = n /\ Forall block_ok M.

Lemma write_block_spec n M i b : mem_ok n M -> (i < n)%nat -> length b = 1024%nat ->
  write_block M (Z.of_nat i) b = Some (<[i := block_of_bytes b]> M) /\ mem_ok n (<[i := block_of_bytes b]> M).
Proof.
  intros [Hl Ho] Hi Hb; unfold write_block; rewrite Nat2Z.id, list_lookup_lookup_total_lt by lia; cbn [mbind option_bind].
  rewrite load_block_spec; [|apply Forall_lookup_1 with (i := i) (l := M); [done|apply list_lookup_lookup_total_lt; lia]|done].
  split; [done|]; split; [by rewrite length_insert|apply Forall_insert; [done|apply block_of_bytes_ok]].
Qed.

Lemma long_into_spec S0 junk bytes inp : length bytes = 1024%nat -> (64 <= length junk)%nat ->
  long_into S0 junk bytes inp = Rfc7693.hash_long 1024 inp.
Proof. intros Hb Hj; unfold long_into; rewrite Hb, blake2b_long_spec; [done|done|lia|lia]. Qed.

Section FirstBlocks.
Context (S0 : blake2b_state) (junk h : list Z) (inst : argon2_instance_t) (lanes q : nat) (Hok : inst_ok inst lanes q)
  (Hj : (64 <= length junk)%nat) (Hh : length h = 64%nat).

Lemma seed_first k e : length e = 8%nat -> write_at 64 (le_bytes 4 k) (h ++ e) = h ++ le_bytes 4 k ++ drop 4 e.
Proof. intros He; by rewrite write_at_app, length_le_bytes. Qed.

Lemma seed_second k x e : length x = 4%nat -> length e = 4%nat ->
  write_at (64 + 4) (le_bytes 4 k) (h ++ x ++ e) = h ++ x ++ le_bytes 4 k.
Proof.
  intros Hx He; rewrite app_assoc, write_at_app by (rewrite length_app; lia).
  by rewrite length_le_bytes, drop_ge, app_nil_r, <- app_assoc by lia.
Qed.

Lemma hash_block bytes k l M c : length bytes = 1024%nat -> mem_ok (lanes * (4 * q)) M -> (c < lanes * (4 * q))%nat ->
  let b := long_into S0 junk bytes (take ARGON2_PREHASH_SEED_LENGTH (h ++ le_bytes 4 (Z.of_nat k) ++ le_bytes 4 (Z.of_nat l))) in
  length b = 1024%nat /\ write_block M (Z.of_nat c) b = Some (<[c := first_block h k l]> M) /\
  mem_ok (lanes * (4 * q)) (<[c := first_block h k l]> M).
Proof.
  intros Hb HM Hc; unfold ARGON2_PREHASH_SEED_LENGTH; cbv zeta.
  rewrite take_ge by (rewrite !length_app, !length_le_bytes; lia); rewrite long_into_spec by done.
  split; [apply length_hash_long; lia|]; apply write_block_spec; [done|done|apply length_hash_long; lia].
Qed.

Lemma fill_first_lane_spec l bh bytes M : (l < lanes)%nat -> length bytes = 1024%nat -> mem_ok (lanes * (4 * q)) M ->
  (exists e, bh = h ++ e /\ length e = 8%nat) ->
  exists bh' bytes' M', fill_first_lane S0 junk inst (Z.of_nat l) (bh, bytes, M) = Some (bh', bytes', M') /\
    M' = <[Argon2Spec.cell q l 1 := first_block h 1 l]> (<[Argon2Spec.cell q l 0 := first_block h 0 l]> M) /\
    mem_ok (lanes * (4 * q)) M' /\ length bytes' = 1024%nat /\ exists e, bh' = h ++ e /\ length e = 8%nat.
Proof.
  intros Hl Hby HM (e & -> & He); destruct Hok as [_ Hla _ Hq Hp Hsz].
  assert (Hidx : forall k, (k < 2)%nat -> u32 (Z.of_nat l * inst.(lane_length) + Z.of_nat k) = Z.of_nat (Argon2Spec.cell q l k)).
  { intros k Hk; rewrite Hla; unfold u32, Argon2Spec.cell, Argon2Spec.lane_len; rewrite wrap_id; [lia|unfold word; nia]. }
  assert (Hcell : forall k, (k < 2)%nat -> (Argon2Spec.cell q l k < lanes * (4 * q))%nat)
    by (intros; unfold Argon2Spec.cell, Argon2Spec.lane_len; nia).
  unfold fill_first_lane, ARGON2_PREHASH_DIGEST_LENGTH; cbv zeta; rewrite !store32_le.
  rewrite seed_first, seed_second by (rewrite ?length_le_bytes, ?length_drop; lia).
  rewrite seed_first by (rewrite length_app, !length_le_bytes; lia).
  rewrite drop_app_ge, length_le_bytes, Nat.sub_diag, drop_0 by (rewrite length_le_bytes; lia).
  destruct (hash_block bytes 0 l M _ Hby HM (Hcell 0%nat ltac:(lia))) as (Hb0 & Hw0 & HM0).
  pose proof (Hidx 0%nat ltac:(lia)) as Hi0; pose proof (Hidx 1%nat ltac:(lia)) as Hi1.
  change (Z.of_nat 0) with 0 in *; change (Z.of_nat 1) with 1 in *; rewrite Hi0, Hw0; cbn [mbind option_bind].
  destruct (hash_block _ 1 l _ _ Hb0 HM0 (Hcell 1%nat ltac:(lia))) as (Hb1 & Hw1 & HM1).
  change (Z.of_nat 1) with 1 in *; rewrite Hi1, Hw1; cbn [mbind option_bind].
  do 3 eexists; split; [reflexivity|]; split; [done|]; split; [done|]; split; [exact Hb1|].
  eexists; split; [reflexivity|]; by rewrite length_app, !length_le_bytes.
Qed.

Lemma fill_first_blocks_spec bytes extra M : length bytes = 1024%nat -> length extra = 8%nat -> mem_ok (lanes * (4 * q)) M ->
  exists bh, fill_first_blocks S0 junk bytes (h ++ extra) inst M = Some (bh, first_blocks lanes q h M) /\
    mem_ok (lanes * (4 * q)) (first_blocks lanes q h M).
Proof.
  intros Hby He HM; unfold fill_first_blocks, first_blocks; rewrite (io_lanes _ _ _ Hok), Nat2Z.id.
  destruct (for_rangeM_sim (fun _ '(bh, bytes, m) M => m = M /\ mem_ok (lanes * (4 * q)) M /\ length bytes = 1024%nat /\
      exists e, bh = h ++ e /\ length e = 8%nat) 0 lanes
    (fun l st => fill_first_lane S0 junk inst (Z.of_nat l) st)
    (fun l M => <[Argon2Spec.cell q l 1 := first_block h 1 l]> (<[Argon2Spec.cell q l 0 := first_block h 0 l]> M))
    (h ++ extra, bytes, M) M) as ([[bh by'] m] & -> & -> & Hm & _); [lia|split_and!; try done; by exists extra| |by exists bh].
  intros l [[bh by'] m] M1 Hl (-> & HM1 & Hlb & Hbh).
  destruct (fill_first_lane_spec l bh by' M1 ltac:(lia) Hlb HM1 Hbh) as (bh2 & by2 & M2 & Hf & -> & HM2 & Hb2 & Hbh2).
  eexists; split; [exact Hf|]; by split_and!.
Qed.

End FirstBlocks.

(** ** Allocation *)

Lemma product_check num size : word 64 num -> word 64 size -> size <> 0 ->
  (u64 (num * size) / size =? num) = (num * size <? 2 ^ 64).
Proof.
  intros Hn Hs Hz; unfold u64, wrap, word in *; pose proof (Z.mod_pos_bound (num * size) (2 ^ 64) ltac:(lia)) as Hb.
  destruct (Z.ltb_spec (num * size) (2 ^ 64)) as [Hlt|Hge].
  - rewrite Z.mod_small by nia; rewrite Z.div_mul by done; apply Z.eqb_refl.
  - apply Z.eqb_neq; intros E; pose proof (Z.mul_div_le ((num * size) mod 2 ^ 64) size ltac:(lia)); rewrite E in *; nia.
Qed.

(** The allocator of the context, or the default one. *)
Definition allocator_of (malloc : allocator) (c : argon2_context) : allocator :=
  match c.(allocate_cbk) with Some cbk => cbk | None => malloc end.

Lemma allocate_memory_spec malloc c p num size : word 64 num -> word 64 size ->
  allocate_memory malloc c (Some p) num size =
  if (size =? 0) || (num * size <? 2 ^ 64) then
    match allocator_of malloc c (num * size) with
    | Some m => (ARGON2_OK, Some (Some m))
    | None => (ARGON2_MEMORY_ALLOCATION_ERROR, Some None)
    end
  else (ARGON2_MEMORY_ALLOCATION_ERROR, Some p).
Proof.
  intros Hn Hs; unfold allocate_memory, allocator_of; destruct (Z.eqb_spec size 0) as [->|Hz].
  - cbn [negb andb orb]; rewrite Z.mul_0_r; change (u64 0) with 0; by destruct (allocate_cbk c).
  - rewrite product_check by done; cbn [negb andb orb]; destruct (Z.ltb_spec (num * size) (2 ^ 64)); cbn [negb]; [|done].
    unfold u64; rewrite wrap_id by (unfold word in *; nia); by destruct (allocate_cbk c).
Qed.

(** ** initialize *)

(** The sizes of the local arrays. *)
Definition locals_ok (loc : locals) : Prop :=
  (64 <= length loc.(l_junk))%nat /\ length loc.(l_bytes) = 1024%nat /\ length loc.(l_blockhash) = 72%nat.

Lemma initialize_spec malloc loc inst c lanes q M :
  locals_ok loc -> inst_ok inst lanes q -> buffers_ok c -> inst.(memory_blocks) = Z.of_nat (lanes * (4 * q)) ->
  allocator_of malloc c (Z.of_nat (lanes * (4 * q)) * 1024) = Some M -> mem_ok (lanes * (4 * q)) M ->
  let h := H0 c inst.(i_type) in
  initialize malloc loc (Some inst) (Some c) =
    Some (ARGON2_OK, Some (set_memory (set_hash_zero inst (h ++ replicate 8 0)) (Some (first_blocks lanes q h M))),
      Some (clear_inputs c)) /\
  mem_ok (lanes * (4 * q)) (first_blocks lanes q h M).
Proof.
  intros (Hj & Hby & Hbh) Hok Hbuf Hmb Hal HM h; pose proof (io_size _ _ _ Hok) as Hsz; unfold initialize.
  change (Z.of_nat ARGON2_BLOCK_SIZE) with 1024; rewrite allocate_memory_spec by (unfold word; lia).
  rewrite Hmb, Hal; destruct (Z.ltb_spec (Z.of_nat (lanes * (4 * q)) * 1024) (2 ^ 64)); [|lia]; cbn [orb Z.eqb negb default].
  rewrite initial_hash_spec by (done || lia); fold h; cbn [mbind option_bind]; change (negb (ARGON2_OK =? ARGON2_OK)) with false; cbn iota.
  assert (Hlh : length h = 64%nat) by apply length_H0.
  unfold ARGON2_PREHASH_DIGEST_LENGTH, ARGON2_PREHASH_SEED_LENGTH.
  rewrite !(take_app_length' h _ 64), !(drop_app_length' h _ 64) by lia; unfold clear_internal_memory, FLAG_clear_internal_memory.
  rewrite length_drop, Hbh; change (72 - 64)%nat with 8%nat; rewrite take_ge by (rewrite length_app, length_replicate; lia).
  assert (Hok' : inst_ok (set_hash_zero inst (h ++ replicate 8 0)) lanes q) by (destruct Hok; by split).
  destruct (fill_first_blocks_spec loc.(l_state) loc.(l_junk) h _ lanes q Hok' Hj Hlh loc.(l_bytes) (replicate 8 0) M Hby)
    as (bh & Hff & HM'); [done|done|]; cbn [id mbind option_bind]; rewrite Hff; cbn [mbind option_bind]; by split.
Qed.

(** What the memory holds after it. *)
Lemma first_blocks_at lanes q h M l j : (2 <= q)%nat -> length M = (lanes * (4 * q))%nat -> (l < lanes)%nat -> (j < 4 * q)%nat ->
  first_blocks lanes q h M !!! Argon2Spec.cell q l j = if (j <? 2)%nat then first_block h j l else M !!! Argon2Spec.cell q l j.
Proof.
  intros Hq Hlen Hl Hj.
  assert (Hc : forall l j, (l < lanes)%nat -> (j < 4 * q)%nat -> (Argon2Spec.cell q l j < lanes * (4 * q))%nat)
    by (intros; unfold Argon2Spec.cell, Argon2Spec.lane_len; nia).
  assert (Hinj : forall l j l' j', (j < 4 * q)%nat -> (j' < 4 * q)%nat -> Argon2Spec.cell q l j = Argon2Spec.cell q l' j' -> l = l' /\ j = j')
    by (unfold Argon2Spec.cell, Argon2Spec.lane_len; intros a b a' b' ? ? ?; assert (a = a') by nia; subst; split; lia).
  cut (length (first_blocks lanes q h M) = (lanes * (4 * q))%nat /\ forall l j, (l < lanes)%nat -> (j < 4 * q)%nat ->
    first_blocks lanes q h M !!! Argon2Spec.cell q l j =
    if (l <? lanes)%nat && (j <? 2)%nat then first_block h j l else M !!! Argon2Spec.cell q l j).
  { intros [_ H]; rewrite H by done; by rewrite (proj2 (Nat.ltb_lt l lanes) Hl). }
  clear l j Hl Hj; apply (for_range_ind (fun n X => length X = (lanes * (4 * q))%nat /\ forall l j, (l < lanes)%nat -> (j < 4 * q)%nat ->
    X !!! Argon2Spec.cell q l j = if (l <? n)%nat && (j <? 2)%nat then first_block h j l else M !!! Argon2Spec.cell q l j));
    [lia|split; [done|]; intros; by destruct (Nat.ltb_spec l 0); [lia|]|].
  intros n X Hn [HX Hall]; unfold block in *; split; [by rewrite !length_insert|]; intros l j Hl Hj.
  pose proof (Hc n 1%nat ltac:(lia) ltac:(lia)); pose proof (Hc n 0%nat ltac:(lia) ltac:(lia)).
  destruct (Nat.eq_dec l n) as [->|Hne]; [destruct (Nat.ltb_spec n (n + 1)) as [_|]; [|lia]|].
  - destruct j as [|[|j]]; cbn [Nat.ltb Nat.leb andb].
    + rewrite list_lookup_total_insert_ne, list_lookup_total_insert_eq by
        (rewrite ?length_insert; first [lia | intros E; apply Hinj in E; lia]); done.
    + rewrite list_lookup_total_insert_eq by (rewrite ?length_insert; lia); done.
    + rewrite !list_lookup_total_insert_ne by (intros E; apply Hinj in E; lia).
      rewrite Hall by lia; destruct (Nat.ltb_spec (S (S j)) 2); [lia|]; by rewrite andb_false_r.
  - rewrite !list_lookup_total_insert_ne by (intros E; apply Hinj in E; lia); rewrite Hall by done.
    by destruct (Nat.ltb_spec l n), (Nat.ltb_spec l (n + 1)); try lia.
Qed.

(** ** finalize *)

Definition last_blocks (lanes q : nat) (M : list block) : block :=
  for_range 1 lanes (fun l b => Argon2Spec.bxor b (M !!! Argon2Spec.cell q l (4 * q - 1))) (M !!! Argon2Spec.cell q 0 (4 * q - 1)).

Lemma last_blocks_ok lanes q M n : mem_ok n M -> (1 <= lanes)%nat -> (1 <= q)%nat -> n = (lanes * (4 * q))%nat -> block_ok (last_blocks lanes q M).
Proof.
  intros [Hl Hb] Hla Hq ->; assert (Hc : forall l, (l < lanes)%nat -> block_ok (M !!! Argon2Spec.cell q l (4 * q - 1))).
  { intros l Hll; eapply Forall_lookup_1; [exact Hb|apply list_lookup_lookup_total_lt].
    rewrite Hl; unfold Argon2Spec.cell, Argon2Spec.lane_len; nia. }
  apply (for_range_ind (fun _ b => block_ok b)); [lia|apply Hc; lia|]; intros; apply bxor_ok; [done|apply Hc; lia].
Qed.

Lemma finalize_spec loc c inst lanes q M : locals_ok loc -> inst_ok inst lanes q ->
  inst.(memory) = Some M -> mem_ok (lanes * (4 * q)) M -> inst.(memory_blocks) = Z.of_nat (lanes * (4 * q)) ->
  (1 <= Z.to_nat c.(outlen))%nat -> c.(outlen) < 2 ^ 32 ->
  finalize loc (Some c) (Some inst) =
  Some (write_at 0 (Rfc7693.hash_long (Z.to_nat c.(outlen)) (bytes_of_block (last_blocks lanes q M))) <$> c.(out),
    Some (map (fun _ => replicate 128 0) M), c.(free_cbk)).
Proof.
  intros (Hj & Hby & _) Hok Hm HM Hmb Ho1 Ho2; pose proof HM as [Hl Hb]; pose proof Hok as [_ Hla Hln Hq Hp Hsz].
  assert (Hc : forall l, (l < lanes)%nat -> (Argon2Spec.cell q l (4 * q - 1) < lanes * (4 * q))%nat)
    by (intros; unfold Argon2Spec.cell, Argon2Spec.lane_len; nia).
  assert (Hbl : forall l, (l < lanes)%nat -> block_ok (M !!! Argon2Spec.cell q l (4 * q - 1))).
  { intros l Hll; eapply Forall_lookup_1; [exact Hb|apply list_lookup_lookup_total_lt; rewrite Hl; auto]. }
  unfold finalize; rewrite Hm; cbn [mbind option_bind].
  replace (Z.to_nat (inst.(lane_length) - 1)) with (Argon2Spec.cell q 0 (4 * q - 1)) by (rewrite Hla; unfold Argon2Spec.cell; lia).
  rewrite (list_lookup_lookup_total_lt M) by (rewrite Hl; apply Hc; lia); cbn [mbind option_bind].
  rewrite copy_block_spec by (apply Hbl; lia); rewrite Hln, Nat2Z.id.
  destruct (for_rangeM_sim (fun _ b b' => b = b' /\ block_ok b') 1 lanes
    (fun l blockhash => b ← M !! Z.to_nat (u32 (u32 (Z.of_nat l * inst.(lane_length)) + (inst.(lane_length) - 1)));
      Some (xor_block blockhash b))
    (fun l b => Argon2Spec.bxor b (M !!! Argon2Spec.cell q l (4 * q - 1)))
    (M !!! Argon2Spec.cell q 0 (4 * q - 1)) (M !!! Argon2Spec.cell q 0 (4 * q - 1))) as (b & -> & -> & Hbok);
    [lia|split; [done|apply Hbl; lia]| |].
  - intros l b b' Hll [-> Hb']; rewrite Hla.
    replace (Z.to_nat (u32 (u32 (Z.of_nat l * Z.of_nat (4 * q)) + (Z.of_nat (4 * q) - 1)))) with (Argon2Spec.cell q l (4 * q - 1)).
    + rewrite (list_lookup_lookup_total_lt M) by (rewrite Hl; apply Hc; lia); cbn [mbind option_bind].
      rewrite xor_block_spec by (done || (apply Hbl; lia)); eexists; split; [done|]; split; [done|apply bxor_ok; [done|apply Hbl; lia]].
    + unfold u32; rewrite (wrap_id 32 (_ * _)) by (unfold word; nia); rewrite wrap_id by (unfold word; nia).
      unfold Argon2Spec.cell, Argon2Spec.lane_len; lia.
  - cbn [mbind option_bind]; fold (last_blocks lanes q M) in *; rewrite store_block_spec by done.
    rewrite blake2b_long_spec by (done || lia); unfold free_memory; rewrite Hmb.
    change (Z.of_nat ARGON2_BLOCK_SIZE) with 1024; unfold u64; rewrite wrap_id by (unfold word; lia).
    rewrite Z.div_mul, Nat2Z.id by lia; rewrite <- Hl; cbn [fmap option_fmap option_map].
    rewrite firstn_all, skipn_all, app_nil_r.
    assert (E : map clear_internal_memory M = map (fun _ => replicate 128 0) M); [|rewrite E; reflexivity].
    apply map_ext_in; intros x Hx; unfold clear_internal_memory, FLAG_clear_internal_memory.
    f_equal; rewrite List.Forall_forall in Hb; apply Hb; done.
Qed.
