(* ===== verification/Argon2Pass0.v ===== *)
(** The memory after the first pass: every block but the first two of a lane is
    the block function of blocks of the same memory, which determines it.

    Lanes of one slice do not interfere: whatever order their blocks are filled
    in, the memory is the one of the sequential order. *)

From S2P Require Import Prelude Blake2b Argon2 Argon2Spec Argon2Fill.

Section Pass0.
Context (lanes q : nat) (v10 : bool) (h0 : list Z) (bf : list Z -> list Z -> list Z -> bool -> Z -> list Z -> list Z)
  (Hq : (2 <= q)%nat) (Hlanes : (1 <= lanes)%nat) (Hsize : Z.of_nat (lanes * (4 * q)) < 2 ^ 32)
  (Hbf : forall p r o o' i h, bf p r o false i h = bf p r o' false i h).

Abbreviation cell := (Argon2Spec.cell q).
Abbreviation prev_cell := (Argon2Spec.prev_cell q).
Abbreviation new_block := (Argon2Spec.new_block lanes q v10 h0 bf 0).
Abbreviation visit := (Argon2Spec.visit lanes q v10 h0 bf 0).
Abbreviation segment := (Argon2Spec.segment lanes q v10 h0 bf 0).
Abbreviation size := (lanes * (4 * q))%nat.

Definition computed (M : list (list Z)) (l j : nat) : Prop := M !!! cell l j = new_block l j M.

(** The reference block lies before block [j]: in the own lane before the
    previous block, in another lane in a finished segment. *)
Lemma ref_before l j w : (l < lanes)%nat -> (2 <= j < 4 * q)%nat ->
  exists rl k, Argon2Spec.ref_cell lanes q 0 l j w = cell rl k /\ (rl < lanes)%nat /\ (k < 4 * q)%nat /\
    ((rl = l /\ k + 1 < j)%nat \/ (rl <> l /\ k < j / q * q)%nat).
Proof.
  intros Hl Hj; unfold Argon2Spec.ref_cell; set (rl := Argon2Spec.ref_lane lanes q 0 l j w).
  assert (Hrl : (rl < lanes)%nat).
  { unfold rl, Argon2Spec.ref_lane; destruct (_ && _); [done|].
    pose proof (Z.mod_pos_bound (w / 2 ^ 32) (Z.of_nat lanes) ltac:(lia)); lia. }
  assert (Hr : reachable q 0 j (rl =? l)%nat).
  { split_and!; [lia|lia|]; intros _ Hjq; unfold rl, Argon2Spec.ref_lane; rewrite Nat.div_small by done; apply Nat.eqb_refl. }
  pose proof (Z.mod_pos_bound w (2 ^ 32) ltac:(lia)) as Hj1.
  pose proof (area_positive q Hq 0 j _ Hr) as Ha; pose proof (square_bound _ Hj1) as Hsq.
  rewrite choose_window by (done || nia); set (n := Z.of_nat (area_size q 0 j (rl =? l)%nat)) in *.
  pose proof (rank_bound n ((w mod 2 ^ 32) ^ 2 / 2 ^ 32) ltac:(unfold n; nia) Hsq) as Hrank.
  set (k := Z.to_nat _); assert (Hk : (k < area_size q 0 j (rl =? l)%nat)%nat) by (unfold k, n in *; lia).
  unfold area_start; cbn [Nat.eqb]; rewrite Nat.add_0_l, Nat.mod_small by lia.
  exists rl, k; split_and!; [done|done|lia|].
  destruct (slice_bounds q Hq j ltac:(lia)) as (Hdec & _).
  unfold area_size, finished_size in Hk; cbn [Nat.eqb] in Hk; destruct (Nat.eqb_spec rl l) as [E|E]; [left|right]; split; try done.
  - lia.
  - destruct (j mod q =? 0)%nat; lia.
Qed.

(** Computing a block that is not filled yet changes none of the others. *)
Lemma new_block_other l j M c b : (l < lanes)%nat -> (2 <= j < 4 * q)%nat -> c <> prev_cell l j ->
  c <> Argon2Spec.ref_cell lanes q 0 l j ((M !!! prev_cell l j) !!! 0%nat) ->
  new_block l j (<[c := b]> M) = new_block l j M.
Proof.
  intros Hl Hj Hp Hr; unfold Argon2Spec.new_block; rewrite (list_lookup_total_insert_ne M c (prev_cell l j)) by done.
  rewrite (list_lookup_total_insert_ne M c (Argon2Spec.ref_cell _ _ _ _ _ _)) by done; cbn [Nat.eqb]; rewrite andb_false_r; apply Hbf.
Qed.

(** ** Progress of the lanes *)

(** [p l] blocks of lane [l] are filled. *)
Definition filled_upto (p : nat -> nat) (M : list (list Z)) : Prop :=
  length M = size /\ forall l j, (l < lanes)%nat -> (2 <= j < p l)%nat -> (p l <= 4 * q)%nat -> computed M l j.

Lemma filled_ext p p' M : (forall l, (l < lanes)%nat -> p l = p' l) -> filled_upto p M -> filled_upto p' M.
Proof. intros He [Hl HM]; split; [done|]; intros l j Hl' Hj; rewrite <- He in * by done; by apply HM. Qed.

Lemma cell_lt0 l j : (l < lanes)%nat -> (j < 4 * q)%nat -> (cell l j < size)%nat.
Proof. intros; unfold Argon2Spec.cell, Argon2Spec.lane_len; nia. Qed.

Lemma cell_inj0 l j l' j' : (j < 4 * q)%nat -> (j' < 4 * q)%nat -> cell l j = cell l' j' -> l = l' /\ j = j'.
Proof. unfold Argon2Spec.cell, Argon2Spec.lane_len; intros; assert (l = l') by nia; subst; split; lia. Qed.

Lemma prev_cell_pos l j : (1 <= j)%nat -> prev_cell l j = cell l (j - 1).
Proof. intros; unfold Argon2Spec.prev_cell; destruct (Nat.eqb_spec j 0); [lia|done]. Qed.

Lemma visit_filled p l j M : filled_upto p M -> (l < lanes)%nat -> p l = j -> (2 <= j < 4 * q)%nat ->
  (forall l', (l' < lanes)%nat -> (j / q * q <= p l' <= j / q * q + q)%nat) ->
  filled_upto (fun l' => if (l' =? l)%nat then (j + 1)%nat else p l') (visit l j M).
Proof.
  intros [Hlen HM] Hl Hp Hj Hb; split; [unfold Argon2Spec.visit; by rewrite length_insert|]; intros l' j' Hl' Hj' Hle.
  unfold computed; destruct (decide (l' = l /\ j' = j)) as [[-> ->]|Hne].
  - unfold Argon2Spec.visit; rewrite list_lookup_total_insert_eq by (rewrite Hlen; apply cell_lt0; [done|lia]).
    symmetry; apply new_block_other; [done|done| |].
    + rewrite prev_cell_pos by lia; intros E; apply cell_inj0 in E; lia.
    + destruct (ref_before l j ((M !!! prev_cell l j) !!! 0%nat) Hl Hj) as (rl & k & -> & Hrl & Hk & Hbef); intros E.
      apply cell_inj0 in E as [-> ->]; lia.
  - assert (Hj'' : (j' < p l')%nat) by (destruct (Nat.eqb_spec l' l); subst; lia).
    assert (Hp' : (p l' <= 4 * q)%nat) by (specialize (Hb l' Hl'); destruct (slice_bounds q Hq j ltac:(lia)); nia).
    pose proof (HM l' j' Hl' ltac:(lia) Hp') as Hc; unfold computed in Hc; unfold Argon2Spec.visit.
    rewrite list_lookup_total_insert_ne by (intros E; apply cell_inj0 in E; lia); rewrite Hc.
    symmetry; apply new_block_other; [done|lia| |].
    + rewrite prev_cell_pos by lia; intros E; apply cell_inj0 in E as [-> E]; lia.
    + destruct (ref_before l' j' ((M !!! prev_cell l' j') !!! 0%nat) Hl' ltac:(lia)) as (rl & k & -> & Hrl & Hk & Hbef); intros E.
      apply cell_inj0 in E as [<- <-]; [|lia..].
      destruct Hbef as [[E Hk']|[E Hk']]; [subst; lia|].
      destruct (Hb l' Hl') as [_ Hx].
      assert (j' / q < j / q + 1)%nat by (apply Nat.Div0.div_lt_upper_bound; nia).
      pose proof (Nat.div_mod j q ltac:(lia)); nia.
Qed.

(** ** Segments and slices *)

Definition first_blocks_kept (M M' : list (list Z)) : Prop :=
  forall l j, (l < lanes)%nat -> (j < 2)%nat -> M' !!! cell l j = M !!! cell l j.

Lemma segment_filled s l p M : (s < 4)%nat -> (l < lanes)%nat -> filled_upto p M -> p l = Nat.max 2 (s * q) ->
  (forall l', (l' < lanes)%nat -> (s * q <= p l' <= s * q + q)%nat) ->
  filled_upto (fun l' => if (l' =? l)%nat then (s * q + q)%nat else p l') (segment s l M) /\
  first_blocks_kept M (segment s l M).
Proof.
  intros Hs Hl HM Hp Hb; unfold Argon2Spec.segment; set (i0 := Argon2Spec.first_index 0 s).
  assert (Hi0 : (s * q + i0 = Nat.max 2 (s * q) /\ i0 <= q)%nat)
    by (unfold i0, Argon2Spec.first_index; destruct s; simpl; nia).
  apply (for_range_ind (fun i M' => filled_upto (fun l' => if (l' =? l)%nat then (s * q + i)%nat else p l') M' /\
    first_blocks_kept M M') i0 q); [lia| |].
  - split; [|done]; eapply filled_ext; [|exact HM]; intros l' Hl'; cbv beta; destruct (Nat.eqb_spec l' l); subst; lia.
  - intros i M' Hi [HM' Hk].
    assert (Hd : ((s * q + i) / q = s)%nat) by (rewrite Nat.add_comm, Nat.div_add, Nat.div_small; lia).
    split.
    + eapply filled_ext; [|apply (visit_filled _ l (s * q + i) M' HM')]; [|done| |nia|].
      * intros l' Hl'; cbv beta; destruct (Nat.eqb_spec l' l); lia.
      * cbv beta; by rewrite Nat.eqb_refl.
      * intros l' Hl'; cbv beta; rewrite Hd; specialize (Hb l' Hl'); destruct (Nat.eqb_spec l' l); lia.
    + intros l' j' Hl' Hj'; unfold Argon2Spec.visit; rewrite list_lookup_total_insert_ne; [by apply Hk|].
      intros E; apply cell_inj0 in E; nia.
Qed.

Lemma slice_filled s M : (s < 4)%nat -> filled_upto (fun _ => Nat.max 2 (s * q)) M ->
  filled_upto (fun _ => (s * q + q)%nat) (for_range 0 lanes (segment s) M) /\
  first_blocks_kept M (for_range 0 lanes (segment s) M).
Proof.
  intros Hs HM.
  assert (H : filled_upto (fun l => if (l <? lanes)%nat then (s * q + q)%nat else Nat.max 2 (s * q)) (for_range 0 lanes (segment s) M) /\
    first_blocks_kept M (for_range 0 lanes (segment s) M)).
  { apply (for_range_ind (fun k M' => filled_upto (fun l => if (l <? k)%nat then (s * q + q)%nat else Nat.max 2 (s * q)) M' /\
      first_blocks_kept M M')); [lia|by split|].
    intros k M' Hk [HM' Hkept].
    destruct (segment_filled s k _ M' Hs ltac:(lia) HM') as [Hf Hf'].
    - cbv beta; by rewrite Nat.ltb_irrefl.
    - intros l' _; cbv beta; destruct (l' <? k)%nat; nia.
    - split; [|intros l j Hl Hj; rewrite Hf', Hkept; done].
      eapply filled_ext; [|exact Hf]; intros l' Hl'; cbv beta.
      destruct (Nat.eqb_spec l' k), (Nat.ltb_spec l' k), (Nat.ltb_spec l' (k + 1)); lia. }
  destruct H as [H1 H2]; split; [|done]; eapply filled_ext; [|exact H1]; intros l Hl; cbv beta.
  destruct (Nat.ltb_spec l lanes); lia.
Qed.

Lemma pass0_filled M : length M = size ->
  let M' := Argon2Spec.fill lanes q v10 h0 bf 1 M in
  filled_upto (fun _ => (4 * q)%nat) M' /\ first_blocks_kept M M'.
Proof.
  intros HM M'; unfold M', Argon2Spec.fill; rewrite (for_range_first 0 1), for_range_empty by lia.
  assert (H : filled_upto (fun _ => Nat.max 2 (4 * q)) (for_range 0 4 (fun s => for_range 0 lanes (segment s)) M) /\
    first_blocks_kept M (for_range 0 4 (fun s => for_range 0 lanes (segment s)) M)).
  { apply (for_range_ind (fun s M' => filled_upto (fun _ => Nat.max 2 (s * q)) M' /\ first_blocks_kept M M')); [lia| |].
    - split; [|done]; split; [done|]; intros; lia.
    - intros s M1 Hs [H1 H2]; destruct (slice_filled s M1 ltac:(lia) H1) as [H3 H4]; split.
      + eapply filled_ext; [|exact H3]; intros; cbv beta; nia.
      + intros l j Hl Hj; rewrite H4, H2; done. }
  destruct H as [H1 H2]; split; [|exact H2]; eapply filled_ext; [|exact H1]; intros; cbv beta; lia.
Qed.

(** ** The first two blocks determine the memory *)

Lemma computed_unique M M' : filled_upto (fun _ => (4 * q)%nat) M -> filled_upto (fun _ => (4 * q)%nat) M' ->
  first_blocks_kept M M' -> M = M'.
Proof.
  intros [Hl HM] [Hl' HM'] Hk.
  assert (Hall : forall j, (j < 4 * q)%nat -> forall l, (l < lanes)%nat -> M !!! cell l j = M' !!! cell l j).
  { intros j; induction j as [j IH] using lt_wf_ind; intros Hj l Hll.
    destruct (Nat.lt_ge_cases j 2) as [Hj2|Hj2]; [symmetry; by apply Hk|].
    rewrite (HM l j Hll ltac:(lia) ltac:(lia)), (HM' l j Hll ltac:(lia) ltac:(lia)).
    unfold Argon2Spec.new_block; rewrite prev_cell_pos, <- (IH (j - 1)%nat ltac:(lia) ltac:(lia) l Hll) by lia.
    destruct (ref_before l j ((M !!! cell l (j - 1)) !!! 0%nat) Hll ltac:(lia)) as (rl & k & -> & Hrl & Hkk & Hb).
    pose proof (Nat.div_mod j q ltac:(lia)).
    rewrite <- (IH k ltac:(nia) ltac:(lia) rl Hrl); cbn [Nat.eqb]; rewrite andb_false_r; apply Hbf. }
  apply list_eq; intros c; destruct (Nat.lt_ge_cases c size) as [Hc|Hc]; [|by rewrite !lookup_ge_None_2 by lia].
  rewrite !list_lookup_lookup_total_lt by lia; f_equal.
  replace c with (cell (c / (4 * q)) (c mod (4 * q))).
  - apply Hall; [apply Nat.mod_upper_bound; lia|apply Nat.Div0.div_lt_upper_bound; lia].
  - unfold Argon2Spec.cell, Argon2Spec.lane_len; pose proof (Nat.div_mod c (4 * q) ltac:(lia)); lia.
Qed.

End Pass0.

Section Slices.
Context (lanes q : nat) (v10 : bool) (h0 : list Z) (bf : list Z -> list Z -> list Z -> bool -> Z -> list Z -> list Z)
  (Hq : (2 <= q)%nat) (Hlanes : (1 <= lanes)%nat) (Hsize : Z.of_nat (lanes * (4 * q)) < 2 ^ 32).

Abbreviation cell := (Argon2Spec.cell q).
Abbreviation prev_cell := (Argon2Spec.prev_cell q).
Abbreviation new_block := (Argon2Spec.new_block lanes q v10 h0 bf).
Abbreviation visit := (Argon2Spec.visit lanes q v10 h0 bf).
Abbreviation segment := (Argon2Spec.segment lanes q v10 h0 bf).
Abbreviation first := (Argon2Spec.first_index).
Abbreviation size := (lanes * (4 * q))%nat.

(** A reference into another lane avoids the segment that is being filled. *)
Lemma ref_other_lane r l j w : (l < lanes)%nat -> (j < 4 * q)%nat -> (r = 0%nat -> (2 <= j)%nat) ->
  exists rl k, Argon2Spec.ref_cell lanes q r l j w = cell rl k /\ (rl < lanes)%nat /\ (k < 4 * q)%nat /\
    (rl <> l -> (k / q <> j / q)%nat).
Proof.
  intros Hl Hj Hj2; unfold Argon2Spec.ref_cell; set (rl := Argon2Spec.ref_lane lanes q r l j w).
  assert (Hrl : (rl < lanes)%nat).
  { unfold rl, Argon2Spec.ref_lane; destruct (_ && _); [done|].
    pose proof (Z.mod_pos_bound (w / 2 ^ 32) (Z.of_nat lanes) ltac:(lia)); lia. }
  assert (Hr : reachable q r j (rl =? l)%nat).
  { split_and!; [lia|done|]; intros -> Hjq; unfold rl, Argon2Spec.ref_lane; rewrite Nat.div_small by done; apply Nat.eqb_refl. }
  pose proof (Z.mod_pos_bound w (2 ^ 32) ltac:(lia)) as Hj1.
  pose proof (area_positive q Hq r j _ Hr) as Ha; pose proof (square_bound _ Hj1) as Hsq.
  rewrite choose_window by (done || nia); set (n := Z.of_nat (area_size q r j (rl =? l)%nat)) in *.
  pose proof (rank_bound n ((w mod 2 ^ 32) ^ 2 / 2 ^ 32) ltac:(unfold n; nia) Hsq) as Hrank.
  set (k := Z.to_nat _); assert (Hk : (k < area_size q r j (rl =? l)%nat)%nat) by (unfold k, n in *; lia).
  do 2 eexists; split; [reflexivity|]; split; [done|]; split; [apply Nat.mod_upper_bound; lia|]; intros Hne.
  rewrite (proj2 (Nat.eqb_neq rl l) Hne) in Hk; unfold area_size, finished_size in Hk; clearbody k; clear n Ha Hrank Hr.
  destruct (slice_bounds q Hq j Hj) as (Hdec & Hm & Hd & Hd'); unfold area_start; set (s := (j / q)%nat) in *.
  assert (Hkf : (k < if r =? 0 then s * q else 3 * q)%nat) by (destruct (j mod q =? 0)%nat; lia); clear Hk.
  destruct (r =? 0)%nat.
  - rewrite Nat.add_0_l, Nat.mod_small by lia; assert (k / q < s)%nat by (apply Nat.Div0.div_lt_upper_bound; lia); lia.
  - destruct (Nat.lt_ge_cases (s * q + q + k) (4 * q)).
    + rewrite Nat.mod_small by done; assert (s + 1 <= (s * q + q + k) / q)%nat by (apply Nat.div_le_lower_bound; nia); lia.
    + rewrite <- (Nat.mod_unique (s * q + q + k) (4 * q) 1 (s * q + q + k - 4 * q)) by lia.
      assert ((s * q + q + k - 4 * q) / q < s)%nat by (apply Nat.Div0.div_lt_upper_bound; nia); lia.
Qed.

Lemma cell_bound l j : (l < lanes)%nat -> (j < 4 * q)%nat -> (cell l j < size)%nat.
Proof. intros; unfold Argon2Spec.cell, Argon2Spec.lane_len; nia. Qed.

Lemma cell_eq l j l' j' : (j < 4 * q)%nat -> (j' < 4 * q)%nat -> cell l j = cell l' j' -> l = l' /\ j = j'.
Proof. unfold Argon2Spec.cell, Argon2Spec.lane_len; intros; assert (l = l') by nia; subst; split; lia. Qed.

Lemma prev_cell_lane l j : (j < 4 * q)%nat -> exists k, prev_cell l j = cell l k /\ (k < 4 * q)%nat.
Proof.
  intros; unfold Argon2Spec.prev_cell; eexists; split; [reflexivity|]; unfold Argon2Spec.lane_len; destruct (j =? 0)%nat; lia.
Qed.

(** ** One slice *)

Section Slice.
Context (r s : nat) (B : list (list Z)) (Hs : (s < 4)%nat) (HB : length B = size).

(** The memory when lane [l] alone has filled its segment up to index [i]. *)
Definition lane_mem (l i : nat) : list (list Z) :=
  for_range (first r s) i (fun i => visit r l (s * q + i)%nat) B.

Lemma lane_mem_S l i : (first r s <= i)%nat -> lane_mem l (i + 1) = visit r l (s * q + i) (lane_mem l i).
Proof. intros; unfold lane_mem; by rewrite for_range_S. Qed.

Lemma length_lane_mem l i : length (lane_mem l i) = size.
Proof.
  unfold lane_mem, for_range; generalize (seq (first r s) (i - first r s)); intros L; revert B HB.
  induction L as [|a L IH]; intros B' HB'; [done|]; cbn [fold_left]; apply IH; unfold Argon2Spec.visit; by rewrite length_insert.
Qed.

Lemma block_of i : (i < q)%nat -> ((s * q + i) / q = s)%nat.
Proof. intros; rewrite Nat.add_comm, Nat.div_add, Nat.div_small; lia. Qed.

(** A lane changes only its own segment. *)
Lemma lane_mem_other l i l' j : (first r s <= i <= q)%nat -> (l' <> l \/ j / q <> s)%nat -> (j < 4 * q)%nat ->
  lane_mem l i !!! cell l' j = B !!! cell l' j.
Proof.
  intros Hi Hne Hj; unfold lane_mem.
  apply (for_range_ind (fun i' M => (i' <= i)%nat -> M !!! cell l' j = B !!! cell l' j)); [lia|done| |done].
  intros k M Hk IH _; unfold Argon2Spec.visit; rewrite list_lookup_total_insert_ne; [apply IH; lia|].
  intros E; apply cell_eq in E as [-> <-]; [|nia|done]; pose proof (block_of k ltac:(lia)); lia.
Qed.

(** The lanes have filled up to the indices of [prog]. *)
Definition merged (prog : nat -> nat) (M : list (list Z)) : Prop :=
  length M = size /\ forall l j, (l < lanes)%nat -> (j < 4 * q)%nat -> M !!! cell l j = lane_mem l (prog l) !!! cell l j.

Definition progress_ok (prog : nat -> nat) : Prop := forall l, (l < lanes)%nat -> (first r s <= prog l <= q)%nat.

Lemma merged_start : merged (fun _ => first r s) B.
Proof. split; [done|]; intros; unfold lane_mem; by rewrite for_range_empty. Qed.

Lemma merged_ext p p' M : (forall l, (l < lanes)%nat -> p l = p' l) -> merged p M -> merged p' M.
Proof. intros He [Hl HM]; split; [done|]; intros; rewrite HM, He by done; done. Qed.

Lemma merged_unique p M M' : merged p M -> merged p M' -> M = M'.
Proof.
  intros [Hl HM] [Hl' HM']; apply list_eq; intros c.
  destruct (Nat.lt_ge_cases c size) as [Hc|Hc]; [|by rewrite !lookup_ge_None_2 by lia].
  rewrite !list_lookup_lookup_total_lt by lia; f_equal.
  replace c with (cell (c / (4 * q)) (c mod (4 * q))).
  - rewrite HM, HM'; [done|apply Nat.Div0.div_lt_upper_bound; lia|apply Nat.mod_upper_bound; lia
      |apply Nat.Div0.div_lt_upper_bound; lia|apply Nat.mod_upper_bound; lia].
  - unfold Argon2Spec.cell, Argon2Spec.lane_len; pose proof (Nat.div_mod c (4 * q) ltac:(lia)); lia.
Qed.

(** What a lane reads is the same whatever the other lanes have done. *)
Lemma new_block_merged p M l i : merged p M -> progress_ok p -> (l < lanes)%nat -> p l = i -> (first r s <= i < q)%nat ->
  new_block r l (s * q + i) M = new_block r l (s * q + i) (lane_mem l i).
Proof.
  intros [HlM HM] Hp Hl Hpl Hi; set (j := (s * q + i)%nat); assert (Hj : (j < 4 * q)%nat) by (unfold j; nia).
  assert (Hown : forall k, (k < 4 * q)%nat -> M !!! cell l k = lane_mem l i !!! cell l k) by (intros; rewrite HM, Hpl by done; done).
  unfold Argon2Spec.new_block; destruct (prev_cell_lane l j Hj) as (k & -> & Hk).
  rewrite !(Hown k Hk), (Hown j Hj); set (w := (lane_mem l i !!! cell l k) !!! 0%nat).
  assert (Hj2 : r = 0%nat -> (2 <= j)%nat).
  { intros ->; unfold j; unfold Argon2Spec.first_index in Hi; destruct s; simpl in Hi; nia. }
  destruct (ref_other_lane r l j w Hl Hj Hj2) as (rl & k' & -> & Hrl & Hk' & Hav).
  f_equal; destruct (Nat.eq_dec rl l) as [->|Hne]; [by apply Hown|].
  specialize (Hav Hne); unfold j in Hav; rewrite block_of in Hav by lia.
  rewrite HM, !lane_mem_other; (done || lia || (by apply Hp) || auto).
Qed.

Lemma merged_visit p M l i : merged p M -> progress_ok p -> (l < lanes)%nat -> p l = i -> (first r s <= i < q)%nat ->
  merged (fun l' => if (l' =? l)%nat then (i + 1)%nat else p l') (visit r l (s * q + i) M).
Proof.
  intros Hmer Hp Hl Hpl Hi; pose proof (new_block_merged p M l i Hmer Hp Hl Hpl Hi) as Hnew; destruct Hmer as [HlM HM].
  split; [unfold Argon2Spec.visit; by rewrite length_insert|]; intros l' j' Hl' Hj'; cbv beta.
  assert (Hj : (s * q + i < 4 * q)%nat) by nia.
  destruct (Nat.eqb_spec l' l) as [->|Hne].
  - rewrite lane_mem_S by lia; unfold Argon2Spec.visit; rewrite Hnew.
    destruct (Nat.eq_dec j' (s * q + i)%nat) as [->|Hnj].
    + rewrite !list_lookup_total_insert_eq; [done|rewrite length_lane_mem; by apply cell_bound|rewrite HlM; by apply cell_bound].
    + rewrite !list_lookup_total_insert_ne by (intros E; apply cell_eq in E; [lia|done..]); rewrite HM, Hpl; done.
  - unfold Argon2Spec.visit; rewrite list_lookup_total_insert_ne by (intros E; apply cell_eq in E; [lia|done..]); by apply HM.
Qed.

Lemma first_le : (first r s <= q)%nat.
Proof. unfold Argon2Spec.first_index; destruct (_ && _); lia. Qed.

Lemma merged_segment p M l : merged p M -> progress_ok p -> (l < lanes)%nat -> p l = first r s ->
  merged (fun l' => if (l' =? l)%nat then q else p l') (segment r s l M).
Proof.
  intros HM Hp Hl Hpl; pose proof first_le; unfold Argon2Spec.segment; cbv beta.
  apply (for_range_ind (fun i M' => merged (fun l' => if (l' =? l)%nat then i else p l') M') (first r s) q); [done| |].
  - eapply merged_ext; [|exact HM]; intros l' _; cbv beta; destruct (Nat.eqb_spec l' l); subst; congruence.
  - intros i M' Hi HM'; eapply merged_ext; [|apply (merged_visit _ M' l i HM')]; [|..|done].
    + intros l' _; cbv beta; by destruct (Nat.eqb_spec l' l).
    + intros l' Hl'; cbv beta; destruct (Nat.eqb_spec l' l); [lia|by apply Hp].
    + done.
    + cbv beta; by rewrite Nat.eqb_refl.
Qed.

(** All segments in the order of the lanes. *)
Definition slice_fill : list (list Z) := for_range 0 lanes (segment r s) B.

Lemma merged_slice : merged (fun _ => q) slice_fill.
Proof.
  pose proof first_le.
  assert (H0 : merged (fun l => if (l <? lanes)%nat then q else first r s) slice_fill).
  { apply (for_range_ind (fun k M => merged (fun l => if (l <? k)%nat then q else first r s) M)); [lia|apply merged_start|].
    intros k M Hk HM; eapply merged_ext; [|apply (merged_segment _ M k HM)].
    - intros l' _; cbv beta; destruct (Nat.eqb_spec l' k), (Nat.ltb_spec l' k), (Nat.ltb_spec l' (k + 1)); lia.
    - intros l' _; cbv beta; destruct (l' <? k)%nat; lia.
    - lia.
    - cbv beta; by rewrite Nat.ltb_irrefl. }
  eapply merged_ext; [|exact H0]; intros l Hl; cbv beta; destruct (Nat.ltb_spec l lanes); lia.
Qed.

End Slice.

End Slices.
