(* ===== verification/Argon2ThreadProofs.v ===== *)
(** Every execution of the multi-threaded filling: the invariant of its states,
    progress, and the decrease of the work that is left. *)

From S2P Require Import Prelude Blake2b Argon2 Argon2Threads Argon2Spec Argon2Fill Argon2Pass0.

(** ** Work left in a list of loop indices *)

Definition left_over (q : nat) (prog : list nat) : nat := sum_list (map (fun i => q - i)%nat prog).

Lemma left_over_step q prog l i : prog !! l = Some i -> (i < q)%nat ->
  S (left_over q (<[l := (i + 1)%nat]> prog)) = left_over q prog.
Proof.
  revert l; induction prog as [|x prog IH]; intros [|l]; try done.
  - intros [= ->] Hi; unfold left_over; simpl; unfold id; lia.
  - intros Hl Hi; specialize (IH l Hl Hi); unfold left_over in *; simpl in *; unfold id in *; lia.
Qed.

Lemma left_over_le q prog : (left_over q prog <= q * length prog)%nat.
Proof. unfold left_over; induction prog; simpl in *; unfold id in *; lia. Qed.

Section Threads.
Context (inst : argon2_instance_t) (lanes q thr np : nat) (Hok : inst_ok inst lanes q)
  (Hthr : inst.(i_threads) = Z.of_nat thr) (Hlim : (1 <= thr <= lanes)%nat)
  (Hnp : inst.(passes) = Z.of_nat np) (M0 : list block) (HM0 : length M0 = (lanes * (4 * q))%nat).

Abbreviation v10 := (ARGON2_VERSION_10 =? inst.(i_version)).
Abbreviation slice_fill r s := (Argon2Pass0.slice_fill lanes q v10 inst.(hash_zero) fill_block_mtp r s).
Abbreviation merged r s := (Argon2Pass0.merged lanes q v10 inst.(hash_zero) fill_block_mtp r s).
Abbreviation first := Argon2Spec.first_index.
Abbreviation size := (lanes * (4 * q))%nat.

(** The sequential memory before slice [s] of pass [r]. *)
Definition phase_mem (r s : nat) : list block :=
  for_range 0 s (fun s M => slice_fill r s M)
    (for_range 0 r (fun r M => for_range 0 4 (fun s M => slice_fill r s M) M) M0).

Lemma phase_next r s : phase_mem r (s + 1) = slice_fill r s (phase_mem r s).
Proof. unfold phase_mem; by rewrite for_range_S by lia. Qed.

Lemma phase_wrap r : phase_mem (r + 1) 0 = phase_mem r 4.
Proof. unfold phase_mem at 1; rewrite for_range_empty, for_range_S by lia; reflexivity. Qed.

Lemma phase_final : phase_mem np 0 = Argon2Spec.fill lanes q v10 inst.(hash_zero) fill_block_mtp np M0.
Proof. unfold phase_mem; by rewrite for_range_empty. Qed.

Lemma length_phase r s : (s <= 4)%nat -> length (phase_mem r s) = size.
Proof.
  destruct Hok as [_ _ _ Hq Hp Hsz].
  assert (Hsl : forall r s B, (s < 4)%nat -> length B = size -> length (slice_fill r s B) = size).
  { intros r' s' B Hs HB; by apply (merged_slice lanes q v10 inst.(hash_zero) fill_block_mtp Hq Hp Hsz r' s' B Hs HB). }
  intros Hs; unfold phase_mem.
  apply (for_range_ind (fun k M => length M = size)); [lia| |intros; apply Hsl; [lia|done]].
  apply (for_range_ind (fun k M => length M = size)); [lia|done|]; intros r' M _ HM.
  apply (for_range_ind (fun k M => length M = size)); [lia|done|]; intros; apply Hsl; [lia|done].
Qed.

(** ** The invariant *)

(** The worker of lane [l] before index [i] of its segment. *)
Definition worker_at (r s l i : nat) (w : worker) : Prop :=
  w.(w_pos) = segment_pos r l s /\ w.(w_i) = Z.of_nat i /\ (first r s <= i <= q)%nat /\
  ((i < q)%nat -> offsets_at q l (s * q + i) w.(w_curr) w.(w_prev)).

(** Lanes below [j] are joined, those from [j] to [c] have a thread, those from
    [c] on have not been started. *)
Definition slots (r s c j : nat) (prog : list nat) (ws : list (option worker)) : Prop :=
  length ws = lanes /\ length prog = lanes /\ forall l, (l < lanes)%nat ->
    ((l < j)%nat -> ws !! l = Some None /\ prog !!! l = q) /\
    ((j <= l < c)%nat -> exists w, ws !! l = Some (Some w) /\ worker_at r s l (prog !!! l) w) /\
    ((j <= l)%nat -> (c <= l)%nat -> ws !! l = Some None /\ prog !!! l = first r s).

Definition pc_at (p : main_pc) (c j : nat) : Prop :=
  match p with
  | Calling l joined => l = Z.of_nat c /\ (c < lanes)%nat /\ (joined = true -> (thr <= c)%nat) /\
      j = (c - thr + if joined then 1 else 0)%nat
  | Joining l => l = Z.of_nat j /\ c = lanes /\ (lanes - thr <= j < lanes)%nat
  | Returned _ => False
  end.

(** What is left of the slice, and of all slices. *)
Definition slice_work (c j : nat) (prog : list nat) : nat := (lanes - c + (lanes - j) + left_over q prog)%nat.
Definition slice_cost : nat := (2 * lanes + q * lanes + 1)%nat.

Definition running (st : mt_state) (work : nat) : Prop :=
  exists r s c j prog, pc_at st.(pc) c j /\ st.(cur_pass) = Z.of_nat r /\ st.(cur_slice) = Z.of_nat s /\
    (r < np)%nat /\ (s < 4)%nat /\ slots r s c j prog st.(workers) /\
    merged r s (phase_mem r s) (fun l => prog !!! l) st.(mt_mem) /\
    work = (((np - 1 - r) * 4 + (3 - s)) * slice_cost + slice_work c j prog)%nat.

Definition returned_ok (st : mt_state) : Prop :=
  st.(pc) = Returned ARGON2_OK /\ Forall (eq None) st.(workers) /\
  st.(mt_mem) = Argon2Spec.fill lanes q v10 inst.(hash_zero) fill_block_mtp np M0.

Definition returned_fail (st : mt_state) : Prop := st.(pc) = Returned ARGON2_THREAD_FAIL.

Definition mt_inv (st : mt_state) (work : nat) : Prop := running st work \/ returned_ok st \/ returned_fail st.

Lemma first_lt r s : (first r s <= q)%nat.
Proof. destruct Hok; unfold Argon2Spec.first_index; destruct (_ && _); lia. Qed.

Lemma slots_progress r s c j prog ws : slots r s c j prog ws -> (j <= c)%nat ->
  progress_ok lanes q r s (fun l => prog !!! l).
Proof.
  intros (_ & _ & H) Hjc l Hl; pose proof (first_lt r s); destruct (H l Hl) as (H1 & H2 & H3).
  destruct (Nat.lt_ge_cases l j) as [?|?]; [destruct H1 as [_ ->]; [done|lia]|].
  destruct (Nat.lt_ge_cases l c) as [?|?]; [destruct H2 as (w & _ & _ & _ & ? & _); [lia|done]|].
  destruct H3 as [_ ->]; [done..|]; lia.
Qed.

Lemma pc_at_le p c j : pc_at p c j -> (j <= c)%nat.
Proof. destruct p as [l joined|l|rc]; unfold pc_at; [|intros (_ & -> & ?); lia|done]; intros (_ & _ & Hj & ->); destruct joined; [specialize (Hj eq_refl)|]; lia. Qed.

(** ** A slice begins *)

Lemma slice_begins r s mem ws : (r < np)%nat -> (s < 4)%nat -> length ws = lanes -> Forall (eq None) ws -> mem = phase_mem r s ->
  exists work, running (MtState (Calling 0 false) (Z.of_nat r) (Z.of_nat s) ws mem) work /\
    (work < ((np - 1 - r) * 4 + (3 - s) + 1) * slice_cost)%nat.
Proof.
  intros Hr Hs Hlw Hws ->; pose proof Hok as [_ _ _ Hq Hp Hsz].
  pose proof (left_over_le q (replicate lanes (first r s))) as Hle; rewrite length_replicate in Hle.
  eexists; split.
  - exists r, s, 0%nat, 0%nat, (replicate lanes (first r s)); cbn [pc cur_pass cur_slice workers mt_mem].
    split; [unfold pc_at; split_and!; (done || lia)|]; do 4 (split; [done|]); split; [|split; [|reflexivity]].
    + split_and!; [done|apply length_replicate|]; intros l Hl; split_and!; [lia|lia|]; intros _ _.
      rewrite lookup_total_replicate_2 by done; split; [|done].
      destruct (ws !! l) as [o|] eqn:E; [|apply lookup_ge_None in E; lia].
      pose proof (Forall_lookup_1 _ _ _ _ Hws E) as <-; done.
    + eapply merged_ext; [|apply merged_start; by apply length_phase; lia].
      intros l Hl; cbv beta; by rewrite lookup_total_replicate_2.
  - unfold slice_work, slice_cost; nia.
Qed.

(** ** Slots *)

Lemma slots_join r s c j prog ws : slots r s c j prog ws -> (j < c)%nat -> (j < lanes)%nat -> prog !!! j = q ->
  slots r s c (j + 1) prog (<[j := None]> ws).
Proof.
  intros (Hw & Hp & H) Hc Hj Hq; split_and!; [by rewrite length_insert|done|]; intros l Hl; specialize (H l Hl).
  destruct (Nat.eq_dec l j) as [->|Hne].
  - rewrite list_lookup_insert_eq by lia; split_and!; [done|lia|lia].
  - rewrite list_lookup_insert_ne by done; destruct H as (H1 & H2 & H3); split_and!; intros; [apply H1|apply H2|apply H3]; lia.
Qed.

Lemma slots_create r s c j prog ws w : slots r s c j prog ws -> (c < lanes)%nat -> (j <= c)%nat ->
  worker_at r s c (first r s) w -> slots r s (c + 1) j prog (<[c := Some w]> ws).
Proof.
  intros (Hw & Hp & H) Hc Hj Hat; split_and!; [by rewrite length_insert|done|]; intros l Hl; specialize (H l Hl).
  destruct (Nat.eq_dec l c) as [->|Hne].
  - destruct H as (_ & _ & H3); destruct H3 as [_ Hf]; [done..|].
    rewrite list_lookup_insert_eq by lia; rewrite Hf; split_and!; [lia|by eexists|lia].
  - rewrite list_lookup_insert_ne by done; destruct H as (H1 & H2 & H3); split_and!; intros; [apply H1|apply H2|apply H3]; lia.
Qed.

Lemma slots_work r s c j prog ws l i w : slots r s c j prog ws -> (j <= l < c)%nat -> (l < lanes)%nat ->
  worker_at r s l i w -> slots r s c j (<[l := i]> prog) (<[l := Some w]> ws).
Proof.
  intros (Hw & Hp & H) Hlc Hl Hat; split_and!; [by rewrite length_insert..|]; intros l' Hl'; specialize (H l' Hl').
  destruct (Nat.eq_dec l' l) as [->|Hne].
  - rewrite list_lookup_insert_eq, list_lookup_total_insert_eq by lia; split_and!; [lia|by eexists|lia].
  - by rewrite list_lookup_insert_ne, list_lookup_total_insert_ne by done.
Qed.

Lemma finished_spec r s l i w : worker_at r s l i w -> finished inst w = (i =? q)%nat.
Proof.
  intros (_ & Hi & Hb & _); unfold finished; rewrite Hi, (io_segment _ _ _ Hok).
  destruct (Nat.eqb_spec i q), (Z.ltb_spec (Z.of_nat i) (Z.of_nat q)); try done; lia.
Qed.

Lemma start_worker_at r s l : (l < lanes)%nat -> (s < 4)%nat ->
  worker_at r s l (first r s) (start_worker inst (segment_pos r l s)).
Proof.
  intros Hl Hs; unfold start_worker; pose proof (first_offsets_spec inst lanes q Hok r l s Hl Hs) as Ho.
  destruct (first_offsets inst (segment_pos r l s)) as [curr prev].
  pose proof (first_lt r s); split_and!; [done|apply starting_index_spec|lia|lia|done].
Qed.

(** ** A worker fills its next block *)

Lemma work_step_inv st work l st' : running st work -> mt_step inst (Work l) st = Some st' ->
  exists work', running st' work' /\ (work' < work)%nat.
Proof.
  intros (r & s & c & j & prog & Hpc & Hr & Hs & Hrb & Hsb & Hsl & Hmer & ->); unfold mt_step.
  destruct (workers st !! l) as [o|] eqn:El; [|done]; cbn [mbind option_bind]; destruct o as [w|]; [|done]; cbn [mbind option_bind].
  pose proof Hsl as (Hlw & Hlp & Hslot); assert (Hl : (l < lanes)%nat) by (rewrite <- Hlw; by eapply lookup_lt_Some).
  destruct (Hslot l Hl) as (H1 & H2 & H3).
  assert (Hlc : (j <= l < c)%nat).
  { split; apply Nat.nlt_ge; intros Hx; [destruct H1 as [H1 _]; [done|congruence]|].
    destruct (Nat.le_gt_cases j l) as [Hy|Hy]; [destruct H3 as [H3 _]; [done|lia|congruence]|destruct H1 as [H1 _]; [done|congruence]]. }
  destruct H2 as (w' & Hw' & Hat); [done|]; rewrite El in Hw'; simplify_eq.
  unfold worker_step; rewrite (finished_spec r s l _ w' Hat); destruct (Nat.eqb_spec (prog !!! l) q) as [|Hne]; [done|].
  pose proof Hat as (Hpos & Hwi & Hib & Hoff); set (i := prog !!! l) in *.
  destruct (index_of_block inst lanes q Hok s i ltac:(lia)) as [Hd Hmd].
  assert (HlM : length st.(mt_mem) = size) by apply Hmer.
  destruct (segment_step_spec inst lanes q Hok r l (s * q + i) w'.(w_curr) w'.(w_prev) st.(mt_mem))
    as (cu & pr & Hstep & Hnext); [apply (segment_can_fill inst lanes q Hok); lia|done|apply Hoff; lia|].
  rewrite Hd, Hmd in Hstep; rewrite Hpos, Hwi, Hstep; cbn [mbind option_bind]; intros [= <-].
  pose proof (left_over_step q prog l i ltac:(unfold i; apply list_lookup_lookup_total_lt; lia) ltac:(lia)) as Hleft.
  eexists; split.
  - exists r, s, c, j, (<[l := (i + 1)%nat]> prog); cbn [pc cur_pass cur_slice workers mt_mem].
    do 5 (split; [done|]); split; [|split; [|reflexivity]].
    + apply slots_work; [done|done|done|]; split_and!; cbn [w_pos w_i w_curr w_prev]; [done|lia|lia|lia|].
      intros Hi1; replace (s * q + (i + 1))%nat with (s * q + i + 1)%nat by lia; apply Hnext; nia.
    + eapply merged_ext; [|apply (merged_visit _ _ _ _ _ (io_q _ _ _ Hok) (io_pos _ _ _ Hok) (io_size _ _ _ Hok) r s _ Hsb
        (length_phase r s ltac:(lia)) _ _ l i Hmer)]; [|by eapply slots_progress, pc_at_le|done|done|lia].
      intros l' Hl'; cbv beta; destruct (Nat.eqb_spec l' l) as [->|]; [by rewrite list_lookup_total_insert_eq by lia|].
      by rewrite list_lookup_total_insert_ne by done.
  - unfold slice_work; lia.
Qed.

(** ** The main thread makes its next call *)

(** All lanes joined: the slice is the sequential one. *)
Lemma slice_done r s prog st : (r < np)%nat -> (s < 4)%nat -> slots r s lanes lanes prog st.(workers) ->
  merged r s (phase_mem r s) (fun l => prog !!! l) st.(mt_mem) ->
  st.(mt_mem) = phase_mem r (s + 1) /\ Forall (eq None) st.(workers).
Proof.
  intros Hr Hs (Hlw & _ & Hslot) Hmer; split.
  - destruct Hok as [_ _ _ Hq Hp Hsz]; pose proof (length_phase r s ltac:(lia)) as HB; rewrite phase_next.
    apply (merged_unique lanes q v10 inst.(hash_zero) fill_block_mtp Hq Hp Hsz r s (phase_mem r s) Hs HB (fun _ => q)).
    + eapply merged_ext; [|exact Hmer]; intros l Hl; cbv beta; apply (Hslot l Hl); done.
    + by apply merged_slice.
  - apply Forall_lookup; intros l o Ho; assert (Hl : (l < lanes)%nat) by (rewrite <- Hlw; by eapply lookup_lt_Some).
    destruct (Hslot l Hl) as (H1 & _); destruct (H1 Hl) as [Hn _]; congruence.
Qed.

(** Where the main thread goes after the last join of a slice. *)
Lemma next_slice_inv r s prog st work : (r < np)%nat -> (s < 4)%nat -> slots r s lanes lanes prog st.(workers) ->
  merged r s (phase_mem r s) (fun l => prog !!! l) st.(mt_mem) ->
  (((np - 1 - r) * 4 + (3 - s)) * slice_cost <= work)%nat ->
  let st' := goto st (next_slice inst (Z.of_nat r) (Z.of_nat s)) in
  returned_ok st' \/ exists work', running st' work' /\ (work' < work)%nat.
Proof.
  intros Hr Hs Hsl Hmer Hw; destruct (slice_done r s prog st Hr Hs Hsl Hmer) as [HM Hnone].
  pose proof Hsl as (Hlw & _); unfold next_slice, ARGON2_SYNC_POINTS; rewrite Hnp.
  destruct (Z.ltb_spec (Z.of_nat s + 1) 4) as [Hs1|Hs1]; [right|destruct (Z.ltb_spec (Z.of_nat r + 1) (Z.of_nat np)) as [Hr1|Hr1]; [right|left]].
  - replace (Z.of_nat s + 1) with (Z.of_nat (s + 1)) by lia.
    destruct (slice_begins r (s + 1) st.(mt_mem) st.(workers)) as (w & Hrun & Hlt); [lia|lia|done..|].
    exists w; split; [exact Hrun|]; nia.
  - replace (Z.of_nat r + 1) with (Z.of_nat (r + 1)) by lia.
    destruct (slice_begins (r + 1) 0 st.(mt_mem) st.(workers)) as (w & Hrun & Hlt); [lia|lia|done..| |].
    + rewrite phase_wrap, HM; f_equal; lia.
    + exists w; split; [exact Hrun|]; replace s with 3%nat in * by lia; nia.
  - split_and!; [done|done|]; cbn [goto mt_mem]; rewrite HM; replace (s + 1)%nat with 4%nat by lia.
    rewrite <- phase_final, <- phase_wrap; f_equal; lia.
Qed.

Lemma join_step r s c j prog st st' next ret : (r < np)%nat -> (s < 4)%nat ->
  slots r s c j prog st.(workers) -> (j < c <= lanes)%nat ->
  join_worker inst ret (Z.of_nat j) st next = Some st' ->
  returned_fail st' \/ (st' = goto (set_worker st (Z.of_nat j) None) next /\ prog !!! j = q /\
    slots r s c (j + 1) prog (set_worker st (Z.of_nat j) None).(workers)).
Proof.
  intros Hr Hs Hsl Hj; pose proof Hsl as (Hlw & Hlp & Hslot); destruct (Hslot j ltac:(lia)) as (_ & H2 & _).
  destruct H2 as (w & Hw & Hat); [lia|]; unfold join_worker; rewrite Nat2Z.id, Hw; cbn [mbind option_bind].
  destruct (argon2_thread_join ret =? 0); cbn [negb]; [|intros [= <-]; by left].
  rewrite (finished_spec r s j _ w Hat); destruct (Nat.eqb_spec (prog !!! j) q) as [Hq|]; [|done]; intros [= <-]; right.
  split_and!; [done|done|]; cbn [set_worker workers]; rewrite Nat2Z.id; by apply slots_join; [..|lia|lia|].
Qed.

Lemma main_step_inv ret st st' work : running st work -> main_step inst ret st = Some st' ->
  returned_fail st' \/ returned_ok st' \/ exists work', running st' work' /\ (work' < work)%nat.
Proof.
  intros (r & s & c & j & prog & Hpc & Hr & Hs & Hrb & Hsb & Hsl & Hmer & ->) Hstep; unfold main_step in Hstep.
  pose proof (pc_at_le _ _ _ Hpc) as Hjc; pose proof (io_lanes _ _ _ Hok) as Hln; pose proof (io_size _ _ _ Hok) as Hsz.
  pose proof (io_q _ _ _ Hok) as Hq; destruct (st.(pc)) as [l joined|l|rc] eqn:Epc; unfold pc_at in Hpc; [| |done].
  - destruct Hpc as (-> & Hc & Hjoined & Hj); rewrite Hthr in Hstep.
    destruct (negb joined && (Z.of_nat thr <=? Z.of_nat c)) eqn:Eb.
    + apply andb_true_iff in Eb as [Eb1 Eb2]; apply negb_true_iff in Eb1; subst joined; apply Z.leb_le in Eb2.
      replace (Z.of_nat c - Z.of_nat thr) with (Z.of_nat j) in Hstep by lia.
      destruct (join_step r s c j prog st st' _ ret Hrb Hsb Hsl ltac:(lia) Hstep) as [Hf|(-> & Hpq & Hsl')]; [by left|right; right].
      eexists; split; [exists r, s, c, (j + 1)%nat, prog; cbn [goto set_worker pc cur_pass cur_slice workers mt_mem]|].
      * split; [unfold pc_at; split_and!; lia|]; do 4 (split; [done|]); by split; [|split].
      * unfold slice_work; lia.
    + unfold create_worker in Hstep; rewrite Nat2Z.id in Hstep; pose proof Hsl as (Hlw & Hlp & Hslot).
      destruct (Hslot c Hc) as (_ & _ & H3); destruct H3 as [Hnone _]; [done..|]; rewrite Hnone in Hstep; cbn [mbind option_bind] in Hstep.
      unfold argon2_thread_create in Hstep; cbn [negb orb] in Hstep.
      destruct (ret =? 0); cbn [negb] in Hstep; [|injection Hstep as <-; by left]; injection Hstep as <-; right; right.
      rewrite Hr, Hs; unfold u8; rewrite wrap_id by (unfold word; lia); fold (segment_pos r c s).
      pose proof (slots_create r s c j prog _ _ Hsl Hc Hjc (start_worker_at r s c Hc Hsb)) as Hsl'.
      assert (Hj' : j = (c + 1 - thr)%nat).
      { apply andb_false_iff in Eb as [Eb|Eb]; [apply negb_false_iff in Eb; subst joined; specialize (Hjoined eq_refl); lia|].
        apply Z.leb_gt in Eb; destruct joined; [specialize (Hjoined eq_refl)|]; lia. }
      unfold calling, joining; rewrite Hln, Hthr; unfold u32; rewrite wrap_id by (unfold word; nia).
      eexists; split; [exists r, s, (c + 1)%nat, j, prog|].
      * destruct (Z.ltb_spec (Z.of_nat c + 1) (Z.of_nat lanes)); [|destruct (Z.ltb_spec (Z.of_nat lanes - Z.of_nat thr) (Z.of_nat lanes)); [|lia]];
          cbn [goto set_worker pc cur_pass cur_slice workers mt_mem]; rewrite Nat2Z.id;
          (split; [unfold pc_at; split_and!; (done || lia)|]); do 4 (split; [done|]); by split; [|split].
      * unfold slice_work; lia.
  - destruct Hpc as (-> & -> & Hj).
    destruct (join_step r s lanes j prog st st' _ ret Hrb Hsb Hsl ltac:(lia) Hstep) as [Hf|(-> & Hpq & Hsl')]; [by left|].
    unfold joining; rewrite Hln; destruct (Z.ltb_spec (Z.of_nat j + 1) (Z.of_nat lanes)) as [Hlt|Hge].
    + right; right; eexists; split; [exists r, s, lanes, (j + 1)%nat, prog; cbn [goto set_worker pc cur_pass cur_slice workers mt_mem]|].
      * split; [unfold pc_at; split_and!; lia|]; do 4 (split; [done|]); by split; [|split].
      * unfold slice_work; lia.
    + rewrite Hr, Hs; replace (j + 1)%nat with lanes in Hsl' by lia; right.
      apply (next_slice_inv r s prog (set_worker st (Z.of_nat j) None)); [done|done|exact Hsl'|exact Hmer|lia].
Qed.

(** ** Progress *)

Lemma running_progress st work : running st work -> exists c st', mt_step inst c st = Some st' /\ (c = Main 0 \/ exists l, c = Work l).
Proof.
  intros (r & s & c & j & prog & Hpc & Hr & Hs & Hrb & Hsb & Hsl & Hmer & ->).
  pose proof (pc_at_le _ _ _ Hpc) as Hjc; pose proof Hsl as (Hlw & Hlp & Hslot).
  assert (Hjoin : forall next, (j < c <= lanes)%nat -> (exists st', join_worker inst 0 (Z.of_nat j) st next = Some st') \/
    exists st', mt_step inst (Work j) st = Some st').
  { intros next Hj; destruct (Hslot j ltac:(lia)) as (_ & H2 & _); destruct H2 as (w & Hw & Hat); [lia|].
    unfold join_worker, mt_step, worker_step; rewrite Nat2Z.id, Hw; cbn [mbind option_bind].
    rewrite (finished_spec r s j _ w Hat); destruct (Nat.eqb_spec (prog !!! j) q) as [Hq|Hne]; [left; by eexists|right].
    pose proof Hat as (Hpos & Hwi & Hib & Hoff); set (i := prog !!! j) in *.
    destruct (index_of_block inst lanes q Hok s i ltac:(lia)) as [Hd Hmd].
    destruct (segment_step_spec inst lanes q Hok r j (s * q + i) w.(w_curr) w.(w_prev) st.(mt_mem))
      as (cu & pr & Hstep & _); [apply (segment_can_fill inst lanes q Hok); lia|apply Hmer|apply Hoff; lia|].
    rewrite Hd, Hmd in Hstep; rewrite Hpos, Hwi, Hstep; by eexists. }
  destruct (st.(pc)) as [l joined|l|rc] eqn:Epc; unfold pc_at in Hpc; [| |done].
  - destruct Hpc as (-> & Hc & Hjoined & Hj).
    destruct (negb joined && (Z.of_nat thr <=? Z.of_nat c)) eqn:Eb.
    + pose proof Eb as Eb'; apply andb_true_iff in Eb as [Eb1 Eb2]; apply negb_true_iff in Eb1; subst joined; apply Z.leb_le in Eb2.
      destruct (Hjoin (Calling (Z.of_nat c) true, st.(cur_pass), st.(cur_slice)) ltac:(lia)) as [[st' Hst']|[st' Hst']];
        [exists (Main 0)|exists (Work j)]; exists st'; (split; [|eauto]); [|done].
      cbn [mt_step]; unfold main_step; rewrite Epc, Hthr, Eb'; by replace (Z.of_nat c - Z.of_nat thr) with (Z.of_nat j) by lia.
    + exists (Main 0); destruct (Hslot c Hc) as (_ & _ & H3); destruct H3 as [Hnone _]; [done..|].
      eexists; split; [|by left]; cbn [mt_step]; unfold main_step; rewrite Epc, Hthr, Eb; unfold create_worker.
      rewrite Nat2Z.id, Hnone; reflexivity.
  - destruct Hpc as (-> & -> & Hj).
    destruct (Hjoin (joining inst (Z.of_nat j + 1) st.(cur_pass) st.(cur_slice)) ltac:(lia)) as [[st' Hst']|[st' Hst']];
      [exists (Main 0)|exists (Work j)]; exists st'; (split; [|eauto]); [|done].
    cbn [mt_step]; unfold main_step; by rewrite Epc.
Qed.

(** ** Executions *)

(** The main thread returns the thread error only after a call that failed. *)
Lemma main_step_error ret st st' : main_step inst ret st = Some st' -> returned_fail st' -> ret <> 0.
Proof.
  intros H Hf ->; revert H Hf; unfold returned_fail, main_step, join_worker, create_worker, argon2_thread_join, argon2_thread_create.
  assert (Hn : forall r s, (next_slice inst r s).1.1 <> Returned ARGON2_THREAD_FAIL)
    by (intros r s; unfold next_slice; repeat case_match; done).
  assert (Hj : forall l r s, (joining inst l r s).1.1 <> Returned ARGON2_THREAD_FAIL)
    by (intros l r s; unfold joining; case_match; [done|apply Hn]).
  assert (Hc : forall l r s, (calling inst l r s).1.1 <> Returned ARGON2_THREAD_FAIL)
    by (intros l r s; unfold calling; case_match; [done|apply Hj]).
  assert (Hg : forall st p, (goto st p).(pc) = p.1.1) by (by intros ? [[]]).
  cbn [Z.eqb negb orb]; destruct (st.(pc)) as [l joined|l|rc]; [destruct (_ && _)| |done];
    destruct (workers st !! _) as [[w|]|]; cbn [mbind option_bind]; try done; try (destruct (finished inst w); [|done]);
    intros [= <-]; rewrite ?Hg; [done|apply Hc|apply Hj].
Qed.

Definition failed_call (choices : list choice) : Prop := exists e, e <> 0 /\ Main e ∈ choices.

Lemma failed_call_cons c choices : failed_call choices -> failed_call (c :: choices).
Proof. intros (e & He & Hin); exists e; split; [done|]; by apply elem_of_cons; right. Qed.

(** No step leaves [Returned]; after a success there is none at all. *)
Lemma returned_fail_run choices st st' : returned_fail st -> mt_run inst choices st = Some st' -> returned_fail st'.
Proof.
  revert st; induction choices as [|c choices IH]; intros st Hf; [by intros [= <-]|]; unfold mt_run in *; rewrite fold_leftM_cons.
  unfold returned_fail in Hf; destruct c as [ret|l]; cbn [mt_step]; [unfold main_step; by rewrite Hf|].
  destruct (workers st !! l) as [[w|]|]; cbn [mbind option_bind]; try done.
  destruct (worker_step inst w (mt_mem st)) as [[w' mem]|]; cbn [mbind option_bind]; [|done]; by apply IH.
Qed.

Lemma returned_ok_run choices st st' : returned_ok st -> mt_run inst choices st = Some st' -> st' = st.
Proof.
  intros (Hpc & Hw & _); destruct choices as [|c choices]; [by intros [= <-]|]; unfold mt_run; rewrite fold_leftM_cons.
  destruct c as [ret|l]; cbn [mt_step]; [unfold main_step; by rewrite Hpc|].
  destruct (workers st !! l) as [o|] eqn:E; [|done]; by pose proof (Forall_lookup_1 _ _ _ _ Hw E) as <-.
Qed.

Lemma run_inv choices st st' work : running st work -> mt_run inst choices st = Some st' ->
  (exists work', running st' work' /\ (work' + length choices <= work)%nat) \/ returned_ok st' \/
  (returned_fail st' /\ failed_call choices).
Proof.
  revert st work; induction choices as [|c choices IH]; intros st work Hrun.
  { intros [= <-]; left; exists work; split; [done|]; simpl; lia. }
  unfold mt_run; rewrite fold_leftM_cons; destruct (mt_step inst c st) as [st1|] eqn:E; cbn [mbind option_bind]; [|done].
  fold (mt_run inst choices st1); intros Hr.
  assert (Hnext : returned_fail st1 /\ failed_call (c :: choices) \/ returned_ok st1 \/ exists w, running st1 w /\ (w < work)%nat).
  { destruct c as [ret|l]; [|right; right; by eapply work_step_inv].
    destruct (main_step_inv ret st st1 work Hrun E) as [Hf|H]; [left|by right]; split; [done|].
    exists ret; split; [by eapply main_step_error|apply elem_of_cons; by left]. }
  destruct Hnext as [[Hf He]|[Hk|(w & Hw & Hlt)]].
  - right; right; split; [by eapply returned_fail_run|done].
  - right; left; by rewrite (returned_ok_run _ _ _ Hk Hr).
  - destruct (IH st1 w Hw Hr) as [(w' & Hw' & Hle)|[H|[H He]]]; [left; exists w'; split; [done|simpl; lia]|by right; left|].
    right; right; split; [done|by apply failed_call_cons].
Qed.

(** How the loops start. *)
Lemma start_inv : returned_ok (mt_start inst M0) \/
  exists work, running (mt_start inst M0) work /\ (work < np * 4 * slice_cost)%nat.
Proof.
  unfold mt_start, calling; rewrite Hnp, (io_lanes _ _ _ Hok), Nat2Z.id; pose proof (io_pos _ _ _ Hok).
  destruct (Z.ltb_spec 0 (Z.of_nat np)); [right|left; split_and!; [done|by apply Forall_replicate|]].
  - destruct (Z.ltb_spec 0 (Z.of_nat lanes)); [|lia].
    destruct (slice_begins 0 0 M0 (replicate lanes None)) as (w & Hw & Hlt);
      [lia|lia|apply length_replicate|by apply Forall_replicate|done|]; exists w; split; [done|]; nia.
  - cbn [mt_mem]; replace np with 0%nat by lia; reflexivity.
Qed.

Lemma mt_run_inv choices st : mt_run inst choices (mt_start inst M0) = Some st ->
  (exists work, running st work /\ (work + length choices < np * 4 * slice_cost)%nat) \/ returned_ok st \/
  (returned_fail st /\ failed_call choices).
Proof.
  destruct start_inv as [Hk|(w & Hw & Hlt)]; intros Hr; [right; left; by rewrite (returned_ok_run _ _ _ Hk Hr)|].
  destruct (run_inv choices _ st w Hw Hr) as [(w' & Hw' & Hle)|H]; [left; exists w'; split; [done|lia]|by right].
Qed.

(** A running state can be run to the end without an error. *)
Lemma run_completes work st : running st work ->
  exists rest st', mt_run inst rest st = Some st' /\ returned_ok st' /\ ~ failed_call rest.
Proof.
  revert st; induction work as [work IH] using lt_wf_ind; intros st Hrun.
  destruct (running_progress st work Hrun) as (c & st1 & Hstep & Hc).
  assert (Hnext : returned_ok st1 \/ exists w, running st1 w /\ (w < work)%nat).
  { destruct Hc as [->|[l ->]]; [|right; by eapply work_step_inv].
    destruct (main_step_inv 0 st st1 work Hrun Hstep) as [Hf|H]; [|done]; by destruct (main_step_error 0 st st1 Hstep Hf). }
  assert (Hmore : exists rest st', mt_run inst rest st1 = Some st' /\ returned_ok st' /\ ~ failed_call rest).
  { destruct Hnext as [Hk|(w & Hw & Hlt)]; [|by apply (IH w)].
    exists [], st1; split_and!; [done|done|]; intros (e & _ & Hin); by apply not_elem_of_nil in Hin. }
  destruct Hmore as (rest & st' & Hr & Hk & Hnf); exists (c :: rest), st'; split; [|split; [done|]].
  - unfold mt_run; rewrite fold_leftM_cons, Hstep; exact Hr.
  - intros (e & He & Hin); apply elem_of_cons in Hin as [<-|Hin]; [|by apply Hnf; exists e].
    destruct Hc as [[= ->]|[l [=]]]; done.
Qed.

End Threads.
