(* ===== verification/Argon2Claims.v ===== *)
(** The theorems about the Argon2 core and its threads. *)

From S2P Require Import Prelude BlakeSpec Rfc7693 Blake2b Blake2bTheorems Argon2 Argon2Threads Argon2Spec Argon2Block.
From S2P Require Import Argon2Fill Argon2Init Argon2Pass0 Argon2ThreadProofs.

#[local] Opaque Rfc7693.hash Rfc7693.hash_long blake2b_long fill_block_mtp fill_block Argon2Spec.compress Argon2Spec.permute
  Argon2Spec.bxor.

(** A small instance for the witnesses. *)
Definition demo_instance (lanes q threads passes : nat) : argon2_instance_t :=
  Argon2Instance None ARGON2_VERSION_NUMBER (Z.of_nat passes) (Z.of_nat (lanes * (4 * q))) (Z.of_nat q) (Z.of_nat (4 * q))
    (Z.of_nat lanes) (Z.of_nat threads) Argon2_d (replicate 72 7).

Definition demo_memory (n : nat) : list block := map (fun i => replicate 128 (Z.of_nat i * 0x1234567890ABCDE)) (seq 0 n).

Definition demo_context : argon2_context :=
  Argon2Context (Some (replicate 32 0)) 32 (Some (replicate 80 1)) 80 (Some (replicate 80 2)) 80 None 0 None 0
    1 16 2 2 ARGON2_VERSION_NUMBER None false 0.

Lemma demo_instance_ok lanes q thr np : (2 <= q)%nat -> (1 <= lanes)%nat -> Z.of_nat (lanes * (4 * q)) < 2 ^ 32 ->
  inst_ok (demo_instance lanes q thr np) lanes q.
Proof. by split. Qed.

Lemma set_memory_ok inst lanes q m : inst_ok inst lanes q -> inst_ok (set_memory inst m) lanes q.
Proof. intros []; by split. Qed.

(** ** Inputs *)

(** The constraints of argon2.h. *)
Definition valid_context (c : argon2_context) : Prop :=
  c.(out) <> None /\ 4 <= c.(outlen) /\
  (c.(pwd) = None -> c.(pwdlen) = 0) /\ (c.(salt) = None -> c.(saltlen) = 0) /\ 8 <= c.(saltlen) /\
  (c.(secret) = None -> c.(secretlen) = 0) /\ (c.(ad) = None -> c.(adlen) = 0) /\
  8 <= c.(m_cost) /\ 8 * c.(lanes) <= c.(m_cost) /\ 1 <= c.(t_cost) /\
  1 <= c.(lanes) <= 2 ^ 24 - 1 /\ 1 <= c.(threads) <= 2 ^ 24 - 1 /\
  (c.(allocate_cbk) = None <-> c.(free_cbk) = false).

(** The fields that are 32 bits wide. *)
Definition context_words (c : argon2_context) : Prop :=
  Forall (word 32) [c.(outlen); c.(pwdlen); c.(saltlen); c.(secretlen); c.(adlen); c.(t_cost); c.(m_cost); c.(lanes); c.(threads)].

Lemma is_null_spec {A} (p : option A) : is_null p = true <-> p = None.
Proof. by destruct p. Qed.

Lemma guard_ok (b : bool) (e r : Z) : e <> ARGON2_OK -> (if b then e else r) = ARGON2_OK <-> b = false /\ r = ARGON2_OK.
Proof. destruct b; intuition congruence. Qed.

Lemma null_len_ok (p : option (list Z)) n : is_null p && negb (0 =? n) = false <-> (p = None -> n = 0).
Proof. destruct p, (Z.eqb_spec 0 n); simpl; split; intros; (done || naive_solver). Qed.

Lemma cbk_ok {A} (p : option A) b : negb (is_null p) && negb b = false -> is_null p && b = false -> p = None <-> b = false.
Proof. destruct p, b; simpl; intuition discriminate. Qed.

Lemma cbk_guards {A} (p : option A) b : (p = None <-> b = false) -> negb (is_null p) && negb b = false /\ is_null p && b = false.
Proof. destruct p, b; simpl; intuition discriminate. Qed.

Lemma validate_inputs_spec c : context_words c ->
  validate_inputs (Some c) = ARGON2_OK <-> valid_context c.
Proof.
  unfold context_words; rewrite !list.Forall_cons; intros (Ho & Hp & Hs & Hse & Had & Ht & Hm & Hl & Hth & _); unfold word in *.
  unfold validate_inputs; rewrite !guard_ok by discriminate; rewrite !null_len_ok.
  unfold valid_context, ARGON2_MIN_OUTLEN, ARGON2_MAX_OUTLEN, ARGON2_MIN_PWD_LENGTH, ARGON2_MAX_PWD_LENGTH,
    ARGON2_MIN_SALT_LENGTH, ARGON2_MAX_SALT_LENGTH, ARGON2_MIN_SECRET, ARGON2_MAX_SECRET, ARGON2_MIN_AD_LENGTH, ARGON2_MAX_AD_LENGTH,
    ARGON2_MIN_TIME, ARGON2_MAX_TIME, ARGON2_MIN_LANES, ARGON2_MAX_LANES, ARGON2_MIN_THREADS, ARGON2_MAX_THREADS.
  change ARGON2_MAX_MEMORY with 0xFFFFFFFF; change ARGON2_MIN_MEMORY with 8; rewrite !Z.ltb_ge.
  assert (Hu : c.(lanes) <= 0xFFFFFF -> u32 (8 * c.(lanes)) = 8 * c.(lanes)) by (intros; apply wrap_id; unfold word; lia).
  rewrite <- not_true_iff_false, is_null_spec; split.
  - intros (H1 & H2 & H3 & H4 & H5 & H6 & H7 & H8 & H9 & H10 & H11 & H12 & H13 & H14 & H15 & H16 & H17 & H18 & H19 & H20 & H21 & H22 &
      H23 & H24 & H25 & H26 & _).
    pose proof (cbk_ok _ _ H25 H26); specialize (Hu H22); split_and!; first [done | lia].
  - intros (H1 & H2 & H3 & H4 & H5 & H6 & H7 & H8 & H9 & H10 & H11 & H12 & H13); specialize (Hu (proj2 H11)).
    destruct (cbk_guards _ _ H13) as [G1 G2].
    assert (L : forall (p : option (list Z)) a b, b <= a -> negb (is_null p) && (a <? b) = false)
      by (intros p a b Hab; rewrite (proj2 (Z.ltb_ge a b) Hab); apply andb_false_r).
    split_and!; first [done | lia | apply L; lia].
Qed.

(** [validate_inputs] returns [ARGON2_OK] exactly for the contexts
    that meet the constraints; the 32-bit product [8 * lanes] cannot let a
    context with too little memory pass. *)
Theorem validate_inputs_correct c : context_words c ->
  validate_inputs (Some c) = ARGON2_OK <-> valid_context c.
Proof. apply validate_inputs_spec. Qed.

Lemma validate_inputs_correct_witness : validate_inputs (Some demo_context) = ARGON2_OK /\ valid_context demo_context.
Proof.
  assert (Hw : context_words demo_context) by (by apply wordsb_spec).
  assert (Hv : validate_inputs (Some demo_context) = ARGON2_OK) by reflexivity.
  split; [exact Hv|]; by apply (validate_inputs_correct demo_context Hw).
Defined.

(** ** Memory *)

(** [allocate_memory] asks its allocator, the callback of the
    context or the default one, for exactly [num * size] bytes; when that does
    not fit in a [size_t] it fails and leaves the pointer alone. *)
Theorem allocate_memory_correct malloc c p num size : word 64 num -> word 64 size ->
  allocate_memory malloc c (Some p) num size =
  if (size =? 0) || (num * size <? 2 ^ 64) then
    match allocator_of malloc c (num * size) with
    | Some m => (ARGON2_OK, Some (Some m))
    | None => (ARGON2_MEMORY_ALLOCATION_ERROR, Some None)
    end
  else (ARGON2_MEMORY_ALLOCATION_ERROR, Some p).
Proof. apply allocate_memory_spec. Qed.

Lemma allocate_memory_correct_witness :
  allocate_memory (fun _ => Some []) demo_context (Some None) (2 ^ 54 + 1) 1024 = (ARGON2_MEMORY_ALLOCATION_ERROR, Some None).
Proof. apply (allocate_memory_correct (fun _ => Some []) demo_context None (2 ^ 54 + 1) 1024); by apply wordb_spec. Defined.

(** ** Blocks *)

(** The in-place rounds over strided words are the row and
    column permutations of the 8 by 8 matrix of RFC 9106, with the index of the
    reference block and 32 bytes of H0 put in first; without the XOR mode the old
    contents of the block do not matter. *)
Theorem fill_block_mtp_correct prev ref next over i h0 : block_ok prev -> block_ok ref -> block_ok next -> word 32 i ->
  fill_block_mtp prev ref next over i h0 = Argon2Spec.compress prev ref next over i h0 /\
  block_ok (Argon2Spec.compress prev ref next over i h0) /\
  (forall next', fill_block_mtp prev ref next' false i h0 = fill_block_mtp prev ref next false i h0) /\
  fill_block prev ref next over = (let R := Argon2Spec.bxor ref prev in
    Argon2Spec.bxor (if over then Argon2Spec.bxor R next else R) (Argon2Spec.permute R)).
Proof.
  intros Hp Hr Hn Hi; destruct (fill_block_mtp_spec prev ref next over i h0 Hp Hr Hn Hi) as [H1 H2].
  split; [exact H1|]; split; [exact H2|]; split; [intros; apply fill_block_mtp_overwrites|].
  exact (fill_block_spec prev ref next over Hp Hr Hn).
Qed.

Lemma fill_block_mtp_correct_witness :
  fill_block_mtp (replicate 128 1) (replicate 128 2) (replicate 128 3) true 5 (replicate 72 7) =
  Argon2Spec.compress (replicate 128 1) (replicate 128 2) (replicate 128 3) true 5 (replicate 72 7).
Proof.
  assert (Hok : forall x, block_ok (replicate 128 x)) by (intros x; exact (length_replicate 128 x)).
  exact (proj1 (fill_block_mtp_correct (replicate 128 1) (replicate 128 2) (replicate 128 3) true 5 (replicate 72 7) (Hok 1) (Hok 2) (Hok 3)
    (proj1 (wordb_spec 32 5) eq_refl))).
Defined.

(** [index_alpha] returns the position RFC 9106 selects in the
    reference set of the block; the set is inside the lane, has neither the
    block itself nor the previous one of the own lane, and of another lane
    nothing of the segment that lane is filling. *)
Theorem index_alpha_correct inst lanes q r l j same j1 : inst_ok inst lanes q -> reachable q r j same -> 0 <= j1 < 2 ^ 32 ->
  let k := Argon2Spec.choose (Argon2Spec.candidates q r j same) j1 in
  index_alpha inst (position_of q r l j) j1 same = Z.of_nat k /\ k ∈ Argon2Spec.candidates q r j same /\ (k < 4 * q)%nat /\
  if same then k <> j /\ k <> (if j =? 0 then 4 * q - 1 else j - 1)%nat else (k / q <> j / q)%nat.
Proof.
  intros Hok Hr Hj1 k; pose proof (lane_lt inst lanes q Hok) as Hl; destruct Hok as [Hs Hla _ Hq _ _].
  assert (Hin : k ∈ Argon2Spec.candidates q r j same) by (by apply choose_in).
  split; [by apply (index_alpha_spec inst q Hq Hs Hla)|]; split; [done|]; exact (candidates_avoid q Hq r j same k Hr Hin).
Qed.

Lemma index_alpha_correct_witness :
  index_alpha (demo_instance 2 4 2 1) (position_of 4 1 0 6) 0x80000000 false =
  Z.of_nat (Argon2Spec.choose (Argon2Spec.candidates 4 1 6 false) 0x80000000).
Proof.
  apply (index_alpha_correct (demo_instance 2 4 2 1) 2 4 1 0 6 false 0x80000000);
    [apply demo_instance_ok; lia|split_and!; [lia|done|done]|lia].
Defined.

(** A block stored as 1024 bytes and loaded again is the block,
    whatever the buffers held. *)
Theorem block_roundtrip b o dst : block_ok b -> words 64 b -> length o = 1024%nat -> block_ok dst ->
  load_block dst (store_block o b) = b.
Proof.
  intros Hb Hw Ho Hd; rewrite store_block_spec by done; rewrite load_block_spec by
    (rewrite ?length_bytes_of_block; unfold block_ok in *; (done || lia)); by apply block_of_bytes_of_block.
Qed.

Lemma block_roundtrip_witness : load_block (replicate 128 3) (store_block (replicate 1024 9) (replicate 128 0x0123456789ABCDEF)) =
  replicate 128 0x0123456789ABCDEF.
Proof.
  exact (block_roundtrip (replicate 128 0x0123456789ABCDEF) (replicate 1024 9) (replicate 128 3) (length_replicate 128 _)
    (proj1 (wordsb_spec 64 (replicate 128 0x0123456789ABCDEF)) eq_refl) (length_replicate 1024 9) (length_replicate 128 3)).
Defined.

(** ** Beginning and end *)

Lemma initialize_no_memory malloc loc inst c lanes q : inst_ok inst lanes q -> inst.(memory_blocks) = Z.of_nat (lanes * (4 * q)) ->
  allocator_of malloc c (Z.of_nat (lanes * (4 * q)) * 1024) = None ->
  initialize malloc loc (Some inst) (Some c) = Some (ARGON2_MEMORY_ALLOCATION_ERROR, Some (set_memory inst None), Some c).
Proof.
  intros Hok Hmb E; pose proof (io_size _ _ _ Hok); unfold initialize; change (Z.of_nat ARGON2_BLOCK_SIZE) with 1024.
  rewrite allocate_memory_spec, Hmb, E by (unfold word; lia).
  destruct (Z.ltb_spec (Z.of_nat (lanes * (4 * q)) * 1024) (2 ^ 64)); [reflexivity|lia].
Qed.

(** [initialize] hashes the parameters and inputs to H0 of
    RFC 9106 and puts into the first two blocks of every lane the 1024-byte hash
    of H0, the index and the lane; it touches no other block, keeps H0 in the
    instance, followed by eight zero bytes, and fails when the allocation
    does. *)
Theorem initialize_correct malloc loc inst c lanes q : locals_ok loc -> inst_ok inst lanes q -> buffers_ok c ->
  inst.(memory_blocks) = Z.of_nat (lanes * (4 * q)) ->
  let h := H0 c inst.(i_type) in
  match allocator_of malloc c (Z.of_nat (lanes * (4 * q)) * 1024) with
  | None => initialize malloc loc (Some inst) (Some c) = Some (ARGON2_MEMORY_ALLOCATION_ERROR, Some (set_memory inst None), Some c)
  | Some M => mem_ok (lanes * (4 * q)) M -> exists M',
      initialize malloc loc (Some inst) (Some c) =
        Some (ARGON2_OK, Some (set_memory (set_hash_zero inst (h ++ replicate 8 0)) (Some M')), Some (clear_inputs c)) /\
      mem_ok (lanes * (4 * q)) M' /\
      forall l j, (l < lanes)%nat -> (j < 4 * q)%nat -> M' !!! Argon2Spec.cell q l j =
        if (j <? 2)%nat
        then block_of_bytes (Rfc7693.hash_long 1024 (h ++ le_bytes 4 (Z.of_nat j) ++ le_bytes 4 (Z.of_nat l)))
        else M !!! Argon2Spec.cell q l j
  end.
Proof.
  intros Hloc Hok Hbuf Hmb h; destruct (allocator_of malloc c (Z.of_nat (lanes * (4 * q)) * 1024)) as [M|] eqn:E.
  - intros HM; exists (first_blocks lanes q h M).
    destruct (initialize_spec malloc loc inst c lanes q M Hloc Hok Hbuf Hmb E HM) as [H1 H2].
    split; [exact H1|]; split; [exact H2|]; intros l j Hl Hj.
    exact (first_blocks_at lanes q h M l j (io_q _ _ _ Hok) (proj1 HM) Hl Hj).
  - by apply (initialize_no_memory malloc loc inst c lanes q).
Qed.

Definition demo_locals : locals := Locals zero_state (replicate 64 5) (replicate 1024 6) (replicate 72 7).

Lemma demo_locals_ok : locals_ok demo_locals.
Proof. split; [|split]; vm_compute; [lia|reflexivity..]. Qed.

Lemma demo_memory_ok n : mem_ok n (demo_memory n).
Proof.
  unfold mem_ok, demo_memory; rewrite length_map, length_seq; split; [done|].
  apply List.Forall_forall; intros b Hb; apply in_map_iff in Hb as (i & <- & _); exact (length_replicate 128 _).
Qed.

Lemma initialize_correct_witness :
  exists M', initialize (fun _ => Some (demo_memory 16)) demo_locals (Some (demo_instance 2 2 1 1)) (Some demo_context) =
    Some (ARGON2_OK, Some (set_memory (set_hash_zero (demo_instance 2 2 1 1) (H0 demo_context Argon2_d ++ replicate 8 0)) (Some M')),
      Some (clear_inputs demo_context)).
Proof.
  destruct (initialize_correct (fun _ => Some (demo_memory 16)) demo_locals (demo_instance 2 2 1 1) demo_context 2 2 demo_locals_ok
    (demo_instance_ok 2 2 1 1 ltac:(lia) ltac:(lia) ltac:(lia))) as (M' & H & _).
  - split_and!; vm_compute; (lia || exact I).
  - reflexivity.
  - exact (demo_memory_ok 16).
  - exists M'; exact H.
Defined.

(** [finalize] writes the hash of the exclusive or of the last
    blocks of the lanes to the output, and gives the memory back cleared. *)
Theorem finalize_correct loc c inst lanes q M : locals_ok loc -> inst_ok inst lanes q ->
  inst.(memory) = Some M -> mem_ok (lanes * (4 * q)) M -> inst.(memory_blocks) = Z.of_nat (lanes * (4 * q)) ->
  0 < c.(outlen) < 2 ^ 32 ->
  finalize loc (Some c) (Some inst) =
  Some (write_at 0 (Rfc7693.hash_long (Z.to_nat c.(outlen)) (bytes_of_block (last_blocks lanes q M))) <$> c.(out),
    Some (map (fun _ => replicate 128 0) M), c.(free_cbk)).
Proof. intros Hloc Hok Hm HM Hmb Ho; apply finalize_spec; [done..|lia|lia]. Qed.

Lemma finalize_correct_witness :
  finalize demo_locals (Some demo_context) (Some (set_memory (demo_instance 2 2 1 1) (Some (demo_memory 16)))) =
  Some (Some (write_at 0 (Rfc7693.hash_long 32 (bytes_of_block (last_blocks 2 2 (demo_memory 16)))) (replicate 32 0)),
    Some (map (fun _ => replicate 128 0) (demo_memory 16)), false).
Proof.
  exact (finalize_correct demo_locals demo_context (set_memory (demo_instance 2 2 1 1) (Some (demo_memory 16))) 2 2 (demo_memory 16) demo_locals_ok
    (set_memory_ok _ _ _ _ (demo_instance_ok 2 2 1 1 ltac:(lia) ltac:(lia) ltac:(lia))) eq_refl (demo_memory_ok 16) eq_refl ltac:(cbn; lia)).
Defined.

(** ** Filling *)

(** The block function of the code may be replaced by the one of the reference. *)
Section Compress.
Context (inst : argon2_instance_t) (lanes q : nat) (Hok : inst_ok inst lanes q) (v10 : bool) (h0 : list Z).
Abbreviation same := (fun (M M' : list block) => M = M' /\ mem_ok (lanes * (4 * q)) M).

Lemma visit_compress r l j M M' : can_fill lanes q r l j -> same M M' ->
  same (Argon2Spec.visit lanes q v10 h0 fill_block_mtp r l j M) (Argon2Spec.visit lanes q v10 h0 Argon2Spec.compress r l j M').
Proof.
  intros Hc [<- [Hl Hb]]; pose proof (io_size _ _ _ Hok) as Hsz; pose proof (io_q _ _ _ Hok) as Hq; pose proof Hc as (Hll & Hj & _).
  assert (Hat : forall c, (c < lanes * (4 * q))%nat -> block_ok (M !!! c)) by (intros c Hcc; apply (Forall_lookup_total_1 _ _ _ Hb); rewrite Hl; exact Hcc).
  assert (Hp : block_ok (M !!! Argon2Spec.prev_cell q l j)) by (apply Hat; unfold Argon2Spec.prev_cell, Argon2Spec.cell, Argon2Spec.lane_len; destruct (j =? 0)%nat; nia).
  assert (Ho : block_ok (M !!! Argon2Spec.cell q l j)) by (apply Hat; unfold Argon2Spec.cell, Argon2Spec.lane_len; nia).
  set (c := Argon2Spec.ref_cell lanes q r l j ((M !!! Argon2Spec.prev_cell q l j) !!! 0%nat)).
  assert (Hr : (c < lanes * (4 * q))%nat) by exact (ref_cell_lt inst lanes q Hok r l j _ Hc).
  destruct (fill_block_mtp_spec (M !!! Argon2Spec.prev_cell q l j) (M !!! c) (M !!! Argon2Spec.cell q l j) (negb v10 && negb (r =? 0)%nat) (Z.of_nat c) h0 Hp (Hat c Hr) Ho
    ltac:(unfold word; lia)) as [E1 E2].
  unfold Argon2Spec.visit; split; [exact (f_equal (fun b => <[Argon2Spec.cell q l j := b]> M) E1)|].
  split; [rewrite length_insert; exact Hl|]; apply Forall_insert; [exact Hb|]; exact (eq_ind_r block_ok E2 E1).
Qed.

Lemma fill_compress passes M : mem_ok (lanes * (4 * q)) M ->
  Argon2Spec.fill lanes q v10 h0 fill_block_mtp passes M = Argon2Spec.fill lanes q v10 h0 Argon2Spec.compress passes M.
Proof.
  intros HM; apply (fun H => proj1 (H : same _ _)); apply (for_range_sim (fun _ => same)); [lia|by split|]; intros r M1 M1' _ H1.
  apply (for_range_sim (fun _ => same)); [lia|exact H1|]; intros s M2 M2' Hs H2; apply (for_range_sim (fun _ => same)); [lia|exact H2|]; intros l M3 M3' Hl H3.
  pose proof (io_q _ _ _ Hok) as Hq; apply (for_range_sim (fun _ => same)); [unfold Argon2Spec.first_index; destruct (_ && _); lia|exact H3|].
  intros i M4 M4' Hi H4; apply visit_compress; [|exact H4]; split; [lia|]; split; [nia|]; intros ->.
  unfold Argon2Spec.first_index in Hi; cbn [Nat.eqb andb] in Hi; destruct (Nat.eqb_spec s 0); nia.
Qed.
End Compress.

(** C7 (refinement): the single-threaded filling of any number of passes of a
    memory of 1024-byte blocks stays inside the memory, returns [ARGON2_OK] and
    leaves in it what the reference definition computes: the filling of Argon2d,
    with the block function of the Merkle tree proof.  The type of the instance
    makes no difference: the blocks are chosen as in Argon2d also for [Argon2_i]
    and [Argon2_id], for which RFC 9106 chooses other blocks. *)
Theorem fill_memory_correct inst lanes q mem : inst_ok inst lanes q -> mem_ok (lanes * (4 * q)) mem ->
  fill_memory_blocks_st_mtp inst mem =
  Some (ARGON2_OK, Argon2Spec.fill lanes q (ARGON2_VERSION_10 =? inst.(i_version)) inst.(hash_zero) Argon2Spec.compress
    (Z.to_nat inst.(passes)) mem).
Proof. intros Hok HM; rewrite <- (fill_compress inst lanes q Hok) by exact HM; exact (fill_memory_spec inst lanes q Hok mem (proj1 HM)). Qed.

Lemma fill_memory_correct_witness :
  fill_memory_blocks_st_mtp (demo_instance 2 2 1 2) (demo_memory 16) =
  Some (ARGON2_OK, Argon2Spec.fill 2 2 false (replicate 72 7) Argon2Spec.compress 2 (demo_memory 16)).
Proof. apply (fill_memory_correct (demo_instance 2 2 1 2) 2 2 (demo_memory 16)); [apply demo_instance_ok; lia|exact (demo_memory_ok 16)]. Defined.

(** C14 (invariant): after the filling with one pass every block except the
    first two of each lane is the block function of the block before it and of
    the block its first word selects, both read from the final memory; the first
    two are kept; and so two memories that agree on the first two blocks of
    every lane are filled alike whatever else they held. *)
Theorem first_pass_fixed_point inst lanes q mem mem' : inst_ok inst lanes q -> inst.(passes) = 1 ->
  length mem = (lanes * (4 * q))%nat -> length mem' = (lanes * (4 * q))%nat ->
  first_blocks_kept lanes q mem mem' ->
  exists M, fill_memory_blocks_st_mtp inst mem = Some (ARGON2_OK, M) /\ fill_memory_blocks_st_mtp inst mem' = Some (ARGON2_OK, M) /\
    first_blocks_kept lanes q mem M /\
    forall l j, (l < lanes)%nat -> (2 <= j < 4 * q)%nat ->
      let r := Argon2Spec.ref_cell lanes q 0 l j ((M !!! Argon2Spec.cell q l (j - 1)) !!! 0%nat) in
      M !!! Argon2Spec.cell q l j =
      fill_block_mtp (M !!! Argon2Spec.cell q l (j - 1)) (M !!! r) (replicate 128 0) false (Z.of_nat r) inst.(hash_zero).
Proof.
  intros Hok Hp Hl Hl' Hk; rewrite !(fill_memory_spec inst lanes q Hok), Hp by done; change (Z.to_nat 1) with 1%nat.
  pose proof Hok as [_ _ _ Hq Hla Hsz]; set (v := ARGON2_VERSION_10 =? inst.(i_version)).
  destruct (pass0_filled lanes q v inst.(hash_zero) fill_block_mtp Hq Hla Hsz fill_block_mtp_overwrites mem Hl) as [Hf Hkm].
  destruct (pass0_filled lanes q v inst.(hash_zero) fill_block_mtp Hq Hla Hsz fill_block_mtp_overwrites mem' Hl') as [Hf' Hkm'].
  eexists; split; [reflexivity|]; split; [|split; [exact Hkm|]].
  - do 2 f_equal; symmetry; eapply computed_unique; [exact Hq|exact Hla|exact Hsz|exact fill_block_mtp_overwrites|exact Hf|exact Hf'|].
    intros l j Hll Hj; rewrite Hkm, Hkm', Hk; done.
  - intros l j Hll Hj r; destruct Hf as [_ Hf]; transitivity (Argon2Spec.new_block lanes q v inst.(hash_zero) fill_block_mtp 0 l j
      (Argon2Spec.fill lanes q v inst.(hash_zero) fill_block_mtp 1 mem)); [exact (Hf l j Hll ltac:(lia) ltac:(lia))|].
    unfold Argon2Spec.new_block; rewrite (prev_cell_pos lanes q Hq Hla Hsz) by lia; cbn [Nat.eqb negb]; rewrite andb_false_r; apply fill_block_mtp_overwrites.
Qed.

Lemma first_pass_fixed_point_witness :
  exists M, fill_memory_blocks_st_mtp (demo_instance 2 2 1 1) (demo_memory 16) = Some (ARGON2_OK, M) /\
    fill_memory_blocks_st_mtp (demo_instance 2 2 1 1) (<[5%nat := replicate 128 99]> (demo_memory 16)) = Some (ARGON2_OK, M).
Proof.
  destruct (first_pass_fixed_point (demo_instance 2 2 1 1) 2 2 (demo_memory 16) (<[5%nat := replicate 128 99]> (demo_memory 16)))
    as (M & H1 & H2 & _).
  - apply demo_instance_ok; lia.
  - vm_compute; reflexivity.
  - vm_compute; reflexivity.
  - vm_compute; reflexivity.
  - intros l j Hl Hj; destruct l as [|[|l]], j as [|[|j]]; (lia || (vm_compute; reflexivity)).
  - exists M; split; [exact H1|exact H2].
Defined.

(** ** Threads *)

Lemma mt_fill_spec inst lanes q thr np mem choices rc mem' ws :
  inst_ok inst lanes q -> inst.(i_threads) = Z.of_nat thr -> (1 <= thr <= lanes)%nat -> inst.(passes) = Z.of_nat np ->
  length mem = (lanes * (4 * q))%nat ->
  fill_memory_blocks_mt_mtp true true choices inst mem = Some (rc, mem', ws) ->
  (rc = ARGON2_OK /\ Forall (eq None) ws /\ fill_memory_blocks_st_mtp inst mem = Some (ARGON2_OK, mem')) \/
  (rc = ARGON2_THREAD_FAIL /\ failed_call choices).
Proof.
  intros Hok Ht Hlim Hnp Hl; unfold fill_memory_blocks_mt_mtp; cbn [negb].
  destruct (mt_run inst choices (mt_start inst mem)) as [st|] eqn:E; cbn [mbind option_bind]; [|discriminate].
  destruct (mt_run_inv inst lanes q thr np Hok Ht Hlim Hnp mem Hl choices st E) as [(w & Hw & _)|[(Hpc & Hn & HM)|[Hpc Hf]]].
  - destruct Hw as (r & s & c & j & prog & Hpc & _); destruct (st.(pc)); [discriminate..|destruct Hpc].
  - rewrite Hpc; intros [= <- <- <-]; left; split; [reflexivity|]; split; [exact Hn|].
    rewrite (fill_memory_spec inst lanes q Hok mem Hl), Hnp, Nat2Z.id, HM; reflexivity.
  - rewrite Hpc; intros [= <- <- <-]; right; split; [reflexivity|exact Hf].
Qed.

(** C5 (refinement): with at least one and at most as many threads as lanes, in
    every order in which the threads fill their blocks and whatever [calloc] and
    pthreads return, what the multi-threaded filling returns is one of three: after
    both allocations, [ARGON2_OK] with every thread joined and the memory of the
    single-threaded filling, or [ARGON2_THREAD_FAIL], and that only when a call
    of pthreads failed; or, when an allocation failed,
    [ARGON2_MEMORY_ALLOCATION_ERROR] with the memory unchanged and no thread. *)
Theorem mt_equals_st inst lanes q thr np mem calloc_thread calloc_data choices rc mem' ws :
  inst_ok inst lanes q -> inst.(i_threads) = Z.of_nat thr -> (1 <= thr <= lanes)%nat -> inst.(passes) = Z.of_nat np ->
  length mem = (lanes * (4 * q))%nat ->
  fill_memory_blocks_mt_mtp calloc_thread calloc_data choices inst mem = Some (rc, mem', ws) ->
  (calloc_thread && calloc_data = true /\ rc = ARGON2_OK /\ Forall (eq None) ws /\ fill_memory_blocks_st_mtp inst mem = Some (ARGON2_OK, mem')) \/
  (calloc_thread && calloc_data = true /\ rc = ARGON2_THREAD_FAIL /\ failed_call choices) \/
  (calloc_thread && calloc_data = false /\ rc = ARGON2_MEMORY_ALLOCATION_ERROR /\ mem' = mem /\ ws = []).
Proof.
  intros Hok Ht Hlim Hnp Hl; destruct calloc_thread; [destruct calloc_data|]; [|intros [= <- <- <-]; by right; right..].
  intros H; destruct (mt_fill_spec inst lanes q thr np mem choices rc mem' ws Hok Ht Hlim Hnp Hl H) as [H1|H1]; [by left|by right; left].
Qed.

(** The threads can always finish. *)
Lemma mt_can_finish inst lanes q thr np mem : inst_ok inst lanes q -> inst.(i_threads) = Z.of_nat thr -> (1 <= thr <= lanes)%nat ->
  inst.(passes) = Z.of_nat np -> length mem = (lanes * (4 * q))%nat ->
  exists choices mem' ws, fill_memory_blocks_mt_mtp true true choices inst mem = Some (ARGON2_OK, mem', ws).
Proof.
  intros Hok Ht Hlim Hnp Hl.
  assert (H : exists rest st', mt_run inst rest (mt_start inst mem) = Some st' /\ st'.(pc) = Returned ARGON2_OK).
  { destruct (start_inv inst lanes q thr np Hok Hlim Hnp mem Hl) as [(Hpc & _)|(w & Hw & _)];
      [exists [], (mt_start inst mem); split; [reflexivity|exact Hpc]|].
    destruct (run_completes inst lanes q thr np Hok Ht Hlim Hnp mem Hl w _ Hw) as (rest & st' & Hr & (Hpc & _) & _); exists rest, st'; split; [exact Hr|exact Hpc]. }
  destruct H as (rest & st' & Hr & Hpc); exists rest, st'.(mt_mem), st'.(workers).
  unfold fill_memory_blocks_mt_mtp; cbn [negb]; rewrite Hr; cbn [mbind option_bind]; rewrite Hpc; reflexivity.
Qed.

Lemma mt_equals_st_witness :
  exists choices mem' ws, fill_memory_blocks_mt_mtp true true choices (demo_instance 2 2 2 1) (demo_memory 16) = Some (ARGON2_OK, mem', ws) /\
    Forall (eq None) ws /\ fill_memory_blocks_st_mtp (demo_instance 2 2 2 1) (demo_memory 16) = Some (ARGON2_OK, mem').
Proof.
  destruct (mt_can_finish (demo_instance 2 2 2 1) 2 2 2 1 (demo_memory 16)) as (choices & mem' & ws & H);
    [apply demo_instance_ok; lia|reflexivity|lia|reflexivity|vm_compute; reflexivity|]; exists choices, mem', ws; split; [exact H|].
  destruct (mt_equals_st (demo_instance 2 2 2 1) 2 2 2 1 (demo_memory 16) true true choices ARGON2_OK mem' ws) as [(_ & _ & Hn & Hst)|[(_ & Hrc & _)|(Hc & _)]].
  - apply demo_instance_ok; lia.
  - reflexivity.
  - lia.
  - reflexivity.
  - vm_compute; reflexivity.
  - exact H.
  - split; [exact Hn|exact Hst].
  - discriminate Hrc.
  - discriminate Hc.
Defined.

(** C15 (termination): every execution of the multi-threaded filling ends: one
    that has not returned has taken fewer steps than the bound, and from where it
    is the threads can go on without an error to a return of [ARGON2_OK]. *)
Theorem mt_terminates inst lanes q thr np mem choices st :
  inst_ok inst lanes q -> inst.(i_threads) = Z.of_nat thr -> (1 <= thr <= lanes)%nat -> inst.(passes) = Z.of_nat np ->
  length mem = (lanes * (4 * q))%nat -> mt_run inst choices (mt_start inst mem) = Some st ->
  (exists rc, st.(pc) = Returned rc) \/
  ((length choices < np * 4 * (2 * lanes + q * lanes + 1))%nat /\
   exists rest st', mt_run inst rest st = Some st' /\ st'.(pc) = Returned ARGON2_OK /\ ~ failed_call rest).
Proof.
  intros Hok Ht Hlim Hnp Hl E.
  destruct (mt_run_inv inst lanes q thr np Hok Ht Hlim Hnp mem Hl choices st E) as [(w & Hw & Hlt)|[(Hpc & _)|[Hpc _]]];
    [right|left; by eexists..].
  split; [unfold slice_cost in Hlt; lia|].
  destruct (run_completes inst lanes q thr np Hok Ht Hlim Hnp mem Hl w st Hw) as (rest & st' & Hr & (Hpc & _) & Hnf).
  exists rest, st'; split; [exact Hr|]; split; [exact Hpc|exact Hnf].
Qed.

Lemma mt_terminates_witness : exists st, mt_run (demo_instance 2 2 2 1) [Main 0; Main 0] (mt_start (demo_instance 2 2 2 1) (demo_memory 16)) = Some st /\
  exists rest st', mt_run (demo_instance 2 2 2 1) rest st = Some st' /\ st'.(pc) = Returned ARGON2_OK /\ ~ failed_call rest.
Proof.
  eexists; split; [reflexivity|].
  destruct (mt_terminates (demo_instance 2 2 2 1) 2 2 2 1 (demo_memory 16) [Main 0; Main 0] _
    (demo_instance_ok 2 2 2 1 ltac:(lia) ltac:(lia) ltac:(lia)) eq_refl ltac:(lia) eq_refl ltac:(vm_compute; reflexivity) eq_refl) as [[rc Hpc]|[_ H]].
  - discriminate Hpc.
  - exact H.
Defined.

(** [argon2_thread_create] failing for the second lane makes the
    filling return the error at once, while the thread of the first lane still
    runs and still writes to the memory that the caller goes on to free: the
    threads that were started are not joined. *)
Theorem mt_create_failure inst lanes q thr np mem e :
  inst_ok inst lanes q -> inst.(i_threads) = Z.of_nat thr -> (2 <= thr <= lanes)%nat -> inst.(passes) = Z.of_nat np -> (1 <= np)%nat ->
  (3 <= q)%nat -> length mem = (lanes * (4 * q))%nat -> e <> 0 ->
  exists st w, mt_run inst [Main 0; Main e] (mt_start inst mem) = Some st /\ st.(pc) = Returned ARGON2_THREAD_FAIL /\
    st.(mt_mem) = mem /\ st.(workers) !! 0%nat = Some (Some w) /\ finished inst w = false /\
    exists st', mt_step inst (Work 0) st = Some st' /\ st'.(mt_mem) !! 2%nat = Some (Argon2Spec.new_block lanes q
      (ARGON2_VERSION_10 =? inst.(i_version)) inst.(hash_zero) fill_block_mtp 0 0 2 mem).
Proof.
  intros Hok Ht Hlim Hnp Hnp1 Hq Hl He.
  assert (Hs : mt_start inst mem = MtState (Calling 0 false) 0 0 (replicate lanes None) mem).
  { unfold mt_start, calling; rewrite Hnp, (io_lanes _ _ _ Hok), Nat2Z.id.
    rewrite (proj2 (Z.ltb_lt 0 (Z.of_nat np))), (proj2 (Z.ltb_lt 0 (Z.of_nat lanes))) by lia; reflexivity. }
  set (w := start_worker inst (segment_pos 0 0 0)).
  set (ws := <[0%nat := Some w]> (replicate lanes None)).
  assert (H1 : mt_step inst (Main 0) (mt_start inst mem) = Some (MtState (Calling 1 false) 0 0 ws mem)).
  { rewrite Hs; cbn [mt_step]; unfold main_step; cbn [pc negb andb]; rewrite Ht, (proj2 (Z.leb_gt (Z.of_nat thr) 0)) by lia.
    unfold create_worker; cbn [workers]; rewrite lookup_replicate_2 by lia; cbn [mbind option_bind].
    unfold calling; rewrite (io_lanes _ _ _ Hok), (proj2 (Z.ltb_lt _ (Z.of_nat lanes))) by (cbn; lia); reflexivity. }
  assert (H2 : mt_step inst (Main e) (MtState (Calling 1 false) 0 0 ws mem) = Some (MtState (Returned ARGON2_THREAD_FAIL) 0 0 ws mem)).
  { cbn [mt_step]; unfold main_step; cbn [pc negb andb]; rewrite Ht, (proj2 (Z.leb_gt (Z.of_nat thr) 1)) by lia.
    unfold create_worker, ws; cbn [workers]; rewrite list_lookup_insert_ne, lookup_replicate_2 by (cbn; lia); cbn [mbind option_bind].
    unfold argon2_thread_create; cbn [negb orb]; rewrite (proj2 (Z.eqb_neq e 0) He); reflexivity. }
  assert (Hw : ws !! 0%nat = Some (Some w)) by (apply list_lookup_insert_eq; rewrite length_replicate; lia).
  pose proof (start_worker_at inst lanes q thr np Hok ltac:(lia) mem Hl 0 0 0 ltac:(lia) ltac:(lia)) as Hat; fold w in Hat.
  pose proof (finished_spec inst lanes q thr np Hok ltac:(lia) mem Hl 0 0 0 _ w Hat) as Hfin.
  change (Argon2Spec.first_index 0 0) with 2%nat in *; rewrite (proj2 (Nat.eqb_neq 2 q)) in Hfin by lia.
  destruct Hat as (Hpos & Hwi & _ & Hoff).
  destruct (segment_step_spec inst lanes q Hok 0 0 2 w.(w_curr) w.(w_prev) mem) as (cu & pr & Hstep & _);
    [apply (segment_can_fill inst lanes q Hok 0 0 0 2); cbn; lia|exact Hl|apply Hoff; lia|].
  rewrite Nat.div_small, Nat.mod_small in Hstep by lia.
  exists (MtState (Returned ARGON2_THREAD_FAIL) 0 0 ws mem), w; split; [|do 3 (split; [reflexivity||exact Hw|]); split; [exact Hfin|]].
  - unfold mt_run; rewrite !fold_leftM_cons, H1; cbn [mbind option_bind]; rewrite fold_leftM_cons, H2; reflexivity.
  - eexists; split; [cbn [mt_step workers]; rewrite Hw; cbn [mbind option_bind]; unfold worker_step; rewrite Hfin, Hpos, Hwi; cbn [mt_mem];
      rewrite Hstep; cbn [mbind option_bind]; reflexivity|].
    cbn [mt_mem]; unfold Argon2Spec.visit; apply list_lookup_insert_eq; unfold block in *; rewrite Hl.
    change (Argon2Spec.cell q 0 2) with 2%nat; nia.
Qed.

Lemma mt_create_failure_witness :
  exists st w, mt_run (demo_instance 2 3 2 1) [Main 0; Main 11] (mt_start (demo_instance 2 3 2 1) (demo_memory 24)) = Some st /\
    st.(pc) = Returned ARGON2_THREAD_FAIL /\ st.(workers) !! 0%nat = Some (Some w) /\ finished (demo_instance 2 3 2 1) w = false.
Proof.
  destruct (mt_create_failure (demo_instance 2 3 2 1) 2 3 2 1 (demo_memory 24) 11
    (demo_instance_ok 2 3 2 1 ltac:(lia) ltac:(lia) ltac:(lia)) eq_refl ltac:(lia) eq_refl ltac:(lia) ltac:(lia) ltac:(vm_compute; reflexivity) ltac:(lia))
    as (st & w & H1 & H2 & _ & H3 & H4 & _); exists st, w; split; [exact H1|]; split; [exact H2|]; split; [exact H3|exact H4].
Defined.
