(* ===== verification/Sponge.v ===== *)
(** The sponge of Lyra2 (Lyra2Z/Sponge.c and Sponge.h): Blake2b's permutation
    without message words, and the row operations on the memory matrix.

    The sponge state is the list of its sixteen 64-bit words.  The memory
    matrix is one flat list of words, as [wholeMatrix] is; a row is the index of
    its first word, and a column a block of twelve words.  Accesses are checked:
    [None] is an access outside the matrix. *)

From S2P Require Import Prelude.

(** ** Constants of Lyra2.h and Sponge.h *)

Definition BLOCK_LEN_BLAKE2_SAFE_INT64 : nat := 8.
Definition BLOCK_LEN_BLAKE2_SAFE_BYTES : nat := 64.
Definition BLOCK_LEN_INT64 : nat := 12.
Definition BLOCK_LEN_BYTES : nat := 96.

Definition blake2b_IV : list Z :=
  [0x6a09e667f3bcc908; 0xbb67ae8584caa73b; 0x3c6ef372fe94f82b; 0xa54ff53a5f1d36f1;
   0x510e527fade682d1; 0x9b05688c2b3e6c1f; 0x1f83d9abfb41bd6b; 0x5be0cd19137e2179].

(** ** The permutation *)

Definition rotr64 (w c : Z) : Z := u64 (Z.lor (Z.shiftr w c) (Z.shiftl w (64 - c))).

(** The macro [G] on four words. *)
Definition G (s : Z * Z * Z * Z) : Z * Z * Z * Z :=
  let '(a, b, c, d) := s in
  let a := u64 (a + b) in
  let d := rotr64 (Z.lxor d a) 32 in
  let c := u64 (c + d) in
  let b := rotr64 (Z.lxor b c) 24 in
  let a := u64 (a + b) in
  let d := rotr64 (Z.lxor d a) 16 in
  let c := u64 (c + d) in
  let b := rotr64 (Z.lxor b c) 63 in
  (a, b, c, d).

(** [G(r, i, v[a], v[b], v[c], v[d])] *)
Definition G_at (a b c d : nat) (v : list Z) : list Z :=
  let '(va, vb, vc, vd) := G (v !!! a, v !!! b, v !!! c, v !!! d) in
  <[d := vd]> (<[c := vc]> (<[b := vb]> (<[a := va]> v))).

Definition ROUND_LYRA (v : list Z) : list Z :=
  let v := G_at 0 4 8 12 v in
  let v := G_at 1 5 9 13 v in
  let v := G_at 2 6 10 14 v in
  let v := G_at 3 7 11 15 v in
  let v := G_at 0 5 10 15 v in
  let v := G_at 1 6 11 12 v in
  let v := G_at 2 7 8 13 v in
  G_at 3 4 9 14 v.

Definition blake2bLyra (v : list Z) : list Z :=
  let v := ROUND_LYRA v in let v := ROUND_LYRA v in let v := ROUND_LYRA v in
  let v := ROUND_LYRA v in let v := ROUND_LYRA v in let v := ROUND_LYRA v in
  let v := ROUND_LYRA v in let v := ROUND_LYRA v in let v := ROUND_LYRA v in
  let v := ROUND_LYRA v in let v := ROUND_LYRA v in ROUND_LYRA v.

Definition reducedBlake2bLyra (v : list Z) : list Z := ROUND_LYRA v.

(** ** State *)

(** [memset(state, 0, 64)] and the eight stores of the IV. *)
Definition initState : list Z := replicate 8 0 ++ blake2b_IV.

(** The first words of the state xored with the words of [inp]. *)
Definition xor_prefix (inp state : list Z) : list Z :=
  zip_with Z.lxor (take (length inp) state) inp ++ drop (length inp) state.

(** [len] bytes of the state, as [memcpy] from it reads them. *)
Definition state_bytes (state : list Z) : list Z := concat (map (le_bytes 8) state).

Definition squeeze (state : list Z) (len : nat) : list Z * list Z :=
  let fullBlocks := (len / BLOCK_LEN_BYTES)%nat in
  let '(state, out) := for_range 0 fullBlocks (fun _ '(state, out) =>
    (blake2bLyra state, out ++ take BLOCK_LEN_BYTES (state_bytes state))) (state, []) in
  (state, out ++ take (len mod BLOCK_LEN_BYTES) (state_bytes state)).

(** ** Memory *)

(** [n] words read at [off], and words written there. *)
Definition mem_read (off n : nat) (mem : list Z) : option (list Z) :=
  if (off + n <=? length mem)%nat then Some (read_at off n mem) else None.
Definition mem_write (off : nat) (src mem : list Z) : option (list Z) :=
  if (off + length src <=? length mem)%nat then Some (write_at off src mem) else None.

Definition absorbBlock (state : list Z) (mem : list Z) (inp : nat) : option (list Z) :=
  w ← mem_read inp BLOCK_LEN_INT64 mem; Some (blake2bLyra (xor_prefix w state)).

Definition absorbBlockBlake2Safe (state : list Z) (mem : list Z) (inp : nat) : option (list Z) :=
  w ← mem_read inp BLOCK_LEN_BLAKE2_SAFE_INT64 mem; Some (blake2bLyra (xor_prefix w state)).

(** ** Rows *)

(** The first twelve words of the state, and the same rotated by one word. *)
Definition rand (state : list Z) : list Z := take BLOCK_LEN_INT64 state.
Definition rotW (r : list Z) : list Z := r !!! 11%nat :: take 11 r.

Definition add_words (x y : list Z) : list Z := zip_with (fun a b => u64 (a + b)) x y.
Definition xor_words (x y : list Z) : list Z := zip_with Z.lxor x y.

Definition reducedSqueezeRow0 (state mem : list Z) (rowOut nCols : nat) : option (list Z * list Z) :=
  for_rangeM 0 nCols (fun i '(state, mem) =>
    mem ← mem_write (rowOut + (nCols - 1 - i) * BLOCK_LEN_INT64) (rand state) mem;
    Some (reducedBlake2bLyra state, mem)) (state, mem).

Definition reducedDuplexRow1 (state mem : list Z) (rowIn rowOut nCols : nat) : option (list Z * list Z) :=
  for_rangeM 0 nCols (fun i '(state, mem) =>
    let pIn := (rowIn + i * BLOCK_LEN_INT64)%nat in
    let pOut := (rowOut + (nCols - 1 - i) * BLOCK_LEN_INT64)%nat in
    wIn ← mem_read pIn BLOCK_LEN_INT64 mem;
    let state := reducedBlake2bLyra (xor_prefix wIn state) in
    mem ← mem_write pOut (xor_words wIn (rand state)) mem;
    Some (state, mem)) (state, mem).

Definition reducedDuplexRowSetup (state mem : list Z) (rowIn rowInOut rowOut nCols : nat)
  : option (list Z * list Z) :=
  for_rangeM 0 nCols (fun i '(state, mem) =>
    let pIn := (rowIn + i * BLOCK_LEN_INT64)%nat in
    let pInOut := (rowInOut + i * BLOCK_LEN_INT64)%nat in
    let pOut := (rowOut + (nCols - 1 - i) * BLOCK_LEN_INT64)%nat in
    wIn ← mem_read pIn BLOCK_LEN_INT64 mem;
    wInOut ← mem_read pInOut BLOCK_LEN_INT64 mem;
    let state := reducedBlake2bLyra (xor_prefix (add_words wIn wInOut) state) in
    wIn ← mem_read pIn BLOCK_LEN_INT64 mem;
    mem ← mem_write pOut (xor_words wIn (rand state)) mem;
    wInOut ← mem_read pInOut BLOCK_LEN_INT64 mem;
    mem ← mem_write pInOut (xor_words wInOut (rotW (rand state))) mem;
    Some (state, mem)) (state, mem).

Definition reducedDuplexRow (state mem : list Z) (rowIn rowInOut rowOut nCols : nat)
  : option (list Z * list Z) :=
  for_rangeM 0 nCols (fun i '(state, mem) =>
    let pIn := (rowIn + i * BLOCK_LEN_INT64)%nat in
    let pInOut := (rowInOut + i * BLOCK_LEN_INT64)%nat in
    let pOut := (rowOut + i * BLOCK_LEN_INT64)%nat in
    wIn ← mem_read pIn BLOCK_LEN_INT64 mem;
    wInOut ← mem_read pInOut BLOCK_LEN_INT64 mem;
    let state := reducedBlake2bLyra (xor_prefix (add_words wIn wInOut) state) in
    wOut ← mem_read pOut BLOCK_LEN_INT64 mem;
    mem ← mem_write pOut (xor_words wOut (rand state)) mem;
    wInOut ← mem_read pInOut BLOCK_LEN_INT64 mem;
    mem ← mem_write pInOut (xor_words wInOut (rotW (rand state))) mem;
    Some (state, mem)) (state, mem).
