(* ===== verification/Lyra2.v ===== *)
(** Lyra2 (Lyra2Z/Lyra2.c) and the Lyra2Z proof-of-work hash (Lyra2Z.c).

    The result of a function is [None] for an access outside the matrix or a
    loop that does not end, [Some (ret, K)] for a return with value [ret].  The
    length of the key is cut to the 32 bits of the parameter of [squeeze].  The
    outcome of the three [malloc] calls is an argument.  Words are stored in
    the byte order of a little-endian machine. *)

From S2P Require Import Prelude SphBlake Sponge.

Definition i64 (x : Z) : Z := (x + 2 ^ 63) mod 2 ^ 64 - 2 ^ 63.

(** Whether each of the three allocations succeeds. *)
Record mallocs := Mallocs { malloc_matrix : bool; malloc_rows : bool; malloc_state : bool }.

(** ** Memory matrix *)

(** The size given to the first [malloc], in bytes. *)
Definition matrix_bytes (nRows nCols : Z) : Z :=
  let ROW_LEN_INT64 := i64 (Z.of_nat BLOCK_LEN_INT64 * nCols) in
  let ROW_LEN_BYTES := i64 (ROW_LEN_INT64 * 8) in
  i64 (i64 nRows * ROW_LEN_BYTES).

(** The array of row pointers: indices of the first words. *)
Definition row_pointers (nRows nCols : nat) : list nat :=
  map (fun i => i * (BLOCK_LEN_INT64 * nCols))%nat (seq 0 nRows).

Definition memMatrix_at (memMatrix : list nat) (r : Z) : option nat :=
  if 0 <=? r then memMatrix !! Z.to_nat r else None.

(** ** Input *)

Definition nBlocksInput (pwdlen saltlen : nat) : nat :=
  ((saltlen + pwdlen + 6 * 8) / BLOCK_LEN_BLAKE2_SAFE_BYTES + 1)%nat.

(** The input written over the bytes [m] of the matrix. *)
Definition write_input (kLen : Z) (pwd salt : list Z) (timeCost nRows nCols : Z) (m : list Z)
  : option (list Z) :=
  let pwdlen := length pwd in let saltlen := length salt in
  let n := (nBlocksInput pwdlen saltlen * BLOCK_LEN_BLAKE2_SAFE_BYTES)%nat in
  m ← mem_write 0 (replicate n 0) m;
  m ← mem_write 0 pwd m;
  let p := pwdlen in
  m ← mem_write p salt m;
  let p := (p + saltlen)%nat in
  m ← mem_write p (le_bytes 8 kLen) m; let p := (p + 8)%nat in
  m ← mem_write p (le_bytes 8 (Z.of_nat pwdlen)) m; let p := (p + 8)%nat in
  m ← mem_write p (le_bytes 8 (Z.of_nat saltlen)) m; let p := (p + 8)%nat in
  m ← mem_write p (le_bytes 8 timeCost) m; let p := (p + 8)%nat in
  m ← mem_write p (le_bytes 8 nRows) m; let p := (p + 8)%nat in
  m ← mem_write p (le_bytes 8 nCols) m; let p := (p + 8)%nat in
  m ← mem_write p [0x80] m;
  let p := (n - 1)%nat in
  b ← mem_read p 1 m;
  mem_write p [Z.lxor (b !!! 0%nat) 1] m.

(** The words stored in [n] times eight bytes. *)
Definition words_of_bytes (n : nat) (m : list Z) : list Z :=
  map (fun i => le_word (read_at (8 * i) 8 m)) (seq 0 n).

(** The absorbing loop; [stride] is what [ptrWord] advances by. *)
Definition absorb_input (stride nBlocks : nat) (state mem : list Z) : option (list Z) :=
  for_rangeM 0 nBlocks (fun i state => absorbBlockBlake2Safe state mem (i * stride)) state.

(** ** Setup *)

Record setup_vars := SetupVars {
  row : Z; prev : Z; rowa : Z; step : Z; window : Z; gap : Z
}.

Definition setup_start : setup_vars := SetupVars 2 1 0 1 2 1.

(** The index updates of one iteration. *)
Definition setup_next (v : setup_vars) : setup_vars :=
  let rowa := Z.land (v.(rowa) + v.(step)) (v.(window) - 1) in
  let prev := v.(row) in
  let row := v.(row) + 1 in
  if rowa =? 0
  then SetupVars row prev rowa (v.(window) + v.(gap)) (v.(window) * 2) (- v.(gap))
  else SetupVars row prev rowa v.(step) v.(window) v.(gap).

(** [do { ... } while (row < nRows)] *)
Fixpoint setup_loop (fuel : nat) (memMatrix : list nat) (nRows nCols : nat)
  (v : setup_vars) (state mem : list Z) : option (setup_vars * list Z * list Z) :=
  match fuel with
  | O => None
  | S fuel =>
    rPrev ← memMatrix_at memMatrix v.(prev);
    rRowa ← memMatrix_at memMatrix v.(rowa);
    rRow ← memMatrix_at memMatrix v.(row);
    '(state, mem) ← reducedDuplexRowSetup state mem rPrev rRowa rRow nCols;
    let v := setup_next v in
    if u64 v.(row) <? Z.of_nat nRows
    then setup_loop fuel memMatrix nRows nCols v state mem
    else Some (v, state, mem)
  end.

(** ** Wandering *)

(** [step = (tau % 2 == 0) ? -1 : nRows / 2 - 1] *)
Definition wander_step (tau : Z) (nRows : Z) : Z :=
  if tau mod 2 =? 0 then -1 else i64 (u64 (nRows / 2 - 1)).

(** [row = (row + step) % nRows], the sum converted to unsigned. *)
Definition wander_next (nRows step row : Z) : Z := u64 (row + step) mod nRows.

(** [do { ... } while (row != 0)] *)
Fixpoint wander_loop (fuel : nat) (memMatrix : list nat) (nRows nCols : nat) (step : Z)
  (row prev rowa : Z) (state mem : list Z) : option (Z * Z * Z * list Z * list Z) :=
  match fuel with
  | O => None
  | S fuel =>
    let rowa := (state !!! 0%nat) mod Z.of_nat nRows in
    rPrev ← memMatrix_at memMatrix prev;
    rRowa ← memMatrix_at memMatrix rowa;
    rRow ← memMatrix_at memMatrix row;
    '(state, mem) ← reducedDuplexRow state mem rPrev rRowa rRow nCols;
    let prev := row in
    let row := wander_next (Z.of_nat nRows) step row in
    if row =? 0 then Some (row, prev, rowa, state, mem)
    else wander_loop fuel memMatrix nRows nCols step row prev rowa state mem
  end.

(** [for (tau = 1; tau <= timeCost; tau++)] *)
Definition wander (memMatrix : list nat) (timeCost nRows nCols : nat) (prev rowa : Z) (state mem : list Z)
  : option (Z * Z * Z * list Z * list Z) :=
  for_rangeM 1 (timeCost + 1) (fun tau '(row, prev, rowa, state, mem) =>
    wander_loop nRows memMatrix nRows nCols (wander_step (Z.of_nat tau) (Z.of_nat nRows))
      row prev rowa state mem) (0, prev, rowa, state, mem).

(** ** Lyra2

    [LYRA2] and [LYRA2_old] are the same text up to the stride of the absorbing
    loop. *)

Definition lyra2_with (stride : nat) (ma : mallocs) (kLen : nat) (pwd salt : list Z)
  (timeCost nRows nCols : nat) : option (Z * list Z) :=
  let size := u64 (matrix_bytes (Z.of_nat nRows) (Z.of_nat nCols)) in
  if negb ma.(malloc_matrix) then Some (-1, [])
  else
    let m := replicate (Z.to_nat size) 0 in
    if negb ma.(malloc_rows) then Some (-1, [])
    else
      let memMatrix := row_pointers nRows nCols in
      m ← write_input (Z.of_nat kLen) pwd salt (Z.of_nat timeCost) (Z.of_nat nRows) (Z.of_nat nCols) m;
      if negb ma.(malloc_state) then Some (-1, [])
      else
        let mem := words_of_bytes (Z.to_nat size / 8) m in
        state ← absorb_input stride (nBlocksInput (length pwd) (length salt)) initState mem;
        row0 ← memMatrix_at memMatrix 0;
        '(state, mem) ← reducedSqueezeRow0 state mem row0 nCols;
        row1 ← memMatrix_at memMatrix 1;
        '(state, mem) ← reducedDuplexRow1 state mem row0 row1 nCols;
        '(v, state, mem) ← setup_loop nRows memMatrix nRows nCols setup_start state mem;
        '(_, _, rowa, state, mem) ← wander memMatrix timeCost nRows nCols v.(prev) v.(rowa) state mem;
        rRowa ← memMatrix_at memMatrix rowa;
        state ← absorbBlock state mem rRowa;
        let '(_, K) := squeeze state (Z.to_nat (u32 (Z.of_nat kLen))) in
        Some (0, K).

Definition LYRA2 : mallocs -> nat -> list Z -> list Z -> nat -> nat -> nat -> option (Z * list Z) :=
  lyra2_with BLOCK_LEN_BLAKE2_SAFE_INT64.

(** [LYRA2_old] advances by the block length in bytes. *)
Definition LYRA2_old : mallocs -> nat -> list Z -> list Z -> nat -> nat -> nat -> option (Z * list Z) :=
  lyra2_with BLOCK_LEN_BLAKE2_SAFE_BYTES.

(** ** Lyra2Z

    [ctx] and [u_buf] are the indeterminate contents of the local context and
    of the buffer of the close function, [hashB] of the result array; the
    return value of [LYRA2] is not looked at. *)
Definition lyra2z_hash (ma : mallocs) (ctx : blake_context) (u_buf hashB : list Z) (input : list Z)
  : option (list Z) :=
  let ctx := sph_blake256_init ctx in
  let ctx := sph_blake256 ctx (take 80 input) in
  let '(ctx, hashA) := sph_blake256_close u_buf ctx in
  '(ret, K) ← LYRA2 ma 32 hashA hashA 8 8 8;
  let hashB := if ret =? 0 then K else hashB in
  Some (take 32 hashB).
