(* ===== verification/Lyra2Spec.v ===== *)
(** Reference definition of Lyra2, after its specification: the padded input, a
    matrix of blocks addressed by row and column, row visits in closed form,
    and the permutation as BLAKE2b rounds of RFC 7693 with a zero message. *)

From S2P Require Import Prelude BlakeSpec Rfc7693.

Module Lyra2Spec.

(** ** Sponge *)

Definition f_reduced (s : list Z) : list Z := Rfc7693.round (replicate 16 0) 0 s.
Definition f (s : list Z) : list Z := for_range 0 12 (fun _ => f_reduced) s.

Definition initial_state : list Z := replicate 8 0 ++ Rfc7693.IV.

Definition absorb (w s : list Z) : list Z := zip_with Z.lxor (take (length w) s) w ++ drop (length w) s.

(** A block is the twelve words of the bitrate. *)
Definition rate (s : list Z) : list Z := take 12 s.
Definition bxor (x y : list Z) : list Z := zip_with Z.lxor x y.
Definition badd (x y : list Z) : list Z := zip_with (fun a b => (a + b) mod 2 ^ 64) x y.
(** Rotation of a block by one word. *)
Definition rot_block (b : list Z) : list Z := drop 11 b ++ take 11 b.

(** ** Input *)

Definition basil (kLen pwdlen saltlen T R C : nat) : list Z :=
  concat (map (fun n => le_bytes 8 (Z.of_nat n)) [kLen; pwdlen; saltlen; T; R; C]).

(** The 10*1 padding to a multiple of 64 bytes. *)
Definition pad101 (d : list Z) : list Z :=
  let z := (64 - length d mod 64)%nat in
  if (z =? 1)%nat then d ++ [0x81] else d ++ [0x80] ++ replicate (z - 2) 0 ++ [0x01].

Definition input (kLen : nat) (pwd salt : list Z) (T R C : nat) : list Z :=
  pad101 (pwd ++ salt ++ basil kLen (length pwd) (length salt) T R C).

Definition block_words (i : nat) (d : list Z) : list Z :=
  map (fun j => le_word (read_at (64 * i + 8 * j) 8 d)) (seq 0 8).

Definition absorb_all (d s : list Z) : list Z :=
  for_range 0 (length d / 64) (fun i s => f (absorb (block_words i d) s)) s.

(** ** The matrix: blocks in row-major order *)

Section Matrix.
Variable C : nat.

Definition cell (r c : nat) : nat := (r * C + c)%nat.

Definition squeeze_row (r : nat) (st : list Z * list (list Z)) : list Z * list (list Z) :=
  for_range 0 C (fun c '(s, M) => (f_reduced s, <[cell r (C - 1 - c) := rate s]> M)) st.

(** [M[r][C-1-c] = M[p][c] xor rand] with [rand] the duplex of [M[p][c]]. *)
Definition duplex_row1 (p r : nat) (st : list Z * list (list Z)) : list Z * list (list Z) :=
  for_range 0 C (fun c '(s, M) =>
    let s := f_reduced (absorb (M !!! cell p c) s) in
    (s, <[cell r (C - 1 - c) := bxor (M !!! cell p c) (rate s)]> M)) st.

(** [M[r][C-1-c] = M[p][c] xor rand], [M[a][c] ^= rotW(rand)]. *)
Definition duplex_setup (p a r : nat) (st : list Z * list (list Z)) : list Z * list (list Z) :=
  for_range 0 C (fun c '(s, M) =>
    let s := f_reduced (absorb (badd (M !!! cell p c) (M !!! cell a c)) s) in
    let M := <[cell r (C - 1 - c) := bxor (M !!! cell p c) (rate s)]> M in
    (s, <[cell a c := bxor (M !!! cell a c) (rot_block (rate s))]> M)) st.

(** [M[r][c] ^= rand], [M[a][c] ^= rotW(rand)]. *)
Definition duplex_wander (p a r : nat) (st : list Z * list (list Z)) : list Z * list (list Z) :=
  for_range 0 C (fun c '(s, M) =>
    let s := f_reduced (absorb (badd (M !!! cell p c) (M !!! cell a c)) s) in
    let M := <[cell r c := bxor (M !!! cell r c) (rate s)]> M in
    (s, <[cell a c := bxor (M !!! cell a c) (rot_block (rate s))]> M)) st.

(** ** Setup: row [r] revisits row [row_star r] *)

Definition setup_step (e : nat) : nat :=
  if (e <=? 1)%nat then 1 else if Nat.even e then (2 ^ (e - 1) + 1)%nat else (2 ^ (e - 1) - 1)%nat.

Definition row_star (r : nat) : nat :=
  let e := Nat.log2 r in ((r - 2 ^ e) * setup_step e mod 2 ^ e)%nat.

Definition setup (R : nat) (st : list Z * list (list Z)) : list Z * list (list Z) :=
  for_range 2 R (fun r => duplex_setup (r - 1) (row_star r) r) st.

(** ** Wandering *)

(** The rows visited in pass [tau], from row 0 on until row 0 comes again: in an
    even pass one row down at a time, modulo the number of rows; in an odd pass
    the multiples of half the rows less one. *)
Definition wander_rows (R tau : nat) : list nat :=
  if Nat.even tau then 0%nat :: reverse (seq 1 (R - 1))
  else let s := (R / 2 - 1)%nat in map (fun k => k * s mod R)%nat (seq 0 (R / Nat.gcd s R)).

(** State, matrix, the last row computed and the last pseudorandom row. *)
Definition wander_visit (R : nat) (st : list Z * list (list Z) * nat * nat) (r : nat)
  : list Z * list (list Z) * nat * nat :=
  let '(s, M, p, _) := st in
  let a := Z.to_nat ((s !!! 0%nat) mod Z.of_nat R) in
  (duplex_wander p a r (s, M), r, a).

(** The passes, for a schedule of the rows of each of them. *)
Definition wander (rows : nat -> nat -> list nat) (R T : nat) (st : list Z * list (list Z) * nat * nat) : list Z * list (list Z) * nat * nat :=
  for_range 1 (T + 1) (fun tau st => fold_left (wander_visit R) (rows R tau) st) st.

End Matrix.

(** ** Output *)

Fixpoint squeeze (n : nat) (s : list Z) (len : nat) : list Z :=
  match n with
  | O => []
  | S n => take (Nat.min len 96) (concat (map (le_bytes 8) s)) ++ squeeze n (f s) (len - 96)
  end.

Definition lyra2_rows (rows : nat -> nat -> list nat) (kLen : nat) (pwd salt : list Z) (T R C : nat) : list Z :=
  let s := absorb_all (input kLen pwd salt T R C) initial_state in
  let M := replicate (R * C) (replicate 12 0) in
  let st := squeeze_row C 0 (s, M) in
  let st := duplex_row1 C 0 1 st in
  let '(s, M) := setup C R st in
  let '(s, M, _, a) := wander C rows R T (s, M, R - 1, row_star R)%nat in
  squeeze (kLen / 96 + 1) (f (absorb (M !!! cell C a 0) s)) kLen.

(** Lyra2: the passes of the specification. *)
Definition lyra2 (kLen : nat) (pwd salt : list Z) (T R C : nat) : list Z := lyra2_rows wander_rows kLen pwd salt T R C.

End Lyra2Spec.
