(* ===== verification/Lyra2Proofs.v ===== *)
(** The sponge and the row operations of Lyra2 against the reference: the flat
    memory is the concatenation of the blocks of the matrix.

    The row schedules of Lyra2: the windows of the setup phase and the visits of
    the wandering phase in closed form, with the termination of both loops. *)

From S2P Require Import Prelude BlakeSpec Rfc7693 Sponge Lyra2 Lyra2Spec.

(** ** Relations *)

Definition blocks_ok (n : nat) (M : list (list Z)) : Prop :=
  length M = n /\ Forall (fun b => length b = 12%nat) M.

(** The code's state and flat memory against the reference's state and matrix,
    which agree on the blocks of [D]. *)
Definition related (n : nat) (D : nat -> Prop) (x : list Z * list Z) (y : list Z * list (list Z)) : Prop :=
  exists M', fst x = fst y /\ length (fst y) = 16%nat /\ snd x = concat M' /\
    blocks_ok n M' /\ blocks_ok n (snd y) /\ forall k, (k < n)%nat -> D k -> M' !!! k = snd y !!! k.

(** The blocks of the rows below [r], and of row [r] the last [c] columns. *)
Definition filled (C r c : nat) (k : nat) : Prop :=
  (k < r * C)%nat \/ (r * C + (C - c) <= k < (r + 1) * C)%nat.

(** ** The permutation *)

Lemma G_at_mix a b c d v : G_at a b c d v = Rfc7693.mix a b c d 0 0 v.
Proof.
  assert (Hu : u64 = wrap 64) by reflexivity; assert (Hr : rotr64 = Rfc7693.rotr) by reflexivity.
  unfold G_at, G, Rfc7693.mix; rewrite Hu, Hr; cbv zeta; by rewrite !Z.add_0_r.
Qed.

Lemma length_mix a b c d x y v : length (Rfc7693.mix a b c d x y v) = length v.
Proof. unfold Rfc7693.mix; cbv zeta; by rewrite !length_insert. Qed.

#[local] Opaque Rfc7693.mix G_at.

Lemma ROUND_LYRA_spec v : ROUND_LYRA v = Lyra2Spec.f_reduced v.
Proof.
  unfold ROUND_LYRA, Lyra2Spec.f_reduced, Rfc7693.round, for_range; cbn [seq Nat.sub fold_left].
  rewrite !G_at_mix.
  repeat match goal with |- context [replicate 16 0 !!! ?x] => change (replicate 16 0 !!! x) with 0 end.
  reflexivity.
Qed.

Lemma length_G_at a b c d v : length (G_at a b c d v) = length v.
Proof. rewrite G_at_mix; apply length_mix. Qed.

Lemma length_f_reduced s : length (Lyra2Spec.f_reduced s) = length s.
Proof. rewrite <- ROUND_LYRA_spec; unfold ROUND_LYRA; by rewrite !length_G_at. Qed.

#[local] Opaque ROUND_LYRA Lyra2Spec.f_reduced.

Lemma blake2bLyra_spec v : blake2bLyra v = Lyra2Spec.f v.
Proof. unfold blake2bLyra; rewrite !ROUND_LYRA_spec; reflexivity. Qed.

Lemma initState_spec : initState = Lyra2Spec.initial_state.
Proof. vm_compute; reflexivity. Qed.

(** ** Lengths *)

Lemma length_f s : length (Lyra2Spec.f s) = length s.
Proof.
  unfold Lyra2Spec.f; apply (for_range_ind (fun _ t => length t = length s)); [lia|done|].
  intros i t _ Ht; by rewrite length_f_reduced.
Qed.

Lemma length_absorb w s : length (Lyra2Spec.absorb w s) = length s.
Proof. unfold Lyra2Spec.absorb; rewrite length_app, length_zip_with, length_take, length_drop; lia. Qed.

Lemma length_rate s : length s = 16%nat -> length (Lyra2Spec.rate s) = 12%nat.
Proof. intros; unfold Lyra2Spec.rate; rewrite length_take; lia. Qed.

Lemma rotW_spec b : length b = 12%nat -> rotW b = Lyra2Spec.rot_block b.
Proof. intros Hb; do 13 (destruct b as [|? b]; try discriminate); reflexivity. Qed.

Lemma length_rot_block b : length b = 12%nat -> length (Lyra2Spec.rot_block b) = 12%nat.
Proof. intros; unfold Lyra2Spec.rot_block; rewrite length_app, length_drop, length_take; lia. Qed.

Lemma length_bxor x y : length x = 12%nat -> length y = 12%nat -> length (Lyra2Spec.bxor x y) = 12%nat.
Proof. intros; unfold Lyra2Spec.bxor; rewrite length_zip_with; lia. Qed.

(** ** Flat memory *)

Lemma length_concat_blocks n M : blocks_ok n M -> length (concat M) = (12 * n)%nat.
Proof.
  intros [<- HM]; induction HM as [|b M Hb HM IH]; [done|]; cbn [concat length]; rewrite length_app, Hb, IH; lia.
Qed.

Lemma blocks_lookup n M k : blocks_ok n M -> (k < n)%nat -> length (M !!! k) = 12%nat.
Proof. intros [<- HM] Hk; exact (Forall_lookup_total_1 _ _ _ HM Hk). Qed.

Lemma blocks_insert n M k b : blocks_ok n M -> length b = 12%nat -> blocks_ok n (<[k := b]> M).
Proof. intros [Hl HM] Hb; split; [by rewrite length_insert|by apply Forall_insert]. Qed.

(** The memory around block [k]. *)
Lemma concat_split n M k : blocks_ok n M -> (k < n)%nat ->
  concat M = concat (take k M) ++ M !!! k ++ concat (drop (S k) M) /\ length (concat (take k M)) = (12 * k)%nat.
Proof.
  intros HM Hk; pose proof HM as [Hl Hf]; split.
  - rewrite <- (take_drop_middle M k (M !!! k)) at 1 by (apply list_lookup_lookup_total_lt; lia).
    by rewrite concat_app.
  - apply length_concat_blocks; split; [rewrite length_take; lia|by apply Forall_take].
Qed.

Lemma mem_read_block n M k : blocks_ok n M -> (k < n)%nat ->
  mem_read (12 * k) 12 (concat M) = Some (M !!! k).
Proof.
  intros HM Hk; unfold mem_read; rewrite (length_concat_blocks n) by done.
  destruct (Nat.leb_spec (12 * k + 12) (12 * n)); [|lia]; f_equal.
  destruct (concat_split n M k HM Hk) as [-> Hlen]; unfold read_at.
  rewrite drop_app_ge by lia; rewrite Hlen, Nat.sub_diag, drop_0, take_app_le, take_ge
    by (rewrite (blocks_lookup n) by done; lia); done.
Qed.

Lemma mem_write_block n M k b : blocks_ok n M -> (k < n)%nat -> length b = 12%nat ->
  mem_write (12 * k) b (concat M) = Some (concat (<[k := b]> M)).
Proof.
  intros HM Hk Hb; unfold mem_write; rewrite (length_concat_blocks n), Hb by done.
  destruct (Nat.leb_spec (12 * k + 12) (12 * n)); [|lia]; f_equal.
  destruct (concat_split n M k HM Hk) as [-> Hlen].
  rewrite insert_take_drop, concat_app by (destruct HM; lia); cbn [concat].
  unfold write_at; rewrite take_app_le, take_ge by lia; f_equal; f_equal.
  rewrite drop_app_ge by lia; rewrite Hlen, drop_app_ge by (rewrite (blocks_lookup n) by done; lia).
  rewrite (blocks_lookup n), Hb by done; replace (12 * k + 12 - 12 * k - 12)%nat with 0%nat by lia; done.
Qed.

(** ** Steps of the loops *)

Section Steps.
Variables (n : nat) (D : nat -> Prop).

(** Writing a block to both sides extends the agreement. *)
Lemma related_write (D' : nat -> Prop) s mem M k b :
  related n D (s, mem) (s, M) -> (k < n)%nat -> length b = 12%nat ->
  (forall j, D' j -> j = k \/ D j) ->
  exists mem', mem_write (12 * k) b mem = Some mem' /\ related n D' (s, mem') (s, <[k := b]> M).
Proof.
  intros (M' & _ & Hs & Hm & HM' & HM & Hag) Hk Hb HD; cbn [fst snd] in *; subst mem.
  exists (concat (<[k := b]> M')); split; [by apply (mem_write_block n)|].
  exists (<[k := b]> M'); cbn [fst snd]; split_and!; try done; [by apply blocks_insert..|].
  intros j Hj HDj; destruct (HD j HDj) as [->|HDj']; destruct HM, HM'.
  - by rewrite !list_lookup_total_insert_eq by lia.
  - destruct (Nat.eq_dec j k) as [->|Hne]; [by rewrite !list_lookup_total_insert_eq by lia|].
    rewrite !list_lookup_total_insert_ne by done; by apply Hag.
Qed.

Lemma related_read s mem M k : related n D (s, mem) (s, M) -> (k < n)%nat -> D k ->
  mem_read (12 * k) 12 mem = Some (M !!! k) /\ length (M !!! k) = 12%nat.
Proof.
  intros (M' & _ & Hs & Hm & HM' & HM & Hag) Hk HD; cbn [fst snd] in *; subst mem.
  rewrite (mem_read_block n), Hag by done; split; [done|by apply (blocks_lookup n)].
Qed.

Lemma related_state s mem M s' : related n D (s, mem) (s, M) -> length s' = 16%nat ->
  related n D (s', mem) (s', M).
Proof. intros (M' & _ & Hs & Hm & HM' & HM & Hag) Hs'; by exists M'. Qed.

Lemma related_eq x M s : related n D x (s, M) -> fst x = s /\ length s = 16%nat.
Proof. by intros (M' & Hx & Hs & _). Qed.

End Steps.

Lemma related_mono n D D' x y : related n D x y -> (forall k, D' k -> D k) -> related n D' x y.
Proof. intros (M' & ? & ? & ? & ? & ? & Hag) HD; exists M'; split_and!; try done; intros; apply Hag; auto. Qed.

(** ** Row operations *)

Section Rows.
Variables (R C : nat).
Abbreviation n := (R * C)%nat.
Abbreviation row_ptr r := (r * (BLOCK_LEN_INT64 * C))%nat.

Lemma cell_ptr r c : (row_ptr r + c * BLOCK_LEN_INT64)%nat = (12 * Lyra2Spec.cell C r c)%nat.
Proof. unfold BLOCK_LEN_INT64, Lyra2Spec.cell; lia. Qed.

Lemma matrix_cell_bound r c : (r < R)%nat -> (c < C)%nat -> (Lyra2Spec.cell C r c < n)%nat.
Proof. unfold Lyra2Spec.cell; intros; nia. Qed.

Lemma cell_filled r r' c c' : (r' < r)%nat -> (c' < C)%nat -> filled C r c (Lyra2Spec.cell C r' c').
Proof. left; unfold Lyra2Spec.cell; nia. Qed.

(** One more column of row [r], filled from the last one. *)
Lemma filled_next r c k : (c < C)%nat -> filled C r (c + 1) k ->
  k = Lyra2Spec.cell C r (C - 1 - c) \/ filled C r c k.
Proof. unfold filled, Lyra2Spec.cell; intros; lia. Qed.

Lemma filled_row r k : filled C (r + 1) 0 k <-> filled C r C k.
Proof. unfold filled; lia. Qed.

Lemma squeeze_row_spec r s mem M : (r < R)%nat -> related n (filled C r 0) (s, mem) (s, M) ->
  exists x, reducedSqueezeRow0 s mem (row_ptr r) C = Some x /\
    related n (filled C r C) x (Lyra2Spec.squeeze_row C r (s, M)).
Proof.
  intros Hr Hrel; apply (for_rangeM_sim (fun c => related n (filled C r c))); [lia|done|].
  intros c [s1 m1] [s2 M2] Hc Hx; destruct (related_eq _ _ _ _ _ Hx) as [Heq Hs]; cbn in Heq; subst s1.
  rewrite cell_ptr; unfold reducedBlake2bLyra; rewrite ROUND_LYRA_spec.
  destruct (related_write n _ (filled C r (c + 1)) s2 m1 M2 (Lyra2Spec.cell C r (C - 1 - c)) (rand s2) Hx)
    as (m' & -> & Hrel'); [apply matrix_cell_bound; lia|by apply length_rate|intros; apply filled_next; (lia || done)|].
  eexists; split; [reflexivity|]; apply (related_state _ _ s2); [done|by rewrite length_f_reduced].
Qed.

Lemma duplex_row1_spec p r s mem M : (p < r < R)%nat -> related n (filled C r 0) (s, mem) (s, M) ->
  exists x, reducedDuplexRow1 s mem (row_ptr p) (row_ptr r) C = Some x /\
    related n (filled C r C) x (Lyra2Spec.duplex_row1 C p r (s, M)).
Proof.
  intros Hr Hrel; apply (for_rangeM_sim (fun c => related n (filled C r c))); [lia|done|].
  intros c [s1 m1] [s2 M2] Hc Hx; destruct (related_eq _ _ _ _ _ Hx) as [Heq Hs]; cbn in Heq; subst s1.
  rewrite !cell_ptr; unfold reducedBlake2bLyra; change BLOCK_LEN_INT64 with 12%nat.
  destruct (related_read n _ s2 m1 M2 (Lyra2Spec.cell C p c) Hx) as [Hread Hlen];
    [apply matrix_cell_bound; lia|apply cell_filled; lia|].
  rewrite Hread; cbn [mbind option_bind]; rewrite ROUND_LYRA_spec.
  change (xor_prefix (M2 !!! Lyra2Spec.cell C p c) s2) with (Lyra2Spec.absorb (M2 !!! Lyra2Spec.cell C p c) s2).
  set (s' := Lyra2Spec.f_reduced _).
  assert (Hs' : length s' = 16%nat) by (unfold s'; by rewrite length_f_reduced, length_absorb).
  destruct (related_write n _ (filled C r (c + 1)) s' m1 M2 (Lyra2Spec.cell C r (C - 1 - c))
    (Lyra2Spec.bxor (M2 !!! Lyra2Spec.cell C p c) (Lyra2Spec.rate s')) (related_state _ _ _ _ _ _ Hx Hs'))
    as (m' & Hw & Hrel');
    [apply matrix_cell_bound; lia|by apply length_bxor, length_rate|intros; apply filled_next; (lia || done)|].
  exists (s', m'); split; [|done]; unfold xor_words; fold (Lyra2Spec.bxor (M2 !!! Lyra2Spec.cell C p c) (rand s')).
  change (rand s') with (Lyra2Spec.rate s'); by rewrite Hw.
Qed.

Lemma duplex_setup_spec p a r s mem M : (p < r < R)%nat -> (a < r)%nat ->
  related n (filled C r 0) (s, mem) (s, M) ->
  exists x, reducedDuplexRowSetup s mem (row_ptr p) (row_ptr a) (row_ptr r) C = Some x /\
    related n (filled C r C) x (Lyra2Spec.duplex_setup C p a r (s, M)).
Proof.
  intros Hr Ha Hrel; apply (for_rangeM_sim (fun c => related n (filled C r c))); [lia|done|].
  intros c [s1 m1] [s2 M2] Hc Hx; destruct (related_eq _ _ _ _ _ Hx) as [Heq Hs]; cbn in Heq; subst s1.
  rewrite !cell_ptr; unfold reducedBlake2bLyra; change BLOCK_LEN_INT64 with 12%nat.
  destruct (related_read n _ s2 m1 M2 (Lyra2Spec.cell C p c) Hx) as [Hp Hpl]; [apply matrix_cell_bound; lia|apply cell_filled; lia|].
  destruct (related_read n _ s2 m1 M2 (Lyra2Spec.cell C a c) Hx) as [Ha' Hal]; [apply matrix_cell_bound; lia|apply cell_filled; lia|].
  rewrite Hp; cbn [mbind option_bind]; rewrite Ha'; cbn [mbind option_bind]; rewrite ROUND_LYRA_spec.
  set (s' := Lyra2Spec.f_reduced _).
  assert (Hs' : length s' = 16%nat) by (unfold s'; by rewrite length_f_reduced, length_absorb).
  destruct (related_write n _ (filled C r (c + 1)) s' m1 M2 (Lyra2Spec.cell C r (C - 1 - c))
    (Lyra2Spec.bxor (M2 !!! Lyra2Spec.cell C p c) (Lyra2Spec.rate s')) (related_state _ _ _ _ _ _ Hx Hs'))
    as (m2 & Hw & Hrel2);
    [apply matrix_cell_bound; lia|by apply length_bxor, length_rate|intros; apply filled_next; (lia || done)|].
  change (xor_words (M2 !!! Lyra2Spec.cell C p c) (rand s')) with
    (Lyra2Spec.bxor (M2 !!! Lyra2Spec.cell C p c) (Lyra2Spec.rate s')).
  rewrite Hw; cbn [mbind option_bind].
  set (M3 := <[_ := _]> M2) in *.
  destruct (related_read n _ s' m2 M3 (Lyra2Spec.cell C a c) Hrel2) as [Ha3 Ha3l]; [apply matrix_cell_bound; lia|apply cell_filled; lia|].
  rewrite Ha3; cbn [mbind option_bind]; rewrite rotW_spec by (by apply length_rate).
  destruct (related_write n _ (filled C r (c + 1)) s' m2 M3 (Lyra2Spec.cell C a c)
    (Lyra2Spec.bxor (M3 !!! Lyra2Spec.cell C a c) (Lyra2Spec.rot_block (Lyra2Spec.rate s'))) Hrel2) as (m3 & Hw3 & Hrel3);
    [apply matrix_cell_bound; lia|by apply length_bxor, length_rot_block, length_rate|by right|].
  exists (s', m3); split; [|done].
  change (xor_words (M3 !!! Lyra2Spec.cell C a c) (Lyra2Spec.rot_block (rand s'))) with
    (Lyra2Spec.bxor (M3 !!! Lyra2Spec.cell C a c) (Lyra2Spec.rot_block (Lyra2Spec.rate s'))); by rewrite Hw3.
Qed.

(** Everything is initialised while wandering, and the three rows may coincide. *)
Lemma duplex_wander_spec p a r s mem M : (p < R)%nat -> (a < R)%nat -> (r < R)%nat ->
  related n (fun _ => True) (s, mem) (s, M) ->
  exists x, reducedDuplexRow s mem (row_ptr p) (row_ptr a) (row_ptr r) C = Some x /\
    related n (fun _ => True) x (Lyra2Spec.duplex_wander C p a r (s, M)).
Proof.
  intros Hp Ha Hr Hrel; apply (for_rangeM_sim (fun c => related n (fun _ => True))); [lia|done|].
  intros c [s1 m1] [s2 M2] Hc Hx; destruct (related_eq _ _ _ _ _ Hx) as [Heq Hs]; cbn in Heq; subst s1.
  rewrite !cell_ptr; unfold reducedBlake2bLyra; change BLOCK_LEN_INT64 with 12%nat.
  assert (Hcell : forall q, (q < R)%nat -> (Lyra2Spec.cell C q c < n)%nat) by (intros; apply matrix_cell_bound; lia).
  destruct (related_read n _ s2 m1 M2 (Lyra2Spec.cell C p c) Hx) as [Hp' _]; [auto..|].
  destruct (related_read n _ s2 m1 M2 (Lyra2Spec.cell C a c) Hx) as [Ha' _]; [auto..|].
  destruct (related_read n _ s2 m1 M2 (Lyra2Spec.cell C r c) Hx) as [Hr' Hrl]; [auto..|].
  rewrite Hp'; cbn [mbind option_bind]; rewrite Ha'; cbn [mbind option_bind]; rewrite ROUND_LYRA_spec, Hr'; cbn [mbind option_bind].
  set (s' := Lyra2Spec.f_reduced _).
  assert (Hs' : length s' = 16%nat) by (unfold s'; by rewrite length_f_reduced, length_absorb).
  destruct (related_write n _ (fun _ => True) s' m1 M2 (Lyra2Spec.cell C r c)
    (Lyra2Spec.bxor (M2 !!! Lyra2Spec.cell C r c) (Lyra2Spec.rate s')) (related_state _ _ _ _ _ _ Hx Hs'))
    as (m2 & Hw & Hrel2); [auto|by apply length_bxor, length_rate|by right|].
  change (xor_words (M2 !!! Lyra2Spec.cell C r c) (rand s')) with
    (Lyra2Spec.bxor (M2 !!! Lyra2Spec.cell C r c) (Lyra2Spec.rate s')).
  rewrite Hw; cbn [mbind option_bind]; set (M3 := <[_ := _]> M2) in *.
  destruct (related_read n _ s' m2 M3 (Lyra2Spec.cell C a c) Hrel2) as [Ha3 Ha3l]; [auto..|].
  rewrite Ha3; cbn [mbind option_bind]; rewrite rotW_spec by (by apply length_rate).
  destruct (related_write n _ (fun _ => True) s' m2 M3 (Lyra2Spec.cell C a c)
    (Lyra2Spec.bxor (M3 !!! Lyra2Spec.cell C a c) (Lyra2Spec.rot_block (Lyra2Spec.rate s'))) Hrel2) as (m3 & Hw3 & Hrel3);
    [auto|by apply length_bxor, length_rot_block, length_rate|by right|].
  exists (s', m3); split; [|done].
  change (xor_words (M3 !!! Lyra2Spec.cell C a c) (Lyra2Spec.rot_block (rand s'))) with
    (Lyra2Spec.bxor (M3 !!! Lyra2Spec.cell C a c) (Lyra2Spec.rot_block (Lyra2Spec.rate s'))); by rewrite Hw3.
Qed.

End Rows.

(** The loop variables of the setup phase before row [r] is computed. *)
Definition setup_at (r : nat) : setup_vars :=
  let e := Nat.log2 r in
  SetupVars (Z.of_nat r) (Z.of_nat r - 1) (Z.of_nat (Lyra2Spec.row_star r))
    (Z.of_nat (Lyra2Spec.setup_step e)) (2 ^ Z.of_nat e) (if Nat.even e then -1 else 1).

(** [visits next r l]: starting from row [r] the loop [do .. while (row != 0)]
    visits the rows of [l] in order. *)
Inductive visits (next : nat -> nat) : nat -> list nat -> Prop :=
  | visits_last r : next r = 0%nat -> visits next r [r]
  | visits_cons r l : next r <> 0%nat -> visits next (next r) l -> visits next r (r :: l).

(** ** Setup *)

Lemma setup_step_odd e : (1 <= e)%nat -> exists k, Lyra2Spec.setup_step e = (2 * k + 1)%nat.
Proof.
  intros He; unfold Lyra2Spec.setup_step; destruct (Nat.leb_spec e 1); [by exists 0%nat|].
  assert (E : (2 ^ (e - 1) = 2 * 2 ^ (e - 2))%nat) by (rewrite <- Nat.pow_succ_r'; f_equal; lia).
  pose proof (pow2_nat_pos (e - 2)).
  destruct (Nat.even e); [exists (2 ^ (e - 2))%nat; lia|exists (2 ^ (e - 2) - 1)%nat; lia].
Qed.

(** A power of two that divides an odd multiple of [j] divides [j]. *)
Lemma odd_mul_divides e : forall j k q, (j * (2 * k + 1) = q * 2 ^ e)%nat -> exists x, (j = x * 2 ^ e)%nat.
Proof.
  induction e as [|e IH]; intros j k q Hq; [exists j; simpl; lia|].
  rewrite Nat.pow_succ_r' in *; destruct (Nat.Even_or_Odd j) as [[j' ->]|[j' ->]].
  - destruct (IH j' k q) as [x ->]; [lia|]; exists x; lia.
  - exfalso; clear IH; remember (2 ^ e)%nat as p eqn:Hp; clear Hp; lia.
Qed.

Lemma odd_mul_mod e j k : (0 < j < 2 ^ e)%nat -> (j * (2 * k + 1) mod 2 ^ e <> 0)%nat.
Proof.
  intros Hj Hmod; apply Nat.Div0.mod_divides in Hmod as [q Hq].
  destruct (odd_mul_divides e j k q) as [x Hx]; [lia|]; destruct x; lia.
Qed.

Lemma log2_window r : (2 <= r)%nat -> let e := Nat.log2 r in (1 <= e)%nat /\ (2 ^ e <= r < 2 * 2 ^ e)%nat.
Proof.
  intros Hr e; split.
  - apply (Nat.log2_le_mono 2 r Hr).
  - pose proof (Nat.log2_spec r ltac:(lia)) as Hs; fold e in Hs; rewrite Nat.pow_succ_r' in Hs; lia.
Qed.

Lemma setup_next_at r : (2 <= r)%nat -> setup_next (setup_at r) = setup_at (r + 1).
Proof.
  intros Hr; destruct (log2_window r Hr) as [He Hw]; unfold setup_next, setup_at.
  cbn [row prev rowa step window gap]; unfold Lyra2Spec.row_star; set (e := Nat.log2 r) in *.
  destruct (setup_step_odd e He) as [k Hk].
  assert (Hpow : 2 ^ Z.of_nat e = Z.of_nat (2 ^ e)) by (by rewrite Nat2Z.inj_pow).
  pose proof (pow2_nat_pos e) as Hp.
  assert (Hland : Z.land (Z.of_nat ((r - 2 ^ e) * Lyra2Spec.setup_step e mod 2 ^ e) +
    Z.of_nat (Lyra2Spec.setup_step e)) (2 ^ Z.of_nat e - 1) =
    Z.of_nat ((r + 1 - 2 ^ e) * Lyra2Spec.setup_step e mod 2 ^ e)).
  { replace (2 ^ Z.of_nat e - 1) with (Z.ones (Z.of_nat e)) by (rewrite Z.ones_equiv; lia).
    rewrite Z.land_ones, Hpow, !Nat2Z.inj_mod, Zplus_mod_idemp_l by lia; f_equal; nia. }
  rewrite Hland; destruct (Nat.eq_dec (r + 1)%nat (2 * 2 ^ e)%nat) as [Heq|Hne].
  - assert (Hl : Nat.log2 (r + 1) = (e + 1)%nat).
    { rewrite Heq; replace (2 * 2 ^ e)%nat with (2 ^ (e + 1))%nat by (rewrite Nat.add_1_r; apply Nat.pow_succ_r').
      apply Nat.log2_pow2; lia. }
    rewrite Hl; replace (r + 1 - 2 ^ e)%nat with (2 ^ e)%nat by lia.
    replace (r + 1 - 2 ^ (e + 1))%nat with 0%nat by (rewrite (Nat.add_1_r e), Nat.pow_succ_r'; lia).
    rewrite (Nat.mul_comm (2 ^ e)), Nat.Div0.mod_mul, Nat.mul_0_l, Nat.Div0.mod_0_l; cbn [Z.of_nat Z.eqb].
    assert (Hstep : 2 ^ Z.of_nat e + (if Nat.even e then -1 else 1) = Z.of_nat (Lyra2Spec.setup_step (e + 1))).
    { unfold Lyra2Spec.setup_step; destruct (Nat.leb_spec (e + 1) 1); [lia|].
      rewrite (Nat.add_1_r e), Nat.even_succ, <- Nat.negb_even, Nat.sub_succ, Nat.sub_0_r, Hpow.
      destruct (Nat.even e); simpl; lia. }
    rewrite Hstep; f_equal; try lia.
    + by rewrite Nat2Z.inj_add, Z.pow_add_r by lia.
    + rewrite (Nat.add_1_r e), Nat.even_succ, <- Nat.negb_even; by destruct (Nat.even e).
  - assert (Hl : Nat.log2 (r + 1) = e) by (apply Nat.log2_unique; rewrite ?Nat.pow_succ_r'; lia).
    rewrite Hl, Hk; pose proof (odd_mul_mod e (r + 1 - 2 ^ e) k ltac:(lia)) as Hnz.
    destruct (Z.eqb_spec (Z.of_nat ((r + 1 - 2 ^ e) * (2 * k + 1) mod 2 ^ e)) 0); [lia|].
    f_equal; lia.
Qed.

Lemma row_star_bound r : (2 <= r)%nat -> (Lyra2Spec.row_star r < 2 ^ Nat.log2 r <= r)%nat.
Proof.
  intros Hr; destruct (log2_window r Hr) as [_ Hw]; split; [|lia].
  apply Nat.mod_upper_bound; pose proof (pow2_nat_pos (Nat.log2 r)); lia.
Qed.

(** The rows the code visits: an even pass goes on from row 0 with the residue of
    [2^64 - 1], since [row + step] is taken modulo 2^64 first. *)
Definition wrapped_rows (R tau : nat) : list nat :=
  if Nat.even tau then 0%nat :: reverse (seq 1 (Z.to_nat ((2 ^ 64 - 1) mod Z.of_nat R))) else Lyra2Spec.wander_rows R tau.

(** They are those of the specification in the odd passes, and in every pass when
    the number of rows divides 2^64. *)
Lemma wrapped_rows_spec R tau : (0 < R)%nat -> 2 ^ 64 mod Z.of_nat R = 0 \/ Nat.even tau = false -> wrapped_rows R tau = Lyra2Spec.wander_rows R tau.
Proof.
  intros HR H; unfold wrapped_rows, Lyra2Spec.wander_rows; destruct (Nat.even tau); [|done]; destruct H as [H|H]; [|done]; do 3 f_equal.
  apply Z.mod_divide in H as [k Hk]; [|lia]; rewrite <- (Z.mod_unique _ _ (k - 1) (Z.of_nat R - 1)); lia.
Qed.

Section Loops.
Variables (R C : nat).
Hypothesis R_bound : Z.of_nat R < 2 ^ 62.
Abbreviation n := (R * C)%nat.
Abbreviation ptrs := (row_pointers R C).

Lemma row_pointer r : (r < R)%nat -> memMatrix_at ptrs (Z.of_nat r) = Some (r * (BLOCK_LEN_INT64 * C))%nat.
Proof.
  intros Hr; unfold memMatrix_at, row_pointers; destruct (Z.leb_spec 0 (Z.of_nat r)); [|lia].
  rewrite Nat2Z.id, list_lookup_fmap, lookup_seq_lt by done; done.
Qed.

Lemma setup_loop_spec fuel : forall r s mem M, (2 <= r < R)%nat -> (R <= fuel + r)%nat ->
  related n (filled C r 0) (s, mem) (s, M) ->
  exists s' mem', setup_loop fuel ptrs R C (setup_at r) s mem = Some (setup_at R, s', mem') /\
    related n (filled C R 0) (s', mem') (for_range r R (fun r => Lyra2Spec.duplex_setup C (r - 1) (Lyra2Spec.row_star r) r) (s, M)).
Proof.
  induction fuel as [|fuel IH]; intros r s mem M Hr Hf Hrel; [lia|].
  pose proof (row_star_bound r ltac:(lia)) as Hstar; cbn [setup_loop].
  assert (Hprev : prev (setup_at r) = Z.of_nat (r - 1)) by (cbn; lia).
  rewrite Hprev; change (rowa (setup_at r)) with (Z.of_nat (Lyra2Spec.row_star r)).
  change (row (setup_at r)) with (Z.of_nat r); rewrite !row_pointer by lia; cbn [mbind option_bind].
  destruct (duplex_setup_spec R C (r - 1) (Lyra2Spec.row_star r) r s mem M) as ([s1 m1] & -> & Hrel1); [lia|lia|done|].
  cbn [mbind option_bind]; rewrite setup_next_at by lia; change (row (setup_at (r + 1))) with (Z.of_nat (r + 1)).
  rewrite for_range_first by lia.
  destruct (Lyra2Spec.duplex_setup C (r - 1) (Lyra2Spec.row_star r) r (s, M)) as [s2 M2].
  destruct (related_eq _ _ _ _ _ Hrel1) as [Heq Hs]; cbn in Heq; subst s1.
  assert (Hrel2 : related n (filled C (r + 1) 0) (s2, m1) (s2, M2))
    by (eapply related_mono; [exact Hrel1|intros k; apply filled_row]).
  unfold u64; rewrite wrap_id by (unfold word; lia).
  destruct (Z.ltb_spec (Z.of_nat (r + 1)) (Z.of_nat R)) as [Hlt|Hge].
  - apply IH; [lia|lia|done].
  - replace R with (r + 1)%nat in * by lia; exists s2, m1; split; [done|]; by rewrite for_range_empty.
Qed.

(** ** Wandering *)

Abbreviation next step := (fun r => Z.to_nat (wander_next (Z.of_nat R) step (Z.of_nat r))).

Lemma wander_loop_spec step r l : visits (next step) r l -> (0 < R)%nat -> Forall (fun q => (q < R)%nat) l ->
  forall fuel p a0 s mem M, (length l <= fuel)%nat -> (p < R)%nat ->
  related n (fun _ => True) (s, mem) (s, M) ->
  exists s' mem' M' p' a', wander_loop fuel ptrs R C step (Z.of_nat r) (Z.of_nat p) a0 s mem =
      Some (0, Z.of_nat p', Z.of_nat a', s', mem') /\
    fold_left (Lyra2Spec.wander_visit C R) l (s, M, p, Z.to_nat a0) = (s', M', p', a') /\
    related n (fun _ => True) (s', mem') (s', M') /\ (p' < R)%nat /\ (a' < R)%nat.
Proof.
  intros Hv HR; induction Hv as [r Hz|r l Hnz Hv IH]; intros Hl fuel p a0 s mem M Hf Hp Hrel;
    (destruct fuel as [|fuel]; [simpl in Hf; lia|]); cbn [wander_loop].
  all: inversion Hl as [|? ? Hr Hl']; subst.
  all: pose proof (Z.mod_pos_bound (s !!! 0%nat) (Z.of_nat R) ltac:(lia)) as Ha.
  all: set (a := Z.to_nat ((s !!! 0%nat) mod Z.of_nat R)).
  all: replace ((s !!! 0%nat) mod Z.of_nat R) with (Z.of_nat a) by (unfold a; lia).
  all: rewrite !row_pointer by lia; cbn [mbind option_bind].
  all: destruct (duplex_wander_spec R C p a r s mem M) as ([s1 m1] & -> & Hrel1); [lia|lia|lia|done|].
  all: assert (Hvis : forall x, Lyra2Spec.wander_visit C R (s, M, p, x) r =
    (Lyra2Spec.duplex_wander C p a r (s, M), r, a)) by reflexivity.
  all: cbn [mbind option_bind fold_left]; destruct (Lyra2Spec.duplex_wander C p a r (s, M)) as [s2 M2].
  all: destruct (related_eq _ _ _ _ _ Hrel1) as [Heq Hs]; cbn in Heq; subst s1.
  all: assert (Hnext : wander_next (Z.of_nat R) step (Z.of_nat r) = Z.of_nat (next step r))
    by (unfold wander_next; pose proof (Z.mod_pos_bound (u64 (Z.of_nat r + step)) (Z.of_nat R) ltac:(lia)); lia).
  - rewrite Hnext, Hz; exists s2, m1, M2, r, a; rewrite Hvis; split_and!; try done; lia.
  - rewrite Hnext; destruct (Z.eqb_spec (Z.of_nat (next step r)) 0); [lia|].
    destruct (IH Hl' fuel r (Z.of_nat a) s2 m1 M2) as (s' & m' & M' & p' & a' & He & Hfold & Hr' & Hb);
      [simpl in Hf; lia|lia|done|].
    rewrite Nat2Z.id in Hfold; exists s', m', M', p', a'; by rewrite Hvis.
Qed.

(** Downwards from [m] to 1. *)
Lemma visits_down m : (0 < m < R)%nat -> visits (next (-1)) m (reverse (seq 1 m)).
Proof.
  induction m as [|m IH]; intros Hm; [lia|].
  assert (Hn : next (-1) (S m) = m).
  { unfold wander_next, u64; rewrite wrap_id by (unfold word; lia); rewrite Z.mod_small by lia; lia. }
  rewrite seq_S, reverse_app; change (reverse [(1 + m)%nat]) with [S m]; cbn [app].
  destruct m as [|m]; [by apply visits_last|].
  apply visits_cons; rewrite Hn; [lia|apply IH; lia].
Qed.

Lemma visits_even : (1 < R)%nat -> visits (next (-1)) 0 (wrapped_rows R 2).
Proof.
  intros HR; unfold wrapped_rows; cbn [Nat.even].
  pose proof (Z.mod_pos_bound (2 ^ 64 - 1) (Z.of_nat R) ltac:(lia)) as Hc.
  assert (Hn : next (-1) 0%nat = Z.to_nat ((2 ^ 64 - 1) mod Z.of_nat R)) by reflexivity.
  destruct (Z.to_nat ((2 ^ 64 - 1) mod Z.of_nat R)) as [|c] eqn:E; [by apply visits_last|].
  apply visits_cons; rewrite Hn; [lia|apply visits_down; lia].
Qed.

(** Multiples of [s] modulo [R] come back to 0 after [R / gcd s R] of them. *)
Lemma multiple_nonzero s j : (0 < R)%nat -> (0 < j < R / Nat.gcd s R)%nat -> (j * s mod R <> 0)%nat.
Proof.
  intros HR Hj Hmod; set (g := Nat.gcd s R) in *.
  destruct (Nat.gcd_divide_l s R) as [s' Hs], (Nat.gcd_divide_r s R) as [R' HR']; fold g in Hs, HR'.
  assert (Hg : g <> 0%nat) by (intros E; rewrite E in HR'; lia).
  rewrite HR' in Hj at 1; rewrite Nat.div_mul in Hj by done.
  apply Nat.Div0.mod_divides in Hmod as [q Hq].
  assert (Hdiv : Nat.divide R' j).
  { apply (Nat.gauss _ s').
    - exists q; apply (Nat.mul_cancel_r _ _ g); [done|]; lia.
    - apply (Nat.mul_cancel_r _ _ g); [done|]; rewrite <- Nat.gcd_mul_mono_r, <- Hs, <- HR', Nat.gcd_comm; fold g; lia. }
  destruct Hdiv as [x Hx]; destruct x; lia.
Qed.

Lemma multiple_zero s : (0 < R)%nat -> ((R / Nat.gcd s R) * s mod R = 0)%nat.
Proof.
  intros HR; destruct (Nat.gcd_divide_l s R) as [s' Hs], (Nat.gcd_divide_r s R) as [R' HR'].
  set (g := Nat.gcd s R) in *; assert (Hg : g <> 0%nat) by (intros E; rewrite E in HR'; lia).
  replace (R / g)%nat with R' by (rewrite HR', Nat.div_mul by done; done).
  rewrite Hs; replace (R' * (s' * g))%nat with (s' * R)%nat by lia; apply Nat.Div0.mod_mul.
Qed.

Lemma visits_odd : (1 < R)%nat ->
  visits (next (Z.of_nat (R / 2 - 1))) 0 (wrapped_rows R 1).
Proof.
  intros HR; unfold wrapped_rows, Lyra2Spec.wander_rows; cbn [Nat.even]; set (s := (R / 2 - 1)%nat).
  assert (Hs : (s < R)%nat) by (pose proof (Nat.div_lt R 2 ltac:(lia) ltac:(lia)); unfold s; lia).
  assert (Hnext : forall j, next (Z.of_nat s) (j * s mod R)%nat = ((j + 1) * s mod R)%nat).
  { intros j; pose proof (Nat.mod_upper_bound (j * s) R ltac:(lia)); unfold wander_next, u64.
    rewrite wrap_id by (unfold word; lia); rewrite <- Nat2Z.inj_add, <- Nat2Z.inj_mod, Nat2Z.id.
    rewrite Nat.Div0.add_mod_idemp_l; f_equal; lia. }
  set (k := (R / Nat.gcd s R)%nat).
  assert (Hk : (0 < k)%nat).
  { apply Nat.div_str_pos; destruct (Nat.gcd_divide_r s R) as [x Hx]; split.
    - destruct (Nat.gcd s R); lia.
    - destruct x; lia. }
  cut (forall m i, (i + m = k)%nat -> (0 < m)%nat -> visits (next (Z.of_nat s)) (i * s mod R)
    (map (fun k => k * s mod R)%nat (seq i m))).
  { intros H; specialize (H k 0%nat ltac:(lia) Hk); by rewrite Nat.mul_0_l, Nat.Div0.mod_0_l in H. }
  induction m as [|m IH]; intros i Hi Hm; [lia|]; cbn [seq map].
  destruct m as [|m].
  - apply visits_last; rewrite Hnext; replace (i + 1)%nat with k by lia; apply multiple_zero; lia.
  - apply visits_cons; rewrite Hnext.
    + apply multiple_nonzero; fold k; lia.
    + replace (i + 1)%nat with (S i) by lia; apply IH; lia.
Qed.

Lemma wander_rows_bound tau : (1 < R)%nat ->
  (length (wrapped_rows R tau) <= R)%nat /\ Forall (fun q => (q < R)%nat) (wrapped_rows R tau).
Proof.
  intros HR; unfold wrapped_rows, Lyra2Spec.wander_rows; destruct (Nat.even tau).
  - pose proof (Z.mod_pos_bound (2 ^ 64 - 1) (Z.of_nat R) ltac:(lia)) as Hc.
    cbn [length]; rewrite length_reverse, length_seq; split; [lia|].
    apply Forall_cons_2; [lia|]; apply Forall_reverse, Forall_seq; intros; lia.
  - rewrite length_map, length_seq; split.
    + assert (Hg : (1 <= Nat.gcd (R / 2 - 1) R)%nat)
        by (destruct (Nat.gcd_divide_r (R / 2 - 1) R) as [x Hx]; destruct (Nat.gcd _ R); lia).
      apply Nat.Div0.div_le_upper_bound; nia.
    + apply Forall_fmap, Forall_seq; intros; apply Nat.mod_upper_bound; lia.
Qed.

Lemma wander_visits tau : (1 < R)%nat ->
  visits (next (wander_step (Z.of_nat tau) (Z.of_nat R))) 0 (wrapped_rows R tau).
Proof.
  intros HR; unfold wander_step.
  assert (Hpar : (Z.of_nat tau mod 2 =? 0) = Nat.even tau).
  { destruct (Nat.Even_or_Odd tau) as [[k ->]|[k ->]].
    - rewrite Nat.even_even, Nat2Z.inj_mul, Z.mul_comm, Z.mod_mul by lia; done.
    - rewrite Nat.even_odd; apply Z.eqb_neq.
      replace (Z.of_nat (2 * k + 1)) with (1 + Z.of_nat k * 2) by lia; rewrite Z_mod_plus_full; done. }
  rewrite Hpar; unfold wrapped_rows, Lyra2Spec.wander_rows; destruct (Nat.even tau); [by apply visits_even|].
  replace (i64 (u64 (Z.of_nat R / 2 - 1))) with (Z.of_nat (R / 2 - 1)); [by apply visits_odd|].
  pose proof (Nat.Div0.div_le_mono 2 R 2 ltac:(lia)) as H1; change (2 / 2)%nat with 1%nat in H1.
  replace (Z.of_nat R / 2 - 1) with (Z.of_nat (R / 2 - 1))
    by (rewrite Nat2Z.inj_sub, (Nat2Z.inj_div R 2) by lia; done).
  assert (Z.of_nat (R / 2 - 1) < 2 ^ 62) by (pose proof (Nat.div_lt R 2 ltac:(lia) ltac:(lia)); lia).
  unfold u64, i64; rewrite wrap_id by (unfold word; lia); rewrite Z.mod_small by lia; lia.
Qed.

Lemma wander_spec T p a s mem M : (1 < R)%nat -> (p < R)%nat -> (a < R)%nat ->
  related n (fun _ => True) (s, mem) (s, M) ->
  exists s' mem' M' p' a', wander ptrs T R C (Z.of_nat p) (Z.of_nat a) s mem =
      Some (0, Z.of_nat p', Z.of_nat a', s', mem') /\
    Lyra2Spec.wander C wrapped_rows R T (s, M, p, a) = (s', M', p', a') /\
    related n (fun _ => True) (s', mem') (s', M') /\ (a' < R)%nat.
Proof.
  intros HR Hp Ha Hrel; unfold wander, Lyra2Spec.wander.
  destruct (for_rangeM_sim (fun _ '(r, p, a, s, mem) '(s', M', p', a') =>
      r = 0 /\ p = Z.of_nat p' /\ a = Z.of_nat a' /\ s = s' /\ (p' < R)%nat /\ (a' < R)%nat /\
      related n (fun _ => True) (s, mem) (s', M')) 1 (T + 1)
    (fun tau '(row, prev, rowa, state, mem) =>
      wander_loop R ptrs R C (wander_step (Z.of_nat tau) (Z.of_nat R)) row prev rowa state mem)
    (fun tau st => fold_left (Lyra2Spec.wander_visit C R) (wrapped_rows R tau) st)
    (0, Z.of_nat p, Z.of_nat a, s, mem) (s, M, p, a)) as ([[[[r' p1] a1] s1] m1] & -> & H); [lia|by split_and!| |].
  - intros tau [[[[r1 p1] a1] s1] m1] [[[s2 M2] p2] a2] Ht (-> & -> & -> & -> & Hp2 & Ha2 & Hr2).
    destruct (wander_rows_bound tau HR) as [Hlen Hall].
    destruct (wander_loop_spec _ 0 _ (wander_visits tau HR) ltac:(lia) Hall R p2 (Z.of_nat a2) s2 m1 M2)
      as (s' & m' & M' & p' & a' & He & Hf & Hr' & Hp' & Ha'); [done..|].
    rewrite Nat2Z.id in Hf; eexists; split; [exact He|]; rewrite Hf; by split_and!.
  - destruct (for_range 1 (T + 1) _ _) as [[[s2 M2] p2] a2]; destruct H as (-> & -> & -> & -> & _ & Ha2 & Hr2).
    by exists s2, m1, M2, p2, a2.
Qed.

End Loops.
