(* ===== verification/SpongePerm.v ===== *)
(** The permutation of the sponge has an inverse. *)

From S2P Require Import Prelude Sponge.

(** A sponge state: sixteen 64-bit words. *)
Definition state_ok (v : list Z) : Prop := length v = 16%nat /\ words 64 v.

(** ** The inverse, step by step backwards *)

Definition rotl64 (w c : Z) : Z := rotr64 w (64 - c).

Definition G_inv (s : Z * Z * Z * Z) : Z * Z * Z * Z :=
  let '(a, b, c, d) := s in
  let b := Z.lxor (rotl64 b 63) c in
  let c := u64 (c - d) in
  let d := Z.lxor (rotl64 d 16) a in
  let a := u64 (a - b) in
  let b := Z.lxor (rotl64 b 24) c in
  let c := u64 (c - d) in
  let d := Z.lxor (rotl64 d 32) a in
  let a := u64 (a - b) in
  (a, b, c, d).

Definition G_inv_at (a b c d : nat) (v : list Z) : list Z :=
  let '(va, vb, vc, vd) := G_inv (v !!! a, v !!! b, v !!! c, v !!! d) in
  <[d := vd]> (<[c := vc]> (<[b := vb]> (<[a := va]> v))).

Definition ROUND_LYRA_inv (v : list Z) : list Z :=
  let v := G_inv_at 3 4 9 14 v in
  let v := G_inv_at 2 7 8 13 v in
  let v := G_inv_at 1 6 11 12 v in
  let v := G_inv_at 0 5 10 15 v in
  let v := G_inv_at 3 7 11 15 v in
  let v := G_inv_at 2 6 10 14 v in
  let v := G_inv_at 1 5 9 13 v in
  G_inv_at 0 4 8 12 v.

Definition blake2bLyra_inv (v : list Z) : list Z := Nat.iter 12 ROUND_LYRA_inv v.

(** ** Rotations *)

Lemma rotr64_word w c : word 64 (rotr64 w c).
Proof. apply u64_word. Qed.

Lemma rotr64_bit w c i : word 64 w -> 0 < c < 64 -> 0 <= i < 64 ->
  Z.testbit (rotr64 w c) i = Z.testbit w ((i + c) mod 64).
Proof.
  intros Hw Hc Hi; unfold rotr64, u64; rewrite testbit_wrap, Z.lor_spec, Z.shiftr_spec by lia.
  destruct (Z.lt_ge_cases (i + c) 64).
  - rewrite Z.mod_small, Z.shiftl_spec_low, orb_false_r by lia; done.
  - rewrite (testbit_word 64 w (i + c)), Z.shiftl_spec by (done || lia); simpl; f_equal.
    apply (Z.mod_unique _ _ 1); lia.
Qed.

Lemma rotr64_rotr64 w c : word 64 w -> 0 < c < 64 -> rotr64 (rotr64 w c) (64 - c) = w.
Proof.
  intros Hw Hc; apply (word_eq_bits 64); [apply rotr64_word|done|lia|]; intros i Hi.
  rewrite !rotr64_bit; [|done|lia| |apply rotr64_word|lia|lia].
  - rewrite Zplus_mod_idemp_l; f_equal; replace (i + (64 - c) + c) with (i + 1 * 64) by lia.
    rewrite Z_mod_plus_full; apply Z.mod_small; lia.
  - apply Z.mod_pos_bound; lia.
Qed.

Lemma rotl64_rotr64 w c : word 64 w -> 0 < c < 64 -> rotl64 (rotr64 w c) c = w.
Proof. apply rotr64_rotr64. Qed.

Lemma rotr64_rotl64 w c : word 64 w -> 0 < c < 64 -> rotr64 (rotl64 w c) c = w.
Proof.
  intros Hw Hc; unfold rotl64; pose proof (rotr64_rotr64 w (64 - c) Hw ltac:(lia)) as H.
  by replace (64 - (64 - c)) with c in H by lia.
Qed.

Lemma lxor_cancel x y : Z.lxor (Z.lxor x y) y = x.
Proof. by rewrite Z.lxor_assoc, Z.lxor_nilpotent, Z.lxor_0_r. Qed.

Lemma u64_add_sub x y : word 64 x -> u64 (u64 (x + y) - y) = x.
Proof. intros; unfold u64; rewrite wrap_sub_l; replace (x + y - y) with x by lia; by apply wrap_id. Qed.

Lemma u64_sub_add x y : word 64 x -> u64 (u64 (x - y) + y) = x.
Proof. intros; unfold u64; rewrite wrap_add_l; replace (x - y + y) with x by lia; by apply wrap_id. Qed.

(** ** One mixing *)

Lemma xor64 x y : word 64 x -> word 64 y -> word 64 (Z.lxor x y).
Proof. apply lxor_word; lia. Qed.

#[local] Hint Resolve u64_word rotr64_word xor64 : word_db.

(** [G] as eight assignments, each undone by one of [G_inv]. *)
Lemma G_inv_G a b c d : word 64 a -> word 64 b -> word 64 c -> word 64 d -> G_inv (G (a, b, c, d)) = (a, b, c, d).
Proof.
  intros Ha Hb Hc Hd; unfold G, G_inv.
  set (a1 := u64 (a + b)); set (d1 := rotr64 (Z.lxor d a1) 32); set (c1 := u64 (c + d1));
    set (b1 := rotr64 (Z.lxor b c1) 24); set (a2 := u64 (a1 + b1)); set (d2 := rotr64 (Z.lxor d1 a2) 16);
    set (c2 := u64 (c1 + d2)); set (b2 := rotr64 (Z.lxor b1 c2) 63).
  assert (Wa1 : word 64 a1) by apply u64_word; assert (Wd1 : word 64 d1) by apply u64_word.
  assert (Wc1 : word 64 c1) by apply u64_word; assert (Wb1 : word 64 b1) by apply u64_word.
  assert (Wa2 : word 64 a2) by apply u64_word; assert (Wd2 : word 64 d2) by apply u64_word.
  assert (Wc2 : word 64 c2) by apply u64_word.
  assert (E1 : Z.lxor (rotl64 b2 63) c2 = b1) by (unfold b2; rewrite rotl64_rotr64 by (auto with word_db || lia); apply lxor_cancel).
  assert (E2 : u64 (c2 - d2) = c1) by (by apply u64_add_sub).
  assert (E3 : Z.lxor (rotl64 d2 16) a2 = d1) by (unfold d2; rewrite rotl64_rotr64 by (auto with word_db || lia); apply lxor_cancel).
  assert (E4 : u64 (a2 - b1) = a1) by (by apply u64_add_sub).
  assert (E5 : Z.lxor (rotl64 b1 24) c1 = b) by (unfold b1; rewrite rotl64_rotr64 by (auto with word_db || lia); apply lxor_cancel).
  assert (E6 : u64 (c1 - d1) = c) by (by apply u64_add_sub).
  assert (E7 : Z.lxor (rotl64 d1 32) a1 = d) by (unfold d1; rewrite rotl64_rotr64 by (auto with word_db || lia); apply lxor_cancel).
  assert (E8 : u64 (a1 - b) = a) by (by apply u64_add_sub).
  by rewrite E1, E2, E3, E4, E5, E6, E7, E8.
Qed.

Lemma G_G_inv a b c d : word 64 a -> word 64 b -> word 64 c -> word 64 d -> G (G_inv (a, b, c, d)) = (a, b, c, d).
Proof.
  intros Ha Hb Hc Hd; unfold G, G_inv.
  set (b1 := Z.lxor (rotl64 b 63) c); set (c1 := u64 (c - d)); set (d1 := Z.lxor (rotl64 d 16) a);
    set (a1 := u64 (a - b1)); set (b2 := Z.lxor (rotl64 b1 24) c1); set (c2 := u64 (c1 - d1));
    set (d2 := Z.lxor (rotl64 d1 32) a1); set (a2 := u64 (a1 - b2)).
  assert (Wb1 : word 64 b1) by (apply xor64; [apply rotr64_word|done]).
  assert (Wc1 : word 64 c1) by apply u64_word.
  assert (Wd1 : word 64 d1) by (apply xor64; [apply rotr64_word|done]).
  assert (Wa1 : word 64 a1) by apply u64_word.
  assert (E1 : u64 (a2 + b2) = a1) by (by apply u64_sub_add).
  assert (E2 : rotr64 (Z.lxor d2 a1) 32 = d1)
    by (unfold d2; rewrite lxor_cancel; apply rotr64_rotl64; [done|lia]).
  assert (E3 : u64 (c2 + d1) = c1) by (by apply u64_sub_add).
  assert (E4 : rotr64 (Z.lxor b2 c1) 24 = b1)
    by (unfold b2; rewrite lxor_cancel; apply rotr64_rotl64; [done|lia]).
  assert (E5 : u64 (a1 + b1) = a) by (by apply u64_sub_add).
  assert (E6 : rotr64 (Z.lxor d1 a) 16 = d)
    by (unfold d1; rewrite lxor_cancel; apply rotr64_rotl64; [done|lia]).
  assert (E7 : u64 (c1 + d) = c) by (by apply u64_sub_add).
  assert (E8 : rotr64 (Z.lxor b1 c) 63 = b)
    by (unfold b1; rewrite lxor_cancel; apply rotr64_rotl64; [done|lia]).
  by rewrite E1, E2, E3, E4, E5, E6, E7, E8.
Qed.

Definition words4 (s : Z * Z * Z * Z) : Prop :=
  let '(a, b, c, d) := s in word 64 a /\ word 64 b /\ word 64 c /\ word 64 d.

Lemma G_words4 a b c d : words4 (G (a, b, c, d)).
Proof. unfold G, words4; split_and!; apply u64_word. Qed.

Lemma G_inv_words4 a b c d : word 64 a -> word 64 b -> word 64 c -> word 64 d -> words4 (G_inv (a, b, c, d)).
Proof. intros; unfold G_inv, words4; split_and!; repeat (apply u64_word || apply xor64 || apply rotr64_word || done). Qed.

(** ** Four words of a state *)

Definition insert4 (a b c d : nat) (w : Z * Z * Z * Z) (v : list Z) : list Z :=
  let '(wa, wb, wc, wd) := w in <[d := wd]> (<[c := wc]> (<[b := wb]> (<[a := wa]> v))).
Definition lookup4 (a b c d : nat) (v : list Z) : Z * Z * Z * Z := (v !!! a, v !!! b, v !!! c, v !!! d).

Section Four.
Context (a b c d : nat) (Ha : (a < 16)%nat) (Hb : (b < 16)%nat) (Hc : (c < 16)%nat) (Hd : (d < 16)%nat)
  (Hdistinct : NoDup [a; b; c; d]).

Lemma four_distinct : a <> b /\ a <> c /\ a <> d /\ b <> c /\ b <> d /\ c <> d.
Proof.
  assert (Hne : forall i j x, [a; b; c; d] !! i = Some x -> [a; b; c; d] !! j = Some x -> i = j) by (intros; by eapply NoDup_lookup).
  split_and!; intros Heq;
    [pose proof (Hne 0 1 b)%nat|pose proof (Hne 0 2 c)%nat|pose proof (Hne 0 3 d)%nat
    |pose proof (Hne 1 2 c)%nat|pose proof (Hne 1 3 d)%nat|pose proof (Hne 2 3 d)%nat]; simpl in *; naive_solver.
Qed.

Lemma length_insert4 w v : length (insert4 a b c d w v) = length v.
Proof. destruct w as [[[wa wb] wc] wd]; unfold insert4; by rewrite !length_insert. Qed.

Lemma lookup_insert4 w v : length v = 16%nat -> lookup4 a b c d (insert4 a b c d w v) = w.
Proof.
  destruct four_distinct as (? & ? & ? & ? & ? & ?); intros Hv; destruct w as [[[wa wb] wc] wd]; unfold lookup4, insert4.
  rewrite (list_lookup_total_insert_eq _ d), (list_lookup_total_insert_ne _ d c), (list_lookup_total_insert_eq _ c),
    (list_lookup_total_insert_ne _ d b), (list_lookup_total_insert_ne _ c b), (list_lookup_total_insert_eq _ b),
    (list_lookup_total_insert_ne _ d a), (list_lookup_total_insert_ne _ c a), (list_lookup_total_insert_ne _ b a),
    list_lookup_total_insert_eq by (rewrite ?length_insert; lia); done.
Qed.

Lemma insert_insert4 w v : length v = 16%nat ->
  insert4 a b c d (lookup4 a b c d v) (insert4 a b c d w v) = v.
Proof.
  destruct four_distinct as (? & ? & ? & ? & ? & ?); intros Hv; destruct w as [[[wa wb] wc] wd]; unfold lookup4, insert4.
  apply list_eq; intros i; rewrite !list_lookup_insert, !length_insert, Hv.
  repeat case_decide; destruct_and?; simplify_eq; try done; try lia; symmetry; apply list_lookup_lookup_total_lt; lia.
Qed.

Lemma insert4_ok w v : state_ok v -> words4 w -> state_ok (insert4 a b c d w v).
Proof.
  intros [Hv Hw] H4; split; [by rewrite length_insert4|].
  destruct w as [[[wa wb] wc] wd]; destruct H4 as (? & ? & ? & ?); unfold insert4; by repeat apply Forall_insert.
Qed.

Lemma lookup4_words v : state_ok v -> word 64 (v !!! a) /\ word 64 (v !!! b) /\ word 64 (v !!! c) /\ word 64 (v !!! d).
Proof.
  intros [Hv Hw]; unfold words in Hw; rewrite Forall_lookup in Hw.
  split_and!; eapply Hw; apply list_lookup_lookup_total_lt; lia.
Qed.

End Four.

(** ** The permutation *)

(** [g] undoes [f] and [f] undoes [g] on sponge states. *)
Definition inverse_on (f g : list Z -> list Z) : Prop :=
  forall v, state_ok v -> state_ok (f v) /\ state_ok (g v) /\ g (f v) = v /\ f (g v) = v.

Lemma inverse_compose f g f' g' : inverse_on f g -> inverse_on f' g' ->
  inverse_on (fun v => f' (f v)) (fun v => g (g' v)).
Proof.
  intros H H' v Hv; destruct (H v Hv) as (Hf & _ & Hgf & _); destruct (H' v Hv) as (_ & Hg' & _ & Hfg').
  destruct (H' (f v) Hf) as (Hff & _ & E1 & _); destruct (H (g' v) Hg') as (_ & Hgg & _ & E2).
  split_and!; [done..| |]; [by rewrite E1|by rewrite E2].
Qed.

Lemma G_at_inverse a b c d : (a < 16)%nat -> (b < 16)%nat -> (c < 16)%nat -> (d < 16)%nat -> NoDup [a; b; c; d] ->
  inverse_on (G_at a b c d) (G_inv_at a b c d).
Proof.
  intros Ha Hb Hc Hd HN v Hv; pose proof Hv as [Hl _].
  destruct (lookup4_words a b c d Ha Hb Hc Hd v Hv) as (Wa & Wb & Wc & Wd).
  assert (EG : forall u, G_at a b c d u = insert4 a b c d (G (lookup4 a b c d u)) u) by done.
  assert (EI : forall u, G_inv_at a b c d u = insert4 a b c d (G_inv (lookup4 a b c d u)) u) by done.
  rewrite !EG, !EI, !lookup_insert4 by done.
  split_and!; [apply insert4_ok; [done|apply G_words4]|apply insert4_ok; [done|by apply G_inv_words4]| |].
  - unfold lookup4 at 1; rewrite G_inv_G by done; by apply insert_insert4.
  - unfold lookup4 at 1; rewrite G_G_inv by done; by apply insert_insert4.
Qed.

(** Composition in the order the assignments are written. *)
Fixpoint compose_all (fs : list (list Z -> list Z)) (v : list Z) : list Z :=
  match fs with [] => v | f :: fs => compose_all fs (f v) end.

Lemma compose_app fs gs v : compose_all (fs ++ gs) v = compose_all gs (compose_all fs v).
Proof. revert v; induction fs; intros v; simpl; auto. Qed.

Lemma compose_inverse fs gs : Forall2 inverse_on fs gs -> inverse_on (compose_all fs) (compose_all (reverse gs)).
Proof.
  induction 1 as [|f g fs gs Hfg _ IH]; [by intros v Hv|].
  intros v Hv; destruct (inverse_compose _ _ _ _ Hfg IH v Hv) as (H1 & H2 & H3 & H4).
  rewrite reverse_cons; cbn [compose_all]; rewrite !compose_app; done.
Qed.

Definition columns_diagonals : list (nat * nat * nat * nat) :=
  [(0, 4, 8, 12); (1, 5, 9, 13); (2, 6, 10, 14); (3, 7, 11, 15);
   (0, 5, 10, 15); (1, 6, 11, 12); (2, 7, 8, 13); (3, 4, 9, 14)]%nat.

#[local] Opaque G_at G_inv_at.

Lemma ROUND_LYRA_compose v :
  ROUND_LYRA v = compose_all (map (fun '(a, b, c, d) => G_at a b c d) columns_diagonals) v /\
  ROUND_LYRA_inv v = compose_all (reverse (map (fun '(a, b, c, d) => G_inv_at a b c d) columns_diagonals)) v.
Proof. split; reflexivity. Qed.

Lemma ROUND_LYRA_inverse : inverse_on ROUND_LYRA ROUND_LYRA_inv.
Proof.
  intros v Hv; rewrite !(proj1 (ROUND_LYRA_compose _)), !(proj2 (ROUND_LYRA_compose _)); revert v Hv.
  apply compose_inverse; unfold columns_diagonals; cbn [map].
  repeat (apply List.Forall2_cons; [apply G_at_inverse; [lia..|by apply (bool_decide_unpack _)]|]); apply List.Forall2_nil.
Qed.

#[local] Opaque ROUND_LYRA ROUND_LYRA_inv.

Lemma blake2bLyra_inverse : inverse_on blake2bLyra blake2bLyra_inv.
Proof.
  assert (E : forall v, blake2bLyra v = compose_all (replicate 12 ROUND_LYRA) v) by reflexivity.
  assert (E' : forall v, blake2bLyra_inv v = compose_all (reverse (replicate 12 ROUND_LYRA_inv)) v) by reflexivity.
  intros v Hv; rewrite !E, !E'; revert v Hv.
  apply compose_inverse; cbn [replicate].
  repeat (apply List.Forall2_cons; [apply ROUND_LYRA_inverse|]); apply List.Forall2_nil.
Qed.
