(* ===== verification/Lyra2Theorems.v ===== *)
(** The properties of Lyra2 and Lyra2Z: the code computes the reference within
    its memory and terminates, its row schedules, the padding of the input, the
    invertibility of the permutation, and what [LYRA2_old] leaves out.

    Facts about the row schedules and the input encoding of Lyra2 that its
    theorems use: windows and passes as permutations, injectivity of padding. *)

From S2P Require Import Prelude SphBlake BlakeSpec SphBlakeTheorems Rfc7693 Sponge Lyra2 Lyra2Spec Lyra2Proofs.

(** The sizes for which the matrix fits in memory and holds the input. *)
Definition sizes_ok (pwdlen saltlen R C : nat) : Prop :=
  (3 <= R)%nat /\ 1 <= Z.of_nat C < 2 ^ 31 /\ Z.of_nat R < 2 ^ 62 /\ Z.of_nat (96 * (R * C)) < 2 ^ 63 /\
  (nBlocksInput pwdlen saltlen * 64 <= 96 * (R * C))%nat.

(** All allocations succeed. *)
Definition mallocs_ok : mallocs := Mallocs true true true.

(** ** Input *)

Lemma write_next p A x k : p = length A -> (length x <= k)%nat ->
  mem_write p x (A ++ replicate k 0) = Some ((A ++ x) ++ replicate (k - length x) 0).
Proof.
  intros -> Hk; unfold mem_write; rewrite length_app, length_replicate.
  destruct (Nat.leb_spec (length A + length x) (length A + k)); [|lia].
  by rewrite write_at_app, drop_replicate, app_assoc.
Qed.

Lemma length_basil kLen p s T R C : length (Lyra2Spec.basil kLen p s T R C) = 48%nat.
Proof. reflexivity. Qed.

(** Setting the last byte of the last block. *)
Lemma write_last d k N : (length d < N)%nat -> (N <= length d + 1 + k)%nat -> (N mod 64 = 0)%nat ->
  (N - length d <= 64)%nat ->
  (b ← mem_read (N - 1) 1 ((d ++ [0x80]) ++ replicate k 0);
   mem_write (N - 1) [Z.lxor (b !!! 0%nat) 1] ((d ++ [0x80]) ++ replicate k 0)) =
  Some (Lyra2Spec.pad101 d ++ replicate (length d + 1 + k - N) 0).
Proof.
  intros Hd HN Hmod Hlt; unfold Lyra2Spec.pad101.
  assert (Hz : (64 - length d mod 64 = N - length d)%nat).
  { apply Nat.Div0.mod_divides in Hmod as [q Hq].
    assert (length d / 64 = q - 1)%nat by (symmetry; apply (Nat.div_unique _ _ _ (length d - 64 * (q - 1))); lia).
    rewrite Nat.Div0.mod_eq; lia. }
  rewrite Hz; unfold mem_read, mem_write; rewrite !length_app, length_replicate; cbn [length].
  destruct (Nat.leb_spec (N - 1 + 1) (length d + 1 + k)); [|lia]; cbn [mbind option_bind].
  destruct (Nat.leb_spec (N - 1 + 1) (length d + 1 + k)); [|lia]; f_equal.
  destruct (Nat.eqb_spec (N - length d) 1) as [He|He].
  - unfold read_at; rewrite <- !app_assoc, drop_app_ge by lia.
    replace (N - 1 - length d)%nat with 0%nat by lia; rewrite drop_0.
    rewrite write_at_app by lia; replace (length d + 1 + k - N)%nat with k by lia.
    reflexivity.
  - unfold read_at; rewrite drop_app_ge by (rewrite length_app; simpl; lia).
    rewrite length_app; cbn [length]; rewrite drop_replicate.
    assert (Hsplit : (d ++ [0x80]) ++ replicate k 0 =
      (d ++ [0x80] ++ replicate (N - length d - 2) 0) ++ replicate (length d + k + 2 - N) 0).
    { rewrite <- !app_assoc, <- replicate_add; do 4 f_equal; lia. }
    rewrite Hsplit, write_at_app by (rewrite !length_app, length_replicate; simpl; lia).
    assert (Hb : (take 1 (replicate (k - (N - 1 - (length d + 1))) 0)) !!! 0%nat = 0)
      by (destruct (k - (N - 1 - (length d + 1)))%nat eqn:E; [lia|done]).
    rewrite Hb; cbn [length]; rewrite drop_replicate, <- !app_assoc; do 5 f_equal; lia.
Qed.

Lemma blocks_multiple p s : let d := (p + s + 48)%nat in let N := (nBlocksInput p s * 64)%nat in
  (d < N)%nat /\ (N mod 64 = 0)%nat /\ (N - d <= 64)%nat.
Proof.
  intros d N; unfold N, nBlocksInput, BLOCK_LEN_BLAKE2_SAFE_BYTES; replace (s + p + 6 * 8)%nat with d by (unfold d; lia).
  pose proof (Nat.div_mod d 64 ltac:(lia)); pose proof (Nat.mod_upper_bound d 64 ltac:(lia)).
  rewrite Nat.Div0.mod_mul; lia.
Qed.

Lemma write_input_spec kLen pwd salt T R C size :
  (nBlocksInput (length pwd) (length salt) * 64 <= size)%nat ->
  write_input (Z.of_nat kLen) pwd salt (Z.of_nat T) (Z.of_nat R) (Z.of_nat C) (replicate size 0) =
  Some (Lyra2Spec.input kLen pwd salt T R C ++
    replicate (size - nBlocksInput (length pwd) (length salt) * 64) 0).
Proof.
  intros HN; destruct (blocks_multiple (length pwd) (length salt)) as (Hd & Hmod & Hlt).
  unfold write_input, BLOCK_LEN_BLAKE2_SAFE_BYTES; set (N := (nBlocksInput _ _ * 64)%nat) in *.
  change (replicate size 0) with ([] ++ replicate size 0).
  rewrite write_next by (rewrite ?length_replicate; (done || lia)); cbn [mbind option_bind].
  rewrite length_replicate, app_nil_l, <- replicate_add; replace (N + (size - N))%nat with size by lia.
  change (replicate size 0) with ([] ++ replicate size 0).
  do 9 (rewrite write_next by (rewrite ?length_app, ?length_le_bytes; simpl; lia); cbn [mbind option_bind]).
  rewrite !length_le_bytes.
  assert (Hdata : ((((((((([] ++ pwd) ++ salt) ++ le_bytes 8 (Z.of_nat kLen)) ++ le_bytes 8 (Z.of_nat (length pwd))) ++
    le_bytes 8 (Z.of_nat (length salt))) ++ le_bytes 8 (Z.of_nat T)) ++ le_bytes 8 (Z.of_nat R)) ++ le_bytes 8 (Z.of_nat C))) =
    pwd ++ salt ++ Lyra2Spec.basil kLen (length pwd) (length salt) T R C).
  { unfold Lyra2Spec.basil; cbn [map concat]; by rewrite app_nil_l, app_nil_r, <- !app_assoc. }
  rewrite Hdata; set (d := pwd ++ salt ++ _).
  assert (Hld : length d = (length pwd + length salt + 48)%nat) by (unfold d; rewrite !length_app, length_basil; lia).
  rewrite write_last by (rewrite ?Hld; cbn [length]; lia); do 3 f_equal; rewrite Hld; cbn [length]; lia.
Qed.

Lemma length_pad101 d : exists q, length (Lyra2Spec.pad101 d) = (64 * q)%nat /\ q = (length d / 64 + 1)%nat.
Proof.
  exists (length d / 64 + 1)%nat; split; [|done]; unfold Lyra2Spec.pad101.
  pose proof (Nat.div_mod (length d) 64 ltac:(lia)); pose proof (Nat.mod_upper_bound (length d) 64 ltac:(lia)).
  destruct (Nat.eqb_spec (64 - length d mod 64) 1); rewrite !length_app, ?length_replicate; cbn [length]; lia.
Qed.

Lemma length_input kLen pwd salt T R C :
  length (Lyra2Spec.input kLen pwd salt T R C) = (64 * nBlocksInput (length pwd) (length salt))%nat.
Proof.
  unfold Lyra2Spec.input; destruct (length_pad101 (pwd ++ salt ++ Lyra2Spec.basil kLen (length pwd) (length salt) T R C))
    as (q & -> & ->); rewrite !length_app, length_basil; unfold nBlocksInput, BLOCK_LEN_BLAKE2_SAFE_BYTES.
  do 3 f_equal; lia.
Qed.

#[local] Opaque Lyra2Spec.f Lyra2Spec.f_reduced blake2bLyra ROUND_LYRA.

(** ** Absorbing *)

Lemma read_words n m i k : (i + k <= n)%nat ->
  mem_read i k (words_of_bytes n m) = Some (map (fun j => le_word (read_at (8 * (i + j)) 8 m)) (seq 0 k)).
Proof.
  intros Hi; unfold mem_read, words_of_bytes; rewrite length_map, length_seq.
  destruct (Nat.leb_spec (i + k) n); [|lia]; f_equal; unfold read_at.
  replace n with (i + (k + (n - i - k)))%nat by lia; rewrite !seq_app, !map_app.
  rewrite drop_app_ge by (rewrite length_map, length_seq; lia).
  rewrite length_map, length_seq, Nat.sub_diag, drop_0, take_app_le, take_ge
    by (rewrite length_map, length_seq; lia).
  transitivity (map (fun x => le_word (read_at (8 * x) 8 m)) (map (Nat.add i) (seq 0 k))); [|by rewrite map_map].
  f_equal; change (map (Nat.add i)) with (fmap (M := list) (Nat.add i)); rewrite fmap_add_seq; f_equal; lia.
Qed.

Lemma absorb_input_spec kLen pwd salt T R C rest n s :
  let d := Lyra2Spec.input kLen pwd salt T R C in
  (length d <= 8 * n)%nat -> length s = 16%nat ->
  absorb_input BLOCK_LEN_BLAKE2_SAFE_INT64 (nBlocksInput (length pwd) (length salt)) s
    (words_of_bytes n (d ++ rest)) = Some (Lyra2Spec.absorb_all d s) /\ length (Lyra2Spec.absorb_all d s) = 16%nat.
Proof.
  intros d Hn Hs; pose proof (length_input kLen pwd salt T R C) as Hd; fold d in Hd.
  unfold absorb_input, Lyra2Spec.absorb_all; rewrite Hd, Nat.mul_comm, Nat.div_mul by lia.
  destruct (for_rangeM_sim (fun _ x y => x = y /\ length y = 16%nat) 0 (nBlocksInput (length pwd) (length salt))
    (fun i state => absorbBlockBlake2Safe state (words_of_bytes n (d ++ rest)) (i * BLOCK_LEN_BLAKE2_SAFE_INT64))
    (fun i s => Lyra2Spec.f (Lyra2Spec.absorb (Lyra2Spec.block_words i d) s)) s s) as (s' & -> & -> & Hl); [lia|done| |done].
  intros i x y Hi [-> Hy]; unfold absorbBlockBlake2Safe, BLOCK_LEN_BLAKE2_SAFE_INT64.
  rewrite read_words by lia; cbn [mbind option_bind]; rewrite blake2bLyra_spec.
  eexists; split; [reflexivity|]; split; [|rewrite length_f, length_absorb; exact Hy].
  assert (Hw : map (fun j => le_word (read_at (8 * (i * 8 + j)) 8 (d ++ rest))) (seq 0 8) =
    map (fun j => le_word (read_at (64 * i + 8 * j) 8 d)) (seq 0 8)); [|rewrite Hw; reflexivity].
  apply map_ext_in; intros j Hj; apply in_seq in Hj; f_equal; unfold read_at.
  rewrite drop_app_le, take_app_le by (rewrite ?length_drop; lia); do 2 f_equal; lia.
Qed.

(** ** Squeezing *)

Lemma squeeze_spec len s : snd (squeeze s len) = Lyra2Spec.squeeze (len / 96 + 1) s len.
Proof.
  unfold squeeze, BLOCK_LEN_BYTES.
  assert (Hgen : forall n s out, (let '(state, out) := for_range 0 n (fun _ '(state, out) =>
      (blake2bLyra state, out ++ take 96 (state_bytes state))) (s, out) in
    out ++ take (len mod 96) (state_bytes state)) =
    out ++ Lyra2Spec.squeeze (n + 1) s (96 * n + len mod 96)).
  { induction n as [|n IH]; intros t out.
    - rewrite for_range_empty; cbn [Nat.add Lyra2Spec.squeeze].
      rewrite Nat.mul_0_r, Nat.add_0_l, Nat.min_l, app_nil_r
        by (pose proof (Nat.mod_upper_bound len 96 ltac:(lia)); lia); done.
    - rewrite (for_range_first 0) by lia; cbn [Nat.add Lyra2Spec.squeeze].
      replace (S n) with (n + 1)%nat by lia; change 1%nat with (0 + 1)%nat at 1.
      rewrite for_range_shift, IH, <- app_assoc, blake2bLyra_spec; f_equal.
      rewrite Nat.min_r by lia; do 2 f_equal; lia. }
  pose proof (Hgen (len / 96)%nat s []) as H; rewrite !app_nil_l, <- Nat.div_mod in H by lia.
  rewrite <- H; by destruct (for_range 0 (len / 96) _ _).
Qed.

Lemma length_squeeze n : forall s len, length s = 16%nat -> (len <= 96 * n)%nat ->
  length (Lyra2Spec.squeeze n s len) = len.
Proof.
  induction n as [|n IH]; intros s len Hs Hl; cbn [Lyra2Spec.squeeze]; [simpl; lia|].
  assert (Hb : length (concat (map (le_bytes 8) s)) = 128%nat).
  { do 17 (destruct s as [|? s]; try discriminate); reflexivity. }
  rewrite length_app, length_take, Hb, IH by (rewrite ?length_f; lia); lia.
Qed.

(** ** The whole function *)

Lemma split_blocks n : forall l : list Z, length l = (12 * n)%nat -> exists M, l = concat M /\ blocks_ok n M.
Proof.
  induction n as [|n IH]; intros l Hl.
  { exists []; split; [|by split]; destruct l; [done|simpl in Hl; lia]. }
  destruct (IH (drop 12 l)) as (M & HM & Hlen & Hok); [rewrite length_drop; lia|].
  exists (take 12 l :: M); split; [cbn [concat]; by rewrite <- HM, take_drop|].
  split; [simpl; lia|apply Forall_cons_2; [rewrite length_take; lia|done]].
Qed.

Lemma i64_id x : - 2 ^ 63 <= x < 2 ^ 63 -> i64 x = x.
Proof. intros; unfold i64; rewrite Z.mod_small by lia; lia. Qed.

Lemma matrix_bytes_spec R C : (1 <= R)%nat -> (1 <= C)%nat -> Z.of_nat (96 * (R * C)) < 2 ^ 63 ->
  u64 (matrix_bytes (Z.of_nat R) (Z.of_nat C)) = Z.of_nat (96 * (R * C)).
Proof.
  intros HR HC H; unfold matrix_bytes, BLOCK_LEN_INT64.
  assert (Z.of_nat R <= Z.of_nat (R * C)) by nia; assert (Z.of_nat C <= Z.of_nat (R * C)) by nia.
  change (Z.of_nat 12) with 12; rewrite (i64_id (12 * Z.of_nat C)), (i64_id (12 * Z.of_nat C * 8)), (i64_id (Z.of_nat R)) by lia.
  rewrite i64_id by nia; unfold u64; rewrite wrap_id by (unfold word; nia); lia.
Qed.

(** Everything after the absorbing of the input. *)
Definition phases (kLen T R C : nat) (s : list Z) : list Z :=
  let st := Lyra2Spec.squeeze_row C 0 (s, replicate (R * C) (replicate 12 0)) in
  let st := Lyra2Spec.duplex_row1 C 0 1 st in
  let '(s, M) := Lyra2Spec.setup C R st in
  let '(s, M, _, a) := Lyra2Spec.wander C wrapped_rows R T (s, M, R - 1, Lyra2Spec.row_star R)%nat in
  Lyra2Spec.squeeze (kLen / 96 + 1) (Lyra2Spec.f (Lyra2Spec.absorb (M !!! Lyra2Spec.cell C a 0) s)) kLen.

(** Setup and wandering from any contents of the matrix. *)
Lemma phases_spec kLen T R C s mem :
  (3 <= R)%nat -> (1 <= C)%nat -> Z.of_nat R < 2 ^ 62 -> length s = 16%nat -> length mem = (12 * (R * C))%nat ->
  (row0 ← memMatrix_at (row_pointers R C) 0;
   '(state, mem) ← reducedSqueezeRow0 s mem row0 C;
   row1 ← memMatrix_at (row_pointers R C) 1;
   '(state, mem) ← reducedDuplexRow1 state mem row0 row1 C;
   '(v, state, mem) ← setup_loop R (row_pointers R C) R C setup_start state mem;
   '(_, _, rowa, state, mem) ← wander (row_pointers R C) T R C v.(prev) v.(rowa) state mem;
   rRowa ← memMatrix_at (row_pointers R C) rowa;
   state ← absorbBlock state mem rRowa;
   let '(_, K) := squeeze state kLen in Some (0, K)) = Some (0, phases kLen T R C s) /\
  length (phases kLen T R C s) = kLen.
Proof.
  intros HR HC HRb Hs Hm; unfold phases; destruct (split_blocks (R * C) mem Hm) as (M' & -> & HM').
  set (M0 := replicate (R * C) (replicate 12 0)).
  assert (H0 : related (R * C) (filled C 0 0) (s, concat M') (s, M0)).
  { exists M'; split_and!; try done; [split; [apply length_replicate|by apply Forall_replicate]|].
    intros k _ Hk; unfold filled in Hk; lia. }
  pose proof (row_pointer R C 0 ltac:(lia)) as P0; pose proof (row_pointer R C 1 ltac:(lia)) as P1.
  change (Z.of_nat 0) with 0 in P0; change (Z.of_nat 1) with 1 in P1; rewrite P0, P1; cbn [mbind option_bind].
  destruct (squeeze_row_spec R C 0 s (concat M') M0) as ([s1 m1] & -> & H1); [lia|done|]; cbn [mbind option_bind].
  destruct (Lyra2Spec.squeeze_row C 0 (s, M0)) as [s1' M1]; destruct (related_eq _ _ _ _ _ H1) as [E1 _]; cbn in E1; subst s1'.
  destruct (duplex_row1_spec R C 0 1 s1 m1 M1) as ([s2 m2] & -> & H2); [lia| |cbn [mbind option_bind]].
  { eapply related_mono; [exact H1|]; intros k; apply (filled_row C 0). }
  destruct (Lyra2Spec.duplex_row1 C 0 1 (s1, M1)) as [s2' M2]; destruct (related_eq _ _ _ _ _ H2) as [E2 _]; cbn in E2; subst s2'.
  change setup_start with (setup_at 2).
  destruct (setup_loop_spec R C HRb R 2 s2 m2 M2) as (s3 & m3 & -> & H3); [lia|lia| |cbn [mbind option_bind]].
  { eapply related_mono; [exact H2|]; intros k; apply (filled_row C 1). }
  fold (Lyra2Spec.setup C R (s2, M2)) in H3; destruct (Lyra2Spec.setup C R (s2, M2)) as [s3' M3].
  destruct (related_eq _ _ _ _ _ H3) as [E3 _]; cbn in E3; subst s3'.
  assert (H3' : related (R * C) (fun _ => True) (s3, m3) (s3, M3)).
  { destruct H3 as (M3' & ? & ? & ? & ? & ? & Hag); exists M3'; split_and!; try done.
    intros k Hk _; apply Hag; [done|by left]. }
  replace (prev (setup_at R)) with (Z.of_nat (R - 1)) by (cbn; lia).
  change (rowa (setup_at R)) with (Z.of_nat (Lyra2Spec.row_star R)).
  destruct (wander_spec R C HRb T (R - 1) (Lyra2Spec.row_star R) s3 m3 M3)
    as (s4 & m4 & M4 & p4 & a4 & -> & -> & H4 & Ha4); [lia|lia| |done|cbn [mbind option_bind]].
  { pose proof (row_star_bound R ltac:(lia)); lia. }
  rewrite row_pointer by lia; cbn [mbind option_bind]; unfold absorbBlock.
  assert (Hc : (Lyra2Spec.cell C a4 0 < R * C)%nat) by (apply matrix_cell_bound; lia).
  replace (a4 * (BLOCK_LEN_INT64 * C))%nat with (12 * Lyra2Spec.cell C a4 0)%nat
    by (unfold BLOCK_LEN_INT64, Lyra2Spec.cell; lia).
  destruct (related_read _ _ s4 m4 M4 _ H4 Hc I) as [Hread _]; change BLOCK_LEN_INT64 with 12%nat; rewrite Hread.
  cbn [mbind option_bind]; rewrite blake2bLyra_spec; split.
  - rewrite <- squeeze_spec; unfold xor_prefix, Lyra2Spec.absorb.
    destruct (squeeze _ kLen) as [st K]; reflexivity.
  - pose proof (Nat.div_mod kLen 96 ltac:(lia)); pose proof (Nat.mod_upper_bound kLen 96 ltac:(lia)).
    destruct (related_eq _ _ _ _ _ H4) as [_ Hl4].
    apply length_squeeze; [rewrite length_f, length_absorb; exact Hl4|lia].
Qed.

(** [LYRA2] with either stride, once the absorbing loop is known. *)
Lemma lyra2_with_spec stride kLen pwd salt T R C s : Z.of_nat kLen < 2 ^ 32 -> sizes_ok (length pwd) (length salt) R C ->
  length s = 16%nat ->
  absorb_input stride (nBlocksInput (length pwd) (length salt)) initState
    (words_of_bytes (12 * (R * C)) (Lyra2Spec.input kLen pwd salt T R C ++
      replicate (96 * (R * C) - nBlocksInput (length pwd) (length salt) * 64) 0)) = Some s ->
  lyra2_with stride mallocs_ok kLen pwd salt T R C = Some (0, phases kLen T R C s) /\
  length (phases kLen T R C s) = kLen.
Proof.
  intros Hk (HR & HC & HRb & Hsz & Hin) Hs Habs; unfold lyra2_with, mallocs_ok; 
  assert (Hu : Z.to_nat (u32 (Z.of_nat kLen)) = kLen) by (unfold u32; rewrite wrap_id by (unfold word; lia); lia); rewrite Hu; cbn [malloc_matrix malloc_rows malloc_state negb].
  rewrite matrix_bytes_spec by lia; rewrite Nat2Z.id, write_input_spec by done; cbn [mbind option_bind].
  replace (96 * (R * C) / 8)%nat with (12 * (R * C))%nat
    by (replace (96 * (R * C))%nat with (12 * (R * C) * 8)%nat by lia; by rewrite Nat.div_mul).
  rewrite Habs; cbn [mbind option_bind]; apply phases_spec; try (done || lia).
  unfold words_of_bytes; by rewrite length_map, length_seq.
Qed.

Lemma lyra2_spec kLen pwd salt T R C : Z.of_nat kLen < 2 ^ 32 -> sizes_ok (length pwd) (length salt) R C ->
  LYRA2 mallocs_ok kLen pwd salt T R C = Some (0, Lyra2Spec.lyra2_rows wrapped_rows kLen pwd salt T R C) /\
  length (Lyra2Spec.lyra2_rows wrapped_rows kLen pwd salt T R C) = kLen.
Proof.
  intros Hk Hok; pose proof Hok as (HR & HC & HRb & Hsz & Hin).
  destruct (absorb_input_spec kLen pwd salt T R C
    (replicate (96 * (R * C) - nBlocksInput (length pwd) (length salt) * 64) 0) (12 * (R * C)) initState) as [Habs Hl];
    [rewrite length_input; lia|done|].
  exact (lyra2_with_spec _ kLen pwd salt T R C _ Hk Hok Hl Habs).
Qed.

(** With the rows of the specification it is the specification. *)
Lemma lyra2_rows_spec kLen pwd salt T R C : (0 < R)%nat -> 2 ^ 64 mod Z.of_nat R = 0 \/ (T <= 1)%nat ->
  Lyra2Spec.lyra2_rows wrapped_rows kLen pwd salt T R C = Lyra2Spec.lyra2 kLen pwd salt T R C.
Proof.
  intros HR HT; assert (E : forall st, Lyra2Spec.wander C wrapped_rows R T st = Lyra2Spec.wander C Lyra2Spec.wander_rows R T st).
  { intros st; unfold Lyra2Spec.wander; apply for_range_ext; [lia|]; intros tau x Htau; rewrite wrapped_rows_spec; [done|lia|].
    destruct HT as [HT|HT]; [by left|right]; by replace tau with 1%nat by lia. }
  unfold Lyra2Spec.lyra2, Lyra2Spec.lyra2_rows; destruct (Lyra2Spec.setup C R _) as [s M]; by rewrite E.
Qed.

(** ** Multiples of an odd number *)

Lemma odd_multiples_distinct e k i j : (i < j)%nat -> (j < 2 ^ e)%nat ->
  (i * (2 * k + 1) mod 2 ^ e <> j * (2 * k + 1) mod 2 ^ e)%nat.
Proof.
  intros Hij Hj Heq; apply (odd_mul_mod e (j - i) k); [lia|].
  pose proof (pow2_nat_pos e); set (s := (2 * k + 1)%nat) in *.
  pose proof (Nat.div_mod (i * s) (2 ^ e) ltac:(lia)); pose proof (Nat.div_mod (j * s) (2 ^ e) ltac:(lia)).
  assert (i * s / 2 ^ e <= j * s / 2 ^ e)%nat by (apply Nat.Div0.div_le_mono; nia).
  replace ((j - i) * s)%nat with ((j * s / 2 ^ e - i * s / 2 ^ e) * 2 ^ e)%nat by nia.
  apply Nat.Div0.mod_mul.
Qed.

Lemma odd_multiples_perm e k : map (fun j => j * (2 * k + 1) mod 2 ^ e)%nat (seq 0 (2 ^ e)) ≡ₚ seq 0 (2 ^ e).
Proof.
  pose proof (pow2_nat_pos e); apply NoDup_seq_perm.
  - apply NoDup_map_seq; intros; apply odd_multiples_distinct; lia.
  - apply Forall_fmap, Forall_seq; intros; apply Nat.mod_upper_bound; lia.
  - by rewrite length_map, length_seq.
Qed.

(** ** Setup windows *)

Lemma iter_setup_next r : (2 <= r)%nat -> Nat.iter (r - 2) setup_next setup_start = setup_at r.
Proof.
  intros Hr; induction r as [|r IH]; [lia|]; destruct (Nat.eq_dec r 1%nat) as [->|Hr1]; [reflexivity|].
  replace (S r - 2)%nat with (S (r - 2)) by lia; cbn [Nat.iter nat_rect].
  change (nat_rect _ setup_start _ (r - 2)%nat) with (Nat.iter (r - 2) setup_next setup_start).
  rewrite IH, setup_next_at by lia; f_equal; lia.
Qed.

Lemma row_star_not_prev r : (2 <= r)%nat -> (Lyra2Spec.row_star r < r)%nat /\ Lyra2Spec.row_star r <> (r - 1)%nat.
Proof.
  intros Hr; destruct (row_star_bound r Hr); split; [lia|]; intros E.
  assert (Hr2 : r = (2 ^ Nat.log2 r)%nat) by lia.
  assert (Z0 : Lyra2Spec.row_star r = 0%nat); [|lia].
  unfold Lyra2Spec.row_star; rewrite <- Hr2, Nat.sub_diag; apply Nat.Div0.mod_0_l.
Qed.

Lemma window_perm e : (1 <= e)%nat -> map Lyra2Spec.row_star (seq (2 ^ e) (2 ^ e)) ≡ₚ seq 0 (2 ^ e).
Proof.
  intros He; destruct (setup_step_odd e He) as [k Hk]; pose proof (pow2_nat_pos e).
  assert (E : map Lyra2Spec.row_star (seq (2 ^ e) (2 ^ e)) =
    map (fun j => j * (2 * k + 1) mod 2 ^ e)%nat (seq 0 (2 ^ e))); [|rewrite E; apply odd_multiples_perm].
  apply list_eq; intros i; rewrite !list_lookup_fmap; destruct (decide (i < 2 ^ e)%nat) as [Hi|Hi].
  - rewrite !lookup_seq_lt by done; cbn [fmap option_fmap option_map]; f_equal.
    unfold Lyra2Spec.row_star; rewrite (Nat.log2_unique' (2 ^ e + i) e i) by lia; rewrite Hk; do 2 f_equal; lia.
  - by rewrite !lookup_seq_ge by lia.
Qed.

(** ** Wandering passes *)

Lemma visits_det next r l l' : visits next r l -> visits next r l' -> l = l'.
Proof.
  intros H; revert l'; induction H as [r Hz|r l Hnz Hv IH]; intros l' H'; inversion H'; subst; try done.
  f_equal; by apply IH.
Qed.

Lemma even_pass_power e : (e <= 64)%nat -> Z.to_nat ((2 ^ 64 - 1) mod Z.of_nat (2 ^ e)) = (2 ^ e - 1)%nat.
Proof.
  intros He; rewrite Nat2Z.inj_pow; change (Z.of_nat 2) with 2.
  assert (E : 2 ^ 64 = 2 ^ Z.of_nat e * 2 ^ (64 - Z.of_nat e)) by (rewrite <- Z.pow_add_r by lia; f_equal; lia).
  pose proof (pow2_pos (Z.of_nat e) ltac:(lia)); pose proof (pow2_pos (64 - Z.of_nat e) ltac:(lia)).
  rewrite <- (Z.mod_unique _ _ (2 ^ (64 - Z.of_nat e) - 1) (2 ^ Z.of_nat e - 1)) by nia.
  apply Nat2Z.inj; rewrite Z2Nat.id, Nat2Z.inj_sub, Nat2Z.inj_pow by (lia || (pose proof (pow2_nat_pos e); lia)); lia.
Qed.

Lemma wander_rows_power e tau : (2 <= e <= 62)%nat -> wrapped_rows (2 ^ e) tau ≡ₚ seq 0 (2 ^ e).
Proof.
  intros He; pose proof (pow2_nat_pos e); unfold wrapped_rows, Lyra2Spec.wander_rows; destruct (Nat.even tau).
  - rewrite even_pass_power, reverse_Permutation by lia.
    change (0%nat :: seq 1 (2 ^ e - 1)) with (seq 0 (S (2 ^ e - 1))); by replace (S (2 ^ e - 1)) with (2 ^ e)%nat by lia.
  - assert (E : (2 ^ e = 4 * 2 ^ (e - 2))%nat)
      by (change 4%nat with (2 ^ 2)%nat; rewrite <- Nat.pow_add_r; f_equal; lia).
    pose proof (pow2_nat_pos (e - 2)).
    assert (Hs : (2 ^ e / 2 - 1 = 2 * (2 ^ (e - 2) - 1) + 1)%nat).
    { replace (2 ^ e)%nat with (2 * 2 ^ (e - 2) * 2)%nat by lia; rewrite Nat.div_mul by lia; lia. }
    rewrite Hs; set (k := (2 ^ (e - 2) - 1)%nat); set (g := Nat.gcd (2 * k + 1) (2 ^ e)).
    assert (Hg : (2 ^ e / g = 2 ^ e)%nat); [|rewrite Hg; apply odd_multiples_perm].
    pose proof (multiple_zero (2 ^ e) (2 * k + 1) ltac:(lia)) as Hz; fold g in Hz.
    assert (Hgp : (0 < g)%nat).
    { destruct (Nat.gcd_divide_r (2 * k + 1) (2 ^ e)) as [x Hx]; fold g in Hx; destruct g; lia. }
    assert (Hle : (0 < 2 ^ e / g <= 2 ^ e)%nat).
    { split; [apply Nat.div_str_pos; split; [done|]|apply Nat.Div0.div_le_upper_bound; nia].
      apply Nat.divide_pos_le; [lia|apply Nat.gcd_divide_r]. }
    destruct (Nat.eq_dec (2 ^ e / g)%nat (2 ^ e)%nat); [done|].
    exfalso; by apply (odd_mul_mod e (2 ^ e / g)%nat k); [lia|].
Qed.

(** A downward pass starts from the residue of [2^64 - 1], not from the last row. *)
Lemma even_pass_rows R tau r : (1 < R)%nat -> Nat.even tau = true ->
  r ∈ wrapped_rows R tau <-> r = 0%nat \/ Z.of_nat r <= (2 ^ 64 - 1) mod Z.of_nat R.
Proof.
  intros HR Ht; unfold wrapped_rows; rewrite Ht.
  pose proof (Z.mod_pos_bound (2 ^ 64 - 1) (Z.of_nat R) ltac:(lia)).
  rewrite elem_of_cons, elem_of_reverse, elem_of_seq; lia.
Qed.

(** ** Padding *)

Lemma pad101_at d : exists b, Lyra2Spec.pad101 d !! length d = Some b /\ 0x80 <= b.
Proof.
  unfold Lyra2Spec.pad101; destruct (_ =? 1)%nat; rewrite lookup_app_r, Nat.sub_diag by lia; eexists; split; try done; lia.
Qed.

Lemma pad101_after d k b : (length d < k)%nat -> Lyra2Spec.pad101 d !! k = Some b -> b <= 1.
Proof.
  intros Hk; unfold Lyra2Spec.pad101; destruct (_ =? 1)%nat; rewrite lookup_app_r by lia.
  - destruct (k - length d)%nat as [|[|n]] eqn:E; [lia|done..].
  - destruct (k - length d)%nat as [|n] eqn:E; [lia|]; cbn [app lookup list_lookup]; intros H.
    apply lookup_app_Some in H as [H|[_ H]]; [apply lookup_replicate in H; lia|].
    destruct (n - _)%nat as [|[|?]]; simplify_eq/=; lia.
Qed.

Lemma pad101_prefix d : take (length d) (Lyra2Spec.pad101 d) = d.
Proof. unfold Lyra2Spec.pad101; destruct (_ =? 1)%nat; by rewrite take_app_length. Qed.

Lemma pad101_inj d d' : Lyra2Spec.pad101 d = Lyra2Spec.pad101 d' -> d = d'.
Proof.
  intros H; assert (Hno : forall x y, Lyra2Spec.pad101 x = Lyra2Spec.pad101 y -> ~ (length x < length y)%nat).
  { intros x y Hxy Hlt; destruct (pad101_at y) as (b & Hb & Hge); rewrite <- Hxy in Hb.
    pose proof (pad101_after x _ _ Hlt Hb); lia. }
  assert (length d = length d') by (pose proof (Hno d d' H); pose proof (Hno d' d (eq_sym H)); lia).
  rewrite <- (pad101_prefix d), <- (pad101_prefix d'), H; by f_equal.
Qed.

Lemma le_bytes8_inj x y : Z.of_nat x < 2 ^ 64 -> Z.of_nat y < 2 ^ 64 ->
  le_bytes 8 (Z.of_nat x) = le_bytes 8 (Z.of_nat y) -> x = y.
Proof.
  intros Hx Hy H; apply Nat2Z.inj.
  rewrite <- (le_word_le_bytes 8 (Z.of_nat x)), <- (le_word_le_bytes 8 (Z.of_nat y)), H by (unfold word; lia); done.
Qed.

Lemma basil_inj k p s T R C k' p' s' T' R' C' :
  Forall (fun n => Z.of_nat n < 2 ^ 64) [k; p; s; T; R; C] ->
  Forall (fun n => Z.of_nat n < 2 ^ 64) [k'; p'; s'; T'; R'; C'] ->
  Lyra2Spec.basil k p s T R C = Lyra2Spec.basil k' p' s' T' R' C' ->
  k = k' /\ p = p' /\ s = s' /\ T = T' /\ R = R' /\ C = C'.
Proof.
  rewrite !list.Forall_cons; intros (? & ? & ? & ? & ? & ? & _) (? & ? & ? & ? & ? & ? & _).
  unfold Lyra2Spec.basil; cbn [map concat]; intros E0.
  apply app_inj_1 in E0 as [E0 E1]; [|done]; apply app_inj_1 in E1 as [E1 E2]; [|done].
  apply app_inj_1 in E2 as [E2 E3]; [|done]; apply app_inj_1 in E3 as [E3 E4]; [|done].
  apply app_inj_1 in E4 as [E4 E5]; [|done]; apply app_inj_1 in E5 as [E5 _]; [|done].
  split_and!; by apply le_bytes8_inj.
Qed.
