(* ===== verification/Lyra2Claims.v ===== *)
(** The theorems about Lyra2 and Lyra2Z: refinement of the reference, the
    invertible permutation, the row schedules, the encoding of the inputs, the
    allocation failures, and what [LYRA2_old] leaves out of its key. *)

From S2P Require Import Prelude SphBlake BlakeSpec SphBlakeTheorems Rfc7693 Sponge SpongePerm.
From S2P Require Import Lyra2 Lyra2Spec Lyra2Proofs Lyra2Theorems.

#[local] Opaque Lyra2Spec.f Lyra2Spec.f_reduced blake2bLyra ROUND_LYRA Lyra2Spec.lyra2 Lyra2Spec.lyra2_rows.

(** ** Lyra2 *)

(** The key length fits in an [unsigned int] and the time cost in an [int64_t]. *)
Definition counts_ok (kLen T : nat) : Prop := Z.of_nat kLen < 2 ^ 32 /\ Z.of_nat T < 2 ^ 63.

(** When any of the three allocations fails, nothing is computed. *)
Lemma lyra2_failed ma kLen pwd salt T R C : ma <> mallocs_ok -> sizes_ok (length pwd) (length salt) R C -> LYRA2 ma kLen pwd salt T R C = Some (-1, []).
Proof.
  intros Hma (HR & HC & HRb & Hsz & Hin); unfold LYRA2, lyra2_with; rewrite matrix_bytes_spec, Nat2Z.id, write_input_spec by lia; cbn [mbind option_bind].
  destruct ma as [[] [] []]; cbn [malloc_matrix malloc_rows malloc_state negb]; try reflexivity; by destruct Hma.
Qed.

(** C6 (refinement): for every password, salt, time cost and every matrix of at
    least three rows that holds the padded input, [LYRA2] stays inside the matrix
    and its loops end.  When the allocations succeed it returns 0 with [kLen]
    bytes: those of the specification when the number of rows divides 2^64 or
    there is at most one pass, and for every number of rows those of the same
    computation in which the even passes go on from row 0 with row
    (2^64 - 1) mod [nRows] instead of the last one.  When an allocation fails it
    returns -1 and writes no key.  (The key length is below 2^32, since [squeeze]
    takes it as an [unsigned int], and the time cost in the range of the counter.) *)
Theorem lyra2_computes_reference ma kLen pwd salt T R C : counts_ok kLen T -> sizes_ok (length pwd) (length salt) R C ->
  (ma = mallocs_ok ->
    (exists key, LYRA2 ma kLen pwd salt T R C = Some (0, key) /\ length key = kLen /\ key = Lyra2Spec.lyra2_rows wrapped_rows kLen pwd salt T R C) /\
    (2 ^ 64 mod Z.of_nat R = 0 \/ (T <= 1)%nat -> LYRA2 ma kLen pwd salt T R C = Some (0, Lyra2Spec.lyra2 kLen pwd salt T R C))) /\
  (ma <> mallocs_ok -> LYRA2 ma kLen pwd salt T R C = Some (-1, [])).
Proof.
  intros [Hk _] Hok; split; [|intros Hma; exact (lyra2_failed ma kLen pwd salt T R C Hma Hok)]; intros ->; destruct (lyra2_spec kLen pwd salt T R C Hk Hok) as [H Hl]; split.
  - eexists; split; [exact H|]; split; [exact Hl|reflexivity].
  - intros HT; rewrite <- lyra2_rows_spec; [exact H|destruct Hok; lia|exact HT].
Qed.

Lemma lyra2_computes_reference_witness :
  LYRA2 mallocs_ok 100 (replicate 32 1) (replicate 80 2) 2 4 4 = Some (0, Lyra2Spec.lyra2 100 (replicate 32 1) (replicate 80 2) 2 4 4).
Proof.
  refine (proj2 (proj1 (lyra2_computes_reference mallocs_ok 100 (replicate 32 1) (replicate 80 2) 2 4 4 _ _) eq_refl) (or_introl eq_refl));
    unfold sizes_ok, counts_ok; split_and!; vm_compute; (reflexivity || discriminate || lia).
Defined.

(** ** Lyra2Z *)

Lemma length_concat_be n l : length (concat (map (be_bytes n) l)) = (n * length l)%nat.
Proof. induction l; cbn [map concat length]; [lia|]; rewrite length_app, length_be_bytes; lia. Qed.

Lemma length_blake256 m : length (BlakeSpec.blake256 m) = 32%nat.
Proof.
  unfold BlakeSpec.blake256, BlakeSpec.hash; rewrite length_concat_be, length_take, length_iterate by done; reflexivity.
Qed.

(** C18 (functional): [lyra2z_hash] is Lyra2 with time cost 8 on an 8 by 8
    matrix, keyed and salted with the BLAKE-256 digest of the first 80 bytes,
    whatever its stack holds, when the three allocations succeed; when one fails,
    which the function does not notice, it is what its uninitialized buffer held. *)
Theorem lyra2z_hash_correct ma ctx u_buf hashB input :
  length ctx.(buf) = 64%nat -> length u_buf = 64%nat -> words 8 input ->
  let h := BlakeSpec.blake256 (message (take 80 input) 0 0) in
  (ma = mallocs_ok -> lyra2z_hash ma ctx u_buf hashB input = Some (Lyra2Spec.lyra2 32 h h 8 8 8)) /\
  (ma <> mallocs_ok -> lyra2z_hash ma ctx u_buf hashB input = Some (take 32 hashB)).
Proof.
  intros Hc Hu Hi h; unfold lyra2z_hash.
  pose proof (variant_digest BLAKE256 _ u_buf [take 80 input] 0 0 (variant_init_absorbed BLAKE256 ctx Hc) Hu) as [Hd _];
    [by apply Forall_cons_2; [apply Forall_take|]|lia|].
  cbn [sph_addbits_and_close sph_update sph_init fold_left concat blake_reference] in Hd; rewrite app_nil_r in Hd; fold h in Hd.
  unfold sph_blake256_close; destruct (sph_blake256_addbits_and_close _ _ 0 0) as [c' hashA]; cbn [snd] in Hd; subst hashA.
  assert (Hok : sizes_ok (length h) (length h) 8 8).
  { unfold h; rewrite length_blake256; unfold sizes_ok; split_and!; vm_compute; (reflexivity || discriminate || lia). }
  split; [intros ->|intros Hma; rewrite (lyra2_failed ma 32 h h 8 8 8 Hma Hok); reflexivity].
  destruct (lyra2_spec 32 h h 8 8 8 ltac:(lia) Hok) as [E Hl]; rewrite lyra2_rows_spec in E, Hl by (lia || (left; reflexivity)).
  rewrite E; cbn [mbind option_bind Z.eqb]; f_equal; apply take_ge; rewrite Hl; lia.
Qed.

Lemma lyra2z_hash_correct_witness :
  let h := BlakeSpec.blake256 (message (take 80 (replicate 80 7)) 0 0) in
  lyra2z_hash mallocs_ok (fresh_context BLAKE256) (replicate 64 9) [] (replicate 80 7) = Some (Lyra2Spec.lyra2 32 h h 8 8 8).
Proof.
  refine (proj1 (lyra2z_hash_correct mallocs_ok (fresh_context BLAKE256) (replicate 64 9) [] (replicate 80 7) eq_refl eq_refl _) eq_refl); by apply wordsb_spec.
Defined.

(** ** The permutation *)

(** The twelve rounds, and the single round of the reduced
    sponge, are permutations of the sixteen-word states; the inverses run the
    assignments of [G] backwards. *)
Theorem blake2bLyra_permutation v : state_ok v ->
  (state_ok (blake2bLyra v) /\ blake2bLyra_inv (blake2bLyra v) = v /\ blake2bLyra (blake2bLyra_inv v) = v) /\
  (state_ok (reducedBlake2bLyra v) /\ ROUND_LYRA_inv (reducedBlake2bLyra v) = v /\
   reducedBlake2bLyra (ROUND_LYRA_inv v) = v).
Proof.
  intros Hv; destruct (blake2bLyra_inverse v Hv) as (? & _ & ? & ?).
  destruct (ROUND_LYRA_inverse v Hv) as (? & _ & ? & ?); by split_and!.
Qed.

Lemma blake2bLyra_permutation_witness : blake2bLyra_inv (blake2bLyra initState) = initState.
Proof.
  assert (Hok : state_ok initState) by (split; [reflexivity|by apply wordsb_spec]).
  destruct (blake2bLyra_permutation initState Hok) as [(_ & H & _) _]; exact H.
Defined.

(** ** Schedules *)

(** Before row [r] is computed the setup loop holds [row = r]
    and [prev = r - 1]; the revisited row is an earlier one, never the previous
    one, and over each window the rows [0 .. 2^e - 1] are revisited exactly
    once. *)
Theorem setup_schedule r : (2 <= r)%nat ->
  let v := Nat.iter (r - 2) setup_next setup_start in
  (v.(row) = Z.of_nat r /\ v.(prev) = Z.of_nat r - 1 /\ 0 <= v.(rowa) < v.(row) /\ v.(rowa) <> v.(prev)) /\
  forall e, (1 <= e)%nat ->
    map (fun q => Z.to_nat (Nat.iter (q - 2) setup_next setup_start).(rowa)) (seq (2 ^ e) (2 ^ e)) ≡ₚ seq 0 (2 ^ e).
Proof.
  intros Hr v; unfold v; rewrite iter_setup_next by done; split.
  - pose proof (row_star_not_prev r Hr); cbn; lia.
  - intros e He; rewrite <- (window_perm e He); apply Permutation_refl', map_ext_in; intros q Hq; apply in_seq in Hq.
    assert (2 <= q)%nat by (pose proof (Nat.pow_le_mono_r 2 1 e ltac:(lia) He); simpl in *; lia).
    rewrite iter_setup_next by done; cbn; lia.
Qed.

Lemma setup_schedule_witness :
  let v := Nat.iter 5 setup_next setup_start in
  v.(row) = 7 /\ v.(prev) = 6 /\ 0 <= v.(rowa) < v.(row) /\ v.(rowa) <> v.(prev).
Proof. exact (proj1 (setup_schedule 7 ltac:(lia))). Defined.

(** With a power of two of rows, at least four, every pass of
    the wandering phase ends and visits every row exactly once. *)
Theorem wander_visits_every_row e tau : (2 <= e <= 61)%nat ->
  let R := (2 ^ e)%nat in
  exists l, visits (fun r => Z.to_nat (wander_next (Z.of_nat R) (wander_step (Z.of_nat tau) (Z.of_nat R)) (Z.of_nat r))) 0 l /\
    l ≡ₚ seq 0 R.
Proof.
  intros He R; exists (wrapped_rows R tau); split; [|apply wander_rows_power; lia].
  apply wander_visits.
  - unfold R; rewrite (Nat2Z.inj_pow 2 e); change (Z.of_nat 2) with 2; apply Z.pow_lt_mono_r; lia.
  - pose proof (Nat.pow_le_mono_r 2 2 e ltac:(lia) ltac:(lia)); simpl in *; unfold R; lia.
Qed.

Lemma wander_visits_every_row_witness :
  exists l, visits (fun r => Z.to_nat (wander_next 8 (wander_step 1 8) (Z.of_nat r))) 0 l /\ l ≡ₚ seq 0 8.
Proof. exact (wander_visits_every_row 3 1 ltac:(lia)). Defined.

(** When the number of rows does not divide [2^64] the passes of
    even number miss the last row: [row + step] is taken modulo [2^64] before
    it is reduced by the number of rows. *)
Theorem wander_skips_last_row R tau l : (1 < R)%nat -> Z.of_nat R < 2 ^ 62 -> Nat.even tau = true ->
  2 ^ 64 mod Z.of_nat R <> 0 ->
  visits (fun r => Z.to_nat (wander_next (Z.of_nat R) (wander_step (Z.of_nat tau) (Z.of_nat R)) (Z.of_nat r))) 0 l ->
  (R - 1)%nat ∉ l.
Proof.
  intros HR HRb Ht Hmod Hv; rewrite (visits_det _ _ _ _ Hv (wander_visits R HRb tau HR)), (even_pass_rows R tau) by done.
  pose proof (Z.mod_pos_bound (2 ^ 64) (Z.of_nat R) ltac:(lia)).
  assert (E : (2 ^ 64 - 1) mod Z.of_nat R = 2 ^ 64 mod Z.of_nat R - 1).
  { symmetry; apply (Z.mod_unique _ _ (2 ^ 64 / Z.of_nat R)); [lia|].
    pose proof (Z.div_mod (2 ^ 64) (Z.of_nat R) ltac:(lia)); lia. }
  rewrite E; lia.
Qed.

Lemma wander_skips_last_row_witness :
  visits (fun r => Z.to_nat (wander_next 5 (wander_step 2 5) (Z.of_nat r))) 0 [0%nat] /\ 4%nat ∉ [0%nat].
Proof.
  assert (Hv : visits (fun r => Z.to_nat (wander_next 5 (wander_step 2 5) (Z.of_nat r))) 0 [0%nat])
    by (apply visits_last; reflexivity).
  split; [exact Hv|].
  apply (wander_skips_last_row 5 2 [0%nat]); [lia|lia|reflexivity|discriminate|exact Hv].
Defined.

(** ** Input *)

(** The bytes [LYRA2] puts in the matrix and absorbs determine
    all of its arguments: no two different calls absorb the same input. *)
Theorem lyra2_input_injective kLen pwd salt T R C kLen' pwd' salt' T' R' C' m m' rest rest' :
  Forall (fun n => Z.of_nat n < 2 ^ 64) [kLen; length pwd; length salt; T; R; C] ->
  Forall (fun n => Z.of_nat n < 2 ^ 64) [kLen'; length pwd'; length salt'; T'; R'; C'] ->
  (nBlocksInput (length pwd) (length salt) * 64 <= m)%nat -> (nBlocksInput (length pwd') (length salt') * 64 <= m')%nat ->
  write_input (Z.of_nat kLen) pwd salt (Z.of_nat T) (Z.of_nat R) (Z.of_nat C) (replicate m 0) = Some rest ->
  write_input (Z.of_nat kLen') pwd' salt' (Z.of_nat T') (Z.of_nat R') (Z.of_nat C') (replicate m' 0) = Some rest' ->
  (kLen, pwd, salt, T, R, C) <> (kLen', pwd', salt', T', R', C') ->
  take (nBlocksInput (length pwd) (length salt) * 64) rest <> take (nBlocksInput (length pwd') (length salt') * 64) rest'.
Proof.
  intros Hb Hb' Hm Hm'; rewrite !write_input_spec by done; intros [= <-] [= <-] Hne Heq; apply Hne; clear Hne.
  rewrite !take_app_length' in Heq by (rewrite length_input; lia).
  unfold Lyra2Spec.input in Heq; apply pad101_inj in Heq; rewrite !app_assoc in Heq.
  apply app_inj_2 in Heq as [Hps Hbas]; [|by rewrite !length_basil].
  apply basil_inj in Hbas as (-> & Hp & Hs & -> & -> & ->); [|done..].
  apply app_inj_1 in Hps as [-> ->]; [done|exact Hp].
Qed.

Lemma lyra2_input_injective_witness :
  write_input 32 [1; 2] [3] 2 3 4 (replicate 64 0) <> write_input 32 [1] [2; 3] 2 3 4 (replicate 64 0).
Proof.
  assert (H64 : forall p s, (p <= 2)%nat -> (s <= 2)%nat -> Forall (fun n => Z.of_nat n < 2 ^ 64) [32; p; s; 2; 3; 4]%nat)
    by (intros; repeat (apply Forall_cons_2; [lia|]); apply Forall_nil_2).
  destruct (write_input 32 [1; 2] [3] 2 3 4 (replicate 64 0)) as [r|] eqn:E; [|discriminate E].
  destruct (write_input 32 [1] [2; 3] 2 3 4 (replicate 64 0)) as [r'|] eqn:E'; [|discriminate E'].
  intros [= <-].
  apply (lyra2_input_injective 32 [1; 2] [3] 2 3 4 32 [1] [2; 3] 2 3 4 64 64 r r);
    first [done | apply H64; simpl; lia | vm_compute; lia].
Defined.

(** ** LYRA2_old *)

(** What the absorbing loop of [LYRA2_old] reads: the first block, then zeros. *)
Definition old_words (d : list Z) (i : nat) : list Z :=
  if (i =? 0)%nat then Lyra2Spec.block_words 0 d else replicate 8 0.

Lemma old_absorb_spec d n k N s : (N <= 8)%nat -> length d = (64 * N)%nat -> (64 * N + k <= 8 * n)%nat ->
  (64 * N <= n)%nat -> length s = 16%nat ->
  let s' := for_range 0 N (fun i s => Lyra2Spec.f (Lyra2Spec.absorb (old_words d i) s)) s in
  absorb_input BLOCK_LEN_BLAKE2_SAFE_BYTES N s (words_of_bytes n (d ++ replicate k 0)) = Some s' /\ length s' = 16%nat.
Proof.
  intros HN Hd Hk Hn Hs; unfold absorb_input.
  destruct (for_rangeM_sim (fun _ x y => x = y /\ length y = 16%nat) 0 N
    (fun i state => absorbBlockBlake2Safe state (words_of_bytes n (d ++ replicate k 0)) (i * BLOCK_LEN_BLAKE2_SAFE_BYTES))
    (fun i s => Lyra2Spec.f (Lyra2Spec.absorb (old_words d i) s)) s s) as (s' & -> & -> & Hl); [lia|done| |done].
  intros i x y Hi [-> Hy]; unfold absorbBlockBlake2Safe, BLOCK_LEN_BLAKE2_SAFE_INT64, BLOCK_LEN_BLAKE2_SAFE_BYTES.
  rewrite read_words by lia; cbn [mbind option_bind]; rewrite blake2bLyra_spec.
  eexists; split; [reflexivity|]; split; [|rewrite length_f, length_absorb; exact Hy].
  assert (Hw : map (fun j => le_word (read_at (8 * (i * 64 + j)) 8 (d ++ replicate k 0))) (seq 0 8) = old_words d i);
    [|rewrite Hw; reflexivity].
  unfold old_words; destruct (Nat.eqb_spec i 0) as [->|Hi0].
  - apply map_ext_in; intros j Hj; apply in_seq in Hj; f_equal; unfold read_at.
    rewrite drop_app_le, take_app_le by (rewrite ?length_drop; lia); do 2 f_equal; lia.
  - change (replicate 8 0) with (map (fun _ => 0) (seq 0 8)); apply map_ext_in; intros j Hj; apply in_seq in Hj.
    unfold read_at; rewrite drop_app_ge, drop_replicate, take_replicate by lia.
    generalize (8 `min` (k - (8 * (i * 64 + j) - length d)))%nat; intros q; induction q; [done|].
    cbn [replicate le_word]; rewrite IHq; reflexivity.
Qed.

(** [LYRA2_old] advances its absorbing pointer by 64 words
    instead of 8, so with an input of at most eight blocks in a matrix of at
    least eight times its size only the first 64 bytes are absorbed: any two
    passwords and salts that agree there get the same key. *)
Theorem lyra2_old_ignores_input kLen pwd salt pwd' salt' T R C :
  counts_ok kLen T -> sizes_ok (length pwd) (length salt) R C -> length pwd' = length pwd -> length salt' = length salt ->
  (nBlocksInput (length pwd) (length salt) <= 8)%nat ->
  (64 * nBlocksInput (length pwd) (length salt) <= 12 * (R * C))%nat ->
  (64 <= length (pwd ++ salt))%nat -> take 64 (pwd ++ salt) = take 64 (pwd' ++ salt') ->
  LYRA2_old mallocs_ok kLen pwd salt T R C = LYRA2_old mallocs_ok kLen pwd' salt' T R C.
Proof.
  intros [Hk _] Hok Hp Hs HN Hm H64 Heq; set (N := nBlocksInput (length pwd) (length salt)) in *.
  assert (Hfirst : forall p q, length p = length pwd -> length q = length salt ->
    forall i, old_words (Lyra2Spec.input kLen p q T R C) i = old_words (take 64 (p ++ q)) i).
  { intros p q Hlp Hlq i; unfold old_words; destruct (i =? 0)%nat; [|done].
    apply map_ext_in; intros j Hj; apply in_seq in Hj; f_equal; unfold read_at; symmetry.
    rewrite skipn_firstn_comm, firstn_firstn, Nat.min_l by lia; unfold Lyra2Spec.input, Lyra2Spec.pad101.
    rewrite app_assoc; set (x := p ++ q).
    assert (64 <= length x)%nat by (unfold x; rewrite length_app in *; lia).
    destruct (_ =? 1)%nat; rewrite <- (app_assoc x); by rewrite drop_app_le, take_app_le by (rewrite ?length_drop; lia). }
  assert (Hrun : forall p q, length p = length pwd -> length q = length salt ->
    LYRA2_old mallocs_ok kLen p q T R C = Some (0, phases kLen T R C
      (for_range 0 N (fun i s => Lyra2Spec.f (Lyra2Spec.absorb (old_words (take 64 (p ++ q)) i) s)) initState))).
  { intros p q Hlp Hlq.
    destruct (old_absorb_spec (Lyra2Spec.input kLen p q T R C) (12 * (R * C)) (96 * (R * C) - N * 64) N initState)
      as [Habs Hl]; [done|rewrite length_input, Hlp, Hlq; fold N; lia|destruct Hok; lia|lia|done|].
    rewrite (for_range_ext 0 N _ (fun i s => Lyra2Spec.f (Lyra2Spec.absorb (old_words (take 64 (p ++ q)) i) s))) in Habs, Hl
      by (lia || (intros; by rewrite Hfirst)).
    apply lyra2_with_spec; rewrite ?Hlp, ?Hlq; fold N; done. }
  rewrite (Hrun pwd salt), (Hrun pwd' salt') by done; by rewrite Heq.
Qed.

Lemma lyra2_old_ignores_input_witness :
  LYRA2_old mallocs_ok 32 (replicate 80 1) (replicate 80 2) 1 4 8 =
  LYRA2_old mallocs_ok 32 (replicate 64 1 ++ replicate 16 5) (replicate 80 7) 1 4 8.
Proof.
  apply (lyra2_old_ignores_input 32 (replicate 80 1) (replicate 80 2) (replicate 64 1 ++ replicate 16 5) (replicate 80 7) 1 4 8);
    [split; vm_compute; reflexivity|unfold sizes_ok; split_and!; vm_compute; (reflexivity || discriminate || lia)|reflexivity|reflexivity|vm_compute; lia|vm_compute; lia
    |vm_compute; lia|reflexivity].
Defined.
