(* ===== verification/MerkleTree.v ===== *)
(** The Merkle tree of MTP: MerkleTreeProof/merkle-tree.cpp and merkle-tree.hpp.

    A buffer is a list of bytes, a deque of buffers a list.  Exceptions are the
    [Throw] results.  [None] is undefined behaviour of C++: a shift by at least
    the width of its operand, or an access outside of a container.  The four-round
    BLAKE2b is the one of Blake2b.v. *)

From S2P Require Import Prelude Blake2b.

Definition MERKLE_TREE_ELEMENT_SIZE_B : nat := 16.

Abbreviation Buffer := (list Z).
Abbreviation Elements := (list (list Z)).

(** ** Exceptions *)

Inductive exception :=
  | EmptyElements
  | ElementSize (n : nat)
  | ElementNotFound
  | IndexZero
  | IndexMismatch.

Inductive result (A : Type) := Ret (a : A) | Throw (e : exception).
Arguments Ret {A} a.
Arguments Throw {A} e.

Definition bind_result {A B} (r : result A) (f : A -> result B) : result B :=
  match r with Ret a => f a | Throw e => Throw e end.

(** ** Comparison of buffers

    [operator<] of [std::vector] is lexicographic. *)
Fixpoint buffer_lt (x y : Buffer) : bool :=
  match x, y with
  | _, [] => false
  | [], _ :: _ => true
  | a :: x, b :: y => if a <? b then true else if b <? a then false else buffer_lt x y
  end.

Definition buffer_gt (x y : Buffer) : bool := buffer_lt y x.

(** [std::sort]: the sorted permutation of the list. *)
Fixpoint insert_sorted (x : Buffer) (l : Elements) : Elements :=
  match l with
  | [] => [x]
  | y :: l => if buffer_lt y x then y :: insert_sorted x l else x :: y :: l
  end.

Definition sort_elements (l : Elements) : Elements := foldr insert_sorted [] l.

Section Tree.

(** The indeterminate contents of [state] and [digest] in [hash]. *)
Context (S0 : blake2b_state) (D0 : list Z).

(** ** Hashing *)

Definition hash (data : Buffer) : Buffer :=
  let state := snd (blake2b_init (Some S0) MERKLE_TREE_ELEMENT_SIZE_B) in
  let state := fold_left (fun state b => snd (blake2b_4r_update state (Some [b]) 1)) data state in
  let '(_, _, digest) := blake2b_4r_final state (Some D0) MERKLE_TREE_ELEMENT_SIZE_B in
  default [] digest.

Definition combinedHash (first second : Buffer) (preserveOrder : bool) : Buffer :=
  if preserveOrder || buffer_gt first second then hash (first ++ second) else hash (second ++ first).

(** ** Construction *)

Record MerkleTree := mkMerkleTree {
  preserveOrder_ : bool;
  elements_ : Elements;
  layers_ : list Elements
}.

(** The loop over the elements given; [elements_] is what has been pushed. *)
Fixpoint push_elements (preserveOrder : bool) (elements elements_ : Elements) : result Elements :=
  match elements with
  | [] => Ret elements_
  | e :: elements =>
    if (length e =? 0)%nat then push_elements preserveOrder elements elements_
    else if negb (length e =? MERKLE_TREE_ELEMENT_SIZE_B)%nat then Throw (ElementSize (length e))
    else if negb preserveOrder && bool_decide (e ∈ elements_) then push_elements preserveOrder elements elements_
    else push_elements preserveOrder elements (elements_ ++ [e])
  end.

(** The layer over [previous_layer]. *)
Definition next_layer (preserveOrder : bool) (previous_layer : Elements) : Elements :=
  map (fun i => combinedHash (previous_layer !!! (2 * i)%nat) (previous_layer !!! (2 * i + 1)%nat) preserveOrder)
    (seq 0 (length previous_layer / 2)) ++
  (if Nat.odd (length previous_layer) then option_list (list.last previous_layer) else []).

Definition getNextLayer (preserveOrder : bool) (layers : list Elements) : list Elements :=
  layers ++ [next_layer preserveOrder (default [] (list.last layers))].

(** [while (layers_.back().size() > 1)]; a layer has at most as many elements as
    the fuel says. *)
Fixpoint getLayers_loop (fuel : nat) (preserveOrder : bool) (layers : list Elements) : option (list Elements) :=
  if (1 <? length (default [] (list.last layers)))%nat then
    match fuel with
    | O => None
    | S fuel => getLayers_loop fuel preserveOrder (getNextLayer preserveOrder layers)
    end
  else Some layers.

Definition getLayers (preserveOrder : bool) (elements : Elements) : option (list Elements) :=
  if (length elements =? 0)%nat then Some [elements] else getLayers_loop (length elements) preserveOrder [elements].

Definition make_MerkleTree (elements : Elements) (preserveOrder : bool) : result (option MerkleTree) :=
  if (length elements =? 0)%nat then Throw EmptyElements
  else bind_result (push_elements preserveOrder elements []) (fun elements_ =>
    let elements_ := if preserveOrder then elements_ else sort_elements elements_ in
    Ret (mkMerkleTree preserveOrder elements_ <$> getLayers preserveOrder elements_)).

(** [layers_.back()[0]] *)
Definition getRoot (t : MerkleTree) : option Buffer := layer ← list.last t.(layers_); layer !! 0%nat.

Definition merkleRoot (elements : Elements) (preserveOrder : bool) : result (option Buffer) :=
  bind_result (make_MerkleTree elements preserveOrder) (fun t => Ret (t ← t; getRoot t)).

(** ** Proofs *)

Definition getPair (layer : Elements) (index : nat) : option Buffer :=
  let pairIndex := if Nat.odd index then (index - 1)%nat else (index + 1)%nat in
  layer !! pairIndex.

(** The loop over the layers. *)
Fixpoint proof_from (layers : list Elements) (index : nat) : Elements :=
  match layers with
  | [] => []
  | layer :: layers => option_list (getPair layer index) ++ proof_from layers (index / 2)
  end.

Definition getProof_at (t : MerkleTree) (index : nat) : Elements := proof_from t.(layers_) index.

(** The first index at which the element is. *)
Fixpoint find_element (element : Buffer) (l : Elements) : option nat :=
  match l with
  | [] => None
  | x :: l => if bool_decide (x = element) then Some 0%nat else S <$> find_element element l
  end.

Definition getProof (t : MerkleTree) (element : Buffer) : result Elements :=
  match find_element element t.(elements_) with
  | None => Throw ElementNotFound
  | Some index => Ret (getProof_at t index)
  end.

Definition getProofOrdered (t : MerkleTree) (element : Buffer) (index : nat) : result Elements :=
  if (index =? 0)%nat then Throw IndexZero
  else
    let index := (index - 1)%nat in
    if (length t.(elements_) <=? index)%nat || negb (bool_decide (t.(elements_) !!! index = element)) then Throw IndexMismatch
    else Ret (getProof_at t index).

Definition checkProof (proof : Elements) (root element : Buffer) : bool :=
  bool_decide (fold_left (fun tempHash p => combinedHash tempHash p false) proof element = root).

(** [while (((index & 1) == 0) && (index >= (1u << remaining))) index = index / 2]:
    the shift is undefined from 32 on. *)
Fixpoint adjust_index (fuel : nat) (remaining : nat) (index : Z) : option Z :=
  match fuel with
  | O => None
  | S fuel =>
    if Z.land index 1 =? 0 then
      if (32 <=? remaining)%nat then None
      else if Z.shiftl 1 (Z.of_nat remaining) <=? index then adjust_index fuel remaining (index / 2)
      else Some index
    else Some index
  end.

(** The loop over the proof; [length proof] is [remaining]. *)
Fixpoint check_loop (proof : Elements) (tempHash : Buffer) (index : Z) : option Buffer :=
  match proof with
  | [] => Some tempHash
  | p :: rest =>
    index ← adjust_index 65 (length proof) index;
    let tempHash :=
      if negb (Z.land index 1 =? 0) then combinedHash p tempHash true else combinedHash tempHash p true in
    check_loop rest tempHash (index / 2)
  end.

Definition checkProofOrdered (proof : Elements) (root element : Buffer) (index : Z) : option bool :=
  let index := u64 (index - 1) in
  tempHash ← check_loop proof element index;
  Some (bool_decide (tempHash = root)).

End Tree.

(** ** Printing

    [operator<<] inserts each [uint8_t] as a character, with width two and fill
    ['0']; a string is the list of its character codes. *)
Definition print_byte (b : Z) : list Z := [48; b].

Definition print_buffer (b : Buffer) : list Z := concat (map print_byte b).

Definition elementsToHex (elements : Elements) : list Z := [48; 120] ++ concat (map print_buffer elements).

Definition getProofHex (t : MerkleTree) (element : Buffer) : result (list Z) :=
  bind_result (getProof t element) (fun p => Ret (elementsToHex p)).

Definition getProofOrderedHex (t : MerkleTree) (element : Buffer) (index : nat) : result (list Z) :=
  bind_result (getProofOrdered t element index) (fun p => Ret (elementsToHex p)).
