(* ===== verification/MerkleProofs.v ===== *)
(** The Merkle tree: its hash, its layers, the length of its proofs and what
    checking a proof computes. *)

From Stdlib Require Import Sorted.
From S2P Require Import Prelude BlakeSpec Rfc7693 Blake2b Blake2bProofs Blake2bTheorems MerkleTree.

#[local] Opaque Rfc7693.hash.

(** ** Hash *)

Section Hash.
Context (S0 : blake2b_state) (D0 : list Z) (HD0 : length D0 = 16%nat).

Lemma hash_fold_spec data d st : absorbed 4 0 16 d st ->
  exists st', fold_left (fun state b => snd (blake2b_4r_update state (Some [b]) 1)) data (Some st) = Some st' /\
    absorbed 4 0 16 (d ++ data) st'.
Proof.
  revert d st; induction data as [|b data IH]; intros d st Ha; [exists st; by rewrite app_nil_r|].
  destruct (update_spec blake2b_4r_compress 4 0 16 d st [b] Ha) as (st1 & Hu & Ha1).
  cbn [fold_left]; unfold blake2b_4r_update at 2; change 1%nat with (length [b]); rewrite Hu; cbn [snd].
  destruct (IH _ _ Ha1) as (st2 & H2 & Ha2); exists st2; split; [exact H2|]; by rewrite <- app_assoc in Ha2.
Qed.

(** The byte-wise updates give the four-round hash of the whole buffer. *)
Lemma hash_spec data : hash S0 D0 data = Rfc7693.hash 4 16 [] data.
Proof.
  unfold hash, MERKLE_TREE_ELEMENT_SIZE_B; destruct (blake2b_init_spec S0 16 ltac:(lia)) as (st & -> & Hab); cbn [snd].
  destruct (hash_fold_spec data [] st (Hab 4%nat)) as (st1 & -> & Ha).
  destruct (final_spec blake2b_4r_compress 4 0 16 _ st1 D0 16 Ha ltac:(lia) ltac:(lia)) as (st2 & Hf & _).
  unfold blake2b_4r_final; rewrite Hf; cbn [default]; rewrite drop_ge, app_nil_r by lia; exact (digest_hash 4 16 [] data).
Qed.

Lemma length_tree_hash data : length (hash S0 D0 data) = 16%nat.
Proof. rewrite hash_spec; apply length_hash; lia. Qed.

End Hash.

(** ** Order of buffers *)

Lemma buffer_lt_irrefl x : buffer_lt x x = false.
Proof. induction x as [|a x IH]; simpl; [done|]; by rewrite Z.ltb_irrefl. Qed.

Lemma buffer_lt_total x y : buffer_lt x y = false -> buffer_lt y x = false -> x = y.
Proof.
  revert y; induction x as [|a x IH]; intros [|b y]; simpl; try done.
  destruct (Z.ltb_spec a b), (Z.ltb_spec b a); try done; intros H1 H2; f_equal; [lia|by apply IH].
Qed.

Lemma buffer_lt_asym x y : buffer_lt x y = true -> buffer_lt y x = false.
Proof.
  revert y; induction x as [|a x IH]; intros [|b y]; simpl; try done.
  destruct (Z.ltb_spec a b), (Z.ltb_spec b a); try done; [lia|apply IH].
Qed.

Lemma buffer_lt_trans x y z : buffer_lt x y = true -> buffer_lt y z = true -> buffer_lt x z = true.
Proof.
  revert y z; induction x as [|a x IH]; intros [|b y] [|c z]; simpl; try done.
  destruct (Z.ltb_spec a b), (Z.ltb_spec b a), (Z.ltb_spec b c), (Z.ltb_spec c b), (Z.ltb_spec a c), (Z.ltb_spec c a); try done; try lia.
  apply IH.
Qed.

(** [first > second] decides the order, so the combination is symmetric. *)
Lemma combinedHash_comm S0 D0 x y : combinedHash S0 D0 x y false = combinedHash S0 D0 y x false.
Proof.
  unfold combinedHash, buffer_gt; cbn [orb].
  destruct (buffer_lt y x) eqn:E1, (buffer_lt x y) eqn:E2; try done.
  - by rewrite (buffer_lt_asym _ _ E1) in E2.
  - by rewrite (buffer_lt_total x y).
Qed.

(** ** Sorting *)

Lemma insert_sorted_perm x l : insert_sorted x l ≡ₚ x :: l.
Proof. induction l as [|y l IH]; simpl; [done|]; destruct (buffer_lt y x); [|done]; rewrite IH; by constructor. Qed.

Lemma sort_elements_perm l : sort_elements l ≡ₚ l.
Proof. induction l as [|x l IH]; simpl; [done|]; rewrite insert_sorted_perm; by constructor. Qed.

Definition buffer_le (x y : Buffer) : Prop := buffer_lt y x = false.

Lemma insert_sorted_ok x l : StronglySorted buffer_le l -> StronglySorted buffer_le (insert_sorted x l).
Proof.
  induction 1 as [|y l Hl IH Hy]; simpl; [repeat constructor|].
  destruct (buffer_lt y x) eqn:E.
  - constructor; [done|]; rewrite insert_sorted_perm; constructor; [by apply buffer_lt_asym|done].
  - constructor; [by constructor|]; constructor; [done|]; eapply List.Forall_impl; [|exact Hy].
    intros z Hz; unfold buffer_le in *; destruct (buffer_lt z x) eqn:Ez; [|done].
    destruct (buffer_lt y z) eqn:Eyz; [by rewrite (buffer_lt_trans y z x) in E|].
    by rewrite (buffer_lt_total z y Hz Eyz) in Ez; rewrite Ez in E.
Qed.

Lemma sort_elements_sorted l : StronglySorted buffer_le (sort_elements l).
Proof. induction l; simpl; [constructor|by apply insert_sorted_ok]. Qed.

(** ** Layers *)

Lemma half_next m : ((m + 1) / 2 = m / 2 + (if Nat.odd m then 1 else 0))%nat.
Proof.
  destruct (Nat.odd m) eqn:E; [apply Nat.odd_spec in E as [k ->]|rewrite <- Nat.negb_even in E; apply negb_false_iff, Nat.even_spec in E as [k ->]].
  - replace (2 * k + 1 + 1)%nat with ((k + 1) * 2)%nat by lia; replace (2 * k + 1)%nat with (1 + k * 2)%nat by lia.
    rewrite Nat.div_mul, Nat.div_add by lia; simpl; lia.
  - replace (2 * k + 1)%nat with (1 + k * 2)%nat by lia; rewrite (Nat.mul_comm 2 k), Nat.div_mul, Nat.div_add by lia; simpl; lia.
Qed.

Lemma option_list_Some {A} (x : A) : option_list (Some x) = [x].
Proof. reflexivity. Qed.

Lemma option_list_None {A} : option_list (A := A) None = [].
Proof. reflexivity. Qed.

Lemma half_double k : ((2 * k) / 2 = k)%nat.
Proof. by rewrite Nat.mul_comm, Nat.div_mul. Qed.

Lemma half_double_1 k : ((2 * k + 1) / 2 = k)%nat.
Proof. replace (2 * k + 1)%nat with (1 + k * 2)%nat by lia; by rewrite Nat.div_add. Qed.

Section Layers.
Context (S0 : blake2b_state) (D0 : list Z) (po : bool).

Abbreviation H x y := (combinedHash S0 D0 x y po).
Abbreviation next l := (next_layer S0 D0 po l).

Lemma length_next l : length (next l) = ((length l + 1) / 2)%nat.
Proof.
  unfold next_layer; rewrite length_app, length_map, length_seq, half_next; f_equal.
  destruct (Nat.odd (length l)) eqn:E; [|done]; destruct l as [|x l]; [done|].
  by destruct (list.last (x :: l)) eqn:El; [|apply last_None in El].
Qed.

Lemma next_pair l i : (2 * i + 1 < length l)%nat -> next l !!! i = H (l !!! (2 * i)%nat) (l !!! (2 * i + 1)%nat).
Proof.
  intros Hi; unfold next_layer; assert (i < length l / 2)%nat by (apply Nat.div_le_lower_bound; lia).
  rewrite lookup_total_app_l by (rewrite length_map, length_seq; lia).
  apply list_lookup_total_correct; rewrite list_lookup_fmap, lookup_seq_lt by done; reflexivity.
Qed.

Lemma next_single l i : (2 * i + 1 = length l)%nat -> next l !!! i = l !!! (2 * i)%nat.
Proof.
  intros Hi; unfold next_layer; assert (Hh : (length l / 2 = i)%nat) by (rewrite <- Hi; apply half_double_1).
  assert (Ho : Nat.odd (length l) = true) by (apply Nat.odd_spec; exists i; lia).
  rewrite lookup_total_app_r by (rewrite length_map, length_seq; lia); rewrite length_map, length_seq, Hh, Nat.sub_diag, Ho.
  rewrite last_lookup, <- Hi, Nat.add_1_r; cbn [pred]; rewrite list_lookup_lookup_total_lt by lia; reflexivity.
Qed.

(** [tower l ls]: [ls] are the layers from [l] up to the root. *)
Inductive tower : Elements -> list Elements -> Prop :=
  | tower_root l : length l = 1%nat -> tower l [l]
  | tower_step l ls : (1 < length l)%nat -> tower (next l) ls -> tower l (l :: ls).

Lemma getLayers_loop_spec fuel acc l : l <> [] -> (length l <= fuel + 1)%nat ->
  exists ls, getLayers_loop S0 D0 fuel po (acc ++ [l]) = Some (acc ++ ls) /\ tower l ls.
Proof.
  revert acc l; induction fuel as [|fuel IH]; intros acc l Hl Hf; cbn [getLayers_loop]; rewrite last_snoc; change (default [] (Some l)) with l;
    destruct (Nat.ltb_spec 1 (length l)) as [H1|H1]; try lia;
    try (exists [l]; split; [done|]; constructor; destruct l; simpl in *; [done|lia]).
  pose proof (length_next l) as Hn; assert ((length l + 1) / 2 < length l)%nat by (apply Nat.Div0.div_lt_upper_bound; lia).
  assert (1 <= (length l + 1) / 2)%nat by (apply Nat.div_le_lower_bound; lia).
  destruct (IH (acc ++ [l]) (next l)) as (ls & Hls & Ht); [by destruct (next l); simpl in *; [lia|]|lia|].
  exists (l :: ls); split; [|by constructor]; unfold getNextLayer; rewrite last_snoc; change (default [] (Some l)) with l.
  rewrite Hls, <- app_assoc; reflexivity.
Qed.

Lemma getLayers_spec l : l <> [] -> exists ls, getLayers S0 D0 po l = Some ls /\ tower l ls.
Proof.
  intros Hl; unfold getLayers; destruct (Nat.eqb_spec (length l) 0) as [E|_]; [by destruct l|].
  exact (getLayers_loop_spec (length l) [] l Hl ltac:(lia)).
Qed.

Lemma tower_last l ls : tower l ls -> exists r, list.last ls = Some [r].
Proof.
  induction 1 as [l Hl|l ls Hl Ht [r IH]].
  - destruct l as [|r [|? ?]]; try discriminate Hl; by exists r.
  - exists r; destruct ls; [done|exact IH].
Qed.

(** ** Proofs *)

Lemma getPair_spec l i : (i < length l)%nat ->
  (getPair l i = None /\ exists k, i = (2 * k)%nat /\ length l = (2 * k + 1)%nat) \/
  (exists k, (2 * k + 1 < length l)%nat /\
    ((i = (2 * k)%nat /\ getPair l i = Some (l !!! (2 * k + 1)%nat)) \/ (i = (2 * k + 1)%nat /\ getPair l i = Some (l !!! (2 * k)%nat)))).
Proof.
  intros Hi; unfold getPair; destruct (Nat.odd i) eqn:E.
  - apply Nat.odd_spec in E as [k ->]; right; exists k; split; [done|]; right; split; [done|].
    replace (2 * k + 1 - 1)%nat with (2 * k)%nat by lia; apply list_lookup_lookup_total_lt; lia.
  - rewrite <- Nat.negb_even in E; apply negb_false_iff, Nat.even_spec in E as [k ->].
    destruct (Nat.eq_dec (length l) (2 * k + 1)%nat) as [El|El].
    + left; split; [apply lookup_ge_None_2; lia|by exists k].
    + right; exists k; split; [lia|]; left; split; [done|]; apply list_lookup_lookup_total_lt; lia.
Qed.

(** A proof has at most as many elements as the tree has levels. *)
Lemma proof_length l ls i : tower l ls -> (i < length l)%nat -> (length (proof_from ls i) <= Nat.log2_up (length l))%nat.
Proof.
  intros Ht; revert i; induction Ht as [l Hl|l ls Hl Ht IH]; intros i Hi.
  - replace i with 0%nat by lia; cbn [proof_from]; unfold getPair; cbn [Nat.odd Nat.even negb].
    rewrite lookup_ge_None_2 by lia; simpl; lia.
  - cbn [proof_from]; rewrite length_app.
    assert (Hh : (i / 2 < length (next l))%nat).
    { rewrite length_next; apply Nat.Div0.div_lt_upper_bound.
      pose proof (Nat.div_mod (length l + 1) 2 ltac:(lia)); pose proof (Nat.mod_upper_bound (length l + 1) 2 ltac:(lia)); lia. }
    specialize (IH (i / 2)%nat Hh); rewrite length_next in IH.
    assert (Hlog : Nat.log2_up (length l) = S (Nat.log2_up ((length l + 1) / 2))).
    { apply Nat.log2_up_unique; [lia|]; assert (1 <= (length l + 1) / 2)%nat by (apply Nat.div_le_lower_bound; lia).
      pose proof (Nat.div_mod (length l + 1) 2 ltac:(lia)); pose proof (Nat.mod_upper_bound (length l + 1) 2 ltac:(lia)).
      set (h := ((length l + 1) / 2)%nat) in *; destruct (Nat.eq_dec h 1%nat) as [E|E].
      - rewrite E; simpl; lia.
      - pose proof (Nat.log2_up_spec h ltac:(lia)) as [Hs1 Hs2]; cbn [pred]; rewrite Nat.pow_succ_r'.
        assert (Hp : (1 <= Nat.log2_up h)%nat) by (apply Nat.log2_up_pos; lia).
        destruct (Nat.log2_up h) as [|k]; [lia|]; cbn [pred] in *; rewrite Nat.pow_succ_r' in *; lia. }
    rewrite Hlog; destruct (getPair l i); rewrite ?option_list_Some, ?option_list_None; cbn [length]; lia.
Qed.

(** With [2^d] leaves every proof has [d] elements. *)
Lemma proof_length_pow2 d l ls i : tower l ls -> (i < length l)%nat -> length l = (2 ^ d)%nat -> length (proof_from ls i) = d.
Proof.
  intros Ht; revert d i; induction Ht as [l Hl|l ls Hl Ht IH]; intros d i Hi Hd.
  - destruct d as [|d]; [|rewrite Nat.pow_succ_r' in Hd; pose proof (Nat.pow_nonzero 2 d ltac:(lia)); lia].
    replace i with 0%nat by lia; cbn [proof_from]; unfold getPair; cbn [Nat.odd Nat.even negb].
    rewrite lookup_ge_None_2 by lia; done.
  - destruct d as [|d]; [simpl in Hd; lia|]; rewrite Nat.pow_succ_r' in Hd; cbn [proof_from]; rewrite length_app.
    assert (Hn : length (next l) = (2 ^ d)%nat) by (rewrite length_next, Hd; apply half_double_1).
    rewrite (IH d) by (rewrite ?Hn; try done; apply Nat.Div0.div_lt_upper_bound; lia).
    destruct (getPair_spec l i Hi) as [(_ & k & -> & Hk)|(k & _ & [[_ ->]|[_ ->]])]; rewrite ?option_list_Some; cbn [length]; lia.
Qed.

End Layers.

(** ** Unordered proofs *)

Lemma unordered_fold S0 D0 l ls i r : tower S0 D0 false l ls -> (i < length l)%nat -> list.last ls = Some [r] ->
  fold_left (fun t p => combinedHash S0 D0 t p false) (proof_from ls i) (l !!! i) = r.
Proof.
  intros Ht; revert i; induction Ht as [l Hl|l ls Hl Ht IH]; intros i Hi Hr.
  - replace i with 0%nat by lia; cbn [proof_from]; unfold getPair; cbn [Nat.odd Nat.even negb].
    rewrite lookup_ge_None_2 by lia; simpl; cbn in Hr; injection Hr as ->; reflexivity.
  - assert (Hr' : list.last ls = Some [r]) by (destruct ls; [inversion Ht|exact Hr]).
    pose proof (length_next S0 D0 false l) as Hn; rewrite half_next in Hn; cbn [proof_from]; rewrite fold_left_app.
    destruct (getPair_spec l i Hi) as [(-> & k & -> & Hk)|(k & Hk & [[-> ->]|[-> ->]])]; rewrite ?option_list_Some, ?option_list_None; cbn [fold_left].
    + rewrite half_double, <- next_single with (S0 := S0) (D0 := D0) (po := false) by done; apply IH; [|done].
      rewrite length_next, Hk; replace (2 * k + 1 + 1)%nat with ((k + 1) * 2)%nat by lia; rewrite Nat.div_mul; lia.
    + rewrite half_double, <- next_pair by done; apply IH; [|done].
      assert (k < length l / 2)%nat by (apply Nat.div_le_lower_bound; lia); lia.
    + rewrite half_double_1, combinedHash_comm, <- next_pair by done; apply IH; [|done].
      assert (k < length l / 2)%nat by (apply Nat.div_le_lower_bound; lia); lia.
Qed.

(** ** Ordered proofs *)

Lemma land_1_even i : (Z.land i 1 =? 0) = Z.even i.
Proof.
  change 1 with (Z.ones 1); rewrite Z.land_ones by lia; change (2 ^ 1) with 2; rewrite Zmod_even; by destruct (Z.even i).
Qed.

Lemma adjust_index_S fuel remaining index : adjust_index (S fuel) remaining index =
  if Z.even index then
    if (32 <=? remaining)%nat then None
    else if 2 ^ Z.of_nat remaining <=? index then adjust_index fuel remaining (index / 2) else Some index
  else Some index.
Proof. by rewrite <- land_1_even, <- Z.shiftl_1_l. Qed.

(** The loop over even indices ends: it halves a number that is not zero. *)
Lemma adjust_total fuel remaining index : 0 <= index < 2 ^ Z.of_nat fuel -> (remaining < 32)%nat ->
  exists index', adjust_index (S fuel) remaining index = Some index' /\ 0 <= index' <= index.
Proof.
  revert index; induction fuel as [|fuel IH]; intros index Hi Hr; rewrite adjust_index_S.
  - replace index with 0 by lia; cbn [Z.even]; destruct (Nat.leb_spec 32 remaining); [lia|].
    pose proof (Z.pow_pos_nonneg 2 (Z.of_nat remaining)); destruct (Z.leb_spec (2 ^ Z.of_nat remaining) 0); [lia|].
    by exists 0.
  - destruct (Z.even index) eqn:E; [|exists index; split; [done|lia]]; destruct (Nat.leb_spec 32 remaining); [lia|].
    destruct (_ <=? index) eqn:E2; [|exists index; split; [done|lia]].
    assert (Hh : 0 <= index / 2 <= index) by (split; [apply Z.div_pos; lia|apply Z.div_le_upper_bound; lia]).
    destruct (IH (index / 2)) as (i' & Hi' & Hb); [|done|exists i'; split; [exact Hi'|lia]].
    split; [lia|]; apply Z.div_lt_upper_bound; [lia|]; rewrite Nat2Z.inj_succ, Z.pow_succ_r in Hi by lia; lia.
Qed.

Lemma adjust_small fuel remaining index : (remaining < 32)%nat -> index < 2 ^ Z.of_nat remaining ->
  adjust_index (S fuel) remaining index = Some index.
Proof.
  intros Hr Hi; rewrite adjust_index_S; destruct (Z.even index); [|done]; destruct (Nat.leb_spec 32 remaining); [lia|].
  destruct (Z.leb_spec (2 ^ Z.of_nat remaining) index); [lia|done].
Qed.

Section Ordered.
Context (S0 : blake2b_state) (D0 : list Z).

Lemma check_loop_total proof t index : 0 <= index < 2 ^ 64 -> (length proof < 32)%nat ->
  exists t', check_loop S0 D0 proof t index = Some t'.
Proof.
  revert t index; induction proof as [|p proof IH]; intros t index Hi Hl; [by exists t|]; cbn [check_loop].
  destruct (adjust_total 64 (length (p :: proof)) index) as (i' & -> & Hb); [exact Hi|done|]; cbn [mbind option_bind].
  apply IH; [|simpl in Hl; lia]; split; [apply Z.div_pos; lia|]; apply Z.div_lt_upper_bound; lia.
Qed.

(** One step of the check when the index is below the size of the tree. *)
Lemma check_loop_step p proof t (i : nat) : (length proof < 31)%nat -> Z.of_nat i < 2 ^ Z.of_nat (S (length proof)) ->
  check_loop S0 D0 (p :: proof) t (Z.of_nat i) =
  check_loop S0 D0 proof (if Nat.odd i then combinedHash S0 D0 p t true else combinedHash S0 D0 t p true) (Z.of_nat (i / 2)).
Proof.
  intros Hl Hi; cbn [check_loop]; rewrite adjust_small by (cbn [length]; (lia || exact Hi)); cbn [mbind option_bind].
  rewrite land_1_even, Z.negb_even, Nat2Z.inj_div; f_equal.
  rewrite <- Nat.negb_even, <- Z.negb_even; replace (Nat.even i) with (Z.even (Z.of_nat i)); [done|].
  destruct (Nat.even i) eqn:E; [apply Nat.even_spec in E as [k ->]; rewrite Nat2Z.inj_mul; by rewrite Z.even_mul|].
  apply negb_true_iff in E; rewrite Nat.negb_even in E; apply Nat.odd_spec in E as [k ->].
  rewrite Nat2Z.inj_add, Nat2Z.inj_mul, Z.even_add, Z.even_mul; done.
Qed.

(** The proof of the tree leads to its root, as long as no layer on the way had
    an element left over. *)
Lemma ordered_check l ls i r : tower S0 D0 true l ls -> (i < length l)%nat -> list.last ls = Some [r] ->
  Z.of_nat i < 2 ^ Z.of_nat (length (proof_from ls i)) -> (length (proof_from ls i) < 32)%nat ->
  check_loop S0 D0 (proof_from ls i) (l !!! i) (Z.of_nat i) = Some r.
Proof.
  intros Ht; revert i; induction Ht as [l Hl|l ls Hl Ht IH]; intros i Hi Hr.
  - replace i with 0%nat by lia; cbn [proof_from]; unfold getPair; cbn [Nat.odd Nat.even negb].
    rewrite lookup_ge_None_2 by lia; cbn in Hr |- *; injection Hr as ->; reflexivity.
  - assert (Hr' : list.last ls = Some [r]) by (destruct ls; [inversion Ht|exact Hr]).
    assert (Hnext : (i / 2 < length (next_layer S0 D0 true l))%nat).
    { rewrite length_next; apply Nat.Div0.div_lt_upper_bound.
      pose proof (Nat.div_mod (length l + 1) 2 ltac:(lia)); pose proof (Nat.mod_upper_bound (length l + 1) 2 ltac:(lia)); lia. }
    specialize (IH (i / 2)%nat Hnext Hr'); cbn [proof_from].
    destruct (getPair_spec l i Hi) as [(-> & k & -> & Hk)|(k & Hk & Hcase)].
    + rewrite option_list_None, app_nil_l; intros Hsmall _; exfalso; rewrite half_double in *.
      pose proof (proof_length S0 D0 true _ _ _ Ht Hnext) as Hp; rewrite length_next, Hk in Hp.
      replace (2 * k + 1 + 1)%nat with ((k + 1) * 2)%nat in Hp by lia; rewrite Nat.div_mul in Hp by lia.
      assert (Hlog : (2 ^ Nat.log2_up (k + 1) <= 2 * k)%nat).
      { destruct (Nat.eq_dec k 1%nat) as [->|]; [by vm_compute; lia|]; pose proof (Nat.log2_up_spec (k + 1) ltac:(lia)) as [Hs _].
        assert (1 <= Nat.log2_up (k + 1))%nat by (apply Nat.log2_up_pos; lia).
        destruct (Nat.log2_up (k + 1)) as [|e]; [lia|]; cbn [pred] in Hs; rewrite Nat.pow_succ_r'; lia. }
      assert (Hpow : 2 ^ Z.of_nat (length (proof_from ls k)) <= Z.of_nat (2 ^ Nat.log2_up (k + 1)))
        by (rewrite Nat2Z.inj_pow; apply Z.pow_le_mono_r; lia); lia.
    + destruct Hcase as [[-> ->]|[-> ->]]; rewrite option_list_Some; cbn [app length]; intros Hsmall Hlen;
        (rewrite check_loop_step by (done || lia)).
      * replace (Nat.odd (2 * k)) with false by (rewrite <- Nat.negb_even, Nat.even_mul; done).
        rewrite <- next_pair by done; rewrite half_double in *; apply IH; [|lia].
        rewrite Nat2Z.inj_succ, Z.pow_succ_r in Hsmall by lia; lia.
      * replace (Nat.odd (2 * k + 1)) with true by (symmetry; apply Nat.odd_spec; by exists k).
        rewrite <- next_pair by done; rewrite half_double_1 in *; apply IH; [|lia].
        rewrite Nat2Z.inj_succ, Z.pow_succ_r in Hsmall by lia; lia.
Qed.

(** ** Binding *)

(** What the check hashes, from the leaf to the root. *)
Fixpoint hashed (proof : Elements) (t : Buffer) (index : Z) : Elements :=
  match proof with
  | [] => []
  | p :: rest =>
    match adjust_index 65 (length proof) index with
    | None => []
    | Some index =>
      let x := if negb (Z.land index 1 =? 0) then p ++ t else t ++ p in
      x :: hashed rest (hash S0 D0 x) (index / 2)
    end
  end.

Lemma check_loop_hashed p proof t index : check_loop S0 D0 (p :: proof) t index =
  (index ← adjust_index 65 (length (p :: proof)) index;
   check_loop S0 D0 proof (hash S0 D0 (if negb (Z.land index 1 =? 0) then p ++ t else t ++ p)) (index / 2)).
Proof.
  cbn [check_loop]; destruct (adjust_index 65 _ index) as [i|]; cbn [mbind option_bind]; [|done].
  unfold combinedHash; cbn [orb]; by destruct (negb _).
Qed.

(** Two proofs of the same length for the same index that lead to the same root
    are the same and start from the same leaf, unless at some height they hash
    different inputs to the same value. *)
Lemma check_loop_binding proof proof' t t' index r :
  length proof = length proof' -> Forall (fun p => length p = 16%nat) proof -> Forall (fun p => length p = 16%nat) proof' ->
  length t = 16%nat -> length t' = 16%nat -> length D0 = 16%nat ->
  (forall k x y, hashed proof t index !! k = Some x -> hashed proof' t' index !! k = Some y -> hash S0 D0 x = hash S0 D0 y -> x = y) ->
  check_loop S0 D0 proof t index = Some r -> check_loop S0 D0 proof' t' index = Some r -> t = t' /\ proof = proof'.
Proof.
  intros Hlen Hp Hp' Ht Ht' HD; revert proof' t t' index Hlen Hp' Ht Ht'.
  induction Hp as [|p proof Hp1 Hp IH]; intros [|p' proof'] t t' index Hlen Hp' Ht Ht' Hcol H1 H2; try discriminate Hlen.
  { cbn in H1, H2; split; congruence. }
  inversion Hp' as [|? ? Hp1' Hp2']; subst; injection Hlen as Hlen.
  rewrite check_loop_hashed in H1, H2; cbn [hashed length] in *; rewrite <- Hlen in *.
  destruct (adjust_index 65 (S (length proof)) index) as [i|]; cbn [mbind option_bind] in *; [|done].
  set (x := if negb (Z.land i 1 =? 0) then p ++ t else t ++ p) in *; set (y := if negb (Z.land i 1 =? 0) then p' ++ t' else t' ++ p') in *.
  destruct (IH proof' (hash S0 D0 x) (hash S0 D0 y) (i / 2)) as [Hxy ->]; try done; [by apply length_tree_hash..| |].
  { intros k; exact (Hcol (S k)). }
  pose proof (Hcol 0%nat x y eq_refl eq_refl Hxy) as E; unfold x, y in E.
  destruct (negb _); apply app_inj_1 in E as [-> ->]; (done || congruence).
Qed.

End Ordered.
