(* ===== verification/MerkleClaims.v ===== *)
(** The theorems about the Merkle tree. *)

From Stdlib Require Import Sorted.
From S2P Require Import Prelude Blake2b Blake2bTheorems MerkleTree MerkleProofs.

#[local] Opaque hash.

(** An element of the size of a hash. *)
Definition element_ok (e : Buffer) : Prop := length e = MERKLE_TREE_ELEMENT_SIZE_B.

(** [n] different elements. *)
Definition demo_elements (n : nat) : Elements := map (fun i => replicate 16 (Z.of_nat i)) (seq 1 n).

Lemma demo_elements_ok n : Forall element_ok (demo_elements n).
Proof. apply List.Forall_forall; intros e He; apply in_map_iff in He as (i & <- & _); exact (length_replicate 16 _). Qed.

Definition demo_digest : list Z := replicate 16 0.

(** ** Construction *)

Lemma push_ordered els acc : Forall element_ok els -> push_elements true els acc = Ret (acc ++ els).
Proof.
  intros H; revert acc; induction H as [|e els He _ IH]; intros acc; [by rewrite app_nil_r|]; cbn [push_elements].
  rewrite He; unfold MERKLE_TREE_ELEMENT_SIZE_B; cbn [Nat.eqb negb andb]; rewrite IH, <- app_assoc; reflexivity.
Qed.

Lemma push_unordered els acc : Forall element_ok els -> NoDup acc ->
  exists l, push_elements false els acc = Ret l /\ NoDup l /\ forall e, e ∈ l <-> e ∈ acc \/ e ∈ els.
Proof.
  intros H; revert acc; induction H as [|e els He _ IH]; intros acc Hnd.
  { exists acc; split_and!; [done|done|]; intros e; split; [by left|]; intros [?|Hin]; [done|by apply not_elem_of_nil in Hin]. }
  cbn [push_elements]; rewrite He; unfold MERKLE_TREE_ELEMENT_SIZE_B; cbn [Nat.eqb negb andb]; case_bool_decide as Hin.
  - destruct (IH acc Hnd) as (l & -> & Hl & Hmem); exists l; split_and!; [done|done|]; intros x; rewrite Hmem, elem_of_cons.
    split; [tauto|]; intros [?|[->|?]]; tauto.
  - destruct (IH (acc ++ [e])) as (l & -> & Hl & Hmem).
    { apply list.NoDup_app; split_and!; [done|intros x Hx Hx'; apply list_elem_of_singleton in Hx'; congruence|apply NoDup_singleton]. }
    exists l; split_and!; [done|done|]; intros x; rewrite Hmem, elem_of_app, list_elem_of_singleton, elem_of_cons; tauto.
Qed.

Lemma make_ordered S0 D0 els : els <> [] -> Forall element_ok els ->
  exists ls r, make_MerkleTree S0 D0 els true = Ret (Some (mkMerkleTree true els ls)) /\ tower S0 D0 true els ls /\
    list.last ls = Some [r] /\ getRoot (mkMerkleTree true els ls) = Some r.
Proof.
  intros Hne Hok; destruct (getLayers_spec S0 D0 true els Hne) as (ls & Hls & Ht); destruct (tower_last _ _ _ _ _ Ht) as [r Hr].
  exists ls, r; split; [|split; [exact Ht|split; [exact Hr|]]].
  - unfold make_MerkleTree; destruct (Nat.eqb_spec (length els) 0); [by destruct els|].
    rewrite push_ordered by exact Hok; cbn [bind_result app]; rewrite Hls; reflexivity.
  - unfold getRoot; cbn [layers_]; rewrite Hr; reflexivity.
Qed.

Lemma checkProofOrdered_at S0 D0 proof root e (i : nat) : Z.of_nat i + 1 < 2 ^ 64 ->
  checkProofOrdered S0 D0 proof root e (Z.of_nat i + 1) =
  (t ← check_loop S0 D0 proof e (Z.of_nat i); Some (bool_decide (t = root))).
Proof. intros Hi; unfold checkProofOrdered, u64; by rewrite Z.add_simpl_r, wrap_id by (unfold word; lia). Qed.

Lemma getProofOrdered_at t (i : nat) : (i < length t.(elements_))%nat ->
  getProofOrdered t (t.(elements_) !!! i) (i + 1) = Ret (getProof_at t i).
Proof.
  intros Hi; unfold getProofOrdered; destruct (Nat.eqb_spec (i + 1) 0); [lia|]; rewrite Nat.add_sub.
  destruct (Nat.leb_spec (length t.(elements_)) i); [lia|]; by rewrite bool_decide_true.
Qed.

(** ** Ordered trees *)

Lemma ordered_complete S0 D0 els (i : nat) : Forall element_ok els -> (i < length els)%nat -> Z.of_nat (length els) <= 2 ^ 31 ->
  exists t root proof, make_MerkleTree S0 D0 els true = Ret (Some t) /\ getRoot t = Some root /\
    getProofOrdered t (els !!! i) (i + 1) = Ret proof /\
    (Z.of_nat i < 2 ^ Z.of_nat (length proof) -> checkProofOrdered S0 D0 proof root (els !!! i) (Z.of_nat i + 1) = Some true) /\
    (forall d, length els = (2 ^ d)%nat -> length proof = d).
Proof.
  intros Hok Hi Hn; assert (Hne : els <> []) by (by intros ->; simpl in Hi; lia).
  destruct (make_ordered S0 D0 els Hne Hok) as (ls & r & Hm & Ht & Hr & Hroot).
  exists (mkMerkleTree true els ls), r, (proof_from ls i); split; [exact Hm|]; split; [exact Hroot|]; split.
  { exact (getProofOrdered_at (mkMerkleTree true els ls) i Hi). }
  split; [|intros d Hd; exact (proof_length_pow2 S0 D0 true d els ls i Ht Hi Hd)].
  intros Hsmall; assert (Hlen : (length (proof_from ls i) < 32)%nat).
  { pose proof (proof_length S0 D0 true els ls i Ht Hi) as Hp.
    assert (Nat.log2_up (length els) <= 31)%nat; [|lia].
    apply Nat.log2_up_le_pow2; [lia|]; apply Nat2Z.inj_le; rewrite Nat2Z.inj_pow; exact Hn. }
  rewrite checkProofOrdered_at by lia; rewrite (ordered_check S0 D0 els ls i r Ht Hi Hr Hsmall Hlen); cbn [mbind option_bind].
  by rewrite bool_decide_true.
Qed.

(** C12 (roundtrip): the proof that an ordered tree gives for one of its elements
    is accepted against its root, whenever the index is below two to the length
    of the proof; for a tree of [2^d] elements that is every element, and the
    proof has [d] hashes. *)
Theorem ordered_proofs_complete S0 D0 els (i : nat) : Forall element_ok els -> (i < length els)%nat -> Z.of_nat (length els) <= 2 ^ 31 ->
  exists t root proof, make_MerkleTree S0 D0 els true = Ret (Some t) /\ getRoot t = Some root /\
    getProofOrdered t (els !!! i) (i + 1) = Ret proof /\
    (Z.of_nat i < 2 ^ Z.of_nat (length proof) -> checkProofOrdered S0 D0 proof root (els !!! i) (Z.of_nat i + 1) = Some true) /\
    (forall d, length els = (2 ^ d)%nat ->
      length proof = d /\ checkProofOrdered S0 D0 proof root (els !!! i) (Z.of_nat i + 1) = Some true).
Proof.
  intros Hok Hi Hn; destruct (ordered_complete S0 D0 els i Hok Hi Hn) as (t & root & proof & H1 & H2 & H3 & H4 & H5).
  exists t, root, proof; split; [exact H1|]; split; [exact H2|]; split; [exact H3|]; split; [exact H4|].
  intros d Hd; split; [exact (H5 d Hd)|]; apply H4; rewrite (H5 d Hd); rewrite Hd in Hi.
  apply Nat2Z.inj_lt in Hi; by rewrite Nat2Z.inj_pow in Hi.
Qed.

Lemma ordered_proofs_complete_witness :
  exists t root proof, make_MerkleTree zero_state demo_digest (demo_elements 8) true = Ret (Some t) /\ getRoot t = Some root /\
    getProofOrdered t (demo_elements 8 !!! 5%nat) 6 = Ret proof /\ length proof = 3%nat /\
    checkProofOrdered zero_state demo_digest proof root (demo_elements 8 !!! 5%nat) 6 = Some true.
Proof.
  destruct (ordered_proofs_complete zero_state demo_digest (demo_elements 8) 5 (demo_elements_ok 8) ltac:(vm_compute; lia) ltac:(vm_compute; discriminate))
    as (t & root & proof & H1 & H2 & H3 & _ & H5); destruct (H5 3%nat eq_refl) as [H6 H7].
  exists t, root, proof; split; [exact H1|]; split; [exact H2|]; split; [exact H3|]; split; [exact H6|exact H7].
Defined.

(** Whether the tree of [els] accepts its own proof for its element [i]. *)
Definition own_proof_accepted (els : Elements) (i : nat) : option bool :=
  match make_MerkleTree zero_state demo_digest els true with
  | Ret (Some t) =>
    root ← getRoot t;
    match getProofOrdered t (els !!! i) (i + 1) with
    | Ret proof => checkProofOrdered zero_state demo_digest proof root (els !!! i) (Z.of_nat i + 1)
    | Throw _ => None
    end
  | _ => None
  end.

(** For a number of elements that is not a power of two
    [checkProofOrdered] can reject the proof of the tree itself, as with twelve
    elements at the eleventh: its loop skips an even index without knowing
    whether that is the last of its layer. *)
Theorem ordered_proof_rejected : own_proof_accepted (demo_elements 12) 10 = Some false.
Proof. vm_compute; reflexivity. Qed.

(** C13 (safety): an ordered proof binds the element at its index: two proofs of
    the same length that are accepted for the same index and root are the same
    proof of the same element, unless at some height the two checks hash
    different inputs to the same value. *)
Theorem ordered_proof_binding S0 D0 proof proof' root e e' index :
  length D0 = 16%nat -> length proof = length proof' -> Forall element_ok (e :: e' :: proof ++ proof') ->
  (forall k x y, hashed S0 D0 proof e (u64 (index - 1)) !! k = Some x -> hashed S0 D0 proof' e' (u64 (index - 1)) !! k = Some y ->
    hash S0 D0 x = hash S0 D0 y -> x = y) ->
  checkProofOrdered S0 D0 proof root e index = Some true -> checkProofOrdered S0 D0 proof' root e' index = Some true ->
  e = e' /\ proof = proof'.
Proof.
  intros HD Hlen Hall Hcol; unfold checkProofOrdered; rewrite !list.Forall_cons, Forall_app in Hall; destruct Hall as (He & He' & Hp & Hp').
  destruct (check_loop S0 D0 proof e (u64 (index - 1))) as [t|] eqn:E1; [|discriminate]; cbn [mbind option_bind]; intros [= H1%bool_decide_eq_true].
  destruct (check_loop S0 D0 proof' e' (u64 (index - 1))) as [t'|] eqn:E2; [|discriminate]; cbn [mbind option_bind]; intros [= H2%bool_decide_eq_true].
  subst; exact (check_loop_binding S0 D0 proof proof' e e' (u64 (index - 1)) root Hlen Hp Hp' He He' HD Hcol E1 E2).
Qed.

Lemma ordered_proof_binding_witness :
  let root := hash zero_state demo_digest (replicate 16 1 ++ replicate 16 2) in
  checkProofOrdered zero_state demo_digest [replicate 16 2] root (replicate 16 1) 1 = Some true /\
  (replicate 16 1 : Buffer) = replicate 16 1 /\ [replicate 16 2 : Buffer] = [replicate 16 2].
Proof.
  intros root.
  assert (H : checkProofOrdered zero_state demo_digest [replicate 16 2] root (replicate 16 1) 1 = Some true).
  { change (Some (bool_decide (root = root)) = Some true); by rewrite bool_decide_true. }
  split; [exact H|].
  apply (ordered_proof_binding zero_state demo_digest [replicate 16 2] [replicate 16 2] root (replicate 16 1) (replicate 16 1) 1);
    [reflexivity|reflexivity|repeat constructor|intros k x y Hx Hy _; congruence|exact H|exact H].
Defined.

(** The length of the proof is not fixed, and with it the position
    of the element changes: for any two elements there is a root and, for the
    same index, a proof of four hashes for the one and a proof of three hashes
    for the other. *)
Theorem two_openings S0 D0 a b p q r :
  let h x y := combinedHash S0 D0 x y true in
  let root := h r (h (h (h p a) b) q) in
  checkProofOrdered S0 D0 [p; b; q; r] root a 10 = Some true /\ checkProofOrdered S0 D0 [h p a; q; r] root b 10 = Some true.
Proof.
  intros h root; split.
  - change (Some (bool_decide (root = root)) = Some true); by rewrite bool_decide_true.
  - change (Some (bool_decide (root = root)) = Some true); by rewrite bool_decide_true.
Qed.

(** [checkProofOrdered] is defined and ends for every index and
    every proof of at most 31 hashes; with 32 hashes or more the shift
    [1u << remaining] is undefined at the first even index. *)
Theorem check_defined S0 D0 proof root e index : 0 <= index < 2 ^ 64 ->
  ((length proof <= 31)%nat -> exists b, checkProofOrdered S0 D0 proof root e index = Some b) /\
  ((32 <= length proof)%nat -> Z.odd index = true -> checkProofOrdered S0 D0 proof root e index = None).
Proof.
  intros Hi; unfold checkProofOrdered; pose proof (wrap_word 64 (index - 1) ltac:(lia)) as Hw; split; intros Hl.
  - destruct (check_loop_total S0 D0 proof e (u64 (index - 1))) as [t ->]; [exact Hw|lia|]; by eexists.
  - intros Ho; destruct proof as [|p proof]; [simpl in Hl; lia|]; cbn [check_loop].
    rewrite adjust_index_S; assert (Z.even (u64 (index - 1)) = true) as ->.
    { unfold u64, wrap; rewrite Z.even_spec; exists ((index - 1) / 2 mod 2 ^ 63).
      apply Z.odd_spec in Ho as [k ->]; rewrite Z.add_simpl_r, (Z.mul_comm 2 k), Z.div_mul, (Z.mul_comm k 2) by lia.
      change (2 ^ 64) with (2 * 2 ^ 63); rewrite Z.mul_mod_distr_l by lia; reflexivity. }
    by rewrite (proj2 (Nat.leb_le 32 _) Hl).
Qed.

Lemma check_defined_witness :
  (exists b, checkProofOrdered zero_state demo_digest (demo_elements 31) [] [] 7 = Some b) /\
  checkProofOrdered zero_state demo_digest (demo_elements 32) [] [] 7 = None.
Proof.
  split.
  - apply (check_defined zero_state demo_digest (demo_elements 31) [] [] 7); [lia|vm_compute; lia].
  - apply (check_defined zero_state demo_digest (demo_elements 32) [] [] 7); [lia|vm_compute; lia|reflexivity].
Defined.

(** ** Unordered trees *)

Lemma find_element_spec e l : e ∈ l -> exists i, find_element e l = Some i /\ (i < length l)%nat /\ l !!! i = e.
Proof.
  induction l as [|x l IH]; intros Hin; [by apply not_elem_of_nil in Hin|]; cbn [find_element]; case_bool_decide as Hx.
  - exists 0%nat; split_and!; [done|simpl; lia|done].
  - apply elem_of_cons in Hin as [<-|Hin]; [done|]; destruct (IH Hin) as (i & -> & Hi & He).
    exists (S i); split_and!; [done|simpl; lia|done].
Qed.

(** Without preserved order the tree holds the elements given,
    each once and sorted; and whatever their number, [checkProof] accepts the
    proof the tree gives for any of them. *)
Theorem unordered_tree_correct S0 D0 els : els <> [] -> Forall element_ok els ->
  exists t root, make_MerkleTree S0 D0 els false = Ret (Some t) /\ getRoot t = Some root /\
    NoDup t.(elements_) /\ StronglySorted buffer_le t.(elements_) /\ (forall e, e ∈ t.(elements_) <-> e ∈ els) /\
    forall e, e ∈ els -> exists proof, getProof t e = Ret proof /\ checkProof S0 D0 proof root e = true.
Proof.
  intros Hne Hok; destruct (push_unordered els [] Hok (NoDup_nil_2)) as (l & Hl & Hnd & Hmem).
  assert (Hmem' : forall e, e ∈ sort_elements l <-> e ∈ els).
  { intros e; rewrite (sort_elements_perm l), Hmem; split; [intros [Hin|Hin]; [by apply not_elem_of_nil in Hin|done]|by right]. }
  assert (Hsne : sort_elements l <> []).
  { destruct els as [|e els]; [done|]; intros E; assert (Hin : e ∈ sort_elements l) by (apply Hmem', elem_of_cons; by left).
    rewrite E in Hin; by apply not_elem_of_nil in Hin. }
  destruct (getLayers_spec S0 D0 false _ Hsne) as (ls & Hls & Ht); destruct (tower_last _ _ _ _ _ Ht) as [r Hr].
  exists (mkMerkleTree false (sort_elements l) ls), r; split; [|split; [|split; [|split; [|split]]]]; cbn [elements_].
  - unfold make_MerkleTree; destruct (Nat.eqb_spec (length els) 0); [by destruct els|].
    rewrite Hl; cbn [bind_result]; rewrite Hls; reflexivity.
  - unfold getRoot; cbn [layers_]; rewrite Hr; reflexivity.
  - by rewrite sort_elements_perm.
  - apply sort_elements_sorted.
  - exact Hmem'.
  - intros e He; destruct (find_element_spec e (sort_elements l)) as (i & Hi & Hlt & Hei); [by apply Hmem'|].
    exists (proof_from ls i); split; [unfold getProof; cbn [elements_]; by rewrite Hi|].
    unfold checkProof; rewrite <- Hei, (unordered_fold S0 D0 _ ls i r Ht Hlt Hr); by rewrite bool_decide_true.
Qed.

Lemma unordered_tree_correct_witness :
  exists t root proof, make_MerkleTree zero_state demo_digest (demo_elements 3 ++ demo_elements 2) false = Ret (Some t) /\
    getProof t (replicate 16 2) = Ret proof /\ checkProof zero_state demo_digest proof root (replicate 16 2) = true.
Proof.
  destruct (unordered_tree_correct zero_state demo_digest (demo_elements 3 ++ demo_elements 2)) as (t & root & H1 & _ & _ & _ & _ & H).
  - discriminate.
  - apply Forall_app; split; apply demo_elements_ok.
  - destruct (H (replicate 16 2)) as (proof & H2 & H3); [apply (list_elem_of_lookup_2 _ 1); reflexivity|].
    exists t, root, proof; split; [exact H1|]; split; [exact H2|exact H3].
Defined.

(** ** Errors *)

(** Neither empty, which is ignored, nor of the size of a hash. *)
Definition bad_element (e : Buffer) : Prop := e <> [] /\ ~ element_ok e.

#[export] Instance bad_element_dec e : Decision (bad_element e).
Proof. unfold bad_element, element_ok; apply _. Defined.

Lemma push_bad po els acc : Exists bad_element els ->
  exists n, push_elements po els acc = Throw (ElementSize n) /\ n <> 0%nat /\ n <> MERKLE_TREE_ELEMENT_SIZE_B.
Proof.
  intros H; assert (Hn : forall e : Buffer, e <> [] -> length e <> 0%nat) by (by intros []).
  revert acc; induction H as [e els [H0 H16]|e els _ IH]; intros acc; cbn [push_elements].
  - destruct (Nat.eqb_spec (length e) 0) as [E|_]; [by apply Hn in H0|].
    destruct (Nat.eqb_spec (length e) MERKLE_TREE_ELEMENT_SIZE_B) as [E|E]; [done|]; exists (length e); split_and!; [done|by apply Hn|done].
  - destruct (Nat.eqb_spec (length e) 0) as [E0|E0]; [apply IH|].
    destruct (Nat.eqb_spec (length e) MERKLE_TREE_ELEMENT_SIZE_B) as [E|E]; cbn [negb]; [destruct (_ && _); apply IH|by exists (length e)].
Qed.

Lemma push_good po els acc : ~ Exists bad_element els ->
  exists l, push_elements po els acc = Ret l /\ (l = [] <-> acc = [] /\ Forall (eq []) els).
Proof.
  revert acc; induction els as [|e els IH]; intros acc Hb; cbn [push_elements]; [exists acc; split; [done|by intuition]|].
  assert (Hbe : ~ bad_element e) by (intros Hx; apply Hb; by left); assert (Hb' : ~ Exists bad_element els) by (intros Hx; apply Hb; by right).
  clear Hb; rename Hb' into Hb; pose proof (list.Forall_cons (eq []) e els) as Hfc.
  destruct (Nat.eqb_spec (length e) 0) as [E0|E0].
  { destruct (IH acc Hb) as (l & Hl & Hiff); exists l; split; [done|]; destruct e; [|done]; rewrite Hiff, Hfc; intuition. }
  destruct (Nat.eqb_spec (length e) MERKLE_TREE_ELEMENT_SIZE_B) as [E|E]; cbn [negb]; [|destruct Hbe; split; [by intros ->|done]].
  destruct (negb po && bool_decide (e ∈ acc)) eqn:Eb.
  - destruct (IH acc Hb) as (l & Hl & Hiff); exists l; split; [done|]; rewrite Hiff, Hfc; split; [|by intuition; subst].
    intros [-> _]; apply andb_true_iff in Eb as [_ Hin%bool_decide_eq_true]; by apply not_elem_of_nil in Hin.
  - destruct (IH (acc ++ [e]) Hb) as (l & Hl & Hiff); exists l; split; [done|]; rewrite Hiff, Hfc; split; [|by intuition; subst].
    intros [Ha _]; by destruct acc.
Qed.

(** The constructor throws exactly for an empty list and for one with
    an element of a wrong size; it ignores empty elements, and a list of nothing
    but empty elements gives a tree without a root. *)
Theorem constructor_errors S0 D0 els po :
  match make_MerkleTree S0 D0 els po with
  | Throw EmptyElements => els = []
  | Throw (ElementSize n) => els <> [] /\ Exists bad_element els /\ n <> 0%nat /\ n <> MERKLE_TREE_ELEMENT_SIZE_B
  | Throw _ | Ret None => False
  | Ret (Some t) => els <> [] /\ ~ Exists bad_element els /\ (getRoot t = None <-> Forall (eq []) els)
  end.
Proof.
  unfold make_MerkleTree; destruct els as [|x els]; [done|]; change (length (x :: els) =? 0)%nat with false; cbv iota; set (l := x :: els).
  destruct (decide (Exists bad_element l)) as [Hb|Hb].
  - destruct (push_bad po l [] Hb) as (n & -> & Hn); done.
  - destruct (push_good po l [] Hb) as (l' & -> & Hiff); cbn [bind_result].
    assert (Hs : sort_elements l' = [] <-> l' = []).
    { split; [|by intros ->]; intros E; apply Permutation_nil_r; rewrite <- E; symmetry; apply sort_elements_perm. }
    set (l2 := if po then l' else sort_elements l'); assert (H2 : l2 = [] <-> Forall (eq []) l).
    { unfold l2; destruct po; [|rewrite Hs]; rewrite Hiff; intuition. }
    destruct (decide (l2 = [])) as [E|E].
    + rewrite E; cbn; split_and!; [done|done|]; rewrite <- H2; done.
    + destruct (getLayers_spec S0 D0 po l2 E) as (ls & -> & Ht); destruct (tower_last _ _ _ _ _ Ht) as [r Hr].
      cbn [fmap option_fmap option_map]; split_and!; [done|done|]; unfold getRoot; cbn [layers_]; rewrite Hr; cbn; rewrite <- H2; done.
Qed.

(** A proof is given exactly for an element of the tree; with an
    index, exactly for an index, counted from one, at which the element is. *)
Theorem proof_errors t e index :
  ((exists p, getProofOrdered t e index = Ret p) <-> (1 <= index)%nat /\ t.(elements_) !! (index - 1)%nat = Some e) /\
  ((exists p, getProof t e = Ret p) <-> e ∈ t.(elements_)).
Proof.
  split.
  - unfold getProofOrdered; destruct (Nat.eqb_spec index 0) as [->|Hi]; [split; [by intros []|lia]|].
    destruct (Nat.leb_spec (length t.(elements_)) (index - 1)) as [Hl|Hl]; cbn [orb].
    { rewrite lookup_ge_None_2 by lia; split; [by intros []|by intros [_ ?]]. }
    rewrite list_lookup_lookup_total_lt by lia; case_bool_decide as He; cbn [negb].
    + split; [intros _; split; [lia|congruence]|intros _; by eexists].
    + split; [by intros []|intros [_ E]; congruence].
  - unfold getProof; split.
    + intros [p Hp]; destruct (find_element e (elements_ t)) as [i|] eqn:E; [|done]; clear Hp.
      revert i E; induction (elements_ t) as [|x l IH]; intros i E; [done|]; cbn [find_element] in E; apply elem_of_cons.
      case_bool_decide as Hx; [by left|right]; destruct (find_element e l) as [k|]; [by eapply IH|done].
    + intros Hin; destruct (find_element_spec e _ Hin) as (i & -> & _); by eexists.
Qed.

(** ** Hexadecimal proofs *)

Definition hex_digit (x : Z) : Z := if x <? 10 then 48 + x else 87 + x.
Definition hex_byte (b : Z) : list Z := [hex_digit (b / 16); hex_digit (b mod 16)].
Definition hex_string (els : Elements) : list Z := [48; 120] ++ concat (map (fun e => concat (map hex_byte e)) els).

Lemma print_not_hex b : word 8 b -> print_byte b <> hex_byte b.
Proof.
  intros Hb; unfold print_byte, hex_byte, hex_digit; intros [= H1 H2].
  assert (0 <= b / 16 < 16) by (split; [apply Z.div_pos|apply Z.div_lt_upper_bound]; unfold word in *; lia).
  pose proof (Z.mod_pos_bound b 16 ltac:(lia)); pose proof (Z.div_mod b 16 ltac:(lia)).
  destruct (Z.ltb_spec (b / 16) 10), (Z.ltb_spec (b mod 16) 10); lia.
Qed.

(** [getProofHex] and [getProofOrderedHex] do not give
    hexadecimal strings: [operator<<] inserts each byte as a character, so the
    string differs from the hexadecimal one for every proof with a byte in it. *)
Theorem hex_is_not_hexadecimal els b l els' : els = (b :: l) :: els' -> word 8 b -> elementsToHex els <> hex_string els.
Proof.
  intros -> Hb E; apply (print_not_hex b Hb); unfold elementsToHex, hex_string, print_buffer in E.
  cbn [map concat app] in E; injection E as E1 E2 _; unfold print_byte, hex_byte; by rewrite <- E1, <- E2.
Qed.

Lemma hex_is_not_hexadecimal_witness :
  elementsToHex [[0xab; 0xcd]] = [48; 120; 48; 0xab; 48; 0xcd] /\ elementsToHex [[0xab; 0xcd]] <> hex_string [[0xab; 0xcd]].
Proof.
  split; [reflexivity|]; apply (hex_is_not_hexadecimal [[0xab; 0xcd]] 0xab [0xcd] []); [reflexivity|by apply wordb_spec].
Defined.
