(* ===== verification/Arith256.v ===== *)
(** Multi-word unsigned integers: arith_uint256.h and arith_uint256.cpp.

    [base_uint<BITS>] is the list [pn] of its [WIDTH = BITS/32] words, least
    significant first, 32 bits each; the template is modelled once for every
    [WIDTH].  The exception of a division by zero is [None]. *)

From S2P Require Import Prelude.

Section BaseUint.
Context (WIDTH : nat).

Abbreviation word_at pn i := (pn !!! (i : nat)).

(** [base_uint()] *)
Definition zero : list Z := replicate WIDTH 0.

(** [base_uint(uint64_t b)] *)
Definition of_uint64 (b : Z) : list Z :=
  <[1%nat := u32 (Z.shiftr b 32)]> (<[0%nat := u32 b]> (replicate WIDTH 0)).

(** [operator<<=]: [k] whole words and [shift] bits. *)
Definition shift_left (a : list Z) (shift : Z) : list Z :=
  let k := Z.to_nat (shift / 32) in
  let shift := shift mod 32 in
  for_range 0 WIDTH (fun i pn =>
    let pn := if (i + k + 1 <? WIDTH)%nat && negb (shift =? 0)
      then <[(i + k + 1)%nat := Z.lor (word_at pn (i + k + 1)) (Z.shiftr (word_at a i) (32 - shift))]> pn else pn in
    if (i + k <? WIDTH)%nat
    then <[(i + k)%nat := Z.lor (word_at pn (i + k)) (u32 (Z.shiftl (word_at a i) shift))]> pn else pn) zero.

(** [operator>>=] *)
Definition shift_right (a : list Z) (shift : Z) : list Z :=
  let k := Z.to_nat (shift / 32) in
  let shift := shift mod 32 in
  for_range 0 WIDTH (fun i pn =>
    let pn := if (k + 1 <=? i)%nat && negb (shift =? 0)
      then <[(i - k - 1)%nat := Z.lor (word_at pn (i - k - 1)) (u32 (Z.shiftl (word_at a i) (32 - shift)))]> pn else pn in
    if (k <=? i)%nat
    then <[(i - k)%nat := Z.lor (word_at pn (i - k)) (Z.shiftr (word_at a i) shift)]> pn else pn) zero.

(** [operator+=] *)
Definition add (a b : list Z) : list Z :=
  fst (for_range 0 WIDTH (fun i '(pn, carry) =>
    let n := u64 (carry + word_at pn i + word_at b i) in
    (<[i := Z.land n 0xffffffff]> pn, Z.shiftr n 32)) (a, 0)).

(** [operator~] *)
Definition complement (a : list Z) : list Z := map (fun x => u32 (Z.lnot x)) a.

(** [operator++]: [while (++pn[i] == 0 && i < WIDTH-1) i++] *)
Fixpoint increment_from (fuel : nat) (i : nat) (pn : list Z) : list Z :=
  match fuel with
  | O => pn
  | S fuel =>
    let pn := <[i := u32 (word_at pn i + 1)]> pn in
    if (word_at pn i =? 0) && (i <? WIDTH - 1)%nat then increment_from fuel (i + 1) pn else pn
  end.

Definition increment (pn : list Z) : list Z := increment_from WIDTH 0 pn.

(** [operator--]: [while (--pn[i] == (uint32_t)-1 && i < WIDTH-1) i++] *)
Fixpoint decrement_from (fuel : nat) (i : nat) (pn : list Z) : list Z :=
  match fuel with
  | O => pn
  | S fuel =>
    let pn := <[i := u32 (word_at pn i - 1)]> pn in
    if (word_at pn i =? u32 (-1)) && (i <? WIDTH - 1)%nat then decrement_from fuel (i + 1) pn else pn
  end.

Definition decrement (pn : list Z) : list Z := decrement_from WIDTH 0 pn.

(** [operator-()] and [operator-=] *)
Definition negate (a : list Z) : list Z := increment (complement a).
Definition subtract (a b : list Z) : list Z := add a (negate b).

(** [operator+=(uint64_t)] and [operator-=(uint64_t)] *)
Definition add_uint64 (a : list Z) (b64 : Z) : list Z := add a (of_uint64 b64).
Definition subtract_uint64 (a : list Z) (b64 : Z) : list Z := add a (negate (of_uint64 b64)).

(** [operator^=], [operator&=], [operator|=] *)
Definition bit_xor (a b : list Z) : list Z := for_range 0 WIDTH (fun i pn => <[i := Z.lxor (word_at pn i) (word_at b i)]> pn) a.
Definition bit_and (a b : list Z) : list Z := for_range 0 WIDTH (fun i pn => <[i := Z.land (word_at pn i) (word_at b i)]> pn) a.
Definition bit_or (a b : list Z) : list Z := for_range 0 WIDTH (fun i pn => <[i := Z.lor (word_at pn i) (word_at b i)]> pn) a.

(** [operator^=(uint64_t)] and [operator|=(uint64_t)] *)
Definition bit_xor_uint64 (pn : list Z) (b : Z) : list Z :=
  let pn := <[0%nat := Z.lxor (word_at pn 0) (u32 b)]> pn in
  <[1%nat := Z.lxor (word_at pn 1) (u32 (Z.shiftr b 32))]> pn.
Definition bit_or_uint64 (pn : list Z) (b : Z) : list Z :=
  let pn := <[0%nat := Z.lor (word_at pn 0) (u32 b)]> pn in
  <[1%nat := Z.lor (word_at pn 1) (u32 (Z.shiftr b 32))]> pn.

(** [operator!] *)
Definition is_zero (pn : list Z) : bool := forallb (fun i => word_at pn i =? 0) (seq 0 WIDTH).

(** [operator*=(uint32_t)] *)
Definition multiply32 (a : list Z) (b32 : Z) : list Z :=
  fst (for_range 0 WIDTH (fun i '(pn, carry) =>
    let n := u64 (carry + b32 * word_at pn i) in
    (<[i := Z.land n 0xffffffff]> pn, Z.shiftr n 32)) (a, 0)).

(** [operator*=(const base_uint&)] *)
Definition multiply (a b : list Z) : list Z :=
  for_range 0 WIDTH (fun j pn =>
    fst (for_range 0 (WIDTH - j) (fun i '(pn, carry) =>
      let n := u64 (carry + word_at pn (i + j) + word_at a j * word_at b i) in
      (<[(i + j)%nat := Z.land n 0xffffffff]> pn, Z.shiftr n 32)) (pn, 0))) zero.

(** The same with [b] being the object itself: its words are those that are overwritten. *)
Definition multiply_self (a : list Z) : list Z :=
  for_range 0 WIDTH (fun j pn =>
    fst (for_range 0 (WIDTH - j) (fun i '(pn, carry) =>
      let n := u64 (carry + word_at pn (i + j) + word_at a j * word_at pn i) in
      (<[(i + j)%nat := Z.land n 0xffffffff]> pn, Z.shiftr n 32)) (pn, 0))) zero.

(** [CompareTo]: from the most significant word. *)
Fixpoint compare_from (n : nat) (a b : list Z) : Z :=
  match n with
  | O => 0
  | S i => if word_at a i <? word_at b i then -1 else if word_at b i <? word_at a i then 1 else compare_from i a b
  end.

Definition CompareTo (a b : list Z) : Z := compare_from WIDTH a b.

Definition greater (a b : list Z) : bool := 0 <? CompareTo a b.
Definition greater_eq (a b : list Z) : bool := 0 <=? CompareTo a b.

Definition less (a b : list Z) : bool := CompareTo a b <? 0.
Definition less_eq (a b : list Z) : bool := CompareTo a b <=? 0.

(** [operator==]: [memcmp] of the words. *)
Definition equal (a b : list Z) : bool := bool_decide (a = b).

(** [EqualTo(uint64_t)] *)
Definition EqualTo (a : list Z) (b : Z) : bool :=
  forallb (fun i => word_at a i =? 0) (seq 2 (WIDTH - 2)) &&
  (word_at a 1 =? Z.shiftr b 32) && (word_at a 0 =? Z.land b 0xffffffff).

(** [bits]: the position of the highest bit plus one. *)
Fixpoint high_bit (n : nat) (x : Z) : Z :=
  match n with
  | O => 0
  | S i => if Z.testbit x (Z.of_nat n) then Z.of_nat n else high_bit i x
  end.

Fixpoint bits_from (n : nat) (a : list Z) : Z :=
  match n with
  | O => 0
  | S pos => if negb (word_at a pos =? 0) then 32 * Z.of_nat pos + high_bit 31 (word_at a pos) + 1 else bits_from pos a
  end.

Definition bits (a : list Z) : Z := bits_from WIDTH a.

(** [operator/=]: the loop over [shift] down to zero; [fuel] is [shift + 1]. *)
Fixpoint divide_loop (fuel : nat) (num div quotient : list Z) : list Z :=
  match fuel with
  | O => quotient
  | S shift =>
    let '(num, quotient) := if greater_eq num div
      then (subtract num div, <[(shift / 32)%nat := Z.lor (word_at quotient (shift / 32)) (Z.shiftl 1 (Z.of_nat (shift mod 32)))]> quotient)
      else (num, quotient) in
    divide_loop shift num (shift_right div 1) quotient
  end.

Definition divide (num div : list Z) : option (list Z) :=
  let num_bits := bits num in
  let div_bits := bits div in
  if div_bits =? 0 then None
  else if num_bits <? div_bits then Some zero
  else
    let shift := num_bits - div_bits in
    Some (divide_loop (Z.to_nat shift + 1) num (shift_left div shift) zero).

Definition GetLow64 (a : list Z) : Z := Z.lor (word_at a 0) (Z.shiftl (word_at a 1) 32).

End BaseUint.

(** ** 256 bits *)

Abbreviation WIDTH256 := 8%nat.

(** The target, and whether it was negative or too large. *)
Record compact := Compact { c_target : list Z; c_negative : bool; c_overflow : bool }.

Definition SetCompact (nCompact : Z) : compact :=
  let nSize := Z.shiftr nCompact 24 in
  let nWord := Z.land nCompact 0x007fffff in
  let '(nWord, target) :=
    if nSize <=? 3
    then let nWord := Z.shiftr nWord (8 * (3 - nSize)) in (nWord, of_uint64 WIDTH256 nWord)
    else (nWord, shift_left WIDTH256 (of_uint64 WIDTH256 nWord) (8 * (nSize - 3))) in
  Compact target
    (negb (nWord =? 0) && negb (Z.land nCompact 0x00800000 =? 0))
    (negb (nWord =? 0) && ((34 <? nSize) || ((0xff <? nWord) && (33 <? nSize)) || ((0xffff <? nWord) && (32 <? nSize)))).

(** [None]: an assertion fails. *)
Definition GetCompact (a : list Z) (fNegative : bool) : option Z :=
  let nSize := (bits WIDTH256 a + 7) / 8 in
  let nCompact :=
    if nSize <=? 3 then u32 (Z.shiftl (GetLow64 a) (8 * (3 - nSize)))
    else u32 (GetLow64 (shift_right WIDTH256 a (8 * (nSize - 3)))) in
  let '(nCompact, nSize) := if negb (Z.land nCompact 0x00800000 =? 0) then (Z.shiftr nCompact 8, nSize + 1) else (nCompact, nSize) in
  if negb (Z.land nCompact (u32 (Z.lnot 0x007fffff)) =? 0) || negb (nSize <? 256) then None
  else
    let nCompact := Z.lor nCompact (u32 (Z.shiftl nSize 24)) in
    Some (Z.lor nCompact (if fNegative && negb (Z.land nCompact 0x007fffff =? 0) then 0x00800000 else 0)).

(** [UintToArith256] and [ArithToUint256]: a [uint256] is its 32 bytes. *)
Definition UintToArith256 (a : list Z) : list Z := map (fun x => le_word (read_at (x * 4) 4 a)) (seq 0 WIDTH256).

Definition ArithToUint256 (a : list Z) : list Z := concat (map (fun x => le_bytes 4 (a !!! x)) (seq 0 WIDTH256)).
