(* ===== verification/Arith256Proofs.v ===== *)
(** Multi-word integers: the value of every operation.

    Multi-word integers: shifts, comparison, the number of bits, division. *)

From S2P Require Import Prelude Arith256.

(** ** Values *)

(** The number the words stand for. *)
Fixpoint value (pn : list Z) : Z :=
  match pn with
  | [] => 0
  | x :: pn => x + 2 ^ 32 * value pn
  end.

(** The modulus of [w] words. *)
Definition modulus (w : nat) : Z := 2 ^ (32 * Z.of_nat w).

Lemma modulus_S w : modulus (S w) = 2 ^ 32 * modulus w.
Proof. unfold modulus; rewrite <- Z.pow_add_r by lia; f_equal; lia. Qed.

Lemma modulus_pos w : 0 < modulus w.
Proof. apply Z.pow_pos_nonneg; lia. Qed.

Lemma modulus_add a b : modulus (a + b) = modulus a * modulus b.
Proof. unfold modulus; rewrite <- Z.pow_add_r by lia; f_equal; lia. Qed.

Lemma value_bound pn : words 32 pn -> 0 <= value pn < modulus (length pn).
Proof.
  induction 1 as [|x pn Hx _ IH]; [unfold modulus; simpl; lia|]; cbn [value length]; rewrite modulus_S; unfold word in Hx; nia.
Qed.

Lemma value_app x y : value (x ++ y) = value x + modulus (length x) * value y.
Proof.
  induction x as [|a x IH]; cbn [value app length]; [unfold modulus; simpl; lia|]; rewrite IH, modulus_S; ring.
Qed.

Lemma value_zero n : value (replicate n 0) = 0.
Proof. induction n; cbn [replicate value]; lia. Qed.

Lemma value_insert pn i x : (i < length pn)%nat -> value (<[i := x]> pn) = value pn + modulus i * (x - pn !!! i).
Proof.
  revert i; induction pn as [|a pn IH]; intros [|i] Hi; simpl in Hi; try lia; cbn [value list_insert insert].
  - change (modulus 0) with 1; cbn; ring.
  - change (value (a :: <[i := x]> pn) = value (a :: pn) + modulus (S i) * (x - pn !!! i)); cbn [value].
    rewrite IH, modulus_S by lia; ring.
Qed.

Lemma value_split pn i : (i < length pn)%nat -> value pn = value (take i pn) + modulus i * (pn !!! i + 2 ^ 32 * value (drop (i + 1) pn)).
Proof.
  intros Hi; rewrite Nat.add_1_r; rewrite <- (take_drop i pn) at 1; rewrite value_app, length_take, Nat.min_l by lia; do 2 f_equal.
  rewrite (drop_S pn (pn !!! i) i) by (by apply list_lookup_lookup_total_lt); reflexivity.
Qed.

Lemma words_zero n : words 32 (replicate n 0).
Proof. apply Forall_replicate; unfold word; lia. Qed.

Lemma words_insert32 pn i x : words 32 pn -> word 32 x -> words 32 (<[i := x]> pn).
Proof. intros; by apply Forall_insert. Qed.

Lemma word_lookup pn i : words 32 pn -> (i < length pn)%nat -> word 32 (pn !!! i).
Proof. intros H Hi; eapply Forall_lookup_1; [exact H|by apply list_lookup_lookup_total_lt]. Qed.

Lemma land_low n : Z.land n 0xffffffff = n mod 2 ^ 32.
Proof. change 0xffffffff with (Z.ones 32); by rewrite Z.land_ones. Qed.

Lemma shiftr_high n : Z.shiftr n 32 = n / 2 ^ 32.
Proof. by rewrite Z.shiftr_div_pow2. Qed.

(** The weighted sum of the first [n] terms. *)
Fixpoint weighted (n : nat) (f : nat -> Z) : Z :=
  match n with O => 0 | S i => weighted i f + modulus i * f i end.

Lemma weighted_value pn : weighted (length pn) (fun i => pn !!! i) = value pn.
Proof.
  induction pn as [|x pn IH] using rev_ind; [done|]; rewrite length_app, Nat.add_1_r; cbn [weighted].
  rewrite value_app; cbn [value]; rewrite list_lookup_total_middle, <- IH by done; rewrite Z.mul_0_r, Z.add_0_r; f_equal.
  clear IH; assert (H : forall n, (n <= length pn)%nat -> weighted n (fun i => (pn ++ [x]) !!! i) = weighted n (fun i => pn !!! i)); [|by apply H].
  induction n as [|n IH]; intros Hn; cbn [weighted]; [done|]; rewrite IH, lookup_total_app_l by lia; done.
Qed.

Lemma weighted_take n pn : (n <= length pn)%nat -> weighted n (fun i => pn !!! i) = value (take n pn).
Proof.
  intros Hn; rewrite <- (weighted_value (take n pn)), length_take, Nat.min_l by lia.
  assert (H : forall k, (k <= n)%nat -> weighted k (fun i => pn !!! i) = weighted k (fun i => take n pn !!! i)); [|by apply H].
  induction k as [|k IH]; intros Hk; cbn [weighted]; [done|]; rewrite IH, lookup_total_take_lt by lia; done.
Qed.

Lemma weighted_scale n c f : weighted n (fun i => c * f i) = c * weighted n f.
Proof. induction n as [|n IH]; cbn [weighted]; [lia|]; rewrite IH; ring. Qed.

(** ** Loops with a carry

    A loop that puts [f i] of the word at [i + off], plus the carry, there: the
    words change by the differences, and the carry is what does not fit. *)
Section Carry.
Context (off n : nat) (f : nat -> Z -> Z) (pn0 : list Z).
Context (Hlen : (n + off <= length pn0)%nat) (Hw : words 32 pn0).
Context (Hf : forall i, (i < n)%nat -> 0 <= f i (pn0 !!! (i + off)%nat) <= 2 ^ 64 - 2 ^ 32).

Definition carry_body (i : nat) : list Z * Z -> list Z * Z := fun '(pn, carry) =>
  let s := u64 (carry + f i (pn !!! (i + off)%nat)) in (<[(i + off)%nat := Z.land s 0xffffffff]> pn, Z.shiftr s 32).

Lemma carry_loop :
  let '(pn, carry) := for_range 0 n carry_body (pn0, 0) in
  length pn = length pn0 /\ words 32 pn /\ 0 <= carry < 2 ^ 32 /\
  value pn + modulus (n + off) * carry = value pn0 + modulus off * weighted n (fun i => f i (pn0 !!! (i + off)%nat) - pn0 !!! (i + off)%nat).
Proof.
  pose (P := fun (i : nat) '(pn, carry) => length pn = length pn0 /\ words 32 pn /\ 0 <= carry < 2 ^ 32 /\
    value pn + modulus (i + off) * carry = value pn0 + modulus off * weighted i (fun i => f i (pn0 !!! (i + off)%nat) - pn0 !!! (i + off)%nat) /\
    forall k, (i <= k)%nat -> pn !!! (k + off)%nat = pn0 !!! (k + off)%nat).
  assert (H : P n (for_range 0 n carry_body (pn0, 0))).
  { apply (for_range_ind P); [lia|unfold P; cbn [weighted]; split_and!; [done|done|lia|lia|lia|done]|].
    intros i [pn carry] Hi (Hl & Hpw & Hc & Hv & Hk); unfold carry_body, P.
    rewrite (Hk i ltac:(lia)); pose proof (Hf i ltac:(lia)) as Hfi; set (x := f i (pn0 !!! (i + off)%nat)) in *.
    unfold u64; rewrite wrap_id by (unfold word; lia); set (s := carry + x) in *; rewrite land_low, shiftr_high.
    pose proof (Z.mod_pos_bound s (2 ^ 32) ltac:(lia)); pose proof (Z.div_mod s (2 ^ 32) ltac:(lia)) as Hdm.
    assert (0 <= s / 2 ^ 32 < 2 ^ 32) by (split; [apply Z.div_pos|apply Z.div_lt_upper_bound]; lia).
    split_and!; [by rewrite length_insert|apply words_insert32; [done|unfold word; lia]|lia|lia| |].
    - rewrite value_insert, (Hk i) by lia; rewrite Nat.add_1_r; cbn [weighted Nat.add]; rewrite modulus_S.
      fold x; replace (modulus (i + off)) with (modulus off * modulus i) in * by (rewrite modulus_add; ring).
      transitivity (value pn + modulus off * modulus i * (2 ^ 32 * (s / 2 ^ 32) + s mod 2 ^ 32 - pn0 !!! (i + off)%nat)); [ring|].
      rewrite <- Hdm; unfold s; rewrite Z.mul_add_distr_l, Z.add_assoc, <- Hv; ring.
    - intros k Hki; rewrite list_lookup_total_insert_ne by lia; apply Hk; lia. }
  destruct (for_range 0 n carry_body (pn0, 0)) as [pn carry]; destruct H as (H1 & H2 & H3 & H4 & _); split_and!; (done || lia).
Qed.
End Carry.

(** ** Sums, differences, products *)

Lemma value_of_carry pn c t : words 32 pn -> value pn + modulus (length pn) * c = t -> value pn = t mod modulus (length pn).
Proof.
  intros Hw <-; pose proof (value_bound pn Hw); rewrite Z.mul_comm, Z.mod_add by (pose proof (modulus_pos (length pn)); lia).
  by rewrite Z.mod_small.
Qed.

(** A list of [w] words. *)
Definition uint (w : nat) (a : list Z) : Prop := length a = w /\ words 32 a.

Lemma uint_word w a i : uint w a -> (i < w)%nat -> 0 <= a !!! i < 2 ^ 32.
Proof. intros [Hl Hw] Hi; apply (word_lookup a i Hw); lia. Qed.

Lemma uint_bound w a : uint w a -> 0 <= value a < modulus w.
Proof. intros [<- Hw]; by apply value_bound. Qed.

Lemma uint_zero w : uint w (zero w).
Proof. split; [apply length_replicate|apply words_zero]. Qed.

Lemma weighted_ext n f g : (forall i, (i < n)%nat -> f i = g i) -> weighted n f = weighted n g.
Proof. induction n as [|n IH]; intros H; cbn [weighted]; [done|]; rewrite IH, H by (lia || (intros; apply H; lia)); done. Qed.

Lemma weighted_uint w a : uint w a -> weighted w (fun i => a !!! i) = value a.
Proof. intros [<- _]; apply weighted_value. Qed.

Lemma add_spec w a b : uint w a -> uint w b -> uint w (add w a b) /\ value (add w a b) = (value a + value b) mod modulus w.
Proof.
  intros Ha Hb; pose proof (carry_loop 0 w (fun i x => x + b !!! i) a) as H.
  assert (E : add w a b = fst (for_range 0 w (carry_body 0 (fun i x => x + b !!! i)) (a, 0))).
  { unfold add; f_equal; apply for_range_ext; [lia|]; intros i [pn carry] Hi; unfold carry_body; by rewrite Nat.add_0_r, Z.add_assoc. }
  rewrite E; destruct (for_range 0 w (carry_body 0 (fun i x => x + b !!! i)) (a, 0)) as [pn carry]; cbn [fst].
  destruct H as (Hl & Hw & Hc & Hv).
  - destruct Ha; lia.
  - apply Ha.
  - intros i Hi; rewrite Nat.add_0_r; pose proof (uint_word w a i Ha Hi); pose proof (uint_word w b i Hb Hi); lia.
  - destruct Ha as [Hla Hwa]; split; [split; [congruence|done]|].
    replace w with (length pn) by congruence; apply (value_of_carry pn carry _ Hw).
    rewrite (weighted_ext _ _ (fun i => b !!! i)) in Hv by (intros i Hi; rewrite Nat.add_0_r; lia).
    rewrite (weighted_uint w b Hb), Nat.add_0_r in Hv; change (modulus 0) with 1 in Hv; rewrite Hl, Hla; lia.
Qed.

Lemma multiply32_spec w a b : uint w a -> word 32 b -> uint w (multiply32 w a b) /\ value (multiply32 w a b) = (value a * b) mod modulus w.
Proof.
  intros Ha Hb; pose proof (carry_loop 0 w (fun i x => b * x) a) as H.
  assert (E : multiply32 w a b = fst (for_range 0 w (carry_body 0 (fun i x => b * x)) (a, 0))).
  { unfold multiply32; f_equal; apply for_range_ext; [lia|]; intros i [pn carry] Hi; unfold carry_body; by rewrite Nat.add_0_r. }
  rewrite E; destruct (for_range 0 w (carry_body 0 (fun i x => b * x)) (a, 0)) as [pn carry]; cbn [fst].
  destruct H as (Hl & Hw & Hc & Hv).
  - destruct Ha; lia.
  - apply Ha.
  - intros i Hi; rewrite Nat.add_0_r; pose proof (uint_word w a i Ha Hi); unfold word in Hb; nia.
  - destruct Ha as [Hla Hwa]; split; [split; [congruence|done]|].
    replace w with (length pn) by congruence; apply (value_of_carry pn carry _ Hw).
    rewrite (weighted_ext _ _ (fun i => (b - 1) * a !!! i)) in Hv by (intros i Hi; rewrite Nat.add_0_r; lia).
    rewrite weighted_scale, (weighted_uint w a (conj Hla Hwa)), Nat.add_0_r in Hv; change (modulus 0) with 1 in Hv; rewrite Hl, Hla; lia.
Qed.

(** The inner loop of the product adds [a_j * b] at word [j]. *)
Lemma multiply_inner w a b j pn : uint w a -> uint w b -> uint w pn -> (j < w)%nat ->
  let pn' := fst (for_range 0 (w - j) (fun i '(pn, carry) =>
      let n := u64 (carry + pn !!! (i + j)%nat + a !!! j * b !!! i) in
      (<[(i + j)%nat := Z.land n 0xffffffff]> pn, Z.shiftr n 32)) (pn, 0)) in
  uint w pn' /\ value pn' mod modulus w = (value pn + modulus j * a !!! j * value b) mod modulus w.
Proof.
  intros Ha Hb Hp Hj pn'; pose proof (carry_loop j (w - j) (fun i x => x + a !!! j * b !!! i) pn) as H.
  assert (E : pn' = fst (for_range 0 (w - j) (carry_body j (fun i x => x + a !!! j * b !!! i)) (pn, 0))).
  { unfold pn'; f_equal; apply for_range_ext; [lia|]; intros i [q carry] Hi; unfold carry_body; by rewrite Z.add_assoc. }
  rewrite E; clear E pn'; destruct (for_range 0 (w - j) (carry_body j (fun i x => x + a !!! j * b !!! i)) (pn, 0)) as [pn' carry]; cbn [fst].
  pose proof (uint_word w a j Ha Hj) as Haj; destruct H as (Hl & Hw & Hc & Hv).
  - destruct Hp; lia.
  - apply Hp.
  - intros i Hi; pose proof (uint_word w pn (i + j) Hp ltac:(lia)); pose proof (uint_word w b i Hb ltac:(lia)); nia.
  - destruct Hp as [Hlp Hwp]; split; [split; [congruence|done]|].
    rewrite (weighted_ext _ _ (fun i => a !!! j * b !!! i)) in Hv by (intros i Hi; lia).
    destruct Hb as [Hlb Hwb]; rewrite weighted_scale, weighted_take, Nat.sub_add in Hv by lia.
    rewrite <- (take_drop (w - j) b), value_app, length_take, Nat.min_l by lia.
    replace (value pn + _) with (value pn' + (carry + a !!! j * value (drop (w - j) b)) * modulus w).
    + rewrite Z.mod_add by (pose proof (modulus_pos w); lia); done.
    + replace (modulus w) with (modulus j * modulus (w - j)) in * by (rewrite <- modulus_add; f_equal; lia); lia.
Qed.

Lemma multiply_spec w a b : uint w a -> uint w b -> uint w (multiply w a b) /\ value (multiply w a b) = (value a * value b) mod modulus w.
Proof.
  intros Ha Hb; pose proof (modulus_pos w).
  assert (H1 : uint w (multiply w a b) /\ value (multiply w a b) mod modulus w = (value (take w a) * value b) mod modulus w).
  { unfold multiply; apply (for_range_ind (fun j pn => uint w pn /\ value pn mod modulus w = (value (take j a) * value b) mod modulus w));
      [lia|split; [apply uint_zero|unfold zero; by rewrite value_zero]|].
    intros j pn Hj [Hp Hv]; destruct (multiply_inner w a b j pn Ha Hb Hp ltac:(lia)) as [Hp' Hv']; split; [exact Hp'|].
    etransitivity; [exact Hv'|]; rewrite Z.add_mod, Hv, <- Z.add_mod by lia; f_equal; destruct Ha as [Hla Hwa].
    rewrite Nat.add_1_r, (take_S_r a j (a !!! j)) by (apply list_lookup_lookup_total_lt; lia).
    rewrite value_app, length_take, Nat.min_l by lia; cbn [value]; ring. }
  destruct H1 as [Hu Hv]; split; [done|]; rewrite Z.mod_small in Hv by (by apply uint_bound).
  rewrite take_ge in Hv by (destruct Ha; lia); done.
Qed.

(** ** Complement, increment, difference *)

Lemma complement_spec w a : uint w a -> uint w (complement a) /\ value (complement a) = modulus w - 1 - value a.
Proof.
  intros [<- Hw]; induction Hw as [|x a Hx Hw [[IHl IHw] IHv]]; [split; [split; [done|constructor]|reflexivity]|].
  unfold word in Hx; assert (Hc : u32 (Z.lnot x) = 2 ^ 32 - 1 - x).
  { unfold u32, wrap; symmetry; apply (Z.mod_unique_pos _ _ (-1)); unfold Z.lnot; lia. }
  cbn [complement map value length]; rewrite Hc; fold (complement a); split.
  - split; [cbn [length]; congruence|constructor; [unfold word; lia|done]].
  - rewrite IHv, modulus_S; ring.
Qed.

Lemma increment_from_spec fuel : forall i w pn, uint w pn -> (i < w)%nat -> (w - i <= fuel)%nat ->
  uint w (increment_from w fuel i pn) /\ exists c, value (increment_from w fuel i pn) = value pn + modulus i - c * modulus w.
Proof.
  induction fuel as [|fuel IH]; intros i w pn Hp Hi Hf; [lia|]; cbn [increment_from].
  pose proof (uint_word w pn i Hp Hi) as Hx; destruct Hp as [Hl Hw]; set (pn1 := <[i := u32 (pn !!! i + 1)]> pn).
  assert (Hi1 : pn1 !!! i = u32 (pn !!! i + 1)) by (apply list_lookup_total_insert_eq; lia).
  assert (Hp1 : uint w pn1) by (split; [by unfold pn1; rewrite length_insert|apply words_insert32; [done|apply wrap_word; lia]]).
  assert (Hv1 : value pn1 = value pn + modulus i * (u32 (pn !!! i + 1) - pn !!! i)) by (apply value_insert; lia).
  rewrite Hi1; destruct (Z.eq_dec (pn !!! i) (2 ^ 32 - 1)) as [E|E].
  - assert (Hu : u32 (pn !!! i + 1) = 0) by (by rewrite E); rewrite Hu in *; cbn [Z.eqb andb].
    destruct (Nat.ltb_spec i (w - 1)) as [Hlt|Hge].
    + destruct (IH (i + 1)%nat w pn1 Hp1 ltac:(lia) ltac:(lia)) as (H1 & c & H2); split; [exact H1|exists c].
      rewrite H2, Hv1, E, Nat.add_1_r, modulus_S; ring.
    + split; [exact Hp1|exists 1]; replace w with (S i) by lia; rewrite Hv1, E, modulus_S; ring.
  - assert (Hu : u32 (pn !!! i + 1) = pn !!! i + 1) by (apply wrap_id; unfold word; lia); rewrite Hu in *.
    destruct (Z.eqb_spec (pn !!! i + 1) 0); [lia|]; cbn [andb]; split; [exact Hp1|exists 0]; rewrite Hv1; ring.
Qed.

Lemma negate_spec w a : (1 <= w)%nat -> uint w a -> uint w (negate w a) /\ value (negate w a) = (- value a) mod modulus w.
Proof.
  intros Hw Ha; destruct (complement_spec w a Ha) as [Hc Hvc]; unfold negate, increment.
  destruct (increment_from_spec w 0 w _ Hc ltac:(lia) ltac:(lia)) as (Hu & c & Hv); split; [exact Hu|].
  pose proof (uint_bound w _ Hu); apply (Z.mod_unique_pos _ _ (c - 1)); [lia|]; rewrite Hv, Hvc; change (modulus 0) with 1; ring.
Qed.

(** Nothing but zeros is read or written when a number is multiplied by itself in place. *)
Lemma multiply_self_spec w a : uint w (multiply_self w a) /\ value (multiply_self w a) = 0.
Proof.
  assert (E : multiply_self w a = zero w); [|rewrite E; split; [apply uint_zero|unfold zero; by rewrite value_zero]].
  assert (Hz : forall i, (i < w)%nat -> zero w !!! i = 0) by (intros i Hi; unfold zero; by rewrite lookup_total_replicate_2).
  unfold multiply_self; apply (for_range_ind (fun _ pn => pn = zero w)); [lia|done|]; intros j pn Hj ->.
  apply (f_equal fst (y := (zero w, 0))), (for_range_ind (fun _ p => p = (zero w, 0))); [lia|done|]; intros i p Hi ->.
  rewrite !Hz, Z.mul_0_r by lia; change (u64 (0 + 0 + 0)) with 0; change (Z.land 0 0xffffffff) with 0; change (Z.shiftr 0 32) with 0; f_equal.
  by rewrite list_insert_id by (unfold zero; apply lookup_replicate_2; lia).
Qed.

Lemma subtract_spec w a b : (1 <= w)%nat -> uint w a -> uint w b ->
  uint w (subtract w a b) /\ value (subtract w a b) = (value a - value b) mod modulus w.
Proof.
  intros Hw Ha Hb; destruct (negate_spec w b Hw Hb) as [Hn Hvn]; unfold subtract.
  destruct (add_spec w a _ Ha Hn) as [Hu Hv]; split; [exact Hu|]; rewrite Hv, Hvn.
  pose proof (modulus_pos w); rewrite Z.add_mod_idemp_r by lia; f_equal; lia.
Qed.

(** ** Bits that do not meet *)

(** A word shifted left by [s] falls into a low and a high part. *)
Lemma shifted_word s a : 0 <= s < 32 -> 0 <= a < 2 ^ 32 ->
  u32 (Z.shiftl a s) = 2 ^ s * (a mod 2 ^ (32 - s)) /\ Z.shiftr a (32 - s) = a / 2 ^ (32 - s) /\ 0 <= a / 2 ^ (32 - s) < 2 ^ s.
Proof.
  intros Hs Ha; assert (H32 : 2 ^ 32 = 2 ^ s * 2 ^ (32 - s)) by (rewrite <- Z.pow_add_r by lia; f_equal; lia).
  pose proof (Z.pow_pos_nonneg 2 s ltac:(lia) ltac:(lia)); pose proof (Z.pow_pos_nonneg 2 (32 - s) ltac:(lia) ltac:(lia)).
  split_and!.
  - unfold u32, wrap; rewrite Z.shiftl_mul_pow2, H32, Z.mul_comm by lia; by rewrite Z.mul_mod_distr_l by lia.
  - by rewrite Z.shiftr_div_pow2 by lia.
  - apply Z.div_pos; lia.
  - apply Z.div_lt_upper_bound; lia.
Qed.

(** ** Shift to the left *)

Section ShiftLeft.
Context (w : nat) (a : list Z) (Ha : uint w a) (k : nat) (s : Z) (Hs : 0 <= s < 32).

Definition left_body (i : nat) (pn : list Z) : list Z :=
  let pn := if (i + k + 1 <? w)%nat && negb (s =? 0)
    then <[(i + k + 1)%nat := Z.lor (pn !!! (i + k + 1)%nat) (Z.shiftr (a !!! i) (32 - s))]> pn else pn in
  if (i + k <? w)%nat
  then <[(i + k)%nat := Z.lor (pn !!! (i + k)%nat) (u32 (Z.shiftl (a !!! i) s))]> pn else pn.

(** Before word [i]: the words above [i + k] are zero, that word has the high
    part of the last one. *)
Definition left_inv (i : nat) (pn : list Z) : Prop :=
  uint w pn /\ (forall j, (i + k < j < w)%nat -> pn !!! j = 0) /\ ((i + k < w)%nat -> 0 <= pn !!! (i + k)%nat < 2 ^ s) /\
  value pn mod modulus w = (modulus k * 2 ^ s * value (take i a)) mod modulus w.

(** The first half of the body puts the high part of the word there. *)
Lemma left_high i pn : (i < w)%nat -> left_inv i pn ->
  let pn1 := if (i + k + 1 <? w)%nat && negb (s =? 0)
    then <[(i + k + 1)%nat := Z.lor (pn !!! (i + k + 1)%nat) (Z.shiftr (a !!! i) (32 - s))]> pn else pn in
  uint w pn1 /\ (forall j, (i + k + 1 < j < w)%nat -> pn1 !!! j = 0) /\
  ((i + k < w)%nat -> pn1 !!! (i + k)%nat = pn !!! (i + k)%nat) /\
  ((i + k + 1 < w)%nat -> pn1 !!! (i + k + 1)%nat = a !!! i / 2 ^ (32 - s)) /\
  exists c, value pn1 = value pn + modulus (i + k + 1) * (a !!! i / 2 ^ (32 - s)) - c * modulus w.
Proof.
  intros Hi (Hp & Hz & Hlow & _) pn1; pose proof (uint_word w a i Ha Hi) as Hai.
  destruct (shifted_word s (a !!! i) Hs Hai) as (_ & Hhi & Hb); pose proof Hp as [Hl Hw].
  destruct (Nat.ltb_spec (i + k + 1) w) as [Hlt|Hge]; cbn [andb] in pn1; [destruct (Z.eqb_spec s 0) as [E|E]; cbn [negb] in pn1|]; unfold pn1.
  - rewrite (Z.div_small (a !!! i)) by (rewrite E, Z.sub_0_r; lia).
    split; [exact Hp|]; split; [intros; apply Hz; lia|]; split; [done|]; split; [intros; apply Hz; lia|exists 0; ring].
  - rewrite (Hz (i + k + 1)%nat) by lia; rewrite Z.lor_0_l, Hhi; split; [split; [by rewrite length_insert|]|split; [|split; [|split]]].
    + apply words_insert32; [done|unfold word]; split; [lia|]; apply (Z.lt_trans _ (2 ^ s)); [lia|apply Z.pow_lt_mono_r; lia].
    + intros j Hj; rewrite list_lookup_total_insert_ne by lia; apply Hz; lia.
    + intros _; by rewrite list_lookup_total_insert_ne by lia.
    + intros _; by rewrite list_lookup_total_insert_eq by lia.
    + exists 0; rewrite value_insert, (Hz (i + k + 1)%nat) by lia; ring.
  - split; [exact Hp|]; split; [intros; lia|]; split; [done|]; split; [intros; lia|].
    exists (modulus (i + k + 1 - w) * (a !!! i / 2 ^ (32 - s))).
    replace (modulus (i + k + 1)) with (modulus (i + k + 1 - w) * modulus w) by (rewrite <- modulus_add; f_equal; lia); ring.
Qed.

Lemma left_step i pn : (i < w)%nat -> left_inv i pn -> left_inv (i + 1) (left_body i pn).
Proof.
  intros Hi Hinv; destruct (left_high i pn Hi Hinv) as (Hp1 & Hz1 & Hsame & Hnew & c & Hv1); unfold left_body.
  set (pn1 := if (i + k + 1 <? w)%nat && _ then _ else pn) in *; destruct Hinv as (Hp & Hz & Hlow & Hv).
  pose proof (uint_word w a i Ha Hi) as Hai; destruct (shifted_word s (a !!! i) Hs Hai) as (Hlo & _ & Hb).
  pose proof (modulus_pos w); pose proof (Z.pow_pos_nonneg 2 (32 - s) ltac:(lia) ltac:(lia)).
  assert (H32 : 2 ^ 32 = 2 ^ s * 2 ^ (32 - s)) by (rewrite <- Z.pow_add_r by lia; f_equal; lia).
  pose proof (Z.mod_pos_bound (a !!! i) (2 ^ (32 - s)) ltac:(lia)) as Hm; pose proof (Z.div_mod (a !!! i) (2 ^ (32 - s)) ltac:(lia)) as Hdm.
  assert (Htake : value (take (i + 1) a) = value (take i a) + modulus i * a !!! i).
  { destruct Ha as [Hla _]; rewrite Nat.add_1_r, (take_S_r a i (a !!! i)) by (apply list_lookup_lookup_total_lt; lia).
    rewrite value_app, length_take, Nat.min_l by lia; cbn [value]; ring. }
  assert (Hval : forall x c, value x = value pn + modulus (i + k) * (2 ^ s * a !!! i) - c * modulus w ->
    value x mod modulus w = (modulus k * 2 ^ s * value (take (i + 1) a)) mod modulus w).
  { intros x c' Hx; rewrite Hx, <- Z.add_opp_r, <- Z.mul_opp_l, Z.mod_add by lia.
    rewrite Z.add_mod, Hv, <- Z.add_mod, Htake, modulus_add by lia; f_equal; ring. }
  destruct (Nat.ltb_spec (i + k) w) as [Hlt|Hge].
  - specialize (Hlow Hlt); rewrite (Hsame Hlt), Hlo, lor_disjoint by lia; destruct Hp1 as [Hl1 Hw1]; split; [split; [by rewrite length_insert|]|split; [|split]].
    + apply words_insert32; [done|unfold word]; nia.
    + intros j Hj; rewrite list_lookup_total_insert_ne by lia; apply Hz1; lia.
    + intros Hj; rewrite list_lookup_total_insert_ne by lia; replace (i + 1 + k)%nat with (i + k + 1)%nat by lia; rewrite Hnew by lia; lia.
    + apply (Hval _ c); rewrite value_insert, (Hsame Hlt), Hv1, (Nat.add_1_r (i + k)), modulus_S, H32 by lia.
      rewrite Hdm at 3; ring.
  - split; [exact Hp1|]; split; [intros; apply Hz1; lia|]; split; [lia|].
    apply (Hval _ (c + modulus (i + k - w) * (2 ^ s * (a !!! i mod 2 ^ (32 - s))))); rewrite Hv1, (Nat.add_1_r (i + k)), modulus_S, H32.
    rewrite Hdm at 2; replace (modulus (i + k)) with (modulus (i + k - w) * modulus w) by (rewrite <- modulus_add; f_equal; lia); ring.
Qed.

Lemma left_loop : uint w (for_range 0 w left_body (zero w)) /\
  value (for_range 0 w left_body (zero w)) = (value a * (modulus k * 2 ^ s)) mod modulus w.
Proof.
  assert (H : left_inv w (for_range 0 w left_body (zero w))).
  { apply for_range_ind; [lia| |intros i pn Hi; apply left_step; lia].
    split; [apply uint_zero|]; split; [|split].
    - intros j Hj; unfold zero; apply lookup_total_replicate_2; lia.
    - intros Hk; unfold zero; rewrite lookup_total_replicate_2 by lia; pose proof (Z.pow_pos_nonneg 2 s ltac:(lia) ltac:(lia)); lia.
    - unfold zero; by rewrite value_zero, take_0, Z.mul_0_r. }
  destruct H as (Hu & _ & _ & Hv); split; [exact Hu|]; rewrite Z.mod_small in Hv by (by apply uint_bound).
  rewrite Hv, take_ge by (destruct Ha; lia); f_equal; ring.
Qed.
End ShiftLeft.

Lemma modulus_shift shift : 0 <= shift -> modulus (Z.to_nat (shift / 32)) * 2 ^ (shift mod 32) = 2 ^ shift.
Proof.
  intros Hs; unfold modulus; rewrite Z2Nat.id by (apply Z.div_pos; lia); pose proof (Z.mod_pos_bound shift 32 ltac:(lia)).
  rewrite <- Z.pow_add_r by (try lia; pose proof (Z.div_pos shift 32); lia); f_equal; rewrite <- Z.div_mod; lia.
Qed.

Lemma shift_left_spec w a shift : uint w a -> 0 <= shift ->
  uint w (shift_left w a shift) /\ value (shift_left w a shift) = (value a * 2 ^ shift) mod modulus w.
Proof.
  intros Ha Hs; rewrite <- (modulus_shift shift Hs); apply left_loop; [done|]; apply Z.mod_pos_bound; lia.
Qed.

(** ** Shift to the right *)

Section ShiftRight.
Context (w : nat) (a : list Z) (Ha : uint w a) (k : nat) (s : Z) (Hs : 0 <= s < 32).

Definition right_body (i : nat) (pn : list Z) : list Z :=
  let pn := if (k + 1 <=? i)%nat && negb (s =? 0)
    then <[(i - k - 1)%nat := Z.lor (pn !!! (i - k - 1)%nat) (u32 (Z.shiftl (a !!! i) (32 - s)))]> pn else pn in
  if (k <=? i)%nat
  then <[(i - k)%nat := Z.lor (pn !!! (i - k)%nat) (Z.shiftr (a !!! i) s)]> pn else pn.

(** Before word [i]: the words from [i - k] on are zero, the one below has the
    high part of the last one. *)
Definition right_inv (i : nat) (pn : list Z) : Prop :=
  uint w pn /\ (forall j, (i - k <= j < w)%nat -> pn !!! j = 0) /\
  ((k + 1 <= i)%nat -> 0 <= pn !!! (i - k - 1)%nat < 2 ^ (32 - s)) /\
  value pn = value (take i a) / (modulus k * 2 ^ s).

(** What one word adds to the quotient. *)
Lemma right_quotient i : (i < w)%nat ->
  value (take (i + 1) a) / (modulus k * 2 ^ s) = value (take i a) / (modulus k * 2 ^ s) +
    (if (k + 1 <=? i)%nat then modulus (i - k - 1) * (2 ^ (32 - s) * (a !!! i mod 2 ^ s)) else 0) +
    (if (k <=? i)%nat then modulus (i - k) * (a !!! i / 2 ^ s) else 0).
Proof.
  intros Hi; pose proof (uint_word w a i Ha Hi) as Hai; destruct Ha as [Hla Hwa].
  assert (Htake : value (take (i + 1) a) = value (take i a) + modulus i * a !!! i).
  { rewrite Nat.add_1_r, (take_S_r a i (a !!! i)) by (apply list_lookup_lookup_total_lt; lia).
    rewrite value_app, length_take, Nat.min_l by lia; cbn [value]; ring. }
  assert (Hb : 0 <= value (take i a) < modulus i).
  { pose proof (value_bound (take i a) (Forall_take _ i _ Hwa)) as H; by rewrite length_take, Nat.min_l in H by lia. }
  pose proof (Z.pow_pos_nonneg 2 s ltac:(lia) ltac:(lia)) as H2; pose proof (modulus_pos k).
  pose proof (Z.div_mod (a !!! i) (2 ^ s) ltac:(lia)) as Hdm; rewrite Htake.
  destruct (Nat.leb_spec k i) as [Hki|Hki], (Nat.leb_spec (k + 1) i) as [Hk1|Hk1]; try lia.
  - assert (Hmi : modulus i = modulus (i - k - 1) * 2 ^ (32 - s) * (modulus k * 2 ^ s)).
    { replace i with (S (i - k - 1) + k)%nat at 1 by lia; rewrite modulus_add, modulus_S.
      assert (2 ^ 32 = 2 ^ s * 2 ^ (32 - s)) as -> by (rewrite <- Z.pow_add_r by lia; f_equal; lia); ring. }
    assert (Hmk : modulus (i - k) = modulus (i - k - 1) * 2 ^ (32 - s) * 2 ^ s).
    { replace (i - k)%nat with (S (i - k - 1)) at 1 by lia; rewrite modulus_S.
      assert (2 ^ 32 = 2 ^ s * 2 ^ (32 - s)) as -> by (rewrite <- Z.pow_add_r by lia; f_equal; lia); ring. }
    rewrite Hmi, Hmk.
    replace (value (take i a) + _) with (value (take i a) + (modulus (i - k - 1) * 2 ^ (32 - s) * a !!! i) * (modulus k * 2 ^ s)) by ring.
    rewrite Z.div_add by nia; rewrite Hdm at 1; ring.
  - replace i with k in * by lia; rewrite Nat.sub_diag; change (modulus 0) with 1.
    rewrite (Z.div_small (value (take k a)) (modulus k * 2 ^ s)) by nia; rewrite <- Z.div_div by lia.
    rewrite (Z.mul_comm (modulus k) (a !!! k)), Z.div_add, (Z.div_small (value (take k a))) by lia; rewrite Z.add_0_l; lia.
  - assert (Hm : modulus i * a !!! i + modulus i <= modulus k).
    { replace (modulus k) with (modulus (S i) * modulus (k - S i)) by (rewrite <- modulus_add; f_equal; lia); rewrite modulus_S.
      pose proof (modulus_pos (k - S i)); pose proof (modulus_pos i); nia. }
    rewrite !Z.div_small by nia; lia.
Qed.

Lemma right_words i : (i < w)%nat ->
  u32 (Z.shiftl (a !!! i) (32 - s)) = 2 ^ (32 - s) * (a !!! i mod 2 ^ s) /\ Z.shiftr (a !!! i) s = a !!! i / 2 ^ s /\
  0 <= a !!! i / 2 ^ s < 2 ^ (32 - s) /\ 0 <= a !!! i mod 2 ^ s < 2 ^ s /\ 2 ^ 32 = 2 ^ s * 2 ^ (32 - s).
Proof.
  intros Hi; pose proof (uint_word w a i Ha Hi) as Hai; pose proof (Z.pow_pos_nonneg 2 s ltac:(lia) ltac:(lia)).
  pose proof (Z.pow_pos_nonneg 2 (32 - s) ltac:(lia) ltac:(lia)).
  assert (H32 : 2 ^ 32 = 2 ^ s * 2 ^ (32 - s)) by (rewrite <- Z.pow_add_r by lia; f_equal; lia).
  split; [|split; [by rewrite Z.shiftr_div_pow2 by lia|split; [split; [apply Z.div_pos|apply Z.div_lt_upper_bound]; lia|split; [|done]]]].
  - unfold u32, wrap; rewrite Z.shiftl_mul_pow2, H32, (Z.mul_comm (a !!! i)), (Z.mul_comm (2 ^ s)) by lia; by rewrite Z.mul_mod_distr_l by lia.
  - apply Z.mod_pos_bound; lia.
Qed.

Lemma right_step i pn : (i < w)%nat -> right_inv i pn -> right_inv (i + 1) (right_body i pn).
Proof.
  intros Hi (Hp & Hz & Hlow & Hv); destruct (right_words i Hi) as (Hlo & Hhi & Hb & Hm & H32); unfold right_body.
  pose proof (right_quotient i Hi) as Hq; set (pn1 := if (k + 1 <=? i)%nat && _ then _ else pn).
  assert (H1 : uint w pn1 /\ (forall j, (i - k <= j < w)%nat -> pn1 !!! j = 0) /\
    value pn1 = value pn + if (k + 1 <=? i)%nat then modulus (i - k - 1) * (2 ^ (32 - s) * (a !!! i mod 2 ^ s)) else 0).
  { unfold pn1; destruct (Nat.leb_spec (k + 1) i) as [Hk|Hk]; cbn [andb]; [|split; [done|]; split; [done|lia]].
    destruct (Z.eqb_spec s 0) as [E|E]; cbn [negb]; [split; [done|]; split; [done|]; rewrite E; change (2 ^ 0) with 1; rewrite Z.mod_1_r; lia|].
    rewrite Hlo, lor_disjoint by (specialize (Hlow Hk); lia); destruct Hp as [Hl Hw]; specialize (Hlow Hk); split; [split|split].
    - by rewrite length_insert.
    - apply words_insert32; [done|unfold word]; nia.
    - intros j Hj; rewrite list_lookup_total_insert_ne by lia; apply Hz; lia.
    - rewrite value_insert by lia; ring. }
  destruct H1 as (Hp1 & Hz1 & Hv1); destruct (Nat.leb_spec k i) as [Hk|Hk].
  - rewrite (Hz1 (i - k)%nat), Z.lor_0_l, Hhi by lia; destruct Hp1 as [Hl1 Hw1]; split; [split|split; [|split]].
    + by rewrite length_insert.
    + apply words_insert32; [done|unfold word]; pose proof (uint_word w a i Ha Hi); split; [lia|].
      apply (Z.le_lt_trans _ (a !!! i)); [|lia]; apply Z.div_le_upper_bound; [lia|]; nia.
    + intros j Hj; rewrite list_lookup_total_insert_ne by lia; apply Hz1; lia.
    + intros _; replace (i + 1 - k - 1)%nat with (i - k)%nat by lia; by rewrite list_lookup_total_insert_eq by lia.
    + rewrite value_insert, (Hz1 (i - k)%nat) by lia; rewrite Hv1, Hv, Hq; ring.
  - split; [exact Hp1|]; split; [intros j Hj; apply Hz1; lia|]; split; [lia|]; rewrite Hv1, Hv, Hq; ring.
Qed.

Lemma right_loop : uint w (for_range 0 w right_body (zero w)) /\
  value (for_range 0 w right_body (zero w)) = value a / (modulus k * 2 ^ s).
Proof.
  assert (H : right_inv w (for_range 0 w right_body (zero w))).
  { apply for_range_ind; [lia| |intros i pn Hi; apply right_step; lia].
    split; [apply uint_zero|]; split; [|split; [lia|]].
    - intros j Hj; unfold zero; apply lookup_total_replicate_2; lia.
    - unfold zero; rewrite value_zero, take_0; cbn [value]; by rewrite Zdiv_0_l. }
  destruct H as (Hu & _ & _ & Hv); split; [exact Hu|]; by rewrite Hv, take_ge by (destruct Ha; lia).
Qed.
End ShiftRight.

Lemma shift_right_spec w a shift : uint w a -> 0 <= shift ->
  uint w (shift_right w a shift) /\ value (shift_right w a shift) = value a / 2 ^ shift.
Proof.
  intros Ha Hs; rewrite <- (modulus_shift shift Hs); apply right_loop; [done|]; apply Z.mod_pos_bound; lia.
Qed.

(** ** Comparison *)

Lemma value_take_S w a n : uint w a -> (n < w)%nat ->
  value (take (S n) a) = value (take n a) + modulus n * a !!! n /\ 0 <= value (take n a) < modulus n.
Proof.
  intros [Hl Hw] Hn; rewrite (take_S_r a n (a !!! n)) by (apply list_lookup_lookup_total_lt; lia).
  rewrite value_app, length_take, Nat.min_l by lia; cbn [value]; split; [ring|].
  pose proof (value_bound (take n a) (Forall_take _ n _ Hw)) as H; by rewrite length_take, Nat.min_l in H by lia.
Qed.

Definition compare_sign (c : comparison) : Z := match c with Lt => -1 | Eq => 0 | Gt => 1 end.

Lemma compare_from_spec n w a b : uint w a -> uint w b -> (n <= w)%nat ->
  compare_from n a b = compare_sign (value (take n a) ?= value (take n b)).
Proof.
  intros Ha Hb; induction n as [|n IH]; intros Hn; [done|]; cbn [compare_from]; rewrite IH by lia.
  destruct (value_take_S w a n Ha ltac:(lia)) as [-> Hba], (value_take_S w b n Hb ltac:(lia)) as [-> Hbb].
  destruct (Z.ltb_spec (a !!! n) (b !!! n)); [|destruct (Z.ltb_spec (b !!! n) (a !!! n))].
  - assert (E : value (take n a) + modulus n * a !!! n < value (take n b) + modulus n * b !!! n) by nia.
    apply Z.compare_lt_iff in E; by rewrite E.
  - assert (E : value (take n b) + modulus n * b !!! n < value (take n a) + modulus n * a !!! n) by nia.
    apply Z.compare_gt_iff in E; by rewrite E.
  - replace (b !!! n) with (a !!! n) by lia; f_equal; rewrite !(Z.add_comm _ (modulus n * _)); by rewrite Z.add_compare_mono_l.
Qed.

Lemma CompareTo_spec w a b : uint w a -> uint w b -> CompareTo w a b = compare_sign (value a ?= value b).
Proof. intros Ha Hb; unfold CompareTo; rewrite (compare_from_spec w w) by (done || lia); rewrite !take_ge by (destruct Ha, Hb; lia); done. Qed.

Lemma greater_spec w a b : uint w a -> uint w b -> greater w a b = (value b <? value a).
Proof.
  intros Ha Hb; unfold greater; rewrite CompareTo_spec by done; by destruct (Z.compare_spec (value a) (value b)), (Z.ltb_spec (value b) (value a)); try lia.
Qed.

Lemma greater_eq_spec w a b : uint w a -> uint w b -> greater_eq w a b = (value b <=? value a).
Proof.
  intros Ha Hb; unfold greater_eq; rewrite CompareTo_spec by done; by destruct (Z.compare_spec (value a) (value b)), (Z.leb_spec (value b) (value a)); try lia.
Qed.

(** ** The number of bits *)

Lemma high_bit_spec n x : 0 < x < 2 ^ (Z.of_nat n + 1) -> high_bit n x = Z.log2 x.
Proof.
  induction n as [|n IH]; intros Hx; cbn [high_bit]; [assert (x = 1) as -> by (change (2 ^ (Z.of_nat 0 + 1)) with 2 in Hx; lia); done|].
  destruct (Z.testbit x (Z.of_nat (S n))) eqn:E.
  - destruct (Z.lt_trichotomy (Z.log2 x) (Z.of_nat (S n))) as [H|[H|H]]; [|done|].
    + rewrite Z.bits_above_log2 in E by lia; done.
    + destruct Hx as [H0 Hx]; apply Z.log2_lt_pow2 in Hx; lia.
  - apply IH; split; [lia|]; apply Z.nle_gt; intros Hge; replace (Z.of_nat n + 1) with (Z.of_nat (S n)) in Hge by lia.
    assert (Hl : Z.log2 x = Z.of_nat (S n)) by (apply Z.log2_unique; [lia|]; split; [lia|]; replace (Z.succ (Z.of_nat (S n))) with (Z.of_nat (S n) + 1) by lia; lia).
    rewrite <- Hl, Z.bit_log2 in E by lia; done.
Qed.

(** The number of bits of a value. *)
Definition bit_length (x : Z) : Z := if x =? 0 then 0 else Z.log2 x + 1.

Lemma bits_from_spec w a n : uint w a -> (n <= w)%nat -> bits_from n a = bit_length (value (take n a)).
Proof.
  intros Ha; induction n as [|n IH]; intros Hn; cbn [bits_from]; [done|]; rewrite IH by lia.
  destruct (value_take_S w a n Ha ltac:(lia)) as [-> Hb]; pose proof (uint_word w a n Ha ltac:(lia)) as Hx; pose proof (modulus_pos n).
  destruct (Z.eqb_spec (a !!! n) 0) as [E|E]; cbn [negb]; [by rewrite E, Z.mul_0_r, Z.add_0_r|].
  rewrite high_bit_spec by (change (2 ^ (Z.of_nat 31 + 1)) with (2 ^ 32); lia); unfold bit_length.
  destruct (Z.eqb_spec (value (take n a) + modulus n * a !!! n) 0) as [E'|E']; [nia|]; f_equal; symmetry.
  assert (Hpos : 0 < a !!! n) by lia; destruct (Z.log2_spec _ Hpos) as [H1 H2]; rewrite Z.pow_succ_r in H2 by apply Z.log2_nonneg; pose proof (Z.log2_nonneg (a !!! n)).
  apply Z.log2_unique; [lia|]; rewrite Z.pow_succ_r, Z.pow_add_r by lia; fold (modulus n); nia.
Qed.

Lemma bits_spec w a : uint w a -> bits w a = bit_length (value a).
Proof. intros Ha; unfold bits; rewrite (bits_from_spec w) by (done || lia); by rewrite take_ge by (destruct Ha; lia). Qed.

(** ** Division *)

Lemma bit_length_bounds x : 0 < x -> 0 < bit_length x /\ 2 ^ (bit_length x - 1) <= x < 2 ^ bit_length x.
Proof.
  intros Hx; unfold bit_length; destruct (Z.eqb_spec x 0); [lia|]; pose proof (Z.log2_nonneg x); split; [lia|].
  replace (Z.log2 x + 1 - 1) with (Z.log2 x) by lia; replace (Z.log2 x + 1) with (Z.succ (Z.log2 x)) by lia; by apply Z.log2_spec.
Qed.

(** Setting the bit of the quotient at [n], above which its bits are. *)
Lemma set_bit_spec w q n : uint w q -> (n < 32 * w)%nat -> (exists c, value q = c * 2 ^ (Z.of_nat n + 1)) ->
  let q' := <[(n / 32)%nat := Z.lor (q !!! (n / 32)%nat) (Z.shiftl 1 (Z.of_nat (n mod 32)))]> q in
  uint w q' /\ value q' = value q + 2 ^ Z.of_nat n.
Proof.
  intros Hq Hn [c Hc] q'; pose proof (Nat.div_mod_eq n 32) as Hdm; pose proof (Nat.mod_upper_bound n 32 ltac:(lia)) as Hr.
  set (i := (n / 32)%nat) in *; set (r := (n mod 32)%nat) in *; assert (Hi : (i < w)%nat) by lia.
  pose proof (uint_word w q i Hq Hi) as Hx; pose proof Hq as [Hl Hw].
  assert (Hlow : exists d, q !!! i = 2 ^ (Z.of_nat r + 1) * d).
  { pose proof (value_split q i ltac:(lia)) as Hs; pose proof (value_bound (take i q) (Forall_take _ i _ Hw)) as Hb.
    rewrite length_take, Nat.min_l in Hb by lia.
    assert (Hp : 2 ^ (Z.of_nat n + 1) = modulus i * 2 ^ (Z.of_nat r + 1)) by (unfold modulus; rewrite <- Z.pow_add_r by lia; f_equal; lia).
    assert (H32 : 2 ^ 32 = 2 ^ (Z.of_nat r + 1) * 2 ^ (31 - Z.of_nat r)) by (rewrite <- Z.pow_add_r by lia; f_equal; lia).
    assert (Hz : q !!! i + 2 ^ 32 * value (drop (i + 1) q) = c * 2 ^ (Z.of_nat r + 1)) by (pose proof (modulus_pos i); nia).
    exists (c - 2 ^ (31 - Z.of_nat r) * value (drop (i + 1) q)); rewrite H32 in Hz; lia. }
  destruct Hlow as [d Hd]; assert (Hlor : Z.lor (q !!! i) (Z.shiftl 1 (Z.of_nat r)) = q !!! i + 2 ^ Z.of_nat r).
  { rewrite Hd, Z.shiftl_1_l, Z.lor_comm, lor_disjoint; [ring|lia|].
    split; [apply Z.pow_nonneg; lia|apply Z.pow_lt_mono_r; lia]. }
  unfold q'; rewrite Hlor; split; [split; [by rewrite length_insert|apply words_insert32; [done|unfold word]]|].
  - assert (H32 : 2 ^ 32 = 2 ^ (Z.of_nat r + 1) * 2 ^ (31 - Z.of_nat r)) by (rewrite <- Z.pow_add_r by lia; f_equal; lia).
    pose proof (Z.pow_pos_nonneg 2 (Z.of_nat r) ltac:(lia) ltac:(lia)); assert (Hp1 : 2 ^ (Z.of_nat r + 1) = 2 * 2 ^ Z.of_nat r) by (rewrite Z.pow_add_r by lia; ring).
    rewrite H32, Hd in *; assert (d < 2 ^ (31 - Z.of_nat r)) by (apply (Z.mul_lt_mono_pos_l (2 ^ (Z.of_nat r + 1))); lia); rewrite Hp1 in *; nia.
  - rewrite value_insert by lia; replace (2 ^ Z.of_nat n) with (modulus i * 2 ^ Z.of_nat r); [ring|].
    unfold modulus; rewrite <- Z.pow_add_r by lia; f_equal; lia.
Qed.

(** The long division: with [div = D * 2^shift] the loop adds [num / D] to a
    quotient that has no bit below [fuel]. *)
Lemma divide_loop_spec w D fuel : (1 <= w)%nat -> 0 < D -> forall num div q, uint w num -> uint w div -> uint w q -> (fuel <= 32 * w)%nat ->
  2 * value div = D * 2 ^ Z.of_nat fuel \/ fuel = O -> value num < D * 2 ^ Z.of_nat fuel -> (exists c, value q = c * 2 ^ Z.of_nat fuel) ->
  uint w (divide_loop w fuel num div q) /\ value (divide_loop w fuel num div q) = value q + value num / D.
Proof.
  intros Hw HD; induction fuel as [|n IH]; intros num div q Hn Hd Hq Hf Hdiv Hlt Hm; cbn [divide_loop].
  - split; [done|]; rewrite Z.div_small; [lia|]; pose proof (uint_bound w num Hn); change (2 ^ Z.of_nat 0) with 1 in Hlt; lia.
  - destruct Hdiv as [Hdiv|]; [|lia]; rewrite Nat2Z.inj_succ, Z.pow_succ_r in Hdiv, Hlt by lia.
    assert (Hv : value div = D * 2 ^ Z.of_nat n) by lia; pose proof (uint_bound w num Hn) as Hbn; pose proof (uint_bound w div Hd) as Hbd.
    destruct (shift_right_spec w div 1 Hd ltac:(lia)) as [Hsu Hsv]; change (2 ^ 1) with 2 in Hsv.
    assert (Hdiv' : 2 * value (shift_right w div 1) = D * 2 ^ Z.of_nat n \/ n = O).
    { destruct n as [|m]; [by right|left]; rewrite Hsv, Hv, Nat2Z.inj_succ, Z.pow_succ_r by lia.
      replace (D * (2 * 2 ^ Z.of_nat m)) with (D * 2 ^ Z.of_nat m * 2) by ring; rewrite Z.div_mul by lia; ring. }
    rewrite greater_eq_spec by done; destruct (Z.leb_spec (value div) (value num)) as [Hle|Hgt].
    + destruct (subtract_spec w num div Hw Hn Hd) as [Hu1 Hv1]; rewrite Z.mod_small in Hv1 by lia.
      replace (Z.succ (Z.of_nat n)) with (Z.of_nat n + 1) in * by lia; rewrite Nat2Z.inj_succ, <- Z.add_1_r in Hm.
      destruct (set_bit_spec w q n Hq ltac:(lia) Hm) as [Hu2 Hv2]; set (q' := <[(n / 32)%nat := _]> q) in *.
      destruct (IH _ _ q' Hu1 Hsu Hu2 ltac:(lia) Hdiv') as [Hu3 Hv3]; [lia| |].
      * destruct Hm as [c Hc]; exists (2 * c + 1); rewrite Hv2, Hc, Z.pow_add_r by lia; ring.
      * split; [exact Hu3|]; rewrite Hv3, Hv2, Hv1; replace (value num) with (value num - value div + 2 ^ Z.of_nat n * D) at 2 by lia.
        rewrite Z.div_add by lia; ring.
    + apply IH; try done; [lia|lia|]; destruct Hm as [c Hc]; exists (2 * c); rewrite Hc, Nat2Z.inj_succ, Z.pow_succ_r by lia; ring.
Qed.

Lemma divide_spec w num div : (1 <= w)%nat -> uint w num -> uint w div ->
  match divide w num div with
  | None => value div = 0
  | Some q => value div <> 0 /\ uint w q /\ value q = value num / value div
  end.
Proof.
  intros Hw Hn Hd; unfold divide; rewrite !(bits_spec w) by done; pose proof (uint_bound w num Hn) as Hbn; pose proof (uint_bound w div Hd) as Hbd.
  destruct (Z.eqb_spec (bit_length (value div)) 0) as [E|E].
  { destruct (Z.eq_dec (value div) 0) as [|Hne]; [done|]; pose proof (bit_length_bounds (value div) ltac:(lia)); lia. }
  assert (Hpos : 0 < value div) by (destruct (Z.eq_dec (value div) 0) as [H0|]; [rewrite H0 in E; done|lia]).
  destruct (bit_length_bounds (value div) Hpos) as [Hp0 Hdb]; set (db := bit_length (value div)) in *; clearbody db.
  assert (Hnb : 0 <= bit_length (value num) /\ value num < 2 ^ bit_length (value num) /\ (0 < value num -> 2 ^ (bit_length (value num) - 1) <= value num)).
  { destruct (Z.eq_dec (value num) 0) as [H0|H0]; [rewrite H0; cbn; lia|]; destruct (bit_length_bounds (value num) ltac:(lia)); lia. }
  destruct Hnb as (Hn0 & Hnb & Hnl); set (nb := bit_length (value num)) in *; destruct (Z.ltb_spec nb db) as [Hlt|Hge].
  - split; [lia|]; split; [apply uint_zero|]; unfold zero; rewrite value_zero, Z.div_small; [done|].
    split; [lia|]; apply (Z.lt_le_trans _ (2 ^ nb)); [lia|]; apply (Z.le_trans _ (2 ^ (db - 1))); [apply Z.pow_le_mono_r; lia|lia].
  - assert (Hnpos : 0 < value num) by (destruct (Z.eq_dec (value num) 0) as [H0|]; [unfold nb in Hge; rewrite H0 in Hge; cbn in Hge; lia|lia]).
    specialize (Hnl Hnpos); clearbody nb; destruct (shift_left_spec w div (nb - db) Hd ltac:(lia)) as [Hsu Hsv].
    assert (Hnw : nb <= 32 * Z.of_nat w).
    { apply Z.nlt_ge; intros Hc; assert (modulus w <= 2 ^ (nb - 1)) by (apply Z.pow_le_mono_r; lia); lia. }
    assert (Hfit : value div * 2 ^ (nb - db) < modulus w).
    { apply (Z.lt_le_trans _ (2 ^ db * 2 ^ (nb - db))); [apply Z.mul_lt_mono_pos_r; [apply Z.pow_pos_nonneg|]; lia|].
      rewrite <- Z.pow_add_r by lia; apply Z.pow_le_mono_r; lia. }
    rewrite Z.mod_small in Hsv by (split; [apply Z.mul_nonneg_nonneg; [lia|apply Z.pow_nonneg; lia]|done]).
    rewrite Nat.add_1_r; set (q := divide_loop w _ _ _ _).
    assert (Hq : uint w q /\ value q = value (zero w) + value num / value div).
    { apply divide_loop_spec; try done; [apply uint_zero|lia| | |exists 0; unfold zero; by rewrite value_zero].
      - left; rewrite Hsv, Nat2Z.inj_succ, Z2Nat.id, Z.pow_succ_r by lia; ring.
      - rewrite Nat2Z.inj_succ, Z2Nat.id by lia; apply (Z.lt_le_trans _ (2 ^ (db - 1) * 2 ^ Z.succ (nb - db))).
        + rewrite <- Z.pow_add_r by lia; apply (Z.lt_le_trans _ (2 ^ nb)); [lia|apply Z.pow_le_mono_r; lia].
        + apply Z.mul_le_mono_nonneg_r; [apply Z.pow_nonneg|]; lia. }
    destruct Hq as [Hu Hv]; unfold zero in Hv; rewrite value_zero in Hv; split; [lia|]; split; [done|lia].
Qed.
