(* ===== verification/Arith256Compact.v ===== *)
(** The compact form of a 256-bit target: three bytes of mantissa and a size. *)

From S2P Require Import Prelude Arith256 Arith256Proofs.

(** ** Small values *)

Lemma value_of_uint64 w b : (2 <= w)%nat -> word 64 b -> uint w (of_uint64 w b) /\ value (of_uint64 w b) = b.
Proof.
  intros Hw Hb; unfold word in Hb; unfold of_uint64; pose proof (uint_zero w) as [Hl Hz]; unfold zero in *.
  rewrite shiftr_high; assert (Hhi : word 32 (u32 (b / 2 ^ 32))) by apply u32_word.
  split; [split; [by rewrite !length_insert|by apply words_insert32; [apply words_insert32; [done|apply u32_word]|]]|].
  rewrite !value_insert, list_lookup_total_insert_ne, value_zero by (rewrite ?length_insert; lia).
  rewrite !lookup_total_replicate_2 by lia; change (modulus 0) with 1; change (modulus 1) with (2 ^ 32).
  unfold u32; rewrite (wrap_id 32 (b / 2 ^ 32)) by (unfold word; split; [apply Z.div_pos|apply Z.div_lt_upper_bound]; lia).
  unfold wrap; pose proof (Z.div_mod b (2 ^ 32) ltac:(lia)); lia.
Qed.

Lemma GetLow64_spec w a : (2 <= w)%nat -> uint w a -> GetLow64 a = value a mod 2 ^ 64.
Proof.
  intros Hw Ha; pose proof (uint_word w a 0 Ha ltac:(lia)) as H0; pose proof (uint_word w a 1 Ha ltac:(lia)) as H1; destruct Ha as [Hl _].
  unfold GetLow64; rewrite Z.shiftl_mul_pow2, Z.mul_comm, lor_disjoint by lia.
  destruct a as [|x0 [|x1 a]]; cbn [length] in Hl; try lia; cbn in H0, H1; change ((x0 :: x1 :: a) !!! 0%nat) with x0; change ((x0 :: x1 :: a) !!! 1%nat) with x1.
  cbn [value]; apply (Z.mod_unique_pos _ _ (value a)); [|ring]; lia.
Qed.

Lemma value_is_zero l : words 32 l -> forallb (fun x => x =? 0) l = (value l =? 0).
Proof.
  induction 1 as [|x l Hx Hwl IH]; [done|]; cbn [forallb value]; rewrite IH; pose proof (value_bound l Hwl); unfold word in Hx.
  destruct (Z.eqb_spec x 0), (Z.eqb_spec (value l) 0), (Z.eqb_spec (x + 2 ^ 32 * value l) 0); cbn [andb]; (done || lia).
Qed.

Lemma EqualTo_spec w a b : (2 <= w)%nat -> uint w a -> word 64 b -> EqualTo w a b = (value a =? b).
Proof.
  intros Hw Ha Hb; unfold word in Hb; pose proof (uint_word w a 0 Ha ltac:(lia)) as H0; pose proof (uint_word w a 1 Ha ltac:(lia)) as H1.
  pose proof Ha as [Hl Hwa]; unfold EqualTo; rewrite land_low, shiftr_high.
  assert (Hv : value a = a !!! 0%nat + 2 ^ 32 * a !!! 1%nat + 2 ^ 64 * value (drop 2 a)).
  { destruct a as [|x0 [|x1 a]]; cbn [length] in Hl; try lia; change ((x0 :: x1 :: a) !!! 0%nat) with x0; change ((x0 :: x1 :: a) !!! 1%nat) with x1; change (drop 2 (x0 :: x1 :: a)) with a; cbn [value]; ring. }
  assert (Hz : forallb (fun i => a !!! i =? 0) (seq 2 (w - 2)) = (value (drop 2 a) =? 0)).
  { assert (Hd : forallb (fun i => a !!! i =? 0) (seq 2 (w - 2)) = forallb (fun x => x =? 0) (drop 2 a)).
    { assert (E : drop 2 a = map (fun i => a !!! i) (seq 2 (w - 2))).
      { apply (list_eq_same_length _ _ (w - 2)); [by rewrite length_map, length_seq|rewrite length_drop; lia|].
        intros i x y Hi Hx Hy; rewrite lookup_drop in Hx; rewrite list_lookup_fmap, lookup_seq_lt in Hy by lia; cbn in Hy; injection Hy as <-.
        symmetry; by apply list_lookup_total_correct. }
      rewrite E; clear; generalize (seq 2 (w - 2)); induction l as [|i l IH]; cbn; [done|by rewrite IH]. }
    rewrite Hd; by apply value_is_zero, Forall_drop. }
  rewrite Hz, Hv; pose proof (value_bound (drop 2 a) (Forall_drop _ 2 _ Hwa)); pose proof (Z.div_mod b (2 ^ 32) ltac:(lia)); pose proof (Z.mod_pos_bound b (2 ^ 32) ltac:(lia)).
  assert (0 <= b / 2 ^ 32 < 2 ^ 32) by (split; [apply Z.div_pos|apply Z.div_lt_upper_bound]; lia).
  destruct (Z.eqb_spec (value (drop 2 a)) 0), (Z.eqb_spec (a !!! 1%nat) (b / 2 ^ 32)), (Z.eqb_spec (a !!! 0%nat) (b mod 2 ^ 32));
    cbn [andb]; symmetry; first [apply Z.eqb_eq|apply Z.eqb_neq]; nia.
Qed.

(** ** Bits *)

Lemma split_testbit x a i : 0 <= x < 2 ^ 32 -> 0 <= i -> Z.testbit (x + 2 ^ 32 * a) i = if i <? 32 then Z.testbit x i else Z.testbit a (i - 32).
Proof.
  intros Hx Hi; rewrite <- lor_disjoint by lia; rewrite Z.lor_spec, (Z.mul_comm (2 ^ 32)), Z.mul_pow2_bits by lia.
  destruct (Z.ltb_spec i 32); [rewrite (Z.testbit_neg_r a) by lia; apply orb_false_r|].
  by rewrite (testbit_word 32 x i) by (unfold word; lia).
Qed.

(** A bitwise operation, word by word. *)
Section Bitwise.
Context (op : Z -> Z -> Z) (b : bool -> bool -> bool) (Hop : forall x y i, Z.testbit (op x y) i = b (Z.testbit x i) (Z.testbit y i)) (Hb : b false false = false)
  (Hpos : forall x y, 0 <= x -> 0 <= y -> 0 <= op x y).

Lemma bitwise_word x y : 0 <= x < 2 ^ 32 -> 0 <= y < 2 ^ 32 -> 0 <= op x y < 2 ^ 32.
Proof.
  intros Hx Hy; apply (bits_word 32); [lia|intros i Hi|apply Hpos; lia]; rewrite Hop, !(testbit_word 32) by (unfold word; lia); exact Hb.
Qed.

Lemma bitwise_split x y v w : 0 <= x < 2 ^ 32 -> 0 <= y < 2 ^ 32 -> op (x + 2 ^ 32 * v) (y + 2 ^ 32 * w) = op x y + 2 ^ 32 * op v w.
Proof.
  intros Hx Hy; apply Z.bits_inj'; intros i Hi; rewrite Hop, !split_testbit by (try apply bitwise_word; lia).
  destruct (i <? 32); by rewrite Hop.
Qed.

Lemma bitwise_value x y : words 32 x -> words 32 y -> length x = length y -> words 32 (zip_with op x y) /\ value (zip_with op x y) = op (value x) (value y).
Proof.
  intros Hx; revert y; induction Hx as [|a x Ha Hx IH]; intros [|c y] Hy Hl; try discriminate Hl.
  - split; [constructor|]; apply Z.bits_inj'; intros i Hi; cbn [value zip_with]; by rewrite Hop, Z.bits_0, Hb.
  - apply list.Forall_cons in Hy as [Hc Hy]; injection Hl as Hl; destruct (IH y Hy Hl) as [Hw Hv].
    split; [constructor; [by apply bitwise_word|done]|]; cbn [zip_with value]; by rewrite Hv, bitwise_split.
Qed.

Lemma bitwise_loop w x y : uint w x -> uint w y ->
  for_range 0 w (fun i pn => <[i := op (pn !!! i) (y !!! i)]> pn) x = zip_with op x y.
Proof.
  intros [Hx _] [Hy _]; set (r := for_range _ _ _ _).
  assert (H : r = zip_with op (take w x) (take w y) ++ drop w x).
  { apply (for_range_ind (fun i pn => pn = zip_with op (take i x) (take i y) ++ drop i x)); [lia|done|]; intros i pn Hi ->.
    assert (Hz : length (zip_with op (take i x) (take i y)) = i) by (rewrite length_zip_with, !length_take; lia).
    assert (Hxi : x !! i = Some (x !!! i)) by (apply list_lookup_lookup_total_lt; lia).
    rewrite lookup_total_app_r, Hz, Nat.sub_diag by lia; rewrite (drop_S x (x !!! i) i Hxi), insert_app_r_alt, Hz, Nat.sub_diag by lia.
    cbn [list_insert insert lookup_total list_lookup_total]; rewrite Nat.add_1_r, (take_S_r x i _ Hxi), (take_S_r y i (y !!! i)) by (apply list_lookup_lookup_total_lt; lia).
    rewrite zip_with_app by (rewrite !length_take; lia); by rewrite <- app_assoc. }
  rewrite H, !take_ge, drop_ge, app_nil_r by lia; done.
Qed.

Lemma bitwise_spec w x y : uint w x -> uint w y ->
  let r := for_range 0 w (fun i pn => <[i := op (pn !!! i) (y !!! i)]> pn) x in uint w r /\ value r = op (value x) (value y).
Proof.
  intros Hx Hy r; unfold r; rewrite (bitwise_loop w x y Hx Hy); destruct Hx as [Hlx Hwx], Hy as [Hly Hwy].
  destruct (bitwise_value x y Hwx Hwy ltac:(lia)) as [H1 H2]; split; [split; [rewrite length_zip_with; lia|exact H1]|exact H2].
Qed.

Lemma bitwise_uint64 w x c : (2 <= w)%nat -> uint w x -> word 64 c -> (forall v, op v 0 = v) ->
  let r := <[1%nat := op ((<[0%nat := op (x !!! 0%nat) (u32 c)]> x) !!! 1%nat) (u32 (Z.shiftr c 32))]> (<[0%nat := op (x !!! 0%nat) (u32 c)]> x) in
  uint w r /\ value r = op (value x) c.
Proof.
  intros Hw [Hl Hx] Hc H0 r; destruct x as [|x0 [|x1 x]]; cbn [length] in Hl; try lia.
  apply list.Forall_cons in Hx as [Hx0 Hx]; apply list.Forall_cons in Hx as [Hx1 Hx].
  change r with (op x0 (u32 c) :: op x1 (u32 (Z.shiftr c 32)) :: x); pose proof (u32_word c) as Hc0; pose proof (u32_word (Z.shiftr c 32)) as Hc1; unfold word in *.
  split; [split; [cbn [length]; lia|repeat constructor; [by apply bitwise_word..|exact Hx]]|]; cbn [value].
  assert (Hcv : c = u32 c + 2 ^ 32 * (u32 (Z.shiftr c 32) + 2 ^ 32 * 0)).
  { unfold u32; rewrite shiftr_high, (wrap_id 32 (c / 2 ^ 32)) by (unfold word; split; [apply Z.div_pos|apply Z.div_lt_upper_bound]; lia).
    unfold wrap; pose proof (Z.div_mod c (2 ^ 32) ltac:(lia)); lia. }
  rewrite Hcv at 3; rewrite !bitwise_split, H0 by done; done.
Qed.
End Bitwise.

(** ** Decrement, zero *)

Lemma decrement_from_spec fuel : forall i w pn, uint w pn -> (i < w)%nat -> (w - i <= fuel)%nat ->
  uint w (decrement_from w fuel i pn) /\ exists c, value (decrement_from w fuel i pn) = value pn - modulus i + c * modulus w.
Proof.
  induction fuel as [|fuel IH]; intros i w pn Hp Hi Hf; [lia|]; cbn [decrement_from].
  pose proof (uint_word w pn i Hp Hi) as Hx; destruct Hp as [Hl Hw]; set (pn1 := <[i := u32 (pn !!! i - 1)]> pn).
  assert (Hi1 : pn1 !!! i = u32 (pn !!! i - 1)) by (apply list_lookup_total_insert_eq; lia).
  assert (Hp1 : uint w pn1) by (split; [by unfold pn1; rewrite length_insert|apply words_insert32; [done|apply u32_word]]).
  assert (Hv1 : value pn1 = value pn + modulus i * (u32 (pn !!! i - 1) - pn !!! i)) by (apply value_insert; lia).
  rewrite Hi1; change (u32 (-1)) with (2 ^ 32 - 1); destruct (Z.eq_dec (pn !!! i) 0) as [E|E].
  - assert (Hu : u32 (pn !!! i - 1) = 2 ^ 32 - 1) by (by rewrite E); rewrite Hu, Z.eqb_refl in *; cbn [andb].
    destruct (Nat.ltb_spec i (w - 1)) as [Hlt|Hge].
    + destruct (IH (i + 1)%nat w pn1 Hp1 ltac:(lia) ltac:(lia)) as (H1 & c & H2); split; [exact H1|exists c].
      rewrite H2, Hv1, E, Nat.add_1_r, modulus_S; ring.
    + split; [exact Hp1|exists 1]; replace w with (S i) by lia; rewrite Hv1, E, modulus_S; ring.
  - assert (Hu : u32 (pn !!! i - 1) = pn !!! i - 1) by (apply u32_id; unfold word; lia); rewrite Hu in *.
    destruct (Z.eqb_spec (pn !!! i - 1) (2 ^ 32 - 1)); [lia|]; cbn [andb]; split; [exact Hp1|exists 0]; rewrite Hv1; ring.
Qed.

Lemma decrement_spec w a : (1 <= w)%nat -> uint w a -> uint w (decrement w a) /\ value (decrement w a) = (value a - 1) mod modulus w.
Proof.
  intros Hw Ha; unfold decrement; destruct (decrement_from_spec w 0 w a Ha ltac:(lia) ltac:(lia)) as (Hu & c & Hv); split; [exact Hu|].
  pose proof (uint_bound w _ Hu); apply (Z.mod_unique_pos _ _ (- c)); [lia|]; rewrite Hv; change (modulus 0) with 1; ring.
Qed.

Lemma arith_increment_spec w a : (1 <= w)%nat -> uint w a -> uint w (increment w a) /\ value (increment w a) = (value a + 1) mod modulus w.
Proof.
  intros Hw Ha; unfold increment; destruct (increment_from_spec w 0 w a Ha ltac:(lia) ltac:(lia)) as (Hu & c & Hv); split; [exact Hu|].
  pose proof (uint_bound w _ Hu); apply (Z.mod_unique_pos _ _ c); [lia|]; rewrite Hv; change (modulus 0) with 1; ring.
Qed.

Lemma value_inj x y : words 32 x -> words 32 y -> length x = length y -> value x = value y -> x = y.
Proof.
  intros Hx; revert y; induction Hx as [|a x Ha _ IH]; intros [|b y] Hy Hl; try discriminate Hl; [done|]; cbn [value]; intros Hv.
  apply list.Forall_cons in Hy as [Hb Hy]; injection Hl as Hl; unfold word in *; assert (a = b) as -> by lia; f_equal; apply IH; (done || lia).
Qed.

Lemma equal_spec w a b : uint w a -> uint w b -> equal a b = (value a =? value b).
Proof.
  intros [Hla Ha] [Hlb Hb]; unfold equal; destruct (Z.eqb_spec (value a) (value b)) as [E|E].
  - apply bool_decide_true, value_inj; (done || congruence).
  - apply bool_decide_false; congruence.
Qed.

Lemma is_zero_spec w a : uint w a -> is_zero w a = (value a =? 0).
Proof.
  intros [Hl Ha]; rewrite <- (value_is_zero a Ha); unfold is_zero; rewrite <- Hl; clear Hl Ha.
  induction a as [|x a IH]; [done|]; cbn [length seq forallb]; rewrite <- seq_shift.
  change ((x :: a) !!! 0%nat) with x; f_equal; rewrite <- IH; generalize (seq 0 (length a)); induction l as [|i l IHl]; cbn; [done|]; by rewrite IHl.
Qed.

Lemma order_spec w a b : uint w a -> uint w b -> less w a b = (value a <? value b) /\ less_eq w a b = (value a <=? value b).
Proof.
  intros Ha Hb; unfold less, less_eq; rewrite CompareTo_spec by done.
  destruct (Z.compare_spec (value a) (value b)), (Z.ltb_spec (value a) (value b)), (Z.leb_spec (value a) (value b)); cbn; (done || lia).
Qed.

(** ** The compact form *)

(** The number that mantissa [m] and size [s] stand for. *)
Definition compact_value (m s : Z) : Z := m * 256 ^ s / 256 ^ 3.

Lemma pow256 n : 0 <= n -> 256 ^ n = 2 ^ (8 * n).
Proof. intros; change 256 with (2 ^ 8); by rewrite <- Z.pow_mul_r by lia. Qed.

Lemma pow256_pos n : 0 <= n -> 0 < 256 ^ n.
Proof. intros; apply Z.pow_pos_nonneg; lia. Qed.

Lemma compact_value_small m s : 0 <= s <= 3 -> compact_value m s = m / 256 ^ (3 - s).
Proof.
  intros Hs; unfold compact_value; pose proof (pow256_pos s ltac:(lia)); pose proof (pow256_pos (3 - s) ltac:(lia)).
  replace (256 ^ 3) with (256 ^ (3 - s) * 256 ^ s) by (rewrite <- Z.pow_add_r by lia; f_equal; lia); by rewrite Z.div_mul_cancel_r by lia.
Qed.

Lemma compact_value_big m s : 3 <= s -> compact_value m s = m * 256 ^ (s - 3).
Proof.
  intros Hs; unfold compact_value; replace (256 ^ s) with (256 ^ (s - 3) * 256 ^ 3) by (rewrite <- Z.pow_add_r by lia; f_equal; lia).
  rewrite Z.mul_assoc; by rewrite Z.div_mul by lia.
Qed.

(** When the exact value needs more than 256 bits. *)
Lemma overflow_spec m s : 0 <= m < 2 ^ 23 -> 3 < s ->
  negb (m =? 0) && ((34 <? s) || ((0xff <? m) && (33 <? s)) || ((0xffff <? m) && (32 <? s))) = (2 ^ 256 <=? compact_value m s).
Proof.
  intros Hm Hs; rewrite compact_value_big by lia.
  destruct (Z.le_gt_cases s 34) as [H34|H34].
  - assert (Hc : s = 34 \/ s = 33 \/ s <= 32) by lia; destruct Hc as [->|[->|H32]].
    + change (256 ^ (34 - 3)) with (2 ^ 248); change (2 ^ 256) with (256 * 2 ^ 248).

      destruct (Z.eqb_spec m 0), (Z.ltb_spec 0xff m), (Z.ltb_spec 0xffff m), (Z.leb_spec (256 * 2 ^ 248) (m * 2 ^ 248)); cbn; (done || nia).
    + change (256 ^ (33 - 3)) with (2 ^ 240); change (2 ^ 256) with (65536 * 2 ^ 240).
      destruct (Z.eqb_spec m 0), (Z.ltb_spec 0xff m), (Z.ltb_spec 0xffff m), (Z.leb_spec (65536 * 2 ^ 240) (m * 2 ^ 240)); cbn; (done || nia).
    + assert (Hlt : m * 256 ^ (s - 3) < 2 ^ 256).
      { apply (Z.lt_le_trans _ (2 ^ 24 * 256 ^ 29)); [|done]; pose proof (pow256_pos (s - 3) ltac:(lia)).
        assert (256 ^ (s - 3) <= 256 ^ 29) by (apply Z.pow_le_mono_r; lia); nia. }
      destruct (Z.ltb_spec 34 s), (Z.ltb_spec 33 s), (Z.ltb_spec 32 s), (Z.leb_spec (2 ^ 256) (m * 256 ^ (s - 3))); try lia.
  - destruct (Z.ltb_spec 34 s); [|lia]; cbn [orb]; rewrite andb_true_r; assert (256 ^ 32 <= 256 ^ (s - 3)) by (apply Z.pow_le_mono_r; lia).
    destruct (Z.eqb_spec m 0) as [->|Hne]; cbn [negb]; [done|]; symmetry; apply Z.leb_le; change (2 ^ 256) with (256 ^ 32); nia.
Qed.

(** The mantissa, the sign and the size of the 32-bit form. *)
Definition mantissa (c : Z) : Z := c mod 2 ^ 23.
Definition sign (c : Z) : bool := Z.testbit c 23.
Definition size (c : Z) : Z := c / 2 ^ 24.

Lemma land_pow2 x n : 0 <= n -> (Z.land x (2 ^ n) =? 0) = negb (Z.testbit x n).
Proof.
  intros Hn; destruct (Z.testbit x n) eqn:E; cbn [negb].
  - apply Z.eqb_neq; intros H; assert (H' : Z.testbit (Z.land x (2 ^ n)) n = true) by (by rewrite Z.land_spec, E, Z.pow2_bits_true).
    by rewrite H, Z.bits_0 in H'.
  - apply Z.eqb_eq, Z.bits_inj'; intros i Hi; rewrite Z.land_spec, Z.bits_0.
    destruct (Z.eq_dec i n) as [->|Hne]; [by rewrite E|by rewrite Z.pow2_bits_false, andb_false_r by lia].
Qed.

Lemma SetCompact_spec c : word 32 c ->
  let exact := compact_value (mantissa c) (size c) in
  uint 8 (c_target (SetCompact c)) /\ value (c_target (SetCompact c)) = exact mod 2 ^ 256 /\
  c_negative (SetCompact c) = sign c && negb (exact =? 0) /\ c_overflow (SetCompact c) = (2 ^ 256 <=? exact).
Proof.
  intros Hc exact; unfold word in Hc; unfold SetCompact.
  change 0x007fffff with (Z.ones 23); rewrite Z.land_ones, Z.shiftr_div_pow2 by lia; fold (mantissa c) (size c).
  change 0x00800000 with (2 ^ 23); rewrite land_pow2, negb_involutive by lia; fold (sign c).
  assert (Hm : 0 <= mantissa c < 2 ^ 23) by (apply Z.mod_pos_bound; lia).
  assert (Hs : 0 <= size c < 256) by (unfold size; split; [apply Z.div_pos|apply Z.div_lt_upper_bound]; lia).
  destruct (Z.leb_spec (size c) 3) as [H3|H3]; cbn [c_target c_negative c_overflow].
  - rewrite Z.shiftr_div_pow2, <- pow256, <- compact_value_small by lia; fold exact.
    assert (He : 0 <= exact <= mantissa c).
    { unfold exact; rewrite compact_value_small by lia; pose proof (pow256_pos (3 - size c) ltac:(lia)); split; [apply Z.div_pos; lia|apply Z.div_le_upper_bound; nia]. }
    destruct (value_of_uint64 8 exact ltac:(lia) ltac:(unfold word; lia)) as [Hu Hv]; split; [done|].
    rewrite Hv, Z.mod_small by lia; split; [done|]; split; [by rewrite andb_comm|].
    destruct (Z.ltb_spec 34 (size c)), (Z.ltb_spec 33 (size c)), (Z.ltb_spec 32 (size c)), (Z.leb_spec (2 ^ 256) exact); try lia.
  - destruct (value_of_uint64 8 (mantissa c) ltac:(lia) ltac:(unfold word; lia)) as [Hu Hv].
    destruct (shift_left_spec 8 _ (8 * (size c - 3)) Hu ltac:(lia)) as [Hu' Hv']; split; [done|].
    rewrite Hv', Hv, <- pow256, <- compact_value_big by lia; split; [done|]; split; [|by apply overflow_spec].
    rewrite andb_comm; do 2 f_equal; unfold exact; rewrite compact_value_big by lia; pose proof (pow256_pos (size c - 3) ltac:(lia)).
    destruct (Z.eqb_spec (mantissa c) 0), (Z.eqb_spec (mantissa c * 256 ^ (size c - 3)) 0); (done || nia).
Qed.

(** ** The way back *)

Lemma byte_size v : 0 < v < 2 ^ 256 -> let s := (bit_length v + 7) / 8 in 1 <= s <= 32 /\ 2 ^ 16 * 256 ^ s <= v * 256 ^ 3 < 2 ^ 24 * 256 ^ s.
Proof.
  intros Hv s; destruct (bit_length_bounds v ltac:(lia)) as [Hb [Hlo Hhi]].
  assert (Hb256 : bit_length v <= 256) by (apply Z.nlt_ge; intros H; assert (2 ^ 256 <= 2 ^ (bit_length v - 1)) by (apply Z.pow_le_mono_r; lia); lia).
  pose proof (Z.div_mod (bit_length v + 7) 8 ltac:(lia)) as Hdm; pose proof (Z.mod_pos_bound (bit_length v + 7) 8 ltac:(lia)); fold s in Hdm.
  assert (Hs : 1 <= s <= 32) by lia; split; [exact Hs|]; rewrite pow256 by lia; change (256 ^ 3) with (2 ^ 24); split.
  - apply (Z.le_trans _ (2 ^ (bit_length v - 1) * 2 ^ 24)); [|lia]; rewrite <- !Z.pow_add_r by lia; apply Z.pow_le_mono_r; lia.
  - rewrite (Z.mul_comm (2 ^ 24)); apply Z.mul_lt_mono_pos_r; [lia|]; apply (Z.lt_le_trans _ (2 ^ bit_length v)); [lia|apply Z.pow_le_mono_r; lia].
Qed.

(** The mantissa before the sign bit is kept free. *)
Lemma raw_mantissa a : uint 8 a -> let v := value a in let s := (bit_length v + 7) / 8 in
  (if s <=? 3 then u32 (Z.shiftl (GetLow64 a) (8 * (3 - s))) else u32 (GetLow64 (shift_right 8 a (8 * (s - 3))))) = v * 256 ^ 3 / 256 ^ s.
Proof.
  intros Ha v s; pose proof (uint_bound 8 a Ha) as Hb; change (modulus 8) with (2 ^ 256) in Hb; fold v in Hb.
  destruct (Z.eq_dec v 0) as [H0|H0].
  { unfold s; rewrite H0; change ((bit_length 0 + 7) / 8 <=? 3) with true; cbv iota; rewrite (GetLow64_spec 8) by (done || lia); fold v; by rewrite H0. }
  destruct (byte_size v ltac:(lia)) as [Hs Hm]; fold s in Hs, Hm; pose proof (pow256_pos s ltac:(lia)).
  assert (Hq : 0 <= v * 256 ^ 3 / 256 ^ s < 2 ^ 24) by (split; [apply Z.div_pos; lia|apply Z.div_lt_upper_bound; lia]).
  destruct (Z.leb_spec s 3) as [H3|H3].
  - assert (E : v * 256 ^ 3 / 256 ^ s = v * 256 ^ (3 - s)).
    { replace (256 ^ 3) with (256 ^ (3 - s) * 256 ^ s) by (rewrite <- Z.pow_add_r by lia; f_equal; lia); by rewrite Z.mul_assoc, Z.div_mul by lia. }
    rewrite E in *; pose proof (pow256_pos (3 - s) ltac:(lia)); rewrite (GetLow64_spec 8) by (done || lia); fold v.
    rewrite (Z.mod_small v), Z.shiftl_mul_pow2, <- pow256 by nia; apply wrap_id; unfold word; lia.
  - destruct (shift_right_spec 8 a (8 * (s - 3)) Ha ltac:(lia)) as [Hu Hv]; rewrite (GetLow64_spec 8), Hv, <- pow256 by (done || lia); fold v.
    assert (E : v / 256 ^ (s - 3) = v * 256 ^ 3 / 256 ^ s).
    { replace (256 ^ s) with (256 ^ (s - 3) * 256 ^ 3) by (rewrite <- Z.pow_add_r by lia; f_equal; lia); by rewrite Z.div_mul_cancel_r by (pose proof (pow256_pos (s - 3)); lia). }
    rewrite E, Z.mod_small by lia; apply wrap_id; unfold word; lia.
Qed.

(** What [GetCompact] gives: the size and the mantissa between 2^15 and 2^23. *)
Definition normal (v m s : Z) : Prop :=
  0 <= s <= 33 /\ m = v * 256 ^ 3 / 256 ^ s /\ (v = 0 -> m = 0 /\ s = 0) /\ (0 < v -> 2 ^ 15 <= m < 2 ^ 23).

Lemma lor_sign x : Z.testbit x 23 = false -> Z.lor x (2 ^ 23) = x + 2 ^ 23.
Proof.
  intros H; symmetry; apply Z.add_nocarry_lor; apply Z.eqb_eq; by rewrite land_pow2, H by lia.
Qed.

Lemma compact_fields m s : 0 <= m < 2 ^ 23 -> 0 <= s < 256 ->
  mantissa (m + 2 ^ 24 * s) = m /\ size (m + 2 ^ 24 * s) = s /\ sign (m + 2 ^ 24 * s) = false.
Proof.
  intros Hm Hs; unfold mantissa, size, sign; split; [|split].
  - symmetry; apply (Z.mod_unique_pos _ _ (2 * s)); lia.
  - symmetry; apply (Z.div_unique_pos _ _ _ m); lia.
  - rewrite Z.testbit_eqb by lia; apply Z.eqb_neq.
    rewrite <- (Z.div_unique_pos (m + 2 ^ 24 * s) (2 ^ 23) (2 * s) m) by lia; rewrite Z.mul_comm, Z.mod_mul; lia.
Qed.

Lemma GetCompact_spec a neg : uint 8 a -> exists m s, normal (value a) m s /\
  GetCompact a neg = Some (m + 2 ^ 24 * s + if neg && negb (m =? 0) then 2 ^ 23 else 0).
Proof.
  intros Ha; pose proof (raw_mantissa a Ha) as Hraw; pose proof (uint_bound 8 a Ha) as Hb; change (modulus 8) with (2 ^ 256) in Hb.
  unfold GetCompact; rewrite (bits_spec 8) by done; cbv zeta in Hraw |- *; rewrite Hraw; clear Hraw.
  set (v := value a) in *; set (s := (bit_length v + 7) / 8); set (m := v * 256 ^ 3 / 256 ^ s).
  assert (Hnorm : exists m' s', (if negb (Z.land m 0x00800000 =? 0) then (Z.shiftr m 8, s + 1) else (m, s)) = (m', s') /\ normal v m' s').
  { change 0x00800000 with (2 ^ 23); rewrite land_pow2, negb_involutive by lia; destruct (Z.eq_dec v 0) as [H0|H0].
    { exists 0, 0; unfold m, s; rewrite H0; split; [done|]; split; [lia|]; split; [done|]; split; [done|lia]. }
    destruct (byte_size v ltac:(lia)) as [Hs Hm]; fold s in Hs, Hm; pose proof (pow256_pos s ltac:(lia)).
    assert (Hq : 2 ^ 16 <= m < 2 ^ 24) by (unfold m; split; [apply Z.div_le_lower_bound; lia|apply Z.div_lt_upper_bound; lia]).
    assert (Ht : Z.testbit m 23 = (2 ^ 23 <=? m)).
    { rewrite Z.testbit_eqb by lia; destruct (Z.leb_spec (2 ^ 23) m); [rewrite <- (Z.div_unique_pos m (2 ^ 23) 1 (m - 2 ^ 23)) by lia|rewrite Z.div_small by lia]; done. }
    rewrite Ht; destruct (Z.leb_spec (2 ^ 23) m) as [Hge|Hlt].
    - exists (Z.shiftr m 8), (s + 1); split; [done|]; rewrite Z.shiftr_div_pow2 by lia; change (2 ^ 8) with 256.
      split; [lia|]; split; [|split; [lia|intros _; split; [apply Z.div_le_lower_bound; lia|apply Z.div_lt_upper_bound; lia]]].
      unfold m; rewrite Z.div_div, Z.pow_add_r by lia; done.
    - exists m, s; split; [done|]; split; [lia|]; split; [done|]; split; [lia|lia]. }
  destruct Hnorm as (m' & s' & -> & Hn); exists m', s'; split; [exact Hn|]; destruct Hn as (Hs & _ & H0 & Hpos).
  assert (Hm : 0 <= m' < 2 ^ 23) by (destruct (Z.eq_dec v 0) as [E|E]; [destruct (H0 E)|specialize (Hpos ltac:(lia))]; lia); clear H0 Hpos.
  assert (Hhigh : Z.land m' (u32 (Z.lnot 0x007fffff)) = 0).
  { change (u32 (Z.lnot 0x007fffff)) with (Z.shiftl (Z.ones 9) 23); apply Z.bits_inj'; intros i Hi; rewrite Z.land_spec, Z.bits_0, Z.shiftl_spec by lia.
    destruct (Z.lt_ge_cases i 23); [rewrite (Z.testbit_neg_r (Z.ones 9)) by lia; apply andb_false_r|rewrite (testbit_word 23 m' i) by (unfold word; lia); done]. }
  rewrite Hhigh; cbn [Z.eqb negb orb]; destruct (Z.ltb_spec s' 256); [|lia]; cbn [negb]; f_equal.
  rewrite Z.shiftl_mul_pow2 by lia; unfold u32; rewrite wrap_id, (Z.mul_comm s'), lor_disjoint by (unfold word; lia).
  destruct (compact_fields m' s' Hm ltac:(lia)) as (Hman & _ & Hsgn); change 0x007fffff with (Z.ones 23); rewrite Z.land_ones by lia.
  fold (mantissa (m' + 2 ^ 24 * s')); rewrite Hman; destruct (neg && negb (m' =? 0)); [by apply lor_sign|by rewrite Z.lor_0_r, Z.add_0_r].
Qed.

(** The target read back: at most the value, with 15 bits of precision. *)
Lemma normal_value v m s : 0 <= v -> normal v m s -> let t := compact_value m s in
  0 <= t <= v /\ (v - t) * 2 ^ 15 <= v /\ t * 256 ^ 3 / 256 ^ s = m.
Proof.
  intros Hv (Hs & Hm & H0 & Hpos) t; pose proof (pow256_pos s ltac:(lia)); destruct (Z.eq_dec v 0) as [E|E].
  { unfold t; destruct (H0 E) as [-> ->]; rewrite E; change (compact_value 0 0) with 0; split; [lia|]; split; [lia|done]. }
  specialize (Hpos ltac:(lia)); pose proof (Z.div_mod (v * 256 ^ 3) (256 ^ s) ltac:(lia)) as Hdm; rewrite <- Hm in Hdm.
  pose proof (Z.mod_pos_bound (v * 256 ^ 3) (256 ^ s) ltac:(lia)); destruct (Z.le_gt_cases s 3) as [H3|H3].
  - pose proof (pow256_pos (3 - s) ltac:(lia)).
    assert (E3 : 256 ^ 3 = 256 ^ (3 - s) * 256 ^ s) by (rewrite <- Z.pow_add_r by lia; f_equal; lia).
    assert (Hmv : m = v * 256 ^ (3 - s)) by (rewrite Hm, E3, Z.mul_assoc; by rewrite Z.div_mul by lia).
    assert (Ht : t = v) by (unfold t; rewrite compact_value_small, Hmv, Z.div_mul by lia; done).
    rewrite Ht; split; [lia|]; split; [lia|done].
  - unfold t; rewrite compact_value_big by lia; pose proof (pow256_pos (s - 3) ltac:(lia)).
    assert (E3 : 256 ^ s = 256 ^ (s - 3) * 256 ^ 3) by (rewrite <- Z.pow_add_r by lia; f_equal; lia).
    set (p := 256 ^ (s - 3)) in *; rewrite E3 in Hdm, H1; change (256 ^ 3) with 16777216 in *.
    assert (Hlo : m * p <= v) by lia; assert (Hhi : v < m * p + p) by lia.
    split; [nia|]; split; [nia|]; rewrite E3, <- Z.mul_assoc, Z.div_mul by lia; done.
Qed.

Lemma normal_unique v m s m' s' : normal v m s -> normal v m' s' -> 0 <= v -> m = m' /\ s = s'.
Proof.
  intros (Hs & Hm & H0 & Hp) (Hs' & Hm' & H0' & Hp') Hv; destruct (Z.eq_dec v 0) as [E|E].
  { destruct (H0 E), (H0' E); lia. }
  specialize (Hp ltac:(lia)); specialize (Hp' ltac:(lia)).
  assert (Hstep : forall s s', 0 <= s < s' -> v * 256 ^ 3 / 256 ^ s < 2 ^ 23 -> v * 256 ^ 3 / 256 ^ s' < 2 ^ 15).
  { intros r r' Hr Hlt; pose proof (pow256_pos r ltac:(lia)); pose proof (pow256_pos r' ltac:(lia)).
    replace (256 ^ r') with (256 ^ r * (256 * 256 ^ (r' - r - 1))).
    - pose proof (pow256_pos (r' - r - 1) ltac:(lia)); rewrite <- Z.div_div by lia; apply Z.div_lt_upper_bound; nia.
    - change 256 with (256 ^ 1) at 2; rewrite <- !Z.pow_add_r by lia; f_equal; lia. }
  destruct (Z.lt_trichotomy s s') as [H|[H|H]].
  - specialize (Hstep s s' ltac:(lia) ltac:(lia)); lia.
  - rewrite H in *; lia.
  - specialize (Hstep s' s ltac:(lia) ltac:(lia)); lia.
Qed.
