(* ===== verification/Arith256Claims.v ===== *)
(** The theorems about multi-word integers. *)

From S2P Require Import Prelude Arith256 Arith256Proofs Arith256Compact.

(** ** Bytes *)

Lemma le_word_app x y : words 8 x -> le_word (x ++ y) = le_word x + 2 ^ (8 * Z.of_nat (length x)) * le_word y.
Proof.
  induction 1 as [|a x Ha _ IH]; cbn [app length]; [change (2 ^ (8 * Z.of_nat 0)) with 1; cbn [le_word]; lia|].
  rewrite !le_word_cons, IH by done; replace (8 * Z.of_nat (S (length x))) with (8 + 8 * Z.of_nat (length x)) by lia; rewrite Z.pow_add_r by lia; ring.
Qed.

Lemma value_words n b : length b = (n * 4)%nat -> words 8 b -> value (map (fun x => le_word (read_at (x * 4) 4 b)) (seq 0 n)) = le_word b.
Proof.
  revert b; induction n as [|n IH]; intros b Hb Hw; [by destruct b|]; cbn [seq map value].
  assert (Hsplit : le_word b = le_word (take 4 b) + 2 ^ 32 * le_word (drop 4 b)).
  { rewrite <- (take_drop 4 b) at 1; rewrite le_word_app, length_take, Nat.min_l by (lia || by apply Forall_take); done. }
  rewrite Hsplit, <- seq_shift, map_map, <- (IH (drop 4 b)) by (rewrite ?length_drop; lia || by apply Forall_drop); do 2 f_equal.
  f_equal; apply map_ext; intros i; unfold read_at; rewrite drop_drop; do 3 f_equal; lia.
Qed.

Lemma UintToArith256_spec b : length b = 32%nat -> words 8 b -> uint 8 (UintToArith256 b) /\ value (UintToArith256 b) = le_word b.
Proof.
  intros Hl Hw; split; [split; [done|]|by apply value_words].
  apply List.Forall_forall; intros x Hx; apply in_map_iff in Hx as (i & <- & Hi%in_seq).
  assert (Hr : length (read_at (i * 4) 4 b) = 4%nat) by (apply length_read_at; lia).
  pose proof (le_word_word (read_at (i * 4) 4 b)) as H; rewrite Hr in H; apply H; apply Forall_take, Forall_drop; exact Hw.
Qed.

Lemma ArithToUint256_spec a : uint 8 a -> length (ArithToUint256 a) = 32%nat /\ words 8 (ArithToUint256 a) /\ UintToArith256 (ArithToUint256 a) = a.
Proof.
  intros [Hl Hw]; destruct a as [|x0 [|x1 [|x2 [|x3 [|x4 [|x5 [|x6 [|x7 [|x8 a]]]]]]]]]; try done; split; [done|]; split.
  - unfold ArithToUint256; cbn [seq map concat]; repeat (apply Forall_app; split); try apply le_bytes_words; constructor.
  - change (map (fun x => le_word (le_bytes 4 x)) [x0; x1; x2; x3; x4; x5; x6; x7] = [x0; x1; x2; x3; x4; x5; x6; x7]).
    clear Hl; induction Hw as [|x l Hx _ IH]; [done|]; cbn [map]; by rewrite IH, le_word_le_bytes.
Qed.

(** ** Claims *)

Lemma bitwise_operators w a b b64 : (2 <= w)%nat -> uint w a -> uint w b -> word 64 b64 ->
  (uint w (bit_xor w a b) /\ value (bit_xor w a b) = Z.lxor (value a) (value b)) /\
  (uint w (bit_and w a b) /\ value (bit_and w a b) = Z.land (value a) (value b)) /\
  (uint w (bit_or w a b) /\ value (bit_or w a b) = Z.lor (value a) (value b)) /\
  (uint w (bit_xor_uint64 a b64) /\ value (bit_xor_uint64 a b64) = Z.lxor (value a) b64) /\
  (uint w (bit_or_uint64 a b64) /\ value (bit_or_uint64 a b64) = Z.lor (value a) b64).
Proof.
  intros Hw Ha Hb H64.
  assert (Px : forall x y, 0 <= x -> 0 <= y -> 0 <= Z.lxor x y) by (intros; apply Z.lxor_nonneg; lia).
  assert (Pa : forall x y, 0 <= x -> 0 <= y -> 0 <= Z.land x y) by (intros; apply Z.land_nonneg; lia).
  assert (Po : forall x y, 0 <= x -> 0 <= y -> 0 <= Z.lor x y) by (intros; apply Z.lor_nonneg; lia).
  split; [exact (bitwise_spec Z.lxor xorb Z.lxor_spec eq_refl Px w a b Ha Hb)|].
  split; [exact (bitwise_spec Z.land andb Z.land_spec eq_refl Pa w a b Ha Hb)|].
  split; [exact (bitwise_spec Z.lor orb Z.lor_spec eq_refl Po w a b Ha Hb)|].
  split; [exact (bitwise_uint64 Z.lxor xorb Z.lxor_spec eq_refl Px w a b64 Hw Ha H64 Z.lxor_0_r)|].
  exact (bitwise_uint64 Z.lor orb Z.lor_spec eq_refl Po w a b64 Hw Ha H64 Z.lor_0_r).
Qed.

(** C16 (functional): every operator computes with the numbers that the words
    stand for, modulo 2^(32*WIDTH): sum, difference, negation, complement,
    increment and decrement, product by a word and by a number, the bitwise
    operations, shifts by any number of bits (also by more than the width),
    comparison, equality, the number of bits, and the conversions from and to 64
    bits.  Division gives the quotient and throws exactly for a zero divisor.  A
    number that is multiplied by itself in place becomes zero.  Numbers have at least two words. *)
Theorem arith_operators_correct w a b b64 b32 shift :
  (2 <= w)%nat -> uint w a -> uint w b -> word 64 b64 -> word 32 b32 -> 0 <= shift ->
  let holds r v := uint w r /\ value r = v in
  holds (add w a b) ((value a + value b) mod modulus w) /\ holds (subtract w a b) ((value a - value b) mod modulus w) /\
  holds (add_uint64 w a b64) ((value a + b64) mod modulus w) /\ holds (subtract_uint64 w a b64) ((value a - b64) mod modulus w) /\
  holds (negate w a) ((- value a) mod modulus w) /\ holds (complement a) (modulus w - 1 - value a) /\
  holds (increment w a) ((value a + 1) mod modulus w) /\ holds (decrement w a) ((value a - 1) mod modulus w) /\
  holds (multiply32 w a b32) ((value a * b32) mod modulus w) /\ holds (multiply w a b) ((value a * value b) mod modulus w) /\
  holds (bit_xor w a b) (Z.lxor (value a) (value b)) /\ holds (bit_and w a b) (Z.land (value a) (value b)) /\ holds (bit_or w a b) (Z.lor (value a) (value b)) /\
  holds (bit_xor_uint64 a b64) (Z.lxor (value a) b64) /\ holds (bit_or_uint64 a b64) (Z.lor (value a) b64) /\
  holds (shift_left w a shift) ((value a * 2 ^ shift) mod modulus w) /\ holds (shift_right w a shift) (value a / 2 ^ shift) /\
  CompareTo w a b = compare_sign (value a ?= value b) /\ less w a b = (value a <? value b) /\ less_eq w a b = (value a <=? value b) /\
  greater w a b = (value b <? value a) /\ greater_eq w a b = (value b <=? value a) /\
  equal a b = (value a =? value b) /\ EqualTo w a b64 = (value a =? b64) /\ is_zero w a = (value a =? 0) /\ bits w a = bit_length (value a) /\
  holds (of_uint64 w b64) b64 /\ GetLow64 a = value a mod 2 ^ 64 /\
  match divide w a b with None => value b = 0 | Some q => value b <> 0 /\ holds q (value a / value b) end /\
  holds (multiply_self w a) 0.
Proof.
  intros Hw Ha Hb H64 H32 Hs holds; unfold holds; destruct (value_of_uint64 w b64 Hw H64) as [Hu64 Hv64].
  destruct (bitwise_operators w a b b64 Hw Ha Hb H64) as (B1 & B2 & B3 & B4 & B5), (order_spec w a b Ha Hb) as [O1 O2].
  split; [by apply add_spec|]; split; [by apply subtract_spec; [lia|..]|].
  split; [rewrite <- Hv64 at 3; by apply add_spec|]; split; [rewrite <- Hv64 at 3; by apply subtract_spec; [lia|..]|].
  split; [by apply negate_spec; [lia|]|]; split; [by apply complement_spec|]; split; [by apply arith_increment_spec; [lia|]|]; split; [by apply decrement_spec; [lia|]|].
  split; [by apply multiply32_spec|]; split; [by apply multiply_spec|]; split; [exact B1|]; split; [exact B2|]; split; [exact B3|]; split; [exact B4|]; split; [exact B5|].
  split; [by apply shift_left_spec|]; split; [by apply shift_right_spec|]; split; [by apply CompareTo_spec|]; split; [exact O1|]; split; [exact O2|].
  split; [by apply greater_spec|]; split; [by apply greater_eq_spec|]; split; [by apply (equal_spec w)|]; split; [by apply EqualTo_spec|].
  split; [by apply is_zero_spec|]; split; [by apply bits_spec|]; split; [by split|]; split; [by apply (GetLow64_spec w)|].
  split; [by apply divide_spec; [lia|..]|by apply multiply_self_spec].
Qed.

Lemma demo_uint x : word 32 x -> uint 8 (of_uint64 8 x).
Proof. intros Hx; apply value_of_uint64; [lia|apply (word_mono 32); [lia|done]]. Qed.

Lemma arith_operators_correct_witness : value (add 8 (of_uint64 8 7) (of_uint64 8 9)) = (7 + 9) mod modulus 8 /\
  value (subtract 8 (of_uint64 8 7) (of_uint64 8 9)) = (7 - 9) mod modulus 8.
Proof.
  pose proof (arith_operators_correct 8 (of_uint64 8 7) (of_uint64 8 9) 5 3 100 ltac:(lia)
    (demo_uint 7 ltac:(unfold word; lia)) (demo_uint 9 ltac:(unfold word; lia)) ltac:(unfold word; lia) ltac:(unfold word; lia) ltac:(lia)) as H.
  split; [exact (proj2 (proj1 H))|exact (proj2 (proj1 (proj2 H)))].
Defined.

(** The long division gives the quotient of the numbers, and
    fails exactly when the divisor is zero. *)
Theorem division_correct w num div : (1 <= w)%nat -> uint w num -> uint w div ->
  match divide w num div with
  | None => value div = 0
  | Some q => value div <> 0 /\ uint w q /\ value q = value num / value div
  end.
Proof. apply divide_spec. Qed.

Lemma division_correct_witness : match divide 8 (of_uint64 8 1000) (of_uint64 8 7) with
  | None => value (of_uint64 8 7) = 0
  | Some q => value (of_uint64 8 7) <> 0 /\ uint 8 q /\ value q = value (of_uint64 8 1000) / value (of_uint64 8 7)
  end.
Proof.
  apply (division_correct 8 (of_uint64 8 1000) (of_uint64 8 7)); [lia|apply demo_uint; unfold word; lia|apply demo_uint; unfold word; lia].
Defined.

(** [SetCompact] reads mantissa [m] and size [s] as the number
    [m * 256^s / 256^3]; the target is its low 256 bits, the overflow flag says
    exactly that it does not fit, and the negative flag that the sign bit is set
    on a number that is not zero. *)
Theorem compact_target_correct c : word 32 c ->
  let exact := compact_value (mantissa c) (size c) in
  uint 8 (c_target (SetCompact c)) /\ value (c_target (SetCompact c)) = exact mod 2 ^ 256 /\
  c_negative (SetCompact c) = sign c && negb (exact =? 0) /\ c_overflow (SetCompact c) = (2 ^ 256 <=? exact).
Proof. apply SetCompact_spec. Qed.

Lemma compact_target_correct_witness : value (c_target (SetCompact 0x1d00ffff)) = compact_value (mantissa 0x1d00ffff) (size 0x1d00ffff) mod 2 ^ 256.
Proof. apply (compact_target_correct 0x1d00ffff); unfold word; lia. Defined.

(** The code of a number, read back. *)
Lemma GetCompact_back a : uint 8 a ->
  exists c, GetCompact a false = Some c /\ word 32 c /\ c_negative (SetCompact c) = false /\ c_overflow (SetCompact c) = false /\
  value (c_target (SetCompact c)) <= value a /\ (value a - value (c_target (SetCompact c))) * 2 ^ 15 <= value a /\
  GetCompact (c_target (SetCompact c)) false = Some c.
Proof.
  intros Ha; pose proof (uint_bound 8 a Ha) as Hb; change (modulus 8) with (2 ^ 256) in Hb.
  destruct (GetCompact_spec a false Ha) as (m & s & Hn & Hc); rewrite Z.add_0_r in Hc; exists (m + 2 ^ 24 * s); split; [exact Hc|].
  assert (Hm : 0 <= m < 2 ^ 23) by (destruct Hn as (_ & _ & H0 & Hp); destruct (Z.eq_dec (value a) 0) as [E|E]; [destruct (H0 E)|specialize (Hp ltac:(lia))]; lia).
  assert (Hs : 0 <= s <= 33) by apply Hn; assert (Hw : word 32 (m + 2 ^ 24 * s)) by (unfold word; lia); split; [exact Hw|].
  destruct (compact_fields m s Hm ltac:(lia)) as (Hman & Hsize & Hsign); destruct (SetCompact_spec _ Hw) as (Hu & Hv & Hneg & Hov).
  rewrite Hman, Hsize in Hv, Hneg, Hov; rewrite Hsign in Hneg; destruct (normal_value (value a) m s ltac:(lia) Hn) as (Ht & Herr & Hback); rewrite Z.mod_small in Hv by lia.
  split; [exact Hneg|]; split; [rewrite Hov; apply Z.leb_gt; lia|]; rewrite Hv; split; [lia|]; split; [exact Herr|].
  destruct (GetCompact_spec _ false Hu) as (m' & s' & Hn' & Hc'); rewrite Hc', Z.add_0_r; rewrite Hv in Hn'.
  destruct (normal_unique (compact_value m s) m s m' s') as [-> ->]; [|exact Hn'|lia|done].
  destruct Hn as (_ & Hm' & H0 & Hp); split; [exact Hs|]; split; [by rewrite Hback|]; split.
  - intros E; destruct (Z.eq_dec (value a) 0) as [Ea|Ea]; [by apply H0|]; specialize (Hp ltac:(lia)); rewrite E in Hback; cbn in Hback; lia.
  - intros Hpos; apply Hp; lia.
Qed.

(** [GetCompact] never fails its assertions; read back, the
    code it gives is not negative and does not overflow, its target is at most
    the number and differs from it by at most one part in 2^15, and has the same
    code again. *)
Theorem compact_roundtrip a : uint 8 a ->
  exists c, GetCompact a false = Some c /\ word 32 c /\ c_negative (SetCompact c) = false /\ c_overflow (SetCompact c) = false /\
  value (c_target (SetCompact c)) <= value a /\ (value a - value (c_target (SetCompact c))) * 2 ^ 15 <= value a /\
  GetCompact (c_target (SetCompact c)) false = Some c.
Proof. apply GetCompact_back. Qed.

Lemma compact_roundtrip_witness : exists c, GetCompact (of_uint64 8 0x12345678) false = Some c /\ GetCompact (c_target (SetCompact c)) false = Some c.
Proof.
  destruct (compact_roundtrip (of_uint64 8 0x12345678) (demo_uint 0x12345678 ltac:(unfold word; lia))) as (c & H1 & _ & _ & _ & _ & _ & H2).
  exact (ex_intro _ c (conj H1 H2)).
Defined.

(** The number of a 256-bit hash is its 32 bytes, least
    significant first, and the conversions between the two are inverse. *)
Theorem uint256_conversions a b : uint 8 a -> length b = 32%nat -> words 8 b ->
  value (UintToArith256 b) = le_word b /\ ArithToUint256 (UintToArith256 b) = b /\ UintToArith256 (ArithToUint256 a) = a.
Proof.
  intros Ha Hl Hw; destruct (UintToArith256_spec b Hl Hw) as [Hu Hv]; split; [exact Hv|]; split; [|by apply ArithToUint256_spec].
  destruct (ArithToUint256_spec _ Hu) as (Hl' & Hw' & E); destruct (UintToArith256_spec _ Hl' Hw') as [_ Hv']; rewrite E, Hv in Hv'.
  rewrite <- (le_bytes_le_word _ Hw'), Hl', <- Hv', <- Hl; by apply le_bytes_le_word.
Qed.

Lemma uint256_conversions_witness : ArithToUint256 (UintToArith256 (replicate 32 9)) = replicate 32 9.
Proof.
  apply (uint256_conversions (of_uint64 8 7) (replicate 32 9)); [apply demo_uint; unfold word; lia|reflexivity|apply Forall_replicate; unfold word; lia].
Defined.
