(* ===== verification/Uint256.v ===== *)
(** Opaque blobs: uint256.h, uint256.cpp and the hexadecimal digits of
    utilstrencodings.cpp.

    A blob is the list of its [WIDTH] bytes.  A C string is the list of its
    characters; the terminator that follows them is the character 0. *)

From S2P Require Import Prelude Arith256.

(** ** Digits *)

(** The table by its blocks of sixteen. *)
Definition p_util_hexdigit : list Z :=
  replicate 48 (-1) ++ [0; 1; 2; 3; 4; 5; 6; 7; 8; 9] ++ replicate 6 (-1) ++
  [-1; 0xa; 0xb; 0xc; 0xd; 0xe; 0xf] ++ replicate 9 (-1) ++ replicate 16 (-1) ++
  [-1; 0xa; 0xb; 0xc; 0xd; 0xe; 0xf] ++ replicate 9 (-1) ++ replicate 144 (-1).

Definition HexDigit (c : Z) : Z := p_util_hexdigit !!! Z.to_nat c.

(** The characters of a byte under [%02x]. *)
Definition hex_char (x : Z) : Z := if x <? 10 then 48 + x else 87 + x.

(** [isspace] and [tolower] of the C locale. *)
Definition isspace (c : Z) : bool := (c =? 32) || ((9 <=? c) && (c <=? 13)).
Definition tolower (c : Z) : Z := if (65 <=? c) && (c <=? 90) then c + 32 else c.

(** ** Blobs *)

Definition IsNull (data : list Z) : bool := forallb (fun b => b =? 0) data.
Definition SetNull (data : list Z) : list Z := replicate (length data) 0.

(** [memcmp] *)
Fixpoint Compare (x y : list Z) : Z :=
  match x, y with
  | a :: x, b :: y => if a <? b then -1 else if b <? a then 1 else Compare x y
  | _, _ => 0
  end.

Definition GetHex (data : list Z) : list Z :=
  concat (map (fun i => let b := data !!! (length data - i - 1)%nat in [hex_char (b / 16); hex_char (b mod 16)]) (seq 0 (length data))).

Definition GetUint64 (data : list Z) (pos : nat) : Z :=
  let ptr i := data !!! (pos * 8 + i)%nat in
  Z.lor (Z.lor (Z.lor (Z.lor (Z.lor (Z.lor (Z.lor (ptr 0%nat) (Z.shiftl (ptr 1%nat) 8)) (Z.shiftl (ptr 2%nat) 16)) (Z.shiftl (ptr 3%nat) 24))
    (Z.shiftl (ptr 4%nat) 32)) (Z.shiftl (ptr 5%nat) 40)) (Z.shiftl (ptr 6%nat) 48)) (Z.shiftl (ptr 7%nat) 56).

Definition GetFirstUint32 (data : list Z) : Z :=
  let ptr i := data !!! i in
  Z.lor (Z.lor (Z.lor (ptr 0%nat) (Z.shiftl (ptr 1%nat) 8)) (Z.shiftl (ptr 2%nat) 16)) (Z.shiftl (ptr 3%nat) 24).

Definition trim256 (data : list Z) : list Z := write_at 0 (take 32 data) (replicate 32 0).

(** ** SetHex *)

Fixpoint skip_spaces (psz : list Z) : list Z :=
  match psz with
  | c :: rest => if isspace c then skip_spaces rest else psz
  | [] => []
  end.

Definition char_at (psz : list Z) (i : nat) : Z := default 0 (psz !! i).

Definition skip_0x (psz : list Z) : list Z := if (char_at psz 0 =? 48) && (tolower (char_at psz 1) =? 120) then drop 2 psz else psz.

(** The characters from [pbegin] to the first that is no digit. *)
Fixpoint hex_prefix (psz : list Z) : list Z :=
  match psz with
  | c :: rest => if HexDigit c =? -1 then [] else c :: hex_prefix rest
  | [] => []
  end.

(** The loop that goes back over the digits; [digits] are those left, the last
    first, [p1] the byte to write. *)
Fixpoint fill_digits (digits : list Z) (p1 : nat) (data : list Z) : list Z :=
  match digits with
  | [] => data
  | c :: digits =>
    if (p1 <? length data)%nat then
      let data := <[p1 := u8 (HexDigit c)]> data in
      match digits with
      | [] => data
      | c' :: digits => fill_digits digits (S p1) (<[p1 := u8 (Z.lor (data !!! p1) (Z.shiftl (u8 (HexDigit c')) 4))]> data)
      end
    else data
  end.

Definition SetHex (WIDTH : nat) (psz : list Z) : list Z :=
  let psz := skip_0x (skip_spaces psz) in
  fill_digits (reverse (hex_prefix psz)) 0 (replicate WIDTH 0).

Definition uintS (WIDTH : nat) (str : list Z) : list Z := SetHex WIDTH str.
Definition uint256S (str : list Z) : list Z := SetHex 32 str.

(** ** The same for numbers (arith_uint256.cpp) *)

Definition arith_GetHex (a : list Z) : list Z := GetHex (ArithToUint256 a).
Definition arith_SetHex (psz : list Z) : list Z := UintToArith256 (uintS 32 psz).
