(* ===== verification/Uint256Claims.v ===== *)
(** Blobs: printing and parsing of hexadecimal numbers. *)

From S2P Require Import Prelude Blake2b Blake2bProofs Arith256 Arith256Proofs Arith256Compact Arith256Claims Uint256.

(** The number that a list of digits, the most significant first, stands for. *)
Definition hex_value (digits : list Z) : Z := fold_left (fun acc c => 16 * acc + HexDigit c) digits 0.

Definition is_digit (c : Z) : Prop := 0 <= HexDigit c < 16.

(** ** Digits *)

Lemma HexDigit_cases c : HexDigit c = -1 \/ is_digit c.
Proof.
  unfold is_digit, HexDigit; destruct (Nat.lt_ge_cases (Z.to_nat c) 256) as [H|H].
  - assert (Hall : forallb (fun d => (d =? -1) || ((0 <=? d) && (d <? 16))) p_util_hexdigit = true) by reflexivity.
    rewrite forallb_forall in Hall; specialize (Hall (p_util_hexdigit !!! Z.to_nat c)).
    rewrite orb_true_iff, andb_true_iff, Z.eqb_eq, Z.leb_le, Z.ltb_lt in Hall; apply Hall, list_elem_of_In, list_elem_of_lookup_total_2; exact H.
  - right; rewrite list_lookup_total_alt, lookup_ge_None_2 by exact H; done.
Qed.

Lemma HexDigit_hex_char x : 0 <= x < 16 -> HexDigit (hex_char x) = x /\ isspace (hex_char x) = false /\ tolower (hex_char x) <> 120.
Proof.
  intros Hx; assert (Hall : forallb (fun x => (HexDigit (hex_char x) =? x) && negb (isspace (hex_char x)) && negb (tolower (hex_char x) =? 120))
    [0; 1; 2; 3; 4; 5; 6; 7; 8; 9; 10; 11; 12; 13; 14; 15] = true) by reflexivity.
  rewrite forallb_forall in Hall; specialize (Hall x ltac:(simpl; lia)).
  rewrite !andb_true_iff, !negb_true_iff, Z.eqb_eq, Z.eqb_neq in Hall; tauto.
Qed.

(** ** Filling the bytes *)

Fixpoint rev_value (digits : list Z) : Z :=
  match digits with
  | [] => 0
  | c :: digits => HexDigit c + 16 * rev_value digits
  end.

Lemma rev_value_app x y : rev_value (x ++ y) = rev_value x + 16 ^ Z.of_nat (length x) * rev_value y.
Proof.
  induction x as [|c x IH]; cbn [app rev_value length]; [change (16 ^ Z.of_nat 0) with 1; lia|].
  rewrite IH, Nat2Z.inj_succ, Z.pow_succ_r by lia; ring.
Qed.

Lemma hex_value_rev digits : hex_value digits = rev_value (reverse digits).
Proof.
  unfold hex_value; induction digits as [|c digits IH] using rev_ind; [done|].
  rewrite fold_left_app, reverse_snoc; cbn [fold_left rev_value]; rewrite IH; lia.
Qed.

Lemma rev_value_nonneg digits : Forall is_digit digits -> 0 <= rev_value digits.
Proof. induction 1 as [|c digits [Hc _] _ IH]; cbn [rev_value]; lia. Qed.

Lemma le_bytes_0 k : le_bytes k 0 = replicate k 0.
Proof. induction k as [|k IH]; [done|]; cbn [le_bytes replicate]; by rewrite Z.shiftr_0_l, IH. Qed.

Lemma le_bytes_S k b x : 0 <= b < 256 -> le_bytes (S k) (b + 256 * x) = b :: le_bytes k x.
Proof.
  intros Hb; cbn [le_bytes]; change 255 with (Z.ones 8); rewrite Z.land_ones, Z.shiftr_div_pow2 by lia; change (2 ^ 8) with 256; f_equal; [|f_equal].
  - symmetry; apply (Z.mod_unique_pos _ _ x); lia.
  - symmetry; apply (Z.div_unique_pos _ _ _ b); lia.
Qed.

Lemma fill_digits_spec n : forall digits k pre, (length digits <= n)%nat -> Forall is_digit digits ->
  fill_digits digits (length pre) (pre ++ replicate k 0) = pre ++ le_bytes k (rev_value digits).
Proof.
  induction n as [n IH] using lt_wf_ind; intros digits k pre Hn Hd; destruct digits as [|c digits]; [by cbn [fill_digits rev_value]; rewrite le_bytes_0|].
  apply list.Forall_cons in Hd as [Hc Hd]; unfold is_digit in Hc; cbn [fill_digits]; destruct k as [|k].
  { cbn [replicate le_bytes]; rewrite !app_nil_r; destruct (Nat.ltb_spec (length pre) (length pre)); [lia|done]. }
  destruct (Nat.ltb_spec (length pre) (length (pre ++ replicate (S k) 0))) as [_|H]; [|rewrite length_app in H; cbn [length replicate] in H; lia].
  assert (Hin : forall x y rest, <[length pre := x]> (pre ++ y :: rest) = pre ++ x :: rest)
    by (intros x y rest; rewrite insert_app_r_alt, Nat.sub_diag by lia; done).
  assert (Hu : u8 (HexDigit c) = HexDigit c) by (apply wrap_id; unfold word; lia).
  cbn [replicate]; rewrite Hin, Hu; destruct digits as [|c' digits].
  { cbn [rev_value]; replace (HexDigit c + 16 * 0) with (HexDigit c + 256 * 0) by lia; rewrite le_bytes_S, le_bytes_0 by lia; done. }
  apply list.Forall_cons in Hd as [Hc' Hd]; unfold is_digit in Hc'.
  assert (Hb : u8 (Z.lor ((pre ++ HexDigit c :: replicate k 0) !!! length pre) (Z.shiftl (u8 (HexDigit c')) 4)) = HexDigit c + 16 * HexDigit c').
  { rewrite lookup_total_app_r, Nat.sub_diag by lia; change ((HexDigit c :: replicate k 0) !!! 0%nat) with (HexDigit c).
    unfold u8; rewrite (wrap_id 8 (HexDigit c')), Z.shiftl_mul_pow2, Z.mul_comm by (unfold word; lia).
    rewrite (lor_disjoint 4) by lia; apply wrap_id; unfold word; lia. }
  rewrite Hin, Hb; set (b := HexDigit c + 16 * HexDigit c').
  replace (S (length pre)) with (length (pre ++ [b])) by (rewrite length_app; simpl; lia).
  replace (pre ++ b :: replicate k 0) with ((pre ++ [b]) ++ replicate k 0) by (by rewrite <- app_assoc).
  cbn [length] in Hn; rewrite (IH (length digits) ltac:(lia)) by (done || lia); cbn [rev_value].
  replace (HexDigit c + 16 * (HexDigit c' + 16 * rev_value digits)) with (b + 256 * rev_value digits) by (unfold b; lia).
  rewrite le_bytes_S by (unfold b; lia); by rewrite <- app_assoc.
Qed.

Lemma hex_prefix_digits psz : Forall is_digit (hex_prefix psz).
Proof.
  induction psz as [|c psz IH]; [constructor|]; cbn [hex_prefix]; destruct (Z.eqb_spec (HexDigit c) (-1)) as [E|E]; [constructor|].
  constructor; [by destruct (HexDigit_cases c)|exact IH].
Qed.

Lemma SetHex_spec W psz : SetHex W psz = le_bytes W (hex_value (hex_prefix (skip_0x (skip_spaces psz)))).
Proof.
  unfold SetHex; set (ds := hex_prefix _); rewrite hex_value_rev.
  apply (fill_digits_spec (length (reverse ds)) (reverse ds) W []); [lia|]; apply Forall_reverse, hex_prefix_digits.
Qed.

(** ** Printing *)

Definition byte_digits (b : Z) : list Z := [hex_char (b / 16); hex_char (b mod 16)].

Lemma GetHex_spec data : GetHex data = concat (map byte_digits (reverse data)).
Proof.
  unfold GetHex; f_equal; apply list_eq; intros i; rewrite !list_lookup_fmap.
  destruct (Nat.lt_ge_cases i (length data)) as [Hi|Hi].
  - rewrite lookup_seq_lt, reverse_lookup by done; cbn [fmap option_fmap option_map]; rewrite (list_lookup_lookup_total_lt data) by lia.
    cbn [fmap option_fmap option_map]; unfold byte_digits; rewrite Nat.add_0_l; replace (length data - S i)%nat with (length data - i - 1)%nat by lia; done.
  - by rewrite lookup_seq_ge, (lookup_ge_None_2 (reverse data)) by (rewrite ?length_reverse; lia).
Qed.

Lemma byte_halves b : word 8 b -> 0 <= b / 16 < 16 /\ 0 <= b mod 16 < 16 /\ b = 16 * (b / 16) + b mod 16.
Proof.
  unfold word; intros Hb; split; [split; [apply Z.div_pos|apply Z.div_lt_upper_bound]; lia|]; split; [apply Z.mod_pos_bound; lia|apply Z.div_mod; lia].
Qed.

Lemma printed_digits l : words 8 l -> Forall (fun c => exists x, 0 <= x < 16 /\ c = hex_char x) (concat (map byte_digits l)).
Proof.
  induction 1 as [|b l Hb _ IH]; [constructor|]; destruct (byte_halves b Hb) as (H1 & H2 & _); cbn [map concat byte_digits app].
  constructor; [by exists (b / 16)|]; constructor; [by exists (b mod 16)|exact IH].
Qed.

Lemma hex_prefix_printed l rest : Forall (fun c => exists x, 0 <= x < 16 /\ c = hex_char x) l -> hex_prefix rest = [] -> hex_prefix (l ++ rest) = l.
Proof.
  intros Hl Hr; induction Hl as [|c l (x & Hx & ->) _ IH]; [done|]; cbn [app hex_prefix].
  destruct (HexDigit_hex_char x Hx) as (E & _); rewrite E; destruct (Z.eqb_spec x (-1)); [lia|by rewrite IH].
Qed.

Lemma printed_value l : words 8 l -> rev_value (reverse (concat (map byte_digits (reverse l)))) = le_word l.
Proof.
  induction 1 as [|b l Hb Hl IH]; [done|]; rewrite reverse_cons, map_app, concat_app, reverse_app; cbn [map concat byte_digits app].
  destruct (byte_halves b Hb) as (H1 & H2 & H3); rewrite rev_value_app, IH, le_word_cons by done.
  change (reverse [hex_char (b / 16); hex_char (b mod 16)]) with [hex_char (b mod 16); hex_char (b / 16)]; cbn [rev_value length].
  rewrite (proj1 (HexDigit_hex_char _ H1)), (proj1 (HexDigit_hex_char _ H2)); change (16 ^ Z.of_nat 2) with (2 ^ 8); lia.
Qed.

Lemma skip_printed l rest : l <> [] -> Forall (fun c => exists x, 0 <= x < 16 /\ c = hex_char x) l -> (2 <= length l)%nat ->
  skip_0x (skip_spaces (l ++ rest)) = l ++ rest.
Proof.
  intros Hne Hl H2; destruct Hl as [|c l (x & Hx & ->) [|c' l' (x' & Hx' & ->) _]]; cbn [length] in H2; [done|lia|].
  destruct (HexDigit_hex_char x Hx) as (_ & Hs & _), (HexDigit_hex_char x' Hx') as (_ & _ & Ht); cbn [app skip_spaces]; rewrite Hs; unfold skip_0x.
  change (char_at (hex_char x :: hex_char x' :: l' ++ rest) 1) with (hex_char x').
  rewrite (proj2 (Z.eqb_neq _ _) Ht), andb_false_r; done.
Qed.

Lemma hex_value_GetHex data : words 8 data -> hex_value (GetHex data) = le_word data.
Proof. intros Hd; by rewrite hex_value_rev, GetHex_spec, printed_value. Qed.

(** ** Claims *)

(** Parsing what was printed gives the blob back, also with
    spaces and [0x] before it and with anything that is not a digit after it. *)
Theorem hex_roundtrip data spaces rest : words 8 data -> data <> [] -> Forall (fun c => isspace c = true) spaces -> hex_prefix rest = [] ->
  SetHex (length data) (spaces ++ GetHex data ++ rest) = data /\ SetHex (length data) (spaces ++ [48; 120] ++ GetHex data ++ rest) = data.
Proof.
  intros Hd Hne Hs Hr; rewrite !SetHex_spec.
  assert (Hsp : forall l, skip_spaces (spaces ++ l) = skip_spaces l) by (intros l; induction Hs as [|c spaces Hc _ IH]; [done|]; cbn [app skip_spaces]; by rewrite Hc).
  assert (Hp : Forall (fun c => exists x, 0 <= x < 16 /\ c = hex_char x) (GetHex data)) by (rewrite GetHex_spec; by apply printed_digits, Forall_reverse).
  assert (Hl : (2 <= length (GetHex data))%nat).
  { rewrite GetHex_spec; destruct (reverse data) as [|b l] eqn:E; [|cbn; lia]; apply (f_equal length) in E; rewrite length_reverse in E; by destruct data. }
  assert (Hne' : GetHex data <> []) by (intros E; rewrite E in Hl; cbn in Hl; lia); rewrite !Hsp; split.
  - rewrite skip_printed, hex_prefix_printed, hex_value_GetHex by done; by apply le_bytes_le_word.
  - change (skip_spaces ([48; 120] ++ GetHex data ++ rest)) with ([48; 120] ++ GetHex data ++ rest).
    change (skip_0x ([48; 120] ++ GetHex data ++ rest)) with (GetHex data ++ rest).
    rewrite hex_prefix_printed, hex_value_GetHex by done; by apply le_bytes_le_word.
Qed.

Lemma hex_roundtrip_witness : SetHex 3 ([32] ++ GetHex [1; 171; 255] ++ [10]) = [1; 171; 255].
Proof.
  apply (hex_roundtrip [1; 171; 255] [32] [10]); [by apply wordsb_spec|done|by repeat constructor|reflexivity].
Defined.

(** [SetHex] reads, after spaces and an optional [0x], the
    longest run of digits, and stores the low [8 * WIDTH] bits of the number they
    stand for, least significant byte first; digits that do not fit are dropped.
    The arithmetic version gives that number, and prints a number so that it is
    read back. *)
Theorem SetHex_correct W psz a : uint 8 a ->
  let number := hex_value (hex_prefix (skip_0x (skip_spaces psz))) in
  length (SetHex W psz) = W /\ words 8 (SetHex W psz) /\ le_word (SetHex W psz) = number mod 2 ^ (8 * Z.of_nat W) /\
  value (arith_SetHex psz) = number mod 2 ^ 256 /\ arith_SetHex (arith_GetHex a) = a.
Proof.
  intros Ha number; assert (Hlw : forall W, le_word (SetHex W psz) = number mod 2 ^ (8 * Z.of_nat W)).
  { intros k; rewrite SetHex_spec; fold number; rewrite <- le_bytes_wrap; apply le_word_le_bytes, wrap_word; lia. }
  split; [rewrite SetHex_spec; apply length_le_bytes|]; split; [rewrite SetHex_spec; apply le_bytes_words|]; split; [apply Hlw|].
  destruct (UintToArith256_spec (SetHex 32 psz)) as [_ Hv]; [rewrite SetHex_spec; apply length_le_bytes|rewrite SetHex_spec; apply le_bytes_words|].
  split; [unfold arith_SetHex, uintS; rewrite Hv; apply (Hlw 32%nat)|].
  destruct (ArithToUint256_spec a Ha) as (Hl & Hw & Hback); unfold arith_SetHex, arith_GetHex, uintS; rewrite SetHex_spec.
  assert (Hp : Forall (fun c => exists x, 0 <= x < 16 /\ c = hex_char x) (GetHex (ArithToUint256 a))) by (rewrite GetHex_spec; by apply printed_digits, Forall_reverse).
  assert (Hlen : (2 <= length (GetHex (ArithToUint256 a)))%nat).
  { rewrite GetHex_spec; destruct (reverse (ArithToUint256 a)) as [|b l] eqn:E; [|cbn; lia]; apply (f_equal length) in E; rewrite length_reverse, Hl in E; done. }
  rewrite <- (app_nil_r (GetHex _)), skip_printed, hex_prefix_printed, hex_value_GetHex by (done || (intros E; rewrite E in Hlen; cbn in Hlen; lia)).
  rewrite <- Hl, le_bytes_le_word by done; exact Hback.
Qed.

Lemma SetHex_correct_witness : le_word (SetHex 2 [48; 120; 49; 50; 51; 52; 53; 122]) = 0x12345 mod 2 ^ 16.
Proof.
  exact (proj1 (proj2 (proj2 (SetHex_correct 2 [48; 120; 49; 50; 51; 52; 53; 122] (of_uint64 8 7) (demo_uint 7 ltac:(unfold word; lia)))))).
Defined.

(** The other accessors read the bytes in little-endian order. *)
Lemma accessors data pos : (pos * 8 + 8 <= length data)%nat ->
  GetUint64 data pos = le_word (read_at (pos * 8) 8 data) /\ (pos = 0%nat -> GetFirstUint32 data = le_word (read_at 0 4 data)).
Proof.
  intros Hl; assert (Hr : read_at (pos * 8) 8 data = map (fun i => data !!! (pos * 8 + i)%nat) (seq 0 8)).
  { apply list_eq; intros i; unfold read_at; destruct (Nat.lt_ge_cases i 8) as [Hi|Hi].
    - rewrite lookup_take_lt, lookup_drop, list_lookup_fmap, lookup_seq_lt by done; cbn [fmap option_fmap option_map]; by apply list_lookup_lookup_total_lt; lia.
    - by rewrite lookup_take_ge, list_lookup_fmap, lookup_seq_ge by done. }
  split.
  - rewrite Hr; cbn [map seq le_word]; unfold GetUint64; rewrite !Z.shiftl_lor, !Z.shiftl_shiftl, Z.shiftl_0_l, Z.lor_0_r by lia; cbn [Z.add]; by rewrite <- !Z.lor_assoc.
  - intros ->; assert (Hr4 : read_at 0 4 data = take 4 (read_at (0 * 8) 8 data)) by (unfold read_at; by rewrite take_take).
    rewrite Hr4, Hr; cbn [map seq take le_word]; unfold GetFirstUint32; rewrite !Z.shiftl_lor, !Z.shiftl_shiftl, Z.shiftl_0_l, Z.lor_0_r by lia; by rewrite <- !Z.lor_assoc.
Qed.
