(* ===== verification/Serialize.v ===== *)
(** Serialization: serialize.h, and the stream that it is used with, CDataStream
    of streams.h.

    A byte is a [Z]; a stream is its buffer and the position of the reader.  A
    read ends normally, throws [std::ios_base::failure], or leaves the buffer
    ([Undefined]).  [Serializable] is what serialize.h promises to the classes
    that use it: an encoding that reading takes back from the front of any
    stream. *)

From S2P Require Import Prelude.

(** ** Streams *)

Record CDataStream := DataStream { vch : list Z; nReadPos : Z }.

Inductive failure := EndOfData | NegativeSize | NonCanonical | SizeTooLarge.

Inductive outcome (A : Type) := Done (a : A) (s : CDataStream) | Fails (f : failure) | Undefined.
Arguments Done {A} a s.
Arguments Fails {A} f.
Arguments Undefined {A}.

Definition reader (A : Type) : Type := CDataStream -> outcome A.

Definition ret {A} (a : A) : reader A := fun s => Done a s.

Definition bindr {A B} (r : reader A) (f : A -> reader B) : reader B :=
  fun s => match r s with Done a s => f a s | Fails e => Fails e | Undefined => Undefined end.

Definition throw {A} (f : failure) : reader A := fun _ => Fails f.

Declare Scope reader_scope.
Notation "x <-- r ;; k" := (bindr r (fun x => k)) (at level 100, r at next level, right associativity) : reader_scope.
Open Scope reader_scope.

Definition stream_size (s : CDataStream) : Z := Z.of_nat (length s.(vch)) - s.(nReadPos).

(** [read(pch, nSize)]; the sum of the position and the size is an
    [unsigned int]. *)
Definition read (nSize : nat) : reader (list Z) := fun s =>
  if (nSize =? 0)%nat then Done [] s
  else
    let nReadPosNext := u32 (s.(nReadPos) + Z.of_nat nSize) in
    let copied := read_at (Z.to_nat s.(nReadPos)) nSize s.(vch) in
    let inside := s.(nReadPos) + Z.of_nat nSize <=? Z.of_nat (length s.(vch)) in
    if Z.of_nat (length s.(vch)) <=? nReadPosNext then
      if Z.of_nat (length s.(vch)) <? nReadPosNext then Fails EndOfData
      else if inside then Done copied (DataStream [] 0) else Undefined
    else if inside then Done copied (DataStream s.(vch) nReadPosNext) else Undefined.

(** [ignore(nSize)] with its [int] argument *)
Definition ignore (nSize : Z) : reader () := fun s =>
  if nSize <? 0 then Fails NegativeSize
  else
    let nReadPosNext := u32 (s.(nReadPos) + nSize) in
    if Z.of_nat (length s.(vch)) <=? nReadPosNext then
      if Z.of_nat (length s.(vch)) <? nReadPosNext then Fails EndOfData else Done () (DataStream [] 0)
    else Done () (DataStream s.(vch) nReadPosNext).

Definition write (pch : list Z) (s : CDataStream) : CDataStream := DataStream (s.(vch) ++ pch) s.(nReadPos).

(** [Rewind(n)]; [n] is a [size_type]. *)
Definition Rewind (n : Z) (s : CDataStream) : bool * CDataStream :=
  if s.(nReadPos) <? n then (false, s) else (true, DataStream s.(vch) (s.(nReadPos) - n)).

(** [Compact()] *)
Definition Compact_stream (s : CDataStream) : CDataStream := DataStream (drop (Z.to_nat s.(nReadPos)) s.(vch)) 0.

(** ** Integers *)

Definition ser_writedata8 (s : CDataStream) (obj : Z) : CDataStream := write (le_bytes 1 obj) s.
Definition ser_writedata16 (s : CDataStream) (obj : Z) : CDataStream := write (le_bytes 2 obj) s.
Definition ser_writedata32 (s : CDataStream) (obj : Z) : CDataStream := write (le_bytes 4 obj) s.
Definition ser_writedata64 (s : CDataStream) (obj : Z) : CDataStream := write (le_bytes 8 obj) s.

Definition ser_readdata8 : reader Z := b <-- read 1 ;; ret (le_word b).
Definition ser_readdata16 : reader Z := b <-- read 2 ;; ret (le_word b).
Definition ser_readdata32 : reader Z := b <-- read 4 ;; ret (le_word b).
Definition ser_readdata64 : reader Z := b <-- read 8 ;; ret (le_word b).

(** The conversion of a 32-bit word to [int32_t]. *)
Definition s32 (x : Z) : Z := if u32 x <? 2 ^ 31 then u32 x else u32 x - 2 ^ 32.

(** ** Compact sizes *)

Definition MAX_SIZE : Z := 0x02000000.

Definition GetSizeOfCompactSize (nSize : Z) : Z :=
  if nSize <? 253 then 1 else if nSize <=? 0xFFFF then 3 else if nSize <=? 0xFFFFFFFF then 5 else 9.

Definition WriteCompactSize (os : CDataStream) (nSize : Z) : CDataStream :=
  if nSize <? 253 then ser_writedata8 os nSize
  else if nSize <=? 0xFFFF then ser_writedata16 (ser_writedata8 os 253) nSize
  else if nSize <=? 0xFFFFFFFF then ser_writedata32 (ser_writedata8 os 254) nSize
  else ser_writedata64 (ser_writedata8 os 255) nSize.

Definition ReadCompactSize : reader Z :=
  chSize <-- ser_readdata8 ;;
  nSizeRet <--
    (if chSize <? 253 then ret chSize
     else if chSize =? 253 then
       nSizeRet <-- ser_readdata16 ;; if nSizeRet <? 253 then throw NonCanonical else ret nSizeRet
     else if chSize =? 254 then
       nSizeRet <-- ser_readdata32 ;; if nSizeRet <? 0x10000 then throw NonCanonical else ret nSizeRet
     else
       nSizeRet <-- ser_readdata64 ;; if nSizeRet <? 0x100000000 then throw NonCanonical else ret nSizeRet) ;;
  if MAX_SIZE <? nSizeRet then throw SizeTooLarge else ret nSizeRet.

(** ** Variable-length integers

    [I] is an unsigned type of [8 * bytes] bits; the array [tmp] has
    [(8 * bytes + 6) / 7] elements, and the loops end before that number of
    turns. *)
Section VarInt.
Context (bytes : nat).
Definition varint_len : nat := ((8 * bytes + 6) / 7)%nat.

Fixpoint varint_size (fuel : nat) (n : Z) : option Z :=
  match fuel with
  | O => None
  | S fuel => if n <=? 0x7F then Some 1 else r ← varint_size fuel (Z.shiftr n 7 - 1); Some (r + 1)
  end.
Definition GetSizeOfVarInt (n : Z) : option Z := varint_size varint_len n.

(** The bytes [tmp[0 .. len]]. *)
Fixpoint varint_tmp (fuel : nat) (first : bool) (n : Z) : option (list Z) :=
  match fuel with
  | O => None
  | S fuel =>
    let b := Z.lor (Z.land n 0x7F) (if first then 0x00 else 0x80) in
    if n <=? 0x7F then Some [b] else tmp ← varint_tmp fuel false (Z.shiftr n 7 - 1); Some (b :: tmp)
  end.

(** [None] would be an access outside of [tmp]. *)
Definition WriteVarInt (os : CDataStream) (n : Z) : option CDataStream :=
  tmp ← varint_tmp varint_len true n;
  Some (fold_left ser_writedata8 (reverse tmp) os).

(** The loop reads at least one byte in each turn, so that the number of bytes
    left is enough fuel. *)
Fixpoint ReadVarInt_loop (fuel : nat) (n : Z) : reader Z :=
  match fuel with
  | O => fun _ => Undefined
  | S fuel =>
    chData <-- ser_readdata8 ;;
    let n := Z.lor (wrap (8 * Z.of_nat bytes) (Z.shiftl n 7)) (Z.land chData 0x7F) in
    if negb (Z.land chData 0x80 =? 0) then ReadVarInt_loop fuel (wrap (8 * Z.of_nat bytes) (n + 1)) else ret n
  end.
Definition ReadVarInt : reader Z := fun s => ReadVarInt_loop (length s.(vch) + 1) 0 s.
End VarInt.

(** ** Vectors of bytes *)

Definition Serialize_bytes (os : CDataStream) (v : list Z) : CDataStream := write v (WriteCompactSize os (Z.of_nat (length v))).

Fixpoint read_blocks (fuel : nat) (nSize i : Z) (v : list Z) : reader (list Z) :=
  match fuel with
  | O => fun _ => Undefined
  | S fuel =>
    if nSize <=? i then ret v
    else
      let blk := Z.min (u32 (nSize - i)) 5000000 in
      b <-- read (Z.to_nat blk) ;; read_blocks fuel nSize (u32 (i + blk)) (v ++ b)
  end.
Definition Unserialize_bytes : reader (list Z) := nSize <-- ReadCompactSize ;; read_blocks (Z.to_nat nSize + 1) nSize 0 [].

(** ** Vectors of other elements

    [step] is [5000000 / sizeof(T)]; at the beginning of a turn [i] and [nMid]
    are the same. *)
Section Vector.
Context {A : Type} (Serialize : CDataStream -> A -> CDataStream) (Unserialize : reader A) (step : Z).

Definition Serialize_vector (os : CDataStream) (v : list A) : CDataStream :=
  fold_left Serialize v (WriteCompactSize os (Z.of_nat (length v))).

Fixpoint read_elements (n : nat) (v : list A) : reader (list A) :=
  match n with
  | O => ret v
  | S n => x <-- Unserialize ;; read_elements n (v ++ [x])
  end.

Fixpoint read_chunks (fuel : nat) (nSize nMid : Z) (v : list A) : reader (list A) :=
  match fuel with
  | O => fun _ => Undefined
  | S fuel =>
    if nMid <? nSize then
      let nMid' := u32 (nMid + step) in
      let nMid' := if nSize <? nMid' then nSize else nMid' in
      v <-- read_elements (Z.to_nat (nMid' - nMid)) v ;; read_chunks fuel nSize nMid' v
    else ret v
  end.
Definition Unserialize_vector : reader (list A) := nSize <-- ReadCompactSize ;; read_chunks (Z.to_nat nSize + 1) nSize 0 [].
End Vector.
