(* ===== verification/SerializeProofs.v ===== *)
(** Readers and encodings: a stream is a queue of bytes, and what a reader takes
    from its front. *)

From S2P Require Import Prelude Serialize.

(** ** Streams as queues *)

Definition unread (s : CDataStream) : list Z := drop (Z.to_nat s.(nReadPos)) s.(vch).

Record stream_ok (s : CDataStream) : Prop := StreamOk {
  so_pos : 0 <= s.(nReadPos) <= Z.of_nat (length s.(vch));
  so_size : Z.of_nat (length s.(vch)) < 2 ^ 31;
  so_bytes : words 8 s.(vch)
}.

(** A stream to read from. *)
Definition of_bytes (l : list Z) : CDataStream := DataStream l 0.

(** Byte strings of a fixed length. *)
Definition blob (n : nat) (l : list Z) : Prop := length l = n /\ words 8 l.

Lemma of_bytes_ok l : words 8 l -> Z.of_nat (length l) < 2 ^ 31 -> stream_ok (of_bytes l) /\ unread (of_bytes l) = l.
Proof. intros Hl Hs; split; [split; cbn; [lia|done|done]|apply drop_0]. Qed.

Lemma unread_length s : stream_ok s -> Z.of_nat (length (unread s)) = stream_size s.
Proof. intros [Hp _ _]; unfold unread, stream_size; rewrite length_drop; lia. Qed.

Lemma unread_words s : stream_ok s -> words 8 (unread s).
Proof. intros [_ _ Hb]; by apply Forall_drop. Qed.

Lemma write_unread p s : stream_ok s -> unread (write p s) = unread s ++ p.
Proof. intros [Hp _ _]; unfold unread, write; cbn [vch nReadPos]; rewrite drop_app_le by lia; done. Qed.

Lemma write_app p q s : write q (write p s) = write (p ++ q) s.
Proof. unfold write; cbn [vch nReadPos]; by rewrite app_assoc. Qed.

Lemma write_nil s : write [] s = s.
Proof. destruct s; unfold write; cbn; by rewrite app_nil_r. Qed.

(** [read] takes bytes from the front, or fails when there are too few. *)
Lemma read_spec n s : stream_ok s -> Z.of_nat n < 2 ^ 31 ->
  if (n <=? length (unread s))%nat
  then exists s', read n s = Done (take n (unread s)) s' /\ stream_ok s' /\ unread s' = drop n (unread s)
  else read n s = Fails EndOfData.
Proof.
  intros Hok Hn; pose proof Hok as [Hp Hs Hb]; unfold read; pose proof (unread_length s Hok) as Hlen; unfold stream_size in Hlen.
  rewrite u32_id by (unfold word; lia); destruct (Nat.eqb_spec n 0) as [->|Hn0]; [by exists s|].
  destruct (Nat.leb_spec n (length (unread s))) as [Hle|Hgt].
  - rewrite (proj2 (Z.leb_le (s.(nReadPos) + Z.of_nat n) _)) by lia; destruct (Z.leb_spec (Z.of_nat (length s.(vch))) (s.(nReadPos) + Z.of_nat n)) as [Hend|Hmid].
    + rewrite (proj2 (Z.ltb_ge _ _)) by lia; eexists; split; [done|]; split; [split; cbn; [lia|lia|constructor]|]; symmetry; apply drop_ge; lia.
    + eexists; split; [done|]; split; [split; cbn; [lia|lia|done]|]; unfold unread; cbn [vch nReadPos]; rewrite drop_drop; f_equal; lia.
  - by rewrite (proj2 (Z.leb_le _ _)), (proj2 (Z.ltb_lt _ _)) by lia.
Qed.

(** ** What a reader does

    [reads r e a]: from the front of any stream [r] takes the bytes [e] and
    returns [a].  [parses r Q]: [r] does not leave the buffer, and whatever it
    returns it has taken from the front bytes that [Q] relates to it. *)

Definition reads {A} (r : reader A) (e : list Z) (a : A) : Prop :=
  forall s rest, stream_ok s -> unread s = e ++ rest -> exists s', r s = Done a s' /\ stream_ok s' /\ unread s' = rest.

Definition parses {A} (r : reader A) (Q : A -> list Z -> Prop) : Prop :=
  forall s, stream_ok s -> match r s with
    | Done a s' => stream_ok s' /\ exists e, unread s = e ++ unread s' /\ Q a e
    | Fails _ => True
    | Undefined => False
    end.

Lemma reads_ret {A} (a : A) : reads (ret a) [] a.
Proof. intros s rest Hs E; by exists s. Qed.

Lemma reads_bind {A B} (r : reader A) (f : A -> reader B) e1 e2 a b : reads r e1 a -> reads (f a) e2 b -> reads (bindr r f) (e1 ++ e2) b.
Proof.
  intros H1 H2 s rest Hs E; rewrite <- app_assoc in E; destruct (H1 s _ Hs E) as (s1 & E1 & Hs1 & U1); unfold bindr; rewrite E1; exact (H2 s1 rest Hs1 U1).
Qed.

Lemma reads_bind_ret {A B} (r : reader A) (g : A -> B) e a : reads r e a -> reads (bindr r (fun x => ret (g x))) e (g a).
Proof. intros H; rewrite <- (app_nil_r e); apply (reads_bind r _ e [] a); [done|apply reads_ret]. Qed.

Lemma reads_ext {A} (r : reader A) e e' a : e = e' -> reads r e a -> reads r e' a.
Proof. by intros ->. Qed.

Lemma reads_read n e : length e = n -> Z.of_nat n < 2 ^ 31 -> reads (read n) e e.
Proof.
  intros Hl Hn s rest Hs E; pose proof (read_spec n s Hs Hn) as H; rewrite E, length_app, (proj2 (Nat.leb_le _ _)) in H by lia.
  destruct H as (s' & H1 & H2 & H3); exists s'; rewrite take_app_le, take_ge in H1 by lia; rewrite drop_app_ge, Hl, Nat.sub_diag in H3 by lia; done.
Qed.

Lemma parses_ret {A} (a : A) : parses (ret a) (fun x e => x = a /\ e = []).
Proof. intros s Hs; cbn; split; [done|]; by exists []. Qed.

Lemma parses_throw {A} f (Q : A -> list Z -> Prop) : parses (throw f) Q.
Proof. by intros s Hs. Qed.

Lemma parses_bind {A B} (r : reader A) (f : A -> reader B) Q1 (Q : B -> list Z -> Prop) :
  parses r Q1 -> (forall a e, Q1 a e -> parses (f a) (fun b e2 => Q b (e ++ e2))) -> parses (bindr r f) Q.
Proof.
  intros H1 H2 s Hs; pose proof (H1 s Hs) as H; unfold bindr; destruct (r s) as [a s1| |]; [|done|done]; destruct H as (Hs1 & e1 & E1 & HQ1).
  pose proof (H2 a e1 HQ1 s1 Hs1) as H; destruct (f a s1) as [b s2| |]; [|done|done]; destruct H as (Hs2 & e2 & E2 & HQ2); split; [done|].
  exists (e1 ++ e2); split; [by rewrite E1, E2, app_assoc|done].
Qed.

Lemma parses_weaken {A} (r : reader A) (Q Q' : A -> list Z -> Prop) : parses r Q -> (forall a e, Q a e -> Q' a e) -> parses r Q'.
Proof.
  intros H HQ s Hs; pose proof (H s Hs) as H'; destruct (r s) as [a s'| |]; [|done|done]; destruct H' as (Hs' & e & E & He); split; [done|]; exists e; auto.
Qed.

Lemma parses_done {A} (a : A) (Q : A -> list Z -> Prop) : Q a [] -> parses (ret a) Q.
Proof. intros H; apply (parses_weaken _ _ _ (parses_ret a)); by intros x e [-> ->]. Qed.

Lemma parses_read n : Z.of_nat n < 2 ^ 31 -> parses (read n) (fun x e => x = e /\ length e = n /\ words 8 e).
Proof.
  intros Hn s Hs; pose proof (read_spec n s Hs Hn) as H; pose proof (unread_words s Hs) as Hw; destruct (Nat.leb_spec n (length (unread s))) as [Hl|Hl]; [|by rewrite H].
  destruct H as (s' & -> & Hs' & E); split; [done|]; exists (take n (unread s)); rewrite E; split; [by rewrite take_drop|]; split; [done|].
  split; [rewrite length_take; lia|by apply Forall_take].
Qed.

(** ** The promise of serialize.h

    A format is a reader with its encoding: the reader takes the encoding of any
    encodable value back from the front of a stream, and takes nothing else. *)

Class Format {A : Type} (decode : reader A) := {
  encodable : A -> Prop;
  encode : A -> list Z;
  decode_encode a : encodable a -> reads decode (encode a) a;
  encode_decode : parses decode (fun a e => encodable a /\ e = encode a)
}.
Arguments encodable {A} decode {_} a.
Arguments encode {A} decode {_} a.
Arguments decode_encode {A} decode {_} a.
Arguments encode_decode {A} decode {_}.

(** Different values have encodings of which neither begins the other. *)
Lemma encode_prefix {A} (decode : reader A) `{!Format decode} a b rest rest' : encodable decode a -> encodable decode b ->
  words 8 (encode decode a ++ rest) -> Z.of_nat (length (encode decode a ++ rest)) < 2 ^ 31 ->
  encode decode a ++ rest = encode decode b ++ rest' -> a = b /\ rest = rest'.
Proof.
  intros Ha Hb Hw Hl E; destruct (of_bytes_ok _ Hw Hl) as [Hs Hu].
  destruct (decode_encode decode a Ha _ rest Hs Hu) as (s1 & E1 & _ & U1), (decode_encode decode b Hb _ rest' Hs (eq_trans Hu E)) as (s2 & E2 & _ & U2).
  rewrite E1 in E2; injection E2 as -> ->; by rewrite <- U1, <- U2.
Qed.

(** The bytes a format takes from a stream. *)
Lemma decode_done {A} (decode : reader A) `{!Format decode} s a s' : stream_ok s -> decode s = Done a s' ->
  encodable decode a /\ stream_ok s' /\ unread s = encode decode a ++ unread s'.
Proof. intros Hs E; pose proof (encode_decode decode s Hs) as H; rewrite E in H; by destruct H as (Hs' & e & -> & Ha & ->). Qed.

(** ** Integers *)

Lemma reads_le n x : word (8 * Z.of_nat n) x -> Z.of_nat n < 2 ^ 31 -> reads (b <-- read n ;; ret (le_word b)) (le_bytes n x) x.
Proof.
  intros Hx Hn; rewrite <- (le_word_le_bytes n x Hx) at 2; apply (reads_bind_ret (read n) le_word); apply reads_read; [apply length_le_bytes|done].
Qed.

Lemma parses_le n : Z.of_nat n < 2 ^ 31 -> parses (b <-- read n ;; ret (le_word b)) (fun x e => word (8 * Z.of_nat n) x /\ e = le_bytes n x).
Proof.
  intros Hn; apply (parses_bind _ _ _ _ (parses_read n Hn)); intros b e (-> & Hl & Hw); apply parses_done; rewrite app_nil_r, <- Hl.
  split; [by apply le_word_word|by rewrite le_bytes_le_word].
Qed.

#[export] Instance format_u8 : Format ser_readdata8 :=
  {| encodable := word 8; encode := le_bytes 1; decode_encode x Hx := reads_le 1 x Hx eq_refl; encode_decode := parses_le 1 eq_refl |}.
#[export] Instance format_u16 : Format ser_readdata16 :=
  {| encodable := word 16; encode := le_bytes 2; decode_encode x Hx := reads_le 2 x Hx eq_refl; encode_decode := parses_le 2 eq_refl |}.
#[export] Instance format_u32 : Format ser_readdata32 :=
  {| encodable := word 32; encode := le_bytes 4; decode_encode x Hx := reads_le 4 x Hx eq_refl; encode_decode := parses_le 4 eq_refl |}.
#[export] Instance format_u64 : Format ser_readdata64 :=
  {| encodable := word 64; encode := le_bytes 8; decode_encode x Hx := reads_le 8 x Hx eq_refl; encode_decode := parses_le 8 eq_refl |}.

(** ** Compact sizes *)

Definition compact_bytes (n : Z) : list Z :=
  if n <? 253 then le_bytes 1 n
  else if n <=? 0xFFFF then le_bytes 1 253 ++ le_bytes 2 n
  else if n <=? 0xFFFFFFFF then le_bytes 1 254 ++ le_bytes 4 n
  else le_bytes 1 255 ++ le_bytes 8 n.

Lemma WriteCompactSize_spec s n : WriteCompactSize s n = write (compact_bytes n) s.
Proof.
  unfold WriteCompactSize, compact_bytes; destruct (n <? 253); [done|]; destruct (n <=? 0xFFFF); [apply write_app|]; destruct (n <=? 0xFFFFFFFF); apply write_app.
Qed.

Lemma reads_compact n : 0 <= n <= MAX_SIZE -> reads ReadCompactSize (compact_bytes n) n.
Proof.
  unfold MAX_SIZE; intros Hn; unfold ReadCompactSize, compact_bytes.
  assert (Hend : reads (if MAX_SIZE <? n then throw SizeTooLarge else ret n) [] n) by (rewrite (proj2 (Z.ltb_ge _ _)) by (unfold MAX_SIZE; lia); apply reads_ret).
  destruct (Z.ltb_spec n 253) as [H1|H1]; [|destruct (Z.leb_spec n 0xFFFF) as [H2|H2]; [|rewrite (proj2 (Z.leb_le n 0xFFFFFFFF)) by lia]].
  - rewrite <- (app_nil_r (le_bytes 1 n)); apply (reads_bind _ _ _ _ n); [apply (reads_le 1); [unfold word; lia|done]|].
    rewrite (proj2 (Z.ltb_lt _ _)) by lia; apply (reads_bind _ _ [] [] n); [apply reads_ret|exact Hend].
  - apply (reads_bind _ _ _ _ 253); [apply (reads_le 1); [unfold word; lia|done]|]; cbn [Z.ltb Z.eqb]; rewrite <- (app_nil_r (le_bytes 2 n)).
    apply (reads_bind _ _ _ [] n); [|exact Hend]; rewrite <- (app_nil_r (le_bytes 2 n)); apply (reads_bind _ _ _ _ n); [apply (reads_le 2); [unfold word; lia|done]|].
    rewrite (proj2 (Z.ltb_ge _ _)) by lia; apply reads_ret.
  - apply (reads_bind _ _ _ _ 254); [apply (reads_le 1); [unfold word; lia|done]|]; cbn [Z.ltb Z.eqb]; rewrite <- (app_nil_r (le_bytes 4 n)).
    apply (reads_bind _ _ _ [] n); [|exact Hend]; rewrite <- (app_nil_r (le_bytes 4 n)); apply (reads_bind _ _ _ _ n); [apply (reads_le 4); [unfold word; lia|done]|].
    rewrite (proj2 (Z.ltb_ge _ _)) by lia; apply reads_ret.
Qed.

(** A number after the byte that says its length. *)
Lemma parses_long (r : reader Z) `{!Format r} (low : Z) Q : (forall x, encodable r x -> low <= x -> Q x (encode r x)) ->
  parses (x <-- r ;; if x <? low then throw NonCanonical else ret x) Q.
Proof.
  intros HQ; apply (parses_bind _ _ _ _ (encode_decode r)); intros x e [Hx ->]; destruct (Z.ltb_spec x low); [apply parses_throw|].
  apply parses_done; rewrite app_nil_r; by apply HQ.
Qed.

Lemma parses_compact : parses ReadCompactSize (fun n e => 0 <= n <= MAX_SIZE /\ e = compact_bytes n).
Proof.
  apply (parses_bind _ _ _ _ (encode_decode ser_readdata8)); intros c e [Hc ->]; cbn [encodable encode format_u8] in Hc |- *.
  apply (parses_bind _ _ (fun n e => 0 <= n /\ le_bytes 1 c ++ e = compact_bytes n)).
  - unfold compact_bytes; destruct (Z.ltb_spec c 253) as [H1|H1]; [|destruct (Z.eqb_spec c 253) as [->|H2]; [|destruct (Z.eqb_spec c 254) as [->|H3]]].
    + apply parses_done; rewrite app_nil_r, (proj2 (Z.ltb_lt c 253)) by lia; unfold word in Hc; split; [lia|done].
    + apply (parses_long ser_readdata16 253); cbn; intros x Hx Hl; unfold word in Hx; split; [lia|].
      rewrite (proj2 (Z.ltb_ge x 253)), (proj2 (Z.leb_le x 0xFFFF)) by lia; done.
    + apply (parses_long ser_readdata32 0x10000); cbn; intros x Hx Hl; unfold word in Hx; split; [lia|].
      rewrite (proj2 (Z.ltb_ge x 253)), (proj2 (Z.leb_gt x 0xFFFF)), (proj2 (Z.leb_le x 0xFFFFFFFF)) by lia; done.
    + apply (parses_long ser_readdata64 0x100000000); cbn; intros x Hx Hl; unfold word in Hx, Hc; split; [lia|].
      rewrite (proj2 (Z.ltb_ge x 253)), (proj2 (Z.leb_gt x 0xFFFF)), (proj2 (Z.leb_gt x 0xFFFFFFFF)) by lia; replace c with 255 by lia; done.
  - intros n e [Hn He]; destruct (Z.ltb_spec MAX_SIZE n); [apply parses_throw|]; apply parses_done; rewrite app_nil_r; split; [lia|exact He].
Qed.

#[export] Instance format_compact : Format ReadCompactSize :=
  {| encodable n := 0 <= n <= MAX_SIZE; encode := compact_bytes; decode_encode := reads_compact; encode_decode := parses_compact |}.

(** ** Variable-length integers *)

Section VarIntProofs.
Context (bytes : nat).
Abbreviation W := (8 * Z.of_nat bytes).

(** The digits of [n], least significant first; all but the one written last
    have bit 7 set. *)
Lemma varint_tmp_some fuel : forall n first, (1 <= fuel)%nat -> 0 <= n < 2 ^ (7 * Z.of_nat fuel) -> exists tmp, varint_tmp fuel first n = Some tmp.
Proof.
  induction fuel as [|fuel IH]; intros n first Hf Hn; [lia|]; cbn [varint_tmp]; destruct (Z.leb_spec n 0x7F) as [H|H]; [by eexists|].
  destruct (IH (Z.shiftr n 7 - 1) false) as [tmp ->]; [destruct fuel; [cbn in Hn; lia|lia]| |by eexists].
  rewrite Z.shiftr_div_pow2 by lia; replace (7 * Z.of_nat (S fuel)) with (7 + 7 * Z.of_nat fuel) in Hn by lia; rewrite Z.pow_add_r in Hn by lia; change (2 ^ 7) with 128 in *.
  pose proof (Z.div_lt_upper_bound n 128 (2 ^ (7 * Z.of_nat fuel)) ltac:(lia) ltac:(lia)); pose proof (Z.div_le_lower_bound n 128 1 ltac:(lia) ltac:(lia)); lia.
Qed.

Lemma varint_len_spec : W <= 7 * Z.of_nat (varint_len bytes).
Proof. unfold varint_len; pose proof (Nat.div_mod (8 * bytes + 6) 7 ltac:(lia)); pose proof (Nat.mod_upper_bound (8 * bytes + 6) 7 ltac:(lia)); lia. Qed.

Lemma digit_byte n b : 0 <= n -> b = 0 \/ b = 0x80 -> word 8 (Z.lor (Z.land n 0x7F) b) /\ Z.land (Z.lor (Z.land n 0x7F) b) 0x7F = Z.land n 0x7F /\
  (Z.land (Z.lor (Z.land n 0x7F) b) 0x80 =? 0) = (b =? 0).
Proof.
  intros Hn Hb; change 0x7F with (Z.ones 7); rewrite Z.land_ones by lia; pose proof (Z.mod_pos_bound n (2 ^ 7) ltac:(lia)) as Hm; set (m := n mod 2 ^ 7) in *.
  assert (Hall : forallb (fun x => wordb 8 (Z.lor x b) && (Z.land (Z.lor x b) (Z.ones 7) =? x) && Bool.eqb (Z.land (Z.lor x b) 0x80 =? 0) (b =? 0)) (map Z.of_nat (seq 0 128)) = true)
    by (destruct Hb as [-> | ->]; vm_compute; reflexivity).
  rewrite forallb_forall in Hall; specialize (Hall m ltac:(apply in_map_iff; exists (Z.to_nat m); split; [lia|apply in_seq; change (2 ^ 7) with 128 in Hm; lia])).
  apply andb_true_iff in Hall as [Hall H3]; apply andb_true_iff in Hall as [H1 H2]; split; [by apply wordb_spec|]; split; [by apply Z.eqb_eq|by apply eqb_prop].
Qed.

Lemma varint_join n : 0 <= n -> Z.lor (Z.shiftl (Z.shiftr n 7) 7) (Z.land n 0x7F) = n.
Proof.
  intros Hn; change 0x7F with (Z.ones 7); rewrite Z.land_ones, Z.shiftr_div_pow2 by lia; rewrite Z.lor_comm, Z.shiftl_mul_pow2 by lia.
  pose proof (Z.div_mod n (2 ^ 7) ltac:(lia)); pose proof (Z.mod_pos_bound n (2 ^ 7) ltac:(lia)); rewrite (Z.mul_comm (n / 2 ^ 7)); rewrite (lor_disjoint 7); lia.
Qed.

(** One turn of the reading loop. *)
Lemma ReadVarInt_turn fuel acc b rest s : stream_ok s -> unread s = b :: rest -> exists s', stream_ok s' /\ unread s' = rest /\
  ReadVarInt_loop bytes (S fuel) acc s =
  (let n := Z.lor (wrap W (Z.shiftl acc 7)) (Z.land b 0x7F) in
   if negb (Z.land b 0x80 =? 0) then ReadVarInt_loop bytes fuel (wrap W (n + 1)) s' else Done n s').
Proof.
  intros Hs E; assert (Hb : word 8 b) by (pose proof (unread_words s Hs) as H; rewrite E in H; by apply list.Forall_cons in H as [H _]).
  destruct (reads_le 1 b Hb eq_refl s rest Hs) as (s' & E1 & Hs' & U).
  { rewrite E; f_equal; cbn [le_bytes]; rewrite land_255_u8; unfold u8; by rewrite wrap_id. }
  exists s'; split; [done|]; split; [done|]; cbn [ReadVarInt_loop]; unfold bindr at 1; change ser_readdata8 with (b <-- read 1 ;; ret (le_word b)); rewrite E1; cbv zeta; by destruct (negb _).
Qed.

(** Reading the digits with bit 7 set leaves the loop with one more than the
    number they stand for. *)
Lemma read_digits fuel : forall m tmp k rest s, 0 <= m < 2 ^ W - 1 -> varint_tmp fuel false m = Some tmp -> stream_ok s -> unread s = reverse tmp ++ rest ->
  exists s', stream_ok s' /\ unread s' = rest /\ ReadVarInt_loop bytes (length tmp + k) 0 s = ReadVarInt_loop bytes k (m + 1) s'.
Proof.
  induction fuel as [|fuel IH]; intros m tmp k rest s Hm Ht Hs E; [done|]; cbn [varint_tmp] in Ht.
  destruct (digit_byte m 0x80 ltac:(lia) (or_intror eq_refl)) as (_ & D1 & D2); set (b := Z.lor (Z.land m 0x7F) 0x80) in *; change (0x80 =? 0) with false in D2.
  destruct (Z.leb_spec m 0x7F) as [H|H].
  - injection Ht as <-; destruct (ReadVarInt_turn k 0 b rest s Hs E) as (s' & Hs' & U & Hl); exists s'; split; [done|]; split; [done|].
    cbn [length Nat.add]; rewrite Hl, D1, D2; cbn [negb]; rewrite Z.shiftl_0_l; unfold wrap at 2; rewrite Z.mod_0_l, Z.lor_0_l by (pose proof (pow2_pos W); lia).
    change 0x7F with (Z.ones 7); rewrite Z.land_ones, (Z.mod_small m), wrap_id by (unfold word; lia); done.
  - destruct (varint_tmp fuel false (Z.shiftr m 7 - 1)) as [tmp'|] eqn:Et; [|done]; injection Ht as <-; rewrite reverse_cons, <- app_assoc in E.
    assert (Hsh : 1 <= Z.shiftr m 7 <= m) by (rewrite Z.shiftr_div_pow2 by lia; change (2 ^ 7) with 128;
      pose proof (Z.div_le_lower_bound m 128 1 ltac:(lia) ltac:(lia)); pose proof (Z.div_le_upper_bound m 128 m ltac:(lia) ltac:(lia)); lia).
    destruct (IH (Z.shiftr m 7 - 1) tmp' (S k) (b :: rest) s ltac:(lia) Et Hs E) as (s1 & Hs1 & U1 & Hl1).
    destruct (ReadVarInt_turn k (Z.shiftr m 7) b rest s1 Hs1 U1) as (s2 & Hs2 & U2 & Hl2); exists s2; split; [done|]; split; [done|].
    cbn [length]; replace (S (length tmp') + k)%nat with (length tmp' + S k)%nat by lia; rewrite Hl1; replace (Z.shiftr m 7 - 1 + 1) with (Z.shiftr m 7) by lia.
    rewrite Hl2, D1, D2; cbn [negb]; pose proof (varint_join m ltac:(lia)) as Hj; rewrite (wrap_id W (Z.shiftl _ 7)), Hj, wrap_id; [done|unfold word; lia|].
    rewrite Z.shiftl_mul_pow2, Z.shiftr_div_pow2 by lia; pose proof (Z.mul_div_le m (2 ^ 7) ltac:(lia)); pose proof (Z.div_pos m (2 ^ 7) ltac:(lia) ltac:(lia)); unfold word; lia.
Qed.

(** The bytes [WriteVarInt] writes. *)
Definition varint_bytes (n : Z) : option (list Z) := reverse <$> varint_tmp (varint_len bytes) true n.

Lemma WriteVarInt_spec s n e : varint_bytes n = Some e -> 0 <= n -> WriteVarInt bytes s n = Some (write e s).
Proof.
  unfold varint_bytes, WriteVarInt; destruct (varint_tmp (varint_len bytes) true n) as [tmp|] eqn:Et; [|done]; intros [= <-] Hn; cbn [mbind option_bind]; f_equal.
  assert (Hw : words 8 tmp).
  { revert Et Hn; generalize (varint_len bytes) as fuel; generalize true as first; revert n tmp; intros n tmp first fuel; revert n tmp first.
    induction fuel as [|fuel IH]; intros n tmp first Ht Hn; [done|]; cbn [varint_tmp] in Ht.
    pose proof (proj1 (digit_byte n (if first then 0 else 0x80) Hn ltac:(destruct first; [by left|by right]))) as Hb.
    destruct (Z.leb_spec n 0x7F); [injection Ht as <-; constructor; [exact Hb|constructor]|].
    destruct (varint_tmp fuel false _) as [tmp'|] eqn:Et; [|done]; injection Ht as <-; constructor; [done|]; apply (IH _ _ _ Et).
    rewrite Z.shiftr_div_pow2 by lia; pose proof (Z.div_le_lower_bound n (2 ^ 7) 1 ltac:(lia) ltac:(lia)); lia. }
  apply Forall_reverse in Hw; revert s; induction Hw as [|b l Hb _ IH]; intros s; [by rewrite write_nil|].
  cbn [fold_left]; rewrite IH; unfold ser_writedata8; cbn [le_bytes]; rewrite land_255_u8; unfold u8; rewrite wrap_id by done; apply write_app.
Qed.

Lemma varint_reads n : (1 <= bytes)%nat -> word W n -> exists e, varint_bytes n = Some e /\ reads (ReadVarInt bytes) e n.
Proof.
  intros Hb Hn; unfold word in Hn; pose proof varint_len_spec as Hlen; unfold varint_bytes.
  destruct (varint_tmp_some (varint_len bytes) n true) as [tmp Et]; [lia|pose proof (Z.pow_le_mono_r 2 W (7 * Z.of_nat (varint_len bytes))); lia|].
  exists (reverse tmp); rewrite Et; split; [done|]; intros s rest Hs E; unfold ReadVarInt.
  assert (Hfuel : (length tmp <= length s.(vch))%nat) by (apply (f_equal length) in E; unfold unread in E; rewrite length_drop, length_app, length_reverse in E; lia).
  destruct (varint_len bytes) as [|fuel]; [done|]; cbn [varint_tmp] in Et; destruct (digit_byte n 0 ltac:(lia) (or_introl eq_refl)) as (_ & D1 & D2).
  set (b := Z.lor (Z.land n 0x7F) 0) in *; change (0 =? 0) with true in D2; destruct (Z.leb_spec n 0x7F) as [H|H].
  - injection Et as <-; destruct (ReadVarInt_turn (length s.(vch)) 0 b rest s Hs E) as (s' & Hs' & U & Hl); exists s'; rewrite Nat.add_1_r, Hl, D1, D2; split; [|done].
    cbn [negb]; rewrite Z.shiftl_0_l; unfold wrap; rewrite Z.mod_0_l, Z.lor_0_l by (pose proof (pow2_pos W); lia).
    change 0x7F with (Z.ones 7); rewrite Z.land_ones, (Z.mod_small n) by lia; done.
  - destruct (varint_tmp fuel false (Z.shiftr n 7 - 1)) as [tmp'|] eqn:Et'; [|done]; injection Et as <-; rewrite reverse_cons, <- app_assoc in E; cbn [length] in Hfuel.
    assert (Hsh : 1 <= Z.shiftr n 7 <= n) by (rewrite Z.shiftr_div_pow2 by lia; change (2 ^ 7) with 128;
      pose proof (Z.div_le_lower_bound n 128 1 ltac:(lia) ltac:(lia)); pose proof (Z.div_le_upper_bound n 128 n ltac:(lia) ltac:(lia)); lia).
    destruct (read_digits fuel (Z.shiftr n 7 - 1) tmp' (S (length s.(vch) - length tmp')) (b :: rest) s ltac:(lia) Et' Hs E) as (s1 & Hs1 & U1 & Hl1).
    destruct (ReadVarInt_turn (length s.(vch) - length tmp') (Z.shiftr n 7) b rest s1 Hs1 U1) as (s2 & Hs2 & U2 & Hl2); exists s2; split; [|done].
    replace (length s.(vch) + 1)%nat with (length tmp' + S (length s.(vch) - length tmp'))%nat by lia; rewrite Hl1; replace (Z.shiftr n 7 - 1 + 1) with (Z.shiftr n 7) by lia.
    rewrite Hl2, D1, D2; cbn [negb]; pose proof (varint_join n ltac:(lia)) as Hj; rewrite wrap_id, Hj; [done|].
    rewrite Z.shiftl_mul_pow2, Z.shiftr_div_pow2 by lia; pose proof (Z.mul_div_le n (2 ^ 7) ltac:(lia)); pose proof (Z.div_pos n (2 ^ 7) ltac:(lia) ltac:(lia)); unfold word; lia.
Qed.

Lemma varint_size_spec fuel : forall n tmp first, varint_tmp fuel first n = Some tmp -> varint_size fuel n = Some (Z.of_nat (length tmp)).
Proof.
  induction fuel as [|fuel IH]; intros n tmp first Ht; [done|]; cbn [varint_tmp varint_size] in *; destruct (n <=? 0x7F); [by injection Ht as <-|].
  destruct (varint_tmp fuel false _) as [tmp'|] eqn:Et; [|done]; injection Ht as <-; rewrite (IH _ _ _ Et); cbn [mbind option_bind length]; f_equal; lia.
Qed.
End VarIntProofs.

(** ** Vectors *)

Section VectorProofs.
Context {A : Type} (r : reader A) `{!Format r} (step : Z) (Hstep : 1 <= step < 2 ^ 31).

Abbreviation encode_all l := (concat (map (encode r) l)).

Lemma reads_elements l v : Forall (encodable r) l -> reads (read_elements r (length l) v) (encode_all l) (v ++ l).
Proof.
  intros Hl; revert v; induction Hl as [|x l Hx _ IH]; intros v; cbn [length read_elements map concat]; [rewrite app_nil_r; apply reads_ret|].
  apply (reads_bind _ _ _ _ x); [by apply decode_encode|]; replace (v ++ x :: l) with ((v ++ [x]) ++ l) by (by rewrite <- app_assoc); apply IH.
Qed.

Lemma parses_elements n v : parses (read_elements r n v) (fun v' e => exists l, v' = v ++ l /\ length l = n /\ Forall (encodable r) l /\ e = encode_all l).
Proof.
  revert v; induction n as [|n IH]; intros v; cbn [read_elements]; [apply parses_done; exists []; by rewrite app_nil_r|].
  apply (parses_bind _ _ _ _ (encode_decode r)); intros x e [Hx ->]; apply (parses_weaken _ _ _ (IH (v ++ [x]))); intros v' e (l & -> & Hl & Hw & ->).
  exists (x :: l); split; [by rewrite <- app_assoc|]; split; [by cbn; rewrite Hl|]; split; [by constructor|done].
Qed.

(** The end of a chunk. *)
Lemma chunk_end nSize nMid : 0 <= nMid < nSize -> nSize <= MAX_SIZE ->
  let next := if nSize <? u32 (nMid + step) then nSize else u32 (nMid + step) in nMid < next <= nSize.
Proof. unfold MAX_SIZE; intros H1 H2; rewrite u32_id by (unfold word; lia); cbv zeta; destruct (Z.ltb_spec nSize (nMid + step)); lia. Qed.

Lemma reads_chunks fuel : forall l nMid nSize v, nSize <= MAX_SIZE -> 0 <= nMid -> nMid + Z.of_nat (length l) = nSize -> (Z.to_nat (nSize - nMid) < fuel)%nat ->
  Forall (encodable r) l -> reads (read_chunks r step fuel nSize nMid v) (encode_all l) (v ++ l).
Proof.
  induction fuel as [|fuel IH]; intros l nMid nSize v Hmax Hm Hn Hf Hl; [lia|]; cbn [read_chunks]; destruct (Z.ltb_spec nMid nSize) as [H|H].
  - pose proof (chunk_end nSize nMid ltac:(lia) Hmax) as Hnext; cbv zeta in *; set (next := if nSize <? _ then _ else _) in *; set (k := Z.to_nat (next - nMid)).
    rewrite <- (take_drop k l), map_app, concat_app; assert (Hk : length (take k l) = k) by (rewrite length_take; unfold k; lia).
    apply (reads_bind _ _ _ _ (v ++ take k l)); [rewrite <- Hk at 1; apply reads_elements; by apply Forall_take|].
    rewrite app_assoc; apply IH; [done|lia|rewrite length_drop; unfold k; lia|lia|by apply Forall_drop].
  - destruct l; [|cbn [length] in Hn; lia]; rewrite app_nil_r; apply reads_ret.
Qed.

Lemma parses_chunks fuel : forall nMid nSize v, nSize <= MAX_SIZE -> 0 <= nMid <= nSize -> (Z.to_nat (nSize - nMid) < fuel)%nat ->
  parses (read_chunks r step fuel nSize nMid v)
    (fun v' e => exists l, v' = v ++ l /\ nMid + Z.of_nat (length l) = nSize /\ Forall (encodable r) l /\ e = encode_all l).
Proof.
  induction fuel as [|fuel IH]; intros nMid nSize v Hmax Hm Hf; [lia|]; cbn [read_chunks]; destruct (Z.ltb_spec nMid nSize) as [H|H].
  - pose proof (chunk_end nSize nMid ltac:(lia) Hmax) as Hnext; cbv zeta in *; set (next := if nSize <? _ then _ else _) in *.
    apply (parses_bind _ _ _ _ (parses_elements _ v)); intros v1 e1 (l1 & -> & H1 & W1 & ->).
    apply (parses_weaken _ _ _ (IH next nSize (v ++ l1) Hmax ltac:(lia) ltac:(lia))); intros v2 e2 (l2 & -> & H2 & W2 & ->).
    exists (l1 ++ l2); rewrite length_app, map_app, concat_app, app_assoc; split; [done|]; split; [lia|]; split; [by apply Forall_app|done].
  - apply parses_done; exists []; rewrite app_nil_r; split; [done|]; split; [cbn; lia|]; by split.
Qed.

Definition encode_vector (l : list A) : list Z := compact_bytes (Z.of_nat (length l)) ++ encode_all l.

Lemma reads_vector l : Forall (encodable r) l /\ Z.of_nat (length l) <= MAX_SIZE -> reads (Unserialize_vector r step) (encode_vector l) l.
Proof.
  intros [Hl Hn]; apply (reads_bind _ _ _ _ (Z.of_nat (length l))); [apply reads_compact; lia|]; apply (reads_chunks _ l 0 _ []); (done || lia).
Qed.

Lemma parses_vector : parses (Unserialize_vector r step) (fun l e => (Forall (encodable r) l /\ Z.of_nat (length l) <= MAX_SIZE) /\ e = encode_vector l).
Proof.
  apply (parses_bind _ _ _ _ parses_compact); intros n e [Hn ->]; apply (parses_weaken _ _ _ (parses_chunks (Z.to_nat n + 1) 0 n [] ltac:(lia) ltac:(lia) ltac:(lia))).
  intros l e (l' & -> & Hl & Hw & ->); cbn [app] in *; split; [split; [done|lia]|]; unfold encode_vector; do 2 f_equal; lia.
Qed.

#[export] Instance format_vector : Format (Unserialize_vector r step) :=
  {| encode := encode_vector; decode_encode := reads_vector; encode_decode := parses_vector |}.

Lemma Serialize_vector_spec (Serialize : CDataStream -> A -> CDataStream) s l : (forall s a, Serialize s a = write (encode r a) s) ->
  Serialize_vector Serialize s l = write (encode_vector l) s.
Proof.
  intros HS; unfold Serialize_vector, encode_vector; rewrite WriteCompactSize_spec, <- write_app; generalize (write (compact_bytes (Z.of_nat (length l))) s) as s1.
  induction l as [|x l IH]; intros s1; cbn [fold_left map concat]; [by rewrite write_nil|]; by rewrite IH, HS, write_app.
Qed.
End VectorProofs.

(** Vectors of bytes are read in blocks. *)
Lemma block_size nSize i : 0 <= i < nSize -> nSize <= MAX_SIZE -> let blk := Z.min (u32 (nSize - i)) 5000000 in 1 <= blk <= nSize - i /\ u32 (i + blk) = i + blk.
Proof. unfold MAX_SIZE; intros H1 H2; rewrite (u32_id (nSize - i)) by (unfold word; lia); cbv zeta; split; [lia|apply u32_id; unfold word; lia]. Qed.

Lemma reads_blocks fuel : forall l i nSize v, nSize <= MAX_SIZE -> 0 <= i -> i + Z.of_nat (length l) = nSize -> (Z.to_nat (nSize - i) < fuel)%nat ->
  reads (read_blocks fuel nSize i v) l (v ++ l).
Proof.
  induction fuel as [|fuel IH]; intros l i nSize v Hmax Hi Hn Hf; [lia|]; cbn [read_blocks]; destruct (Z.leb_spec nSize i) as [H|H].
  { destruct l; [|cbn [length] in Hn; lia]; rewrite app_nil_r; apply reads_ret. }
  destruct (block_size nSize i ltac:(lia) Hmax) as [Hb Eb]; set (blk := Z.min _ _) in *; assert (Hk : length (take (Z.to_nat blk) l) = Z.to_nat blk) by (rewrite length_take; lia).
  rewrite <- (take_drop (Z.to_nat blk) l), app_assoc; apply (reads_bind _ _ _ _ (take (Z.to_nat blk) l)); [apply reads_read; [done|unfold MAX_SIZE in *; lia]|].
  rewrite Eb; apply IH; [done|lia|rewrite length_drop; lia|lia].
Qed.

Lemma parses_blocks fuel : forall i nSize v, nSize <= MAX_SIZE -> 0 <= i <= nSize -> (Z.to_nat (nSize - i) < fuel)%nat ->
  parses (read_blocks fuel nSize i v) (fun v' e => v' = v ++ e /\ i + Z.of_nat (length e) = nSize /\ words 8 e).
Proof.
  induction fuel as [|fuel IH]; intros i nSize v Hmax Hi Hf; [lia|]; cbn [read_blocks]; destruct (Z.leb_spec nSize i) as [H|H].
  { apply parses_done; rewrite app_nil_r; split; [done|]; split; [cbn; lia|constructor]. }
  destruct (block_size nSize i ltac:(lia) Hmax) as [Hb Eb]; set (blk := Z.min _ _) in *.
  apply (parses_bind _ _ _ _ (parses_read (Z.to_nat blk) ltac:(unfold MAX_SIZE in *; lia))); intros b e (-> & Hl & Hw); rewrite Eb.
  apply (parses_weaken _ _ _ (IH (i + blk) nSize (v ++ e) Hmax ltac:(lia) ltac:(lia))); intros v' e' (-> & Hl' & Hw').
  rewrite app_assoc, length_app; split; [done|]; split; [lia|by apply Forall_app].
Qed.

Definition encode_bytes (v : list Z) : list Z := compact_bytes (Z.of_nat (length v)) ++ v.

Lemma reads_bytes v : words 8 v /\ Z.of_nat (length v) <= MAX_SIZE -> reads Unserialize_bytes (encode_bytes v) v.
Proof.
  intros [Hw Hl]; apply (reads_bind _ _ _ _ (Z.of_nat (length v))); [apply reads_compact; lia|]; apply (reads_blocks _ v 0 _ []); (done || lia).
Qed.

Lemma parses_bytes : parses Unserialize_bytes (fun v e => (words 8 v /\ Z.of_nat (length v) <= MAX_SIZE) /\ e = encode_bytes v).
Proof.
  apply (parses_bind _ _ _ _ parses_compact); intros n e [Hn ->]; apply (parses_weaken _ _ _ (parses_blocks (Z.to_nat n + 1) 0 n [] ltac:(lia) ltac:(lia) ltac:(lia))).
  intros v e (-> & Hl & Hw); cbn [app]; split; [split; [done|lia]|]; unfold encode_bytes; do 2 f_equal; lia.
Qed.

#[export] Instance format_bytes : Format Unserialize_bytes :=
  {| encode := encode_bytes; decode_encode := reads_bytes; encode_decode := parses_bytes |}.

Lemma Serialize_bytes_spec s v : Serialize_bytes s v = write (encode_bytes v) s.
Proof. unfold Serialize_bytes, encode_bytes; by rewrite WriteCompactSize_spec, write_app. Qed.
