(* ===== verification/SerializeClaims.v ===== *)
(** The theorems about serialization. *)

From S2P Require Import Prelude Serialize SerializeProofs.

(** ** Streams *)

(** As long as less than 2^31 bytes are in it, a stream is a
    queue of bytes: [write] adds at the end; [read] takes from the front, or
    throws and takes nothing when there are too few, and never leaves the buffer;
    [ignore] takes bytes unseen; what [Rewind] puts back is what was read since the
    buffer was last emptied or compacted; [Compact] changes nothing that can be
    read. *)
Theorem stream_is_queue s p n : stream_ok s -> Z.of_nat n < 2 ^ 31 ->
  unread (write p s) = unread s ++ p /\ Z.of_nat (length (unread s)) = stream_size s /\
  match read n s with
  | Done bytes s' => (n <= length (unread s))%nat /\ unread s = bytes ++ unread s' /\ length bytes = n /\ stream_ok s' /\
      (0 < stream_size s' -> snd (Rewind (Z.of_nat n) s') = s)
  | Fails f => f = EndOfData /\ (length (unread s) < n)%nat
  | Undefined => False
  end /\
  (ignore (Z.of_nat n) s = match read n s with Done _ s' => Done () s' | Fails f => Fails f | Undefined => Undefined end \/ n = 0%nat) /\
  unread (Compact_stream s) = unread s.
Proof.
  intros Hs Hn; pose proof (read_spec n s Hs Hn) as Hr; pose proof (unread_length s Hs) as Hl; pose proof Hs as [Hp Hsz Hb].
  split; [by apply write_unread|]; split; [exact Hl|]; split; [|split].
  - destruct (Nat.leb_spec n (length (unread s))) as [Hle|Hgt]; [|by rewrite Hr]; destruct Hr as (s' & E & Hs' & U); rewrite E; split; [done|]; rewrite U.
    split; [symmetry; apply take_drop|]; split; [rewrite length_take; lia|]; split; [done|]; unfold read in E; intros Hpos.
    destruct (Nat.eqb_spec n 0) as [->|Hn0]; [injection E as <-; unfold Rewind; rewrite (proj2 (Z.ltb_ge _ _)) by lia; cbn [snd]; destruct s; cbn; f_equal; lia|].
    rewrite u32_id in E by (unfold word, stream_size in *; lia); destruct (_ <=? _); [destruct (_ <? _); [done|destruct (_ <=? _); [|done]; injection E as <-; unfold stream_size in Hpos; cbn in Hpos; lia]|].
    destruct (_ <=? _); [|done]; injection E as <-; unfold Rewind; cbn [nReadPos vch]; rewrite (proj2 (Z.ltb_ge _ _)) by lia; cbn [snd]; destruct s; cbn; f_equal; lia.
  - destruct (Nat.eqb_spec n 0) as [->|Hn0]; [by right|left]; unfold ignore, read; rewrite (proj2 (Z.ltb_ge _ _)), (proj2 (Nat.eqb_neq _ _) Hn0) by lia.
    rewrite u32_id by (unfold word; lia); destruct (Z.leb_spec (Z.of_nat (length s.(vch))) (s.(nReadPos) + Z.of_nat n)) as [H1|H1].
    + destruct (Z.ltb_spec (Z.of_nat (length s.(vch))) (s.(nReadPos) + Z.of_nat n)); [done|]; by rewrite (proj2 (Z.leb_le _ _)) by lia.
    + by rewrite (proj2 (Z.leb_le _ _)) by lia.
  - unfold unread, Compact_stream; cbn [vch nReadPos]; apply drop_0.
Qed.

Lemma stream_is_queue_witness : exists bytes s', read 2 (of_bytes [7; 8; 9]) = Done bytes s' /\ unread (of_bytes [7; 8; 9]) = bytes ++ unread s' /\ length bytes = 2%nat.
Proof.
  assert (Hs : stream_ok (of_bytes [7; 8; 9])) by (apply of_bytes_ok; [by apply wordsb_spec|done]).
  destruct (proj1 (proj2 (proj2 (stream_is_queue (of_bytes [7; 8; 9]) [] 2 Hs eq_refl)))) as (_ & H & Hl & _).
  exact (ex_intro _ _ (ex_intro _ _ (conj eq_refl (conj H Hl)))).
Defined.

(** ** Sizes *)

(** Every size up to [MAX_SIZE] is written in the number of
    bytes [GetSizeOfCompactSize] says and read back, from the front of any
    stream; and a size that is read without an exception was written in that
    way: no other bytes are read as it. *)
Theorem compact_size_canonical n s : 0 <= n <= MAX_SIZE -> stream_ok s ->
  WriteCompactSize s n = write (compact_bytes n) s /\ Z.of_nat (length (compact_bytes n)) = GetSizeOfCompactSize n /\
  reads ReadCompactSize (compact_bytes n) n /\
  match ReadCompactSize s with
  | Done m s' => 0 <= m <= MAX_SIZE /\ stream_ok s' /\ unread s = compact_bytes m ++ unread s'
  | Fails _ => True
  | Undefined => False
  end.
Proof.
  intros Hn Hs; split; [apply WriteCompactSize_spec|]; split.
  - unfold compact_bytes, GetSizeOfCompactSize; destruct (n <? 253); [done|]; destruct (n <=? 0xFFFF); [done|]; by destruct (n <=? 0xFFFFFFFF).
  - split; [by apply reads_compact|]; pose proof (parses_compact s Hs) as H; destruct (ReadCompactSize s) as [m s'| |]; [|done|done].
    destruct H as (Hs' & e & E & Hm & ->); done.
Qed.

Lemma compact_size_canonical_witness : Z.of_nat (length (compact_bytes 70000)) = 5 /\ ReadCompactSize (of_bytes [253; 7; 0]) = Fails NonCanonical.
Proof.
  assert (Hs : stream_ok (of_bytes [253; 7; 0])) by (apply of_bytes_ok; [by apply wordsb_spec|done]).
  split; [exact (proj1 (proj2 (compact_size_canonical 70000 (of_bytes [253; 7; 0]) ltac:(unfold MAX_SIZE; lia) Hs)))|reflexivity].
Defined.

(** A variable-length integer of an unsigned type is written,
    without leaving the array of digits, in the number of bytes [GetSizeOfVarInt]
    says, and read back from the front of any stream. *)
Theorem varint_roundtrip bytes n s : (1 <= bytes)%nat -> word (8 * Z.of_nat bytes) n ->
  exists e, WriteVarInt bytes s n = Some (write e s) /\ GetSizeOfVarInt bytes n = Some (Z.of_nat (length e)) /\ reads (ReadVarInt bytes) e n.
Proof.
  intros Hb Hn; destruct (varint_reads bytes n Hb Hn) as (e & He & Hr); exists e; split; [apply WriteVarInt_spec; [done|apply Hn]|]; split; [|done].
  unfold varint_bytes in He; destruct (varint_tmp (varint_len bytes) true n) as [tmp|] eqn:Et; [|done]; injection He as <-; rewrite length_reverse; exact (varint_size_spec _ _ _ _ Et).
Qed.

Lemma varint_roundtrip_witness : exists e, WriteVarInt 8 (of_bytes []) (2 ^ 32) = Some (write e (of_bytes [])) /\ reads (ReadVarInt 8) e (2 ^ 32).
Proof.
  destruct (varint_roundtrip 8 (2 ^ 32) (of_bytes []) ltac:(lia) ltac:(unfold word; lia)) as (e & H1 & _ & H2); exact (ex_intro _ e (conj H1 H2)).
Defined.

(** Reading a variable-length integer does not notice that the
    number does not fit in its type, so that a number has more than one encoding:
    the five bytes that stand for 2^32 are read as 0 by a 32-bit reader. *)
Theorem varint_wraps :
  ReadVarInt 4 (of_bytes [0x8E; 0xFE; 0xFE; 0xFF; 0x00]) = Done 0 (of_bytes []) /\ ReadVarInt 4 (of_bytes [0x00]) = Done 0 (of_bytes []) /\
  WriteVarInt 8 (of_bytes []) (2 ^ 32) = Some (of_bytes [0x8E; 0xFE; 0xFE; 0xFF; 0x00]).
Proof. split; [reflexivity|]; split; reflexivity. Qed.
