(* ===== verification/Mtp.v ===== *)
(** The proof of work of the Merkle tree proof: MerkleTreeProof/mtp.cpp.

    The three constants of the file are fields of a record, so that the same
    definitions can be run on a small memory; [mtp_params] has their values.
    [boost_uint256] is the constructor of [boost::multiprecision::uint256_t] from
    a string.  [None] is undefined behaviour (an index outside of an array, a NULL
    memory), an exception that is not caught, or a schedule of the threads that
    does not reach their end. *)

From S2P Require Import Prelude Blake2b Argon2 Argon2Threads MerkleTree Arith256 Uint256.

(** ** Constants *)

Definition MTP_L : nat := 64.

Record params := Params { L : nat; M_COST : Z; LANES : Z }.
Definition T_COST : Z := 1.
Definition mtp_params : params := Params MTP_L (1024 * 1024 * 4) 4.
Definition UINT_MAX : Z := 2 ^ 32 - 1.

(** Indeterminate contents of local variables. *)
Record mtp_locals := MtpLocals {
  ml_state : blake2b_state; ml_digest : list Z; ml_bytes : list Z; ml_out : list Z; ml_h0 : list Z;
  ml_block : block; ml_blocks : list block; ml_argon : locals
}.

(** What the platform decides during one search: the allocators and the schedule
    of the threads. *)
Record platform := Platform { pf_malloc : allocator; pf_calloc_thread : bool; pf_calloc_data : bool; pf_choices : list choice }.

(** ** Blocks *)

Definition StoreBlock (output : list Z) (src : block) : list Z :=
  for_range 0 ARGON2_QWORDS_IN_BLOCK (fun i output => write_at (i * 8) (store64 (src !!! i)) output) output.

(** The digest array; [None] cannot be. *)
Definition compute_blake2b (loc : mtp_locals) (input : block) : option (list Z) :=
  let tmp_block := copy_block input in
  let tmp_block_bytes := StoreBlock loc.(ml_bytes) tmp_block in
  let state := snd (blake2b_init (Some loc.(ml_state)) MERKLE_TREE_ELEMENT_SIZE_B) in
  let state := snd (blake2b_4r_update state (Some tmp_block_bytes) ARGON2_BLOCK_SIZE) in
  let '(_, _, digest) := blake2b_4r_final state (Some loc.(ml_digest)) MERKLE_TREE_ELEMENT_SIZE_B in
  digest.

(** ** Positions *)

Definition IndexBeta (instance : argon2_instance_t) (position : argon2_position_t) (pseudo_rand : Z) (same_lane : bool) : Z :=
  let reference_area_size :=
    if position.(pass) =? 0 then
      if position.(slice) =? 0 then u32 (position.(index) - 1)
      else if same_lane then u32 (position.(slice) * instance.(segment_length) + position.(index) - 1)
      else u32 (position.(slice) * instance.(segment_length) + (if position.(index) =? 0 then -1 else 0))
    else
      if same_lane then u32 (instance.(lane_length) - instance.(segment_length) + position.(index) - 1)
      else u32 (instance.(lane_length) - instance.(segment_length) + (if position.(index) =? 0 then -1 else 0)) in
  let relative_position := pseudo_rand in
  let relative_position := Z.shiftr (u64 (relative_position * relative_position)) 32 in
  let relative_position :=
    u64 (u32 (reference_area_size - 1) - Z.shiftr (u64 (reference_area_size * relative_position)) 32) in
  let start_position :=
    if negb (position.(pass) =? 0) then
      if position.(slice) =? ARGON2_SYNC_POINTS - 1 then 0 else u32 ((position.(slice) + 1) * instance.(segment_length))
    else 0 in
  let absolute_position := u64 (start_position + relative_position) mod instance.(lane_length) in
  u32 absolute_position.

(** The block before [ij] in its lane. *)
Definition previous_index (ij lane_length : Z) : Z :=
  let ij_prev := if ij mod lane_length =? 0 then u32 (ij + lane_length - 1) else u32 (ij - 1) in
  if ij mod lane_length =? 1 then u32 (ij - 1) else ij_prev.

(** The block that [opening], the first word of the previous block, selects for
    [ij]. *)
Definition referenced_index (instance : argon2_instance_t) (lanes opening ij : Z) : Z :=
  let ref_lane := u32 (Z.shiftr opening 32 mod lanes) in
  let pseudo_rand := u32 (Z.land opening 0xFFFFFFFF) in
  let lane := ij / instance.(lane_length) in
  let slice := u32 (ij - lane * instance.(lane_length)) / instance.(segment_length) in
  let pos_index := u32 (ij - lane * instance.(lane_length) - slice * instance.(segment_length)) in
  let ref_lane := if slice =? 0 then lane else ref_lane in
  let position := Argon2Position 0 lane (u8 slice) pos_index in
  let ref_index := IndexBeta instance position pseudo_rand (ref_lane =? lane) in
  u32 (instance.(lane_length) * ref_lane + ref_index).

Definition GetBlockIndex (ij : Z) (instance : argon2_instance_t) : option (Z * Z) :=
  let ij_prev := previous_index ij instance.(lane_length) in
  memory ← instance.(memory);
  prev_block ← memory !! Z.to_nat ij_prev;
  Some (ij_prev, referenced_index instance instance.(i_lanes) (prev_block !!! 0%nat) ij).

(** ** Argon2

    The argument [type] is [Argon2_d] in the only call; the three types are all there
    are, so that the test on it never returns [ARGON2_INCORRECT_TYPE]. *)

Definition Argon2CtxMtp (pf : platform) (loc : mtp_locals) (context : argon2_context) (instance : argon2_instance_t)
  : option (Z * argon2_instance_t) :=
  let result := validate_inputs (Some context) in
  if negb (result =? ARGON2_OK) then Some (result, instance)
  else
    '(result, instance, _) ← initialize pf.(pf_malloc) loc.(ml_argon) (Some instance) (Some context);
    instance ← instance;
    if negb (result =? ARGON2_OK) then Some (result, instance)
    else
      '(result, instance) ← fill_memory_blocks_mtp true pf.(pf_calloc_thread) pf.(pf_calloc_data) pf.(pf_choices) (Some instance);
      instance ← instance;
      if negb (result =? ARGON2_OK) then Some (result, instance) else Some (ARGON2_OK, instance).

Section Mtp.

Context (P : params) (boost_uint256 : list Z -> Z).

(** The context that the search and the verification build from the header. *)
Definition mtp_context (loc : mtp_locals) (input : list Z) : argon2_context :=
  Argon2Context (Some loc.(ml_out)) 32 (Some (take 80 input)) 80 (Some (take 80 input)) 80 None 0 None 0
    T_COST P.(M_COST) P.(LANES) P.(LANES) ARGON2_VERSION_NUMBER None false ARGON2_DEFAULT_FLAGS.

Definition mtp_segment_length : Z :=
  let memory_blocks := P.(M_COST) in
  let memory_blocks := if memory_blocks <? u32 (2 * ARGON2_SYNC_POINTS * P.(LANES)) then u32 (2 * ARGON2_SYNC_POINTS * P.(LANES)) else memory_blocks in
  memory_blocks / u32 (P.(LANES) * ARGON2_SYNC_POINTS).

Definition mtp_instance (loc : mtp_locals) : argon2_instance_t :=
  let segment_length := mtp_segment_length in
  let threads := P.(LANES) in
  Argon2Instance None ARGON2_VERSION_NUMBER T_COST P.(M_COST) segment_length (u32 (segment_length * ARGON2_SYNC_POINTS))
    P.(LANES) (if P.(LANES) <? threads then P.(LANES) else threads) Argon2_d loc.(ml_h0).

(** ** The sequence [y] *)

(** The calls of BLAKE2b with 32 bytes of output into an array that holds
    [out]. *)
Definition blake2b_256 (loc : mtp_locals) (parts : list (list Z)) (out : list Z) : list Z :=
  let state := snd (blake2b_init (Some loc.(ml_state)) 32) in
  let state := fold_left (fun state p => snd (blake2b_update state (Some p) (length p))) parts state in
  let '(_, _, out) := blake2b_final state (Some out) 32 in
  default [] out.

Definition first_y (loc : mtp_locals) (input hash_root_mtp : list Z) (nonce : Z) : list Z :=
  blake2b_256 loc [take 80 input; take MERKLE_TREE_ELEMENT_SIZE_B hash_root_mtp; store32 nonce] (replicate 32 0).

Definition next_y (loc : mtp_locals) (y : list Z) (b : block) : list Z :=
  let blockhash := copy_block b in
  let blockhash_bytes := StoreBlock loc.(ml_bytes) blockhash in
  blake2b_256 loc [take 32 y; take ARGON2_BLOCK_SIZE blockhash_bytes] (replicate 32 0).

(** [ij], the block that [y] selects. *)
Definition selected_index (y : list Z) : Z := u32 (boost_uint256 ([48; 120] ++ GetHex y) mod P.(M_COST)).

(** The tests of step 6 of the search and step 9 of the verification. *)
Definition misses_target (target : Z) (pow_limit y : list Z) : bool :=
  let c := SetCompact target in
  c.(c_negative) || EqualTo WIDTH256 c.(c_target) 0 || c.(c_overflow) ||
  greater WIDTH256 c.(c_target) (UintToArith256 pow_limit) || greater WIDTH256 (UintToArith256 y) c.(c_target).

(** ** Verification *)

(** One turn of the loop: [Some None] is [return false]. *)
Definition verify_step (loc : mtp_locals) (root h0 : list Z) (block_mtp : list block) (proof_mtp : list Elements) (j : nat) (y : list Z)
  : option (option (list Z)) :=
  let ij := selected_index y in
  t_prev_block ← block_mtp !! (j * 2 - 2)%nat;
  t_ref_block ← block_mtp !! (j * 2 - 1)%nat;
  let prev_block := copy_block t_prev_block in
  let ref_block := copy_block t_ref_block in
  let segment_length_2 := mtp_segment_length in
  let lane_length := u32 (segment_length_2 * ARGON2_SYNC_POINTS) in
  let ij_prev := previous_index ij lane_length in
  hash_prev ← compute_blake2b loc prev_block;
  proof_prev ← proof_mtp !! (j * 3 - 2)%nat;
  ok ← checkProofOrdered loc.(ml_state) loc.(ml_digest) proof_prev root hash_prev (u32 (ij_prev + 1));
  if negb ok then Some None
  else
    let instance := Argon2Instance None 0 0 0 segment_length_2 lane_length 0 0 Argon2_d [] in
    let computed_ref_block := referenced_index instance P.(LANES) (prev_block !!! 0%nat) ij in
    hash_ref ← compute_blake2b loc ref_block;
    proof_ref ← proof_mtp !! (j * 3 - 1)%nat;
    ok ← checkProofOrdered loc.(ml_state) loc.(ml_digest) proof_ref root hash_ref (u32 (computed_ref_block + 1));
    if negb ok then Some None
    else
      let block_ij := fill_block_mtp t_prev_block t_ref_block loc.(ml_block) false computed_ref_block h0 in
      hash_ij ← compute_blake2b loc block_ij;
      proof_ij ← proof_mtp !! (j * 3 - 3)%nat;
      ok ← checkProofOrdered loc.(ml_state) loc.(ml_digest) proof_ij root hash_ij (u32 (ij + 1));
      if negb ok then Some None else Some (Some (next_y loc y block_ij)).

Fixpoint verify_loop (loc : mtp_locals) (root h0 : list Z) (block_mtp : list block) (proof_mtp : list Elements) (js : list nat) (y : list Z)
  : option (option (list Z)) :=
  match js with
  | [] => Some (Some y)
  | j :: js =>
    r ← verify_step loc root h0 block_mtp proof_mtp j y;
    match r with
    | None => Some None
    | Some y => verify_loop loc root h0 block_mtp proof_mtp js y
    end
  end.

(** The value returned, and what [mtpHashValue], if it is not NULL, points to. *)
Definition mtp_verify (loc : mtp_locals) (input : list Z) (target : Z) (hash_root_mtp : list Z) (nonce : Z) (block_mtp : list block)
  (proof_mtp : list Elements) (pow_limit : list Z) (mtpHashValue : option (list Z)) : option (bool * option (list Z)) :=
  let root := take 16 hash_root_mtp in
  let y0 := first_y loc input hash_root_mtp nonce in
  let '(h0, _) := initial_hash loc.(ml_state) (Some loc.(ml_h0)) (Some (mtp_context loc input)) Argon2_d in
  h0 ← h0;
  r ← verify_loop loc root h0 block_mtp proof_mtp (seq 1 P.(L)) y0;
  match r with
  | None => Some (false, mtpHashValue)
  | Some y => Some (negb (misses_target target pow_limit y), (fun _ => y) <$> mtpHashValue)
  end.

(** ** Search *)

(** What the search writes: the arrays [y] (its last value), [blocks] and
    [proof_blocks]. *)
Record attempt := Attempt { at_y : list Z; at_blocks : list block; at_proofs : list Elements }.

Definition proof_of (t : MerkleTree) (hash : list Z) (i : Z) : option Elements :=
  match getProofOrdered t hash (Z.to_nat (u32 (i + 1))) with Ret p => Some p | Throw _ => None end.

(** One turn of the inner loop; [Some None] is [init_blocks = true; break]. *)
Definition hash_step (loc : mtp_locals) (instance : argon2_instance_t) (ordered_tree : MerkleTree) (j : nat) (a : attempt)
  : option (option attempt) :=
  let ij := selected_index a.(at_y) in
  let except_index := P.(M_COST) / P.(LANES) in
  if (ij mod except_index =? 0) || (ij mod except_index =? 1) then Some None
  else
    memory ← instance.(memory);
    b ← memory !! Z.to_nat ij;
    let y := next_y loc a.(at_y) b in
    '(prev_index, ref_index) ← GetBlockIndex ij instance;
    prev ← memory !! Z.to_nat prev_index;
    ref ← memory !! Z.to_nat ref_index;
    let blocks := <[(j * 2 - 2)%nat := copy_block prev]> a.(at_blocks) in
    let blocks := <[(j * 2 - 1)%nat := copy_block ref]> blocks in
    hash_curr ← compute_blake2b loc b;
    proof_curr ← proof_of ordered_tree hash_curr ij;
    let proofs := <[(j * 3 - 3)%nat := proof_curr]> a.(at_proofs) in
    hash_prev ← compute_blake2b loc prev;
    proof_prev ← proof_of ordered_tree hash_prev prev_index;
    let proofs := <[(j * 3 - 2)%nat := proof_prev]> proofs in
    hash_ref ← compute_blake2b loc ref;
    proof_ref ← proof_of ordered_tree hash_ref ref_index;
    let proofs := <[(j * 3 - 1)%nat := proof_ref]> proofs in
    Some (Some (Attempt y blocks proofs)).

(** The inner loop: the arrays, and whether it was left by the break. *)
Fixpoint hash_loop (loc : mtp_locals) (instance : argon2_instance_t) (ordered_tree : MerkleTree) (js : list nat) (a : attempt)
  : option (attempt * bool) :=
  match js with
  | [] => Some (a, false)
  | j :: js =>
    r ← hash_step loc instance ordered_tree j a;
    match r with
    | None => Some (a, true)
    | Some a => hash_loop loc instance ordered_tree js a
    end
  end.

(** [memset(&blocks[0], 0, sizeof(sizeof(block) * L * 2))] clears eight bytes. *)
Definition memset_blocks (blocks : list block) : list block := <[0%nat := <[0%nat := 0]> (blocks !!! 0%nat)]> blocks.

(** The loop over the nonces; the fuel is used up only if it is too small.
    [Some None] is [return false]. *)
Fixpoint mtp_search (fuel : nat) (loc : mtp_locals) (instance : argon2_instance_t) (ordered_tree : MerkleTree) (input root : list Z)
  (target : Z) (pow_limit : list Z) (n_nonce_internal : Z) (blocks : list block) (proofs : list Elements) : option (option (Z * attempt)) :=
  match fuel with
  | O => None
  | S fuel =>
    if n_nonce_internal =? UINT_MAX then Some None
    else
      let y := first_y loc input root n_nonce_internal in
      '(a, init_blocks) ← hash_loop loc instance ordered_tree (seq 1 P.(L)) (Attempt y (memset_blocks blocks) proofs);
      if (init_blocks : bool) || misses_target target pow_limit a.(at_y)
      then mtp_search fuel loc instance ordered_tree input root target pow_limit (u32 (n_nonce_internal + 1)) a.(at_blocks) a.(at_proofs)
      else Some (Some (n_nonce_internal, a))
  end.

(** The outputs: the root is written in any case, the rest only on success. *)
Record mtp_output := MtpOutput {
  o_root : list Z; o_nonce : Z; o_blocks : list block; o_proofs : list Elements; o_hash : list Z
}.

Fixpoint block_digests (loc : mtp_locals) (blocks : list block) : option Elements :=
  match blocks with
  | [] => Some []
  | b :: blocks => d ← compute_blake2b loc b; ds ← block_digests loc blocks; Some (d :: ds)
  end.

Definition mtp_hash1 (fuel : nat) (pf : platform) (loc : mtp_locals) (input : list Z) (target : Z) (pow_limit : list Z)
  : option (list Z * option mtp_output) :=
  let context := mtp_context loc input in
  '(_, instance) ← Argon2CtxMtp pf loc context (mtp_instance loc);
  memory ← instance.(memory);
  elements ← (if (Z.to_nat instance.(memory_blocks) <=? length memory)%nat
    then block_digests loc (take (Z.to_nat instance.(memory_blocks)) memory) else None);
  match make_MerkleTree loc.(ml_state) loc.(ml_digest) elements true with
  | Throw _ => None
  | Ret ordered_tree =>
    ordered_tree ← ordered_tree;
    root ← getRoot ordered_tree;
    r ← mtp_search fuel loc instance ordered_tree input root target pow_limit 0 loc.(ml_blocks) (replicate (P.(L) * 3) []);
    match r with
    | None => Some (root, None)
    | Some (nonce, a) => Some (root, Some (MtpOutput root nonce a.(at_blocks) a.(at_proofs) a.(at_y)))
    end
  end.

(** [while (!done)]: the searches of one call may find different platforms.
    [Some None] says that the turns allowed are used up and the loop goes on. *)
Fixpoint mtp_hash (fuel : nat) (fuel1 : nat) (pfs : nat -> platform) (loc : mtp_locals) (input : list Z) (target : Z) (pow_limit : list Z)
  : option (option mtp_output) :=
  match fuel with
  | O => Some None
  | S fuel =>
    '(_, r) ← mtp_hash1 fuel1 (pfs 0%nat) loc input target pow_limit;
    match r with
    | Some o => Some (Some o)
    | None => mtp_hash fuel fuel1 (fun k => pfs (S k)) loc input target pow_limit
    end
  end.

End Mtp.
