(* ===== verification/MtpProofs.v ===== *)
(** The pieces of the proof of work: its hashes, its positions, the memory it
    fills, the openings of its Merkle tree. *)

From S2P Require Import Prelude BlakeSpec Rfc7693 Blake2b Blake2bProofs Blake2bTheorems Argon2 Argon2Threads Argon2Spec Argon2Block.
From S2P Require Import Argon2Fill Argon2Init Argon2Pass0 Argon2ThreadProofs.
From S2P Require Import Argon2Claims MerkleTree MerkleProofs MerkleClaims Arith256 Mtp.

#[local] Opaque Rfc7693.hash Rfc7693.hash_long fill_block_mtp.

(** The contents of local arrays have the sizes of the arrays. *)
Record mlocals_ok (loc : mtp_locals) (n : nat) : Prop := MlocalsOk {
  lo_digest : length loc.(ml_digest) = 16%nat;
  lo_bytes : length loc.(ml_bytes) = 1024%nat;
  lo_h0 : length loc.(ml_h0) = 72%nat;
  lo_blocks : length loc.(ml_blocks) = (n * 2)%nat;
  lo_argon : locals_ok loc.(ml_argon)
}.

(** ** Hashes *)

(** The digest of a block that the tree is built on. *)
Definition block_digest (b : block) : list Z := Rfc7693.hash 4 16 [] (bytes_of_block b).

Lemma length_block_digest b : length (block_digest b) = 16%nat.
Proof. apply length_hash; lia. Qed.

Lemma copy_block_id b : block_ok b -> copy_block b = b.
Proof. intros Hb; apply take_ge; rewrite Hb; done. Qed.

Lemma StoreBlock_spec o b : block_ok b -> length o = 1024%nat -> StoreBlock o b = bytes_of_block b.
Proof. intros Hb Ho; rewrite <- (store_block_spec o b Hb Ho); unfold StoreBlock, store_block; exact eq_refl. Qed.

Lemma compute_blake2b_spec loc n b : mlocals_ok loc n -> block_ok b -> compute_blake2b loc b = Some (block_digest b).
Proof.
  intros [Hd Hby _ _ _] Hb; unfold compute_blake2b; rewrite copy_block_id, StoreBlock_spec by done.
  unfold MERKLE_TREE_ELEMENT_SIZE_B; destruct (blake2b_init_spec loc.(ml_state) 16 ltac:(lia)) as (st & -> & Hab); cbn [snd].
  assert (Hl : length (bytes_of_block b) = 1024%nat) by (rewrite length_bytes_of_block, Hb; done).
  destruct (update_spec blake2b_4r_compress 4 0 16 [] st (bytes_of_block b) (Hab 4%nat)) as (st1 & Hu & Ha1).
  unfold blake2b_4r_update, ARGON2_BLOCK_SIZE; rewrite <- Hl, Hu; cbn [snd].
  destruct (final_spec blake2b_4r_compress 4 0 16 _ st1 loc.(ml_digest) 16 Ha1 ltac:(lia) ltac:(lia)) as (st2 & Hf & _).
  unfold blake2b_4r_final; rewrite Hf; cbn [app]; rewrite drop_ge, app_nil_r by lia; f_equal; exact (digest_hash 4 16 [] _).
Qed.

Lemma block_digests_spec loc n bs : mlocals_ok loc n -> Forall block_ok bs -> block_digests loc bs = Some (map block_digest bs).
Proof.
  intros Hloc; induction 1 as [|b bs Hb _ IH]; [done|]; cbn [block_digests]; rewrite (compute_blake2b_spec loc n) by done.
  cbn [mbind option_bind]; rewrite IH; done.
Qed.

Lemma blake2b_256_spec loc parts o : length o = 32%nat -> blake2b_256 loc parts o = Rfc7693.hash 12 32 [] (concat parts).
Proof.
  intros Ho; unfold blake2b_256; destruct (blake2b_init_spec loc.(ml_state) 32 ltac:(lia)) as (st & -> & Hab); cbn [snd].
  assert (H : forall parts d st, absorbed 12 0 32 d st -> exists st',
    fold_left (fun state p => snd (blake2b_update state (Some p) (length p))) parts (Some st) = Some st' /\ absorbed 12 0 32 (d ++ concat parts) st').
  { clear; induction parts as [|p parts IH]; intros d st Ha; [exists st; by rewrite app_nil_r|].
    destruct (update_spec blake2b_compress 12 0 32 d st p Ha) as (st1 & Hu & Ha1); cbn [fold_left concat].
    unfold blake2b_update at 2; rewrite Hu; cbn [snd]; destruct (IH _ _ Ha1) as (st2 & H2 & Ha2); exists st2; split; [exact H2|].
    by rewrite <- app_assoc in Ha2. }
  destruct (H parts [] st (Hab 12%nat)) as (st1 & -> & Ha).
  destruct (final_spec blake2b_compress 12 0 32 _ st1 o 32 Ha ltac:(lia) ltac:(lia)) as (st2 & Hf & _).
  unfold blake2b_final; rewrite Hf; change (default [] (Some ?x)) with x; cbn [app]; rewrite drop_ge, app_nil_r by lia; exact (digest_hash 12 32 [] _).
Qed.

(** The sequence of hashes, without the local variables. *)
Definition y_first (input root : list Z) (nonce : Z) : list Z :=
  Rfc7693.hash 12 32 [] (take 80 input ++ take 16 root ++ le_bytes 4 nonce).
Definition y_next (y : list Z) (b : block) : list Z := Rfc7693.hash 12 32 [] (y ++ bytes_of_block b).

Lemma length_y_first input root nonce : length (y_first input root nonce) = 32%nat.
Proof. apply length_hash; lia. Qed.

Lemma length_y_next y b : length (y_next y b) = 32%nat.
Proof. apply length_hash; lia. Qed.

Lemma first_y_spec loc input root nonce : first_y loc input root nonce = y_first input root nonce.
Proof.
  unfold first_y; rewrite blake2b_256_spec by done; unfold y_first; cbn [concat]; rewrite store32_le, app_nil_r; done.
Qed.

Lemma next_y_spec loc n y b : mlocals_ok loc n -> length y = 32%nat -> block_ok b -> next_y loc y b = y_next y b.
Proof.
  intros [_ Hby _ _ _] Hy Hb; unfold next_y; rewrite copy_block_id, StoreBlock_spec by done.
  assert (Hl : length (bytes_of_block b) = 1024%nat) by (rewrite length_bytes_of_block, Hb; done).
  rewrite blake2b_256_spec by done; unfold y_next; cbn [concat]; unfold ARGON2_BLOCK_SIZE; rewrite !take_ge, app_nil_r by lia; done.
Qed.

(** ** Positions *)

Lemma IndexBeta_alpha instance position pseudo_rand same_lane :
  IndexBeta instance position pseudo_rand same_lane = index_alpha instance position pseudo_rand same_lane.
Proof.
  unfold IndexBeta, index_alpha, reference_area; rewrite !(Z.eqb_sym 0).
  destruct (position.(pass) =? 0), (position.(slice) =? 0), same_lane; reflexivity.
Qed.

Section Positions.
Context (lanes q : nat) (Hq : (2 <= q)%nat) (Hlanes : (1 <= lanes)%nat) (Hsize : Z.of_nat (lanes * (4 * q)) < 2 ^ 32).

Lemma cell_split l j : (j < 4 * q)%nat -> Z.of_nat (Argon2Spec.cell q l j) / Z.of_nat (4 * q) = Z.of_nat l /\
  Z.of_nat (Argon2Spec.cell q l j) mod Z.of_nat (4 * q) = Z.of_nat j.
Proof.
  intros Hj; unfold Argon2Spec.cell, Argon2Spec.lane_len; split; symmetry;
    [apply (Z.div_unique_pos _ _ _ (Z.of_nat j))|apply (Z.mod_unique_pos _ _ (Z.of_nat l))]; lia.
Qed.

Lemma previous_index_spec l j : (l < lanes)%nat -> (j < 4 * q)%nat ->
  previous_index (Z.of_nat (Argon2Spec.cell q l j)) (Z.of_nat (4 * q)) = Z.of_nat (Argon2Spec.prev_cell q l j).
Proof.
  intros Hl Hj; unfold previous_index; destruct (cell_split l j Hj) as [_ ->].
  assert (Hc : (Argon2Spec.cell q l j + 4 * q <= lanes * (4 * q) + j)%nat) by (unfold Argon2Spec.cell, Argon2Spec.lane_len; nia).
  unfold Argon2Spec.prev_cell, u32; destruct (Z.eqb_spec (Z.of_nat j) 0) as [E|E].
  - replace j with 0%nat in * by lia; cbn [Nat.eqb]; destruct (Z.eqb_spec (Z.of_nat 0) 1); [lia|].
    rewrite wrap_id by (unfold word; lia); unfold Argon2Spec.cell, Argon2Spec.lane_len; lia.
  - destruct (Nat.eqb_spec j 0); [lia|]; assert (Hp : Z.of_nat (Argon2Spec.cell q l j) - 1 = Z.of_nat (Argon2Spec.cell q l (j - 1)))
      by (unfold Argon2Spec.cell; lia).
    destruct (Z.eqb_spec (Z.of_nat j) 1); rewrite wrap_id, Hp by (unfold word; lia); done.
Qed.

Lemma referenced_index_spec inst l j w : inst.(segment_length) = Z.of_nat q -> inst.(lane_length) = Z.of_nat (4 * q) ->
  (l < lanes)%nat -> (2 <= j < 4 * q)%nat ->
  referenced_index inst (Z.of_nat lanes) w (Z.of_nat (Argon2Spec.cell q l j)) = Z.of_nat (Argon2Spec.ref_cell lanes q 0 l j w).
Proof.
  intros Hs Hla Hl Hj; unfold referenced_index; rewrite Hs, Hla; destruct (cell_split l j ltac:(lia)) as [-> _].
  destruct (slice_bounds q Hq j ltac:(lia)) as (Hdec & Hm & Hd & Hd').
  assert (Hin : Z.of_nat (Argon2Spec.cell q l j) - Z.of_nat l * Z.of_nat (4 * q) = Z.of_nat j) by (unfold Argon2Spec.cell, Argon2Spec.lane_len; lia).
  assert (Hsl : u32 (Z.of_nat j) / Z.of_nat q = Z.of_nat (j / q)) by (unfold u32; rewrite wrap_id by (unfold word; nia); by rewrite Nat2Z.inj_div).
  assert (Hpi : u32 (Z.of_nat j - Z.of_nat (j / q) * Z.of_nat q) = Z.of_nat (j mod q)) by (unfold u32; rewrite wrap_id; [lia|unfold word; nia]).
  rewrite Hin, Hsl, Hpi; unfold u8; rewrite (wrap_id 8) by (unfold word; lia); cbv zeta.
  pose proof (Z.mod_pos_bound (w / 2 ^ 32) (Z.of_nat lanes) ltac:(lia)) as Hml; change 0xFFFFFFFF with (Z.ones 32).
  assert (Hrl : (if Z.of_nat (j / q) =? 0 then Z.of_nat l else u32 (Z.shiftr w 32 mod Z.of_nat lanes)) = Z.of_nat (Argon2Spec.ref_lane lanes q 0 l j w)).
  { unfold Argon2Spec.ref_lane; rewrite (Z.eqb_sym _ 0), of_nat_eqb0; cbn [Nat.eqb andb]; destruct (j / q =? 0)%nat; [done|].
    rewrite Z.shiftr_div_pow2 by lia; unfold u32; rewrite wrap_id by (unfold word; nia); lia. }
  rewrite Hrl, wrap_ones by lia; unfold u32; rewrite wrap_wrap, IndexBeta_alpha; set (rl := Argon2Spec.ref_lane lanes q 0 l j w).
  assert (Hr : reachable q 0 j (rl =? l)%nat).
  { split; [lia|]; split; [lia|]; intros _ Hjq; unfold rl, Argon2Spec.ref_lane; rewrite Nat.div_small by done; apply Nat.eqb_refl. }
  assert (Heq : (Z.of_nat rl =? Z.of_nat l) = (rl =? l)%nat) by (destruct (Nat.eqb_spec rl l), (Z.eqb_spec (Z.of_nat rl) (Z.of_nat l)); lia).
  change (Argon2Position 0 (Z.of_nat l) (Z.of_nat (j / q)) (Z.of_nat (j mod q))) with (position_of q 0 l j); rewrite Heq.
  rewrite (index_alpha_spec inst q Hq Hs Hla) by (done || nia || (apply Z.mod_pos_bound; lia)); fold rl.
  destruct (ref_before lanes q Hq Hlanes Hsize l j w Hl Hj) as (rl' & k & Hrc & Hrl' & Hk & _).
  assert (Hlt : (Argon2Spec.ref_cell lanes q 0 l j w < lanes * (4 * q))%nat) by (rewrite Hrc; unfold Argon2Spec.cell, Argon2Spec.lane_len; nia).
  unfold Argon2Spec.ref_cell, Argon2Spec.cell, Argon2Spec.lane_len in *; fold rl in Hlt |- *; unfold wrap at 2; rewrite wrap_id; [lia|unfold word; lia].
Qed.
End Positions.

(** ** Parameters *)

(** Lanes of [4 * q] blocks, [2^d] blocks in all. *)
Record params_ok (P : params) (lanes q d : nat) : Prop := ParamsOk {
  po_lanes : P.(LANES) = Z.of_nat lanes;
  po_mcost : P.(M_COST) = Z.of_nat (lanes * (4 * q));
  po_q : (2 <= q)%nat;
  po_range : 1 <= Z.of_nat lanes < 2 ^ 24;
  po_pow : (lanes * (4 * q) = 2 ^ d)%nat;
  po_d : (d <= 31)%nat
}.

Section Params.
Context (P : params) (lanes q d : nat) (HP : params_ok P lanes q d).

Lemma params_size : Z.of_nat (lanes * (4 * q)) <= 2 ^ 31.
Proof. destruct HP as [_ _ _ _ -> Hd]; rewrite Nat2Z.inj_pow; apply Z.pow_le_mono_r; lia. Qed.

Lemma segment_length_spec : mtp_segment_length P = Z.of_nat q.
Proof.
  destruct HP as [Hl Hm Hq Hr _ _]; unfold mtp_segment_length, ARGON2_SYNC_POINTS, u32; rewrite Hl, Hm, !wrap_id by (unfold word; lia).
  destruct (Z.ltb_spec (Z.of_nat (lanes * (4 * q))) (2 * 4 * Z.of_nat lanes)) as [H|_]; [nia|].
  symmetry; apply (Z.div_unique_pos _ _ _ 0); nia.
Qed.

Lemma lane_length_spec : u32 (mtp_segment_length P * ARGON2_SYNC_POINTS) = Z.of_nat (4 * q).
Proof.
  rewrite segment_length_spec; pose proof params_size; destruct HP as [_ _ _ Hr _ _]; unfold u32, ARGON2_SYNC_POINTS; rewrite wrap_id; [lia|unfold word; nia].
Qed.

Lemma except_spec : P.(M_COST) / P.(LANES) = Z.of_nat (4 * q).
Proof. destruct HP as [-> -> _ Hr _ _]; symmetry; apply (Z.div_unique_pos _ _ _ 0); nia. Qed.

Lemma instance_ok loc : inst_ok (mtp_instance P loc) lanes q.
Proof.
  pose proof params_size; split; cbn [mtp_instance Argon2.segment_length Argon2.lane_length i_lanes];
    [exact segment_length_spec|exact lane_length_spec|apply HP|apply HP|destruct HP; lia|lia].
Qed.

Lemma context_buffers loc input : (80 <= length input)%nat -> buffers_ok (mtp_context P loc input).
Proof.
  intros Hi; assert (H80 : (Z.to_nat 80 <= length (take 80 input))%nat) by (rewrite length_take; lia).
  split; [exact H80|]; split; [exact H80|]; split; exact I.
Qed.

(** [malloc] returns room for as many blocks as were asked for. *)
Definition malloc_ok (malloc : allocator) : Prop := forall n M, malloc n = Some M -> mem_ok (Z.to_nat (n / 1024)) M.

(** H0, of which the first half goes into every block. *)
Definition mtp_h0 (input : list Z) : list Z :=
  H0 (Argon2Context None 32 (Some (take 80 input)) 80 (Some (take 80 input)) 80 None 0 None 0
    T_COST P.(M_COST) P.(LANES) P.(LANES) ARGON2_VERSION_NUMBER None false ARGON2_DEFAULT_FLAGS) Argon2_d.

(** The memory of the reference definition. *)
Definition mtp_memory (input : list Z) (M : list block) : Prop :=
  mem_ok (lanes * (4 * q)) M /\
  (forall l j, (l < lanes)%nat -> (j < 2)%nat -> M !!! Argon2Spec.cell q l j = first_block (mtp_h0 input) j l) /\
  (forall l j, (l < lanes)%nat -> (2 <= j < 4 * q)%nat ->
    let p := M !!! Argon2Spec.cell q l (j - 1) in let r := Argon2Spec.ref_cell lanes q 0 l j (p !!! 0%nat) in
    M !!! Argon2Spec.cell q l j = Argon2Spec.compress p (M !!! r) p false (Z.of_nat r) (mtp_h0 input)).

(** Only the first 32 bytes of H0 are read. *)
Lemma seed_app i (h t v : list Z) : (32 <= length h)%nat -> Argon2Spec.seed i (h ++ t) v = Argon2Spec.seed i h v.
Proof.
  intros Hh; unfold Argon2Spec.seed; assert (E : forall k, In k (seq 0 4) -> le_word (read_at (8 * k) 8 (h ++ t)) = le_word (read_at (8 * k) 8 h)); [|by rewrite (map_ext_in _ _ _ E)].
  intros k Hk; apply in_seq in Hk; unfold read_at; rewrite drop_app_le by lia; rewrite take_app_le; [done|rewrite length_drop; lia].
Qed.

#[local] Opaque Argon2Spec.seed Argon2Spec.permute.

(** The block function of the code on the blocks of such a memory. *)
Lemma memory_compress (M : list block) (h : list Z) l j : mem_ok (lanes * (4 * q)) M -> length h = 64%nat -> (l < lanes)%nat -> (2 <= j < 4 * q)%nat ->
  let p := M !!! Argon2Spec.cell q l (j - 1) in let r := Argon2Spec.ref_cell lanes q 0 l j (p !!! 0%nat) in
  fill_block_mtp p (M !!! r) p false (Z.of_nat r) (h ++ replicate 8 0) = Argon2Spec.compress p (M !!! r) p false (Z.of_nat r) h.
Proof.
  intros [Hlen Hb] Hh Hl Hj p r; pose proof params_size as Hsz; destruct HP as [_ _ Hq Hr _ _].
  assert (Hat : forall c, (c < lanes * (4 * q))%nat -> block_ok (M !!! c)) by (intros c Hc; apply (Forall_lookup_total_1 _ _ _ Hb); rewrite Hlen; exact Hc).
  destruct (ref_before lanes q Hq ltac:(lia) ltac:(lia) l j (p !!! 0%nat) Hl ltac:(lia)) as (rl & k & Er & Hrl & Hk & _).
  assert (Hrc : (r < lanes * (4 * q))%nat) by (unfold r; rewrite Er; unfold Argon2Spec.cell, Argon2Spec.lane_len; nia).
  assert (Hp : block_ok p) by (apply Hat; unfold Argon2Spec.cell, Argon2Spec.lane_len; nia).
  rewrite (proj1 (fill_block_mtp_spec p (M !!! r) p false (Z.of_nat r) _ Hp (Hat r Hrc) Hp ltac:(unfold word; lia))).
  unfold Argon2Spec.compress; cbv zeta; by rewrite seed_app by lia.
Qed.

(** Every block of such a memory, as the code computes it. *)
Lemma memory_block input M : mtp_memory input M -> forall l j, (l < lanes)%nat -> (2 <= j < 4 * q)%nat ->
  let p := M !!! Argon2Spec.cell q l (j - 1) in let r := Argon2Spec.ref_cell lanes q 0 l j (p !!! 0%nat) in
  M !!! Argon2Spec.cell q l j = fill_block_mtp p (M !!! r) p false (Z.of_nat r) (mtp_h0 input ++ replicate 8 0).
Proof.
  intros (Hok & _ & Hc) l j Hl Hj; exact (eq_trans (Hc l j Hl Hj) (eq_sym (memory_compress M (mtp_h0 input) l j Hok (length_H0 _ _) Hl Hj))).
Qed.

Lemma filled_memory input (M0 : list block) : mem_ok (lanes * (4 * q)) M0 ->
  mtp_memory input (Argon2Spec.fill lanes q false (mtp_h0 input ++ replicate 8 0) fill_block_mtp 1 (first_blocks lanes q (mtp_h0 input) M0)).
Proof.
  intros HM0; pose proof params_size as Hsz; destruct HP as [_ _ Hq Hr _ _]; set (h := mtp_h0 input); set (M1 := first_blocks lanes q h M0).
  assert (Hl1 : length M1 = (lanes * (4 * q))%nat).
  { unfold M1, first_blocks; apply (for_range_ind (fun _ M => length M = (lanes * (4 * q))%nat)); [lia|apply HM0|].
    intros i M Hi HM; by rewrite !length_insert. }
  destruct (pass0_filled lanes q false (h ++ replicate 8 0) fill_block_mtp Hq ltac:(lia) ltac:(lia) fill_block_mtp_overwrites M1 Hl1) as [[Hlen Hf] Hk].
  set (M := Argon2Spec.fill _ _ _ _ _ _ _) in *.
  assert (Hfirst : forall l j, (l < lanes)%nat -> (j < 2)%nat -> M !!! Argon2Spec.cell q l j = first_block h j l).
  { intros l j Hl Hj; etransitivity; [exact (Hk l j Hl Hj)|]; etransitivity; [exact (first_blocks_at lanes q h M0 l j Hq (proj1 HM0) Hl ltac:(lia))|].
    destruct (Nat.ltb_spec j 2); [done|lia]. }
  assert (Hrest : forall l j, (l < lanes)%nat -> (2 <= j < 4 * q)%nat ->
    let p := M !!! Argon2Spec.cell q l (j - 1) in let r := Argon2Spec.ref_cell lanes q 0 l j (p !!! 0%nat) in
    M !!! Argon2Spec.cell q l j = fill_block_mtp p (M !!! r) p false (Z.of_nat r) (h ++ replicate 8 0)).
  { intros l j Hl Hj p r; etransitivity; [exact (Hf l j Hl ltac:(lia) ltac:(lia))|].
    unfold Argon2Spec.new_block; rewrite (prev_cell_pos lanes q Hq ltac:(lia) ltac:(lia)) by lia; apply fill_block_mtp_overwrites. }
  assert (Hb : forall j, (j < 4 * q)%nat -> forall l, (l < lanes)%nat -> block_ok (M !!! Argon2Spec.cell q l j)).
  { intros j; induction j as [j IH] using lt_wf_ind; intros Hj l Hl.
    destruct (Nat.lt_ge_cases j 2) as [Hj2|Hj2]; [rewrite Hfirst by lia; apply block_of_bytes_ok|].
    rewrite Hrest by lia; cbv zeta; set (p := M !!! Argon2Spec.cell q l (j - 1)); assert (Hp : block_ok p) by (apply IH; lia).
    destruct (ref_before lanes q Hq ltac:(lia) ltac:(lia) l j (p !!! 0%nat) Hl ltac:(lia)) as (rl & k & -> & Hrl & Hkk & Hbef).
    destruct (slice_bounds q Hq j ltac:(lia)) as (Hdec & _).
    assert (Hrb : block_ok (M !!! Argon2Spec.cell q rl k)) by (apply IH; lia).
    destruct (fill_block_mtp_spec p (M !!! Argon2Spec.cell q rl k) p false (Z.of_nat (Argon2Spec.cell q rl k)) (h ++ replicate 8 0) Hp Hrb Hp) as [-> Hok]; [|exact Hok].
    unfold word, Argon2Spec.cell, Argon2Spec.lane_len; nia. }
  enough (Hok : mem_ok (lanes * (4 * q)) M).
  { split; [exact Hok|]; split; [exact Hfirst|]; intros l j Hl Hj; exact (eq_trans (Hrest l j Hl Hj) (memory_compress M h l j Hok (length_H0 _ _) Hl Hj)). }
  split; [exact Hlen|]; apply Forall_lookup_2; intros c x Hc; assert (Hlt : (c < lanes * (4 * q))%nat) by (rewrite <- Hlen; exact (lookup_lt_Some _ _ _ Hc)).
  apply list_lookup_total_correct in Hc; rewrite <- Hc; replace c with (Argon2Spec.cell q (c / (4 * q)) (c mod (4 * q))).
  - apply Hb; [apply Nat.mod_upper_bound; lia|apply Nat.Div0.div_lt_upper_bound; lia].
  - unfold Argon2Spec.cell, Argon2Spec.lane_len; pose proof (Nat.div_mod c (4 * q) ltac:(lia)); lia.
Qed.

(** ** The filling *)

Lemma validated (x : Z) (i i' : argon2_instance_t) k :
  (if negb (x =? ARGON2_OK) then Some (x, i) else k) = Some (ARGON2_OK, i') -> k = Some (ARGON2_OK, i').
Proof. destruct (Z.eqb_spec x ARGON2_OK) as [->|Hne]; cbn [negb]; [done|]; intros [= E _]; done. Qed.

(** Whatever the schedule of the threads, a filling that returns [ARGON2_OK] is
    the one of the reference. *)
Lemma fill_ok pf inst inst' mem : inst_ok inst lanes q -> inst.(i_threads) = Z.of_nat lanes -> inst.(passes) = 1 ->
  inst.(memory) = Some mem -> length mem = (lanes * (4 * q))%nat ->
  fill_memory_blocks_mtp true pf.(pf_calloc_thread) pf.(pf_calloc_data) pf.(pf_choices) (Some inst) = Some (ARGON2_OK, Some inst') ->
  inst' = set_memory inst (Some (Argon2Spec.fill lanes q (ARGON2_VERSION_10 =? inst.(i_version)) inst.(hash_zero) fill_block_mtp 1 mem)).
Proof.
  intros Hok Ht Hp Hm Hl; pose proof (io_lanes _ _ _ Hok) as Hln; pose proof (io_pos _ _ _ Hok) as Hpos.
  pose proof (fill_memory_spec inst lanes q Hok mem Hl) as Hst; rewrite Hp in Hst; change (Z.to_nat 1) with 1%nat in Hst.
  unfold fill_memory_blocks_mtp; rewrite Hln, Hm, Ht; destruct (Z.eqb_spec (Z.of_nat lanes) 0); [lia|]; cbn [mbind option_bind negb orb].
  destruct (Z.of_nat lanes =? 1); [rewrite Hst; cbn [mbind option_bind]; by intros [= <-]|].
  destruct pf.(pf_calloc_thread) eqn:E1; [destruct pf.(pf_calloc_data) eqn:E2|]; [|by unfold fill_memory_blocks_mt_mtp; cbn..].
  destruct (fill_memory_blocks_mt_mtp true true pf.(pf_choices) inst mem) as [[[rc mem'] ws]|] eqn:E; cbn [mbind option_bind]; [|done].
  intros [= -> <-]; destruct (mt_fill_spec inst lanes q lanes 1 mem pf.(pf_choices) ARGON2_OK mem' ws) as [(_ & _ & H)|[H _]]; try done; try lia.
  rewrite Hst in H; by injection H as <-.
Qed.

Lemma argon2_memory pf loc n input inst' : mlocals_ok loc n -> malloc_ok pf.(pf_malloc) -> (80 <= length input)%nat ->
  Argon2CtxMtp pf loc (mtp_context P loc input) (mtp_instance P loc) = Some (ARGON2_OK, inst') ->
  exists M, inst'.(memory) = Some M /\ mtp_memory input M /\ inst'.(memory_blocks) = P.(M_COST) /\ inst_ok inst' lanes q.
Proof.
  intros Hloc Hmal Hin H; apply validated in H; pose proof (instance_ok loc) as Hok; pose proof params_size as Hsz.
  assert (Hmb : (mtp_instance P loc).(memory_blocks) = Z.of_nat (lanes * (4 * q))) by apply (po_mcost _ _ _ _ HP).
  change (allocator_of pf.(pf_malloc) (mtp_context P loc input)) with pf.(pf_malloc) in *.
  destruct (pf.(pf_malloc) (Z.of_nat (lanes * (4 * q)) * 1024)) as [M0|] eqn:E.
  - assert (HM0 : mem_ok (lanes * (4 * q)) M0) by (pose proof (Hmal _ _ E) as HM; by rewrite Z.div_mul, Nat2Z.id in HM by lia).
    destruct (initialize_spec pf.(pf_malloc) loc.(ml_argon) (mtp_instance P loc) (mtp_context P loc input) lanes q M0
      (lo_argon _ _ Hloc) Hok (context_buffers loc input Hin) Hmb E HM0) as [Hinit HM1]; rewrite Hinit in H; cbn [mbind option_bind] in H.
    change (negb (ARGON2_OK =? ARGON2_OK)) with false in H; cbv iota in H.
    change (H0 (mtp_context P loc input) (mtp_instance P loc).(i_type)) with (mtp_h0 input) in *.
    set (inst1 := set_memory _ _) in H; set (mem1 := first_blocks lanes q (mtp_h0 input) M0) in *.
    destruct (fill_memory_blocks_mtp _ _ _ _ _) as [[rc [inst2|]]|] eqn:Ef; cbn [mbind option_bind] in H; try done.
    destruct (Z.eqb_spec rc ARGON2_OK) as [->|Hne]; cbn [negb] in H; [injection H as <-|by injection H].
    assert (Hok1 : inst_ok inst1 lanes q) by (destruct Hok; by split).
    rewrite (fill_ok pf inst1 inst2 mem1 Hok1) by (first [done | apply HM1 | by cbn; destruct (_ <? _); apply (po_lanes _ _ _ _ HP)]).
    exists (Argon2Spec.fill lanes q (ARGON2_VERSION_10 =? inst1.(i_version)) inst1.(hash_zero) fill_block_mtp 1 mem1).
    split; [done|]; split; [exact (filled_memory input M0 HM0)|]; split; [done|destruct Hok; by split].
  - rewrite (initialize_no_memory pf.(pf_malloc) loc.(ml_argon) (mtp_instance P loc) (mtp_context P loc input) lanes q Hok Hmb E) in H.
    cbn [mbind option_bind] in H; by injection H.
Qed.
End Params.
