(* ===== verification/MtpSearch.v ===== *)
(** The search and the verification against the reference sequence of hashes. *)

From S2P Require Import Prelude BlakeSpec Rfc7693 Blake2b Argon2 Argon2Threads Argon2Spec Argon2Block Argon2Fill Argon2Init Argon2Pass0.
From S2P Require Import MerkleTree MerkleProofs MerkleClaims Arith256 Uint256 Mtp MtpProofs.

(** A block depends on the first half of H0 only. *)
Lemma fill_block_mtp_h0 p r o x i h h' : take 32 h = take 32 h' -> fill_block_mtp p r o x i h = fill_block_mtp p r o x i h'.
Proof.
  intros H; assert (Hr : forall k, (k + 8 <= 32)%nat -> read_at k 8 h = read_at k 8 h').
  { intros k Hk; unfold read_at.
    assert (E : forall l : list Z, take 8 (drop k l) = drop k (take (k + 8) (take 32 l)))
      by (intros l; rewrite take_take, Nat.min_l, skipn_firstn_comm by lia; do 2 f_equal; lia).
    by rewrite !E, H. }
  unfold fill_block_mtp; rewrite (Hr 0%nat), (Hr 8%nat), (Hr 16%nat), (Hr 24%nat) by lia; exact eq_refl.
Qed.

#[local] Opaque Rfc7693.hash Rfc7693.hash_long fill_block_mtp.

(** Checking a proof does not depend on the contents of local variables. *)
Lemma check_loop_locals S0 D0 S1 D1 proof t index : length D0 = 16%nat -> length D1 = 16%nat ->
  check_loop S0 D0 proof t index = check_loop S1 D1 proof t index.
Proof.
  intros H0 H1; revert t index; induction proof as [|p proof IH]; intros t index; [done|]; rewrite !check_loop_hashed.
  destruct (adjust_index 65 (length (p :: proof)) index) as [index'|]; cbn [mbind option_bind]; [|done].
  rewrite (hash_spec S0 D0 H0), (hash_spec S1 D1 H1); apply IH.
Qed.

#[local] Opaque compute_blake2b checkProofOrdered next_y first_y referenced_index previous_index block_digest y_next y_first mtp_h0 H0
  getProof_at make_MerkleTree copy_block.

(** A turn of the verification whose three openings are accepted. *)
Lemma verify_step_accepts P boost loc root h0 B Q j y ij prev ref bp br bi dp dr di qp qr qi :
  selected_index P boost y = ij ->
  B !! (j * 2 - 2)%nat = Some bp -> B !! (j * 2 - 1)%nat = Some br -> copy_block bp = bp -> copy_block br = br ->
  previous_index ij (u32 (mtp_segment_length P * ARGON2_SYNC_POINTS)) = prev -> compute_blake2b loc bp = Some dp ->
  Q !! (j * 3 - 2)%nat = Some qp -> checkProofOrdered loc.(ml_state) loc.(ml_digest) qp root dp (u32 (prev + 1)) = Some true ->
  referenced_index (Argon2Instance None 0 0 0 (mtp_segment_length P) (u32 (mtp_segment_length P * ARGON2_SYNC_POINTS)) 0 0 Argon2_d [])
    P.(LANES) (bp !!! 0%nat) ij = ref -> compute_blake2b loc br = Some dr ->
  Q !! (j * 3 - 1)%nat = Some qr -> checkProofOrdered loc.(ml_state) loc.(ml_digest) qr root dr (u32 (ref + 1)) = Some true ->
  fill_block_mtp bp br loc.(ml_block) false ref h0 = bi -> compute_blake2b loc bi = Some di ->
  Q !! (j * 3 - 3)%nat = Some qi -> checkProofOrdered loc.(ml_state) loc.(ml_digest) qi root di (u32 (ij + 1)) = Some true ->
  verify_step P boost loc root h0 B Q j y = Some (Some (next_y loc y bi)).
Proof.
  intros E1 E2 E3 E4 E5 E6 E7 E8 E9 E10 E11 E12 E13 E14 E15 E16 E17; unfold verify_step; cbv zeta.
  rewrite E1; bind_step E2; bind_step E3; rewrite E4, E5, E6; bind_step E7; bind_step E8; bind_step E9.
  rewrite E10; bind_step E11; bind_step E12; bind_step E13; rewrite E14; bind_step E15; bind_step E16; bind_step E17; exact eq_refl.
Qed.

(** A turn of the search that finds its blocks and proofs. *)
Lemma hash_step_writes P boost loc inst t j a M ij prev ref bi bp br di dp dr qi qp qr :
  selected_index P boost a.(at_y) = ij -> ((ij mod (P.(M_COST) / P.(LANES)) =? 0) || (ij mod (P.(M_COST) / P.(LANES)) =? 1)) = false ->
  inst.(memory) = Some M -> M !! Z.to_nat ij = Some bi -> GetBlockIndex ij inst = Some (prev, ref) ->
  M !! Z.to_nat prev = Some bp -> M !! Z.to_nat ref = Some br -> copy_block bp = bp -> copy_block br = br ->
  compute_blake2b loc bi = Some di -> proof_of t di ij = Some qi -> compute_blake2b loc bp = Some dp -> proof_of t dp prev = Some qp ->
  compute_blake2b loc br = Some dr -> proof_of t dr ref = Some qr ->
  hash_step P boost loc inst t j a = Some (Some (Attempt (next_y loc a.(at_y) bi)
    (<[(j * 2 - 1)%nat := br]> (<[(j * 2 - 2)%nat := bp]> a.(at_blocks)))
    (<[(j * 3 - 1)%nat := qr]> (<[(j * 3 - 2)%nat := qp]> (<[(j * 3 - 3)%nat := qi]> a.(at_proofs)))))).
Proof.
  intros E1 E2 E3 E4 E5 E6 E7 E8 E9 E10 E11 E12 E13 E14 E15; unfold hash_step; cbv zeta; rewrite E1, E2.
  bind_step E3; bind_step E4; bind_step E5; bind_step E6; bind_step E7; rewrite E8, E9.
  bind_step E10; bind_step E11; bind_step E12; bind_step E13; bind_step E14; bind_step E15; exact eq_refl.
Qed.

Section Search.
Context (P : params) (lanes q d : nat) (HP : params_ok P lanes q d) (boost : list Z -> Z).
Context (input : list Z) (M : list block) (HM : mtp_memory P lanes q input M).
Context (S0 : blake2b_state) (D0 : list Z) (HD0 : length D0 = 16%nat) (t : MerkleTree) (root : list Z)
  (Ht : make_MerkleTree S0 D0 (map block_digest M) true = Ret (Some t)) (Hroot : getRoot t = Some root).

Abbreviation size := (lanes * (4 * q))%nat.
Abbreviation idx y := (Z.to_nat (selected_index P boost y)).
Abbreviation cell := (Argon2Spec.cell q).

(** ** Cells *)

Lemma size_pos : (2 <= q)%nat /\ (1 <= lanes)%nat /\ Z.of_nat size <= 2 ^ 31.
Proof. pose proof (params_size P lanes q d HP); destruct HP; split; [done|]; split; lia. Qed.

Lemma memory_length : length M = size.
Proof. apply HM. Qed.

Lemma selected_bound y : selected_index P boost y = Z.of_nat (idx y) /\ (idx y < size)%nat.
Proof.
  destruct size_pos as (Hq & Hl & Hs); unfold selected_index; rewrite (po_mcost _ _ _ _ HP).
  pose proof (Z.mod_pos_bound (boost ([48; 120] ++ GetHex y)) (Z.of_nat size) ltac:(nia)); unfold u32; rewrite wrap_id by (unfold word; lia); lia.
Qed.

(** Lane and position of a cell. *)
Definition lane_of (i : nat) : nat := (i / (4 * q))%nat.
Definition pos_of (i : nat) : nat := (i mod (4 * q))%nat.
Definition prev_of (i : nat) : nat := Argon2Spec.prev_cell q (lane_of i) (pos_of i).
Definition ref_of (i : nat) : nat := Argon2Spec.ref_cell lanes q 0 (lane_of i) (pos_of i) ((M !!! prev_of i) !!! 0%nat).

Lemma cell_of i : (i < size)%nat -> i = cell (lane_of i) (pos_of i) /\ (lane_of i < lanes)%nat /\ (pos_of i < 4 * q)%nat.
Proof.
  intros Hi; destruct size_pos as (Hq & _ & _); unfold lane_of, pos_of, Argon2Spec.cell, Argon2Spec.lane_len.
  pose proof (Nat.div_mod i (4 * q) ltac:(lia)); pose proof (Nat.mod_upper_bound i (4 * q) ltac:(lia)).
  split; [lia|]; split; [apply Nat.Div0.div_lt_upper_bound; lia|lia].
Qed.

Lemma prev_lt i : (i < size)%nat -> (prev_of i < size)%nat.
Proof.
  intros Hi; destruct (cell_of i Hi) as (_ & Hl & Hj), size_pos as (Hq & _ & _).
  unfold prev_of, Argon2Spec.prev_cell, Argon2Spec.cell, Argon2Spec.lane_len; destruct (pos_of i =? 0)%nat; nia.
Qed.

Lemma ref_lt i : (i < size)%nat -> (2 <= pos_of i)%nat -> (ref_of i < size)%nat.
Proof.
  intros Hi Hj; destruct (cell_of i Hi) as (_ & Hl & Hj'), size_pos as (Hq & Hla & Hs).
  destruct (ref_before lanes q Hq Hla ltac:(lia) (lane_of i) (pos_of i) ((M !!! prev_of i) !!! 0%nat) Hl ltac:(lia)) as (rl & k & E & Hrl & Hk & _).
  unfold ref_of; rewrite E; unfold Argon2Spec.cell, Argon2Spec.lane_len; nia.
Qed.

Lemma block_at i : (i < size)%nat -> block_ok (M !!! i) /\ M !! i = Some (M !!! i).
Proof.
  intros Hi; assert (E : M !! i = Some (M !!! i)) by (apply list_lookup_lookup_total_lt; rewrite memory_length; done).
  split; [|done]; destruct HM as [[_ Hb] _]; exact (Forall_lookup_1 _ _ _ _ Hb E).
Qed.

Lemma previous_of i : (i < size)%nat -> previous_index (Z.of_nat i) (Z.of_nat (4 * q)) = Z.of_nat (prev_of i).
Proof.
  intros Hi; destruct (cell_of i Hi) as (E & Hl & Hj), size_pos as (Hq & Hla & Hs); rewrite E at 1.
  by rewrite (previous_index_spec lanes q) by (done || lia).
Qed.

Lemma referenced_of i inst : (i < size)%nat -> (2 <= pos_of i)%nat -> inst.(segment_length) = Z.of_nat q -> inst.(lane_length) = Z.of_nat (4 * q) ->
  referenced_index inst (Z.of_nat lanes) ((M !!! prev_of i) !!! 0%nat) (Z.of_nat i) = Z.of_nat (ref_of i).
Proof.
  intros Hi Hj Hse Hll; destruct (cell_of i Hi) as (E & Hl & Hj'), size_pos as (Hq & Hla & Hs); rewrite E at 2.
  by rewrite (referenced_index_spec lanes q) by (done || lia).
Qed.

(** Every block but the first two of a lane can be computed again. *)
Lemma block_recomputed i o h : (i < size)%nat -> (2 <= pos_of i)%nat -> take 32 h = take 32 (mtp_h0 P input) ->
  fill_block_mtp (M !!! prev_of i) (M !!! ref_of i) o false (Z.of_nat (ref_of i)) h = M !!! i.
Proof.
  intros Hi Hj Hh; destruct (cell_of i Hi) as (E & Hl & Hj'), size_pos as (Hq & Hla & Hs); pose proof (memory_block P lanes q d HP input M HM) as Hc.
  pose proof (Hc (lane_of i) (pos_of i) Hl ltac:(lia)) as H; cbv zeta in H; rewrite <- E in H.
  assert (Hp : prev_of i = cell (lane_of i) (pos_of i - 1)) by (apply (prev_cell_pos lanes q Hq Hla ltac:(lia)); lia).
  rewrite <- Hp in H; fold (ref_of i) in H; etransitivity; [|symmetry; exact H].
  rewrite (fill_block_mtp_overwrites _ _ o (M !!! prev_of i)); apply fill_block_mtp_h0; rewrite Hh.
  assert (Hl0 : length (mtp_h0 P input) = 64%nat) by apply length_H0; by rewrite take_app_le by lia.
Qed.

(** ** Openings *)

Abbreviation els := (map block_digest M).

Lemma tree_elements : t.(elements_) = els.
Proof.
  assert (Hne : els <> []) by (destruct size_pos as (Hq & Hl & _); pose proof memory_length as Hm; destruct M; [simpl in Hm; nia|done]).
  assert (Hok : Forall element_ok els) by (apply List.Forall_forall; intros e He; apply in_map_iff in He as (b & <- & _); apply length_block_digest).
  destruct (make_ordered S0 D0 els Hne Hok) as (ls & r & H & _); rewrite Ht in H; by injection H as ->.
Qed.

Definition opening (i : nat) : Elements := getProof_at t i.

Lemma element_at i : (i < size)%nat -> els !!! i = block_digest (M !!! i).
Proof. intros Hi; destruct (block_at i Hi) as [_ E]; apply list_lookup_total_correct; by rewrite list_lookup_fmap, E. Qed.

Lemma opening_found i : (i < size)%nat -> proof_of t (block_digest (M !!! i)) (Z.of_nat i) = Some (opening i).
Proof.
  intros Hi; unfold proof_of, u32; destruct size_pos as (_ & _ & Hs); rewrite wrap_id by (unfold word; lia).
  replace (Z.to_nat (Z.of_nat i + 1)) with (i + 1)%nat by lia; rewrite <- (element_at i Hi), <- tree_elements.
  rewrite getProofOrdered_at; [done|]; rewrite tree_elements, length_map, memory_length; done.
Qed.

Lemma opening_checked S1 D1 i : (i < size)%nat -> length D1 = 16%nat ->
  checkProofOrdered S1 D1 (opening i) root (block_digest (M !!! i)) (u32 (Z.of_nat i + 1)) = Some true.
Proof.
  intros Hi HD1; destruct size_pos as (_ & _ & Hs); unfold u32; rewrite wrap_id by (unfold word; lia).
  assert (Hok : Forall element_ok els) by (apply List.Forall_forall; intros e He; apply in_map_iff in He as (b & <- & _); apply length_block_digest).
  assert (Hlen : length els = size) by (by rewrite length_map, memory_length).
  destruct (ordered_complete S0 D0 els i Hok ltac:(lia) ltac:(lia)) as (t' & r' & proof & Hm & Hr & Hp & Hc & Hd).
  rewrite Ht in Hm; injection Hm as <-; rewrite Hroot in Hr; injection Hr as <-.
  assert (Hproof : proof = opening i).
  { pose proof (getProofOrdered_at t i ltac:(rewrite tree_elements; lia)) as Hg; rewrite tree_elements in Hg; rewrite Hg in Hp; by injection Hp as <-. }
  rewrite Hproof, (element_at i Hi) in *; rewrite checkProofOrdered_at in Hc |- * by lia.
  rewrite (check_loop_locals S1 D1 S0 D0) by done; apply Hc; rewrite (Hd d) by (rewrite Hlen; apply HP).
  rewrite (po_pow _ _ _ _ HP) in Hi; replace 2 with (Z.of_nat 2) by lia; rewrite <- Nat2Z.inj_pow; lia.
Qed.

(** ** One step *)

#[local] Opaque selected_index u32 opening IndexBeta.

(** The entries of step [j] in the two arrays, for the hash [y]. *)
Definition step_entries (j : nat) (y : list Z) (B : list block) (Q : list Elements) : Prop :=
  B !! (j * 2 - 2)%nat = Some (M !!! prev_of (idx y)) /\ B !! (j * 2 - 1)%nat = Some (M !!! ref_of (idx y)) /\
  Q !! (j * 3 - 3)%nat = Some (opening (idx y)) /\ Q !! (j * 3 - 2)%nat = Some (opening (prev_of (idx y))) /\
  Q !! (j * 3 - 1)%nat = Some (opening (ref_of (idx y))).

Lemma verify_step_spec loc n h0 j y B Q : mlocals_ok loc n -> length y = 32%nat -> take 32 h0 = take 32 (mtp_h0 P input) ->
  (2 <= pos_of (idx y))%nat -> step_entries j y B Q ->
  verify_step P boost loc root h0 B Q j y = Some (Some (y_next y (M !!! idx y))).
Proof.
  intros Hloc Hy Hh Hj (HB1 & HB2 & HQ1 & HQ2 & HQ3); destruct (selected_bound y) as [Hsel Hi]; set (i := idx y) in *.
  pose proof (prev_lt i Hi) as Hp; pose proof (ref_lt i Hi Hj) as Hr; pose proof (lo_digest _ _ Hloc) as HD.
  destruct (block_at (prev_of i) Hp) as [Hbp _], (block_at (ref_of i) Hr) as [Hbr _], (block_at i Hi) as [Hbi _].
  rewrite <- (next_y_spec loc n y (M !!! i) Hloc Hy Hbi); pose proof (segment_length_spec P lanes q d HP) as Hsg; pose proof (lane_length_spec P lanes q d HP) as Hll.
  apply (verify_step_accepts P boost loc root h0 B Q j y (Z.of_nat i) (Z.of_nat (prev_of i)) (Z.of_nat (ref_of i)) (M !!! prev_of i) (M !!! ref_of i) (M !!! i)
    (block_digest (M !!! prev_of i)) (block_digest (M !!! ref_of i)) (block_digest (M !!! i)) (opening (prev_of i)) (opening (ref_of i)) (opening i)).
  - exact Hsel.
  - exact HB1.
  - exact HB2.
  - exact (copy_block_id _ Hbp).
  - exact (copy_block_id _ Hbr).
  - rewrite Hll; exact (previous_of i Hi).
  - exact (compute_blake2b_spec loc n _ Hloc Hbp).
  - exact HQ2.
  - exact (opening_checked _ _ _ Hp HD).
  - rewrite Hll, Hsg, (po_lanes _ _ _ _ HP); apply (referenced_of i); [exact Hi|exact Hj|reflexivity|reflexivity].
  - exact (compute_blake2b_spec loc n _ Hloc Hbr).
  - exact HQ3.
  - exact (opening_checked _ _ _ Hr HD).
  - exact (block_recomputed i _ h0 Hi Hj Hh).
  - exact (compute_blake2b_spec loc n _ Hloc Hbi).
  - exact HQ1.
  - exact (opening_checked _ _ _ Hi HD).
Qed.

Context (loc : mtp_locals) (inst : argon2_instance_t) (Hloc : mlocals_ok loc P.(L)) (Hinst : inst.(memory) = Some M) (Hiok : inst_ok inst lanes q).

Lemma except_pos y : ((selected_index P boost y mod (P.(M_COST) / P.(LANES)) =? 0) || (selected_index P boost y mod (P.(M_COST) / P.(LANES)) =? 1)) =
  (pos_of (idx y) <? 2)%nat.
Proof.
  destruct (selected_bound y) as [-> Hi]; rewrite Nat2Z.id, (except_spec P lanes q d HP), <- Nat2Z.inj_mod; fold (pos_of (idx y)).
  destruct (Z.eqb_spec (Z.of_nat (pos_of (idx y))) 0), (Z.eqb_spec (Z.of_nat (pos_of (idx y))) 1), (Nat.ltb_spec (pos_of (idx y)) 2); cbn; lia.
Qed.

(** What a step writes. *)
Definition step_result (j : nat) (a : attempt) : attempt :=
  let i := idx a.(at_y) in
  Attempt (y_next a.(at_y) (M !!! i))
    (<[(j * 2 - 1)%nat := M !!! ref_of i]> (<[(j * 2 - 2)%nat := M !!! prev_of i]> a.(at_blocks)))
    (<[(j * 3 - 1)%nat := opening (ref_of i)]> (<[(j * 3 - 2)%nat := opening (prev_of i)]> (<[(j * 3 - 3)%nat := opening i]> a.(at_proofs)))).

Lemma hash_step_spec j a : length a.(at_y) = 32%nat ->
  hash_step P boost loc inst t j a = Some (if (pos_of (idx a.(at_y)) <? 2)%nat then None else Some (step_result j a)).
Proof.
  intros Hy; destruct (Nat.ltb_spec (pos_of (idx a.(at_y))) 2) as [Hj|Hj].
  { unfold hash_step; rewrite except_pos, (proj2 (Nat.ltb_lt _ _) Hj); reflexivity. }
  destruct (selected_bound a.(at_y)) as [Hsel Hi]; unfold step_result; set (i := idx a.(at_y)) in *.
  pose proof (prev_lt i Hi) as Hp; pose proof (ref_lt i Hi Hj) as Hr.
  destruct (block_at (prev_of i) Hp) as [Hbp Ep], (block_at (ref_of i) Hr) as [Hbr Er], (block_at i Hi) as [Hbi Ei].
  f_equal; rewrite <- (next_y_spec loc P.(L) a.(at_y) (M !!! i) Hloc Hy Hbi); pose proof (except_pos a.(at_y)) as Hex; rewrite Hsel in Hex; fold i in Hex.
  apply (hash_step_writes P boost loc inst t j a M (Z.of_nat i) (Z.of_nat (prev_of i)) (Z.of_nat (ref_of i)) (M !!! i) (M !!! prev_of i) (M !!! ref_of i)
    (block_digest (M !!! i)) (block_digest (M !!! prev_of i)) (block_digest (M !!! ref_of i))); rewrite ?Nat2Z.id.
  - exact Hsel.
  - rewrite Hex, Nat2Z.id; apply Nat.ltb_ge; exact Hj.
  - exact Hinst.
  - exact Ei.
  - unfold GetBlockIndex; rewrite Hinst, (io_lane _ _ _ Hiok), (previous_of i Hi), Nat2Z.id, (io_lanes _ _ _ Hiok); cbn [mbind option_bind]; rewrite Ep; cbn [mbind option_bind].
    do 2 f_equal; exact (referenced_of i inst Hi Hj (io_segment _ _ _ Hiok) (io_lane _ _ _ Hiok)).
  - exact Ep.
  - exact Er.
  - exact (copy_block_id _ Hbp).
  - exact (copy_block_id _ Hbr).
  - exact (compute_blake2b_spec loc _ _ Hloc Hbi).
  - exact (opening_found i Hi).
  - exact (compute_blake2b_spec loc _ _ Hloc Hbp).
  - exact (opening_found _ Hp).
  - exact (compute_blake2b_spec loc _ _ Hloc Hbr).
  - exact (opening_found _ Hr).
Qed.

(** ** Sequences of steps *)

(** The reference: [n] hashes after [y], each over the block the last one
    selects; none when a first or second block of a lane is selected. *)
Fixpoint y_chain (n : nat) (y : list Z) : option (list Z) :=
  match n with
  | O => Some y
  | S n => if (pos_of (idx y) <? 2)%nat then None else y_chain n (y_next y (M !!! idx y))
  end.

(** The entries of the steps [j .. j + n - 1]. *)
Fixpoint chain_entries (j n : nat) (y : list Z) (B : list block) (Q : list Elements) : Prop :=
  match n with
  | O => True
  | S n => step_entries j y B Q /\ chain_entries (S j) n (y_next y (M !!! idx y)) B Q
  end.

Lemma verify_loop_spec loc' n' h0 B Q n : mlocals_ok loc' n' -> take 32 h0 = take 32 (mtp_h0 P input) -> forall j y y', length y = 32%nat ->
  chain_entries j n y B Q -> y_chain n y = Some y' -> verify_loop P boost loc' root h0 B Q (seq j n) y = Some (Some y').
Proof.
  intros Hl Hh; induction n as [|n IH]; intros j y y' Hy He Hc; [by injection Hc as <-|]; cbn [y_chain chain_entries seq verify_loop] in *.
  destruct He as [He He'], (Nat.ltb_spec (pos_of (idx y)) 2) as [Hp|Hp]; [done|].
  bind_step (verify_step_spec loc' n' h0 j y B Q Hl Hy Hh Hp He); apply IH; [apply length_y_next|exact He'|exact Hc].
Qed.

(** Entries before those of step [j] are kept. *)
Definition kept_before (j : nat) (a a' : attempt) : Prop :=
  length a'.(at_blocks) = length a.(at_blocks) /\ length a'.(at_proofs) = length a.(at_proofs) /\
  (forall k, (k < j * 2 - 2)%nat -> a'.(at_blocks) !! k = a.(at_blocks) !! k) /\
  (forall k, (k < j * 3 - 3)%nat -> a'.(at_proofs) !! k = a.(at_proofs) !! k).

Lemma step_result_kept j a : (1 <= j)%nat -> kept_before j a (step_result j a).
Proof.
  intros Hj; unfold step_result; split; [by cbn [at_blocks]; rewrite !length_insert|]; split; [by cbn [at_proofs]; rewrite !length_insert|].
  split; intros k Hk; cbn [at_blocks at_proofs]; rewrite !list_lookup_insert_ne by lia; done.
Qed.

Lemma step_result_entries j a a' : (1 <= j)%nat -> (j * 2 <= length a.(at_blocks))%nat -> (j * 3 <= length a.(at_proofs))%nat ->
  kept_before (S j) (step_result j a) a' -> step_entries j a.(at_y) a'.(at_blocks) a'.(at_proofs).
Proof.
  intros Hj HB HQ (_ & _ & Hb & Hq); unfold step_entries; rewrite !Hb, !Hq by lia; unfold step_result; cbn [at_blocks at_proofs]; repeat split.
  - rewrite list_lookup_insert_ne by lia; apply list_lookup_insert_eq; lia.
  - apply list_lookup_insert_eq; rewrite length_insert; lia.
  - rewrite !list_lookup_insert_ne by lia; apply list_lookup_insert_eq; lia.
  - rewrite list_lookup_insert_ne by lia; apply list_lookup_insert_eq; rewrite length_insert; lia.
  - apply list_lookup_insert_eq; rewrite !length_insert; lia.
Qed.

Lemma kept_trans j a1 a2 a3 : kept_before j a1 a2 -> kept_before (S j) a2 a3 -> kept_before j a1 a3.
Proof.
  intros (H1 & H2 & H3 & H4) (G1 & G2 & G3 & G4); split; [congruence|]; split; [congruence|]; split; intros k Hk.
  - rewrite G3 by lia; by apply H3.
  - rewrite G4 by lia; by apply H4.
Qed.

Lemma hash_loop_spec n : forall j a, (1 <= j)%nat -> length a.(at_y) = 32%nat ->
  ((j + n - 1) * 2 <= length a.(at_blocks))%nat -> ((j + n - 1) * 3 <= length a.(at_proofs))%nat ->
  exists a' b, hash_loop P boost loc inst t (seq j n) a = Some (a', b) /\ kept_before j a a' /\
    match y_chain n a.(at_y) with
    | None => b = true
    | Some y => b = false /\ a'.(at_y) = y /\ chain_entries j n a.(at_y) a'.(at_blocks) a'.(at_proofs)
    end.
Proof.
  induction n as [|n IH]; intros j a Hj Hy HB HQ; cbn [seq hash_loop y_chain chain_entries].
  { exists a, false; split; [done|]; split; [by split|]; split; [done|]; split; [done|exact I]. }
  pose proof (hash_step_spec j a Hy) as Hst; destruct (pos_of (idx a.(at_y)) <? 2)%nat.
  { exists a, true; split; [by bind_step Hst|]; split; [by split|done]. }
  pose proof (step_result_kept j a Hj) as Hk; pose proof Hk as (K1 & K2 & _).
  destruct (IH (S j) (step_result j a)) as (a' & b & Hl & Hk' & Hres); [lia|apply length_y_next|rewrite K1; lia|rewrite K2; lia|].
  exists a', b; split; [bind_step Hst; exact Hl|]; split; [exact (kept_trans _ _ _ _ Hk Hk')|].
  change (at_y (step_result j a)) with (y_next a.(at_y) (M !!! idx a.(at_y))) in Hres.
  destruct (y_chain n _); [|exact Hres]; destruct Hres as (-> & <- & He); split; [done|]; split; [done|]; split; [|exact He].
  apply step_result_entries; [lia|lia|lia|exact Hk'].
Qed.

(** ** The search *)

(** The nonces on which the search stops. *)
Definition code_solution (target : Z) (pow_limit : list Z) (nonce : Z) (y : list Z) : Prop :=
  y_chain P.(L) (y_first input root nonce) = Some y /\ misses_target target pow_limit y = false.

#[local] Opaque misses_target.

(** What the search from [nonce] on returns: the least code_solution, with the
    entries of its steps, or nothing when there is none. *)
Definition search_result (target : Z) (pow_limit : list Z) (nonce : Z) (r : option (Z * attempt)) : Prop :=
  match r with
  | None => forall n y, nonce <= n < UINT_MAX -> ~ code_solution target pow_limit n y
  | Some (n, a) => nonce <= n < UINT_MAX /\ code_solution target pow_limit n a.(at_y) /\
      chain_entries 1 P.(L) (y_first input root n) a.(at_blocks) a.(at_proofs) /\
      length a.(at_blocks) = (P.(L) * 2)%nat /\ length a.(at_proofs) = (P.(L) * 3)%nat /\
      forall m y, nonce <= m < n -> ~ code_solution target pow_limit m y
  end.

Lemma search_result_next target pow_limit nonce r : (forall y, ~ code_solution target pow_limit nonce y) ->
  search_result target pow_limit (nonce + 1) r -> search_result target pow_limit nonce r.
Proof.
  intros Hno; destruct r as [[n a]|]; cbn [search_result].
  - intros (H1 & H2 & H3 & H4 & H5 & H6); split; [lia|]; split; [exact H2|]; split; [exact H3|]; split; [exact H4|]; split; [exact H5|]; intros m y Hm.
    destruct (Z.eq_dec m nonce) as [->|]; [apply Hno|apply H6; lia].
  - intros H m y Hm; destruct (Z.eq_dec m nonce) as [->|]; [apply Hno|apply H; lia].
Qed.

Lemma mtp_search_step target pow_limit fuel nonce blocks proofs a b : nonce <> UINT_MAX ->
  hash_loop P boost loc inst t (seq 1 P.(L)) (Attempt (y_first input root nonce) (memset_blocks blocks) proofs) = Some (a, b) ->
  mtp_search P boost (S fuel) loc inst t input root target pow_limit nonce blocks proofs =
  if b || misses_target target pow_limit a.(at_y)
  then mtp_search P boost fuel loc inst t input root target pow_limit (u32 (nonce + 1)) a.(at_blocks) a.(at_proofs)
  else Some (Some (nonce, a)).
Proof.
  intros Hne Hl; cbn [mtp_search]; rewrite (proj2 (Z.eqb_neq _ _) Hne), first_y_spec; bind_step Hl; exact eq_refl.
Qed.

Lemma mtp_search_spec target pow_limit fuel : forall nonce blocks proofs, 0 <= nonce <= UINT_MAX -> (Z.to_nat (UINT_MAX - nonce) < fuel)%nat ->
  length blocks = (P.(L) * 2)%nat -> length proofs = (P.(L) * 3)%nat ->
  exists r, mtp_search P boost fuel loc inst t input root target pow_limit nonce blocks proofs = Some r /\ search_result target pow_limit nonce r.
Proof.
  induction fuel as [|fuel IH]; intros nonce blocks proofs Hn Hf HB HQ; [lia|].
  destruct (Z.eq_dec nonce UINT_MAX) as [->|Hne]; [exists None; split; [done|]; intros n y Hny; lia|].
  destruct (hash_loop_spec P.(L) 1 (Attempt (y_first input root nonce) (memset_blocks blocks) proofs)) as (a & b & Hl & (K1 & K2 & _) & Hres);
    [lia|apply length_y_first|unfold memset_blocks; cbn [at_blocks]; rewrite length_insert; lia|cbn [at_proofs]; lia|].
  cbn [at_blocks at_proofs at_y] in K1, K2, Hres; unfold memset_blocks in K1; rewrite length_insert in K1.
  rewrite (mtp_search_step target pow_limit fuel nonce blocks proofs a b Hne Hl).
  assert (Hnext : (forall y, ~ code_solution target pow_limit nonce y) -> exists r,
    mtp_search P boost fuel loc inst t input root target pow_limit (u32 (nonce + 1)) a.(at_blocks) a.(at_proofs) = Some r /\ search_result target pow_limit nonce r).
  { intros Hno; destruct (IH (nonce + 1) a.(at_blocks) a.(at_proofs)) as (r & Hr & Hres'); [lia|lia|lia|lia|].
    rewrite u32_id by (unfold word, UINT_MAX in *; lia); exists r; split; [exact Hr|by apply search_result_next]. }
  destruct (y_chain P.(L) (y_first input root nonce)) as [y|] eqn:Ey.
  - destruct Hres as (-> & Hay & He); cbn [orb]; destruct (misses_target target pow_limit a.(at_y)) eqn:Em.
    + apply Hnext; intros y' [H1 H2]; rewrite Ey in H1; injection H1 as <-; congruence.
    + exists (Some (nonce, a)); split; [done|]; split; [lia|]; split; [split; [by rewrite Hay|exact Em]|]; split; [exact He|]; split; [lia|]; split; [lia|lia].
  - subst b; apply Hnext; intros y' [H1 _]; congruence.
Qed.
End Search.
