(* ===== verification/MtpClaims.v ===== *)
(** The theorems about the proof of work. *)

From S2P Require Import Prelude BlakeSpec Rfc7693 Blake2b Argon2 Argon2Threads Argon2Spec Argon2Block Argon2Fill Argon2Init Argon2Pass0.
From S2P Require Import Argon2Claims MerkleTree MerkleProofs MerkleClaims Arith256 Arith256Proofs Arith256Compact Arith256Claims Uint256 Uint256Claims.
From S2P Require Import Serialize SerializeProofs Mtp MtpProofs MtpSearch.

(** ** The problem *)

Lemma concat_le_words n l : words 8 (concat (map (le_bytes n) l)).
Proof. induction l as [|x l IH]; cbn [map concat]; [constructor|]; apply Forall_app; split; [apply le_bytes_words|exact IH]. Qed.

Lemma hash_bytes r n k m : words 8 (Rfc7693.hash r n k m).
Proof. unfold Rfc7693.hash; apply Forall_take, concat_le_words. Qed.

(** The number a compact target stands for. *)
Abbreviation target_of c := (compact_value (mantissa c) (size c)).

Lemma compact_value_nonneg c : word 32 c -> 0 <= target_of c.
Proof.
  intros Hc; unfold compact_value, mantissa, size; unfold word in Hc; apply Z.div_pos; [|lia]; apply Z.mul_nonneg_nonneg; [apply Z.mod_pos_bound; lia|].
  apply Z.pow_nonneg; lia.
Qed.

(** The four tests on the target and the one on the hash. *)
Lemma misses_target_spec nBits limit hash : word 32 nBits -> blob 32 limit -> blob 32 hash ->
  misses_target nBits limit hash = false <-> sign nBits = false /\ 0 < target_of nBits <= le_word limit /\ le_word hash <= target_of nBits.
Proof.
  intros Hc [Hl Wl] [Hh Wh]; destruct (SetCompact_spec nBits Hc) as (Hu & Hv & Hn & Ho), (UintToArith256_spec limit Hl Wl) as [Ul Vl], (UintToArith256_spec hash Hh Wh) as [Uh Vh].
  pose proof (le_word_word limit Wl) as Bl; rewrite Hl in Bl; unfold word in Bl; change (8 * Z.of_nat 32) with 256 in Bl; pose proof (compact_value_nonneg nBits Hc) as Hpos.
  unfold misses_target; rewrite Hn, Ho, EqualTo_spec, !greater_spec, Hv, Vl, Vh by (done || lia || (unfold word; lia)).
  rewrite !orb_false_iff; destruct (Z.leb_spec (2 ^ 256) (target_of nBits)) as [H|H].
  - split; [intros [[[_ ?] _] _]; done|lia].
  - rewrite Z.mod_small by lia; destruct (sign nBits); cbn [andb]; destruct (Z.eqb_spec (target_of nBits) 0); cbn [negb]; rewrite ?Z.ltb_ge; split; intuition (done || lia).
Qed.

(** The reference: which block a hash selects in the memory [M] (the number whose
    digits, after 0x, are those of the bytes from the last to the first, modulo
    the number of blocks), the sequence of [n] hashes after [y] (none when the first
    or second block of a lane of [4 * q] blocks is selected), and the nonces that
    solve the problem: the last hash, as a number, is at most the number the
    compact target stands for, which is positive and not above the limit. *)
Definition selects (boost : list Z -> Z) (M : list block) (y : list Z) : nat :=
  Z.to_nat (boost ([48; 120] ++ concat (map byte_digits (reverse y))) mod Z.of_nat (length M)).

Fixpoint hash_sequence (boost : list Z -> Z) (q : nat) (M : list block) (n : nat) (y : list Z) : option (list Z) :=
  match n with
  | O => Some y
  | S n => let i := selects boost M y in if (i mod (4 * q) <? 2)%nat then None else hash_sequence boost q M n (y_next y (M !!! i))
  end.

Definition solution (P : params) (q : nat) (boost : list Z -> Z) (input : list Z) (M : list block) (root : list Z) (target : Z) (pow_limit : list Z) (nonce : Z) (y : list Z) : Prop :=
  hash_sequence boost q M P.(L) (y_first input root nonce) = Some y /\
  sign target = false /\ 0 < target_of target <= le_word pow_limit /\ le_word y <= target_of target.

Lemma y_first_blob input root nonce : blob 32 (y_first input root nonce).
Proof. split; [apply length_y_first|exact (hash_bytes _ _ _ _)]. Qed.

Lemma y_next_blob y b : blob 32 (y_next y b).
Proof. split; [apply length_y_next|exact (hash_bytes _ _ _ _)]. Qed.

#[local] Opaque y_first y_next misses_target.

Section Solution.
Context (P : params) (lanes q d : nat) (HP : params_ok P lanes q d) (boost : list Z -> Z) (input : list Z) (M : list block) (HM : mtp_memory P lanes q input M).

Lemma selects_code y : selects boost M y = Z.to_nat (selected_index P boost y).
Proof.
  unfold selects, selected_index; rewrite GetHex_spec, (po_mcost _ _ _ _ HP), (proj1 (proj1 HM)).
  pose proof (params_size P lanes q d HP) as Hs; pose proof HP as [_ _ Hq Hr _ _].
  rewrite u32_id; [done|]; pose proof (Z.mod_pos_bound (boost ([48; 120] ++ concat (map byte_digits (reverse y)))) (Z.of_nat (lanes * (4 * q))) ltac:(nia)); unfold word; lia.
Qed.

Lemma hash_sequence_code n : forall y, hash_sequence boost q M n y = y_chain P q boost M n y.
Proof.
  induction n as [|n IH]; intros y; cbn [hash_sequence y_chain]; [done|]; rewrite selects_code; unfold pos_of; destruct (_ <? 2)%nat; [done|apply IH].
Qed.

Lemma hash_sequence_blob n : forall y y', blob 32 y -> hash_sequence boost q M n y = Some y' -> blob 32 y'.
Proof.
  induction n as [|n IH]; intros y y' Hy H; cbn [hash_sequence] in H; [by injection H as <-|]; destruct (_ <? 2)%nat; [done|]; exact (IH _ _ (y_next_blob _ _) H).
Qed.

(** The search stops on the solutions, and on nothing else. *)
Lemma solution_code root target pow_limit nonce y : word 32 target -> blob 32 pow_limit ->
  solution P q boost input M root target pow_limit nonce y <-> code_solution P q boost input M root target pow_limit nonce y.
Proof.
  intros Ht Hl; unfold solution, code_solution; rewrite hash_sequence_code; split; intros [H1 H2]; (split; [exact H1|]); pose proof (hash_sequence_blob _ _ _ (y_first_blob input root nonce)
    (eq_trans (hash_sequence_code _ _) H1)) as Hy; by apply (misses_target_spec target pow_limit y Ht Hl Hy).
Qed.

(** What the search returns, in the terms of the reference. *)
Lemma search_result_solution t root target pow_limit r : word 32 target -> blob 32 pow_limit -> search_result P lanes q boost input M t root target pow_limit 0 r ->
  match (fun '(nonce, a) => MtpOutput root nonce a.(at_blocks) a.(at_proofs) a.(at_y)) <$> r with
  | Some o => o.(o_root) = root /\ 0 <= o.(o_nonce) < UINT_MAX /\ solution P q boost input M root target pow_limit o.(o_nonce) o.(o_hash) /\
      forall n y, 0 <= n < o.(o_nonce) -> ~ solution P q boost input M root target pow_limit n y
  | None => forall n y, 0 <= n < UINT_MAX -> ~ solution P q boost input M root target pow_limit n y
  end.
Proof.
  intros Ht Hl; destruct r as [[nonce a]|]; cbn [fmap option_fmap option_map search_result].
  - intros (Hn & Hs & _ & _ & _ & Hleast); split; [done|]; split; [exact Hn|]; split; [by apply solution_code|]; intros n y Hny; rewrite solution_code by done; by apply Hleast.
  - intros Hno n y Hny; rewrite solution_code by done; by apply Hno.
Qed.
End Solution.

(** ** The search *)

#[local] Opaque Rfc7693.hash Rfc7693.hash_long fill_block_mtp compute_blake2b checkProofOrdered next_y first_y referenced_index previous_index
  block_digest y_next y_first mtp_h0 H0 getProof_at make_MerkleTree copy_block selected_index misses_target mtp_search verify_loop.

Lemma check_loop_length S0 D0 proof e index r : length D0 = 16%nat -> length e = 16%nat -> check_loop S0 D0 proof e index = Some r -> length r = 16%nat.
Proof.
  intros HD; revert e index; induction proof as [|p proof IH]; intros e index He; [by intros [= <-]|]; rewrite check_loop_hashed.
  destruct (adjust_index 65 (length (p :: proof)) index); cbn [mbind option_bind]; [|done]; apply IH, length_tree_hash, HD.
Qed.

Lemma tree_exists P lanes q d input M S0 D0 : params_ok P lanes q d -> mtp_memory P lanes q input M ->
  exists t root, make_MerkleTree S0 D0 (map block_digest M) true = Ret (Some t) /\ getRoot t = Some root.
Proof.
  intros HP HM; assert (Hl : length (map block_digest M) = (lanes * (4 * q))%nat) by (rewrite length_map; apply HM).
  assert (Hne : map block_digest M <> []) by (destruct HP; intros E; rewrite E in Hl; cbn [length] in Hl; nia).
  assert (Hok : Forall element_ok (map block_digest M)) by (apply List.Forall_forall; intros e He; apply in_map_iff in He as (b & <- & _); apply length_block_digest).
  destruct (make_ordered S0 D0 (map block_digest M) Hne Hok) as (ls & r & H & _ & _ & Hr); by exists (mkMerkleTree true (map block_digest M) ls), r.
Qed.

Lemma root_length P lanes q d input M S0 D0 t root : params_ok P lanes q d -> mtp_memory P lanes q input M -> length D0 = 16%nat ->
  make_MerkleTree S0 D0 (map block_digest M) true = Ret (Some t) -> getRoot t = Some root -> length root = 16%nat.
Proof.
  intros HP HM HD Ht Hr; assert (H0 : (0 < lanes * (4 * q))%nat) by (destruct HP; nia).
  pose proof (opening_checked P lanes q d HP input M HM S0 D0 HD t root Ht Hr S0 D0 0 H0 HD) as H.
  change (u32 (Z.of_nat 0 + 1)) with (Z.of_nat 0 + 1) in H; rewrite checkProofOrdered_at in H by lia.
  destruct (check_loop _ _ _ _ _) as [r|] eqn:E; cbn [mbind option_bind] in H; [|done]; injection H as H; apply bool_decide_eq_true in H; subst r.
  exact (check_loop_length _ _ _ _ _ _ HD (length_block_digest _) E).
Qed.

(** What step 1 succeeds with, and what the whole search then returns. *)
Lemma mtp_hash1_spec P lanes q d boost pf loc input inst target pow_limit fuel :
  params_ok P lanes q d -> mlocals_ok loc P.(L) -> malloc_ok pf.(pf_malloc) -> (80 <= length input)%nat ->
  Argon2CtxMtp pf loc (mtp_context P loc input) (mtp_instance P loc) = Some (ARGON2_OK, inst) -> (Z.to_nat (2 ^ 32) <= fuel)%nat ->
  exists M t root r, mtp_memory P lanes q input M /\ make_MerkleTree loc.(ml_state) loc.(ml_digest) (map block_digest M) true = Ret (Some t) /\
    getRoot t = Some root /\ search_result P lanes q boost input M t root target pow_limit 0 r /\
    mtp_hash1 P boost fuel pf loc input target pow_limit =
      Some (root, (fun '(nonce, a) => MtpOutput root nonce a.(at_blocks) a.(at_proofs) a.(at_y)) <$> r).
Proof.
  intros HP Hloc Hmal Hin Hctx Hf; destruct (argon2_memory P lanes q d HP pf loc P.(L) input inst Hloc Hmal Hin Hctx) as (M & Hmem & HM & Hmb & Hok).
  destruct (tree_exists P lanes q d input M loc.(ml_state) loc.(ml_digest) HP HM) as (t & root & Ht & Hroot).
  destruct (mtp_search_spec P lanes q d HP boost input M HM _ _ (lo_digest _ _ Hloc) t root Ht Hroot loc inst Hloc Hmem Hok target pow_limit fuel 0
    loc.(ml_blocks) (replicate (P.(L) * 3) [])) as (r & Hr & Hres); [unfold UINT_MAX; lia|unfold UINT_MAX; lia|apply Hloc|apply length_replicate|].
  exists M, t, root, r; split; [exact HM|]; split; [exact Ht|]; split; [exact Hroot|]; split; [exact Hres|]; unfold mtp_hash1.
  bind_step Hctx; bind_step Hmem; rewrite Hmb, (po_mcost _ _ _ _ HP), Nat2Z.id; destruct HM as [[Hl Hb] _]; rewrite Hl, Nat.leb_refl.
  rewrite take_ge by (rewrite Hl; lia); bind_step (block_digests_spec loc P.(L) M Hloc Hb); rewrite Ht; apply (bind_some_eq _ _ t); [done|].
  bind_step Hroot; bind_step Hr; by destruct r as [[nonce a]|].
Qed.

(** ** An execution *)

Definition demo_malloc : allocator := fun n => Some (replicate (Z.to_nat (n / 1024)) (replicate 128 0)).

Lemma demo_malloc_ok : malloc_ok demo_malloc.
Proof.
  intros n M [= <-]; split; [apply length_replicate|apply Forall_replicate; exact (length_replicate 128 0)].
Qed.

Definition demo_mlocals (n : nat) : mtp_locals :=
  MtpLocals zero_state (replicate 16 0) (replicate 1024 0) (replicate 32 0) (replicate 72 0) (replicate 128 0) (replicate (n * 2) (replicate 128 0)) demo_locals.

Lemma demo_mlocals_ok n : mlocals_ok (demo_mlocals n) n.
Proof. split; [apply length_replicate..|exact demo_locals_ok]. Qed.

Lemma context_valid P lanes q d loc input : params_ok P lanes q d -> validate_inputs (Some (mtp_context P loc input)) = ARGON2_OK.
Proof.
  intros HP; pose proof (params_size P lanes q d HP) as Hs; destruct HP as [Hl Hm Hq Hr _ _].
  assert (H8 : 8 * Z.of_nat lanes <= Z.of_nat (lanes * (4 * q))) by nia; apply validate_inputs_spec.
  - unfold context_words; cbn [outlen pwdlen saltlen secretlen adlen t_cost m_cost Argon2.lanes threads mtp_context]; rewrite Hl, Hm; unfold T_COST.
    repeat constructor; unfold word; lia.
  - unfold valid_context; cbn [out outlen pwd pwdlen salt saltlen secret secretlen ad adlen t_cost m_cost Argon2.lanes threads allocate_cbk free_cbk mtp_context].
    rewrite Hl, Hm; unfold T_COST; repeat split; (done || lia).
Qed.

Lemma demo_target : word 32 0x1d00ffff.
Proof. unfold word; lia. Qed.

Lemma demo_pow_limit : blob 32 (replicate 32 255).
Proof. split; [reflexivity|apply Forall_replicate; unfold word; lia]. Qed.

(** The filling can succeed: with a memory and with some schedule of the threads. *)
Lemma mtp_can_fill P lanes q d loc n input : params_ok P lanes q d -> mlocals_ok loc n -> (80 <= length input)%nat ->
  exists choices inst, Argon2CtxMtp (Platform demo_malloc true true choices) loc (mtp_context P loc input) (mtp_instance P loc) = Some (ARGON2_OK, inst).
Proof.
  intros HP Hloc Hin; pose proof (instance_ok P lanes q d HP loc) as Hok; pose proof (context_valid P lanes q d loc input HP) as Hv.
  assert (Hmb : (mtp_instance P loc).(memory_blocks) = Z.of_nat (lanes * (4 * q))) by apply (po_mcost _ _ _ _ HP).
  set (M0 := replicate (lanes * (4 * q)) (replicate 128 0)).
  assert (HM0 : mem_ok (lanes * (4 * q)) M0) by (split; [apply length_replicate|apply Forall_replicate; exact (length_replicate 128 0)]).
  assert (E : demo_malloc (Z.of_nat (lanes * (4 * q)) * 1024) = Some M0) by (unfold demo_malloc; by rewrite Z.div_mul, Nat2Z.id by lia).
  destruct (initialize_spec demo_malloc loc.(ml_argon) (mtp_instance P loc) (mtp_context P loc input) lanes q M0
    (lo_argon _ _ Hloc) Hok (context_buffers P loc input Hin) Hmb E HM0) as [Hinit HM1].
  set (inst1 := set_memory _ _) in Hinit; set (mem1 := first_blocks _ _ _ _) in *; assert (Hok1 : inst_ok inst1 lanes q) by (destruct Hok; by split).
  assert (Ht : inst1.(i_threads) = Z.of_nat lanes) by (cbn; destruct (_ <? _); apply (po_lanes _ _ _ _ HP)).
  pose proof (io_pos _ _ _ Hok) as Hpos; assert (Hz : (inst1.(i_lanes) =? 0) = false) by (apply Z.eqb_neq; rewrite (io_lanes _ _ _ Hok1); lia).
  assert (Hfill : exists choices inst, fill_memory_blocks_mtp true true true choices (Some inst1) = Some (ARGON2_OK, Some inst)).
  { unfold fill_memory_blocks_mtp; rewrite Hz; cbn [negb orb]; destruct (inst1.(i_threads) =? 1).
    - exists []; eexists; apply (bind_some_eq _ _ mem1); [done|]; apply (bind_some_eq _ _ (ARGON2_OK, _) _ (fill_memory_spec inst1 lanes q Hok1 mem1 (proj1 HM1))); done.
    - destruct (mt_can_finish inst1 lanes q lanes 1 mem1 Hok1 Ht ltac:(lia) eq_refl (proj1 HM1)) as (choices & mem' & ws & Hc).
      exists choices; eexists; apply (bind_some_eq _ _ mem1); [done|]; rewrite Hc; done. }
  destruct Hfill as (choices & inst & Hfill); exists choices, inst; unfold Argon2CtxMtp; rewrite Hv; change (negb (ARGON2_OK =? ARGON2_OK)) with false; cbv iota.
  apply (bind_some_eq _ _ _ _ Hinit); cbv beta iota; apply (bind_some_eq _ _ inst1); [done|]; change (negb (ARGON2_OK =? ARGON2_OK)) with false; cbv iota beta.
  apply (bind_some_eq _ _ _ _ Hfill); cbv beta iota; apply (bind_some_eq _ _ inst); done.
Qed.

(** The constants of the program. *)
Lemma mtp_params_ok : params_ok mtp_params 4 (2 ^ 18) 22.
Proof.
  assert (H : (4 * (4 * 2 ^ 18) = 2 ^ 22)%nat) by (change 4%nat with (2 ^ 2)%nat; rewrite <- !Nat.pow_add_r; f_equal).
  split; [done| |apply (Nat.pow_le_mono_r 2 1 18); lia|lia|exact H|lia]; rewrite H, Nat2Z.inj_pow; reflexivity.
Qed.

Lemma mtp_can_run : exists choices inst, Argon2CtxMtp (Platform demo_malloc true true choices) (demo_mlocals MTP_L)
  (mtp_context mtp_params (demo_mlocals MTP_L) (replicate 80 1)) (mtp_instance mtp_params (demo_mlocals MTP_L)) = Some (ARGON2_OK, inst).
Proof. apply (mtp_can_fill mtp_params 4 (2 ^ 18) 22 _ MTP_L _ mtp_params_ok (demo_mlocals_ok MTP_L)); rewrite length_replicate; done. Qed.

(** ** Claims *)

(** C3 (refinement): when the filling of the memory succeeds, the search ends
    (2^32 turns are enough) and returns the least nonce below 2^32 - 1 that solves
    the problem as the reference states it: the sequence of [L] hashes that starts
    with the header, the root of the tree over the memory and the nonce, each over
    the block the last one selects, never meets the first two blocks of a lane, and
    its last hash is, as a number, at most the number the compact target stands for,
    a positive number not above the limit.  It fails exactly when there is none. *)
Theorem mtp_search_least P lanes q d boost pf loc input inst target pow_limit fuel :
  params_ok P lanes q d -> mlocals_ok loc P.(L) -> malloc_ok pf.(pf_malloc) -> (80 <= length input)%nat ->
  word 32 target -> blob 32 pow_limit ->
  Argon2CtxMtp pf loc (mtp_context P loc input) (mtp_instance P loc) = Some (ARGON2_OK, inst) -> (Z.to_nat (2 ^ 32) <= fuel)%nat ->
  exists M root r, mtp_memory P lanes q input M /\ merkleRoot loc.(ml_state) loc.(ml_digest) (map block_digest M) true = Ret (Some root) /\
    mtp_hash1 P boost fuel pf loc input target pow_limit = Some (root, r) /\
    match r with
    | Some o => o.(o_root) = root /\ 0 <= o.(o_nonce) < UINT_MAX /\ solution P q boost input M root target pow_limit o.(o_nonce) o.(o_hash) /\
        forall n y, 0 <= n < o.(o_nonce) -> ~ solution P q boost input M root target pow_limit n y
    | None => forall n y, 0 <= n < UINT_MAX -> ~ solution P q boost input M root target pow_limit n y
    end.
Proof.
  intros HP Hloc Hmal Hin Htar Hlim Hctx Hf.
  destruct (mtp_hash1_spec P lanes q d boost pf loc input inst target pow_limit fuel HP Hloc Hmal Hin Hctx Hf) as (M & t & root & r & HM & Ht & Hroot & Hres & H1).
  exists M, root, ((fun '(nonce, a) => MtpOutput root nonce a.(at_blocks) a.(at_proofs) a.(at_y)) <$> r); split; [exact HM|].
  split; [unfold merkleRoot; rewrite Ht; cbn [bind_result mbind option_bind]; by rewrite Hroot|]; split; [exact H1|].
  exact (search_result_solution P lanes q d HP boost input M HM t root target pow_limit r Htar Hlim Hres).
Qed.

Lemma mtp_search_least_witness : exists choices root r,
  mtp_hash1 mtp_params le_word (Z.to_nat (2 ^ 32)) (Platform demo_malloc true true choices) (demo_mlocals MTP_L) (replicate 80 1) 0x1d00ffff (replicate 32 255) = Some (root, r).
Proof.
  destruct mtp_can_run as (choices & inst & H); exists choices.
  destruct (mtp_search_least mtp_params 4 (2 ^ 18) 22 le_word (Platform demo_malloc true true choices) (demo_mlocals MTP_L) (replicate 80 1) inst 0x1d00ffff
    (replicate 32 255) (Z.to_nat (2 ^ 32)) mtp_params_ok (demo_mlocals_ok MTP_L) demo_malloc_ok ltac:(rewrite length_replicate; apply le_n) demo_target demo_pow_limit H (le_n _)) as (M & root & r & _ & _ & H1 & _).
  exists root, r; exact H1.
Defined.

(** What the search returned, the verification accepts. *)
Lemma mtp_verify_output P lanes q d boost loc loc' input M t root target pow_limit nonce a hv :
  params_ok P lanes q d -> mlocals_ok loc P.(L) -> mlocals_ok loc' P.(L) -> (80 <= length input)%nat -> mtp_memory P lanes q input M ->
  make_MerkleTree loc.(ml_state) loc.(ml_digest) (map block_digest M) true = Ret (Some t) -> getRoot t = Some root ->
  search_result P lanes q boost input M t root target pow_limit 0 (Some (nonce, a)) ->
  mtp_verify P boost loc' input target root nonce a.(at_blocks) a.(at_proofs) pow_limit hv = Some (true, (fun _ => a.(at_y)) <$> hv).
Proof.
  intros HP Hloc Hloc' Hin HM Ht Hroot (_ & [Hc Hm] & He & _).
  pose proof (lo_h0 _ _ Hloc') as Hh0; pose proof (root_length _ _ _ _ _ _ _ _ _ _ HP HM (lo_digest _ _ Hloc) Ht Hroot) as Hrl.
  unfold mtp_verify; rewrite (initial_hash_spec loc'.(ml_state) loc'.(ml_h0) (mtp_context P loc' input) Argon2_d (context_buffers P loc' input Hin)) by lia.
  change (H0 (mtp_context P loc' input) Argon2_d) with (mtp_h0 P input); rewrite first_y_spec, (take_ge root) by lia.
  apply (bind_some_eq _ _ (mtp_h0 P input ++ drop 64 loc'.(ml_h0))); [done|]; cbv beta.
  assert (Hl0 : length (mtp_h0 P input) = 64%nat) by apply length_H0.
  bind_step (verify_loop_spec P lanes q d HP boost input M HM _ _ (lo_digest _ _ Hloc) t root Ht Hroot loc' P.(L) (mtp_h0 P input ++ drop 64 loc'.(ml_h0))
    a.(at_blocks) a.(at_proofs) P.(L) Hloc' ltac:(by rewrite take_app_le by lia) 1 _ _ (length_y_first _ _ _) He Hc); by rewrite Hm.
Qed.

(** C2 (refinement): what the search returns, the verification accepts: with
    the root, the nonce, the blocks and the openings the search wrote, in any
    state of the local variables, [mtp_verify] recomputes every opened block,
    accepts the three openings of every step, returns true and stores the hash
    the search found. *)
Theorem mtp_verify_accepts P lanes q d boost pf loc loc' input inst target pow_limit fuel hv :
  params_ok P lanes q d -> mlocals_ok loc P.(L) -> mlocals_ok loc' P.(L) -> malloc_ok pf.(pf_malloc) -> (80 <= length input)%nat ->
  Argon2CtxMtp pf loc (mtp_context P loc input) (mtp_instance P loc) = Some (ARGON2_OK, inst) -> (Z.to_nat (2 ^ 32) <= fuel)%nat ->
  exists root r, mtp_hash1 P boost fuel pf loc input target pow_limit = Some (root, r) /\
    forall o, r = Some o ->
      mtp_verify P boost loc' input target o.(o_root) o.(o_nonce) o.(o_blocks) o.(o_proofs) pow_limit hv = Some (true, (fun _ => o.(o_hash)) <$> hv).
Proof.
  intros HP Hloc Hloc' Hmal Hin Hctx Hf.
  destruct (mtp_hash1_spec P lanes q d boost pf loc input inst target pow_limit fuel HP Hloc Hmal Hin Hctx Hf) as (M & t & root & r & HM & Ht & Hroot & Hres & H1).
  eexists root, _; split; [exact H1|]; intros o Ho; destruct r as [[nonce a]|]; [|done]; injection Ho as <-.
  exact (mtp_verify_output P lanes q d boost loc loc' input M t root target pow_limit nonce a hv HP Hloc Hloc' Hin HM Ht Hroot Hres).
Qed.

Lemma mtp_verify_accepts_witness : exists choices root r,
  mtp_hash1 mtp_params le_word (Z.to_nat (2 ^ 32)) (Platform demo_malloc true true choices) (demo_mlocals MTP_L) (replicate 80 1) 0x1d00ffff (replicate 32 255) = Some (root, r) /\
  forall o, r = Some o -> mtp_verify mtp_params le_word (demo_mlocals MTP_L) (replicate 80 1) 0x1d00ffff o.(o_root) o.(o_nonce) o.(o_blocks) o.(o_proofs) (replicate 32 255) None =
    Some (true, None).
Proof.
  destruct mtp_can_run as (choices & inst & H); exists choices.
  exact (mtp_verify_accepts mtp_params 4 (2 ^ 18) 22 le_word (Platform demo_malloc true true choices) (demo_mlocals MTP_L) (demo_mlocals MTP_L) (replicate 80 1) inst 0x1d00ffff
    (replicate 32 255) (Z.to_nat (2 ^ 32)) None mtp_params_ok (demo_mlocals_ok MTP_L) (demo_mlocals_ok MTP_L) demo_malloc_ok ltac:(rewrite length_replicate; apply le_n) H (le_n _)).
Defined.

(** ** Repetition *)

(** The header determines the memory. *)
Lemma mtp_memory_unique P lanes q d input M M' : params_ok P lanes q d -> mtp_memory P lanes q input M -> mtp_memory P lanes q input M' -> M = M'.
Proof.
  intros HP HM HN; pose proof (memory_block P lanes q d HP input M HM) as HM3; pose proof (memory_block P lanes q d HP input M' HN) as HN3.
  destruct HM as (HM1 & HM2 & _), HN as (HN1 & HN2 & _); pose proof (params_size P lanes q d HP) as Hs; pose proof HP as [_ _ Hq Hr _ _].
  assert (Hfill : forall X, length X = (lanes * (4 * q))%nat -> (forall l j, (l < lanes)%nat -> (2 <= j < 4 * q)%nat ->
      let p := X !!! Argon2Spec.cell q l (j - 1) in let r := Argon2Spec.ref_cell lanes q 0 l j (p !!! 0%nat) in
      X !!! Argon2Spec.cell q l j = fill_block_mtp p (X !!! r) p false (Z.of_nat r) (mtp_h0 P input ++ replicate 8 0)) ->
    filled_upto lanes q false (mtp_h0 P input ++ replicate 8 0) fill_block_mtp (fun _ => (4 * q)%nat) X).
  { intros X HX Hc; split; [exact HX|]; intros l j Hl Hj _; unfold computed; etransitivity; [exact (Hc l j Hl Hj)|].
    unfold Argon2Spec.new_block; rewrite (prev_cell_pos lanes q Hq ltac:(lia) ltac:(lia)) by lia; apply fill_block_mtp_overwrites. }
  apply (computed_unique lanes q false (mtp_h0 P input ++ replicate 8 0) fill_block_mtp Hq ltac:(lia) ltac:(lia) fill_block_mtp_overwrites).
  - exact (Hfill M (proj1 HM1) HM3).
  - exact (Hfill M' (proj1 HN1) HN3).
  - intros l j Hl Hj; etransitivity; [exact (HN2 l j Hl Hj)|symmetry; exact (HM2 l j Hl Hj)].
Qed.

(** C11 (liveness): the repeated search, when every filling of the memory
    succeeds: if some nonce below 2^32 - 1 solves the problem, the first search
    returns the least one, with any number of turns allowed from one on; if none
    does, every turn is defined and ends without a result, so that the loop, which
    repeats the search with the same header, never returns. *)
Theorem mtp_hash_returns_or_loops P lanes q d boost pfs loc input target pow_limit fuel1 :
  params_ok P lanes q d -> mlocals_ok loc P.(L) -> (80 <= length input)%nat -> (Z.to_nat (2 ^ 32) <= fuel1)%nat -> word 32 target -> blob 32 pow_limit ->
  (forall k, malloc_ok (pfs k).(pf_malloc) /\ exists inst, Argon2CtxMtp (pfs k) loc (mtp_context P loc input) (mtp_instance P loc) = Some (ARGON2_OK, inst)) ->
  exists M root, mtp_memory P lanes q input M /\ merkleRoot loc.(ml_state) loc.(ml_digest) (map block_digest M) true = Ret (Some root) /\
    ((exists o, 0 <= o.(o_nonce) < UINT_MAX /\ solution P q boost input M root target pow_limit o.(o_nonce) o.(o_hash) /\
        (forall n y, 0 <= n < o.(o_nonce) -> ~ solution P q boost input M root target pow_limit n y) /\
        forall fuel, mtp_hash P boost (S fuel) fuel1 pfs loc input target pow_limit = Some (Some o)) \/
     ((forall n y, 0 <= n < UINT_MAX -> ~ solution P q boost input M root target pow_limit n y) /\
        forall fuel, mtp_hash P boost fuel fuel1 pfs loc input target pow_limit = Some None)).
Proof.
  intros HP Hloc Hin Hf Htar Hlim Hpf.
  assert (Hone : forall k, exists M t root r, mtp_memory P lanes q input M /\ make_MerkleTree loc.(ml_state) loc.(ml_digest) (map block_digest M) true = Ret (Some t) /\
    getRoot t = Some root /\ search_result P lanes q boost input M t root target pow_limit 0 r /\ mtp_hash1 P boost fuel1 (pfs k) loc input target pow_limit =
      Some (root, (fun '(nonce, a) => MtpOutput root nonce a.(at_blocks) a.(at_proofs) a.(at_y)) <$> r)).
  { intros k; destruct (Hpf k) as [Hm [inst Hi]]; exact (mtp_hash1_spec P lanes q d boost (pfs k) loc input inst target pow_limit fuel1 HP Hloc Hm Hin Hi Hf). }
  destruct (Hone 0%nat) as (M & t & root & r & HM & Ht & Hroot & Hres & H1); exists M, root; split; [exact HM|].
  split; [unfold merkleRoot; rewrite Ht; cbn [bind_result mbind option_bind]; by rewrite Hroot|].
  pose proof (search_result_solution P lanes q d HP boost input M HM t root target pow_limit r Htar Hlim Hres) as Hsol; destruct r as [[nonce a]|].
  - left; exists (MtpOutput root nonce a.(at_blocks) a.(at_proofs) a.(at_y)); destruct Hsol as (_ & S1 & S2 & S3); split; [exact S1|]; split; [exact S2|]; split; [exact S3|].
    intros fuel; cbn [mtp_hash]; bind_step H1; done.
  - right; split; [exact Hsol|]; clear H1.
    assert (Hnone : forall k, mtp_hash1 P boost fuel1 (pfs k) loc input target pow_limit = Some (root, None)).
    { intros k; destruct (Hone k) as (M' & t' & root' & r' & HM' & Ht' & Hroot' & Hres' & H1).
      rewrite <- (mtp_memory_unique P lanes q d input M M' HP HM HM') in *; rewrite Ht in Ht'; injection Ht' as <-; rewrite Hroot in Hroot'; injection Hroot' as <-.
      destruct r' as [[n a]|]; [|exact H1]; destruct Hres' as (Hn & Hs & _); destruct (Hres n a.(at_y) Hn Hs). }
    clear Hone Hpf; intros fuel; revert pfs Hnone; induction fuel as [|fuel IH]; intros pfs Hnone; [done|]; cbn [mtp_hash]; bind_step (Hnone 0%nat).
    apply IH; intros k; apply (Hnone (S k)).
Qed.

Lemma mtp_hash_returns_or_loops_witness : exists choices,
  (exists o, forall fuel, mtp_hash mtp_params le_word (S fuel) (Z.to_nat (2 ^ 32)) (fun _ => Platform demo_malloc true true choices) (demo_mlocals MTP_L)
     (replicate 80 1) 0x1d00ffff (replicate 32 255) = Some (Some o)) \/
  (forall fuel, mtp_hash mtp_params le_word fuel (Z.to_nat (2 ^ 32)) (fun _ => Platform demo_malloc true true choices) (demo_mlocals MTP_L)
     (replicate 80 1) 0x1d00ffff (replicate 32 255) = Some None).
Proof.
  destruct mtp_can_run as (choices & inst & H); exists choices.
  destruct (mtp_hash_returns_or_loops mtp_params 4 (2 ^ 18) 22 le_word (fun _ => Platform demo_malloc true true choices) (demo_mlocals MTP_L) (replicate 80 1) 0x1d00ffff
    (replicate 32 255) (Z.to_nat (2 ^ 32)) mtp_params_ok (demo_mlocals_ok MTP_L) ltac:(rewrite length_replicate; apply le_n) (le_n _) demo_target demo_pow_limit
    (fun k => conj demo_malloc_ok (ex_intro _ inst H))) as (M & root & _ & _ & [(o & _ & _ & _ & Ho)|[_ Hn]]).
  - left; exists o; exact Ho.
  - right; exact Hn.
Defined.

(** A memory that cannot be allocated is not noticed: step 1
    reports the error, the search ignores it and goes on with a NULL memory, for
    every header and target. *)
Theorem mtp_hash1_without_memory P lanes q d boost pf loc input target pow_limit fuel :
  params_ok P lanes q d -> pf.(pf_malloc) (P.(M_COST) * 1024) = None ->
  Argon2CtxMtp pf loc (mtp_context P loc input) (mtp_instance P loc) =
    Some (ARGON2_MEMORY_ALLOCATION_ERROR, set_memory (mtp_instance P loc) None) /\
  mtp_hash1 P boost fuel pf loc input target pow_limit = None.
Proof.
  intros HP Hm; pose proof (instance_ok P lanes q d HP loc) as Hok; rewrite (po_mcost _ _ _ _ HP) in Hm.
  assert (Hmb : (mtp_instance P loc).(memory_blocks) = Z.of_nat (lanes * (4 * q))) by apply (po_mcost _ _ _ _ HP).
  assert (Hctx : Argon2CtxMtp pf loc (mtp_context P loc input) (mtp_instance P loc) =
    Some (ARGON2_MEMORY_ALLOCATION_ERROR, set_memory (mtp_instance P loc) None)).
  { unfold Argon2CtxMtp; rewrite (context_valid P lanes q d loc input HP); change (negb (ARGON2_OK =? ARGON2_OK)) with false; cbv iota.
    bind_step (initialize_no_memory pf.(pf_malloc) loc.(ml_argon) (mtp_instance P loc) (mtp_context P loc input) lanes q Hok Hmb Hm); done. }
  split; [exact Hctx|]; unfold mtp_hash1; bind_step Hctx; done.
Qed.

Lemma mtp_hash1_without_memory_witness :
  mtp_hash1 mtp_params le_word 7 (Platform (fun _ => None) true true []) (demo_mlocals MTP_L) (replicate 80 1) 0x1d00ffff (replicate 32 255) = None.
Proof.
  exact (proj2 (mtp_hash1_without_memory mtp_params 4 (2 ^ 18) 22 le_word (Platform (fun _ => None) true true []) (demo_mlocals MTP_L) (replicate 80 1) 0x1d00ffff
    (replicate 32 255) 7 mtp_params_ok eq_refl)).
Defined.

(** ** Positions *)

(** The second copy of the index computation is the one of
    the filling, for every instance, position and word; and [GetBlockIndex] gives
    for a block that is not one of the first two of its lane the previous block
    and the block that the filling of Argon2d combined it with. *)
Theorem GetBlockIndex_correct inst lanes q M i : inst_ok inst lanes q -> inst.(memory) = Some M -> length M = (lanes * (4 * q))%nat ->
  (i < lanes * (4 * q))%nat -> (2 <= i mod (4 * q))%nat ->
  let l := (i / (4 * q))%nat in let j := (i mod (4 * q))%nat in
  (forall position w same, IndexBeta inst position w same = index_alpha inst position w same) /\
  GetBlockIndex (Z.of_nat i) inst = Some (Z.of_nat (i - 1), Z.of_nat (Argon2Spec.ref_cell lanes q 0 l j ((M !!! (i - 1)%nat) !!! 0%nat))).
Proof.
  intros Hok Hm Hl Hi Hj l j; split; [intros; apply IndexBeta_alpha|]; pose proof Hok as [Hs Hla Hln Hq Hp Hsz].
  assert (Hlt : (j < 4 * q)%nat) by (apply Nat.mod_upper_bound; lia); assert (Hll : (l < lanes)%nat) by (apply Nat.Div0.div_lt_upper_bound; lia).
  assert (E : i = Argon2Spec.cell q l j) by (unfold Argon2Spec.cell, Argon2Spec.lane_len, l, j; pose proof (Nat.div_mod i (4 * q) ltac:(lia)); lia).
  assert (Hprev : Argon2Spec.prev_cell q l j = (i - 1)%nat) by (rewrite (prev_cell_pos lanes q Hq Hp Hsz) by lia; rewrite E; unfold Argon2Spec.cell; lia).
  unfold GetBlockIndex; assert (Hpi : previous_index (Z.of_nat i) (Z.of_nat (4 * q)) = Z.of_nat (i - 1)) by (rewrite <- Hprev, E at 1; exact (previous_index_spec lanes q Hq Hp Hsz l j Hll Hlt)).
  rewrite Hla, Hpi, Nat2Z.id, Hln.
  bind_step Hm; bind_step (list_lookup_lookup_total_lt M (i - 1) ltac:(lia)); do 2 f_equal.
  pose proof (referenced_index_spec lanes q Hq Hp Hsz inst l j ((M !!! (i - 1)%nat) !!! 0%nat) Hs Hla Hll ltac:(lia)) as Hr; rewrite <- E in Hr; exact Hr.
Qed.

Lemma GetBlockIndex_correct_witness :
  exists r, GetBlockIndex 13 (set_memory (demo_instance 2 2 1 1) (Some (demo_memory 16))) = Some (12, Z.of_nat r).
Proof.
  eexists; refine (proj2 (GetBlockIndex_correct (set_memory (demo_instance 2 2 1 1) (Some (demo_memory 16))) 2 2 (demo_memory 16) 13
    (set_memory_ok _ _ _ _ (demo_instance_ok 2 2 1 1 ltac:(lia) ltac:(lia) ltac:(lia))) eq_refl (proj1 (demo_memory_ok 16)) ltac:(lia) _)).
  apply (Nat.leb_le 2 (13 mod 8)); reflexivity.
Defined.
