(* ===== verification/Block.v ===== *)
(** Block headers: primitives/block.h and block.cpp, and the part of
    MerkleTreeProof/mtp.cpp that works on headers.

    The parameters of the proof of work are those of [Mtp]; [nMTPSwitchTime] is
    the consensus parameter of that name.  A [shared_ptr] is an option: nothing
    here writes through a pointer that another header shares.  A failing [assert]
    is [None]. *)

From S2P Require Import Prelude Argon2 MerkleTree Uint256 Serialize Mtp.

(** ** The data of the proof *)

Record CMTPHashData := MTPHashData { hashRootMTP : list Z; nBlockMTP : list block; nProofMTP : list Elements }.

Definition SER_GETHASH : Z := 4.

Section Block.
Context (P : params).

(** The constructor; the root is not initialised. *)
Definition make_CMTPHashData (root : list Z) : CMTPHashData :=
  MTPHashData root (replicate (P.(L) * 2) (replicate 128 0)) (replicate (P.(L) * 3) []).

(** The bytes of [uint64_t nBlockMTP[MTP_L*2][128]] in memory; the machine is
    little-endian. *)
Definition block_bytes (b : block) : list Z := concat (map (le_bytes 8) b).
Definition blocks_of_bytes (mem : list Z) : list block :=
  map (fun i => map (fun j => le_word (read_at (i * 1024 + j * 8) 8 mem)) (seq 0 128)) (seq 0 (P.(L) * 2)).

Fixpoint write_hashes (s : CDataStream) (proof : Elements) : option CDataStream :=
  match proof with
  | [] => Some s
  | mtpData :: proof => if (length mtpData =? 16)%nat then write_hashes (write (take 16 mtpData) s) proof else None
  end.

Fixpoint write_proofs (s : CDataStream) (proofs : list Elements) : option CDataStream :=
  match proofs with
  | [] => Some s
  | proof :: proofs =>
    if (length proof <? 256)%nat then
      s ← write_hashes (ser_writedata8 s (u8 (Z.of_nat (length proof)))) proof; write_proofs s proofs
    else None
  end.

Definition Serialize_MTPHashData (s : CDataStream) (d : CMTPHashData) : option CDataStream :=
  let s := write d.(hashRootMTP) s in
  let s := write (concat (map block_bytes d.(nBlockMTP))) s in
  write_proofs s d.(nProofMTP).

(** [nProofMTP[i].emplace_back] adds to what is there. *)
Fixpoint read_proofs (proofs : list Elements) : reader (list Elements) :=
  match proofs with
  | [] => ret []
  | proof :: proofs =>
    numberOfProofBlocks <-- ser_readdata8 ;;
    proof <-- read_elements (read 16) (Z.to_nat numberOfProofBlocks) proof ;;
    proofs <-- read_proofs proofs ;;
    ret (proof :: proofs)
  end.

Definition Unserialize_MTPHashData (d : CMTPHashData) : reader CMTPHashData :=
  root <-- read 16 ;;
  blocks <-- read (P.(L) * 2 * 1024) ;;
  proofs <-- read_proofs d.(nProofMTP) ;;
  ret (MTPHashData root (blocks_of_bytes blocks) proofs).

(** ** Headers *)

Record CBlockHeader := BlockHeader {
  nVersion : Z; hashPrevBlock : list Z; hashMerkleRoot : list Z; nTime : Z; nBits : Z; nNonce : Z;
  nVersionMTP : Z; mtpHashValue : list Z; reserved0 : list Z; reserved1 : list Z;
  mtpHashData : option CMTPHashData; cachedPoWHash : list Z
}.

Definition GetZerocoinChainID : Z := 0x0001.
Definition BLOCK_VERSION_CHAIN_START : Z := Z.shiftl 1 16.
Definition CURRENT_VERSION : Z := 2.
Definition ZC_GENESIS_BLOCK_TIME : Z := 1414776286.

Definition uint256_null : list Z := replicate 32 0.

(** [SetNull()] keeps [nVersionMTP]. *)
Definition SetNull_header (h : CBlockHeader) : CBlockHeader :=
  BlockHeader (Z.lor CURRENT_VERSION (GetZerocoinChainID * BLOCK_VERSION_CHAIN_START)) uint256_null uint256_null 0 0 0
    h.(nVersionMTP) uint256_null uint256_null uint256_null None uint256_null.

(** The constructor; 0x1000 is the initial value of [nVersionMTP]. *)
Definition make_CBlockHeader : CBlockHeader := SetNull_header (BlockHeader 0 [] [] 0 0 0 0x1000 [] [] [] None []).

Definition GetChainID (h : CBlockHeader) : Z := Z.quot h.(nVersion) BLOCK_VERSION_CHAIN_START.
Definition IsNull_header (h : CBlockHeader) : bool := h.(nBits) =? 0.
Definition GetBlockTime (h : CBlockHeader) : Z := h.(nTime).

Context (nMTPSwitchTime : Z).

Definition IsMTP (h : CBlockHeader) : bool := (ZC_GENESIS_BLOCK_TIME <? h.(nTime)) && (nMTPSwitchTime <=? h.(nTime)).

(** The six fields that come first in every form. *)
Definition write_fields (s : CDataStream) (h : CBlockHeader) : CDataStream :=
  let s := ser_writedata32 s h.(nVersion) in
  let s := write h.(hashPrevBlock) s in
  let s := write h.(hashMerkleRoot) s in
  let s := ser_writedata32 s h.(nTime) in
  let s := ser_writedata32 s h.(nBits) in
  ser_writedata32 s h.(nNonce).

Definition write_mtp_fields (s : CDataStream) (h : CBlockHeader) : CDataStream :=
  let s := ser_writedata32 s h.(nVersionMTP) in
  let s := write h.(mtpHashValue) s in
  let s := write h.(reserved0) s in
  write h.(reserved1) s.

(** [SerializationOp] with [CSerActionSerialize]; [nType] is the type of the
    stream. *)
Definition Serialize_header (nType : Z) (s : CDataStream) (h : CBlockHeader) : option CDataStream :=
  let s := write_fields s h in
  if IsMTP h then
    let s := write_mtp_fields s h in
    match h.(mtpHashData) with
    | Some d => if Z.land nType SER_GETHASH =? 0 then Serialize_MTPHashData s d else Some s
    | None => Some s
    end
  else Some s.

Definition read_fields (h : CBlockHeader) : reader CBlockHeader :=
  nVersion <-- ser_readdata32 ;;
  hashPrevBlock <-- read 32 ;;
  hashMerkleRoot <-- read 32 ;;
  nTime <-- ser_readdata32 ;;
  nBits <-- ser_readdata32 ;;
  nNonce <-- ser_readdata32 ;;
  ret (BlockHeader (s32 nVersion) hashPrevBlock hashMerkleRoot nTime nBits nNonce
    h.(nVersionMTP) h.(mtpHashValue) h.(reserved0) h.(reserved1) h.(mtpHashData) h.(cachedPoWHash)).

Definition read_mtp_fields (h : CBlockHeader) : reader CBlockHeader :=
  nVersionMTP <-- ser_readdata32 ;;
  mtpHashValue <-- read 32 ;;
  reserved0 <-- read 32 ;;
  reserved1 <-- read 32 ;;
  ret (BlockHeader h.(nVersion) h.(hashPrevBlock) h.(hashMerkleRoot) h.(nTime) h.(nBits) h.(nNonce)
    (s32 nVersionMTP) mtpHashValue reserved0 reserved1 h.(mtpHashData) h.(cachedPoWHash)).

Definition set_mtpHashData (h : CBlockHeader) (d : option CMTPHashData) : CBlockHeader :=
  BlockHeader h.(nVersion) h.(hashPrevBlock) h.(hashMerkleRoot) h.(nTime) h.(nBits) h.(nNonce)
    h.(nVersionMTP) h.(mtpHashValue) h.(reserved0) h.(reserved1) d h.(cachedPoWHash).

(** [SerializationOp] with [CSerActionUnserialize]; [root] is what the new
    object finds in its memory. *)
Definition Unserialize_header (root : list Z) (h : CBlockHeader) : reader CBlockHeader :=
  h <-- read_fields h ;;
  if IsMTP h then
    h <-- read_mtp_fields h ;;
    d <-- Unserialize_MTPHashData (make_CMTPHashData root) ;;
    ret (set_mtpHashData h (Some d))
  else ret h.

(** [SerializationOp] with [CReadBlockHeader]. *)
Definition Read_header (h : CBlockHeader) : reader CBlockHeader :=
  h <-- read_fields h ;;
  if IsMTP h then read_mtp_fields h else ret h.

(** [CBlock::GetBlockHeader()] *)
Definition GetBlockHeader (b : CBlockHeader) : CBlockHeader :=
  let h := make_CBlockHeader in
  let h := BlockHeader b.(nVersion) b.(hashPrevBlock) b.(hashMerkleRoot) b.(nTime) b.(nBits) b.(nNonce)
    h.(nVersionMTP) h.(mtpHashValue) h.(reserved0) h.(reserved1) h.(mtpHashData) h.(cachedPoWHash) in
  if IsMTP h then
    BlockHeader h.(nVersion) h.(hashPrevBlock) h.(hashMerkleRoot) h.(nTime) h.(nBits) h.(nNonce)
      b.(nVersionMTP) h.(mtpHashValue) b.(reserved0) b.(reserved1) b.(mtpHashData) h.(cachedPoWHash)
  else h.

(** ** Hashing and verifying a header: mtp.cpp *)

Definition serializeMtpHeader (stream : CDataStream) (header : CBlockHeader) : CDataStream :=
  let stream := ser_writedata32 stream header.(nVersion) in
  let stream := write header.(hashPrevBlock) stream in
  let stream := write header.(hashMerkleRoot) stream in
  let stream := ser_writedata32 stream header.(nTime) in
  let stream := ser_writedata32 stream header.(nBits) in
  ser_writedata32 stream header.(nVersionMTP).

Context (boost_uint256 : list Z -> Z).

(** [mtp::hash]; a new [CMTPHashData] is overwritten as a whole. *)
Definition hash_header (fuel fuel1 : nat) (pfs : nat -> platform) (loc : mtp_locals) (blockHeader : CBlockHeader) (powLimit : list Z)
  : option (list Z * CBlockHeader) :=
  let ss := serializeMtpHeader (DataStream [] 0) blockHeader in
  r ← mtp_hash P boost_uint256 fuel fuel1 pfs loc ss.(vch) blockHeader.(nBits) powLimit;
  o ← r;
  Some (o.(o_hash),
    BlockHeader blockHeader.(nVersion) blockHeader.(hashPrevBlock) blockHeader.(hashMerkleRoot) blockHeader.(nTime) blockHeader.(nBits) o.(o_nonce)
      blockHeader.(nVersionMTP) blockHeader.(mtpHashValue) blockHeader.(reserved0) blockHeader.(reserved1)
      (Some (MTPHashData o.(o_root) o.(o_blocks) o.(o_proofs))) blockHeader.(cachedPoWHash)).

(** [mtp::verify]; without data the pointer is NULL. *)
Definition verify_header (loc : mtp_locals) (nonce : Z) (blockHeader : CBlockHeader) (powLimit : list Z) (mtpHashValue : option (list Z))
  : option (bool * option (list Z)) :=
  let ss := serializeMtpHeader (DataStream [] 0) blockHeader in
  d ← blockHeader.(mtpHashData);
  mtp_verify P boost_uint256 loc ss.(vch) blockHeader.(nBits) d.(hashRootMTP) nonce d.(nBlockMTP) d.(nProofMTP) powLimit mtpHashValue.

End Block.
