(* ===== verification/BlockProofs.v ===== *)
(** The formats of headers and of the data of the proof. *)

From S2P Require Import Prelude Argon2 MerkleTree Serialize SerializeProofs Mtp Block.

(** ** Blocks *)

Definition block_wf (b : block) : Prop := length b = 128%nat /\ words 64 b.

Lemma length_block_bytes b : length b = 128%nat -> length (block_bytes b) = 1024%nat.
Proof.
  intros Hb; unfold block_bytes; rewrite (length_concat_uniform 8), length_map, Hb; [done|].
  apply List.Forall_forall; intros x Hx; apply in_map_iff in Hx as (y & <- & _); apply length_le_bytes.
Qed.

Lemma blocks_of_bytes_spec P mem : blocks_of_bytes P mem = map (fun c => map le_word (chunks 8 128 c)) (chunks 1024 (P.(L) * 2) mem).
Proof.
  unfold blocks_of_bytes, chunks; rewrite map_map; apply map_ext; intros i; rewrite map_map; apply map_ext_in; intros j Hj; apply in_seq in Hj; f_equal.
  unfold read_at; rewrite skipn_firstn_comm, take_take, drop_drop, Nat.min_l by lia; done.
Qed.

Lemma block_bytes_back c : length c = 1024%nat -> words 8 c ->
  block_wf (map le_word (chunks 8 128 c)) /\ block_bytes (map le_word (chunks 8 128 c)) = c.
Proof.
  intros Hl Hw; destruct (chunks_length 8 128 c Hl) as [Hn Hc]; pose proof (chunks_bytes 8 128 c Hw) as Hcw; unfold block_wf, block_bytes; rewrite length_map, map_map.
  split; [split; [done|]|].
  - apply List.Forall_forall; intros x Hx; apply in_map_iff in Hx as (y & <- & Hy); rewrite List.Forall_forall in Hc, Hcw.
    pose proof (le_word_word y (Hcw y Hy)) as H; by rewrite (Hc y Hy) in H.
  - etransitivity; [|exact (concat_chunks 8 128 c Hl)]; f_equal; rewrite <- (map_id (chunks 8 128 c)) at 2; apply map_ext_in; intros y Hy.
    rewrite List.Forall_forall in Hc, Hcw; rewrite <- (Hc y Hy) at 1; by apply le_bytes_le_word, Hcw.
Qed.

Lemma block_of_block_bytes b : block_wf b -> map le_word (chunks 8 128 (block_bytes b)) = b.
Proof.
  intros [Hl Hw]; unfold block_bytes; rewrite <- Hl, <- (length_map (le_bytes 8)), chunks_concat, map_map.
  - rewrite <- (map_id b) at 2; apply map_ext_in; intros x Hx; unfold words in Hw; rewrite List.Forall_forall in Hw; by apply (le_word_le_bytes 8), Hw.
  - apply List.Forall_forall; intros y Hy; apply in_map_iff in Hy as (x & <- & _); apply length_le_bytes.
Qed.

Lemma blocks_back P B : length B = (P.(L) * 2)%nat -> Forall block_wf B -> blocks_of_bytes P (concat (map block_bytes B)) = B.
Proof.
  intros Hl HB; rewrite blocks_of_bytes_spec, <- Hl, <- (length_map block_bytes), chunks_concat, map_map.
  - rewrite <- (map_id B) at 2; apply map_ext_in; intros b Hb; rewrite List.Forall_forall in HB; by apply block_of_block_bytes, HB.
  - apply List.Forall_forall; intros y Hy; apply in_map_iff in Hy as (b & <- & Hb); rewrite List.Forall_forall in HB; by apply length_block_bytes, HB.
Qed.

Lemma bytes_back P mem : length mem = (P.(L) * 2 * 1024)%nat -> words 8 mem ->
  length (blocks_of_bytes P mem) = (P.(L) * 2)%nat /\ Forall block_wf (blocks_of_bytes P mem) /\ concat (map block_bytes (blocks_of_bytes P mem)) = mem.
Proof.
  intros Hl Hw; destruct (chunks_length 1024 (P.(L) * 2) mem Hl) as [Hn Hc]; pose proof (chunks_bytes 1024 (P.(L) * 2) mem Hw) as Hcw.
  rewrite blocks_of_bytes_spec, length_map, map_map; split; [done|]; rewrite List.Forall_forall in Hc, Hcw; split.
  - apply List.Forall_forall; intros x Hx; apply in_map_iff in Hx as (y & <- & Hy); apply block_bytes_back; auto.
  - etransitivity; [|exact (concat_chunks 1024 (P.(L) * 2) mem Hl)]; f_equal; rewrite <- (map_id (chunks 1024 _ mem)) at 2; apply map_ext_in; intros y Hy.
    apply block_bytes_back; auto.
Qed.

(** ** Byte strings of a fixed length *)

Lemma reads_blob n l : Z.of_nat n < 2 ^ 31 -> blob n l -> reads (read n) l l.
Proof. intros Hn [Hl _]; by apply reads_read. Qed.

Lemma parses_blob n : Z.of_nat n < 2 ^ 31 -> parses (read n) (fun x e => blob n x /\ e = x).
Proof. intros Hn; apply (parses_weaken _ _ _ (parses_read n Hn)); by intros a e (-> & Hl & Hw). Qed.

Definition format_blob (n : nat) (Hn : Z.of_nat n < 2 ^ 31) : Format (read n) :=
  {| encodable := blob n; encode l := l; decode_encode l := reads_blob n l Hn; encode_decode := parses_blob n Hn |}.
#[export] Instance format_blob16 : Format (read 16) := format_blob 16 eq_refl.
#[export] Instance format_blob32 : Format (read 32) := format_blob 32 eq_refl.

(** ** Openings *)

Definition proof_wf (p : Elements) : Prop := (length p < 256)%nat /\ Forall (blob 16) p.
Definition proof_bytes (p : Elements) : list Z := le_bytes 1 (Z.of_nat (length p)) ++ concat p.

Lemma write_hashes_spec s p : Forall (blob 16) p -> write_hashes s p = Some (write (concat p) s).
Proof.
  intros Hp; revert s; induction Hp as [|d p [Hl _] _ IH]; intros s; cbn [write_hashes concat]; [by rewrite write_nil|].
  rewrite Hl; cbn [Nat.eqb]; by rewrite IH, take_ge, write_app by lia.
Qed.

Lemma write_proofs_spec s ps : Forall proof_wf ps -> write_proofs s ps = Some (write (concat (map proof_bytes ps)) s).
Proof.
  intros Hp; revert s; induction Hp as [|p ps [Hl Hp] _ IH]; intros s; cbn [write_proofs map concat]; [by rewrite write_nil|].
  rewrite (proj2 (Nat.ltb_lt _ _) Hl), write_hashes_spec by done; cbn [mbind option_bind]; rewrite IH; unfold ser_writedata8, proof_bytes, u8.
  rewrite wrap_id by (unfold word; lia); by rewrite !write_app, <- ?app_assoc.
Qed.

Lemma reads_proofs ps : Forall proof_wf ps -> reads (read_proofs (replicate (length ps) [])) (concat (map proof_bytes ps)) ps.
Proof.
  induction 1 as [|p ps [Hl Hp] _ IH]; cbn [length replicate read_proofs map concat]; [apply reads_ret|].
  unfold proof_bytes at 1; rewrite <- app_assoc; apply (reads_bind _ _ _ _ (Z.of_nat (length p))); [apply (reads_le 1); [unfold word; lia|done]|]; rewrite Nat2Z.id.
  apply (reads_bind _ _ _ _ p).
  - eapply reads_ext; [|apply (reads_elements (read 16) p []); exact Hp]; change (encode (read 16)) with (fun l : list Z => l); by rewrite map_id.
  - apply (reads_bind_ret _ (cons p)), IH.
Qed.

Lemma parses_proofs n : parses (read_proofs (replicate n [])) (fun ps e => length ps = n /\ Forall proof_wf ps /\ e = concat (map proof_bytes ps)).
Proof.
  induction n as [|n IH]; cbn [replicate read_proofs]; [apply parses_done; by split|].
  apply (parses_bind _ _ _ _ (encode_decode ser_readdata8)); intros k e [Hk ->]; cbn in Hk; unfold word in Hk.
  apply (parses_bind _ _ _ _ (parses_elements (read 16) (Z.to_nat k) [])); intros p e (p' & -> & Hl & Hp & ->); cbn [app].
  apply (parses_bind _ _ _ _ IH); intros ps e (Hn & Hps & ->); apply parses_done; split; [by cbn; rewrite Hn|]; split.
  - constructor; [|done]; split; [lia|exact Hp].
  - cbn [map concat]; unfold proof_bytes at 2; change (encode (read 16)) with (fun l : list Z => l); change (encode ser_readdata8) with (le_bytes 1).
    rewrite map_id, app_nil_r, Hl, Z2Nat.id by lia; by rewrite !app_assoc.
Qed.

(** ** The data of the proof *)

Section Formats.
Context (P : params) (HL : Z.of_nat P.(L) < 2 ^ 19).

Record data_wf (d : CMTPHashData) : Prop := DataWf {
  dw_root : blob 16 d.(hashRootMTP);
  dw_blocks : length d.(nBlockMTP) = (P.(L) * 2)%nat /\ Forall block_wf d.(nBlockMTP);
  dw_proofs : length d.(nProofMTP) = (P.(L) * 3)%nat /\ Forall proof_wf d.(nProofMTP)
}.

Definition data_bytes (d : CMTPHashData) : list Z :=
  d.(hashRootMTP) ++ concat (map block_bytes d.(nBlockMTP)) ++ concat (map proof_bytes d.(nProofMTP)).

Lemma Serialize_MTPHashData_spec s d : Forall proof_wf d.(nProofMTP) -> Serialize_MTPHashData s d = Some (write (data_bytes d) s).
Proof. intros Hp; unfold Serialize_MTPHashData; rewrite write_proofs_spec by done; unfold data_bytes; by rewrite !write_app, <- ?app_assoc. Qed.

Lemma length_blocks_bytes B : Forall block_wf B -> length (concat (map block_bytes B)) = (length B * 1024)%nat.
Proof.
  intros HB; rewrite (length_concat_uniform 1024), length_map; [done|]; apply List.Forall_forall; intros x Hx; apply in_map_iff in Hx as (b & <- & Hb).
  rewrite List.Forall_forall in HB; by apply length_block_bytes, HB.
Qed.

Lemma reads_data root d : data_wf d -> reads (Unserialize_MTPHashData P (make_CMTPHashData P root)) (data_bytes d) d.
Proof.
  intros [Hr [Hb HB] [Hq HQ]]; apply (reads_bind _ _ _ _ d.(hashRootMTP)); [exact (decode_encode (read 16) _ Hr)|].
  apply (reads_bind _ _ _ _ (concat (map block_bytes d.(nBlockMTP)))); [apply reads_read; [rewrite length_blocks_bytes, Hb by done; done|lia]|].
  destruct d as [r B Q]; cbn [hashRootMTP nBlockMTP nProofMTP] in *.
  pose proof (reads_bind_ret (read_proofs (replicate (length Q) [])) (MTPHashData r (blocks_of_bytes P (concat (map block_bytes B)))) _ _ (reads_proofs Q HQ)) as H.
  rewrite Hq, blocks_back in H by done; rewrite blocks_back by done; exact H.
Qed.

Lemma parses_data root : parses (Unserialize_MTPHashData P (make_CMTPHashData P root)) (fun d e => data_wf d /\ e = data_bytes d).
Proof.
  apply (parses_bind _ _ _ _ (encode_decode (read 16))); intros r e [Hr ->]; change (encode (read 16) r) with r.
  apply (parses_bind _ _ _ _ (parses_blob (P.(L) * 2 * 1024) ltac:(lia))); intros mem e [[Hl Hw] ->].
  destruct (bytes_back P mem Hl Hw) as (Hn & HB & E); apply (parses_bind _ _ _ _ (parses_proofs (P.(L) * 3))); intros Q e (Hq & HQ & ->); apply parses_done; split.
  - split; [exact Hr|by split|by split].
  - unfold data_bytes; cbn [hashRootMTP nBlockMTP nProofMTP]; by rewrite E, app_nil_r.
Qed.

End Formats.

(** ** Fields *)

Definition int32 (x : Z) : Prop := - 2 ^ 31 <= x < 2 ^ 31.

Lemma s32_int32 x : int32 (s32 x).
Proof. pose proof (u32_word x); unfold word, int32, s32 in *; destruct (Z.ltb_spec (u32 x) (2 ^ 31)); lia. Qed.

Lemma s32_u32 x : int32 x -> s32 (u32 x) = x.
Proof.
  unfold int32, s32, u32, wrap; intros Hx; rewrite Zmod_mod; destruct (Z.lt_ge_cases x 0) as [H|H].
  - rewrite <- (Z.mod_unique_pos x (2 ^ 32) (-1) (x + 2 ^ 32)) by lia; rewrite (proj2 (Z.ltb_ge _ _)) by lia; lia.
  - rewrite Z.mod_small, (proj2 (Z.ltb_lt _ _)) by lia; done.
Qed.

Lemma u32_s32 x : word 32 x -> u32 (s32 x) = x.
Proof.
  unfold word, s32; intros Hx; rewrite (u32_id x) by done; destruct (Z.ltb_spec x (2 ^ 31)); [by apply u32_id|].
  unfold u32, wrap; symmetry; apply (Z.mod_unique_pos _ _ (-1)); lia.
Qed.

Lemma le_bytes_u32 x : le_bytes 4 (u32 x) = le_bytes 4 x.
Proof. apply (le_bytes_wrap 4). Qed.

Record fields_wf (h : CBlockHeader) : Prop := FieldsWf {
  fw_version : int32 h.(nVersion);
  fw_prev : blob 32 h.(hashPrevBlock);
  fw_merkle : blob 32 h.(hashMerkleRoot);
  fw_time : word 32 h.(nTime);
  fw_bits : word 32 h.(nBits);
  fw_nonce : word 32 h.(nNonce)
}.

Record mtp_fields_wf (h : CBlockHeader) : Prop := MtpFieldsWf {
  mw_version : int32 h.(nVersionMTP);
  mw_hash : blob 32 h.(mtpHashValue);
  mw_reserved0 : blob 32 h.(reserved0);
  mw_reserved1 : blob 32 h.(reserved1)
}.

Definition fields_bytes (h : CBlockHeader) : list Z :=
  le_bytes 4 h.(nVersion) ++ h.(hashPrevBlock) ++ h.(hashMerkleRoot) ++ le_bytes 4 h.(nTime) ++ le_bytes 4 h.(nBits) ++ le_bytes 4 h.(nNonce).

Definition mtp_fields_bytes (h : CBlockHeader) : list Z := le_bytes 4 h.(nVersionMTP) ++ h.(mtpHashValue) ++ h.(reserved0) ++ h.(reserved1).

Lemma write_fields_spec s h : write_fields s h = write (fields_bytes h) s.
Proof. unfold write_fields, ser_writedata32, fields_bytes; by rewrite !write_app, <- ?app_assoc. Qed.

Lemma write_mtp_fields_spec s h : write_mtp_fields s h = write (mtp_fields_bytes h) s.
Proof. unfold write_mtp_fields, ser_writedata32, mtp_fields_bytes; by rewrite !write_app, <- ?app_assoc. Qed.

(** The object [h] with the fields that come first read from [h']. *)
Definition with_fields (h' h : CBlockHeader) : CBlockHeader :=
  BlockHeader h'.(nVersion) h'.(hashPrevBlock) h'.(hashMerkleRoot) h'.(nTime) h'.(nBits) h'.(nNonce)
    h.(nVersionMTP) h.(mtpHashValue) h.(reserved0) h.(reserved1) h.(mtpHashData) h.(cachedPoWHash).
Definition with_mtp_fields (h' h : CBlockHeader) : CBlockHeader :=
  BlockHeader h.(nVersion) h.(hashPrevBlock) h.(hashMerkleRoot) h.(nTime) h.(nBits) h.(nNonce)
    h'.(nVersionMTP) h'.(mtpHashValue) h'.(reserved0) h'.(reserved1) h.(mtpHashData) h.(cachedPoWHash).

(** A reader of a field, with its encoding, followed by the rest. *)
Lemma reads_int32 x : int32 x -> reads ser_readdata32 (le_bytes 4 x) (u32 x).
Proof. intros Hx; eapply reads_ext; [apply le_bytes_u32|]; apply (reads_le 4); [apply u32_word|done]. Qed.

Lemma reads_fields h' h : fields_wf h' -> reads (read_fields h) (fields_bytes h') (with_fields h' h).
Proof.
  intros [Hv Hp Hm Ht Hb Hn]; unfold fields_bytes; apply (reads_bind _ _ _ _ _ _ (reads_int32 _ Hv)).
  apply (reads_bind _ _ _ _ _ _ (reads_blob 32 _ eq_refl Hp)), (reads_bind _ _ _ _ _ _ (reads_blob 32 _ eq_refl Hm)).
  apply (reads_bind _ _ _ _ _ _ (reads_le 4 _ Ht eq_refl)), (reads_bind _ _ _ _ _ _ (reads_le 4 _ Hb eq_refl)).
  rewrite <- (app_nil_r (le_bytes 4 h'.(nNonce))); apply (reads_bind _ _ _ _ _ _ (reads_le 4 _ Hn eq_refl)); rewrite s32_u32 by done; apply reads_ret.
Qed.

Lemma reads_mtp_fields h' h : mtp_fields_wf h' -> reads (read_mtp_fields h) (mtp_fields_bytes h') (with_mtp_fields h' h).
Proof.
  intros [Hv Hp Hr0 Hr1]; unfold mtp_fields_bytes; apply (reads_bind _ _ _ _ _ _ (reads_int32 _ Hv)).
  apply (reads_bind _ _ _ _ _ _ (reads_blob 32 _ eq_refl Hp)), (reads_bind _ _ _ _ _ _ (reads_blob 32 _ eq_refl Hr0)).
  rewrite <- (app_nil_r h'.(reserved1)); apply (reads_bind _ _ _ _ _ _ (reads_blob 32 _ eq_refl Hr1)); rewrite s32_u32 by done; apply reads_ret.
Qed.

Lemma parses_fields h : parses (read_fields h) (fun h' e => fields_wf h' /\ h' = with_fields h' h /\ e = fields_bytes h').
Proof.
  apply (parses_bind _ _ _ _ (encode_decode ser_readdata32)); intros v e [Hv ->]; apply (parses_bind _ _ _ _ (encode_decode (read 32))); intros p e [Hp ->].
  apply (parses_bind _ _ _ _ (encode_decode (read 32))); intros m e [Hm ->]; apply (parses_bind _ _ _ _ (encode_decode ser_readdata32)); intros t e [Ht ->].
  apply (parses_bind _ _ _ _ (encode_decode ser_readdata32)); intros b e [Hb ->]; apply (parses_bind _ _ _ _ (encode_decode ser_readdata32)); intros n e [Hn ->].
  apply parses_done; split; [split; (done || apply s32_int32)|]; split; [done|]; unfold fields_bytes.
  cbn [nVersion hashPrevBlock hashMerkleRoot nTime nBits nNonce encode format_u32 format_blob32 format_blob]; by rewrite <- (le_bytes_u32 (s32 v)), u32_s32, app_nil_r by done.
Qed.

Lemma parses_mtp_fields h : parses (read_mtp_fields h) (fun h' e => mtp_fields_wf h' /\ h' = with_mtp_fields h' h /\ e = mtp_fields_bytes h').
Proof.
  apply (parses_bind _ _ _ _ (encode_decode ser_readdata32)); intros v e [Hv ->]; apply (parses_bind _ _ _ _ (encode_decode (read 32))); intros p e [Hp ->].
  apply (parses_bind _ _ _ _ (encode_decode (read 32))); intros r0 e [Hr0 ->]; apply (parses_bind _ _ _ _ (encode_decode (read 32))); intros r1 e [Hr1 ->].
  apply parses_done; split; [split; (done || apply s32_int32)|]; split; [done|]; unfold mtp_fields_bytes.
  cbn [nVersionMTP mtpHashValue reserved0 reserved1 encode format_u32 format_blob32 format_blob]; by rewrite <- (le_bytes_u32 (s32 v)), u32_s32, app_nil_r by done.
Qed.

Lemma isMTP_time switch h h' : h.(nTime) = h'.(nTime) -> IsMTP switch h = IsMTP switch h'.
Proof. unfold IsMTP; by intros ->. Qed.

(** ** Headers *)

Section Headers.
Context (P : params) (HL : Z.of_nat P.(L) < 2 ^ 19) (nMTPSwitchTime : Z).
Abbreviation isMTP := (IsMTP nMTPSwitchTime).

(** A header as it is on the network: what is not sent is as in a new object. *)
Definition header_wf (h : CBlockHeader) : Prop :=
  fields_wf h /\ h.(cachedPoWHash) = uint256_null /\
  (if isMTP h then mtp_fields_wf h /\ exists d, h.(mtpHashData) = Some d /\ data_wf P d else h = with_fields h make_CBlockHeader).

Definition header_bytes (h : CBlockHeader) : list Z :=
  fields_bytes h ++ (if isMTP h then mtp_fields_bytes h ++ match h.(mtpHashData) with Some d => data_bytes d | None => [] end else []).

Lemma Serialize_header_spec s h : header_wf h -> Serialize_header nMTPSwitchTime 1 s h = Some (write (header_bytes h) s).
Proof.
  intros (_ & _ & Hm); unfold Serialize_header, header_bytes; rewrite write_fields_spec; destruct (isMTP h); [|by rewrite app_nil_r].
  destruct Hm as (_ & d & -> & [_ _ [_ Hp]]); rewrite write_mtp_fields_spec; change (Z.land 1 SER_GETHASH =? 0) with true; cbv iota.
  by rewrite Serialize_MTPHashData_spec, !write_app, <- ?app_assoc by done.
Qed.

Lemma reads_header root h : header_wf h -> reads (Unserialize_header P nMTPSwitchTime root make_CBlockHeader) (header_bytes h) h.
Proof.
  intros (Hf & Hc & Hm); apply (reads_bind _ _ _ _ _ _ (reads_fields h make_CBlockHeader Hf)).
  rewrite (isMTP_time _ (with_fields h make_CBlockHeader) h) by done; destruct (isMTP h); [|rewrite <- Hm; apply reads_ret].
  destruct Hm as (Hmf & d & Hd & Hw); rewrite Hd; apply (reads_bind _ _ _ _ _ _ (reads_mtp_fields h _ Hmf)).
  pose proof (reads_bind_ret _ (fun d => set_mtpHashData (with_mtp_fields h (with_fields h make_CBlockHeader)) (Some d)) _ _ (reads_data P HL root d Hw)) as H; cbv beta in H.
  assert (E : set_mtpHashData (with_mtp_fields h (with_fields h make_CBlockHeader)) (Some d) = h) by (rewrite <- Hd; destruct h; cbn in *; by rewrite Hc).
  rewrite E in H; exact H.
Qed.

Lemma parses_header root : parses (Unserialize_header P nMTPSwitchTime root make_CBlockHeader) (fun h e => header_wf h /\ e = header_bytes h).
Proof.
  apply (parses_bind _ _ _ _ (parses_fields make_CBlockHeader)); intros h e (Hf & Eh & ->); destruct (isMTP h) eqn:Em.
  - apply (parses_bind _ _ _ _ (parses_mtp_fields h)); intros h' e (Hf' & Eh' & ->); apply (parses_bind _ _ _ _ (parses_data P HL root)); intros d e [Hd ->]; apply parses_done.
    assert (Em' : isMTP (set_mtpHashData h' (Some d)) = true) by (rewrite Eh'; exact Em); unfold header_wf, header_bytes; rewrite Em', app_nil_r; split; [split; [|split]|].
    + rewrite Eh'; destruct Hf; by split.
    + rewrite Eh', Eh; done.
    + split; [destruct Hf'; by split|]; by exists d.
    + cbn [set_mtpHashData mtpHashData]; rewrite Eh' at 2; done.
  - apply parses_done; unfold header_wf, header_bytes; rewrite Em, !app_nil_r; split; [|done]; split; [done|]; split; [rewrite Eh; done|exact Eh].
Qed.

#[export] Instance format_header root : Format (Unserialize_header P nMTPSwitchTime root make_CBlockHeader) :=
  {| encode := header_bytes; decode_encode := reads_header root; encode_decode := parses_header root |}.
End Headers.
