(* ===== verification/BlockClaims.v ===== *)
(** The theorems about headers. *)

From S2P Require Import Prelude Argon2 MerkleTree Serialize SerializeProofs Mtp Block BlockProofs.

(** ** On the network *)


Definition demo_header (time : Z) (d : option CMTPHashData) : CBlockHeader :=
  BlockHeader (-3) (replicate 32 1) (replicate 32 2) time 0x1d00ffff 7 0x1000 (replicate 32 0) (replicate 32 0) (replicate 32 0) d uint256_null.

Definition demo_data : CMTPHashData := MTPHashData (replicate 16 9) (replicate 128 (replicate 128 5)) (replicate 192 (replicate 22 (replicate 16 6))).

Lemma blob_replicate n x : word 8 x -> blob n (replicate n x).
Proof. intros Hx; split; [apply length_replicate|by apply Forall_replicate]. Qed.

Lemma demo_fields_wf time d : word 32 time -> fields_wf (demo_header time d) /\ mtp_fields_wf (demo_header time d).
Proof.
  intros Ht; split; split; unfold demo_header; cbn [nVersion hashPrevBlock hashMerkleRoot nTime nBits nNonce nVersionMTP mtpHashValue reserved0 reserved1]; first [exact Ht|apply blob_replicate; unfold word; lia|unfold int32, word; lia].
Qed.




(** ** What is hashed *)

(** The bytes that identify a header. *)
Definition hashed_bytes (switch : Z) (h : CBlockHeader) : list Z := fields_bytes h ++ (if IsMTP switch h then mtp_fields_bytes h else []).

Lemma Serialize_hash_spec switch s h : Serialize_header switch SER_GETHASH s h = Some (write (hashed_bytes switch h) s).
Proof.
  unfold Serialize_header, hashed_bytes; rewrite write_fields_spec; destruct (IsMTP switch h); [|by rewrite app_nil_r].
  rewrite write_mtp_fields_spec, write_app; by destruct h.(mtpHashData).
Qed.

Lemma Read_header_spec switch h h0 : fields_wf h -> mtp_fields_wf h ->
  reads (Read_header switch h0) (hashed_bytes switch h) (if IsMTP switch h then with_mtp_fields h (with_fields h h0) else with_fields h h0).
Proof.
  intros Hf Hm; apply (reads_bind _ _ _ _ _ _ (reads_fields h h0 Hf)); rewrite (isMTP_time switch (with_fields h h0) h) by done.
  destruct (IsMTP switch h); [by apply reads_mtp_fields|apply reads_ret].
Qed.

Lemma fields_bytes_words h : fields_wf h -> words 8 (fields_bytes h) /\ length (fields_bytes h) = 80%nat.
Proof.
  intros [_ [Hp Wp] [Hm Wm] _ _ _]; unfold fields_bytes; split; [repeat (apply Forall_app; split; [first [apply le_bytes_words|done]|]); apply le_bytes_words|].
  rewrite !length_app, !length_le_bytes; lia.
Qed.

Lemma mtp_fields_bytes_words h : mtp_fields_wf h -> words 8 (mtp_fields_bytes h) /\ length (mtp_fields_bytes h) = 100%nat.
Proof.
  intros [_ [Hp Wp] [H0 W0] [H1 W1]]; unfold mtp_fields_bytes; split; [repeat (apply Forall_app; split; [first [apply le_bytes_words|done]|]); done|].
  rewrite !length_app, !length_le_bytes; lia.
Qed.

Lemma hashed_bytes_ok switch h : fields_wf h -> mtp_fields_wf h -> stream_ok (of_bytes (hashed_bytes switch h)) /\ unread (of_bytes (hashed_bytes switch h)) = hashed_bytes switch h.
Proof.
  intros Hf Hm; destruct (fields_bytes_words h Hf) as [W1 L1], (mtp_fields_bytes_words h Hm) as [W2 L2]; apply of_bytes_ok; unfold hashed_bytes.
  - apply Forall_app; split; [done|]; destruct (IsMTP switch h); [done|constructor].
  - rewrite length_app, L1; destruct (IsMTP switch h); [rewrite L2|]; cbn [length]; lia.
Qed.

(** The bytes that are hashed to identify a header, 180 with the
    Merkle tree proof and 80 without, leave out the data of the proof and
    determine everything else that is sent: two headers with the same bytes have
    the same fields. *)
Theorem hashed_header_binding switch h h' : fields_wf h -> mtp_fields_wf h -> fields_wf h' -> mtp_fields_wf h' ->
  Serialize_header switch SER_GETHASH (DataStream [] 0) h = Some (of_bytes (hashed_bytes switch h)) /\
  (forall d, hashed_bytes switch (set_mtpHashData h d) = hashed_bytes switch h) /\
  length (hashed_bytes switch h) = (if IsMTP switch h then 180 else 80)%nat /\
  (hashed_bytes switch h = hashed_bytes switch h' -> with_fields h' h = h /\ (IsMTP switch h = true -> with_mtp_fields h' h = h)).
Proof.
  intros Hf Hm Hf' Hm'; split; [apply Serialize_hash_spec|]; split; [done|]; split.
  { unfold hashed_bytes; rewrite length_app, (proj2 (fields_bytes_words h Hf)); destruct (IsMTP switch h); [by rewrite (proj2 (mtp_fields_bytes_words h Hm))|done]. }
  intros E; destruct (hashed_bytes_ok switch h Hf Hm) as [Hs U].
  destruct (Read_header_spec switch h h Hf Hm _ [] Hs ltac:(by rewrite app_nil_r)) as (s1 & R1 & _), (Read_header_spec switch h' h Hf' Hm' _ [] Hs ltac:(by rewrite app_nil_r, <- E)) as (s2 & R2 & _).
  rewrite R1 in R2; injection R2 as R2 _; assert (Eh : with_mtp_fields h (with_fields h h) = h /\ with_fields h h = h) by (by destruct h); rewrite (proj1 Eh), (proj2 Eh) in R2.
  assert (Et : IsMTP switch h' = IsMTP switch h) by (apply isMTP_time; destruct (IsMTP switch h), (IsMTP switch h'); rewrite R2; done); rewrite Et in R2.
  destruct (IsMTP switch h); destruct h, h'; cbn in *; injection R2; intros; subst; done.
Qed.

Lemma hashed_header_binding_witness : length (hashed_bytes 1544443200 (demo_header 1600000000 (Some demo_data))) = 180%nat.
Proof.
  destruct (demo_fields_wf 1600000000 (Some demo_data) ltac:(unfold word; lia)) as [H1 H2].
  exact (proj1 (proj2 (proj2 (hashed_header_binding 1544443200 _ _ H1 H2 H1 H2)))).
Defined.

(** ** The input of the proof of work *)

Definition input_bytes (h : CBlockHeader) : list Z :=
  le_bytes 4 h.(nVersion) ++ h.(hashPrevBlock) ++ h.(hashMerkleRoot) ++ le_bytes 4 h.(nTime) ++ le_bytes 4 h.(nBits) ++ le_bytes 4 h.(nVersionMTP).

Lemma serializeMtpHeader_spec s h : serializeMtpHeader s h = write (input_bytes h) s.
Proof. unfold serializeMtpHeader, ser_writedata32, input_bytes; by rewrite !write_app, <- ?app_assoc. Qed.

(** The input is the first fields with [nVersionMTP] in the place of the nonce. *)
Lemma input_fields h : input_bytes h = fields_bytes (BlockHeader h.(nVersion) h.(hashPrevBlock) h.(hashMerkleRoot) h.(nTime) h.(nBits) (u32 h.(nVersionMTP))
  h.(nVersionMTP) h.(mtpHashValue) h.(reserved0) h.(reserved1) h.(mtpHashData) h.(cachedPoWHash)).
Proof. unfold input_bytes, fields_bytes; cbn [nVersion hashPrevBlock hashMerkleRoot nTime nBits nNonce]; by rewrite le_bytes_u32. Qed.

Lemma input_fields_wf h : fields_wf h -> fields_wf (BlockHeader h.(nVersion) h.(hashPrevBlock) h.(hashMerkleRoot) h.(nTime) h.(nBits) (u32 h.(nVersionMTP))
  h.(nVersionMTP) h.(mtpHashValue) h.(reserved0) h.(reserved1) h.(mtpHashData) h.(cachedPoWHash)).
Proof. intros [H1 H2 H3 H4 H5 _]; split; (done || apply u32_word). Qed.

(** The search and the verification work on 80 bytes that determine
    version, previous block, transactions, time, target and MTP version, and on
    nothing else of the header: neither the nonce nor the hash value, the reserved
    words or the data change them. *)
Theorem mtp_input_binding h h' nonce value r0 r1 d c : fields_wf h -> fields_wf h' -> int32 h.(nVersionMTP) -> int32 h'.(nVersionMTP) ->
  vch (serializeMtpHeader (DataStream [] 0) h) = input_bytes h /\ length (input_bytes h) = 80%nat /\
  input_bytes (BlockHeader h.(nVersion) h.(hashPrevBlock) h.(hashMerkleRoot) h.(nTime) h.(nBits) nonce h.(nVersionMTP) value r0 r1 d c) = input_bytes h /\
  (input_bytes h = input_bytes h' -> h.(nVersion) = h'.(nVersion) /\ h.(hashPrevBlock) = h'.(hashPrevBlock) /\ h.(hashMerkleRoot) = h'.(hashMerkleRoot) /\
     h.(nTime) = h'.(nTime) /\ h.(nBits) = h'.(nBits) /\ h.(nVersionMTP) = h'.(nVersionMTP)).
Proof.
  intros Hf Hf' Hv Hv'; split; [by rewrite serializeMtpHeader_spec|]; rewrite !input_fields; destruct (fields_bytes_words _ (input_fields_wf h Hf)) as [W Hl].
  split; [exact Hl|]; split; [done|]; intros E; destruct (of_bytes_ok _ W ltac:(rewrite Hl; lia)) as [Hs U].
  destruct (reads_fields _ h (input_fields_wf h Hf) _ [] Hs ltac:(by rewrite app_nil_r)) as (s1 & R1 & _), (reads_fields _ h (input_fields_wf h' Hf') _ [] Hs ltac:(by rewrite app_nil_r, <- E)) as (s2 & R2 & _).
  rewrite R1 in R2; injection R2 as E1 E2 E3 E4 E5 E6 _; rewrite <- (s32_u32 _ Hv), <- (s32_u32 _ Hv'), E6; done.
Qed.

Lemma mtp_input_binding_witness : length (input_bytes (demo_header 1600000000 None)) = 80%nat.
Proof.
  destruct (demo_fields_wf 1600000000 None ltac:(unfold word; lia)) as [H1 [H2 _ _ _]].
  exact (proj1 (proj2 (mtp_input_binding _ _ 0 [] [] [] None [] H1 H1 H2 H2))).
Defined.

(** ** Copies *)

(** [GetBlockHeader] copies every field of the header but one:
    with the Merkle tree proof the hash value is lost, so that the copy is
    identified by other bytes than the block unless the value was zero. *)
Theorem GetBlockHeader_loses_hash switch b : fields_wf b -> mtp_fields_wf b -> IsMTP switch b = true ->
  GetBlockHeader switch b = BlockHeader b.(nVersion) b.(hashPrevBlock) b.(hashMerkleRoot) b.(nTime) b.(nBits) b.(nNonce)
    b.(nVersionMTP) uint256_null b.(reserved0) b.(reserved1) b.(mtpHashData) uint256_null /\
  (hashed_bytes switch (GetBlockHeader switch b) = hashed_bytes switch b <-> b.(mtpHashValue) = uint256_null).
Proof.
  intros Hf [_ [Hl _] _ _] Hm; assert (E : GetBlockHeader switch b = BlockHeader b.(nVersion) b.(hashPrevBlock) b.(hashMerkleRoot) b.(nTime) b.(nBits) b.(nNonce)
    b.(nVersionMTP) uint256_null b.(reserved0) b.(reserved1) b.(mtpHashData) uint256_null).
  { unfold GetBlockHeader; unfold IsMTP in Hm |- *; cbn [nTime]; rewrite Hm; reflexivity. }
  split; [exact E|]; rewrite E; unfold hashed_bytes; rewrite (isMTP_time switch _ b), Hm by done; unfold fields_bytes, mtp_fields_bytes.
  cbn [nVersion hashPrevBlock hashMerkleRoot nTime nBits nNonce nVersionMTP mtpHashValue reserved0 reserved1]; split; [|by intros ->].
  intros H; apply app_inv_head, app_inv_head in H; apply app_inj_1 in H as [H _]; [done|]; unfold uint256_null; rewrite length_replicate; lia.
Qed.

Lemma GetBlockHeader_loses_hash_witness :
  mtpHashValue (GetBlockHeader 1544443200 (BlockHeader 2 (replicate 32 1) (replicate 32 2) 1600000000 0x1d00ffff 7 0x1000 (replicate 32 5) (replicate 32 0) (replicate 32 0) None uint256_null)) = uint256_null.
Proof.
  match goal with |- mtpHashValue (GetBlockHeader _ ?b) = _ =>
    assert (Hf : fields_wf b) by (split; cbn [nVersion hashPrevBlock hashMerkleRoot nTime nBits nNonce nVersionMTP mtpHashValue reserved0 reserved1]; first [apply blob_replicate; unfold word; lia|unfold int32, word; lia]);
    assert (Hm : mtp_fields_wf b) by (split; cbn [nVersion hashPrevBlock hashMerkleRoot nTime nBits nNonce nVersionMTP mtpHashValue reserved0 reserved1]; first [apply blob_replicate; unfold word; lia|unfold int32, word; lia]);
    rewrite (proj1 (GetBlockHeader_loses_hash 1544443200 b Hf Hm eq_refl)) end; reflexivity.
Defined.
