(* ===== verification/MtpShape.v ===== *)
(** What the search writes has the form that a header can carry: 64-bit words in
    the blocks, bytes in the hashes, and openings as long as the tree is high. *)

From S2P Require Import Prelude BlakeSpec Rfc7693 Blake2b Argon2 Argon2Threads Argon2Spec Argon2Block Argon2Fill Argon2Init Argon2Pass0.
From S2P Require Import Argon2Claims MerkleTree MerkleProofs MerkleClaims Arith256 Mtp MtpProofs MtpSearch MtpClaims.
From S2P Require Import Serialize SerializeProofs Block BlockProofs.

(** ** Hashes are bytes *)

Lemma long_tail_bytes fuel : forall v left, words 8 (Rfc7693.long_tail fuel v left).
Proof.
  induction fuel as [|fuel IH]; intros v left; cbn [Rfc7693.long_tail]; [constructor|]; destruct (_ <=? _)%nat; [apply hash_bytes|].
  apply Forall_app; split; [apply Forall_take, hash_bytes|apply IH].
Qed.

Lemma hash_long_bytes n m : words 8 (Rfc7693.hash_long n m).
Proof. unfold Rfc7693.hash_long; destruct (_ <=? _)%nat; [apply hash_bytes|]; apply Forall_app; split; [apply Forall_take, hash_bytes|apply long_tail_bytes]. Qed.

Lemma block_of_bytes_wf b : words 8 b -> block_wf (block_of_bytes b).
Proof.
  intros Hb; split; [apply block_of_bytes_ok|]; unfold block_of_bytes; apply List.Forall_forall; intros x Hx; apply in_map_iff in Hx as (i & <- & _).
  apply (word_mono (8 * Z.of_nat (length (read_at (i * 8) 8 b)))); [unfold read_at; rewrite length_take; lia|]; by apply le_word_word, Forall_take, Forall_drop.
Qed.

(** ** The block function keeps 64-bit words *)

Lemma insert_words w l i x : words w l -> word w x -> words w (<[i := x]> l).
Proof. intros Hl Hx; by apply Forall_insert. Qed.

Lemma rotr_word w c : word 64 (Blake2b.rotr64 w c).
Proof. apply u64_word. Qed.

Lemma fBlaMka_word x y : word 64 (Blamka.fBlaMka x y).
Proof. apply u64_word. Qed.

Lemma G_at_words a b c d v : words 64 v -> words 64 (Blamka.G_at a b c d v).
Proof.
  intros Hv; unfold Blamka.G_at, Blamka.G; repeat apply insert_words; first [exact Hv|apply rotr_word|apply fBlaMka_word].
Qed.

Lemma round_words p v : words 64 v -> words 64 (Blamka.BLAKE2_ROUND_NOMSG p v).
Proof. intros Hv; unfold Blamka.BLAKE2_ROUND_NOMSG; repeat apply G_at_words; exact Hv. Qed.

Lemma permute_words v : words 64 v -> words 64 (permute_block v).
Proof.
  intros Hv; unfold permute_block; apply (for_range_ind (fun _ => words 64)); [lia| |intros i w _; apply round_words].
  apply (for_range_ind (fun _ => words 64)); [lia|exact Hv|intros i w _; apply round_words].
Qed.

Lemma xor_block_words x y : words 64 x -> words 64 y -> words 64 (xor_block x y).
Proof.
  intros Hx Hy; unfold xor_block; apply (for_range_ind (fun _ => words 64)); [lia|exact Hx|]; intros i w _ Hw; apply insert_words; [exact Hw|].
  apply lxor_word; [lia|by apply words_default|by apply words_default].
Qed.

Lemma the_index_word i : word 64 (the_index i).
Proof. apply (le_word_word (le_bytes 4 0 ++ le_bytes 4 i)), Forall_app; split; apply le_bytes_words. Qed.

Lemma read8_word k h : words 8 h -> word 64 (le_word (read_at k 8 h)).
Proof.
  intros Hh; apply (word_mono (8 * Z.of_nat (length (read_at k 8 h)))); [unfold read_at; rewrite length_take; lia|]; by apply le_word_word, Forall_take, Forall_drop.
Qed.

#[local] Opaque xor_block permute_block the_index.

Lemma fill_block_mtp_words p r o i h : words 64 p -> words 64 r -> words 8 h -> words 64 (fill_block_mtp p r o false i h).
Proof.
  intros Hp Hr Hh; assert (Hx : words 64 (xor_block (copy_block r) p)) by (apply xor_block_words; [by apply Forall_take|exact Hp]); cbv beta delta [fill_block_mtp] zeta iota.
  apply xor_block_words; [by do 2 apply Forall_take|]; apply permute_words; repeat apply insert_words; first [exact Hx|apply the_index_word|by apply read8_word].
Qed.

#[local] Opaque Rfc7693.hash Rfc7693.hash_long fill_block_mtp.

(** ** The memory *)

Lemma memory_wf P lanes q d input M : params_ok P lanes q d -> mtp_memory P lanes q input M -> Forall block_wf M.
Proof.
  intros HP HM; pose proof (memory_block P lanes q d HP input M HM) as Hrest; destruct HM as ([Hl Hok] & Hfirst & _); pose proof (params_size P lanes q d HP) as Hs; pose proof HP as [_ _ Hq Hr _ _].
  assert (Hh : words 8 (mtp_h0 P input ++ replicate 8 0)) by (apply Forall_app; split; [apply hash_bytes|apply Forall_replicate; unfold word; lia]).
  assert (Hall : forall j, (j < 4 * q)%nat -> forall l, (l < lanes)%nat -> words 64 (M !!! Argon2Spec.cell q l j)).
  { intros j; induction j as [j IH] using lt_wf_ind; intros Hj l Hll; destruct (Nat.lt_ge_cases j 2) as [Hj2|Hj2].
    { refine (eq_ind_r (words 64) _ (Hfirst l j Hll Hj2)); apply block_of_bytes_wf, hash_long_bytes. }
    pose proof (Hrest l j Hll ltac:(lia)) as E; cbv zeta in E; refine (eq_ind_r (words 64) _ E); apply fill_block_mtp_words; [apply IH; lia| |exact Hh].
    destruct (ref_before lanes q Hq ltac:(lia) ltac:(lia) l j ((M !!! Argon2Spec.cell q l (j - 1)) !!! 0%nat) Hll ltac:(lia)) as (rl & k & -> & Hrl & Hkk & Hb).
    pose proof (Nat.div_mod j q ltac:(lia)); apply IH; nia. }
  apply List.Forall_forall; intros b Hb; apply list_elem_of_In, list_elem_of_lookup in Hb as [c Hc].
  split; [exact (Forall_lookup_1 _ _ _ _ Hok Hc)|]; pose proof (lookup_lt_Some _ _ _ Hc) as Hlt; rewrite Hl in Hlt; apply list_lookup_total_correct in Hc as <-.
  replace c with (Argon2Spec.cell q (c / (4 * q)) (c mod (4 * q))) by (unfold Argon2Spec.cell, Argon2Spec.lane_len; pose proof (Nat.div_mod c (4 * q) ltac:(lia)); lia).
  apply Hall; [apply Nat.mod_upper_bound; lia|apply Nat.Div0.div_lt_upper_bound; lia].
Qed.

(** ** Roots and openings *)

Lemma tree_hash_blob S0 D0 x : length D0 = 16%nat -> blob 16 (MerkleTree.hash S0 D0 x).
Proof. intros HD; split; [by apply length_tree_hash|]; rewrite hash_spec by done; apply hash_bytes. Qed.

Lemma Forall_last_some {A} (Q : A -> Prop) l x : Forall Q l -> list.last l = Some x -> Q x.
Proof. intros Hl E; rewrite last_lookup in E; exact (Forall_lookup_1 _ _ _ _ Hl E). Qed.

Lemma tower_blobs S0 D0 l ls : length D0 = 16%nat -> tower S0 D0 true l ls -> Forall (blob 16) l -> Forall (Forall (blob 16)) ls.
Proof.
  intros HD; induction 1 as [l Hl|l ls Hl _ IH]; intros Hb; [by repeat constructor|]; constructor; [exact Hb|]; apply IH.
  apply Forall_app; split.
  - apply List.Forall_forall; intros x Hx; apply in_map_iff in Hx as (i & <- & _); unfold combinedHash; cbn [orb]; by apply tree_hash_blob.
  - destruct (Nat.odd (length l)); [|constructor]; destruct (list.last l) as [x|] eqn:E; [|constructor]; constructor; [|constructor].
    exact (Forall_last_some _ _ _ Hb E).
Qed.

Lemma proof_blobs ls i : Forall (Forall (blob 16)) ls -> Forall (blob 16) (proof_from ls i).
Proof.
  intros H; revert i; induction H as [|l ls Hl _ IH]; intros i; cbn [proof_from]; [constructor|]; apply Forall_app; split; [|apply IH].
  destruct (getPair l i) as [x|] eqn:E; cbn; [|constructor]; constructor; [|constructor]; unfold getPair in E; exact (Forall_lookup_1 _ _ _ _ Hl E).
Qed.

Lemma block_digest_blob b : blob 16 (block_digest b).
Proof. split; [apply length_block_digest|apply hash_bytes]. Qed.

Lemma tree_wf P lanes q d input M S0 D0 t root : params_ok P lanes q d -> mtp_memory P lanes q input M -> length D0 = 16%nat ->
  make_MerkleTree S0 D0 (map block_digest M) true = Ret (Some t) -> getRoot t = Some root ->
  blob 16 root /\ forall i, (i < lanes * (4 * q))%nat -> proof_wf (opening t i) /\ length (opening t i) = d.
Proof.
  intros HP HM HD Ht Hroot; assert (Hl : length (map block_digest M) = (lanes * (4 * q))%nat) by (rewrite length_map; apply HM).
  assert (Hb : Forall (blob 16) (map block_digest M)) by (apply List.Forall_forall; intros e He; apply in_map_iff in He as (b & <- & _); apply block_digest_blob).
  assert (Hok : Forall element_ok (map block_digest M)) by (apply List.Forall_forall; intros e He; apply in_map_iff in He as (b & <- & _); apply length_block_digest).
  assert (Hne : map block_digest M <> []) by (destruct HP; intros E; rewrite E in Hl; cbn [length] in Hl; nia).
  destruct (make_ordered S0 D0 (map block_digest M) Hne Hok) as (ls & r & Hm & Htow & Hlast & Hr); rewrite Ht in Hm; injection Hm as ->; rewrite Hroot in Hr; injection Hr as <-.
  pose proof (tower_blobs S0 D0 _ ls HD Htow Hb) as Hls; split.
  - pose proof (Forall_last_some _ _ _ Hls Hlast) as H; by apply list.Forall_cons in H as [H _].
  - intros i Hi; assert (Hd : length (opening (mkMerkleTree true (map block_digest M) ls) i) = d).
    { unfold opening, getProof_at; cbn [layers_]; apply (proof_length_pow2 _ _ _ d _ ls i Htow); [lia|rewrite Hl; apply HP]. }
    split; [|exact Hd]; split; [rewrite Hd; pose proof (po_d _ _ _ _ HP); lia|by apply proof_blobs].
Qed.

(** ** The outputs *)

Lemma chain_entries_wf P lanes q d boost input M t n B Q (good : Elements -> Prop) (Hblocks : Forall block_wf M) (Hopen : forall i, (i < lanes * (4 * q))%nat -> good (opening t i)) :
  params_ok P lanes q d -> mtp_memory P lanes q input M -> forall j y, chain_entries P lanes q boost M t (S j) n y B Q ->
  y_chain P q boost M n y <> None -> forall k, ((j * 2 <= k < (j + n) * 2)%nat -> exists b, B !! k = Some b /\ block_wf b) /\
    ((j * 3 <= k < (j + n) * 3)%nat -> exists p, Q !! k = Some p /\ good p).
Proof.
  intros HP HM; induction n as [|n IH]; intros j y He Hy k; [split; lia|]; cbn [chain_entries y_chain] in He, Hy; destruct He as [(HB1 & HB2 & HQ1 & HQ2 & HQ3) He].
  destruct (Nat.ltb_spec (pos_of q (Z.to_nat (selected_index P boost y))) 2) as [Hp|Hp]; [done|]; destruct (IH (S j) _ He Hy k) as [IHB IHQ].
  destruct (selected_bound P lanes q d HP boost _ (length_replicate 16 0) y) as [_ Hi]; set (i := Z.to_nat (selected_index P boost y)) in *.
  pose proof (prev_lt P lanes q d HP _ (length_replicate 16 0) i Hi) as Hpi; pose proof (ref_lt P lanes q d HP M _ (length_replicate 16 0) i Hi Hp) as Hri.
  assert (Hat : forall c, (c < lanes * (4 * q))%nat -> block_wf (M !!! c)) by (intros c Hc; apply (Forall_lookup_total_1 _ _ _ Hblocks); rewrite (proj1 (proj1 HM)); exact Hc).
  replace (S j * 2 - 2)%nat with (j * 2)%nat in HB1 by lia; replace (S j * 2 - 1)%nat with (j * 2 + 1)%nat in HB2 by lia.
  replace (S j * 3 - 3)%nat with (j * 3)%nat in HQ1 by lia; replace (S j * 3 - 2)%nat with (j * 3 + 1)%nat in HQ2 by lia; replace (S j * 3 - 1)%nat with (j * 3 + 2)%nat in HQ3 by lia.
  split; intros Hk.
  - destruct (Nat.eq_dec k (j * 2)%nat) as [->|]; [eauto|]; destruct (Nat.eq_dec k (j * 2 + 1)%nat) as [->|]; [eauto|]; apply IHB; lia.
  - destruct (Nat.eq_dec k (j * 3)%nat) as [->|]; [eauto|]; destruct (Nat.eq_dec k (j * 3 + 1)%nat) as [->|]; [eauto|]; destruct (Nat.eq_dec k (j * 3 + 2)%nat) as [->|]; [eauto|]; apply IHQ; lia.
Qed.

Lemma Forall_by_lookup {A} (Q : A -> Prop) l : (forall k, (k < length l)%nat -> exists x, l !! k = Some x /\ Q x) -> Forall Q l.
Proof. intros H; apply Forall_lookup; intros k x Hx; destruct (H k (lookup_lt_Some _ _ _ Hx)) as (y & E & Hy); congruence. Qed.

Lemma y_chain_blob P q boost M n : forall y y', blob 32 y -> y_chain P q boost M n y = Some y' -> blob 32 y'.
Proof.
  induction n as [|n IH]; intros y y' Hy H; cbn [y_chain] in H; [by injection H as <-|]; destruct (_ <? 2)%nat; [done|]; apply (IH _ _ ltac:(split; [apply length_y_next|]; exact (hash_bytes _ _ _ _)) H).
Qed.

(** The data a header gets from the search can be sent. *)
Lemma output_wf P lanes q d boost input M S0 D0 t root target pow_limit nonce a : params_ok P lanes q d -> mtp_memory P lanes q input M -> length D0 = 16%nat ->
  make_MerkleTree S0 D0 (map block_digest M) true = Ret (Some t) -> getRoot t = Some root ->
  search_result P lanes q boost input M t root target pow_limit 0 (Some (nonce, a)) ->
  data_wf P (MTPHashData root a.(at_blocks) a.(at_proofs)) /\ Forall (fun p => length p = d) a.(at_proofs) /\ blob 32 a.(at_y).
Proof.
  intros HP HM HD Ht Hroot (_ & [Hc _] & He & HB & HQ & _); destruct (tree_wf P lanes q d input M S0 D0 t root HP HM HD Ht Hroot) as [Hr Hopen].
  pose proof (chain_entries_wf P lanes q d boost input M t P.(L) a.(at_blocks) a.(at_proofs) (fun p => proof_wf p /\ length p = d)
    (memory_wf P lanes q d input M HP HM) Hopen HP HM 0 _ He ltac:(congruence)) as Hent.
  assert (Hp : Forall (fun p => proof_wf p /\ length p = d) a.(at_proofs)) by (apply Forall_by_lookup; intros k Hk; apply (proj2 (Hent k)); lia); apply List.Forall_and_inv in Hp as [Hp Hd].
  split; [|split; [exact Hd|exact (y_chain_blob _ _ _ _ _ _ _ (y_first_blob _ _ _) Hc)]].
  split; cbn [hashRootMTP nBlockMTP nProofMTP]; [exact Hr| |by split]; split; [exact HB|]; apply Forall_by_lookup; intros k Hk; apply (proj1 (Hent k)); lia.
Qed.

(** C19 (type): what a successful search writes has the types of the arrays it
    is written to: a root of 16 bytes, twice [L] blocks of 128 words of 64 bits,
    three times [L] openings of [d] hashes of 16 bytes, [d] the height of the tree,
    a nonce of 32 bits and a hash of 32 bytes. *)
Theorem mtp_output_typed P lanes q d boost pf loc input inst target pow_limit fuel :
  params_ok P lanes q d -> mlocals_ok loc P.(L) -> malloc_ok pf.(pf_malloc) -> (80 <= length input)%nat ->
  Argon2CtxMtp pf loc (mtp_context P loc input) (mtp_instance P loc) = Some (ARGON2_OK, inst) -> (Z.to_nat (2 ^ 32) <= fuel)%nat ->
  exists root r, mtp_hash1 P boost fuel pf loc input target pow_limit = Some (root, r) /\ blob 16 root /\
  forall o, r = Some o -> data_wf P (MTPHashData o.(o_root) o.(o_blocks) o.(o_proofs)) /\ Forall (fun p => length p = d) o.(o_proofs) /\ word 32 o.(o_nonce) /\ blob 32 o.(o_hash).
Proof.
  intros HP Hloc Hmal Hin Hctx Hf.
  destruct (mtp_hash1_spec P lanes q d boost pf loc input inst target pow_limit fuel HP Hloc Hmal Hin Hctx Hf) as (M & t & root & r & HM & Ht & Hroot & Hres & H1).
  eexists root, _; split; [exact H1|]; split; [exact (proj1 (tree_wf P lanes q d input M _ _ t root HP HM (lo_digest _ _ Hloc) Ht Hroot))|].
  intros o Ho; destruct r as [[nonce a]|]; [|done]; injection Ho as <-; cbn [o_root o_nonce o_blocks o_proofs o_hash].
  destruct (output_wf P lanes q d boost input M _ _ t root target pow_limit nonce a HP HM (lo_digest _ _ Hloc) Ht Hroot Hres) as (H2 & H3 & H4); split; [exact H2|]; split; [exact H3|].
  split; [destruct Hres as [Hn _]; unfold word, UINT_MAX in *; lia|exact H4].
Qed.

Lemma mtp_output_typed_witness : exists choices root r,
  mtp_hash1 mtp_params le_word (Z.to_nat (2 ^ 32)) (Platform demo_malloc true true choices) (demo_mlocals MTP_L) (replicate 80 1) 0x1d00ffff (replicate 32 255) = Some (root, r) /\ blob 16 root.
Proof.
  destruct mtp_can_run as (choices & inst & H); exists choices.
  destruct (mtp_output_typed mtp_params 4 (2 ^ 18) 22 le_word (Platform demo_malloc true true choices) (demo_mlocals MTP_L) (replicate 80 1) inst 0x1d00ffff
    (replicate 32 255) (Z.to_nat (2 ^ 32)) mtp_params_ok (demo_mlocals_ok MTP_L) demo_malloc_ok ltac:(rewrite length_replicate; apply le_n) H (le_n _)) as (root & r & H1 & H2 & _).
  exact (ex_intro _ root (ex_intro _ r (conj H1 H2))).
Defined.
