(* ===== verification/MdHash.v ===== *)
(** The hasher objects of crypto/sha1.cpp, sha256.cpp, sha512.cpp and
    ripemd160.cpp, and the keyed hashes of hmac_sha256.cpp and hmac_sha512.cpp.

    The four classes have the same members [Write], [Finalize] and [Reset] over
    their own [Initialize] and [Transform]; [MdFun] collects what they differ in.
    The data of a call of [Write] is the list of its [len] bytes. *)

From S2P Require Import Prelude.

(** [md_block] is the size of [buf] and of [pad]; [pad_base] is the literal 119
    or 239; [sizedesc] is the array of that name for a value of [bytes]; [digest]
    is what [Finalize] writes for a state. *)
Class MdFun := {
  md_block : nat;
  pad_base : Z;
  Initialize : list Z;
  Transform : list Z -> list Z -> list Z;
  sizedesc : Z -> list Z;
  md_digest : list Z -> list Z
}.

Record hasher := Hasher { md_s : list Z; md_buf : list Z; md_bytes : Z }.

Section Md.
Context {M : MdFun}.

(** The constructor leaves [buf] as it finds it. *)
Definition new_hasher (buf : list Z) : hasher := Hasher Initialize buf 0.

(** [while (end >= data + 64)]; each turn takes a chunk off the data, so that
    the length of the data is enough fuel. *)
Fixpoint Write_loop (fuel : nat) (h : hasher) (data : list Z) : hasher * list Z :=
  match fuel with
  | O => (h, data)
  | S fuel =>
    if (md_block <=? length data)%nat then
      Write_loop fuel
        (Hasher (Transform h.(md_s) (take md_block data)) h.(md_buf) (u64 (h.(md_bytes) + Z.of_nat md_block)))
        (drop md_block data)
    else (h, data)
  end.

Definition Write (h : hasher) (data : list Z) : hasher :=
  let bufsize := h.(md_bytes) mod Z.of_nat md_block in
  let '(h, data, bufsize) :=
    if negb (bufsize =? 0) && (Z.of_nat md_block <=? u64 (bufsize + Z.of_nat (length data))) then
      let room := (md_block - Z.to_nat bufsize)%nat in
      let buf := write_at (Z.to_nat bufsize) (take room data) h.(md_buf) in
      (Hasher (Transform h.(md_s) buf) buf (u64 (h.(md_bytes) + Z.of_nat room)), drop room data, 0)
    else (h, data, bufsize) in
  let '(h, data) := Write_loop (length data) h data in
  if (0 <? length data)%nat then
    Hasher h.(md_s) (write_at (Z.to_nat bufsize) data h.(md_buf)) (u64 (h.(md_bytes) + Z.of_nat (length data)))
  else h.

(** [pad]: 0x80 and zeros *)
Definition pad_array : list Z := 0x80 :: replicate (md_block - 1) 0.

(** The digest and the object afterwards. *)
Definition Finalize (h : hasher) : list Z * hasher :=
  let desc := sizedesc h.(md_bytes) in
  let n := 1 + (pad_base - h.(md_bytes) mod Z.of_nat md_block) mod Z.of_nat md_block in
  let h := Write h (take (Z.to_nat n) pad_array) in
  let h := Write h desc in
  (md_digest h.(md_s), h).

Definition md_Reset (h : hasher) : hasher := Hasher Initialize h.(md_buf) 0.

(** A caller that writes some pieces and asks for the digest. *)
Definition hash_pieces (buf : list Z) (pieces : list (list Z)) : list Z :=
  (Finalize (fold_left Write pieces (new_hasher buf))).1.

(** ** Keyed hashing: hmac_sha256.cpp, hmac_sha512.cpp *)

Record hmac := Hmac { outer : hasher; inner : hasher }.

(** The arguments [buf_o], [buf_i] and [buf_k] are the arrays [buf] of the members
    and of the temporary object, [rkey] is the local array before it is set;
    [out] is [OUTPUT_SIZE]. *)
Definition hmac_rkey (out : nat) (rkey buf_k key : list Z) : list Z :=
  if (length key <=? md_block)%nat then
    write_at (length key) (replicate (md_block - length key) 0) (write_at 0 key rkey)
  else
    write_at out (replicate (md_block - out) 0)
      (write_at 0 (Finalize (Write (new_hasher buf_k) key)).1 rkey).

Definition new_hmac (out : nat) (rkey buf_o buf_i buf_k key : list Z) : hmac :=
  let rkey := hmac_rkey out rkey buf_k key in
  let rkey := map (fun b => Z.lxor b 0x5c) rkey in
  let outer := Write (new_hasher buf_o) rkey in
  let rkey := map (fun b => Z.lxor b (Z.lxor 0x5c 0x36)) rkey in
  let inner := Write (new_hasher buf_i) rkey in
  Hmac outer inner.

Definition hmac_Write (m : hmac) (data : list Z) : hmac := Hmac m.(outer) (Write m.(inner) data).

Definition hmac_Finalize (m : hmac) : list Z * hmac :=
  let '(temp, inner) := Finalize m.(inner) in
  let '(hash, outer) := Finalize (Write m.(outer) temp) in
  (hash, Hmac outer inner).

(** A caller that writes some pieces and asks for the code. *)
Definition hmac_pieces (out : nat) (rkey buf_o buf_i buf_k key : list Z) (pieces : list (list Z)) : list Z :=
  (hmac_Finalize (fold_left hmac_Write pieces (new_hmac out rkey buf_o buf_i buf_k key))).1.

End Md.
