(* ===== verification/MdProofs.v ===== *)
(** The hasher objects absorb a message: the state after any sequence of writes
    is determined by the bytes written, and closing hashes the padded message.

    [MdLaws] is what the buffering needs of a hash function; [md_hash] and
    [md_hmac] are the functions that the objects then compute. *)

From S2P Require Import Prelude MdHash.

(** ** The abstract functions *)

Section Spec.
Context {M : MdFun}.

(** The state after the first [k] blocks of a message. *)
Definition md_after (msg : list Z) (k : nat) : list Z :=
  for_range 0 k (fun i s => Transform s (read_at (i * md_block) md_block msg)) Initialize.

(** The number of zeros between the byte 0x80 and the size. *)
Definition md_zeros (size len : nat) : nat :=
  Z.to_nat ((Z.of_nat md_block - Z.of_nat size - 1 - Z.of_nat len) mod Z.of_nat md_block).

Definition md_padded (msg : list Z) : list Z :=
  let desc := sizedesc (Z.of_nat (length msg)) in
  msg ++ 0x80 :: replicate (md_zeros (length desc) (length msg)) 0 ++ desc.

Definition md_hash (msg : list Z) : list Z :=
  md_digest (md_after (md_padded msg) (length (md_padded msg) / md_block)).

(** HMAC of RFC 2104, without truncation *)
Definition md_hmac_key (key : list Z) : list Z :=
  let k := if (length key <=? md_block)%nat then key else md_hash key in
  k ++ replicate (md_block - length k) 0.

Definition md_hmac (key msg : list Z) : list Z :=
  let k := md_hmac_key key in
  md_hash (map (fun b => Z.lxor b 0x5c) k ++ md_hash (map (fun b => Z.lxor b 0x36) k ++ msg)).

(** ** What the objects keep *)

(** The object holds the message [msg]: its full blocks are in the state, and
    the rest is at the front of the buffer. *)
Definition holds (msg : list Z) (h : hasher) : Prop :=
  let k := (length msg / md_block)%nat in
  h.(md_s) = md_after msg k /\ length h.(md_buf) = md_block /\
  take (length msg mod md_block) h.(md_buf) = drop (k * md_block) msg /\
  h.(md_bytes) = u64 (Z.of_nat (length msg)).

End Spec.

(** [size] is the length of [sizedesc], and [out] the length of the digest. *)
Class MdLaws (M : MdFun) (size out : nat) : Prop := {
  md_block_pos : (0 < md_block)%nat;
  md_block_divides : (Z.of_nat md_block | 2 ^ 64);
  md_size_length n : length (sizedesc n) = size;
  md_size_wrap n : sizedesc (u64 n) = sizedesc n;
  md_size_block : (size < md_block)%nat;
  md_pad_base : pad_base = 2 * Z.of_nat md_block - Z.of_nat size - 1;
  md_out_length m : length (md_hash m) = out;
  md_out_block : (out <= md_block)%nat
}.

Section Laws.
Context {M : MdFun} {size out : nat} {L : MdLaws M size out}.

Abbreviation B := md_block.

(** ** Arithmetic of blocks *)

Lemma md_divmod n : n = (n / B * B + n mod B)%nat /\ (n mod B < B)%nat.
Proof. pose proof md_block_pos; pose proof (Nat.div_mod n B); pose proof (Nat.mod_upper_bound n B); lia. Qed.

Lemma md_div_unique k r : (r < B)%nat -> ((k * B + r) / B = k)%nat /\ ((k * B + r) mod B = r)%nat.
Proof.
  intros Hr; split; symmetry; [apply (Nat.div_unique _ _ k r)|apply (Nat.mod_unique _ _ k r)]; lia.
Qed.

Lemma u64_mod_block n : u64 (Z.of_nat n) mod Z.of_nat B = Z.of_nat (n mod B).
Proof.
  destruct md_block_divides as [c Hc]; pose proof md_block_pos; unfold u64, wrap.
  rewrite Z.mod_mod_divide by (by exists c); by rewrite Nat2Z.inj_mod.
Qed.

Lemma md_after_ext msg msg' k : take (k * B) msg = take (k * B) msg' -> md_after msg k = md_after msg' k.
Proof.
  intros Ht; apply for_range_ext; [lia|]; intros i s Hi; f_equal; unfold read_at.
  rewrite !take_drop_commute; f_equal.
  assert (E : (i * B + B <= k * B)%nat) by nia.
  replace (i * B + B)%nat with (Nat.min (i * B + B) (k * B)) by lia.
  by rewrite <- !take_take, Ht.
Qed.

Lemma md_after_app msg data k : (k * B <= length msg)%nat -> md_after (msg ++ data) k = md_after msg k.
Proof. intros; apply md_after_ext; by rewrite take_app_le. Qed.

Lemma md_after_S msg k : md_after msg (k + 1) = Transform (md_after msg k) (read_at (k * B) B msg).
Proof. unfold md_after; by rewrite for_range_S by lia. Qed.

(** ** Writing *)

Lemma u64_add_r a b : u64 (u64 a + b) = u64 (a + b).
Proof. apply wrap_add_l. Qed.

(** A block is completed by [c]. *)
Lemma holds_block msg h c buf :
  holds msg h -> length c = (B - length msg mod B)%nat -> length buf = B ->
  holds (msg ++ c) (Hasher (Transform h.(md_s) (take (length msg mod B) h.(md_buf) ++ c)) buf
    (u64 (h.(md_bytes) + Z.of_nat (length c)))).
Proof.
  intros (Hs & _ & Hb & Hn) Hc Hbuf; destruct (md_divmod (length msg)) as [Hl Hr]; pose proof md_block_pos.
  set (k := (length msg / B)%nat) in *; set (r := (length msg mod B)%nat) in *.
  destruct (md_div_unique (k + 1) 0) as [E1 E2]; [lia|].
  assert (El : length (msg ++ c) = ((k + 1) * B + 0)%nat) by (rewrite length_app; lia).
  unfold holds; rewrite El, E1, E2; cbn [md_s md_buf md_bytes]; split_and!; [|done| |].
  - rewrite md_after_S, md_after_app, Hs, Hb by lia; f_equal; unfold read_at.
    rewrite drop_app_le, take_ge by (rewrite ?length_app, ?length_drop; lia); done.
  - rewrite take_0, drop_ge; [done|lia].
  - rewrite Hn, u64_add_r; f_equal; lia.
Qed.

(** Bytes that do not complete a block are kept. *)
Lemma holds_rest msg h d :
  holds msg h -> (length msg mod B + length d < B)%nat ->
  holds (msg ++ d) (Hasher h.(md_s) (write_at (length msg mod B) d h.(md_buf))
    (u64 (h.(md_bytes) + Z.of_nat (length d)))).
Proof.
  intros (Hs & Hl & Hb & Hn) Hd; destruct (md_divmod (length msg)) as [Hm Hr].
  set (k := (length msg / B)%nat) in *; set (r := (length msg mod B)%nat) in *.
  destruct (md_div_unique k (r + length d)) as [E1 E2]; [lia|].
  assert (El : length (msg ++ d) = (k * B + (r + length d))%nat) by (rewrite length_app; lia).
  unfold holds; rewrite El, E1, E2; cbn [md_s md_buf md_bytes]; split_and!.
  - rewrite md_after_app by lia; done.
  - rewrite length_write_at; lia.
  - rewrite take_write_at, Hb, drop_app_le by lia; done.
  - rewrite Hn, u64_add_r; f_equal; lia.
Qed.

Lemma Write_loop_short fuel h data : (length data < B)%nat -> Write_loop fuel h data = (h, data).
Proof. intros Hd; destruct fuel; cbn [Write_loop]; [done|]; destruct (Nat.leb_spec B (length data)); [lia|done]. Qed.

(** The loop takes all full blocks, whatever was in the buffer before. *)
Lemma Write_loop_spec fuel msg h data :
  (length data <= fuel)%nat -> (length msg mod B = 0)%nat -> holds msg h ->
  exists h' m d, Write_loop fuel h data = (h', d) /\ data = m ++ d /\ (length d < B)%nat /\
    (length (msg ++ m) mod B = 0)%nat /\ holds (msg ++ m) h'.
Proof.
  pose proof md_block_pos as HB.
  revert msg h data; induction fuel as [|fuel IH]; intros msg h data Hf Hm Hh; cbn [Write_loop].
  - exists h, [], data; rewrite app_nil_r; split_and!; [done|done|lia|done|done].
  - destruct (Nat.leb_spec B (length data)) as [Hge|Hlt].
    + set (c := take B data); assert (Hc : length c = B) by (unfold c; rewrite length_take; lia).
      assert (Hh1 := holds_block msg h c h.(md_buf) Hh).
      rewrite Hm, take_0, Hc in Hh1; cbn [app] in Hh1.
      specialize (Hh1 ltac:(lia) ltac:(apply Hh)).
      assert (Hf1 : (length (drop B data) <= fuel)%nat) by (rewrite length_drop; lia).
      assert (Hm1 : (length (msg ++ c) mod B = 0)%nat).
      { rewrite length_app, Hc; replace (length msg + B)%nat with (length msg + 1 * B)%nat by lia; by rewrite Nat.Div0.mod_add. }
      destruct (IH _ _ _ Hf1 Hm1 Hh1) as (h' & m & d & E & Ed & Hd & Hm' & Hh').
      exists h', (c ++ m), d; rewrite app_assoc; split_and!; [done| |done|done|done].
      rewrite <- app_assoc, <- Ed; symmetry; apply take_drop.
    + exists h, [], data; rewrite app_nil_r; split_and!; done.
Qed.

(** The rest of [Write] after the buffer was filled, or was empty. *)
Lemma Write_tail msg h data :
  (length msg mod B = 0)%nat -> holds msg h ->
  holds (msg ++ data)
    (let '(h, data) := Write_loop (length data) h data in
     if (0 <? length data)%nat then
       Hasher h.(md_s) (write_at 0 data h.(md_buf)) (u64 (h.(md_bytes) + Z.of_nat (length data)))
     else h).
Proof.
  intros Hm Hh; destruct (Write_loop_spec (length data) msg h data ltac:(lia) Hm Hh) as (h' & m & d & -> & -> & Hd & Hm' & Hh').
  destruct (Nat.ltb_spec 0 (length d)) as [Hp|Hz].
  - rewrite app_assoc; assert (Hr := holds_rest (msg ++ m) h' d Hh'); rewrite Hm' in Hr; apply Hr; lia.
  - destruct d; cbn [length] in Hz; [by rewrite app_nil_r|lia].
Qed.

Lemma Write_holds msg h data :
  holds msg h -> Z.of_nat (length data) + Z.of_nat B < 2 ^ 64 -> holds (msg ++ data) (Write h data).
Proof.
  intros Hh Hlen; destruct (md_divmod (length msg)) as [Hl Hr]; pose proof md_block_pos as HB.
  pose proof Hh as (Hs & Hbl & Hb & Hn); unfold Write; rewrite Hn, u64_mod_block, Nat2Z.id.
  set (r := (length msg mod B)%nat) in *; unfold u64 at 1; rewrite wrap_id by (unfold word; lia).
  destruct (Z.eqb_spec (Z.of_nat r) 0) as [E0|Hne]; cbn [negb andb].
  - assert (r = 0)%nat as E by lia; rewrite E; apply Write_tail; done.
  - destruct (Z.leb_spec (Z.of_nat B) (Z.of_nat r + Z.of_nat (length data))) as [Hge|Hlt].
    + set (c := take (B - r) data); assert (Hc : length c = (B - r)%nat) by (unfold c; rewrite length_take; lia).
      rewrite <- (take_drop (B - r) data) at 1; fold c; rewrite app_assoc; apply Write_tail.
      * rewrite length_app, Hc, Hl; replace (length msg / B * B + r + (B - r))%nat with ((length msg / B + 1) * B)%nat by lia.
        apply Nat.Div0.mod_mul.
      * rewrite (write_at_end r c) by lia; rewrite <- Hn, <- Hc; apply holds_block; [done|done|].
        rewrite length_app, length_take; lia.
    + rewrite Write_loop_short by lia; destruct (Nat.ltb_spec 0 (length data)) as [Hp|Hz].
      * rewrite Nat2Z.id; apply holds_rest; [done|unfold r in *; lia].
      * destruct data; cbn [length] in Hz; [by rewrite app_nil_r|lia].
Qed.

Definition pieces_fit (pieces : list (list Z)) : Prop :=
  Forall (fun d => Z.of_nat (length d) + Z.of_nat B < 2 ^ 64) pieces.

Lemma Writes_hold msg h pieces :
  holds msg h -> pieces_fit pieces -> holds (msg ++ concat pieces) (fold_left Write pieces h).
Proof.
  intros Hh Hp; revert msg h Hh; induction Hp as [|d ds Hd _ IH]; intros msg h Hh; cbn [fold_left concat].
  - by rewrite app_nil_r.
  - rewrite app_assoc; apply IH, Write_holds; done.
Qed.

Lemma new_holds buf : length buf = B -> holds [] (new_hasher buf).
Proof.
  intros Hb; unfold holds, new_hasher; cbn [md_s md_buf md_bytes length]; rewrite Nat.Div0.div_0_l, Nat.Div0.mod_0_l; done.
Qed.

Lemma Reset_holds msg h : holds msg h -> holds [] (md_Reset h).
Proof. intros Hh; apply new_holds, Hh. Qed.

(** ** Closing *)

Lemma pad_length len :
  (pad_base - u64 (Z.of_nat len) mod Z.of_nat B) mod Z.of_nat B = Z.of_nat (md_zeros size len).
Proof.
  pose proof md_block_pos as HB; rewrite u64_mod_block, md_pad_base; unfold md_zeros.
  rewrite Z2Nat.id by (apply Z.mod_pos_bound; lia).
  rewrite Nat2Z.inj_mod, Zminus_mod_idemp_r.
  replace (2 * Z.of_nat B - Z.of_nat size - 1 - Z.of_nat len) with (Z.of_nat B - Z.of_nat size - 1 - Z.of_nat len + 1 * Z.of_nat B) by lia.
  apply Z_mod_plus_full.
Qed.

Lemma md_zeros_bound len : (md_zeros size len < B)%nat.
Proof. pose proof md_block_pos; unfold md_zeros; pose proof (Z.mod_pos_bound (Z.of_nat B - Z.of_nat size - 1 - Z.of_nat len) (Z.of_nat B)); lia. Qed.

Lemma md_padded_eq msg :
  md_padded msg = msg ++ [0x80] ++ replicate (md_zeros size (length msg)) 0 ++ sizedesc (Z.of_nat (length msg)).
Proof. unfold md_padded; by rewrite md_size_length. Qed.

(** A padded message is a sequence of blocks, with fewer bytes added than a block
    and the size. *)
Lemma md_padded_blocks msg :
  (length (md_padded msg) mod B = 0)%nat /\ (length msg + size < length (md_padded msg) <= length msg + size + B)%nat.
Proof.
  pose proof (md_zeros_bound (length msg)); pose proof md_block_pos; unfold md_padded.
  rewrite length_app; cbn [length]; rewrite length_app, length_replicate, !md_size_length.
  split; [|lia]; unfold md_zeros; apply Nat2Z.inj; rewrite Nat2Z.inj_mod, Nat2Z.inj_add, Nat2Z.inj_succ, Nat2Z.inj_add.
  rewrite Z2Nat.id by (apply Z.mod_pos_bound; lia).
  replace (Z.of_nat (length msg) + Z.succ ((Z.of_nat B - Z.of_nat size - 1 - Z.of_nat (length msg)) mod Z.of_nat B + Z.of_nat size))
    with ((Z.of_nat (length msg) + 1 + Z.of_nat size) + (Z.of_nat B - Z.of_nat size - 1 - Z.of_nat (length msg)) mod Z.of_nat B) by lia.
  rewrite Zplus_mod_idemp_r; replace (_ + _) with (1 * Z.of_nat B) by lia; apply Z_mod_mult.
Qed.

Lemma take_pad n : (n <= B)%nat -> (0 < n)%nat -> take n pad_array = 0x80 :: replicate (n - 1) 0.
Proof.
  intros Hn Hp; unfold pad_array; destruct n as [|n]; [lia|]; cbn [take]; f_equal.
  rewrite take_replicate; f_equal; lia.
Qed.

Context (fits : 2 * Z.of_nat B < 2 ^ 64).

Lemma Finalize_holds msg h : holds msg h -> (Finalize h).1 = md_hash msg /\ holds (md_padded msg) (Finalize h).2.
Proof.
  intros Hh; pose proof (md_zeros_bound (length msg)) as Hz; pose proof md_size_block as Hsz; pose proof md_block_pos as HB.
  unfold Finalize; cbv zeta; destruct Hh as (Hs & Hb & Ht & Hn); rewrite Hn, pad_length, md_size_wrap.
  assert (Hh : holds msg h) by (split_and!; done).
  replace (Z.to_nat (1 + Z.of_nat (md_zeros size (length msg)))) with (S (md_zeros size (length msg))) by lia.
  rewrite take_pad by lia; replace (S (md_zeros size (length msg)) - 1)%nat with (md_zeros size (length msg)) by lia.
  set (p := 0x80 :: replicate (md_zeros size (length msg)) 0).
  assert (Hp : Z.of_nat (length p) + Z.of_nat B < 2 ^ 64) by (unfold p; cbn [length]; rewrite length_replicate; lia).
  assert (Hd : Z.of_nat (length (sizedesc (Z.of_nat (length msg)))) + Z.of_nat B < 2 ^ 64) by (rewrite md_size_length; lia).
  assert (Hh2 := Write_holds _ _ _ (Write_holds _ _ _ Hh Hp) Hd).
  assert (E : (msg ++ p) ++ sizedesc (Z.of_nat (length msg)) = md_padded msg).
  { unfold md_padded, p; rewrite md_size_length, <- app_assoc; done. }
  rewrite E in Hh2; split; [|done]; cbn [fst]; unfold md_hash; f_equal; apply Hh2.
Qed.

(** Any sequence of writes, then the digest. *)
Lemma hash_pieces_spec buf pieces :
  length buf = B -> pieces_fit pieces -> hash_pieces buf pieces = md_hash (concat pieces).
Proof. intros Hb Hp; unfold hash_pieces; apply Finalize_holds, (Writes_hold []); [by apply new_holds|done]. Qed.

(** ** Keyed hashing *)

Lemma write_at_0 src dst : write_at 0 src dst = src ++ drop (length src) dst.
Proof. done. Qed.

Lemma hmac_rkey_spec rkey buf_k key :
  length rkey = B -> length buf_k = B -> Z.of_nat (length key) + Z.of_nat B < 2 ^ 64 ->
  hmac_rkey out rkey buf_k key = md_hmac_key key.
Proof.
  intros Hr Hb Hk; pose proof md_out_block as Ho; unfold hmac_rkey, md_hmac_key; destruct (Nat.leb_spec (length key) B) as [Hle|Hgt].
  - rewrite write_at_0; rewrite (write_at_app (length key)) by done.
    rewrite drop_ge, app_nil_r; [done|]; rewrite length_replicate, length_drop; lia.
  - assert (E : (Finalize (Write (new_hasher buf_k) key)).1 = md_hash key).
    { apply Finalize_holds, (Write_holds []); [by apply new_holds|done]. }
    rewrite E, write_at_0; rewrite (write_at_app out) by apply md_out_length.
    rewrite md_out_length; rewrite drop_ge, app_nil_r; [done|]; rewrite length_replicate, length_drop; lia.
Qed.

Lemma md_hmac_key_length key : length (md_hmac_key key) = B.
Proof.
  pose proof md_out_block as Ho; unfold md_hmac_key; rewrite length_app, length_replicate.
  destruct (Nat.leb_spec (length key) B); rewrite ?md_out_length; lia.
Qed.

(** What the two members hold. *)
Lemma new_hmac_holds rkey buf_o buf_i buf_k key :
  length rkey = B -> length buf_o = B -> length buf_i = B -> length buf_k = B ->
  Z.of_nat (length key) + Z.of_nat B < 2 ^ 64 ->
  let m := new_hmac out rkey buf_o buf_i buf_k key in
  holds (map (fun b => Z.lxor b 0x5c) (md_hmac_key key)) m.(outer) /\
  holds (map (fun b => Z.lxor b 0x36) (md_hmac_key key)) m.(inner).
Proof.
  intros Hr Ho Hi Hk Hl m; unfold m, new_hmac; cbn [outer inner]; rewrite hmac_rkey_spec, map_map by done.
  pose proof (md_hmac_key_length key) as Hkl; split.
  - apply (Write_holds []); [by apply new_holds|rewrite length_map; lia].
  - replace (map (fun x => Z.lxor (Z.lxor x 92) (Z.lxor 92 54)) (md_hmac_key key)) with (map (fun b => Z.lxor b 0x36) (md_hmac_key key)).
    + apply (Write_holds []); [by apply new_holds|rewrite length_map; lia].
    + apply map_ext; intros b; rewrite Z.lxor_assoc, <- (Z.lxor_assoc 92), Z.lxor_nilpotent, Z.lxor_0_l; done.
Qed.

Lemma hmac_writes_inner pieces m : fold_left hmac_Write pieces m = Hmac m.(outer) (fold_left Write pieces m.(inner)).
Proof. revert m; induction pieces as [|d ds IH]; intros m; cbn [fold_left]; [by destruct m|]; rewrite IH; done. Qed.

Lemma hmac_pieces_spec rkey buf_o buf_i buf_k key pieces :
  length rkey = B -> length buf_o = B -> length buf_i = B -> length buf_k = B ->
  Z.of_nat (length key) + Z.of_nat B < 2 ^ 64 -> pieces_fit pieces ->
  hmac_pieces out rkey buf_o buf_i buf_k key pieces = md_hmac key (concat pieces).
Proof.
  intros Hr Ho Hi Hk Hl Hp; pose proof md_out_block as Hob.
  destruct (new_hmac_holds rkey buf_o buf_i buf_k key Hr Ho Hi Hk Hl) as [Hho Hhi].
  unfold hmac_pieces; rewrite hmac_writes_inner; unfold hmac_Finalize; cbn [outer inner].
  destruct (Finalize_holds _ _ (Writes_hold _ _ pieces Hhi Hp)) as [E _].
  destruct (Finalize (fold_left Write pieces _)) as [temp inn]; cbn [fst] in E; subst temp.
  set (t := md_hash _); assert (Ht : Z.of_nat (length t) + Z.of_nat B < 2 ^ 64) by (unfold t; rewrite md_out_length; lia).
  destruct (Finalize_holds _ _ (Write_holds _ _ t Hho Ht)) as [E _]; destruct (Finalize (Write _ t)) as [hash o]; exact E.
Qed.

End Laws.

(** ** A hash function against its reference

    The code and the reference have the same blocks, initial values and padding;
    the states have [n] words. *)
Section Reference.
Context (M : MdFun) (n : nat) (H0 : list Z) (compress : list Z -> list Z -> list Z) (enc : list Z -> list Z).
Context (HI : Initialize (MdFun := M) = H0) (HH : length H0 = n).
Context (HT : forall s b, length s = n -> Transform (MdFun := M) s b = compress s b).
Context (HC : forall s b, length s = n -> length (compress s b) = n).
Context (HD : forall s, length s = n -> md_digest (MdFun := M) s = enc s).

Lemma md_after_reference msg k :
  md_after (M := M) msg k = for_range 0 k (fun i H => compress H (read_at (i * md_block) md_block msg)) H0 /\
  length (md_after (M := M) msg k) = n.
Proof.
  unfold md_after; rewrite HI.
  apply (for_range_sim (fun _ s t => s = t /\ length s = n)); [lia|done|].
  intros i s t _ [<- Hs]; rewrite HT by done; split; [done|by apply HC].
Qed.

Lemma md_hash_reference msg p :
  md_padded (M := M) msg = p ->
  md_hash (M := M) msg = enc (for_range 0 (length p / md_block) (fun i H => compress H (read_at (i * md_block) md_block p)) H0).
Proof.
  intros <-; unfold md_hash; destruct (md_after_reference (md_padded msg) (length (md_padded msg) / md_block)) as [E El].
  rewrite HD, E by done; done.
Qed.

End Reference.

(** ** The size field *)

Lemma shiftl3 n : Z.shiftl n 3 = 8 * n.
Proof. rewrite Z.shiftl_mul_pow2 by lia; lia. Qed.

Lemma size_field n : be_bytes 8 (u64 (Z.shiftl n 3)) = be_bytes 8 (8 * n).
Proof. rewrite shiftl3; apply (be_bytes_wrap 8). Qed.

Lemma size_field_wrap n : be_bytes 8 (8 * u64 n) = be_bytes 8 (8 * n).
Proof. rewrite <- (be_bytes_wrap 8 (8 * u64 n)), <- (be_bytes_wrap 8 (8 * n)); f_equal; apply Zmult_mod_idemp_r. Qed.

Lemma le_size_field n : le_bytes 8 (u64 (Z.shiftl n 3)) = le_bytes 8 (8 * n).
Proof. rewrite shiftl3; apply (le_bytes_wrap 8). Qed.

Lemma le_size_field_wrap n : le_bytes 8 (8 * u64 n) = le_bytes 8 (8 * n).
Proof. rewrite <- (le_bytes_wrap 8 (8 * u64 n)), <- (le_bytes_wrap 8 (8 * n)); f_equal; apply Zmult_mod_idemp_r. Qed.
