(* ===== verification/Fips180.v ===== *)
(** Reference definitions of the hash functions the node uses beside the proof of
    work: SHA-1, SHA-256 and SHA-512 of FIPS 180-4, with the constants from their
    definitions as roots of primes. *)

From S2P Require Import Prelude.

(** HMAC of RFC 2104 over a hash function with blocks of [B] bytes. *)
Definition hmac_key (H : list Z -> list Z) (B : nat) (key : list Z) : list Z :=
  let k := if (B <? length key)%nat then H key else key in
  k ++ replicate (B - length k) 0.
Definition hmac_of (H : list Z -> list Z) (B : nat) (key text : list Z) : list Z :=
  let k := hmac_key H B key in
  H (map (Z.lxor 0x5c) k ++ H (map (Z.lxor 0x36) k ++ text)).

Module Fips180.

(** ** Constants *)

Definition is_prime (n : nat) : bool := forallb (fun d => negb (n mod d =? 0)%nat) (seq 2 (n - 2)).
Definition primes (n bound : nat) : list Z := map Z.of_nat (take n (List.filter is_prime (seq 2 bound))).

(** The greatest [r] below [2 ^ n] with [r ^ 3 <= x]. *)
Definition cbrt (n : nat) (x : Z) : Z :=
  fold_left (fun r i => let r' := r + 2 ^ Z.of_nat i in if r' ^ 3 <=? x then r' else r) (rev (seq 0 n)) 0.

(** The first [w] bits of the fractional parts of the roots. *)
Definition sqrt_frac (w p : Z) : Z := Z.sqrt (p * 2 ^ (2 * w)) mod 2 ^ w.
Definition cbrt_frac (w p : Z) : Z := cbrt (Z.to_nat w + 8) (p * 2 ^ (3 * w)) mod 2 ^ w.

(** ** SHA-256 and SHA-512 *)

Record params := {
  word_bytes : nat;
  rounds : nat;
  (** rotations of the functions of section 4.1; the last of [s0] and [s1] is a shift *)
  S0 : Z * Z * Z; S1 : Z * Z * Z; s0 : Z * Z * Z; s1 : Z * Z * Z
}.

Definition sha256 : params :=
  {| word_bytes := 4; rounds := 64; S0 := (2, 13, 22); S1 := (6, 11, 25); s0 := (7, 18, 3); s1 := (17, 19, 10) |}.
Definition sha512 : params :=
  {| word_bytes := 8; rounds := 80; S0 := (28, 34, 39); S1 := (14, 18, 41); s0 := (1, 8, 7); s1 := (19, 61, 6) |}.

Section Params.
Variable P : params.

Definition wbits : Z := 8 * Z.of_nat P.(word_bytes).
Definition add (x y : Z) : Z := wrap wbits (x + y).

Definition K : list Z := map (cbrt_frac wbits) (primes P.(rounds) 450).
Definition H0 : list Z := map (sqrt_frac wbits) (primes 8 30).

Definition ROTR (n x : Z) : Z := Z.lor (Z.shiftr x n) (wrap wbits (Z.shiftl x (wbits - n))).
Definition SHR (n x : Z) : Z := Z.shiftr x n.
Definition Ch (x y z : Z) : Z := Z.lxor (Z.land x y) (Z.land (Z.lnot x) z).
Definition Maj (x y z : Z) : Z := Z.lxor (Z.lxor (Z.land x y) (Z.land x z)) (Z.land y z).
Definition Sum (n : Z * Z * Z) (x : Z) : Z := let '(i, j, k) := n in Z.lxor (Z.lxor (ROTR i x) (ROTR j x)) (ROTR k x).
Definition sigma (n : Z * Z * Z) (x : Z) : Z := let '(i, j, k) := n in Z.lxor (Z.lxor (ROTR i x) (ROTR j x)) (SHR k x).

(** The message schedule of a block. *)
Definition M (block : list Z) (t : nat) : Z := be_word (read_at (t * P.(word_bytes)) P.(word_bytes) block).
Definition W (block : list Z) : list Z :=
  for_range 16 P.(rounds) (fun t W =>
    W ++ [add (add (sigma P.(s1) (W !!! (t - 2)%nat)) (W !!! (t - 7)%nat)) (add (sigma P.(s0) (W !!! (t - 15)%nat)) (W !!! (t - 16)%nat))])
    (map (M block) (seq 0 16)).

(** Step 3 of section 6.2.2. *)
Definition step (k w : Z) (v : list Z) : list Z :=
  let a := v !!! 0%nat in let b := v !!! 1%nat in let c := v !!! 2%nat in let d := v !!! 3%nat in
  let e := v !!! 4%nat in let f := v !!! 5%nat in let g := v !!! 6%nat in let h := v !!! 7%nat in
  let T1 := add (add (add (add h (Sum P.(S1) e)) (Ch e f g)) k) w in
  let T2 := add (Sum P.(S0) a) (Maj a b c) in
  [add T1 T2; a; b; c; add d T1; e; f; g].

Definition compress (H block : list Z) : list Z :=
  let v := for_range 0 P.(rounds) (fun t => step (K !!! t) (W block !!! t)) H in
  map (fun i => add (v !!! i) (H !!! i)) (seq 0 8).

(** ** Padding: section 5.1 *)

Definition block_bytes : nat := (16 * P.(word_bytes))%nat.

(** The byte 0x80 is the bit 1 and seven zeros; the length in bits takes two words. *)
Definition pad (msg : list Z) : list Z :=
  let l := Z.of_nat (length msg) in
  let zeros := Z.to_nat ((Z.of_nat block_bytes - Z.of_nat (2 * P.(word_bytes)) - 1 - l) mod Z.of_nat block_bytes) in
  msg ++ [0x80] ++ replicate zeros 0 ++ be_bytes (2 * P.(word_bytes)) (8 * l).

Definition hash (msg : list Z) : list Z :=
  let m := pad msg in
  let H := for_range 0 (length m / block_bytes) (fun i H => compress H (read_at (i * block_bytes) block_bytes m)) H0 in
  concat (map (be_bytes P.(word_bytes)) H).

End Params.

(** ** SHA-1 *)

Module Sha1.

Definition ROTL (n x : Z) : Z := Z.lor (wrap 32 (Z.shiftl x n)) (Z.shiftr x (32 - n)).
Definition add (x y : Z) : Z := wrap 32 (x + y).

Definition Parity (x y z : Z) : Z := Z.lxor (Z.lxor x y) z.
Definition f (t : nat) : Z -> Z -> Z -> Z :=
  if (t <? 20)%nat then Ch else if (t <? 40)%nat then Parity else if (t <? 60)%nat then Maj else Parity.

(** Square roots of 2, 3, 5 and 10, times [2 ^ 30] *)
Definition K (t : nat) : Z :=
  Z.sqrt ((if (t <? 20)%nat then 2 else if (t <? 40)%nat then 3 else if (t <? 60)%nat then 5 else 10) * 2 ^ 60).

Definition H0 : list Z := [0x67452301; 0xEFCDAB89; 0x98BADCFE; 0x10325476; 0xC3D2E1F0].

Definition M (block : list Z) (t : nat) : Z := be_word (read_at (t * 4) 4 block).
Definition W (block : list Z) : list Z :=
  for_range 16 80 (fun t W =>
    W ++ [ROTL 1 (Z.lxor (Z.lxor (Z.lxor (W !!! (t - 3)%nat) (W !!! (t - 8)%nat)) (W !!! (t - 14)%nat)) (W !!! (t - 16)%nat))])
    (map (M block) (seq 0 16)).

Definition step (t : nat) (w : Z) (v : list Z) : list Z :=
  let a := v !!! 0%nat in let b := v !!! 1%nat in let c := v !!! 2%nat in
  let d := v !!! 3%nat in let e := v !!! 4%nat in
  [add (add (add (add (ROTL 5 a) (f t b c d)) e) (K t)) w; a; ROTL 30 b; c; d].

Definition compress (H block : list Z) : list Z :=
  let v := for_range 0 80 (fun t => step t (W block !!! t)) H in
  map (fun i => add (v !!! i) (H !!! i)) (seq 0 5).

Definition hash (msg : list Z) : list Z :=
  let m := pad sha256 msg in
  let H := for_range 0 (length m / 64) (fun i H => compress H (read_at (i * 64) 64 m)) H0 in
  concat (map (be_bytes 4) H).

End Sha1.


(** ** RIPEMD-160, after Dobbertin, Bosselaers and Preneel *)

Module Ripemd160.

Definition rol (n x : Z) : Z := Sha1.ROTL n x.
Definition add (x y : Z) : Z := wrap 32 (x + y).
Definition neg (x : Z) : Z := wrap 32 (Z.lnot x).

Definition f (j : nat) (x y z : Z) : Z :=
  match (j / 16)%nat with
  | 0%nat => Z.lxor (Z.lxor x y) z
  | 1%nat => Z.lor (Z.land x y) (Z.land (neg x) z)
  | 2%nat => Z.lxor (Z.lor x (neg y)) z
  | 3%nat => Z.lor (Z.land x z) (Z.land y (neg z))
  | _ => Z.lxor x (Z.lor y (neg z))
  end.

(** Square and cube roots of 2, 3, 5 and 7, times [2 ^ 30] *)
Definition K (j : nat) : Z := [0; Z.sqrt (2 * 2 ^ 60); Z.sqrt (3 * 2 ^ 60); Z.sqrt (5 * 2 ^ 60); Z.sqrt (7 * 2 ^ 60)] !!! (j / 16)%nat.
Definition K' (j : nat) : Z := [cbrt 32 (2 * 2 ^ 90); cbrt 32 (3 * 2 ^ 90); cbrt 32 (5 * 2 ^ 90); cbrt 32 (7 * 2 ^ 90); 0] !!! (j / 16)%nat.

(** The selection of message words by the permutations rho and pi. *)
Definition rho (i : nat) : nat := ([7; 4; 13; 1; 10; 6; 15; 3; 12; 0; 9; 5; 2; 14; 11; 8] !!! i)%nat.
Definition pi (i : nat) : nat := ((9 * i + 5) mod 16)%nat.
Definition r (j : nat) : nat := Nat.iter (j / 16) rho (j mod 16)%nat.
Definition r' (j : nat) : nat := Nat.iter (j / 16) rho (pi (j mod 16)%nat).

(** The rotations, by step and message word; both lines use them. *)
Definition shifts : list (list Z) :=
  [[11; 14; 15; 12; 5; 8; 7; 9; 11; 13; 14; 15; 6; 7; 9; 8];
   [12; 13; 11; 15; 6; 9; 9; 7; 12; 15; 11; 13; 7; 8; 7; 7];
   [13; 15; 14; 11; 7; 7; 6; 8; 13; 14; 13; 12; 5; 5; 6; 9];
   [14; 11; 12; 14; 8; 6; 5; 5; 15; 12; 15; 14; 9; 9; 8; 6];
   [15; 12; 13; 13; 9; 5; 8; 6; 14; 11; 12; 11; 8; 6; 5; 5]].
Definition s (j : nat) : Z := (shifts !!! (j / 16)%nat) !!! r j.
Definition s' (j : nat) : Z := (shifts !!! (j / 16)%nat) !!! r' j.

Definition step (fx : Z -> Z -> Z -> Z) (k x rot : Z) (v : list Z) : list Z :=
  let a := v !!! 0%nat in let b := v !!! 1%nat in let c := v !!! 2%nat in
  let d := v !!! 3%nat in let e := v !!! 4%nat in
  [e; add (rol rot (add (add (add a (fx b c d)) x) k)) e; b; rol 10 c; d].

Definition X (block : list Z) (i : nat) : Z := le_word (read_at (i * 4) 4 block).

Definition compress (h block : list Z) : list Z :=
  let v := for_range 0 80 (fun j => step (f j) (K j) (X block (r j)) (s j)) h in
  let v' := for_range 0 80 (fun j => step (f (79 - j)) (K' j) (X block (r' j)) (s' j)) h in
  map (fun i => add (add (h !!! ((i + 1) mod 5)%nat) (v !!! ((i + 2) mod 5)%nat)) (v' !!! ((i + 3) mod 5)%nat)) (seq 0 5).

Definition H0 : list Z := Sha1.H0.

(** As SHA-256, with the length in little-endian order. *)
Definition pad (msg : list Z) : list Z :=
  let l := Z.of_nat (length msg) in
  let zeros := Z.to_nat ((64 - 8 - 1 - l) mod 64) in
  msg ++ [0x80] ++ replicate zeros 0 ++ le_bytes 8 (8 * l).

Definition hash (msg : list Z) : list Z :=
  let m := pad msg in
  let h := for_range 0 (length m / 64) (fun i h => compress h (read_at (i * 64) 64 m)) H0 in
  concat (map (le_bytes 4) h).

End Ripemd160.

End Fips180.
