(* ===== verification/Sha2.v ===== *)
(** crypto/sha256.cpp and crypto/sha512.cpp.

    A line of [Transform] is the call of [Round] with its registers, its constant
    and the expression for the word of the message schedule; [sha_lines] is the
    text of the function.  The array of registers is changed in place; the
    variables [w0] to [w15] are an array of 16 words, each set before it is read. *)

From S2P Require Import Prelude MdHash.

(** [w_i = ReadBE(chunk + off)], [w_i += sigma1(w_j) + w_k + sigma0(w_l)] and
    [w_i + sigma1(w_j) + w_k + sigma0(w_l)] *)
Inductive wexp := W_read (i off : nat) | W_add (i j k l : nat) | W_use (i j k l : nat).

Record line := Line { regs : list nat; kconst : Z; wx : wexp }.

(** The namespaces [sha256] and [sha512]; [uw] is the conversion to the word type. *)
Class Sha2Code := {
  sha_wbytes : nat;
  uw : Z -> Z;
  sha_Ch : Z -> Z -> Z -> Z; sha_Maj : Z -> Z -> Z -> Z;
  sha_Sigma0 : Z -> Z; sha_Sigma1 : Z -> Z; sha_sigma0 : Z -> Z; sha_sigma1 : Z -> Z;
  sha_IV : list Z;
  sha_lines : list line
}.

Section Code.
Context {C : Sha2Code}.

(** [Round(a, b, c, d, e, f, g, h, k, w)] on the registers [r]; [d] and [h] are references. *)
Definition Round (r : list nat) (k w : Z) (s : list Z) : list Z :=
  let a := s !!! (r !!! 0%nat) in let b := s !!! (r !!! 1%nat) in
  let c := s !!! (r !!! 2%nat) in let d := s !!! (r !!! 3%nat) in
  let e := s !!! (r !!! 4%nat) in let f := s !!! (r !!! 5%nat) in
  let g := s !!! (r !!! 6%nat) in let h := s !!! (r !!! 7%nat) in
  let t1 := uw (h + sha_Sigma1 e + sha_Ch e f g + k + w) in
  let t2 := uw (sha_Sigma0 a + sha_Maj a b c) in
  let s := <[r !!! 3%nat := uw (d + t1)]> s in
  <[r !!! 7%nat := uw (t1 + t2)]> s.

Definition exec_line (chunk : list Z) (st : list Z * list Z) (l : line) : list Z * list Z :=
  let '(s, w) := st in
  let '(x, w) :=
    match l.(wx) with
    | W_read i off => let x := be_word (read_at off sha_wbytes chunk) in (x, <[i := x]> w)
    | W_add i j k l => let x := uw (w !!! i + (sha_sigma1 (w !!! j) + w !!! k + sha_sigma0 (w !!! l))) in (x, <[i := x]> w)
    | W_use i j k l => (uw (w !!! i + sha_sigma1 (w !!! j) + w !!! k + sha_sigma0 (w !!! l)), w)
    end in
  (Round l.(regs) l.(kconst) x s, w).

Definition sha2_Transform (s chunk : list Z) : list Z :=
  let '(r, _) := fold_left (exec_line chunk) sha_lines (s, replicate 16 0) in
  map (fun i => uw (s !!! i + r !!! i)) (seq 0 8).

End Code.

(** The registers *)
#[local] Abbreviation a := 0%nat.
#[local] Abbreviation b := 1%nat.
#[local] Abbreviation c := 2%nat.
#[local] Abbreviation d := 3%nat.
#[local] Abbreviation e := 4%nat.
#[local] Abbreviation f := 5%nat.
#[local] Abbreviation g := 6%nat.
#[local] Abbreviation h := 7%nat.

(** ** SHA-256: namespace sha256 *)

Module Sha256.

Definition Ch (x y z : Z) : Z := Z.lxor z (Z.land x (Z.lxor y z)).
Definition Maj (x y z : Z) : Z := Z.lor (Z.land x y) (Z.land z (Z.lor x y)).
Definition Sigma0 (x : Z) : Z :=
  Z.lxor (Z.lxor (Z.lor (Z.shiftr x 2) (u32 (Z.shiftl x 30))) (Z.lor (Z.shiftr x 13) (u32 (Z.shiftl x 19)))) (Z.lor (Z.shiftr x 22) (u32 (Z.shiftl x 10))).
Definition Sigma1 (x : Z) : Z :=
  Z.lxor (Z.lxor (Z.lor (Z.shiftr x 6) (u32 (Z.shiftl x 26))) (Z.lor (Z.shiftr x 11) (u32 (Z.shiftl x 21)))) (Z.lor (Z.shiftr x 25) (u32 (Z.shiftl x 7))).
Definition sigma0 (x : Z) : Z :=
  Z.lxor (Z.lxor (Z.lor (Z.shiftr x 7) (u32 (Z.shiftl x 25))) (Z.lor (Z.shiftr x 18) (u32 (Z.shiftl x 14)))) (Z.shiftr x 3).
Definition sigma1 (x : Z) : Z :=
  Z.lxor (Z.lxor (Z.lor (Z.shiftr x 17) (u32 (Z.shiftl x 15))) (Z.lor (Z.shiftr x 19) (u32 (Z.shiftl x 13)))) (Z.shiftr x 10).

Definition IV : list Z :=
  [0x6a09e667; 0xbb67ae85; 0x3c6ef372; 0xa54ff53a;
   0x510e527f; 0x9b05688c; 0x1f83d9ab; 0x5be0cd19].

Definition lines : list line := [
  Line [a; b; c; d; e; f; g; h] 0x428a2f98 (W_read 0 0);
  Line [h; a; b; c; d; e; f; g] 0x71374491 (W_read 1 4);
  Line [g; h; a; b; c; d; e; f] 0xb5c0fbcf (W_read 2 8);
  Line [f; g; h; a; b; c; d; e] 0xe9b5dba5 (W_read 3 12);
  Line [e; f; g; h; a; b; c; d] 0x3956c25b (W_read 4 16);
  Line [d; e; f; g; h; a; b; c] 0x59f111f1 (W_read 5 20);
  Line [c; d; e; f; g; h; a; b] 0x923f82a4 (W_read 6 24);
  Line [b; c; d; e; f; g; h; a] 0xab1c5ed5 (W_read 7 28);
  Line [a; b; c; d; e; f; g; h] 0xd807aa98 (W_read 8 32);
  Line [h; a; b; c; d; e; f; g] 0x12835b01 (W_read 9 36);
  Line [g; h; a; b; c; d; e; f] 0x243185be (W_read 10 40);
  Line [f; g; h; a; b; c; d; e] 0x550c7dc3 (W_read 11 44);
  Line [e; f; g; h; a; b; c; d] 0x72be5d74 (W_read 12 48);
  Line [d; e; f; g; h; a; b; c] 0x80deb1fe (W_read 13 52);
  Line [c; d; e; f; g; h; a; b] 0x9bdc06a7 (W_read 14 56);
  Line [b; c; d; e; f; g; h; a] 0xc19bf174 (W_read 15 60);
  Line [a; b; c; d; e; f; g; h] 0xe49b69c1 (W_add 0 14 9 1);
  Line [h; a; b; c; d; e; f; g] 0xefbe4786 (W_add 1 15 10 2);
  Line [g; h; a; b; c; d; e; f] 0x0fc19dc6 (W_add 2 0 11 3);
  Line [f; g; h; a; b; c; d; e] 0x240ca1cc (W_add 3 1 12 4);
  Line [e; f; g; h; a; b; c; d] 0x2de92c6f (W_add 4 2 13 5);
  Line [d; e; f; g; h; a; b; c] 0x4a7484aa (W_add 5 3 14 6);
  Line [c; d; e; f; g; h; a; b] 0x5cb0a9dc (W_add 6 4 15 7);
  Line [b; c; d; e; f; g; h; a] 0x76f988da (W_add 7 5 0 8);
  Line [a; b; c; d; e; f; g; h] 0x983e5152 (W_add 8 6 1 9);
  Line [h; a; b; c; d; e; f; g] 0xa831c66d (W_add 9 7 2 10);
  Line [g; h; a; b; c; d; e; f] 0xb00327c8 (W_add 10 8 3 11);
  Line [f; g; h; a; b; c; d; e] 0xbf597fc7 (W_add 11 9 4 12);
  Line [e; f; g; h; a; b; c; d] 0xc6e00bf3 (W_add 12 10 5 13);
  Line [d; e; f; g; h; a; b; c] 0xd5a79147 (W_add 13 11 6 14);
  Line [c; d; e; f; g; h; a; b] 0x06ca6351 (W_add 14 12 7 15);
  Line [b; c; d; e; f; g; h; a] 0x14292967 (W_add 15 13 8 0);
  Line [a; b; c; d; e; f; g; h] 0x27b70a85 (W_add 0 14 9 1);
  Line [h; a; b; c; d; e; f; g] 0x2e1b2138 (W_add 1 15 10 2);
  Line [g; h; a; b; c; d; e; f] 0x4d2c6dfc (W_add 2 0 11 3);
  Line [f; g; h; a; b; c; d; e] 0x53380d13 (W_add 3 1 12 4);
  Line [e; f; g; h; a; b; c; d] 0x650a7354 (W_add 4 2 13 5);
  Line [d; e; f; g; h; a; b; c] 0x766a0abb (W_add 5 3 14 6);
  Line [c; d; e; f; g; h; a; b] 0x81c2c92e (W_add 6 4 15 7);
  Line [b; c; d; e; f; g; h; a] 0x92722c85 (W_add 7 5 0 8);
  Line [a; b; c; d; e; f; g; h] 0xa2bfe8a1 (W_add 8 6 1 9);
  Line [h; a; b; c; d; e; f; g] 0xa81a664b (W_add 9 7 2 10);
  Line [g; h; a; b; c; d; e; f] 0xc24b8b70 (W_add 10 8 3 11);
  Line [f; g; h; a; b; c; d; e] 0xc76c51a3 (W_add 11 9 4 12);
  Line [e; f; g; h; a; b; c; d] 0xd192e819 (W_add 12 10 5 13);
  Line [d; e; f; g; h; a; b; c] 0xd6990624 (W_add 13 11 6 14);
  Line [c; d; e; f; g; h; a; b] 0xf40e3585 (W_add 14 12 7 15);
  Line [b; c; d; e; f; g; h; a] 0x106aa070 (W_add 15 13 8 0);
  Line [a; b; c; d; e; f; g; h] 0x19a4c116 (W_add 0 14 9 1);
  Line [h; a; b; c; d; e; f; g] 0x1e376c08 (W_add 1 15 10 2);
  Line [g; h; a; b; c; d; e; f] 0x2748774c (W_add 2 0 11 3);
  Line [f; g; h; a; b; c; d; e] 0x34b0bcb5 (W_add 3 1 12 4);
  Line [e; f; g; h; a; b; c; d] 0x391c0cb3 (W_add 4 2 13 5);
  Line [d; e; f; g; h; a; b; c] 0x4ed8aa4a (W_add 5 3 14 6);
  Line [c; d; e; f; g; h; a; b] 0x5b9cca4f (W_add 6 4 15 7);
  Line [b; c; d; e; f; g; h; a] 0x682e6ff3 (W_add 7 5 0 8);
  Line [a; b; c; d; e; f; g; h] 0x748f82ee (W_add 8 6 1 9);
  Line [h; a; b; c; d; e; f; g] 0x78a5636f (W_add 9 7 2 10);
  Line [g; h; a; b; c; d; e; f] 0x84c87814 (W_add 10 8 3 11);
  Line [f; g; h; a; b; c; d; e] 0x8cc70208 (W_add 11 9 4 12);
  Line [e; f; g; h; a; b; c; d] 0x90befffa (W_add 12 10 5 13);
  Line [d; e; f; g; h; a; b; c] 0xa4506ceb (W_add 13 11 6 14);
  Line [c; d; e; f; g; h; a; b] 0xbef9a3f7 (W_use 14 12 7 15);
  Line [b; c; d; e; f; g; h; a] 0xc67178f2 (W_use 15 13 8 0)
].

#[export] Instance code : Sha2Code := {
  sha_wbytes := 4; uw := u32; sha_Ch := Ch; sha_Maj := Maj; sha_Sigma0 := Sigma0; sha_Sigma1 := Sigma1;
  sha_sigma0 := sigma0; sha_sigma1 := sigma1; sha_IV := IV; sha_lines := lines
}.

End Sha256.

(** ** SHA-512: namespace sha512 *)

Module Sha512.

Definition Ch (x y z : Z) : Z := Z.lxor z (Z.land x (Z.lxor y z)).
Definition Maj (x y z : Z) : Z := Z.lor (Z.land x y) (Z.land z (Z.lor x y)).
Definition Sigma0 (x : Z) : Z :=
  Z.lxor (Z.lxor (Z.lor (Z.shiftr x 28) (u64 (Z.shiftl x 36))) (Z.lor (Z.shiftr x 34) (u64 (Z.shiftl x 30)))) (Z.lor (Z.shiftr x 39) (u64 (Z.shiftl x 25))).
Definition Sigma1 (x : Z) : Z :=
  Z.lxor (Z.lxor (Z.lor (Z.shiftr x 14) (u64 (Z.shiftl x 50))) (Z.lor (Z.shiftr x 18) (u64 (Z.shiftl x 46)))) (Z.lor (Z.shiftr x 41) (u64 (Z.shiftl x 23))).
Definition sigma0 (x : Z) : Z :=
  Z.lxor (Z.lxor (Z.lor (Z.shiftr x 1) (u64 (Z.shiftl x 63))) (Z.lor (Z.shiftr x 8) (u64 (Z.shiftl x 56)))) (Z.shiftr x 7).
Definition sigma1 (x : Z) : Z :=
  Z.lxor (Z.lxor (Z.lor (Z.shiftr x 19) (u64 (Z.shiftl x 45))) (Z.lor (Z.shiftr x 61) (u64 (Z.shiftl x 3)))) (Z.shiftr x 6).

Definition IV : list Z :=
  [0x6a09e667f3bcc908; 0xbb67ae8584caa73b; 0x3c6ef372fe94f82b; 0xa54ff53a5f1d36f1;
   0x510e527fade682d1; 0x9b05688c2b3e6c1f; 0x1f83d9abfb41bd6b; 0x5be0cd19137e2179].

Definition lines : list line := [
  Line [a; b; c; d; e; f; g; h] 0x428a2f98d728ae22 (W_read 0 0);
  Line [h; a; b; c; d; e; f; g] 0x7137449123ef65cd (W_read 1 8);
  Line [g; h; a; b; c; d; e; f] 0xb5c0fbcfec4d3b2f (W_read 2 16);
  Line [f; g; h; a; b; c; d; e] 0xe9b5dba58189dbbc (W_read 3 24);
  Line [e; f; g; h; a; b; c; d] 0x3956c25bf348b538 (W_read 4 32);
  Line [d; e; f; g; h; a; b; c] 0x59f111f1b605d019 (W_read 5 40);
  Line [c; d; e; f; g; h; a; b] 0x923f82a4af194f9b (W_read 6 48);
  Line [b; c; d; e; f; g; h; a] 0xab1c5ed5da6d8118 (W_read 7 56);
  Line [a; b; c; d; e; f; g; h] 0xd807aa98a3030242 (W_read 8 64);
  Line [h; a; b; c; d; e; f; g] 0x12835b0145706fbe (W_read 9 72);
  Line [g; h; a; b; c; d; e; f] 0x243185be4ee4b28c (W_read 10 80);
  Line [f; g; h; a; b; c; d; e] 0x550c7dc3d5ffb4e2 (W_read 11 88);
  Line [e; f; g; h; a; b; c; d] 0x72be5d74f27b896f (W_read 12 96);
  Line [d; e; f; g; h; a; b; c] 0x80deb1fe3b1696b1 (W_read 13 104);
  Line [c; d; e; f; g; h; a; b] 0x9bdc06a725c71235 (W_read 14 112);
  Line [b; c; d; e; f; g; h; a] 0xc19bf174cf692694 (W_read 15 120);
  Line [a; b; c; d; e; f; g; h] 0xe49b69c19ef14ad2 (W_add 0 14 9 1);
  Line [h; a; b; c; d; e; f; g] 0xefbe4786384f25e3 (W_add 1 15 10 2);
  Line [g; h; a; b; c; d; e; f] 0x0fc19dc68b8cd5b5 (W_add 2 0 11 3);
  Line [f; g; h; a; b; c; d; e] 0x240ca1cc77ac9c65 (W_add 3 1 12 4);
  Line [e; f; g; h; a; b; c; d] 0x2de92c6f592b0275 (W_add 4 2 13 5);
  Line [d; e; f; g; h; a; b; c] 0x4a7484aa6ea6e483 (W_add 5 3 14 6);
  Line [c; d; e; f; g; h; a; b] 0x5cb0a9dcbd41fbd4 (W_add 6 4 15 7);
  Line [b; c; d; e; f; g; h; a] 0x76f988da831153b5 (W_add 7 5 0 8);
  Line [a; b; c; d; e; f; g; h] 0x983e5152ee66dfab (W_add 8 6 1 9);
  Line [h; a; b; c; d; e; f; g] 0xa831c66d2db43210 (W_add 9 7 2 10);
  Line [g; h; a; b; c; d; e; f] 0xb00327c898fb213f (W_add 10 8 3 11);
  Line [f; g; h; a; b; c; d; e] 0xbf597fc7beef0ee4 (W_add 11 9 4 12);
  Line [e; f; g; h; a; b; c; d] 0xc6e00bf33da88fc2 (W_add 12 10 5 13);
  Line [d; e; f; g; h; a; b; c] 0xd5a79147930aa725 (W_add 13 11 6 14);
  Line [c; d; e; f; g; h; a; b] 0x06ca6351e003826f (W_add 14 12 7 15);
  Line [b; c; d; e; f; g; h; a] 0x142929670a0e6e70 (W_add 15 13 8 0);
  Line [a; b; c; d; e; f; g; h] 0x27b70a8546d22ffc (W_add 0 14 9 1);
  Line [h; a; b; c; d; e; f; g] 0x2e1b21385c26c926 (W_add 1 15 10 2);
  Line [g; h; a; b; c; d; e; f] 0x4d2c6dfc5ac42aed (W_add 2 0 11 3);
  Line [f; g; h; a; b; c; d; e] 0x53380d139d95b3df (W_add 3 1 12 4);
  Line [e; f; g; h; a; b; c; d] 0x650a73548baf63de (W_add 4 2 13 5);
  Line [d; e; f; g; h; a; b; c] 0x766a0abb3c77b2a8 (W_add 5 3 14 6);
  Line [c; d; e; f; g; h; a; b] 0x81c2c92e47edaee6 (W_add 6 4 15 7);
  Line [b; c; d; e; f; g; h; a] 0x92722c851482353b (W_add 7 5 0 8);
  Line [a; b; c; d; e; f; g; h] 0xa2bfe8a14cf10364 (W_add 8 6 1 9);
  Line [h; a; b; c; d; e; f; g] 0xa81a664bbc423001 (W_add 9 7 2 10);
  Line [g; h; a; b; c; d; e; f] 0xc24b8b70d0f89791 (W_add 10 8 3 11);
  Line [f; g; h; a; b; c; d; e] 0xc76c51a30654be30 (W_add 11 9 4 12);
  Line [e; f; g; h; a; b; c; d] 0xd192e819d6ef5218 (W_add 12 10 5 13);
  Line [d; e; f; g; h; a; b; c] 0xd69906245565a910 (W_add 13 11 6 14);
  Line [c; d; e; f; g; h; a; b] 0xf40e35855771202a (W_add 14 12 7 15);
  Line [b; c; d; e; f; g; h; a] 0x106aa07032bbd1b8 (W_add 15 13 8 0);
  Line [a; b; c; d; e; f; g; h] 0x19a4c116b8d2d0c8 (W_add 0 14 9 1);
  Line [h; a; b; c; d; e; f; g] 0x1e376c085141ab53 (W_add 1 15 10 2);
  Line [g; h; a; b; c; d; e; f] 0x2748774cdf8eeb99 (W_add 2 0 11 3);
  Line [f; g; h; a; b; c; d; e] 0x34b0bcb5e19b48a8 (W_add 3 1 12 4);
  Line [e; f; g; h; a; b; c; d] 0x391c0cb3c5c95a63 (W_add 4 2 13 5);
  Line [d; e; f; g; h; a; b; c] 0x4ed8aa4ae3418acb (W_add 5 3 14 6);
  Line [c; d; e; f; g; h; a; b] 0x5b9cca4f7763e373 (W_add 6 4 15 7);
  Line [b; c; d; e; f; g; h; a] 0x682e6ff3d6b2b8a3 (W_add 7 5 0 8);
  Line [a; b; c; d; e; f; g; h] 0x748f82ee5defb2fc (W_add 8 6 1 9);
  Line [h; a; b; c; d; e; f; g] 0x78a5636f43172f60 (W_add 9 7 2 10);
  Line [g; h; a; b; c; d; e; f] 0x84c87814a1f0ab72 (W_add 10 8 3 11);
  Line [f; g; h; a; b; c; d; e] 0x8cc702081a6439ec (W_add 11 9 4 12);
  Line [e; f; g; h; a; b; c; d] 0x90befffa23631e28 (W_add 12 10 5 13);
  Line [d; e; f; g; h; a; b; c] 0xa4506cebde82bde9 (W_add 13 11 6 14);
  Line [c; d; e; f; g; h; a; b] 0xbef9a3f7b2c67915 (W_add 14 12 7 15);
  Line [b; c; d; e; f; g; h; a] 0xc67178f2e372532b (W_add 15 13 8 0);
  Line [a; b; c; d; e; f; g; h] 0xca273eceea26619c (W_add 0 14 9 1);
  Line [h; a; b; c; d; e; f; g] 0xd186b8c721c0c207 (W_add 1 15 10 2);
  Line [g; h; a; b; c; d; e; f] 0xeada7dd6cde0eb1e (W_add 2 0 11 3);
  Line [f; g; h; a; b; c; d; e] 0xf57d4f7fee6ed178 (W_add 3 1 12 4);
  Line [e; f; g; h; a; b; c; d] 0x06f067aa72176fba (W_add 4 2 13 5);
  Line [d; e; f; g; h; a; b; c] 0x0a637dc5a2c898a6 (W_add 5 3 14 6);
  Line [c; d; e; f; g; h; a; b] 0x113f9804bef90dae (W_add 6 4 15 7);
  Line [b; c; d; e; f; g; h; a] 0x1b710b35131c471b (W_add 7 5 0 8);
  Line [a; b; c; d; e; f; g; h] 0x28db77f523047d84 (W_add 8 6 1 9);
  Line [h; a; b; c; d; e; f; g] 0x32caab7b40c72493 (W_add 9 7 2 10);
  Line [g; h; a; b; c; d; e; f] 0x3c9ebe0a15c9bebc (W_add 10 8 3 11);
  Line [f; g; h; a; b; c; d; e] 0x431d67c49c100d4c (W_add 11 9 4 12);
  Line [e; f; g; h; a; b; c; d] 0x4cc5d4becb3e42b6 (W_add 12 10 5 13);
  Line [d; e; f; g; h; a; b; c] 0x597f299cfc657e2a (W_add 13 11 6 14);
  Line [c; d; e; f; g; h; a; b] 0x5fcb6fab3ad6faec (W_use 14 12 7 15);
  Line [b; c; d; e; f; g; h; a] 0x6c44198c4a475817 (W_use 15 13 8 0)
].

#[export] Instance code : Sha2Code := {
  sha_wbytes := 8; uw := u64; sha_Ch := Ch; sha_Maj := Maj; sha_Sigma0 := Sigma0; sha_Sigma1 := Sigma1;
  sha_sigma0 := sigma0; sha_sigma1 := sigma1; sha_IV := IV; sha_lines := lines
}.

End Sha512.

(** ** The classes CSHA256 and CSHA512 *)

Definition CSHA256 : MdFun := {|
  md_block := 64; pad_base := 119; Initialize := Sha256.IV; Transform := sha2_Transform (C := Sha256.code);
  sizedesc bytes := be_bytes 8 (u64 (Z.shiftl bytes 3));
  md_digest s := concat (map (fun i => be_bytes 4 (s !!! i)) (seq 0 8))
|}.

Definition CSHA512 : MdFun := {|
  md_block := 128; pad_base := 239; Initialize := Sha512.IV; Transform := sha2_Transform (C := Sha512.code);
  sizedesc bytes := write_at 8 (be_bytes 8 (u64 (Z.shiftl bytes 3))) (replicate 16 0);
  md_digest s := concat (map (fun i => be_bytes 8 (s !!! i)) (seq 0 8))
|}.
