(* ===== verification/Sha2Proofs.v ===== *)
(** Rounds written out one by one: message schedules that grow, registers that
    change their names from round to round, and schedules kept in 16 words.

    SHA-256 and SHA-512 of the node against FIPS 180-4: the unrolled rounds with
    rotating registers and a schedule kept in 16 words are the compression
    function of the standard, and the hasher objects compute its digest.

    CSHA256, CSHA512 and their keyed versions against FIPS 180-4 and RFC 2104. *)

From S2P Require Import Prelude MdHash MdProofs Fips180 Sha2.

(** ** Lists that grow by one element in each turn *)

Section Grow.
Context (F : nat -> list Z -> Z) (init : list Z) (n : nat).
Context (Hinit : length init = n).

Definition grow (m : nat) : list Z := for_range n m (fun t l => l ++ [F t l]) init.

Lemma grow_S m : (n <= m)%nat -> grow (m + 1) = grow m ++ [F m (grow m)].
Proof. intros; unfold grow; by rewrite for_range_S. Qed.

Lemma grow_length m : (n <= m)%nat -> length (grow m) = m.
Proof.
  intros Hm; unfold grow; apply (for_range_ind (fun t l => length l = t)); [done|done|].
  intros t l _ Hl; rewrite length_app, Hl; done.
Qed.

Lemma grow_prefix m k : (n <= m)%nat -> take m (grow (m + k)) = grow m.
Proof.
  intros Hm; induction k as [|k IH]; [rewrite Nat.add_0_r, take_ge; [done|rewrite grow_length; lia]|].
  replace (m + S k)%nat with ((m + k) + 1)%nat by lia; rewrite grow_S by lia.
  rewrite take_app_le; [done|rewrite grow_length; lia].
Qed.

Lemma grow_take m t : (n <= t <= m)%nat -> take t (grow m) = grow t.
Proof. intros Ht; replace m with (t + (m - t))%nat by lia; apply grow_prefix; lia. Qed.

(** The first elements are the given ones, the others are computed from those
    before them. *)
Lemma grow_init m t : (t < n <= m)%nat -> grow m !!! t = init !!! t.
Proof.
  intros Ht; rewrite <- (lookup_total_take_lt (grow m) n t) by lia; rewrite grow_take by lia.
  unfold grow; by rewrite for_range_empty.
Qed.

Lemma grow_next m t : (n <= t < m)%nat -> grow m !!! t = F t (take t (grow m)).
Proof.
  intros Ht; rewrite grow_take by lia; rewrite <- (lookup_total_take_lt (grow m) (t + 1) t) by lia.
  rewrite grow_take, grow_S by lia; apply list_lookup_total_middle; symmetry; apply grow_length; lia.
Qed.

End Grow.

(** ** Rotating registers *)

(** The numbers of the registers named first, second, ... in round [t], and the
    array that holds the values [v] under these names. *)
Definition names (n t : nat) : list nat := map (fun j => (j + (n - 1) * t) mod n)%nat (seq 0 n).
Definition rotated (n t : nat) (v : list Z) : list Z := map (fun p => v !!! ((p + t) mod n)%nat) (seq 0 n).

Lemma names_mod n t : (0 < n)%nat -> names n t = names n (t mod n).
Proof.
  intros Hn; unfold names; apply map_ext; intros j.
  rewrite <- (Nat.Div0.add_mod_idemp_r j ((n - 1) * (t mod n))), Nat.Div0.mul_mod_idemp_r, Nat.Div0.add_mod_idemp_r; done.
Qed.

Lemma rotated_mod n t v : (0 < n)%nat -> rotated n t v = rotated n (t mod n) v.
Proof. intros Hn; unfold rotated; apply map_ext; intros p; by rewrite Nat.Div0.add_mod_idemp_r. Qed.

Lemma rotated_mod_S n t v : (0 < n)%nat -> rotated n (t + 1) v = rotated n (t mod n + 1) v.
Proof. intros Hn; rewrite (rotated_mod n (t + 1)), (rotated_mod n (t mod n + 1)) by done; by rewrite Nat.Div0.add_mod_idemp_l. Qed.

(** ** A schedule in 16 words *)

Section Ring.
Context (W : nat -> Z) (lim : nat).

(** Before round [t] the array holds the last 16 words of the schedule; words
    from [lim] on are not stored. *)
Definition ring (t : nat) (w : list Z) : Prop :=
  length w = 16%nat /\ forall u, (t - 16 <= u < t)%nat -> (u < lim)%nat -> w !!! (u mod 16)%nat = W u.

Lemma ring_start w : length w = 16%nat -> ring 0 w.
Proof. intros Hl; split; [done|intros; lia]. Qed.

Lemma ring_store t w : ring t w -> ring (t + 1) (<[(t mod 16)%nat := W t]> w).
Proof.
  intros [Hl Hw]; split; [by rewrite length_insert|]; intros u Hu Hu2.
  pose proof (Nat.mod_upper_bound t 16 ltac:(lia)); destruct (Nat.eq_dec u t) as [->|Hne].
  - apply list_lookup_total_insert_eq; lia.
  - assert (Hd : (t mod 16 <> u mod 16)%nat).
    { pose proof (Nat.div_mod t 16 ltac:(lia)); pose proof (Nat.div_mod u 16 ltac:(lia)); lia. }
    rewrite list_lookup_total_insert_ne by done; apply Hw; lia.
Qed.

Lemma ring_skip t w : (lim <= t)%nat -> ring t w -> ring (t + 1) w.
Proof. intros Ht [Hl Hw]; split; [done|]; intros u Hu Hu2; apply Hw; lia. Qed.

Lemma ring_load t w d : (16 <= t)%nat -> (1 <= d <= 16)%nat -> (t - d < lim)%nat -> ring t w ->
  w !!! ((t + (16 - d)) mod 16)%nat = W (t - d)%nat.
Proof.
  intros Ht Hd Hlim [Hl Hw]; rewrite <- Hw by lia; f_equal.
  replace (t + (16 - d))%nat with (t - d + 1 * 16)%nat by lia; apply Nat.Div0.mod_add.
Qed.

End Ring.

(** ** Tables of lines *)

Lemma zip_with_seq {A B} `{Inhabited A} (f : nat -> A -> B) (l : list A) n : length l = n ->
  zip_with f (seq 0 n) l = map (fun t => f t (l !!! t)) (seq 0 n).
Proof.
  intros Hl; apply list_eq_same_length with (n := n); rewrite ?length_map, ?length_zip_with, ?length_seq; [done|lia|].
  intros i x y Hi Hx Hy; apply lookup_zip_with_Some in Hx as (t & k & -> & Ht & Hk); apply list_lookup_fmap_Some in Hy as (t' & -> & Ht').
  rewrite Ht in Ht'; injection Ht' as <-; apply lookup_seq in Ht as [-> _].
  by rewrite (list_lookup_total_correct _ _ _ Hk).
Qed.

Lemma fold_left_map_seq {A S} (f : S -> A -> S) (g : nat -> A) n s :
  fold_left f (map g (seq 0 n)) s = for_range 0 n (fun t s => f s (g t)) s.
Proof. unfold for_range; rewrite Nat.sub_0_r; by apply fold_left_map_ext. Qed.

(** ** What the code promises *)

Definition line_at (P : Fips180.params) (t : nat) (k : Z) : line :=
  Line (names 8 t) k
    (if (t <? 16)%nat then W_read t (t * P.(Fips180.word_bytes))
     else if (t <? P.(Fips180.rounds) - 2)%nat then W_add (t mod 16) ((t + 14) mod 16) ((t + 9) mod 16) ((t + 1) mod 16)
     else W_use (t mod 16) ((t + 14) mod 16) ((t + 9) mod 16) ((t + 1) mod 16)).

Class Sha2Laws (C : Sha2Code) (P : Fips180.params) : Prop := {
  sha_law_bytes : sha_wbytes = P.(Fips180.word_bytes);
  sha_law_uw x : uw x = wrap (Fips180.wbits P) x;
  sha_law_Ch x y z : sha_Ch x y z = Fips180.Ch x y z;
  sha_law_Maj x y z : sha_Maj x y z = Fips180.Maj x y z;
  sha_law_Sigma0 x : sha_Sigma0 x = Fips180.Sum P P.(Fips180.S0) x;
  sha_law_Sigma1 x : sha_Sigma1 x = Fips180.Sum P P.(Fips180.S1) x;
  sha_law_sigma0 x : sha_sigma0 x = Fips180.sigma P P.(Fips180.s0) x;
  sha_law_sigma1 x : sha_sigma1 x = Fips180.sigma P P.(Fips180.s1) x;
  sha_law_IV : sha_IV = Fips180.H0 P;
  sha_law_rounds : (18 <= P.(Fips180.rounds))%nat;
  sha_law_R8 : (P.(Fips180.rounds) mod 8 = 0)%nat;
  sha_law_K : length (Fips180.K P) = P.(Fips180.rounds);
  sha_law_lines : sha_lines = zip_with (line_at P) (seq 0 P.(Fips180.rounds)) (Fips180.K P)
}.

Lemma Ch_spec x y z : Z.lxor z (Z.land x (Z.lxor y z)) = Fips180.Ch x y z.
Proof.
  unfold Fips180.Ch; apply Z.bits_inj'; intros i Hi; rewrite !Z.lxor_spec, !Z.land_spec, Z.lnot_spec, Z.lxor_spec by done; btauto.
Qed.

Lemma Maj_spec x y z : Z.lor (Z.land x y) (Z.land z (Z.lor x y)) = Fips180.Maj x y z.
Proof.
  unfold Fips180.Maj; apply Z.bits_inj'; intros i Hi; rewrite !Z.lxor_spec, !Z.lor_spec, !Z.land_spec, Z.lor_spec; btauto.
Qed.

#[export] Instance Sha256_laws : Sha2Laws Sha256.code Fips180.sha256.
Proof.
  split; [reflexivity..| | | | | | | | | | |]; [apply Ch_spec|apply Maj_spec|reflexivity..| | | | |].
  - vm_compute; reflexivity.
  - cbn; lia.
  - reflexivity.
  - vm_compute; reflexivity.
  - vm_compute; reflexivity.
Qed.

#[export] Instance Sha512_laws : Sha2Laws Sha512.code Fips180.sha512.
Proof.
  split; [reflexivity..| | | | | | | | | | |]; [apply Ch_spec|apply Maj_spec|reflexivity..| | | | |].
  - vm_compute; reflexivity.
  - cbn; lia.
  - reflexivity.
  - vm_compute; reflexivity.
  - vm_compute; reflexivity.
Qed.

(** ** One transformation *)

Section Sha2.
Context {C : Sha2Code} {P : Fips180.params} {L : Sha2Laws C P}.

Abbreviation R := (P.(Fips180.rounds)).
Abbreviation W block := (Fips180.W P block).

Lemma uw_add a b : uw (a + b) = Fips180.add P a b.
Proof. apply sha_law_uw. Qed.

Lemma add_add_l a b : uw (uw a + b) = uw (a + b).
Proof. rewrite !sha_law_uw; apply wrap_add_l. Qed.

Lemma add_add_r a b : uw (a + uw b) = uw (a + b).
Proof. rewrite !sha_law_uw; apply wrap_add_r. Qed.

Lemma add_four h s c k w :
  Fips180.add P (Fips180.add P (Fips180.add P (Fips180.add P h s) c) k) w = uw (h + s + c + k + w).
Proof. by rewrite <- !uw_add, (add_add_l (h + s) c), (add_add_l (h + s + c) k), (add_add_l (h + s + c + k) w). Qed.

(** The schedule of the standard. *)
Definition W_rule (t : nat) (W : list Z) : Z :=
  uw (W !!! (t - 16)%nat + (sha_sigma1 (W !!! (t - 2)%nat) + W !!! (t - 7)%nat + sha_sigma0 (W !!! (t - 15)%nat))).

Lemma W_grow block : W block = grow W_rule (map (Fips180.M P block) (seq 0 16)) 16 R.
Proof.
  pose proof sha_law_rounds as HR; unfold Fips180.W, grow; apply for_range_ext; [lia|]; intros t l Ht; do 2 f_equal.
  unfold W_rule; rewrite sha_law_sigma0, sha_law_sigma1, <- !uw_add, add_add_l, add_add_r; f_equal; lia.
Qed.

Lemma W_low block t : (t < 16)%nat -> W block !!! t = Fips180.M P block t.
Proof.
  intros Ht; pose proof sha_law_rounds; rewrite W_grow, grow_init by (rewrite ?length_map, ?length_seq; lia).
  rewrite (lookup_map _ _) by (rewrite length_seq; lia); f_equal; rewrite lookup_total_seq_lt by lia; lia.
Qed.

Lemma W_high block t : (16 <= t < R)%nat -> W block !!! t =
  uw (W block !!! (t - 16)%nat + (sha_sigma1 (W block !!! (t - 2)%nat) + W block !!! (t - 7)%nat + sha_sigma0 (W block !!! (t - 15)%nat))).
Proof.
  intros Ht; rewrite W_grow, grow_next by (rewrite ?length_map, ?length_seq; lia).
  unfold W_rule; rewrite !lookup_total_take_lt by lia; done.
Qed.

Lemma step_eq k w a b c d e f g h :
  let t1 := uw (h + sha_Sigma1 e + sha_Ch e f g + k + w) in
  Fips180.step P k w [a; b; c; d; e; f; g; h] = [uw (t1 + uw (sha_Sigma0 a + sha_Maj a b c)); a; b; c; uw (d + t1); e; f; g].
Proof.
  intros t1; unfold t1; rewrite <- (add_four h (sha_Sigma1 e) (sha_Ch e f g) k w), !uw_add.
  rewrite sha_law_Sigma0, sha_law_Sigma1, sha_law_Ch, sha_law_Maj; done.
Qed.

(** The registers before round [t] are the variables of the standard, rotated. *)
Lemma Round_step t k w v : length v = 8%nat ->
  Round (names 8 t) k w (rotated 8 t v) = rotated 8 (t + 1) (Fips180.step P k w v).
Proof.
  intros Hv; rewrite (names_mod 8 t), (rotated_mod 8 t), (rotated_mod_S 8 t) by lia.
  pose proof (Nat.mod_upper_bound t 8 ltac:(lia)) as Hr; revert Hr; generalize (t mod 8)%nat; intros r Hr.
  do 8 (destruct v as [|? v]; [discriminate|]); destruct v; [|discriminate].
  rewrite step_eq; unfold Round.
  do 8 (destruct r as [|r]; [reflexivity|]); lia.
Qed.

Definition W_inv (block : list Z) : nat -> list Z -> Prop := ring (fun t => W block !!! t) (R - 2).

(** The word computed from the array, and the array afterwards. *)
Lemma line_word block t w k : (t < R)%nat -> W_inv block t w ->
  exists w', (forall s, exec_line block (s, w) (line_at P t k) = (Round (names 8 t) k (W block !!! t) s, w')) /\ W_inv block (t + 1) w'.
Proof.
  intros Ht Hw; unfold exec_line, line_at; cbn [wx regs kconst]; destruct (Nat.ltb_spec t 16) as [Hlow|Hhigh].
  - exists (<[(t mod 16)%nat := W block !!! t]> w); split; [|by apply (ring_store (fun t => W block !!! t))].
    intros s; rewrite W_low, Nat.mod_small by done; unfold Fips180.M; rewrite sha_law_bytes; done.
  - pose proof (ring_load (fun t => W block !!! t) (R - 2) t w 16 ltac:(lia) ltac:(lia) ltac:(lia) Hw) as E16; cbv beta in E16.
    pose proof (ring_load (fun t => W block !!! t) (R - 2) t w 2 ltac:(lia) ltac:(lia) ltac:(lia) Hw) as E2; cbv beta in E2.
    pose proof (ring_load (fun t => W block !!! t) (R - 2) t w 7 ltac:(lia) ltac:(lia) ltac:(lia) Hw) as E7; cbv beta in E7.
    pose proof (ring_load (fun t => W block !!! t) (R - 2) t w 15 ltac:(lia) ltac:(lia) ltac:(lia) Hw) as E15; cbv beta in E15.
    rewrite Nat.add_0_r in E16; cbn [Nat.sub] in E2, E7, E15.
    destruct (Nat.ltb_spec t (R - 2)) as [Hst|Hlast]; rewrite E16, E2, E7, E15.
    + exists (<[(t mod 16)%nat := W block !!! t]> w); split; [|by apply (ring_store (fun t => W block !!! t))].
      intros s; rewrite <- (W_high block t) by lia; done.
    + exists w; split; [|by apply ring_skip]; intros s; rewrite (W_high block t), !Z.add_assoc by lia; done.
Qed.

Lemma step_length k w v : length (Fips180.step P k w v) = 8%nat.
Proof. done. Qed.

Lemma lines_fold block st :
  fold_left (exec_line block) sha_lines st =
  for_range 0 R (fun t st => exec_line block st (line_at P t (Fips180.K P !!! t))) st.
Proof.
  rewrite sha_law_lines, (zip_with_seq _ _ _ sha_law_K); apply fold_left_map_seq.
Qed.

(** The state is transformed as in the standard. *)
Lemma Transform_compress s block : length s = 8%nat -> sha2_Transform s block = Fips180.compress P s block.
Proof.
  intros Hs; unfold sha2_Transform, Fips180.compress; rewrite lines_fold.
  set (v := for_range 0 R _ s); assert (H : let st := for_range 0 R (fun t st => exec_line block st (line_at P t (Fips180.K P !!! t))) (s, replicate 16 0) in
    st.1 = rotated 8 R v /\ length v = 8%nat).
  { apply (for_range_sim (fun t (st : list Z * list Z) v => W_inv block t st.2 /\ st.1 = rotated 8 t v /\ length v = 8%nat)); [lia| |].
    - split_and!; [by apply ring_start| |done].
      cbn [fst]; do 8 (destruct s as [|? s]; [discriminate|]); destruct s; [done|discriminate].
    - intros t [r w] u Ht (Hw & Hr & Hu); cbn [fst snd] in *.
      destruct (line_word block t w (Fips180.K P !!! t) ltac:(lia) Hw) as (w' & E & Hw').
      rewrite E, Hr; cbn [fst snd]; split_and!; [done|by apply Round_step|done]. }
  destruct (for_range 0 R _ (s, _)) as [r w]; cbn [fst] in H; destruct H as [-> Hv].
  assert (ER : (R mod 8 = 0)%nat) by apply sha_law_R8; rewrite rotated_mod, ER by lia.
  do 8 (destruct v as [|? v]; [discriminate|]); destruct v; [|discriminate].
  apply map_ext_in; intros i Hi; apply in_seq in Hi; rewrite <- uw_add, Z.add_comm; do 2 f_equal.
Qed.

Lemma compress_length s block : length (Fips180.compress P s block) = 8%nat.
Proof. done. Qed.

End Sha2.

(** ** The functions of the two classes *)

Inductive sha2_variant := SHA256 | SHA512.

Definition sha2_fun (v : sha2_variant) : MdFun := match v with SHA256 => CSHA256 | SHA512 => CSHA512 end.
Definition sha2_params (v : sha2_variant) : Fips180.params := match v with SHA256 => Fips180.sha256 | SHA512 => Fips180.sha512 end.

(** ** Lemmas *)

#[local] Opaque Fips180.K Fips180.H0 Fips180.compress sha2_Transform.

(** The high word of the 128-bit size is zero. *)
Lemma size_field_128 n : 0 <= 8 * n < 2 ^ 64 -> replicate 8 0 ++ be_bytes 8 (8 * n) = be_bytes 16 (8 * n).
Proof.
  intros Hn; rewrite (be_bytes_app 8 8); f_equal; rewrite Z.shiftr_div_pow2, Z.div_small by (cbn; lia); done.
Qed.

Lemma digest_words wb s : length s = 8%nat -> concat (map (fun i => be_bytes wb (s !!! i)) (seq 0 8)) = concat (map (be_bytes wb) s).
Proof. intros Hs; do 8 (destruct s as [|? s]; [discriminate|]); destruct s; [done|discriminate]. Qed.

Lemma size_array bytes : write_at 8 (be_bytes 8 bytes) (replicate 16 0) = replicate 8 0 ++ be_bytes 8 bytes.
Proof. unfold write_at; rewrite length_be_bytes; cbn [Nat.add]; rewrite drop_ge, app_nil_r by (rewrite length_replicate; lia); done. Qed.

Lemma H0_length v : length (Fips180.H0 (sha2_params v)) = 8%nat.
Proof. destruct v; vm_compute; reflexivity. Qed.

Lemma digest_length wb (s : list Z) : length (concat (map (fun i => be_bytes wb (s !!! i)) (seq 0 8))) = (8 * wb)%nat.
Proof. cbn [seq map concat]; rewrite !length_app, !length_be_bytes; cbn [length]; lia. Qed.

(** The hasher objects keep the promises of [MdLaws]. *)
#[export] Instance CSHA256_laws : MdLaws CSHA256 8 32.
Proof.
  split; [cbn; lia|by exists (2 ^ 58)|intros; apply length_be_bytes| |cbn; lia|reflexivity|intros; apply (digest_length 4)|cbn; lia].
  intros n; cbn [sizedesc CSHA256]; by rewrite !size_field, size_field_wrap.
Qed.

#[export] Instance CSHA512_laws : MdLaws CSHA512 16 64.
Proof.
  split; [cbn; lia|by exists (2 ^ 57)|intros; cbn [sizedesc CSHA512]; by rewrite size_array, length_app, length_be_bytes| |cbn; lia|reflexivity|intros; apply (digest_length 8)|cbn; lia].
  intros n; cbn [sizedesc CSHA512]; by rewrite !size_field, size_field_wrap.
Qed.

Lemma sha256_hash msg : md_hash (M := CSHA256) msg = Fips180.hash Fips180.sha256 msg.
Proof.
  apply (md_hash_reference CSHA256 8 (Fips180.H0 Fips180.sha256) (Fips180.compress Fips180.sha256) (fun H => concat (map (be_bytes 4) H)));
    [|apply (H0_length SHA256)|intros; by apply (Transform_compress (P := Fips180.sha256))|intros; apply compress_length|intros; by apply digest_words|].
  - apply (sha_law_IV (C := Sha256.code)).
  - rewrite (md_padded_eq (M := CSHA256)); unfold Fips180.pad; do 3 f_equal.
    cbn [sizedesc CSHA256]; rewrite size_field; done.
Qed.

Lemma sha512_hash msg : 8 * Z.of_nat (length msg) < 2 ^ 64 -> md_hash (M := CSHA512) msg = Fips180.hash Fips180.sha512 msg.
Proof.
  intros Hl; apply (md_hash_reference CSHA512 8 (Fips180.H0 Fips180.sha512) (Fips180.compress Fips180.sha512) (fun H => concat (map (be_bytes 8) H)));
    [|apply (H0_length SHA512)|intros; by apply (Transform_compress (P := Fips180.sha512))|intros; apply compress_length|intros; by apply digest_words|].
  - apply (sha_law_IV (C := Sha512.code)).
  - rewrite (md_padded_eq (M := CSHA512)); unfold Fips180.pad; do 3 f_equal.
    cbn [sizedesc CSHA512]; rewrite size_field, size_array, size_field_128 by lia; done.
Qed.

Lemma sha2_hash v msg : 8 * Z.of_nat (length msg) < 2 ^ 64 -> md_hash (M := sha2_fun v) msg = Fips180.hash (sha2_params v) msg.
Proof. destruct v; [intros _; apply sha256_hash|apply sha512_hash]. Qed.

Definition sha2_size (v : sha2_variant) : nat := match v with SHA256 => 8 | SHA512 => 16 end.
Definition sha2_out (v : sha2_variant) : nat := match v with SHA256 => 32 | SHA512 => 64 end.
Definition sha2_block (v : sha2_variant) : nat := match v with SHA256 => 64 | SHA512 => 128 end.

#[export] Instance sha2_laws v : MdLaws (sha2_fun v) (sha2_size v) (sha2_out v).
Proof. destruct v; [apply CSHA256_laws|apply CSHA512_laws]. Qed.

Lemma sha2_block_eq v : md_block (MdFun := sha2_fun v) = sha2_block v.
Proof. by destruct v. Qed.

Lemma sha2_block_le v : (sha2_block v <= 128)%nat.
Proof. destruct v; cbn; lia. Qed.

Lemma sha2_pieces_fit v pieces :
  8 * Z.of_nat (length (concat pieces)) < 2 ^ 64 -> pieces_fit (M := sha2_fun v) pieces.
Proof.
  intros Hl; apply List.Forall_forall; intros d Hd; rewrite sha2_block_eq; pose proof (sha2_block_le v).
  apply in_split in Hd as (l1 & l2 & ->); rewrite concat_app, length_app in Hl; cbn [concat] in Hl; rewrite length_app in Hl; lia.
Qed.

(** Writing pieces to an object that holds a message, and closing it. *)
Lemma sha2_finalize v msg h :
  holds (M := sha2_fun v) msg h -> 8 * Z.of_nat (length msg) < 2 ^ 64 ->
  (Finalize (M := sha2_fun v) h).1 = Fips180.hash (sha2_params v) msg /\
  length (Finalize (M := sha2_fun v) h).2.(md_buf) = sha2_block v.
Proof.
  intros Hh Hl; destruct (Finalize_holds (M := sha2_fun v)) with (2 := Hh) as [E Hf]; [rewrite sha2_block_eq; pose proof (sha2_block_le v); lia|].
  split; [rewrite E; by apply sha2_hash|rewrite <- sha2_block_eq; apply Hf].
Qed.

Lemma hmac_key_md v key : 8 * Z.of_nat (length key) < 2 ^ 64 ->
  md_hmac_key (M := sha2_fun v) key = hmac_key (Fips180.hash (sha2_params v)) (sha2_block v) key.
Proof.
  intros Hl; unfold md_hmac_key, hmac_key; rewrite sha2_block_eq, sha2_hash by done.
  destruct (Nat.leb_spec (length key) (sha2_block v)), (Nat.ltb_spec (sha2_block v) (length key)); (lia || done).
Qed.

Lemma map_lxor_comm c l : map (fun b => Z.lxor b c) l = map (Z.lxor c) l.
Proof. apply map_ext; intros; apply Z.lxor_comm. Qed.

Lemma hmac_md v key msg :
  8 * Z.of_nat (length key) < 2 ^ 64 -> 8 * Z.of_nat (length msg + 128) < 2 ^ 64 ->
  md_hmac (M := sha2_fun v) key msg = hmac_of (Fips180.hash (sha2_params v)) (sha2_block v) key msg.
Proof.
  intros Hk Hm; pose proof (sha2_block_le v) as Hb; unfold md_hmac, hmac_of; rewrite hmac_key_md by done.
  assert (Hkl : length (hmac_key (Fips180.hash (sha2_params v)) (sha2_block v) key) = sha2_block v).
  { rewrite <- hmac_key_md, <- sha2_block_eq by done; apply md_hmac_key_length. }
  rewrite !map_lxor_comm, !(sha2_hash v); [done|rewrite length_app, length_map; lia|].
  rewrite length_app, length_map, md_out_length; destruct v; cbn [sha2_out sha2_block] in *; lia.
Qed.

(** HMAC-SHA-256 and HMAC-SHA-512, for keys of any length and any sequence of writes. *)
Lemma hmac_sha2 v rkey buf_o buf_i buf_k key pieces :
  length rkey = sha2_block v -> length buf_o = sha2_block v -> length buf_i = sha2_block v -> length buf_k = sha2_block v ->
  8 * Z.of_nat (length key) < 2 ^ 64 -> 8 * Z.of_nat (length (concat pieces) + 128) < 2 ^ 64 ->
  hmac_pieces (M := sha2_fun v) (sha2_out v) rkey buf_o buf_i buf_k key pieces =
  hmac_of (Fips180.hash (sha2_params v)) (sha2_block v) key (concat pieces).
Proof.
  intros Hr Ho Hi Hk Hl Hp; rewrite <- hmac_md by done; pose proof (sha2_block_le v).
  rewrite <- sha2_block_eq in Hr, Ho, Hi, Hk; apply (hmac_pieces_spec (L := sha2_laws v)); try done.
  - rewrite sha2_block_eq; lia.
  - rewrite sha2_block_eq; lia.
  - apply sha2_pieces_fit; lia.
Qed.

(** The example of FIPS 180-4 for the message abc, and the first test of RFC 4231. *)
Example sha256_abc : firstn 8 (hash_pieces (M := CSHA256) (replicate 64 0) [[97; 98; 99]]) = [0xba; 0x78; 0x16; 0xbf; 0x8f; 0x01; 0xcf; 0xea].
Proof. vm_compute; reflexivity. Qed.

Example hmac_sha512_rfc4231 :
  firstn 8 (hmac_pieces (M := CSHA512) 64 (replicate 128 0) (replicate 128 0) (replicate 128 0) (replicate 128 0)
    (replicate 20 0x0b) [[0x48; 0x69; 0x20; 0x54]; [0x68; 0x65; 0x72; 0x65]]) = [0x87; 0xaa; 0x7c; 0xde; 0xa5; 0xef; 0x61; 0x9d].
Proof. vm_compute; reflexivity. Qed.
