(* ===== verification/Sha1.v ===== *)
(** crypto/sha1.cpp: [Transform] as the list of its lines, and the class CSHA1. *)

From S2P Require Import Prelude MdHash.

Module Sha1Code.

(** [w_i = ReadBE32(chunk + off)], [w_i = left(w_i ^ w_j ^ w_k ^ w_l)] and the
    same without the assignment *)
Inductive vexp := V_read (i off : nat) | V_set (i j k l : nat) | V_use (i j k l : nat).

(** The functions [f1], [f2] and [f3] *)
Inductive fname := F1 | F2 | F3.

Record line1 := Line1 { regs1 : list nat; fn1 : fname; fargs1 : list nat; k_1 : Z; vx : vexp }.

Definition f1 (b c d : Z) : Z := Z.lxor d (Z.land b (Z.lxor c d)).
Definition f2 (b c d : Z) : Z := Z.lxor (Z.lxor b c) d.
Definition f3 (b c d : Z) : Z := Z.lor (Z.land b c) (Z.land d (Z.lor b c)).
Definition apply_f (f : fname) : Z -> Z -> Z -> Z := match f with F1 => f1 | F2 => f2 | F3 => f3 end.

Definition left (x : Z) : Z := Z.lor (u32 (Z.shiftl x 1)) (Z.shiftr x 31).

Definition IV : list Z := [0x67452301; 0xEFCDAB89; 0x98BADCFE; 0x10325476; 0xC3D2E1F0].

Definition k1 : Z := 0x5A827999.
Definition k2 : Z := 0x6ED9EBA1.
Definition k3 : Z := 0x8F1BBCDC.
Definition k4 : Z := 0xCA62C1D6.

(** [Round(a, b, c, d, e, f, k, w)] on the registers [r]; [b] and [e] are references. *)
Definition Round (r : list nat) (f k w : Z) (s : list Z) : list Z :=
  let a := s !!! (r !!! 0%nat) in
  let b := s !!! (r !!! 1%nat) in
  let e := s !!! (r !!! 4%nat) in
  let s := <[r !!! 4%nat := u32 (e + (Z.lor (u32 (Z.shiftl a 5)) (Z.shiftr a 27) + f + k + w))]> s in
  <[r !!! 1%nat := Z.lor (u32 (Z.shiftl b 30)) (Z.shiftr b 2)]> s.

(** The registers *)
#[local] Abbreviation a := 0%nat.
#[local] Abbreviation b := 1%nat.
#[local] Abbreviation c := 2%nat.
#[local] Abbreviation d := 3%nat.
#[local] Abbreviation e := 4%nat.

Definition lines : list line1 := [
  Line1 [a; b; c; d; e] F1 [b; c; d] k1 (V_read 0 0);
  Line1 [e; a; b; c; d] F1 [a; b; c] k1 (V_read 1 4);
  Line1 [d; e; a; b; c] F1 [e; a; b] k1 (V_read 2 8);
  Line1 [c; d; e; a; b] F1 [d; e; a] k1 (V_read 3 12);
  Line1 [b; c; d; e; a] F1 [c; d; e] k1 (V_read 4 16);
  Line1 [a; b; c; d; e] F1 [b; c; d] k1 (V_read 5 20);
  Line1 [e; a; b; c; d] F1 [a; b; c] k1 (V_read 6 24);
  Line1 [d; e; a; b; c] F1 [e; a; b] k1 (V_read 7 28);
  Line1 [c; d; e; a; b] F1 [d; e; a] k1 (V_read 8 32);
  Line1 [b; c; d; e; a] F1 [c; d; e] k1 (V_read 9 36);
  Line1 [a; b; c; d; e] F1 [b; c; d] k1 (V_read 10 40);
  Line1 [e; a; b; c; d] F1 [a; b; c] k1 (V_read 11 44);
  Line1 [d; e; a; b; c] F1 [e; a; b] k1 (V_read 12 48);
  Line1 [c; d; e; a; b] F1 [d; e; a] k1 (V_read 13 52);
  Line1 [b; c; d; e; a] F1 [c; d; e] k1 (V_read 14 56);
  Line1 [a; b; c; d; e] F1 [b; c; d] k1 (V_read 15 60);
  Line1 [e; a; b; c; d] F1 [a; b; c] k1 (V_set 0 13 8 2);
  Line1 [d; e; a; b; c] F1 [e; a; b] k1 (V_set 1 14 9 3);
  Line1 [c; d; e; a; b] F1 [d; e; a] k1 (V_set 2 15 10 4);
  Line1 [b; c; d; e; a] F1 [c; d; e] k1 (V_set 3 0 11 5);
  Line1 [a; b; c; d; e] F2 [b; c; d] k2 (V_set 4 1 12 6);
  Line1 [e; a; b; c; d] F2 [a; b; c] k2 (V_set 5 2 13 7);
  Line1 [d; e; a; b; c] F2 [e; a; b] k2 (V_set 6 3 14 8);
  Line1 [c; d; e; a; b] F2 [d; e; a] k2 (V_set 7 4 15 9);
  Line1 [b; c; d; e; a] F2 [c; d; e] k2 (V_set 8 5 0 10);
  Line1 [a; b; c; d; e] F2 [b; c; d] k2 (V_set 9 6 1 11);
  Line1 [e; a; b; c; d] F2 [a; b; c] k2 (V_set 10 7 2 12);
  Line1 [d; e; a; b; c] F2 [e; a; b] k2 (V_set 11 8 3 13);
  Line1 [c; d; e; a; b] F2 [d; e; a] k2 (V_set 12 9 4 14);
  Line1 [b; c; d; e; a] F2 [c; d; e] k2 (V_set 13 10 5 15);
  Line1 [a; b; c; d; e] F2 [b; c; d] k2 (V_set 14 11 6 0);
  Line1 [e; a; b; c; d] F2 [a; b; c] k2 (V_set 15 12 7 1);
  Line1 [d; e; a; b; c] F2 [e; a; b] k2 (V_set 0 13 8 2);
  Line1 [c; d; e; a; b] F2 [d; e; a] k2 (V_set 1 14 9 3);
  Line1 [b; c; d; e; a] F2 [c; d; e] k2 (V_set 2 15 10 4);
  Line1 [a; b; c; d; e] F2 [b; c; d] k2 (V_set 3 0 11 5);
  Line1 [e; a; b; c; d] F2 [a; b; c] k2 (V_set 4 1 12 6);
  Line1 [d; e; a; b; c] F2 [e; a; b] k2 (V_set 5 2 13 7);
  Line1 [c; d; e; a; b] F2 [d; e; a] k2 (V_set 6 3 14 8);
  Line1 [b; c; d; e; a] F2 [c; d; e] k2 (V_set 7 4 15 9);
  Line1 [a; b; c; d; e] F3 [b; c; d] k3 (V_set 8 5 0 10);
  Line1 [e; a; b; c; d] F3 [a; b; c] k3 (V_set 9 6 1 11);
  Line1 [d; e; a; b; c] F3 [e; a; b] k3 (V_set 10 7 2 12);
  Line1 [c; d; e; a; b] F3 [d; e; a] k3 (V_set 11 8 3 13);
  Line1 [b; c; d; e; a] F3 [c; d; e] k3 (V_set 12 9 4 14);
  Line1 [a; b; c; d; e] F3 [b; c; d] k3 (V_set 13 10 5 15);
  Line1 [e; a; b; c; d] F3 [a; b; c] k3 (V_set 14 11 6 0);
  Line1 [d; e; a; b; c] F3 [e; a; b] k3 (V_set 15 12 7 1);
  Line1 [c; d; e; a; b] F3 [d; e; a] k3 (V_set 0 13 8 2);
  Line1 [b; c; d; e; a] F3 [c; d; e] k3 (V_set 1 14 9 3);
  Line1 [a; b; c; d; e] F3 [b; c; d] k3 (V_set 2 15 10 4);
  Line1 [e; a; b; c; d] F3 [a; b; c] k3 (V_set 3 0 11 5);
  Line1 [d; e; a; b; c] F3 [e; a; b] k3 (V_set 4 1 12 6);
  Line1 [c; d; e; a; b] F3 [d; e; a] k3 (V_set 5 2 13 7);
  Line1 [b; c; d; e; a] F3 [c; d; e] k3 (V_set 6 3 14 8);
  Line1 [a; b; c; d; e] F3 [b; c; d] k3 (V_set 7 4 15 9);
  Line1 [e; a; b; c; d] F3 [a; b; c] k3 (V_set 8 5 0 10);
  Line1 [d; e; a; b; c] F3 [e; a; b] k3 (V_set 9 6 1 11);
  Line1 [c; d; e; a; b] F3 [d; e; a] k3 (V_set 10 7 2 12);
  Line1 [b; c; d; e; a] F3 [c; d; e] k3 (V_set 11 8 3 13);
  Line1 [a; b; c; d; e] F2 [b; c; d] k4 (V_set 12 9 4 14);
  Line1 [e; a; b; c; d] F2 [a; b; c] k4 (V_set 13 10 5 15);
  Line1 [d; e; a; b; c] F2 [e; a; b] k4 (V_set 14 11 6 0);
  Line1 [c; d; e; a; b] F2 [d; e; a] k4 (V_set 15 12 7 1);
  Line1 [b; c; d; e; a] F2 [c; d; e] k4 (V_set 0 13 8 2);
  Line1 [a; b; c; d; e] F2 [b; c; d] k4 (V_set 1 14 9 3);
  Line1 [e; a; b; c; d] F2 [a; b; c] k4 (V_set 2 15 10 4);
  Line1 [d; e; a; b; c] F2 [e; a; b] k4 (V_set 3 0 11 5);
  Line1 [c; d; e; a; b] F2 [d; e; a] k4 (V_set 4 1 12 6);
  Line1 [b; c; d; e; a] F2 [c; d; e] k4 (V_set 5 2 13 7);
  Line1 [a; b; c; d; e] F2 [b; c; d] k4 (V_set 6 3 14 8);
  Line1 [e; a; b; c; d] F2 [a; b; c] k4 (V_set 7 4 15 9);
  Line1 [d; e; a; b; c] F2 [e; a; b] k4 (V_set 8 5 0 10);
  Line1 [c; d; e; a; b] F2 [d; e; a] k4 (V_set 9 6 1 11);
  Line1 [b; c; d; e; a] F2 [c; d; e] k4 (V_set 10 7 2 12);
  Line1 [a; b; c; d; e] F2 [b; c; d] k4 (V_set 11 8 3 13);
  Line1 [e; a; b; c; d] F2 [a; b; c] k4 (V_set 12 9 4 14);
  Line1 [d; e; a; b; c] F2 [e; a; b] k4 (V_use 13 10 5 15);
  Line1 [c; d; e; a; b] F2 [d; e; a] k4 (V_use 14 11 6 0);
  Line1 [b; c; d; e; a] F2 [c; d; e] k4 (V_use 15 12 7 1)
].

Definition exec_line (chunk : list Z) (st : list Z * list Z) (l : line1) : list Z * list Z :=
  let '(s, w) := st in
  let f := apply_f l.(fn1) (s !!! (l.(fargs1) !!! 0%nat)) (s !!! (l.(fargs1) !!! 1%nat)) (s !!! (l.(fargs1) !!! 2%nat)) in
  let mix i j k l := left (Z.lxor (Z.lxor (Z.lxor (w !!! i) (w !!! j)) (w !!! k)) (w !!! l)) in
  let '(x, w) :=
    match l.(vx) with
    | V_read i off => let x := be_word (read_at off 4 chunk) in (x, <[i := x]> w)
    | V_set i j k l => let x := mix i j k l in (x, <[i := x]> w)
    | V_use i j k l => (mix i j k l, w)
    end in
  (Round l.(regs1) f l.(k_1) x s, w).

Definition Transform (s chunk : list Z) : list Z :=
  let '(r, _) := fold_left (exec_line chunk) lines (s, replicate 16 0) in
  map (fun i => u32 (s !!! i + r !!! i)) (seq 0 5).

End Sha1Code.

Definition CSHA1 : MdFun := {|
  md_block := 64; pad_base := 119; Initialize := Sha1Code.IV; Transform := Sha1Code.Transform;
  sizedesc bytes := be_bytes 8 (u64 (Z.shiftl bytes 3));
  md_digest s := concat (map (fun i => be_bytes 4 (s !!! i)) (seq 0 5))
|}.
