(* ===== verification/Ripemd160.v ===== *)
(** crypto/ripemd160.cpp: [Transform] as the list of its lines, and the class
    CRIPEMD160. *)

From S2P Require Import Prelude MdHash.

Module Ripemd.

Definition f1 (x y z : Z) : Z := Z.lxor (Z.lxor x y) z.
Definition f2 (x y z : Z) : Z := Z.lor (Z.land x y) (Z.land (u32 (Z.lnot x)) z).
Definition f3 (x y z : Z) : Z := Z.lxor (Z.lor x (u32 (Z.lnot y))) z.
Definition f4 (x y z : Z) : Z := Z.lor (Z.land x z) (Z.land y (u32 (Z.lnot z))).
Definition f5 (x y z : Z) : Z := Z.lxor x (Z.lor y (u32 (Z.lnot z))).

Definition IV : list Z := [0x67452301; 0xEFCDAB89; 0x98BADCFE; 0x10325476; 0xC3D2E1F0].

Definition rol (x i : Z) : Z := Z.lor (u32 (Z.shiftl x i)) (Z.shiftr x (32 - i)).

(** [Round(a, b, c, d, e, f, x, k, r)] on the registers [g]; [a] and [c] are references. *)
Definition Round (g : list nat) (f x k r : Z) (s : list Z) : list Z :=
  let a := s !!! (g !!! 0%nat) in
  let c := s !!! (g !!! 2%nat) in
  let e := s !!! (g !!! 4%nat) in
  let s := <[g !!! 0%nat := u32 (rol (u32 (a + f + x + k)) r + e)]> s in
  <[g !!! 2%nat := rol c 10]> s.

(** The functions of the ten steps, with the function and the constant they give to [Round]. *)
Inductive rname := R11 | R21 | R31 | R41 | R51 | R12 | R22 | R32 | R42 | R52.

Definition rdef (n : rname) : (Z -> Z -> Z -> Z) * Z :=
  match n with
  | R11 => (f1, 0) | R21 => (f2, 0x5A827999) | R31 => (f3, 0x6ED9EBA1) | R41 => (f4, 0x8F1BBCDC) | R51 => (f5, 0xA953FD4E)
  | R12 => (f5, 0x50A28BE6) | R22 => (f4, 0x5C4DD124) | R32 => (f3, 0x6D703EF3) | R42 => (f2, 0x7A6D76E9) | R52 => (f1, 0)
  end.

(** [R(a, b, c, d, e, x, r)] *)
Definition R (n : rname) (g : list nat) (x r : Z) (s : list Z) : list Z :=
  let '(f, k) := rdef n in
  Round g (f (s !!! (g !!! 1%nat)) (s !!! (g !!! 2%nat)) (s !!! (g !!! 3%nat))) x k r s.

(** A call on the registers [a1] to [e1], or [a2] to [e2], with the word [w_i]. *)
Inductive rcall := Call1 (n : rname) (g : list nat) (i : nat) (r : Z) | Call2 (n : rname) (g : list nat) (i : nat) (r : Z).

#[local] Abbreviation a := 0%nat.
#[local] Abbreviation b := 1%nat.
#[local] Abbreviation c := 2%nat.
#[local] Abbreviation d := 3%nat.
#[local] Abbreviation e := 4%nat.

Definition calls : list rcall := [
  Call1 R11 [a; b; c; d; e] 0 11;
  Call2 R12 [a; b; c; d; e] 5 8;
  Call1 R11 [e; a; b; c; d] 1 14;
  Call2 R12 [e; a; b; c; d] 14 9;
  Call1 R11 [d; e; a; b; c] 2 15;
  Call2 R12 [d; e; a; b; c] 7 9;
  Call1 R11 [c; d; e; a; b] 3 12;
  Call2 R12 [c; d; e; a; b] 0 11;
  Call1 R11 [b; c; d; e; a] 4 5;
  Call2 R12 [b; c; d; e; a] 9 13;
  Call1 R11 [a; b; c; d; e] 5 8;
  Call2 R12 [a; b; c; d; e] 2 15;
  Call1 R11 [e; a; b; c; d] 6 7;
  Call2 R12 [e; a; b; c; d] 11 15;
  Call1 R11 [d; e; a; b; c] 7 9;
  Call2 R12 [d; e; a; b; c] 4 5;
  Call1 R11 [c; d; e; a; b] 8 11;
  Call2 R12 [c; d; e; a; b] 13 7;
  Call1 R11 [b; c; d; e; a] 9 13;
  Call2 R12 [b; c; d; e; a] 6 7;
  Call1 R11 [a; b; c; d; e] 10 14;
  Call2 R12 [a; b; c; d; e] 15 8;
  Call1 R11 [e; a; b; c; d] 11 15;
  Call2 R12 [e; a; b; c; d] 8 11;
  Call1 R11 [d; e; a; b; c] 12 6;
  Call2 R12 [d; e; a; b; c] 1 14;
  Call1 R11 [c; d; e; a; b] 13 7;
  Call2 R12 [c; d; e; a; b] 10 14;
  Call1 R11 [b; c; d; e; a] 14 9;
  Call2 R12 [b; c; d; e; a] 3 12;
  Call1 R11 [a; b; c; d; e] 15 8;
  Call2 R12 [a; b; c; d; e] 12 6;
  Call1 R21 [e; a; b; c; d] 7 7;
  Call2 R22 [e; a; b; c; d] 6 9;
  Call1 R21 [d; e; a; b; c] 4 6;
  Call2 R22 [d; e; a; b; c] 11 13;
  Call1 R21 [c; d; e; a; b] 13 8;
  Call2 R22 [c; d; e; a; b] 3 15;
  Call1 R21 [b; c; d; e; a] 1 13;
  Call2 R22 [b; c; d; e; a] 7 7;
  Call1 R21 [a; b; c; d; e] 10 11;
  Call2 R22 [a; b; c; d; e] 0 12;
  Call1 R21 [e; a; b; c; d] 6 9;
  Call2 R22 [e; a; b; c; d] 13 8;
  Call1 R21 [d; e; a; b; c] 15 7;
  Call2 R22 [d; e; a; b; c] 5 9;
  Call1 R21 [c; d; e; a; b] 3 15;
  Call2 R22 [c; d; e; a; b] 10 11;
  Call1 R21 [b; c; d; e; a] 12 7;
  Call2 R22 [b; c; d; e; a] 14 7;
  Call1 R21 [a; b; c; d; e] 0 12;
  Call2 R22 [a; b; c; d; e] 15 7;
  Call1 R21 [e; a; b; c; d] 9 15;
  Call2 R22 [e; a; b; c; d] 8 12;
  Call1 R21 [d; e; a; b; c] 5 9;
  Call2 R22 [d; e; a; b; c] 12 7;
  Call1 R21 [c; d; e; a; b] 2 11;
  Call2 R22 [c; d; e; a; b] 4 6;
  Call1 R21 [b; c; d; e; a] 14 7;
  Call2 R22 [b; c; d; e; a] 9 15;
  Call1 R21 [a; b; c; d; e] 11 13;
  Call2 R22 [a; b; c; d; e] 1 13;
  Call1 R21 [e; a; b; c; d] 8 12;
  Call2 R22 [e; a; b; c; d] 2 11;
  Call1 R31 [d; e; a; b; c] 3 11;
  Call2 R32 [d; e; a; b; c] 15 9;
  Call1 R31 [c; d; e; a; b] 10 13;
  Call2 R32 [c; d; e; a; b] 5 7;
  Call1 R31 [b; c; d; e; a] 14 6;
  Call2 R32 [b; c; d; e; a] 1 15;
  Call1 R31 [a; b; c; d; e] 4 7;
  Call2 R32 [a; b; c; d; e] 3 11;
  Call1 R31 [e; a; b; c; d] 9 14;
  Call2 R32 [e; a; b; c; d] 7 8;
  Call1 R31 [d; e; a; b; c] 15 9;
  Call2 R32 [d; e; a; b; c] 14 6;
  Call1 R31 [c; d; e; a; b] 8 13;
  Call2 R32 [c; d; e; a; b] 6 6;
  Call1 R31 [b; c; d; e; a] 1 15;
  Call2 R32 [b; c; d; e; a] 9 14;
  Call1 R31 [a; b; c; d; e] 2 14;
  Call2 R32 [a; b; c; d; e] 11 12;
  Call1 R31 [e; a; b; c; d] 7 8;
  Call2 R32 [e; a; b; c; d] 8 13;
  Call1 R31 [d; e; a; b; c] 0 13;
  Call2 R32 [d; e; a; b; c] 12 5;
  Call1 R31 [c; d; e; a; b] 6 6;
  Call2 R32 [c; d; e; a; b] 2 14;
  Call1 R31 [b; c; d; e; a] 13 5;
  Call2 R32 [b; c; d; e; a] 10 13;
  Call1 R31 [a; b; c; d; e] 11 12;
  Call2 R32 [a; b; c; d; e] 0 13;
  Call1 R31 [e; a; b; c; d] 5 7;
  Call2 R32 [e; a; b; c; d] 4 7;
  Call1 R31 [d; e; a; b; c] 12 5;
  Call2 R32 [d; e; a; b; c] 13 5;
  Call1 R41 [c; d; e; a; b] 1 11;
  Call2 R42 [c; d; e; a; b] 8 15;
  Call1 R41 [b; c; d; e; a] 9 12;
  Call2 R42 [b; c; d; e; a] 6 5;
  Call1 R41 [a; b; c; d; e] 11 14;
  Call2 R42 [a; b; c; d; e] 4 8;
  Call1 R41 [e; a; b; c; d] 10 15;
  Call2 R42 [e; a; b; c; d] 1 11;
  Call1 R41 [d; e; a; b; c] 0 14;
  Call2 R42 [d; e; a; b; c] 3 14;
  Call1 R41 [c; d; e; a; b] 8 15;
  Call2 R42 [c; d; e; a; b] 11 14;
  Call1 R41 [b; c; d; e; a] 12 9;
  Call2 R42 [b; c; d; e; a] 15 6;
  Call1 R41 [a; b; c; d; e] 4 8;
  Call2 R42 [a; b; c; d; e] 0 14;
  Call1 R41 [e; a; b; c; d] 13 9;
  Call2 R42 [e; a; b; c; d] 5 6;
  Call1 R41 [d; e; a; b; c] 3 14;
  Call2 R42 [d; e; a; b; c] 12 9;
  Call1 R41 [c; d; e; a; b] 7 5;
  Call2 R42 [c; d; e; a; b] 2 12;
  Call1 R41 [b; c; d; e; a] 15 6;
  Call2 R42 [b; c; d; e; a] 13 9;
  Call1 R41 [a; b; c; d; e] 14 8;
  Call2 R42 [a; b; c; d; e] 9 12;
  Call1 R41 [e; a; b; c; d] 5 6;
  Call2 R42 [e; a; b; c; d] 7 5;
  Call1 R41 [d; e; a; b; c] 6 5;
  Call2 R42 [d; e; a; b; c] 10 15;
  Call1 R41 [c; d; e; a; b] 2 12;
  Call2 R42 [c; d; e; a; b] 14 8;
  Call1 R51 [b; c; d; e; a] 4 9;
  Call2 R52 [b; c; d; e; a] 12 8;
  Call1 R51 [a; b; c; d; e] 0 15;
  Call2 R52 [a; b; c; d; e] 15 5;
  Call1 R51 [e; a; b; c; d] 5 5;
  Call2 R52 [e; a; b; c; d] 10 12;
  Call1 R51 [d; e; a; b; c] 9 11;
  Call2 R52 [d; e; a; b; c] 4 9;
  Call1 R51 [c; d; e; a; b] 7 6;
  Call2 R52 [c; d; e; a; b] 1 12;
  Call1 R51 [b; c; d; e; a] 12 8;
  Call2 R52 [b; c; d; e; a] 5 5;
  Call1 R51 [a; b; c; d; e] 2 13;
  Call2 R52 [a; b; c; d; e] 8 14;
  Call1 R51 [e; a; b; c; d] 10 12;
  Call2 R52 [e; a; b; c; d] 7 6;
  Call1 R51 [d; e; a; b; c] 14 5;
  Call2 R52 [d; e; a; b; c] 6 8;
  Call1 R51 [c; d; e; a; b] 1 12;
  Call2 R52 [c; d; e; a; b] 2 13;
  Call1 R51 [b; c; d; e; a] 3 13;
  Call2 R52 [b; c; d; e; a] 13 6;
  Call1 R51 [a; b; c; d; e] 8 14;
  Call2 R52 [a; b; c; d; e] 14 5;
  Call1 R51 [e; a; b; c; d] 11 11;
  Call2 R52 [e; a; b; c; d] 0 15;
  Call1 R51 [d; e; a; b; c] 6 8;
  Call2 R52 [d; e; a; b; c] 3 13;
  Call1 R51 [c; d; e; a; b] 15 5;
  Call2 R52 [c; d; e; a; b] 9 11;
  Call1 R51 [b; c; d; e; a] 13 6;
  Call2 R52 [b; c; d; e; a] 11 11
].

Definition exec_call (w : list Z) (st : list Z * list Z) (l : rcall) : list Z * list Z :=
  let '(s1, s2) := st in
  match l with
  | Call1 n g i r => (R n g (w !!! i) r s1, s2)
  | Call2 n g i r => (s1, R n g (w !!! i) r s2)
  end.

Definition Transform (s chunk : list Z) : list Z :=
  let w := map (fun i => le_word (read_at (i * 4) 4 chunk)) (seq 0 16) in
  let '(r1, r2) := fold_left (exec_call w) calls (s, s) in
  [u32 (s !!! 1%nat + r1 !!! 2%nat + r2 !!! 3%nat);
   u32 (s !!! 2%nat + r1 !!! 3%nat + r2 !!! 4%nat);
   u32 (s !!! 3%nat + r1 !!! 4%nat + r2 !!! 0%nat);
   u32 (s !!! 4%nat + r1 !!! 0%nat + r2 !!! 1%nat);
   u32 (s !!! 0%nat + r1 !!! 1%nat + r2 !!! 2%nat)].

End Ripemd.

Definition CRIPEMD160 : MdFun := {|
  md_block := 64; pad_base := 119; Initialize := Ripemd.IV; Transform := Ripemd.Transform;
  sizedesc bytes := le_bytes 8 (u64 (Z.shiftl bytes 3));
  md_digest s := concat (map (fun i => le_bytes 4 (s !!! i)) (seq 0 5))
|}.
