(* ===== verification/LegacyHash.v ===== *)
(** SHA-1 and RIPEMD-160 of the node against their reference definitions. *)

From S2P Require Import Prelude MdHash MdProofs Fips180 Sha2Proofs Sha1 Ripemd160.

(** ** Rotations of 32-bit words *)

Abbreviation ROTL := Fips180.Sha1.ROTL.

Lemma ROTL_code x n m : n + m = 32 -> Z.lor (u32 (Z.shiftl x n)) (Z.shiftr x m) = ROTL n x.
Proof. intros H; unfold ROTL; replace (32 - n) with m by lia; done. Qed.

Lemma u32_add_l a b : u32 (u32 a + b) = u32 (a + b).
Proof. apply wrap_add_l. Qed.

Lemma u32_add_r a b : u32 (a + u32 b) = u32 (a + b).
Proof. apply wrap_add_r. Qed.

(** Nested additions modulo [2 ^ 32] *)
Lemma add32_three a b c d :
  wrap 32 (wrap 32 (wrap 32 (a + b) + c) + d) = u32 (a + b + c + d).
Proof. by rewrite (wrap_add_l 32 (a + b) c), (wrap_add_l 32 (a + b + c) d). Qed.

Lemma add32_four a b c d e :
  wrap 32 (wrap 32 (wrap 32 (wrap 32 (a + b) + c) + d) + e) = u32 (a + b + c + d + e).
Proof. rewrite (wrap_add_l 32 (a + b) c), (wrap_add_l 32 (a + b + c) d); apply (wrap_add_l 32). Qed.

(** ** SHA-1 *)

Module Sha1Proofs.

Import Fips180.Sha1.

Definition fname_at (t : nat) : Sha1Code.fname :=
  if (t <? 20)%nat then Sha1Code.F1 else if (t <? 40)%nat then Sha1Code.F2 else if (t <? 60)%nat then Sha1Code.F3 else Sha1Code.F2.

Definition line1_at (t : nat) : Sha1Code.line1 :=
  Sha1Code.Line1 (names 5 t) (fname_at t) (take 3 (drop 1 (names 5 t))) (K t)
    (if (t <? 16)%nat then Sha1Code.V_read t (t * 4)
     else if (t <? 77)%nat then Sha1Code.V_set (t mod 16) ((t + 13) mod 16) ((t + 8) mod 16) ((t + 2) mod 16)
     else Sha1Code.V_use (t mod 16) ((t + 13) mod 16) ((t + 8) mod 16) ((t + 2) mod 16)).

Lemma lines_at : Sha1Code.lines = map line1_at (seq 0 80).
Proof. vm_compute; reflexivity. Qed.

Lemma apply_f_at t b c d : Sha1Code.apply_f (fname_at t) b c d = f t b c d.
Proof.
  unfold fname_at, f; destruct (t <? 20)%nat; [apply Ch_spec|]; destruct (t <? 40)%nat; [done|].
  destruct (t <? 60)%nat; [apply Maj_spec|done].
Qed.

Definition W_rule (t : nat) (W : list Z) : Z :=
  ROTL 1 (Z.lxor (Z.lxor (Z.lxor (W !!! (t - 16)%nat) (W !!! (t - 3)%nat)) (W !!! (t - 8)%nat)) (W !!! (t - 14)%nat)).

Lemma sha1_W_grow block : W block = grow W_rule (map (M block) (seq 0 16)) 16 80.
Proof.
  unfold W, grow; apply for_range_ext; [lia|]; intros t l Ht; unfold W_rule; do 3 f_equal.
  by rewrite Z.lxor_comm, !Z.lxor_assoc.
Qed.

Lemma sha1_W_low block t : (t < 16)%nat -> W block !!! t = M block t.
Proof.
  intros Ht; rewrite sha1_W_grow, grow_init by (rewrite ?length_map, ?length_seq; lia).
  rewrite (lookup_map _ _) by (rewrite length_seq; lia); f_equal; rewrite lookup_total_seq_lt by lia; lia.
Qed.

Lemma sha1_W_high block t : (16 <= t < 80)%nat -> W block !!! t =
  ROTL 1 (Z.lxor (Z.lxor (Z.lxor (W block !!! (t - 16)%nat) (W block !!! (t - 3)%nat)) (W block !!! (t - 8)%nat)) (W block !!! (t - 14)%nat)).
Proof.
  intros Ht; rewrite sha1_W_grow, grow_next by (rewrite ?length_map, ?length_seq; lia).
  unfold W_rule; rewrite !lookup_total_take_lt by lia; done.
Qed.

Lemma sha1_step_eq t w a b c d e :
  step t w [a; b; c; d; e] = [u32 (e + (ROTL 5 a + f t b c d + K t + w)); a; ROTL 30 b; c; d].
Proof. unfold step, add; cbn [lookup_total list_lookup_total]; rewrite add32_four; do 2 f_equal; lia. Qed.

(** The registers before round [t] are the variables of the standard, rotated. *)
Lemma sha1_Round_step t w v : length v = 5%nat ->
  let s := rotated 5 t v in let fa := take 3 (drop 1 (names 5 t)) in
  Sha1Code.Round (names 5 t) (f t (s !!! (fa !!! 0%nat)) (s !!! (fa !!! 1%nat)) (s !!! (fa !!! 2%nat))) (K t) w s =
  rotated 5 (t + 1) (step t w v).
Proof.
  intros Hv s fa; unfold s, fa; rewrite (names_mod 5 t), (rotated_mod 5 t), (rotated_mod_S 5 t) by lia.
  pose proof (Nat.mod_upper_bound t 5 ltac:(lia)) as Hr; revert Hr; generalize (t mod 5)%nat; intros r Hr.
  do 5 (destruct v as [|? v]; [discriminate|]); destruct v; [|discriminate].
  rewrite sha1_step_eq; generalize (K t), (f t); intros k ft.
  cbv zeta; unfold Sha1Code.Round; rewrite !(ROTL_code _ 5 27), !(ROTL_code _ 30 2) by done.
  do 5 (destruct r as [|r]; [reflexivity|]); lia.
Qed.

(** The word computed from the array, and the array afterwards. *)
Lemma sha1_line_word block t w s : (t < 80)%nat -> ring (fun t => W block !!! t) 77 t w ->
  exists w', Sha1Code.exec_line block (s, w) (line1_at t) =
    (let fa := take 3 (drop 1 (names 5 t)) in
     Sha1Code.Round (names 5 t) (f t (s !!! (fa !!! 0%nat)) (s !!! (fa !!! 1%nat)) (s !!! (fa !!! 2%nat))) (K t) (W block !!! t) s, w') /\
    ring (fun t => W block !!! t) 77 (t + 1) w'.
Proof.
  intros Ht Hw; unfold Sha1Code.exec_line, line1_at; cbn [Sha1Code.vx Sha1Code.regs1 Sha1Code.fn1 Sha1Code.fargs1 Sha1Code.k_1]; cbv zeta.
  rewrite apply_f_at; destruct (Nat.ltb_spec t 16) as [Hlow|Hhigh].
  - exists (<[(t mod 16)%nat := W block !!! t]> w); split; [|by apply (ring_store (fun t => W block !!! t))].
    rewrite sha1_W_low, Nat.mod_small by done; done.
  - pose proof (ring_load (fun t => W block !!! t) 77 t w 16 ltac:(lia) ltac:(lia) ltac:(lia) Hw) as E16.
    pose proof (ring_load (fun t => W block !!! t) 77 t w 3 ltac:(lia) ltac:(lia) ltac:(lia) Hw) as E3.
    pose proof (ring_load (fun t => W block !!! t) 77 t w 8 ltac:(lia) ltac:(lia) ltac:(lia) Hw) as E8.
    pose proof (ring_load (fun t => W block !!! t) 77 t w 14 ltac:(lia) ltac:(lia) ltac:(lia) Hw) as E14.
    rewrite Nat.add_0_r in E16; cbn [Nat.sub] in E3, E8, E14; cbv beta in E16, E3, E8, E14.
    assert (EW := sha1_W_high block t ltac:(lia)).
    destruct (Nat.ltb_spec t 77) as [Hst|Hlast]; unfold Sha1Code.left; rewrite !(ROTL_code _ 1 31) by done; rewrite E16, E3, E8, E14, <- EW.
    + exists (<[(t mod 16)%nat := W block !!! t]> w); split; [done|by apply (ring_store (fun t => W block !!! t))].
    + exists w; split; [done|by apply ring_skip].
Qed.

#[local] Opaque W step Sha1Code.exec_line.

Lemma sha1_Transform_compress s block : length s = 5%nat -> Sha1Code.Transform s block = compress s block.
Proof.
  intros Hs; unfold Sha1Code.Transform, compress; rewrite lines_at, fold_left_map_seq.
  set (v := for_range 0 80 _ s); assert (H : let st := for_range 0 80 (fun t st => Sha1Code.exec_line block st (line1_at t)) (s, replicate 16 0) in
    st.1 = rotated 5 80 v /\ length v = 5%nat).
  { apply (for_range_sim (fun t (st : list Z * list Z) v => ring (fun t => W block !!! t) 77 t st.2 /\ st.1 = rotated 5 t v /\ length v = 5%nat)); [lia| |].
    - split_and!; [by apply ring_start| |done].
      cbn [fst]; do 5 (destruct s as [|? s]; [discriminate|]); destruct s; [done|discriminate].
    - intros t [r w] u Ht (Hw & Hr & Hu); cbn [fst snd] in *; subst r.
      destruct (sha1_line_word block t w (rotated 5 t u) ltac:(lia) Hw) as (w' & E & Hw').
      rewrite E; cbn [fst snd]; split_and!; [done|by apply sha1_Round_step|done]. }
  destruct (for_range 0 80 _ (s, _)) as [r w]; cbn [fst] in H; destruct H as [-> Hv].
  do 5 (destruct v as [|? v]; [discriminate|]); destruct v; [|discriminate].
  apply map_ext; intros i; unfold add; rewrite Z.add_comm; done.
Qed.

Lemma sha1_compress_length s block : length (compress s block) = 5%nat.
Proof. done. Qed.

End Sha1Proofs.
(** ** RIPEMD-160 *)

Module RipemdProofs.

Import Fips180.Ripemd160.

Definition name1 (j : nat) : Ripemd.rname :=
  match (j / 16)%nat with 0%nat => Ripemd.R11 | 1%nat => Ripemd.R21 | 2%nat => Ripemd.R31 | 3%nat => Ripemd.R41 | _ => Ripemd.R51 end.
Definition name2 (j : nat) : Ripemd.rname :=
  match (j / 16)%nat with 0%nat => Ripemd.R12 | 1%nat => Ripemd.R22 | 2%nat => Ripemd.R32 | 3%nat => Ripemd.R42 | _ => Ripemd.R52 end.

Definition calls_at (j : nat) : list Ripemd.rcall :=
  [Ripemd.Call1 (name1 j) (names 5 j) (r j) (s j); Ripemd.Call2 (name2 j) (names 5 j) (r' j) (s' j)].

Lemma calls_all : Ripemd.calls = concat (map calls_at (seq 0 80)).
Proof. vm_compute; reflexivity. Qed.

Lemma rdef1 j : (j < 80)%nat -> Ripemd.rdef (name1 j) = (f j, K j).
Proof.
  intros Hj; assert (Hq : (j / 16 < 5)%nat) by (apply Nat.Div0.div_lt_upper_bound; lia).
  unfold name1, f, K; revert Hq; generalize (j / 16)%nat; intros q Hq.
  do 5 (destruct q as [|q]; [apply (f_equal2 pair); [reflexivity|vm_compute; reflexivity]|]); lia.
Qed.

Lemma rdef2 j : (j < 80)%nat -> Ripemd.rdef (name2 j) = (f (79 - j), K' j).
Proof.
  intros Hj; assert (Hq : (j / 16 < 5)%nat) by (apply Nat.Div0.div_lt_upper_bound; lia).
  assert (E : ((79 - j) / 16 = 4 - j / 16)%nat).
  { pose proof (Nat.div_mod j 16 ltac:(lia)); pose proof (Nat.mod_upper_bound j 16 ltac:(lia)).
    symmetry; apply (Nat.div_unique _ _ _ (15 - j mod 16)); lia. }
  unfold name2, f, K'; rewrite E; revert Hq; generalize (j / 16)%nat; intros q Hq.
  do 5 (destruct q as [|q]; [apply (f_equal2 pair); [reflexivity|vm_compute; reflexivity]|]); lia.
Qed.

Lemma ripemd_step_eq fx k x rot a b c d e :
  step fx k x rot [a; b; c; d; e] = [e; u32 (Ripemd.rol (u32 (a + fx b c d + x + k)) rot + e); b; Ripemd.rol c 10; d].
Proof. unfold step, add; cbn [lookup_total list_lookup_total]; by rewrite add32_three. Qed.

(** One line on registers that hold the variables of the reference, rotated. *)
Lemma R_step n fx k j x rot v : Ripemd.rdef n = (fx, k) -> length v = 5%nat ->
  Ripemd.R n (names 5 j) x rot (rotated 5 j v) = rotated 5 (j + 1) (step fx k x rot v).
Proof.
  intros Hn Hv; unfold Ripemd.R; rewrite Hn, (names_mod 5 j), (rotated_mod 5 j), (rotated_mod_S 5 j) by lia.
  pose proof (Nat.mod_upper_bound j 5 ltac:(lia)) as Hr; revert Hr; generalize (j mod 5)%nat; intros q Hr.
  do 5 (destruct v as [|? v]; [discriminate|]); destruct v; [|discriminate].
  rewrite ripemd_step_eq; unfold Ripemd.Round; do 5 (destruct q as [|q]; [reflexivity|]); lia.
Qed.

Lemma fold_left_concat {A B} (g : B -> A -> B) (l : list (list A)) x :
  fold_left g (concat l) x = fold_left (fun x l => fold_left g l x) l x.
Proof. revert x; induction l as [|a l IH]; intros x; cbn [concat fold_left]; [done|]; rewrite fold_left_app; apply IH. Qed.

Lemma ripemd_word_index j : (j < 80)%nat -> (r j < 16)%nat /\ (r' j < 16)%nat.
Proof.
  intros Hj; assert (H : forallb (fun j => (r j <? 16)%nat && (r' j <? 16)%nat) (seq 0 80) = true) by (vm_compute; reflexivity).
  rewrite forallb_forall in H; specialize (H j ltac:(apply in_seq; lia)); apply andb_true_iff in H as [H1 H2].
  apply Nat.ltb_lt in H1, H2; done.
Qed.

Lemma words_at block i : (i < 16)%nat -> map (fun i => le_word (read_at (i * 4) 4 block)) (seq 0 16) !!! i = X block i.
Proof. intros Hi; rewrite (lookup_map _ _) by (rewrite length_seq; lia); rewrite lookup_total_seq_lt by lia; done. Qed.

#[local] Opaque step.

Lemma ripemd_Transform_compress h block : length h = 5%nat -> Ripemd.Transform h block = compress h block.
Proof.
  intros Hh; unfold Ripemd.Transform, compress; rewrite calls_all, fold_left_concat, fold_left_map_seq.
  set (v := for_range 0 80 (fun j => step (f j) _ _ _) h); set (v' := for_range 0 80 (fun j => step (f (79 - j)) _ _ _) h).
  set (w := map (fun i => le_word _) _).
  assert (H : for_range 0 80 (fun j st => fold_left (Ripemd.exec_call w) (calls_at j) st) (h, h) = (v, v') /\ length v = 5%nat /\ length v' = 5%nat).
  { assert (H : forall n, (n <= 80)%nat ->
      for_range 0 n (fun j st => fold_left (Ripemd.exec_call w) (calls_at j) st) (h, h) =
        (rotated 5 n (for_range 0 n (fun j => step (f j) (K j) (X block (r j)) (s j)) h),
         rotated 5 n (for_range 0 n (fun j => step (f (79 - j)) (K' j) (X block (r' j)) (s' j)) h)) /\
      length (for_range 0 n (fun j => step (f j) (K j) (X block (r j)) (s j)) h) = 5%nat /\
      length (for_range 0 n (fun j => step (f (79 - j)) (K' j) (X block (r' j)) (s' j)) h) = 5%nat).
    { induction n as [|n IH]; intros Hn.
      - rewrite !for_range_empty; split; [|done].
        do 5 (destruct h as [|? h]; [discriminate|]); destruct h; [done|discriminate].
      - destruct (IH ltac:(lia)) as (E & H1 & H2); replace (S n) with (n + 1)%nat by lia; rewrite !for_range_S, E by lia.
        destruct (ripemd_word_index n ltac:(lia)) as [Hr Hr']; cbn [fold_left calls_at Ripemd.exec_call].
        unfold w; rewrite !words_at by done; rewrite (R_step _ _ _ _ _ _ _ (rdef1 n ltac:(lia))), (R_step _ _ _ _ _ _ _ (rdef2 n ltac:(lia))) by done.
        done. }
    destruct (H 80%nat ltac:(lia)) as (E & H1 & H2); fold v in E, H1; fold v' in E, H2; rewrite E; split; [|done].
    clearbody v v'; do 5 (destruct v as [|? v]; [discriminate|]); destruct v; [|discriminate].
    do 5 (destruct v' as [|? v']; [discriminate|]); destruct v'; [done|discriminate]. }
  destruct H as (E & _ & _); rewrite E; unfold add; cbn [map seq Nat.add]; rewrite !wrap_add_l; done.
Qed.

Lemma ripemd_compress_length h block : length (compress h block) = 5%nat.
Proof. done. Qed.

End RipemdProofs.

(** ** The classes *)

Lemma digest5_be (s : list Z) : length s = 5%nat -> concat (map (fun i => be_bytes 4 (s !!! i)) (seq 0 5)) = concat (map (be_bytes 4) s).
Proof. intros Hs; do 5 (destruct s as [|? s]; [discriminate|]); destruct s; [done|discriminate]. Qed.

Lemma digest5_le (s : list Z) : length s = 5%nat -> concat (map (fun i => le_bytes 4 (s !!! i)) (seq 0 5)) = concat (map (le_bytes 4) s).
Proof. intros Hs; do 5 (destruct s as [|? s]; [discriminate|]); destruct s; [done|discriminate]. Qed.

#[local] Opaque Sha1Code.Transform Ripemd.Transform Fips180.Sha1.compress Fips180.Ripemd160.compress.

#[export] Instance CSHA1_laws : MdLaws CSHA1 8 20.
Proof.
  split; [cbn; lia|by exists (2 ^ 58)|intros; apply length_be_bytes| |cbn; lia|reflexivity| |cbn; lia].
  - intros n; cbn [sizedesc CSHA1]; by rewrite !size_field, size_field_wrap.
  - intros m; unfold md_hash; cbn [md_digest CSHA1 seq map concat]; rewrite !length_app, !length_be_bytes; done.
Qed.

#[export] Instance CRIPEMD160_laws : MdLaws CRIPEMD160 8 20.
Proof.
  split; [cbn; lia|by exists (2 ^ 58)|intros; apply length_le_bytes| |cbn; lia|reflexivity| |cbn; lia].
  - intros n; cbn [sizedesc CRIPEMD160]; by rewrite !le_size_field, le_size_field_wrap.
  - intros m; unfold md_hash; cbn [md_digest CRIPEMD160 seq map concat]; rewrite !length_app, !length_le_bytes; done.
Qed.

Lemma sha1_hash msg : md_hash (M := CSHA1) msg = Fips180.Sha1.hash msg.
Proof.
  apply (md_hash_reference CSHA1 5 Fips180.Sha1.H0 Fips180.Sha1.compress (fun H => concat (map (be_bytes 4) H)));
    [done|done|intros; by apply Sha1Proofs.sha1_Transform_compress|intros; apply Sha1Proofs.sha1_compress_length|intros; by apply digest5_be|].
  rewrite (md_padded_eq (M := CSHA1)); unfold Fips180.pad; do 3 f_equal; cbn [sizedesc CSHA1]; rewrite size_field; done.
Qed.

Lemma ripemd160_hash msg : md_hash (M := CRIPEMD160) msg = Fips180.Ripemd160.hash msg.
Proof.
  apply (md_hash_reference CRIPEMD160 5 Fips180.Ripemd160.H0 Fips180.Ripemd160.compress (fun H => concat (map (le_bytes 4) H)));
    [done|done|intros; by apply RipemdProofs.ripemd_Transform_compress|intros; apply RipemdProofs.ripemd_compress_length|intros; by apply digest5_le|].
  rewrite (md_padded_eq (M := CRIPEMD160)); unfold Fips180.Ripemd160.pad; do 3 f_equal; cbn [sizedesc CRIPEMD160]; rewrite le_size_field; done.
Qed.
