(* ===== verification/Hash.v ===== *)
(** hash.h and hash.cpp: double hashing, hashing of a serialization, and the
    hashes of filters and short identifiers.

    The objects hold a hasher; [ubuf] and the like are the arrays [buf] of new
    objects, which the constructors do not set. *)

From S2P Require Import Prelude MdHash Sha2 Ripemd160 Serialize.

(** ** Double hashing *)

(** CHash256: the member [sha] is the object. *)
Definition CHash256_Write (h : hasher) (data : list Z) : hasher := Write (M := CSHA256) h data.
Definition CHash256_Reset (h : hasher) : hasher := md_Reset (M := CSHA256) h.
Definition CHash256_Finalize (h : hasher) : list Z * hasher :=
  let '(buf, sha) := Finalize (M := CSHA256) h in
  Finalize (M := CSHA256) (Write (M := CSHA256) (md_Reset (M := CSHA256) sha) buf).

(** CHash160; [rbuf] is the array of the temporary CRIPEMD160. *)
Definition CHash160_Write (h : hasher) (data : list Z) : hasher := Write (M := CSHA256) h data.
Definition CHash160_Reset (h : hasher) : hasher := md_Reset (M := CSHA256) h.
Definition CHash160_Finalize (rbuf : list Z) (h : hasher) : list Z * hasher :=
  let '(buf, sha) := Finalize (M := CSHA256) h in
  ((Finalize (M := CRIPEMD160) (Write (M := CRIPEMD160) (new_hasher (M := CRIPEMD160) rbuf) buf)).1, sha).

(** CHash512 *)
Definition CHash512_Write (h : hasher) (data : list Z) : hasher := Write (M := CSHA512) h data.
Definition CHash512_Reset (h : hasher) : hasher := md_Reset (M := CSHA512) h.
Definition CHash512_Finalize (h : hasher) : list Z * hasher :=
  let '(buf, sha) := Finalize (M := CSHA512) h in
  Finalize (M := CSHA512) (Write (M := CSHA512) (md_Reset (M := CSHA512) sha) buf).

(** The templates; an empty range writes no bytes of [pblank]. *)
Section Templates.
Context (ubuf rbuf : list Z).

Definition Hash_1 (p : list Z) : list Z :=
  (CHash256_Finalize (CHash256_Write (new_hasher (M := CSHA256) ubuf) p)).1.
Definition Hash_2 (p1 p2 : list Z) : list Z :=
  (CHash256_Finalize (CHash256_Write (CHash256_Write (new_hasher (M := CSHA256) ubuf) p1) p2)).1.
Definition Hash_3 (p1 p2 p3 : list Z) : list Z :=
  (CHash256_Finalize (CHash256_Write (CHash256_Write (CHash256_Write (new_hasher (M := CSHA256) ubuf) p1) p2) p3)).1.
Definition Hash160 (p : list Z) : list Z :=
  (CHash160_Finalize rbuf (CHash160_Write (new_hasher (M := CSHA256) ubuf) p)).1.
Definition Hash512_1 (p : list Z) : list Z :=
  (CHash512_Finalize (CHash512_Write (new_hasher (M := CSHA512) ubuf) p)).1.
Definition Hash512_2 (p1 p2 : list Z) : list Z :=
  (CHash512_Finalize (CHash512_Write (CHash512_Write (new_hasher (M := CSHA512) ubuf) p1) p2)).1.

End Templates.

(** ** Hashing a stream *)

(** CHashWriter: [write] and [GetHash]. *)
Definition HashWriter_write (ctx : hasher) (pch : list Z) : hasher := CHash256_Write ctx pch.
Definition HashWriter_GetHash (ctx : hasher) : list Z := (CHash256_Finalize ctx).1.

(** CHashVerifier over a CDataStream: the bytes read are also written. *)
Definition HashVerifier_read (nSize : nat) (ctx : hasher) : reader (list Z * hasher) :=
  pch <-- read nSize ;; ret (pch, HashWriter_write ctx pch).

(** [while (nSize > 0)]; a turn takes at least one byte, so that [nSize] turns are enough. *)
Fixpoint HashVerifier_ignore_loop (fuel : nat) (nSize : nat) (ctx : hasher) : reader hasher :=
  match fuel with
  | O => ret ctx
  | S fuel =>
    if (0 <? nSize)%nat then
      let now := Nat.min nSize 1024 in
      r <-- HashVerifier_read now ctx ;; HashVerifier_ignore_loop fuel (nSize - now) r.2
    else ret ctx
  end.
Definition HashVerifier_ignore (nSize : nat) (ctx : hasher) : reader hasher := HashVerifier_ignore_loop nSize nSize ctx.

(** ** MurmurHash3 *)

Definition ROTL32 (x r : Z) : Z := Z.lor (u32 (Z.shiftl x r)) (Z.shiftr x (32 - r)).

Definition murmur_c1 : Z := 0xcc9e2d51.
Definition murmur_c2 : Z := 0x1b873593.

(** [k1 *= c1; k1 = ROTL32(k1, 15); k1 *= c2;] *)
Definition murmur_k (k1 : Z) : Z := u32 (ROTL32 (u32 (k1 * murmur_c1)) 15 * murmur_c2).

Definition murmur_block (h1 k1 : Z) : Z :=
  let h1 := Z.lxor h1 (murmur_k k1) in
  let h1 := ROTL32 h1 13 in
  u32 (h1 * 5 + 0xe6546b64).

(** The switch on [size & 3], with its fall-through. *)
Definition murmur_tail (h1 : Z) (tail : list Z) (n : Z) : Z :=
  let k1 := 0 in
  let k1 := if n =? 3 then Z.lxor k1 (Z.shiftl (tail !!! 2%nat) 16) else k1 in
  let k1 := if (n =? 3) || (n =? 2) then Z.lxor k1 (Z.shiftl (tail !!! 1%nat) 8) else k1 in
  if (n =? 3) || (n =? 2) || (n =? 1) then Z.lxor h1 (murmur_k (Z.lxor k1 (tail !!! 0%nat))) else h1.

(** The index of the loop runs from [-nblocks] to 0, from the end of the last block. *)
Definition MurmurHash3 (nHashSeed : Z) (vDataToHash : list Z) : Z :=
  let size := length vDataToHash in
  let h1 := nHashSeed in
  let h1 :=
    if (0 <? size)%nat then
      let nblocks := (size / 4)%nat in
      let h1 := for_range 0 nblocks (fun i h1 => murmur_block h1 (le_word (read_at (i * 4) 4 vDataToHash))) h1 in
      murmur_tail h1 (drop (nblocks * 4) vDataToHash) (Z.land (Z.of_nat size) 3)
    else h1 in
  let h1 := Z.lxor h1 (u32 (Z.of_nat size)) in
  let h1 := Z.lxor h1 (Z.shiftr h1 16) in
  let h1 := u32 (h1 * 0x85ebca6b) in
  let h1 := Z.lxor h1 (Z.shiftr h1 13) in
  let h1 := u32 (h1 * 0xc2b2ae35) in
  Z.lxor h1 (Z.shiftr h1 16).

(** ** BIP 32 *)

(** The first four arguments are the memory of the temporary object. *)
Definition BIP32Hash (rkey buf_o buf_i buf_k : list Z) (chainCode : list Z) (nChild header : Z) (data : list Z) : list Z :=
  let num := [Z.land (Z.shiftr nChild 24) 0xFF; Z.land (Z.shiftr nChild 16) 0xFF;
              Z.land (Z.shiftr nChild 8) 0xFF; Z.land (Z.shiftr nChild 0) 0xFF] in
  let m := new_hmac (M := CSHA512) 64 rkey buf_o buf_i buf_k chainCode in
  let m := hmac_Write (M := CSHA512) m [header] in
  let m := hmac_Write (M := CSHA512) m data in
  let m := hmac_Write (M := CSHA512) m num in
  (hmac_Finalize (M := CSHA512) m).1.

(** ** SipHash *)

Definition ROTL (x b : Z) : Z := u64 (Z.lor (Z.shiftl x b) (Z.shiftr x (64 - b))).

Definition sip_state : Type := Z * Z * Z * Z.

Definition SIPROUND (v : sip_state) : sip_state :=
  let '(v0, v1, v2, v3) := v in
  let v0 := u64 (v0 + v1) in let v1 := ROTL v1 13 in let v1 := Z.lxor v1 v0 in
  let v0 := ROTL v0 32 in
  let v2 := u64 (v2 + v3) in let v3 := ROTL v3 16 in let v3 := Z.lxor v3 v2 in
  let v0 := u64 (v0 + v3) in let v3 := ROTL v3 21 in let v3 := Z.lxor v3 v0 in
  let v2 := u64 (v2 + v1) in let v1 := ROTL v1 17 in let v1 := Z.lxor v1 v2 in
  let v2 := ROTL v2 32 in
  (v0, v1, v2, v3).

Definition xor3 (d : Z) (v : sip_state) : sip_state := let '(v0, v1, v2, v3) := v in (v0, v1, v2, Z.lxor v3 d).
Definition xor0 (d : Z) (v : sip_state) : sip_state := let '(v0, v1, v2, v3) := v in (Z.lxor v0 d, v1, v2, v3).
Definition xor2 (d : Z) (v : sip_state) : sip_state := let '(v0, v1, v2, v3) := v in (v0, v1, Z.lxor v2 d, v3).
Definition xor_all (v : sip_state) : Z := let '(v0, v1, v2, v3) := v in Z.lxor (Z.lxor (Z.lxor v0 v1) v2) v3.

Record CSipHasher := SipHasher { sip_v : sip_state; sip_tmp : Z; sip_count : Z }.

Definition new_SipHasher (k0 k1 : Z) : CSipHasher :=
  SipHasher (Z.lxor 0x736f6d6570736575 k0, Z.lxor 0x646f72616e646f6d k1,
             Z.lxor 0x6c7967656e657261 k0, Z.lxor 0x7465646279746573 k1) 0 0.

(** [None] is an overflow of [count], an [int], or a failed assertion. *)

Definition Write_uint64 (h : CSipHasher) (data : Z) : option CSipHasher :=
  let v := h.(sip_v) in
  if negb (Z.rem h.(sip_count) 8 =? 0) then None
  else
    let v := xor3 data v in
    let v := SIPROUND v in
    let v := SIPROUND v in
    let v := xor0 data v in
    if int_max <? h.(sip_count) + 8 then None
    else Some (SipHasher v h.(sip_tmp) (h.(sip_count) + 8)).

(** One turn of [while (size--)] on the variables [v0] to [v3], [t] and [c]. *)
Definition sip_byte (b : Z) (st : sip_state * Z * Z) : option (sip_state * Z * Z) :=
  let '(v, t, c) := st in
  let t := Z.lor t (u64 (Z.shiftl b (8 * Z.rem c 8))) in
  if int_max <? c + 1 then None
  else
    let c := c + 1 in
    if Z.land c 7 =? 0 then
      let v := xor3 t v in
      let v := SIPROUND v in
      let v := SIPROUND v in
      let v := xor0 t v in
      Some (v, 0, c)
    else Some (v, t, c).

Definition Write_bytes (h : CSipHasher) (data : list Z) : option CSipHasher :=
  '(v, t, c) ← fold_leftM (fun st b => sip_byte b st) data (h.(sip_v), h.(sip_tmp), h.(sip_count));
  Some (SipHasher v t c).

Definition sip_Finalize (h : CSipHasher) : Z :=
  let v := h.(sip_v) in
  let t := Z.lor h.(sip_tmp) (u64 (Z.shiftl (u64 h.(sip_count)) 56)) in
  let v := xor3 t v in
  let v := SIPROUND v in
  let v := SIPROUND v in
  let v := xor0 t v in
  let v := xor2 0xFF v in
  let v := SIPROUND v in
  let v := SIPROUND v in
  let v := SIPROUND v in
  let v := SIPROUND v in
  xor_all v.

(** [val.GetUint64(pos)] of uint256.h: eight bytes, least significant first *)
Definition val_GetUint64 (val : list Z) (pos : nat) : Z := le_word (read_at (pos * 8) 8 val).

Definition SipHashUint256 (k0 k1 : Z) (val : list Z) : Z :=
  let d := val_GetUint64 val 0 in
  let v := (Z.lxor 0x736f6d6570736575 k0, Z.lxor 0x646f72616e646f6d k1,
            Z.lxor 0x6c7967656e657261 k0, Z.lxor (Z.lxor 0x7465646279746573 k1) d) in
  let v := xor0 d (SIPROUND (SIPROUND v)) in
  let d := val_GetUint64 val 1 in
  let v := xor3 d v in
  let v := xor0 d (SIPROUND (SIPROUND v)) in
  let d := val_GetUint64 val 2 in
  let v := xor3 d v in
  let v := xor0 d (SIPROUND (SIPROUND v)) in
  let d := val_GetUint64 val 3 in
  let v := xor3 d v in
  let v := xor0 d (SIPROUND (SIPROUND v)) in
  let v := xor3 (u64 (Z.shiftl 4 59)) v in
  let v := xor0 (u64 (Z.shiftl 4 59)) (SIPROUND (SIPROUND v)) in
  let v := xor2 0xFF v in
  xor_all (SIPROUND (SIPROUND (SIPROUND (SIPROUND v)))).

Definition SipHashUint256Extra (k0 k1 : Z) (val : list Z) (extra : Z) : Z :=
  let d := val_GetUint64 val 0 in
  let v := (Z.lxor 0x736f6d6570736575 k0, Z.lxor 0x646f72616e646f6d k1,
            Z.lxor 0x6c7967656e657261 k0, Z.lxor (Z.lxor 0x7465646279746573 k1) d) in
  let v := xor0 d (SIPROUND (SIPROUND v)) in
  let d := val_GetUint64 val 1 in
  let v := xor3 d v in
  let v := xor0 d (SIPROUND (SIPROUND v)) in
  let d := val_GetUint64 val 2 in
  let v := xor3 d v in
  let v := xor0 d (SIPROUND (SIPROUND v)) in
  let d := val_GetUint64 val 3 in
  let v := xor3 d v in
  let v := xor0 d (SIPROUND (SIPROUND v)) in
  let d := Z.lor (u64 (Z.shiftl 36 56)) extra in
  let v := xor3 d v in
  let v := xor0 d (SIPROUND (SIPROUND v)) in
  let v := xor2 0xFF v in
  xor_all (SIPROUND (SIPROUND (SIPROUND (SIPROUND v)))).
