(* ===== verification/SipHash.v ===== *)
(** SipHash-2-4 of hash.cpp against the definition of Aumasson and Bernstein. *)

From S2P Require Import Prelude Serialize Hash.

(** ** Reference *)

Module SipSpec.

Definition rotl (x b : Z) : Z := wrap 64 (Z.lor (Z.shiftl x b) (Z.shiftr x (64 - b))).
Definition add (x y : Z) : Z := wrap 64 (x + y).

(** The two halves of a round of the paper: both additions, both rotations, both
    exclusive ors, and the rotation by 32. *)
Definition half1 (v : sip_state) : sip_state :=
  let '(v0, v1, v2, v3) := v in
  let '(v0, v2) := (add v0 v1, add v2 v3) in
  let '(v1, v3) := (rotl v1 13, rotl v3 16) in
  let '(v1, v3) := (Z.lxor v1 v0, Z.lxor v3 v2) in
  (rotl v0 32, v1, v2, v3).
Definition half2 (v : sip_state) : sip_state :=
  let '(v0, v1, v2, v3) := v in
  let '(v2, v0) := (add v2 v1, add v0 v3) in
  let '(v1, v3) := (rotl v1 17, rotl v3 21) in
  let '(v1, v3) := (Z.lxor v1 v2, Z.lxor v3 v0) in
  (v0, v1, rotl v2 32, v3).
Definition sipround (v : sip_state) : sip_state := half2 (half1 v).

Definition compress (v : sip_state) (m : Z) : sip_state := xor0 m (Nat.iter 2 sipround (xor3 m v)).
Definition finalize (v : sip_state) : Z := xor_all (Nat.iter 4 sipround (xor2 0xff v)).

Definition init (k0 k1 : Z) : sip_state :=
  (Z.lxor k0 0x736f6d6570736575, Z.lxor k1 0x646f72616e646f6d, Z.lxor k0 0x6c7967656e657261, Z.lxor k1 0x7465646279746573).

Definition word_at (msg : list Z) (i : nat) : Z := le_word (read_at (i * 8) 8 msg).

(** The state after the first [n] words of the message. *)
Definition after (k0 k1 : Z) (msg : list Z) (n : nat) : sip_state :=
  for_range 0 n (fun i v => compress v (word_at msg i)) (init k0 k1).

(** The last word has the bytes that remain and the length modulo 256. *)
Definition last_word (msg : list Z) : Z :=
  le_word (drop (length msg / 8 * 8) msg) + 2 ^ 56 * (Z.of_nat (length msg) mod 256).

Definition siphash (k0 k1 : Z) (msg : list Z) : Z :=
  finalize (compress (after k0 k1 msg (length msg / 8)) (last_word msg)).

End SipSpec.

(** ** Sequences of writes *)

Inductive sip_piece := Bytes (l : list Z) | Word (d : Z).

Definition sip_bytes (p : sip_piece) : list Z := match p with Bytes l => l | Word d => le_bytes 8 d end.
Definition sip_write (h : CSipHasher) (p : sip_piece) : option CSipHasher :=
  match p with Bytes l => Write_bytes h l | Word d => Write_uint64 h d end.

(** Bytes, and words at multiples of eight bytes *)
Fixpoint sip_aligned (n : nat) (ps : list sip_piece) : bool :=
  match ps with
  | [] => true
  | Bytes l :: ps => wordsb 8 l && sip_aligned (n + length l) ps
  | Word d :: ps => wordb 64 d && (n mod 8 =? 0)%nat && sip_aligned (n + 8) ps
  end.

(** What a hasher holds after the bytes [msg]. *)
Definition sip_holds (k0 k1 : Z) (msg : list Z) (v : sip_state) (t c : Z) : Prop :=
  v = SipSpec.after k0 k1 msg (length msg / 8) /\
  t = le_word (drop (length msg / 8 * 8) msg) /\ c = Z.of_nat (length msg).

(** ** Lemmas *)

Lemma SIPROUND_spec v : SIPROUND v = SipSpec.sipround v.
Proof. by destruct v as [[[v0 v1] v2] v3]. Qed.

Lemma compress_code v m : xor0 m (SIPROUND (SIPROUND (xor3 m v))) = SipSpec.compress v m.
Proof. by rewrite !SIPROUND_spec. Qed.

Lemma finalize_code v : xor_all (SIPROUND (SIPROUND (SIPROUND (SIPROUND (xor2 0xFF v))))) = SipSpec.finalize v.
Proof. by rewrite !SIPROUND_spec. Qed.

Lemma init_code k0 k1 : (new_SipHasher k0 k1).(sip_v) = SipSpec.init k0 k1.
Proof. unfold new_SipHasher, SipSpec.init; cbn [sip_v]; by rewrite !(Z.lxor_comm _ k0), !(Z.lxor_comm _ k1). Qed.

Lemma le_word_snoc l b : le_word (l ++ [b]) = Z.lor (le_word l) (Z.shiftl b (8 * Z.of_nat (length l))).
Proof.
  induction l as [|x l IH]; cbn [le_word app length].
  - by rewrite Z.mul_0_r, Z.shiftl_0_r, Z.shiftl_0_l, Z.lor_0_r, Z.lor_0_l.
  - rewrite IH, Z.shiftl_lor, Z.shiftl_shiftl, Z.lor_assoc by lia; do 2 f_equal; lia.
Qed.

Lemma sip_after_app k0 k1 msg m n : (n * 8 <= length msg)%nat -> SipSpec.after k0 k1 (msg ++ m) n = SipSpec.after k0 k1 msg n.
Proof.
  intros Hn; apply for_range_ext; [lia|]; intros i v Hi; unfold SipSpec.word_at, read_at; do 2 f_equal.
  rewrite drop_app_le, take_app_le by (rewrite ?length_drop; lia); done.
Qed.

Lemma sip_after_S k0 k1 msg n : SipSpec.after k0 k1 msg (n + 1) = SipSpec.compress (SipSpec.after k0 k1 msg n) (SipSpec.word_at msg n).
Proof. unfold SipSpec.after; by rewrite for_range_S by lia. Qed.

Lemma div8 n : n = (n / 8 * 8 + n mod 8)%nat /\ (n mod 8 < 8)%nat.
Proof. pose proof (Nat.div_mod n 8 ltac:(lia)); pose proof (Nat.mod_upper_bound n 8 ltac:(lia)); lia. Qed.

Lemma div8_unique k r : (r < 8)%nat -> ((k * 8 + r) / 8 = k)%nat /\ ((k * 8 + r) mod 8 = r)%nat.
Proof. intros; split; symmetry; [apply (Nat.div_unique _ _ _ r)|apply (Nat.mod_unique _ _ k)]; lia. Qed.

(** A full word is taken in. *)
Lemma sip_holds_word k0 k1 msg m v t c w : sip_holds k0 k1 msg v t c ->
  (length msg mod 8 + length m = 8)%nat -> le_word (drop (length msg / 8 * 8) msg ++ m) = w ->
  sip_holds k0 k1 (msg ++ m) (SipSpec.compress v w) 0 (c + Z.of_nat (length m)).
Proof.
  intros (Hv & Ht & Hc) Hm Hw; destruct (div8 (length msg)) as [Hl Hr].
  set (k := (length msg / 8)%nat) in *; destruct (div8_unique (k + 1) 0 ltac:(lia)) as [E _].
  assert (El : length (msg ++ m) = ((k + 1) * 8 + 0)%nat) by (rewrite length_app; lia).
  unfold sip_holds; rewrite El, E; split_and!.
  - rewrite sip_after_S, sip_after_app, <- Hv by lia; f_equal; rewrite <- Hw; unfold SipSpec.word_at, read_at; f_equal.
    rewrite drop_app_le, take_ge by (rewrite ?length_app, ?length_drop; lia); done.
  - rewrite drop_ge by lia; done.
  - rewrite <- El, length_app; lia.
Qed.

Lemma sip_byte_holds k0 k1 msg v t c b :
  sip_holds k0 k1 msg v t c -> word 8 b -> Z.of_nat (length msg) < int_max ->
  exists v' t' c', sip_byte b (v, t, c) = Some (v', t', c') /\ sip_holds k0 k1 (msg ++ [b]) v' t' c'.
Proof.
  intros Hh Hb Hmax; pose proof Hh as (Hv & Ht & Hc); destruct (div8 (length msg)) as [Hl Hr].
  set (k := (length msg / 8)%nat) in *; set (r := (length msg mod 8)%nat) in *.
  assert (Erem : Z.rem c 8 = Z.of_nat r) by (rewrite Hc, Z.rem_mod_nonneg by lia; unfold r; by rewrite Nat2Z.inj_mod).
  assert (Et : Z.lor t (u64 (Z.shiftl b (8 * Z.rem c 8))) = le_word (drop (k * 8) msg ++ [b])).
  { rewrite le_word_snoc, length_drop, Ht, Erem; f_equal; replace (length msg - k * 8)%nat with r by lia.
    apply wrap_id; rewrite Z.shiftl_mul_pow2 by lia; unfold word in *; split; [apply Z.mul_nonneg_nonneg; lia|].
    assert (2 ^ (8 * Z.of_nat r) <= 2 ^ 56) by (apply Z.pow_le_mono_r; lia); change (2 ^ 64) with (2 ^ 8 * 2 ^ 56); nia. }
  unfold sip_byte; rewrite Et; destruct (Z.ltb_spec int_max (c + 1)) as [Hov|_]; [lia|].
  assert (El : length (msg ++ [b]) = (k * 8 + (r + 1))%nat) by (rewrite length_app; cbn [length]; lia).
  assert (Eland : Z.land (c + 1) 7 = Z.of_nat ((r + 1) mod 8)).
  { change 7 with (Z.ones 3); rewrite Z.land_ones by lia; change (2 ^ 3) with (Z.of_nat 8).
    replace (c + 1) with (Z.of_nat (k * 8 + (r + 1))) by lia; rewrite <- Nat2Z.inj_mod; f_equal.
    rewrite Nat.add_comm; apply Nat.Div0.mod_add. }
  rewrite Eland; destruct (Nat.eq_dec r 7%nat) as [E7|Hne].
  - rewrite E7; cbn [Nat.add Nat.modulo Nat.divmod fst snd Nat.sub Z.of_nat Z.eqb]; rewrite compress_code; do 3 eexists; split; [reflexivity|].
    apply (sip_holds_word k0 k1 msg [b] v t c); [done|fold r; cbn [length]; lia|done].
  - rewrite Nat.mod_small by lia; destruct (Z.eqb_spec (Z.of_nat (r + 1)) 0); [lia|]; do 3 eexists; split; [reflexivity|].
    destruct (div8_unique k (r + 1) ltac:(lia)) as [E _]; unfold sip_holds; rewrite El, E; split_and!.
    + rewrite sip_after_app by lia; done.
    + rewrite drop_app_le by lia; done.
    + lia.
Qed.

Lemma Write_bytes_holds k0 k1 msg h l :
  sip_holds k0 k1 msg h.(sip_v) h.(sip_tmp) h.(sip_count) -> words 8 l -> Z.of_nat (length (msg ++ l)) <= int_max ->
  exists h', Write_bytes h l = Some h' /\ sip_holds k0 k1 (msg ++ l) h'.(sip_v) h'.(sip_tmp) h'.(sip_count).
Proof.
  intros Hh Hl Hmax; unfold Write_bytes.
  enough (H : exists v t c, fold_leftM (fun st b => sip_byte b st) l (h.(sip_v), h.(sip_tmp), h.(sip_count)) = Some (v, t, c) /\ sip_holds k0 k1 (msg ++ l) v t c).
  { destruct H as (v & t & c & -> & H); by eexists. }
  revert Hh Hmax; generalize h.(sip_v), h.(sip_tmp), h.(sip_count); clear h; revert msg.
  induction Hl as [|b l Hb Hl IH]; intros msg v t c Hh Hmax.
  - rewrite app_nil_r; by exists v, t, c.
  - rewrite length_app in Hmax; cbn [length] in Hmax.
    destruct (sip_byte_holds k0 k1 msg v t c b Hh Hb ltac:(lia)) as (v' & t' & c' & E & Hh').
    rewrite fold_leftM_cons, E; cbn [mbind option_bind]; destruct (IH _ _ _ _ Hh') as (v2 & t2 & c2 & E2 & Hh2).
    + rewrite !length_app; cbn [length]; lia.
    + rewrite <- app_assoc in Hh2; by exists v2, t2, c2.
Qed.

Lemma Write_uint64_holds k0 k1 msg h d :
  sip_holds k0 k1 msg h.(sip_v) h.(sip_tmp) h.(sip_count) -> word 64 d -> Z.of_nat (length msg) + 8 <= int_max ->
  if (length msg mod 8 =? 0)%nat
  then exists h', Write_uint64 h d = Some h' /\ sip_holds k0 k1 (msg ++ le_bytes 8 d) h'.(sip_v) h'.(sip_tmp) h'.(sip_count)
  else Write_uint64 h d = None.
Proof.
  intros Hh Hd Hmax; pose proof Hh as (Hv & Ht & Hc); destruct (div8 (length msg)) as [Hl Hr]; unfold Write_uint64.
  assert (Erem : Z.rem h.(sip_count) 8 = Z.of_nat (length msg mod 8)) by (rewrite Hc, Z.rem_mod_nonneg by lia; by rewrite Nat2Z.inj_mod).
  rewrite Erem; destruct (Nat.eqb_spec (length msg mod 8) 0) as [E0|Hne].
  - rewrite E0; cbn [Z.of_nat Z.eqb negb]; rewrite compress_code; destruct (Z.ltb_spec int_max (h.(sip_count) + 8)); [lia|].
    eexists; split; [reflexivity|]; cbn [sip_v sip_tmp sip_count].
    assert (E : drop (length msg / 8 * 8) msg = []) by (apply drop_ge; lia).
    replace h.(sip_tmp) with 0 by (rewrite Ht, E; done).
    replace (h.(sip_count) + 8) with (h.(sip_count) + Z.of_nat (length (le_bytes 8 d))) by (rewrite length_le_bytes; lia).
    eapply sip_holds_word; [exact Hh|rewrite length_le_bytes; lia|rewrite E; by apply (le_word_le_bytes 8)].
  - destruct (Z.eqb_spec (Z.of_nat (length msg mod 8)) 0); [lia|done].
Qed.

(** Any sequence of aligned writes. *)
Lemma sip_writes_hold k0 k1 ps msg h :
  sip_holds k0 k1 msg h.(sip_v) h.(sip_tmp) h.(sip_count) -> sip_aligned (length msg) ps = true ->
  Z.of_nat (length (msg ++ concat (map sip_bytes ps))) <= int_max ->
  exists h', fold_leftM sip_write ps h = Some h' /\
    sip_holds k0 k1 (msg ++ concat (map sip_bytes ps)) h'.(sip_v) h'.(sip_tmp) h'.(sip_count).
Proof.
  revert msg h; induction ps as [|p ps IH]; intros msg h Hh Ha Hmax; cbn [map concat] in *.
  - exists h; split; [done|by rewrite app_nil_r].
  - rewrite fold_leftM_cons; rewrite app_assoc in Hmax.
    assert (H : exists h', sip_write h p = Some h' /\ sip_holds k0 k1 (msg ++ sip_bytes p) h'.(sip_v) h'.(sip_tmp) h'.(sip_count) /\
      sip_aligned (length (msg ++ sip_bytes p)) ps = true).
    { assert (Hm' : Z.of_nat (length (msg ++ sip_bytes p)) <= int_max) by (rewrite length_app in Hmax; lia).
      destruct p as [l|d]; cbn [sip_aligned sip_bytes sip_write] in *; rewrite !andb_true_iff in Ha.
      - destruct Ha as [Hl Ha]; destruct (Write_bytes_holds k0 k1 msg h l Hh) as (h' & E & Hh'); [by apply wordsb_spec|done|].
        exists h'; rewrite length_app; done.
      - destruct Ha as [[Hd Hm] Ha]; rewrite length_app, length_le_bytes in *.
        assert (H := Write_uint64_holds k0 k1 msg h d Hh); rewrite Hm in H.
        destruct H as (h' & E & Hh'); [by apply wordb_spec|lia|by exists h']. }
    destruct H as (h' & -> & Hh' & Ha'); cbn [mbind option_bind]; rewrite app_assoc; by apply IH.
Qed.

Lemma sip_bytes_words n ps : sip_aligned n ps = true -> words 8 (concat (map sip_bytes ps)).
Proof.
  revert n; induction ps as [|p ps IH]; intros n Ha; cbn [map concat]; [constructor|]; apply Forall_app.
  destruct p as [l|d]; cbn [sip_aligned sip_bytes] in *; rewrite !andb_true_iff in Ha.
  - destruct Ha as [Hl Ha]; split; [by apply wordsb_spec|by apply (IH _ Ha)].
  - destruct Ha as [_ Ha]; split; [apply le_bytes_words|by apply (IH _ Ha)].
Qed.

Lemma sip_Finalize_holds k0 k1 msg h :
  sip_holds k0 k1 msg h.(sip_v) h.(sip_tmp) h.(sip_count) -> words 8 msg -> Z.of_nat (length msg) <= int_max ->
  sip_Finalize h = SipSpec.siphash k0 k1 msg.
Proof.
  intros (Hv & Ht & Hc) Hw Hmax; unfold sip_Finalize, SipSpec.siphash; rewrite compress_code, finalize_code, Hv; do 2 f_equal.
  destruct (div8 (length msg)) as [Hl Hr].
  unfold SipSpec.last_word; rewrite Ht, Hc; unfold int_max in Hmax; assert (E64 : u64 (Z.of_nat (length msg)) = Z.of_nat (length msg)) by (apply wrap_id; unfold word; lia); rewrite E64.
  replace (u64 (Z.shiftl (Z.of_nat (length msg)) 56)) with (2 ^ 56 * (Z.of_nat (length msg) mod 256)).
  - apply lor_disjoint; [lia|]; assert (Hd : words 8 (drop (length msg / 8 * 8) msg)) by (by apply Forall_drop).
    apply le_word_word in Hd; eapply word_mono in Hd; [exact Hd|]; rewrite length_drop; lia.
  - unfold u64, wrap; rewrite Z.shiftl_mul_pow2 by lia; change (2 ^ 64) with (256 * 2 ^ 56).
    rewrite Zmult_mod_distr_r; apply Z.mul_comm.
Qed.

(** ** The specialised functions *)

Lemma words_of_val val m i : length val = 32%nat -> (i < 4)%nat -> SipSpec.word_at (val ++ m) i = val_GetUint64 val i.
Proof.
  intros Hv Hi; unfold SipSpec.word_at, val_GetUint64, read_at; rewrite drop_app_le, take_app_le by (rewrite ?length_drop; lia); done.
Qed.

Lemma init_xor k0 k1 d :
  (Z.lxor 0x736f6d6570736575 k0, Z.lxor 0x646f72616e646f6d k1, Z.lxor 0x6c7967656e657261 k0, Z.lxor (Z.lxor 0x7465646279746573 k1) d) =
  xor3 d (SipSpec.init k0 k1).
Proof. unfold SipSpec.init; cbn [xor3]; by rewrite !(Z.lxor_comm _ k0), !(Z.lxor_comm _ k1). Qed.

#[local] Opaque SIPROUND xor0 xor2 xor_all SipSpec.compress SipSpec.finalize SipSpec.init.

Lemma SipHashUint256_spec k0 k1 val : length val = 32%nat -> SipHashUint256 k0 k1 val = SipSpec.siphash k0 k1 val.
Proof.
  intros Hv; unfold SipHashUint256; cbv zeta; rewrite init_xor, !compress_code, finalize_code.
  unfold SipSpec.siphash; rewrite Hv; change (32 / 8)%nat with 4%nat; apply (f_equal SipSpec.finalize), (f_equal2 SipSpec.compress).
  - reflexivity.
  - unfold SipSpec.last_word; rewrite Hv, drop_ge by (cbn; lia); reflexivity.
Qed.

Lemma SipHashUint256Extra_spec k0 k1 val extra : length val = 32%nat -> word 32 extra ->
  SipHashUint256Extra k0 k1 val extra = SipSpec.siphash k0 k1 (val ++ le_bytes 4 extra).
Proof.
  intros Hv He; unfold SipHashUint256Extra; cbv zeta; rewrite init_xor, !compress_code, finalize_code.
  unfold SipSpec.siphash, SipSpec.last_word; rewrite length_app, length_le_bytes, Hv; change ((32 + 4) / 8)%nat with 4%nat; apply (f_equal SipSpec.finalize), (f_equal2 SipSpec.compress).
  - unfold SipSpec.after, for_range; cbn [Nat.sub seq fold_left]; rewrite !words_of_val by (done || lia); done.
  - rewrite drop_app_ge by lia; rewrite Hv, Nat.sub_diag, drop_0, (le_word_le_bytes 4) by done.
    rewrite Z.lor_comm; change (u64 (Z.shiftl 36 56)) with (2 ^ 56 * 36); apply lor_disjoint; [lia|].
    unfold word in He; lia.
Qed.

(** ** Theorem *)

(** SipHash-2-4.  A hasher with any sequence of writes of
    bytes and of aligned 64-bit words gives SipHash of all the bytes, an
    unaligned word fails the assertion, and the two specialised functions are
    SipHash of the 32 bytes of the number, and of these with four more. *)
Theorem siphash_correct k0 k1 ps :
  sip_aligned 0 ps = true -> Z.of_nat (length (concat (map sip_bytes ps))) <= int_max ->
  (exists h, fold_leftM sip_write ps (new_SipHasher k0 k1) = Some h /\
    sip_Finalize h = SipSpec.siphash k0 k1 (concat (map sip_bytes ps)) /\
    (forall d, word 64 d -> (length (concat (map sip_bytes ps)) mod 8 <> 0)%nat ->
       Z.of_nat (length (concat (map sip_bytes ps))) + 8 <= int_max -> Write_uint64 h d = None)) /\
  (forall val, length val = 32%nat -> SipHashUint256 k0 k1 val = SipSpec.siphash k0 k1 val /\
    forall extra, word 32 extra -> SipHashUint256Extra k0 k1 val extra = SipSpec.siphash k0 k1 (val ++ le_bytes 4 extra)).
Proof.
  intros Ha Hmax; split.
  - destruct (sip_writes_hold k0 k1 ps [] (new_SipHasher k0 k1)) as (h & E & Hh); [by rewrite init_code|done|done|].
    cbn [app] in Hh; exists h; split_and!; [done| |].
    + apply sip_Finalize_holds; [done| |done]; by apply (sip_bytes_words 0).
    + intros d Hd Hm Hl; assert (H := Write_uint64_holds k0 k1 _ h d Hh Hd Hl).
      apply Nat.eqb_neq in Hm; by rewrite Hm in H.
  - intros val Hv; split; [by apply SipHashUint256_spec|intros; by apply SipHashUint256Extra_spec].
Qed.

Lemma siphash_correct_witness :
  exists h, fold_leftM sip_write [Word 0x0706050403020100; Bytes [8; 9; 10]; Bytes [11; 12; 13; 14; 15]; Word 1] (new_SipHasher 5 6) = Some h /\
    sip_Finalize h = SipSpec.siphash 5 6 ([0; 1; 2; 3; 4; 5; 6; 7; 8; 9; 10; 11; 12; 13; 14; 15; 1; 0; 0; 0; 0; 0; 0; 0]).
Proof.
  destruct (siphash_correct 5 6 [Word 0x0706050403020100; Bytes [8; 9; 10]; Bytes [11; 12; 13; 14; 15]; Word 1]) as [(h & E & F & _) _].
  - reflexivity.
  - vm_compute; discriminate.
  - exists h; split; [exact E|exact F].
Defined.

(** The first test vector of the paper: the bytes 0 to 14 under the key 00 01 .. 0f. *)
Example siphash_vector :
  sip_Finalize <$> Write_bytes (new_SipHasher 0x0706050403020100 0x0f0e0d0c0b0a0908) (map Z.of_nat (seq 0 15)) = Some 0xa129ca6149be45e5.
Proof. vm_compute; reflexivity. Qed.
