(* ===== verification/HashClaims.v ===== *)
(** The hasher objects and the hashes of hash.h and hash.cpp: digests, double
    hashes, hashes of streams and BIP 32. *)

From S2P Require Import Prelude MdHash MdProofs Fips180 Sha2 Sha2Proofs Sha1 Ripemd160 LegacyHash Serialize SerializeProofs Hash.

(** ** The four classes *)

Inductive md_variant := V_SHA1 | V_RIPEMD160 | V_SHA256 | V_SHA512.

Definition md_fun (v : md_variant) : MdFun :=
  match v with V_SHA1 => CSHA1 | V_RIPEMD160 => CRIPEMD160 | V_SHA256 => CSHA256 | V_SHA512 => CSHA512 end.
Definition md_ref (v : md_variant) : list Z -> list Z :=
  match v with
  | V_SHA1 => Fips180.Sha1.hash | V_RIPEMD160 => Fips180.Ripemd160.hash
  | V_SHA256 => Fips180.hash Fips180.sha256 | V_SHA512 => Fips180.hash Fips180.sha512
  end.
Definition md_bytes_of (v : md_variant) : nat := match v with V_SHA512 => 128 | _ => 64 end.
Definition md_size_of (v : md_variant) : nat := match v with V_SHA512 => 16 | _ => 8 end.
Definition md_out_of (v : md_variant) : nat := match v with V_SHA1 | V_RIPEMD160 => 20 | V_SHA256 => 32 | V_SHA512 => 64 end.

(** A message that FIPS 180-4 allows. *)
Definition short (msg : list Z) : Prop := 8 * Z.of_nat (length msg) < 2 ^ 64.

#[export] Instance md_laws v : MdLaws (md_fun v) (md_size_of v) (md_out_of v).
Proof. destruct v; [apply CSHA1_laws|apply CRIPEMD160_laws|apply CSHA256_laws|apply CSHA512_laws]. Qed.

Lemma md_block_eq v : md_block (MdFun := md_fun v) = md_bytes_of v.
Proof. by destruct v. Qed.

Lemma md_fits v : 2 * Z.of_nat (md_block (MdFun := md_fun v)) < 2 ^ 64.
Proof. rewrite md_block_eq; destruct v; cbn; lia. Qed.

Lemma md_hash_ref v msg : short msg -> md_hash (M := md_fun v) msg = md_ref v msg.
Proof. destruct v; intros H; [apply sha1_hash|apply ripemd160_hash|apply sha256_hash|by apply sha512_hash]. Qed.

Lemma short_piece v pieces : short (concat pieces) -> pieces_fit (M := md_fun v) pieces.
Proof.
  unfold short; intros Hl; apply List.Forall_forall; intros d Hd; rewrite md_block_eq.
  apply in_split in Hd as (l1 & l2 & ->); rewrite concat_app, length_app in Hl; cbn [concat] in Hl; rewrite length_app in Hl.
  destruct v; cbn [md_bytes_of]; lia.
Qed.

Lemma short_fits v d : short d -> Z.of_nat (length d) + Z.of_nat (md_block (MdFun := md_fun v)) < 2 ^ 64.
Proof. unfold short; rewrite md_block_eq; destruct v; cbn [md_bytes_of]; lia. Qed.

(** The digest of an object that holds a message. *)
Lemma finalize_ref v msg h : holds (M := md_fun v) msg h -> short msg ->
  (Finalize (M := md_fun v) h).1 = md_ref v msg /\ holds (M := md_fun v) (md_padded (M := md_fun v) msg) (Finalize (M := md_fun v) h).2.
Proof.
  intros Hh Hs; destruct (Finalize_holds (M := md_fun v) (md_fits v) msg h Hh) as [E Hf]; split; [rewrite E; by apply md_hash_ref|done].
Qed.

Lemma ref_length v msg : short msg -> length (md_ref v msg) = md_out_of v.
Proof. intros Hs; rewrite <- md_hash_ref by done; apply md_out_length. Qed.

Lemma ref_short v msg : short msg -> short (md_ref v msg).
Proof. intros Hs; unfold short; rewrite ref_length by done; destruct v; cbn; lia. Qed.

(** Hashing a digest with an object that was reset. *)
Lemma second_hash v h msg m : holds (M := md_fun v) m h -> short msg ->
  (Finalize (M := md_fun v) (Write (M := md_fun v) (md_Reset (M := md_fun v) h) msg)).1 = md_ref v msg /\
  length (md_buf (Finalize (M := md_fun v) (Write (M := md_fun v) (md_Reset (M := md_fun v) h) msg)).2) = md_bytes_of v.
Proof.
  intros Hh Hs; assert (Hw : holds (M := md_fun v) msg (Write (M := md_fun v) (md_Reset (M := md_fun v) h) msg)).
  { apply (Write_holds (M := md_fun v) []); [by apply (Reset_holds (M := md_fun v) m)|by apply short_fits]. }
  destruct (finalize_ref v msg _ Hw Hs) as [E Hf]; split; [done|]; rewrite <- md_block_eq; apply Hf.
Qed.

(** ** Double hashes *)

Definition hash256 (msg : list Z) : list Z := md_ref V_SHA256 (md_ref V_SHA256 msg).
Definition hash160 (msg : list Z) : list Z := md_ref V_RIPEMD160 (md_ref V_SHA256 msg).
Definition hash512 (msg : list Z) : list Z := md_ref V_SHA512 (md_ref V_SHA512 msg).

#[local] Opaque Fips180.hash Fips180.Ripemd160.hash.

Lemma CHash256_Finalize_spec msg h : holds (M := CSHA256) msg h -> short msg ->
  (CHash256_Finalize h).1 = hash256 msg /\ length (md_buf (CHash256_Finalize h).2) = 64%nat.
Proof.
  intros Hh Hs; unfold CHash256_Finalize; destruct (finalize_ref V_SHA256 msg h Hh Hs) as [E Hf].
  change CSHA256 with (md_fun V_SHA256); destruct (Finalize h) as [buf sha]; cbn [fst snd] in *; subst buf.
  apply (second_hash V_SHA256 sha _ _ Hf); by apply ref_short.
Qed.

Lemma CHash512_Finalize_spec msg h : holds (M := CSHA512) msg h -> short msg ->
  (CHash512_Finalize h).1 = hash512 msg /\ length (md_buf (CHash512_Finalize h).2) = 128%nat.
Proof.
  intros Hh Hs; unfold CHash512_Finalize; destruct (finalize_ref V_SHA512 msg h Hh Hs) as [E Hf].
  change CSHA512 with (md_fun V_SHA512); destruct (Finalize h) as [buf sha]; cbn [fst snd] in *; subst buf.
  apply (second_hash V_SHA512 sha _ _ Hf); by apply ref_short.
Qed.

Lemma CHash160_Finalize_spec rbuf msg h : holds (M := CSHA256) msg h -> short msg -> length rbuf = 64%nat ->
  (CHash160_Finalize rbuf h).1 = hash160 msg.
Proof.
  intros Hh Hs Hb; unfold CHash160_Finalize; destruct (finalize_ref V_SHA256 msg h Hh Hs) as [E Hf].
  change CSHA256 with (md_fun V_SHA256); destruct (Finalize h) as [buf sha]; cbn [fst snd] in *; subst buf.
  change CRIPEMD160 with (md_fun V_RIPEMD160); apply finalize_ref; [|by apply ref_short].
  apply (Write_holds (M := md_fun V_RIPEMD160) []); [by apply new_holds|by apply short_fits, ref_short].
Qed.

(** An object after some writes. *)
Lemma writes_hold v buf pieces : length buf = md_bytes_of v -> short (concat pieces) ->
  holds (M := md_fun v) (concat pieces) (fold_left (Write (M := md_fun v)) pieces (new_hasher (M := md_fun v) buf)).
Proof.
  intros Hb Hs; apply (Writes_hold (M := md_fun v) []); [apply new_holds; by rewrite md_block_eq|by apply short_piece].
Qed.

(** ** Theorems *)

(** C36 (refinement): the four hasher classes.  Any sequence of calls of
    [Write] followed by [Finalize] gives the digest of SHA-1, RIPEMD-160,
    SHA-256 or SHA-512, whatever was in the buffer of the object before, and
    after [Reset] the object hashes a new message. *)
Theorem hasher_digest v buf pieces pieces' :
  length buf = md_bytes_of v -> short (concat pieces) -> short (concat pieces') ->
  let '(digest, h) := Finalize (M := md_fun v) (fold_left (Write (M := md_fun v)) pieces (new_hasher (M := md_fun v) buf)) in
  digest = md_ref v (concat pieces) /\
  (Finalize (M := md_fun v) (fold_left (Write (M := md_fun v)) pieces' (md_Reset (M := md_fun v) h))).1 = md_ref v (concat pieces').
Proof.
  intros Hb Hs Hs'; destruct (finalize_ref v _ _ (writes_hold v buf pieces Hb Hs) Hs) as [E Hf].
  destruct (Finalize _) as [digest h]; cbn [fst snd] in *; split; [done|].
  apply (finalize_ref v); [|done]; apply (Writes_hold (M := md_fun v) []); [by apply (Reset_holds (M := md_fun v) _ _ Hf)|by apply short_piece].
Qed.

Lemma hasher_digest_witness :
  let '(digest, h) := Finalize (M := md_fun V_SHA512) (fold_left (Write (M := md_fun V_SHA512)) [[97; 98]; []; replicate 130 99] (new_hasher (M := md_fun V_SHA512) (replicate 128 7))) in
  digest = md_ref V_SHA512 (concat [[97; 98]; []; replicate 130 99]) /\
  (Finalize (M := md_fun V_SHA512) (fold_left (Write (M := md_fun V_SHA512)) [[1]] (md_Reset (M := md_fun V_SHA512) h))).1 = md_ref V_SHA512 (concat [[1]]).
Proof.
  apply (hasher_digest V_SHA512).
  - reflexivity.
  - reflexivity.
  - reflexivity.
Defined.

(** The functions of hash.h.  A hash writer gives the double
    SHA-256 of the bytes written to it and can be used again after [Reset]; the
    templates hash the concatenation of their ranges; [Hash160] is RIPEMD-160 of
    SHA-256, [Hash512] the double SHA-512. *)
Theorem double_hashes_correct ubuf ubuf5 rbuf pieces a b c :
  length ubuf = 64%nat -> length ubuf5 = 128%nat -> length rbuf = 64%nat ->
  short (concat pieces) -> short (a ++ b ++ c) ->
  let ctx := fold_left HashWriter_write pieces (new_hasher (M := CSHA256) ubuf) in
  HashWriter_GetHash ctx = hash256 (concat pieces) /\
  (CHash256_Finalize (CHash256_Write (CHash256_Reset (CHash256_Finalize ctx).2) a)).1 = hash256 a /\
  Hash_1 ubuf a = hash256 a /\ Hash_2 ubuf a b = hash256 (a ++ b) /\ Hash_3 ubuf a b c = hash256 (a ++ b ++ c) /\
  Hash160 ubuf rbuf a = hash160 a /\ Hash512_1 ubuf5 a = hash512 a /\ Hash512_2 ubuf5 a b = hash512 (a ++ b).
Proof.
  intros Hu Hu5 Hr Hs Habc ctx; assert (Ha : short (concat [a]) /\ short (concat [a; b]) /\ short (concat [a; b; c])).
  { unfold short in *; cbn [concat]; rewrite ?app_nil_r, !length_app in *; lia. }
  destruct Ha as (H1 & H2 & H3).
  assert (Hctx : holds (M := CSHA256) (concat pieces) ctx) by (by apply (writes_hold V_SHA256)).
  assert (S1 := CHash256_Finalize_spec _ _ (writes_hold V_SHA256 ubuf [a] Hu H1) H1).
  assert (S2 := CHash256_Finalize_spec _ _ (writes_hold V_SHA256 ubuf [a; b] Hu H2) H2).
  assert (S3 := CHash256_Finalize_spec _ _ (writes_hold V_SHA256 ubuf [a; b; c] Hu H3) H3).
  assert (T1 := CHash160_Finalize_spec rbuf _ _ (writes_hold V_SHA256 ubuf [a] Hu H1) H1 Hr).
  assert (F1 := CHash512_Finalize_spec _ _ (writes_hold V_SHA512 ubuf5 [a] Hu5 H1) H1).
  assert (F2 := CHash512_Finalize_spec _ _ (writes_hold V_SHA512 ubuf5 [a; b] Hu5 H2) H2).
  cbn [concat] in *; rewrite ?app_nil_r in *; split; [by apply CHash256_Finalize_spec|]; split; [|split_and!; [apply S1|apply S2|apply S3|exact T1|apply F1|apply F2]].
  destruct (CHash256_Finalize_spec _ _ Hctx Hs) as [_ Hl].
  apply CHash256_Finalize_spec; [|done]; apply (Write_holds (M := CSHA256) []); [by apply (new_holds (M := CSHA256))|by apply (short_fits V_SHA256)].
Qed.

Lemma double_hashes_correct_witness :
  HashWriter_GetHash (fold_left HashWriter_write [[1; 2]; [3]] (new_hasher (M := CSHA256) (replicate 64 9))) = hash256 (concat [[1; 2]; [3]]).
Proof.
  refine (proj1 (double_hashes_correct (replicate 64 9) (replicate 128 0) (replicate 64 0) [[1; 2]; [3]] [1] [2] [3] _ _ _ _ _)).
  - reflexivity.
  - reflexivity.
  - reflexivity.
  - reflexivity.
  - reflexivity.
Defined.

(** ** Keyed hashes *)

Lemma num_bytes n : word 32 n ->
  [Z.land (Z.shiftr n 24) 0xFF; Z.land (Z.shiftr n 16) 0xFF; Z.land (Z.shiftr n 8) 0xFF; Z.land (Z.shiftr n 0) 0xFF] = be_bytes 4 n.
Proof. intros Hn; unfold be_bytes; cbn [le_bytes]; rewrite !Z.shiftr_shiftr by lia; rewrite Z.shiftr_0_r; reflexivity. Qed.

(** CHMAC_SHA256 and CHMAC_SHA512 compute HMAC of RFC 2104
    over SHA-256 and SHA-512 for keys of any length and any sequence of writes,
    and [BIP32Hash] is HMAC-SHA-512 of the header byte, the data and the
    big-endian child number under the chain code. *)
Theorem keyed_hashes_correct v rkey buf_o buf_i buf_k key pieces :
  length rkey = sha2_block v -> length buf_o = sha2_block v -> length buf_i = sha2_block v -> length buf_k = sha2_block v ->
  short key -> short (concat pieces ++ replicate 128 0) ->
  hmac_pieces (M := sha2_fun v) (sha2_out v) rkey buf_o buf_i buf_k key pieces =
    hmac_of (Fips180.hash (sha2_params v)) (sha2_block v) key (concat pieces) /\
  (v = SHA512 -> forall nChild header data, word 32 nChild -> length data = 32%nat -> length key = 32%nat ->
    BIP32Hash rkey buf_o buf_i buf_k key nChild header data =
    hmac_of (md_ref V_SHA512) 128 key (header :: data ++ be_bytes 4 nChild)).
Proof.
  intros Hr Ho Hi Hk Hkey Hp; unfold short in *; rewrite length_app, length_replicate in Hp; split; [by apply hmac_sha2|].
  intros -> nChild header data Hn Hd Hl; unfold BIP32Hash; rewrite num_bytes by done.
  assert (E := hmac_sha2 SHA512 rkey buf_o buf_i buf_k key [[header]; data; be_bytes 4 nChild] Hr Ho Hi Hk ltac:(lia)).
  cbn [concat] in E; rewrite app_nil_r in E; apply E; rewrite !length_app, length_be_bytes, Hd; cbn; lia.
Qed.

Lemma keyed_hashes_correct_witness :
  hmac_pieces (M := sha2_fun SHA256) 32 (replicate 64 1) (replicate 64 2) (replicate 64 3) (replicate 64 4) (replicate 65 5) [[97]; [98]] =
  hmac_of (Fips180.hash (sha2_params SHA256)) 64 (replicate 65 5) (concat [[97]; [98]]).
Proof. refine (proj1 (keyed_hashes_correct SHA256 _ _ _ _ _ _ _ _ _ _ _ _)); reflexivity. Defined.

(** ** Hashing while reading *)

Lemma HashVerifier_ignore_reads fuel n ctx msg e : (n <= fuel)%nat -> length e = n -> Z.of_nat n < 2 ^ 31 ->
  holds (M := CSHA256) msg ctx ->
  exists ctx', reads (HashVerifier_ignore_loop fuel n ctx) e ctx' /\ holds (M := CSHA256) (msg ++ e) ctx'.
Proof.
  revert n ctx msg e; induction fuel as [|fuel IH]; intros n ctx msg e Hf Hl Hn Hh; cbn [HashVerifier_ignore_loop].
  - destruct e; cbn [length] in Hl; [|lia]; exists ctx; split; [apply reads_ret|by rewrite app_nil_r].
  - destruct (Nat.ltb_spec 0 n) as [Hp|Hz].
    + set (k := Nat.min n 1024); assert (Hk : length (take k e) = k) by (rewrite length_take; lia).
      assert (Hw : holds (M := CSHA256) (msg ++ take k e) (HashWriter_write ctx (take k e))).
      { apply (Write_holds (M := CSHA256)); [done|]; apply (short_fits V_SHA256); unfold short; rewrite Hk; lia. }
      destruct (IH (n - k)%nat _ (msg ++ take k e) (drop k e) ltac:(lia) ltac:(rewrite length_drop; lia) ltac:(lia) Hw) as (ctx' & Hr & Hh').
      exists ctx'; rewrite <- app_assoc, take_drop in Hh'; split; [|done].
      rewrite <- (take_drop k e) at 1; apply (reads_bind _ _ _ _ (take k e, HashWriter_write ctx (take k e))); [|exact Hr].
      apply (reads_bind_ret (read k) (fun pch => (pch, HashWriter_write ctx pch))), reads_read; [done|lia].
    + destruct e; cbn [length] in Hl; [|lia]; exists ctx; split; [apply reads_ret|by rewrite app_nil_r].
Qed.

(** A verifier that reads some bytes and skips others has the hash of all of
    them: reading through CHashVerifier hashes the bytes taken from the stream. *)
Theorem HashVerifier_correct ubuf e1 e2 :
  length ubuf = 64%nat -> Z.of_nat (length (e1 ++ e2)) < 2 ^ 31 ->
  exists ctx, reads (r <-- HashVerifier_read (length e1) (new_hasher (M := CSHA256) ubuf) ;; HashVerifier_ignore (length e2) r.2) (e1 ++ e2) ctx /\
    HashWriter_GetHash ctx = hash256 (e1 ++ e2).
Proof.
  intros Hu Hl; rewrite length_app in Hl.
  assert (Hw : holds (M := CSHA256) e1 (HashWriter_write (new_hasher (M := CSHA256) ubuf) e1)).
  { apply (Write_holds (M := CSHA256) []); [by apply (new_holds (M := CSHA256))|]; apply (short_fits V_SHA256); unfold short; lia. }
  destruct (HashVerifier_ignore_reads (length e2) (length e2) _ e1 e2 ltac:(lia) eq_refl ltac:(lia) Hw) as (ctx & Hr & Hh).
  exists ctx; split.
  - apply (reads_bind _ _ _ _ (e1, HashWriter_write (new_hasher (M := CSHA256) ubuf) e1)); [|exact Hr].
    apply (reads_bind_ret (read (length e1)) (fun pch => (pch, HashWriter_write (new_hasher (M := CSHA256) ubuf) pch))), reads_read; [done|lia].
  - apply CHash256_Finalize_spec; [done|unfold short; rewrite length_app; lia].
Qed.

(** ** Sizes of digests *)

Lemma sha256_bytes h : length (Finalize (M := CSHA256) h).1 = 32%nat /\ words 8 (Finalize (M := CSHA256) h).1.
Proof.
  unfold Finalize; cbn [fst]; generalize (md_s (Write (M := CSHA256) (Write (M := CSHA256) h (take (Z.to_nat (1 + (pad_base (MdFun := CSHA256) - h.(md_bytes) mod Z.of_nat (md_block (MdFun := CSHA256))) mod Z.of_nat (md_block (MdFun := CSHA256)))) (pad_array (M := CSHA256)))) (sizedesc (MdFun := CSHA256) h.(md_bytes)))).
  intros s; cbn [md_digest CSHA256]; split; [apply (Sha2Proofs.digest_length 4)|].
  apply Forall_concat, Forall_map, List.Forall_forall; intros; apply be_bytes_words.
Qed.

Lemma Hash_1_bytes ubuf p : length (Hash_1 ubuf p) = 32%nat /\ words 8 (Hash_1 ubuf p).
Proof. unfold Hash_1, CHash256_Finalize; destruct (Finalize _) as [buf sha]; apply sha256_bytes. Qed.

Lemma Hash_2_bytes ubuf p q : length (Hash_2 ubuf p q) = 32%nat /\ words 8 (Hash_2 ubuf p q).
Proof. unfold Hash_2, CHash256_Finalize; destruct (Finalize _) as [buf sha]; apply sha256_bytes. Qed.
