(* ===== verification/Scrypt.v ===== *)
(** crypto/scrypt.h and crypto/scrypt.cpp: PBKDF2 over HMAC-SHA-256, and scrypt with one
    block, the hash of the first header.

    SHA256_Init, SHA256_Update and SHA256_Final are functions of OpenSSL; they are the
    operations of the class [OpensslSha256].  [None] is undefined behaviour of C++: an
    overflow of an [int], or a null pointer.  Arrays that nothing has set are arguments. *)

From S2P Require Import Prelude.

(** ** OpenSSL *)

Class OpensslSha256 := {
  SHA256_CTX : Type;
  SHA256_Init : SHA256_CTX;
  SHA256_Update : SHA256_CTX -> list Z -> SHA256_CTX;
  SHA256_Final : SHA256_CTX -> list Z
}.

Section Scrypt.
Context {O : OpensslSha256}.

(** ** HMAC *)

Record HMAC_SHA256Context := HmacCtx { ictx : SHA256_CTX; octx : SHA256_CTX }.

(** [memset(pad, b, 64); for (i = 0; i < Klen; i++) pad[i] ^= K[i];] *)
Definition hmac_pad (b : Z) (K : list Z) : list Z :=
  for_range 0 (length K) (fun i pad => <[i := Z.lxor (pad !!! i) (K !!! i)]> pad) (replicate 64 b).

Definition HMAC_SHA256_Init (K : list Z) : HMAC_SHA256Context :=
  let K := if (64 <? length K)%nat then SHA256_Final (SHA256_Update SHA256_Init K) else K in
  HmacCtx (SHA256_Update SHA256_Init (hmac_pad 0x36 K)) (SHA256_Update SHA256_Init (hmac_pad 0x5c K)).

Definition HMAC_SHA256_Update (ctx : HMAC_SHA256Context) (input : list Z) : HMAC_SHA256Context :=
  HmacCtx (SHA256_Update ctx.(ictx) input) ctx.(octx).

Definition HMAC_SHA256_Final (ctx : HMAC_SHA256Context) : list Z :=
  let ihash := SHA256_Final ctx.(ictx) in
  SHA256_Final (SHA256_Update ctx.(octx) ihash).

(** ** PBKDF2 *)

Definition scrypt_be32enc (x : Z) : list Z :=
  [Z.land (Z.shiftr x 24) 0xff; Z.land (Z.shiftr x 16) 0xff; Z.land (Z.shiftr x 8) 0xff; Z.land x 0xff].

(** A turn of [for (j = 2; j <= c; j++)] on [U] and [T] *)
Definition pbkdf2_round (passwd : list Z) (UT : list Z * list Z) : list Z * list Z :=
  let '(U, T) := UT in
  let U := HMAC_SHA256_Final (HMAC_SHA256_Update (HMAC_SHA256_Init passwd) U) in
  (U, for_range 0 32 (fun k T => <[k := Z.lxor (T !!! k) (U !!! k)]> T) T).

Definition pbkdf2_block (passwd : list Z) (PShctx : HMAC_SHA256Context) (c : Z) (i : nat) : list Z :=
  let ivec := scrypt_be32enc (u32 (Z.of_nat i + 1)) in
  let U := HMAC_SHA256_Final (HMAC_SHA256_Update PShctx ivec) in
  (Nat.iter (Z.to_nat (c - 1)) (pbkdf2_round passwd) (U, U)).2.

(** [for (i = 0; i * 32 < dkLen; i++)] has [(dkLen + 31) / 32] turns. *)
Definition PBKDF2_SHA256 (passwd salt : list Z) (c : Z) (buf : list Z) (dkLen : nat) : list Z :=
  let PShctx := HMAC_SHA256_Update (HMAC_SHA256_Init passwd) salt in
  for_range 0 ((dkLen + 31) / 32) (fun i buf =>
    let T := pbkdf2_block passwd PShctx c i in
    let clen := Nat.min 32 (dkLen - i * 32) in
    write_at (i * 32) (take clen T) buf) buf.

(** ** Salsa20 *)

Definition salsa_ROTL (a b : Z) : Z := Z.lor (u32 (Z.shiftl a b)) (Z.shiftr a (32 - b)).

(** [x_d ^= ROTL(x_a + x_b, r);] *)
Record salsa_line := Line { line_d : nat; line_a : nat; line_b : nat; line_r : Z }.

Definition salsa_exec (x : list Z) (s : salsa_line) : list Z :=
  <[s.(line_d) := Z.lxor (x !!! s.(line_d)) (salsa_ROTL (u32 (x !!! s.(line_a) + x !!! s.(line_b))) s.(line_r))]> x.

Definition salsa_columns : list salsa_line :=
  [
   Line 4 0 12 7; Line 9 5 1 7; Line 14 10 6 7; Line 3 15 11 7;
   Line 8 4 0 9; Line 13 9 5 9; Line 2 14 10 9; Line 7 3 15 9;
   Line 12 8 4 13; Line 1 13 9 13; Line 6 2 14 13; Line 11 7 3 13;
   Line 0 12 8 18; Line 5 1 13 18; Line 10 6 2 18; Line 15 11 7 18].

Definition salsa_rows : list salsa_line :=
  [
   Line 1 0 3 7; Line 6 5 4 7; Line 11 10 9 7; Line 12 15 14 7;
   Line 2 1 0 9; Line 7 6 5 9; Line 8 11 10 9; Line 13 12 15 9;
   Line 3 2 1 13; Line 4 7 6 13; Line 9 8 11 13; Line 14 13 12 13;
   Line 0 3 2 18; Line 5 4 7 18; Line 10 9 8 18; Line 15 14 13 18].

(** The new [B] *)
Definition xor_salsa8 (B Bx : list Z) : list Z :=
  let B := zip_with Z.lxor B Bx in
  let x := Nat.iter 4 (fun x => fold_left salsa_exec (salsa_columns ++ salsa_rows) x) B in
  zip_with (fun b x => u32 (b + x)) B x.

(** ** scrypt *)

Definition scrypt_le32dec (p : list Z) : Z :=
  u32 (p !!! 0%nat + Z.shiftl (p !!! 1%nat) 8 + Z.shiftl (p !!! 2%nat) 16 + Z.shiftl (p !!! 3%nat) 24).
Definition scrypt_le32enc (x : Z) : list Z :=
  [Z.land x 0xff; Z.land (Z.shiftr x 8) 0xff; Z.land (Z.shiftr x 16) 0xff; Z.land (Z.shiftr x 24) 0xff].

(** [xor_salsa8(&X[0], &X[16]); xor_salsa8(&X[16], &X[0]);] *)
Definition salsa_pair (X : list Z) : list Z :=
  let X0 := xor_salsa8 (take 16 X) (drop 16 X) in
  X0 ++ xor_salsa8 (drop 16 X) X0.

(** The loops over [i < N]: the first stores the blocks in [V], the second looks them up. *)
Definition fill_V (N : Z) (V X : list Z) : list Z * list Z :=
  for_range 0 (Z.to_nat N) (fun i st => let '(V, X) := st in (write_at (Z.to_nat (u32 (32 * Z.of_nat i))) X V, salsa_pair X)) (V, X).
Definition mix_V (N : Z) (V X : list Z) : list Z :=
  for_range 0 (Z.to_nat N) (fun _ X =>
    let j := Z.to_nat (u32 (32 * Z.land (X !!! 16%nat) (N - 1))) in
    salsa_pair (zip_with Z.lxor X (read_at j 32 V))) X.

(** The arrays [B] and [output], and the words of [scratchpad] *)
Definition scrypt_N_1_1_256_sp_generic (B output : list Z) (input V : list Z) (Nfactor : Z) : option (list Z) :=
  let B := PBKDF2_SHA256 input input 1 B 128 in
  let X := map (fun k => scrypt_le32dec (read_at (4 * k) 4 B)) (seq 0 32) in
  if 31 <=? Nfactor + 1 then None
  else
    let N := Z.shiftl 1 (Nfactor + 1) in
    let '(V, X) := fill_V N V X in
    let X := mix_V N V X in
    let B := concat (map scrypt_le32enc X) in
    Some (PBKDF2_SHA256 input B 1 output 32).

(** [scratchpad] is what malloc returns; a null pointer is not checked.  The size that
    is asked for is computed as an [int]. *)
Definition scrypt_N_1_1_256 (B output : list Z) (scratchpad : option (list Z)) (input : list Z) (Nfactor : Z) : option (list Z) :=
  if 24 <=? Nfactor + 1 then None
  else V ← scratchpad; scrypt_N_1_1_256_sp_generic B output input V Nfactor.

End Scrypt.
