(* ===== verification/ScryptClaims.v ===== *)
(** scrypt against RFC 7914, PBKDF2 against RFC 2898 and Salsa20/8 against its
    specification by quarter rounds. *)

From S2P Require Import Prelude MdHash MdProofs Fips180 Sha2 Sha2Proofs HashClaims Scrypt.

(** ** Reference definitions *)

Module Rfc7914.

Section Pbkdf2.
Variable PRF : list Z -> list Z -> list Z.

(** [U_j] and [T_i] of RFC 2898, section 5.2; [INT (i)] is [be_bytes 4 i]. *)
Fixpoint U (P S : list Z) (i : Z) (j : nat) : list Z :=
  match j with O => PRF P (S ++ be_bytes 4 i) | Datatypes.S j => PRF P (U P S i j) end.
Definition F (P S : list Z) (c : nat) (i : Z) : list Z :=
  fold_left (zip_with Z.lxor) (map (U P S i) (seq 1 (c - 1))) (U P S i 0).
Definition pbkdf2 (P S : list Z) (c l dkLen : nat) : list Z :=
  take dkLen (concat (map (fun i => F P S c (Z.of_nat i)) (seq 1 l))).

End Pbkdf2.

Definition rotl (x n : Z) : Z := Z.lor (wrap 32 (Z.shiftl x n)) (Z.shiftr x (32 - n)).
Definition add (x y : Z) : Z := wrap 32 (x + y).

(** The quarter round of Salsa20 *)
Definition quarterround (y0 y1 y2 y3 : Z) : list Z :=
  let z1 := Z.lxor y1 (rotl (add y0 y3) 7) in
  let z2 := Z.lxor y2 (rotl (add z1 y0) 9) in
  let z3 := Z.lxor y3 (rotl (add z2 z1) 13) in
  let z0 := Z.lxor y0 (rotl (add z3 z2) 18) in
  [z0; z1; z2; z3].

(** Row [i] of the matrix is rotated to begin at its diagonal word. *)
Definition row (i : nat) (x : list Z) : list Z :=
  let at_ j := x !!! (4 * i + (i + j) mod 4)%nat in
  let z := quarterround (at_ 0%nat) (at_ 1%nat) (at_ 2%nat) (at_ 3%nat) in
  map (fun j => z !!! ((4 + j - i) mod 4)%nat) (seq 0 4).
Definition rowround (x : list Z) : list Z := concat (map (fun i => row i x) (seq 0 4)).
Definition transpose (x : list Z) : list Z := map (fun k => x !!! (4 * (k mod 4) + k / 4)%nat) (seq 0 16).
Definition columnround (x : list Z) : list Z := transpose (rowround (transpose x)).
Definition doubleround (x : list Z) : list Z := rowround (columnround x).
Definition salsa20_8 (x : list Z) : list Z := zip_with add x (Nat.iter 4 doubleround x).

Definition block_xor : list Z -> list Z -> list Z := zip_with Z.lxor.

(** scryptBlockMix on the [2 * r] blocks of [B]: the blocks of even index, then the others *)
Definition block_chain (B : list (list Z)) : list (list Z) :=
  (fold_left (fun st b => let X := salsa20_8 (block_xor st.1 b) in (X, st.2 ++ [X])) B (last B [], [])).2.
Definition BlockMix (B : list (list Z)) : list (list Z) :=
  let Y := block_chain B in
  let r := (length B / 2)%nat in
  map (fun i => Y !!! (2 * i)%nat) (seq 0 r) ++ map (fun i => Y !!! (2 * i + 1)%nat) (seq 0 r).

(** The last block as a little-endian integer *)
Definition Integerify (B : list (list Z)) : Z :=
  fold_right (fun w n => w + 2 ^ 32 * n) 0 (last B []).

Definition ROMix (N : nat) (B : list (list Z)) : list (list Z) :=
  let V := map (fun i => Nat.iter i BlockMix B) (seq 0 N) in
  Nat.iter N (fun X => BlockMix (zip_with block_xor X (V !!! Z.to_nat (Integerify X mod Z.of_nat N)))) (Nat.iter N BlockMix B).

(** scrypt with [p = 1]: the words of a block are little-endian. *)
Definition to_words (r : nat) (b : list Z) : list (list Z) :=
  map (fun i => map le_word (chunks 4 16 (read_at (64 * i) 64 b))) (seq 0 (2 * r)).
Definition of_words (B : list (list Z)) : list Z := concat (map (le_bytes 4) (concat B)).

Definition scrypt (PRF : list Z -> list Z -> list Z) (P S : list Z) (N r dkLen : nat) : list Z :=
  let B := pbkdf2 PRF P S 1 (4 * r) (128 * r) in
  pbkdf2 PRF P (of_words (ROMix N (to_words r B))) 1 ((dkLen + 31) / 32) dkLen.

End Rfc7914.

Definition hmac_sha256 : list Z -> list Z -> list Z := hmac_of (Fips180.hash Fips180.sha256) 64.

(** What OpenSSL documents: the digest of the bytes given in one or more calls. *)
Class OpensslLaws (O : OpensslSha256) : Prop := {
  sha256_pieces pieces : short (concat pieces) ->
    SHA256_Final (fold_left SHA256_Update pieces SHA256_Init) = Fips180.hash Fips180.sha256 (concat pieces)
}.

(** ** Salsa20 *)

Lemma salsa_columns_spec x : length x = 16%nat -> fold_left salsa_exec salsa_columns x = Rfc7914.columnround x.
Proof. intros Hx; do 16 (destruct x as [|? x]; [done|]); destruct x; [|done]; by cbv -[Z.lxor Z.lor Z.shiftl Z.shiftr Z.add Z.sub wrap]. Qed.

Lemma salsa_rows_spec x : length x = 16%nat -> fold_left salsa_exec salsa_rows x = Rfc7914.rowround x.
Proof. intros Hx; do 16 (destruct x as [|? x]; [done|]); destruct x; [|done]; by cbv -[Z.lxor Z.lor Z.shiftl Z.shiftr Z.add Z.sub wrap]. Qed.

Lemma length_rowround x : length (Rfc7914.rowround x) = 16%nat.
Proof. reflexivity. Qed.
Lemma length_doubleround x : length (Rfc7914.doubleround x) = 16%nat.
Proof. reflexivity. Qed.
Lemma length_columnround x : length (Rfc7914.columnround x) = 16%nat.
Proof. unfold Rfc7914.columnround, Rfc7914.transpose; by rewrite length_map, length_seq. Qed.

Lemma length_doublerounds n x : length x = 16%nat -> length (Nat.iter n Rfc7914.doubleround x) = 16%nat.
Proof. intros Hx; destruct n; [done|apply length_doubleround]. Qed.

(** OpenSSL's functions as the class CSHA256 has them *)
#[export] Instance csha256_openssl : OpensslSha256 := {|
  SHA256_CTX := hasher; SHA256_Init := new_hasher (M := CSHA256) (replicate 64 0);
  SHA256_Update := Write (M := CSHA256); SHA256_Final := fun h => (Finalize (M := CSHA256) h).1
|}.

#[export] Instance csha256_laws : OpensslLaws csha256_openssl.
Proof.
  split; intros pieces Hs; apply (finalize_ref V_SHA256); [|done]; by apply (writes_hold V_SHA256).
Qed.

(** Test vectors of RFC 7914, section 8 and section 12 *)
Example salsa_vector :
  concat (map (le_bytes 4) (Rfc7914.salsa20_8 (map le_word (chunks 4 16
    (be_bytes 64 0x7e879a214f3ec9867ca940e641718f26baee555b8c61c1b50df846116dcd3b1dee24f319df9b3d8514121e4b5ac5aa3276021d2909c74829edebc68db8b8c25e)))))
  = be_bytes 64 0xa41f859c6608cc993b81cacb020cef05044b2181a2fd337dfd7b1c6396682f29b4393168e3c9e6bcfe6bc5b7a06d96bae424cc102c91745c24ad673dc7618f81.
Proof. vm_compute. reflexivity. Qed.

Example scrypt_vector :
  take 16 (Rfc7914.scrypt (hmac_of (fun m => SHA256_Final (SHA256_Update SHA256_Init m)) 64) [] [] 16 1 64) = be_bytes 16 0x77d6576238657b203b19ca42c18a0497.
Proof. vm_compute. reflexivity. Qed.

Lemma zip_lxor_comm (x y : list Z) : zip_with Z.lxor x y = zip_with Z.lxor y x.
Proof. revert y; induction x as [|a x IH]; intros [|b y]; cbn; [done..|]; by rewrite Z.lxor_comm, IH. Qed.

Lemma length_zip16 (f : Z -> Z -> Z) x y : length x = 16%nat -> length y = 16%nat -> length (zip_with f x y) = 16%nat.
Proof. intros; rewrite length_zip_with; lia. Qed.

#[local] Opaque Rfc7914.columnround Rfc7914.rowround salsa_columns salsa_rows.

Lemma doublerounds_spec n x : length x = 16%nat ->
  Nat.iter n (fold_left salsa_exec (salsa_columns ++ salsa_rows)) x = Nat.iter n Rfc7914.doubleround x.
Proof.
  intros Hx; induction n as [|n IH]; [done|]; rewrite !Nat.iter_succ, IH, fold_left_app.
  rewrite salsa_columns_spec by (by apply length_doublerounds); by rewrite salsa_rows_spec by apply length_columnround.
Qed.

Lemma xor_salsa8_spec B Bx : length B = 16%nat -> length Bx = 16%nat -> xor_salsa8 B Bx = Rfc7914.salsa20_8 (Rfc7914.block_xor B Bx).
Proof.
  intros HB Hx; unfold xor_salsa8, Rfc7914.salsa20_8; by rewrite doublerounds_spec by (by apply length_zip16).
Qed.

Lemma length_salsa x : length x = 16%nat -> length (Rfc7914.salsa20_8 x) = 16%nat.
Proof. intros Hx; apply length_zip16; [done|by apply length_doublerounds]. Qed.

#[local] Opaque Rfc7914.salsa20_8.

(** ** ROMix *)

(** The array [X] holds the two blocks of [B]. *)
Definition in_blocks (X : list Z) (B : list (list Z)) : Prop :=
  exists b0 b1, B = [b0; b1] /\ length b0 = 16%nat /\ length b1 = 16%nat /\ X = b0 ++ b1.

Lemma in_blocks_length X B : in_blocks X B -> length X = 32%nat.
Proof. intros (b0 & b1 & _ & H0 & H1 & ->); rewrite length_app; lia. Qed.

Lemma salsa_pair_spec X B : in_blocks X B -> in_blocks (salsa_pair X) (Rfc7914.BlockMix B).
Proof.
  intros (b0 & b1 & -> & H0 & H1 & ->); unfold salsa_pair.
  rewrite take_app_le, take_ge, drop_app_ge, H0, Nat.sub_diag, drop_0 by lia.
  assert (HX : length (Rfc7914.salsa20_8 (zip_with Z.lxor b0 b1)) = 16%nat) by (by apply length_salsa, length_zip16).
  rewrite (xor_salsa8_spec b0 b1) by done; rewrite xor_salsa8_spec by done.
  eexists _, _; split; [unfold Rfc7914.BlockMix, Rfc7914.block_chain; cbn; reflexivity|].
  unfold Rfc7914.block_xor; rewrite (zip_lxor_comm b1 b0), (zip_lxor_comm b1 (Rfc7914.salsa20_8 _)).
  split_and!; [done|by apply length_salsa, length_zip16|done].
Qed.

Lemma xor_blocks X B Y C : in_blocks X B -> in_blocks Y C -> in_blocks (zip_with Z.lxor X Y) (zip_with Rfc7914.block_xor B C).
Proof.
  intros (b0 & b1 & -> & H0 & H1 & ->) (c0 & c1 & -> & G0 & G1 & ->); eexists _, _; split; [reflexivity|].
  unfold Rfc7914.block_xor; rewrite zip_with_app by congruence; split_and!; [by apply length_zip16..|done].
Qed.

Lemma iter_blocks n X B : in_blocks X B -> in_blocks (Nat.iter n salsa_pair X) (Nat.iter n Rfc7914.BlockMix B).
Proof. intros H; induction n; [done|]; rewrite !Nat.iter_succ; by apply salsa_pair_spec. Qed.

Lemma integerify_spec X B k : in_blocks X B -> 0 <= k <= 32 ->
  Z.land (X !!! 16%nat) (2 ^ k - 1) = Rfc7914.Integerify B mod 2 ^ k.
Proof.
  intros (b0 & b1 & -> & H0 & H1 & ->) Hk; rewrite lookup_total_app_r by lia; rewrite H0, Nat.sub_diag.
  destruct b1 as [|w b1]; [done|]; unfold Rfc7914.Integerify; cbn [last fold_right lookup_total list_lookup_total].
  replace (2 ^ k - 1) with (Z.ones k) by (rewrite Z.ones_equiv; lia); rewrite Z.land_ones by lia.
  replace (2 ^ 32) with (2 ^ (32 - k) * 2 ^ k) by (rewrite <- Z.pow_add_r by lia; f_equal; lia).
  rewrite (Z.mul_comm (2 ^ (32 - k))), <- Z.mul_assoc, (Z.mul_comm (2 ^ k)), Z.mod_add by lia; done.
Qed.

Lemma read_write_same off src dst : (off + length src <= length dst)%nat -> read_at off (length src) (write_at off src dst) = src.
Proof.
  intros Hl; unfold read_at, write_at; rewrite drop_app_ge by (rewrite length_take; lia).
  rewrite length_take, Nat.min_l, Nat.sub_diag, drop_0 by lia; by rewrite take_app_le, take_ge by lia.
Qed.

Lemma read_write_before off off' n src dst : (off' + n <= off <= length dst)%nat -> read_at off' n (write_at off src dst) = read_at off' n dst.
Proof.
  intros Hl; unfold read_at, write_at; rewrite drop_app_le by (rewrite length_take; lia).
  rewrite take_app_le by (rewrite length_drop, length_take; lia).
  rewrite skipn_firstn_comm, take_take; f_equal; lia.
Qed.

(** An index of [V] does not wrap. *)
Lemma small_index i n : (i < n)%nat -> Z.of_nat n <= 2 ^ 27 -> Z.to_nat (u32 (32 * Z.of_nat i)) = (32 * i)%nat.
Proof. intros Hi Hn; rewrite u32_id by (unfold word; lia); lia. Qed.

(** The array [V] after [i] turns of the first loop *)
Definition V_holds (B : list (list Z)) (n i : nat) (st : list Z * list Z) : Prop :=
  length st.1 = n /\ in_blocks st.2 (Nat.iter i Rfc7914.BlockMix B) /\
  forall j, (j < i)%nat -> in_blocks (read_at (32 * j) 32 st.1) (Nat.iter j Rfc7914.BlockMix B).

Lemma fill_V_spec N V X B : (0 < N)%nat -> Z.of_nat N <= 2 ^ 27 -> (32 * N <= length V)%nat -> in_blocks X B ->
  V_holds B (length V) N (fill_V (Z.of_nat N) V X).
Proof.
  intros HN HN' HV HX; unfold fill_V; rewrite Nat2Z.id; apply (for_range_ind (V_holds B (length V))); [lia|split_and!; [done|done|lia]|].
  intros i [V' X'] Hi (HV' & HX' & Hj); cbn [fst snd] in *; pose proof (in_blocks_length _ _ HX') as HL.
  rewrite (small_index i N) by lia; unfold V_holds; cbn [fst snd].
  rewrite Nat.add_1_r, Nat.iter_succ; split_and!; [rewrite length_write_at; lia|by apply salsa_pair_spec|].
  intros j Hji; destruct (decide (j = i)) as [->|]; [by rewrite <- HL, read_write_same by lia|].
  rewrite read_write_before by lia; apply Hj; lia.
Qed.

(** A turn of the second loop *)
Lemma mix_turn k N V X B C n : 0 <= k <= 23 -> Z.of_nat N = 2 ^ k -> V_holds B n N (V, C) -> forall D, in_blocks X D ->
  in_blocks (salsa_pair (zip_with Z.lxor X (read_at (Z.to_nat (u32 (32 * Z.land (X !!! 16%nat) (Z.of_nat N - 1)))) 32 V)))
    (Rfc7914.BlockMix (zip_with Rfc7914.block_xor D (map (fun i => Nat.iter i Rfc7914.BlockMix B) (seq 0 N) !!! Z.to_nat (Rfc7914.Integerify D mod Z.of_nat N)))).
Proof.
  intros Hk HN (_ & _ & Hj) D HX; cbn [fst snd] in *; rewrite HN, (integerify_spec X D k) by (done || lia); rewrite <- HN.
  assert (HNp : 0 < Z.of_nat N <= 2 ^ 27) by (rewrite HN; split; [lia|apply Z.pow_le_mono_r; lia]).
  pose proof (Z.mod_pos_bound (Rfc7914.Integerify D) (Z.of_nat N) ltac:(lia)) as Hm.
  set (j := Z.to_nat (Rfc7914.Integerify D mod Z.of_nat N)).
  replace (Rfc7914.Integerify D mod Z.of_nat N) with (Z.of_nat j) by (unfold j; lia).
  rewrite (small_index j N) by lia; apply salsa_pair_spec, xor_blocks; [done|].
  rewrite list_lookup_total_alt, list_lookup_fmap, lookup_seq_lt by lia; apply Hj; lia.
Qed.

Lemma mix_V_spec k N V X B n : 0 <= k <= 23 -> Z.of_nat N = 2 ^ k -> V_holds B n N (V, X) ->
  in_blocks (mix_V (Z.of_nat N) V X) (Rfc7914.ROMix N B).
Proof.
  intros Hk HN HV; unfold mix_V, Rfc7914.ROMix; rewrite Nat2Z.id.
  set (f := fun X0 => Rfc7914.BlockMix _); set (g := fun (_ : nat) (X0 : list Z) => salsa_pair _).
  apply (for_range_ind (fun i X => in_blocks X (Nat.iter i f (Nat.iter N Rfc7914.BlockMix B)))); [lia|apply HV|].
  intros i X' _ HX'; rewrite Nat.add_1_r, Nat.iter_succ; by apply (mix_turn k N V X' B X n).
Qed.

(** ** PBKDF2 *)

Lemma hmac_pad_spec b K : (length K <= 64)%nat -> hmac_pad b K = map (Z.lxor b) (K ++ replicate (64 - length K) 0).
Proof.
  intros HK; unfold hmac_pad.
  transitivity (map (Z.lxor b) (take (length K) K) ++ replicate (64 - length K) b).
  - apply (for_range_ind (fun i pad => pad = map (Z.lxor b) (take i K) ++ replicate (64 - i) b)); [lia|done|].
    intros i pad Hi ->; assert (HL : length (map (Z.lxor b) (take i K)) = i) by (rewrite length_map, length_take; lia).
    destruct (lookup_lt_is_Some_2 K i ltac:(lia)) as [x Hx].
    rewrite Nat.add_1_r, (take_S_r _ _ _ Hx).
    rewrite map_app, insert_app_r_alt, HL, Nat.sub_diag by lia; rewrite lookup_total_app_r, HL, Nat.sub_diag by lia.
    rewrite (list_lookup_total_correct _ _ _ Hx); replace (64 - i)%nat with (S (64 - S i)) by lia; cbn; by rewrite <- app_assoc.
  - rewrite take_ge, map_app by lia; f_equal; rewrite <- (Z.lxor_0_r b) at 1; generalize (64 - length K)%nat as n; intros n.
    rewrite Z.lxor_0_r; induction n as [|n IH]; cbn; [done|]; by rewrite IH, Z.lxor_0_r.
Qed.

Lemma sha256_words m : words 8 (Fips180.hash Fips180.sha256 m).
Proof. unfold words, Fips180.hash; apply Forall_concat, List.Forall_map, List.Forall_forall; intros; apply be_bytes_words. Qed.

#[local] Opaque Fips180.hash.

Section Laws.
Context {O : OpensslSha256} {L : OpensslLaws O}.

Abbreviation SHA256 := (Fips180.hash Fips180.sha256).

Lemma sha256_size m : short m -> length (SHA256 m) = 32%nat.
Proof. apply (ref_length V_SHA256). Qed.

Lemma hmac_key_size K : short K -> length (hmac_key SHA256 64 K) = 64%nat.
Proof.
  intros HK; unfold hmac_key; rewrite length_app, length_replicate; destruct (Nat.ltb_spec 64 (length K)); [rewrite sha256_size by done|]; lia.
Qed.

Lemma HMAC_Init_spec K : short K -> HMAC_SHA256_Init K =
  HmacCtx (SHA256_Update SHA256_Init (map (Z.lxor 0x36) (hmac_key SHA256 64 K))) (SHA256_Update SHA256_Init (map (Z.lxor 0x5c) (hmac_key SHA256 64 K))).
Proof.
  intros HK; unfold HMAC_SHA256_Init, hmac_key; destruct (Nat.ltb_spec 64 (length K)) as [HK'|HK'].
  - pose proof (sha256_pieces [K]) as E; cbn in E; rewrite app_nil_r in E; rewrite E by done.
    by rewrite !hmac_pad_spec by (rewrite sha256_size by done; lia).
  - by rewrite !hmac_pad_spec by done.
Qed.

Lemma hmac_updates pieces ctx :
  fold_left HMAC_SHA256_Update pieces ctx = HmacCtx (fold_left SHA256_Update pieces ctx.(ictx)) ctx.(octx).
Proof. revert ctx; induction pieces as [|p ps IH]; intros [i o]; [done|]; cbn [fold_left]; by rewrite IH. Qed.

(** Room for the pad and the digest beside the message *)
Definition roomy (m : list Z) : Prop := 8 * (Z.of_nat (length m) + 128) < 2 ^ 64.

Lemma roomy_short m : roomy m -> short m.
Proof. unfold roomy, short; lia. Qed.

Lemma HMAC_spec K pieces : short K -> roomy (concat pieces) ->
  HMAC_SHA256_Final (fold_left HMAC_SHA256_Update pieces (HMAC_SHA256_Init K)) = hmac_sha256 K (concat pieces).
Proof.
  intros HK Hp; rewrite hmac_updates, HMAC_Init_spec by done; unfold HMAC_SHA256_Final; cbn [ictx octx].
  set (k := hmac_key SHA256 64 K); assert (Hk : length k = 64%nat) by (by apply hmac_key_size).
  assert (Hin : short (map (Z.lxor 0x36) k ++ concat pieces)) by (unfold roomy, short in *; rewrite length_app, length_map; lia).
  pose proof (sha256_pieces (map (Z.lxor 0x36) k :: pieces)) as E; cbn [fold_left concat] in E; rewrite E by done.
  pose proof (sha256_pieces [map (Z.lxor 0x5c) k; SHA256 (map (Z.lxor 0x36) k ++ concat pieces)]) as E'.
  cbn [fold_left concat] in E'; rewrite app_nil_r in E'; rewrite E'; [done|].
  unfold short; rewrite length_app, length_map, sha256_size, Hk by done; lia.
Qed.

Lemma hmac_size K m : short K -> roomy m -> length (hmac_sha256 K m) = 32%nat.
Proof.
  intros HK Hm; apply sha256_size; unfold roomy, short in *; rewrite length_app, length_map, hmac_key_size by done.
  rewrite sha256_size; [lia|]; unfold short; rewrite length_app, length_map, hmac_key_size by done; lia.
Qed.

Lemma be32enc_spec x : scrypt_be32enc (u32 x) = be_bytes 4 x.
Proof.
  rewrite <- (be_bytes_wrap 4 x); change (wrap (8 * Z.of_nat 4) x) with (u32 x); generalize (u32 x) as y; intros y.
  unfold scrypt_be32enc, be_bytes; cbn [le_bytes]; change 0xff with 255; by rewrite !land_255_u8, !Z.shiftr_shiftr by lia.
Qed.

Lemma xor_loop T U : length T = 32%nat -> length U = 32%nat ->
  for_range 0 32 (fun k T => <[k := Z.lxor (T !!! k) (U !!! k)]> T) T = zip_with Z.lxor T U.
Proof.
  intros HT HU; transitivity (zip_with Z.lxor (take 32 T) (take 32 U) ++ drop 32 T); [|by rewrite !take_ge, drop_ge, app_nil_r by lia].
  apply (for_range_ind (fun i T' => T' = zip_with Z.lxor (take i T) (take i U) ++ drop i T)); [lia|done|].
  intros i T' Hi ->; assert (HL : length (zip_with Z.lxor (take i T) (take i U)) = i) by (rewrite length_zip_with, !length_take; lia).
  destruct (lookup_lt_is_Some_2 T i ltac:(lia)) as [x Hx], (lookup_lt_is_Some_2 U i ltac:(lia)) as [y Hy].
  rewrite Nat.add_1_r, (take_S_r _ _ _ Hx), (take_S_r _ _ _ Hy), zip_with_app by (rewrite !length_take; lia).
  rewrite insert_app_r_alt, HL, Nat.sub_diag by lia; rewrite lookup_total_app_r, HL, Nat.sub_diag by lia.
  rewrite (drop_S _ _ _ Hx), (list_lookup_total_correct _ _ _ Hy); cbn; by rewrite <- app_assoc.
Qed.

Abbreviation U := (Rfc7914.U hmac_sha256).

Lemma U_size P S i j : short P -> roomy (S ++ be_bytes 4 i) -> length (U P S i j) = 32%nat.
Proof.
  intros HP HS; induction j as [|j IH]; cbn [Rfc7914.U]; apply hmac_size; [done..|]; unfold roomy; rewrite IH; lia.
Qed.

Lemma F_size P S c i : short P -> roomy (S ++ be_bytes 4 i) -> length (Rfc7914.F hmac_sha256 P S c i) = 32%nat.
Proof.
  intros HP HS; unfold Rfc7914.F; generalize (seq 1 (c - 1)) as js; intros js; pose proof (U_size P S i 0 HP HS) as H0.
  revert H0; generalize (U P S i 0) as T; induction js as [|j js IH]; intros T HT; [done|]; apply IH.
  rewrite length_zip_with, U_size by done; lia.
Qed.

Lemma pbkdf2_rounds P S i n : short P -> roomy (S ++ be_bytes 4 i) ->
  Nat.iter n (pbkdf2_round P) (U P S i 0, U P S i 0) = (U P S i n, fold_left (zip_with Z.lxor) (map (U P S i) (seq 1 n)) (U P S i 0)).
Proof.
  intros HP HS; induction n as [|n IH]; [done|]; rewrite Nat.iter_succ, IH; unfold pbkdf2_round.
  pose proof (HMAC_spec P [U P S i n] HP) as E; cbn [fold_left concat] in E; rewrite app_nil_r in E.
  rewrite E by (unfold roomy; rewrite U_size by done; lia); change (hmac_sha256 P (U P S i n)) with (U P S i (Datatypes.S n)).
  pose proof (F_size P S (Datatypes.S n) i HP HS) as HF; unfold Rfc7914.F in HF; rewrite Nat.sub_succ, Nat.sub_0_r in HF.
  by rewrite xor_loop, seq_S, map_app, fold_left_app by (by (done || apply U_size)).
Qed.

Lemma pbkdf2_block_spec P S c i : short P -> roomy (S ++ [0; 0; 0; 0]) ->
  pbkdf2_block P (HMAC_SHA256_Update (HMAC_SHA256_Init P) S) c i = Rfc7914.F hmac_sha256 P S (Z.to_nat c) (Z.of_nat (i + 1)).
Proof.
  intros HP HS; unfold pbkdf2_block; rewrite be32enc_spec.
  assert (HS' : forall j, roomy (S ++ be_bytes 4 j)) by (intros j; unfold roomy in *; rewrite length_app, length_be_bytes in *; exact HS).
  pose proof (HMAC_spec P [S; be_bytes 4 (Z.of_nat i + 1)] HP) as E; cbn [fold_left concat] in E; rewrite app_nil_r in E; rewrite E by done.
  change (hmac_sha256 P (S ++ be_bytes 4 (Z.of_nat i + 1))) with (U P S (Z.of_nat i + 1) 0); rewrite pbkdf2_rounds by done; cbn [snd].
  unfold Rfc7914.F; replace (Z.of_nat (i + 1)) with (Z.of_nat i + 1) by lia; do 3 f_equal; lia.
Qed.

Lemma PBKDF2_spec P S c buf dkLen : short P -> roomy (S ++ [0; 0; 0; 0]) -> length buf = dkLen ->
  PBKDF2_SHA256 P S c buf dkLen = Rfc7914.pbkdf2 hmac_sha256 P S (Z.to_nat c) ((dkLen + 31) / 32) dkLen.
Proof.
  intros HP HS Hb; unfold PBKDF2_SHA256, Rfc7914.pbkdf2; set (T := fun i => Rfc7914.F hmac_sha256 P S (Z.to_nat c) (Z.of_nat i)).
  assert (HT : forall i, length (T i) = 32%nat) by (intros i; apply F_size; [done|]; unfold roomy in *; rewrite length_app, length_be_bytes in *; exact HS).
  assert (HC : forall i, length (concat (map T (seq 1 i))) = (32 * i)%nat).
  { intros i; rewrite (length_concat_uniform 32), length_map, length_seq; [lia|]; apply List.Forall_map, List.Forall_forall; auto. }
  pose proof (Nat.div_mod_eq (dkLen + 31) 32) as HD; pose proof (Nat.mod_upper_bound (dkLen + 31) 32 ltac:(lia)) as HM.
  set (l := ((dkLen + 31) / 32)%nat) in *.
  transitivity (take (Nat.min (32 * l) dkLen) (concat (map T (seq 1 l))) ++ drop (Nat.min (32 * l) dkLen) buf);
    [|by rewrite Nat.min_r, drop_ge, app_nil_r by lia].
  apply (for_range_ind (fun i b => b = take (Nat.min (32 * i) dkLen) (concat (map T (seq 1 i))) ++ drop (Nat.min (32 * i) dkLen) buf)); [lia|done|].
  intros i b Hi ->; rewrite pbkdf2_block_spec, (Nat.min_l (32 * i) dkLen) by (done || lia); fold (T (i + 1)%nat).
  rewrite (take_ge (concat _)) by (rewrite HC; lia); rewrite write_at_app by (rewrite HC; lia); rewrite length_take, HT, drop_drop.
  rewrite seq_app, map_app, concat_app; cbn [seq map concat]; rewrite app_nil_r, (Nat.add_comm 1 i).
  rewrite firstn_app, HC, (take_ge (concat _)), <- app_assoc by (rewrite HC; lia).
  f_equal; f_equal; f_equal; lia.
Qed.

End Laws.

(** ** The words of the blocks *)

Lemma le32dec_spec p : length p = 4%nat -> words 8 p -> scrypt_le32dec p = le_word p.
Proof.
  intros Hl Hp; do 4 (destruct p as [|? p]; [done|]); destruct p; [|done]; pose proof (le_word_word _ Hp) as Hw.
  assert (Hp4 : word 8 z /\ word 8 z0 /\ word 8 z1 /\ word 8 z2) by (unfold words in Hp; by decompose_Forall_hyps); destruct_and! Hp4.
  rewrite <- (u32_id (le_word _)) by exact Hw; unfold scrypt_le32dec; f_equal; cbn [lookup_total list_lookup_total].
  rewrite !le_word_cons by done; cbn [le_word]; rewrite !Z.shiftl_mul_pow2 by lia; lia.
Qed.

Lemma read_at_read_at a b n m l : (b + m <= n)%nat -> read_at b m (read_at a n l) = read_at (a + b) m l.
Proof. intros; unfold read_at; rewrite skipn_firstn_comm, drop_drop, take_take; f_equal; lia. Qed.

(** The words that scrypt takes from the first call of PBKDF2 *)
Lemma to_words_spec B : length B = 128%nat -> words 8 B ->
  in_blocks (map (fun k => scrypt_le32dec (read_at (4 * k) 4 B)) (seq 0 32)) (Rfc7914.to_words 1 B).
Proof.
  intros HB HW; eexists _, _; split; [reflexivity|]; unfold chunks; split_and!; [by rewrite !length_map, length_seq..|].
  change (seq 0 32) with (seq 0 16 ++ map (Nat.add 16) (seq 0 16)); rewrite map_app, !map_map.
  f_equal; apply map_ext_in; intros k Hk; apply in_seq in Hk; rewrite read_at_read_at by lia;
    rewrite le32dec_spec by first [by apply length_read_at; lia | by apply Forall_take, Forall_drop]; do 2 f_equal; lia.
Qed.

Lemma of_words_spec X B : in_blocks X B -> concat (map scrypt_le32enc X) = Rfc7914.of_words B.
Proof.
  intros (b0 & b1 & -> & _ & _ & ->); unfold Rfc7914.of_words; cbn [concat]; rewrite app_nil_r; reflexivity.
Qed.

(** ** scrypt *)

Lemma pbkdf2_once_words P S l n : words 8 (Rfc7914.pbkdf2 hmac_sha256 P S 1 l n).
Proof. unfold words, Rfc7914.pbkdf2; apply Forall_take, Forall_concat, List.Forall_map, List.Forall_forall; intros; apply sha256_words. Qed.

Lemma pbkdf2_size {O : OpensslSha256} P S c buf n : length buf = n ->
  length (PBKDF2_SHA256 P S c buf n) = n.
Proof.
  intros <-; unfold PBKDF2_SHA256.
  apply (for_range_ind (fun _ b => length b = length buf)); [lia|done|]; intros i b Hi Hb; rewrite length_write_at; [done|].
  assert (32 * i < length buf)%nat by (pose proof (Nat.div_mod_eq (length buf + 31) 32); lia).
  rewrite length_take; lia.
Qed.

Lemma length_of_words X B : in_blocks X B -> length (Rfc7914.of_words B) = 128%nat.
Proof.
  intros HX; rewrite <- (of_words_spec X B HX), (length_concat_uniform 4), length_map, (in_blocks_length _ _ HX); [done|].
  apply List.Forall_map, List.Forall_forall; done.
Qed.

Section Generic.
Context {O : OpensslSha256} {L : OpensslLaws O}.

Lemma scrypt_spec B output V input Nfactor :
  length B = 128%nat -> length output = 32%nat -> length input = 80%nat -> 0 <= Nfactor <= 22 ->
  32 * 2 ^ (Nfactor + 1) <= Z.of_nat (length V) ->
  scrypt_N_1_1_256 B output (Some V) input Nfactor = Some (Rfc7914.scrypt hmac_sha256 input input (Z.to_nat (2 ^ (Nfactor + 1))) 1 32).
Proof.
  intros HB Ho Hi HN HV; unfold scrypt_N_1_1_256, scrypt_N_1_1_256_sp_generic.
  rewrite (proj2 (Z.leb_gt 24 (Nfactor + 1))), (proj2 (Z.leb_gt 31 (Nfactor + 1))) by lia; cbn [mbind option_bind]; rewrite Z.shiftl_1_l.
  assert (Hp : 0 < 2 ^ (Nfactor + 1) <= 2 ^ 27) by (split; [apply Z.pow_pos_nonneg; lia|apply Z.pow_le_mono_r; lia]).
  set (N := Z.to_nat (2 ^ (Nfactor + 1))); assert (EN : Z.of_nat N = 2 ^ (Nfactor + 1)) by (unfold N; lia); rewrite <- EN.
  assert (HP : short input) by (unfold short; rewrite Hi; lia).
  assert (HS : roomy (input ++ [0; 0; 0; 0])) by (unfold roomy; rewrite length_app, Hi; cbn; lia).
  assert (HX := to_words_spec (PBKDF2_SHA256 input input 1 B 128)).
  rewrite pbkdf2_size in HX by done; rewrite PBKDF2_spec in HX by done; specialize (HX eq_refl (pbkdf2_once_words _ _ _ _)).
  rewrite (PBKDF2_spec input input 1 B) by done; change (Z.to_nat 1) with 1%nat in *; set (B1 := Rfc7914.pbkdf2 _ input input 1 _ 128) in *.
  set (X := map _ (seq 0 32)) in *; assert (HF := fill_V_spec N V X (Rfc7914.to_words 1 B1) ltac:(lia) ltac:(lia) ltac:(lia) HX).
  destruct (fill_V (Z.of_nat N) V X) as [V' X']; assert (HM := mix_V_spec (Nfactor + 1) N V' X' _ _ ltac:(lia) EN HF).
  rewrite (of_words_spec _ _ HM), PBKDF2_spec; [done|done| |done].
  unfold roomy; rewrite length_app, (length_of_words _ _ HM); cbn; lia.
Qed.

End Generic.

(** C34 (refinement): scrypt.  For a header of 80 bytes [scrypt_N_1_1_256]
    computes scrypt of RFC 7914 with the header as password and salt, cost
    [2 ^ (Nfactor + 1)], one block and no parallelism, 32 bytes long, whatever the
    arrays hold at first, for every [Nfactor] up to 22; above, the size of the
    memory overflows an [int].  SHA-256 is OpenSSL's. *)
Theorem scrypt_correct {O : OpensslSha256} {L : OpensslLaws O} B output V input Nfactor :
  length B = 128%nat -> length output = 32%nat -> length input = 80%nat -> 0 <= Nfactor ->
  32 * 2 ^ (Nfactor + 1) <= Z.of_nat (length V) ->
  scrypt_N_1_1_256 B output (Some V) input Nfactor =
    if Nfactor <=? 22 then Some (Rfc7914.scrypt hmac_sha256 input input (Z.to_nat (2 ^ (Nfactor + 1))) 1 32) else None.
Proof.
  intros HB Ho Hi HN HV; destruct (Z.leb_spec Nfactor 22); [by apply scrypt_spec; [..|lia|]|].
  unfold scrypt_N_1_1_256; by rewrite (proj2 (Z.leb_le 24 (Nfactor + 1))) by lia.
Qed.

Lemma scrypt_correct_witness :
  scrypt_N_1_1_256 (replicate 128 7) (replicate 32 9) (Some (replicate 1024 1)) (replicate 80 3) 4 =
    Some (Rfc7914.scrypt hmac_sha256 (replicate 80 3) (replicate 80 3) 32 1 32).
Proof. apply (scrypt_correct (replicate 128 7) (replicate 32 9) (replicate 1024 1) (replicate 80 3) 4); vm_compute; congruence. Defined.
