(* ===== verification/Pow.v ===== *)
(** Proof-of-work checks and the targets they use: pow.cpp, with the hash of a
    header (primitives/block.cpp) and the loop of rpc/mining.cpp that solves a
    header.

    [precomputed] is the table of primitives/precomputed_hash.h, which is not modelled.
    [ubuf], [scrypt_B] and [scratchpad] are memory that nothing has set: the array of
    the hasher, an array of scrypt and what its malloc returns. *)

From S2P Require Import Prelude MdHash Sha2 Hash Scrypt Blake2b SphBlake Argon2 Sponge Lyra2 MerkleTree Arith256 Uint256 Serialize Mtp Block.

(** The consensus parameters used here. *)
Record Consensus := ConsensusParams {
  powLimit : list Z; fPowNoRetargeting : bool; nPowTargetTimespan : Z; nMTPSwitchTime : Z;
  nChainStartTime : Z; nMinNFactor : Z; nMaxNFactor : Z; IsMain : bool
}.

(** ** Targets *)

Definition CheckProofOfWork (hash : list Z) (nBits : Z) (params : Consensus) : bool :=
  let c := SetCompact nBits in
  let bnTarget := c.(c_target) in
  if c.(c_negative) || EqualTo WIDTH256 bnTarget 0 || c.(c_overflow) || greater WIDTH256 bnTarget (UintToArith256 params.(powLimit)) then false
  else if greater WIDTH256 (UintToArith256 hash) bnTarget then false
  else true.

(** [nBitsLast] and [nTimeLast] are the fields of the last block; the product
    with an [int64_t] is the one with a [uint32_t].  [None]: an overflow of [int64_t], division
    by zero, or an assertion of [GetCompact]. *)
Definition CalculateNextWorkRequired (nBitsLast nTimeLast nFirstBlockTime : Z) (params : Consensus) : option Z :=
  if params.(fPowNoRetargeting) then Some nBitsLast
  else
    let nActualTimespan := nTimeLast - nFirstBlockTime in
    if (nActualTimespan <? - 2 ^ 63) || (2 ^ 63 <=? nActualTimespan) || (2 ^ 63 <=? params.(nPowTargetTimespan) * 4) then None else
    let nActualTimespan := if nActualTimespan <? Z.quot params.(nPowTargetTimespan) 4 then Z.quot params.(nPowTargetTimespan) 4 else nActualTimespan in
    let nActualTimespan := if params.(nPowTargetTimespan) * 4 <? nActualTimespan then params.(nPowTargetTimespan) * 4 else nActualTimespan in
    let bnPowLimit := UintToArith256 params.(powLimit) in
    let bnNew := c_target (SetCompact nBitsLast) in
    let bnNew := multiply32 WIDTH256 bnNew (u32 nActualTimespan) in
    bnNew ← divide WIDTH256 bnNew (of_uint64 WIDTH256 (u64 params.(nPowTargetTimespan)));
    let bnNew := if greater WIDTH256 bnNew bnPowLimit then bnPowLimit else bnNew in
    GetCompact bnNew false.

(** ** The hash of a header *)

(** [while ((s >> 1) > 3)]: a shift for each bit of [s] but three. *)
Fixpoint nfactor_loop (fuel : nat) (l s : Z) : Z * Z :=
  match fuel with
  | O => (l, s)
  | S fuel => if 3 <? Z.shiftr s 1 then nfactor_loop fuel (l + 1) (Z.shiftr s 1) else (l, s)
  end.

Definition GetNfactor (nTimestamp : Z) (params : Consensus) : Z :=
  if nTimestamp <=? params.(nChainStartTime) then params.(nMinNFactor)
  else
    let '(l, s) := nfactor_loop 64 0 (nTimestamp - params.(nChainStartTime)) in
    let s := Z.land s 3 in
    let n := Z.quot (l * 158 + s * 28 - 2670) 100 in
    let n := if n <? 0 then 0 else n in
    let N := u8 n in
    Z.min (Z.max N params.(nMinNFactor)) params.(nMaxNFactor).

Section Pow.
Context (P : params) (params : Consensus) (boost_uint256 : list Z -> Z).
Context {ssl : OpensslSha256} (ubuf scrypt_B : list Z) (scratchpad : option (list Z)) (precomputed : Z -> list Z).

Abbreviation switch := params.(nMTPSwitchTime).

(** [SerializeHash]: what is written to a stream of type [SER_GETHASH] goes to a
    CHashWriter. *)
Definition GetHash (h : CBlockHeader) : option (list Z) :=
  s ← Serialize_header switch SER_GETHASH (DataStream [] 0) h;
  Some (HashWriter_GetHash (HashWriter_write (new_hasher (M := CSHA256) ubuf) s.(vch))).

(** The 80 bytes from [nVersion] on. *)
Definition header_memory (h : CBlockHeader) : list Z := (write_fields (DataStream [] 0) h).(vch).

Definition set_cachedPoWHash (h : CBlockHeader) (x : list Z) : CBlockHeader :=
  BlockHeader h.(nVersion) h.(hashPrevBlock) h.(hashMerkleRoot) h.(nTime) h.(nBits) h.(nNonce)
    h.(nVersionMTP) h.(mtpHashValue) h.(reserved0) h.(reserved1) h.(mtpHashData) x.

(** The value returned and the header with its cache; the first arguments are
    those of [lyra2z_hash]. *)
Definition GetPoWHash (ma : mallocs) (ctx : blake_context) (u_buf hashB : list Z) (nHeight : Z) (h : CBlockHeader) : option (list Z * CBlockHeader) :=
  if negb (Uint256.IsNull h.(cachedPoWHash)) then Some (h.(cachedPoWHash), h)
  else
    powHash ←
      (if IsMTP switch h then Some h.(mtpHashValue)
       else if nHeight =? 0 then scrypt_N_1_1_256 scrypt_B uint256_null scratchpad (header_memory h) (GetNfactor h.(nTime) params)
       else if params.(IsMain) then
         if 20500 <=? nHeight then lyra2z_hash ma ctx u_buf hashB (header_memory h)
         else if 0 <? nHeight then Some (precomputed nHeight)
         else Some uint256_null
       else GetHash h);
    Some (powHash, set_cachedPoWHash h powHash).

(** ** The Merkle tree proof *)

Definition CheckMerkleTreeProof (loc : mtp_locals) (block : CBlockHeader) : option bool :=
  if negb (IsMTP switch block) then Some true
  else match block.(mtpHashData) with
  | None => Some false
  | Some _ =>
    '(verified, calculatedMtpHashValue) ← verify_header P boost_uint256 loc block.(nNonce) block params.(powLimit) (Some uint256_null);
    calculatedMtpHashValue ← calculatedMtpHashValue;
    let isVerified := verified && (Uint256.Compare block.(mtpHashValue) calculatedMtpHashValue =? 0) in
    if negb isVerified then Some false else Some true
  end.

(** ** Solving a header: rpc/mining.cpp *)

Definition nInnerLoopCount : Z := 0x10000.

Definition set_mtpHashValue (h : CBlockHeader) (x : list Z) : CBlockHeader :=
  BlockHeader h.(nVersion) h.(hashPrevBlock) h.(hashMerkleRoot) h.(nTime) h.(nBits) h.(nNonce)
    h.(nVersionMTP) x h.(reserved0) h.(reserved1) h.(mtpHashData) h.(cachedPoWHash).
Definition set_nNonce (h : CBlockHeader) (x : Z) : CBlockHeader :=
  BlockHeader h.(nVersion) h.(hashPrevBlock) h.(hashMerkleRoot) h.(nTime) h.(nBits) x
    h.(nVersionMTP) h.(mtpHashValue) h.(reserved0) h.(reserved1) h.(mtpHashData) h.(cachedPoWHash).

(** The loop for a header with the Merkle tree proof; [nMaxTries] counts down. *)
Fixpoint generate_mtp (nMaxTries : nat) (fuel fuel1 : nat) (pfs : nat -> platform) (loc : mtp_locals) (pblock : CBlockHeader) : option (nat * CBlockHeader) :=
  match nMaxTries with
  | O => Some (O, pblock)
  | S tries =>
    if negb (pblock.(nNonce) <? nInnerLoopCount) then Some (nMaxTries, pblock)
    else
      '(y, pblock) ← hash_header P boost_uint256 fuel fuel1 pfs loc pblock params.(powLimit);
      let pblock := set_mtpHashValue pblock y in
      if CheckProofOfWork pblock.(mtpHashValue) pblock.(nBits) params then Some (nMaxTries, pblock)
      else generate_mtp tries fuel fuel1 pfs loc (set_nNonce pblock (u32 (pblock.(nNonce) + 1)))
  end.

End Pow.
