(* ===== verification/PowClaims.v ===== *)
(** The theorems about the checks of the proof of work. *)

From S2P Require Import Prelude BlakeSpec Rfc7693 Blake2b SphBlake Argon2 Argon2Threads Argon2Spec Argon2Block Argon2Fill Argon2Init Argon2Pass0.
From S2P Require Import Argon2Claims Sponge Lyra2 MerkleTree MerkleProofs MerkleClaims Arith256 Arith256Proofs Arith256Compact Arith256Claims Uint256.
From S2P Require Import Serialize SerializeProofs Mtp MtpProofs MtpSearch MtpClaims Block BlockProofs BlockClaims MtpShape MdHash MdProofs Sha2 Hash HashClaims Scrypt ScryptClaims Pow.

(** ** Targets *)

Lemma CheckProofOfWork_misses hash nBits params : CheckProofOfWork hash nBits params = negb (misses_target nBits params.(powLimit) hash).
Proof.
  unfold CheckProofOfWork, misses_target; destruct (_ || _ || _ || _); [done|]; by destruct (greater _ _ _).
Qed.

(** A hash is accepted exactly when the compact target is not
    negative, not zero and not above the limit of the chain, and the hash, as a
    number, is at most the target. *)
Theorem CheckProofOfWork_correct hash nBits params : word 32 nBits -> blob 32 hash -> blob 32 params.(powLimit) ->
  CheckProofOfWork hash nBits params = true <-> sign nBits = false /\ 0 < target_of nBits <= le_word params.(powLimit) /\ le_word hash <= target_of nBits.
Proof. intros Hc Hh Hl; rewrite CheckProofOfWork_misses, negb_true_iff; by apply misses_target_spec. Qed.

Definition demo_consensus : Consensus := ConsensusParams (replicate 31 255 ++ [0]) false 3600 1544443200 1389306217 10 30 true.

Lemma demo_limit : blob 32 demo_consensus.(powLimit).
Proof. split; [done|]; apply Forall_app; split; [apply Forall_replicate; unfold word; lia|]; repeat constructor; unfold word; lia. Qed.

Lemma CheckProofOfWork_correct_witness : CheckProofOfWork (replicate 32 0) 0x1e0ffff0 demo_consensus = true <->
  sign 0x1e0ffff0 = false /\ 0 < target_of 0x1e0ffff0 <= le_word demo_consensus.(powLimit) /\ le_word (replicate 32 0) <= target_of 0x1e0ffff0.
Proof. apply (CheckProofOfWork_correct (replicate 32 0) 0x1e0ffff0 demo_consensus); [unfold word; lia|apply blob_replicate; unfold word; lia|exact demo_limit]. Defined.

(** The time between the two blocks, at least a quarter and at most four times the
    time it should be. *)
Definition clamped (span timespan : Z) : Z := Z.min (Z.max span (timespan / 4)) (timespan * 4).

(** C17 (bounds): where it retargets (a timespan between 1 and 2^30 seconds, block
    times whose difference is an [int64_t]), it never divides by zero and gives the code of
    the old target times the clamped time over the timespan, cut off at the limit;
    the product is taken modulo 2^256.  Read back, the new target is never
    negative, never over the limit, and at most one part in 2^15 below that
    number. *)
Theorem CalculateNextWorkRequired_correct nBits nTime first params : word 32 nBits -> blob 32 params.(powLimit) ->
  params.(fPowNoRetargeting) = false -> 0 < params.(nPowTargetTimespan) < 2 ^ 30 -> - 2 ^ 63 <= nTime - first < 2 ^ 63 ->
  let span := clamped (nTime - first) params.(nPowTargetTimespan) in
  let new := Z.min ((target_of nBits * span) mod 2 ^ 256 / params.(nPowTargetTimespan)) (le_word params.(powLimit)) in
  exists c, CalculateNextWorkRequired nBits nTime first params = Some c /\ word 32 c /\ c_negative (SetCompact c) = false /\ c_overflow (SetCompact c) = false /\
    value (c_target (SetCompact c)) <= new /\ (new - value (c_target (SetCompact c))) * 2 ^ 15 <= new.
Proof.
  intros Hc [Hl Wl] Hr Ht Hd64 span new; destruct (SetCompact_spec nBits Hc) as (Hu & Hv & _), (UintToArith256_spec _ Hl Wl) as [Ul Vl].
  unfold CalculateNextWorkRequired; rewrite Hr, Z.quot_div_nonneg by lia; set (T := params.(nPowTargetTimespan)) in *.
  assert (Hspan : (let a := nTime - first in let a := if a <? T / 4 then T / 4 else a in if T * 4 <? a then T * 4 else a) = span).
  { unfold span, clamped; cbv zeta; pose proof (Z.div_le_upper_bound T 4 T ltac:(lia) ltac:(lia)); destruct (Z.ltb_spec (nTime - first) (T / 4)); [destruct (Z.ltb_spec (T * 4) (T / 4))|destruct (Z.ltb_spec (T * 4) (nTime - first))]; lia. }
  cbv zeta in Hspan |- *; rewrite (proj2 (Z.ltb_ge _ _)), !(proj2 (Z.leb_gt _ _)) by lia; cbn [orb]; rewrite Hspan; assert (Hs : word 32 span) by (unfold word, span, clamped; pose proof (Z.div_pos T 4 ltac:(lia) ltac:(lia)); lia); rewrite (u32_id span Hs).
  destruct (multiply32_spec 8 _ span Hu Hs) as [Um Vm]; rewrite Hv in Vm; change (modulus 8) with (2 ^ 256) in Vm; rewrite Z.mul_mod_idemp_l in Vm by lia.
  assert (H64 : u64 T = T) by (apply wrap_id; unfold word; lia); destruct (value_of_uint64 8 T ltac:(lia) ltac:(unfold word; lia)) as [UT VT]; rewrite H64.
  pose proof (divide_spec 8 _ _ ltac:(lia) Um UT) as Hd; destruct (divide 8 _ _) as [b|]; [|rewrite VT in Hd; lia].
  destruct Hd as (_ & Ub & Vb); rewrite Vm, VT in Vb; cbn [mbind option_bind]; rewrite (greater_spec 8) by done; rewrite Vb, Vl.
  set (a := if _ <? _ then _ else _); assert (Ha : uint 8 a /\ value a = new) by (unfold a, new; destruct (Z.ltb_spec (le_word params.(powLimit)) ((target_of nBits * span) mod 2 ^ 256 / T)); split; (done || lia)).
  destruct Ha as [Ua Va], (GetCompact_back a Ua) as (c & H1 & H2 & H3 & H4 & H5 & H6 & _); exists c; rewrite Va in H5, H6; done.
Qed.

Lemma CalculateNextWorkRequired_correct_witness : exists c, CalculateNextWorkRequired 0x1c05a3f4 1269211443 1269208000 demo_consensus = Some c /\
  value (c_target (SetCompact c)) <= Z.min ((target_of 0x1c05a3f4 * clamped (1269211443 - 1269208000) 3600) mod 2 ^ 256 / 3600) (le_word demo_consensus.(powLimit)).
Proof.
  destruct (CalculateNextWorkRequired_correct 0x1c05a3f4 1269211443 1269208000 demo_consensus ltac:(unfold word; lia) demo_limit eq_refl ltac:(cbn; lia) ltac:(lia))
    as (c & H1 & _ & _ & _ & H2 & _); exact (ex_intro _ c (conj H1 H2)).
Defined.

(** The inputs of the four tests of the retargeting in test/pow_tests.cpp with the parameters of the
    main network: the first three expected values, 0x1d00d86a, 0x1d00ffff and 0x1c0168fd, are
    those for a timespan of two weeks and another limit. *)
Lemma retarget_tests :
  CalculateNextWorkRequired 0x1d00ffff 1262152739 1261130161 demo_consensus = Some 0x1d03fffc /\
  CalculateNextWorkRequired 0x1d00ffff 1233061996 1231006505 demo_consensus = Some 0x1d03fffc /\
  CalculateNextWorkRequired 0x1c05a3f4 1279297671 1279008237 demo_consensus = Some 0x1c168fd0 /\
  CalculateNextWorkRequired 0x1c387f6f 1269211443 1263163443 demo_consensus = Some 0x1d00e1fd.
Proof. vm_compute; repeat split. Qed.

(** With the limit of the main network the product of a valid target can exceed
    256 bits; the new target is then too small by far. *)
Lemma retarget_overflow : le_word demo_consensus.(powLimit) = 2 ^ 248 - 1 /\ target_of 0x1f7fffff <= le_word demo_consensus.(powLimit) /\
  CalculateNextWorkRequired 0x1f7fffff 1500014400 1500000000 demo_consensus = Some 0x1f024686 /\ target_of 0x1f024686 * 56 < target_of 0x1f7fffff.
Proof. split; [reflexivity|]; split; [vm_compute; congruence|]; split; [vm_compute; reflexivity|vm_compute; reflexivity]. Qed.

(** ** The N-factor *)

(** The loop leaves a number below 8 and the number of shifts. *)
Lemma nfactor_loop_spec fuel : forall l s, 0 <= s < 2 ^ Z.of_nat fuel * 8 -> let '(l', s') := nfactor_loop fuel l s in
  l <= l' <= l + Z.of_nat fuel /\ s' = s / 2 ^ (l' - l) /\ 0 <= s' < 8 /\ (8 <= s -> 4 <= s') /\ (s < 8 -> l' = l).
Proof.
  induction fuel as [|fuel IH]; intros l s Hs; cbn [nfactor_loop].
  { rewrite Z.sub_diag, Z.div_1_r; cbn in Hs; repeat split; lia. }
  assert (Hh : Z.shiftr s 1 = s / 2) by (by rewrite Z.shiftr_div_pow2 by lia); rewrite Hh; pose proof (Z.div_mod s 2 ltac:(lia)); pose proof (Z.mod_pos_bound s 2 ltac:(lia)).
  destruct (Z.ltb_spec 3 (s / 2)) as [H3|H3]; [|rewrite Z.sub_diag, Z.div_1_r; repeat split; lia].
  replace (2 ^ Z.of_nat (S fuel)) with (2 * 2 ^ Z.of_nat fuel) in Hs by (rewrite Nat2Z.inj_succ, Z.pow_succ_r by lia; lia).
  specialize (IH (l + 1) (s / 2) ltac:(lia)); destruct (nfactor_loop fuel (l + 1) (s / 2)) as [l' s']; destruct IH as (H1 & H2 & H4 & H5 & H6).
  split; [lia|]; split; [rewrite H2, Z.div_div by lia; replace (l' - l) with (1 + (l' - (l + 1))) by lia; by rewrite Z.pow_add_r by lia|]; split; [lia|]; split; [|lia].
  intros _; destruct (Z.lt_ge_cases (s / 2) 8) as [Hs8|Hs8]; [|by apply H5]; rewrite H2, (H6 Hs8), Z.sub_diag, Z.div_1_r; lia.
Qed.

(** [l] shifts leave [4 + r], the three highest bits. *)
Lemma nfactor_level_spec s : 4 <= s < 2 ^ 63 -> exists l r, nfactor_loop 64 0 s = (l, 4 + r) /\ 0 <= l <= 60 /\ 0 <= r < 4 /\ (4 + r) * 2 ^ l <= s < (5 + r) * 2 ^ l.
Proof.
  intros Hs; pose proof (nfactor_loop_spec 64 0 s ltac:(cbn; lia)) as H; destruct (nfactor_loop 64 0 s) as [l s']; destruct H as (Hl & Hs' & H8 & H4 & H0); rewrite Z.sub_0_r in Hs'.
  assert (H4' : 4 <= s') by (destruct (Z.lt_ge_cases s 8) as [H|H]; [rewrite Hs', (H0 H), Z.div_1_r; lia|by apply H4]).
  pose proof (Z.div_mod s (2 ^ l) ltac:(pose proof (pow2_pos l); lia)) as Hd; pose proof (Z.mod_pos_bound s (2 ^ l) (pow2_pos l ltac:(lia))) as Hm; rewrite <- Hs' in Hd.
  exists l, (s' - 4); split; [f_equal; lia|]; split; [|split; [lia|split; nia]]; split; [lia|].
  destruct (Z.le_gt_cases l 60) as [|Hgt]; [done|]; pose proof (Z.pow_le_mono_r 2 61 l ltac:(lia) ltac:(lia)) as Hp; pose proof (Z.mul_le_mono_nonneg (2 ^ 61) (2 ^ l) 4 s' ltac:(lia) Hp ltac:(lia) H4'); lia.
Qed.

(** [n] before it is cut to its range. *)
Definition nfactor_raw (s : Z) : Z :=
  let '(l, s) := nfactor_loop 64 0 s in let n := Z.quot (l * 158 + Z.land s 3 * 28 - 2670) 100 in if n <? 0 then 0 else n.

Lemma nfactor_raw_mono s t : 0 < s <= t -> t < 2 ^ 63 -> 0 <= nfactor_raw s <= nfactor_raw t /\ nfactor_raw t <= 75.
Proof.
  intros Hst Ht; assert (Hval : forall s, 4 <= s < 2 ^ 63 -> exists l r, 0 <= l <= 60 /\ 0 <= r < 4 /\ (4 + r) * 2 ^ l <= s < (5 + r) * 2 ^ l /\ nfactor_raw s = Z.max 0 (Z.quot (l * 158 + r * 28 - 2670) 100)).
  { intros x Hx; destruct (nfactor_level_spec x Hx) as (l & r & E & Hl & Hr & Hb); exists l, r; split; [done|]; split; [done|]; split; [done|]; unfold nfactor_raw; rewrite E.
    assert (Hland : Z.land (4 + r) 3 = r) by (assert (r = 0 \/ r = 1 \/ r = 2 \/ r = 3) as [-> | [-> | [-> | ->]]] by lia; reflexivity).
    rewrite Hland; cbv zeta; destruct (Z.ltb_spec (Z.quot (l * 158 + r * 28 - 2670) 100) 0); lia. }
  assert (Hsmall : forall s, 0 < s < 4 -> nfactor_raw s = 0) by (intros x Hx; assert (x = 1 \/ x = 2 \/ x = 3) as [-> | [-> | ->]] by lia; reflexivity).
  assert (Hmax : forall l r, 0 <= l <= 60 -> 0 <= r < 4 -> 0 <= Z.max 0 (Z.quot (l * 158 + r * 28 - 2670) 100) <= 75).
  { intros l r Hl Hr; split; [lia|]; apply Z.max_lub; [lia|]; etransitivity; [apply (Z.quot_le_mono _ (60 * 158 + 3 * 28 - 2670) 100); lia|done]. }
  destruct (Z.lt_ge_cases t 4) as [Ht4|Ht4]; [rewrite !Hsmall by lia; lia|]; destruct (Hval t ltac:(lia)) as (lt & rt & Hlt & Hrt & Hbt & Et); rewrite Et.
  pose proof (Hmax lt rt Hlt Hrt); split; [|lia]; destruct (Z.lt_ge_cases s 4) as [Hs4|Hs4]; [rewrite (Hsmall s) by lia; lia|].
  destruct (Hval s ltac:(lia)) as (ls & rs & Hls & Hrs & Hbs & Es); rewrite Es; split; [lia|]; apply Z.max_le_compat_l, Z.quot_le_mono; [lia|].
  assert (Hle : ls < lt \/ (ls = lt /\ rs <= rt)).
  { destruct (Z.lt_trichotomy ls lt) as [|[->|Hgt]]; [by left| |].
    - right; split; [done|]; pose proof (pow2_pos lt ltac:(lia)); nia.
    - exfalso; pose proof (Z.pow_le_mono_r 2 (lt + 1) ls ltac:(lia) ltac:(lia)) as Hp; rewrite Z.pow_add_r in Hp by lia; pose proof (pow2_pos lt ltac:(lia)); nia. }
  lia.
Qed.

Lemma GetNfactor_raw time params : params.(nChainStartTime) < time -> time - params.(nChainStartTime) < 2 ^ 63 ->
  GetNfactor time params = Z.min (Z.max (nfactor_raw (time - params.(nChainStartTime))) params.(nMinNFactor)) params.(nMaxNFactor).
Proof.
  intros Ht Hs; unfold GetNfactor; rewrite (proj2 (Z.leb_gt _ _) Ht).
  destruct (nfactor_raw_mono (time - params.(nChainStartTime)) (time - params.(nChainStartTime)) ltac:(lia) Hs) as [H1 H2]; unfold nfactor_raw in *.
  destruct (nfactor_loop 64 0 _) as [l s]; cbv zeta in *; unfold u8; rewrite wrap_id by (unfold word; lia); done.
Qed.

(** The memory parameter of the genesis hash lies between its two
    bounds, never decreases with the time stamp, and the conversion to a byte
    loses nothing, for all time stamps of 63 bits. *)
Theorem GetNfactor_monotone time time' params : time <= time' -> time' - params.(nChainStartTime) < 2 ^ 63 ->
  params.(nMinNFactor) <= params.(nMaxNFactor) ->
  params.(nMinNFactor) <= GetNfactor time params <= GetNfactor time' params /\ GetNfactor time' params <= params.(nMaxNFactor).
Proof.
  intros Ht Hs Hm; assert (Hbefore : forall t, t <= params.(nChainStartTime) -> GetNfactor t params = params.(nMinNFactor)) by (intros t H; unfold GetNfactor; by rewrite (proj2 (Z.leb_le _ _) H)).
  destruct (Z.le_gt_cases time' params.(nChainStartTime)) as [H'|H']; [rewrite !Hbefore by lia; lia|].
  rewrite (GetNfactor_raw time') by lia; destruct (Z.le_gt_cases time params.(nChainStartTime)) as [H|H]; [rewrite (Hbefore time) by lia; lia|].
  rewrite (GetNfactor_raw time) by lia; pose proof (nfactor_raw_mono (time - params.(nChainStartTime)) (time' - params.(nChainStartTime)) ltac:(lia) ltac:(lia)); lia.
Qed.

Lemma GetNfactor_monotone_witness : GetNfactor 1414776286 demo_consensus <= GetNfactor 1600000000 demo_consensus.
Proof. apply (GetNfactor_monotone 1414776286 1600000000 demo_consensus); cbn; lia. Defined.

(** ** The hash of a header *)

(** Time stamps have 32 bits, so that the formula gives at most 20. *)
Lemma GetNfactor_small time params : word 32 time -> 0 <= params.(nChainStartTime) -> params.(nMinNFactor) <= params.(nMaxNFactor) -> params.(nMinNFactor) <= 22 ->
  params.(nMinNFactor) <= GetNfactor time params <= 22.
Proof.
  unfold word; intros Ht Hc Hm Hb; destruct (Z.le_gt_cases time params.(nChainStartTime)) as [H|H].
  - unfold GetNfactor; rewrite (proj2 (Z.leb_le _ _) H); lia.
  - rewrite GetNfactor_raw by lia; destruct (nfactor_raw_mono (time - params.(nChainStartTime)) (2 ^ 32) ltac:(lia) ltac:(lia)) as [Hr _].
    change (nfactor_raw (2 ^ 32)) with 20 in Hr; lia.
Qed.

Lemma header_memory_bytes h : header_memory h = fields_bytes h.
Proof. unfold header_memory; by rewrite write_fields_spec. Qed.

(** C35 (functional): the hash that is compared with the target, for a header
    without the Merkle tree proof.  At height 0 it is scrypt of the 80 bytes of
    the header, and the memory factor of a 32-bit time stamp never overflows the
    size computations of scrypt; on a chain that is not the main one it is the
    double SHA-256 of the same bytes.  Both are kept in the cache of the header,
    and the next call returns the cached value at every height. *)
Theorem pow_hash_correct {ssl : OpensslSha256} {laws : OpensslLaws ssl} params ubuf B V precomputed ma ctx u_buf hashB height height' h :
  fields_wf h -> IsMTP params.(nMTPSwitchTime) h = false -> h.(cachedPoWHash) = uint256_null ->
  0 <= params.(nChainStartTime) -> 0 <= params.(nMinNFactor) <= 22 -> params.(nMinNFactor) <= params.(nMaxNFactor) ->
  length ubuf = 64%nat -> length B = 128%nat -> 32 * 2 ^ (GetNfactor h.(nTime) params + 1) <= Z.of_nat (length V) ->
  height = 0 \/ params.(IsMain) = false ->
  let hash := if height =? 0 then Rfc7914.scrypt hmac_sha256 (fields_bytes h) (fields_bytes h) (Z.to_nat (2 ^ (GetNfactor h.(nTime) params + 1))) 1 32
              else hash256 (fields_bytes h) in
  GetPoWHash params ubuf B (Some V) precomputed ma ctx u_buf hashB height h = Some (hash, set_cachedPoWHash h hash) /\
  (Uint256.IsNull hash = false ->
   GetPoWHash params ubuf B (Some V) precomputed ma ctx u_buf hashB height' (set_cachedPoWHash h hash) = Some (hash, set_cachedPoWHash h hash)).
Proof.
  intros Hf Hmtp Hc Hs Hn Hm Hu HB HV Hh hash; split; [|by intros E; unfold GetPoWHash; cbn [set_cachedPoWHash cachedPoWHash]; rewrite E].
  destruct (fields_bytes_words h Hf) as [_ Hlen]; unfold GetPoWHash; rewrite Hc, Hmtp; change (negb (Uint256.IsNull uint256_null)) with false; cbv iota.
  rewrite header_memory_bytes; unfold hash; destruct (Z.eqb_spec height 0) as [|Hz].
  - by rewrite scrypt_spec by (done || (pose proof (GetNfactor_small h.(nTime) params); destruct Hf; unfold word in *; lia)).
  - destruct Hh as [?|E0]; [done|]; rewrite E0; unfold GetHash; rewrite Serialize_hash_spec; cbn [mbind option_bind write vch].
    unfold hashed_bytes; rewrite Hmtp, app_nil_r; unfold HashWriter_GetHash, HashWriter_write.
    assert (Hsh : short (fields_bytes h)) by (unfold short; rewrite Hlen; lia).
    pose proof (writes_hold V_SHA256 ubuf [fields_bytes h] Hu) as Hw; cbn [concat fold_left] in Hw; rewrite app_nil_r in Hw.
    destruct (CHash256_Finalize_spec (fields_bytes h) (CHash256_Write (new_hasher (M := CSHA256) ubuf) (fields_bytes h)) (Hw Hsh) Hsh) as [E _].
    by rewrite app_nil_l, E.
Qed.

#[local] Opaque GetPoWHash Rfc7914.scrypt hash256 replicate Z.to_nat.

Lemma pow_hash_correct_witness :
  let h := demo_header 1389306217 None in
  let hash := if 0 =? 0 then Rfc7914.scrypt hmac_sha256 (fields_bytes h) (fields_bytes h) (Z.to_nat (2 ^ (GetNfactor h.(nTime) demo_consensus + 1))) 1 32 else hash256 (fields_bytes h) in
  GetPoWHash (ssl := csha256_openssl) demo_consensus (replicate 64 0) (replicate 128 0) (Some (replicate (Z.to_nat 65536) 0)) (fun _ => []) (Mallocs true true true)
    (BlakeCtx [] 0 [] [] 0 0) [] [] 0 h = Some (hash, set_cachedPoWHash h hash).
Proof.
  intros h hash; assert (Hf : fields_wf h) by (apply demo_fields_wf; unfold word; lia).
  assert (HV : 32 * 2 ^ (GetNfactor (nTime h) demo_consensus + 1) <= Z.of_nat (length (replicate (Z.to_nat 65536) 0))) by (rewrite length_replicate, Z2Nat.id by lia; vm_compute; congruence).
  destruct (pow_hash_correct (laws := csha256_laws) demo_consensus (replicate 64 0) (replicate 128 0) (replicate (Z.to_nat 65536) 0) (fun _ => []) (Mallocs true true true)
    (BlakeCtx [] 0 [] [] 0 0) [] [] 0 1 h Hf eq_refl eq_refl ltac:(cbn; lia) ltac:(cbn; lia) ltac:(cbn; lia) (length_replicate _ _) (length_replicate _ _) HV (or_introl eq_refl)) as [H _].
  exact H.
Defined.
