(* ===== verification/PowMining.v ===== *)
(** A header solved by the mining loop: what the search, the checks and the
    network do with it. *)

From S2P Require Import Prelude BlakeSpec Rfc7693 Blake2b SphBlake Argon2 Argon2Threads Argon2Spec Argon2Block Argon2Fill Argon2Init Argon2Pass0.
From S2P Require Import Argon2Claims Sponge Lyra2 MerkleTree MerkleProofs MerkleClaims Arith256 Arith256Proofs Arith256Compact Arith256Claims Uint256.
From S2P Require Import Serialize SerializeProofs Mtp MtpProofs MtpSearch MtpClaims Block BlockProofs BlockClaims MtpShape Scrypt ScryptClaims Pow PowClaims.

#[local] Opaque Rfc7693.hash Rfc7693.hash_long fill_block_mtp compute_blake2b checkProofOrdered next_y first_y referenced_index previous_index
  block_digest y_next y_first mtp_h0 H0 getProof_at make_MerkleTree copy_block selected_index misses_target mtp_search verify_loop mtp_verify mtp_hash1 lyra2z_hash.

(** ** The hash found *)

Lemma Compare_refl x : Uint256.Compare x x = 0.
Proof. induction x as [|a x IH]; cbn [Uint256.Compare]; [done|]; by rewrite !Z.ltb_irrefl. Qed.

(** ** The size of a header *)

Lemma length_proof_bytes p : proof_wf p -> (length (proof_bytes p) <= 4081)%nat.
Proof.
  intros [Hl Hp]; unfold proof_bytes; rewrite length_app, length_le_bytes, (length_concat_uniform 16); [lia|].
  apply List.Forall_forall; intros x Hx; rewrite List.Forall_forall in Hp; by apply Hp.
Qed.

Lemma length_concat_bound {A} (f : A -> list Z) k l : Forall (fun x => (length (f x) <= k)%nat) l -> (length (concat (map f l)) <= length l * k)%nat.
Proof. induction 1 as [|x l Hx _ IH]; cbn [map concat length]; [lia|]; rewrite length_app; lia. Qed.

Lemma words_concat {A} (f : A -> list Z) l : Forall (fun x => words 8 (f x)) l -> words 8 (concat (map f l)).
Proof. induction 1 as [|x l Hx _ IH]; cbn [map concat]; [constructor|]; by apply Forall_app. Qed.

Lemma data_bytes_ok P d : data_wf P d -> words 8 (data_bytes d) /\ (length (data_bytes d) <= 16 + P.(L) * 2 * 1024 + P.(L) * 3 * 4081)%nat.
Proof.
  intros [[Hr Wr] [Hb HB] [Hq HQ]]; unfold data_bytes; split.
  - apply Forall_app; split; [exact Wr|]; apply Forall_app; split; apply words_concat; apply List.Forall_forall; intros x Hx; [apply concat_le_words|].
    rewrite List.Forall_forall in HQ; destruct (HQ x Hx) as [_ Hp]; unfold proof_bytes; apply Forall_app; split; [apply le_bytes_words|].
    rewrite <- (map_id x); apply words_concat; apply List.Forall_forall; intros y Hy; rewrite List.Forall_forall in Hp; by apply Hp.
  - rewrite !length_app, Hr, length_blocks_bytes, Hb by done.
    assert (H : (length (concat (map proof_bytes d.(nProofMTP))) <= length d.(nProofMTP) * 4081)%nat).
    { apply length_concat_bound, List.Forall_forall; intros x Hx; rewrite List.Forall_forall in HQ; by apply length_proof_bytes, HQ. }
    rewrite Hq in H; lia.
Qed.

Lemma header_bytes_ok P switch h : Z.of_nat P.(L) < 2 ^ 16 -> header_wf P switch h -> stream_ok (of_bytes (header_bytes switch h)).
Proof.
  intros HL (Hf & _ & Hm); destruct (fields_bytes_words h Hf) as [W1 L1]; apply of_bytes_ok; unfold header_bytes; destruct (IsMTP switch h); rewrite ?app_nil_r.
  - destruct Hm as (Hm & d & -> & Hd); destruct (mtp_fields_bytes_words h Hm) as [W2 L2], (data_bytes_ok P d Hd) as [W3 L3]; apply Forall_app; split; [exact W1|]; apply Forall_app; split; [exact W2|exact W3].
  - done.
  - destruct Hm as (Hm & d & -> & Hd); destruct (mtp_fields_bytes_words h Hm) as [W2 L2], (data_bytes_ok P d Hd) as [W3 L3]; rewrite !length_app, L1, L2; lia.
  - rewrite L1; lia.
Qed.

(** ** Solving a header *)

(** The header the loop leaves. *)
Definition solved (h : CBlockHeader) (nonce : Z) (y : list Z) (d : CMTPHashData) : CBlockHeader :=
  BlockHeader h.(nVersion) h.(hashPrevBlock) h.(hashMerkleRoot) h.(nTime) h.(nBits) nonce h.(nVersionMTP) y h.(reserved0) h.(reserved1) (Some d) h.(cachedPoWHash).

Lemma hash_header_found P lanes q d boost pfs loc h inst pow_limit fuel fuel1 :
  params_ok P lanes q d -> mlocals_ok loc P.(L) -> malloc_ok (pfs 0%nat).(pf_malloc) -> fields_wf h ->
  Argon2CtxMtp (pfs 0%nat) loc (mtp_context P loc (input_bytes h)) (mtp_instance P loc) = Some (ARGON2_OK, inst) -> (Z.to_nat (2 ^ 32) <= fuel1)%nat ->
  exists M t root, mtp_memory P lanes q (input_bytes h) M /\ make_MerkleTree loc.(ml_state) loc.(ml_digest) (map block_digest M) true = Ret (Some t) /\ getRoot t = Some root /\
    forall n y, 0 <= n < UINT_MAX -> code_solution P q boost (input_bytes h) M root h.(nBits) pow_limit n y ->
    exists nonce a, search_result P lanes q boost (input_bytes h) M t root h.(nBits) pow_limit 0 (Some (nonce, a)) /\
      hash_header P boost (S fuel) fuel1 pfs loc h pow_limit = Some (a.(at_y), BlockHeader h.(nVersion) h.(hashPrevBlock) h.(hashMerkleRoot) h.(nTime) h.(nBits) nonce
        h.(nVersionMTP) h.(mtpHashValue) h.(reserved0) h.(reserved1) (Some (MTPHashData root a.(at_blocks) a.(at_proofs))) h.(cachedPoWHash)).
Proof.
  intros HP Hloc Hmal Hf Hctx Hfuel.
  assert (Hin : (80 <= length (input_bytes h))%nat) by (rewrite input_fields, (proj2 (fields_bytes_words _ (input_fields_wf h Hf))); lia).
  destruct (mtp_hash1_spec P lanes q d boost (pfs 0%nat) loc (input_bytes h) inst h.(nBits) pow_limit fuel1 HP Hloc Hmal Hin Hctx Hfuel) as (M & t & root & r & HM & Ht & Hroot & Hres & H1).
  exists M, t, root; split; [exact HM|]; split; [exact Ht|]; split; [exact Hroot|]; intros n y Hn Hsol.
  destruct r as [[nonce a]|]; [|destruct (Hres n y Hn Hsol)]; exists nonce, a; split; [exact Hres|].
  unfold hash_header; rewrite serializeMtpHeader_spec; cbn [write vch app mtp_hash]; cbn [fmap option_fmap option_map] in H1.
  assert (H2 : mtp_hash P boost (S fuel) fuel1 pfs loc (input_bytes h) h.(nBits) pow_limit = Some (Some (MtpOutput root nonce a.(at_blocks) a.(at_proofs) a.(at_y))))
    by (cbn [mtp_hash]; bind_step H1; exact eq_refl).
  cbn [mtp_hash] in H2; bind_step H2; exact eq_refl.
Qed.

Section Mined.
Context (P : params) (lanes q d : nat) (boost : list Z -> Z) (pfs : nat -> platform) (loc loc' : mtp_locals) (inst : argon2_instance_t) (params : Consensus).
Context (HP : params_ok P lanes q d) (HL : Z.of_nat P.(L) < 2 ^ 16) (Hloc : mlocals_ok loc P.(L)) (Hloc' : mlocals_ok loc' P.(L)) (Hmal : malloc_ok (pfs 0%nat).(pf_malloc)).
Context (h : CBlockHeader) (Hf : fields_wf h) (Hm : mtp_fields_wf h) (Hmtp : IsMTP params.(nMTPSwitchTime) h = true) (Hcache : h.(cachedPoWHash) = uint256_null).
Context (M : list block) (t : MerkleTree) (root : list Z) (HM : mtp_memory P lanes q (input_bytes h) M)
  (Ht : make_MerkleTree loc.(ml_state) loc.(ml_digest) (map block_digest M) true = Ret (Some t)) (Hroot : getRoot t = Some root).
Context (nonce : Z) (a : attempt) (Hres : search_result P lanes q boost (input_bytes h) M t root h.(nBits) params.(powLimit) 0 (Some (nonce, a))).

Abbreviation h' := (solved h nonce a.(at_y) (MTPHashData root a.(at_blocks) a.(at_proofs))).

Lemma solved_wf : header_wf P params.(nMTPSwitchTime) h'.
Proof.
  destruct Hf as [F1 F2 F3 F4 F5 _], Hm as [M1 M2 M3 M4]; pose proof Hres as (Hn & [Hc _] & _).
  split; [split; (done || (unfold word, UINT_MAX in *; cbn [solved nNonce]; lia))|]; split; [exact Hcache|]; rewrite (isMTP_time _ h' h), Hmtp by done; split.
  - split; [exact M1|exact (y_chain_blob _ _ _ _ _ _ _ (y_first_blob _ _ _) Hc)|exact M3|exact M4].
  - eexists; split; [done|]; exact (proj1 (output_wf P lanes q d boost (input_bytes h) M _ _ t root _ _ nonce a HP HM (lo_digest _ _ Hloc) Ht Hroot Hres)).
Qed.

Lemma solved_proof : CheckMerkleTreeProof P params boost loc' h' = Some true.
Proof.
  unfold CheckMerkleTreeProof; rewrite (isMTP_time _ h' h), Hmtp by done; cbn [negb solved mtpHashData]; unfold verify_header; rewrite serializeMtpHeader_spec.
  change (input_bytes h') with (input_bytes h); cbn [write vch app solved mtpHashData nNonce nBits hashRootMTP nBlockMTP nProofMTP mtpHashValue].
  assert (Hin : (80 <= length (input_bytes h))%nat) by (rewrite input_fields, (proj2 (fields_bytes_words _ (input_fields_wf h Hf))); lia).
  pose proof (mtp_verify_output P lanes q d boost loc loc' (input_bytes h) M t root h.(nBits) params.(powLimit) nonce a (Some uint256_null) HP Hloc Hloc' Hin HM Ht Hroot Hres) as Hv.
  cbn [fmap option_fmap option_map] in Hv.
  assert (E : (d0 ← Some (MTPHashData root a.(at_blocks) a.(at_proofs));
    mtp_verify P boost loc' (input_bytes h) h.(nBits) d0.(hashRootMTP) nonce d0.(nBlockMTP) d0.(nProofMTP) params.(powLimit) (Some uint256_null)) = Some (true, Some a.(at_y))) by exact Hv.
  bind_step E; cbn [mbind option_bind]; rewrite Compare_refl; reflexivity.
Qed.

Lemma solved_target : CheckProofOfWork a.(at_y) h.(nBits) params = true.
Proof. rewrite CheckProofOfWork_misses; pose proof Hres as (_ & [_ ->] & _); reflexivity. Qed.
End Mined.

Lemma generate_solved P params boost tries fuel fuel1 pfs loc h nonce y d : h.(nNonce) < nInnerLoopCount ->
  hash_header P boost fuel fuel1 pfs loc h params.(powLimit) = Some (y, BlockHeader h.(nVersion) h.(hashPrevBlock) h.(hashMerkleRoot) h.(nTime) h.(nBits) nonce
    h.(nVersionMTP) h.(mtpHashValue) h.(reserved0) h.(reserved1) (Some d) h.(cachedPoWHash)) ->
  CheckProofOfWork y h.(nBits) params = true -> generate_mtp P params boost (S tries) fuel fuel1 pfs loc h = Some (S tries, solved h nonce y d).
Proof.
  intros Hn E Hc; cbn [generate_mtp]; rewrite (proj2 (Z.ltb_lt _ _) Hn); cbn [negb]; bind_step E; cbn [set_mtpHashValue mtpHashValue nBits]; rewrite Hc; exact eq_refl.
Qed.

(** ** Claims *)

(** C1 (refinement): when some nonce solves a header, the mining loop solves it
    in its first turn; the header it leaves differs from the one it was given in
    nonce, hash value and data only, is accepted by both checks of the proof of
    work in every state of their local variables, its proof-of-work hash is the
    hash value at every height, and a node that reads what is sent of it gets the
    same header. *)
Theorem mined_header_accepted P lanes q d boost params {ssl : OpensslSha256} ubuf scrypt_B scratchpad precomputed ma ctx u_buf hashB pfs loc loc' h inst fuel fuel1 tries height root0 :
  params_ok P lanes q d -> Z.of_nat P.(L) < 2 ^ 16 -> mlocals_ok loc P.(L) -> mlocals_ok loc' P.(L) -> malloc_ok (pfs 0%nat).(pf_malloc) ->
  fields_wf h -> mtp_fields_wf h -> IsMTP params.(nMTPSwitchTime) h = true -> h.(cachedPoWHash) = uint256_null -> h.(nNonce) < nInnerLoopCount -> blob 32 params.(powLimit) ->
  Argon2CtxMtp (pfs 0%nat) loc (mtp_context P loc (input_bytes h)) (mtp_instance P loc) = Some (ARGON2_OK, inst) -> (Z.to_nat (2 ^ 32) <= fuel1)%nat ->
  exists M root, mtp_memory P lanes q (input_bytes h) M /\ merkleRoot loc.(ml_state) loc.(ml_digest) (map block_digest M) true = Ret (Some root) /\
    forall n y, 0 <= n < UINT_MAX -> solution P q boost (input_bytes h) M root h.(nBits) params.(powLimit) n y ->
    exists nonce y data, let h' := solved h nonce y data in
      generate_mtp P params boost (S tries) (S fuel) fuel1 pfs loc h = Some (S tries, h') /\
      CheckMerkleTreeProof P params boost loc' h' = Some true /\
      (exists cached, GetPoWHash params ubuf scrypt_B scratchpad precomputed ma ctx u_buf hashB height h' = Some (y, cached)) /\ CheckProofOfWork y h.(nBits) params = true /\
      exists s s', Serialize_header params.(nMTPSwitchTime) 1 (DataStream [] 0) h' = Some s /\
        Unserialize_header P params.(nMTPSwitchTime) root0 make_CBlockHeader s = Done h' s' /\ unread s' = [].
Proof.
  intros HP HL Hloc Hloc' Hmal Hf Hm Hmtp Hc Hn Hlim Hctx Hfuel.
  destruct (hash_header_found P lanes q d boost pfs loc h inst params.(powLimit) fuel fuel1 HP Hloc Hmal Hf Hctx Hfuel) as (M & t & root & HM & Ht & Hroot & Hfound).
  exists M, root; split; [exact HM|]; split; [unfold merkleRoot; rewrite Ht; cbn [bind_result mbind option_bind]; by rewrite Hroot|]; intros n y Hny Hsol.
  apply (solution_code P lanes q d HP boost (input_bytes h) M HM root h.(nBits) params.(powLimit) n y (fw_bits _ Hf) Hlim) in Hsol.
  destruct (Hfound n y Hny Hsol) as (nonce & a & Hres & E); exists nonce, a.(at_y), (MTPHashData root a.(at_blocks) a.(at_proofs)).
  pose proof (solved_target P lanes q boost params h M t root nonce a Hres) as Htar.
  pose proof (solved_wf P lanes q d boost loc params HP Hloc h Hf Hm Hmtp Hc M t root HM Ht Hroot nonce a Hres) as Hwf.
  split; [exact (generate_solved P params boost tries (S fuel) fuel1 pfs loc h nonce a.(at_y) _ Hn E Htar)|].
  split; [exact (solved_proof P lanes q d boost loc loc' params HP Hloc Hloc' h Hf Hmtp M t root HM Ht Hroot nonce a Hres)|]; split; [|split; [exact Htar|]].
  - eexists; unfold GetPoWHash; cbn [solved cachedPoWHash]; rewrite Hc; change (negb (Uint256.IsNull uint256_null)) with false; cbv iota.
    rewrite (isMTP_time _ _ h), Hmtp by done; reflexivity.
  - exists (of_bytes (header_bytes params.(nMTPSwitchTime) (solved h nonce a.(at_y) (MTPHashData root a.(at_blocks) a.(at_proofs))))).
    destruct (reads_header P ltac:(lia) params.(nMTPSwitchTime) root0 _ Hwf _ [] (header_bytes_ok P _ _ HL Hwf) ltac:(by rewrite app_nil_r)) as (s' & R & _ & U).
    exists s'; split; [exact (Serialize_header_spec P params.(nMTPSwitchTime) (DataStream [] 0) _ Hwf)|]; split; [exact R|exact U].
Qed.

Lemma mined_header_accepted_witness : exists choices M root,
  mtp_memory mtp_params 4 (2 ^ 18) (input_bytes (demo_header 1600000000 None)) M /\
  forall n y, 0 <= n < UINT_MAX -> solution mtp_params (2 ^ 18) le_word (input_bytes (demo_header 1600000000 None)) M root 0x1d00ffff demo_consensus.(powLimit) n y ->
  exists nonce y data, generate_mtp mtp_params demo_consensus le_word 5 1 (Z.to_nat (2 ^ 32)) (fun _ => Platform demo_malloc true true choices) (demo_mlocals MTP_L)
      (demo_header 1600000000 None) = Some (5%nat, solved (demo_header 1600000000 None) nonce y data) /\
    CheckMerkleTreeProof mtp_params demo_consensus le_word (demo_mlocals MTP_L) (solved (demo_header 1600000000 None) nonce y data) = Some true.
Proof.
  destruct (demo_fields_wf 1600000000 None ltac:(unfold word; lia)) as [Hf Hm].
  destruct (mtp_can_fill mtp_params 4 (2 ^ 18) 22 (demo_mlocals MTP_L) MTP_L (input_bytes (demo_header 1600000000 None)) mtp_params_ok (demo_mlocals_ok MTP_L)
    ltac:(rewrite input_fields, (proj2 (fields_bytes_words _ (input_fields_wf _ Hf))); lia)) as (choices & inst & Hctx).
  destruct (mined_header_accepted mtp_params 4 (2 ^ 18) 22 le_word demo_consensus (ssl := csha256_openssl) [] [] None (fun _ => []) (Mallocs true true true) (BlakeCtx [] 0 [] [] 0 0) [] []
    (fun _ => Platform demo_malloc true true choices) (demo_mlocals MTP_L) (demo_mlocals MTP_L) (demo_header 1600000000 None) inst 0 (Z.to_nat (2 ^ 32)) 4 1 []
    mtp_params_ok eq_refl (demo_mlocals_ok MTP_L) (demo_mlocals_ok MTP_L) demo_malloc_ok Hf Hm eq_refl eq_refl eq_refl demo_limit Hctx (le_n _)) as (M & root & HM & _ & H).
  exists choices, M, root; split; [exact HM|]; intros n y Hn Hs; destruct (H n y Hn Hs) as (nonce & y' & data & H1 & H2 & _); exact (ex_intro _ nonce (ex_intro _ y' (ex_intro _ data (conj H1 H2)))).
Defined.
