(* ===== verification/AesCbc.v ===== *)
(** crypto/aes.cpp: the classes around ctaes and the CBC mode.

    A byte pointer is [None] when it is null, and otherwise the bytes it can be
    used for; input and output do not overlap.  The functions return the value of
    the C function and the output buffer; [None] stands for an access outside of
    a buffer or an overflow of [int]. *)

From S2P Require Import Prelude Ctaes.

Definition AES_BLOCKSIZE : Z := 16.

(** ** The block classes *)

Record AES128Encrypt := { enc128_ctx : list AES_state }.
Record AES128Decrypt := { dec128_ctx : list AES_state }.
Record AES256Encrypt := { enc256_ctx : list AES_state }.
Record AES256Decrypt := { dec256_ctx : list AES_state }.

Definition new_AES128Encrypt (key : list Z) : AES128Encrypt := {| enc128_ctx := AES128_init key |}.
Definition new_AES128Decrypt (key : list Z) : AES128Decrypt := {| dec128_ctx := AES128_init key |}.
Definition new_AES256Encrypt (key : list Z) : AES256Encrypt := {| enc256_ctx := AES256_init key |}.
Definition new_AES256Decrypt (key : list Z) : AES256Decrypt := {| dec256_ctx := AES256_init key |}.

Definition AES128Encrypt_Encrypt (e : AES128Encrypt) (plaintext : list Z) : list Z := AES128_encrypt e.(enc128_ctx) 1 plaintext.
Definition AES128Decrypt_Decrypt (e : AES128Decrypt) (ciphertext : list Z) : list Z := AES128_decrypt e.(dec128_ctx) 1 ciphertext.
Definition AES256Encrypt_Encrypt (e : AES256Encrypt) (plaintext : list Z) : list Z := AES256_encrypt e.(enc256_ctx) 1 plaintext.
Definition AES256Decrypt_Decrypt (e : AES256Decrypt) (ciphertext : list Z) : list Z := AES256_decrypt e.(dec256_ctx) 1 ciphertext.

(** ** CBC mode *)

(** [memcpy(out + off, src, length src)], inside of the buffer *)
Definition store (off : nat) (src out : list Z) : option (list Z) :=
  if (off + length src <=? length out)%nat then Some (write_at off src out) else None.

(** [for (int i = lo; i != hi; i++) mixed[i] ^= byte(i);] with indices in [mixed] *)
Definition mix (lo hi : nat) (byte : nat -> option Z) (mixed : list Z) : option (list Z) :=
  for_rangeM lo hi (fun i mixed => m ← mixed !! i; b ← byte i; Some (<[i := Z.lxor m b]> mixed)) mixed.

Section Encrypt.
Context (Encrypt : list Z -> list Z).

(** The state of the loop: [written], [mixed], the position of [data], [out]. *)
Record enc_state := EncState { e_written : Z; e_mixed : list Z; e_pos : nat; e_out : list Z }.

Definition enc_block (data : list Z) (st : enc_state) : option enc_state :=
  mixed ← mix 0 16 (fun i => data !! (st.(e_pos) + i)%nat) st.(e_mixed);
  out ← store (Z.to_nat st.(e_written)) (Encrypt mixed) st.(e_out);
  let mixed := read_at (Z.to_nat st.(e_written)) 16 out in
  Some (EncState (st.(e_written) + AES_BLOCKSIZE) mixed (st.(e_pos) + 16) out).

(** [while (written + AES_BLOCKSIZE <= size)]; [fuel] bounds the number of tests. *)
Fixpoint enc_loop (fuel : nat) (data : list Z) (size : Z) (st : enc_state) : option enc_state :=
  match fuel with
  | O => None
  | S fuel =>
    if int_max <? st.(e_written) + AES_BLOCKSIZE then None
    else if st.(e_written) + AES_BLOCKSIZE <=? size then st ← enc_block data st; enc_loop fuel data size st
    else Some st
  end.

Definition enc_pad (data : list Z) (padsize : Z) (st : enc_state) : option enc_state :=
  if padsize <? 0 then None
  else
    mixed ← mix 0 (Z.to_nat padsize) (fun i => data !! (st.(e_pos) + i)%nat) st.(e_mixed);
    mixed ← mix (Z.to_nat padsize) 16 (fun _ => Some (AES_BLOCKSIZE - padsize)) mixed;
    out ← store (Z.to_nat st.(e_written)) (Encrypt mixed) st.(e_out);
    if int_max <? st.(e_written) + AES_BLOCKSIZE then None
    else Some (EncState (st.(e_written) + AES_BLOCKSIZE) mixed (st.(e_pos) + Z.to_nat padsize) out).

Definition CBCEncrypt (iv : list Z) (data : option (list Z)) (size : Z) (pad : bool) (out : option (list Z)) : option (Z * option (list Z)) :=
  let padsize := Z.rem size AES_BLOCKSIZE in
  match data, out with
  | Some data, Some out =>
    if size =? 0 then Some (0, Some out)
    else if negb pad && negb (padsize =? 0) then Some (0, Some out)
    else
      st ← enc_loop (S (Z.to_nat (size / 16))) data size (EncState 0 (take 16 iv) 0 out);
      st ← (if pad then enc_pad data padsize st else Some st);
      Some (st.(e_written), Some st.(e_out))
  | _, _ => Some (0, out)
  end.

End Encrypt.

Section Decrypt.
Context (Decrypt : list Z -> list Z).

(** [written], which is also the position of [out], [prev] and the buffer *)
Record dec_state := DecState { d_written : Z; d_prev : list Z; d_out : list Z }.

Definition dec_block (data : list Z) (st : dec_state) : option dec_state :=
  let w := Z.to_nat st.(d_written) in
  if (w + 16 <=? length data)%nat then
    out ← store w (Decrypt (read_at w 16 data)) st.(d_out);
    out ← for_rangeM 0 16 (fun i out => o ← out !! (w + i)%nat; p ← st.(d_prev) !! i; Some (<[(w + i)%nat := Z.lxor o p]> out)) out;
    Some (DecState (st.(d_written) + AES_BLOCKSIZE) (read_at w 16 data) out)
  else None.

(** [while (written != size)] *)
Fixpoint dec_loop (fuel : nat) (data : list Z) (size : Z) (st : dec_state) : option dec_state :=
  match fuel with
  | O => None
  | S fuel => if st.(d_written) =? size then Some st else st ← dec_block data st; dec_loop fuel data size st
  end.

(** The check of the padding: [out] is one past the last byte, at [pos]. *)
Definition dec_pad (out : list Z) (pos : nat) : option (Z * bool) :=
  padsize ← (if (pos =? 0)%nat then @None Z else out !! (pos - 1)%nat);
  let fail := (padsize =? 0) || (AES_BLOCKSIZE <? padsize) in
  let padsize := if fail then 0 else padsize in
  fail ← for_rangeM 0 16 (fun k fail =>
    let i := AES_BLOCKSIZE - Z.of_nat k in
    o ← (if (pos <? k + 1)%nat then @None Z else out !! (pos - (k + 1))%nat);
    Some (fail || ((AES_BLOCKSIZE - padsize <? i) && negb (o =? padsize)))) fail;
  Some (padsize, fail).

Definition CBCDecrypt (iv : list Z) (data : option (list Z)) (size : Z) (pad : bool) (out : option (list Z)) : option (Z * option (list Z)) :=
  match data, out with
  | Some data, Some out =>
    if size =? 0 then Some (0, Some out)
    else if negb (Z.rem size AES_BLOCKSIZE =? 0) then Some (0, Some out)
    else
      st ← dec_loop (S (Z.to_nat (size / 16))) data size (DecState 0 (take 16 iv) out);
      if pad then
        '(padsize, fail) ← dec_pad st.(d_out) (Z.to_nat st.(d_written));
        Some (if (fail : bool) then 0 else st.(d_written) - padsize, Some st.(d_out))
      else Some (st.(d_written), Some st.(d_out))
  | _, _ => Some (0, out)
  end.

End Decrypt.

(** ** The classes for CBC *)

Record AES256CBCEncrypt := { e256_enc : AES256Encrypt; e256_pad : bool; e256_iv : list Z }.
Record AES256CBCDecrypt := { d256_dec : AES256Decrypt; d256_pad : bool; d256_iv : list Z }.
Record AES128CBCEncrypt := { e128_enc : AES128Encrypt; e128_pad : bool; e128_iv : list Z }.
Record AES128CBCDecrypt := { d128_dec : AES128Decrypt; d128_pad : bool; d128_iv : list Z }.

Definition new_AES256CBCEncrypt (key ivIn : list Z) (padIn : bool) : AES256CBCEncrypt :=
  {| e256_enc := new_AES256Encrypt key; e256_pad := padIn; e256_iv := take 16 ivIn |}.
Definition new_AES256CBCDecrypt (key ivIn : list Z) (padIn : bool) : AES256CBCDecrypt :=
  {| d256_dec := new_AES256Decrypt key; d256_pad := padIn; d256_iv := take 16 ivIn |}.
Definition new_AES128CBCEncrypt (key ivIn : list Z) (padIn : bool) : AES128CBCEncrypt :=
  {| e128_enc := new_AES128Encrypt key; e128_pad := padIn; e128_iv := take 16 ivIn |}.
Definition new_AES128CBCDecrypt (key ivIn : list Z) (padIn : bool) : AES128CBCDecrypt :=
  {| d128_dec := new_AES128Decrypt key; d128_pad := padIn; d128_iv := take 16 ivIn |}.

Definition AES256CBCEncrypt_Encrypt (c : AES256CBCEncrypt) (data : option (list Z)) (size : Z) (out : option (list Z)) :=
  CBCEncrypt (AES256Encrypt_Encrypt c.(e256_enc)) c.(e256_iv) data size c.(e256_pad) out.
Definition AES256CBCDecrypt_Decrypt (c : AES256CBCDecrypt) (data : option (list Z)) (size : Z) (out : option (list Z)) :=
  CBCDecrypt (AES256Decrypt_Decrypt c.(d256_dec)) c.(d256_iv) data size c.(d256_pad) out.
Definition AES128CBCEncrypt_Encrypt (c : AES128CBCEncrypt) (data : option (list Z)) (size : Z) (out : option (list Z)) :=
  CBCEncrypt (AES128Encrypt_Encrypt c.(e128_enc)) c.(e128_iv) data size c.(e128_pad) out.
Definition AES128CBCDecrypt_Decrypt (c : AES128CBCDecrypt) (data : option (list Z)) (size : Z) (out : option (list Z)) :=
  CBCDecrypt (AES128Decrypt_Decrypt c.(d128_dec)) c.(d128_iv) data size c.(d128_pad) out.
