(* ===== verification/AesCbcClaims.v ===== *)
(** The CBC mode of aes.cpp against its definition in NIST SP 800-38A, with the
    padding of PKCS #7.

    The properties of aes.cpp: the classes for CBC with AES-128 and AES-256. *)

From S2P Require Import Prelude Ctaes Fips197 CtaesTheorems AesCbc.

(** ** Reference *)

Definition xor_block16 (a b : list Z) : list Z := zip_with Z.lxor a b.

(** Each block is combined with the ciphertext before it. *)
Fixpoint cbc_enc (E : list Z -> list Z) (prev : list Z) (blocks : list (list Z)) : list (list Z) :=
  match blocks with
  | [] => []
  | b :: blocks => let c := E (xor_block16 prev b) in c :: cbc_enc E c blocks
  end.

Fixpoint cbc_dec (D : list Z -> list Z) (prev : list Z) (blocks : list (list Z)) : list (list Z) :=
  match blocks with
  | [] => []
  | c :: blocks => xor_block16 (D c) prev :: cbc_dec D c blocks
  end.

Definition blocks16 (data : list Z) : list (list Z) := chunks 16 (length data / 16) data.

(** One to sixteen bytes, each the number of them *)
Definition pkcs7 (data : list Z) : list Z :=
  let k := (16 - length data mod 16)%nat in data ++ replicate k (Z.of_nat k).

Definition unpad (data : list Z) : option (list Z) :=
  match data !! (length data - 1)%nat with
  | Some k =>
    let n := (length data - Z.to_nat k)%nat in
    if (1 <=? k) && (k <=? 16) && forallb (fun b => b =? k) (drop n data) then Some (take n data) else None
  | None => None
  end.

(** The message written by [CBCEncrypt] for [data]. *)
Definition cbc_message (pad : bool) (data : list Z) : list Z := if pad then pkcs7 data else data.

(** ** Lemmas on the reference *)

Abbreviation block16 := (fun b : list Z => length b = 16%nat).

Lemma blocks16_all data : (length data mod 16 = 0)%nat -> Forall block16 (blocks16 data) /\ concat (blocks16 data) = data /\ length (blocks16 data) = (length data / 16)%nat.
Proof.
  intros Hd; assert (Hl : length data = (length data / 16 * 16)%nat) by (pose proof (Nat.div_mod (length data) 16); lia).
  unfold blocks16; destruct (chunks_length 16 (length data / 16) data Hl); split_and!; [done|by apply concat_chunks|done].
Qed.

Lemma blocks16_concat bs : Forall block16 bs -> blocks16 (concat bs) = bs.
Proof.
  intros Hb; unfold blocks16; rewrite (length_concat_uniform 16) by done; rewrite Nat.div_mul by lia; by apply chunks_concat.
Qed.

(** The last block of ciphertext. *)
Definition cbc_prev (E : list Z -> list Z) (prev : list Z) (bs : list (list Z)) : list Z :=
  fold_left (fun p b => E (xor_block16 p b)) bs prev.

Lemma cbc_enc_app E prev bs bs' : cbc_enc E prev (bs ++ bs') = cbc_enc E prev bs ++ cbc_enc E (cbc_prev E prev bs) bs'.
Proof. revert prev; induction bs as [|b bs IH]; intros prev; [done|]; cbn [app cbc_enc]; rewrite IH; done. Qed.

Lemma length_xor a b : length (xor_block16 a b) = Nat.min (length a) (length b).
Proof. apply length_zip_with. Qed.

Lemma xor_cancel a b : length a = length b -> xor_block16 (xor_block16 a b) a = b.
Proof.
  unfold xor_block16; revert b; induction a as [|x a IH]; intros [|y b] H; try discriminate; [done|]; cbn [zip_with]; f_equal.
  - by rewrite Z.lxor_comm, <- Z.lxor_assoc, Z.lxor_nilpotent, Z.lxor_0_l.
  - apply IH; by injection H.
Qed.

Lemma pkcs7_length data : length (pkcs7 data) = ((length data / 16 + 1) * 16)%nat.
Proof.
  unfold pkcs7; rewrite length_app, length_replicate; pose proof (Nat.div_mod (length data) 16 ltac:(lia)).
  pose proof (Nat.mod_upper_bound (length data) 16 ltac:(lia)); lia.
Qed.

(** The padding is taken off again. *)
Lemma unpad_pkcs7 data : unpad (pkcs7 data) = Some data.
Proof.
  unfold unpad, pkcs7; pose proof (Nat.mod_upper_bound (length data) 16 ltac:(lia)); set (k := (16 - length data mod 16)%nat).
  rewrite length_app, length_replicate, lookup_app_r by lia; rewrite (lookup_replicate_2 k) by lia.
  replace (length data + k - Z.to_nat (Z.of_nat k))%nat with (length data) by lia.
  rewrite drop_app_length, take_app_length, (proj2 (Z.leb_le 1 _)), (proj2 (Z.leb_le _ 16)) by lia; cbn [andb].
  replace (forallb _ _) with true; [done|]; symmetry; apply forallb_forall; intros x Hx; apply repeat_spec in Hx || apply list_elem_of_In, elem_of_replicate_inv in Hx; subst; apply Z.eqb_refl.
Qed.

(** ** Runs of exclusive ors *)

(** [out[off + i] ^= byte(i)] for [lo <= i < lo + length l] *)
Lemma xor_run off (byte : nat -> option Z) l lo A Bm C :
  length A = (off + lo)%nat -> length Bm = length l -> (forall i, (i < length l)%nat -> byte (lo + i)%nat = l !! i) ->
  for_rangeM lo (lo + length l) (fun i out => o ← out !! (off + i)%nat; p ← byte i; Some (<[(off + i)%nat := Z.lxor o p]> out)) (A ++ Bm ++ C) =
  Some (A ++ xor_block16 Bm l ++ C).
Proof.
  unfold for_rangeM; replace (lo + length l - lo)%nat with (length l) by lia.
  revert lo A Bm; induction l as [|x l IH]; intros lo A Bm HA HB Hb; cbn [length seq].
  - destruct Bm; [done|discriminate].
  - destruct Bm as [|y Bm]; [discriminate|]; rewrite fold_leftM_cons; cbn [app].
    rewrite <- HA, list_lookup_middle by done; specialize (Hb 0%nat) as H0; cbn [length] in H0; rewrite Nat.add_0_r in H0.
    cbn [mbind option_bind]; rewrite H0 by lia; cbn [lookup list_lookup mbind option_bind].
    rewrite insert_app_r_alt, Nat.sub_diag by lia; cbn [insert list_insert].
    replace (A ++ Z.lxor y x :: Bm ++ C) with ((A ++ [Z.lxor y x]) ++ Bm ++ C) by (by rewrite <- app_assoc).
    rewrite (IH (S lo) (A ++ [Z.lxor y x]) Bm).
    + by rewrite <- app_assoc.
    + rewrite length_app; cbn [length]; lia.
    + by injection HB.
    + intros i Hi; specialize (Hb (S i)); cbn [length] in Hb; rewrite Nat.add_succ_comm; apply Hb; lia.
Qed.

(** [mix] with bytes [l] *)
Lemma mix_run lo hi byte l A Bm C :
  length A = lo -> (lo + length l = hi)%nat -> length Bm = length l -> (forall i, (i < length l)%nat -> byte (lo + i)%nat = l !! i) ->
  mix lo hi byte (A ++ Bm ++ C) = Some (A ++ xor_block16 Bm l ++ C).
Proof. intros HA <- HB Hb; apply (xor_run 0 byte l lo A Bm C); done. Qed.

Lemma mix_block byte mixed b : length mixed = 16%nat -> length b = 16%nat -> (forall i, (i < 16)%nat -> byte i = b !! i) ->
  mix 0 16 byte mixed = Some (xor_block16 mixed b).
Proof.
  intros Hm Hb Hbyte; assert (H := mix_run 0 16 byte b [] mixed []); cbn [app] in H; rewrite !app_nil_r in H.
  apply H; rewrite ?Hb; done.
Qed.

Lemma store_spec off src A Bm C : length A = off -> length Bm = length src -> store off src (A ++ Bm ++ C) = Some (A ++ src ++ C).
Proof.
  intros HA HB; unfold store; rewrite !length_app, (proj2 (Nat.leb_le _ _)) by lia; f_equal.
  rewrite write_at_app by done; do 2 f_equal; rewrite <- HB; apply drop_app_length.
Qed.

(** A buffer split before a block. *)
Lemma split_block (rest : list Z) : (16 <= length rest)%nat -> exists b rest', rest = b ++ rest' /\ length b = 16%nat.
Proof. intros H; exists (take 16 rest), (drop 16 rest); split; [by rewrite take_drop|rewrite length_take; lia]. Qed.

Lemma fuel_blocks n : Z.to_nat (Z.of_nat n / 16) = (n / 16)%nat.
Proof. change 16 with (Z.of_nat 16); by rewrite <- Nat2Z.inj_div, Nat2Z.id. Qed.

(** ** Encryption *)

Section Enc.
Context (E : list Z -> list Z) (HE : forall s, length s = 16%nat -> length (E s) = 16%nat).

Lemma cbc_enc_blocks prev bs : length prev = 16%nat -> Forall block16 bs -> Forall block16 (cbc_enc E prev bs).
Proof.
  intros Hp Hb; revert prev Hp; induction Hb as [|b bs Hb _ IH]; intros prev Hp; cbn [cbc_enc]; constructor.
  - apply HE; rewrite length_xor; lia.
  - apply IH, HE; rewrite length_xor; lia.
Qed.

Lemma cbc_enc_length prev bs : length (cbc_enc E prev bs) = length bs.
Proof. revert prev; induction bs as [|b bs IH]; intros prev; cbn [cbc_enc length]; [done|]; by rewrite IH. Qed.

Lemma cbc_prev_length prev bs : length prev = 16%nat -> Forall block16 bs -> length (cbc_prev E prev bs) = 16%nat.
Proof.
  intros Hp Hb; revert prev Hp; induction Hb as [|b bs Hb _ IH]; intros prev Hp; [done|]; apply IH, HE; rewrite length_xor; lia.
Qed.

(** One turn of the loop: the block [b] of the data replaces the block [o] of the buffer. *)
Lemma enc_block_spec data pre b post done o rest mixed :
  data = pre ++ b ++ post -> length b = 16%nat -> length done = length pre -> length o = 16%nat -> length mixed = 16%nat ->
  let c := E (xor_block16 mixed b) in
  enc_block E data (EncState (Z.of_nat (length pre)) mixed (length pre) (done ++ o ++ rest)) =
  Some (EncState (Z.of_nat (length pre) + 16) c (length pre + 16) (done ++ c ++ rest)).
Proof.
  intros -> Hb Hd Ho Hm c; assert (Hc : length c = 16%nat) by (apply HE; rewrite length_xor; lia).
  unfold enc_block; cbn [e_written e_mixed e_pos e_out]; rewrite (mix_block _ mixed b); [|done|done|].
  - cbn [mbind option_bind]; fold c; rewrite Nat2Z.id, store_spec by lia; cbn [mbind option_bind].
    replace (read_at (length pre) 16 (done ++ c ++ rest)) with c; [done|].
    unfold read_at; rewrite <- Hd, drop_app_length, <- Hc, take_app_length; done.
  - intros i Hi; rewrite lookup_app_r by lia; rewrite Nat.add_comm, Nat.add_sub, lookup_app_l by lia; done.
Qed.

(** The loop encrypts the blocks [bs] that follow [pre]. *)
Lemma enc_loop_spec bs fuel data pre post done rest mixed :
  data = pre ++ concat bs ++ post -> Forall block16 bs -> (length post < 16)%nat -> Z.of_nat (length data) + 16 <= int_max ->
  length done = length pre -> (length bs * 16 <= length rest)%nat -> length mixed = 16%nat -> (length bs < fuel)%nat ->
  enc_loop E fuel data (Z.of_nat (length data)) (EncState (Z.of_nat (length pre)) mixed (length pre) (done ++ rest)) =
  Some (EncState (Z.of_nat (length pre + length bs * 16)) (cbc_prev E mixed bs) (length pre + length bs * 16)
    (done ++ concat (cbc_enc E mixed bs) ++ drop (length bs * 16) rest)).
Proof.
  intros Hdata Hbs Hpost Hmax; revert fuel pre done rest mixed Hdata; induction Hbs as [|b bs Hb Hbs IH]; intros fuel pre done rest mixed Hdata Hd Hr Hm Hf;
    (destruct fuel as [|fuel]; [cbn in Hf; lia|]); cbn [enc_loop e_written length] in *.
  - assert (El : length data = (length pre + length post)%nat) by (rewrite Hdata, !length_app; cbn; lia).
    unfold AES_BLOCKSIZE; destruct (Z.ltb_spec int_max (Z.of_nat (length pre) + 16)); [lia|].
    destruct (Z.leb_spec (Z.of_nat (length pre) + 16) (Z.of_nat (length data))); [lia|].
    cbn [concat cbc_enc app]; rewrite Nat.mul_0_l, Nat.add_0_r, drop_0; done.
  - assert (El : length data = (length pre + 16 + length (concat bs) + length post)%nat) by (rewrite Hdata; cbn [concat]; rewrite !length_app; lia).
    unfold AES_BLOCKSIZE; destruct (Z.ltb_spec int_max (Z.of_nat (length pre) + 16)); [lia|].
    destruct (Z.leb_spec (Z.of_nat (length pre) + 16) (Z.of_nat (length data))); [|lia].
    destruct (split_block rest ltac:(lia)) as (o & rest' & -> & Ho).
    rewrite (enc_block_spec data pre b (concat bs ++ post)); [|by rewrite Hdata; cbn [concat]; rewrite <- app_assoc|done..]; cbn [mbind option_bind].
    set (c := E (xor_block16 mixed b)); assert (Hc : length c = 16%nat) by (apply HE; rewrite length_xor; lia).
    specialize (IH fuel (pre ++ b) (done ++ c) rest' c); rewrite !length_app, Hb, Hc in IH; rewrite <- !app_assoc in IH.
    rewrite length_app in Hr; replace (Z.of_nat (length pre) + 16) with (Z.of_nat (length pre + 16)) by lia.
    rewrite IH; [|by rewrite Hdata; cbn [concat]; rewrite <- app_assoc|lia|lia|done|lia].
    cbn [cbc_enc concat]; fold c; unfold cbc_prev; cbn [fold_left]; fold c.
    replace (length pre + 16 + length bs * 16)%nat with (length pre + S (length bs) * 16)%nat by lia.
    rewrite <- app_assoc, drop_app_ge by lia; do 6 f_equal; lia.
Qed.

(** Full blocks and the rest of a message. *)
Lemma split_message data : exists bs post, data = concat bs ++ post /\ Forall block16 bs /\ length post = (length data mod 16)%nat /\ length bs = (length data / 16)%nat.
Proof.
  pose proof (Nat.div_mod (length data) 16 ltac:(lia)) as Hd; set (n := (length data / 16)%nat) in *.
  assert (Hl : length (take (n * 16) data) = (n * 16)%nat) by (rewrite length_take; lia).
  exists (chunks 16 n (take (n * 16) data)), (drop (n * 16) data); destruct (chunks_length 16 n _ Hl); split_and!; [|done| |done].
  - by rewrite concat_chunks, take_drop.
  - rewrite length_drop; lia.
Qed.

Lemma pkcs7_blocks bs post : Forall block16 bs -> (length post < 16)%nat ->
  let last := post ++ replicate (16 - length post) (16 - Z.of_nat (length post)) in
  pkcs7 (concat bs ++ post) = concat (bs ++ [last]) /\ blocks16 (pkcs7 (concat bs ++ post)) = bs ++ [last] /\ length last = 16%nat.
Proof.
  intros Hb Hp last; assert (Hl : length last = 16%nat) by (unfold last; rewrite length_app, length_replicate; lia).
  assert (Ep : pkcs7 (concat bs ++ post) = concat (bs ++ [last])).
  { unfold pkcs7; rewrite length_app, (length_concat_uniform 16 bs Hb), Nat.add_comm, Nat.Div0.mod_add, Nat.mod_small by lia.
    rewrite concat_app; cbn [concat]; rewrite app_nil_r, <- app_assoc; unfold last; do 3 f_equal; lia. }
  split_and!; [done| |done]; rewrite Ep; apply blocks16_concat, Forall_app; split; [done|by constructor].
Qed.

(** The last block, filled up. *)
Lemma enc_pad_spec data pre post done rest mixed :
  data = pre ++ post -> (length post < 16)%nat -> length done = length pre -> (16 <= length rest)%nat -> length mixed = 16%nat ->
  Z.of_nat (length data) + 16 <= int_max ->
  let c := E (xor_block16 mixed (post ++ replicate (16 - length post) (16 - Z.of_nat (length post)))) in
  exists m p, enc_pad E data (Z.of_nat (length post)) (EncState (Z.of_nat (length pre)) mixed (length pre) (done ++ rest)) =
  Some (EncState (Z.of_nat (length pre + 16)) m p (done ++ c ++ drop 16 rest)).
Proof.
  intros -> Hp Hd Hr Hm Hmax c; rewrite length_app in Hmax; unfold enc_pad; cbn [e_written e_mixed e_pos e_out]; rewrite !Nat2Z.id.
  destruct (Z.ltb_spec (Z.of_nat (length post)) 0); [lia|].
  set (k := length post) in *; rewrite <- (take_drop k mixed); set (A := take k mixed); set (B := drop k mixed).
  assert (HA : length A = k) by (unfold A; rewrite length_take; lia).
  assert (HB : length B = (16 - k)%nat) by (unfold B; rewrite length_drop; lia).
  rewrite (mix_run 0 k _ post [] A B); [|done|done|done|intros i Hi; rewrite lookup_app_r by lia; f_equal; lia]; cbn [mbind option_bind app].
  set (A' := xor_block16 A post); assert (HA' : length A' = k) by (unfold A'; rewrite length_xor; lia).
  assert (H2 := mix_run k 16 (fun _ => Some (16 - Z.of_nat k)) (replicate (16 - k) (16 - Z.of_nat k)) A' B []); rewrite !app_nil_r in H2.
  unfold AES_BLOCKSIZE; rewrite H2; [|done|rewrite length_replicate; lia|by rewrite length_replicate|intros i Hi; rewrite length_replicate in Hi; by rewrite (lookup_replicate_2 _ _ i)].
  cbn [mbind option_bind]; destruct (split_block rest Hr) as (o & rest' & -> & Ho).
  assert (Ex : A' ++ xor_block16 B (replicate (16 - k) (16 - Z.of_nat k)) = xor_block16 mixed (post ++ replicate (16 - k) (16 - Z.of_nat k))).
  { unfold xor_block16, A'; rewrite <- (take_drop k mixed) at 1; symmetry; apply zip_with_app; exact HA. }
  rewrite Ex, store_spec; [|done|rewrite HE; [done|rewrite length_xor, length_app, length_replicate; lia]]; cbn [mbind option_bind].
  destruct (Z.ltb_spec int_max (Z.of_nat (length pre) + 16)); [lia|].
  do 2 eexists; rewrite drop_app_ge, Ho, Nat.sub_diag, drop_0 by lia.
  replace (Z.of_nat (length pre) + 16) with (Z.of_nat (length pre + 16)) by lia; reflexivity.
Qed.

Lemma CBCEncrypt_spec iv data pad out :
  length iv = 16%nat -> (0 < length data)%nat -> Z.of_nat (length data) + 16 <= int_max ->
  (length (cbc_message pad data) <= length out)%nat ->
  CBCEncrypt E iv (Some data) (Z.of_nat (length data)) pad (Some out) =
  if negb pad && negb (length data mod 16 =? 0)%nat then Some (0, Some out)
  else let c := concat (cbc_enc E iv (blocks16 (cbc_message pad data))) in Some (Z.of_nat (length c), Some (c ++ drop (length c) out)).
Proof.
  intros Hiv Hd Hmax Hout; unfold CBCEncrypt; destruct (Z.eqb_spec (Z.of_nat (length data)) 0); [lia|].
  assert (Er : Z.rem (Z.of_nat (length data)) AES_BLOCKSIZE = Z.of_nat (length data mod 16)) by (unfold AES_BLOCKSIZE; rewrite Z.rem_mod_nonneg by lia; by rewrite Nat2Z.inj_mod).
  rewrite Er; replace (Z.of_nat (length data mod 16) =? 0) with (length data mod 16 =? 0)%nat
    by (destruct (Nat.eqb_spec (length data mod 16) 0), (Z.eqb_spec (Z.of_nat (length data mod 16)) 0); (done || lia)).
  destruct (split_message data) as (bs & post & Edata & Hbs & Hpost & Hlen); pose proof (Nat.mod_upper_bound (length data) 16 ltac:(lia)).
  destruct pad; cbn [negb andb cbc_message] in *.
  - destruct (pkcs7_blocks bs post Hbs ltac:(lia)) as (_ & Eb & Hl); rewrite <- Edata in Eb; rewrite Eb, cbc_enc_app; cbn [cbc_enc].
    rewrite pkcs7_length, <- Hlen in Hout; rewrite (take_ge iv) by lia.
    rewrite (enc_loop_spec bs _ data [] post [] out iv); [|done|done|lia|done|done|lia|done|rewrite fuel_blocks, <- Hlen; lia].
    cbn [mbind option_bind length Nat.add app]; set (mid := concat (cbc_enc E iv bs)).
    assert (Hmid : length mid = (length bs * 16)%nat) by (unfold mid; rewrite (length_concat_uniform 16), cbc_enc_length by (by apply cbc_enc_blocks); done).
    assert (Hcb := length_concat_uniform 16 bs Hbs).
    destruct (enc_pad_spec data (concat bs) post mid (drop (length bs * 16) out) (cbc_prev E iv bs)) as (m & p & Hpad);
      [done|lia|by rewrite Hcb|rewrite length_drop; lia|by apply cbc_prev_length|done|].
    rewrite Hcb in Hpad; rewrite <- Hpost, Hpad; cbn [mbind option_bind e_written e_out].
    set (c := E _); assert (Hc : length c = 16%nat) by (apply HE; rewrite length_xor, cbc_prev_length by done; lia).
    rewrite concat_app; cbn [concat]; rewrite app_nil_r; fold mid c; rewrite length_app, Hmid, Hc, <- app_assoc, drop_drop; done.
  - destruct (Nat.eqb_spec (length data mod 16) 0) as [E0|]; cbn [negb]; [|done].
    destruct post; [|cbn [length] in Hpost; lia]; rewrite app_nil_r in Edata; rewrite (take_ge iv) by lia.
    rewrite (enc_loop_spec bs _ data [] [] [] out iv); [|by rewrite app_nil_r|done|cbn; lia|done|done|rewrite Edata, (length_concat_uniform 16 bs Hbs) in Hout; lia|done|rewrite fuel_blocks, <- Hlen; lia].
    cbn [mbind option_bind length Nat.add app e_written e_out]; rewrite Edata at 1 2 3; rewrite blocks16_concat by done; cbv zeta.
    rewrite (length_concat_uniform 16 (cbc_enc E iv bs)), cbc_enc_length by (by apply cbc_enc_blocks); done.
Qed.

End Enc.

(** ** Decryption *)

Lemma words_xor a b : words 8 a -> words 8 b -> words 8 (xor_block16 a b).
Proof.
  intros Ha; revert b; induction Ha as [|x a Hx _ IH]; intros b Hb; [constructor|]; destruct Hb as [|y b Hy Hb]; [constructor|].
  constructor; [by apply lxor_word|by apply IH].
Qed.

Section Dec.
Context (D : list Z -> list Z) (HD : forall s, length s = 16%nat -> length (D s) = 16%nat /\ words 8 (D s)).

Lemma cbc_dec_blocks prev bs : length prev = 16%nat -> words 8 prev -> Forall block16 bs -> Forall (words 8) bs ->
  Forall block16 (cbc_dec D prev bs) /\ words 8 (concat (cbc_dec D prev bs)).
Proof.
  intros Hp Hw Hb Hbw; revert prev Hp Hw; induction Hb as [|b bs Hb _ IH]; intros prev Hp Hw; cbn [cbc_dec concat]; [split; constructor|].
  inversion Hbw as [|? ? Hb8 Hbs8]; subst; destruct (HD b Hb) as [Hl Hd]; destruct (IH Hbs8 b Hb Hb8); split.
  - constructor; [rewrite length_xor; lia|done].
  - apply Forall_app; split; [by apply words_xor|done].
Qed.

Lemma cbc_dec_length prev bs : length (cbc_dec D prev bs) = length bs.
Proof. revert prev; induction bs as [|b bs IH]; intros prev; cbn [cbc_dec length]; [done|]; by rewrite IH. Qed.

Lemma dec_block_spec data pre c post done o rest prev :
  data = pre ++ c ++ post -> length c = 16%nat -> length done = length pre -> length o = 16%nat -> length prev = 16%nat ->
  dec_block D data (DecState (Z.of_nat (length pre)) prev (done ++ o ++ rest)) =
  Some (DecState (Z.of_nat (length pre) + 16) c (done ++ xor_block16 (D c) prev ++ rest)).
Proof.
  intros -> Hc Hd Ho Hp; destruct (HD c Hc) as [HDl _]; unfold dec_block; cbn [d_written d_prev d_out]; rewrite Nat2Z.id, !length_app, (proj2 (Nat.leb_le _ _)) by lia.
  assert (Er : read_at (length pre) 16 (pre ++ c ++ post) = c) by (unfold read_at; rewrite drop_app_length, <- Hc, take_app_length; done).
  rewrite Er, store_spec by lia; cbn [mbind option_bind].
  assert (H := xor_run (length pre) (fun i => prev !! i) prev 0 done (D c) rest); rewrite Hp in H; cbn [Nat.add] in H.
  rewrite H; [done|lia|lia|done].
Qed.

Lemma dec_loop_spec bs fuel data pre done rest prev :
  data = pre ++ concat bs -> Forall block16 bs -> length done = length pre -> (length bs * 16 <= length rest)%nat -> length prev = 16%nat -> (length bs < fuel)%nat ->
  exists prev', dec_loop D fuel data (Z.of_nat (length data)) (DecState (Z.of_nat (length pre)) prev (done ++ rest)) =
  Some (DecState (Z.of_nat (length data)) prev' (done ++ concat (cbc_dec D prev bs) ++ drop (length bs * 16) rest)).
Proof.
  intros Hdata Hbs; revert fuel pre done rest prev Hdata; induction Hbs as [|c bs Hc Hbs IH]; intros fuel pre done rest prev Hdata Hd Hr Hp Hf;
    (destruct fuel as [|fuel]; [cbn in Hf; lia|]); cbn [dec_loop d_written length] in *.
  - assert (El : length data = length pre) by (rewrite Hdata; cbn; by rewrite app_nil_r); rewrite El, Z.eqb_refl.
    cbn [cbc_dec concat app]; rewrite Nat.mul_0_l, drop_0; by eexists.
  - assert (El : length data = (length pre + 16 + length (concat bs))%nat) by (rewrite Hdata; cbn [concat]; rewrite !length_app; lia).
    destruct (Z.eqb_spec (Z.of_nat (length pre)) (Z.of_nat (length data))); [lia|].
    destruct (split_block rest ltac:(lia)) as (o & rest' & -> & Ho); rewrite length_app in Hr.
    rewrite (dec_block_spec data pre c (concat bs)); [|done..]; cbn [mbind option_bind].
    set (x := xor_block16 (D c) prev); assert (Hx : length x = 16%nat) by (unfold x; rewrite length_xor; destruct (HD c Hc); lia).
    destruct (IH fuel (pre ++ c) (done ++ x) rest' c) as (prev' & H); [by rewrite Hdata; cbn [concat]; rewrite <- app_assoc|rewrite !length_app; lia|lia|done|lia|].
    rewrite length_app, Hc, <- app_assoc in H; replace (Z.of_nat (length pre + 16)) with (Z.of_nat (length pre) + 16) in H by lia.
    exists prev'; rewrite H; cbn [cbc_dec concat]; fold x; rewrite <- !app_assoc, drop_app_ge by lia; do 6 f_equal; lia.
Qed.

End Dec.

(** The check of the padding finds what PKCS #7 says. *)
Lemma pad_loop out pos p fail : (16 <= pos)%nat -> (pos <= length out)%nat ->
  for_rangeM 0 16 (fun k fail =>
    let i := AES_BLOCKSIZE - Z.of_nat k in
    o ← (if (pos <? k + 1)%nat then @None Z else out !! (pos - (k + 1))%nat);
    Some (fail || ((AES_BLOCKSIZE - p <? i) && negb (o =? p)))) fail =
  Some (fail || existsb (fun k => (Z.of_nat k <? p) && negb (out !!! (pos - (k + 1))%nat =? p)) (seq 0 16)).
Proof.
  intros H16 Hpos; destruct (for_rangeM_total (fun n f => f = fail || existsb (fun k => (Z.of_nat k <? p) && negb (out !!! (pos - (k + 1))%nat =? p)) (seq 0 n)) 0 16
    (fun k fail => let i := AES_BLOCKSIZE - Z.of_nat k in o ← (if (pos <? k + 1)%nat then @None Z else out !! (pos - (k + 1))%nat); Some (fail || ((AES_BLOCKSIZE - p <? i) && negb (o =? p)))) fail)
    as (f & E & ->); [lia|by rewrite orb_false_r| |exact E].
  intros k f Hk ->; destruct (Nat.ltb_spec pos (k + 1)); [lia|]; rewrite (list_lookup_lookup_total_lt out) by lia; cbn [mbind option_bind].
  eexists; split; [reflexivity|]; rewrite seq_app, existsb_app; cbn [existsb seq Nat.add]; rewrite orb_false_r, orb_assoc; f_equal; f_equal.
  unfold AES_BLOCKSIZE; lia.
Qed.

Lemma pad_bytes p rest k : 1 <= k <= 16 -> (16 <= length p)%nat ->
  existsb (fun j => (Z.of_nat j <? k) && negb ((p ++ rest) !!! (length p - (j + 1))%nat =? k)) (seq 0 16) =
  negb (forallb (fun b => b =? k) (drop (length p - Z.to_nat k) p)).
Proof.
  intros Hk Hl; destruct (existsb _ _) eqn:X; symmetry; [apply negb_true_iff, not_true_iff_false|apply negb_false_iff].
  - intros F; rewrite forallb_forall in F; apply existsb_exists in X as (j & Hj & Hc); apply in_seq in Hj.
    apply andb_true_iff in Hc as [Hjk Hne]; apply Z.ltb_lt in Hjk; apply negb_true_iff in Hne.
    rewrite lookup_total_app_l in Hne by lia; rewrite F in Hne; [done|].
    apply list_elem_of_In, list_elem_of_lookup; exists (Z.to_nat k - (j + 1))%nat.
    rewrite lookup_drop; rewrite <- list_lookup_lookup_total_lt by lia; f_equal; lia.
  - apply not_true_iff_false in X; apply forallb_forall; intros x Hx; destruct (Z.eqb_spec x k) as [|Hne]; [done|]; exfalso; apply X, existsb_exists.
    apply list_elem_of_In, list_elem_of_lookup in Hx as (i & Hi); rewrite lookup_drop in Hi; assert (Hb := lookup_lt_Some _ _ _ Hi).
    set (n := (length p - Z.to_nat k + i)%nat) in *; exists (length p - 1 - n)%nat; split; [apply in_seq; lia|].
    apply andb_true_iff; split; [apply Z.ltb_lt; lia|].
    replace (length p - (length p - 1 - n + 1))%nat with n by lia; rewrite lookup_total_app_l by lia.
    rewrite (list_lookup_total_correct _ _ _ Hi); apply negb_true_iff; by apply Z.eqb_neq.
Qed.

Lemma dec_pad_spec p rest : (16 <= length p)%nat -> words 8 p ->
  exists k fail, dec_pad (p ++ rest) (length p) = Some (k, fail) /\
    match unpad p with
    | Some m => fail = false /\ k = Z.of_nat (length p) - Z.of_nat (length m)
    | None => fail = true
    end.
Proof.
  intros Hl Hw; unfold dec_pad, unpad; destruct (Nat.eqb_spec (length p) 0); [lia|].
  rewrite lookup_app_l, (list_lookup_lookup_total_lt p) by lia; cbn [mbind option_bind]; set (k := p !!! (length p - 1)%nat).
  assert (Hk : word 8 k) by (apply words_lookup; [done|lia]); rewrite pad_loop by (rewrite ?length_app; lia); cbn [mbind option_bind].
  do 2 eexists; split; [reflexivity|]; unfold AES_BLOCKSIZE, word in *.
  destruct (Z.eqb_spec k 0), (Z.ltb_spec 16 k), (Z.leb_spec 1 k), (Z.leb_spec k 16); cbn [orb andb]; try lia; try done.
  rewrite pad_bytes by lia; destruct (forallb _ _); cbn [negb]; [|done]; split; [done|]; rewrite length_take; lia.
Qed.

Lemma CBCDecrypt_spec D iv data pad out :
  (forall s, length s = 16%nat -> length (D s) = 16%nat /\ words 8 (D s)) -> length iv = 16%nat -> words 8 iv -> words 8 data ->
  (0 < length data)%nat -> (length data <= length out)%nat ->
  CBCDecrypt D iv (Some data) (Z.of_nat (length data)) pad (Some out) =
  if negb (length data mod 16 =? 0)%nat then Some (0, Some out)
  else
    let p := concat (cbc_dec D iv (blocks16 data)) in
    Some (if pad then match unpad p with Some m => Z.of_nat (length m) | None => 0 end else Z.of_nat (length p),
          Some (p ++ drop (length p) out)).
Proof.
  intros HD Hiv Hivw Hdw Hd Hout; unfold CBCDecrypt; destruct (Z.eqb_spec (Z.of_nat (length data)) 0); [lia|].
  assert (Er : Z.rem (Z.of_nat (length data)) AES_BLOCKSIZE = Z.of_nat (length data mod 16)) by (unfold AES_BLOCKSIZE; rewrite Z.rem_mod_nonneg by lia; by rewrite Nat2Z.inj_mod).
  rewrite Er; replace (Z.of_nat (length data mod 16) =? 0) with (length data mod 16 =? 0)%nat
    by (destruct (Nat.eqb_spec (length data mod 16) 0), (Z.eqb_spec (Z.of_nat (length data mod 16)) 0); (done || lia)).
  destruct (Nat.eqb_spec (length data mod 16) 0) as [E0|]; cbn [negb]; [|done].
  destruct (blocks16_all data E0) as (Hbs & Hcat & Hlen); set (bs := blocks16 data) in *; rewrite (take_ge iv) by lia.
  assert (Hl : length data = (length bs * 16)%nat) by (rewrite <- Hcat; by apply length_concat_uniform).
  assert (Hbw : Forall (words 8) bs) by (by apply chunks_bytes).
  destruct (cbc_dec_blocks D HD iv bs Hiv Hivw Hbs Hbw) as [Hpb Hpw]; set (p := concat (cbc_dec D iv bs)) in *.
  assert (Hp : length p = length data) by (unfold p; rewrite (length_concat_uniform 16), cbc_dec_length by done; lia).
  destruct (dec_loop_spec D HD bs (S (Z.to_nat (Z.of_nat (length data) / 16))) data [] [] out iv) as (prev & H);
    [by rewrite Hcat|done|done|lia|done|rewrite fuel_blocks, <- Hlen; lia|]; cbn [length app] in H; change (Z.of_nat 0) with 0 in H.
  rewrite H; cbn [mbind option_bind d_written d_out]; fold p; rewrite <- Hl; cbv zeta; rewrite <- Hp.
  destruct pad; [|done]; rewrite Nat2Z.id; destruct (dec_pad_spec p (drop (length p) out)) as (k & fail & -> & Hu); [lia|done|].
  cbn [mbind option_bind]; destruct (unpad p) as [m|]; [destruct Hu as [-> ->]; do 2 f_equal; lia|by rewrite Hu].
Qed.

(** ** Decryption undoes encryption *)

Lemma cbc_dec_enc E D prev bs :
  (forall s, length s = 16%nat -> words 8 s -> length (E s) = 16%nat /\ words 8 (E s) /\ D (E s) = s) ->
  length prev = 16%nat -> words 8 prev -> Forall block16 bs -> Forall (words 8) bs ->
  cbc_dec D prev (cbc_enc E prev bs) = bs.
Proof.
  intros HED Hp Hpw Hb Hbw; revert prev Hp Hpw; induction Hb as [|b bs Hb _ IH]; intros prev Hp Hpw; cbn [cbc_enc cbc_dec]; [done|].
  inversion Hbw as [|? ? Hb8 Hbs8]; subst; assert (Hx : length (xor_block16 prev b) = 16%nat) by (rewrite length_xor; lia).
  destruct (HED (xor_block16 prev b) Hx ltac:(by apply words_xor)) as (Hl & Hw & ->).
  rewrite IH, xor_cancel by (done || lia); done.
Qed.

Lemma cbc_enc_words E prev bs :
  (forall s, length s = 16%nat -> words 8 s -> length (E s) = 16%nat /\ words 8 (E s)) ->
  length prev = 16%nat -> words 8 prev -> Forall block16 bs -> Forall (words 8) bs -> words 8 (concat (cbc_enc E prev bs)).
Proof.
  intros HE Hp Hpw Hb Hbw; revert prev Hp Hpw; induction Hb as [|b bs Hb _ IH]; intros prev Hp Hpw; cbn [cbc_enc concat]; [constructor|].
  inversion Hbw as [|? ? Hb8 Hbs8]; subst; destruct (HE (xor_block16 prev b)) as (Hl & Hw); [rewrite length_xor; lia|by apply words_xor|].
  apply Forall_app; split; [done|by apply IH].
Qed.

(** ** The four classes *)

Inductive cbc_variant := CBC128 | CBC256.

Definition cbc_aes (v : cbc_variant) : aes_variant := match v with CBC128 => AES128 | CBC256 => AES256 end.
Definition cbc_keysize (v : cbc_variant) : nat := match v with CBC128 => 16 | CBC256 => 32 end.

(** An object is made and used once. *)
Definition cbc_encrypt (v : cbc_variant) (key iv : list Z) (pad : bool) (data : option (list Z)) (size : Z) (out : option (list Z)) : option (Z * option (list Z)) :=
  match v with
  | CBC128 => AES128CBCEncrypt_Encrypt (new_AES128CBCEncrypt key iv pad) data size out
  | CBC256 => AES256CBCEncrypt_Encrypt (new_AES256CBCEncrypt key iv pad) data size out
  end.
Definition cbc_decrypt (v : cbc_variant) (key iv : list Z) (pad : bool) (data : option (list Z)) (size : Z) (out : option (list Z)) : option (Z * option (list Z)) :=
  match v with
  | CBC128 => AES128CBCDecrypt_Decrypt (new_AES128CBCDecrypt key iv pad) data size out
  | CBC256 => AES256CBCDecrypt_Decrypt (new_AES256CBCDecrypt key iv pad) data size out
  end.

(** The cipher of FIPS 197 under a key *)
Definition fips_encrypt (v : cbc_variant) (key : list Z) : list Z -> list Z := Fips197.encrypt (nkeywords (cbc_aes v)) (nrounds (cbc_aes v)) key.
Definition fips_decrypt (v : cbc_variant) (key : list Z) : list Z -> list Z := Fips197.decrypt (nkeywords (cbc_aes v)) (nrounds (cbc_aes v)) key.

(** The functions of the block classes *)
Definition code_encrypt (v : cbc_variant) (key : list Z) : list Z -> list Z :=
  match v with CBC128 => AES128Encrypt_Encrypt (new_AES128Encrypt key) | CBC256 => AES256Encrypt_Encrypt (new_AES256Encrypt key) end.
Definition code_decrypt (v : cbc_variant) (key : list Z) : list Z -> list Z :=
  match v with CBC128 => AES128Decrypt_Decrypt (new_AES128Decrypt key) | CBC256 => AES256Decrypt_Decrypt (new_AES256Decrypt key) end.

(** ** Lemmas *)

#[local] Opaque AES_setup AES_encrypt AES_decrypt Fips197.encrypt Fips197.decrypt.

Lemma cbc_encrypt_eq v key iv pad data size out : cbc_encrypt v key iv pad data size out = CBCEncrypt (code_encrypt v key) (take 16 iv) data size pad out.
Proof. by destruct v. Qed.

Lemma cbc_decrypt_eq v key iv pad data size out : cbc_decrypt v key iv pad data size out = CBCDecrypt (code_decrypt v key) (take 16 iv) data size pad out.
Proof. by destruct v. Qed.

Lemma code_encrypt_eq v key s : length s = 16%nat -> code_encrypt v key s = AES_encrypt (aes_init (cbc_aes v) key) (nrounds (cbc_aes v)) s.
Proof.
  intros Hs; rewrite <- (take_ge s 16) at 2 by lia.
  destruct v; cbn [code_encrypt]; unfold AES128Encrypt_Encrypt, AES256Encrypt_Encrypt, AES128_encrypt, AES256_encrypt; cbn [AES_blocks]; apply app_nil_r.
Qed.

Lemma code_decrypt_eq v key s : length s = 16%nat -> code_decrypt v key s = AES_decrypt (aes_init (cbc_aes v) key) (nrounds (cbc_aes v)) s.
Proof.
  intros Hs; rewrite <- (take_ge s 16) at 2 by lia.
  destruct v; cbn [code_decrypt]; unfold AES128Decrypt_Decrypt, AES256Decrypt_Decrypt, AES128_decrypt, AES256_decrypt; cbn [AES_blocks]; apply app_nil_r.
Qed.

(** A mode depends on the cipher on blocks of bytes only. *)
Lemma cbc_enc_ext E E' prev bs :
  (forall s, length s = 16%nat -> words 8 s -> E s = E' s /\ length (E s) = 16%nat /\ words 8 (E s)) ->
  length prev = 16%nat -> words 8 prev -> Forall block16 bs -> Forall (words 8) bs -> cbc_enc E prev bs = cbc_enc E' prev bs.
Proof.
  intros HE Hp Hpw Hb Hbw; revert prev Hp Hpw; induction Hb as [|b bs Hb _ IH]; intros prev Hp Hpw; cbn [cbc_enc]; [done|].
  inversion Hbw as [|? ? Hb8 Hbs8]; subst; destruct (HE (xor_block16 prev b)) as (<- & Hl & Hw); [rewrite length_xor; lia|by apply words_xor|].
  by rewrite IH.
Qed.

Lemma cbc_dec_ext D D' prev bs :
  (forall s, length s = 16%nat -> words 8 s -> D s = D' s) -> Forall block16 bs -> Forall (words 8) bs -> cbc_dec D prev bs = cbc_dec D' prev bs.
Proof.
  intros HD Hb Hbw; revert prev; induction Hb as [|b bs Hb _ IH]; intros prev; cbn [cbc_dec]; [done|].
  inversion Hbw; subst; rewrite HD, IH by done; done.
Qed.

Section Key.
Context (v : cbc_variant) (key : list Z) (Hkey : words 8 key) (Hklen : length key = cbc_keysize v).

Lemma key_length : length key = (4 * nkeywords (cbc_aes v))%nat.
Proof. rewrite Hklen; by destruct v. Qed.

Lemma code_encrypt_block s : length s = 16%nat -> words 8 s ->
  code_encrypt v key s = fips_encrypt v key s /\ length (code_encrypt v key s) = 16%nat /\ words 8 (code_encrypt v key s).
Proof.
  intros Hs Hw; rewrite code_encrypt_eq by done; split; [apply encrypt_block; [done|apply key_length|done]|].
  apply (decrypt_encrypt_block (cbc_aes v) key s Hkey key_length); done.
Qed.

Lemma code_encrypt_length s : length s = 16%nat -> length (code_encrypt v key s) = 16%nat.
Proof. intros Hs; rewrite code_encrypt_eq by done; apply CtaesProofs.SaveBytes_ok. Qed.

Lemma code_decrypt_block s : length s = 16%nat -> length (code_decrypt v key s) = 16%nat /\ words 8 (code_decrypt v key s).
Proof. intros Hs; rewrite code_decrypt_eq by done; apply CtaesProofs.SaveBytes_ok. Qed.

Lemma code_decrypt_fips s : length s = 16%nat -> words 8 s -> code_decrypt v key s = fips_decrypt v key s.
Proof. intros Hs Hw; rewrite code_decrypt_eq by done; apply decrypt_block; [done|apply key_length|done]. Qed.

Lemma code_inverse s : length s = 16%nat -> words 8 s ->
  length (code_encrypt v key s) = 16%nat /\ words 8 (code_encrypt v key s) /\ code_decrypt v key (code_encrypt v key s) = s.
Proof.
  intros Hs Hw; destruct (code_encrypt_block s Hs Hw) as (_ & Hl & Hw2); split_and!; [done|done|].
  rewrite code_decrypt_eq, code_encrypt_eq by done; apply decrypt_encrypt_block; [done|apply key_length|done].
Qed.

End Key.

Lemma message_bytes pad data : words 8 data -> words 8 (cbc_message pad data).
Proof.
  intros Hd; destruct pad; [|done]; cbn [cbc_message]; unfold pkcs7; apply Forall_app; split; [done|].
  pose proof (Nat.mod_upper_bound (length data) 16 ltac:(lia)); apply Forall_replicate; unfold word; lia.
Qed.

Lemma message_blocks pad data : pad = true \/ (length data mod 16 = 0)%nat -> (length (cbc_message pad data) mod 16 = 0)%nat.
Proof. intros [->|H]; [|destruct pad; [|done]]; cbn [cbc_message]; rewrite pkcs7_length; apply Nat.Div0.mod_mul. Qed.

(** The ciphertext of a message, for the lemmas that combine both directions. *)
Lemma encrypt_cbc v key iv pad data out :
  words 8 key -> length key = cbc_keysize v -> words 8 iv -> length iv = 16%nat -> words 8 data -> (0 < length data)%nat ->
  Z.of_nat (length data) + 16 <= int_max -> (length (cbc_message pad data) <= length out)%nat ->
  cbc_encrypt v key iv pad (Some data) (Z.of_nat (length data)) (Some out) =
  if pad || (length data mod 16 =? 0)%nat then
    let c := concat (cbc_enc (code_encrypt v key) iv (blocks16 (cbc_message pad data))) in Some (Z.of_nat (length c), Some (c ++ drop (length c) out))
  else Some (0, Some out).
Proof.
  intros Hk Hkl Hiv Hivl Hd Hd0 Hmax Hout; rewrite cbc_encrypt_eq, take_ge by lia.
  rewrite (CBCEncrypt_spec (code_encrypt v key)); [|intros; by apply code_encrypt_length|done..].
  destruct pad, (length data mod 16 =? 0)%nat; done.
Qed.

(** The ciphertext consists of blocks of bytes, and decrypts to the message. *)
Lemma ciphertext_blocks v key iv pad data :
  words 8 key -> length key = cbc_keysize v -> words 8 iv -> length iv = 16%nat -> words 8 data -> pad = true \/ (length data mod 16 = 0)%nat ->
  let c := concat (cbc_enc (code_encrypt v key) iv (blocks16 (cbc_message pad data))) in
  words 8 c /\ length c = length (cbc_message pad data) /\ (length c mod 16 = 0)%nat /\
  concat (cbc_dec (code_decrypt v key) iv (blocks16 c)) = cbc_message pad data.
Proof.
  intros Hk Hkl Hiv Hivl Hd Hpad c; assert (Hm := message_blocks pad data Hpad); destruct (blocks16_all _ Hm) as (Hbs & Hcat & Hlen).
  assert (Hbw : Forall (words 8) (blocks16 (cbc_message pad data))) by (apply chunks_bytes; by apply message_bytes).
  assert (Hcb := cbc_enc_blocks (code_encrypt v key) (code_encrypt_length v key) iv _ Hivl Hbs).
  assert (Hl : length c = length (cbc_message pad data)).
  { unfold c; rewrite (length_concat_uniform 16), cbc_enc_length by done; rewrite <- Hcat at 2; symmetry; by apply length_concat_uniform. }
  split_and!; [|done|by rewrite Hl|].
  - apply cbc_enc_words; [|done..]; intros s Hs Hw; by apply (code_encrypt_block v key Hk Hkl).
  - unfold c; rewrite blocks16_concat by done; rewrite (cbc_dec_enc (code_encrypt v key)); [done| |done..].
    intros s Hs Hw; by apply code_inverse.
Qed.

(** The ciphertext of a message *)
Definition ciphertext (v : cbc_variant) (key iv : list Z) (pad : bool) (data : list Z) : list Z :=
  concat (cbc_enc (code_encrypt v key) iv (blocks16 (cbc_message pad data))).

Lemma roundtrip_cbc v key iv pad data out out' :
  words 8 key -> length key = cbc_keysize v -> words 8 iv -> length iv = 16%nat -> words 8 data -> (0 < length data)%nat ->
  Z.of_nat (length data) + 16 <= int_max -> pad = true \/ (length data mod 16 = 0)%nat ->
  (length (cbc_message pad data) <= length out)%nat -> (length (cbc_message pad data) <= length out')%nat ->
  let c := ciphertext v key iv pad data in
  cbc_encrypt v key iv pad (Some data) (Z.of_nat (length data)) (Some out) = Some (Z.of_nat (length c), Some (c ++ drop (length c) out)) /\
  cbc_decrypt v key iv pad (Some c) (Z.of_nat (length c)) (Some out') =
  Some (Z.of_nat (length data), Some (cbc_message pad data ++ drop (length (cbc_message pad data)) out')).
Proof.
  intros Hk Hkl Hiv Hivl Hd Hd0 Hmax Hpad Hout Hout'.
  destruct (ciphertext_blocks v key iv pad data Hk Hkl Hiv Hivl Hd Hpad) as (Hcw & Hcl & Hc16 & Hdec); fold (ciphertext v key iv pad data) in *; intros c; fold c in Hcw, Hcl, Hc16, Hdec.
  assert (Hm0 : (0 < length (cbc_message pad data))%nat) by (destruct pad; cbn [cbc_message]; rewrite ?pkcs7_length; lia).
  split.
  - rewrite encrypt_cbc by done; replace (pad || _) with true; [done|]; destruct Hpad as [->|H]; [done|]; by rewrite H, orb_true_r.
  - rewrite cbc_decrypt_eq, take_ge by lia; rewrite CBCDecrypt_spec; [|intros; by apply code_decrypt_block|done|done|done|lia|lia].
    rewrite Hc16; cbn [Nat.eqb negb]; rewrite Hdec; cbv zeta; do 2 f_equal; destruct pad; cbn [cbc_message]; [by rewrite unpad_pkcs7|done].
Qed.

(** ** Theorems *)

(** [Encrypt] of the CBC classes, for AES-128 and AES-256.
    With room for the result in the buffer and a size that leaves space for a
    block in an [int], the function writes the CBC encryption, by the cipher of
    FIPS 197, of the message with the padding of PKCS #7 (or of the message
    itself) and nothing else, and returns its length; without padding it refuses
    messages that are not made of blocks. *)
Theorem cbc_encrypt_correct v key iv pad data out :
  words 8 key -> length key = cbc_keysize v -> words 8 iv -> length iv = 16%nat -> words 8 data -> (0 < length data)%nat ->
  Z.of_nat (length data) + 16 <= int_max -> (length (cbc_message pad data) <= length out)%nat ->
  cbc_encrypt v key iv pad (Some data) (Z.of_nat (length data)) (Some out) =
  if pad || (length data mod 16 =? 0)%nat then
    let c := concat (cbc_enc (fips_encrypt v key) iv (blocks16 (cbc_message pad data))) in Some (Z.of_nat (length c), Some (c ++ drop (length c) out))
  else Some (0, Some out).
Proof.
  intros Hk Hkl Hiv Hivl Hd Hd0 Hmax Hout; rewrite encrypt_cbc by done; destruct (pad || _) eqn:Ep; [|done].
  assert (Hm : (length (cbc_message pad data) mod 16 = 0)%nat).
  { apply message_blocks; apply orb_true_iff in Ep as [->|H]; [by left|right; by apply Nat.eqb_eq]. }
  destruct (blocks16_all _ Hm) as (Hbs & _ & _); rewrite (cbc_enc_ext _ (fips_encrypt v key)); [done| |done..|].
  - intros; by apply code_encrypt_block.
  - apply chunks_bytes; by apply message_bytes.
Qed.

Lemma cbc_encrypt_correct_witness :
  cbc_encrypt CBC256 hex_key (replicate 16 1) true (Some [1; 2; 3]) 3 (Some (replicate 20 0)) =
  (let c := concat (cbc_enc (fips_encrypt CBC256 hex_key) (replicate 16 1) (blocks16 (pkcs7 [1; 2; 3]))) in Some (Z.of_nat (length c), Some (c ++ drop (length c) (replicate 20 0)))).
Proof.
  apply (cbc_encrypt_correct CBC256 hex_key (replicate 16 1) true [1; 2; 3] (replicate 20 0)).
  - apply wordsb_spec; reflexivity.
  - reflexivity.
  - apply wordsb_spec; reflexivity.
  - reflexivity.
  - apply wordsb_spec; reflexivity.
  - simpl; lia.
  - vm_compute; discriminate.
  - vm_compute; lia.
Defined.

(** C37 (error): [Decrypt] of the CBC classes.  A message made of blocks is
    decrypted into the buffer; with padding the value returned is the length of
    what is left when PKCS #7 padding is taken off, and 0 when there is no valid
    padding; a message that is not made of blocks gives 0.  A null pointer or a
    size of 0 gives 0, for encryption too, and leaves the buffer alone. *)
Theorem cbc_decrypt_correct v key iv pad data out :
  words 8 key -> length key = cbc_keysize v -> words 8 iv -> length iv = 16%nat -> words 8 data -> (0 < length data)%nat ->
  (length data <= length out)%nat ->
  cbc_decrypt v key iv pad (Some data) (Z.of_nat (length data)) (Some out) =
    (if (length data mod 16 =? 0)%nat then
       let p := concat (cbc_dec (fips_decrypt v key) iv (blocks16 data)) in
       Some (if pad then match unpad p with Some m => Z.of_nat (length m) | None => 0 end else Z.of_nat (length p),
             Some (p ++ drop (length p) out))
     else Some (0, Some out)) /\
  (forall d size o, d = None \/ size = 0 \/ o = None -> cbc_decrypt v key iv pad d size o = Some (0, o) /\ cbc_encrypt v key iv pad d size o = Some (0, o)).
Proof.
  intros Hk Hkl Hiv Hivl Hd Hd0 Hout; split.
  - rewrite cbc_decrypt_eq, take_ge by lia; rewrite CBCDecrypt_spec; [|intros; by apply code_decrypt_block|done..].
    destruct (Nat.eqb_spec (length data mod 16) 0) as [E0|]; cbn [negb]; [|done]; destruct (blocks16_all data E0) as (Hbs & _ & _).
    rewrite (cbc_dec_ext _ (fips_decrypt v key)); [done| |done|by apply chunks_bytes].
    intros; by apply code_decrypt_fips.
  - intros d size o H; rewrite cbc_decrypt_eq, cbc_encrypt_eq; unfold CBCDecrypt, CBCEncrypt.
    destruct H as [->|[->| ->]]; [done|destruct d, o; done|destruct d; done].
Qed.

Lemma cbc_decrypt_correct_witness :
  cbc_decrypt CBC128 (take 16 hex_key) (replicate 16 1) true (Some hex_plain) 16 (Some (replicate 16 0)) =
  (let p := concat (cbc_dec (fips_decrypt CBC128 (take 16 hex_key)) (replicate 16 1) (blocks16 hex_plain)) in
   Some (match unpad p with Some m => Z.of_nat (length m) | None => 0 end, Some (p ++ drop (length p) (replicate 16 0)))).
Proof.
  refine (proj1 (cbc_decrypt_correct CBC128 (take 16 hex_key) (replicate 16 1) true hex_plain (replicate 16 0) _ _ _ _ _ _ _)).
  - apply wordsb_spec; reflexivity.
  - reflexivity.
  - apply wordsb_spec; reflexivity.
  - reflexivity.
  - apply wordsb_spec; reflexivity.
  - vm_compute; lia.
  - vm_compute; lia.
Defined.

(** What the encryption classes write is decrypted to the
    message by the decryption classes with the same key, vector and padding,
    whatever was in the two buffers. *)
Theorem cbc_roundtrip v key iv pad data out out' :
  words 8 key -> length key = cbc_keysize v -> words 8 iv -> length iv = 16%nat -> words 8 data -> (0 < length data)%nat ->
  Z.of_nat (length data) + 16 <= int_max -> pad = true \/ (length data mod 16 = 0)%nat ->
  (length (cbc_message pad data) <= length out)%nat -> (length (cbc_message pad data) <= length out')%nat ->
  exists c, cbc_encrypt v key iv pad (Some data) (Z.of_nat (length data)) (Some out) = Some (Z.of_nat (length c), Some (c ++ drop (length c) out)) /\
    cbc_decrypt v key iv pad (Some c) (Z.of_nat (length c)) (Some out') =
    Some (Z.of_nat (length data), Some (cbc_message pad data ++ drop (length (cbc_message pad data)) out')).
Proof.
  intros; exists (ciphertext v key iv pad data); by apply roundtrip_cbc.
Qed.

Lemma cbc_roundtrip_witness :
  exists c, cbc_encrypt CBC256 hex_key (replicate 16 1) true (Some hex_plain) 16 (Some (replicate 40 0)) = Some (Z.of_nat (length c), Some (c ++ drop (length c) (replicate 40 0))) /\
    cbc_decrypt CBC256 hex_key (replicate 16 1) true (Some c) (Z.of_nat (length c)) (Some (replicate 32 9)) =
    Some (16, Some (pkcs7 hex_plain ++ drop (length (pkcs7 hex_plain)) (replicate 32 9))).
Proof.
  apply (cbc_roundtrip CBC256 hex_key (replicate 16 1) true hex_plain (replicate 40 0) (replicate 32 9)).
  - apply wordsb_spec; reflexivity.
  - reflexivity.
  - apply wordsb_spec; reflexivity.
  - reflexivity.
  - apply wordsb_spec; reflexivity.
  - vm_compute; lia.
  - vm_compute; discriminate.
  - left; reflexivity.
  - vm_compute; lia.
  - vm_compute; lia.
Defined.
