(* ===== verification/Crypter.v ===== *)
(** wallet/crypter.cpp, class CCrypter: keys from passphrases and the encryption
    of secrets with AES-256 in CBC mode.

    A vector is the list of its bytes.  The functions return their result and the
    objects they change; [None] is undefined behaviour (see AesCbc, and a loop
    whose counter overflows) or the exception of a resize to a negative size.  [ubuf] is the buffer of the local CSHA512. *)

From S2P Require Import Prelude MdHash Sha2 AesCbc.

Definition WALLET_CRYPTO_KEY_SIZE : nat := 32.
Definition WALLET_CRYPTO_SALT_SIZE : nat := 8.
Definition WALLET_CRYPTO_IV_SIZE : nat := 16.

Record CCrypter := Crypter { vchKey : list Z; vchIV : list Z; fKeySet : bool }.

(** The constructor: new elements of a vector are zero. *)
Definition new_CCrypter : CCrypter := Crypter (replicate 32 0) (replicate 16 0) false.

(** [CleanKey()] *)
Definition CleanKey (c : CCrypter) : CCrypter :=
  Crypter (replicate (length c.(vchKey)) 0) (replicate (length c.(vchIV)) 0) false.

(** [v.resize(n)] *)
Definition resize (n : nat) (v : list Z) : list Z := take n v ++ replicate (n - length v) 0.

(** The conversion of a size to [int] *)
Definition to_int (n : Z) : Z := if u32 n <? 2 ^ 31 then u32 n else u32 n - 2 ^ 32.

(** [di.Reset().Write(buf, sizeof(buf)).Finalize(buf)] *)
Definition rehash (st : list Z * hasher) : list Z * hasher :=
  let '(buf, di) := st in Finalize (M := CSHA512) (Write (M := CSHA512) (md_Reset (M := CSHA512) di) buf).

(** The return value, [key] and [iv]; neither pointer is null.  The loop
    [for (int i = 0; i != count - 1; i++)] ends only for a positive [count]. *)
Definition BytesToKeySHA512AES (ubuf chSalt strKeyData : list Z) (count : Z) (key iv : list Z) : option (Z * list Z * list Z) :=
  if count =? 0 then Some (0, key, iv)
  else
    let di := new_hasher (M := CSHA512) ubuf in
    let di := Write (M := CSHA512) di strKeyData in
    let di := if (0 <? length chSalt)%nat then Write (M := CSHA512) di chSalt else di in
    let '(buf, di) := Finalize (M := CSHA512) di in
    if count <? 0 then None
    else
      let '(buf, _) := Nat.iter (Z.to_nat (count - 1)) rehash (buf, di) in
      Some (Z.of_nat WALLET_CRYPTO_KEY_SIZE, write_at 0 (read_at 0 32 buf) key, write_at 0 (read_at 32 16 buf) iv).

Definition SetKeyFromPassphrase (ubuf strKeyData chSalt : list Z) (nRounds nDerivationMethod : Z) (c : CCrypter) : option (bool * CCrypter) :=
  if (nRounds <? 1) || negb (length chSalt =? WALLET_CRYPTO_SALT_SIZE)%nat then Some (false, c)
  else
    '(i, key, iv) ←
      (if nDerivationMethod =? 0 then BytesToKeySHA512AES ubuf chSalt strKeyData (to_int nRounds) c.(vchKey) c.(vchIV)
       else Some (0, c.(vchKey), c.(vchIV)));
    if negb (i =? Z.of_nat WALLET_CRYPTO_KEY_SIZE) then
      Some (false, Crypter (replicate (length key) 0) (replicate (length iv) 0) c.(fKeySet))
    else Some (true, Crypter key iv true).

Definition SetKey (chNewKey chNewIV : list Z) (c : CCrypter) : bool * CCrypter :=
  if negb (length chNewKey =? WALLET_CRYPTO_KEY_SIZE)%nat || negb (length chNewIV =? WALLET_CRYPTO_IV_SIZE)%nat then (false, c)
  else (true, Crypter (write_at 0 chNewKey c.(vchKey)) (write_at 0 chNewIV c.(vchIV)) true).

(** The result and [vchCiphertext] *)
Definition Crypter_Encrypt (c : CCrypter) (vchPlaintext vchCiphertext : list Z) : option (bool * list Z) :=
  if negb c.(fKeySet) then Some (false, vchCiphertext)
  else
    let vchCiphertext := resize (length vchPlaintext + 16) vchCiphertext in
    let enc := new_AES256CBCEncrypt c.(vchKey) c.(vchIV) true in
    '(nLen, out) ← AES256CBCEncrypt_Encrypt enc (Some vchPlaintext) (to_int (Z.of_nat (length vchPlaintext))) (Some vchCiphertext);
    vchCiphertext ← out;
    if nLen <? Z.of_nat (length vchPlaintext) then Some (false, vchCiphertext)
    else Some (true, resize (Z.to_nat nLen) vchCiphertext).

(** The result and [vchPlaintext] *)
Definition Crypter_Decrypt (c : CCrypter) (vchCiphertext vchPlaintext : list Z) : option (bool * list Z) :=
  if negb c.(fKeySet) then Some (false, vchPlaintext)
  else
    let nLen := to_int (Z.of_nat (length vchCiphertext)) in
    if nLen <? 0 then None else
    let vchPlaintext := resize (Z.to_nat nLen) vchPlaintext in
    let dec := new_AES256CBCDecrypt c.(vchKey) c.(vchIV) true in
    '(nLen, out) ← AES256CBCDecrypt_Decrypt dec (Some vchCiphertext) (to_int (Z.of_nat (length vchCiphertext))) (Some vchPlaintext);
    vchPlaintext ← out;
    if nLen =? 0 then Some (false, vchPlaintext) else Some (true, resize (Z.to_nat nLen) vchPlaintext).

(** [EncryptSecret] and [DecryptSecret]: the vector is the first half of a hash. *)
Definition EncryptSecret (vMasterKey vchPlaintext nIV vchCiphertext : list Z) : option (bool * list Z) :=
  let chIV := write_at 0 (read_at 0 16 nIV) (replicate 16 0) in
  let '(ok, cKeyCrypter) := SetKey vMasterKey chIV new_CCrypter in
  if negb ok then Some (false, vchCiphertext) else Crypter_Encrypt cKeyCrypter vchPlaintext vchCiphertext.

Definition DecryptSecret (vMasterKey vchCiphertext nIV vchPlaintext : list Z) : option (bool * list Z) :=
  let chIV := write_at 0 (read_at 0 16 nIV) (replicate 16 0) in
  let '(ok, cKeyCrypter) := SetKey vMasterKey chIV new_CCrypter in
  if negb ok then Some (false, vchPlaintext) else Crypter_Decrypt cKeyCrypter vchCiphertext vchPlaintext.
