(* ===== verification/CrypterClaims.v ===== *)
(** The properties of CCrypter: key derivation and the encryption of secrets. *)

From S2P Require Import Prelude MdHash MdProofs Fips180 Sha2 HashClaims Ctaes Fips197 CtaesTheorems AesCbc AesCbcClaims Crypter.

(** ** Reference *)

Definition sha512 : list Z -> list Z := md_ref V_SHA512.

(** The hash of passphrase and salt, hashed [n] times in all *)
Definition derived (n : nat) (strKeyData chSalt : list Z) : list Z := Nat.iter n sha512 (strKeyData ++ chSalt).

(** ** Lemmas *)

#[local] Opaque Fips180.hash.

Lemma rehash_spec buf di : length di.(md_buf) = 128%nat -> length buf = 64%nat ->
  (rehash (buf, di)).1 = sha512 buf /\ length (rehash (buf, di)).1 = 64%nat /\ length (rehash (buf, di)).2.(md_buf) = 128%nat.
Proof.
  intros Hd Hb; assert (Hs : short buf) by (unfold short; lia); unfold rehash; change CSHA512 with (md_fun V_SHA512).
  assert (Hn : holds (M := md_fun V_SHA512) [] (new_hasher (M := md_fun V_SHA512) di.(md_buf))) by (by apply new_holds).
  destruct (second_hash V_SHA512 _ buf [] Hn Hs) as [E Hl]; split_and!; [exact E| |exact Hl].
  etransitivity; [exact (f_equal length E)|by apply ref_length].
Qed.

Lemma rehash_iter n buf di : length di.(md_buf) = 128%nat -> length buf = 64%nat ->
  (Nat.iter n rehash (buf, di)).1 = Nat.iter n sha512 buf /\ length (Nat.iter n rehash (buf, di)).1 = 64%nat /\
  length (Nat.iter n rehash (buf, di)).2.(md_buf) = 128%nat.
Proof.
  intros Hd Hb; induction n as [|n (E & Hl & Hd')]; [done|].
  change (Nat.iter (S n) rehash (buf, di)) with (rehash (Nat.iter n rehash (buf, di))); change (Nat.iter (S n) sha512 buf) with (sha512 (Nat.iter n sha512 buf)).
  destruct (Nat.iter n rehash (buf, di)) as [b d]; cbn [fst snd] in *; rewrite <- E; by apply rehash_spec.
Qed.

Lemma first_hash ubuf strKeyData chSalt : length ubuf = 128%nat -> short (strKeyData ++ chSalt) ->
  let di := Write (M := CSHA512) (new_hasher (M := CSHA512) ubuf) strKeyData in
  let r := Finalize (M := CSHA512) (if (0 <? length chSalt)%nat then Write (M := CSHA512) di chSalt else di) in
  r.1 = sha512 (strKeyData ++ chSalt) /\ length r.1 = 64%nat /\ length r.2.(md_buf) = 128%nat.
Proof.
  intros Hu Hs di r.
  assert (Hw : holds (M := md_fun V_SHA512) (strKeyData ++ chSalt) (if (0 <? length chSalt)%nat then Write (M := CSHA512) di chSalt else di)).
  { assert (H := writes_hold V_SHA512 ubuf [strKeyData; chSalt] Hu); cbn [concat] in H; rewrite app_nil_r in H.
    destruct (Nat.ltb_spec 0 (length chSalt)) as [Hp|Hz]; [by apply H|].
    destruct chSalt; [|cbn in Hz; lia]; rewrite app_nil_r in *.
    assert (H1 := writes_hold V_SHA512 ubuf [strKeyData] Hu); cbn [concat] in H1; rewrite app_nil_r in H1; by apply H1. }
  destruct (finalize_ref V_SHA512 _ _ Hw Hs) as [E Hf]; split_and!; [exact E| |exact (proj1 (proj2 Hf))].
  etransitivity; [exact (f_equal length E)|by apply ref_length].
Qed.

Lemma write_full src dst : length src = length dst -> write_at 0 src dst = src.
Proof. intros Hl; rewrite write_at_0, drop_ge, app_nil_r by lia; done. Qed.

Lemma BytesToKey_spec ubuf chSalt strKeyData count key iv :
  length ubuf = 128%nat -> short (strKeyData ++ chSalt) -> 0 < count -> length key = 32%nat -> length iv = 16%nat ->
  let d := derived (Z.to_nat count) strKeyData chSalt in
  BytesToKeySHA512AES ubuf chSalt strKeyData count key iv = Some (32, take 32 d, take 16 (drop 32 d)).
Proof.
  intros Hu Hs Hc Hk Hi d; unfold BytesToKeySHA512AES; destruct (Z.eqb_spec count 0); [lia|]; cbv zeta.
  destruct (first_hash ubuf strKeyData chSalt Hu Hs) as (E & Hl & Hd); destruct (Finalize _) as [buf di]; cbn [fst snd] in *.
  destruct (Z.ltb_spec count 0); [lia|]; destruct (rehash_iter (Z.to_nat (count - 1)) buf di Hd Hl) as (E2 & Hl2 & _).
  destruct (Nat.iter (Z.to_nat (count - 1)) rehash (buf, di)) as [b d']; cbn [fst snd] in *.
  assert (Eb : b = d).
  { rewrite E2, E; unfold d, derived; replace (Z.to_nat count) with (Z.to_nat (count - 1) + 1)%nat by lia; by rewrite Nat.iter_add. }
  rewrite <- Eb; rewrite !write_full; [done| |]; unfold read_at; rewrite length_take, length_drop; lia.
Qed.

Lemma to_int_id n : 0 <= n <= int_max -> to_int n = n.
Proof. unfold int_max, to_int; intros Hn; rewrite u32_id by (unfold word; lia); destruct (Z.ltb_spec n (2 ^ 31)); lia. Qed.

Lemma resize_length n v : length (resize n v) = n.
Proof. unfold resize; rewrite length_app, length_take, length_replicate; lia. Qed.

Lemma resize_app n l k : length l = n -> resize n (l ++ k) = l.
Proof. intros Hl; unfold resize; rewrite take_app_le, take_ge, length_app by lia; replace (n - _)%nat with 0%nat by lia; apply app_nil_r. Qed.

(** Objects with a key of the right size *)
Definition crypter_ok (c : CCrypter) : Prop :=
  length c.(vchKey) = 32%nat /\ words 8 c.(vchKey) /\ length c.(vchIV) = 16%nat /\ words 8 c.(vchIV).

Lemma SetKey_spec key iv : SetKey key iv new_CCrypter =
  if (length key =? 32)%nat && (length iv =? 16)%nat then (true, Crypter key iv true) else (false, new_CCrypter).
Proof.
  unfold SetKey; destruct (Nat.eqb_spec (length key) WALLET_CRYPTO_KEY_SIZE) as [Hk|Hk], (Nat.eqb_spec (length iv) WALLET_CRYPTO_IV_SIZE) as [Hi|Hi];
    unfold WALLET_CRYPTO_KEY_SIZE, WALLET_CRYPTO_IV_SIZE in *; cbn [negb orb].
  - rewrite Hk, Hi; cbn [Nat.eqb andb new_CCrypter vchKey vchIV]; rewrite !write_full; [done| |]; rewrite length_replicate; lia.
  - rewrite (proj2 (Nat.eqb_neq (length iv) 16)) by done; by rewrite andb_false_r.
  - by rewrite (proj2 (Nat.eqb_neq (length key) 32)).
  - by rewrite (proj2 (Nat.eqb_neq (length key) 32)).
Qed.

(** What is stored for a secret *)
Definition secret_ciphertext (key iv data : list Z) : list Z := ciphertext CBC256 key iv true data.

Lemma Encrypt_spec c data ct : crypter_ok c -> c.(fKeySet) = true -> words 8 data -> Z.of_nat (length data) + 16 <= int_max ->
  Crypter_Encrypt c data ct = Some (true, if (length data =? 0)%nat then [] else secret_ciphertext c.(vchKey) c.(vchIV) data).
Proof.
  intros (Hk & Hkw & Hi & Hiw) Hset Hd Hmax; unfold Crypter_Encrypt; rewrite Hset; cbn [negb]; rewrite to_int_id by lia.
  change (AES256CBCEncrypt_Encrypt (new_AES256CBCEncrypt c.(vchKey) c.(vchIV) true)) with (cbc_encrypt CBC256 c.(vchKey) c.(vchIV) true).
  destruct (Nat.eqb_spec (length data) 0) as [E0|Hne].
  - rewrite cbc_encrypt_eq; unfold CBCEncrypt; rewrite E0; cbn [Z.of_nat Z.eqb mbind option_bind Z.ltb Z.compare].
    by destruct (resize (0 + 16) ct).
  - assert (Hp := pkcs7_length data); pose proof (Nat.div_mod (length data) 16 ltac:(lia)) as Hdm; pose proof (Nat.mod_upper_bound (length data) 16 ltac:(lia)).
    destruct (roundtrip_cbc CBC256 c.(vchKey) c.(vchIV) true data (resize (length data + 16) ct) (replicate (length (pkcs7 data)) 0)) as [E _];
      [done|done|done|done|done|lia|done|by left|cbn [cbc_message]; rewrite resize_length; lia|cbn [cbc_message]; by rewrite length_replicate|].
    rewrite E; cbn [mbind option_bind]; destruct (ciphertext_blocks CBC256 c.(vchKey) c.(vchIV) true data) as (_ & Hcl & _); [done..|by left|].
    fold (ciphertext CBC256 c.(vchKey) c.(vchIV) true data) in Hcl; cbn [cbc_message] in Hcl; unfold secret_ciphertext.
    rewrite (proj2 (Z.ltb_ge _ _)) by lia; rewrite Nat2Z.id, resize_app; done.
Qed.

Lemma Decrypt_ciphertext c data pt : crypter_ok c -> c.(fKeySet) = true -> words 8 data -> (0 < length data)%nat -> Z.of_nat (length data) + 16 <= int_max ->
  Crypter_Decrypt c (secret_ciphertext c.(vchKey) c.(vchIV) data) pt = Some (true, data).
Proof.
  intros (Hk & Hkw & Hi & Hiw) Hset Hd Hd0 Hmax; unfold Crypter_Decrypt, secret_ciphertext; rewrite Hset; cbn [negb].
  destruct (ciphertext_blocks CBC256 c.(vchKey) c.(vchIV) true data) as (_ & Hcl & _); [done..|by left|].
  fold (ciphertext CBC256 c.(vchKey) c.(vchIV) true data) in Hcl; cbn [cbc_message] in Hcl; set (ct := ciphertext _ _ _ _ _) in *.
  assert (Hp := pkcs7_length data); pose proof (Nat.div_mod (length data) 16 ltac:(lia)) as Hdm; pose proof (Nat.mod_upper_bound (length data) 16 ltac:(lia)).
  rewrite to_int_id by lia; rewrite (proj2 (Z.ltb_ge _ _)) by lia; rewrite Nat2Z.id.
  destruct (roundtrip_cbc CBC256 c.(vchKey) c.(vchIV) true data (replicate (length (pkcs7 data)) 0) (resize (length ct) pt)) as [_ E];
    [done|done|done|done|done|lia|done|by left|cbn [cbc_message]; by rewrite length_replicate|cbn [cbc_message]; rewrite resize_length; lia|].
  fold ct in E; change (AES256CBCDecrypt_Decrypt (new_AES256CBCDecrypt c.(vchKey) c.(vchIV) true)) with (cbc_decrypt CBC256 c.(vchKey) c.(vchIV) true).
  rewrite E; cbn [mbind option_bind cbc_message]; destruct (Z.eqb_spec (Z.of_nat (length data)) 0); [lia|].
  rewrite Nat2Z.id; unfold pkcs7; rewrite <- app_assoc, resize_app by done; done.
Qed.

(** The vector of [EncryptSecret] *)
Lemma chIV_eq nIV : (16 <= length nIV)%nat -> write_at 0 (read_at 0 16 nIV) (replicate 16 0) = take 16 nIV.
Proof. intros Hn; apply write_full; rewrite length_replicate; change (length (take 16 nIV) = 16%nat); rewrite length_take; lia. Qed.

Lemma EncryptSecret_spec mk data nIV ct : words 8 mk -> words 8 nIV -> (16 <= length nIV)%nat -> words 8 data -> Z.of_nat (length data) + 16 <= int_max ->
  EncryptSecret mk data nIV ct =
  if (length mk =? 32)%nat then Some (true, if (length data =? 0)%nat then [] else secret_ciphertext mk (take 16 nIV) data) else Some (false, ct).
Proof.
  intros Hm Hn Hnl Hd Hmax; unfold EncryptSecret; rewrite chIV_eq, SetKey_spec, length_take, Nat.min_l by lia; cbn [Nat.eqb]; rewrite andb_true_r.
  destruct (Nat.eqb_spec (length mk) 32); cbn [negb]; [|done]; rewrite Encrypt_spec; [done| |done..].
  split_and!; cbn [vchKey vchIV]; [done|done|rewrite length_take; lia|by apply Forall_take].
Qed.

Lemma DecryptSecret_spec mk data nIV pt : words 8 mk -> length mk = 32%nat -> words 8 nIV -> (16 <= length nIV)%nat -> words 8 data -> (0 < length data)%nat ->
  Z.of_nat (length data) + 16 <= int_max -> DecryptSecret mk (secret_ciphertext mk (take 16 nIV) data) nIV pt = Some (true, data).
Proof.
  intros Hm Hml Hn Hnl Hd Hd0 Hmax; unfold DecryptSecret; rewrite chIV_eq, SetKey_spec, length_take, Nat.min_l, Hml by lia; cbn [Nat.eqb andb negb].
  apply (Decrypt_ciphertext (Crypter mk (take 16 nIV) true)); [|done..].
  split_and!; cbn [vchKey vchIV]; [done|done|rewrite length_take; lia|by apply Forall_take].
Qed.

(** Without a key of the right size nothing is decrypted. *)
Lemma DecryptSecret_no_key mk ct nIV pt : length mk <> 32%nat -> (16 <= length nIV)%nat -> DecryptSecret mk ct nIV pt = Some (false, pt).
Proof.
  intros Hm Hn; unfold DecryptSecret; rewrite chIV_eq, SetKey_spec by done; by rewrite (proj2 (Nat.eqb_neq _ 32)).
Qed.

Lemma resize_bytes n l : words 8 l -> words 8 (resize n l).
Proof. intros Hl; unfold resize; apply Forall_app; split; [by apply Forall_take|apply Forall_replicate; unfold word; lia]. Qed.

Lemma decrypted_bytes mk iv ct : length iv = 16%nat -> words 8 iv -> words 8 ct -> (length ct mod 16 = 0)%nat ->
  words 8 (concat (cbc_dec (code_decrypt CBC256 mk) iv (blocks16 ct))).
Proof.
  intros Hi Hiw Hc H16; destruct (blocks16_all ct H16) as (Hb & _ & _).
  apply (cbc_dec_blocks (code_decrypt CBC256 mk) (code_decrypt_block CBC256 mk)); [done|done|done|by apply chunks_bytes].
Qed.

(** Decryption ends with some bytes on every ciphertext. *)
Lemma DecryptSecret_total mk ct nIV pt : words 8 mk -> words 8 nIV -> (16 <= length nIV)%nat -> words 8 ct -> Z.of_nat (length ct) <= int_max -> words 8 pt ->
  exists ok p, DecryptSecret mk ct nIV pt = Some (ok, p) /\ words 8 p.
Proof.
  intros Hm Hn Hnl Hc Hmax Hpt; destruct (Nat.eq_dec (length mk) 32%nat) as [Hml|]; [|by rewrite DecryptSecret_no_key; eauto].
  unfold DecryptSecret; rewrite chIV_eq, SetKey_spec, length_take, Nat.min_l, Hml by lia; cbn [Nat.eqb andb negb].
  unfold Crypter_Decrypt; cbn [fKeySet negb vchKey vchIV]; rewrite to_int_id by lia; rewrite (proj2 (Z.ltb_ge _ _)) by lia; rewrite Nat2Z.id.
  change (AES256CBCDecrypt_Decrypt (new_AES256CBCDecrypt mk (take 16 nIV) true)) with (cbc_decrypt CBC256 mk (take 16 nIV) true); rewrite cbc_decrypt_eq.
  assert (Hr : words 8 (resize (length ct) pt)) by (by apply resize_bytes).
  destruct (Nat.eq_dec (length ct) 0%nat) as [E0|Hne].
  - unfold CBCDecrypt; rewrite E0 in *; cbn [Z.of_nat Z.eqb mbind option_bind]; do 2 eexists; split; [reflexivity|exact Hr].
  - rewrite (CBCDecrypt_spec (code_decrypt CBC256 mk)); [|intros; by apply code_decrypt_block|rewrite !length_take; lia|by apply Forall_take, Forall_take|done|lia|by rewrite resize_length].
    destruct (Nat.eqb_spec (length ct mod 16) 0) as [E16|]; cbn [negb mbind option_bind]; [|do 2 eexists; split; [reflexivity|exact Hr]].
    assert (Hp : words 8 (concat (cbc_dec (code_decrypt CBC256 mk) (take 16 (take 16 nIV)) (blocks16 ct)))).
    { apply decrypted_bytes; [rewrite !length_take; lia|by apply Forall_take, Forall_take|done|done]. }
    set (p := concat _) in *; assert (Ho : words 8 (p ++ drop (length p) (resize (length ct) pt))) by (apply Forall_app; split; [done|by apply Forall_drop]).
    destruct (_ =? 0); do 2 eexists; (split; [reflexivity|]); [done|by apply resize_bytes].
Qed.

(** ** Theorems *)

(** A key from a passphrase.  For method 0, a salt of eight
    bytes and 1 to 2^31 - 1 rounds the key and the vector are the first 32 and
    the next 16 bytes of SHA-512 applied that many times to passphrase and salt;
    without rounds or with another salt the object is unchanged, and another
    method clears the key, all with the result false. *)
Theorem key_derivation_correct ubuf pass salt nRounds method c :
  length ubuf = 128%nat -> short (pass ++ salt) -> length c.(vchKey) = 32%nat -> length c.(vchIV) = 16%nat -> 0 <= nRounds <= int_max ->
  SetKeyFromPassphrase ubuf pass salt nRounds method c =
  if (nRounds =? 0) || negb (length salt =? 8)%nat then Some (false, c)
  else if method =? 0 then
    let d := derived (Z.to_nat nRounds) pass salt in Some (true, Crypter (take 32 d) (take 16 (drop 32 d)) true)
  else Some (false, Crypter (replicate 32 0) (replicate 16 0) c.(fKeySet)).
Proof.
  intros Hu Hs Hk Hi Hn; unfold SetKeyFromPassphrase, WALLET_CRYPTO_SALT_SIZE.
  replace (nRounds <? 1) with (nRounds =? 0) by (destruct (Z.eqb_spec nRounds 0), (Z.ltb_spec nRounds 1); (done || lia)).
  destruct (Z.eqb_spec nRounds 0) as [|Hn0]; [done|]; destruct (length salt =? 8)%nat; cbn [negb orb]; [|done].
  destruct (method =? 0).
  - rewrite to_int_id, BytesToKey_spec by (done || lia); done.
  - cbn [mbind option_bind]; rewrite Hk, Hi; done.
Qed.

Lemma key_derivation_correct_witness :
  SetKeyFromPassphrase (replicate 128 0) [112; 119] (replicate 8 1) 25000 0 new_CCrypter =
  (let d := derived (Z.to_nat 25000) [112; 119] (replicate 8 1) in Some (true, Crypter (take 32 d) (take 16 (drop 32 d)) true)).
Proof.
  apply (key_derivation_correct (replicate 128 0) [112; 119] (replicate 8 1) 25000 0 new_CCrypter).
  - reflexivity.
  - reflexivity.
  - reflexivity.
  - reflexivity.
  - split; vm_compute; discriminate.
Defined.

(** A secret that is not empty is encrypted under a master key
    of 32 bytes and decrypted to itself with the same key and vector, whatever
    the two output vectors held; an empty secret is encrypted to nothing, which
    does not decrypt; a key of another size is refused. *)
Theorem secret_roundtrip mk data nIV ct pt :
  words 8 mk -> words 8 nIV -> length nIV = 32%nat -> words 8 data -> Z.of_nat (length data) + 16 <= int_max ->
  if (length mk =? 32)%nat then
    exists c, EncryptSecret mk data nIV ct = Some (true, c) /\
      (if (length data =? 0)%nat then c = [] /\ exists p, DecryptSecret mk c nIV pt = Some (false, p)
       else DecryptSecret mk c nIV pt = Some (true, data))
  else EncryptSecret mk data nIV ct = Some (false, ct) /\ forall c, DecryptSecret mk c nIV pt = Some (false, pt).
Proof.
  intros Hm Hn Hnl Hd Hmax; rewrite EncryptSecret_spec by (done || lia); destruct (Nat.eqb_spec (length mk) 32) as [Hml|Hml].
  - eexists; split; [done|]; destruct (Nat.eqb_spec (length data) 0) as [E0|Hne]; [split; [done|]|apply DecryptSecret_spec; (done || lia)].
    unfold DecryptSecret; rewrite chIV_eq, SetKey_spec, length_take, Nat.min_l, Hml by lia; cbn [Nat.eqb andb negb].
    unfold Crypter_Decrypt; cbn [fKeySet negb vchKey vchIV length]; rewrite to_int_id by (unfold int_max; lia); by eexists.
  - split; [done|]; intros c; apply DecryptSecret_no_key; (done || lia).
Qed.

Lemma secret_roundtrip_witness :
  exists c, EncryptSecret hex_key (replicate 32 7) (replicate 32 5) [] = Some (true, c) /\ DecryptSecret hex_key c (replicate 32 5) [] = Some (true, replicate 32 7).
Proof.
  apply (secret_roundtrip hex_key (replicate 32 7) (replicate 32 5) [] []).
  - apply wordsb_spec; reflexivity.
  - apply wordsb_spec; reflexivity.
  - reflexivity.
  - apply wordsb_spec; reflexivity.
  - vm_compute; discriminate.
Defined.

(** An object that held a key still counts as set after a call with an unknown
    derivation method has failed, and encrypts under the key of zeros. *)
Theorem failed_derivation_keeps_flag ubuf pass salt nRounds method key iv data :
  length salt = 8%nat -> 1 <= nRounds -> method <> 0 -> length key = 32%nat -> length iv = 16%nat -> words 8 data -> (0 < length data)%nat ->
  Z.of_nat (length data) + 16 <= int_max ->
  exists c, SetKeyFromPassphrase ubuf pass salt nRounds method (Crypter key iv true) = Some (false, c) /\
    Crypter_Encrypt c data [] = Some (true, secret_ciphertext (replicate 32 0) (replicate 16 0) data).
Proof.
  intros Hs Hn Hm Hk Hi Hd Hd0 Hmax; exists (Crypter (replicate 32 0) (replicate 16 0) true); split.
  - unfold SetKeyFromPassphrase; rewrite Hs, (proj2 (Z.ltb_ge _ _)), (proj2 (Z.eqb_neq _ _)) by lia; cbn; by rewrite Hk, Hi.
  - rewrite Encrypt_spec; [by rewrite (proj2 (Nat.eqb_neq _ 0)) by lia| |done..].
    split_and!; cbn [vchKey vchIV]; [done| |done|]; apply Forall_replicate; unfold word; lia.
Qed.
