(* ===== verification/KeyStore.v ===== *)
(** The key stores: CBasicKeyStore of keystore.h and keystore.cpp, and
    CCryptoKeyStore of wallet/crypter.h and wallet/crypter.cpp, which keeps the
    private keys encrypted under a master key.

    A std::map is the list of its entries in the order of the keys.  A public key
    is the list of its bytes.  The three operations on curve points, which are
    those of the library secp256k1, are arguments: [seckey_verify] is
    secp256k1_ec_seckey_verify, [GetPubKey] is CKey::GetPubKey, and [sign_verify]
    is the signature made and verified in CKey::VerifyPubKey.  Scripts and
    watch-only addresses, the signals to the interface and the set-up of the zerocoin
    wallet after unlocking are not part of the state. *)

From S2P Require Import Prelude Uint256 Hash Crypter.

(** ** std::map *)

Section Map.
Context {V : Type}.

Fixpoint map_find (k : list Z) (m : list (list Z * V)) : option V :=
  match m with
  | [] => None
  | (k', v) :: m => if bool_decide (k = k') then Some v else map_find k m
  end.

(** [m[k] = v]: the entry of [k] is changed, or a new one is put in its place
    in the order of the keys. *)
Definition map_replace (k : list Z) (v : V) (m : list (list Z * V)) : list (list Z * V) :=
  map (fun e => if bool_decide (k = e.1) then (k, v) else e) m.

Fixpoint map_insert (k : list Z) (v : V) (m : list (list Z * V)) : list (list Z * V) :=
  match m with
  | [] => [(k, v)]
  | e :: m' => if Compare k e.1 <? 0 then (k, v) :: m else e :: map_insert k v m'
  end.

Definition map_assign (k : list Z) (v : V) (m : list (list Z * V)) : list (list Z * V) :=
  match map_find k m with Some _ => map_replace k v m | None => map_insert k v m end.

End Map.

(** ** Keys: key.h, pubkey.h *)

Record CKey := Key { fValid : bool; fCompressed : bool; keydata : list Z }.

Definition new_CKey : CKey := Key false false (replicate 32 0).

(** The bytes from [begin()] to [end()] *)
Definition key_bytes (k : CKey) : list Z := if k.(fValid) then k.(keydata) else [].

Definition IsCompressed (pk : list Z) : bool := (length pk =? 33)%nat.

Section Keys.
Context (ubuf rbuf : list Z).
Context (seckey_verify : list Z -> bool) (GetPubKey : CKey -> list Z) (sign_verify : CKey -> list Z -> bool).

Definition key_Set (p : list Z) (fCompressedIn : bool) (k : CKey) : CKey :=
  if negb (length p =? length k.(keydata))%nat then Key false k.(fCompressed) k.(keydata)
  else if seckey_verify p then Key true fCompressedIn p
  else Key false k.(fCompressed) k.(keydata).

Definition VerifyPubKey (k : CKey) (pk : list Z) : bool :=
  if negb (eqb (IsCompressed pk) k.(fCompressed)) then false else sign_verify k pk.

Definition pubkey_GetID (pk : list Z) : list Z := Hash160 ubuf rbuf pk.
Definition pubkey_GetHash (pk : list Z) : list Z := Hash_1 ubuf pk.

(** ** CCryptoKeyStore *)

Record CCryptoKeyStore := Store {
  mapKeys : list (list Z * CKey);
  mapCryptedKeys : list (list Z * (list Z * list Z));
  vMasterKey : list Z;
  fUseCrypto : bool;
  fDecryptionThoroughlyChecked : bool
}.

Definition new_CCryptoKeyStore : CCryptoKeyStore := Store [] [] [] false false.

Definition IsLocked (st : CCryptoKeyStore) : bool := if negb st.(fUseCrypto) then false else (length st.(vMasterKey) =? 0)%nat.

(** The result and the key [keyOut] *)
Definition DecryptKey (vMasterKey vchCryptedSecret vchPubKey : list Z) (key : CKey) : option (bool * CKey) :=
  '(ok, vchSecret) ← DecryptSecret vMasterKey vchCryptedSecret (pubkey_GetHash vchPubKey) [];
  if negb ok then Some (false, key)
  else if negb (length vchSecret =? 32)%nat then Some (false, key)
  else
    let key := key_Set vchSecret (IsCompressed vchPubKey) key in
    Some (VerifyPubKey key vchPubKey, key).

Definition EncryptMnemonicSecret (mk vchPlaintext nIV vchCiphertext : list Z) : option (bool * list Z) :=
  let chIV := write_at 0 (read_at 0 16 nIV) (replicate 16 0) in
  let '(ok, cKeyCrypter) := SetKey mk chIV new_CCrypter in
  if negb ok then Some (false, vchCiphertext) else Crypter_Encrypt cKeyCrypter vchPlaintext vchCiphertext.

Definition DecryptMnemonicSecret (st : CCryptoKeyStore) (vchCiphertext nIV vchPlaintext : list Z) : option (bool * list Z) :=
  let chIV := write_at 0 (read_at 0 16 nIV) (replicate 16 0) in
  let '(ok, cKeyCrypter) := SetKey st.(vMasterKey) chIV new_CCrypter in
  if negb ok then Some (false, vchPlaintext) else Crypter_Decrypt cKeyCrypter vchCiphertext vchPlaintext.

Definition SetCrypted (st : CCryptoKeyStore) : bool * CCryptoKeyStore :=
  if st.(fUseCrypto) then (true, st)
  else match st.(mapKeys) with
  | _ :: _ => (false, st)
  | [] => (true, Store st.(mapKeys) st.(mapCryptedKeys) st.(vMasterKey) true st.(fDecryptionThoroughlyChecked))
  end.

Definition Lock (st : CCryptoKeyStore) : bool * CCryptoKeyStore :=
  let '(ok, st) := SetCrypted st in
  if negb ok then (false, st)
  else (true, Store st.(mapKeys) st.(mapCryptedKeys) [] st.(fUseCrypto) st.(fDecryptionThoroughlyChecked)).

(** The loop over [mapCryptedKeys]: [keyPass] and [keyFail] *)
Fixpoint unlock_loop (checked : bool) (mk : list Z) (m : list (list Z * (list Z * list Z))) (keyPass : bool) : option (bool * bool) :=
  match m with
  | [] => Some (keyPass, false)
  | (_, (vchPubKey, vchCryptedSecret)) :: m =>
    '(ok, _) ← DecryptKey mk vchCryptedSecret vchPubKey new_CKey;
    if negb ok then Some (keyPass, true)
    else if checked then Some (true, false)
    else unlock_loop checked mk m true
  end.

Definition Unlock (vMasterKeyIn : list Z) (st : CCryptoKeyStore) : option (bool * CCryptoKeyStore) :=
  let '(ok, st) := SetCrypted st in
  if negb ok then Some (false, st)
  else
    '(keyPass, keyFail) ← unlock_loop st.(fDecryptionThoroughlyChecked) vMasterKeyIn st.(mapCryptedKeys) false;
    if keyFail || negb keyPass then Some (false, st)
    else Some (true, Store st.(mapKeys) st.(mapCryptedKeys) vMasterKeyIn st.(fUseCrypto) true).

Definition AddCryptedKey (vchPubKey vchCryptedSecret : list Z) (st : CCryptoKeyStore) : bool * CCryptoKeyStore :=
  let '(ok, st) := SetCrypted st in
  if negb ok then (false, st)
  else (true, Store st.(mapKeys) (map_assign (pubkey_GetID vchPubKey) (vchPubKey, vchCryptedSecret) st.(mapCryptedKeys))
    st.(vMasterKey) st.(fUseCrypto) st.(fDecryptionThoroughlyChecked)).

Definition AddKeyPubKey (key : CKey) (pubkey : list Z) (st : CCryptoKeyStore) : option (bool * CCryptoKeyStore) :=
  if negb st.(fUseCrypto) then
    Some (true, Store (map_assign (pubkey_GetID pubkey) key st.(mapKeys)) st.(mapCryptedKeys) st.(vMasterKey) st.(fUseCrypto) st.(fDecryptionThoroughlyChecked))
  else if IsLocked st then Some (false, st)
  else
    '(ok, vchCryptedSecret) ← EncryptSecret st.(vMasterKey) (key_bytes key) (pubkey_GetHash pubkey) [];
    if negb ok then Some (false, st)
    else
      let '(ok, st) := AddCryptedKey pubkey vchCryptedSecret st in
      if negb ok then Some (false, st) else Some (true, st).

Definition HaveKey (address : list Z) (st : CCryptoKeyStore) : bool :=
  if negb st.(fUseCrypto) then bool_decide (is_Some (map_find address st.(mapKeys)))
  else bool_decide (is_Some (map_find address st.(mapCryptedKeys))).

Definition GetKey (address : list Z) (st : CCryptoKeyStore) (keyOut : CKey) : option (bool * CKey) :=
  if negb st.(fUseCrypto) then
    Some (match map_find address st.(mapKeys) with Some k => (true, k) | None => (false, keyOut) end)
  else match map_find address st.(mapCryptedKeys) with
  | Some (vchPubKey, vchCryptedSecret) => DecryptKey st.(vMasterKey) vchCryptedSecret vchPubKey keyOut
  | None => Some (false, keyOut)
  end.

(** The loop over [mapKeys], with its two early returns. *)
Fixpoint encrypt_loop (mk : list Z) (m : list (list Z * CKey)) (st : CCryptoKeyStore) : option (bool * CCryptoKeyStore) :=
  match m with
  | [] => Some (true, st)
  | (_, key) :: m =>
    let vchPubKey := GetPubKey key in
    '(ok, vchCryptedSecret) ← EncryptSecret mk (key_bytes key) (pubkey_GetHash vchPubKey) [];
    if negb ok then Some (false, st)
    else
      let '(ok, st) := AddCryptedKey vchPubKey vchCryptedSecret st in
      if negb ok then Some (false, st) else encrypt_loop mk m st
  end.

Definition EncryptKeys (vMasterKeyIn : list Z) (st : CCryptoKeyStore) : option (bool * CCryptoKeyStore) :=
  if (0 <? length st.(mapCryptedKeys))%nat || st.(fUseCrypto) then Some (false, st)
  else
    let st := Store st.(mapKeys) st.(mapCryptedKeys) st.(vMasterKey) true st.(fDecryptionThoroughlyChecked) in
    '(ok, st) ← encrypt_loop vMasterKeyIn st.(mapKeys) st;
    if negb (ok : bool) then Some (false, st)
    else Some (true, Store [] st.(mapCryptedKeys) st.(vMasterKey) st.(fUseCrypto) st.(fDecryptionThoroughlyChecked)).

End Keys.
