(* ===== verification/KeyStoreClaims.v ===== *)
(** The encrypted key store: its invariant, and what its operations do on stores
    that keep it.

    What the encrypted key store promises: its invariant over every sequence of
    operations, failed ones included, the encryption of a plain store as a change of representation that
    no reader of an unlocked store can see, and what a successful unlocking means. *)

From S2P Require Import Prelude Uint256 MdHash MdProofs Sha2 Hash HashClaims AesCbc AesCbcClaims Crypter CrypterClaims KeyStore.

(** ** std::map *)

Section MapLemmas.
Context {V : Type}.
Implicit Types (m : list (list Z * V)).

Lemma find_none k m : map_find k m = None <-> ~ In k (map fst m).
Proof.
  induction m as [|[k0 v0] m IH]; cbn [map_find map fst In]; [by split; [intros _ []|]|].
  destruct (bool_decide (k = k0)) eqn:E; [apply bool_decide_eq_true in E; subst; split; [done|intros H; exfalso; apply H; by left]|].
  apply bool_decide_eq_false in E; rewrite IH; split; [intros H [H1|H1]; [congruence|done]|intros H H1; apply H; by right].
Qed.

Lemma find_some k v m : map_find k m = Some v -> In (k, v) m.
Proof.
  induction m as [|[k0 v0] m IH]; cbn [map_find]; [done|]; destruct (bool_decide (k = k0)) eqn:E; [|intros; right; auto].
  apply bool_decide_eq_true in E; subst; intros [= ->]; by left.
Qed.

Lemma find_replace k v m k' : is_Some (map_find k m) ->
  map_find k' (map_replace k v m) = if bool_decide (k' = k) then Some v else map_find k' m.
Proof.
  unfold map_replace; induction m as [|[k0 v0] m IH]; cbn [map_find map fst]; [intros [? [=]]|].
  destruct (bool_decide (k = k0)) eqn:E0; cbn [map_find].
  - apply bool_decide_eq_true in E0; subst k0; intros _; destruct (bool_decide (k' = k)) eqn:E1; [done|]; clear IH.
    induction m as [|[k1 v1] m IH]; cbn [map_find map fst]; [done|]; destruct (bool_decide (k = k1)) eqn:E2; cbn [map_find].
    + apply bool_decide_eq_true in E2; subst k1; by rewrite E1.
    + by rewrite IH.
  - intros H; rewrite IH by done; destruct (bool_decide (k' = k0)) eqn:E1; [|done]; apply bool_decide_eq_true in E1; subst k'.
    apply bool_decide_eq_false in E0; by rewrite bool_decide_eq_false_2 by congruence.
Qed.

Lemma find_insert k v m k' : map_find k m = None ->
  map_find k' (map_insert k v m) = if bool_decide (k' = k) then Some v else map_find k' m.
Proof.
  induction m as [|[k0 v0] m IH]; cbn [map_find map_insert fst]; [done|]; destruct (bool_decide (k = k0)) eqn:E0; [done|].
  intros H; destruct (Compare k k0 <? 0); cbn [map_find]; [done|]; rewrite IH by done.
  destruct (bool_decide (k' = k0)) eqn:E1; [|done]; apply bool_decide_eq_true in E1; subst k'.
  apply bool_decide_eq_false in E0; by rewrite bool_decide_eq_false_2 by congruence.
Qed.

(** Reading a map after an assignment. *)
Lemma find_assign k v m k' : map_find k' (map_assign k v m) = if bool_decide (k' = k) then Some v else map_find k' m.
Proof. unfold map_assign; destruct (map_find k m) eqn:E; [by apply find_replace; rewrite E|by apply find_insert]. Qed.

Lemma in_assign k v m x : In x (map_assign k v m) -> x = (k, v) \/ In x m.
Proof.
  unfold map_assign; destruct (map_find k m).
  - unfold map_replace; intros Hx; apply in_map_iff in Hx as (e & <- & He); destruct (bool_decide _); auto.
  - induction m as [|e m IH]; cbn [map_insert]; [intros [|[]]; auto|].
    destruct (Compare k e.1 <? 0); [intros [|H]; auto|]; intros [|H]; [right; by left|destruct (IH H); [by left|right; by right]].
Qed.

Lemma assign_keys k v m x : In x (map fst (map_assign k v m)) -> x = k \/ In x (map fst m).
Proof.
  intros Hx; apply in_map_iff in Hx as (e & <- & He); apply in_assign in He as [->|He]; [by left|right; by apply in_map].
Qed.

Lemma replace_keys k v m : map fst (map_replace k v m) = map fst m.
Proof.
  unfold map_replace; rewrite map_map; apply map_ext; intros [k0 v0]; cbn [fst]; destruct (bool_decide (k = k0)) eqn:E; [|done].
  by apply bool_decide_eq_true in E.
Qed.

Lemma assign_nodup k v m : NoDup (map fst m) -> NoDup (map fst (map_assign k v m)).
Proof.
  unfold map_assign; destruct (map_find k m) eqn:E; [by rewrite replace_keys|].
  apply find_none in E; intros Hnd; revert E; induction m as [|[k0 v0] m IH]; cbn [map_insert map fst]; intros E; [apply NoDup_singleton|].
  cbn [map fst] in Hnd; pose proof Hnd as [Hni Hnd']%list.NoDup_cons; destruct (Compare k k0 <? 0); cbn [map fst]; apply list.NoDup_cons; split; [by rewrite list_elem_of_In|done| |].
  - rewrite list_elem_of_In in *; intros Hin; assert (H : In k0 (map fst (map_assign k v m))).
    { unfold map_assign; destruct (map_find k m) eqn:E1; [|done]; exfalso; apply E; right; apply find_some in E1; by apply (in_map fst) in E1. }
    apply assign_keys in H as [->|H]; [by apply E; left|done].
  - apply IH; [done|]; intros H; apply E; by right.
Qed.

End MapLemmas.

(** Assigning the images of the entries of a map without repetitions. *)
Lemma find_assign_all {V W} (g : V -> W) (f : list Z * V -> list Z) (m : list (list Z * V)) (r : list (list Z * W)) k :
  NoDup (map fst m) -> Forall (fun e => f e = e.1) m ->
  map_find k (fold_left (fun r e => map_assign (f e) (g e.2) r) m r) = match map_find k m with Some v => Some (g v) | None => map_find k r end.
Proof.
  intros Hnd Hf; revert r; induction Hf as [|[k0 v0] m H0 _ IH]; intros r; cbn [fold_left map_find fst snd] in *; [done|].
  pose proof Hnd as [Hni Hnd']%list.NoDup_cons; rewrite IH by done; rewrite H0.
  destruct (bool_decide (k = k0)) eqn:E.
  - apply bool_decide_eq_true in E; subst k0; replace (map_find k m) with (@None V); [by rewrite find_assign, bool_decide_eq_true_2|].
    symmetry; apply find_none; by rewrite list_elem_of_In in Hni.
  - destruct (map_find k m); [done|]; by rewrite find_assign, E.
Qed.

(** ** What the store relies on *)

(** A private key as CKey::Set leaves it *)
Definition key_ok (seckey_verify : list Z -> bool) (k : CKey) : Prop :=
  k.(fValid) = true /\ length k.(keydata) = 32%nat /\ words 8 k.(keydata) /\ seckey_verify k.(keydata) = true.

(** The promises of the operations on the curve: a public key has the form asked
    for and verifies the signatures of its private key; without a valid key nothing
    is signed. *)
Class KeyLaws (seckey_verify : list Z -> bool) (GetPubKey : CKey -> list Z) (sign_verify : CKey -> list Z -> bool) : Prop := {
  pub_compressed k : key_ok seckey_verify k -> IsCompressed (GetPubKey k) = k.(fCompressed);
  sign_own k : key_ok seckey_verify k -> sign_verify k (GetPubKey k) = true;
  sign_valid k pk : sign_verify k pk = true -> k.(fValid) = true
}.

Section Store.
Context (ubuf rbuf : list Z).
Context (seckey_verify : list Z -> bool) (GetPubKey : CKey -> list Z) (sign_verify : CKey -> list Z -> bool).
Context {L : KeyLaws seckey_verify GetPubKey sign_verify}.

Abbreviation key_good := (key_ok seckey_verify).
Abbreviation pk_id := (pubkey_GetID ubuf rbuf).
Abbreviation pk_hash := (pubkey_GetHash ubuf).

(** What is stored for a key *)
Definition encrypted_entry (mk : list Z) (k : CKey) : list Z * list Z :=
  (GetPubKey k, secret_ciphertext mk (take 16 (pk_hash (GetPubKey k))) k.(keydata)).

Lemma EncryptSecret_key mk k : words 8 mk -> key_good k ->
  EncryptSecret mk (key_bytes k) (pk_hash (GetPubKey k)) [] =
  if (length mk =? 32)%nat then Some (true, (encrypted_entry mk k).2) else Some (false, []).
Proof.
  intros Hm (Hv & Hl & Hw & _); destruct (Hash_1_bytes ubuf (GetPubKey k)) as [Hh Hhw]; unfold key_bytes; rewrite Hv.
  rewrite EncryptSecret_spec; [rewrite Hl; done|done|done|unfold pubkey_GetHash; lia|done|rewrite Hl; unfold int_max; lia].
Qed.

(** The stored secret of a key gives the key back. *)
Lemma DecryptKey_entry mk k k0 : words 8 mk -> length mk = 32%nat -> key_good k -> length k0.(keydata) = 32%nat ->
  DecryptKey ubuf seckey_verify sign_verify mk (encrypted_entry mk k).2 (GetPubKey k) k0 = Some (true, k).
Proof.
  intros Hm Hml Hk H0; pose proof Hk as (Hv & Hl & Hw & Hc); destruct (Hash_1_bytes ubuf (GetPubKey k)) as [Hh Hhw].
  unfold DecryptKey, encrypted_entry; cbn [snd]; rewrite DecryptSecret_spec; [|done|done|done|unfold pubkey_GetHash; lia|done|lia|rewrite Hl; unfold int_max; lia].
  cbn [mbind option_bind negb]; rewrite Hl; cbn [Nat.eqb negb].
  assert (E : key_Set seckey_verify k.(keydata) (IsCompressed (GetPubKey k)) k0 = k).
  { unfold key_Set; rewrite Hl, H0, Hc; cbn [Nat.eqb negb]; rewrite pub_compressed by done; destruct k; cbn in *; by rewrite Hv. }
  rewrite E; unfold VerifyPubKey; rewrite pub_compressed by done; rewrite eqb_reflx; cbn [negb]; by rewrite sign_own.
Qed.

Lemma VerifyPubKey_valid k pk : VerifyPubKey sign_verify k pk = true -> k.(fValid) = true.
Proof. unfold VerifyPubKey; destruct (negb _); [done|apply sign_valid]. Qed.

(** A key that is decrypted signs for the public key, and needs a master key. *)
Lemma DecryptKey_sound mk ct pk k0 : words 8 mk -> words 8 ct -> Z.of_nat (length ct) <= int_max -> length k0.(keydata) = 32%nat ->
  exists ok k, DecryptKey ubuf seckey_verify sign_verify mk ct pk k0 = Some (ok, k) /\
    (ok = true -> length mk = 32%nat /\ key_good k /\ VerifyPubKey sign_verify k pk = true).
Proof.
  intros Hm Hc Hmax H0; destruct (Hash_1_bytes ubuf pk) as [Hh Hhw]; unfold DecryptKey.
  destruct (Nat.eq_dec (length mk) 32%nat) as [Hml|Hml].
  2: { rewrite DecryptSecret_no_key by (done || (unfold pubkey_GetHash; lia)); by do 2 eexists. }
  destruct (DecryptSecret_total mk ct (pk_hash pk) []) as (ok & p & -> & Hpw); [done|done|unfold pubkey_GetHash; lia|done|done|constructor|].
  cbn [mbind option_bind]; destruct ok; cbn [negb]; [|by do 2 eexists]; destruct (Nat.eqb_spec (length p) 32) as [Hp|]; cbn [negb]; [|by do 2 eexists].
  do 2 eexists; split; [reflexivity|]; intros Hver; assert (Hv := VerifyPubKey_valid _ _ Hver); assert (Hg : key_good (key_Set seckey_verify p (IsCompressed pk) k0)).
  { unfold key_Set in *; rewrite Hp, H0 in *; cbn [Nat.eqb negb] in *; destruct (seckey_verify p) eqn:Es; [by split_and!|discriminate]. }
  split_and!; [done|apply Hg..|done].
Qed.

(** The ciphertext of an entry *)
Lemma entry_size mk k : words 8 mk -> length mk = 32%nat -> key_good k ->
  words 8 (encrypted_entry mk k).2 /\ Z.of_nat (length (encrypted_entry mk k).2) <= int_max.
Proof.
  intros Hm Hml (_ & Hl & Hw & _); destruct (Hash_1_bytes ubuf (GetPubKey k)) as [Hh Hhw]; cbn [snd encrypted_entry].
  destruct (ciphertext_blocks CBC256 mk (take 16 (pk_hash (GetPubKey k))) true k.(keydata)) as (Hcw & Hcl & _);
    [done|done|by apply Forall_take|rewrite length_take; unfold pubkey_GetHash; lia|done|by left|].
  change (secret_ciphertext mk (take 16 (pk_hash (GetPubKey k))) k.(keydata)) with (ciphertext CBC256 mk (take 16 (pk_hash (GetPubKey k))) true k.(keydata)).
  split; [exact Hcw|]; unfold ciphertext; rewrite Hcl; cbn [AesCbcClaims.cbc_message]; rewrite AesCbcClaims.pkcs7_length, Hl; vm_compute; discriminate.
Qed.

Lemma DecryptKey_locked ct pk k0 : DecryptKey ubuf seckey_verify sign_verify [] ct pk k0 = Some (false, k0).
Proof.
  destruct (Hash_1_bytes ubuf pk) as [Hh _]; unfold DecryptKey; by rewrite DecryptSecret_no_key by (done || (unfold pubkey_GetHash; lia)).
Qed.

#[local] Opaque pubkey_GetID pubkey_GetHash DecryptKey DecryptSecret EncryptSecret secret_ciphertext.

(** ** The invariant

    The comments of crypter.h: with encryption there are no plain keys, as long as
    no call of [EncryptKeys] has [failed]; without it there is no master key.
    Besides, entries are stored under the identifier of their public key, once. *)
Record store_ok (failed : bool) (st : CCryptoKeyStore) : Prop := StoreOk {
  ks_plain : failed = false -> st.(fUseCrypto) = true -> st.(mapKeys) = [];
  ks_clear : st.(fUseCrypto) = false -> st.(vMasterKey) = [] /\ st.(mapCryptedKeys) = [];
  ks_keys : Forall (fun e => key_good e.2 /\ pk_id (GetPubKey e.2) = e.1) st.(mapKeys);
  ks_keys_nodup : NoDup (map fst st.(mapKeys));
  ks_crypted : Forall (fun e => pk_id e.2.1 = e.1 /\ words 8 e.2.2 /\ Z.of_nat (length e.2.2) <= int_max) st.(mapCryptedKeys);
  ks_crypted_nodup : NoDup (map fst st.(mapCryptedKeys));
  ks_master : words 8 st.(vMasterKey) /\ (st.(vMasterKey) = [] \/ length st.(vMasterKey) = 32%nat)
}.

Lemma new_store_ok : store_ok false new_CCryptoKeyStore.
Proof. split; cbn; try done; try (by constructor); split; [constructor|by left]. Qed.

Lemma store_ok_failed fl b st : store_ok fl st -> store_ok (fl || b) st.
Proof. intros [H1 H2 H3 H4 H5 H6 H7]; split; try done; intros [Hf _]%orb_false_iff; by apply H1. Qed.

Lemma ks_keys_good {fl} st : store_ok fl st -> Forall (fun e => key_good e.2) st.(mapKeys).
Proof. intros Hok; apply (List.Forall_impl _ (fun e H => proj1 H) (ks_keys _ _ Hok)). Qed.

Lemma SetCrypted_spec st :
  SetCrypted st = (st.(fUseCrypto) || (length st.(mapKeys) =? 0)%nat,
    if (length st.(mapKeys) =? 0)%nat then Store st.(mapKeys) st.(mapCryptedKeys) st.(vMasterKey) true st.(fDecryptionThoroughlyChecked) else st).
Proof. unfold SetCrypted; by destruct st as [[|e mks] mc mk [] ch]. Qed.

Lemma SetCrypted_ok {fl} st : store_ok fl st -> store_ok fl (SetCrypted st).2.
Proof.
  intros Hok; rewrite SetCrypted_spec by done; cbn [snd]; destruct (Nat.eqb_spec (length st.(mapKeys)) 0) as [E|]; [|done].
  destruct Hok as [H1 H2 H3 H4 H5 H6 H7]; split; cbn; try done; intros _ _; by apply nil_length_inv.
Qed.

Lemma Lock_ok {fl} st : store_ok fl st -> store_ok fl (Lock st).2.
Proof.
  intros Hok; unfold Lock; assert (H := SetCrypted_ok st Hok); destruct (SetCrypted st) as [[] st']; cbn [fst snd negb] in *; [|done].
  destruct H as [H1 H2 H3 H4 H5 H6 H7]; split; cbn; try done; [intros E; split; [done|by apply H2]|split; [constructor|by left]].
Qed.

Lemma AddCryptedKey_ok {fl} pk ct st : store_ok fl st -> words 8 ct -> Z.of_nat (length ct) <= int_max -> store_ok fl (AddCryptedKey ubuf rbuf pk ct st).2.
Proof.
  intros Hok Hc Hmax; unfold AddCryptedKey; assert (H := SetCrypted_ok st Hok); rewrite SetCrypted_spec in * by done; cbn [snd] in *.
  destruct (st.(fUseCrypto) || _) eqn:E; cbn [negb snd] in *; [|done]; destruct H as [H1 H2 H3 H4 H5 H6 H7].
  assert (Hu : fUseCrypto (if (length st.(mapKeys) =? 0)%nat then Store st.(mapKeys) st.(mapCryptedKeys) st.(vMasterKey) true st.(fDecryptionThoroughlyChecked) else st) = true).
  { destruct (length st.(mapKeys) =? 0)%nat; [done|]; by rewrite orb_false_r in E. }
  split; cbn; try done.
  - intros Hf; congruence.
  - apply List.Forall_forall; intros e He; apply in_assign in He as [->|He]; [cbn [fst snd]; split_and!; [reflexivity|done|done]|]; rewrite List.Forall_forall in H5; by apply H5.
  - by apply assign_nodup.
Qed.

(** The loop of [Unlock] ends; when it passes, the master key has 32 bytes, and
    in a thorough check every entry was decrypted. *)
Lemma unlock_loop_spec checked mk m pass : words 8 mk ->
  Forall (fun e => pk_id e.2.1 = e.1 /\ words 8 e.2.2 /\ Z.of_nat (length e.2.2) <= int_max) m ->
  exists pass' fail, unlock_loop ubuf seckey_verify sign_verify checked mk m pass = Some (pass', fail) /\
    (pass' = true -> pass = true \/ length mk = 32%nat) /\
    (pass' = true -> fail = false -> checked = false ->
     Forall (fun e => exists k, DecryptKey ubuf seckey_verify sign_verify mk e.2.2 e.2.1 new_CKey = Some (true, k) /\ key_good k /\ VerifyPubKey sign_verify k e.2.1 = true) m).
Proof.
  intros Hm Hf; revert pass; induction Hf as [|[id [pk ct]] m (Hid & Hc & Hmax) _ IH]; intros pass; cbn [unlock_loop fst snd] in *.
  - exists pass, false; split_and!; [done|auto|constructor].
  - destruct (DecryptKey_sound mk ct pk new_CKey Hm Hc Hmax eq_refl) as (ok & k & E & Hk); rewrite E; cbn [mbind option_bind].
    destruct ok; cbn [negb]; [|exists pass, true; split_and!; auto; discriminate]; destruct (Hk eq_refl) as (Hml & Hg & Hp).
    destruct checked; [exists true, false; split_and!; auto; discriminate|].
    destruct (IH true) as (pass' & fail & E2 & H1 & H2); exists pass', fail; split_and!; [done|auto|].
    intros Hp' Hfl Hch; constructor; [by exists k|by apply H2].
Qed.

Lemma Unlock_spec {fl} mk st : store_ok fl st -> words 8 mk -> exists ok st', Unlock ubuf seckey_verify sign_verify mk st = Some (ok, st') /\ store_ok fl st' /\
  st'.(mapCryptedKeys) = st.(mapCryptedKeys) /\ st'.(mapKeys) = st.(mapKeys) /\
  (ok = false -> st' = (SetCrypted st).2) /\
  (ok = true -> st'.(fUseCrypto) = true /\ st'.(vMasterKey) = mk /\ length mk = 32%nat /\ st'.(fDecryptionThoroughlyChecked) = true /\
    (st.(fDecryptionThoroughlyChecked) = false ->
     Forall (fun e => exists k, DecryptKey ubuf seckey_verify sign_verify mk e.2.2 e.2.1 new_CKey = Some (true, k) /\ key_good k /\ VerifyPubKey sign_verify k e.2.1 = true) st.(mapCryptedKeys))).
Proof.
  intros Hok Hm; assert (Hs := SetCrypted_ok st Hok); unfold Unlock; rewrite SetCrypted_spec in * by done; cbn [snd] in *.
  set (st1 := if (length st.(mapKeys) =? 0)%nat then _ else st) in *.
  assert (E1 : st1.(mapCryptedKeys) = st.(mapCryptedKeys) /\ st1.(mapKeys) = st.(mapKeys) /\ st1.(fDecryptionThoroughlyChecked) = st.(fDecryptionThoroughlyChecked)).
  { unfold st1; by destruct (length st.(mapKeys) =? 0)%nat. }
  destruct E1 as (Ec & Ek & Eh); destruct (st.(fUseCrypto) || _) eqn:E; cbn [negb]; [|exists false, st1; split_and!; done].
  assert (Hu : st1.(fUseCrypto) = true) by (unfold st1; destruct (length st.(mapKeys) =? 0)%nat; [done|]; by rewrite orb_false_r in E).
  destruct (unlock_loop_spec st1.(fDecryptionThoroughlyChecked) mk st1.(mapCryptedKeys) false Hm (ks_crypted _ _ Hs)) as (pass & fail & -> & H1 & H2).
  cbn [mbind option_bind]; destruct fail, pass; cbn [orb negb]; try (exists false, st1; split_and!; done).
  destruct (H1 eq_refl) as [|Hml]; [done|]; eexists true, _; split; [reflexivity|]; cbn [mapCryptedKeys mapKeys fUseCrypto vMasterKey fDecryptionThoroughlyChecked].
  split; [|split_and!; [done|done|done|intros _; split_and!; [done|done|done|done|rewrite <- Ec, <- Eh; auto]]].
  destruct Hs as [P1 P2 P3 P4 P5 P6 P7]; split; cbn; try done; [intros Hf; congruence|split; [done|by right]].
Qed.

Lemma AddKey_spec {fl} k st : store_ok fl st -> key_good k -> exists ok st', AddKeyPubKey ubuf rbuf k (GetPubKey k) st = Some (ok, st') /\ store_ok fl st' /\
  ok = negb (IsLocked st) /\ (ok = false -> st' = st).
Proof.
  intros Hok Hk; unfold AddKeyPubKey; destruct st.(fUseCrypto) eqn:Eu; cbn [negb].
  - destruct (IsLocked st) eqn:El; [by exists false, st|].
    assert (Hml : length st.(vMasterKey) = 32%nat).
    { unfold IsLocked in El; rewrite Eu in El; cbn [negb] in El; apply Nat.eqb_neq in El; destruct (ks_master _ _ Hok) as [_ [E|]]; [by rewrite E in El|done]. }
    rewrite EncryptSecret_key by (done || apply (ks_master _ _ Hok)); rewrite Hml; cbn [Nat.eqb mbind option_bind negb].
    destruct (entry_size st.(vMasterKey) k) as [Hc Hmax]; [apply (ks_master _ _ Hok)|done|done|].
    assert (Hs := AddCryptedKey_ok (GetPubKey k) _ st Hok Hc Hmax); assert (Ht : (AddCryptedKey ubuf rbuf (GetPubKey k) (encrypted_entry st.(vMasterKey) k).2 st).1 = true).
    { unfold AddCryptedKey; rewrite SetCrypted_spec by done; by rewrite Eu. }
    destruct (AddCryptedKey _ _ _ _ st) as [ok st']; cbn [fst snd] in *; subst ok; cbn [negb]; exists true, st'; split_and!; done.
  - eexists true, _; split; [reflexivity|]; split; [|split; [unfold IsLocked; by rewrite Eu|done]].
    destruct Hok as [H1 H2 H3 H4 H5 H6 H7]; split; cbn [fUseCrypto mapKeys mapCryptedKeys vMasterKey]; try done; try congruence.
    + auto.
    + apply List.Forall_forall; intros e He; apply in_assign in He as [->|He]; [by split|]; rewrite List.Forall_forall in H3; by apply H3.
    + by apply assign_nodup.
Qed.

(** The entries that [EncryptKeys] makes *)
Definition encrypt_all (mk : list Z) (m : list (list Z * CKey)) (r : list (list Z * (list Z * list Z))) : list (list Z * (list Z * list Z)) :=
  fold_left (fun r e => map_assign (pk_id (GetPubKey e.2)) (encrypted_entry mk e.2) r) m r.

Lemma encrypt_loop_spec mk m st : words 8 mk -> length mk = 32%nat -> st.(fUseCrypto) = true -> Forall (fun e => key_good e.2) m ->
  encrypt_loop ubuf rbuf GetPubKey mk m st =
  Some (true, Store st.(mapKeys) (encrypt_all mk m st.(mapCryptedKeys)) st.(vMasterKey) true st.(fDecryptionThoroughlyChecked)).
Proof.
  intros Hm Hml Hu Hf; revert st Hu; induction Hf as [|[id k] m Hk _ IH]; intros st Hu; cbn [encrypt_loop encrypt_all fold_left].
  - destruct st; cbn in *; by subst.
  - cbn [snd] in Hk; rewrite EncryptSecret_key by done; rewrite Hml; cbn [Nat.eqb mbind option_bind negb]; unfold AddCryptedKey, SetCrypted; rewrite Hu; cbn [negb].
    rewrite IH by done; done.
Qed.

Lemma EncryptKeys_spec {fl} mk st : store_ok fl st -> words 8 mk -> length mk = 32%nat -> st.(fUseCrypto) = false ->
  EncryptKeys ubuf rbuf GetPubKey mk st = Some (true, Store [] (encrypt_all mk st.(mapKeys) []) [] true st.(fDecryptionThoroughlyChecked)).
Proof.
  intros Hok Hm Hml Hu; destruct (ks_clear _ _ Hok Hu) as [Emk Emc]; unfold EncryptKeys; rewrite Hu, Emc, Emk; cbn [length Nat.ltb Nat.leb orb mapKeys].
  rewrite encrypt_loop_spec; [done|done|done|done|]; by eapply ks_keys_good.
Qed.

Lemma encrypt_all_ok mk m r : words 8 mk -> length mk = 32%nat -> Forall (fun e => key_good e.2) m ->
  Forall (fun e => pk_id e.2.1 = e.1 /\ words 8 e.2.2 /\ Z.of_nat (length e.2.2) <= int_max) r -> NoDup (map fst r) ->
  Forall (fun e => pk_id e.2.1 = e.1 /\ words 8 e.2.2 /\ Z.of_nat (length e.2.2) <= int_max) (encrypt_all mk m r) /\ NoDup (map fst (encrypt_all mk m r)).
Proof.
  intros Hm Hml Hf; revert r; induction Hf as [|e m Hk _ IH]; intros r Hr Hn; cbn [encrypt_all fold_left]; [done|]; apply IH; [|by apply assign_nodup].
  apply List.Forall_forall; intros x Hx; apply in_assign in Hx as [->|Hx]; [|rewrite List.Forall_forall in Hr; by apply Hr].
  destruct (entry_size mk e.2 Hm Hml Hk); cbn [fst snd encrypted_entry] in *; split_and!; [reflexivity|done|done].
Qed.

(** With a master key of another size nothing is encrypted, and the attempt fails
    if there is something to encrypt. *)
Lemma EncryptKeys_other mk st {fl} : store_ok fl st -> words 8 mk -> length mk <> 32%nat -> st.(fUseCrypto) = false ->
  EncryptKeys ubuf rbuf GetPubKey mk st = Some ((length st.(mapKeys) =? 0)%nat, Store st.(mapKeys) [] [] true st.(fDecryptionThoroughlyChecked)).
Proof.
  intros Hok Hm Hml Hu; destruct (ks_clear _ _ Hok Hu) as [Emk Emc]; unfold EncryptKeys; rewrite Hu, Emc, Emk; cbn [length Nat.ltb Nat.leb orb mapKeys].
  pose proof (ks_keys_good _ Hok) as Hg; destruct st.(mapKeys) as [|[a k] m] eqn:E; cbn [encrypt_loop length Nat.eqb]; [reflexivity|]; inversion Hg as [|? ? Hk]; subst.
  rewrite EncryptSecret_key by done; destruct (Nat.eqb_spec (length mk) 32); [done|]; reflexivity.
Qed.

(** The flag says whether this call failed although the store was not encrypted. *)
Lemma EncryptKeys_ok mk st ok st' {fl} : store_ok fl st -> words 8 mk -> EncryptKeys ubuf rbuf GetPubKey mk st = Some (ok, st') ->
  store_ok (fl || (negb ok && negb st.(fUseCrypto))) st'.
Proof.
  intros Hok Hm; destruct st.(fUseCrypto) eqn:Eu; [unfold EncryptKeys; rewrite Eu, orb_true_r; intros [= <- <-]; by apply store_ok_failed|].
  destruct (Nat.eq_dec (length mk) 32%nat) as [Hml|Hml].
  - rewrite (EncryptKeys_spec mk st Hok) by done; intros [= <- <-].
    destruct (encrypt_all_ok mk st.(mapKeys) [] Hm Hml) as [H1 H2]; [exact (ks_keys_good _ Hok)|constructor|constructor|].
    split; cbn [fUseCrypto mapKeys mapCryptedKeys vMasterKey]; try done; try (by constructor); split; [constructor|by left].
  - rewrite (EncryptKeys_other mk st Hok) by done; intros [= <- <-]; destruct Hok as [H1 H2 H3 H4 H5 H6 H7].
    split; cbn [fUseCrypto mapKeys mapCryptedKeys vMasterKey]; try done; try (by constructor); [|split; [constructor|by left]].
    intros Hfl _; rewrite andb_true_r in Hfl; apply orb_false_iff in Hfl as [_ Hz]; apply negb_false_iff, Nat.eqb_eq in Hz; by apply nil_length_inv.
Qed.

(** ** Reading encrypted keys *)

Lemma GetKey_total {fl} a st k0 : store_ok fl st -> length k0.(keydata) = 32%nat -> exists ok k, GetKey ubuf seckey_verify sign_verify a st k0 = Some (ok, k).
Proof.
  intros Hok H0; unfold GetKey; destruct st.(fUseCrypto); cbn [negb].
  - destruct (map_find a st.(mapCryptedKeys)) as [[pk ct]|] eqn:E; [|by do 2 eexists].
    apply find_some in E; pose proof (ks_crypted _ _ Hok) as Hc; rewrite List.Forall_forall in Hc; destruct (Hc _ E) as (_ & Hw & Hmax).
    destruct (DecryptKey_sound st.(vMasterKey) ct pk k0) as (ok & k & -> & _); [apply (ks_master _ _ Hok)|done|done|done|by do 2 eexists].
  - destruct (map_find a st.(mapKeys)); by do 2 eexists.
Qed.

Lemma find_encrypt_all {fl} mk st a : store_ok fl st -> map_find a (encrypt_all mk st.(mapKeys) []) = encrypted_entry mk <$> map_find a st.(mapKeys).
Proof.
  intros Hok; unfold encrypt_all; rewrite (find_assign_all (encrypted_entry mk) (fun e => pk_id (GetPubKey e.2))); [by destruct (map_find a _)|apply (ks_keys_nodup _ _ Hok)|].
  apply (List.Forall_impl _ (fun e H => proj2 H) (ks_keys _ _ Hok)).
Qed.

(** Entries that decrypt let [Unlock] pass. *)
Lemma unlock_loop_pass checked mk m pass : Forall (fun e => exists k, DecryptKey ubuf seckey_verify sign_verify mk e.2.2 e.2.1 new_CKey = Some (true, k)) m ->
  unlock_loop ubuf seckey_verify sign_verify checked mk m pass = Some (pass || negb (length m =? 0)%nat, false).
Proof.
  intros Hf; revert pass; induction Hf as [|[id [pk ct]] m [k E] _ IH]; intros pass; cbn [unlock_loop fst snd length Nat.eqb negb] in *; [by rewrite orb_false_r|].
  rewrite E; cbn [mbind option_bind negb]; rewrite IH; destruct checked; by rewrite ?orb_true_l, ?orb_true_r.
Qed.

Lemma encrypt_all_decrypts mk m r : words 8 mk -> length mk = 32%nat -> Forall (fun e => key_good e.2) m ->
  Forall (fun e => exists k, DecryptKey ubuf seckey_verify sign_verify mk e.2.2 e.2.1 new_CKey = Some (true, k)) r ->
  Forall (fun e => exists k, DecryptKey ubuf seckey_verify sign_verify mk e.2.2 e.2.1 new_CKey = Some (true, k)) (encrypt_all mk m r).
Proof.
  intros Hm Hml Hf; revert r; induction Hf as [|e m Hk _ IH]; intros r Hr; cbn [encrypt_all fold_left]; [done|]; apply IH.
  apply List.Forall_forall; intros x Hx; apply in_assign in Hx as [->|Hx]; [|rewrite List.Forall_forall in Hr; by apply Hr].
  exists e.2; by apply DecryptKey_entry.
Qed.

Lemma Unlock_encrypted {fl} mk st : store_ok fl st -> st.(mapKeys) <> [] -> words 8 mk -> length mk = 32%nat ->
  Unlock ubuf seckey_verify sign_verify mk (Store [] (encrypt_all mk st.(mapKeys) []) [] true st.(fDecryptionThoroughlyChecked)) =
  Some (true, Store [] (encrypt_all mk st.(mapKeys) []) mk true true).
Proof.
  intros Hok Hne Hm Hml; unfold Unlock; cbn [SetCrypted fUseCrypto negb mapCryptedKeys fDecryptionThoroughlyChecked mapKeys].
  rewrite unlock_loop_pass by (apply encrypt_all_decrypts; [done|done|by eapply ks_keys_good|constructor]).
  destruct st.(mapKeys) as [|[a k] m] eqn:E; [done|]; destruct (encrypt_all mk ((a, k) :: m) []) eqn:E2; [|done].
  exfalso; assert (H := find_encrypt_all mk st a Hok); rewrite E, E2 in H; cbn [map_find] in H; by rewrite bool_decide_eq_true_2 in H.
Qed.

(** ** Steps of a store *)

(** The operations, with keys as CKey::Set leaves them and their public keys, and
    with any bytes as ciphertexts and master keys.  The flag marks a call of
    [EncryptKeys] that fails on a store that is not encrypted. *)
Inductive ks_step (st st' : CCryptoKeyStore) : bool -> Prop :=
  | step_lock ok : Lock st = (ok, st') -> ks_step st st' false
  | step_unlock mk ok : words 8 mk -> Unlock ubuf seckey_verify sign_verify mk st = Some (ok, st') -> ks_step st st' false
  | step_add k ok : key_good k -> AddKeyPubKey ubuf rbuf k (GetPubKey k) st = Some (ok, st') -> ks_step st st' false
  | step_add_crypted pk ct ok : words 8 ct -> Z.of_nat (length ct) <= int_max -> AddCryptedKey ubuf rbuf pk ct st = (ok, st') -> ks_step st st' false
  | step_encrypt mk ok : words 8 mk -> EncryptKeys ubuf rbuf GetPubKey mk st = Some (ok, st') -> ks_step st st' (negb ok && negb st.(fUseCrypto)).

Lemma step_ok fl st st' b : store_ok fl st -> ks_step st st' b -> store_ok (fl || b) st'.
Proof.
  intros Hok; destruct 1 as [ok E|mk ok Hm E|k ok Hk E|pk ct ok Hc Hmax E|mk ok Hm E]; rewrite ?orb_false_r.
  - assert (H := Lock_ok st Hok); by rewrite E in H.
  - destruct (Unlock_spec mk st Hok Hm) as (ok' & s & E' & H & _); rewrite E in E'; by injection E' as <- <-.
  - destruct (AddKey_spec k st Hok Hk) as (ok' & s & E' & H & _); rewrite E in E'; by injection E' as <- <-.
  - assert (H := AddCryptedKey_ok pk ct st Hok Hc Hmax); by rewrite E in H.
  - by apply (EncryptKeys_ok mk st ok).
Qed.

(** The stores that sequences of operations lead to, and whether an encryption has
    failed on the way. *)
Inductive reachable : bool -> CCryptoKeyStore -> Prop :=
  | reachable_new : reachable false new_CCryptoKeyStore
  | reachable_step failed st b st' : reachable failed st -> ks_step st st' b -> reachable (failed || b) st'.

Lemma reachable_ok fl st : reachable fl st -> store_ok fl st.
Proof. induction 1 as [|fl st b st' _ IH Hs]; [exact new_store_ok|exact (step_ok fl st st' b IH Hs)]. Qed.

End Store.

#[local] Opaque pubkey_GetID pubkey_GetHash DecryptKey DecryptSecret EncryptSecret secret_ciphertext.

(** ** A model of the operations on the curve

    Here the public key is the private key itself behind the byte of its form: enough to show that the promises can be kept together. *)

Definition toy_pub (k : CKey) : list Z := if k.(fCompressed) then 2 :: k.(keydata) else 4 :: k.(keydata) ++ k.(keydata).
Definition toy_sign (k : CKey) (pk : list Z) : bool := k.(fValid) && bool_decide (toy_pub k = pk).

#[export] Instance toy_laws : KeyLaws (fun _ => true) toy_pub toy_sign.
Proof.
  split.
  - intros k (_ & Hl & _); unfold toy_pub, IsCompressed; destruct k.(fCompressed); cbn [length]; rewrite ?length_app, Hl; done.
  - intros k (Hv & _); unfold toy_sign; rewrite Hv; cbn [andb]; by apply bool_decide_eq_true_2.
  - intros k pk; unfold toy_sign; by destruct k.(fValid).
Qed.

Definition toy_key : CKey := Key true true (replicate 32 7).
Definition toy_store : CCryptoKeyStore := Store [(pubkey_GetID [] [] (toy_pub toy_key), toy_key)] [] [] false false.

Lemma toy_key_ok : key_ok (fun _ => true) toy_key.
Proof. split_and!; [done|done|by apply Forall_replicate|done]. Qed.

Lemma toy_reachable : reachable [] [] (fun _ => true) toy_pub toy_sign false toy_store.
Proof. apply (reachable_step _ _ _ _ _ false _ false _ (reachable_new _ _ _ _ _)), (step_add _ _ _ _ _ _ _ toy_key true); [apply toy_key_ok|reflexivity]. Qed.

(** The store after the encryption of its key *)
Definition toy_locked (mk : list Z) : CCryptoKeyStore := Store [] (encrypt_all [] [] toy_pub mk toy_store.(mapKeys) []) [] true false.

Lemma toy_locked_reachable mk : words 8 mk -> length mk = 32%nat -> reachable [] [] (fun _ => true) toy_pub toy_sign false (toy_locked mk).
Proof.
  intros Hm Hl; apply (reachable_step _ _ _ _ _ false _ false _ toy_reachable), (step_encrypt _ _ _ _ _ _ _ mk true); [done|].
  apply (EncryptKeys_spec [] [] (fun _ => true) toy_pub mk toy_store (reachable_ok _ _ _ _ _ _ _ toy_reachable)); done.
Qed.

(** ** The theorems *)

Section Claims.
Context (ubuf rbuf : list Z).
Context (seckey_verify : list Z -> bool) (GetPubKey : CKey -> list Z) (sign_verify : CKey -> list Z -> bool).

(** C38 (invariant): whatever operations are performed on a key store, master keys
    of any size included, the master key is empty or has 32 bytes, without encryption
    it is empty and nothing is encrypted, every entry is stored under the identifier
    of its public key and no identifier twice; with encryption there is no plain key,
    unless a call of [EncryptKeys] has failed before; every further operation and
    every reading of a key returns, and [EncryptKeys] succeeds exactly on a store
    that is not encrypted, with a master key of 32 bytes or without keys. *)
Theorem key_store_invariant {L : KeyLaws seckey_verify GetPubKey sign_verify} (failed : bool) (st : CCryptoKeyStore) :
  reachable ubuf rbuf seckey_verify GetPubKey sign_verify failed st ->
  store_ok ubuf rbuf seckey_verify GetPubKey failed st /\
  (forall mk, words 8 mk -> is_Some (Unlock ubuf seckey_verify sign_verify mk st)) /\
  (forall k, key_ok seckey_verify k -> exists st', AddKeyPubKey ubuf rbuf k (GetPubKey k) st = Some (negb (IsLocked st), st')) /\
  (forall mk, words 8 mk -> exists st', EncryptKeys ubuf rbuf GetPubKey mk st =
     Some (negb st.(fUseCrypto) && ((length mk =? 32)%nat || (length st.(mapKeys) =? 0)%nat), st')) /\
  (forall a k0, length k0.(keydata) = 32%nat -> is_Some (GetKey ubuf seckey_verify sign_verify a st k0)).
Proof.
  intros Hok%reachable_ok; [|done]; split_and!; [done|..].
  - intros mk Hm; destruct (Unlock_spec _ _ _ _ _ mk st Hok Hm) as (ok & st' & -> & _); by eexists.
  - intros k Hk; destruct (AddKey_spec _ _ _ _ k st Hok Hk) as (ok & st' & -> & _ & -> & _); by eexists.
  - intros mk Hm; destruct st.(fUseCrypto) eqn:Eu; [unfold EncryptKeys; rewrite Eu, orb_true_r; by eexists|].
    destruct (Nat.eqb_spec (length mk) 32) as [Hml|Hml]; cbn [negb andb orb]; [rewrite (EncryptKeys_spec _ _ seckey_verify _ mk st Hok) by done|rewrite (EncryptKeys_other _ _ seckey_verify _ mk st Hok) by done]; by eexists.
  - intros a k0 H0; destruct (GetKey_total _ _ _ _ _ a st k0 Hok H0) as (ok & k & ->); by eexists.
Qed.

(** C39 (refinement): encrypting a store of plain keys changes its representation and
    nothing else: [EncryptKeys] with a master key of 32 bytes succeeds, no plain key is left and the store is locked, so that no key can be
    read although the store still has the same addresses; [Unlock] with the same master
    key succeeds, and then [GetKey] and [HaveKey] give at every address what they gave before. *)
Theorem encrypt_keys_refinement {L : KeyLaws seckey_verify GetPubKey sign_verify} (failed : bool) (st : CCryptoKeyStore) (mk : list Z) :
  reachable ubuf rbuf seckey_verify GetPubKey sign_verify failed st -> st.(fUseCrypto) = false -> st.(mapKeys) <> [] ->
  words 8 mk -> length mk = 32%nat ->
  exists st1 st2,
    EncryptKeys ubuf rbuf GetPubKey mk st = Some (true, st1) /\ st1.(mapKeys) = [] /\ IsLocked st1 = true /\
    (forall a, HaveKey a st1 = HaveKey a st) /\
    (forall a k0, GetKey ubuf seckey_verify sign_verify a st1 k0 = Some (false, k0)) /\
    Unlock ubuf seckey_verify sign_verify mk st1 = Some (true, st2) /\ IsLocked st2 = false /\
    (forall a, HaveKey a st2 = HaveKey a st) /\
    (forall a k0, length k0.(keydata) = 32%nat ->
      GetKey ubuf seckey_verify sign_verify a st2 k0 = GetKey ubuf seckey_verify sign_verify a st k0).
Proof.
  intros Hok%reachable_ok Eu Hne Hm Hml; [|done].
  do 2 eexists; split; [exact (EncryptKeys_spec _ _ seckey_verify _ mk st Hok Hm Hml Eu)|]; cbn [mapKeys].
  assert (Hhave : forall a v ch, HaveKey a (Store [] (encrypt_all ubuf rbuf GetPubKey mk st.(mapKeys) []) v true ch) = HaveKey a st).
  { intros a v ch; unfold HaveKey; rewrite Eu; cbn [fUseCrypto negb mapCryptedKeys]; rewrite (find_encrypt_all _ _ seckey_verify _ mk st a Hok).
    by destruct (map_find a st.(mapKeys)). }
  split_and!; [done|done|intros; apply Hhave| |exact (Unlock_encrypted _ _ _ _ _ mk st Hok Hne Hm Hml)| |intros; apply Hhave|].
  - intros a k0; unfold GetKey; cbn [fUseCrypto negb mapCryptedKeys vMasterKey]; destruct (map_find a _) as [[pk ct]|]; [apply DecryptKey_locked|done].
  - unfold IsLocked; cbn [fUseCrypto negb vMasterKey]; by rewrite Hml.
  - intros a k0 H0; unfold GetKey; rewrite Eu; cbn [fUseCrypto negb mapCryptedKeys vMasterKey]; rewrite (find_encrypt_all _ _ seckey_verify _ mk st a Hok).
    destruct (map_find a st.(mapKeys)) as [k|] eqn:E; cbn [fmap option_fmap option_map]; [|done].
    apply find_some in E; pose proof (ks_keys_good _ _ _ _ _ Hok) as Hk; rewrite List.Forall_forall in Hk.
    exact (DecryptKey_entry ubuf seckey_verify GetPubKey sign_verify mk k k0 Hm Hml (Hk _ E) H0).
Qed.

(** C40 (safety): [Unlock] with any bytes returns; it succeeds only with a key of 32
    bytes, and the first success proves the master key for the whole store: every
    stored secret decrypts to a valid private key that signs for the public key
    beside it.  After a failure no master key was taken over: at most the store was marked as encrypted. *)
Theorem unlock_sound {L : KeyLaws seckey_verify GetPubKey sign_verify} (failed : bool) (st : CCryptoKeyStore) (mk : list Z) :
  reachable ubuf rbuf seckey_verify GetPubKey sign_verify failed st -> words 8 mk ->
  exists ok st', Unlock ubuf seckey_verify sign_verify mk st = Some (ok, st') /\
    st'.(mapKeys) = st.(mapKeys) /\ st'.(mapCryptedKeys) = st.(mapCryptedKeys) /\
    (ok = false -> st' = (SetCrypted st).2) /\
    (ok = true -> length mk = 32%nat /\ st'.(vMasterKey) = mk /\ IsLocked st' = false /\
      (st.(fDecryptionThoroughlyChecked) = false ->
       Forall (fun e => exists k, DecryptKey ubuf seckey_verify sign_verify mk e.2.2 e.2.1 new_CKey = Some (true, k) /\
         key_ok seckey_verify k /\ VerifyPubKey sign_verify k e.2.1 = true) st.(mapCryptedKeys))).
Proof.
  intros Hok%reachable_ok Hm; [|done]; destruct (Unlock_spec _ _ _ _ _ mk st Hok Hm) as (ok & st' & E & _ & Hc & Hk & Hf & Ht).
  exists ok, st'; split_and!; [done|done|done|done|]; intros Eok; destruct (Ht Eok) as (Hu & Hv & Hl & _ & Hall).
  split_and!; [done|done| |done]; unfold IsLocked; by rewrite Hu, Hv, Hl.
Qed.

(** Encrypting with a master key of another size fails, but only after the store was
    marked as encrypted: the plain keys are still there, which the comment on
    [fUseCrypto] excludes, and no key is found any more. *)
Theorem failed_encryption_breaks_invariant {L : KeyLaws seckey_verify GetPubKey sign_verify} (failed : bool) (st : CCryptoKeyStore) (mk : list Z) :
  reachable ubuf rbuf seckey_verify GetPubKey sign_verify failed st -> st.(fUseCrypto) = false -> st.(mapKeys) <> [] ->
  words 8 mk -> length mk <> 32%nat ->
  exists st', EncryptKeys ubuf rbuf GetPubKey mk st = Some (false, st') /\ st'.(fUseCrypto) = true /\ st'.(mapKeys) = st.(mapKeys) /\
    forall a, HaveKey a st' = false.
Proof.
  intros Hok%reachable_ok Eu Hne Hm Hml; [|done]; rewrite (EncryptKeys_other _ _ seckey_verify _ mk st Hok) by done.
  assert (E : (length st.(mapKeys) =? 0)%nat = false) by (apply Nat.eqb_neq; by destruct st.(mapKeys)); rewrite E.
  eexists; split; [reflexivity|]; cbn [fUseCrypto mapKeys HaveKey]; split_and!; [done|done|]; intros; by apply bool_decide_eq_false_2.
Qed.

End Claims.

(** ** Witnesses *)

Lemma key_store_invariant_witness :
  store_ok [] [] (fun _ => true) toy_pub false toy_store /\ (exists st', EncryptKeys [] [] toy_pub (replicate 32 9) toy_store = Some (true, st')) /\
  exists st', EncryptKeys [] [] toy_pub [9] toy_store = Some (false, st').
Proof.
  destruct (key_store_invariant [] [] (fun _ => true) toy_pub toy_sign false toy_store toy_reachable) as (H1 & _ & _ & H2 & _).
  split; [exact H1|]; split; [apply (H2 (replicate 32 9)); by apply Forall_replicate|apply (H2 [9]); by constructor].
Defined.

Lemma encrypt_keys_refinement_witness : exists st1 st2,
  EncryptKeys [] [] toy_pub (replicate 32 9) toy_store = Some (true, st1) /\ IsLocked st1 = true /\
  Unlock [] (fun _ => true) toy_sign (replicate 32 9) st1 = Some (true, st2) /\
  GetKey [] (fun _ => true) toy_sign (pubkey_GetID [] [] (toy_pub toy_key)) st2 new_CKey = Some (true, toy_key).
Proof.
  destruct (encrypt_keys_refinement [] [] (fun _ => true) toy_pub toy_sign false toy_store (replicate 32 9)) as (st1 & st2 & H1 & _ & H2 & _ & _ & H3 & _ & _ & H4).
  - exact toy_reachable.
  - reflexivity.
  - discriminate.
  - by apply Forall_replicate.
  - reflexivity.
  - exists st1, st2; split_and!; [exact H1|exact H2|exact H3|]; rewrite H4 by reflexivity.
    unfold GetKey, toy_store; cbn [fUseCrypto negb mapKeys map_find]; by rewrite bool_decide_eq_true_2.
Defined.

Lemma unlock_sound_witness : exists st', Unlock [] (fun _ => true) toy_sign (replicate 32 9) (toy_locked (replicate 32 9)) = Some (true, st') /\
  IsLocked st' = false /\ Forall (fun e => exists k, VerifyPubKey toy_sign k e.2.1 = true) (toy_locked (replicate 32 9)).(mapCryptedKeys).
Proof.
  assert (Hm : words 8 (replicate 32 9)) by by apply Forall_replicate.
  assert (Hu : Unlock [] (fun _ => true) toy_sign (replicate 32 9) (toy_locked (replicate 32 9)) =
    Some (true, Store [] (toy_locked (replicate 32 9)).(mapCryptedKeys) (replicate 32 9) true true)).
  { apply (Unlock_encrypted [] [] (fun _ => true) toy_pub toy_sign (replicate 32 9) toy_store (reachable_ok _ _ _ _ _ _ _ toy_reachable)); [discriminate|exact Hm|reflexivity]. }
  destruct (unlock_sound [] [] (fun _ => true) toy_pub toy_sign false (toy_locked (replicate 32 9)) (replicate 32 9)) as (ok & st' & H1 & _ & _ & _ & H2).
  - apply toy_locked_reachable; [exact Hm|reflexivity].
  - exact Hm.
  - rewrite Hu in H1; injection H1 as <- <-; destruct (H2 eq_refl) as (_ & _ & H3 & H4); eexists; split_and!; [exact Hu|exact H3|].
    apply (List.Forall_impl _ (fun e (H : exists k, _ /\ _ /\ _) => let (k, Hk) := H in ex_intro _ k (proj2 (proj2 Hk))) (H4 eq_refl)).
Defined.
