(* ===== verification/BlockMerkle.v ===== *)
(** The Merkle tree of the transactions of a block: consensus/merkle.cpp, which
    computes the root and the branch of a leaf in constant space.

    [ubuf] is the array [buf] of new hash objects.  [None] is undefined behaviour
    of C++: a shift by the width of the type or more, or an access out of range. *)

From S2P Require Import Prelude MdHash Hash Serialize Block.

Section Merkle.
Context (ubuf : list Z).

(** ** consensus/merkle.cpp *)

(** The local variables [h] and [matchh], and the vector [*pbranch]; [None] is a
    null pointer. *)
Record mc_vars := McVars { mc_h : list Z; mc_matchh : bool; mc_branch : option (list (list Z)) }.

(** The block [if (pbranch)] where [h] is combined with [inner[level]] *)
Definition push_branch (matchlevel : Z) (level : nat) (i : list Z) (v : mc_vars) : mc_vars :=
  match v.(mc_branch) with
  | None => v
  | Some b =>
    if v.(mc_matchh) then McVars v.(mc_h) true (Some (b ++ [i]))
    else if matchlevel =? Z.of_nat level then McVars v.(mc_h) true (Some (b ++ [v.(mc_h)]))
    else v
  end.

(** [CHash256().Write(i.begin(), 32).Write(h.begin(), 32).Finalize(h.begin())] *)
Definition combine (i : list Z) (v : mc_vars) : mc_vars :=
  McVars (CHash256_Finalize (CHash256_Write (CHash256_Write (new_hasher (M := Sha2.CSHA256) ubuf) i) v.(mc_h))).1 v.(mc_matchh) v.(mc_branch).

(** [((uint32_t)1) << level] *)
Definition bit32 (level : nat) : Z := u32 (Z.shiftl 1 (Z.of_nat level)).

(** [for (level = 0; !(count & (1 << level)); level++)]: the level, the variables and
    [mutated]; after 32 turns the shift is undefined. *)
Fixpoint leaf_loop (fuel : nat) (count : Z) (inner : list (list Z)) (matchlevel : Z) (level : nat) (v : mc_vars) (mutated : bool) :
  option (nat * mc_vars * bool) :=
  match fuel with
  | O => None
  | S fuel =>
    if Z.land count (bit32 level) =? 0 then
      i ← inner !! level;
      let v := push_branch matchlevel level i v in
      let mutated := mutated || bool_decide (i = v.(mc_h)) in
      leaf_loop fuel count inner matchlevel (S level) (combine i v) mutated
    else Some (level, v, mutated)
  end.

Record mc_state := McState { mc_count : Z; mc_inner : list (list Z); mc_matchlevel : Z; mc_pbranch : option (list (list Z)); mc_mutated : bool }.

(** A turn of [while (count < leaves.size())] *)
Definition leaf_step (leaves : list (list Z)) (branchpos : Z) (st : mc_state) : option mc_state :=
  h ← leaves !! Z.to_nat st.(mc_count);
  let matchh := st.(mc_count) =? branchpos in
  let count := u32 (st.(mc_count) + 1) in
  '(level, v, mutated) ← leaf_loop 32 count st.(mc_inner) st.(mc_matchlevel) 0 (McVars h matchh st.(mc_pbranch)) st.(mc_mutated);
  Some (McState count (<[level := v.(mc_h)]> st.(mc_inner)) (if v.(mc_matchh) then Z.of_nat level else st.(mc_matchlevel)) v.(mc_branch) mutated).

(** Every turn takes a leaf, so that the number of leaves is enough fuel; when [count]
    wraps around, the loop does not end. *)
Fixpoint leaves_loop (fuel : nat) (leaves : list (list Z)) (branchpos : Z) (st : mc_state) : option mc_state :=
  if st.(mc_count) <? Z.of_nat (length leaves) then
    match fuel with
    | O => None
    | S fuel => st ← leaf_step leaves branchpos st; leaves_loop fuel leaves branchpos st
    end
  else Some st.

(** [while (!(count & (1 << level))) level++;] *)
Fixpoint skip_zeros (fuel : nat) (count : Z) (level : nat) : option nat :=
  match fuel with
  | O => None
  | S fuel => if Z.land count (bit32 level) =? 0 then skip_zeros fuel count (S level) else Some level
  end.

(** The inner loop of the sweep *)
Fixpoint sweep_up (fuel : nat) (count : Z) (inner : list (list Z)) (matchlevel : Z) (level : nat) (v : mc_vars) : option (nat * mc_vars) :=
  match fuel with
  | O => None
  | S fuel =>
    if Z.land count (bit32 level) =? 0 then
      i ← inner !! level;
      sweep_up fuel count inner matchlevel (S level) (combine i (push_branch matchlevel level i v))
    else Some (level, v)
  end.

(** The body of [while (count != (1 << level))]: [if (pbranch && matchh)], and the
    hash of [h] with itself. *)
Definition duplicate (v : mc_vars) : mc_vars :=
  combine v.(mc_h)
    (match v.(mc_branch) with
     | Some b => if v.(mc_matchh) then McVars v.(mc_h) v.(mc_matchh) (Some (b ++ [v.(mc_h)])) else v
     | None => v
     end).

(** Every turn goes up a level. *)
Fixpoint sweep_loop (fuel : nat) (count : Z) (inner : list (list Z)) (matchlevel : Z) (level : nat) (v : mc_vars) : option mc_vars :=
  match fuel with
  | O => None
  | S fuel =>
    if negb (count =? bit32 level) then
      let v := duplicate v in
      let count := u32 (count + bit32 level) in
      let level := S level in
      '(level, v) ← sweep_up (32 - level) count inner matchlevel level v;
      sweep_loop fuel count inner matchlevel level v
    else Some v
  end.

(** The values of [*proot], [*pmutated] and [*pbranch] *)
Definition MerkleComputation (leaves : list (list Z)) (branchpos : Z) (pbranch : option (list (list Z))) :
  option (list Z * bool * option (list (list Z))) :=
  let pbranch := match pbranch with Some _ => Some [] | None => None end in
  if (length leaves =? 0)%nat then Some (uint256_null, false, pbranch)
  else
    st ← leaves_loop (length leaves) leaves branchpos (McState 0 (replicate 32 uint256_null) (-1) pbranch false);
    level ← skip_zeros 32 st.(mc_count) 0;
    h ← st.(mc_inner) !! level;
    let matchh := st.(mc_matchlevel) =? Z.of_nat level in
    v ← sweep_loop (32 - level) st.(mc_count) st.(mc_inner) st.(mc_matchlevel) level (McVars h matchh st.(mc_pbranch));
    Some (v.(mc_h), st.(mc_mutated), v.(mc_branch)).

Definition ComputeMerkleRoot (leaves : list (list Z)) : option (list Z * bool) :=
  '(hash, mutated, _) ← MerkleComputation leaves (u32 (-1)) None; Some (hash, mutated).

Definition ComputeMerkleBranch (leaves : list (list Z)) (position : Z) : option (list (list Z)) :=
  '(_, _, ret) ← MerkleComputation leaves position (Some []); ret.

Fixpoint root_loop (hash : list Z) (vMerkleBranch : list (list Z)) (nIndex : Z) : list Z :=
  match vMerkleBranch with
  | [] => hash
  | it :: vMerkleBranch =>
    let hash := if negb (Z.land nIndex 1 =? 0) then Hash_2 ubuf it hash else Hash_2 ubuf hash it in
    root_loop hash vMerkleBranch (Z.shiftr nIndex 1)
  end.

Definition ComputeMerkleRootFromBranch (leaf : list Z) (vMerkleBranch : list (list Z)) (nIndex : Z) : list Z :=
  root_loop leaf vMerkleBranch nIndex.

(** ** The transactions of a block

    A transaction is the pair of its hash and its witness hash.  A block without
    transactions has no [leaves[0]]. *)

Definition BlockMerkleRoot (vtx : list (list Z * list Z)) : option (list Z * bool) := ComputeMerkleRoot (map fst vtx).
Definition witness_leaves (vtx : list (list Z * list Z)) : option (list (list Z)) :=
  match vtx with [] => None | _ :: vtx => Some (uint256_null :: map snd vtx) end.
Definition BlockWitnessMerkleRoot (vtx : list (list Z * list Z)) : option (list Z * bool) := leaves ← witness_leaves vtx; ComputeMerkleRoot leaves.
Definition BlockMerkleBranch (vtx : list (list Z * list Z)) (position : Z) : option (list (list Z)) := ComputeMerkleBranch (map fst vtx) position.

End Merkle.
