(* ===== verification/BlockMerkleSpec.v ===== *)
(** The Merkle tree of a block by levels: each level has a hash for every two of the
    level below, and the last one of an odd level is paired with itself; the root
    is what is left when one hash is. *)

From S2P Require Import Prelude.
#[local] Open Scope nat_scope.

(** ** Powers of two *)

Lemma div_pow2_S x k : (x / 2 ^ S k = x / 2 ^ k / 2)%nat.
Proof. by rewrite Nat.pow_succ_r', Nat.mul_comm, Nat.Div0.div_div. Qed.

Lemma div_pow2_unique x k q : (q * 2 ^ k <= x < (q + 1) * 2 ^ k)%nat -> (x / 2 ^ k = q)%nat.
Proof. intros H; symmetry; apply (Nat.div_unique _ _ _ (x - q * 2 ^ k)); nia. Qed.

Lemma div_pow2_bounds x k : (x / 2 ^ k * 2 ^ k <= x < (x / 2 ^ k + 1) * 2 ^ k)%nat.
Proof. pose proof (pow2_nat_pos k); pose proof (Nat.div_mod_eq x (2 ^ k)); pose proof (Nat.mod_upper_bound x (2 ^ k)); nia. Qed.

Module MerkleSpec.
Section Levels.
Context (node : list Z -> list Z -> list Z).

Fixpoint next_level (l : list (list Z)) : list (list Z) :=
  match l with
  | a :: b :: r => node a b :: next_level r
  | [a] => [node a a]
  | [] => []
  end.

Definition level (k : nat) (l : list (list Z)) : list (list Z) := Nat.iter k next_level l.

Definition depth (l : list (list Z)) : nat := Nat.log2_up (length l).

Definition root (l : list (list Z)) : list Z := level (depth l) l !!! 0%nat.

(** Two neighbours with complete subtrees have the same hash. *)
Definition twins (l : list (list Z)) : Prop :=
  exists k i, ((2 * i + 2) * 2 ^ k <= length l)%nat /\ level k l !!! (2 * i)%nat = level k l !!! (2 * i + 1)%nat.

(** The hashes beside the path from leaf [p] up to level [k] *)
Definition sibling (l : list (list Z)) (p k : nat) : list Z :=
  let i := (p / 2 ^ k)%nat in
  if Nat.even i then level k l !!! Nat.min (i + 1) (length (level k l) - 1) else level k l !!! (i - 1)%nat.
Definition path (l : list (list Z)) (p k : nat) : list (list Z) := map (sibling l p) (seq 0 k).

(** What the hashes of a branch give *)
Fixpoint climb (h : list Z) (branch : list (list Z)) (i : nat) : list Z :=
  match branch with
  | [] => h
  | s :: branch => climb (if Nat.odd i then node s h else node h s) branch (i / 2)
  end.

(** The two hashes below position [i] of level [k + 1], and all those below level [d] *)
Definition inputs (k i : nat) (l : list (list Z)) : list Z * list Z :=
  (level k l !!! (2 * i)%nat, level k l !!! Nat.min (2 * i + 1) (length (level k l) - 1)).
Definition hashed (d : nat) (l : list (list Z)) (x : list Z * list Z) : Prop :=
  exists k i, (k < d)%nat /\ (i < length (level (S k) l))%nat /\ x = inputs k i l.

(** Two trees hash different pairs to the same hash. *)
Definition collision (d : nat) (l1 l2 : list (list Z)) : Prop :=
  exists x y, hashed d l1 x /\ hashed d l2 y /\ x <> y /\ node x.1 x.2 = node y.1 y.2.

(** ** Levels *)

Lemma list_ind2 (P : list (list Z) -> Prop) : P [] -> (forall a, P [a]) -> (forall a b r, P r -> P (a :: b :: r)) -> forall l, P l.
Proof.
  intros H0 H1 H2; assert (H : forall l, P l /\ forall a, P (a :: l)); [|intros l; apply H].
  induction l as [|a l [IH1 IH2]]; [by split|]; split; [apply IH2|]; intros b; by apply H2.
Qed.

Lemma next_length l : length (next_level l) = ((length l + 1) / 2)%nat.
Proof.
  induction l as [|a|a b r IH] using list_ind2; [done|done|]; cbn [next_level length]; rewrite IH.
  replace (S (S (length r)) + 1)%nat with (length r + 1 + 1 * 2)%nat by lia; rewrite Nat.div_add by lia; lia.
Qed.

Lemma next_lookup l i : (2 * i + 1 < length l)%nat -> next_level l !!! i = node (l !!! (2 * i)%nat) (l !!! (2 * i + 1)%nat).
Proof.
  revert i; induction l as [|a|a b r IH] using list_ind2; intros i Hi; cbn [length] in Hi; [lia|lia|].
  destruct i as [|i]; [done|]; replace (2 * S i)%nat with (S (S (2 * i))) by lia; cbn [next_level Nat.add]; apply IH; lia.
Qed.

Lemma next_lookup_last l i : (2 * i + 1 = length l)%nat -> next_level l !!! i = node (l !!! (2 * i)%nat) (l !!! (2 * i)%nat).
Proof.
  revert i; induction l as [|a|a b r IH] using list_ind2; intros i Hi; cbn [length] in Hi; [lia| |].
  - by replace i with 0%nat by lia.
  - destruct i as [|i]; [lia|]; replace (2 * S i)%nat with (S (S (2 * i))) by lia; cbn [next_level]; apply IH; lia.
Qed.

Lemma next_app l m : Nat.even (length l) = true -> next_level (l ++ m) = next_level l ++ next_level m.
Proof.
  induction l as [|a|a b r IH] using list_ind2; [done|done|]; cbn [length next_level app]; intros H; by rewrite IH.
Qed.

Lemma level_S k l : level (S k) l = next_level (level k l).
Proof. done. Qed.

Lemma level_nil k : level k [] = [].
Proof. induction k as [|k IH]; [done|]; by rewrite level_S, IH. Qed.

Lemma level_width k l : (0 < length l)%nat -> ((length (level k l) - 1) * 2 ^ k < length l <= length (level k l) * 2 ^ k)%nat.
Proof.
  intros Hl; induction k as [|k IH]; [cbn; lia|]; rewrite level_S, next_length, Nat.pow_succ_r'; pose proof (pow2_nat_pos k).
  pose proof (Nat.div_mod_eq (length (level k l) + 1) 2); pose proof (Nat.mod_upper_bound (length (level k l) + 1) 2); nia.
Qed.

Lemma level_width_le k l m : (0 < length l)%nat -> (m * 2 ^ k <= length l)%nat -> (m <= length (level k l))%nat.
Proof. intros Hl H; pose proof (level_width k l Hl); pose proof (pow2_nat_pos k); nia. Qed.

Lemma level_width_eq k l m : (0 < length l)%nat -> ((m - 1) * 2 ^ k < length l <= m * 2 ^ k)%nat -> length (level k l) = m.
Proof. intros Hl H; pose proof (level_width k l Hl); pose proof (pow2_nat_pos k); nia. Qed.

Lemma level_node k l i : (0 < length l)%nat -> (2 * i + 1 < length (level k l))%nat ->
  level (S k) l !!! i = node (level k l !!! (2 * i)%nat) (level k l !!! (2 * i + 1)%nat).
Proof. intros _; rewrite level_S; apply next_lookup. Qed.

Lemma depth_spec l : (0 < length l)%nat -> (length l <= 2 ^ depth l)%nat /\ (2 ^ depth l < 2 * length l)%nat.
Proof.
  intros Hl; unfold depth; destruct (Nat.eq_dec (length l) 1%nat) as [->|]; [cbn; lia|].
  pose proof (Nat.log2_up_spec (length l) ltac:(lia)); pose proof (Nat.log2_up_pos (length l) ltac:(lia)).
  replace (Nat.log2_up (length l)) with (S (Nat.pred (Nat.log2_up (length l)))) at 2 by lia; rewrite Nat.pow_succ_r'; lia.
Qed.

Lemma depth_unique l j : (length l <= 2 ^ j)%nat -> (2 ^ j < 2 * length l)%nat -> j = depth l.
Proof.
  intros H1 H2; destruct (depth_spec l) as [H3 H4]; [pose proof (pow2_nat_pos j); lia|].
  destruct (Nat.lt_trichotomy j (depth l)) as [H|[H|H]]; [|done|].
  - pose proof (Nat.pow_le_mono_r 2 (S j) (depth l)) as P; rewrite Nat.pow_succ_r' in P; lia.
  - pose proof (Nat.pow_le_mono_r 2 (S (depth l)) j) as P; rewrite Nat.pow_succ_r' in P; lia.
Qed.

Lemma level_depth l : (0 < length l)%nat -> level (depth l) l = [root l].
Proof.
  intros Hl; destruct (depth_spec l Hl) as [H _]; unfold root; pose proof (level_width_eq (depth l) l 1%nat Hl ltac:(lia)) as E.
  destruct (level (depth l) l) as [|x [|]]; by cbn in E.
Qed.

Lemma level_app k l m : (exists a, length l = a * 2 ^ k)%nat -> level k (l ++ m) = level k l ++ level k m.
Proof.
  intros [a Ha]; revert a Ha; induction k as [|k IH]; intros a Ha; [done|]; rewrite Nat.pow_succ_r' in Ha; rewrite !level_S, (IH (a * 2)%nat) by lia.
  apply next_app; destruct (Nat.eq_dec (length l) 0%nat) as [E|]; [apply nil_length_inv in E as ->; by rewrite level_nil|].
  rewrite (level_width_eq k l (a * 2)%nat) by (pose proof (pow2_nat_pos k); nia); by rewrite Nat.even_mul, orb_true_r.
Qed.

Lemma level_inputs k i l : (i < length (level (S k) l))%nat -> level (S k) l !!! i = node (inputs k i l).1 (inputs k i l).2.
Proof.
  rewrite level_S, next_length; intros Hi; unfold inputs; cbn [fst snd].
  pose proof (Nat.div_mod_eq (length (level k l) + 1) 2); pose proof (Nat.mod_upper_bound (length (level k l) + 1) 2 ltac:(lia)).
  destruct (Nat.eq_dec (2 * i + 1) (length (level k l))) as [E|].
  - rewrite next_lookup_last by done; do 2 f_equal; lia.
  - rewrite next_lookup by lia; do 2 f_equal; lia.
Qed.

(** ** Branches *)

Lemma climb_app h b c i : climb h (b ++ c) i = climb (climb h b i) c (i / 2 ^ length b).
Proof.
  revert h i; induction b as [|s b IH]; intros h i; cbn [climb app length]; [by rewrite Nat.pow_0_r, Nat.div_1_r|].
  by rewrite IH, Nat.Div0.div_div, <- Nat.pow_succ_r'.
Qed.

Lemma path_length l p k : length (path l p k) = k.
Proof. unfold path; by rewrite length_map, length_seq. Qed.

Lemma climb_path l p k : (p < length l)%nat -> climb (l !!! p) (path l p k) p = level k l !!! (p / 2 ^ k)%nat.
Proof.
  intros Hp; induction k as [|k IH]; [cbn [path seq map climb level Nat.iter]; by rewrite Nat.pow_0_r, Nat.div_1_r|].
  unfold path; rewrite seq_S, map_app, climb_app; fold (path l p k); rewrite IH, path_length; cbn [map climb Nat.add]; rewrite div_pow2_S.
  pose proof (div_pow2_bounds p k) as Hb; pose proof (level_width k l ltac:(lia)) as Hw; unfold sibling; set (i := (p / 2 ^ k)%nat) in *.
  assert (Hi : (i < length (level k l))%nat) by (pose proof (pow2_nat_pos k); nia).
  pose proof (Nat.div_mod_eq i 2) as Hd; pose proof (Nat.mod_upper_bound i 2 ltac:(lia)); rewrite <- Nat.negb_even; destruct (Nat.even i) eqn:E; cbn [negb].
  - apply Nat.even_spec in E as [y Ey]; rewrite Ey, (Nat.mul_comm 2 y), Nat.div_mul by lia; rewrite level_S.
    destruct (Nat.eq_dec (2 * y + 1) (length (level k l))) as [Ew|].
    + rewrite next_lookup_last by done; do 2 f_equal; lia.
    + rewrite next_lookup by lia; do 2 f_equal; lia.
  - assert (Ho : Nat.odd i = true) by by rewrite <- Nat.negb_even, E. apply Nat.odd_spec in Ho as [y Ey].
    replace (i / 2)%nat with y by lia; rewrite level_S, next_lookup by lia; f_equal; f_equal; lia.
Qed.

(** Two branches of one length that lead from one position to one root start from one
    leaf, or two of their steps collide. *)
Fixpoint steps (h : list Z) (branch : list (list Z)) (i : nat) : list (list Z * list Z) :=
  match branch with
  | [] => []
  | s :: branch => let x := if Nat.odd i then (s, h) else (h, s) in x :: steps (node x.1 x.2) branch (i / 2)
  end.

Lemma climb_binding h1 h2 b1 b2 i : length b1 = length b2 -> climb h1 b1 i = climb h2 b2 i ->
  (h1 = h2 /\ b1 = b2) \/ exists x y, In x (steps h1 b1 i) /\ In y (steps h2 b2 i) /\ x <> y /\ node x.1 x.2 = node y.1 y.2.
Proof.
  revert h1 h2 b2 i; induction b1 as [|s1 b1 IH]; intros h1 h2 [|s2 b2] i Hl H; try discriminate Hl; [by left|]; cbn [climb steps] in *.
  injection Hl as Hl; set (x := if Nat.odd i then (s1, h1) else (h1, s1)); set (y := if Nat.odd i then (s2, h2) else (h2, s2)).
  replace (if Nat.odd i then node s1 h1 else node h1 s1) with (node x.1 x.2) in H by (unfold x; by destruct (Nat.odd i)).
  replace (if Nat.odd i then node s2 h2 else node h2 s2) with (node y.1 y.2) in H by (unfold y; by destruct (Nat.odd i)).
  destruct (IH _ _ b2 _ Hl H) as [[E ->]|(x' & y' & H1 & H2 & H3)]; [|right; exists x', y'; split_and!; [by right|by right|apply H3..]].
  destruct (decide (x = y)) as [Exy|]; [left; unfold x, y in Exy; destruct (Nat.odd i); by injection Exy as -> ->|].
  right; exists x, y; split_and!; [by left|by left|done|done].
Qed.

(** ** Halves *)

Section Halves.
Context (d : nat) (a b : list (list Z)).
Hypothesis Ha : length a = (2 ^ d)%nat.

Lemma half_level k : (k <= d)%nat -> level k (a ++ b) = level k a ++ level k b /\ length (level k a) = (2 ^ (d - k))%nat.
Proof.
  intros Hk; assert (E : (2 ^ d = 2 ^ (d - k) * 2 ^ k)%nat) by (rewrite <- Nat.pow_add_r; f_equal; lia); pose proof (pow2_nat_pos k); pose proof (pow2_nat_pos (d - k)).
  split; [apply level_app; exists (2 ^ (d - k))%nat; lia|]; apply level_width_eq; nia.
Qed.

Lemma half_inputs k i : (k < d)%nat -> (i < length (level (S k) a))%nat -> inputs k i a = inputs k i (a ++ b) /\ (i < length (level (S k) (a ++ b)))%nat.
Proof.
  intros Hk Hi; destruct (half_level (S k)) as [E1 L1]; [lia|]; destruct (half_level k) as [E0 L0]; [lia|].
  assert (E : (2 ^ (d - k) = 2 * 2 ^ (d - S k))%nat) by (rewrite <- Nat.pow_succ_r'; f_equal; lia).
  split; [|rewrite E1, length_app; lia]; unfold inputs; rewrite E0, length_app; rewrite !lookup_total_app_l by lia; do 2 f_equal; lia.
Qed.

Lemma half_inputs_r k i : (k < d)%nat -> (i < length (level (S k) b))%nat ->
  exists j, inputs k i b = inputs k j (a ++ b) /\ (j < length (level (S k) (a ++ b)))%nat.
Proof.
  intros Hk Hi; destruct (half_level (S k)) as [E1 L1]; [lia|]; destruct (half_level k) as [E0 L0]; [lia|].
  assert (E : (2 ^ (d - k) = 2 * 2 ^ (d - S k))%nat) by (rewrite <- Nat.pow_succ_r'; f_equal; lia).
  exists (2 ^ (d - S k) + i)%nat; split; [|rewrite E1, length_app; lia]; unfold inputs; rewrite E0, length_app.
  rewrite level_S, next_length in Hi; pose proof (Nat.div_mod_eq (length (level k b) + 1) 2); pose proof (Nat.mod_upper_bound (length (level k b) + 1) 2 ltac:(lia)).
  rewrite !lookup_total_app_r by lia; f_equal; f_equal; lia.
Qed.

Lemma half_hashed x : hashed d a x \/ hashed d b x -> hashed (S d) (a ++ b) x.
Proof.
  intros [(k & i & Hk & Hi & ->)|(k & i & Hk & Hi & ->)].
  - destruct (half_inputs k i Hk Hi) as [E H]; exists k, i; split_and!; [lia|done|done].
  - destruct (half_inputs_r k i Hk Hi) as (j & E & H); exists k, j; split_and!; [lia|done|done].
Qed.

Lemma half_twins : (length b <= 2 ^ d)%nat -> twins a \/ twins b -> twins (a ++ b).
Proof.
  intros Hb H; assert (Hk : forall k i, ((2 * i + 2) * 2 ^ k <= 2 ^ d)%nat -> (k < d)%nat).
  { intros k i Hki; apply (Nat.pow_lt_mono_r_iff 2); [lia|]; pose proof (pow2_nat_pos k); nia. }
  destruct H as [(k & i & Hi & E)|(k & i & Hi & E)]; assert (Hkd : (k < d)%nat) by (apply (Hk k i); lia); destruct (half_level k) as [E0 L0]; [lia| |lia|];
    assert (EP : (2 ^ d = 2 ^ (d - k) * 2 ^ k)%nat) by (rewrite <- Nat.pow_add_r; f_equal; lia); pose proof (pow2_nat_pos k).
  - exists k, i; split; [rewrite length_app; lia|]; rewrite E0, !lookup_total_app_l by nia; done.
  - assert (E2 : (2 ^ (d - k) = 2 * 2 ^ (d - S k))%nat) by (rewrite <- Nat.pow_succ_r'; f_equal; lia); exists k, (2 ^ (d - S k) + i)%nat.
    split; [rewrite length_app; nia|]; rewrite E0, !lookup_total_app_r by lia; etrans; [etrans; [|exact E]|]; f_equal; lia.
Qed.

Lemma no_half_twins : (0 < length b <= 2 ^ d)%nat -> ~ twins (a ++ b) -> ~ twins a /\ ~ twins b.
Proof. intros [_ Hb] H; split; intros Ht; apply H, half_twins; auto. Qed.

End Halves.

(** ** Binding *)

(** The pair at the top of a tree of [d + 1] levels *)
Lemma top_one d l : (0 < length l)%nat -> (length l <= 2 ^ d)%nat -> inputs d 0 l = (level d l !!! 0%nat, level d l !!! 0%nat).
Proof. intros H0 H; unfold inputs; by rewrite (level_width_eq d l 1) by lia. Qed.

Lemma top_two d a b : length a = 2 ^ d -> (0 < length b)%nat -> (length b <= 2 ^ d)%nat -> inputs d 0 (a ++ b) = (level d a !!! 0%nat, level d b !!! 0%nat).
Proof.
  intros Ha Hb0 Hb; pose proof (pow2_nat_pos d); unfold inputs; destruct (half_level d a b Ha d (le_n d)) as [-> E]; rewrite Nat.sub_diag, Nat.pow_0_r in E.
  rewrite length_app, E, (level_width_eq d b 1) by lia; cbn [Nat.mul Nat.add Nat.sub Nat.min].
  rewrite lookup_total_app_l by lia; rewrite lookup_total_app_r by lia; by rewrite E.
Qed.

(** A tree of [d + 1] levels is one of [d] levels, whose top is paired with itself, or
    it has two halves. *)
Lemma halves d (l : list (list Z)) : (length l <= 2 ^ S d)%nat -> (length l <= 2 ^ d)%nat \/ exists a b, l = a ++ b /\ length a = 2 ^ d /\ (0 < length b <= 2 ^ d)%nat.
Proof.
  rewrite Nat.pow_succ_r'; intros H; destruct (Nat.le_gt_cases (length l) (2 ^ d)); [by left|right]; exists (take (2 ^ d) l), (drop (2 ^ d) l).
  rewrite take_drop, length_take, length_drop; split; [done|lia].
Qed.

Lemma top_inputs d l : (0 < length l)%nat -> (length l <= 2 ^ S d)%nat ->
  level (S d) l !!! 0%nat = node (inputs d 0 l).1 (inputs d 0 l).2 /\ hashed (S d) l (inputs d 0 l).
Proof.
  intros H0 H; pose proof (level_width_eq (S d) l 1 H0 ltac:(lia)) as E; split; [apply level_inputs; lia|]; exists d, 0; split_and!; [lia|lia|done].
Qed.

Lemma collision_mono d l1 l2 m1 m2 : (forall x, hashed d l1 x -> hashed (S d) m1 x) -> (forall x, hashed d l2 x -> hashed (S d) m2 x) ->
  collision d l1 l2 -> collision (S d) m1 m2.
Proof. intros H1 H2 (x & y & Hx & Hy & H); exists x, y; split_and!; [auto|auto|apply H..]. Qed.

Lemma hashed_S d l x : hashed d l x -> hashed (S d) l x.
Proof. intros (k & i & ? & ? & ?); exists k, i; split_and!; [lia|done|done]. Qed.

(** A tree with two halves that are one tree has twins. *)
Lemma equal_halves d a : length a = 2 ^ d -> twins (a ++ a).
Proof.
  intros Ha; pose proof (pow2_nat_pos d); exists d, 0; split; [rewrite length_app; lia|].
  destruct (half_level d a a Ha d (le_n d)) as [-> E]; rewrite Nat.sub_diag, Nat.pow_0_r in E.
  cbn [Nat.mul Nat.add]; rewrite lookup_total_app_l by lia; rewrite lookup_total_app_r by lia; by rewrite E.
Qed.

Lemma tree_binding d l1 l2 : (0 < length l1 <= 2 ^ d)%nat -> (0 < length l2 <= 2 ^ d)%nat -> ~ twins l1 -> ~ twins l2 ->
  level d l1 !!! 0%nat = level d l2 !!! 0%nat -> l1 = l2 \/ collision d l1 l2.
Proof.
  revert l1 l2; induction d as [|d IH]; intros l1 l2 [P1 H1] [P2 H2] T1 T2 E.
  { cbn in *; destruct l1 as [|x [|]], l2 as [|y [|]]; cbn in *; try lia; cbn in E; left; congruence. }
  destruct (top_inputs d l1 P1 H1) as [E1 X1], (top_inputs d l2 P2 H2) as [E2 X2]; rewrite E1, E2 in E.
  destruct (decide (inputs d 0 l1 = inputs d 0 l2)) as [Ei|Ei]; [|right; by exists (inputs d 0 l1), (inputs d 0 l2)].
  destruct (halves d l1 H1) as [S1|(a1 & b1 & -> & A1 & B1)], (halves d l2 H2) as [S2|(a2 & b2 & -> & A2 & B2)].
  - rewrite !top_one in Ei by done; injection Ei as Ei; destruct (IH l1 l2) as [|C]; [done|done|done|done|done|by left|right].
    by apply (collision_mono d l1 l2); [apply hashed_S|apply hashed_S|].
  - rewrite top_one, top_two in Ei by (done || lia); injection Ei as Ea Eb; destruct (no_half_twins _ _ _ A2 B2 T2) as [Ta Tb].
    destruct (IH l1 a2) as [Ea'|C]; [done|lia|done|done|done| |right; apply (collision_mono d l1 a2); [apply hashed_S|intros; apply half_hashed; auto|done]].
    destruct (IH l1 b2) as [Eb'|C]; [done|lia|done|done|done| |right; apply (collision_mono d l1 b2); [apply hashed_S|intros; apply half_hashed; auto|done]].
    subst b2 a2; by destruct T2; apply (equal_halves d).
  - rewrite (top_one d l2), top_two in Ei by (done || lia); injection Ei as Ea Eb; destruct (no_half_twins _ _ _ A1 B1 T1) as [Ta Tb].
    destruct (IH a1 l2) as [Ea'|C]; [lia|done|done|done|done| |right; apply (collision_mono d a1 l2); [intros; apply half_hashed; auto|apply hashed_S|done]].
    destruct (IH b1 l2) as [Eb'|C]; [lia|done|done|done|done| |right; apply (collision_mono d b1 l2); [intros; apply half_hashed; auto|apply hashed_S|done]].
    subst b1 a1; by destruct T1; apply (equal_halves d).
  - rewrite !top_two in Ei by (done || lia); injection Ei as Ea Eb; destruct (no_half_twins _ _ _ A1 B1 T1), (no_half_twins _ _ _ A2 B2 T2).
    destruct (IH a1 a2) as [->|C]; [lia|lia|done|done|done| |right; apply (collision_mono d a1 a2); [intros; apply half_hashed; auto..|done]].
    destruct (IH b1 b2) as [->|C]; [lia|lia|done|done|done|by left|right; apply (collision_mono d b1 b2); [intros; apply half_hashed; auto..|done]].
Qed.

(** Twice the last subtree of [2 ^ k] leaves, when it is the first of a pair and not
    the only one, gives the same root. *)
Lemma duplicate_level k a t : (exists x, length a = x * 2 * 2 ^ k) -> length t = 2 ^ k -> level (S k) (a ++ t ++ t) = level (S k) (a ++ t).
Proof.
  intros [x Hx] Ht; pose proof (pow2_nat_pos k); destruct (level k t) as [|r [|]] eqn:E;
    pose proof (level_width_eq k t 1 ltac:(lia) ltac:(lia)) as L; rewrite E in L; try discriminate L.
  rewrite !level_S, !level_app by first [by exists 1; lia|exists (x * 2); lia]; rewrite E.
  assert (Ea : Nat.even (length (level k a)) = true).
  { destruct (Nat.eq_dec (length a) 0) as [E0|]; [apply nil_length_inv in E0 as ->; by rewrite level_nil|].
    rewrite (level_width_eq k a (x * 2)) by nia; by rewrite Nat.even_mul, orb_true_r. }
  by rewrite !(next_app (level k a)) by done.
Qed.

Lemma duplicate_root k a t : (exists x, length a = (x + 1) * 2 * 2 ^ k) -> length t = 2 ^ k ->
  depth (a ++ t ++ t) = depth (a ++ t) /\ root (a ++ t ++ t) = root (a ++ t) /\ twins (a ++ t ++ t).
Proof.
  intros [x Hx] Ht; pose proof (pow2_nat_pos k) as Hk; pose proof (duplicate_level k a t (ex_intro _ (x + 1) Hx) Ht) as El.
  destruct (depth_spec (a ++ t)) as [D1 D2]; [rewrite length_app; lia|]; rewrite length_app, Hx, Ht in D1, D2.
  assert (Hd : S k < depth (a ++ t)) by (apply (Nat.pow_lt_mono_r_iff 2); [lia|]; rewrite Nat.pow_succ_r'; nia).
  assert (EP : 2 ^ depth (a ++ t) = 2 ^ (depth (a ++ t) - S k) * 2 * 2 ^ k).
  { rewrite <- Nat.mul_assoc, <- Nat.pow_succ_r', <- Nat.pow_add_r; f_equal; lia. }
  assert (Ed : depth (a ++ t ++ t) = depth (a ++ t)).
  { symmetry; apply depth_unique; rewrite !length_app, Hx, Ht; [|lia]; rewrite EP in *; clear D2.
    revert D1; generalize (2 ^ (depth (a ++ t) - S k)); intros Q D1; assert (x + 2 <= Q) by nia; nia. }
  split_and!; [done| |].
  - unfold root; rewrite Ed; replace (depth (a ++ t)) with (depth (a ++ t) - S k + S k) by lia; unfold level; rewrite !Nat.iter_add.
    change (Nat.iter (S k) next_level ?l) with (level (S k) l); by rewrite El.
  - exists k, (x + 1); split; [rewrite !length_app; nia|]; rewrite !level_app by first [by exists 1; lia|exists ((x + 1) * 2); lia].
    pose proof (level_width_eq k a ((x + 1) * 2) ltac:(nia) ltac:(nia)) as La; pose proof (level_width_eq k t 1 ltac:(lia) ltac:(lia)) as Lt.
    rewrite lookup_total_app_r by lia; rewrite (lookup_total_app_r (level k a)) by lia; rewrite lookup_total_app_l by lia; rewrite lookup_total_app_r by lia; f_equal; lia.
Qed.

End Levels.
End MerkleSpec.
