(* ===== verification/BlockMerkleClaims.v ===== *)
(** The constant-space computation of Merkle roots and branches follows the levels
    of the tree.

    After [c] leaves, [inner[k]] is the last hash of level [k] over the first [c] leaves
    whenever bit [k] of [c] is set; the loops go up the levels as the carry of [c + 1]
    does.

    What the Merkle roots and branches of consensus/merkle.cpp promise. *)

From S2P Require Import Prelude Block MdHash Hash BlockMerkle BlockMerkleSpec.

Import MerkleSpec.

(** ** Bits of the count *)

Lemma bit32_pow level : (level < 32)%nat -> bit32 level = Z.of_nat (2 ^ level).
Proof.
  intros H; unfold bit32; rewrite Z.shiftl_1_l, u32_id, Nat2Z.inj_pow; [done|]; split; [lia|]; apply Z.pow_lt_mono_r; lia.
Qed.

Lemma count_bit c level : (level < 32)%nat -> (Z.land (Z.of_nat c) (bit32 level) =? 0) = Nat.even (c / 2 ^ level).
Proof.
  intros H; rewrite bit32_pow, Nat2Z.inj_pow by done; change (Z.of_nat 2) with 2.
  assert (E : Z.testbit (Z.of_nat c) (Z.of_nat level) = Nat.odd (c / 2 ^ level)).
  { rewrite Z.testbit_odd, Z.shiftr_div_pow2 by lia; change 2 with (Z.of_nat 2); rewrite <- Nat2Z.inj_pow, <- Nat2Z.inj_div.
    rewrite <- Nat.negb_even, <- Z.negb_even; f_equal; apply eq_true_iff_eq; rewrite Nat.even_spec, Z.even_spec.
    split; [intros [x Hx]; exists (Z.to_nat x); lia|intros [x Hx]; exists (Z.of_nat x); lia]. }
  rewrite <- Nat.negb_odd, <- E; apply eq_true_iff_eq; rewrite Z.eqb_eq, negb_true_iff; split.
  - intros Hl; assert (Hb : Z.testbit (Z.land (Z.of_nat c) (2 ^ Z.of_nat level)) (Z.of_nat level) = false) by (rewrite Hl; apply Z.bits_0).
    by rewrite Z.land_spec, Z.pow2_bits_true, andb_true_r in Hb by lia.
  - intros Hb; apply Z.bits_inj_0; intros i; rewrite Z.land_spec; destruct (Z.eq_dec i (Z.of_nat level)) as [->|Hne]; [by rewrite Hb|].
    by rewrite Z.pow2_bits_false, andb_false_r by lia.
Qed.

(** Levels of a count that fits *)
Lemma small_level j m e : (0 < m)%nat -> (m * 2 ^ j <= 2 ^ e)%nat -> (j <= e)%nat.
Proof. intros Hm H; apply (Nat.pow_le_mono_r_iff 2); [lia|]; destruct m; lia. Qed.

Lemma small_level_odd j m e : (3 <= m)%nat -> (m * 2 ^ j <= 2 ^ e)%nat -> (S j < e)%nat.
Proof. intros Hm H; apply (Nat.pow_lt_mono_r_iff 2); [lia|]; rewrite Nat.pow_succ_r'; pose proof (pow2_nat_pos j); nia. Qed.

(** The quotients of neighbouring numbers *)
Lemma carry_even c m j : (S c = m * 2 ^ j)%nat -> (c / 2 ^ j = m - 1)%nat.
Proof. intros H; apply div_pow2_unique; pose proof (pow2_nat_pos j); nia. Qed.

Lemma carry_high c m j k : (S c = m * 2 ^ j)%nat -> Nat.odd m = true -> (j < k)%nat -> (S c / 2 ^ k = c / 2 ^ k)%nat.
Proof.
  intros H Ho Hk; replace k with (j + S (k - j - 1))%nat by lia; rewrite Nat.pow_add_r, <- !Nat.Div0.div_div, (carry_even c m j H), H.
  rewrite Nat.div_mul by (apply Nat.pow_nonzero; lia); rewrite Nat.pow_succ_r', <- !Nat.Div0.div_div; f_equal.
  apply Nat.odd_spec in Ho as [x ->]; replace (2 * x + 1 - 1)%nat with (x * 2)%nat by lia; rewrite Nat.div_mul by lia.
  symmetry; apply (Nat.div_unique _ _ _ 1); lia.
Qed.

Lemma carry_low c m j k : (c = m * 2 ^ j)%nat -> (k < j)%nat -> Nat.even (c / 2 ^ k) = true.
Proof.
  intros -> Hk; replace j with (k + S (j - k - 1))%nat by lia; rewrite Nat.pow_add_r, Nat.mul_assoc, (Nat.mul_comm m), <- Nat.mul_assoc, Nat.mul_comm.
  rewrite Nat.div_mul by (apply Nat.pow_nonzero; lia); rewrite Nat.pow_succ_r', Nat.even_mul, Nat.even_mul; by rewrite orb_true_r.
Qed.

Section Proofs.
Context (ubuf : list Z) (leaves : list (list Z)) (p : nat) (want : bool).
Abbreviation node := (Hash_2 ubuf).
Abbreviation n := (length leaves).
Abbreviation lv k i := (level node k leaves !!! i).
Hypothesis Hn : (0 < n)%nat.

Lemma combine_node i v : combine ubuf i v = McVars (node i v.(mc_h)) v.(mc_matchh) v.(mc_branch).
Proof. done. Qed.

#[local] Opaque Hash_2 combine.

(** ** The branch

    Either the path goes through [h], and [m - 1] is its position on level [j], or
    it goes through a hash [inner[k]] that is still to come, or the leaf itself is. *)
Definition waiting (c : nat) (ml : Z) (j : nat) (b : list (list Z)) : Prop :=
  exists k, ml = Z.of_nat k /\ (j <= k)%nat /\ Nat.odd (c / 2 ^ k) = true /\ (p / 2 ^ k = c / 2 ^ k - 1)%nat /\ b = path node leaves p k.

Definition on_path (j m : nat) (v : mc_vars) (b : list (list Z)) : Prop :=
  v.(mc_matchh) = true /\ (p / 2 ^ j = m - 1)%nat /\ b = path node leaves p j.

Lemma waiting_lt c ml j b : waiting c ml j b -> (p < c)%nat.
Proof.
  intros (k & _ & _ & Ho & Hp & _); destruct (Nat.lt_ge_cases p c) as [|H]; [done|]; apply (Nat.Div0.div_le_mono _ _ (2 ^ k)) in H.
  destruct (c / 2 ^ k)%nat; [done|lia].
Qed.

Lemma path_S k : path node leaves p (S k) = path node leaves p k ++ [sibling node leaves p k].
Proof. unfold path; by rewrite seq_S, map_app. Qed.

(** The sibling of a node that is the second, or the first, of two. *)
Lemma sibling_right j m : (2 <= m)%nat -> Nat.even m = true -> (p / 2 ^ j = m - 1)%nat -> sibling node leaves p j = lv j (m - 2)%nat.
Proof.
  intros Hm He E; unfold sibling; rewrite E; apply Nat.even_spec in He as [x ->]; replace (2 * x - 1)%nat with (2 * (x - 1) + 1)%nat by lia.
  rewrite Nat.even_add, Nat.even_mul; cbn [Nat.even orb eqb]; f_equal; lia.
Qed.

Lemma sibling_left j i : Nat.even i = true -> (p / 2 ^ j = i)%nat -> sibling node leaves p j = lv j (Nat.min (i + 1) (length (level node j leaves) - 1))%nat.
Proof. intros He E; unfold sibling; by rewrite E, He. Qed.

(** Combining [inner[j]] with [h] keeps the branch a path. *)
Lemma push_branch_spec c ml j m v b : Nat.even m = true -> (2 <= m)%nat -> (c / 2 ^ j = m - 1)%nat -> (m <= length (level node j leaves))%nat ->
  v.(mc_h) = lv j (m - 1)%nat -> v.(mc_branch) = Some b ->
  on_path j m v b \/ (v.(mc_matchh) = false /\ waiting c ml j b) ->
  exists b', (push_branch ml j (lv j (m - 2)%nat) v).(mc_branch) = Some b' /\ (push_branch ml j (lv j (m - 2)%nat) v).(mc_h) = v.(mc_h) /\
    (on_path (S j) (m / 2) (push_branch ml j (lv j (m - 2)%nat) v) b' \/
     ((push_branch ml j (lv j (m - 2)%nat) v).(mc_matchh) = false /\ waiting c ml (S j) b')).
Proof.
  intros He Hm Hc Hw Hh Hb HI; assert (Hd : forall x, (x = m - 1 \/ x = m - 2)%nat -> (x / 2 = m / 2 - 1)%nat).
  { apply Nat.even_spec in He as [y ->]; intros x Hx; rewrite (Nat.mul_comm 2 y), Nat.div_mul by lia.
    symmetry; destruct Hx as [->| ->]; [apply (Nat.div_unique _ _ _ 1)|apply (Nat.div_unique _ _ _ 0)]; lia. }
  unfold push_branch; rewrite Hb; destruct HI as [(Hmh & Hp & ->)|(Hmh & k & -> & Hk & Ho & Hp & ->)]; rewrite Hmh.
  - eexists; cbn [mc_branch mc_h mc_matchh]; split_and!; [reflexivity|done|left]; split_and!; [done|rewrite div_pow2_S, Hp; auto|].
    by rewrite path_S, (sibling_right j m).
  - destruct (Z.eqb_spec (Z.of_nat k) (Z.of_nat j)) as [E|E].
    + apply Nat2Z.inj in E as ->; eexists; cbn [mc_branch mc_h mc_matchh]; split_and!; [reflexivity|done|left].
      split_and!; [done|rewrite div_pow2_S, Hp, Hc; apply Hd; lia|]; rewrite path_S, (sibling_left j (m - 2)), Hh; [do 3 f_equal; lia| |lia].
      rewrite Nat.even_sub, He by lia; done.
    + exists (path node leaves p k); split_and!; [done|done|right; split; [done|]]; exists k; split_and!; [done|lia|done|done|done].
Qed.

(** The same for an optional branch, which is wanted or not, and a leaf that may be
    still to come. *)
Definition branch_ok (c : nat) (ml : Z) (j m : nat) (v : mc_vars) : Prop :=
  match v.(mc_branch) with
  | None => want = false
  | Some b => on_path j m v b \/ (v.(mc_matchh) = false /\ waiting c ml j b) \/ (v.(mc_matchh) = false /\ ml = -1 /\ b = [] /\ (c < p)%nat)
  end.

(** A step up with [inner[j]] *)
Definition climbed (ml : Z) (j m : nat) (v : mc_vars) : mc_vars := combine ubuf (lv j (m - 2)%nat) (push_branch ml j (lv j (m - 2)%nat) v).

Lemma climbed_spec c ml j m v : Nat.even m = true -> (2 <= m)%nat -> (c / 2 ^ j = m - 1)%nat -> (m <= length (level node j leaves))%nat ->
  v.(mc_h) = lv j (m - 1)%nat -> branch_ok c ml j m v ->
  (push_branch ml j (lv j (m - 2)%nat) v).(mc_h) = v.(mc_h) /\
  (climbed ml j m v).(mc_h) = lv (S j) (m / 2 - 1)%nat /\ branch_ok c ml (S j) (m / 2) (climbed ml j m v).
Proof.
  intros He Hm Hc Hw Hh HI; assert (Hp : (push_branch ml j (lv j (m - 2)%nat) v).(mc_h) = v.(mc_h)).
  { unfold push_branch; destruct v.(mc_branch); [|done]; destruct v.(mc_matchh); [done|]; by destruct (_ =? _). }
  unfold climbed; rewrite combine_node; cbn [mc_h]; split_and!; [done| |].
  - rewrite Hp, Hh; apply Nat.even_spec in He as [x ->]; rewrite (Nat.mul_comm 2 x), Nat.div_mul by lia.
    rewrite level_node by (done || lia); f_equal; f_equal; lia.
  - unfold branch_ok in *; cbn [mc_branch]; destruct v.(mc_branch) as [b|] eqn:Eb; [|unfold push_branch; by rewrite !Eb].
    destruct HI as [HI|[HI|(Hmh & -> & -> & Hcp)]].
    + destruct (push_branch_spec c ml j m v b He Hm Hc Hw Hh Eb (or_introl HI)) as (b' & -> & _ & [H|H]); [left; exact H|right; left; exact H].
    + destruct (push_branch_spec c ml j m v b He Hm Hc Hw Hh Eb (or_intror HI)) as (b' & -> & _ & [H|H]); [left; exact H|right; left; exact H].
    + unfold push_branch; rewrite Eb, Hmh; destruct (Z.eqb_spec (-1) (Z.of_nat j)); [lia|]; cbn [mc_branch mc_matchh]; rewrite Eb; right; right; by split_and!.
Qed.

(** ** The leaves *)

Definition inner_ok (c : nat) (inner : list (list Z)) : Prop :=
  length inner = 32%nat /\ forall k, Nat.odd (c / 2 ^ k) = true -> inner !! k = Some (lv k (c / 2 ^ k - 1)%nat).

Lemma even_half m j : Nat.even m = true -> (m * 2 ^ j = m / 2 * 2 ^ S j)%nat.
Proof. intros He; apply Nat.even_spec in He as [x ->]; rewrite (Nat.mul_comm 2 x), Nat.div_mul, Nat.pow_succ_r' by lia; lia. Qed.

(** The step of both loops over the levels, whose hash is [inner[j]]. *)
Lemma inner_step c m j inner : inner_ok c inner -> Nat.even m = true -> (2 <= m)%nat -> (c / 2 ^ j = m - 1)%nat -> inner !! j = Some (lv j (m - 2)%nat).
Proof.
  intros [_ HI] He Hm E; rewrite HI; rewrite E; [do 2 f_equal; lia|]; by rewrite <- Nat.negb_even, Nat.even_sub, He by lia.
Qed.

Definition new_twins (c j : nat) : Prop :=
  exists k i, (j <= k)%nat /\ (S c = (2 * i + 2) * 2 ^ k)%nat /\ lv k (2 * i)%nat = lv k (2 * i + 1)%nat.

Lemma leaf_loop_spec fuel j m c inner ml v mut : (S c = m * 2 ^ j)%nat -> (fuel + j = 32)%nat -> Z.of_nat (S c) < 2 ^ 32 -> (S c <= n)%nat ->
  inner_ok c inner -> v.(mc_h) = lv j (m - 1)%nat -> branch_ok c ml j m v ->
  exists t m' v' mut', leaf_loop ubuf fuel (Z.of_nat (S c)) inner ml j v mut = Some (t, v', mut') /\
    (t < 32)%nat /\ (S c = m' * 2 ^ t)%nat /\ Nat.odd m' = true /\ v'.(mc_h) = lv t (m' - 1)%nat /\ branch_ok c ml t m' v' /\
    (mut' = true <-> mut = true \/ new_twins c j).
Proof.
  revert j m v mut; induction fuel as [|fuel IH]; intros j m v mut Hc Hf Hmax Hcn Hin Hh Hb.
  { assert (E : j = 32%nat) by lia; subst j; rewrite Hc, Nat2Z.inj_mul, Nat2Z.inj_pow in Hmax; lia. }
  cbn [leaf_loop]; pose proof (pow2_nat_pos j); rewrite count_bit by lia.
  assert (E : (S c / 2 ^ j = m)%nat) by (rewrite Hc, Nat.div_mul by lia; done); rewrite E; destruct (Nat.even m) eqn:Em.
  - assert (Hm : (2 <= m)%nat) by (destruct m as [|[|]]; [lia|done|lia]); assert (Hq := carry_even c m j Hc).
    assert (Hw : (m <= length (level node j leaves))%nat) by (apply level_width_le; lia).
    rewrite (inner_step c m j) by done; cbn [mbind option_bind]; destruct (climbed_spec c ml j m v Em Hm Hq Hw Hh Hb) as (Hp & Hh' & Hb').
    destruct (IH (S j) (m / 2)%nat (climbed ml j m v) (mut || bool_decide (lv j (m - 2)%nat = v.(mc_h))) ltac:(rewrite Hc; by apply even_half) ltac:(lia) Hmax Hcn Hin Hh' Hb')
      as (t & m' & v' & mut' & E' & H1 & H2 & H3 & H4 & H5 & H6).
    exists t, m', v', mut'; rewrite Hp; split_and!; [exact E'|done..|]; rewrite H6, orb_true_iff, bool_decide_eq_true, Hh; split.
    + intros [[?|Heq]|(k & i & ? & ? & ?)]; [by left| |right; exists k, i; split_and!; [lia|done|done]].
      right; exists j, (m / 2 - 1)%nat; apply Nat.even_spec in Em as [x ->]; rewrite (Nat.mul_comm 2 x), Nat.div_mul in * by lia.
      split_and!; [lia|rewrite Hc; nia|]; etrans; [etrans; [|exact Heq]|]; f_equal; lia.
    + intros [?|(k & i & Hk & Hi & Heq)]; [auto|]; destruct (Nat.eq_dec k j) as [->|]; [left; right|right; exists k, i; split_and!; [lia|done|done]].
      assert (Em' : m = (2 * i + 2)%nat) by nia; rewrite Em'; etrans; [etrans; [|exact Heq]|]; f_equal; lia.
  - exists j, m, v, mut; split_and!; [done|lia|done|by rewrite <- Nat.negb_even, Em|done|done|]; split; [auto|intros [|(k & i & Hk & Hi & _)]; [done|exfalso]].
    assert (He : Nat.even m = true); [|congruence]; rewrite <- E, Hi; replace k with (k - j + j)%nat by lia.
    rewrite Nat.pow_add_r, Nat.mul_assoc, Nat.div_mul by lia; rewrite !Nat.even_mul, Nat.even_add, Nat.even_mul; done.
Qed.

(** Between two leaves *)
Record state_ok (c : nat) (st : mc_state) : Prop := StateOk {
  st_count : st.(mc_count) = Z.of_nat c;
  st_inner : inner_ok c st.(mc_inner);
  st_branch : match st.(mc_pbranch) with
    | None => want = false
    | Some b => waiting c st.(mc_matchlevel) 0 b \/ (st.(mc_matchlevel) = -1 /\ b = [] /\ (c <= p)%nat)
    end;
  st_mutated : st.(mc_mutated) = true <-> exists k i, ((2 * i + 2) * 2 ^ k <= c)%nat /\ lv k (2 * i)%nat = lv k (2 * i + 1)%nat
}.

Lemma inner_next c m t inner : inner_ok c inner -> (S c = m * 2 ^ t)%nat -> Nat.odd m = true -> (t < 32)%nat ->
  inner_ok (S c) (<[t := lv t (m - 1)%nat]> inner).
Proof.
  intros [Hl HI] Hc Ho Ht; split; [by rewrite length_insert|]; intros k Hk; destruct (Nat.lt_trichotomy k t) as [H|[->|H]].
  - rewrite <- Nat.negb_even, (carry_low (S c) m t k) in Hk by done; discriminate.
  - rewrite list_lookup_insert_eq by lia; by rewrite Hc, Nat.div_mul by (apply Nat.pow_nonzero; lia).
  - rewrite list_lookup_insert_ne by lia; rewrite (carry_high c m t k) in * by done; by apply HI.
Qed.

Lemma waiting_next c m t ml b : (S c = m * 2 ^ t)%nat -> Nat.odd m = true -> waiting c ml t b -> waiting (S c) ml 0 b.
Proof.
  intros Hc Ho (k & -> & Hk & Hok & Hp & ->); exists k; destruct (Nat.eq_dec k t) as [->|].
  - exfalso; rewrite (carry_even c m t Hc), <- Nat.negb_even, Nat.even_sub in Hok by (destruct m; [done|lia]).
    rewrite <- Nat.negb_even in Ho; destruct (Nat.even m); done.
  - split_and!; [done|lia|by rewrite (carry_high c m t k) by (done || lia)|by rewrite (carry_high c m t k) by (done || lia)|done].
Qed.

Lemma leaf_step_ok c st : (c < n)%nat -> Z.of_nat n <= 2 ^ 31 -> state_ok c st -> exists st', leaf_step ubuf leaves (Z.of_nat p) st = Some st' /\ state_ok (S c) st'.
Proof.
  intros Hc Hmax [E1 E2 E3 E4]; unfold leaf_step; rewrite E1, Nat2Z.id.
  destruct (lookup_lt_is_Some_2 leaves c Hc) as [h Eh]; rewrite Eh; cbn [mbind option_bind].
  assert (Eu : u32 (Z.of_nat c + 1) = Z.of_nat (S c)) by (rewrite u32_id; [lia|split; lia]); rewrite Eu.
  destruct (leaf_loop_spec 32 0 (S c) c st.(mc_inner) st.(mc_matchlevel) (McVars h (Z.of_nat c =? Z.of_nat p) st.(mc_pbranch)) st.(mc_mutated))
    as (t & m & v & mut & -> & Ht & Hm & Ho & Hh & Hb & Hmut); [by rewrite Nat.pow_0_r, Nat.mul_1_r|lia|lia|lia|done| | |].
  - cbn [mc_h]; replace (S c - 1)%nat with c by lia; cbn [level Nat.iter]; symmetry; by apply list_lookup_total_correct.
  - unfold branch_ok; cbn [mc_branch mc_matchh]; destruct st.(mc_pbranch) as [b|]; [|done]; unfold on_path; cbn [mc_matchh].
    destruct (Z.eqb_spec (Z.of_nat c) (Z.of_nat p)) as [E|E].
    + left; split_and!; [done|cbn [Nat.pow]; rewrite Nat.div_1_r; lia|]; destruct E3 as [H%waiting_lt|(_ & -> & _)]; [lia|done].
    + right; destruct E3 as [H|(H1 & H2 & H3)]; [left; split; [done|exact H]|right; split_and!; [done|done|done|lia]].
  - cbn [mbind option_bind]; eexists; split; [reflexivity|]; split; cbn [mc_count mc_inner mc_matchlevel mc_pbranch mc_mutated].
    + done.
    + rewrite Hh; by apply (inner_next c m).
    + unfold branch_ok in Hb; destruct v.(mc_branch) as [b|]; [|done]; destruct Hb as [(Hmh & Hp & ->)|[[Hmh H]|(Hmh & H1 & H2 & H3)]]; rewrite Hmh.
      * left; exists t; rewrite Hm, Nat.div_mul by (apply Nat.pow_nonzero; lia); split_and!; [done|lia|done|done|done].
      * left; by apply (waiting_next c m t).
      * right; split_and!; [done|done|lia].
    + rewrite Hmut, E4; split.
      * intros [(k & i & H1 & H2)|(k & i & _ & H1 & H2)]; exists k, i; (split; [nia|done]).
      * intros (k & i & H1 & H2); destruct (Nat.eq_dec (S c) ((2 * i + 2) * 2 ^ k)%nat); [right; exists k, i; split_and!; [lia|done|done]|left; exists k, i; split; [lia|done]].
Qed.

Lemma leaves_loop_ok fuel c st : (c + fuel = n)%nat -> Z.of_nat n <= 2 ^ 31 -> state_ok c st ->
  exists st', leaves_loop ubuf fuel leaves (Z.of_nat p) st = Some st' /\ state_ok n st'.
Proof.
  revert c st; induction fuel as [|fuel IH]; intros c st Hc Hmax Hst; cbn [leaves_loop]; rewrite (st_count _ _ Hst).
  - rewrite (proj2 (Z.ltb_ge _ _)) by lia; assert (c = n) as -> by lia; by exists st.
  - rewrite (proj2 (Z.ltb_lt _ _)) by lia; destruct (leaf_step_ok c st ltac:(lia) Hmax Hst) as (st' & -> & Hst'); cbn [mbind option_bind].
    by apply (IH (S c)); [lia| |].
Qed.

Lemma start_ok : state_ok 0 (McState 0 (replicate 32 uint256_null) (-1) (if want then Some [] else None) false).
Proof.
  split; cbn [mc_count mc_inner mc_matchlevel mc_pbranch mc_mutated].
  - done.
  - split; [done|]; intros k; by rewrite Nat.Div0.div_0_l.
  - destruct want; [|done]; right; split_and!; [done|done|lia].
  - split; [done|]; intros (k & i & H & _); pose proof (pow2_nat_pos k); nia.
Qed.

(** ** The sweep *)

Lemma skip_zeros_spec fuel j m : (n = m * 2 ^ j)%nat -> (fuel + j = 32)%nat -> Z.of_nat n < 2 ^ 32 ->
  exists t m', skip_zeros fuel (Z.of_nat n) j = Some t /\ (t < 32)%nat /\ (n = m' * 2 ^ t)%nat /\ Nat.odd m' = true.
Proof.
  revert j m; induction fuel as [|fuel IH]; intros j m Hm Hf Hmax.
  { assert (E : j = 32%nat) by lia; subst j; rewrite Hm, Nat2Z.inj_mul, Nat2Z.inj_pow in Hmax; destruct m; lia. }
  cbn [skip_zeros]; pose proof (pow2_nat_pos j); rewrite count_bit by lia; assert (E0 : (n / 2 ^ j = m)%nat) by (rewrite Hm; apply Nat.div_mul; lia).
  rewrite E0; destruct (Nat.even m) eqn:E.
  - apply (IH (S j) (m / 2)%nat); [by rewrite <- even_half|lia|done].
  - exists j, m; split_and!; [done|lia|done|by rewrite <- Nat.negb_even, E].
Qed.

(** The count rounded up to a multiple of [2 ^ j], and the last hash of level [j] *)
Record sweep_ok (ml : Z) (j m : nat) (v : mc_vars) : Prop := SweepOk {
  sw_last : ((m - 1) * 2 ^ j < n <= m * 2 ^ j)%nat;
  sw_small : (m * 2 ^ j <= 2 ^ 31)%nat;
  sw_depth : (2 ^ j < 2 * n)%nat;
  sw_h : v.(mc_h) = lv j (m - 1)%nat;
  sw_branch : branch_ok n ml j m v
}.

Lemma sweep_up_spec fuel j m inner ml v : (n < m * 2 ^ j)%nat -> (fuel + j = 32)%nat -> inner_ok n inner -> sweep_ok ml j m v ->
  exists t m' v', sweep_up ubuf fuel (Z.of_nat (m * 2 ^ j)) inner ml j v = Some (t, v') /\ (j <= t < 32)%nat /\ (m * 2 ^ j = m' * 2 ^ t)%nat /\
    Nat.odd m' = true /\ sweep_ok ml t m' v'.
Proof.
  revert j m v; induction fuel as [|fuel IH]; intros j m v Hlt Hf Hin Hs; pose proof Hs as [H1 H2 H3 H4 H5]; pose proof (pow2_nat_pos j).
  { apply small_level in H2; [lia|]; destruct m; lia. }
  cbn [sweep_up]; rewrite count_bit by lia; rewrite Nat.div_mul by lia; destruct (Nat.even m) eqn:Em.
  - assert (Hm : (2 <= m)%nat) by (destruct m as [|[|]]; [lia|done|lia]).
    assert (Hq : (n / 2 ^ j = m - 1)%nat) by (apply div_pow2_unique; nia).
    assert (Hw : length (level node j leaves) = m) by by apply level_width_eq.
    rewrite (inner_step n m j) by done; cbn [mbind option_bind]; destruct (climbed_spec n ml j m v Em Hm Hq ltac:(lia) H4 H5) as (_ & Hh' & Hb').
    pose proof (even_half m j Em) as Eh; destruct (IH (S j) (m / 2)%nat (climbed ml j m v)) as (t & m' & v' & E' & ? & ? & ? & ?); [lia|lia|done| |].
    + split; [|lia| |done|done]; apply Nat.even_spec in Em as [x ->]; rewrite (Nat.mul_comm 2 x), Nat.div_mul in * by lia; rewrite Nat.pow_succ_r' in *; nia.
    + exists t, m', v'; rewrite Eh; split_and!; [exact E'|lia..|done|done].
  - exists j, m, v; split_and!; [done|lia|lia|done|by rewrite <- Nat.negb_even, Em|done].
Qed.

(** The end of the sweep *)
Lemma branch_end ml j v : (want = true -> p < n)%nat -> sweep_ok ml j 1 v -> (forall b, v.(mc_branch) = Some b -> v.(mc_matchh) = false -> waiting n ml j b -> waiting n ml (S j) b) ->
  v.(mc_h) = root node leaves /\ (want = true -> v.(mc_branch) = Some (path node leaves p (depth leaves))).
Proof.
  intros Hp [H1 H2 H3 H4 H5] Hodd; assert (E := depth_unique leaves j ltac:(lia) H3); subst j; split; [exact H4|].
  intros Hw; unfold branch_ok in H5; destruct v.(mc_branch) as [b|] eqn:Eb; [|congruence].
  destruct H5 as [(_ & _ & ->)|[[Hmh Hwt]|(_ & _ & _ & ?)]]; [done|exfalso|specialize (Hp Hw); lia].
  destruct (Hodd b eq_refl Hmh Hwt) as (k & _ & Hk & Ho & _); rewrite Nat.div_small in Ho; [done|].
  pose proof (Nat.pow_le_mono_r 2 (S (depth leaves)) k ltac:(lia) Hk) as P; rewrite Nat.pow_succ_r' in P; pose proof (pow2_nat_pos (depth leaves)); lia.
Qed.

Lemma waiting_up ml j m b : Nat.odd m = true -> ((m - 1) * 2 ^ j < n < m * 2 ^ j)%nat -> waiting n ml j b -> waiting n ml (S j) b.
Proof.
  intros Ho H (k & -> & Hk & Hok & Hp & ->); exists k; split_and!; [done| |done|done|done]; destruct (Nat.eq_dec k j) as [->|]; [exfalso|lia].
  rewrite (div_pow2_unique n j (m - 1)) in Hok by nia; rewrite <- Nat.negb_even, Nat.even_sub in Hok by (destruct m; [done|lia]).
  rewrite <- Nat.negb_even in Ho; destruct (Nat.even m); done.
Qed.

Lemma duplicate_ok ml j m v : Nat.odd m = true -> (3 <= m)%nat -> sweep_ok ml j m v ->
  (forall b, v.(mc_branch) = Some b -> v.(mc_matchh) = false -> waiting n ml j b -> waiting n ml (S j) b) ->
  (n < (m + 1) / 2 * 2 ^ S j)%nat /\ ((m + 1) * 2 ^ j = (m + 1) / 2 * 2 ^ S j)%nat /\ (j < 30)%nat /\ sweep_ok ml (S j) ((m + 1) / 2) (duplicate ubuf v).
Proof.
  intros Ho Hm [H1 H2 H3 H4 H5] Hwait; assert (He : Nat.even (m + 1) = true) by by rewrite Nat.even_add, <- (Nat.negb_odd m), Ho.
  pose proof (even_half (m + 1) j He) as Eh; pose proof (pow2_nat_pos j) as Hj; apply Nat.odd_spec in Ho as [x ->].
  assert (E : ((2 * x + 1 + 1) / 2 = x + 1)%nat) by (replace (2 * x + 1 + 1)%nat with ((x + 1) * 2)%nat by lia; apply Nat.div_mul; lia); rewrite E in *.
  assert (Hlt : (j < 30)%nat).
  { apply small_level_odd in H2; lia. }
  assert (Hw : length (level node j leaves) = (2 * x + 1)%nat) by by apply level_width_eq.
  assert (Eh2 : (2 ^ 31 = 2 ^ (30 - j) * 2 ^ S j)%nat) by (rewrite <- Nat.pow_add_r; f_equal; lia).
  assert (EP : (2 ^ S j = 2 * 2 ^ j)%nat) by apply Nat.pow_succ_r'; rewrite EP in *.
  split_and!; [nia|lia|done|]; split.
  - replace (x + 1 - 1)%nat with x by lia; replace (2 * x + 1 - 1)%nat with (2 * x)%nat in H1 by lia; lia.
  - rewrite Eh2 in H2 |- *; rewrite EP; clear -H2 Hj; revert H2 Hj; generalize (2 ^ j)%nat (2 ^ (30 - j))%nat; intros P Q H2 Hj.
    assert (x < Q)%nat by nia; nia.
  - replace (2 * x + 1 - 1)%nat with (2 * x)%nat in H1 by lia; nia.
  - unfold duplicate; rewrite combine_node; cbn [mc_h].
    assert (Ed : mc_h match v.(mc_branch) with Some b => if v.(mc_matchh) then McVars v.(mc_h) v.(mc_matchh) (Some (b ++ [v.(mc_h)])) else v | None => v end = v.(mc_h))
      by (destruct v.(mc_branch); [by destruct v.(mc_matchh)|done]).
    rewrite Ed, H4; replace (2 * x + 1 - 1)%nat with (2 * x)%nat by lia; replace (x + 1 - 1)%nat with x by lia.
    by rewrite level_S, next_lookup_last.
  - unfold branch_ok in *; unfold duplicate; rewrite combine_node; cbn [mc_branch mc_matchh]; destruct v.(mc_branch) as [b|] eqn:Eb; [|by rewrite Eb].
    destruct H5 as [(Hmh & Hp & ->)|[[Hmh Hwt]|(Hmh & ? & ? & ?)]]; rewrite Hmh.
    + left; cbn [mc_branch mc_matchh]; split_and!; [done| |].
      * rewrite div_pow2_S, Hp; replace (2 * x + 1 - 1)%nat with (x * 2)%nat by lia; rewrite Nat.div_mul by lia; lia.
      * rewrite path_S, (sibling_left j (2 * x)) by (rewrite ?Nat.even_mul; done || lia); rewrite Hw, H4; do 3 f_equal; lia.
    + rewrite Eb; right; left; split; [done|by apply Hwait].
    + rewrite Eb; right; right; done.
Qed.

Lemma sweep_loop_spec fuel j m inner ml v : (want = true -> p < n)%nat -> (32 <= fuel + j)%nat -> inner_ok n inner -> Nat.odd m = true -> sweep_ok ml j m v ->
  (forall b, v.(mc_branch) = Some b -> v.(mc_matchh) = false -> waiting n ml j b -> waiting n ml (S j) b) ->
  exists v', sweep_loop ubuf fuel (Z.of_nat (m * 2 ^ j)) inner ml j v = Some v' /\
    v'.(mc_h) = root node leaves /\ (want = true -> v'.(mc_branch) = Some (path node leaves p (depth leaves))).
Proof.
  intros Hp; revert j m v; induction fuel as [|fuel IH]; intros j m v Hf Hin Ho Hs Hwait; pose proof (sw_small _ _ _ _ Hs) as Hsm; pose proof (pow2_nat_pos j) as Hj.
  all: assert (Hj31 : (j <= 31)%nat) by (apply (small_level j m 31); [destruct m; [done|lia]|done]).
  { lia. }
  cbn [sweep_loop]; rewrite bit32_pow by lia; destruct (Z.eqb_spec (Z.of_nat (m * 2 ^ j)) (Z.of_nat (2 ^ j))) as [E|E]; cbn [negb].
  - assert (m = 1)%nat as -> by nia; destruct (branch_end ml j v Hp Hs Hwait) as [H1 H2]; by exists v.
  - assert (Hm : (3 <= m)%nat) by (destruct m as [|[|[|]]]; [done|lia|done|lia]).
    destruct (duplicate_ok ml j m v Ho Hm Hs Hwait) as (Hlt & Ec & Hj30 & Hs'); pose proof (sw_small _ _ _ _ Hs') as Hsm'.
    assert (Eu : u32 (Z.of_nat (m * 2 ^ j) + Z.of_nat (2 ^ j)) = Z.of_nat ((m + 1) / 2 * 2 ^ S j)).
    { rewrite <- Ec, u32_id; [lia|]; split; [lia|]; rewrite <- Ec in Hsm'; rewrite Nat2Z.inj_le, (Nat2Z.inj_pow 2 31) in Hsm'; lia. }
    rewrite Eu; destruct (sweep_up_spec (32 - S j) (S j) ((m + 1) / 2)%nat inner ml (duplicate ubuf v) Hlt ltac:(lia) Hin Hs') as (t & m' & v' & -> & Ht & Et & Ho' & Hs'').
    cbn [mbind option_bind]; rewrite Et; apply IH; [lia|done|done|done|]; intros b _ _; apply (waiting_up ml t m'); [done|].
    pose proof (sw_last _ _ _ _ Hs''); lia.
Qed.

(** ** The whole computation *)

Lemma MerkleComputation_spec : Z.of_nat n <= 2 ^ 31 -> (want = true -> p < n)%nat -> p <> n ->
  exists mutated br, MerkleComputation ubuf leaves (Z.of_nat p) (if want then Some [] else None) = Some (root node leaves, mutated, br) /\
    (mutated = true <-> twins node leaves) /\ (want = true -> br = Some (path node leaves p (depth leaves))).
Proof.
  intros Hmax Hp Hpn; unfold MerkleComputation; rewrite (proj2 (Nat.eqb_neq _ _)) by lia.
  replace (match (if want then Some [] else None) with Some _ => Some [] | None => None end) with (if want then Some [] else @None (list (list Z))) by by destruct want.
  destruct (leaves_loop_ok n 0 _ ltac:(lia) Hmax start_ok) as (st & -> & [E1 E2 E3 E4]); cbn [mbind option_bind].
  destruct (skip_zeros_spec 32 0 n) as (t & m & E & Ht & Em & Ho); [by rewrite Nat.pow_0_r, Nat.mul_1_r|lia|lia|]; rewrite E1, E; cbn [mbind option_bind].
  assert (Eq : (n / 2 ^ t = m)%nat) by (rewrite Em; apply Nat.div_mul, Nat.pow_nonzero; lia).
  rewrite (proj2 E2 t) by (by rewrite Eq); cbn [mbind option_bind]; rewrite Eq.
  destruct (sweep_loop_spec (32 - t) t m st.(mc_inner) st.(mc_matchlevel) (McVars (lv t (m - 1)%nat) (st.(mc_matchlevel) =? Z.of_nat t) st.(mc_pbranch)))
    as (v & Ev & Hr & Hb); [done|lia|done|done| | |].
  - pose proof (pow2_nat_pos t); assert (1 <= m)%nat by (destruct m; [done|lia]); split; cbn [mc_h]; [nia| |nia|done|].
    { rewrite <- Em, Nat2Z.inj_le, (Nat2Z.inj_pow 2 31); exact Hmax. }
    unfold branch_ok; cbn [mc_branch mc_matchh]; destruct st.(mc_pbranch) as [b|]; [|done]; unfold on_path; cbn [mc_matchh].
    destruct E3 as [(k & Ek & _ & Hok & Hpk & ->)|(-> & -> & Hpn')]; [rewrite Ek; destruct (Nat.lt_trichotomy k t) as [H'|[->|H']]|].
    + rewrite <- Nat.negb_even, (carry_low n m t k) in Hok by done; discriminate.
    + left; rewrite Z.eqb_refl; split_and!; [done|by rewrite Hpk, Eq|done].
    + right; left; split; [apply Z.eqb_neq; lia|exists k; split_and!; [done|lia|done|done|done]].
    + right; right; split_and!; [apply Z.eqb_neq; lia|done|done|lia].
  - cbn [mc_branch mc_matchh]; intros b _ Hne (k & Ek & Hk & H1 & H2 & ->); exists k; split_and!; [done| |done|done|done].
    rewrite Ek in Hne; apply Z.eqb_neq in Hne; lia.
  - rewrite <- Em in Ev; rewrite Ev; cbn [mbind option_bind]; exists st.(mc_mutated), v.(mc_branch); split_and!; [by rewrite Hr|done|done].
Qed.

End Proofs.

Import MerkleSpec.

Lemma root_loop_climb ubuf h b i : root_loop ubuf h b (Z.of_nat i) = climb (Hash_2 ubuf) h b i.
Proof.
  revert h i; induction b as [|s b IH]; intros h i; cbn [root_loop climb]; [done|].
  assert (Es : Z.shiftr (Z.of_nat i) 1 = Z.of_nat (i / 2)) by (rewrite Z.shiftr_div_pow2 by lia; by rewrite Nat2Z.inj_div).
  assert (El : negb (Z.land (Z.of_nat i) 1 =? 0) = Nat.odd i).
  { change 1 with (bit32 0); rewrite count_bit by lia; by rewrite Nat.pow_0_r, Nat.div_1_r, Nat.negb_even. }
  by rewrite Es, El, IH.
Qed.

Section Claims.
Context (ubuf : list Z).
Abbreviation node := (Hash_2 ubuf).
#[local] Opaque Hash_2.

Lemma ComputeMerkleRoot_spec leaves : (0 < length leaves)%nat -> Z.of_nat (length leaves) <= 2 ^ 31 ->
  exists mutated, ComputeMerkleRoot ubuf leaves = Some (root node leaves, mutated) /\ (mutated = true <-> twins node leaves).
Proof.
  intros H0 Hmax; unfold ComputeMerkleRoot; change (u32 (-1)) with (2 ^ 32 - 1).
  replace (2 ^ 32 - 1) with (Z.of_nat (Z.to_nat (2 ^ 32 - 1))) by (rewrite Z2Nat.id; lia).
  destruct (MerkleComputation_spec ubuf leaves (Z.to_nat (2 ^ 32 - 1)) false H0 Hmax) as (mutated & br & -> & H & _); [done|lia|].
  by exists mutated.
Qed.

Lemma ComputeMerkleBranch_spec leaves p : (p < length leaves)%nat -> Z.of_nat (length leaves) <= 2 ^ 31 ->
  ComputeMerkleBranch ubuf leaves (Z.of_nat p) = Some (path node leaves p (depth leaves)).
Proof.
  intros Hp Hmax; unfold ComputeMerkleBranch.
  destruct (MerkleComputation_spec ubuf leaves p true) as (mutated & br & -> & _ & ->); [lia|done|done|lia|done|done].
Qed.

(** C25 (equivalence): for up to 2^31 leaves the constant-space computation stays inside its
    32 hashes, ends, and gives the one hash that is left when the levels of the tree are
    computed one after the other; [mutated] is set exactly when two neighbouring complete
    subtrees, on whatever level, have the same hash. *)
Theorem merkle_root_correct (leaves : list (list Z)) : (0 < length leaves)%nat -> Z.of_nat (length leaves) <= 2 ^ 31 ->
  exists r mutated, ComputeMerkleRoot ubuf leaves = Some (r, mutated) /\ level node (Nat.log2_up (length leaves)) leaves = [r] /\
    (mutated = true <-> exists k i, ((2 * i + 2) * 2 ^ k <= length leaves)%nat /\ level node k leaves !!! (2 * i)%nat = level node k leaves !!! (2 * i + 1)%nat).
Proof.
  intros H0 Hmax; destruct (ComputeMerkleRoot_spec leaves H0 Hmax) as (mutated & E & H); exists (root node leaves), mutated.
  split_and!; [done|exact (level_depth node leaves H0)|exact H].
Qed.

(** C26 (roundtrip): the branch that is computed for a position has a hash for every level, and from the
    leaf at that position it leads back to the root; any other branch of that length that
    leads to the root from the position starts from the same leaf and is the same branch,
    unless two of the pairs that are hashed on the way collide. *)
Theorem merkle_branch_roundtrip (leaves : list (list Z)) (p : nat) (leaf : list Z) :
  leaves !! p = Some leaf -> Z.of_nat (length leaves) <= 2 ^ 31 ->
  exists branch r mutated, ComputeMerkleBranch ubuf leaves (Z.of_nat p) = Some branch /\ ComputeMerkleRoot ubuf leaves = Some (r, mutated) /\
    length branch = Nat.log2_up (length leaves) /\ ComputeMerkleRootFromBranch ubuf leaf branch (Z.of_nat p) = r /\
    forall leaf' branch', length branch' = length branch -> ComputeMerkleRootFromBranch ubuf leaf' branch' (Z.of_nat p) = r ->
      (leaf' = leaf /\ branch' = branch) \/
      exists x y, In x (steps node leaf' branch' p) /\ In y (steps node leaf branch p) /\ x <> y /\ node x.1 x.2 = node y.1 y.2.
Proof.
  intros Hl Hmax; pose proof (lookup_lt_Some _ _ _ Hl) as Hp; destruct (ComputeMerkleRoot_spec leaves ltac:(lia) Hmax) as (mutated & E & _).
  assert (Er : climb node leaf (path node leaves p (depth leaves)) p = root node leaves).
  { rewrite <- (list_lookup_total_correct leaves p leaf Hl), climb_path by done; unfold root; f_equal; apply Nat.div_small.
    destruct (depth_spec leaves ltac:(lia)); lia. }
  exists (path node leaves p (depth leaves)), (root node leaves), mutated; split_and!; [by apply ComputeMerkleBranch_spec|done|apply path_length| |].
  - unfold ComputeMerkleRootFromBranch; by rewrite root_loop_climb.
  - unfold ComputeMerkleRootFromBranch; intros leaf' branch' Hlen; rewrite root_loop_climb; intros H; apply climb_binding; [done|congruence].
Qed.

(** C27 (safety): a root binds its leaves: two lists for trees of one height, neither of which is
    reported as mutated, that have the same root are the same list, unless the two trees hash
    different pairs to the same hash. *)
Theorem merkle_root_binding (leaves1 leaves2 : list (list Z)) (r : list Z) :
  (0 < length leaves1)%nat -> Z.of_nat (length leaves1) <= 2 ^ 31 -> (0 < length leaves2)%nat -> Z.of_nat (length leaves2) <= 2 ^ 31 ->
  Nat.log2_up (length leaves1) = Nat.log2_up (length leaves2) ->
  ComputeMerkleRoot ubuf leaves1 = Some (r, false) -> ComputeMerkleRoot ubuf leaves2 = Some (r, false) ->
  leaves1 = leaves2 \/ collision node (Nat.log2_up (length leaves1)) leaves1 leaves2.
Proof.
  intros P1 M1 P2 M2 Ed E1 E2; destruct (ComputeMerkleRoot_spec leaves1 P1 M1) as (m1 & R1 & T1), (ComputeMerkleRoot_spec leaves2 P2 M2) as (m2 & R2 & T2).
  rewrite E1 in R1; rewrite E2 in R2; injection R1 as Er1 <-; injection R2 as Er2 <-; destruct (depth_spec leaves1 P1) as [D1 _], (depth_spec leaves2 P2) as [D2 _].
  apply tree_binding; [split; [done|exact D1]|rewrite Ed; split; [done|exact D2]|by intros ?%T1|by intros ?%T2|].
  change (root node leaves1 = level node (Nat.log2_up (length leaves1)) leaves2 !!! 0%nat); rewrite Ed; change (root node leaves1 = root node leaves2); congruence.
Qed.

(** The attack of CVE-2012-2459: when the last complete subtree of [2 ^ k] leaves is
    alone in its pair, its leaves can be repeated without changing the root; the
    longer list is reported as mutated. *)
Theorem duplicated_leaves_detected (a t : list (list Z)) (k x : nat) :
  length a = ((x + 1) * 2 * 2 ^ k)%nat -> length t = (2 ^ k)%nat -> Z.of_nat (length (a ++ t ++ t)) <= 2 ^ 31 ->
  exists r mutated, ComputeMerkleRoot ubuf (a ++ t) = Some (r, mutated) /\ ComputeMerkleRoot ubuf (a ++ t ++ t) = Some (r, true).
Proof.
  intros Ha Ht Hmax; pose proof (pow2_nat_pos k); destruct (duplicate_root node k a t (ex_intro _ x Ha) Ht) as (_ & Er & Htw).
  destruct (ComputeMerkleRoot_spec (a ++ t)) as (m1 & R1 & _); [rewrite length_app; lia|rewrite !length_app in *; lia|].
  destruct (ComputeMerkleRoot_spec (a ++ t ++ t)) as (m2 & R2 & T2); [rewrite length_app; lia|done|].
  exists (root node (a ++ t)), m1; split; [done|]; by rewrite R2, Er, (proj2 T2 Htw).
Qed.

End Claims.

(** ** Witnesses *)

Definition three_leaves : list (list Z) := [replicate 32 1; replicate 32 2; replicate 32 3].

Lemma merkle_root_correct_witness : exists r mutated, ComputeMerkleRoot [] three_leaves = Some (r, mutated) /\ level (Hash_2 []) 2 three_leaves = [r].
Proof.
  destruct (merkle_root_correct [] three_leaves) as (r & mutated & H1 & H2 & _); [cbn; lia|cbn; lia|].
  exists r, mutated; split; [exact H1|exact H2].
Defined.

Lemma merkle_branch_roundtrip_witness : exists branch r mutated, ComputeMerkleBranch [] three_leaves 2 = Some branch /\
  ComputeMerkleRoot [] three_leaves = Some (r, mutated) /\ ComputeMerkleRootFromBranch [] (replicate 32 3) branch 2 = r.
Proof.
  destruct (merkle_branch_roundtrip [] three_leaves 2 (replicate 32 3)) as (b & r & mutated & H1 & H2 & _ & H3 & _); [reflexivity|cbn; lia|].
  exists b, r, mutated; split_and!; [exact H1|exact H2|exact H3].
Defined.

Lemma merkle_root_binding_witness : exists r, ComputeMerkleRoot [] three_leaves = Some (r, false) /\
  (three_leaves = three_leaves \/ collision (Hash_2 []) 2 three_leaves three_leaves).
Proof.
  assert (H : exists r, ComputeMerkleRoot [] three_leaves = Some (r, false)) by (eexists; vm_compute; reflexivity).
  destruct H as [r H]; exists r; split; [exact H|]; apply (merkle_root_binding [] three_leaves three_leaves r); [cbn; lia..|reflexivity|exact H|exact H].
Defined.

(** Six transactions, and the same with the last two repeated *)
Example duplicated_transactions :
  let l := map (fun i => replicate 32 (Z.of_nat i)) (seq 1 6) in
  (fst <$> ComputeMerkleRoot [] l) = (fst <$> ComputeMerkleRoot [] (l ++ drop 4 l)) /\
  (snd <$> ComputeMerkleRoot [] l) = Some false /\ (snd <$> ComputeMerkleRoot [] (l ++ drop 4 l)) = Some true.
Proof. vm_compute; repeat split. Qed.
