(* ===== verification/PartialMerkle.v ===== *)
(** CPartialMerkleTree of merkleblock.h and merkleblock.cpp: the part of a Merkle
    tree that shows which of the transactions of a block match, as it is built, sent
    and read by the node that asked for it.

    The counters of bits and hashes are at most the lengths of the vectors, which the
    limit on the size of what is read keeps below 2^32; they are natural numbers here.
    [None] is undefined behaviour of C++: a shift by 31 of an [int], or an access out
    of range. *)

From S2P Require Import Prelude MdHash Hash Serialize Block.

Record CPartialMerkleTree := PartialMerkleTree { nTransactions : Z; vBits : list bool; vHash : list (list Z); fBad : bool }.

(** The shift is defined for heights below 31, which [tree_height] ensures. *)
Definition CalcTreeWidth (nTransactions : Z) (height : nat) : Z :=
  Z.shiftr (u32 (nTransactions + Z.shiftl 1 (Z.of_nat height) - 1)) (Z.of_nat height).

(** [while (CalcTreeWidth(nHeight) > 1) nHeight++;] *)
Fixpoint height_loop (fuel : nat) (nTransactions : Z) (nHeight : nat) : option nat :=
  match fuel with
  | O => None
  | S fuel => if 1 <? CalcTreeWidth nTransactions nHeight then height_loop fuel nTransactions (S nHeight) else Some nHeight
  end.
Definition tree_height (nTransactions : Z) : option nat := height_loop 31 nTransactions 0.

Section Tree.
Context (ubuf : list Z).

Fixpoint CalcHash (nTransactions : Z) (height : nat) (pos : Z) (vTxid : list (list Z)) : option (list Z) :=
  match height with
  | O => vTxid !! Z.to_nat pos
  | S height =>
    left_ ← CalcHash nTransactions height (u32 (pos * 2)) vTxid;
    right_ ← (if u32 (pos * 2 + 1) <? CalcTreeWidth nTransactions height
             then CalcHash nTransactions height (u32 (pos * 2 + 1)) vTxid else Some left_);
    Some (Hash_2 ubuf left_ right_)
  end.

(** [for (p = pos << height; p < (pos+1) << height && p < nTransactions; p++) fParentOfMatch |= vMatch[p];] *)
Definition parent_of_match (nTransactions : Z) (height : nat) (pos : Z) (vMatch : list bool) : option bool :=
  let first := u32 (Z.shiftl pos (Z.of_nat height)) in
  let last := u32 (Z.shiftl (pos + 1) (Z.of_nat height)) in
  for_rangeM (Z.to_nat first) (Z.to_nat (Z.min last nTransactions)) (fun p f => b ← vMatch !! p; Some (f || b)) false.

Fixpoint TraverseAndBuild (height : nat) (pos : Z) (vTxid : list (list Z)) (vMatch : list bool) (t : CPartialMerkleTree) : option CPartialMerkleTree :=
  fParentOfMatch ← parent_of_match t.(nTransactions) height pos vMatch;
  let t := PartialMerkleTree t.(nTransactions) (t.(vBits) ++ [fParentOfMatch]) t.(vHash) t.(fBad) in
  let store := h ← CalcHash t.(nTransactions) height pos vTxid; Some (PartialMerkleTree t.(nTransactions) t.(vBits) (t.(vHash) ++ [h]) t.(fBad)) in
  match height with
  | O => store
  | S height =>
    if negb fParentOfMatch then store
    else
      t ← TraverseAndBuild height (u32 (pos * 2)) vTxid vMatch t;
      if u32 (pos * 2 + 1) <? CalcTreeWidth t.(nTransactions) height
      then TraverseAndBuild height (u32 (pos * 2 + 1)) vTxid vMatch t else Some t
  end.

Definition make_CPartialMerkleTree (vTxid : list (list Z)) (vMatch : list bool) : option CPartialMerkleTree :=
  let nTransactions := u32 (Z.of_nat (length vTxid)) in
  nHeight ← tree_height nTransactions;
  TraverseAndBuild nHeight 0 vTxid vMatch (PartialMerkleTree nTransactions [] [] false).

Definition new_CPartialMerkleTree : CPartialMerkleTree := PartialMerkleTree 0 [] [] true.

(** The arguments by reference, and the member [fBad] *)
Record extract_state := Extract { nBitsUsed : nat; nHashUsed : nat; xMatch : list (list Z); xIndex : list Z; xBad : bool }.

Definition set_bad (st : extract_state) : extract_state := Extract st.(nBitsUsed) st.(nHashUsed) st.(xMatch) st.(xIndex) true.

(** The stored hash, used without going down *)
Definition use_hash (t : CPartialMerkleTree) (matched : bool) (pos : Z) (st : extract_state) : list Z * extract_state :=
  match t.(vHash) !! st.(nHashUsed) with
  | None => (uint256_null, set_bad st)
  | Some hash =>
    (hash, if matched then Extract st.(nBitsUsed) (S st.(nHashUsed)) (st.(xMatch) ++ [hash]) (st.(xIndex) ++ [pos]) st.(xBad)
           else Extract st.(nBitsUsed) (S st.(nHashUsed)) st.(xMatch) st.(xIndex) st.(xBad))
  end.

Fixpoint TraverseAndExtract (t : CPartialMerkleTree) (height : nat) (pos : Z) (st : extract_state) : list Z * extract_state :=
  match t.(vBits) !! st.(nBitsUsed) with
  | None => (uint256_null, set_bad st)
  | Some fParentOfMatch =>
    let st := Extract (S st.(nBitsUsed)) st.(nHashUsed) st.(xMatch) st.(xIndex) st.(xBad) in
    match height with
    | O => use_hash t fParentOfMatch pos st
    | S height =>
      if negb fParentOfMatch then use_hash t false pos st
      else
        let '(left_, st) := TraverseAndExtract t height (u32 (pos * 2)) st in
        let '(right_, st) :=
          if u32 (pos * 2 + 1) <? CalcTreeWidth t.(nTransactions) height then
            let '(right_, st) := TraverseAndExtract t height (u32 (pos * 2 + 1)) st in
            (right_, if bool_decide (right_ = left_) then set_bad st else st)
          else (left_, st) in
        (Hash_2 ubuf left_ right_, st)
    end
  end.

Definition MAX_BLOCK_BASE_SIZE : Z := 2000000.

(** The returned hash, [vMatch], [vnIndex] and the object; [vnIndex] is not cleared. *)
Definition ExtractMatches (t : CPartialMerkleTree) (vMatch : list (list Z)) (vnIndex : list Z) :
  option (list Z * list (list Z) * list Z * CPartialMerkleTree) :=
  if t.(nTransactions) =? 0 then Some (uint256_null, [], vnIndex, t)
  else if MAX_BLOCK_BASE_SIZE / 60 <? t.(nTransactions) then Some (uint256_null, [], vnIndex, t)
  else if t.(nTransactions) <? Z.of_nat (length t.(vHash)) then Some (uint256_null, [], vnIndex, t)
  else if (length t.(vBits) <? length t.(vHash))%nat then Some (uint256_null, [], vnIndex, t)
  else
    nHeight ← tree_height t.(nTransactions);
    let '(hashMerkleRoot, st) := TraverseAndExtract t nHeight 0 (Extract 0 0 [] vnIndex t.(fBad)) in
    let t := PartialMerkleTree t.(nTransactions) t.(vBits) t.(vHash) st.(xBad) in
    let result h := Some (h, st.(xMatch), st.(xIndex), t) in
    if st.(xBad) then result uint256_null
    else if negb ((st.(nBitsUsed) + 7) / 8 =? (length t.(vBits) + 7) / 8)%nat then result uint256_null
    else if negb (st.(nHashUsed) =? length t.(vHash))%nat then result uint256_null
    else result hashMerkleRoot.

End Tree.

(** ** Serialization *)

(** [vBytes[p / 8] |= vBits[p] << (p % 8)] for all [p] *)
Definition pack_bits (vBits : list bool) : list Z :=
  for_range 0 (length vBits) (fun p vBytes =>
    <[(p / 8)%nat := Z.lor (vBytes !!! (p / 8)%nat) (Z.shiftl (Z.b2z (vBits !!! p)) (Z.of_nat (p mod 8)))]> vBytes)
    (replicate ((length vBits + 7) / 8) 0).

Definition unpack_bits (vBytes : list Z) : list bool :=
  map (fun p => negb (Z.land (vBytes !!! (p / 8)%nat) (Z.shiftl 1 (Z.of_nat (p mod 8))) =? 0)) (seq 0 (length vBytes * 8)).

Definition Serialize_uint256 (os : CDataStream) (h : list Z) : CDataStream := write h os.
Definition Unserialize_uint256 : reader (list Z) := read 32.

Definition Serialize_tree (os : CDataStream) (t : CPartialMerkleTree) : CDataStream :=
  let os := ser_writedata32 os t.(nTransactions) in
  let os := Serialize_vector Serialize_uint256 os t.(vHash) in
  Serialize_bytes os (pack_bits t.(vBits)).

Definition Unserialize_tree : reader CPartialMerkleTree :=
  nTransactions <-- ser_readdata32 ;;
  vHash <-- Unserialize_vector Unserialize_uint256 (5000000 / 32) ;;
  vBytes <-- Unserialize_bytes ;;
  ret (PartialMerkleTree nTransactions (unpack_bits vBytes) vHash false).
