(* ===== verification/PartialMerkleClaims.v ===== *)
(** Partial Merkle trees: what is built for some transactions of a block is sent, read
    and gives these transactions and the root of the block; and no partial tree for that root
    gives anything else. *)

From S2P Require Import Prelude MdHash Hash HashClaims Serialize SerializeProofs Block BlockProofs BlockMerkle BlockMerkleSpec BlockMerkleClaims PartialMerkle.
Import MerkleSpec.

(** ** Bits in bytes *)

Lemma land_bit x e : 0 <= e -> negb (Z.land x (Z.shiftl 1 e) =? 0) = Z.testbit x e.
Proof.
  intros He; rewrite Z.shiftl_1_l; apply eq_true_iff_eq; rewrite negb_true_iff, Z.eqb_neq; split; [intros H; destruct (Z.testbit x e) eqn:E; [done|destruct H]|].
  - apply Z.bits_inj_0; intros i; rewrite Z.land_spec; destruct (Z.eq_dec i e) as [->|]; [by rewrite E|]; by rewrite Z.pow2_bits_false, andb_false_r by lia.
  - intros E H; assert (Hb : Z.testbit (Z.land x (2 ^ e)) e = false) by (rewrite H; apply Z.bits_0).
    by rewrite Z.land_spec, E, Z.pow2_bits_true in Hb by lia.
Qed.

Lemma pack_bits_spec v : length (pack_bits v) = ((length v + 7) / 8)%nat /\ forall q, (q < (length v + 7) / 8)%nat ->
  0 <= pack_bits v !!! q /\ forall j, 0 <= j -> Z.testbit (pack_bits v !!! q) j = (j <? 8) && (q * 8 + Z.to_nat j <? length v)%nat && v !!! (q * 8 + Z.to_nat j)%nat.
Proof.
  unfold pack_bits; set (L := ((length v + 7) / 8)%nat).
  assert (HL : (length v <= L * 8)%nat) by (pose proof (Nat.div_mod_eq (length v + 7) 8); pose proof (Nat.mod_upper_bound (length v + 7) 8 ltac:(lia)); lia).
  apply (for_range_ind (fun m b => length b = L /\ forall q, (q < L)%nat -> 0 <= b !!! q /\
    forall j, 0 <= j -> Z.testbit (b !!! q) j = (j <? 8) && (q * 8 + Z.to_nat j <? m)%nat && v !!! (q * 8 + Z.to_nat j)%nat)); [lia| |].
  - split; [apply length_replicate|]; intros q Hq; rewrite lookup_total_replicate_2 by done; split; [lia|]; intros j Hj; rewrite Z.testbit_0_l.
    destruct (Nat.ltb_spec (q * 8 + Z.to_nat j) 0); [lia|]; by rewrite andb_false_r.
  - intros m b Hm [Hl Hb]; split; [by rewrite length_insert|]; intros q Hq; pose proof (Nat.div_mod_eq m 8) as Hdm; pose proof (Nat.mod_upper_bound m 8 ltac:(lia)) as Hmb.
    destruct (Nat.eq_dec q (m / 8)%nat) as [->|Hne].
    + rewrite list_lookup_total_insert_eq by lia; destruct (Hb (m / 8)%nat Hq) as [H0 Hbit]; split.
      * apply Z.lor_nonneg; split; [done|]; apply Z.shiftl_nonneg; destruct (v !!! m); cbn; lia.
      * intros j Hj; rewrite Z.lor_spec, Hbit by done; rewrite Z.shiftl_spec by done; destruct (Z.eq_dec j (Z.of_nat (m mod 8))) as [->|Hjm].
        -- rewrite Z.sub_diag, Z.b2z_bit0, Nat2Z.id; replace (m / 8 * 8 + m mod 8)%nat with m by lia.
           rewrite Nat.ltb_irrefl, andb_false_r, (proj2 (Nat.ltb_lt m (m + 1))), (proj2 (Z.ltb_lt _ _)) by lia; done.
        -- replace (Z.testbit (Z.b2z (v !!! m)) (j - Z.of_nat (m mod 8))) with false; [rewrite orb_false_r|].
           ++ destruct (Z.ltb_spec j 8); [|done]; cbn [andb]; f_equal; apply eq_true_iff_eq; rewrite !Nat.ltb_lt; lia.
           ++ symmetry; destruct (Z.lt_ge_cases j (Z.of_nat (m mod 8))); [apply Z.testbit_neg_r; lia|]; destruct (v !!! m); cbn [Z.b2z]; [|apply Z.testbit_0_l].
              rewrite <- (Z.pow2_bits_false 0 (j - Z.of_nat (m mod 8))) by lia; done.
    + rewrite list_lookup_total_insert_ne by done; destruct (Hb q Hq) as [H0 Hbit]; split; [done|]; intros j Hj; rewrite Hbit by done.
      destruct (Z.ltb_spec j 8); [|done]; cbn [andb]; f_equal; apply eq_true_iff_eq; rewrite !Nat.ltb_lt; lia.
Qed.

Lemma pack_bits_words v : words 8 (pack_bits v).
Proof.
  destruct (pack_bits_spec v) as [Hl Hb]; apply Forall_lookup; intros q x Hx; pose proof (lookup_lt_Some _ _ _ Hx) as Hq; rewrite Hl in Hq.
  apply list_lookup_total_correct in Hx; destruct (Hb q Hq) as [H0 Hbit]; rewrite Hx in *; apply bits_word; [lia| |done].
  intros i Hi; rewrite Hbit by lia; by rewrite (proj2 (Z.ltb_ge _ _)) by lia.
Qed.

(** Bits that were packed come back with the padding. *)
Lemma unpack_pack v : exists k, unpack_bits (pack_bits v) = v ++ replicate k false /\ ((length v + k + 7) / 8 = (length v + 7) / 8)%nat /\ (k <= 7)%nat.
Proof.
  destruct (pack_bits_spec v) as [Hl Hb]; set (L := ((length v + 7) / 8)%nat) in *.
  assert (HL : (length v <= L * 8 <= length v + 7)%nat) by (unfold L; pose proof (Nat.div_mod_eq (length v + 7) 8); pose proof (Nat.mod_upper_bound (length v + 7) 8 ltac:(lia)); lia).
  exists (L * 8 - length v)%nat; split_and!; [|replace (length v + (L * 8 - length v) + 7)%nat with (7 + L * 8)%nat by lia; by rewrite Nat.div_add by lia|lia].
  unfold unpack_bits; rewrite Hl; apply list_eq; intros p; destruct (Nat.lt_ge_cases p (L * 8)) as [Hp|Hp].
  - rewrite list_lookup_fmap, (lookup_seq_lt 0 (L * 8)) by lia; cbn [fmap option_fmap option_map Nat.add]; rewrite land_bit by lia.
    pose proof (Nat.div_mod_eq p 8); pose proof (Nat.mod_upper_bound p 8 ltac:(lia)); rewrite (proj2 (Hb (p / 8)%nat ltac:(lia))) by lia.
    rewrite Nat2Z.id, (proj2 (Z.ltb_lt _ _)) by lia; replace (p / 8 * 8 + p mod 8)%nat with p by lia; cbn [andb]; destruct (Nat.ltb_spec p (length v)).
    + by rewrite lookup_app_l, list_lookup_lookup_total_lt by lia.
    + by rewrite lookup_app_r, lookup_replicate_2 by lia.
  - rewrite (lookup_ge_None_2 (map _ _)) by (rewrite length_map, length_seq; lia); symmetry; apply lookup_ge_None_2; rewrite length_app, length_replicate; lia.
Qed.

Section Tree.
Context (ubuf : list Z) (l : list (list Z)).
Abbreviation node := (Hash_2 ubuf).
Abbreviation n := (length l).
Abbreviation lv k i := (level node k l !!! i).
Abbreviation width k := (length (level node k l)).
Hypothesis Hn : (0 < n)%nat.
Hypothesis Hmax : Z.of_nat n <= 33333.
#[local] Opaque Hash_2.

(** ** The shape of the tree *)

Lemma depth_small : (depth l <= 16)%nat.
Proof.
  destruct (depth_spec l Hn) as [_ H]; destruct (Nat.le_gt_cases (depth l) 16) as [|Hd]; [done|exfalso].
  apply (Nat.pow_le_mono_r 2 17) in Hd; [|lia]; apply Nat2Z.inj_le in Hd; rewrite Nat2Z.inj_pow in Hd; apply Nat2Z.inj_lt in H; cbn in Hd; lia.
Qed.

Lemma pow_small k : (k <= 16)%nat -> Z.of_nat (2 ^ k) <= 65536.
Proof. intros H; apply (Nat.pow_le_mono_r 2) in H; [|lia]; apply Nat2Z.inj_le in H; rewrite (Nat2Z.inj_pow 2 16) in H; exact H. Qed.

Lemma width_spec k : (k <= 16)%nat -> CalcTreeWidth (Z.of_nat n) k = Z.of_nat (width k).
Proof.
  intros Hk; pose proof (level_width node k l Hn) as Hw; pose proof (pow2_nat_pos k); pose proof (pow_small k Hk); unfold CalcTreeWidth.
  rewrite Z.shiftl_1_l; change 2 with (Z.of_nat 2); rewrite <- Nat2Z.inj_pow, u32_id by (split; lia).
  rewrite Z.shiftr_div_pow2 by lia; change 2 with (Z.of_nat 2); rewrite <- Nat2Z.inj_pow.
  symmetry; apply (Z.div_unique_pos _ _ _ (Z.of_nat n + Z.of_nat (2 ^ k) - 1 - Z.of_nat (2 ^ k) * Z.of_nat (width k))); [nia|lia].
Qed.

Lemma width_one k : (1 < width k)%nat <-> (k < depth l)%nat.
Proof.
  pose proof (level_width node k l Hn) as Hw; pose proof (pow2_nat_pos k) as Hk; destruct (depth_spec l Hn) as [D1 D2]; split; intros H.
  - apply (Nat.pow_lt_mono_r_iff 2); [lia|]; nia.
  - assert (Hp : (2 * 2 ^ k <= 2 ^ depth l)%nat) by (rewrite <- Nat.pow_succ_r'; apply Nat.pow_le_mono_r; lia); nia.
Qed.

Lemma tree_height_spec : tree_height (Z.of_nat n) = Some (depth l).
Proof.
  pose proof depth_small as Hd; assert (H : forall fuel k, (k <= depth l)%nat -> (depth l < fuel + k)%nat -> height_loop fuel (Z.of_nat n) k = Some (depth l)).
  { induction fuel as [|fuel IH]; intros k H1 H2; [lia|]; cbn [height_loop]; rewrite width_spec by lia; pose proof (width_one k) as Hw.
    destruct (Z.ltb_spec 1 (Z.of_nat (width k))); [apply IH; lia|f_equal; lia]. }
  apply H; lia.
Qed.

(** The children of a node *)
Lemma child k pos : (pos < width (S k))%nat -> (2 * pos < width k)%nat.
Proof.
  rewrite level_S, next_length; pose proof (Nat.div_mod_eq (width k + 1) 2); pose proof (Nat.mod_upper_bound (width k + 1) 2 ltac:(lia)); lia.
Qed.

Lemma width_le k : (width k <= n)%nat.
Proof. pose proof (level_width node k l Hn); pose proof (pow2_nat_pos k); nia. Qed.

Lemma child_pos pos k : (pos < width k)%nat -> u32 (Z.of_nat pos * 2) = Z.of_nat (2 * pos) /\ u32 (Z.of_nat pos * 2 + 1) = Z.of_nat (2 * pos + 1).
Proof. intros H; pose proof (width_le k); split; rewrite u32_id; try lia; split; lia. Qed.

Lemma has_right k pos : (k <= 16)%nat -> (Z.of_nat (2 * pos + 1) <? CalcTreeWidth (Z.of_nat n) k) = (2 * pos + 1 <? width k)%nat.
Proof. intros Hk; rewrite width_spec by done; apply eq_true_iff_eq; rewrite Z.ltb_lt, Nat.ltb_lt; lia. Qed.

(** The hash of a node from those of its children *)
Lemma parent k pos : (pos < width (S k))%nat ->
  lv (S k) pos = node (lv k (2 * pos)%nat) (if (2 * pos + 1 <? width k)%nat then lv k (2 * pos + 1)%nat else lv k (2 * pos)%nat).
Proof.
  intros Hp; rewrite level_inputs by done; unfold inputs; cbn [fst snd]; apply child in Hp.
  destruct (Nat.ltb_spec (2 * pos + 1) (width k)); do 2 f_equal; lia.
Qed.

Lemma CalcHash_spec k pos : (k <= 16)%nat -> (pos < width k)%nat -> CalcHash ubuf (Z.of_nat n) k (Z.of_nat pos) l = Some (lv k pos).
Proof.
  revert pos; induction k as [|k IH]; intros pos Hk Hp; cbn [CalcHash]; [rewrite Nat2Z.id; by apply list_lookup_lookup_total_lt|].
  pose proof (child k pos Hp) as Hc; destruct (child_pos pos _ Hp) as [-> ->]; rewrite (IH (2 * pos)%nat) by lia; cbn [mbind option_bind]; rewrite has_right by lia.
  rewrite parent by done; destruct (Nat.ltb_spec (2 * pos + 1) (width k)); [rewrite IH by lia|]; done.
Qed.

(** ** Positions below a node *)

Definition below (k pos : nat) : list nat := seq (pos * 2 ^ k) (Nat.min ((pos + 1) * 2 ^ k) n - pos * 2 ^ k).

Lemma below_S k pos : (pos < width (S k))%nat -> below (S k) pos = below k (2 * pos) ++ if (2 * pos + 1 <? width k)%nat then below k (2 * pos + 1) else [].
Proof.
  intros Hp; apply child in Hp; pose proof (level_width node k l Hn) as Hw; pose proof (pow2_nat_pos k); unfold below; rewrite Nat.pow_succ_r'.
  destruct (Nat.ltb_spec (2 * pos + 1) (width k)).
  - assert ((2 * pos + 1) * 2 ^ k < n)%nat by nia.
    replace (Nat.min ((2 * pos + 1) * 2 ^ k) n - 2 * pos * 2 ^ k)%nat with (2 ^ k)%nat by lia.
    replace (Nat.min ((pos + 1) * (2 * 2 ^ k)) n - pos * (2 * 2 ^ k))%nat with (2 ^ k + (Nat.min ((2 * pos + 1 + 1) * 2 ^ k) n - (2 * pos + 1) * 2 ^ k))%nat by lia.
    rewrite seq_app; f_equal; f_equal; lia.
  - rewrite app_nil_r; assert (n <= (2 * pos + 1) * 2 ^ k)%nat by nia; f_equal; lia.
Qed.

Lemma below_leaf pos : (pos < n)%nat -> below 0 pos = [pos].
Proof. intros H; unfold below; rewrite Nat.pow_0_r, !Nat.mul_1_r; by replace (Nat.min (pos + 1) n - pos)%nat with 1%nat by lia. Qed.

Lemma below_root : below (depth l) 0 = seq 0 n.
Proof. destruct (depth_spec l Hn) as [H _]; unfold below; f_equal; lia. Qed.

Lemma root_pos : (0 < width (depth l))%nat.
Proof. rewrite level_depth by done; cbn; lia. Qed.

Section Build.
Context (vMatch : list bool).
Hypothesis Hv : length vMatch = n.

Definition some_match (k pos : nat) : bool := existsb (fun p => vMatch !!! p) (below k pos).
Definition matches (k pos : nat) : list nat := List.filter (fun p => vMatch !!! p) (below k pos).

Lemma some_match_S k pos : (pos < width (S k))%nat -> some_match (S k) pos = some_match k (2 * pos) || (if (2 * pos + 1 <? width k)%nat then some_match k (2 * pos + 1) else false).
Proof. intros Hp; unfold some_match; rewrite below_S, existsb_app by done; by destruct (_ <? _)%nat. Qed.

Lemma matches_S k pos : (pos < width (S k))%nat -> matches (S k) pos = matches k (2 * pos) ++ (if (2 * pos + 1 <? width k)%nat then matches k (2 * pos + 1) else []).
Proof. intros Hp; unfold matches; rewrite below_S, List.filter_app by done; by destruct (_ <? _)%nat. Qed.

Lemma no_match k pos : some_match k pos = false -> matches k pos = [].
Proof.
  unfold some_match, matches; induction (below k pos) as [|x r IH]; cbn [existsb List.filter]; [done|]; intros [-> H]%orb_false_iff; by apply IH.
Qed.

Lemma parent_of_match_spec k pos : (k <= 16)%nat -> (pos < width k)%nat -> parent_of_match (Z.of_nat n) k (Z.of_nat pos) vMatch = Some (some_match k pos).
Proof.
  intros Hk Hp; pose proof (level_width node k l Hn) as Hw; pose proof (pow2_nat_pos k); pose proof (pow_small k Hk); assert (pos * 2 ^ k < n)%nat by nia.
  assert (E : forall x, (x * 2 ^ k <= n + 2 ^ k)%nat -> u32 (Z.shiftl (Z.of_nat x) (Z.of_nat k)) = Z.of_nat (x * 2 ^ k)).
  { intros x Hx; rewrite Z.shiftl_mul_pow2 by lia; change 2 with (Z.of_nat 2); rewrite <- Nat2Z.inj_pow, <- Nat2Z.inj_mul; apply u32_id; split; lia. }
  unfold parent_of_match; replace (Z.of_nat pos + 1) with (Z.of_nat (pos + 1)) by lia; rewrite !E by lia.
  rewrite <- Nat2Z.inj_min, !Nat2Z.id; unfold some_match, below, for_rangeM.
  assert (Hall : Forall (fun p => p < n)%nat (seq (pos * 2 ^ k) (Nat.min ((pos + 1) * 2 ^ k) n - pos * 2 ^ k))).
  { apply List.Forall_forall; intros p Hpp; apply in_seq in Hpp; lia. }
  enough (G : forall r f, Forall (fun p => p < n)%nat r -> fold_leftM (fun f p => b ← vMatch !! p; Some (f || b)) r f = Some (f || existsb (fun p => vMatch !!! p) r)) by by apply G.
  induction r as [|x r IH]; intros f Hr; [by cbn; rewrite orb_false_r|]; inversion Hr as [|? ? Hx Hr']; subst.
  rewrite fold_leftM_cons, list_lookup_lookup_total_lt by lia; cbn [mbind option_bind existsb]; rewrite IH by done; by rewrite orb_assoc.
Qed.

(** ** Building *)

Fixpoint bits (k pos : nat) : list bool :=
  some_match k pos ::
  match k with
  | O => []
  | S k => if some_match (S k) pos then bits k (2 * pos) ++ (if (2 * pos + 1 <? width k)%nat then bits k (2 * pos + 1) else []) else []
  end.

Fixpoint hashes (k pos : nat) : list (list Z) :=
  match k with
  | O => [lv 0 pos]
  | S k => if some_match (S k) pos then hashes k (2 * pos) ++ (if (2 * pos + 1 <? width k)%nat then hashes k (2 * pos + 1) else []) else [lv (S k) pos]
  end.

Lemma TraverseAndBuild_spec k pos t : (k <= 16)%nat -> (pos < width k)%nat -> t.(nTransactions) = Z.of_nat n ->
  TraverseAndBuild ubuf k (Z.of_nat pos) l vMatch t = Some (PartialMerkleTree (Z.of_nat n) (t.(vBits) ++ bits k pos) (t.(vHash) ++ hashes k pos) t.(fBad)).
Proof.
  revert pos t; induction k as [|k IH]; intros pos t Hk Hp Ht; cbn [TraverseAndBuild bits hashes]; rewrite Ht, parent_of_match_spec by done; cbn [mbind option_bind nTransactions].
  - rewrite CalcHash_spec by done; done.
  - destruct (some_match (S k) pos) eqn:Em; cbn [negb]; [|rewrite CalcHash_spec by done; done].
    pose proof (child k pos Hp) as Hc; destruct (child_pos pos _ Hp) as [-> ->]; rewrite IH by (done || lia); cbn [mbind option_bind nTransactions vBits vHash fBad].
    rewrite has_right by lia; destruct (Nat.ltb_spec (2 * pos + 1) (width k)); [|by rewrite !app_nil_r, <- !app_assoc].
    rewrite IH by (done || lia); cbn [vBits vHash fBad]; by rewrite <- !app_assoc.
Qed.

Lemma build_spec : make_CPartialMerkleTree ubuf l vMatch = Some (PartialMerkleTree (Z.of_nat n) (bits (depth l) 0) (hashes (depth l) 0) false).
Proof.
  unfold make_CPartialMerkleTree; rewrite u32_id by (split; lia); rewrite tree_height_spec; cbn [mbind option_bind].
  by rewrite (TraverseAndBuild_spec _ 0 _ depth_small root_pos).
Qed.

(** ** Extracting what was built *)

Definition siblings_differ : Prop := forall k i, (2 * i + 1 < width k)%nat -> lv k (2 * i)%nat <> lv k (2 * i + 1)%nat.

Definition extracted (k pos : nat) (st : extract_state) : extract_state :=
  Extract (st.(nBitsUsed) + length (bits k pos)) (st.(nHashUsed) + length (hashes k pos))
    (st.(xMatch) ++ map (fun p => l !!! p) (matches k pos)) (st.(xIndex) ++ map Z.of_nat (matches k pos)) st.(xBad).

Lemma extract_spec t k pos st B1 B2 H1 H2 : siblings_differ -> t.(nTransactions) = Z.of_nat n -> (k <= 16)%nat -> (pos < width k)%nat ->
  t.(vBits) = B1 ++ bits k pos ++ B2 -> t.(vHash) = H1 ++ hashes k pos ++ H2 -> st.(nBitsUsed) = length B1 -> st.(nHashUsed) = length H1 ->
  TraverseAndExtract ubuf t k (Z.of_nat pos) st = (lv k pos, extracted k pos st).
Proof.
  intros Hd Ht; revert pos st B1 B2 H1 H2; induction k as [|k IH]; intros pos st B1 B2 H1 H2 Hk Hp EB EH Eb Eh; cbn [TraverseAndExtract];
    cbn [bits hashes app] in EB, EH; rewrite EB, Eb, list_lookup_middle by done.
  - unfold use_hash; cbn [nHashUsed nBitsUsed xMatch xIndex xBad]; rewrite EH, Eh; cbn [app]; rewrite list_lookup_middle by done; f_equal; unfold extracted; cbn [bits hashes length].
    unfold some_match, matches; rewrite below_leaf by done; cbn [existsb List.filter]; rewrite orb_false_r, !Nat.add_1_r, Eb, Eh; destruct (vMatch !!! pos); cbn [map]; [done|by rewrite !app_nil_r].
  - destruct (some_match (S k) pos) eqn:Em; cbn [negb].
    + pose proof (child k pos Hp) as Hc; destruct (child_pos pos _ Hp) as [-> ->]; rewrite Ht, has_right by lia.
      pose proof (matches_S k pos Hp) as Ems; rewrite parent by done; revert EB EH Ems; destruct (Nat.ltb_spec (2 * pos + 1) (width k)) as [Hr|Hr]; intros EB EH Ems.
      * rewrite (IH (2 * pos)%nat _ (B1 ++ [true]) (bits k (2 * pos + 1) ++ B2) H1 (hashes k (2 * pos + 1) ++ H2)); [|lia|lia| | | |].
        2: by rewrite EB, <- !app_assoc. 2: by rewrite EH, <- !app_assoc. 2: cbn [nBitsUsed]; rewrite length_app; cbn; lia. 2: done.
        rewrite (IH (2 * pos + 1)%nat _ (B1 ++ [true] ++ bits k (2 * pos)) B2 (H1 ++ hashes k (2 * pos)) H2); [|lia|lia| | | |].
        2: rewrite EB, <- !app_assoc; done. 2: by rewrite EH, <- !app_assoc. 2: cbn [nBitsUsed extracted]; rewrite !length_app; cbn; lia. 2: cbn [nHashUsed extracted]; rewrite length_app; lia.
        rewrite bool_decide_eq_false_2 by (intros E; by apply (Hd k pos Hr)); f_equal; unfold extracted; cbn [nBitsUsed nHashUsed xMatch xIndex xBad bits hashes]; rewrite Em.
        rewrite (proj2 (Nat.ltb_lt _ _)) by lia; cbn [length]; rewrite !length_app, Ems, !map_app, <- !app_assoc; f_equal; lia.
      * rewrite (IH (2 * pos)%nat _ (B1 ++ [true]) B2 H1 H2); [|lia|lia| | | |].
        2: rewrite EB, app_nil_r, <- !app_assoc; done. 2: by rewrite EH, app_nil_r. 2: cbn [nBitsUsed]; rewrite length_app; cbn; lia. 2: done.
        f_equal; unfold extracted; cbn [nBitsUsed nHashUsed xMatch xIndex xBad bits hashes]; rewrite Em, (proj2 (Nat.ltb_ge _ _)) by lia; cbn [length].
        rewrite !app_nil_r, Ems, app_nil_r; f_equal; lia.
    + unfold use_hash; cbn [nHashUsed nBitsUsed xMatch xIndex xBad]; rewrite EH, Eh; cbn [app]; rewrite list_lookup_middle by done; f_equal; unfold extracted; cbn [bits hashes length].
      rewrite Em, no_match by done; cbn [map length]; rewrite !app_nil_r; f_equal; lia.
Qed.

(** There are no more hashes than transactions, and no more than bits. *)
Lemma hashes_length k pos : (pos < width k)%nat -> (length (hashes k pos) <= length (below k pos))%nat /\ (length (hashes k pos) <= length (bits k pos))%nat.
Proof.
  revert pos; induction k as [|k IH]; intros pos Hp; cbn [hashes bits length].
  - rewrite below_leaf by done; cbn; lia.
  - rewrite below_S by done; pose proof (child k pos Hp) as Hc; destruct (IH _ Hc) as [I1 I2]; destruct (some_match (S k) pos).
    + destruct (Nat.ltb_spec (2 * pos + 1) (width k)) as [Hr|]; rewrite !length_app; [destruct (IH _ Hr); lia|cbn [length]; lia].
    + cbn [length]; rewrite length_app; assert (0 < length (below k (2 * pos)))%nat; [|lia]; unfold below; rewrite length_seq.
      pose proof (level_width node k l Hn); pose proof (pow2_nat_pos k); nia.
Qed.

End Build.
(** ** Partial trees of unknown origin

    The pairs that are hashed by the extraction *)
Fixpoint hashed_pairs (t : CPartialMerkleTree) (k : nat) (pos : Z) (st : extract_state) : list (list Z * list Z) :=
  match k, t.(vBits) !! st.(nBitsUsed) with
  | S k, Some true =>
    let st := Extract (S st.(nBitsUsed)) st.(nHashUsed) st.(xMatch) st.(xIndex) st.(xBad) in
    let '(left_, st1) := TraverseAndExtract ubuf t k (u32 (pos * 2)) st in
    if u32 (pos * 2 + 1) <? CalcTreeWidth t.(nTransactions) k then
      (left_, (TraverseAndExtract ubuf t k (u32 (pos * 2 + 1)) st1).1) ::
        hashed_pairs t k (u32 (pos * 2)) st ++ hashed_pairs t k (u32 (pos * 2 + 1)) st1
    else (left_, left_) :: hashed_pairs t k (u32 (pos * 2)) st
  | _, _ => []
  end.

(** Every transaction found since [st] is the one at its index. *)
Definition found (st st' : extract_state) : Prop :=
  exists ps, Forall (fun p => p < n)%nat ps /\ st'.(xMatch) = st.(xMatch) ++ map (fun p => l !!! p) ps /\ st'.(xIndex) = st.(xIndex) ++ map Z.of_nat ps.

Lemma found_nil st st' : st'.(xMatch) = st.(xMatch) -> st'.(xIndex) = st.(xIndex) -> found st st'.
Proof. intros E1 E2; exists []; cbn [map]; by rewrite !app_nil_r. Qed.

Lemma found_app st st1 st2 : found st st1 -> found st1 st2 -> found st st2.
Proof.
  intros (p1 & H1 & E1 & F1) (p2 & H2 & E2 & F2); exists (p1 ++ p2); rewrite !map_app, !app_assoc, E2, F2, E1, F1; split_and!; [by apply Forall_app|done|done].
Qed.

Lemma found_bits st st' b : found (Extract b st.(nHashUsed) st.(xMatch) st.(xIndex) st.(xBad)) st' -> found st st'.
Proof. done. Qed.

Lemma extract_bad t k pos st : st.(xBad) = true -> (TraverseAndExtract ubuf t k pos st).2.(xBad) = true.
Proof.
  assert (Hu : forall m pos st, st.(xBad) = true -> (use_hash t m pos st).2.(xBad) = true).
  { intros m p s Hs; unfold use_hash; destruct (t.(vHash) !! _); [by destruct m|done]. }
  revert pos st; induction k as [|k IH]; intros pos st H; cbn [TraverseAndExtract]; destruct (t.(vBits) !! _) as [[]|]; try done; try (by apply Hu); cbn [negb].
  set (st0 := Extract _ _ _ _ _); assert (H0 := IH (u32 (pos * 2)) st0 H); destruct (TraverseAndExtract ubuf t k (u32 (pos * 2)) st0) as [x st1]; cbn [snd] in *.
  destruct (_ <? _); [|done]; assert (H1 := IH (u32 (pos * 2 + 1)) st1 H0); destruct (TraverseAndExtract ubuf t k (u32 (pos * 2 + 1)) st1) as [y st2]; cbn [snd] in *.
  by destruct (bool_decide _).
Qed.

(** The collisions of an extraction with the tree *)
Definition clash (t : CPartialMerkleTree) (k : nat) (pos : Z) (st : extract_state) : Prop :=
  exists x y, In x (hashed_pairs t k pos st) /\ hashed node (depth l) l y /\ x <> y /\ node x.1 x.2 = node y.1 y.2.

Lemma extract_sound t k pos st : t.(nTransactions) = Z.of_nat n -> (k <= depth l)%nat -> (pos < width k)%nat ->
  (TraverseAndExtract ubuf t k (Z.of_nat pos) st).2.(xBad) = false -> (TraverseAndExtract ubuf t k (Z.of_nat pos) st).1 = lv k pos ->
  found st (TraverseAndExtract ubuf t k (Z.of_nat pos) st).2 \/ clash t k (Z.of_nat pos) st.
Proof.
  intros Ht; pose proof depth_small as Hds; revert pos st; induction k as [|k IH]; intros pos st Hk Hp; unfold clash; cbn [TraverseAndExtract hashed_pairs].
  - destruct (t.(vBits) !! _) as [b|]; [|done]; unfold use_hash; cbn [nHashUsed nBitsUsed xMatch xIndex xBad]; destruct (t.(vHash) !! _) as [h|]; [|done].
    destruct b; cbn [fst snd]; intros _ Eh; left; [|by apply found_nil]; exists [pos]; cbn [xMatch xIndex map]; split_and!; [by repeat constructor|by rewrite Eh|done].
  - destruct (t.(vBits) !! _) as [[]|]; [| |done]; cbn [negb].
    2: { unfold use_hash; cbn [nHashUsed nBitsUsed xMatch xIndex xBad]; destruct (t.(vHash) !! _) as [h|]; [|done]; intros; left; by apply found_nil. }
    set (st0 := Extract _ _ _ _ _); pose proof (child k pos Hp) as Hc; destruct (child_pos pos _ Hp) as [-> ->]; rewrite Ht, has_right, parent by (done || lia).
    assert (Hin : hashed node (depth l) l (lv k (2 * pos)%nat, if (2 * pos + 1 <? width k)%nat then lv k (2 * pos + 1)%nat else lv k (2 * pos)%nat)).
    { exists k, pos; split_and!; [lia|done|]; unfold inputs; f_equal; destruct (Nat.ltb_spec (2 * pos + 1) (width k)); f_equal; lia. }
    specialize (IH (2 * pos)%nat st0 ltac:(lia) Hc) as IH1; destruct (TraverseAndExtract ubuf t k (Z.of_nat (2 * pos)) st0) as [x st1] eqn:E1; cbn [fst snd] in *.
    destruct (Nat.ltb_spec (2 * pos + 1) (width k)) as [Hr|Hr].
    + specialize (IH (2 * pos + 1)%nat st1 ltac:(lia) Hr) as IH2; pose proof (extract_bad t k (Z.of_nat (2 * pos + 1)) st1) as Hbad.
      destruct (TraverseAndExtract ubuf t k (Z.of_nat (2 * pos + 1)) st1) as [y st2] eqn:E2; cbn [fst snd] in *.
      intros Hb Eh; destruct (decide ((x, y) = (lv k (2 * pos)%nat, lv k (2 * pos + 1)%nat))) as [E|E].
      * injection E as Ex Ey; rewrite bool_decide_eq_false_2 in * by (intros ->; by rewrite bool_decide_eq_true_2 in Hb).
        destruct IH2 as [F2|(u & v & Hu & Hv)]; [done|done| |right; exists u, v; split; [right; apply in_or_app; by right|done]].
        destruct IH1 as [F1|(u & v & Hu & Hv)]; [by destruct st1.(xBad); [rewrite Hbad in Hb by done|]|done| |right; exists u, v; split; [right; apply in_or_app; by left|done]].
        left; apply (found_app st st1 st2); [exact F1|exact F2].
      * right; exists (x, y), (lv k (2 * pos)%nat, lv k (2 * pos + 1)%nat); split_and!; [by left|done|done|done].
    + intros Hb Eh; destruct (decide ((x, x) = (lv k (2 * pos)%nat, lv k (2 * pos)%nat))) as [E|E].
      * injection E as Ex; destruct IH1 as [F1|(u & v & Hu & Hv)]; [done|done|left; exact F1|right; exists u, v; split; [by right|done]].
      * right; exists (x, x), (lv k (2 * pos)%nat, lv k (2 * pos)%nat); split_and!; [by left|done|done|done].
Qed.

End Tree.

(** ** What is sent *)

Lemma next_level_blob ubuf l : Forall (blob 32) l -> Forall (blob 32) (next_level (Hash_2 ubuf) l).
Proof.
  induction l as [|a|a b r IH] using list_ind2; intros H; cbn [next_level]; [constructor|constructor; [apply Hash_2_bytes|constructor]|].
  constructor; [apply Hash_2_bytes|]; apply IH; inversion H as [|? ? _ H']; by inversion H'.
Qed.

Lemma level_blob ubuf k l : Forall (blob 32) l -> Forall (blob 32) (level (Hash_2 ubuf) k l).
Proof. intros H; induction k as [|k IH]; [done|]; by apply next_level_blob. Qed.

Lemma hashes_blob ubuf l vMatch k pos : (0 < length l)%nat -> Forall (blob 32) l -> (pos < length (level (Hash_2 ubuf) k l))%nat -> Forall (blob 32) (hashes ubuf l vMatch k pos).
Proof.
  intros Hn Hl; assert (Hlv : forall k pos, (pos < length (level (Hash_2 ubuf) k l))%nat -> blob 32 (level (Hash_2 ubuf) k l !!! pos)).
  { intros k' p Hp; apply (Forall_lookup_1 _ _ p _ (level_blob ubuf k' l Hl)); by apply list_lookup_lookup_total_lt. }
  revert pos; induction k as [|k IH]; intros pos Hp; cbn [hashes]; [constructor; [by apply Hlv|constructor]|].
  destruct (some_match _ _ _ _); [|apply Forall_singleton; by apply Hlv]; apply (child ubuf l) in Hp; [|done]; apply Forall_app; split; [by apply IH|].
  destruct (Nat.ltb_spec (2 * pos + 1) (length (level (Hash_2 ubuf) k l))); [by apply IH|constructor].
Qed.

Lemma bits_length ubuf l vMatch k pos : (length (bits ubuf l vMatch k pos) < 2 ^ (k + 1))%nat.
Proof.
  revert pos; induction k as [|k IH]; intros pos; cbn [bits length]; [cbn; lia|]; rewrite Nat.add_succ_l, Nat.pow_succ_r'.
  destruct (some_match _ _ _ _); [|pose proof (pow2_nat_pos (k + 1)); cbn [length]; lia]; rewrite length_app; pose proof (IH (2 * pos)%nat).
  destruct (_ <? _)%nat; [pose proof (IH (2 * pos + 1)%nat); lia|cbn [length]; lia].
Qed.

(** Reading what was written gives the tree with padded bits. *)
Lemma tree_reads t : word 32 t.(nTransactions) -> Forall (blob 32) t.(vHash) -> Z.of_nat (length t.(vHash)) <= MAX_SIZE -> Z.of_nat (length t.(vBits)) <= MAX_SIZE ->
  exists e k, (forall s, Serialize_tree s t = write e s) /\ ((length t.(vBits) + k + 7) / 8 = (length t.(vBits) + 7) / 8)%nat /\
    reads Unserialize_tree e (PartialMerkleTree t.(nTransactions) (t.(vBits) ++ replicate k false) t.(vHash) false).
Proof.
  intros Hn Hh Hmh Hmb; assert (Hs : 1 <= 5000000 / 32 < 2 ^ 31) by (vm_compute; split; [discriminate|reflexivity]); destruct (unpack_pack t.(vBits)) as (k & Ek & Hk & _).
  exists (le_bytes 4 t.(nTransactions) ++ encode_vector (read 32) t.(vHash) ++ encode_bytes (pack_bits t.(vBits))), k; split_and!; [|done|].
  - intros s; unfold Serialize_tree, ser_writedata32; rewrite (Serialize_vector_spec (read 32)) by done; by rewrite Serialize_bytes_spec, !write_app, ?app_assoc.
  - apply (reads_bind _ _ _ _ t.(nTransactions)); [by apply (reads_le 4)|]; apply (reads_bind _ _ _ _ t.(vHash)); [by apply (reads_vector (read 32) (5000000 / 32) Hs)|].
    rewrite <- Ek; apply (reads_bind_ret Unserialize_bytes (fun b => PartialMerkleTree t.(nTransactions) (unpack_bits b) t.(vHash) false)), reads_bytes.
    split; [apply pack_bits_words|]; rewrite (proj1 (pack_bits_spec _)); pose proof (Nat.div_mod_eq (length t.(vBits) + 7) 8).
    pose proof (Nat.mod_upper_bound (length t.(vBits) + 7) 8 ltac:(lia)); lia.
Qed.

Section Claims.
Context (ubuf : list Z).
Abbreviation node := (Hash_2 ubuf).

(** What is built, sent and extracted *)
Lemma partial_tree_extracted (l : list (list Z)) (vMatch : list bool) :
  (0 < length l)%nat -> Z.of_nat (length l) <= 33333 -> length vMatch = length l -> Forall (blob 32) l ->
  (forall k i, (2 * i + 1 < length (level node k l))%nat -> level node k l !!! (2 * i)%nat <> level node k l !!! (2 * i + 1)%nat) ->
  exists t e t', make_CPartialMerkleTree ubuf l vMatch = Some t /\ (forall s, Serialize_tree s t = write e s) /\ reads Unserialize_tree e t' /\
    let ps := List.filter (fun p => vMatch !!! p) (seq 0 (length l)) in
    forall m0, ExtractMatches ubuf t' m0 [] = Some (root node l, map (fun p => l !!! p) ps, map Z.of_nat ps, t').
Proof.
  intros Hn Hmax Hv Hl Hd.
  pose proof (root_pos ubuf l Hn) as Hrp; pose proof (depth_small l Hn Hmax) as Hds.
  destruct (hashes_length ubuf l Hn Hmax vMatch Hv (depth l) 0 Hrp) as [Hh1 Hh2]; rewrite below_root, length_seq in Hh1 by done.
  pose proof (bits_length ubuf l vMatch (depth l) 0) as Hb; pose proof (Nat.pow_le_mono_r 2 (depth l + 1) 17 ltac:(lia) ltac:(lia)) as Hb2.
  assert (Hb3 : Z.of_nat (length (bits ubuf l vMatch (depth l) 0)) < 2 ^ 17).
  { apply (Z.lt_le_trans _ (Z.of_nat (2 ^ (depth l + 1)))); [lia|]; apply Nat2Z.inj_le in Hb2; rewrite (Nat2Z.inj_pow 2 17) in Hb2; exact Hb2. }
  destruct (tree_reads (PartialMerkleTree (Z.of_nat (length l)) (bits ubuf l vMatch (depth l) 0) (hashes ubuf l vMatch (depth l) 0) false)) as (e & k & He & Hk & Hr);
    cbn [nTransactions vBits vHash] in *; [split; lia|exact (hashes_blob ubuf l vMatch (depth l) 0 Hn Hl Hrp)|unfold MAX_SIZE; lia|unfold MAX_SIZE; lia|].
  do 3 eexists; split_and!; [exact (build_spec ubuf l Hn Hmax vMatch Hv)|exact He|exact Hr|]; intros m0; unfold ExtractMatches; cbn [nTransactions vBits vHash fBad].
  rewrite (proj2 (Z.eqb_neq _ _)), (proj2 (Z.ltb_ge _ _)), (proj2 (Z.ltb_ge _ _)), (proj2 (Nat.ltb_ge _ _)) by (rewrite ?length_app; change (MAX_BLOCK_BASE_SIZE / 60) with 33333; lia).
  rewrite (tree_height_spec ubuf) by done; cbn [mbind option_bind].
  rewrite (extract_spec ubuf l Hn Hmax vMatch Hv _ (depth l) 0 _ [] (replicate k false) [] []) by (done || (by rewrite app_nil_r)).
  unfold extracted; cbn [nBitsUsed nHashUsed xMatch xIndex xBad Nat.add app]; rewrite length_app, length_replicate, Hk, !Nat.eqb_refl; cbn [negb].
  unfold matches; rewrite below_root by done; done.
Qed.

(** C28 (roundtrip): for a block of at most 33333 transactions in whose tree no two siblings have the
    same hash, the partial tree for any choice of transactions is built, its encoding is
    read back by the other node, and the extraction gives the root that
    [ComputeMerkleRoot] computes and exactly the chosen transactions with
    their positions, in order. *)
Theorem partial_tree_roundtrip (l : list (list Z)) (vMatch : list bool) :
  (0 < length l)%nat -> Z.of_nat (length l) <= 33333 -> length vMatch = length l -> Forall (blob 32) l ->
  (forall k i, (2 * i + 1 < length (level node k l))%nat -> level node k l !!! (2 * i)%nat <> level node k l !!! (2 * i + 1)%nat) ->
  exists t e t' r mutated, make_CPartialMerkleTree ubuf l vMatch = Some t /\ (forall s, Serialize_tree s t = write e s) /\ reads Unserialize_tree e t' /\
    ComputeMerkleRoot ubuf l = Some (r, mutated) /\
    let ps := List.filter (fun p => vMatch !!! p) (seq 0 (length l)) in
    forall m0, ExtractMatches ubuf t' m0 [] = Some (r, map (fun p => l !!! p) ps, map Z.of_nat ps, t').
Proof.
  intros Hn Hmax Hv Hl Hd; destruct (ComputeMerkleRoot_spec ubuf l Hn ltac:(lia)) as (mutated & Er & _).
  destruct (partial_tree_extracted l vMatch Hn Hmax Hv Hl Hd) as (t & e & t' & Et & He & Hr & Hx); exists t, e, t', (root node l), mutated; split_and!; done.
Qed.

(** C29 (safety): whatever bits and hashes a partial tree for the number of transactions of a block has,
    when the extraction gives the root of the block, and that is not the null hash, every
    transaction it gives is the one of the block at the position it gives, unless it hashes a
    pair to a hash of the tree of the block that another pair has there. *)
Theorem partial_tree_sound (l : list (list Z)) (t t' : CPartialMerkleTree) (vMatch0 found_ : list (list Z)) (indices : list Z) (r : list Z) (mutated : bool) :
  (0 < length l)%nat -> t.(nTransactions) = Z.of_nat (length l) ->
  ComputeMerkleRoot ubuf l = Some (r, mutated) -> r <> uint256_null ->
  ExtractMatches ubuf t vMatch0 [] = Some (r, found_, indices, t') ->
  (exists ps, Forall (fun p => p < length l)%nat ps /\ found_ = map (fun p => l !!! p) ps /\ indices = map Z.of_nat ps) \/
  (exists x y, In x (hashed_pairs ubuf t (depth l) 0 (Extract 0 0 [] [] t.(fBad))) /\ hashed node (depth l) l y /\ x <> y /\ node x.1 x.2 = node y.1 y.2).
Proof.
  intros Hn Ht Er Hnull; unfold ExtractMatches; rewrite Ht; destruct (_ =? 0); [by intros [= <- <- <- <-]|]; change (MAX_BLOCK_BASE_SIZE / 60) with 33333.
  destruct (Z.ltb_spec 33333 (Z.of_nat (length l))) as [|Hmax]; [by intros [= <- <- <- <-]|]; do 2 (destruct (_ <? _)%Z || destruct (_ <? _)%nat; [by intros [= <- <- <- <-]|]).
  rewrite (tree_height_spec ubuf) by done; cbn [mbind option_bind]; destruct (ComputeMerkleRoot_spec ubuf l Hn ltac:(lia)) as (m' & Er' & _); rewrite Er in Er'; injection Er' as -> <-.
  pose proof (extract_sound ubuf l Hn Hmax t (depth l) 0 (Extract 0 0 [] [] t.(fBad)) Ht (le_n _) (root_pos ubuf l Hn)) as H; change (Z.of_nat 0) with 0 in H.
  destruct (TraverseAndExtract ubuf t (depth l) 0 (Extract 0 0 [] [] t.(fBad))) as [x st]; cbn [fst snd] in H.
  destruct st.(xBad); [by intros [= E _ _ _]; destruct Hnull|]; destruct (negb _); [by intros [= E _ _ _]; destruct Hnull|]; destruct (negb _); [by intros [= E _ _ _]; destruct Hnull|].
  intros [= Ex <- <- <-]; destruct (H eq_refl Ex) as [(ps & H1 & H2 & H3)|H']; [left; exists ps; split_and!; done|by right].
Qed.

End Claims.

(** ** Witnesses *)

Lemma three_differ k i : (2 * i + 1 < length (level (Hash_2 []) k three_leaves))%nat ->
  level (Hash_2 []) k three_leaves !!! (2 * i)%nat <> level (Hash_2 []) k three_leaves !!! (2 * i + 1)%nat.
Proof.
  intros H; destruct k as [|[|k]].
  - change (2 * i + 1 < 3)%nat in H; destruct i as [|i]; [vm_compute; discriminate|lia].
  - rewrite level_S, next_length in H; change (2 * i + 1 < 2)%nat in H; destruct i as [|i]; [vm_compute; discriminate|lia].
  - pose proof (level_width (Hash_2 []) (S (S k)) three_leaves ltac:(cbn; lia)) as Hw; change (length three_leaves) with 3%nat in Hw.
    rewrite !Nat.pow_succ_r' in Hw; pose proof (pow2_nat_pos k); nia.
Qed.

Lemma partial_tree_roundtrip_witness : exists t e t' r, make_CPartialMerkleTree [] three_leaves [false; true; true] = Some t /\
  reads Unserialize_tree e t' /\ ExtractMatches [] t' [] [] = Some (r, [replicate 32 2; replicate 32 3], [1; 2], t').
Proof.
  destruct (partial_tree_roundtrip [] three_leaves [false; true; true]) as (t & e & t' & r & mutated & H1 & _ & H2 & _ & H3).
  - cbn; lia.
  - cbn; lia.
  - reflexivity.
  - do 3 (constructor; [split; [reflexivity|apply Forall_replicate; split; lia]|]); constructor.
  - exact three_differ.
  - exists t, e, t', r; split_and!; [exact H1|exact H2|exact (H3 [])].
Defined.

Definition demo_tree : CPartialMerkleTree := default new_CPartialMerkleTree (make_CPartialMerkleTree [] three_leaves [false; true; true]).

Lemma partial_tree_sound_witness : exists r, ComputeMerkleRoot [] three_leaves = Some (r, false) /\
  ExtractMatches [] demo_tree [] [] = Some (r, [replicate 32 2; replicate 32 3], [1; 2], demo_tree) /\
  ((exists ps, Forall (fun p => p < 3)%nat ps /\ [replicate 32 2; replicate 32 3] = map (fun p => three_leaves !!! p) ps /\ [1; 2] = map Z.of_nat ps) \/
   (exists x y, In x (hashed_pairs [] demo_tree 2 0 (Extract 0 0 [] [] false)) /\ hashed (Hash_2 []) 2 three_leaves y /\ x <> y /\ Hash_2 [] x.1 x.2 = Hash_2 [] y.1 y.2)).
Proof.
  assert (H : exists r, ComputeMerkleRoot [] three_leaves = Some (r, false) /\ r <> uint256_null /\
    ExtractMatches [] demo_tree [] [] = Some (r, [replicate 32 2; replicate 32 3], [1; 2], demo_tree))
    by (eexists; vm_compute; split_and!; [reflexivity|discriminate|reflexivity]).
  destruct H as (r & H1 & H2 & H3); exists r; split_and!; [exact H1|exact H3|].
  apply (partial_tree_sound [] three_leaves demo_tree demo_tree [] [replicate 32 2; replicate 32 3] [1; 2] r false); [cbn; lia|vm_compute; reflexivity|exact H1|exact H2|exact H3].
Defined.
