(* ===== verification/Bloom.v ===== *)
(** bloom.h and bloom.cpp: the filters of light clients and the rolling filters of
    the node, with what they use of script/script.h and primitives/transaction.h, and
    the filtered blocks of merkleblock.h and merkleblock.cpp.

    [None] is undefined behaviour of C++: a remainder by the size of an empty filter.
    The constructors compute sizes with floating-point logarithms; the integers these
    give are arguments here. *)

From S2P Require Import Prelude MdHash Hash Serialize Block PartialMerkle.

(** A condition whose evaluation may be undefined *)
Notation "'ifM' b 'then' x 'else' y" := (b ≫= fun t : bool => if t then x else y) (at level 10, b at level 100, x at level 200, y at level 200).

(** ** Scripts *)

Definition OP_PUSHDATA1 : Z := 0x4c.
Definition OP_PUSHDATA2 : Z := 0x4d.
Definition OP_PUSHDATA4 : Z := 0x4e.
Definition OP_SIGMAMINT : Z := 0xc3.
Definition OP_SIGMASPEND : Z := 0xc4.
Definition OP_LELANTUSMINT : Z := 0xc5.
Definition OP_LELANTUSJMINT : Z := 0xc6.
Definition OP_LELANTUSJOINSPLIT : Z := 0xc7.

(** The size of the operand and the bytes after it *)
Definition operand_size (opcode : Z) (pc : list Z) : option (Z * list Z) :=
  if opcode <? OP_PUSHDATA1 then Some (opcode, pc)
  else if opcode =? OP_PUSHDATA1 then if (length pc <? 1)%nat then None else Some (pc !!! 0%nat, drop 1 pc)
  else if opcode =? OP_PUSHDATA2 then if (length pc <? 2)%nat then None else Some (le_word (take 2 pc), drop 2 pc)
  else if opcode =? OP_PUSHDATA4 then if (length pc <? 4)%nat then None else Some (le_word (take 4 pc), drop 4 pc)
  else Some (0, pc).

(** [pc] is the rest of the script; the results are the opcode, [*pvchRet] and the new
    rest, or [None] for [false]. *)
Definition GetOp2 (pc : list Z) : option (Z * list Z * list Z) :=
  match pc with
  | [] => None
  | opcode :: pc =>
    '(data, pc) ←
      (if opcode <=? OP_PUSHDATA4 then
         '(nSize, pc) ← operand_size opcode pc;
         if u32 (Z.of_nat (length pc)) <? nSize then None
         else Some (take (Z.to_nat nSize) pc, drop (Z.to_nat nSize) pc)
       else Some ([], pc));
    if (opcode =? OP_SIGMASPEND) || (opcode =? OP_SIGMAMINT) || (opcode =? OP_LELANTUSMINT) || (opcode =? OP_LELANTUSJMINT) || (opcode =? OP_LELANTUSJOINSPLIT)
    then Some (opcode, pc, [])
    else Some (opcode, data, pc)
  end.

(** ** CBloomFilter *)

Definition MAX_BLOOM_FILTER_SIZE : Z := 36000.
Definition MAX_HASH_FUNCS : Z := 50.
Definition BLOOM_UPDATE_NONE : Z := 0.
Definition BLOOM_UPDATE_ALL : Z := 1.
Definition BLOOM_UPDATE_P2PUBKEY_ONLY : Z := 2.
Definition BLOOM_UPDATE_MASK : Z := 3.

Record CBloomFilter := BloomFilter { vData : list Z; isFull : bool; isEmpty : bool; nHashFuncs : Z; nTweak : Z; nFlags : Z }.

(** [bits] is [(unsigned int)(-1 / LN2SQUARED * nElements * log(nFPRate))] and [funcs n]
    is [(unsigned int)(n * 8 / nElements * LN2)]. *)
Definition make_CBloomFilter (bits : Z) (funcs : nat -> Z) (nTweakIn nFlagsIn : Z) : CBloomFilter :=
  let size := Z.to_nat (Z.min bits (MAX_BLOOM_FILTER_SIZE * 8) / 8) in
  BloomFilter (replicate size 0) false true (Z.min (funcs size) MAX_HASH_FUNCS) nTweakIn nFlagsIn.
Definition make_CBloomFilter_unlimited (bits : Z) (funcs : nat -> Z) (nTweakIn : Z) : CBloomFilter :=
  let size := Z.to_nat (bits / 8) in
  BloomFilter (replicate size 0) false true (funcs size) nTweakIn BLOOM_UPDATE_NONE.
Definition new_CBloomFilter : CBloomFilter := BloomFilter [] true false 0 0 0.

(** The object is used for the size of [vData] and for [nTweak]. *)
Definition bloom_Hash (size : nat) (tweak : Z) (nHashNum : Z) (vDataToHash : list Z) : option Z :=
  if (size =? 0)%nat then None
  else Some (u32 (MurmurHash3 (u32 (nHashNum * 0xFBA4C795 + tweak)) vDataToHash mod (Z.of_nat size * 8))).

Definition set_bit (vData : list Z) (nIndex : Z) : list Z :=
  let k := Z.to_nat (Z.shiftr nIndex 3) in
  <[k := u8 (Z.lor (vData !!! k) (Z.shiftl 1 (Z.land 7 nIndex)))]> vData.
Definition get_bit (vData : list Z) (nIndex : Z) : bool :=
  negb (Z.land (vData !!! Z.to_nat (Z.shiftr nIndex 3)) (Z.shiftl 1 (Z.land 7 nIndex)) =? 0).

Definition bloom_insert (f : CBloomFilter) (vKey : list Z) : option CBloomFilter :=
  if f.(isFull) then Some f
  else
    vData ← for_rangeM 0 (Z.to_nat f.(nHashFuncs)) (fun i vData =>
      nIndex ← bloom_Hash (length vData) f.(nTweak) (Z.of_nat i) vKey;
      Some (set_bit vData nIndex)) f.(vData);
    Some (BloomFilter vData f.(isFull) false f.(nHashFuncs) f.(nTweak) f.(nFlags)).

(** [n] turns from [i] on *)
Fixpoint contains_loop (f : CBloomFilter) (vKey : list Z) (i : Z) (n : nat) : option bool :=
  match n with
  | O => Some true
  | S n =>
    nIndex ← bloom_Hash (length f.(vData)) f.(nTweak) i vKey;
    if negb (get_bit f.(vData) nIndex) then Some false else contains_loop f vKey (i + 1) n
  end.
Definition bloom_contains (f : CBloomFilter) (vKey : list Z) : option bool :=
  if f.(isFull) then Some true
  else if f.(isEmpty) then Some false
  else contains_loop f vKey 0 (Z.to_nat f.(nHashFuncs)).

Record COutPoint := OutPoint { op_hash : list Z; op_n : Z }.

(** [stream << outpoint] *)
Definition outpoint_data (o : COutPoint) : list Z := (ser_writedata32 (write o.(op_hash) (DataStream [] 0)) o.(op_n)).(vch).

Definition insert_outpoint (f : CBloomFilter) (o : COutPoint) : option CBloomFilter := bloom_insert f (outpoint_data o).
Definition contains_outpoint (f : CBloomFilter) (o : COutPoint) : option bool := bloom_contains f (outpoint_data o).

Definition bloom_clear (f : CBloomFilter) : CBloomFilter :=
  BloomFilter (replicate (length f.(vData)) 0) false true f.(nHashFuncs) f.(nTweak) f.(nFlags).
Definition bloom_reset (f : CBloomFilter) (nNewTweak : Z) : CBloomFilter :=
  let f := bloom_clear f in
  BloomFilter f.(vData) f.(isFull) f.(isEmpty) f.(nHashFuncs) nNewTweak f.(nFlags).

Definition IsWithinSizeConstraints (f : CBloomFilter) : bool :=
  (Z.of_nat (length f.(vData)) <=? MAX_BLOOM_FILTER_SIZE) && (f.(nHashFuncs) <=? MAX_HASH_FUNCS).

Definition UpdateEmptyFull (f : CBloomFilter) : CBloomFilter :=
  let '(full, empty) := fold_left (fun st b => (st.1 && (b =? 0xff), st.2 && (b =? 0))) f.(vData) (true, true) in
  BloomFilter f.(vData) full empty f.(nHashFuncs) f.(nTweak) f.(nFlags).

Definition Serialize_filter (os : CDataStream) (f : CBloomFilter) : CDataStream :=
  let os := Serialize_bytes os f.(vData) in
  let os := ser_writedata32 os f.(nHashFuncs) in
  let os := ser_writedata32 os f.(nTweak) in
  ser_writedata8 os f.(nFlags).
(** The flags of the object that is read into are kept. *)
Definition Unserialize_filter (f : CBloomFilter) : reader CBloomFilter :=
  vData <-- Unserialize_bytes ;;
  nHashFuncs <-- ser_readdata32 ;;
  nTweak <-- ser_readdata32 ;;
  nFlags <-- ser_readdata8 ;;
  ret (BloomFilter vData f.(isFull) f.(isEmpty) nHashFuncs nTweak nFlags).

(** ** Transactions *)

Definition TRANSACTION_NORMAL : Z := 0.
Definition TRANSACTION_PROVIDER_REGISTER : Z := 1.
Definition TRANSACTION_PROVIDER_UPDATE_SERVICE : Z := 2.
Definition TRANSACTION_PROVIDER_UPDATE_REGISTRAR : Z := 3.
Definition TRANSACTION_PROVIDER_UPDATE_REVOKE : Z := 4.
Definition TRANSACTION_COINBASE : Z := 5.

(** What the filter looks at in the payload of a special transaction *)
Inductive special_payload :=
  | ProRegTx (collateralOutpoint : COutPoint) (keyIDOwner keyIDVoting scriptPayout : list Z)
  | ProUpServTx (proTxHash scriptOperatorPayout : list Z)
  | ProUpRegTx (proTxHash keyIDVoting scriptPayout : list Z)
  | ProUpRevTx (proTxHash : list Z).

(** What the filter looks at in a transaction.  [tx_payload] is the result of
    [GetTxPayload] for the type of the transaction. *)
Record CTransaction := Transaction {
  tx_nVersion : Z; tx_nType : Z; tx_hash : list Z; tx_payload : option special_payload;
  scriptPubKeys : list (list Z); tx_vin : list (COutPoint * list Z)
}.

Section Relevant.
(** [Solver] finds a script that pays to keys: [TX_PUBKEY] or [TX_MULTISIG]. *)
Context (pays_to_keys : list Z -> bool).

(** The loops over the operands of a script; each turn reads at least one byte. *)
Fixpoint script_loop (fuel : nat) (f : CBloomFilter) (pc : list Z) : option bool :=
  match fuel with
  | O => Some false
  | S fuel =>
    match GetOp2 pc with
    | None => Some false
    | Some (_, data, pc) =>
      ifM (if negb (length data =? 0)%nat then bloom_contains f data else Some false) then Some true else script_loop fuel f pc
    end
  end.
Definition CheckScript (f : CBloomFilter) (script : list Z) : option bool := script_loop (length script) f script.

(** [a || b] on results that may be undefined *)
Definition or_else (a b : option bool) : option bool := ifM a then Some true else b.

Definition updates_all (f : CBloomFilter) : bool := Z.land f.(nFlags) BLOOM_UPDATE_MASK =? BLOOM_UPDATE_ALL.

Definition CheckSpecialTransactionMatchesAndUpdate (f : CBloomFilter) (tx : CTransaction) : option (bool * CBloomFilter) :=
  if negb (tx.(tx_nVersion) =? 3) || (tx.(tx_nType) =? TRANSACTION_NORMAL) then Some (false, f)
  else if tx.(tx_nType) =? TRANSACTION_PROVIDER_REGISTER then
    match tx.(tx_payload) with
    | Some (ProRegTx o owner voting payout) =>
      ifM (or_else (contains_outpoint f o) (or_else (bloom_contains f owner) (or_else (bloom_contains f voting) (CheckScript f payout)))) then
        f ← (if updates_all f then bloom_insert f tx.(tx_hash) else Some f);
        Some (true, f)
      else Some (false, f)
    | _ => Some (false, f)
    end
  else if tx.(tx_nType) =? TRANSACTION_PROVIDER_UPDATE_SERVICE then
    match tx.(tx_payload) with
    | Some (ProUpServTx proTxHash payout) =>
      ifM (bloom_contains f proTxHash) then Some (true, f)
      else
        ifM (CheckScript f payout) then
          f ← (if updates_all f then bloom_insert f proTxHash else Some f);
          Some (true, f)
        else Some (false, f)
    | _ => Some (false, f)
    end
  else if tx.(tx_nType) =? TRANSACTION_PROVIDER_UPDATE_REGISTRAR then
    match tx.(tx_payload) with
    | Some (ProUpRegTx proTxHash voting payout) =>
      ifM (bloom_contains f proTxHash) then Some (true, f)
      else
        ifM (or_else (bloom_contains f voting) (CheckScript f payout)) then
          f ← (if updates_all f then bloom_insert f proTxHash else Some f);
          Some (true, f)
        else Some (false, f)
    | _ => Some (false, f)
    end
  else if tx.(tx_nType) =? TRANSACTION_PROVIDER_UPDATE_REVOKE then
    match tx.(tx_payload) with
    | Some (ProUpRevTx proTxHash) => m ← bloom_contains f proTxHash; Some (m, f)
    | _ => Some (false, f)
    end
  else Some (false, f).

(** A turn of the loop over the outputs; [i] is the index of the output. *)
Definition check_output (hash : list Z) (i : nat) (scriptPubKey : list Z) (st : bool * CBloomFilter) : option (bool * CBloomFilter) :=
  let '(fFound, f) := st in
  ifM (CheckScript f scriptPubKey) then
    f ← (if updates_all f then insert_outpoint f (OutPoint hash (Z.of_nat i))
         else if Z.land f.(nFlags) BLOOM_UPDATE_MASK =? BLOOM_UPDATE_P2PUBKEY_ONLY then
           if pays_to_keys scriptPubKey then insert_outpoint f (OutPoint hash (Z.of_nat i)) else Some f
         else Some f);
    Some (true, f)
  else Some (fFound, f).
Fixpoint check_outputs (hash : list Z) (i : nat) (vout : list (list Z)) (st : bool * CBloomFilter) : option (bool * CBloomFilter) :=
  match vout with
  | [] => Some st
  | script :: vout => st ← check_output hash i script st; check_outputs hash (S i) vout st
  end.

Fixpoint check_inputs (f : CBloomFilter) (vin : list (COutPoint * list Z)) : option bool :=
  match vin with
  | [] => Some false
  | (prevout, scriptSig) :: vin =>
    ifM (contains_outpoint f prevout) then Some true
    else
      ifM (CheckScript f scriptSig) then Some true else check_inputs f vin
  end.

Definition IsRelevantAndUpdate (f : CBloomFilter) (tx : CTransaction) : option (bool * CBloomFilter) :=
  if f.(isFull) then Some (true, f)
  else if f.(isEmpty) then Some (false, f)
  else
    st ← (ifM (bloom_contains f tx.(tx_hash)) then Some (true, f) else CheckSpecialTransactionMatchesAndUpdate f tx);
    '(fFound, f) ← check_outputs tx.(tx_hash) 0 tx.(scriptPubKeys) st;
    match fFound with
    | true => Some (true, f)
    | false => m ← check_inputs f tx.(tx_vin); Some (m, f)
    end.

(** ** CMerkleBlock *)

Record CMerkleBlock := MerkleBlock { mb_header : CBlockHeader; mb_txn : CPartialMerkleTree; vMatchedTxn : list (nat * list Z) }.

Definition allowedTxTypes : list Z :=
  [TRANSACTION_NORMAL; TRANSACTION_PROVIDER_REGISTER; TRANSACTION_PROVIDER_UPDATE_SERVICE; TRANSACTION_PROVIDER_UPDATE_REGISTRAR;
   TRANSACTION_PROVIDER_UPDATE_REVOKE; TRANSACTION_COINBASE].
Definition isAllowedType (tx : CTransaction) : bool := negb (tx.(tx_nVersion) =? 3) || existsb (Z.eqb tx.(tx_nType)) allowedTxTypes.

(** The filter, [vMatch] and [vMatchedTxn] after the transactions from [i] on *)
Fixpoint match_transactions (i : nat) (vtx : list CTransaction) (st : CBloomFilter * list bool * list (nat * list Z)) :
  option (CBloomFilter * list bool * list (nat * list Z)) :=
  match vtx with
  | [] => Some st
  | tx :: vtx =>
    let '(f, vMatch, matched) := st in
    '(m, f) ← (if isAllowedType tx then IsRelevantAndUpdate f tx else Some (false, f));
    match m with
    | true => match_transactions (S i) vtx (f, vMatch ++ [true], matched ++ [(i, tx.(tx_hash))])
    | false => match_transactions (S i) vtx (f, vMatch ++ [false], matched)
    end
  end.

(** [ubuf] is the array of the hasher, [switch] a parameter of the chain. *)
Definition make_CMerkleBlock (ubuf : list Z) (switch : Z) (block : CBlockHeader) (vtx : list CTransaction) (f : CBloomFilter) : option (CMerkleBlock * CBloomFilter) :=
  let header := GetBlockHeader switch block in
  '(f, vMatch, matched) ← match_transactions 0 vtx (f, [], []);
  txn ← make_CPartialMerkleTree ubuf (map tx_hash vtx) vMatch;
  Some (MerkleBlock header txn matched, f).

Definition make_CMerkleBlock_set (ubuf : list Z) (switch : Z) (block : CBlockHeader) (vtx : list CTransaction) (txids : list (list Z)) : option CMerkleBlock :=
  let header := GetBlockHeader switch block in
  let vMatch := map (fun tx => bool_decide (tx.(tx_hash) ∈ txids)) vtx in
  txn ← make_CPartialMerkleTree ubuf (map tx_hash vtx) vMatch;
  Some (MerkleBlock header txn []).

(** [header] and [txn] are sent. *)
Definition Serialize_MerkleBlock (switch nType : Z) (os : CDataStream) (mb : CMerkleBlock) : option CDataStream :=
  os ← Serialize_header switch nType os mb.(mb_header);
  Some (Serialize_tree os mb.(mb_txn)).
(** [P] and [root0] are what reading a header needs: the parameters of the proof of work
    and an array that is not set. *)
Definition Unserialize_MerkleBlock (P : Mtp.params) (switch : Z) (root0 : list Z) (mb : CMerkleBlock) : reader CMerkleBlock :=
  header <-- Unserialize_header P switch root0 mb.(mb_header) ;;
  txn <-- Unserialize_tree ;;
  ret (MerkleBlock header txn mb.(vMatchedTxn)).

End Relevant.

(** ** CRollingBloomFilter *)

Record CRollingBloomFilter := RollingBloomFilter {
  nEntriesPerGeneration : Z; nEntriesThisGeneration : Z; nGeneration : Z; data : list Z; r_nTweak : Z; r_nHashFuncs : Z
}.

(** [rand] is what [GetRand] returns. *)
Definition rolling_reset (f : CRollingBloomFilter) (rand : Z) : CRollingBloomFilter :=
  RollingBloomFilter f.(nEntriesPerGeneration) 0 1 (replicate (length f.(data)) 0) rand f.(r_nHashFuncs).

(** [funcs] is [(int)round(logFpRate / log(0.5))] and [nFilterBits] the rounded size. *)
Definition make_CRollingBloomFilter (nElements funcs nFilterBits rand : Z) : CRollingBloomFilter :=
  let nHashFuncs := Z.max 1 (Z.min funcs 50) in
  let nEntriesPerGeneration := u32 (nElements + 1) / 2 in
  let size := u32 (Z.shiftl (u32 (nFilterBits + 63) / 64) 1) in
  rolling_reset (RollingBloomFilter nEntriesPerGeneration 0 0 (replicate (Z.to_nat size) 0) 0 nHashFuncs) rand.

Definition RollingBloomHash (nHashNum tweak : Z) (vDataToHash : list Z) : Z := MurmurHash3 (u32 (nHashNum * 0xFBA4C795 + tweak)) vDataToHash.

(** A turn of the loop that wipes the entries of generation [g], on the pair at [p] *)
Definition wipe_pair (g : Z) (p : nat) (data : list Z) : list Z :=
  let nGenerationMask1 := u64 (- Z.land g 1) in
  let nGenerationMask2 := u64 (- Z.shiftr g 1) in
  let p1 := data !!! p in let p2 := data !!! (p + 1)%nat in
  let mask := Z.lor (Z.lxor p1 nGenerationMask1) (Z.lxor p2 nGenerationMask2) in
  <[(p + 1)%nat := Z.land p2 mask]> (<[p := Z.land p1 mask]> data).
Definition wipe (g : Z) (data : list Z) : list Z := for_range 0 (length data / 2) (fun i => wipe_pair g (2 * i)) data.

(** The word and the bit of a hash function *)
Definition rolling_pos (size : nat) (h : Z) : option (Z * Z) :=
  if (size =? 0)%nat then None
  else Some (u32 (Z.shiftr h 6 mod Z.of_nat size), Z.land h 0x3F).

(** [pos & ~1] and [pos | 1] *)
Definition pos_low (pos : Z) : nat := Z.to_nat (Z.land pos (u32 (Z.lnot 1))).
Definition pos_high (pos : Z) : nat := Z.to_nat (Z.lor pos 1).

Definition put_bit (k : nat) (bit b : Z) (data : list Z) : list Z :=
  <[k := Z.lor (Z.land (data !!! k) (u64 (Z.lnot (Z.shiftl 1 bit)))) (Z.shiftl b bit)]> data.

Definition mark (g : Z) (pb : Z * Z) (data : list Z) : list Z :=
  let '(pos, bit) := pb in
  put_bit (pos_high pos) bit (Z.shiftr g 1) (put_bit (pos_low pos) bit (Z.land g 1) data).

Definition rolling_insert (f : CRollingBloomFilter) (vKey : list Z) : option CRollingBloomFilter :=
  let '(entries, g, data) :=
    if f.(nEntriesThisGeneration) =? f.(nEntriesPerGeneration) then
      let g := f.(nGeneration) + 1 in
      let g := if g =? 4 then 1 else g in
      (0, g, wipe g f.(data))
    else (f.(nEntriesThisGeneration), f.(nGeneration), f.(data)) in
  data ← for_rangeM 0 (Z.to_nat f.(r_nHashFuncs)) (fun n data =>
    pb ← rolling_pos (length data) (RollingBloomHash (Z.of_nat n) f.(r_nTweak) vKey);
    Some (mark g pb data)) data;
  Some (RollingBloomFilter f.(nEntriesPerGeneration) (entries + 1) g data f.(r_nTweak) f.(r_nHashFuncs)).

Definition marked (data : list Z) (pb : Z * Z) : bool :=
  let '(pos, bit) := pb in
  negb (Z.land (Z.shiftr (Z.lor (data !!! pos_low pos) (data !!! pos_high pos)) bit) 1 =? 0).

(** [n] turns from [i] on *)
Fixpoint rolling_loop (f : CRollingBloomFilter) (vKey : list Z) (i : Z) (n : nat) : option bool :=
  match n with
  | O => Some true
  | S n =>
    pb ← rolling_pos (length f.(data)) (RollingBloomHash i f.(r_nTweak) vKey);
    if negb (marked f.(data) pb) then Some false else rolling_loop f vKey (i + 1) n
  end.
Definition rolling_contains (f : CRollingBloomFilter) (vKey : list Z) : option bool := rolling_loop f vKey 0 (Z.to_nat f.(r_nHashFuncs)).
