(* ===== verification/BloomClaims.v ===== *)
(** Bloom filters have no false negatives: what was inserted is found, transactions
    that concern it are found, also by the node on the other side, and the rolling
    filter remembers the last entries. *)

From S2P Require Import Prelude MdHash Hash HashClaims Serialize SerializeProofs Block BlockProofs BlockMerkle BlockMerkleSpec BlockMerkleClaims.
From S2P Require Import PartialMerkle PartialMerkleClaims Bloom.

#[local] Opaque MurmurHash3.

(** ** Bits *)

Lemma land7 i : Z.land 7 i = i mod 8.
Proof. rewrite Z.land_comm; change 7 with (Z.ones 3); by rewrite Z.land_ones by lia. Qed.

Lemma get_bit_spec v i : 0 <= i -> get_bit v i = Z.testbit (v !!! Z.to_nat (i / 8)) (i mod 8).
Proof.
  intros Hi; unfold get_bit; rewrite land7, Z.shiftr_div_pow2 by lia; change (2 ^ 3) with 8.
  apply land_bit; apply Z.mod_pos_bound; lia.
Qed.

Lemma set_bit_length v i : length (set_bit v i) = length v.
Proof. apply length_insert. Qed.

Lemma set_bit_words v i : words 8 v -> words 8 (set_bit v i).
Proof. intros Hv; unfold set_bit; apply Forall_insert; [done|apply u8_word]. Qed.

Lemma get_set_bit v i j : 0 <= i < 8 * Z.of_nat (length v) -> 0 <= j -> get_bit (set_bit v i) j = (i =? j) || get_bit v j.
Proof.
  intros Hi Hj; rewrite !get_bit_spec by done; unfold set_bit; rewrite land7, Z.shiftr_div_pow2 by lia; change (2 ^ 3) with 8.
  pose proof (Z.div_mod i 8 ltac:(lia)) as Di; pose proof (Z.div_mod j 8 ltac:(lia)) as Dj.
  pose proof (Z.mod_pos_bound i 8 ltac:(lia)); pose proof (Z.mod_pos_bound j 8 ltac:(lia)).
  assert (0 <= i / 8 < Z.of_nat (length v)) by (split; [apply Z.div_pos; lia|apply Z.div_lt_upper_bound; lia]); assert (0 <= j / 8) by (apply Z.div_pos; lia).
  destruct (decide (Z.to_nat (i / 8) = Z.to_nat (j / 8))) as [E|E].
  - rewrite E, list_lookup_total_insert_eq by lia; unfold u8; rewrite testbit_wrap, Z.lor_spec, Z.shiftl_1_l, Z.pow2_bits_eqb by lia.
    rewrite orb_comm; f_equal; apply eq_true_iff_eq; rewrite !Z.eqb_eq; split; intros; [rewrite Di, Dj; f_equal; [f_equal|]; lia|congruence].
  - rewrite list_lookup_total_insert_ne by done; rewrite (proj2 (Z.eqb_neq i j)) by (intros ->; done); done.
Qed.

Lemma bloom_Hash_spec n t i k : n <> 0%nat -> exists x, bloom_Hash n t i k = Some x /\ 0 <= x < 8 * Z.of_nat n.
Proof.
  intros Hn; unfold bloom_Hash; rewrite (proj2 (Nat.eqb_neq n 0)) by done; eexists; split; [done|]; set (m := MurmurHash3 _ _).
  pose proof (Z.mod_pos_bound m (Z.of_nat n * 8) ltac:(lia)) as Hm; pose proof (Z.mod_le (m mod (Z.of_nat n * 8)) (2 ^ 32) ltac:(lia) ltac:(lia)).
  unfold u32, wrap; pose proof (Z.mod_pos_bound (m mod (Z.of_nat n * 8)) (2 ^ 32) ltac:(lia)); lia.
Qed.

(** ** Insertion and lookup *)

(** A filter without bytes answers without looking at them, and the flags tell what
    the bytes are. *)
Record bloom_ok (f : CBloomFilter) : Prop := {
  ok_words : words 8 f.(vData);
  ok_hash : f.(vData) = [] -> f.(isFull) = true \/ f.(nHashFuncs) <= 0;
  ok_full : f.(isFull) = true -> Forall (eq 0xff) f.(vData);
  ok_empty : f.(isEmpty) = true -> Forall (eq 0) f.(vData);
  ok_used : f.(isEmpty) = false -> f.(isFull) = true \/ f.(nHashFuncs) <= 0 \/ ~ Forall (eq 0) f.(vData)
}.

(** The bits of a key *)
Definition key_bits (f : CBloomFilter) (k : list Z) : Prop :=
  forall i x, 0 <= i < f.(nHashFuncs) -> bloom_Hash (length f.(vData)) f.(nTweak) i k = Some x -> get_bit f.(vData) x = true.
Definition has (f : CBloomFilter) (k : list Z) : Prop := f.(isFull) = true \/ (f.(isEmpty) = false /\ key_bits f k).

Lemma contains_loop_spec f k n : forall i, (n = 0%nat \/ f.(vData) <> []) -> 0 <= i -> i + Z.of_nat n = Z.of_nat (Z.to_nat f.(nHashFuncs)) ->
  exists b, contains_loop f k i n = Some b /\ (b = true <-> forall j x, i <= j < f.(nHashFuncs) -> bloom_Hash (length f.(vData)) f.(nTweak) j k = Some x -> get_bit f.(vData) x = true).
Proof.
  induction n as [|n IH]; intros i Hv Hi He; cbn [contains_loop]; [exists true; split; [done|]; split; [intros _ j x Hj; lia|done]|].
  destruct Hv as [|Hv]; [done|]; destruct (bloom_Hash_spec (length f.(vData)) f.(nTweak) i k) as (x & Hx & Hb); [by destruct f.(vData)|].
  rewrite Hx; cbn [mbind option_bind]; destruct (get_bit f.(vData) x) eqn:G; cbn [negb].
  - destruct (IH (i + 1)) as (b & E & Hb'); [by right|lia|lia|]; exists b; split; [done|]; rewrite Hb'; split; intros H j y Hj Hy.
    + destruct (decide (j = i)) as [->|]; [congruence|]; apply (H j); [lia|done].
    + apply (H j); [lia|done].
  - exists false; split; [done|]; split; [done|]; intros H; rewrite <- G; apply (H i); [lia|done].
Qed.

Lemma contains_spec f k : bloom_ok f -> exists b, bloom_contains f k = Some b /\ (b = true <-> has f k).
Proof.
  intros Hf; pose proof (ok_hash f Hf) as Hv; unfold bloom_contains, has; destruct f.(isFull) eqn:F; [exists true; split; [done|]; split; [by left|done]|].
  destruct f.(isEmpty) eqn:E; [exists false; split; [done|]; split; [done|intros [?|[? _]]; done]|].
  destruct (contains_loop_spec f k (Z.to_nat f.(nHashFuncs)) 0) as (b & Eb & Hb); [|lia|lia|].
  - destruct (decide (f.(vData) = [])) as [E'|]; [|by right]; destruct (Hv E') as [?|?]; [done|left; lia].
  - exists b; split; [done|]; rewrite Hb; split; [intros H; right; split; [done|exact H]|intros [?|[_ H]]; [done|exact H]].
Qed.

Lemma contains_true f k : bloom_ok f -> bloom_contains f k = Some true <-> has f k.
Proof. intros Hf; destruct (contains_spec f k Hf) as (b & -> & <-); split; congruence. Qed.

(** The filter has all that it had. *)
Record grows (f f' : CBloomFilter) : Prop := {
  grows_funcs : f'.(nHashFuncs) = f.(nHashFuncs);
  grows_tweak : f'.(nTweak) = f.(nTweak);
  grows_flags : f'.(nFlags) = f.(nFlags);
  grows_full : f'.(isFull) = f.(isFull);
  grows_empty : f.(isEmpty) = false -> f'.(isEmpty) = false;
  grows_length : length f'.(vData) = length f.(vData);
  grows_bits : forall x, 0 <= x -> get_bit f.(vData) x = true -> get_bit f'.(vData) x = true
}.

Lemma grows_refl f : grows f f.
Proof. by split. Qed.
Lemma grows_trans f g h : grows f g -> grows g h -> grows f h.
Proof. intros [] []; split; congruence || eauto. Qed.

Lemma bloom_Hash_nonneg n t i k x : bloom_Hash n t i k = Some x -> 0 <= x.
Proof. intros H; destruct n; [done|]; destruct (bloom_Hash_spec (S n) t i k) as (y & Hy & Hb); [done|]; rewrite Hy in H; simplify_eq; lia. Qed.

Lemma grows_has f f' k : grows f f' -> has f k -> has f' k.
Proof.
  intros [Ef Et _ Eu Ee El Eb] [H|[He H]]; [left; congruence|]; right; split; [auto|]; intros i x Hi Hx; rewrite Ef in Hi; rewrite El, Et in Hx.
  apply Eb; [by eapply bloom_Hash_nonneg|]; by apply (H i).
Qed.

Lemma grows_exists f f' l : grows f f' -> Exists (has f) l -> Exists (has f') l.
Proof. rewrite !List.Exists_exists; intros Hg (k & Hk & H); exists k; split; [done|]; by apply (grows_has f). Qed.

Lemma zeros_lookup v n : (n < length v)%nat -> Forall (eq 0) v -> v !!! n = 0.
Proof. intros Hn Hv; destruct (lookup_lt_is_Some_2 v n Hn) as [x E]; rewrite (list_lookup_total_correct _ _ _ E); symmetry; apply (Forall_lookup_1 _ _ _ _ Hv E). Qed.

Lemma insert_spec f k : bloom_ok f -> exists f', bloom_insert f k = Some f' /\ bloom_ok f' /\ grows f f' /\ has f' k /\ (f.(isFull) = true \/ f'.(isEmpty) = false).
Proof.
  intros Hf; pose proof (ok_hash f Hf) as Hv; unfold bloom_insert; destruct f.(isFull) eqn:F; [exists f; split_and!; [done|done|apply grows_refl|by left|by left]|].
  destruct (for_rangeM_total (fun n v => length v = length f.(vData) /\ words 8 v /\ (forall x, 0 <= x -> get_bit f.(vData) x = true -> get_bit v x = true) /\
    forall i x, 0 <= i < Z.of_nat n -> bloom_Hash (length f.(vData)) f.(nTweak) i k = Some x -> get_bit v x = true) 0 (Z.to_nat f.(nHashFuncs))
    (fun i v => nIndex ← bloom_Hash (length v) f.(nTweak) (Z.of_nat i) k; Some (set_bit v nIndex)) f.(vData)) as (v & Ev & Hl & Hvw & Hm & Hk);
    [lia|split_and!; [done|apply Hf|done|lia]| |].
  - intros i v Hi (Hl & Hvw & Hm & Hk).
    destruct (bloom_Hash_spec (length v) f.(nTweak) (Z.of_nat i) k) as (x & Hx & Hb); [intros E; rewrite Hl in E; destruct f.(vData); [destruct Hv as [?|?]; [done|done|lia]|done]|].
    rewrite Hx; eexists; split; [done|]; split_and!; [by rewrite set_bit_length|by apply set_bit_words|intros y Hy G; rewrite get_set_bit, (Hm y) by (done || lia); apply orb_true_r|].
    intros j y Hj Hy; rewrite get_set_bit by (lia || by eapply bloom_Hash_nonneg); destruct (decide (j = Z.of_nat i)) as [->|].
    + rewrite Hl, Hy in Hx; simplify_eq; by rewrite Z.eqb_refl.
    + rewrite (Hk j y) by (lia || done); apply orb_true_r.
  - rewrite Ev; eexists; split; [done|]; split_and!.
    + assert (Hnil : v = [] -> f.(nHashFuncs) <= 0) by (intros ->; symmetry in Hl; apply nil_length_inv in Hl; destruct (Hv Hl); [congruence|done]).
      split; cbn; [done|intros E; right; by apply Hnil|congruence|done|]; intros _; right; destruct (Z.le_gt_cases f.(nHashFuncs) 0) as [|Hn]; [by left|right; intros H0].
      destruct (bloom_Hash_spec (length v) f.(nTweak) 0 k) as (x & Hx & Hb); [intros El; apply nil_length_inv in El; apply Hnil in El; lia|].
      rewrite Hl in Hx; pose proof (Hk 0 x ltac:(lia) Hx) as G; rewrite get_bit_spec in G by lia.
      pose proof (Z.div_lt_upper_bound x 8 (Z.of_nat (length v)) ltac:(lia) ltac:(lia)); pose proof (Z.div_pos x 8 ltac:(lia) ltac:(lia)).
      rewrite (zeros_lookup v) in G by (done || lia); by rewrite Z.bits_0 in G.
    + split; cbn; done || congruence.
    + right; split; [done|]; intros i x Hi Hx; cbn in *; apply (Hk i); [lia|]; by rewrite <- Hl.
    + by right.
Qed.

(** ** Scripts *)

(** The operands of a script that are not empty *)
Fixpoint operands (fuel : nat) (pc : list Z) : list (list Z) :=
  match fuel with
  | O => []
  | S fuel =>
    match GetOp2 pc with
    | None => []
    | Some (_, d, pc) => (if (length d =? 0)%nat then [] else [d]) ++ operands fuel pc
    end
  end.
Definition pushed (script : list Z) : list (list Z) := operands (length script) script.

Lemma operand_size_shorter op pc n r : operand_size op pc = Some (n, r) -> (length r <= length pc)%nat.
Proof. unfold operand_size; repeat case_match; intros; simplify_eq; rewrite ?length_drop; lia. Qed.

Lemma GetOp2_shorter pc op d r : GetOp2 pc = Some (op, d, r) -> (length r < length pc)%nat.
Proof.
  destruct pc as [|o pc]; [done|]; cbn [GetOp2 length]; destruct (o <=? OP_PUSHDATA4).
  - destruct (operand_size o pc) as [[n r']|] eqn:E; [|done]; apply operand_size_shorter in E; cbn [mbind option_bind].
    destruct (_ <? n); [done|]; cbn [mbind option_bind]; case_match; intros; simplify_eq; rewrite ?length_drop; cbn; lia.
  - cbn [mbind option_bind]; case_match; intros; simplify_eq; cbn; lia.
Qed.

(** The number of turns suffices. *)
Lemma operands_fuel a : forall pc b, (length pc <= a)%nat -> (length pc <= b)%nat -> operands a pc = operands b pc.
Proof.
  induction a as [|a IH]; intros pc [|b] Ha Hb; [done|by destruct pc; [|cbn in *; lia]|by destruct pc; [|cbn in *; lia]|].
  cbn [operands]; destruct (GetOp2 pc) as [[[op d] r]|] eqn:E; [|done]; apply GetOp2_shorter in E; f_equal; apply IH; lia.
Qed.

(** A defined answer to a question *)
Definition decides (o : option bool) (P : Prop) : Prop := exists b, o = Some b /\ (b = true <-> P).

Lemma decides_contains f k : bloom_ok f -> decides (bloom_contains f k) (has f k).
Proof. apply contains_spec. Qed.

Lemma decides_or a b P Q : decides a P -> decides b Q -> decides (or_else a b) (P \/ Q).
Proof. intros (x & -> & Hx) (y & -> & Hy); unfold or_else; exists (x || y); split; [by destruct x|]; rewrite orb_true_iff; tauto. Qed.

Lemma decides_iff o P Q : decides o P -> (P <-> Q) -> decides o Q.
Proof. intros (b & -> & Hb) HQ; exists b; split; [done|tauto]. Qed.

Lemma script_loop_spec f n pc : bloom_ok f -> decides (script_loop n f pc) (Exists (has f) (operands n pc)).
Proof.
  intros Hf; revert pc; induction n as [|n IH]; intros pc; cbn [script_loop operands]; [exists false; split; [done|]; by rewrite Exists_nil|].
  destruct (GetOp2 pc) as [[[op d] r]|]; [|exists false; split; [done|]; by rewrite Exists_nil]; specialize (IH r).
  destruct (length d =? 0)%nat; cbn [negb app mbind option_bind]; [exact IH|].
  apply (decides_iff _ _ _ (decides_or _ _ _ _ (decides_contains f d Hf) IH)); by rewrite Exists_cons.
Qed.

Lemma CheckScript_spec f s : bloom_ok f -> decides (CheckScript f s) (Exists (has f) (pushed s)).
Proof. apply script_loop_spec. Qed.

(** ** Transactions *)

(** What a transaction is found by *)
Definition special_keys (tx : CTransaction) : list (list Z) :=
  if negb (tx.(tx_nVersion) =? 3) then [] else
  match tx.(tx_payload) with
  | Some (ProRegTx o owner voting payout) => if tx.(tx_nType) =? 1 then outpoint_data o :: owner :: voting :: pushed payout else []
  | Some (ProUpServTx h payout) => if tx.(tx_nType) =? 2 then h :: pushed payout else []
  | Some (ProUpRegTx h voting payout) => if tx.(tx_nType) =? 3 then h :: voting :: pushed payout else []
  | Some (ProUpRevTx h) => if tx.(tx_nType) =? 4 then [h] else []
  | None => []
  end.
Definition output_keys (tx : CTransaction) : list (list Z) := concat (map pushed tx.(scriptPubKeys)).
Definition input_keys (vin : list (COutPoint * list Z)) : list (list Z) := concat (map (fun i => outpoint_data i.1 :: pushed i.2) vin).
Definition watched (tx : CTransaction) : list (list Z) := tx.(tx_hash) :: special_keys tx ++ output_keys tx ++ input_keys tx.(tx_vin).

(** A search that may add to the filter *)
Definition searches (f : CBloomFilter) (r : option (bool * CBloomFilter)) (P : Prop) : Prop :=
  exists m f', r = Some (m, f') /\ bloom_ok f' /\ grows f f' /\ (m = true <-> P) /\ (m = false -> f' = f).

#[export] Instance searches_proper f r : Proper (iff ==> iff) (searches f r).
Proof. intros P Q E; unfold searches; by setoid_rewrite E. Qed.

Lemma searches_no f P : bloom_ok f -> ~ P -> searches f (Some (false, f)) P.
Proof. intros Hf HP; exists false, f; split_and!; [done|done|apply grows_refl|split; done|done]. Qed.
Lemma searches_yes f (P : Prop) : bloom_ok f -> P -> searches f (Some (true, f)) P.
Proof. intros Hf HP; exists true, f; split_and!; [done|done|apply grows_refl|split; done|done]. Qed.
Lemma searches_insert f (b : bool) k (P : Prop) : bloom_ok f -> P -> searches f (f ← (if b then bloom_insert f k else Some f); Some (true, f)) P.
Proof.
  intros Hf HP; destruct b; [|by apply searches_yes]; destruct (insert_spec f k Hf) as (f' & -> & Hok & Hg & _).
  exists true, f'; split_and!; [done|done|done|split; done|done].
Qed.
Lemma searches_if f o (P Q : Prop) x y : decides o P -> (P -> searches f x Q) -> (~ P -> searches f y Q) -> searches f (ifM o then x else y) Q.
Proof. intros (b & -> & Hb) Hx Hy; destruct b; cbn; [apply Hx; tauto|apply Hy; intros HP; apply Hb in HP; done]. Qed.

Lemma special_spec f tx : bloom_ok f -> searches f (CheckSpecialTransactionMatchesAndUpdate f tx) (Exists (has f) (special_keys tx)).
Proof.
  intros Hf; unfold CheckSpecialTransactionMatchesAndUpdate, special_keys.
  unfold TRANSACTION_NORMAL, TRANSACTION_PROVIDER_REGISTER, TRANSACTION_PROVIDER_UPDATE_SERVICE, TRANSACTION_PROVIDER_UPDATE_REGISTRAR, TRANSACTION_PROVIDER_UPDATE_REVOKE.
  assert (N : ~ Exists (has f) []) by (intros H; inversion H).
  destruct (negb (tx_nVersion tx =? 3)); cbn [orb]; [by apply searches_no|].
  destruct (Z.eqb_spec (tx_nType tx) 0) as [->|]; [by destruct tx.(tx_payload) as [[]|]; cbn [Z.eqb]; apply searches_no|].
  destruct (Z.eqb_spec (tx_nType tx) 1) as [E|]; [|destruct (Z.eqb_spec (tx_nType tx) 2) as [E|]; [|destruct (Z.eqb_spec (tx_nType tx) 3) as [E|]; [|destruct (Z.eqb_spec (tx_nType tx) 4) as [E|]]]];
    rewrite ?E; destruct tx.(tx_payload) as [[]|]; cbn [Z.eqb Pos.eqb]; try (by apply searches_no).
  - eapply searches_if; [exact (decides_or _ _ _ _ (decides_contains f _ Hf) (decides_or _ _ _ _ (decides_contains f _ Hf) (decides_or _ _ _ _ (decides_contains f _ Hf) (CheckScript_spec f _ Hf))))|..];
      rewrite !Exists_cons; [apply searches_insert; done|apply searches_no; done].
  - eapply searches_if; [exact (decides_contains f _ Hf)|intros; apply searches_yes; [done|by apply Exists_cons_hd]|intros H1].
    eapply searches_if; [exact (CheckScript_spec f _ Hf)|intros; apply searches_insert; [done|by apply Exists_cons_tl]|intros H2; apply searches_no; [done|]].
    rewrite Exists_cons; tauto.
  - eapply searches_if; [exact (decides_contains f _ Hf)|intros; apply searches_yes; [done|by apply Exists_cons_hd]|intros H1].
    eapply searches_if; [exact (decides_or _ _ _ _ (decides_contains f _ Hf) (CheckScript_spec f _ Hf))|intros H; apply searches_insert; [done|]|intros H2; apply searches_no; [done|]];
      rewrite !Exists_cons; tauto.
  - destruct (decides_contains f proTxHash Hf) as (b & -> & Hb); cbn; exists b, f; split_and!; [done|done|apply grows_refl|rewrite Exists_cons, Exists_nil; tauto|done].
Qed.

Section Relevant.
Context (pays_to_keys : list Z -> bool).

Abbreviation adds f hash i f' := (updates_all f = true -> has f' (outpoint_data (OutPoint hash i))).

Lemma output_spec hash i script b f : bloom_ok f ->
  exists m f', check_output pays_to_keys hash i script (b, f) = Some (m, f') /\ bloom_ok f' /\ grows f f' /\
    (Exists (has f) (pushed script) -> m = true /\ adds f hash (Z.of_nat i) f') /\ (~ Exists (has f) (pushed script) -> m = b /\ f' = f).
Proof.
  intros Hf; unfold check_output; destruct (CheckScript_spec f script Hf) as (c & -> & Hc); cbn [mbind option_bind].
  destruct c; [|exists b, f; split_and!; [done|done|apply grows_refl|intros H; apply Hc in H; done|done]].
  assert (Hno : ~ ~ Exists (has f) (pushed script)) by tauto.
  destruct (insert_spec f (outpoint_data (OutPoint hash (Z.of_nat i))) Hf) as (f' & E & Hok & Hg & Hh & _); unfold insert_outpoint; rewrite E.
  destruct (updates_all f); [exists true, f'; split_and!; done|].
  destruct (_ =? BLOOM_UPDATE_P2PUBKEY_ONLY); [destruct (pays_to_keys script)|]; cbn [mbind option_bind];
    [exists true, f'; split_and!; done|exists true, f; split_and!; [done|done|apply grows_refl|done|done]..].
Qed.

Lemma outputs_spec hash vout : forall i b f, bloom_ok f ->
  exists m f', check_outputs pays_to_keys hash i vout (b, f) = Some (m, f') /\ bloom_ok f' /\ grows f f' /\
    (m = true <-> b = true \/ Exists (has f) (concat (map pushed vout))) /\ (m = false -> f' = f) /\
    forall j script, vout !! j = Some script -> Exists (has f) (pushed script) -> adds f hash (Z.of_nat (i + j)) f'.
Proof.
  induction vout as [|s vout IH]; intros i b f Hf; cbn [check_outputs map concat].
  - exists b, f; split_and!; [done|done|apply grows_refl|rewrite Exists_nil; tauto|done|done].
  - destruct (output_spec hash i s b f Hf) as (m1 & f1 & -> & Hok & Hg & Hyes & Hno); cbn [mbind option_bind].
    destruct (IH (S i) m1 f1 Hok) as (m & f' & E & Hok' & Hg' & Hm & Hf' & Hj); exists m, f'; rewrite E, Hm, !Exists_app.
    assert (D : Exists (has f) (pushed s) \/ ~ Exists (has f) (pushed s)) by (destruct (CheckScript_spec f s Hf) as ([] & _ & <-); [by left|by right]).
    assert (Hup : updates_all f1 = updates_all f) by (unfold updates_all; by rewrite (grows_flags _ _ Hg)).
    split_and!; [done|done|by apply (grows_trans f f1)| | |].
    + destruct D as [D|D]; [destruct (Hyes D) as [-> _]; tauto|destruct (Hno D) as [-> ->]; tauto].
    + intros ->; rewrite Hf' by done; destruct D as [D|D]; [destruct (Hyes D) as [-> _]; destruct Hm as [_ Hm]; discriminate Hm; by left|by destruct (Hno D)].
    + intros [|j] script; cbn; [intros [= <-] Hs Hu|intros Hs Hh Hu].
      * rewrite Nat.add_0_r; apply (grows_has f1); [done|]; by apply (Hyes Hs).
      * replace (i + S j)%nat with (S i + j)%nat by lia; apply (Hj j script); [done| |congruence].
        by apply (grows_exists f).
Qed.

Lemma inputs_spec f vin : bloom_ok f -> decides (check_inputs f vin) (Exists (has f) (input_keys vin)).
Proof.
  intros Hf; induction vin as [|[o s] vin IH]; cbn [check_inputs]; [exists false; split; [done|]; unfold input_keys; by rewrite Exists_nil|].
  apply (decides_iff _ (has f (outpoint_data o) \/ Exists (has f) (pushed s) \/ Exists (has f) (input_keys vin))).
  - exact (decides_or _ _ _ _ (decides_contains f _ Hf) (decides_or _ _ _ _ (CheckScript_spec f s Hf) IH)).
  - unfold input_keys; cbn [map concat fst snd]; rewrite Exists_app, Exists_cons; tauto.
Qed.

Lemma IsRelevant_spec f tx : bloom_ok f ->
  exists m f', IsRelevantAndUpdate pays_to_keys f tx = Some (m, f') /\ bloom_ok f' /\ grows f f' /\
    (m = true <-> Exists (has f) (watched tx)) /\ (m = false -> f' = f) /\
    forall j script, tx.(scriptPubKeys) !! j = Some script -> Exists (has f) (pushed script) -> adds f tx.(tx_hash) (Z.of_nat j) f'.
Proof.
  intros Hf; unfold IsRelevantAndUpdate, watched; destruct f.(isFull) eqn:F.
  { exists true, f; split_and!; [done|done|apply grows_refl|split; [intros _; apply Exists_cons_hd; by left|done]|done|]; intros; by left. }
  destruct f.(isEmpty) eqn:Ee.
  { assert (N : forall l, ~ Exists (has f) l) by (intros l H; apply List.Exists_exists in H as (k & _ & [?|[? _]]); congruence).
    exists false, f; split_and!; [done|done|apply grows_refl|split; [done|intros H; by destruct (N _ H)]|done|intros j s _ H; by destruct (N _ H)]. }
  assert (S1 : searches f (ifM (bloom_contains f (tx_hash tx)) then Some (true, f) else CheckSpecialTransactionMatchesAndUpdate f tx) (has f (tx_hash tx) \/ Exists (has f) (special_keys tx))).
  { eapply searches_if; [exact (decides_contains f _ Hf)|intros; apply searches_yes; [done|by left]|intros H].
    destruct (special_spec f tx Hf) as (m & f' & E & ? & ? & Hm & ?); exists m, f'; rewrite Hm; split_and!; tauto. }
  destruct S1 as (m1 & f1 & -> & Hok & Hg & Hm1 & Hf1); cbn [mbind option_bind].
  destruct (outputs_spec (tx_hash tx) (scriptPubKeys tx) 0 m1 f1 Hok) as (m2 & f2 & -> & Hok2 & Hg2 & Hm2 & Hf2 & Hj); cbn [mbind option_bind].
  assert (Hout : forall j script, scriptPubKeys tx !! j = Some script -> Exists (has f) (pushed script) -> adds f (tx_hash tx) (Z.of_nat j) f2).
  { intros j s Hs Hh Hu; apply (Hj j s Hs); [by apply (grows_exists f)|].
    unfold updates_all in *; by rewrite (grows_flags _ _ Hg). }
  fold (output_keys tx) in Hm2; destruct m2.
  - exists true, f2; split_and!; [done|done|by apply (grows_trans f f1)|split; [intros _|done]|done|exact Hout]; rewrite Exists_cons, !Exists_app.
    destruct m1; [tauto|]; rewrite (Hf1 eq_refl) in Hm2; destruct Hm2 as [Hm2 _]; destruct (Hm2 eq_refl) as [?|?]; [done|tauto].
  - rewrite (Hf2 eq_refl) in *; assert (m1 = false) as -> by (destruct m1; [destruct Hm2 as [_ Hm2]; discriminate Hm2; by left|done]); rewrite (Hf1 eq_refl) in *.
    destruct (inputs_spec f (tx_vin tx) Hf) as (m & -> & Hm); cbn [mbind option_bind]; exists m, f.
    split_and!; [done|done|apply grows_refl| |done|exact Hout]; rewrite Hm, Exists_cons, !Exists_app; intuition congruence.
Qed.

End Relevant.

(** ** Whole filters *)

Lemma update_flags v : forall a b, fold_left (fun st x => (st.1 && (x =? 0xff), st.2 && (x =? 0))) v (a, b) = (a && forallb (Z.eqb 0xff) v, b && forallb (Z.eqb 0) v).
Proof.
  induction v as [|x v IH]; intros a b; cbn [fold_left forallb]; [by rewrite !andb_true_r|].
  by rewrite IH, (Z.eqb_sym x 255), (Z.eqb_sym x 0), <- !andb_assoc.
Qed.

Lemma forallb_eq c v : forallb (Z.eqb c) v = true <-> Forall (eq c) v.
Proof.
  rewrite forallb_forall, List.Forall_forall; split; intros H x Hx; [by apply Z.eqb_eq, H|by apply Z.eqb_eq, H].
Qed.

Lemma UpdateEmptyFull_ok f : words 8 f.(vData) -> bloom_ok (UpdateEmptyFull f).
Proof.
  intros Hw; unfold UpdateEmptyFull; rewrite update_flags; split; cbn; [done|intros ->; by left|apply forallb_eq|apply forallb_eq|].
  intros E; right; right; rewrite <- forallb_eq, E; done.
Qed.

Lemma ones_bit v x : Forall (eq 0xff) v -> 0 <= x < 8 * Z.of_nat (length v) -> get_bit v x = true.
Proof.
  intros Hv Hx; rewrite get_bit_spec by lia; pose proof (Z.div_lt_upper_bound x 8 (Z.of_nat (length v)) ltac:(lia) ltac:(lia)).
  pose proof (Z.div_pos x 8 ltac:(lia) ltac:(lia)); destruct (lookup_lt_is_Some_2 v (Z.to_nat (x / 8)) ltac:(lia)) as [y E].
  rewrite (list_lookup_total_correct _ _ _ E); rewrite <- (Forall_lookup_1 _ _ _ _ Hv E : 255 = y); change 255 with (Z.ones 8).
  apply Z.ones_spec_low, Z.mod_pos_bound; lia.
Qed.

(** The flags as [UpdateEmptyFull] computes them do not change an answer. *)
Lemma update_same f k : bloom_ok f -> 0 < f.(nHashFuncs) -> has (UpdateEmptyFull f) k <-> has f k.
Proof.
  intros Hf Hn; unfold UpdateEmptyFull; rewrite update_flags; unfold has, key_bits; cbn [isFull isEmpty vData nHashFuncs nTweak andb].
  rewrite <- (not_true_iff_false (forallb (Z.eqb 0) _)), !forallb_eq; split.
  - intros [Hall|[H0 Hk]].
    + destruct f.(isFull) eqn:F; [by left|right]; destruct (decide (f.(vData) = [])) as [E|Hne]; [destruct (ok_hash f Hf E); [congruence|lia]|].
      split; [destruct f.(isEmpty) eqn:E; [|done]; pose proof (ok_empty f Hf E) as H0; destruct f.(vData) as [|x v]; [done|]; pose proof (Forall_inv Hall); pose proof (Forall_inv H0); congruence|].
      intros i x Hi Hx; apply ones_bit; [done|]; destruct (bloom_Hash_spec (length f.(vData)) f.(nTweak) i k) as (y & Hy & Hb); [by destruct f.(vData)|congruence].
    + destruct f.(isEmpty) eqn:E; [by destruct H0; apply (ok_empty f Hf)|right; split; [done|exact Hk]].
  - intros [F|[E Hk]]; [left; by apply (ok_full f Hf)|]; destruct (ok_used f Hf E) as [F|[?|Hz]]; [left; by apply (ok_full f Hf)|lia|].
    right; split; [done|exact Hk].
Qed.

Inductive bloom_op := OpInsert (k : list Z) | OpRelevant (tx : CTransaction) | OpUpdate | OpClear | OpReset (tweak : Z).

Definition run_op (pays : list Z -> bool) (f : CBloomFilter) (op : bloom_op) : option CBloomFilter :=
  match op with
  | OpInsert k => bloom_insert f k
  | OpRelevant tx => snd <$> IsRelevantAndUpdate pays f tx
  | OpUpdate => Some (UpdateEmptyFull f)
  | OpClear => Some (bloom_clear f)
  | OpReset t => Some (bloom_reset f t)
  end.

(** The keys inserted since the filter was cleared *)
Definition op_keys (keys : list (list Z)) (op : bloom_op) : list (list Z) :=
  match op with OpInsert k => k :: keys | OpClear | OpReset _ => [] | _ => keys end.
Definition clears (op : bloom_op) : bool := match op with OpClear | OpReset _ => true | _ => false end.

Lemma clear_ok f t : bloom_ok f -> (f.(vData) = [] -> f.(nHashFuncs) <= 0) -> bloom_ok (bloom_clear f) /\ bloom_ok (bloom_reset f t).
Proof.
  intros Hf Hc; assert (Hz : Forall (eq 0) (replicate (length f.(vData)) 0)) by (by apply Forall_replicate).
  assert (Hw : words 8 (replicate (length f.(vData)) 0)) by (apply Forall_replicate; unfold word; lia).
  assert (Hl : replicate (length f.(vData)) 0 = [] -> f.(nHashFuncs) <= 0) by (destruct f.(vData); [auto|done]).
  split; split; cbn; auto; done.
Qed.

Lemma run_op_spec pays f op keys : bloom_ok f -> (0 < f.(nHashFuncs) -> Forall (has f) keys) -> (f.(vData) = [] -> 0 < f.(nHashFuncs) -> clears op = false) ->
  exists f', run_op pays f op = Some f' /\ bloom_ok f' /\ length f'.(vData) = length f.(vData) /\ f'.(nHashFuncs) = f.(nHashFuncs) /\ (0 < f.(nHashFuncs) -> Forall (has f') (op_keys keys op)).
Proof.
  intros Hf Hk Hc; assert (Hc' : clears op = true -> f.(vData) = [] -> f.(nHashFuncs) <= 0) by (intros E Ev; destruct (Z.le_gt_cases f.(nHashFuncs) 0); [done|rewrite Hc in E by (done || lia); done]).
  assert (Hmono : forall f', grows f f' -> 0 < f.(nHashFuncs) -> Forall (has f') keys).
  { intros f' Hg Hn; apply List.Forall_forall; intros k Hin; apply (grows_has f); [done|]; exact (proj1 (List.Forall_forall _ _) (Hk Hn) k Hin). }
  destruct op as [k|tx| | |t]; cbn [run_op op_keys].
  - destruct (insert_spec f k Hf) as (f' & E & Hok & Hg & Hh & _); exists f'; split_and!; [done|done|apply Hg|apply Hg|intros Hn; constructor; auto].
  - destruct (IsRelevant_spec pays f tx Hf) as (m & f' & -> & Hok & Hg & _); exists f'; split_and!; [done|done|apply Hg|apply Hg|auto].
  - exists (UpdateEmptyFull f); split_and!; [done|apply UpdateEmptyFull_ok, Hf|unfold UpdateEmptyFull; by destruct (fold_left _ _ _)..|].
    intros Hn; apply List.Forall_forall; intros k Hin; apply update_same; [done|done|]; exact (proj1 (List.Forall_forall _ _) (Hk Hn) k Hin).
  - exists (bloom_clear f); split_and!; [done|by apply (clear_ok f 0), Hc'|apply length_replicate|done|constructor].
  - exists (bloom_reset f t); split_and!; [done|by apply (clear_ok f t), Hc'|apply length_replicate|done|constructor].
Qed.

Lemma make_CBloomFilter_ok bits funcs tweak flags : funcs 0%nat <= 0 -> bloom_ok (make_CBloomFilter bits funcs tweak flags).
Proof.
  intros Hz; unfold make_CBloomFilter; set (n := Z.to_nat _); split; cbn; [apply Forall_replicate; unfold word; lia| |done|intros _; by apply Forall_replicate|done].
  intros E; right; destruct n; [lia|done].
Qed.

(** ** Theorems about CBloomFilter *)

(** C32 (safety): a Bloom filter has no false negatives.  Any sequence of
    operations on a well-formed filter is defined - no remainder by the size of
    an empty filter is taken, provided that a filter with hash functions but without
    bytes is not cleared - and at the end the filter, when it has a hash function,
    contains every key inserted since it was last cleared. *)
Theorem bloom_no_false_negatives pays f ops :
  bloom_ok f -> (f.(vData) = [] -> 0 < f.(nHashFuncs) -> Forall (fun op => clears op = false) ops) ->
  exists f', fold_leftM (run_op pays) ops f = Some f' /\ bloom_ok f' /\
    (0 < f.(nHashFuncs) -> forall k, In k (fold_left op_keys ops []) -> bloom_contains f' k = Some true).
Proof.
  intros Hf Hc; enough (H : forall keys, (0 < f.(nHashFuncs) -> Forall (has f) keys) -> exists f', fold_leftM (run_op pays) ops f = Some f' /\ bloom_ok f' /\
    (0 < f.(nHashFuncs) -> Forall (has f') (fold_left op_keys ops keys))).
  { destruct (H [] (fun _ => List.Forall_nil _)) as (f' & E & Hok & Hk); exists f'; split_and!; [done|done|]; intros Hn k Hin.
    apply contains_true; [done|]; exact (proj1 (List.Forall_forall _ _) (Hk Hn) k Hin). }
  revert f Hf Hc; induction ops as [|op ops IH]; intros f Hf Hc keys Hk; [by exists f|]; rewrite fold_leftM_cons; cbn [fold_left].
  destruct (run_op_spec pays f op keys Hf Hk) as (f1 & -> & Hok & Hl & Hn & Hk1); [intros E Hp; exact (Forall_inv (Hc E Hp))|].
  cbn [mbind option_bind]; rewrite <- Hn in *; apply IH; [done| |done].
  intros E Hp; rewrite E in Hl; symmetry in Hl; apply nil_length_inv in Hl; exact (Forall_inv_tail (Hc Hl Hp)).
Qed.

(** C31 (functional): a transaction is relevant exactly when the filter contains one
    of the things it is found by: its hash, the keys and scripts of a special
    payload, an operand of an output script, an outpoint it spends or an operand of
    an input script.  What is not relevant leaves the filter as it is; nothing is
    lost from it; and with the flag [BLOOM_UPDATE_ALL] the outpoint of every output
    that matched is in the filter afterwards, so that the transaction that spends it
    is relevant too. *)
Theorem IsRelevantAndUpdate_correct pays f tx : bloom_ok f ->
  exists m f', IsRelevantAndUpdate pays f tx = Some (m, f') /\ bloom_ok f' /\
    (m = true <-> exists k, In k (watched tx) /\ bloom_contains f k = Some true) /\ (m = false -> f' = f) /\
    (forall k, bloom_contains f k = Some true -> bloom_contains f' k = Some true) /\
    (updates_all f = true -> forall j script k, tx.(scriptPubKeys) !! j = Some script -> In k (pushed script) -> bloom_contains f k = Some true ->
       forall tx', In (OutPoint tx.(tx_hash) (Z.of_nat j)) (map fst tx'.(tx_vin)) -> exists f'', IsRelevantAndUpdate pays f' tx' = Some (true, f'')).
Proof.
  intros Hf; destruct (IsRelevant_spec pays f tx Hf) as (m & f' & E & Hok & Hg & Hm & Hsame & Hout); exists m, f'; split_and!; [done|done| |done| |].
  - rewrite Hm, List.Exists_exists; split; intros (k & Hk & H); exists k; split; [done|by apply contains_true|done|by apply contains_true].
  - intros k; rewrite !contains_true by done; by apply grows_has.
  - intros Hu j script k Hj Hk Hc tx' Hin; apply contains_true in Hc; [|done].
    assert (Hh : has f' (outpoint_data (OutPoint tx.(tx_hash) (Z.of_nat j)))) by (apply (Hout j script Hj); [apply List.Exists_exists; by exists k|done]).
    destruct (IsRelevant_spec pays f' tx' Hok) as (m' & f'' & E' & _ & _ & Hm' & _); exists f''; rewrite E'; repeat f_equal; apply Hm', List.Exists_exists.
    eexists; split; [|exact Hh]; unfold watched; apply List.in_cons, in_or_app; right; apply in_or_app; right.
    apply in_map_iff in Hin as ([o s] & Ho & Hi); cbn in Ho; subst o; unfold input_keys; apply in_concat; eexists; split; [apply in_map_iff; by exists (OutPoint (tx_hash tx) (Z.of_nat j), s)|].
    by left.
Qed.

(** A filter that is sent answers as the one it was made from.  What
    is written is read back by the other node, and after [UpdateEmptyFull] every
    question has the same answer, although the two flags are not sent. *)
Theorem filter_sent f : bloom_ok f -> 0 < f.(nHashFuncs) -> word 32 f.(nHashFuncs) -> word 32 f.(nTweak) -> word 8 f.(nFlags) -> Z.of_nat (length f.(vData)) <= MAX_SIZE ->
  exists e g, (forall s, Serialize_filter s f = write e s) /\ reads (Unserialize_filter new_CBloomFilter) e g /\
    bloom_ok (UpdateEmptyFull g) /\ forall k, bloom_contains (UpdateEmptyFull g) k = bloom_contains f k.
Proof.
  intros Hf Hn Hw1 Hw2 Hw3 Hl; exists (encode_bytes f.(vData) ++ le_bytes 4 f.(nHashFuncs) ++ le_bytes 4 f.(nTweak) ++ le_bytes 1 f.(nFlags)).
  exists (BloomFilter f.(vData) true false f.(nHashFuncs) f.(nTweak) f.(nFlags)); split_and!.
  - intros s; unfold Serialize_filter, ser_writedata32, ser_writedata8; by rewrite Serialize_bytes_spec, !write_app, <- ?app_assoc.
  - apply (reads_bind _ _ _ _ f.(vData)); [apply reads_bytes; split; [apply Hf|done]|]; apply (reads_bind _ _ _ _ f.(nHashFuncs)); [by apply (reads_le 4)|].
    apply (reads_bind _ _ _ _ f.(nTweak)); [by apply (reads_le 4)|].
    apply (reads_bind_ret ser_readdata8 (fun b => BloomFilter f.(vData) true false f.(nHashFuncs) f.(nTweak) b)); by apply (reads_le 1).
  - apply UpdateEmptyFull_ok, Hf.
  - intros k; change (UpdateEmptyFull _) with (UpdateEmptyFull f).
    pose proof (UpdateEmptyFull_ok f (ok_words f Hf)) as Hu; destruct (contains_spec _ k Hu) as (b & -> & Hb), (contains_spec f k Hf) as (b' & -> & Hb').
    f_equal; apply eq_true_iff_eq; rewrite Hb, Hb'; by apply update_same.
Qed.

(** ** Filtered blocks *)

Lemma filter_seq_S (P : nat -> bool) n : List.filter P (seq 0 (S n)) = (if P 0%nat then [0%nat] else []) ++ map S (List.filter (fun p => P (S p)) (seq 0 n)).
Proof.
  cbn [seq List.filter]; rewrite <- seq_shift; assert (E : List.filter P (map S (seq 0 n)) = map S (List.filter (fun p => P (S p)) (seq 0 n))).
  { induction (seq 0 n) as [|x l IH]; [done|]; cbn [map List.filter]; rewrite IH; by destruct (P (S x)). }
  rewrite E; by destruct (P 0%nat).
Qed.

Definition chosen (vMatch : list bool) (n : nat) : list nat := List.filter (fun p => vMatch !!! p) (seq 0 n).

Lemma match_transactions_spec pays vtx : forall i f vM mt, bloom_ok f ->
  exists f' vM', match_transactions pays i vtx (f, vM, mt) =
      Some (f', vM ++ vM', mt ++ map (fun p => ((i + p)%nat, map tx_hash vtx !!! p)) (chosen vM' (length vtx))) /\
    length vM' = length vtx /\ forall p tx, vtx !! p = Some tx -> isAllowedType tx = true -> Exists (has f) (watched tx) -> vM' !! p = Some true.
Proof.
  induction vtx as [|tx vtx IH]; intros i f vM mt Hf; cbn [match_transactions].
  { exists f, []; cbn; rewrite !app_nil_r; split_and!; done. }
  assert (S1 : exists m f1, (if isAllowedType tx then IsRelevantAndUpdate pays f tx else Some (false, f)) = Some (m, f1) /\ bloom_ok f1 /\ grows f f1 /\
    (isAllowedType tx = true -> Exists (has f) (watched tx) -> m = true)).
  { destruct (isAllowedType tx); [destruct (IsRelevant_spec pays f tx Hf) as (m & f1 & E & Hok & Hg & Hm & _); exists m, f1; split_and!; [done..|]; tauto|].
    exists false, f; split_and!; [done|done|apply grows_refl|done]. }
  destruct S1 as (m & f1 & -> & Hok & Hg & Hm); cbn [mbind option_bind].
  assert (Hnext : forall vM1 mt1, exists f' vM', match_transactions pays (S i) vtx (f1, vM1, mt1) = Some (f', vM1 ++ vM', mt1 ++ map (fun p => ((S i + p)%nat, map tx_hash vtx !!! p)) (chosen vM' (length vtx))) /\
    length vM' = length vtx /\ forall p tx, vtx !! p = Some tx -> isAllowedType tx = true -> Exists (has f1) (watched tx) -> vM' !! p = Some true) by (intros; by apply IH).
  assert (Hlater : forall vM', (forall p tx, vtx !! p = Some tx -> isAllowedType tx = true -> Exists (has f1) (watched tx) -> vM' !! p = Some true) ->
    forall p tx', (tx :: vtx) !! p = Some tx' -> isAllowedType tx' = true -> Exists (has f) (watched tx') -> (m :: vM') !! p = Some true).
  { intros vM' H [|p] tx'; cbn; [intros [= ->] Ha Hw; by rewrite Hm|]; intros Hp Ha Hw; apply (H p tx' Hp Ha); by apply (grows_exists f). }
  destruct m; [destruct (Hnext (vM ++ [true]) (mt ++ [(i, tx_hash tx)])) as (f' & vM' & E & Hl & Hp)|destruct (Hnext (vM ++ [false]) mt) as (f' & vM' & E & Hl & Hp)];
    rewrite E; [exists f', (true :: vM')|exists f', (false :: vM')]; rewrite <- app_assoc; cbn [app length]; (split; [|split; [by rewrite Hl|by apply Hlater]]).
  - unfold chosen; rewrite filter_seq_S, map_app, map_map, <- app_assoc; cbn [lookup_total list_lookup_total app map]; rewrite Nat.add_0_r; do 4 f_equal.
    apply map_ext; intros p; by rewrite Nat.add_succ_r.
  - unfold chosen; rewrite filter_seq_S, map_app, map_map; cbn [lookup_total list_lookup_total app map]; do 2 f_equal; f_equal; apply map_ext; intros p; by rewrite Nat.add_succ_r.
Qed.

(** C30 (safety): the filtered block.  For a block with a well-formed header and at
    most 33333 transactions in whose tree no two siblings have the same hash, the
    block that is made for a filter, header and partial tree, is sent; what is sent
    is read as a block with the same header; and the extraction by the node that
    read it gives the Merkle root of the block and exactly the transactions the
    first node matched with their positions; among them is every transaction of an
    allowed type that is found by something the filter contained. *)
Theorem filtered_block_complete P root0 mb0 pays ubuf switch block vtx f :
  Z.of_nat P.(Mtp.L) < 2 ^ 19 -> header_wf P switch (GetBlockHeader switch block) -> mb0.(mb_header) = make_CBlockHeader ->
  bloom_ok f -> (0 < length vtx)%nat -> Z.of_nat (length vtx) <= 33333 -> Forall (blob 32) (map tx_hash vtx) ->
  (forall k i, (2 * i + 1 < length (MerkleSpec.level (Hash_2 ubuf) k (map tx_hash vtx)))%nat ->
     MerkleSpec.level (Hash_2 ubuf) k (map tx_hash vtx) !!! (2 * i)%nat <> MerkleSpec.level (Hash_2 ubuf) k (map tx_hash vtx) !!! (2 * i + 1)%nat) ->
  exists mb f' e mb' r mutated, make_CMerkleBlock pays ubuf switch block vtx f = Some (mb, f') /\
    (forall s, Serialize_MerkleBlock switch 1 s mb = Some (write e s)) /\ reads (Unserialize_MerkleBlock P switch root0 mb0) e mb' /\
    mb'.(mb_header) = GetBlockHeader switch block /\ ComputeMerkleRoot ubuf (map tx_hash vtx) = Some (r, mutated) /\
    (forall m0, ExtractMatches ubuf mb'.(mb_txn) m0 [] = Some (r, map snd mb.(vMatchedTxn), map (fun m => Z.of_nat m.1) mb.(vMatchedTxn), mb'.(mb_txn))) /\
    forall p tx k, vtx !! p = Some tx -> isAllowedType tx = true -> In k (watched tx) -> bloom_contains f k = Some true -> In (p, tx.(tx_hash)) mb.(vMatchedTxn).
Proof.
  intros HL Hwf Hmb0 Hf Hn Hmax Hl Hd; set (l := map tx_hash vtx) in *; assert (El : length l = length vtx) by apply length_map.
  destruct (match_transactions_spec pays vtx 0 f [] [] Hf) as (f' & vM & E & Hv & Hp); cbn [app] in E; fold l in E.
  destruct (partial_tree_extracted ubuf l vM ltac:(lia) ltac:(lia) ltac:(lia) Hl Hd) as (t & e & t' & Et & He & Hr & Hx).
  destruct (ComputeMerkleRoot_spec ubuf l ltac:(lia) ltac:(lia)) as (mutated & Er & _).
  exists (MerkleBlock (GetBlockHeader switch block) t (map (fun p => (p, l !!! p)) (chosen vM (length vtx)))), f', (header_bytes switch (GetBlockHeader switch block) ++ e),
    (MerkleBlock (GetBlockHeader switch block) t' mb0.(vMatchedTxn)), (MerkleSpec.root (Hash_2 ubuf) l), mutated.
  split_and!; [| | |done|done| |].
  - unfold make_CMerkleBlock; rewrite E; cbn [mbind option_bind]; fold l; by rewrite Et.
  - intros s; unfold Serialize_MerkleBlock; cbn [mb_header mb_txn]; rewrite (Serialize_header_spec P switch s _ Hwf); cbn [mbind option_bind]; by rewrite He, write_app.
  - unfold Unserialize_MerkleBlock; rewrite Hmb0; apply (reads_bind _ _ _ _ _ _ (reads_header P HL switch root0 _ Hwf)).
    exact (reads_bind_ret _ (fun txn => MerkleBlock (GetBlockHeader switch block) txn mb0.(vMatchedTxn)) _ _ Hr).
  - intros m0; cbn [vMatchedTxn mb_txn]; rewrite Hx, !map_map, El; done.
  - intros p tx k Hpt Ha Hk Hc; cbn [vMatchedTxn]; apply in_map_iff; exists p; assert (Hpl : l !! p = Some tx.(tx_hash)) by (unfold l; by rewrite list_lookup_fmap, Hpt).
    rewrite (list_lookup_total_correct _ _ _ Hpl); split; [done|]; apply filter_In; rewrite in_seq.
    split; [apply lookup_lt_Some in Hpt; lia|]; apply list_lookup_total_correct, (Hp p tx Hpt Ha), List.Exists_exists; exists k; split; [done|by apply contains_true].
Qed.

(** ** The rolling filter *)

(** The generation that two words hold in a bit, and the one at bit [b] of pair [q] *)
Definition gen_at (p1 p2 b : Z) : Z := Z.b2z (Z.testbit p1 b) + 2 * Z.b2z (Z.testbit p2 b).
Definition cell (data : list Z) (q : nat) (b : Z) : Z := gen_at (data !!! (2 * q)%nat) (data !!! (2 * q + 1)%nat) b.

Lemma gen_at_bound p1 p2 b : 0 <= gen_at p1 p2 b <= 3.
Proof. unfold gen_at; destruct (Z.testbit p1 b), (Z.testbit p2 b); cbn; lia. Qed.

Lemma mask_bits c b : c = 0 \/ c = 1 -> 0 <= b < 64 -> Z.testbit (u64 (- c)) b = (c =? 1).
Proof.
  intros [-> | ->] Hb; [apply Z.bits_0|]; unfold u64; rewrite testbit_wrap by lia; change (- (1)) with (Z.lnot 0); by rewrite Z.lnot_spec, Z.bits_0 by lia.
Qed.

Lemma wiped_gen g p1 p2 b : 1 <= g <= 3 -> 0 <= b < 64 ->
  let mask := Z.lor (Z.lxor p1 (u64 (- Z.land g 1))) (Z.lxor p2 (u64 (- Z.shiftr g 1))) in
  gen_at (Z.land p1 mask) (Z.land p2 mask) b = if gen_at p1 p2 b =? g then 0 else gen_at p1 p2 b.
Proof.
  intros Hg Hb mask; unfold gen_at, mask; rewrite !Z.land_spec, Z.lor_spec, !Z.lxor_spec.
  assert (g = 1 \/ g = 2 \/ g = 3) as [-> | [-> | ->]] by lia; rewrite !mask_bits by (cbn; tauto || lia); cbn [Z.land Z.shiftr Z.eqb];
    by destruct (Z.testbit p1 b), (Z.testbit p2 b).
Qed.

Lemma put_bit_spec k bit v data j : v = 0 \/ v = 1 -> 0 <= bit < 64 -> 0 <= j < 64 -> (k < length data)%nat ->
  Z.testbit (put_bit k bit v data !!! k) j = if j =? bit then v =? 1 else Z.testbit (data !!! k) j.
Proof.
  intros Hv Hb Hj Hk; unfold put_bit; rewrite list_lookup_total_insert_eq by done; rewrite Z.lor_spec, Z.land_spec; unfold u64.
  rewrite testbit_wrap, Z.lnot_spec, Z.shiftl_1_l, Z.pow2_bits_eqb, (Z.eqb_sym bit j) by lia.
  destruct (Z.eqb_spec j bit) as [->|Hne]; cbn [negb]; rewrite ?andb_false_r, ?andb_true_r, Z.shiftl_spec by lia.
  - rewrite Z.sub_diag; by destruct Hv as [-> | ->].
  - destruct (Z.lt_ge_cases j bit); [rewrite (Z.testbit_neg_r v) by lia; apply orb_false_r|].
    destruct Hv as [-> | ->]; [rewrite Z.bits_0; apply orb_false_r|]; rewrite (Z.bits_above_log2 1) by (cbn; lia); apply orb_false_r.
Qed.

Lemma put_bit_other k k' bit v data : k <> k' -> put_bit k bit v data !!! k' = data !!! k'.
Proof. intros Hk; unfold put_bit; by rewrite list_lookup_total_insert_ne. Qed.

Lemma put_bit_length k bit v data : length (put_bit k bit v data) = length data.
Proof. apply length_insert. Qed.

(** The words of a position *)
Lemma pos_words pos : 0 <= pos < 2 ^ 32 -> pos_low pos = (2 * Z.to_nat (pos / 2))%nat /\ pos_high pos = (2 * Z.to_nat (pos / 2) + 1)%nat.
Proof.
  intros Hp; assert (Hd : 0 <= pos / 2) by (apply Z.div_pos; lia); unfold pos_low, pos_high.
  assert (E1 : Z.land pos (u32 (Z.lnot 1)) = 2 * (pos / 2)).
  { replace (2 * (pos / 2)) with (Z.shiftl (Z.shiftr pos 1) 1) by (rewrite Z.shiftl_mul_pow2, Z.shiftr_div_pow2 by lia; change (2 ^ 1) with 2; lia).
    apply Z.bits_inj'; intros i Hi; rewrite Z.land_spec, Z.shiftl_spec by lia; destruct (Z.lt_ge_cases i 32) as [H32|H32].
    - unfold u32; rewrite testbit_wrap, Z.lnot_spec by lia; destruct (Z.eq_dec i 0) as [->|]; [by rewrite andb_false_r|].
      rewrite Z.shiftr_spec, (Z.bits_above_log2 1), andb_true_r by (cbn; lia); f_equal; lia.
    - rewrite Z.shiftr_spec by lia; rewrite !(testbit_word 32 pos) by (done || lia); done. }
  assert (E2 : Z.lor pos 1 = 2 * (pos / 2) + 1).
  { assert (Ep : pos = 2 * (pos / 2) \/ pos = 1 + 2 * (pos / 2)) by (pose proof (Z.div_mod pos 2 ltac:(lia)); pose proof (Z.mod_pos_bound pos 2 ltac:(lia)); lia).
    pose proof (lor_disjoint 1 1 (pos / 2) ltac:(lia) ltac:(lia)) as L1; change (2 ^ 1) with 2 in L1; set (q := pos / 2) in *.
    destruct Ep as [Ep|Ep]; rewrite Ep; [rewrite Z.lor_comm, L1; lia|]; rewrite <- L1, Z.lor_comm, Z.lor_assoc; change (Z.lor 1 1) with 1; rewrite L1; lia. }
  rewrite E1, E2; lia.
Qed.

Lemma rolling_pos_spec m h : (0 < m)%nat -> exists pos bit q, rolling_pos (2 * m) h = Some (pos, bit) /\ (q < m)%nat /\ 0 <= bit < 64 /\
  pos_low pos = (2 * q)%nat /\ pos_high pos = (2 * q + 1)%nat.
Proof.
  intros Hm; unfold rolling_pos; rewrite (proj2 (Nat.eqb_neq (2 * m) 0)) by lia; set (x := Z.shiftr h 6 mod Z.of_nat (2 * m)).
  assert (Hx : 0 <= x < Z.of_nat (2 * m)) by (apply Z.mod_pos_bound; lia); pose proof (u32_word x) as Hu; unfold word in Hu.
  assert (Hle : u32 x <= x) by (apply Z.mod_le; lia); destruct (pos_words (u32 x) Hu) as [E1 E2].
  pose proof (Z.div_lt_upper_bound (u32 x) 2 (Z.of_nat m) ltac:(lia) ltac:(lia)); pose proof (Z.div_pos (u32 x) 2 ltac:(lia) ltac:(lia)).
  exists (u32 x), (Z.land h 63), (Z.to_nat (u32 x / 2)); split_and!; [done|lia| | |done|done];
    change 63 with (Z.ones 6); rewrite Z.land_ones by lia; apply Z.mod_pos_bound; lia.
Qed.

Lemma rolling_pos_bit n h pos bit : rolling_pos n h = Some (pos, bit) -> 0 <= bit < 64.
Proof.
  unfold rolling_pos; destruct (n =? 0)%nat; [done|]; intros [= _ <-]; change 63 with (Z.ones 6); rewrite Z.land_ones by lia; apply Z.mod_pos_bound; lia.
Qed.

Lemma mark_length g pb d : length (mark g pb d) = length d.
Proof. destruct pb; unfold mark; by rewrite !put_bit_length. Qed.

Lemma mark_cell g pos bit q d m q' b : 1 <= g <= 3 -> length d = (2 * m)%nat -> (q < m)%nat -> 0 <= bit < 64 -> pos_low pos = (2 * q)%nat -> pos_high pos = (2 * q + 1)%nat -> 0 <= b < 64 ->
  cell (mark g (pos, bit) d) q' b = if (q =? q')%nat && (bit =? b) then g else cell d q' b.
Proof.
  intros Hg Hd Hq Hb E1 E2 Hb'; unfold cell, mark; rewrite E1, E2; destruct (Nat.eqb_spec q q') as [<-|Hne]; cbn [andb].
  - unfold gen_at; rewrite (put_bit_other (2 * q + 1) (2 * q)) by lia.
    assert (Hg1 : Z.land g 1 = 0 \/ Z.land g 1 = 1) by (assert (g = 1 \/ g = 2 \/ g = 3) as [-> | [-> | ->]] by lia; cbn; tauto).
    assert (Hg2 : Z.shiftr g 1 = 0 \/ Z.shiftr g 1 = 1) by (assert (g = 1 \/ g = 2 \/ g = 3) as [-> | [-> | ->]] by lia; cbn; tauto).
    rewrite !put_bit_spec by (done || rewrite ?put_bit_length; lia); rewrite put_bit_other by lia; rewrite (Z.eqb_sym bit b).
    destruct (b =? bit); [|done]; assert (g = 1 \/ g = 2 \/ g = 3) as [-> | [-> | ->]] by lia; done.
  - rewrite !put_bit_other by lia; done.
Qed.

Lemma wipe_length g d : length (wipe g d) = length d.
Proof.
  unfold wipe; apply (for_range_ind (fun _ d' => length d' = length d)); [lia|done|]; intros i d' _ E; unfold wipe_pair; by rewrite !length_insert.
Qed.

Lemma wipe_cell g d m q b : 1 <= g <= 3 -> length d = (2 * m)%nat -> (q < m)%nat -> 0 <= b < 64 ->
  cell (wipe g d) q b = if cell d q b =? g then 0 else cell d q b.
Proof.
  intros Hg Hd Hq Hb; unfold wipe; replace (length d / 2)%nat with m by (rewrite Hd, Nat.mul_comm, Nat.div_mul by lia; done).
  set (f := fun i => wipe_pair g (2 * i)).
  enough (H : length (for_range 0 m f d) = (2 * m)%nat /\ forall q, (q < m)%nat -> cell (for_range 0 m f d) q b = if (q <? m)%nat && (cell d q b =? g) then 0 else cell d q b).
  { destruct H as [_ H]; by rewrite H, (proj2 (Nat.ltb_lt q m)) by done. }
  apply (for_range_ind (fun i d' => length d' = (2 * m)%nat /\ forall q, (q < m)%nat -> cell d' q b = if (q <? i)%nat && (cell d q b =? g) then 0 else cell d q b));
    [lia|by split|]; intros i d' Hi [Hl Hc]; unfold f, wipe_pair; split; [by rewrite !length_insert|]; intros q' Hq'; specialize (Hc q' Hq').
  destruct (decide (q' = i)) as [->|Hne].
  - rewrite (proj2 (Nat.ltb_ge i i)) in Hc by lia; cbn [andb] in Hc; rewrite (proj2 (Nat.ltb_lt i (i + 1))) by lia; cbn [andb]; rewrite <- Hc; unfold cell.
    rewrite (list_lookup_total_insert_ne _ (2 * i + 1) (2 * i)) by lia; rewrite !list_lookup_total_insert_eq by (rewrite ?length_insert; lia).
    by apply wiped_gen.
  - assert (E : (q' <? i + 1)%nat = (q' <? i)%nat) by (apply eq_true_iff_eq; rewrite !Nat.ltb_lt; lia); rewrite E, <- Hc; unfold cell.
    by rewrite !list_lookup_total_insert_ne by lia.
Qed.

Lemma marked_spec d pos bit q : 0 <= bit < 64 -> pos_low pos = (2 * q)%nat -> pos_high pos = (2 * q + 1)%nat -> cell d q bit <> 0 -> marked d (pos, bit) = true.
Proof.
  intros Hb E1 E2 Hc; unfold marked; rewrite E1, E2; unfold cell, gen_at in Hc; apply negb_true_iff, Z.eqb_neq; intros H0.
  assert (Hbit : Z.testbit (Z.land (Z.shiftr (Z.lor (d !!! (2 * q)%nat) (d !!! (2 * q + 1)%nat)) bit) 1) 0 = false) by (rewrite H0; apply Z.bits_0).
  rewrite Z.land_spec, Z.shiftr_spec, Z.lor_spec, andb_true_r in Hbit by lia; rewrite Z.add_0_l in Hbit.
  apply orb_false_iff in Hbit as [Hb1 Hb2]; rewrite Hb1, Hb2 in Hc; cbn in Hc; lia.
Qed.

(** The cells of a key were written at most [a] generations ago. *)
Definition fresh (d : list Z) (g funcs tweak : Z) (k : list Z) (a : Z) : Prop :=
  forall n pos bit q, 0 <= n < funcs -> rolling_pos (length d) (RollingBloomHash n tweak k) = Some (pos, bit) -> pos_low pos = (2 * q)%nat ->
  1 <= cell d q bit /\ (g - cell d q bit) mod 3 <= a.

Definition next_gen (g : Z) : Z := if g + 1 =? 4 then 1 else g + 1.

Lemma next_gen_bound g : 1 <= g <= 3 -> 1 <= next_gen g <= 3.
Proof. intros Hg; unfold next_gen; destruct (Z.eqb_spec (g + 1) 4); lia. Qed.

Lemma age_step g c : 1 <= g <= 3 -> 1 <= c <= 3 -> (g - c) mod 3 <= 1 -> c <> next_gen g /\ (next_gen g - c) mod 3 = (g - c) mod 3 + 1.
Proof.
  intros Hg Hc; assert (g = 1 \/ g = 2 \/ g = 3) as [-> | [-> | ->]] by lia; assert (c = 1 \/ c = 2 \/ c = 3) as [-> | [-> | ->]] by lia;
    vm_compute; intros H; split; congruence.
Qed.

Lemma fresh_wipe d m g funcs tweak k a : length d = (2 * m)%nat -> (0 < m)%nat -> 1 <= g <= 3 -> a <= 1 ->
  fresh d g funcs tweak k a -> fresh (wipe (next_gen g) d) (next_gen g) funcs tweak k (a + 1).
Proof.
  intros Hd Hm Hg Ha Hf n pos bit q Hn Hp Hq; rewrite wipe_length in Hp; destruct (Hf n pos bit q Hn Hp Hq) as [H1 H2]; rewrite Hd in Hp.
  destruct (rolling_pos_spec m (RollingBloomHash n tweak k) Hm) as (pos' & bit' & q' & E & Hq' & Hb & El & _); rewrite Hp in E; simplify_eq.
  assert (q = q') as -> by lia; pose proof (gen_at_bound (d !!! (2 * q')%nat) (d !!! (2 * q' + 1)%nat) bit') as H3; fold (cell d q' bit') in H3.
  destruct (age_step g (cell d q' bit') Hg ltac:(lia) ltac:(lia)) as [Hne Hage].
  rewrite (wipe_cell _ d m) by (done || by apply next_gen_bound); rewrite (proj2 (Z.eqb_neq _ _)) by done; lia.
Qed.

Lemma fresh_grows d d' g funcs tweak k a : length d' = length d -> 1 <= g -> 0 <= a -> (forall q b, 0 <= b < 64 -> cell d' q b = cell d q b \/ cell d' q b = g) ->
  fresh d g funcs tweak k a -> fresh d' g funcs tweak k a.
Proof.
  intros Hl Hg Ha Hc Hf n pos bit q Hn Hp Hq; rewrite Hl in Hp; destruct (Hf n pos bit q Hn Hp Hq) as [H1 H2].
  destruct (Hc q bit (rolling_pos_bit _ _ _ _ Hp)) as [-> | ->]; [done|]; by rewrite Z.sub_diag.
Qed.

Lemma marks_spec d m g funcs tweak k : length d = (2 * m)%nat -> (0 < m)%nat -> 1 <= g <= 3 ->
  exists d', for_rangeM 0 (Z.to_nat funcs) (fun n data => pb ← rolling_pos (length data) (RollingBloomHash (Z.of_nat n) tweak k); Some (mark g pb data)) d = Some d' /\
    length d' = length d /\ fresh d' g funcs tweak k 0 /\ forall q b, 0 <= b < 64 -> cell d' q b = cell d q b \/ cell d' q b = g.
Proof.
  intros Hd Hm Hg.
  destruct (for_rangeM_total (fun n d' => length d' = length d /\ (forall q b, 0 <= b < 64 -> cell d' q b = cell d q b \/ cell d' q b = g) /\ fresh d' g (Z.of_nat n) tweak k 0)
    0 (Z.to_nat funcs) (fun n data => pb ← rolling_pos (length data) (RollingBloomHash (Z.of_nat n) tweak k); Some (mark g pb data)) d) as (d' & E & Hl & Hc & Hf);
    [lia|split_and!; [done|intros; by left|intros n pos bit q Hn; lia]| |].
  - intros i d' Hi (Hl & Hc & Hf); rewrite Hl, Hd.
    destruct (rolling_pos_spec m (RollingBloomHash (Z.of_nat i) tweak k) Hm) as (pos & bit & q & E & Hq & Hb & E1 & E2); rewrite E; eexists; split; [done|].
    assert (Hmc : forall q' b, 0 <= b < 64 -> cell (mark g (pos, bit) d') q' b = if (q =? q')%nat && (bit =? b) then g else cell d' q' b)
      by (intros q' b Hb'; apply (mark_cell g pos bit q d' m); done || lia).
    split_and!; [rewrite mark_length; lia|intros q' b Hb'; rewrite Hmc by done; destruct (_ && _); [by right|by apply Hc]|].
    intros n pos' bit' q' Hn Hp Hq'; rewrite mark_length in Hp; pose proof Hp as Hp'; rewrite Hl, Hd in Hp'.
    destruct (rolling_pos_spec m (RollingBloomHash n tweak k) Hm) as (pos2 & bit2 & q2 & E3 & _ & Hb2 & E4 & _); rewrite Hp' in E3; simplify_eq; rewrite Hmc by done.
    destruct (decide (n = Z.of_nat i)) as [->|Hne].
    + rewrite Hp' in E; simplify_eq; rewrite (proj2 (Nat.eqb_eq q q')), Z.eqb_refl by lia; cbn [andb]; rewrite Z.sub_diag, Z.mod_0_l by lia; lia.
    + destruct (Hf n pos2 bit2 q' ltac:(lia) Hp Hq') as [H1 H2]; destruct (_ && _); [rewrite Z.sub_diag, Z.mod_0_l by lia; lia|done].
  - exists d'; split_and!; [done|done| |done]; intros n pos bit q Hn; apply Hf; lia.
Qed.

(** How many generations ago entry [i] was inserted, counted from the last one *)
Definition age (per this i : Z) : Z := if i <? this then 0 else if i <? this + per then 1 else 2.

(** The state of a filter after the insertions of [hist], the last one first *)
Record remembers (f : CRollingBloomFilter) (hist : list (list Z)) : Prop := {
  rm_size : exists m, (0 < m)%nat /\ length f.(data) = (2 * m)%nat;
  rm_gen : 1 <= f.(nGeneration) <= 3;
  rm_per : 0 < f.(nEntriesPerGeneration);
  rm_entries : 0 <= f.(nEntriesThisGeneration) <= f.(nEntriesPerGeneration);
  rm_cells : forall i k, hist !! i = Some k -> Z.of_nat i < 2 * f.(nEntriesPerGeneration) + f.(nEntriesThisGeneration) ->
    fresh f.(data) f.(nGeneration) f.(r_nHashFuncs) f.(r_nTweak) k (age f.(nEntriesPerGeneration) f.(nEntriesThisGeneration) (Z.of_nat i))
}.

(** A full generation makes room for the next one. *)
Definition rolled (f : CRollingBloomFilter) : CRollingBloomFilter :=
  RollingBloomFilter f.(nEntriesPerGeneration) 0 (next_gen f.(nGeneration)) (wipe (next_gen f.(nGeneration)) f.(data)) f.(r_nTweak) f.(r_nHashFuncs).

Lemma rolled_spec f hist : remembers f hist -> f.(nEntriesThisGeneration) = f.(nEntriesPerGeneration) -> remembers (rolled f) hist.
Proof.
  intros [(m & Hm & Hd) Hg Hp He Hc] Efull; split; cbn [rolled data nGeneration nEntriesPerGeneration nEntriesThisGeneration r_nHashFuncs r_nTweak]; [exists m; by rewrite wipe_length|by apply next_gen_bound|done|lia|].
  intros i k Hi Hlt; specialize (Hc i k Hi ltac:(lia)); rewrite Efull in Hc; unfold age in *; set (per := f.(nEntriesPerGeneration)) in *.
  rewrite (proj2 (Z.ltb_ge (Z.of_nat i) 0)) by lia; rewrite Z.add_0_l; destruct (Z.ltb_spec (Z.of_nat i) per).
  - apply (fresh_wipe _ m _ _ _ _ 0); done.
  - rewrite (proj2 (Z.ltb_lt (Z.of_nat i) (per + per))) in Hc by lia; apply (fresh_wipe _ m _ _ _ _ 1); done.
Qed.

Lemma insert_remembers f hist k : remembers f hist -> exists f', rolling_insert f k = Some f' /\ remembers f' (k :: hist) /\
  f'.(nEntriesPerGeneration) = f.(nEntriesPerGeneration) /\ 1 <= f'.(nEntriesThisGeneration).
Proof.
  intros Hr.
  assert (S1 : exists f0, remembers f0 hist /\ f0.(nEntriesPerGeneration) = f.(nEntriesPerGeneration) /\ f0.(nEntriesThisGeneration) < f0.(nEntriesPerGeneration) /\
    (rolling_insert f k = data ← for_rangeM 0 (Z.to_nat f0.(r_nHashFuncs)) (fun n data => pb ← rolling_pos (length data) (RollingBloomHash (Z.of_nat n) f0.(r_nTweak) k); Some (mark f0.(nGeneration) pb data)) f0.(data);
      Some (RollingBloomFilter f0.(nEntriesPerGeneration) (f0.(nEntriesThisGeneration) + 1) f0.(nGeneration) data f0.(r_nTweak) f0.(r_nHashFuncs)))).
  { unfold rolling_insert; destruct (Z.eqb_spec f.(nEntriesThisGeneration) f.(nEntriesPerGeneration)) as [E|E].
    - exists (rolled f); split_and!; [by apply rolled_spec|done|cbn; apply Hr|done].
    - exists f; split_and!; [done|done|pose proof (rm_entries f hist Hr); lia|done]. }
  destruct S1 as (f0 & [(m & Hm & Hd) Hg Hp He Hc] & Eper & Hlt & ->).
  destruct (marks_spec f0.(data) m f0.(nGeneration) f0.(r_nHashFuncs) f0.(r_nTweak) k Hd Hm Hg) as (d' & -> & Hl & Hf & Hcell); eexists; split; [done|].
  split; [|split; [done|cbn; lia]]; split; cbn [rolled data nGeneration nEntriesPerGeneration nEntriesThisGeneration r_nHashFuncs r_nTweak]; [exists m; by rewrite Hl|done|done|lia|]; intros [|i] k' Hi Hi'; cbn in Hi.
  - injection Hi as <-; unfold age; rewrite (proj2 (Z.ltb_lt _ _)) by lia; done.
  - replace (age f0.(nEntriesPerGeneration) (f0.(nEntriesThisGeneration) + 1) (Z.of_nat (S i))) with (age f0.(nEntriesPerGeneration) f0.(nEntriesThisGeneration) (Z.of_nat i)).
    + apply (fresh_grows f0.(data)); [done|lia|unfold age; repeat case_match; lia|done|apply Hc; [done|lia]].
    + unfold age; repeat case_match; rewrite ?Z.ltb_lt, ?Z.ltb_ge in *; lia.
Qed.

Lemma rolling_loop_spec f hist k a n : remembers f hist -> fresh f.(data) f.(nGeneration) f.(r_nHashFuncs) f.(r_nTweak) k a ->
  forall i, 0 <= i -> i + Z.of_nat n <= Z.of_nat (Z.to_nat f.(r_nHashFuncs)) -> rolling_loop f k i n = Some true.
Proof.
  intros [(m & Hm & Hd) _ _ _ _] Hf; induction n as [|n IH]; intros i Hi Hn; cbn [rolling_loop]; [done|].
  destruct (rolling_pos_spec m (RollingBloomHash i f.(r_nTweak) k) Hm) as (pos & bit & q & E & Hq & Hb & E1 & E2); rewrite <- Hd in E; rewrite E; cbn [mbind option_bind].
  destruct (Hf i pos bit q ltac:(lia) E E1) as [H1 _]; rewrite (marked_spec _ pos bit q) by (done || lia); apply IH; lia.
Qed.

Lemma rolling_run f hist keys : remembers f hist -> exists f', fold_leftM rolling_insert keys f = Some f' /\ remembers f' (rev keys ++ hist) /\
  f'.(nEntriesPerGeneration) = f.(nEntriesPerGeneration) /\ (keys <> [] -> 1 <= f'.(nEntriesThisGeneration)).
Proof.
  revert f hist; induction keys as [|k keys IH]; intros f hist Hr; [by exists f|]; rewrite fold_leftM_cons.
  destruct (insert_remembers f hist k Hr) as (f1 & -> & Hr1 & Ep & He); destruct (IH f1 (k :: hist) Hr1) as (f' & E & Hr' & Ep' & He').
  exists f'; cbn [mbind option_bind rev]; rewrite <- app_assoc; split_and!; [done|done|congruence|].
  intros _; destruct keys as [|k' keys]; [|by apply He']; unfold fold_leftM in E; cbn in E; by simplify_eq.
Qed.

Lemma make_rolling_spec nElements funcs bits rand : 1 <= nElements < 2 ^ 32 - 1 -> 1 <= bits <= 2 ^ 32 - 64 ->
  remembers (make_CRollingBloomFilter nElements funcs bits rand) [] /\ nElements <= 2 * (make_CRollingBloomFilter nElements funcs bits rand).(nEntriesPerGeneration).
Proof.
  intros Hn Hb; unfold make_CRollingBloomFilter, rolling_reset; cbn [nEntriesPerGeneration r_nHashFuncs data].
  pose proof (Z.div_mod (nElements + 1) 2 ltac:(lia)); pose proof (Z.mod_pos_bound (nElements + 1) 2 ltac:(lia)).
  pose proof (Z.div_mod (bits + 63) 64 ltac:(lia)); pose proof (Z.mod_pos_bound (bits + 63) 64 ltac:(lia)).
  rewrite (u32_id (nElements + 1)), (u32_id (bits + 63)) by (unfold word; lia); rewrite Z.shiftl_mul_pow2 by lia.
  rewrite u32_id by (unfold word; lia); split; [|lia]; split; cbn [rolled data nGeneration nEntriesPerGeneration nEntriesThisGeneration r_nHashFuncs r_nTweak]; [|lia|lia|lia|done].
  exists (Z.to_nat ((bits + 63) / 64)); rewrite !length_replicate; change (2 ^ 1) with 2; lia.
Qed.

(** C33 (invariant): the rolling filter remembers.  Every sequence of insertions
    into a new filter for [nElements] entries is defined, and at the end the filter
    contains the last entries: those of the current generation and of the two before
    it, which are at least [nElements] and, once there was an insertion, at least
    one more. *)
Theorem rolling_filter_remembers nElements funcs bits rand keys :
  1 <= nElements < 2 ^ 32 - 1 -> 1 <= bits <= 2 ^ 32 - 64 ->
  exists f, fold_leftM rolling_insert keys (make_CRollingBloomFilter nElements funcs bits rand) = Some f /\
    let n := 2 * f.(nEntriesPerGeneration) + f.(nEntriesThisGeneration) in
    nElements <= n /\ (keys <> [] -> nElements < n) /\ forall k, In k (take (Z.to_nat n) (rev keys)) -> rolling_contains f k = Some true.
Proof.
  intros Hn Hb; destruct (make_rolling_spec nElements funcs bits rand Hn Hb) as [Hr Hper].
  destruct (rolling_run _ [] keys Hr) as (f & E & Hf & Ep & He); rewrite app_nil_r in Hf; exists f; split; [done|]; cbv zeta; rewrite <- Ep in Hper.
  pose proof (rm_entries f _ Hf); split_and!; [lia|intros Hk; specialize (He Hk); lia|].
  intros k Hin; apply list_elem_of_In, list_elem_of_lookup in Hin as [i Hi]; apply lookup_take_Some in Hi as [Hi Hlt].
  apply (rolling_loop_spec f _ k _ _ Hf (rm_cells f _ Hf i k Hi ltac:(lia))); lia.
Qed.

(** ** Examples *)

Definition demo_filter : CBloomFilter := make_CBloomFilter 28 (fun n => if (n =? 0)%nat then 0 else 5) 0 BLOOM_UPDATE_ALL.

(** The filter of bloom_tests.cpp: three keys, and its encoding 614e9b *)
Example bloom_create_insert_serialize :
  vData <$> fold_leftM (run_op (fun _ => false))
    [OpInsert (be_bytes 20 0x99108ad8ed9bb6274d3980bab5a85c048f0950c8); OpInsert (be_bytes 20 0xb5a2c786d9ef4658287ced5914b37a1b4aa32eee);
     OpInsert (be_bytes 20 0xb9300670b4c5366e95b2699e8b18bc75e5f729c5)] demo_filter = Some [0x61; 0x4e; 0x9b].
Proof. vm_compute. reflexivity. Qed.

(** A filter that was read without bytes is full; when it is cleared, the next insertion
    takes a remainder by zero. *)
Example cleared_without_bytes :
  let f := UpdateEmptyFull (BloomFilter [] true false 5 0 1) in bloom_ok f /\ bloom_insert (bloom_clear f) [1] = None.
Proof. split; [apply UpdateEmptyFull_ok; constructor|reflexivity]. Qed.

Lemma demo_filter_ok : bloom_ok demo_filter.
Proof. by apply make_CBloomFilter_ok. Qed.

Lemma bloom_no_false_negatives_witness : exists f', fold_leftM (run_op (fun _ => false)) [OpInsert [1; 2]; OpUpdate; OpInsert [3]] demo_filter = Some f' /\
  bloom_contains f' [1; 2] = Some true.
Proof.
  destruct (bloom_no_false_negatives (fun _ => false) demo_filter [OpInsert [1; 2]; OpUpdate; OpInsert [3]] demo_filter_ok) as (f' & E & _ & H); [intros E; discriminate E|].
  exists f'; split; [exact E|]; apply H; [reflexivity|right; left; reflexivity].
Defined.

Definition demo_tx (h : Z) : CTransaction := Transaction 1 0 (replicate 32 h) None [[2; 7; 8; 0x51]] [(OutPoint (replicate 32 9) 3, [1; h])].

Lemma IsRelevantAndUpdate_correct_witness : exists f f', bloom_insert demo_filter [7; 8] = Some f /\ IsRelevantAndUpdate (fun _ => false) f (demo_tx 4) = Some (true, f').
Proof.
  destruct (insert_spec demo_filter [7; 8] demo_filter_ok) as (f & E & Hok & _ & Hh & _); exists f.
  destruct (IsRelevantAndUpdate_correct (fun _ => false) f (demo_tx 4) Hok) as (m & f' & E' & _ & Hm & _).
  assert (m = true) as Hmt; [|exists f'; split; [exact E|rewrite E', Hmt; reflexivity]].
  apply Hm; exists [7; 8]; split; [right; left; reflexivity|]; apply contains_true; [exact Hok|exact Hh].
Defined.

Lemma filter_sent_witness : exists e g, (forall s, Serialize_filter s demo_filter = write e s) /\ reads (Unserialize_filter new_CBloomFilter) e g /\
  forall k, bloom_contains (UpdateEmptyFull g) k = bloom_contains demo_filter k.
Proof.
  destruct (filter_sent demo_filter demo_filter_ok) as (e & g & H1 & H2 & _ & H3); [reflexivity|split; [discriminate|reflexivity]..|discriminate|].
  exists e, g; split; [exact H1|split; [exact H2|exact H3]].
Defined.

Lemma rolling_filter_remembers_witness : exists f, fold_leftM rolling_insert [[1]; [2]; [3]; [4]; [5]; [6]; [7]] (make_CRollingBloomFilter 2 3 200 77) = Some f /\ rolling_contains f [6] = Some true.
Proof.
  destruct (rolling_filter_remembers 2 3 200 77 [[1]; [2]; [3]; [4]; [5]; [6]; [7]]) as (f & E & Hn & _ & H); [lia|lia|].
  exists f; split; [exact E|]; apply H; destruct (Z.to_nat _) as [|[|n]] eqn:En; [lia|lia|right; left; reflexivity].
Defined.

Lemma demo_hashes : map tx_hash (map demo_tx [1; 2; 3]) = three_leaves.
Proof. reflexivity. Qed.

Lemma demo_block_wf : header_wf Mtp.mtp_params 1544443200 (GetBlockHeader 1544443200 make_CBlockHeader).
Proof. split_and!; [split; (by split; [|apply wordsb_spec]) || (vm_compute; split; congruence)|reflexivity|reflexivity]. Qed.

Lemma filtered_block_complete_witness : exists f mb f' e mb', bloom_insert demo_filter [7; 8] = Some f /\
  make_CMerkleBlock (fun _ => false) [] 1544443200 make_CBlockHeader (map demo_tx [1; 2; 3]) f = Some (mb, f') /\ In (1%nat, replicate 32 2) mb.(vMatchedTxn) /\
  reads (Unserialize_MerkleBlock Mtp.mtp_params 1544443200 [] (MerkleBlock make_CBlockHeader mb.(mb_txn) [])) e mb'.
Proof.
  destruct (insert_spec demo_filter [7; 8] demo_filter_ok) as (f & E & Hok & _ & Hh & _).
  destruct (filtered_block_complete Mtp.mtp_params [] (MerkleBlock make_CBlockHeader (PartialMerkleTree 0 [] [] false) []) (fun _ => false) [] 1544443200 make_CBlockHeader (map demo_tx [1; 2; 3]) f
    eq_refl demo_block_wf eq_refl Hok) as (mb & f' & e & mb' & _ & _ & E' & _ & Hr & _ & _ & _ & H).
  - cbn; lia.
  - cbn; lia.
  - repeat constructor; unfold word; lia.
  - intros k i; rewrite demo_hashes; apply three_differ.
  - exists f, mb, f', e, mb'; split; [exact E|split; [exact E'|]]; split; [|exact Hr]; apply (H 1%nat (demo_tx 2) [7; 8]); [reflexivity|reflexivity|right; left; reflexivity|].
    apply contains_true; [exact Hok|exact Hh].
Defined.
