(* ===== verification/Chain.v ===== *)
(** The index of blocks and the active chain: chain.h, chain.cpp, AddToBlockIndex and
    FindForkInGlobalIndex of validation.cpp and LastCommonAncestor of net_processing.cpp.

    The objects of class CBlockIndex live in a store, and a pointer is the place of its
    object there; objects are never freed, so that a new one comes after all others.  The
    fields of an object for files, transaction counts, coins and sporks are left out.  The
    outer [None] of a result is undefined behaviour or a failed assertion, the inner
    one a null pointer. *)

From stdpp Require Import gmap sorting.
From S2P Require Import Prelude MdHash Hash Scrypt Arith256 Serialize Block Pow.

Abbreviation ptr := nat.

Record CBlockIndex := BlockIndex {
  phashBlock : option (list Z); pprev : option ptr; pskip : option ptr; nHeight : Z; nChainWork : list Z; nStatus : Z;
  bi_nVersion : Z; bi_hashMerkleRoot : list Z; bi_nTime : Z; bi_nBits : Z; bi_nNonce : Z;
  bi_nVersionMTP : Z; bi_mtpHashValue : list Z; bi_reserved0 : list Z; bi_reserved1 : list Z; nSequenceId : Z; nTimeMax : Z
}.

Abbreviation store := (list CBlockIndex).

(** ** Objects *)

Definition new_CBlockIndex : CBlockIndex :=
  BlockIndex None None None 0 (Arith256.zero WIDTH256) 0 0 uint256_null 0 0 0 0 uint256_null uint256_null uint256_null 0 0.

Definition make_CBlockIndex (switch : Z) (block : CBlockHeader) : CBlockIndex :=
  let b := new_CBlockIndex in
  let mtp := IsMTP switch block in
  BlockIndex b.(phashBlock) b.(pprev) b.(pskip) b.(nHeight) b.(nChainWork) b.(nStatus)
    block.(nVersion) block.(hashMerkleRoot) block.(nTime) block.(nBits) block.(nNonce)
    (if mtp then block.(nVersionMTP) else b.(bi_nVersionMTP)) (if mtp then block.(mtpHashValue) else b.(bi_mtpHashValue))
    (if mtp then block.(reserved0) else b.(bi_reserved0)) (if mtp then block.(reserved1) else b.(bi_reserved1)) b.(nSequenceId) b.(nTimeMax).

Definition set_hash (b : CBlockIndex) (h : list Z) : CBlockIndex :=
  BlockIndex (Some h) b.(pprev) b.(pskip) b.(nHeight) b.(nChainWork) b.(nStatus) b.(bi_nVersion) b.(bi_hashMerkleRoot) b.(bi_nTime) b.(bi_nBits) b.(bi_nNonce)
    b.(bi_nVersionMTP) b.(bi_mtpHashValue) b.(bi_reserved0) b.(bi_reserved1) b.(nSequenceId) b.(nTimeMax).
Definition set_prev (b : CBlockIndex) (p : ptr) (height : Z) : CBlockIndex :=
  BlockIndex b.(phashBlock) (Some p) b.(pskip) height b.(nChainWork) b.(nStatus) b.(bi_nVersion) b.(bi_hashMerkleRoot) b.(bi_nTime) b.(bi_nBits) b.(bi_nNonce)
    b.(bi_nVersionMTP) b.(bi_mtpHashValue) b.(bi_reserved0) b.(bi_reserved1) b.(nSequenceId) b.(nTimeMax).
Definition set_skip (b : CBlockIndex) (p : option ptr) : CBlockIndex :=
  BlockIndex b.(phashBlock) b.(pprev) p b.(nHeight) b.(nChainWork) b.(nStatus) b.(bi_nVersion) b.(bi_hashMerkleRoot) b.(bi_nTime) b.(bi_nBits) b.(bi_nNonce)
    b.(bi_nVersionMTP) b.(bi_mtpHashValue) b.(bi_reserved0) b.(bi_reserved1) b.(nSequenceId) b.(nTimeMax).
Definition set_totals (b : CBlockIndex) (work : list Z) (tmax : Z) : CBlockIndex :=
  BlockIndex b.(phashBlock) b.(pprev) b.(pskip) b.(nHeight) work b.(nStatus) b.(bi_nVersion) b.(bi_hashMerkleRoot) b.(bi_nTime) b.(bi_nBits) b.(bi_nNonce)
    b.(bi_nVersionMTP) b.(bi_mtpHashValue) b.(bi_reserved0) b.(bi_reserved1) b.(nSequenceId) tmax.
Definition set_nStatus (b : CBlockIndex) (status : Z) : CBlockIndex :=
  BlockIndex b.(phashBlock) b.(pprev) b.(pskip) b.(nHeight) b.(nChainWork) status b.(bi_nVersion) b.(bi_hashMerkleRoot) b.(bi_nTime) b.(bi_nBits) b.(bi_nNonce)
    b.(bi_nVersionMTP) b.(bi_mtpHashValue) b.(bi_reserved0) b.(bi_reserved1) b.(nSequenceId) b.(nTimeMax).

Definition BLOCK_VALID_TREE : Z := 2.
Definition BLOCK_VALID_MASK : Z := 7.
Definition BLOCK_FAILED_MASK : Z := 96.

Definition IsValid (b : CBlockIndex) (nUpTo : Z) : option bool :=
  if negb (Z.land nUpTo (Z.lnot BLOCK_VALID_MASK) =? 0) then None
  else if negb (Z.land b.(nStatus) BLOCK_FAILED_MASK =? 0) then Some false
  else Some (nUpTo <=? Z.land b.(nStatus) BLOCK_VALID_MASK).

(** The returned flag and the object *)
Definition RaiseValidity (b : CBlockIndex) (nUpTo : Z) : option (bool * CBlockIndex) :=
  if negb (Z.land nUpTo (Z.lnot BLOCK_VALID_MASK) =? 0) then None
  else if negb (Z.land b.(nStatus) BLOCK_FAILED_MASK =? 0) then Some (false, b)
  else if Z.land b.(nStatus) BLOCK_VALID_MASK <? nUpTo
       then Some (true, set_nStatus b (Z.lor (Z.land b.(nStatus) (u32 (Z.lnot BLOCK_VALID_MASK))) nUpTo))
       else Some (false, b).

(** ** Ancestors *)

Definition InvertLowestOne (n : Z) : Z := Z.land n (n - 1).

Definition GetSkipHeight (height : Z) : Z :=
  if height <? 2 then 0
  else if negb (Z.land height 1 =? 0) then InvertLowestOne (InvertLowestOne (height - 1)) + 1 else InvertLowestOne height.

(** [while (heightWalk > height)]; every turn lowers [heightWalk], so that
    [heightWalk - height] turns are enough. *)
Fixpoint ancestor_loop (fuel : nat) (s : store) (pindexWalk : ptr) (heightWalk height : Z) : option ptr :=
  if height <? heightWalk then
    match fuel with
    | O => None
    | S fuel =>
      let heightSkip := GetSkipHeight heightWalk in
      let heightSkipPrev := GetSkipHeight (heightWalk - 1) in
      b ← s !! pindexWalk;
      match b.(pskip), (heightSkip =? height) || ((height <? heightSkip) && negb ((heightSkipPrev <? heightSkip - 2) && (height <=? heightSkipPrev))) with
      | Some skip, true => ancestor_loop fuel s skip heightSkip height
      | _, _ => prev ← b.(pprev); ancestor_loop fuel s prev (heightWalk - 1) height
      end
    end
  else Some pindexWalk.

Definition GetAncestor (s : store) (p : ptr) (height : Z) : option (option ptr) :=
  b ← s !! p;
  if (b.(nHeight) <? height) || (height <? 0) then Some None
  else Some <$> ancestor_loop (Z.to_nat (b.(nHeight) - height)) s p b.(nHeight) height.

Definition BuildSkip (s : store) (p : ptr) : option store :=
  b ← s !! p;
  match b.(pprev) with
  | None => Some s
  | Some prev => skip ← GetAncestor s prev (GetSkipHeight b.(nHeight)); Some (<[p := set_skip b skip]> s)
  end.

(** ** Work *)

Definition one256 : list Z := of_uint64 WIDTH256 1.

Definition GetBlockProof (bits : Z) : option (list Z) :=
  let c := SetCompact bits in
  let bnTarget := c.(c_target) in
  if c.(c_negative) || c.(c_overflow) || EqualTo WIDTH256 bnTarget 0 then Some (of_uint64 WIDTH256 0)
  else q ← divide WIDTH256 (complement bnTarget) (Arith256.add WIDTH256 bnTarget one256); Some (Arith256.add WIDTH256 q one256).

Definition int64_max : Z := 2 ^ 63 - 1.
Definition s64 (x : Z) : Z := if x <? 2 ^ 63 then x else x - 2 ^ 64.

(** [None]: a division by zero.  The product of the sign and the last word is taken in
    [uint64_t]. *)
Definition GetBlockProofEquivalentTime (to from tip : CBlockIndex) (nPowTargetSpacing : Z) : option Z :=
  let '(r, sign) :=
    if greater WIDTH256 to.(nChainWork) from.(nChainWork) then (Arith256.subtract WIDTH256 to.(nChainWork) from.(nChainWork), 1)
    else (Arith256.subtract WIDTH256 from.(nChainWork) to.(nChainWork), -1) in
  proof ← GetBlockProof tip.(bi_nBits);
  r ← divide WIDTH256 (Arith256.multiply WIDTH256 r (of_uint64 WIDTH256 (u64 nPowTargetSpacing))) proof;
  if 63 <? Arith256.bits WIDTH256 r then Some (sign * int64_max)
  else Some (s64 (u64 (sign * GetLow64 r))).

(** ** Time *)

Definition nMedianTimeSpan : nat := 11.

(** The times of a block and of those before it, at most [n] *)
Fixpoint times_back (s : store) (n : nat) (p : option ptr) : option (list Z) :=
  match n, p with
  | S n, Some p => b ← s !! p; l ← times_back s n b.(pprev); Some (b.(bi_nTime) :: l)
  | _, _ => Some []
  end.
Definition GetMedianTimePast (s : store) (p : ptr) : option Z :=
  l ← times_back s nMedianTimeSpan (Some p);
  merge_sort Z.le l !! (length l / 2)%nat.

(** ** The index *)

Record chain_state := ChainState {
  blocks : store; mapBlockIndex : gmap (list Z) ptr; pindexBestHeader : option ptr; setDirtyBlockIndex : gset ptr; mapPrevBlockIndex : list (list Z * ptr)
}.

(** [pindexNew->pprev = ...; nHeight = ...; BuildSkip();] *)
Definition link (s : store) (pnew prev : ptr) : option store :=
  b ← s !! pnew;
  pb ← s !! prev;
  if int_max <? pb.(nHeight) + 1 then None
  else BuildSkip (<[pnew := set_prev b prev (pb.(nHeight) + 1)]> s) pnew.

(** [nTimeMax] and [nChainWork] *)
Definition accumulate (s : store) (pnew : ptr) : option store :=
  b ← s !! pnew;
  proof ← GetBlockProof b.(bi_nBits);
  match b.(pprev) with
  | None => Some (<[pnew := set_totals b (Arith256.add WIDTH256 (of_uint64 WIDTH256 0) proof) b.(bi_nTime)]> s)
  | Some prev => pb ← s !! prev; Some (<[pnew := set_totals b (Arith256.add WIDTH256 pb.(nChainWork) proof) (Z.max pb.(nTimeMax) b.(bi_nTime))]> s)
  end.

Section Index.
Context (params : Consensus) (ubuf : list Z).

Definition AddToBlockIndex (st : chain_state) (block : CBlockHeader) : option (ptr * chain_state) :=
  hash ← GetHash params ubuf block;
  match st.(mapBlockIndex) !! hash with
  | Some p => Some (p, st)
  | None =>
    let pnew := length st.(blocks) in
    let s := st.(blocks) ++ [set_hash (make_CBlockIndex params.(nMTPSwitchTime) block) hash] in
    let map := <[hash := pnew]> st.(mapBlockIndex) in
    s ← (match map !! block.(hashPrevBlock) with Some prev => link s pnew prev | None => Some s end);
    s ← accumulate s pnew;
    b ← s !! pnew;
    '(_, b) ← RaiseValidity b BLOCK_VALID_TREE;
    let s := <[pnew := b]> s in
    best ← (match st.(pindexBestHeader) with
            | None => Some pnew
            | Some best => bb ← s !! best; Some (if less WIDTH256 bb.(nChainWork) b.(nChainWork) then pnew else best)
            end);
    prevs ← (match b.(pprev) with
             | None => Some st.(mapPrevBlockIndex)
             | Some prev => pb ← s !! prev; h ← pb.(phashBlock); Some ((h, pnew) :: st.(mapPrevBlockIndex))
             end);
    Some (pnew, ChainState s map (Some best) ({[pnew]} ∪ st.(setDirtyBlockIndex)) prevs)
  end.

End Index.

(** The header of a block, put together from its object and the one before *)
Definition index_GetBlockHeader (switch : Z) (s : store) (b : CBlockIndex) : option CBlockHeader :=
  let h := make_CBlockHeader in
  prev ← (match b.(pprev) with None => Some h.(hashPrevBlock) | Some q => pb ← s !! q; pb.(phashBlock) end);
  let h := BlockHeader b.(bi_nVersion) prev b.(bi_hashMerkleRoot) b.(bi_nTime) b.(bi_nBits) b.(bi_nNonce)
             h.(nVersionMTP) h.(mtpHashValue) h.(reserved0) h.(reserved1) h.(mtpHashData) h.(cachedPoWHash) in
  if IsMTP switch h then
    Some (BlockHeader h.(nVersion) h.(hashPrevBlock) h.(hashMerkleRoot) h.(nTime) h.(nBits) h.(nNonce)
            b.(bi_nVersionMTP) b.(bi_mtpHashValue) b.(bi_reserved0) b.(bi_reserved1) h.(mtpHashData) h.(cachedPoWHash))
  else Some h.

(** ** CChain *)

Abbreviation CChain := (list (option ptr)).

Definition chain_Genesis (c : CChain) : option ptr := match c with [] => None | p :: _ => p end.
Definition chain_Tip (c : CChain) : option ptr := last c None.
Definition chain_at (c : CChain) (height : Z) : option ptr :=
  if (height <? 0) || (Z.of_nat (length c) <=? height) then None else mjoin (c !! Z.to_nat height).
Definition chain_Height (c : CChain) : Z := Z.of_nat (length c) - 1.
Definition Contains (s : store) (c : CChain) (p : ptr) : option bool := b ← s !! p; Some (bool_decide (chain_at c b.(nHeight) = Some p)).
Definition Next (s : store) (c : CChain) (p : ptr) : option (option ptr) :=
  found ← Contains s c p;
  match found with
  | true => b ← s !! p; Some (chain_at c (b.(nHeight) + 1))
  | false => Some None
  end.

(** operator==: of two chains of the same size the last entries are compared, and an empty
    chain has none. *)
Definition chain_equal (a b : CChain) : option bool :=
  if negb (length a =? length b)%nat then Some false
  else if (length a =? 0)%nat then None
  else x ← a !! (length a - 1)%nat; y ← b !! (length b - 1)%nat; Some (bool_decide (x = y)).

(** [vChain.resize(n)] *)
Definition vChain_resize (n : nat) (c : CChain) : CChain := take n c ++ replicate (n - length c) None.

(** [while (pindex && vChain[pindex->nHeight] != pindex)]; the height falls. *)
Fixpoint tip_loop (fuel : nat) (s : store) (c : CChain) (pindex : option ptr) : option CChain :=
  match pindex with
  | None => Some c
  | Some p =>
    b ← s !! p;
    e ← c !! Z.to_nat b.(nHeight);
    if bool_decide (e = Some p) then Some c
    else match fuel with
         | O => None
         | S fuel => tip_loop fuel s (<[Z.to_nat b.(nHeight) := Some p]> c) b.(pprev)
         end
  end.
Definition SetTip (s : store) (c : CChain) (pindex : option ptr) : option CChain :=
  match pindex with
  | None => Some []
  | Some p => b ← s !! p; tip_loop (Z.to_nat b.(nHeight) + 1) s (vChain_resize (Z.to_nat b.(nHeight) + 1) c) pindex
  end.

(** [while (pindex && !Contains(pindex)) pindex = pindex->pprev;] *)
Fixpoint fork_loop (fuel : nat) (s : store) (c : CChain) (pindex : option ptr) : option (option ptr) :=
  match pindex with
  | None => Some None
  | Some p =>
    found ← Contains s c p;
    match found, fuel with
    | true, _ => Some (Some p)
    | false, O => None
    | false, S fuel => b ← s !! p; fork_loop fuel s c b.(pprev)
    end
  end.
Definition FindFork (s : store) (c : CChain) (pindex : option ptr) : option (option ptr) :=
  match pindex with
  | None => Some None
  | Some p =>
    b ← s !! p;
    q ← (if chain_Height c <? b.(nHeight) then GetAncestor s p (chain_Height c) else Some (Some p));
    fork_loop (Z.to_nat b.(nHeight) + 1) s c q
  end.

(** [std::lower_bound]: the range of [len] entries from [first] is halved. *)
Fixpoint lower_bound (fuel : nat) (below : nat -> option bool) (first len : nat) : option nat :=
  match len, fuel with
  | O, _ => Some first
  | _, O => None
  | _, S fuel =>
    let half := (len / 2)%nat in
    b ← below (first + half)%nat;
    match b with
    | true => lower_bound fuel below (first + half + 1) (len - half - 1)
    | false => lower_bound fuel below first half
    end
  end.
Definition FindEarliestAtLeast (s : store) (c : CChain) (time : Z) : option (option ptr) :=
  i ← lower_bound (length c) (fun i => p ← mjoin (c !! i); b ← s !! p; Some (b.(nTimeMax) <? time)) 0 (length c);
  Some (mjoin (c !! i)).

(** [while (pindex)]; the height falls by at least one in every turn. *)
Fixpoint locator_loop (fuel : nat) (s : store) (c : CChain) (pindex : option ptr) (nStep : Z) (vHave : list (list Z)) : option (list (list Z)) :=
  match pindex with
  | None => Some vHave
  | Some p =>
    b ← s !! p;
    h ← b.(phashBlock);
    let vHave := vHave ++ [h] in
    if b.(nHeight) =? 0 then Some vHave
    else match fuel with
         | O => None
         | S fuel =>
           let height := Z.max (b.(nHeight) - nStep) 0 in
           found ← Contains s c p;
           q ← (match found with true => Some (chain_at c height) | false => GetAncestor s p height end);
           if (10 <? length vHave)%nat then
             if int_max <? nStep * 2 then None else locator_loop fuel s c q (nStep * 2) vHave
           else locator_loop fuel s c q nStep vHave
         end
  end.
Definition GetLocator (s : store) (c : CChain) (pindex : option ptr) : option (list (list Z)) :=
  let pindex := match pindex with None => chain_Tip c | Some p => Some p end in
  match pindex with
  | None => Some []
  | Some p => b ← s !! p; locator_loop (Z.to_nat b.(nHeight)) s c pindex 1 []
  end.

Fixpoint FindForkInGlobalIndex (st : chain_state) (c : CChain) (vHave : list (list Z)) : option (option ptr) :=
  match vHave with
  | [] => Some (chain_Genesis c)
  | hash :: vHave =>
    match st.(mapBlockIndex) !! hash with
    | None => FindForkInGlobalIndex st c vHave
    | Some p =>
      found ← Contains st.(blocks) c p;
      match found with
      | true => Some (Some p)
      | false =>
        a ← GetAncestor st.(blocks) p (chain_Height c);
        if bool_decide (a = chain_Tip c) then Some (chain_Tip c) else FindForkInGlobalIndex st c vHave
      end
    end
  end.

(** [while (pa != pb && pa && pb)], and the assertion after it *)
Fixpoint common_loop (fuel : nat) (s : store) (pa pb : option ptr) : option (option ptr) :=
  if bool_decide (pa = pb) then Some pa
  else
    match pa, pb, fuel with
    | Some a, Some b, S fuel => xa ← s !! a; xb ← s !! b; common_loop fuel s xa.(pprev) xb.(pprev)
    | _, _, _ => None
    end.
Definition LastCommonAncestor (s : store) (pa pb : ptr) : option (option ptr) :=
  a ← s !! pa;
  b ← s !! pb;
  '(qa, qb) ← (if b.(nHeight) <? a.(nHeight) then q ← GetAncestor s pa b.(nHeight); Some (q, Some pb)
               else if a.(nHeight) <? b.(nHeight) then q ← GetAncestor s pb a.(nHeight); Some (Some pa, q)
               else Some (Some pa, Some pb));
  common_loop (Z.to_nat a.(nHeight) + 1) s qa qb.
