(* ===== verification/ChainClaims.v ===== *)
(** The index of blocks: the invariant of its trees, ancestors by skip pointers, the
    active chain and its forks, and the work of blocks. *)

From stdpp Require Import gmap sorting.
From S2P Require Import Prelude MdHash Hash Scrypt Arith256 Arith256Proofs Arith256Compact Serialize SerializeProofs Block BlockProofs BlockClaims Pow PowClaims HashClaims Chain.

(** ** Walking back *)

(** The block [n] steps before [p], by [pprev] alone *)
Fixpoint up (s : store) (p : ptr) (n : nat) : option ptr :=
  match n with O => Some p | S n => b ← s !! p; q ← b.(pprev); up s q n end.

(** An object that is linked to one created before it *)
Definition node_ok (s : store) (p : ptr) (b : CBlockIndex) : Prop :=
  match b.(pprev) with
  | None => b.(nHeight) = 0 /\ b.(pskip) = None
  | Some q => (q < p)%nat /\ exists pb, s !! q = Some pb /\ b.(nHeight) = pb.(nHeight) + 1 /\ b.(pskip) = up s q (Z.to_nat (pb.(nHeight) - GetSkipHeight b.(nHeight)))
  end.

(** The first [m] objects of the store are trees. *)
Definition tree_upto (s : store) (m : nat) : Prop := forall p b, (p < m)%nat -> s !! p = Some b -> node_ok s p b.
Definition tree_ok (s : store) : Prop := tree_upto s (length s).

Lemma up_add s a : forall p b, up s p (a + b) = (q ← up s p a; up s q b).
Proof.
  induction a as [|a IH]; intros p b; cbn [Nat.add up]; [done|]; destruct (s !! p) as [x|]; cbn; [|done].
  destruct (pprev x) as [q|]; cbn; [apply IH|done].
Qed.

Lemma InvertLowestOne_bounds n : 1 <= n -> 0 <= InvertLowestOne n <= n - 1.
Proof.
  intros Hn; unfold InvertLowestOne; split; [apply Z.land_nonneg; lia|].
  assert (H : Z.land n (n - 1) + Z.land (Z.lnot n) (n - 1) = n - 1); [|pose proof (Z.land_nonneg (Z.lnot n) (n - 1)); lia].
  rewrite Z.add_nocarry_lxor.
  - apply Z.bits_inj'; intros i Hi; rewrite Z.lxor_spec, !Z.land_spec, Z.lnot_spec by lia; by destruct (Z.testbit n i), (Z.testbit (n - 1) i).
  - apply Z.bits_inj'; intros i Hi; rewrite !Z.land_spec, Z.lnot_spec, Z.bits_0 by lia; by destruct (Z.testbit n i), (Z.testbit (n - 1) i).
Qed.

Lemma GetSkipHeight_bounds h : 1 <= h -> 0 <= GetSkipHeight h < h.
Proof.
  intros Hh; unfold GetSkipHeight; destruct (Z.ltb_spec h 2); [lia|]; destruct (negb _); [|pose proof (InvertLowestOne_bounds h); lia].
  pose proof (InvertLowestOne_bounds (h - 1) ltac:(lia)) as H1; destruct (Z.eq_dec (InvertLowestOne (h - 1)) 0) as [->|]; [change (InvertLowestOne 0) with 0; lia|].
  pose proof (InvertLowestOne_bounds (InvertLowestOne (h - 1)) ltac:(lia)); lia.
Qed.

Section Tree.
Context (s : store) (m : nat) (Hs : tree_upto s m).

Lemma node_height p b : (p < m)%nat -> s !! p = Some b -> 0 <= b.(nHeight) <= Z.of_nat p.
Proof.
  revert b; induction p as [p IH] using lt_wf_ind; intros b Hp Hb; pose proof (Hs p b Hp Hb) as Hn; unfold node_ok in Hn.
  destruct b.(pprev) as [q|]; [|lia]; destruct Hn as (Hq & pb & Hpb & Hh & _); pose proof (IH q Hq pb ltac:(lia) Hpb); lia.
Qed.

(** Inside of a tree the walk succeeds, and every step lowers the height by one. *)
Lemma up_spec n : forall p b, (p < m)%nat -> s !! p = Some b -> Z.of_nat n <= b.(nHeight) ->
  exists q bq, up s p n = Some q /\ (q <= p)%nat /\ s !! q = Some bq /\ bq.(nHeight) = b.(nHeight) - Z.of_nat n.
Proof.
  induction n as [|n IH]; intros p b Hp Hb Hn; [exists p, b; split_and!; [done|lia|done|lia]|]; cbn [up]; rewrite Hb; cbn [mbind option_bind].
  pose proof (Hs p b Hp Hb) as Hk; unfold node_ok in Hk; destruct b.(pprev) as [q|]; [|lia]; destruct Hk as (Hq & pb & Hpb & Hh & _).
  destruct (IH q pb ltac:(lia) Hpb ltac:(lia)) as (r & br & E & Hr & Hbr & Hhr); exists r, br; split_and!; [done|lia|done|lia].
Qed.

Lemma skip_spec p b k : (p < m)%nat -> s !! p = Some b -> b.(pskip) = Some k ->
  0 <= GetSkipHeight b.(nHeight) < b.(nHeight) /\ up s p (Z.to_nat (b.(nHeight) - GetSkipHeight b.(nHeight))) = Some k.
Proof.
  intros Hp Hb Hk; pose proof (Hs p b Hp Hb) as Hn; unfold node_ok in Hn; destruct b.(pprev) as [q|] eqn:Eq; [|destruct Hn; congruence].
  destruct Hn as (Hq & pb & Hpb & Hh & Hsk); pose proof (node_height q pb ltac:(lia) Hpb); pose proof (GetSkipHeight_bounds b.(nHeight) ltac:(lia)); split; [done|].
  replace (Z.to_nat (b.(nHeight) - GetSkipHeight b.(nHeight))) with (S (Z.to_nat (pb.(nHeight) - GetSkipHeight b.(nHeight)))) by lia.
  cbn [up]; rewrite Hb; cbn [mbind option_bind]; rewrite Eq; cbn [mbind option_bind]; congruence.
Qed.

Lemma up_split p n k : (k <= n)%nat -> up s p n = (q ← up s p k; up s q (n - k)).
Proof. intros Hk; rewrite <- up_add; f_equal; lia. Qed.

Lemma ancestor_loop_spec fuel : forall w b height, (w < m)%nat -> s !! w = Some b -> 0 <= height <= b.(nHeight) -> (Z.to_nat (b.(nHeight) - height) <= fuel)%nat ->
  ancestor_loop fuel s w b.(nHeight) height = up s w (Z.to_nat (b.(nHeight) - height)).
Proof.
  induction fuel as [|fuel IH]; intros w b height Hw Hb Hh Hf; cbn [ancestor_loop].
  { rewrite (proj2 (Z.ltb_ge _ _)) by lia; replace (Z.to_nat _) with 0%nat by lia; done. }
  destruct (Z.ltb_spec height b.(nHeight)) as [Hlt|Hge]; [|replace (Z.to_nat _) with 0%nat by lia; done]; rewrite Hb; cbn [mbind option_bind].
  assert (Hprev : (prev ← b.(pprev); ancestor_loop fuel s prev (b.(nHeight) - 1) height) = up s w (Z.to_nat (b.(nHeight) - height))).
  { pose proof (Hs w b Hw Hb) as Hn; unfold node_ok in Hn; destruct b.(pprev) as [q|] eqn:Eq; [|lia]; destruct Hn as (Hq & pb & Hpb & Hhp & _); cbn [mbind option_bind].
    replace (b.(nHeight) - 1) with pb.(nHeight) by lia; rewrite IH by (done || lia); replace (Z.to_nat (b.(nHeight) - height)) with (S (Z.to_nat (pb.(nHeight) - height))) by lia.
    cbn [up]; rewrite Hb; cbn [mbind option_bind]; by rewrite Eq. }
  destruct b.(pskip) as [k|] eqn:Ek; [|exact Hprev]; destruct (_ || _) eqn:Ec; [|exact Hprev]; clear Hprev.
  destruct (skip_spec w b k Hw Hb Ek) as [Hsk Hup]; set (hs := GetSkipHeight b.(nHeight)) in *.
  assert (Hge : height <= hs) by (apply orb_true_iff in Ec as [Ec%Z.eqb_eq|[Ec%Z.ltb_lt _]%andb_true_iff]; lia).
  destruct (up_spec (Z.to_nat (b.(nHeight) - hs)) w b Hw Hb ltac:(lia)) as (k' & bk & Ek' & Hk' & Hbk & Hhk); rewrite Hup in Ek'; injection Ek' as <-.
  replace hs with bk.(nHeight) by lia; rewrite IH by (done || lia); rewrite (up_split w (Z.to_nat (b.(nHeight) - height)) (Z.to_nat (b.(nHeight) - hs))) by lia.
  rewrite Hup; cbn [mbind option_bind]; f_equal; lia.
Qed.

Lemma GetAncestor_spec p b height : (p < m)%nat -> s !! p = Some b ->
  GetAncestor s p height = Some (if (0 <=? height) && (height <=? b.(nHeight)) then up s p (Z.to_nat (b.(nHeight) - height)) else None).
Proof.
  intros Hp Hb; unfold GetAncestor; rewrite Hb; cbn [mbind option_bind]; rewrite (Z.ltb_antisym height b.(nHeight)), (Z.ltb_antisym 0 height).
  destruct (Z.leb_spec height b.(nHeight)), (Z.leb_spec 0 height); cbn [negb orb andb]; [|done..].
  rewrite ancestor_loop_spec by (done || lia); destruct (up_spec (Z.to_nat (b.(nHeight) - height)) p b Hp Hb ltac:(lia)) as (q & bq & -> & _); done.
Qed.
End Tree.

(** ** Work *)

(** The expected number of hashes for a compact target *)
Definition exact_target (bits : Z) : Z := compact_value (mantissa bits) (size bits).
Definition block_work (bits : Z) : Z :=
  if sign bits || (exact_target bits =? 0) || (2 ^ 256 <=? exact_target bits) then 0 else 2 ^ 256 / (exact_target bits + 1).

Lemma exact_not_full bits : word 32 bits -> 0 <= exact_target bits /\ exact_target bits <> 2 ^ 256 - 1.
Proof.
  intros Hb; unfold word in Hb; unfold exact_target, compact_value.
  assert (Hm : 0 <= mantissa bits < 2 ^ 23) by (apply Z.mod_pos_bound; lia); assert (Hs : 0 <= size bits) by (apply Z.div_pos; lia).
  rewrite pow256 by lia; change (256 ^ 3) with (2 ^ 24); pose proof (Z.pow_pos_nonneg 2 (8 * size bits) ltac:(lia) ltac:(lia)) as Hp; split; [apply Z.div_pos; [nia|lia]|].
  destruct (Z.le_gt_cases 4 (size bits)) as [H4|H4]; intros E.
  - replace (8 * size bits) with (8 * (size bits - 4) + 8 + 24) in E by lia; rewrite !Z.pow_add_r, !Z.mul_assoc, Z.div_mul in E by lia.
    apply (f_equal (fun x => x mod 2 ^ 8)) in E; rewrite Z.mod_mul in E by lia; discriminate E.
  - pose proof (Z.pow_le_mono_r 2 (8 * size bits) 24 ltac:(lia) ltac:(lia)).
    assert (mantissa bits * 2 ^ (8 * size bits) / 2 ^ 24 < 2 ^ 23) by (apply Z.div_lt_upper_bound; nia); lia.
Qed.

Lemma GetBlockProof_spec bits : word 32 bits -> exists w, GetBlockProof bits = Some w /\ uint 8 w /\ value w = block_work bits.
Proof.
  intros Hb; destruct (SetCompact_spec bits Hb) as (Hu & Hv & Hn & Ho), (exact_not_full bits Hb) as [H0 Hfull]; fold (exact_target bits) in *; set (t := exact_target bits) in *.
  unfold GetBlockProof, block_work; fold t; rewrite Hn, Ho, EqualTo_spec, Hv by (done || lia || (unfold word; lia)); change WIDTH256 with 8%nat in *.
  destruct (Z.eqb_spec t 0) as [Ht|Ht]; cbn [negb]; rewrite ?andb_false_r, ?andb_true_r, ?orb_true_r, ?orb_false_r.
  { rewrite Ht; change (0 mod 2 ^ 256 =? 0) with true; rewrite orb_true_r; exists (of_uint64 8 0); split; [done|]; by apply value_of_uint64; [lia|]. }
  destruct (Z.leb_spec (2 ^ 256) t) as [Hbig|Hsmall].
  { rewrite !orb_true_r; exists (of_uint64 8 0); split; [done|]; by apply value_of_uint64; [lia|]. }
  rewrite Z.mod_small in Hv by lia; rewrite (Z.mod_small t) by lia; rewrite (proj2 (Z.eqb_neq t 0)) by done; rewrite !orb_false_r.
  destruct (sign bits); [exists (of_uint64 8 0); split; [done|]; by apply value_of_uint64; [lia|]|].
  destruct (value_of_uint64 8 1 ltac:(lia) ltac:(unfold word; lia)) as [Hu1 Hv1]; fold one256 in Hu1, Hv1.
  destruct (complement_spec 8 _ Hu) as [Huc Hvc], (add_spec 8 _ _ Hu Hu1) as [Hua Hva]; rewrite Hv, Hv1 in Hva; rewrite Hv in Hvc; change (modulus 8) with (2 ^ 256) in *.
  rewrite Z.mod_small in Hva by lia; pose proof (divide_spec 8 _ _ ltac:(lia) Huc Hua) as Hd.
  destruct (divide 8 _ _) as [q|]; [|lia]; destruct Hd as (_ & Huq & Hvq); cbn [mbind option_bind]; rewrite Hvc, Hva in Hvq.
  destruct (add_spec 8 q _ Huq Hu1) as [Hur Hvr]; eexists; split; [done|]; split; [exact Hur|]; rewrite Hvr, Hvq, Hv1; change (modulus 8) with (2 ^ 256).
  assert (E : (2 ^ 256 - 1 - t) / (t + 1) + 1 = 2 ^ 256 / (t + 1)).
  { replace (2 ^ 256 - 1 - t) with (2 ^ 256 + -1 * (t + 1)) by lia; rewrite Z.div_add by lia; lia. }
  rewrite E; apply Z.mod_small; split; [apply Z.div_pos; lia|apply Z.div_lt; lia].
Qed.

(** ** The index *)

Section Extend.
Context (l : store) (Hl : tree_ok l).

Lemma lookup_old x p : (p < length l)%nat -> (l ++ [x]) !! p = l !! p.
Proof. intros; by apply lookup_app_l. Qed.

Lemma up_ext x n : forall p, (p < length l)%nat -> up (l ++ [x]) p n = up l p n.
Proof.
  induction n as [|n IH]; intros p Hp; [done|]; destruct (lookup_lt_is_Some_2 l p Hp) as [b Hb]; cbn [up]; rewrite (lookup_old x p Hp), Hb; cbn [mbind option_bind].
  pose proof (Hl p b Hp Hb) as Hn; unfold node_ok in Hn; destruct b.(pprev) as [q|]; [|done]; destruct Hn as [Hq _]; cbn [mbind option_bind]; apply IH; lia.
Qed.

Lemma tree_ext x : tree_upto (l ++ [x]) (length l).
Proof.
  intros p b Hp Hb; rewrite lookup_old in Hb by done; pose proof (Hl p b Hp Hb) as Hn; unfold node_ok in *; destruct b.(pprev) as [q|]; [|done].
  destruct Hn as (Hq & pb & Hpb & Hh & Hk); split; [done|]; exists pb; rewrite lookup_old, up_ext by lia; done.
Qed.

Lemma tree_app x : node_ok (l ++ [x]) (length l) x -> tree_ok (l ++ [x]).
Proof.
  intros Hx p b Hp Hb; rewrite length_app in Hp; cbn in Hp; destruct (decide (p = length l)) as [->|]; [|apply tree_ext; [lia|done]].
  rewrite lookup_app_r, Nat.sub_diag in Hb by lia; cbn in Hb; by simplify_eq.
Qed.
End Extend.

Lemma insert_end {A} (l : list A) x y : <[length l := y]> (l ++ [x]) = l ++ [y].
Proof. by rewrite insert_app_r_alt, Nat.sub_diag by lia. Qed.

Lemma lookup_end {A} (l : list A) x : (l ++ [x]) !! length l = Some x.
Proof. by rewrite lookup_app_r, Nat.sub_diag by lia. Qed.

(** What the totals of a block are *)
Definition totals_ok (s : store) (b : CBlockIndex) : Prop :=
  uint 8 b.(nChainWork) /\
  match b.(pprev) with
  | None => value b.(nChainWork) = block_work b.(bi_nBits) /\ b.(nTimeMax) = b.(bi_nTime)
  | Some q => exists pb, s !! q = Some pb /\ value b.(nChainWork) = (value pb.(nChainWork) + block_work b.(bi_nBits)) mod 2 ^ 256 /\ b.(nTimeMax) = Z.max pb.(nTimeMax) b.(bi_nTime)
  end.

Lemma less_spec w a b : uint w a -> uint w b -> less w a b = (value a <? value b).
Proof. intros Ha Hb; unfold less; rewrite CompareTo_spec by done; by destruct (Z.compare_spec (value a) (value b)), (Z.ltb_spec (value a) (value b)); try lia. Qed.

(** The object that is added below [prev] *)
Lemma accumulate_spec (l : store) b : word 32 b.(bi_nBits) -> (forall q, b.(pprev) = Some q -> exists pb, l !! q = Some pb /\ uint 8 pb.(nChainWork)) ->
  exists work tmax, accumulate (l ++ [b]) (length l) = Some (l ++ [set_totals b work tmax]) /\ forall x, totals_ok (l ++ [x]) (set_totals b work tmax).
Proof.
  intros Hb Hq; unfold accumulate; rewrite lookup_end; cbn [mbind option_bind]; destruct (GetBlockProof_spec b.(bi_nBits) Hb) as (w & -> & Hw & Hv); cbn [mbind option_bind].
  change WIDTH256 with 8%nat; destruct b.(pprev) as [q|] eqn:Eq.
  - destruct (Hq q eq_refl) as (pb & Hpb & Hu); assert (Hlt : (q < length l)%nat) by (by apply lookup_lt_Some in Hpb).
    rewrite lookup_app_l, Hpb by done; cbn [mbind option_bind]; destruct (add_spec 8 _ _ Hu Hw) as [Hua Hva].
    do 2 eexists; split; [by rewrite insert_end|]; intros x; split; [done|]; cbn [set_totals pprev nChainWork bi_nBits nTimeMax bi_nTime]; rewrite Eq.
    exists pb; split; [by rewrite lookup_app_l|]; split; [by rewrite Hva, Hv|done].
  - destruct (value_of_uint64 8 0 ltac:(lia) ltac:(unfold word; lia)) as [H0 V0]; destruct (add_spec 8 _ _ H0 Hw) as [Hua Hva].
    do 2 eexists; split; [by rewrite insert_end|]; intros x; split; [done|]; cbn [set_totals pprev nChainWork bi_nBits nTimeMax bi_nTime]; rewrite Eq.
    split; [|done]; rewrite Hva, V0, <- Hv; apply Z.mod_small; pose proof (uint_bound 8 w Hw); lia.
Qed.

Lemma link_spec (l : store) b q pb : tree_ok l -> l !! q = Some pb -> pb.(nHeight) < int_max ->
  exists skip, link (l ++ [b]) (length l) q = Some (l ++ [set_skip (set_prev b q (pb.(nHeight) + 1)) skip]) /\
    skip = up l q (Z.to_nat (pb.(nHeight) - GetSkipHeight (pb.(nHeight) + 1))).
Proof.
  intros Hl Hq Hh; assert (Hlt : (q < length l)%nat) by (by apply lookup_lt_Some in Hq); pose proof (node_height l (length l) Hl q pb Hlt Hq).
  unfold link; rewrite lookup_end; cbn [mbind option_bind]; rewrite lookup_app_l, Hq by done; cbn [mbind option_bind]; rewrite (proj2 (Z.ltb_ge _ _)) by lia.
  rewrite insert_end; unfold BuildSkip; rewrite lookup_end; cbn [mbind option_bind set_prev pprev nHeight].
  rewrite (GetAncestor_spec _ (length l) (tree_ext l Hl _) q pb) by (done || by rewrite lookup_app_l); cbn [mbind option_bind]; rewrite insert_end.
  pose proof (GetSkipHeight_bounds (pb.(nHeight) + 1) ltac:(lia)); rewrite (proj2 (Z.leb_le _ _)), (proj2 (Z.leb_le _ _)) by lia; cbn [andb].
  rewrite up_ext by done; eexists; split; done.
Qed.

Section Index.
Context (params : Consensus) (ubuf : list Z) (Hubuf : length ubuf = 64%nat).
Abbreviation switch := params.(nMTPSwitchTime).

(** The name of a header *)
Definition header_id (h : CBlockHeader) : list Z := hash256 (hashed_bytes switch h).

(** No header names itself as the one before it. *)
Definition header_ok (h : CBlockHeader) : Prop := fields_wf h /\ mtp_fields_wf h /\ header_id h <> h.(hashPrevBlock).

Lemma header_id_bytes h h' : hashed_bytes switch h = hashed_bytes switch h' -> header_id h = header_id h'.
Proof. intros E; unfold header_id; by rewrite E. Qed.

Lemma GetHash_spec h : fields_wf h -> mtp_fields_wf h -> GetHash params ubuf h = Some (header_id h).
Proof.
  intros Hf Hm; unfold GetHash; rewrite Serialize_hash_spec; cbn [mbind option_bind write vch]; rewrite app_nil_l; unfold header_id; f_equal.
  assert (Hs : short (hashed_bytes switch h)).
  { unfold short, hashed_bytes; rewrite length_app, (proj2 (fields_bytes_words h Hf)); destruct (IsMTP switch h); [rewrite (proj2 (mtp_fields_bytes_words h Hm))|cbn]; lia. }
  pose proof (writes_hold V_SHA256 ubuf [hashed_bytes switch h] Hubuf) as Hw; cbn [concat fold_left] in Hw; rewrite app_nil_r in Hw.
  exact (proj1 (CHash256_Finalize_spec _ _ (Hw Hs) Hs)).
Qed.

Lemma header_id_blob h : fields_wf h -> mtp_fields_wf h -> blob 32 (header_id h).
Proof.
  intros Hf Hm; pose proof (GetHash_spec h Hf Hm) as E; unfold GetHash in E; rewrite Serialize_hash_spec in E; cbn [mbind option_bind write vch] in E; injection E as <-.
  unfold HashWriter_GetHash, CHash256_Finalize; destruct (Finalize _) as [buf sha]; apply sha256_bytes.
Qed.

#[local] Opaque header_id hash256.

(** The place of the header with a given name *)
Fixpoint find_id (gs : list CBlockHeader) (id : list Z) : option nat :=
  match gs with [] => None | g :: gs => if decide (header_id g = id) then Some O else S <$> find_id gs id end.

Lemma find_id_app gs g id : find_id (gs ++ [g]) id = match find_id gs id with Some p => Some p | None => if decide (header_id g = id) then Some (length gs) else None end.
Proof. induction gs as [|x gs IH]; cbn; [by destruct (decide _)|]; destruct (decide (header_id x = id)); [done|]; rewrite IH; destruct (find_id gs id); [done|]; by destruct (decide _). Qed.

Lemma find_id_lookup gs id p : find_id gs id = Some p -> exists g, gs !! p = Some g /\ header_id g = id.
Proof.
  revert p; induction gs as [|x gs IH]; intros p E; cbn in E; [done|]; destruct (decide (header_id x = id)); [simplify_eq; by exists x|].
  destruct (find_id gs id) as [q|]; [|done]; cbn in E; injection E as <-; apply IH; done.
Qed.

(** An object and the header it was made from, after the headers [gs] *)
Record entry_ok (gs : list CBlockHeader) (g : CBlockHeader) (b : CBlockIndex) : Prop := {
  en_hash : b.(phashBlock) = Some (header_id g);
  en_prev : b.(pprev) = find_id gs g.(hashPrevBlock);
  en_header : b.(bi_nVersion) = g.(nVersion) /\ b.(bi_hashMerkleRoot) = g.(hashMerkleRoot) /\ b.(bi_nTime) = g.(nTime) /\ b.(bi_nBits) = g.(nBits) /\ b.(bi_nNonce) = g.(nNonce);
  en_mtp : IsMTP switch g = true -> b.(bi_nVersionMTP) = g.(nVersionMTP) /\ b.(bi_mtpHashValue) = g.(mtpHashValue) /\ b.(bi_reserved0) = g.(reserved0) /\ b.(bi_reserved1) = g.(reserved1)
}.

(** The index of the headers [gs], in the order in which they were accepted *)
Record index_ok (gs : list CBlockHeader) (st : chain_state) : Prop := {
  ix_length : length st.(blocks) = length gs;
  ix_entry : forall p b g, st.(blocks) !! p = Some b -> gs !! p = Some g -> entry_ok (take p gs) g b;
  ix_map : forall id, st.(mapBlockIndex) !! id = find_id gs id;
  ix_distinct : forall p g, gs !! p = Some g -> find_id gs (header_id g) = Some p;
  ix_tree : tree_ok st.(blocks);
  ix_totals : forall p b, st.(blocks) !! p = Some b -> totals_ok st.(blocks) b;
  ix_valid : forall p b, st.(blocks) !! p = Some b -> IsValid b BLOCK_VALID_TREE = Some true;
  ix_best : match st.(pindexBestHeader) with
            | None => st.(blocks) = []
            | Some q => exists bq, st.(blocks) !! q = Some bq /\ forall p b, st.(blocks) !! p = Some b ->
                          value b.(nChainWork) <= value bq.(nChainWork) /\ (value b.(nChainWork) = value bq.(nChainWork) -> (q <= p)%nat)
            end;
  ix_prevs : forall p h, In (h, p) st.(mapPrevBlockIndex) <-> exists b q bq, st.(blocks) !! p = Some b /\ b.(pprev) = Some q /\ st.(blocks) !! q = Some bq /\ bq.(phashBlock) = Some h
}.

Section Step.
Context (gs : list CBlockHeader) (st : chain_state) (Hst : index_ok gs st) (g : CBlockHeader) (Hg : header_ok g) (Hnew : find_id gs (header_id g) = None).
Abbreviation l := st.(blocks).

Lemma found_block id q : find_id gs id = Some q -> exists b, l !! q = Some b /\ b.(phashBlock) = Some id.
Proof.
  intros E; destruct (find_id_lookup _ _ _ E) as (h & Hh & <-); destruct (lookup_lt_is_Some_2 l q) as [b Hb]; [rewrite (ix_length _ _ Hst); by apply lookup_lt_Some in Hh|].
  exists b; split; [done|]; exact (en_hash _ _ _ (ix_entry _ _ Hst q b h Hb Hh)).
Qed.

Lemma attach_spec : Z.of_nat (length l) <= int_max ->
  let b0 := set_hash (make_CBlockIndex switch g) (header_id g) in
  exists b, match find_id gs g.(hashPrevBlock) with Some prev => link (l ++ [b0]) (length l) prev | None => Some (l ++ [b0]) end = Some (l ++ [b]) /\
    entry_ok gs g b /\ b.(nStatus) = 0 /\ forall x, node_ok (l ++ [x]) (length l) b.
Proof.
  intros Hmax b0; assert (He : entry_ok gs g (BlockIndex b0.(phashBlock) (find_id gs g.(hashPrevBlock)) None 0 [] 0 b0.(bi_nVersion) b0.(bi_hashMerkleRoot) b0.(bi_nTime) b0.(bi_nBits) b0.(bi_nNonce)
    b0.(bi_nVersionMTP) b0.(bi_mtpHashValue) b0.(bi_reserved0) b0.(bi_reserved1) 0 0)) by (split; [done..|]; cbn; intros ->; done).
  destruct (find_id gs g.(hashPrevBlock)) as [q|] eqn:Eq; [|exists b0; split; [done|]; split; [destruct He; split; (done || by rewrite Eq)|done]].
  destruct (found_block _ _ Eq) as (pb & Hq & _); assert (Hlt : (q < length l)%nat) by (by apply lookup_lt_Some in Hq); pose proof (node_height _ _ (ix_tree _ _ Hst) q pb Hlt Hq).
  destruct (link_spec l b0 q pb (ix_tree _ _ Hst) Hq ltac:(lia)) as (skip & -> & ->); eexists; split; [done|]; split; [destruct He; split; (done || by rewrite Eq)|].
  split; [done|]; intros x; cbn; split; [done|]; exists pb; rewrite lookup_old, (up_ext l (ix_tree _ _ Hst)) by done; done.
Qed.

Lemma totals_app b x : totals_ok l b -> totals_ok (l ++ [x]) b.
Proof.
  intros [Hu Ht]; split; [done|]; destruct b.(pprev) as [q|]; [|done]; destruct Ht as (pb & Hq & Ht); exists pb; split; [|done].
  rewrite lookup_old; [done|by apply lookup_lt_Some in Hq].
Qed.

(** The header with the most work, and the multimap of successors, are found. *)
Lemma best_spec (b : CBlockIndex) : exists best : ptr,
  (match st.(pindexBestHeader) with
   | None => Some (length l)
   | Some best => bb ← (l ++ [b]) !! best; Some (if less WIDTH256 bb.(nChainWork) b.(nChainWork) then length l else best)
   end) = Some best /\
  match st.(pindexBestHeader) with
  | None => best = length l
  | Some q => exists bq, l !! q = Some bq /\ best = if less WIDTH256 bq.(nChainWork) b.(nChainWork) then length l else q
  end.
Proof.
  pose proof (ix_best _ _ Hst) as Hb; destruct (pindexBestHeader st) as [q|]; [|by eexists]; destruct Hb as (bq & Hq & _).
  rewrite lookup_old by (by apply lookup_lt_Some in Hq); rewrite Hq; cbn [mbind option_bind]; eexists; split; [done|]; by exists bq.
Qed.

Lemma prevs_spec (b : CBlockIndex) : entry_ok gs g b -> exists prevs : list (list Z * ptr),
  (match b.(pprev) with
   | None => Some st.(mapPrevBlockIndex)
   | Some prev => pb ← (l ++ [b]) !! prev; h ← pb.(phashBlock); Some ((h, length l) :: st.(mapPrevBlockIndex))
   end) = Some prevs /\
  match b.(pprev) with
  | None => prevs = st.(mapPrevBlockIndex)
  | Some q => exists bq h, l !! q = Some bq /\ bq.(phashBlock) = Some h /\ prevs = (h, length l) :: st.(mapPrevBlockIndex)
  end.
Proof.
  intros He; rewrite (en_prev _ _ _ He); destruct (find_id gs g.(hashPrevBlock)) as [q|] eqn:Eq; [|by eexists]; destruct (found_block _ _ Eq) as (bq & Hq & Hh).
  rewrite lookup_old by (by apply lookup_lt_Some in Hq); rewrite Hq; cbn [mbind option_bind]; rewrite Hh; cbn [mbind option_bind]; eexists; split; [done|]; by exists bq, (hashPrevBlock g).
Qed.

Lemma prevs_app b p h : node_ok (l ++ [b]) (length l) b ->
  (exists x q bq, (l ++ [b]) !! p = Some x /\ x.(pprev) = Some q /\ (l ++ [b]) !! q = Some bq /\ bq.(phashBlock) = Some h) <->
  In (h, p) st.(mapPrevBlockIndex) \/ (p = length l /\ exists q bq, b.(pprev) = Some q /\ l !! q = Some bq /\ bq.(phashBlock) = Some h).
Proof.
  intros Hn; rewrite (ix_prevs _ _ Hst); pose proof (tree_app l (ix_tree _ _ Hst) b Hn) as Ht; split.
  - intros (x & q & bq & Hx & Eq & Hq & Hh); pose proof (Ht p x ltac:(by apply lookup_lt_Some in Hx) Hx) as Hk; unfold node_ok in Hk; rewrite Eq in Hk; destruct Hk as [Hlt _].
    apply lookup_snoc_Some in Hx; rewrite lookup_old in Hq by lia; destruct Hx as [[Hp Hx]|[-> <-]]; [left; by exists x, q, bq|right; split; [done|]; by exists q, bq].
  - assert (Hold : forall q x, l !! q = Some x -> (l ++ [b]) !! q = Some x) by (intros q x Hq; rewrite lookup_old; [done|by apply lookup_lt_Some in Hq]).
    intros [(x & q & bq & Hx & Eq & Hq & Hh)|(-> & q & bq & Eq & Hq & Hh)]; [exists x, q, bq|exists b, q, bq]; split_and!; auto using lookup_end.
Qed.

Lemma add_entry b best dirty prevs :
  entry_ok gs g b -> node_ok (l ++ [b]) (length l) b -> totals_ok (l ++ [b]) b -> IsValid b BLOCK_VALID_TREE = Some true ->
  (match st.(pindexBestHeader) with
   | None => best = length l
   | Some q => exists bq, l !! q = Some bq /\ best = if less WIDTH256 bq.(nChainWork) b.(nChainWork) then length l else q
   end) ->
  (match b.(pprev) with
   | None => prevs = st.(mapPrevBlockIndex)
   | Some q => exists bq h, l !! q = Some bq /\ bq.(phashBlock) = Some h /\ prevs = (h, length l) :: st.(mapPrevBlockIndex)
   end) ->
  index_ok (gs ++ [g]) (ChainState (l ++ [b]) (<[header_id g := length l]> st.(mapBlockIndex)) (Some best) dirty prevs).
Proof.
  intros He Hn Ht Hv Hbest Hprevs; pose proof (ix_length _ _ Hst) as Hlen; split; cbn [blocks mapBlockIndex pindexBestHeader mapPrevBlockIndex].
  - rewrite !length_app; cbn; lia.
  - intros p x h Hx Hh; apply lookup_snoc_Some in Hx; apply lookup_snoc_Some in Hh; destruct Hx as [[Hp Hx]|[-> <-]], Hh as [[Hp' Hh]|[Ep <-]]; try lia.
    + rewrite take_app_le by lia; by apply (ix_entry _ _ Hst).
    + by rewrite take_app_length' by lia.
  - intros id; rewrite find_id_app, <- (ix_map _ _ Hst); destruct (decide (header_id g = id)) as [<-|Hne].
    + by rewrite lookup_insert_eq, (ix_map _ _ Hst), Hnew, Hlen.
    + rewrite lookup_insert_ne by done; by destruct (_ !! id).
  - intros p h Hh; rewrite find_id_app; apply lookup_snoc_Some in Hh; destruct Hh as [[_ Hh]|[-> <-]]; [by rewrite (ix_distinct _ _ Hst p h Hh)|].
    by rewrite Hnew, decide_True.
  - by apply tree_app; [apply Hst|].
  - intros p x Hx; apply lookup_snoc_Some in Hx; destruct Hx as [[_ Hx]|[_ <-]]; [by apply totals_app, (ix_totals _ _ Hst p)|done].
  - intros p x Hx; apply lookup_snoc_Some in Hx; destruct Hx as [[_ Hx]|[_ <-]]; [by apply (ix_valid _ _ Hst p)|done].
  - pose proof (ix_best _ _ Hst) as Hb; destruct (pindexBestHeader st) as [q|].
    + destruct Hb as (bq & Hq & Hmax), Hbest as (bq' & Hq' & ->); rewrite Hq in Hq'; injection Hq' as <-; destruct (ix_totals _ _ Hst q bq Hq) as [Uq _], Ht as [Ub _].
      rewrite (less_spec 8) by done; destruct (Z.ltb_spec (value bq.(nChainWork)) (value b.(nChainWork))) as [Hlt|Hge].
      * exists b; split; [apply lookup_end|]; intros p x Hx; apply lookup_snoc_Some in Hx; destruct Hx as [[_ Hx]|[-> <-]]; [|lia]; pose proof (Hmax p x Hx); lia.
      * exists bq; split; [by rewrite lookup_old by (by apply lookup_lt_Some in Hq)|]; intros p x Hx; apply lookup_snoc_Some in Hx; destruct Hx as [[_ Hx]|[-> <-]]; [by apply Hmax|].
        apply lookup_lt_Some in Hq; lia.
    + rewrite Hbest, Hb; exists b; split; [done|]; intros p x Hx; destruct p as [|p]; [|done]; cbn in Hx; injection Hx as <-; cbn [length]; lia.
  - intros p h; rewrite prevs_app by done; destruct b.(pprev) as [q|]; [|subst prevs; split; [tauto|]; intros [?|(_ & ? & ? & ? & _)]; done].
    destruct Hprevs as (bq & h' & Hq & Hh' & ->); cbn [In]; split.
    + intros [E|E]; [|tauto]; simplify_eq; right; split; [done|]; by exists q, bq.
    + intros [E|(-> & q' & bq' & [= <-] & Hq' & Hh)]; [tauto|]; simplify_eq; tauto.
Qed.
End Step.

(** One call: a header that is known changes nothing, a new one is added behind the others. *)
Lemma AddToBlockIndex_spec gs st g : index_ok gs st -> header_ok g -> Z.of_nat (length gs) <= int_max ->
  exists p st', AddToBlockIndex params ubuf st g = Some (p, st') /\ st'.(mapBlockIndex) !! header_id g = Some p /\
    match find_id gs (header_id g) with
    | Some q => p = q /\ st' = st
    | None => p = length gs /\ index_ok (gs ++ [g]) st' /\ take (length gs) st'.(blocks) = st.(blocks)
    end.
Proof.
  intros Hst Hg Hmax; unfold AddToBlockIndex; rewrite (GetHash_spec g) by apply Hg; cbn [mbind option_bind]; rewrite (ix_map _ _ Hst (header_id g)).
  destruct (find_id gs (header_id g)) as [q|] eqn:Enew; [exists q, st; split; [done|]; split; [by rewrite (ix_map _ _ Hst)|done]|].
  rewrite lookup_insert_ne, (ix_map _ _ Hst) by apply Hg; pose proof (ix_length _ _ Hst) as Hlen; rewrite <- Hlen in Hmax.
  destruct (attach_spec gs st Hst g Hmax) as (b & -> & He & Hs & Hn); cbn [mbind option_bind].
  destruct (accumulate_spec st.(blocks) b) as (work & tmax & -> & Ht).
  { destruct (en_header _ _ _ He) as (_ & _ & _ & -> & _); apply Hg. }
  { intros q Hq; rewrite (en_prev _ _ _ He) in Hq; destruct (found_block gs st Hst _ _ Hq) as (pb & Hpb & _); exists pb; split; [done|]; exact (proj1 (ix_totals _ _ Hst q pb Hpb)). }
  cbn [mbind option_bind]; rewrite lookup_end; cbn [mbind option_bind].
  assert (Er : RaiseValidity (set_totals b work tmax) BLOCK_VALID_TREE = Some (true, set_nStatus (set_totals b work tmax) 2)).
  { unfold RaiseValidity; cbn [nStatus set_totals]; by rewrite Hs. }
  rewrite Er; cbn [mbind option_bind]; rewrite insert_end; set (b' := set_nStatus (set_totals b work tmax) 2) in *.
  assert (He' : entry_ok gs g b') by (destruct He; by split).
  destruct (best_spec gs st Hst b') as (best & -> & Hbest); cbn [mbind option_bind].
  destruct (prevs_spec gs st Hst g b' He') as (prevs & -> & Hprevs); cbn [mbind option_bind]; do 2 eexists; split; [done|]; cbn [mapBlockIndex blocks]; split; [by rewrite lookup_insert_eq|].
  split; [done|]; split; [|by rewrite <- Hlen, take_app_length].
  apply (add_entry gs st Hst g Enew); [done|apply Hn|apply Ht|done|done|done].
Qed.

(** A sequence of headers: the calls, and the headers that are accepted *)
Fixpoint add_headers (st : chain_state) (hs : list CBlockHeader) : option chain_state :=
  match hs with [] => Some st | h :: hs => '(_, st) ← AddToBlockIndex params ubuf st h; add_headers st hs end.
Fixpoint accepted (gs hs : list CBlockHeader) : list CBlockHeader :=
  match hs with [] => gs | h :: hs => accepted (match find_id gs (header_id h) with Some _ => gs | None => gs ++ [h] end) hs end.

Definition empty_index : chain_state := ChainState [] ∅ None ∅ [].

Lemma empty_index_ok : index_ok [] empty_index.
Proof. by split; try done; intros p h; cbn; split; [|intros (? & ? & ? & ? & _)]. Qed.

Lemma accepted_found hs : forall gs h, is_Some (find_id gs (header_id h)) \/ In h hs -> is_Some (find_id (accepted gs hs) (header_id h)).
Proof.
  induction hs as [|x hs IH]; intros gs h [Hh|Hh]; cbn [accepted]; [done|done| |]; apply IH.
  - left; destruct (find_id gs (header_id x)); [done|]; rewrite find_id_app; destruct Hh as [q ->]; done.
  - destruct Hh as [->|Hh]; [left|by right]; destruct (find_id gs (header_id h)) eqn:E; [by rewrite E|]; rewrite find_id_app, E, decide_True by done; done.
Qed.

Lemma add_headers_spec hs : forall gs st, index_ok gs st -> Forall header_ok hs -> Z.of_nat (length gs + length hs) <= int_max ->
  exists st', add_headers st hs = Some st' /\ index_ok (accepted gs hs) st'.
Proof.
  induction hs as [|h hs IH]; intros gs st Hst Hh Hmax; [by exists st|]; apply Forall_cons_1 in Hh as [Hh Hhs]; cbn [add_headers accepted length] in *.
  destruct (AddToBlockIndex_spec gs st h Hst Hh ltac:(lia)) as (p & st' & -> & _ & Hc); cbn [mbind option_bind].
  destruct (find_id gs (header_id h)); [destruct Hc as [_ ->]; apply IH; (done || lia)|destruct Hc as (_ & Hst' & _); apply IH; [done|done|rewrite length_app; cbn; lia]].
Qed.

(** The header of a block is got back up to its hash when the index holds the block before it. *)
Lemma index_GetBlockHeader_spec gs st p b g : index_ok gs st -> st.(blocks) !! p = Some b -> gs !! p = Some g ->
  b.(pprev) <> None \/ g.(hashPrevBlock) = uint256_null ->
  exists h, index_GetBlockHeader switch st.(blocks) b = Some h /\ header_id h = header_id g /\ h.(hashPrevBlock) = g.(hashPrevBlock).
Proof.
  intros Hst Hb Hg Hp; destruct (ix_entry _ _ Hst p b g Hb Hg) as [_ Hprev (E1 & E2 & E3 & E4 & E5) Em]; unfold index_GetBlockHeader.
  assert (Ex : (match b.(pprev) with None => Some (hashPrevBlock make_CBlockHeader) | Some q => pb ← st.(blocks) !! q; pb.(phashBlock) end) = Some g.(hashPrevBlock)).
  { destruct b.(pprev) as [q|]; [|destruct Hp as [?| ->]; done].
    destruct (find_id_lookup _ _ _ (eq_sym Hprev)) as (gq & Hgq & <-); rewrite lookup_take_Some in Hgq; destruct Hgq as [Hgq Hlt].
    destruct (lookup_lt_is_Some_2 st.(blocks) q) as [pb Hq]; [rewrite (ix_length _ _ Hst); by apply lookup_lt_Some in Hgq|].
    rewrite Hq; cbn [mbind option_bind]; exact (en_hash _ _ _ (ix_entry _ _ Hst q pb gq Hq Hgq)). }
  rewrite Ex; cbn [mbind option_bind]; rewrite E1, E2, E3, E4, E5; unfold IsMTP in *; cbn [nTime].
  destruct (_ && _) eqn:Et; [destruct (Em eq_refl) as (-> & -> & -> & ->)|]; eexists; (split; [reflexivity|]); (split; [|reflexivity]); apply header_id_bytes; unfold hashed_bytes, IsMTP; cbn [nTime]; rewrite Et; reflexivity.
Qed.
End Index.

(** ** The active chain *)

Definition height_of (s : store) (p : ptr) : nat := match s !! p with Some b => Z.to_nat b.(nHeight) | None => O end.

(** The blocks from the first one to [p], by height *)
Definition path (s : store) (p : ptr) : CChain := (fun i => up s p (height_of s p - i)) <$> seq 0 (S (height_of s p)).

(** A chain that has a tip, or none *)
Definition active (s : store) (c : CChain) : Prop := c = [] \/ exists p, (p < length s)%nat /\ c = path s p.

Section Chain.
Context (s : store) (Hs : tree_ok s).

Lemma height_at p : (p < length s)%nat -> exists b, s !! p = Some b /\ b.(nHeight) = Z.of_nat (height_of s p) /\ 0 <= b.(nHeight).
Proof.
  intros Hp; destruct (lookup_lt_is_Some_2 s p Hp) as [b Hb]; exists b; pose proof (node_height s _ Hs p b Hp Hb); unfold height_of; rewrite Hb; split; [done|]; lia.
Qed.

Lemma up_height p n q : (p < length s)%nat -> up s p n = Some q -> (q < length s)%nat /\ (n <= height_of s p)%nat /\ height_of s q = (height_of s p - n)%nat.
Proof.
  revert p; induction n as [|n IH]; intros p Hp E; cbn [up] in E; [injection E as <-; split; [done|]; lia|]; destruct (height_at p Hp) as (b & Hb & Hh & _); rewrite Hb in E; cbn [mbind option_bind] in E.
  pose proof (Hs p b Hp Hb) as Hn; unfold node_ok in Hn; destruct b.(pprev) as [r|]; [|done]; destruct Hn as (Hr & pb & Hpb & Hhb & _); cbn [mbind option_bind] in E.
  destruct (IH r ltac:(lia) E) as (H1 & H2 & H3); destruct (height_at r ltac:(lia)) as (b' & Hb' & Hh' & _); simplify_eq; split; [done|]; lia.
Qed.

Lemma up_some p n : (p < length s)%nat -> (n <= height_of s p)%nat -> exists q, up s p n = Some q.
Proof. intros Hp Hn; destruct (height_at p Hp) as (b & Hb & Hh & _); destruct (up_spec s _ Hs n p b Hp Hb ltac:(lia)) as (q & _ & E & _); by exists q. Qed.

Lemma prev_spec p : (p < length s)%nat -> exists b, s !! p = Some b /\ b.(nHeight) = Z.of_nat (height_of s p) /\ b.(pprev) = up s p 1 /\ (height_of s p = 0%nat <-> b.(pprev) = None).
Proof.
  intros Hp; destruct (height_at p Hp) as (b & Hb & Hh & _); exists b; cbn [up]; rewrite Hb; cbn [mbind option_bind]; split; [done|]; split; [done|].
  pose proof (Hs p b Hp Hb) as Hn; unfold node_ok in Hn; destruct b.(pprev) as [q|]; [|split; [done|]; split; [done|]; lia]; cbn [mbind option_bind]; split; [done|].
  destruct Hn as (Hq & pb & Hpb & Hhb & _); destruct (height_at q ltac:(lia)) as (b' & Hb' & Hh' & _); simplify_eq; split; [lia|done].
Qed.

Lemma chain_path_length p : length (path s p) = S (height_of s p).
Proof. unfold path; by rewrite length_fmap, length_seq. Qed.

Lemma path_lookup p i : path s p !! i = if decide (i <= height_of s p)%nat then Some (up s p (height_of s p - i)) else None.
Proof.
  unfold path; rewrite list_lookup_fmap; destruct (decide _); [by rewrite lookup_seq_lt by lia|]; by rewrite lookup_seq_ge by lia.
Qed.

(** Below an entry of such a chain are the blocks before it. *)
Definition closed (c : CChain) (n : nat) : Prop := forall i x, (i <= n)%nat -> c !! i = Some (Some x) -> forall j, (j <= i)%nat -> c !! j = Some (up s x (i - j)).

Lemma path_closed p n : closed (path s p) n.
Proof.
  intros i x _ Hi j Hj; rewrite path_lookup in *; destruct (decide (i <= _)%nat); [|done]; rewrite decide_True by lia; injection Hi as Hi; f_equal.
  rewrite (up_split s p (height_of s p - j) (height_of s p - i)) by lia; rewrite Hi; cbn [mbind option_bind]; f_equal; lia.
Qed.

Lemma resize_closed m c n : closed c n -> closed (vChain_resize m c) n.
Proof.
  intros Hc i x Hi E j Hj; unfold vChain_resize in *; rewrite lookup_app in E; destruct (take m c !! i) as [y|] eqn:Et.
  - injection E as ->; rewrite lookup_take_Some in Et; destruct Et as [Et Hm]; rewrite lookup_app_l by (apply lookup_lt_Some in Et; rewrite length_take; lia).
    rewrite lookup_take_lt by lia; by apply (Hc i x).
  - apply lookup_replicate in E as [E _]; done.
Qed.

Lemma active_closed c n : active s c -> closed c n.
Proof. intros [->|(p & _ & ->)]; [by intros i x _|apply path_closed]. Qed.

Lemma length_resize m c : length (vChain_resize m c) = m.
Proof. unfold vChain_resize; rewrite length_app, length_take, length_replicate; lia. Qed.

(** The loop of SetTip at the block [w], which comes [height_of s p - height_of s w] before the new tip [p] *)
Lemma tip_loop_spec p fuel : (p < length s)%nat -> forall c w, let H := height_of s p in let n := height_of s w in
  (w < length s)%nat -> (n <= H)%nat -> up s p (H - n) = Some w -> length c = S H -> (forall i, (n < i <= H)%nat -> c !! i = Some (up s p (H - i))) -> closed c n -> (n < fuel)%nat ->
  tip_loop fuel s c (Some w) = Some (path s p).
Proof.
  intros Hp; induction fuel as [|fuel IH]; intros c w H n Hw Hn Hup Hc Habove Hcl Hf; [lia|]; destruct (prev_spec w Hw) as (b & Hb & Hh & Eprev & Ez); fold n in Hh, Ez.
  assert (Hpath : forall c', length c' = S H -> (forall i, (i <= H)%nat -> c' !! i = Some (up s p (H - i))) -> c' = path s p).
  { intros c' Hl Hi; apply list_eq; intros i; rewrite path_lookup; fold H; case_decide; [by apply Hi|apply lookup_ge_None_2; lia]. }
  cbn [tip_loop]; rewrite Hb; cbn [mbind option_bind]; rewrite Hh, Nat2Z.id; destruct (lookup_lt_is_Some_2 c n ltac:(lia)) as [e He]; rewrite He; cbn [mbind option_bind].
  case_bool_decide as Ee; [subst e|].
  - f_equal; apply Hpath; [done|]; intros i Hi; destruct (decide (n < i)%nat); [apply Habove; lia|]; rewrite (Hcl n w ltac:(lia) He i ltac:(lia)); f_equal.
    rewrite (up_split s p (H - i) (H - n)) by lia; rewrite Hup; cbn [mbind option_bind]; f_equal; lia.
  - assert (Hins : forall i, (n <= i <= H)%nat -> (<[n := Some w]> c) !! i = Some (up s p (H - i))).
    { intros i Hi; destruct (decide (i = n)) as [->|]; [rewrite list_lookup_insert_eq by lia; by rewrite Hup|rewrite list_lookup_insert_ne by done; apply Habove; lia]. }
    destruct b.(pprev) as [q|] eqn:Eq.
    + symmetry in Eprev; destruct (up_height w 1 q Hw Eprev) as (Hq & H1 & Hhq); fold n in H1, Hhq; apply IH; cbv zeta; rewrite ?Hhq; fold H; [done|lia| |by rewrite length_insert| | |lia].
      * rewrite (up_split s p (H - (n - 1)) (H - n)) by lia; rewrite Hup; cbn [mbind option_bind]; rewrite <- Eprev; f_equal; lia.
      * intros i Hi; apply Hins; lia.
      * intros i x Hi Hx j Hj; rewrite list_lookup_insert_ne in Hx |- * by lia; apply (Hcl i x); (done || lia).
    + transitivity (Some (<[n := Some w]> c)); [by destruct fuel|]; f_equal; apply Hpath; [by rewrite length_insert|]; intros i Hi; apply Hins; destruct Ez as [_ Ez]; specialize (Ez eq_refl); lia.
Qed.

Lemma SetTip_spec c p : active s c -> (p < length s)%nat -> SetTip s c (Some p) = Some (path s p).
Proof.
  intros Hc Hp; unfold SetTip; destruct (height_at p Hp) as (b & Hb & Hh & _); rewrite Hb; cbn [mbind option_bind]; rewrite Hh, Nat2Z.id.
  apply tip_loop_spec; [done|done|lia| | | | |lia]; [by rewrite Nat.sub_diag|rewrite length_resize; lia|lia|by apply resize_closed, active_closed].
Qed.

(** The entries of a chain, and the test of membership *)
Lemma active_at c i x : active s c -> c !! i = Some (Some x) -> (x < length s)%nat /\ height_of s x = i.
Proof.
  intros [->|(p & Hp & ->)] E; [done|]; rewrite path_lookup in E; case_decide; [|done]; injection E as E; destruct (up_height p _ x Hp E) as (H1 & _ & H3); split; [done|]; lia.
Qed.

Lemma chain_at_lookup (c : CChain) i : chain_at c (Z.of_nat i) = mjoin (c !! i).
Proof.
  unfold chain_at; destruct (Z.ltb_spec (Z.of_nat i) 0); [lia|]; cbn [orb]; rewrite Nat2Z.id; destruct (Z.leb_spec (Z.of_nat (length c)) (Z.of_nat i)); [|done].
  by rewrite lookup_ge_None_2 by lia.
Qed.

Lemma elem_path p q : (p < length s)%nat -> Some q ∈ path s p <-> exists n, up s p n = Some q.
Proof.
  intros Hp; rewrite list_elem_of_lookup; split.
  - intros [i Hi]; rewrite path_lookup in Hi; case_decide; [|done]; injection Hi as Hi; by eexists.
  - intros [n Hn]; destruct (up_height p n q Hp Hn) as (_ & H1 & _); exists (height_of s p - n)%nat; rewrite path_lookup, decide_True by lia; f_equal; rewrite <- Hn; f_equal; lia.
Qed.

Lemma Contains_spec c p : active s c -> (p < length s)%nat -> Contains s c p = Some (bool_decide (Some p ∈ c)).
Proof.
  intros Hc Hp; unfold Contains; destruct (height_at p Hp) as (b & Hb & Hh & _); rewrite Hb; cbn [mbind option_bind]; rewrite Hh, chain_at_lookup; f_equal; apply bool_decide_ext.
  split; [intros E; apply list_elem_of_lookup; exists (height_of s p); by destruct (c !! height_of s p) as [[]|]; cbn in E; simplify_eq|].
  intros [i Hi]%list_elem_of_lookup; destruct (active_at c i p Hc Hi) as [_ <-]; by rewrite Hi.
Qed.

(** ** Forks *)

(** [r] is the last of the blocks up to [p] that is on the chain. *)
Definition is_fork (c : CChain) (p : ptr) (r : option ptr) : Prop :=
  match r with
  | Some f => Some f ∈ c /\ exists k, up s p k = Some f /\ forall i x, (i < k)%nat -> up s p i = Some x -> Some x ∉ c
  | None => forall i x, up s p i = Some x -> Some x ∉ c
  end.

Lemma is_fork_shift c p k w r : up s p k = Some w -> (forall i x, (i < k)%nat -> up s p i = Some x -> Some x ∉ c) -> is_fork c w r -> is_fork c p r.
Proof.
  intros Hk Hbelow Hr.
  assert (Hsplit : forall i, (k <= i)%nat -> up s p i = up s w (i - k)) by (intros i Hi; rewrite (up_split s p i k) by lia; by rewrite Hk).
  destruct r as [f|]; cbn [is_fork] in *.
  - destruct Hr as (Hf & j & Hj & Hm); split; [done|]; exists (k + j)%nat; split; [rewrite Hsplit by lia; rewrite <- Hj; f_equal; lia|].
    intros i x Hi Hx; destruct (decide (i < k)%nat); [by apply (Hbelow i)|]; apply (Hm (i - k)%nat); [lia|]; rewrite <- Hsplit by lia; done.
  - intros i x Hx; destruct (decide (i < k)%nat); [by apply (Hbelow i)|]; apply (Hr (i - k)%nat); rewrite <- Hsplit by lia; done.
Qed.

Lemma fork_loop_spec c fuel : active s c -> forall p, (p < length s)%nat -> (height_of s p < fuel)%nat -> exists r, fork_loop fuel s c (Some p) = Some r /\ is_fork c p r.
Proof.
  intros Hc; induction fuel as [|fuel IH]; intros p Hp Hf; [lia|]; cbn [fork_loop]; rewrite Contains_spec by done; cbn [mbind option_bind]; case_bool_decide as Hin.
  - exists (Some p); split; [done|]; split; [done|]; exists O; split; [done|]; lia.
  - destruct (prev_spec p Hp) as (b & Hb & _ & Eq & _); rewrite Hb; cbn [mbind option_bind]; destruct b.(pprev) as [q|]; symmetry in Eq.
    + destruct (up_height p 1 q Hp Eq) as (Hq & H1 & Hh); destruct (IH q Hq ltac:(lia)) as (r & -> & Hr); exists r; split; [done|].
      apply (is_fork_shift c p 1 q); [done| |done]; intros i x Hi Hx; replace i with O in Hx by lia; by injection Hx as <-.
    + exists None; split; [by destruct fuel|]; intros i x Hx; destruct i as [|i]; [by injection Hx as <-|].
      rewrite (up_split s p (S i) 1) in Hx by lia; by rewrite Eq in Hx.
Qed.

Lemma FindFork_spec c p : active s c -> (p < length s)%nat -> exists r, FindFork s c (Some p) = Some r /\ is_fork c p r.
Proof.
  intros Hc Hp; unfold FindFork; destruct (height_at p Hp) as (b & Hb & Hh & _); rewrite Hb; cbn [mbind option_bind]; rewrite Hh, Nat2Z.id.
  destruct (Z.ltb_spec (chain_Height c) (Z.of_nat (height_of s p))) as [Hlt|Hge]; [|cbn [mbind option_bind]; apply fork_loop_spec; (done || lia)].
  rewrite (GetAncestor_spec s _ Hs p b) by done; cbn [mbind option_bind]; unfold chain_Height in *; rewrite Hh.
  destruct (Z.leb_spec 0 (Z.of_nat (length c) - 1)) as [H0|H0]; cbn [andb].
  - rewrite (proj2 (Z.leb_le _ _)) by lia; set (k := Z.to_nat _); destruct (up_some p k Hp ltac:(lia)) as [q Hq]; rewrite Hq; destruct (up_height p k q Hp Hq) as (Hql & _ & Hhq).
    destruct (fork_loop_spec c (height_of s p + 1) Hc q Hql ltac:(lia)) as (r & -> & Hr); exists r; split; [done|]; apply (is_fork_shift c p k q); [done| |done].
    intros i x Hi Hx [j Hj]%list_elem_of_lookup; destruct (up_height p i x Hp Hx) as (_ & _ & Hhx), (active_at c j x Hc Hj) as [_ Ej]; apply lookup_lt_Some in Hj; lia.
  - exists None; split; [by rewrite Nat.add_comm|]; intros i x _; destruct c; [apply not_elem_of_nil|cbn in H0; lia].
Qed.

(** ** The last common ancestor *)

(** [r] is the last of the blocks before both. *)
Definition is_common (p q : ptr) (r : option ptr) : Prop :=
  match r with
  | Some f => (exists i j, up s p i = Some f /\ up s q j = Some f) /\ forall i j x, up s p i = Some x -> up s q j = Some x -> exists n, up s f n = Some x
  | None => forall i j x, up s p i = Some x -> up s q j <> Some x
  end.

Lemma is_common_shift p q k l p' q' r : up s p k = Some p' -> up s q l = Some q' ->
  (forall i j x, up s p i = Some x -> up s q j = Some x -> (k <= i)%nat /\ (l <= j)%nat) -> is_common p' q' r -> is_common p q r.
Proof.
  intros Hk Hl Hmin Hr.
  assert (Hsplit : forall i j x, up s p i = Some x -> up s q j = Some x -> up s p' (i - k) = Some x /\ up s q' (j - l) = Some x).
  { intros i j x Hi Hj; destruct (Hmin i j x Hi Hj) as [H1 H2]; rewrite (up_split s p i k) in Hi by lia; rewrite (up_split s q j l) in Hj by lia; by rewrite Hk in Hi; rewrite Hl in Hj. }
  destruct r as [f|]; cbn [is_common] in *.
  - destruct Hr as [(i & j & Hi & Hj) Hm]; split; [exists (k + i)%nat, (l + j)%nat; rewrite !up_add, Hk, Hl; done|].
    intros i' j' x Hx Hy; destruct (Hsplit i' j' x Hx Hy); by eapply Hm.
  - intros i j x Hi Hj; destruct (Hsplit i j x Hi Hj); by eapply Hr.
Qed.

Lemma is_common_sym p q r : is_common p q r -> is_common q p r.
Proof.
  destruct r as [f|]; cbn [is_common]; [intros [(i & j & Hi & Hj) Hm]; split; [by exists j, i|]; intros i' j' x Hx Hy; by eapply Hm|].
  intros Hr i j x Hi Hj; by eapply Hr.
Qed.

Lemma common_loop_spec fuel : forall p q, (p < length s)%nat -> (q < length s)%nat -> height_of s p = height_of s q -> (height_of s p < fuel)%nat ->
  exists r, common_loop fuel s (Some p) (Some q) = Some r /\ is_common p q r.
Proof.
  induction fuel as [|fuel IH]; intros p q Hp Hq Hh Hf; [lia|]; cbn [common_loop]; case_bool_decide as E.
  { injection E as <-; exists (Some p); split; [done|]; split; [by exists O, O|]; intros i j x Hx _; by exists i. }
  assert (Hij : forall i j x, up s p i = Some x -> up s q j = Some x -> i = j /\ (1 <= i)%nat).
  { intros i j x Hi Hj; destruct (up_height p i x Hp Hi) as (_ & H1 & H2), (up_height q j x Hq Hj) as (_ & H3 & H4); split; [lia|].
    destruct i as [|i]; [|lia]; replace j with O in Hj by lia; cbn in Hi, Hj; congruence. }
  destruct (prev_spec p Hp) as (bp & Hbp & _ & Ep & Zp), (prev_spec q Hq) as (bq & Hbq & _ & Eq & Zq); rewrite Hbp, Hbq; cbn [mbind option_bind].
  destruct bp.(pprev) as [p'|], bq.(pprev) as [q'|]; symmetry in Ep, Eq; [|destruct (up_height p 1 p' Hp Ep); intuition (congruence || lia)|destruct (up_height q 1 q' Hq Eq); intuition (congruence || lia)|].
  - destruct (up_height p 1 p' Hp Ep) as (Hp' & H1 & Hhp), (up_height q 1 q' Hq Eq) as (Hq' & H2 & Hhq).
    destruct (IH p' q' Hp' Hq' ltac:(lia) ltac:(lia)) as (r & -> & Hr); exists r; split; [done|]; apply (is_common_shift p q 1 1 p' q'); [done..| |done].
    intros i j x Hi Hj; destruct (Hij i j x Hi Hj); lia.
  - exists None; split; [by destruct fuel|]; intros i j x Hi Hj; destruct (Hij i j x Hi Hj) as [_ H1]; rewrite (up_split s p i 1) in Hi by lia; by rewrite Ep in Hi.
Qed.

Lemma descend p q : (p < length s)%nat -> (q < length s)%nat -> (height_of s q < height_of s p)%nat ->
  let k := (height_of s p - height_of s q)%nat in
  exists p', GetAncestor s p (Z.of_nat (height_of s q)) = Some (Some p') /\ up s p k = Some p' /\ (p' < length s)%nat /\ height_of s p' = height_of s q /\
    forall i j x, up s p i = Some x -> up s q j = Some x -> (k <= i)%nat /\ (0 <= j)%nat.
Proof.
  intros Hp Hq Hlt k; destruct (height_at p Hp) as (b & Hb & Hh & _), (up_some p k Hp ltac:(lia)) as [p' E]; exists p'; rewrite (GetAncestor_spec s _ Hs p b) by done; rewrite Hh.
  destruct (up_height p k p' Hp E) as (H1 & H2 & H3); rewrite !(proj2 (Z.leb_le _ _)) by lia; cbn [andb]; split; [rewrite <- E; do 2 f_equal; lia|].
  split_and!; [done|done|lia|]; intros i j x Hi Hj; destruct (up_height p i x Hp Hi) as (_ & ? & ?), (up_height q j x Hq Hj) as (_ & ? & ?); lia.
Qed.

Lemma LastCommonAncestor_spec p q : (p < length s)%nat -> (q < length s)%nat -> exists r, LastCommonAncestor s p q = Some r /\ is_common p q r.
Proof.
  intros Hp Hq; unfold LastCommonAncestor; destruct (height_at p Hp) as (bp & Hbp & Hhp & _), (height_at q Hq) as (bq & Hbq & Hhq & _); rewrite Hbp, Hbq; cbn [mbind option_bind]; rewrite Hhp, Hhq, Nat2Z.id.
  destruct (Z.ltb_spec (Z.of_nat (height_of s q)) (Z.of_nat (height_of s p))); [|destruct (Z.ltb_spec (Z.of_nat (height_of s p)) (Z.of_nat (height_of s q)))].
  - destruct (descend p q Hp Hq ltac:(lia)) as (p' & -> & Hk & Hp' & Hh & Hmin); cbn [mbind option_bind]; destruct (common_loop_spec (height_of s p + 1) p' q Hp' Hq Hh ltac:(lia)) as (r & -> & Hr).
    exists r; split; [done|]; by apply (is_common_shift p q _ 0 p' q r Hk eq_refl).
  - destruct (descend q p Hq Hp ltac:(lia)) as (q' & -> & Hk & Hq' & Hh & Hmin); cbn [mbind option_bind]; destruct (common_loop_spec (height_of s p + 1) p q' Hp Hq' ltac:(done) ltac:(lia)) as (r & -> & Hr).
    exists r; split; [done|]; apply is_common_sym, (is_common_shift q p _ 0 q' p r Hk eq_refl); [done|by apply is_common_sym].
  - cbn [mbind option_bind]; apply common_loop_spec; (done || lia).
Qed.

(** ** The earliest block *)

Lemma lower_bound_spec (f : nat -> bool) below fuel : forall first len, (len <= fuel)%nat ->
  (forall i, (first <= i < first + len)%nat -> below i = Some (f i)) -> (forall i j, (first <= i <= j)%nat -> (j < first + len)%nat -> f j = true -> f i = true) ->
  exists n, lower_bound fuel below first len = Some n /\ (first <= n <= first + len)%nat /\
    (forall i, (first <= i < n)%nat -> f i = true) /\ (forall i, (n <= i < first + len)%nat -> f i = false).
Proof.
  induction fuel as [|fuel IH]; intros first len Hf Hb Hm; [destruct len; [|lia]; exists first; cbn; split; [done|]; split_and!; lia|].
  destruct len as [|len]; [exists first; cbn; split; [done|]; split_and!; lia|]; cbn [lower_bound]; set (half := (S len / 2)%nat).
  assert (Hh : (half < S len)%nat) by (apply Nat.div_lt; lia); rewrite Hb by lia; cbn [mbind option_bind]; destruct (f (first + half)%nat) eqn:Ef.
  - destruct (IH (first + half + 1)%nat (S len - half - 1)%nat ltac:(lia)) as (n & -> & Hn & H1 & H2); [intros i Hi; apply Hb; lia|intros i j Hij Hj; apply Hm; lia|].
    exists n; split; [done|]; split; [lia|]; split; [|intros i Hi; apply H2; lia].
    intros i Hi; destruct (decide (i <= first + half)%nat); [apply (Hm i (first + half)%nat); (done || lia)|apply H1; lia].
  - destruct (IH first half ltac:(lia)) as (n & -> & Hn & H1 & H2); [intros i Hi; apply Hb; lia|intros i j Hij Hj; apply Hm; lia|].
    exists n; split; [done|]; split; [lia|]; split; [done|]; intros i Hi; destruct (decide (i < first + half)%nat); [apply H2; lia|].
    apply not_true_iff_false; intros Ei; rewrite (Hm (first + half)%nat i) in Ef; (done || lia).
Qed.

Lemma active_entry c i : active s c -> (i < length c)%nat -> exists x b, c !! i = Some (Some x) /\ s !! x = Some b /\ (x < length s)%nat.
Proof.
  intros Hc Hi; destruct (lookup_lt_is_Some_2 c i Hi) as [e He]; assert (exists x, e = Some x) as [x ->].
  { destruct Hc as [->|(p & Hp & ->)]; [done|]; rewrite path_lookup in He; case_decide; [|done]; injection He as <-; apply up_some; (done || lia). }
  destruct (active_at c i x Hc He) as [Hx _]; destruct (height_at x Hx) as (b & Hb & _); by exists x, b.
Qed.

Context (Ht : forall p b, s !! p = Some b -> totals_ok s b).

(** [nTimeMax] is the maximum over the blocks up to [p]. *)
Lemma nTimeMax_spec t p b : (p < length s)%nat -> s !! p = Some b -> b.(nTimeMax) < t <-> forall k y x, up s p k = Some y -> s !! y = Some x -> x.(bi_nTime) < t.
Proof.
  revert b; induction p as [p IH] using lt_wf_ind; intros b Hp Hb; destruct (Ht p b Hb) as [_ Hk]; pose proof (Hs p b Hp Hb) as Hn; unfold node_ok in Hn.
  destruct b.(pprev) as [q|] eqn:Eq.
  - destruct Hk as (pb & Hq & _ & ->), Hn as [Hlt _]; pose proof (IH q Hlt pb ltac:(lia) Hq) as IHq; split.
    + intros Hmax k y x Hy Hx; destruct k as [|k]; [injection Hy as <-; simplify_eq; lia|]; cbn [up] in Hy; rewrite Hb in Hy; cbn [mbind option_bind] in Hy; rewrite Eq in Hy; cbn [mbind option_bind] in Hy.
      apply (proj1 IHq ltac:(lia) k y x); done.
    + intros Hall; apply Z.max_lub_lt; [|by apply (Hall O p)]; apply IHq; intros k y x Hy Hx; apply (Hall (S k) y x); [|done]; cbn [up]; rewrite Hb; cbn [mbind option_bind]; by rewrite Eq.
  - destruct Hk as [_ ->]; split; [|intros Hall; by apply (Hall O p)]; intros Hmax k y x Hy Hx; destruct k as [|k]; [injection Hy as <-; by simplify_eq|].
    cbn [up] in Hy; rewrite Hb in Hy; cbn [mbind option_bind] in Hy; by rewrite Eq in Hy.
Qed.

Definition before (c : CChain) (n : nat) (t : Z) : Prop := forall j y x, (j < n)%nat -> c !! j = Some (Some y) -> s !! y = Some x -> x.(bi_nTime) < t.

Lemma time_below c i p b t : active s c -> c !! i = Some (Some p) -> s !! p = Some b -> b.(nTimeMax) < t <-> before c (S i) t.
Proof.
  intros Hc Hi Hb; destruct (active_at c i p Hc Hi) as [Hp Hh]; rewrite (nTimeMax_spec t p b Hp Hb); pose proof (active_closed c i Hc i p ltac:(lia) Hi) as Hcl; split.
  - intros Hall j y x Hj Hy Hx; rewrite (Hcl j ltac:(lia)) in Hy; injection Hy as Hy; by eapply Hall.
  - intros Hall k y x Hy Hx; destruct (up_height p k y Hp Hy) as (_ & Hk & _); apply (Hall (i - k)%nat y x); [lia| |done].
    rewrite Hcl by lia; f_equal; rewrite <- Hy; f_equal; lia.
Qed.

Lemma FindEarliestAtLeast_spec c t : active s c -> exists r, FindEarliestAtLeast s c t = Some r /\
  match r with
  | Some q => exists i b, c !! i = Some (Some q) /\ s !! q = Some b /\ t <= b.(bi_nTime) /\ before c i t
  | None => before c (length c) t
  end.
Proof.
  intros Hc; set (f i := match mjoin (c !! i) ≫= (fun p => s !! p) with Some b => b.(nTimeMax) <? t | None => false end).
  assert (Hf : forall i, (i < length c)%nat -> exists p b, c !! i = Some (Some p) /\ s !! p = Some b /\ f i = (b.(nTimeMax) <? t)).
  { intros i Hi; destruct (active_entry c i Hc Hi) as (x & b & Hx & Hb & _); exists x, b; unfold f; rewrite Hx; cbn; by rewrite Hb. }
  assert (Hbef : forall i, (i < length c)%nat -> f i = true <-> before c (S i) t).
  { intros i Hi; destruct (Hf i Hi) as (p & b & Hp & Hb & ->); rewrite Z.ltb_lt; by apply (time_below c i p b). }
  unfold FindEarliestAtLeast; edestruct (lower_bound_spec f) as (n & -> & Hn & H1 & H2); [reflexivity|intros i Hi; destruct (Hf i ltac:(lia)) as (p & b & Hp & Hb & ->); rewrite Hp; cbn; by rewrite Hb| |].
  { intros i j Hij Hj; rewrite !Hbef by lia; intros Hb' k y x Hk; apply Hb'; lia. }
  cbn [mbind option_bind]; assert (Hlow : before c n t) by (destruct n as [|n]; [intros j y x Hj; lia|apply Hbef; [lia|apply H1; lia]]).
  destruct (decide (n < length c)%nat) as [Hlt|]; [|rewrite lookup_ge_None_2 by lia; exists None; split; [done|]; intros j y x Hj; apply Hlow; lia].
  destruct (Hf n Hlt) as (p & b & Hp & Hb & Efn); rewrite Hp; exists (Some p); split; [done|]; exists n, b; split_and!; [done|done| |done].
  apply Z.nlt_ge; intros Hx; assert (before c (S n) t); [|rewrite <- Hbef, H2 in H by lia; done].
  intros j y x Hj Hy Hyx; destruct (decide (j = n)) as [->|]; [by simplify_eq|]; apply (Hlow j y x); (done || lia).
Qed.
End Chain.

(** ** Locators *)

(** The heights in a locator *)
Fixpoint heights (fuel h count step : nat) : list nat :=
  h :: match h, fuel with
       | O, _ | _, O => []
       | _, S fuel => heights fuel (h - step) (S count) (if (10 <? S count)%nat then 2 * step else step)
       end.

Lemma heights_cons fuel h count step : exists l, heights fuel h count step = h :: l.
Proof. destruct fuel; cbn; by eexists. Qed.

Lemma heights_le fuel : forall h count step x, In x (heights fuel h count step) -> (x <= h)%nat.
Proof.
  induction fuel as [|fuel IH]; intros h count step x Hx; cbn [heights] in Hx; [destruct h; destruct Hx as [->|[]]; lia|].
  destruct Hx as [->|Hx]; [lia|]; destruct h as [|h]; [done|]; apply IH in Hx; lia.
Qed.

Lemma heights_length n : forall fuel h count step, (10 <= count)%nat -> Z.of_nat h <= Z.of_nat step * (2 ^ Z.of_nat n - 1) -> (length (heights fuel h count step) <= S n)%nat.
Proof.
  induction n as [|n IH]; intros fuel h count step Hc Hh; [replace h with O by (cbn in Hh; lia); destruct fuel; cbn; lia|].
  destruct fuel as [|fuel]; [destruct h; cbn; lia|]; cbn [heights length]; destruct h as [|h]; [cbn; lia|]; rewrite (proj2 (Nat.ltb_lt _ _)) by lia; apply le_n_S, IH; [lia|].
  replace (Z.of_nat (S n)) with (Z.succ (Z.of_nat n)) in Hh by lia; rewrite Z.pow_succ_r in Hh by lia; pose proof (Z.pow_pos_nonneg 2 (Z.of_nat n) ltac:(lia) ltac:(lia)); nia.
Qed.

(** Ten entries before the steps grow, and thirty-one more *)
Lemma heights_short d : forall fuel h, (d <= 10)%nat -> Z.of_nat h < 2 ^ 30 -> (length (heights fuel h (10 - d) 1) <= 31 + d)%nat.
Proof.
  induction d as [|d IH]; intros fuel h Hd Hh; [rewrite Nat.sub_0_r, Nat.add_0_r; apply (heights_length 30); [lia|]; change (Z.of_nat 30) with 30; lia|].
  destruct fuel as [|fuel]; [destruct h; cbn [heights length]; lia|]; cbn [heights length]; destruct h as [|h]; [cbn [length]; lia|]; rewrite (proj2 (Nat.ltb_ge _ _)) by lia.
  replace (S (10 - S d)) with (10 - d)%nat by lia; pose proof (IH fuel (S h - 1)%nat ltac:(lia) ltac:(lia)); lia.
Qed.

Lemma heights_last fuel : forall h count step, (h <= fuel)%nat -> (1 <= step)%nat -> exists l, heights fuel h count step = l ++ [O].
Proof.
  induction fuel as [|fuel IH]; intros h count step Hf Hs; [replace h with O by lia; by exists []|]; destruct h as [|h]; [by exists []|]; cbn [heights].
  destruct (IH (S h - step)%nat (S count) (if (10 <? S count)%nat then 2 * step else step)%nat) as [l ->]; [lia|destruct (10 <? S count)%nat; lia|by exists (S h :: l)].
Qed.

(** A depth between two entries: the next entry is at most twice as deep. *)
Lemma heights_hit H k fuel : forall h count step, (h <= fuel)%nat -> (h <= H)%nat -> (1 <= step)%nat -> ((count <= 10)%nat -> (H - h = count)%nat /\ step = 1%nat) ->
  (step <= Nat.max 1 (H - h))%nat -> ((10 < count)%nat -> (10 < H - h)%nat) -> (H - h <= k <= H)%nat ->
  exists pre e post, heights fuel h count step = pre ++ e :: post /\ (forall x, In x pre -> (x <= H)%nat /\ (H - x < k)%nat) /\ (e <= H)%nat /\ (k <= H - e <= 2 * k)%nat /\ ((k <= 11)%nat -> (H - e = k)%nat).
Proof.
  induction fuel as [|fuel IH]; intros h count step Hf HH Hs Hc Hst Hc' Hk.
  { replace h with O in * by lia; exists [], O, []; cbn; split; [done|]; split; [done|]; lia. }
  destruct (decide (H - h = k)%nat) as [Ek|Ek].
  { destruct (heights_cons (S fuel) h count step) as [l ->]; exists [], h, l; split; [done|]; split; [done|]; lia. }
  destruct h as [|h]; [lia|]; cbn [heights]; set (step' := if (10 <? S count)%nat then (2 * step)%nat else step).
  destruct (decide (k <= H - (S h - step))%nat) as [Hhit|Hmiss].
  - destruct (heights_cons fuel (S h - step) (S count) step') as [l ->]; exists [S h], (S h - step)%nat, l; split; [done|]; split; [intros x [<-|[]]; lia|]; lia.
  - destruct (IH (S h - step)%nat (S count) step') as (pre & e & post & -> & Hpre & He); unfold step'; try (destruct (Nat.ltb_spec 10 (S count)); lia); [lia..|].
    exists (S h :: pre), e, post; split; [done|]; split; [intros x [<-|Hx]; [lia|by apply Hpre]|done].
Qed.

Section Locator.
Context (params : Consensus) (gs : list CBlockHeader) (st : chain_state) (Hst : index_ok params gs st).
Abbreviation s := st.(blocks).
Abbreviation Hs := (ix_tree params gs st Hst).

(** The hash of a block *)
Definition hash_of (p : option ptr) : list Z := match (q ← p; b ← s !! q; b.(phashBlock)) with Some h => h | None => [] end.

Lemma hash_at p b : s !! p = Some b -> b.(phashBlock) = Some (hash_of (Some p)) /\ st.(mapBlockIndex) !! hash_of (Some p) = Some p.
Proof.
  intros Hb; destruct (lookup_lt_is_Some_2 gs p) as [g Hg]; [rewrite <- (ix_length _ _ _ Hst); by apply lookup_lt_Some in Hb|].
  unfold hash_of; cbn [mbind option_bind]; rewrite Hb; cbn [mbind option_bind]; rewrite (en_hash _ _ _ _ (ix_entry _ _ _ Hst p b g Hb Hg)).
  split; [done|]; rewrite (ix_map _ _ _ Hst); by apply (ix_distinct _ _ _ Hst).
Qed.

Lemma locator_loop_spec c fuel : active s c -> forall p step vHave, (p < length s)%nat -> (height_of s p <= fuel)%nat -> (1 <= step)%nat ->
  height_of s p = O \/ Z.of_nat (height_of s p + step) <= 2 ^ 30 ->
  locator_loop fuel s c (Some p) (Z.of_nat step) vHave = Some (vHave ++ ((fun k => hash_of (up s p (height_of s p - k))) <$> heights fuel (height_of s p) (length vHave) step)).
Proof.
  intros Hc; induction fuel as [|fuel IH]; intros p step vHave Hp Hf Hstep Hmax; destruct (height_at s Hs p Hp) as (b & Hb & Hh & _), (hash_at p b Hb) as [Hhash _]; cbn [locator_loop];
    rewrite Hb; cbn [mbind option_bind]; rewrite Hhash; cbn [mbind option_bind]; rewrite Hh.
  { replace (height_of s p) with O by lia; done. }
  destruct (height_of s p) as [|h] eqn:Eh; [done|]; rewrite (proj2 (Z.eqb_neq _ _)) by lia; rewrite Contains_spec by (done || apply Hs); cbn [mbind option_bind].
  destruct (up_some s Hs p (S h - (S h - step)) Hp ltac:(lia)) as [q Hq]; destruct (up_height s Hs p _ q Hp Hq) as (Hql & _ & Hhq); rewrite Eh in Hhq; replace (S h - (S h - (S h - step)))%nat with (S h - step)%nat in Hhq by lia.
  assert (Enext : (match bool_decide (Some p ∈ c) with true => Some (chain_at c (Z.max (Z.of_nat (S h) - Z.of_nat step) 0)) | false => GetAncestor s p (Z.max (Z.of_nat (S h) - Z.of_nat step) 0) end) = Some (Some q)).
  { replace (Z.max _ 0) with (Z.of_nat (S h - step)) by lia; case_bool_decide as Hin.
    - apply list_elem_of_lookup in Hin as [i Hi]; destruct (active_at s Hs c i p Hc Hi) as [_ Ei]; rewrite Eh in Ei; rewrite chain_at_lookup.
      rewrite (active_closed s c i Hc i p ltac:(lia) Hi (S h - step)%nat ltac:(lia)); cbn; by rewrite <- Ei, Hq.
    - rewrite (GetAncestor_spec s _ Hs p b) by done; rewrite Hh, !(proj2 (Z.leb_le _ _)) by lia; cbn [andb]; f_equal; rewrite <- Hq; f_equal; lia. }
  rewrite Enext; cbn [mbind option_bind heights]; rewrite length_app; cbn [length]; rewrite Nat.add_1_r, fmap_cons, Nat.sub_diag.
  assert (Hrest : forall step', (1 <= step')%nat -> height_of s q = O \/ Z.of_nat (height_of s q + step') <= 2 ^ 30 ->
    locator_loop fuel s c (Some q) (Z.of_nat step') (vHave ++ [hash_of (Some p)]) =
    Some (vHave ++ hash_of (up s p 0) :: ((fun k => hash_of (up s p (S h - k))) <$> heights fuel (S h - step) (S (length vHave)) step'))).
  { intros step' H1 H2; rewrite IH by (done || lia); rewrite length_app; cbn [length]; rewrite Nat.add_1_r, <- app_assoc, Hhq; do 3 f_equal.
    apply map_ext_in; intros k Hk%heights_le; rewrite (up_split s p (S h - k) (S h - (S h - step))) by lia; rewrite Hq; cbn [mbind option_bind]; do 2 f_equal; lia. }
  destruct (Nat.ltb_spec 10 (S (length vHave))); [|apply Hrest; lia].
  rewrite (proj2 (Z.ltb_ge _ _)) by (unfold int_max; lia); replace (Z.of_nat step * 2) with (Z.of_nat (2 * step)) by lia; apply Hrest; lia.
Qed.

Lemma GetLocator_spec c p : active s c -> (p < length s)%nat -> Z.of_nat (height_of s p) < 2 ^ 30 ->
  GetLocator s c (Some p) = Some ((fun k => hash_of (up s p (height_of s p - k))) <$> heights (height_of s p) (height_of s p) 0 1).
Proof.
  intros Hc Hp Hh; unfold GetLocator; destruct (height_at s Hs p Hp) as (b & Hb & Ehb & _); rewrite Hb; cbn [mbind option_bind]; rewrite Ehb, Nat2Z.id.
  apply (locator_loop_spec c _ Hc p 1 []); (done || lia).
Qed.

Lemma path_tip p : chain_Tip (path s p) = Some p.
Proof. unfold chain_Tip, path; rewrite seq_S, fmap_app; change ((fun i => up s p (height_of s p - i)) <$> [0 + height_of s p]%nat) with [up s p (height_of s p - height_of s p)]; by rewrite last_last, Nat.sub_diag. Qed.

(** One entry of a locator: a block on the chain is the answer; above the fork [f] of the chain the answer is [f], or left to the next entries. *)
Lemma find_entry_on c x rest : active s c -> Some x ∈ c -> FindForkInGlobalIndex st c (hash_of (Some x) :: rest) = Some (Some x).
Proof.
  intros Hc Hin; pose proof Hin as [i Hi]%list_elem_of_lookup; destruct (active_at s Hs c i x Hc Hi) as [Hx _]; destruct (height_at s Hs x Hx) as (b & Hb & _).
  cbn [FindForkInGlobalIndex]; rewrite (proj2 (hash_at x b Hb)), Contains_spec by (done || apply Hs); cbn [mbind option_bind]; by rewrite bool_decide_eq_true_2.
Qed.

Lemma find_entry_off c p i x f k rest : active s c -> (p < length s)%nat -> Some f ∈ c -> up s p k = Some f -> (forall j y, (j < k)%nat -> up s p j = Some y -> Some y ∉ c) ->
  (i < k)%nat -> up s p i = Some x ->
  FindForkInGlobalIndex st c (hash_of (Some x) :: rest) = Some (Some f) \/ FindForkInGlobalIndex st c (hash_of (Some x) :: rest) = FindForkInGlobalIndex st c rest.
Proof.
  intros Hc Hp Hf Hk Hoff Hi Hx; destruct (up_height s Hs p i x Hp Hx) as (Hxl & Hih & Hxh), (up_height s Hs p k f Hp Hk) as (Hfl & Hkh & Hfh), (height_at s Hs x Hxl) as (b & Hb & Hbh & _).
  cbn [FindForkInGlobalIndex]; rewrite (proj2 (hash_at x b Hb)), Contains_spec by (done || apply Hs); cbn [mbind option_bind]; rewrite bool_decide_eq_false_2 by (by apply (Hoff i)).
  rewrite (GetAncestor_spec s _ Hs x b) by done; cbn [mbind option_bind]; case_bool_decide as Et; [left|by right].
  destruct Hc as [->|(t & Ht & ->)]; [by apply not_elem_of_nil in Hf|]; rewrite path_tip in *; f_equal; rewrite Hbh in Et; destruct (_ && _); [|done].
  set (n := Z.to_nat _) in Et; assert (Hpt : up s p (i + n) = Some t) by (rewrite up_add, Hx; done); destruct (up_height s Hs p (i + n) t Hp Hpt) as (_ & Hnh & Hth).
  assert (Hin : Some t ∈ path s t) by (apply list_elem_of_lookup; exists (height_of s t); rewrite path_lookup, decide_True, Nat.sub_diag by lia; done).
  apply list_elem_of_lookup in Hf as [j Hj]; assert (Hj' : (j < length (path s t))%nat) by (by apply lookup_lt_Some in Hj); rewrite chain_path_length in Hj'.
  destruct (active_at s Hs (path s t) j f ltac:(right; by exists t) Hj) as [_ Ej]; destruct (decide (i + n < k)%nat) as [Hlt|]; [by destruct (Hoff _ t Hlt Hpt)|].
  replace (i + n)%nat with k in Hpt by lia; congruence.
Qed.

(** A fork from a chain with the same first block *)
Lemma fork_exists c p : active s c -> (p < length s)%nat -> chain_Genesis c = up s p (height_of s p) ->
  exists f k, FindFork s c (Some p) = Some (Some f) /\ Some f ∈ c /\ up s p k = Some f /\ forall j y, (j < k)%nat -> up s p j = Some y -> Some y ∉ c.
Proof.
  intros Hc Hp Hg; destruct (FindFork_spec s Hs c p Hc Hp) as ([f|] & E & Hr); [destruct Hr as (Hf & k & Hk & Hm); by exists f, k|].
  destruct (up_some s Hs p (height_of s p) Hp ltac:(lia)) as [g Eg]; destruct (Hr _ g Eg); rewrite Eg in Hg; destruct c as [|e c]; [done|]; cbn in Hg; subst e; by left.
Qed.

Lemma on_chain_below c p f k j : active s c -> (p < length s)%nat -> Some f ∈ c -> up s p k = Some f -> (k <= j <= height_of s p)%nat -> exists x, up s p j = Some x /\ Some x ∈ c.
Proof.
  intros Hc Hp [i Hi]%list_elem_of_lookup Hk Hj; destruct (active_at s Hs c i f Hc Hi) as [Hfl Hfi], (up_height s Hs p k f Hp Hk) as (_ & _ & Hfh), (up_some s Hs p j Hp ltac:(lia)) as [x Hx].
  exists x; split; [done|]; apply list_elem_of_lookup; exists (height_of s p - j)%nat; rewrite (active_closed s c i Hc i f ltac:(lia) Hi (height_of s p - j)%nat) by lia; f_equal.
  rewrite <- Hx, (up_split s p j k) by lia; rewrite Hk; cbn [mbind option_bind]; f_equal; lia.
Qed.

Lemma FindForkInGlobalIndex_spec c p f k pre e post : active s c -> (p < length s)%nat -> Some f ∈ c -> up s p k = Some f -> (forall j y, (j < k)%nat -> up s p j = Some y -> Some y ∉ c) ->
  (forall x, In x pre -> (x <= height_of s p)%nat /\ (height_of s p - x < k)%nat) -> (e <= height_of s p)%nat -> (k <= height_of s p - e)%nat ->
  exists r j, FindForkInGlobalIndex st c ((fun x => hash_of (up s p (height_of s p - x))) <$> (pre ++ e :: post)) = Some (Some r) /\ Some r ∈ c /\ up s p j = Some r /\ (j = k \/ j = (height_of s p - e)%nat).
Proof.
  intros Hc Hp Hf Hk Hoff Hpre He Hek; induction pre as [|x pre IH].
  - destruct (on_chain_below c p f k (height_of s p - e)%nat Hc Hp Hf Hk ltac:(lia)) as (r & Hr & Hin); rewrite app_nil_l, fmap_cons, Hr.
    exists r, (height_of s p - e)%nat; split; [by apply find_entry_on|]; split_and!; auto.
  - destruct (Hpre x ltac:(by left)) as [Hxh Hxk], (up_some s Hs p (height_of s p - x) Hp ltac:(lia)) as [q Hq]; rewrite <- app_comm_cons, fmap_cons, Hq.
    edestruct (find_entry_off c p (height_of s p - x) q f k) as [E|E]; [done..| |]; rewrite E; [exists f, k; split_and!; auto|apply IH; intros y Hy; apply Hpre; by right].
Qed.
End Locator.

(** ** Times and comparisons *)

(** Two chains with tips are equal when their sizes and tips are; two empty ones are read out of bounds. *)
Lemma chain_equal_spec s c c' : active s c -> active s c' -> chain_equal c c' = if bool_decide (c = [] /\ c' = []) then None else Some (bool_decide (c = c')).
Proof.
  intros Hc Hc'; assert (Hl : forall p, path s p !! (S (height_of s p) - 1)%nat = Some (Some p)).
  { intros p; rewrite path_lookup, decide_True by lia; replace (_ - _)%nat with O by lia; done. }
  unfold chain_equal; destruct Hc as [->|(p & _ & ->)], Hc' as [->|(q & _ & ->)]; rewrite ?chain_path_length; [done| | |].
  - rewrite bool_decide_eq_false_2 by (intros [_ E%(f_equal length)]; by rewrite chain_path_length in E); cbn [negb length Nat.eqb]; by rewrite bool_decide_eq_false_2 by (intros E%(f_equal length); by rewrite chain_path_length in E).
  - rewrite bool_decide_eq_false_2 by (intros [E%(f_equal length) _]; by rewrite chain_path_length in E); cbn [negb length Nat.eqb]; by rewrite bool_decide_eq_false_2 by (intros E%(f_equal length); by rewrite chain_path_length in E).
  - rewrite bool_decide_eq_false_2 by (intros [E%(f_equal length) _]; by rewrite chain_path_length in E); destruct (Nat.eqb_spec (S (height_of s p)) (S (height_of s q))) as [E|E]; cbn [negb].
    + cbn [Nat.eqb]; rewrite Hl; cbn [mbind option_bind]; rewrite Hl; cbn [mbind option_bind]; f_equal; apply bool_decide_ext; split; [congruence|].
      intros Ep; pose proof (Hl p) as H1; rewrite Ep, E, Hl in H1; congruence.
    + by rewrite bool_decide_eq_false_2 by (intros Ep%(f_equal length); rewrite !chain_path_length in Ep; lia).
Qed.

(** The middle of a sorted list: at most half of the entries are below it, and fewer above it. *)
Lemma filter_none (P : Z -> Prop) `{!forall x, Decision (P x)} (l : list Z) : Forall (fun x => ~ P x) l -> base.filter P l = [].
Proof. induction 1 as [|x l Hx _ IH]; [done|]; by rewrite filter_cons_False. Qed.

Lemma median_spec (l : list Z) : l <> [] -> exists m : Z, merge_sort Z.le l !! (length l / 2)%nat = Some m /\ m ∈ l /\
  (length (base.filter (fun x : Z => (x < m)%Z) l) <= length l / 2)%nat /\ (length (base.filter (fun x : Z => (m < x)%Z) l) <= (length l - 1) / 2)%nat.
Proof.
  intros Hl; pose proof (merge_sort_Permutation Z.le l) as Hperm; pose proof (Permutation_length Hperm) as Hlen; assert (H0 : (0 < length l)%nat) by (destruct l; [done|cbn; lia]).
  pose proof (StronglySorted_merge_sort Z.le l) as Hsort; pose proof (Nat.div_lt (length l) 2 H0 ltac:(lia)) as Hd; destruct (lookup_lt_is_Some_2 (merge_sort Z.le l) (length l / 2) ltac:(lia)) as [m Hm].
  assert (Hin : m ∈ l) by (rewrite <- Hperm; apply list_elem_of_lookup; by eexists); exists m; split; [done|]; split; [done|].
  destruct (list_elem_of_split_length _ _ _ Hm) as (A & B & E & HA); rewrite E in Hperm, Hlen, Hsort; apply StronglySorted_app in Hsort as (Hab & _ & Hb); apply StronglySorted_inv in Hb as [_ Hb].
  assert (Hlow : base.filter (fun x : Z => (x < m)%Z) l ≡ₚ base.filter (fun x : Z => (x < m)%Z) (A ++ m :: B)) by (by rewrite Hperm).
  assert (Hhigh : base.filter (fun x : Z => (m < x)%Z) l ≡ₚ base.filter (fun x : Z => (m < x)%Z) (A ++ m :: B)) by (by rewrite Hperm).
  rewrite (Permutation_length Hlow), (Permutation_length Hhigh), !list.filter_app, !length_app, (filter_none (fun x => x < m) (m :: B)), (filter_none (fun x => m < x) A), (filter_cons_False (fun x => m < x)).
  - pose proof (length_filter (fun x => x < m) A); pose proof (length_filter (fun x => m < x) B); rewrite length_app in Hlen; cbn [length] in *.
    pose proof (Nat.div_mod (length l) 2 ltac:(lia)); pose proof (Nat.mod_upper_bound (length l) 2 ltac:(lia)); split; [lia|]; apply Nat.div_le_lower_bound; lia.
  - lia.
  - apply List.Forall_forall; intros x Hx; specialize (Hab x m); rewrite !list_elem_of_In in Hab; specialize (Hab Hx ltac:(by left)); lia.
  - constructor; [lia|]; eapply List.Forall_impl; [|exact Hb]; cbn; lia.
Qed.

(** The times of the last eleven blocks, fewer near the first one *)
Lemma times_back_spec s n : tree_ok s -> forall p, (p < length s)%nat -> exists l, times_back s n (Some p) = Some l /\ length l = Nat.min n (S (height_of s p)) /\
  forall i x, l !! i = Some x -> exists q b, up s p i = Some q /\ s !! q = Some b /\ x = b.(bi_nTime).
Proof.
  intros Hs; induction n as [|n IH]; intros p Hp; [by exists []|]; destruct (prev_spec s Hs p Hp) as (b & Hb & _ & Ep & Hz); cbn [times_back]; rewrite Hb; cbn [mbind option_bind].
  destruct b.(pprev) as [q|] eqn:Eq; symmetry in Ep.
  - destruct (up_height s Hs p 1 q Hp Ep) as (Hq & H1 & Hh), (IH q Hq) as (l & -> & Hl & Hi); exists (b.(bi_nTime) :: l); split; [done|]; split; [cbn [length]; lia|].
    intros [|i] x Hx; [injection Hx as <-; by exists p, b|]; destruct (Hi i x Hx) as (r & br & Hr & Hbr & ->); exists r, br; split; [|done]; cbn [up]; rewrite Hb; cbn [mbind option_bind]; by rewrite Eq.
  - exists [b.(bi_nTime)]; replace (height_of s p) with O by (symmetry; by apply Hz); split; [by destruct n|]; split; [cbn [length]; lia|]; intros [|i] x Hx; [injection Hx as <-; by exists p, b|done].
Qed.

Theorem GetMedianTimePast_correct s p : tree_ok s -> (p < length s)%nat -> exists l m, GetMedianTimePast s p = Some m /\ length l = Nat.min 11 (S (height_of s p)) /\
  (forall i x, l !! i = Some x -> exists q b, up s p i = Some q /\ s !! q = Some b /\ x = b.(bi_nTime)) /\
  m ∈ l /\ (length (base.filter (fun x : Z => (x < m)%Z) l) <= length l / 2)%nat /\ (length (base.filter (fun x : Z => (m < x)%Z) l) <= (length l - 1) / 2)%nat.
Proof.
  intros Hs Hp; destruct (times_back_spec s nMedianTimeSpan Hs p Hp) as (l & E & Hl & Hi), (median_spec l) as (m & Hm & Hrest); [intros ->; cbn in Hl; lia|].
  exists l, m; split; [unfold GetMedianTimePast; by rewrite E|done].
Qed.

Lemma long_quotient x : 0 <= x -> (63 <? bit_length x) = (2 ^ 63 <=? x).
Proof.
  intros Hx; unfold bit_length; destruct (Z.eqb_spec x 0) as [->|Hne]; [done|]; destruct (Z.leb_spec (2 ^ 63) x) as [H|H].
  - apply Z.ltb_lt; apply Z.log2_le_pow2 in H; lia.
  - apply Z.ltb_ge; apply Z.log2_lt_pow2 in H; lia.
Qed.

Lemma s64_u64 x : - 2 ^ 63 <= x < 2 ^ 63 -> s64 (u64 x) = x.
Proof.
  intros Hx; unfold s64, u64, wrap; destruct (Z.lt_ge_cases x 0).
  - replace (x mod 2 ^ 64) with (x + 2 ^ 64) by (apply (Z.mod_unique _ _ (-1)); lia); rewrite (proj2 (Z.ltb_ge _ _)) by lia; lia.
  - rewrite Z.mod_small by lia; rewrite (proj2 (Z.ltb_lt _ _)) by lia; done.
Qed.

(** The time to redo a difference of work, without wrap-around of the product *)
Theorem GetBlockProofEquivalentTime_correct to from tip spacing : uint 8 to.(nChainWork) -> uint 8 from.(nChainWork) -> word 32 tip.(bi_nBits) -> word 63 spacing ->
  let d := value to.(nChainWork) - value from.(nChainWork) in
  let t := Z.min int64_max (Z.abs d * spacing / block_work tip.(bi_nBits)) in
  0 < block_work tip.(bi_nBits) -> Z.abs d * spacing < 2 ^ 256 ->
  GetBlockProofEquivalentTime to from tip spacing = Some (if 0 <? d then t else - t).
Proof.
  intros Ht Hf Hb Hs d t Hw Hd; unfold GetBlockProofEquivalentTime; rewrite (greater_spec 8) by done; unfold word in Hs.
  destruct (GetBlockProof_spec _ Hb) as (w & Ew & Hu & Hv), (subtract_spec 8 _ _ ltac:(lia) Ht Hf) as [U1 V1], (subtract_spec 8 _ _ ltac:(lia) Hf Ht) as [U2 V2].
  pose proof (uint_bound 8 _ Ht) as B1; pose proof (uint_bound 8 _ Hf) as B2; change (modulus 8) with (2 ^ 256) in *.
  set (r := if value from.(nChainWork) <? value to.(nChainWork) then Arith256.subtract 8 to.(nChainWork) from.(nChainWork) else Arith256.subtract 8 from.(nChainWork) to.(nChainWork)).
  assert (Hr : uint 8 r /\ value r = Z.abs d) by (unfold r, d; destruct (Z.ltb_spec (value from.(nChainWork)) (value to.(nChainWork))); (split; [done|]); rewrite ?V1, ?V2, Z.mod_small; lia).
  assert (Ed : (if value from.(nChainWork) <? value to.(nChainWork) then (Arith256.subtract WIDTH256 to.(nChainWork) from.(nChainWork), 1) else (Arith256.subtract WIDTH256 from.(nChainWork) to.(nChainWork), -1)) =
    (r, if 0 <? d then 1 else -1)).
  { unfold r, d; destruct (Z.ltb_spec (value from.(nChainWork)) (value to.(nChainWork))), (Z.ltb_spec 0 (value to.(nChainWork) - value from.(nChainWork))); (done || lia). }
  rewrite Ed, Ew; cbn [mbind option_bind]; destruct Hr as [Ur Vr], (value_of_uint64 8 spacing ltac:(lia) ltac:(unfold word; lia)) as [Us Vs].
  replace (u64 spacing) with spacing by (symmetry; apply wrap_id; unfold word; lia); destruct (multiply_spec 8 r _ Ur Us) as [Um Vm]; rewrite Vr, Vs in Vm; change (modulus 8) with (2 ^ 256) in Vm.
  rewrite Z.mod_small in Vm by lia; pose proof (divide_spec 8 _ _ ltac:(lia) Um Hu) as Hdiv; change WIDTH256 with 8%nat; destruct (divide 8 _ _) as [q|]; [|lia]; destruct Hdiv as (_ & Uq & Vq).
  cbn [mbind option_bind]; rewrite (bits_spec 8) by done; rewrite Vm, Hv in Vq; unfold t; rewrite <- Vq.
  assert (HQ : 0 <= value q) by (rewrite Vq; apply Z.div_pos; nia); rewrite long_quotient, (GetLow64_spec 8) by (done || lia); destruct (Z.leb_spec (2 ^ 63) (value q)).
  - rewrite Z.min_l by (unfold int64_max; lia); destruct (0 <? d); f_equal; lia.
  - rewrite Z.min_r by (unfold int64_max; lia); rewrite (Z.mod_small (value q)) by lia; destruct (0 <? d); f_equal; [rewrite Z.mul_1_l; apply s64_u64; lia|].
    replace (-1 * value q) with (- value q) by lia; apply s64_u64; lia.
Qed.

(** ** The theorems *)

#[local] Opaque header_id hash256.

(** Five blocks in a row, and one beside the fourth *)
Definition demo_node (prev skip : option ptr) (height time tmax : Z) : CBlockIndex := BlockIndex None prev skip height (Arith256.zero WIDTH256) 0 0 [] time 0 0 0 [] [] [] 0 tmax.
Definition demo_store : store :=
  [demo_node None None 0 10 10; demo_node (Some 0) (Some 0) 1 30 30; demo_node (Some 1) (Some 0) 2 20 30; demo_node (Some 2) (Some 1) 3 40 40;
   demo_node (Some 3) (Some 0) 4 50 50; demo_node (Some 2) (Some 1) 3 35 35]%nat.

Lemma demo_store_ok : tree_ok demo_store.
Proof. intros p b Hp Hb; do 6 (destruct p as [|p]; [cbn in Hb; injection Hb as <-; cbn; first [done|split; [lia|by eexists]]|]); done. Qed.

Lemma demo_totals : forall p b, demo_store !! p = Some b -> totals_ok demo_store b.
Proof.
  intros p b Hb; do 6 (destruct p as [|p]; [cbn in Hb; injection Hb as <-; split; [apply uint_zero|]; cbn [demo_node pprev]; first [split; [vm_compute; reflexivity|done]|eexists; split; [done|]; split; [vm_compute; reflexivity|done]]|]); done.
Qed.

Lemma demo_active : active demo_store (path demo_store 5).
Proof. right; exists 5%nat; split; [cbn; lia|done]. Qed.

(** C22 (equivalence): the walk of GetAncestor by skip pointers gives the block that
    the walk by [pprev] alone gives, at every height; above the height of the block and
    below zero it is a null pointer, and the walk ends within as many turns as it goes down. *)
Theorem get_ancestor_correct s p b height : tree_ok s -> s !! p = Some b ->
  GetAncestor s p height = Some (if (0 <=? height) && (height <=? b.(nHeight)) then up s p (Z.to_nat (b.(nHeight) - height)) else None) /\
  (0 <= height <= b.(nHeight) -> exists q bq, up s p (Z.to_nat (b.(nHeight) - height)) = Some q /\ s !! q = Some bq /\ bq.(nHeight) = height).
Proof.
  intros Hs Hb; assert (Hp : (p < length s)%nat) by (by apply lookup_lt_Some in Hb); split; [by apply (GetAncestor_spec s _ Hs)|]; intros Hh.
  destruct (up_spec s _ Hs (Z.to_nat (b.(nHeight) - height)) p b Hp Hb ltac:(lia)) as (q & bq & E & _ & Hq & Hhq); exists q, bq; split_and!; (done || lia).
Qed.

Lemma get_ancestor_correct_witness : GetAncestor demo_store 4 1 = Some (up demo_store 4 3).
Proof. exact (proj1 (get_ancestor_correct demo_store 4 (demo_node (Some 3%nat) (Some 0%nat) 4 50 50) 1 demo_store_ok eq_refl)). Defined.

(** C20 (invariant): every sequence of headers that do not name themselves is added
    to the index without undefined behaviour, and leaves an index of the distinct ones
    in the order of their arrival.  A header whose parent is in the index, or that
    names none, is got back from its entry up to its hash; for one that names a block
    that is not in the index nothing is said, since its entry has no parent. *)
Theorem block_index_correct params ubuf hs : length ubuf = 64%nat -> Forall (header_ok params) hs -> Z.of_nat (length hs) <= int_max ->
  exists st, add_headers params ubuf empty_index hs = Some st /\ index_ok params (accepted params [] hs) st /\
    (forall h, In h hs -> exists p b, st.(mapBlockIndex) !! header_id params h = Some p /\ st.(blocks) !! p = Some b /\ b.(phashBlock) = Some (header_id params h)) /\
    (forall p b g, st.(blocks) !! p = Some b -> accepted params [] hs !! p = Some g -> b.(pprev) <> None \/ g.(hashPrevBlock) = uint256_null ->
       exists h, index_GetBlockHeader params.(nMTPSwitchTime) st.(blocks) b = Some h /\ header_id params h = header_id params g /\ h.(hashPrevBlock) = g.(hashPrevBlock)).
Proof.
  intros Hu Hh Hmax; destruct (add_headers_spec params ubuf Hu hs [] empty_index (empty_index_ok params) Hh ltac:(cbn; lia)) as (st & E & Hst); exists st; split; [done|]; split; [done|]; split.
  - intros h Hin; destruct (accepted_found params hs [] h ltac:(by right)) as [p Hp]; destruct (found_block params _ st Hst _ p Hp) as (b & Hb & Hid); exists p, b; split; [|done].
    by rewrite (ix_map _ _ _ Hst).
  - intros p b g Hb Hg Hp; by apply (index_GetBlockHeader_spec params _ st p b g Hst).
Qed.

(** A first block and one on it *)
Definition first_header : CBlockHeader := BlockHeader 2 uint256_null (replicate 32 2) 1389306217 0x1e0ffff0 7 0x1000 (replicate 32 0) (replicate 32 0) (replicate 32 0) None uint256_null.
Definition genesis_hash : list Z := match GetHash demo_consensus (replicate 64 0) first_header with Some h => h | None => [] end.
Definition second_header : CBlockHeader := BlockHeader 2 genesis_hash (replicate 32 3) 1389306300 0x1e0ffff0 8 0x1000 (replicate 32 0) (replicate 32 0) (replicate 32 0) None uint256_null.

Lemma first_header_wf : fields_wf first_header /\ mtp_fields_wf first_header.
Proof.
  split; split; cbn [first_header nVersion hashPrevBlock hashMerkleRoot nTime nBits nNonce nVersionMTP mtpHashValue reserved0 reserved1];
    first [apply (blob_replicate 32); unfold word; lia|unfold int32, word; lia].
Qed.

Lemma genesis_hash_id : genesis_hash = header_id demo_consensus first_header.
Proof. unfold genesis_hash; by rewrite (GetHash_spec demo_consensus (replicate 64 0) eq_refl) by apply first_header_wf. Qed.

Lemma second_header_wf : fields_wf second_header /\ mtp_fields_wf second_header.
Proof.
  pose proof (header_id_blob demo_consensus (replicate 64 0) eq_refl first_header (proj1 first_header_wf) (proj2 first_header_wf)) as Hb; rewrite <- genesis_hash_id in Hb.
  split; split; cbn [second_header nVersion hashPrevBlock hashMerkleRoot nTime nBits nNonce nVersionMTP mtpHashValue reserved0 reserved1];
    first [exact Hb|apply (blob_replicate 32); unfold word; lia|unfold int32, word; lia].
Qed.

(** That a header does not name itself is seen by running GetHash. *)
Lemma names_other h : fields_wf h -> mtp_fields_wf h -> bool_decide (GetHash demo_consensus (replicate 64 0) h = Some h.(hashPrevBlock)) = false -> header_ok demo_consensus h.
Proof.
  intros Hf Hm Hd; split; [done|]; split; [done|]; rewrite (GetHash_spec demo_consensus (replicate 64 0) eq_refl h Hf Hm) in Hd; apply bool_decide_eq_false in Hd; congruence.
Qed.

Lemma first_header_ok : header_ok demo_consensus first_header.
Proof. apply names_other; [apply first_header_wf..|vm_compute; reflexivity]. Qed.

Lemma second_header_ok : header_ok demo_consensus second_header.
Proof. apply names_other; [apply second_header_wf..|vm_compute; reflexivity]. Qed.

#[local] Opaque genesis_hash.

Lemma block_index_correct_witness : exists st, add_headers demo_consensus (replicate 64 0) empty_index [first_header; second_header; first_header] = Some st /\
  index_ok demo_consensus (accepted demo_consensus [] [first_header; second_header; first_header]) st.
Proof.
  destruct (block_index_correct demo_consensus (replicate 64 0) [first_header; second_header; first_header] eq_refl) as (st & H1 & H2 & _).
  - apply Forall_cons_2; [exact first_header_ok|]; apply Forall_cons_2; [exact second_header_ok|]; apply Forall_cons_2; [exact first_header_ok|]; apply Forall_nil_2.
  - cbn; unfold int_max; lia.
  - exists st; split; [exact H1|exact H2].
Defined.

(** C21 (refinement): whatever tip the active chain has, after SetTip it holds the
    blocks from the first one to the new tip by height, and nothing else, and a null
    pointer empties it; a block is then on the chain by Contains exactly when it is
    the tip or before it, and Next is its successor there. *)
Theorem set_tip_correct s c p : tree_ok s -> active s c -> (p < length s)%nat ->
  SetTip s c None = Some [] /\ SetTip s c (Some p) = Some (path s p) /\ chain_Height (path s p) = Z.of_nat (height_of s p) /\
  forall q, (q < length s)%nat ->
    (exists r, Contains s (path s p) q = Some r /\ (r = true <-> exists n, up s p n = Some q)) /\
    Next s (path s p) q = Some (if decide (Some q ∈ path s p /\ q <> p) then up s p (height_of s p - height_of s q - 1) else None).
Proof.
  intros Hs Hc Hp; split; [done|]; split; [by apply SetTip_spec|]; split; [unfold chain_Height; rewrite chain_path_length; lia|]; intros q Hq.
  assert (Ha : active s (path s p)) by (right; by exists p); pose proof (elem_path s Hs p q Hp) as Hin; split.
  - rewrite Contains_spec by done; eexists; split; [done|]; by rewrite bool_decide_eq_true.
  - unfold Next; rewrite Contains_spec by done; cbn [mbind option_bind]; destruct (prev_spec s Hs q Hq) as (b & Hb & Hh & _); rewrite Hb; cbn [mbind option_bind].
    replace (b.(nHeight) + 1) with (Z.of_nat (S (height_of s q))) by lia; case_bool_decide as Hq'; [|by rewrite decide_False by tauto]; rewrite chain_at_lookup, path_lookup; f_equal.
    pose proof (proj1 Hin Hq') as [n Hn]; destruct (up_height s Hs p n q Hp Hn) as (_ & H1 & H2); destruct (decide (q = p)) as [->|Hne].
    + rewrite decide_False by lia; by rewrite decide_False by tauto.
    + destruct n as [|n]; [by injection Hn as ->|]; rewrite !decide_True by (lia || done); cbn; f_equal; lia.
Qed.

Lemma set_tip_correct_witness : SetTip demo_store (path demo_store 5) (Some 4%nat) = Some [Some 0; Some 1; Some 2; Some 3; Some 4]%nat.
Proof. exact (proj1 (proj2 (set_tip_correct demo_store (path demo_store 5) 4 demo_store_ok demo_active ltac:(cbn; lia)))). Defined.

(** C24 (functional): FindFork gives the last of the blocks up to a given one that is on
    the chain, or a null pointer when there is none; LastCommonAncestor gives the last
    block before two blocks, its assertion holds, and it is null only for blocks
    of separate trees. *)
Theorem find_fork_correct s c p q : tree_ok s -> active s c -> (p < length s)%nat -> (q < length s)%nat ->
  (exists r, FindFork s c (Some p) = Some r /\ is_fork s c p r) /\ (exists r, LastCommonAncestor s p q = Some r /\ is_common s p q r).
Proof. intros Hs Hc Hp Hq; split; [by apply FindFork_spec|by apply LastCommonAncestor_spec]. Qed.

Lemma find_fork_correct_witness : exists r r', FindFork demo_store (path demo_store 5) (Some 4%nat) = Some r /\ LastCommonAncestor demo_store 4 5 = Some r' /\ r = Some 2%nat /\ r' = Some 2%nat.
Proof.
  destruct (find_fork_correct demo_store (path demo_store 5) 4 5 demo_store_ok demo_active ltac:(cbn; lia) ltac:(cbn; lia)) as [(r & E & _) (r' & E' & _)].
  exists r, r'; split; [exact E|]; split; [exact E'|]; vm_compute in E, E'; split; congruence.
Defined.

(** With the invariant of the index, the search by halves on
    [nTimeMax] finds the first block of the chain whose own time is at least
    the given one, and a null pointer exactly when all times are below it. *)
Theorem find_earliest_correct s c t : tree_ok s -> (forall p b, s !! p = Some b -> totals_ok s b) -> active s c ->
  exists r, FindEarliestAtLeast s c t = Some r /\
    match r with
    | Some q => exists i b, c !! i = Some (Some q) /\ s !! q = Some b /\ t <= b.(bi_nTime) /\ before s c i t
    | None => before s c (length c) t
    end.
Proof. intros Hs Ht Hc; by apply FindEarliestAtLeast_spec. Qed.

Lemma find_earliest_correct_witness : exists r, FindEarliestAtLeast demo_store (path demo_store 5) 25 = Some r /\ r = Some 1%nat.
Proof.
  destruct (find_earliest_correct demo_store (path demo_store 5) 25 demo_store_ok demo_totals demo_active) as (r & E & _); exists r; split; [exact E|]; vm_compute in E; congruence.
Defined.

(** C23 (functional): the locator of a block has at most 41 entries, of which
    the last one is the first block, and gives another
    chain with the same first block the place to start from: a block that
    is on that chain and before the given one, at most twice as deep below it
    as the fork, and the fork itself when that is at most eleven blocks deep. *)
Theorem locator_finds_fork params gs st c c' p : let s := st.(blocks) in
  index_ok params gs st -> active s c -> active s c' -> (p < length s)%nat -> Z.of_nat (height_of s p) < 2 ^ 30 -> chain_Genesis c = up s p (height_of s p) ->
  exists vHave f k r j, GetLocator s c' (Some p) = Some vHave /\ (length vHave <= 41)%nat /\ (exists l, vHave = l ++ [hash_of st (up s p (height_of s p))]) /\
    FindFork s c (Some p) = Some (Some f) /\ up s p k = Some f /\
    FindForkInGlobalIndex st c vHave = Some (Some r) /\ Some r ∈ c /\ up s p j = Some r /\ (k <= j <= 2 * k)%nat /\ ((k <= 11)%nat -> r = f).
Proof.
  intros s Hst Hc Hc' Hp Hmax Hg; destruct (fork_exists params gs st Hst c p Hc Hp Hg) as (f & k & Hff & Hf & Hk & Hoff); set (H := height_of s p) in *.
  destruct (up_height s (ix_tree _ _ _ Hst) p k f Hp Hk) as (_ & HkH & _); fold H in HkH.
  destruct (heights_hit H k H H 0 1) as (pre & e & post & Eh & Hpre & He & Hke & Hk11); [lia..|].
  destruct (FindForkInGlobalIndex_spec params gs st Hst c p f k pre e post Hc Hp Hf Hk Hoff Hpre He (proj1 Hke)) as (r & j & Hr & Hin & Hj & Hjk).
  eexists; exists f, k, r, j; split; [by apply (GetLocator_spec params gs)|]; split; [rewrite length_fmap; apply (heights_short 10); (done || lia)|].
  split; [destruct (heights_last H H 0 1 ltac:(lia) ltac:(lia)) as [l El]; eexists; change (height_of st.(blocks) p) with H; rewrite El, fmap_app, fmap_cons, fmap_nil, Nat.sub_0_r; reflexivity|].
  split; [done|]; split; [done|]; change (height_of st.(blocks) p) with H in Hr, Hjk |- *; rewrite Eh; split; [done|]; split; [done|]; split; [done|]; split; [lia|].
  intros H11; assert (j = k) as -> by (destruct Hjk; lia); congruence.
Qed.

Lemma demo_index_ok : exists st, add_headers demo_consensus (replicate 64 0) empty_index [first_header; second_header] = Some st /\ index_ok demo_consensus [first_header; second_header] st /\
  length st.(blocks) = 2%nat /\ height_of st.(blocks) 0 = 0%nat /\ up st.(blocks) 1 1 = Some 0%nat.
Proof.
  destruct (add_headers_spec demo_consensus (replicate 64 0) eq_refl [first_header; second_header] [] empty_index (empty_index_ok demo_consensus)) as (st & E & Hst).
  { apply Forall_cons_2; [exact first_header_ok|]; apply Forall_cons_2; [exact second_header_ok|]; apply Forall_nil_2. }
  { cbn; unfold int_max; lia. }
  assert (Ea : accepted demo_consensus [] [first_header; second_header] = [first_header; second_header]).
  { cbn [accepted find_id app]; rewrite decide_False; [done|]; intros Ex; destruct second_header_ok as (_ & _ & Hne); apply Hne; cbn [second_header hashPrevBlock]; rewrite genesis_hash_id; symmetry; exact Ex. }
  rewrite Ea in Hst; exists st; split; [done|]; split; [done|]; pose proof (ix_length _ _ _ Hst) as Hlen; split; [done|].
  destruct (prev_spec st.(blocks) (ix_tree _ _ _ Hst) 0 ltac:(rewrite Hlen; cbn; lia)) as (b0 & Hb0 & _ & Ep0 & Hz), (prev_spec st.(blocks) (ix_tree _ _ _ Hst) 1 ltac:(rewrite Hlen; cbn; lia)) as (b1 & Hb1 & _ & Ep1 & _).
  pose proof (en_prev _ _ _ _ (ix_entry _ _ _ Hst 0 b0 first_header Hb0 eq_refl)) as P0; pose proof (en_prev _ _ _ _ (ix_entry _ _ _ Hst 1 b1 second_header Hb1 eq_refl)) as P1.
  split; [apply Hz; exact P0|]; rewrite <- Ep1, P1; change (take 1 [first_header; second_header]) with [first_header]; change (hashPrevBlock second_header) with genesis_hash; rewrite genesis_hash_id.
  cbn [find_id]; rewrite decide_True by reflexivity; reflexivity.
Qed.

Lemma locator_finds_fork_witness : exists st vHave r, add_headers demo_consensus (replicate 64 0) empty_index [first_header; second_header] = Some st /\
  GetLocator st.(blocks) [] (Some 1%nat) = Some vHave /\ FindForkInGlobalIndex st (path st.(blocks) 0) vHave = Some (Some r).
Proof.
  destruct demo_index_ok as (st & E & Hst & Hlen & Hh0 & Hup); destruct (up_height st.(blocks) (ix_tree _ _ _ Hst) 1 1 0 ltac:(lia) Hup) as (_ & Hle & Hh1); destruct (locator_finds_fork demo_consensus [first_header; second_header] st (path st.(blocks) 0) [] 1) as (v & _ & _ & r & _ & H1 & _ & _ & _ & _ & H2 & _).
  - exact Hst.
  - right; exists O; split; [lia|done].
  - by left.
  - lia.
  - lia.
  - replace (height_of st.(blocks) 1) with 1%nat by lia; rewrite Hup; unfold path; by rewrite Hh0.
  - exists st, v, r; split; [exact E|]; split; [exact H1|exact H2].
Defined.
